(* ===== verification/_CoqProject ===== *)
-Q . S2P
Prelude.v
Bytes.v
VslotSet.v
VslotSetSpec.v
ShardMap.v
ShardMapSpec.v
Types.v
Frame.v
FrameSpec.v
Commitment.v
Batcher.v
BatcherSpec.v
Fees.v
Pending.v
Unconfirmed.v
NonceAhead.v
Resync.v
State.v
StateFacts.v
StateOps.v
StateExpiry.v
StateSpec.v
ResyncSpec.v
SequencerConfig.v
TxDecode.v
Sequencer.v
SequencerFacts.v
SequencerSpec.v
SequencerFlush.v
SequencerInv.v
SequencerRun.v
SequencerFate.v
Java.v
SealerVoid.v
SealerVersions.v
SealerWindows.v
SealerTable.v
SealerBitmap.v
SealerWindowsSpec.v
SealerState.v
SealerFacts.v
SealerSpec.v
SealerRefs.v
SealerOrder.v
SealerVotes.v
SealerInv.v
SealerPriority.v
SealerSnapshot.v
SealerRestore.v
SealerAgree.v
SealerRestart.v
WriteSet.v
WriteSetSpec.v
Effects.v
ExecScope.v
ExecScopeSpec.v
ExecSample.v
ExecBlockSpec.v
StmMv.v
StmMvSpec.v
StmView.v
StmWorker.v
StmTail.v
StmInv.v
StmCredit.v
StmLanes.v
StmSpec.v
StmRelease.v
StmTouch.v
StmPredict.v
StmGraph.v
StmPool.v
StmGraphInv.v
StmGraphStep.v
StmGraphQueue.v
StmGraphTree.v
StmPlan.v
StmPoolInv.v
StmPoolSpec.v
StmPoolLive.v
