(* ===== verification/Prelude.v ===== *)
(** * Kardamom: a verification of the ordering, execution and batching core

    ** The program

    Kardamom is an Ethereum rollup. A client sends a transaction to an ingress,
    which routes it by its sender to one partition of sequencers. A sequencer
    ([crates/sequencer]) puts the transactions of a sender in nonce order and
    offers references to them to the sealer, a replicated Java state machine
    ([cluster/sealer-service]) that orders every record once, closes blocks on
    its clock and interleaves the epochs of L1 and of peer chains. An executor
    runs the ordered records ([crates/exec-core]), in sequence or on the
    Block-STM engine ([crates/stm]). The batcher ([crates/batcher]) packs the
    sealed blocks into payloads for L1, from which a reader rebuilds them.

    ** The files

    Shared: this prelude (results, machine integers, ordered maps, list lemmas),
    [Bytes] (integer encodings and byte readers), [Types] (positions, receipts
    and rejections of [crates/types]), [Java] (longs that wrap, byte buffers and
    linked hash maps).

    Routing and fees: [VslotSet] and [ShardMap] with their [Spec] files
    ([types/src/shard_map.rs] and [rebalance.rs]); [Fees] ([types/src/fees.rs],
    [sequencer/src/fees.rs]).

    Sequencer: [Pending] ([pending.rs]); [Unconfirmed] ([unconfirmed.rs]);
    [NonceAhead] ([nonce_ahead.rs]); [Resync] and [ResyncSpec] ([resync/]); [State] with [StateFacts], [StateOps],
    [StateExpiry] and [StateSpec] ([state/mod.rs]); [SequencerConfig]
    ([config.rs], [partition.rs]); [TxDecode]
    ([tx_decode.rs]); [Sequencer] ([sequencer.rs] and its submodules) with
    [SequencerFacts], [SequencerSpec], [SequencerFlush], [SequencerInv],
    [SequencerRun] and [SequencerFate]. The publish loop is a state monad over a
    core, its ports and a trace of effects.

    Sealer: [SealerVoid] ([VoidLedger.java]); [SealerVersions]
    ([RecordedCursors.java], [DecisionRules.java], [VersionSwitch.java]);
    [SealerWindows] ([SessionWindows.java]) with [SealerTable], [SealerBitmap]
    and [SealerWindowsSpec]; [SealerState] ([CanonicalSealerState.java],
    [SealerSeed.java]) with [SealerFacts], [SealerSpec], [SealerRefs],
    [SealerOrder], [SealerVotes] and [SealerInv]; [SealerPriority]
    ([OrderingWindow.java]); [SealerSnapshot] (the snapshot of the state, and the start of a
    member in [SealerClusteredService.java]) with [SealerRestore], [SealerAgree] and
    [SealerRestart].

    Batcher: [Frame] and [FrameSpec] ([frame.rs]); [Commitment]
    ([types/src/prover.rs], [xchain/leaf.rs]); [Batcher] and [BatcherSpec]
    ([batch.rs], [batcher.rs], [recon.rs], [compress.rs]).

    Execution: [WriteSet] and [WriteSetSpec] ([exec-core/src/delta.rs],
    [code_hash.rs], [executor/write_set.rs]); [Effects] (finite trees of
    questions); [ExecScope] ([settle.rs], [executor/scope.rs], [db.rs],
    [skip.rs], [burn.rs], [tx_env.rs] and [stm/src/execute/sequential.rs]) with
    [ExecScopeSpec], [ExecBlockSpec] and the instances of [ExecSample]. A
    transaction is the tree of the questions that the EVM puts to its database.

    Block-STM: [StmMv] and [StmMvSpec] ([stm/src/mv.rs]); [StmView]
    ([execute/view.rs], [session.rs], [acquire.rs]); [StmWorker]
    ([worker_execute.rs]); [StmTail] ([tail.rs], [hash_validate.rs]). A worker is
    a tree of accesses to the shared caches, and a schedule interleaves the trees
    access by access. [StmInv] has the rely and guarantee of a worker, [StmCredit]
    the fee sink and the layered input, [StmLanes] the lanes of the tail;
    [StmSpec] and [StmRelease] state the theorems.

    Its scheduler: [StmTouch] ([touch.rs]); [StmPredict] ([footprint/classifier.rs],
    [prepare.rs]); [StmGraph] ([graph.rs], [predecessor.rs], [session.rs],
    [worker.rs]); [StmPool] (the threads of a block). A function of the scheduler is
    a tree of atomic events over the context that the feed, the workers and the tail
    thread share; a turn gives one thread one event. [StmGraphInv] has the invariant:
    every transaction has a phase, every thread a hand of tokens, and a token in a
    hand or a structure accounts for each phase. [StmGraphStep],
    [StmGraphQueue] and [StmGraphTree] show it over the events and the trees,
    [StmPlan] over the admission of a block and [StmPoolInv] over the threads;
    [StmPoolSpec] and [StmPoolLive] state the theorems.

    ** The correspondence

    A definition has the name of the function it translates, in a module with
    the name of its type. An unsigned integer is an [N] and a Java [long] a [Z];
    the operations that saturate, check or wrap say so. A fallible function
    answers [result], a Java exception is a value of a sum type, and a channel a
    queue with a closed flag. A hash map is a [gmap], with the order of an
    iteration as an argument; a [LinkedHashMap] is an association list in its
    order. Metrics, log lines and text labels are left out.

    ** What the theorems show

    - The sealer emits a dense stream, orders a record and a reference once,
      keeps the nonces of a sender contiguous, voids a record only with every
      voter, keeps its state well formed and reopens a full window. A member that
      starts from a snapshot answers every later entry of the log as its peers do,
      for horizons of at most 2047 blocks and as long as no vote names a reference
      that has left the void window; such a vote splits them.
    - The sequencer loop keeps every buffered reference at or above the floor of
      its sender, publishes dense nonce runs (and re-offers below them only of
      refused nonces), accounts for every transaction it takes while its buffers are
      enabled, serves only its partition and stays silent for slots it hands over.
    - The resync controller holds only floors with evidence, and the ledgers and
      watches report exactly what is due.
    - What the batcher posts is within the ceiling and is what a reader rebuilds;
      the codecs invert and refuse truncations.
    - Routing spreads the slots evenly, and a rebalance to another number of lanes
      moves the fewest slots.
    - Block-STM returns the receipts and the delta of the sequential engine under
      every interleaving of its workers. A clean block may release its caches to
      its successor before its verdict, and a pool that is scrubbed and advanced is
      fresh for the next block. The session ([session_ok]) has no EIP-7702
      delegation, no account that destroys itself, and no transaction that reads the
      fee sink or is sent by it; the sink it is bound to is the one of its layers,
      and its base cache agrees with the snapshot ([fresh]). Two computed samples
      show what the engine does outside of the last two.
    - The delta of a block without delegations and self-destructs is the whole of
      its state change (the write set carries neither), the encoding of a
      write set is injective and fits its buffer, and neither the order of the
      EVM's maps nor that of the lanes shows in a hash.
    - The scheduler of Block-STM runs each transaction once and after all that it
      conflicts with, keeps the transactions of a sender in order whatever was
      learned, and never wedges: the threads of a block of at most [MAX_BLOCK_TXS]
      transactions whose cells fit the toucher index can always go on to drain it. Its last-toucher table is a map while the cells fit, and a full table
      hangs the feed.
    - Theorems of kind error fix what the code does where its documentation says
      otherwise; the manifest lists them as findings.

    ** Parameters

    Keccak, SHA-256, zstd, the 256-bit integers of the fee code, revm with its
    block cache, the RLP decoder of the consensus library and the clock are
    parameters; the laws used of them are
    fields of a class or hypotheses of a section, and each is instantiated by
    the witness of a theorem that uses it. The code behind a hash is a function of the
    hash ([Content]), which takes code hashes not to collide.

    ** Bounds and fuel

    Loops that the source bounds by a counter recurse on that counter. The
    bisection of the packer runs on fuel that is shown to be enough
    ([packing_total]). The probe loops of the open-address tables run for as
    many steps as the table has slots, which is enough because a table keeps a
    free slot.
    An effect tree is finite: it stands for a transaction that its gas limit
    ends. The schedules of the witnesses give each transaction more turns than
    its tree has accesses; the theorems on draining have no such number. The probe of
    the last-toucher table runs for one turn around it, after which it repeats.

    ** Not modelled

    Of the clustered service around the sealer state the wire frames and the
    egress with its retention; the second sequencer pipeline ([sequencer/src/v2]), the
    epoch pumps and the admission pool; of Block-STM the sharded admission, the
    pipelining of blocks, the wakes of parked threads and memory orders weaker than
    sequential consistency; deposits, cross-chain records and access lists in
    execution; the ingress, the engine actors, the validator, the state database, the L1 services and the Solidity contracts.
    These are I/O loops, storage back ends or code of their own size; the
    manifest names each with its reason. *)

From Stdlib Require Export Lia.
From stdpp Require Export sorting.
From stdpp Require Export prelude gmap list.

Create Rewrite HintDb pstate.

(** ** Results

    A fallible Rust function returns [Result<A, E>]. *)
Inductive result (E A : Type) : Type :=
| Ok (a : A)
| Err (e : E).
Arguments Ok {E A} _.
Arguments Err {E A} _.

#[export] Instance result_ret E : MRet (result E) := λ A a, Ok a.
#[export] Instance result_bind E : MBind (result E) := λ A B f m,
  match m with Ok a => f a | Err e => Err e end.
#[export] Instance result_fmap E : FMap (result E) := λ A B f m,
  match m with Ok a => Ok (f a) | Err e => Err e end.

Definition is_ok {E A} (r : result E A) : bool :=
  match r with Ok _ => true | Err _ => false end.

(** [Option::ok_or]. *)
Definition ok_or {E A} (o : option A) (e : E) : result E A :=
  match o with Some a => Ok a | None => Err e end.

(** [Iterator::try_for_each] and [try_fold] over a list. *)
Fixpoint try_fold {E A B} (f : B → A → result E B) (b : B) (l : list A) : result E B :=
  match l with
  | [] => Ok b
  | x :: l' => match f b x with Ok b' => try_fold f b' l' | Err e => Err e end
  end.

(** ** Machine integers

    An unsigned [w]-bit integer is an [N]; the width shows in the operations
    that saturate, check or wrap. *)
Definition u8_max : N := 255.
Definition u16_max : N := 65535.
Definition u32_max : N := 4294967295.
Definition u64_max : N := 18446744073709551615.
Definition u128_max : N := 340282366920938463463374607431768211455.

Definition u64_saturating_add (a b : N) : N := N.min (a + b) u64_max.
Definition u64_checked_add (a b : N) : option N :=
  if (a + b <=? u64_max)%N then Some (a + b)%N else None.
Definition u64_checked_mul (a b : N) : option N :=
  if (a * b <=? u64_max)%N then Some (a * b)%N else None.

(** [u32::try_from] and [u8::try_from] on a wider unsigned value. *)
Definition u32_try_from (a : N) : option N := if (a <=? u32_max)%N then Some a else None.
Definition u8_try_from (a : N) : option N := if (a <=? u8_max)%N then Some a else None.

(** [Instant] and [Duration] count ticks of the monotonic clock. A Rust
    [Instant::duration_since] saturates at zero, as the subtraction of [N]
    does. *)
Abbreviation Instant := N (only parsing).
Abbreviation Duration := N (only parsing).

(** A 20-byte address, as the number its big-endian bytes spell: the order of
    the numbers is the order of the byte arrays. *)
Abbreviation Address := N (only parsing).
(** A 32-byte hash, likewise. *)
Abbreviation B256 := N (only parsing).

(** The run [start, start + 1, ...] of [len] nonces. *)
Fixpoint nseq (start : N) (len : nat) : list N :=
  match len with
  | O => []
  | S len' => start :: nseq (start + 1) len'
  end.

(** ** Ordered maps

    A Rust [BTreeMap] is a [gmap]; [btree_list] is its iteration, ascending by
    key. A [HashMap] is a [gmap] too; the places where the source iterates one
    take the order of iteration as an argument. *)
Class KeyOrder (K : Type) := {
  key_le : K → K → Prop;
  key_le_dec : RelDecision key_le;
  key_le_trans : Transitive key_le;
  key_le_total : Total key_le;
  key_le_antisymm : AntiSymm (=) key_le;
}.
#[export] Existing Instance key_le_dec.
#[export] Existing Instance key_le_trans.
#[export] Existing Instance key_le_total.
#[export] Existing Instance key_le_antisymm.

#[export] Instance N_key_order : KeyOrder N :=
  {| key_le := N.le; key_le_dec := N.le_dec; key_le_trans := N.le_trans;
     key_le_total := N.le_total; key_le_antisymm := _ |}.

Definition pair_key_le {K1 K2} `{EqDecision K1} `{KeyOrder K1} `{KeyOrder K2}
    (p q : K1 * K2) : Prop :=
  if decide (p.1 = q.1) then key_le p.2 q.2 else key_le p.1 q.1.

Lemma key_le_eq {K} `{KeyOrder K} (x y : K) : key_le x y → key_le y x → x = y.
Proof. apply (anti_symm key_le). Qed.

Section pair_order.
Context {K1 K2 : Type} `{EqDecision K1} `{KeyOrder K1} `{KeyOrder K2}.

#[export] Instance pair_key_le_dec : RelDecision (pair_key_le (K1:=K1) (K2:=K2)).
Proof. intros p q; unfold pair_key_le; destruct (decide (p.1 = q.1)); apply _. Defined.
#[export] Instance pair_key_le_trans : Transitive (pair_key_le (K1:=K1) (K2:=K2)).
Proof.
  intros [a1 a2] [b1 b2] [c1 c2]; unfold pair_key_le; cbn.
  repeat case_decide; subst; try done; intros; try by etrans.
  exfalso; eauto using key_le_eq.
Qed.
#[export] Instance pair_key_le_total : Total (pair_key_le (K1:=K1) (K2:=K2)).
Proof.
  intros [a1 a2] [b1 b2]; unfold pair_key_le; cbn.
  repeat case_decide; subst; try done; apply (total key_le).
Qed.
#[export] Instance pair_key_le_antisymm : AntiSymm (=) (pair_key_le (K1:=K1) (K2:=K2)).
Proof.
  intros [a1 a2] [b1 b2]; unfold pair_key_le; cbn.
  repeat case_decide; subst; try done; intros.
  - f_equal; eauto using key_le_eq.
  - exfalso; eauto using key_le_eq.
Qed.
#[export] Instance pair_key_order : KeyOrder (K1 * K2) := {| key_le := pair_key_le |}.
End pair_order.

Section btree.
Context {K V : Type} `{Countable K} `{KeyOrder K}.

Definition entry_le (a b : K * V) : Prop := key_le a.1 b.1.
#[export] Instance entry_le_dec : RelDecision entry_le.
Proof. intros a b; unfold entry_le; apply _. Defined.
#[export] Instance entry_le_trans : Transitive entry_le.
Proof. intros a b c; unfold entry_le; apply key_le_trans. Qed.
#[export] Instance entry_le_total : Total entry_le.
Proof. intros a b; unfold entry_le; apply key_le_total. Qed.

Definition btree_list (m : gmap K V) : list (K * V) := merge_sort entry_le (map_to_list m).

Lemma btree_list_perm (m : gmap K V) : btree_list m ≡ₚ map_to_list m.
Proof. apply merge_sort_Permutation. Qed.

Lemma elem_of_btree_list (m : gmap K V) k v : (k, v) ∈ btree_list m ↔ m !! k = Some v.
Proof. rewrite btree_list_perm. apply elem_of_map_to_list. Qed.

Lemma btree_list_NoDup (m : gmap K V) : NoDup (btree_list m).*1.
Proof. rewrite btree_list_perm. apply NoDup_fst_map_to_list. Qed.

Lemma btree_list_sorted (m : gmap K V) : StronglySorted entry_le (btree_list m).
Proof. apply StronglySorted_merge_sort; apply _. Qed.

Lemma btree_list_length (m : gmap K V) : length (btree_list m) = size m.
Proof. rewrite btree_list_perm. apply length_map_to_list. Qed.
End btree.

(** ** Lemmas on ordered maps *)
Section btree_facts.
Context {K V : Type} `{Countable K} `{KeyOrder K}.

Lemma key_le_refl (k : K) : key_le k k.
Proof. by destruct (total key_le k k). Qed.

Lemma StronglySorted_last {A} (R : relation A) l x y :
  StronglySorted R l → last l = Some x → y ∈ l → y = x ∨ R y x.
Proof.
  intros Hs (l' & ->)%last_Some [Hy|Hy]%elem_of_app.
  - right. eapply StronglySorted_app_1_elem_of; set_solver.
  - left. set_solver.
Qed.

Lemma btree_last (m : gmap K V) k v :
  last (btree_list m) = Some (k, v) →
  m !! k = Some v ∧ ∀ k' v', m !! k' = Some v' → key_le k' k.
Proof.
  intros Hl. split.
  - apply elem_of_btree_list. by apply last_Some_elem_of.
  - intros k' v' Hk'%elem_of_btree_list.
    destruct (StronglySorted_last _ _ _ _ (btree_list_sorted m) Hl Hk') as [[=->->]|Hle];
      [apply key_le_refl | done].
Qed.

Lemma btree_last_is_Some (m : gmap K V) : m ≠ ∅ → is_Some (last (btree_list m)).
Proof.
  intros Hm. rewrite last_is_Some. intros Hnil. apply Hm, map_size_empty_inv.
  by rewrite <-btree_list_length, Hnil.
Qed.
End btree_facts.

(** ** Sorted lists *)
Lemma StronglySorted_filter {A} (R : relation A) (P : A → Prop) `{∀ x, Decision (P x)} l :
  StronglySorted R l → StronglySorted R (filter P l).
Proof.
  induction 1 as [|x l Hs IH Hx]; [constructor|]. rewrite filter_cons.
  case_decide; [|done]. constructor; [done|]. apply Forall_forall.
  intros y [_ Hy]%list_elem_of_filter. by apply (proj1 (Forall_forall _ _) Hx).
Qed.

Lemma StronglySorted_fmap {A B} (R : relation A) (S : relation B) (f : A → B) l :
  (∀ x y, R x y → S (f x) (f y)) → StronglySorted R l → StronglySorted S (f <$> l).
Proof.
  intros Hf. induction 1 as [|x l Hs IH Hx]; cbn; constructor; [done|].
  apply Forall_fmap. eapply Forall_impl; [exact Hx|]. intros y. apply Hf.
Qed.

(** The keys of a listing are strictly ascending. *)
Lemma btree_keys_sorted {V} (m : gmap N V) : StronglySorted N.lt (btree_list m).*1.
Proof.
  pose proof (btree_list_sorted m) as Hs. pose proof (btree_list_NoDup m) as Hnd.
  induction Hs as [|[k v] l Hs IH Hx]; cbn in *; constructor.
  - apply IH. by apply NoDup_cons in Hnd as [_ ?].
  - apply Forall_fmap, Forall_forall. intros [k' v'] Hin. cbn.
    apply (proj1 (Forall_forall _ _) Hx) in Hin as Hle. cbn in Hle.
    assert (k ≠ k'); [|unfold entry_le in Hle; cbn in Hle; lia].
    intros ->. apply NoDup_cons in Hnd as [Hni _]. apply Hni, list_elem_of_fmap. by exists (k', v').
Qed.

(** ** Lemmas on nonce runs *)
Lemma length_nseq s n : length (nseq s n) = n.
Proof. revert s; induction n; intros; cbn; auto. Qed.

Lemma elem_of_nseq s n k : k ∈ nseq s n ↔ (s ≤ k < s + N.of_nat n)%N.
Proof.
  revert s; induction n as [|n IH]; intros s; cbn [nseq].
  - split; [set_solver | lia].
  - rewrite elem_of_cons, IH. lia.
Qed.

Lemma nseq_app s n m : nseq s (n + m) = nseq s n ++ nseq (s + N.of_nat n) m.
Proof.
  revert s; induction n as [|n IH]; intros s; cbn [nseq Nat.add app].
  - f_equal; lia.
  - rewrite IH. do 3 f_equal; lia.
Qed.

Lemma NoDup_nseq s n : NoDup (nseq s n).
Proof.
  revert s; induction n as [|n IH]; intros s; cbn [nseq]; constructor; auto.
  rewrite elem_of_nseq. lia.
Qed.

Lemma lookup_nseq s n i : i < n → nseq s n !! i = Some (s + N.of_nat i)%N.
Proof.
  revert s i; induction n as [|n IH]; intros s i Hi; [lia|]. destruct i as [|i]; cbn.
  - f_equal; lia.
  - rewrite IH by lia. f_equal; lia.
Qed.

(** ** Lemmas on association lists *)
Lemma NoDup_fmap_fst_eq {A B} (l : list (A * B)) k v w :
  NoDup l.*1 → (k, v) ∈ l → (k, w) ∈ l → v = w.
Proof.
  induction l as [|[x y] l IH]; cbn; intros Hnd Hv Hw; [by apply elem_of_nil in Hv|].
  apply NoDup_cons in Hnd as [Hni Hnd].
  assert (Hout : ∀ u, (x, u) ∉ l) by (intros u Hu; apply Hni, list_elem_of_fmap; by exists (x, u)).
  apply elem_of_cons in Hv as [Hv|Hv], Hw as [Hw|Hw]; simplify_eq; auto;
    exfalso; eapply Hout; eauto.
Qed.
