(* ===== verification/Bytes.v ===== *)
(** * Byte strings: integer encodings and the cursor of a decoder

    Shared by the codecs and the routing rule. A byte is an [N] below 256 and a
    byte string a [list N]. [to_le_bytes n v] and [from_le_bytes] are the Rust
    methods of an [n]-byte unsigned integer, and likewise big-endian. A decoder
    is a [Reader]: it takes the unread rest of a buffer and answers a value with
    the rest after it. [reads r bs a] says that [r] takes exactly [bs], whatever
    follows, and answers [a]; [local r] says that bytes behind what [r] takes do
    not matter to it. *)
From S2P Require Import Prelude.

Fixpoint to_le_bytes (n : nat) (v : N) : list N :=
  match n with
  | O => []
  | S n' => (v mod 256)%N :: to_le_bytes n' (v / 256)
  end.

Fixpoint from_le_bytes (bs : list N) : N :=
  match bs with
  | [] => 0
  | b :: bs' => b + 256 * from_le_bytes bs'
  end.

Definition to_be_bytes (n : nat) (v : N) : list N := rev (to_le_bytes n v).
Definition from_be_bytes (bs : list N) : N := from_le_bytes (rev bs).

(** Every element is a byte. *)
Definition bytes_ok (bs : list N) : Prop := Forall (λ b, (b < 256)%N) bs.

Lemma length_to_le_bytes n v : length (to_le_bytes n v) = n.
Proof. revert v. induction n as [|n IH]; intros v; cbn; [done|]. by rewrite IH. Qed.

Lemma length_to_be_bytes n v : length (to_be_bytes n v) = n.
Proof. unfold to_be_bytes. by rewrite length_rev, length_to_le_bytes. Qed.

Lemma to_le_bytes_ok n v : bytes_ok (to_le_bytes n v).
Proof.
  revert v. induction n as [|n IH]; intros v; cbn; [constructor|].
  constructor; [apply N.mod_lt; lia | apply IH].
Qed.

Lemma bytes_ok_rev bs : bytes_ok bs → bytes_ok (rev bs).
Proof. apply List.Forall_rev. Qed.

Lemma bytes_ok_app bs cs : bytes_ok (bs ++ cs) ↔ bytes_ok bs ∧ bytes_ok cs.
Proof. apply Forall_app. Qed.

Lemma to_be_bytes_ok n v : bytes_ok (to_be_bytes n v).
Proof. apply bytes_ok_rev, to_le_bytes_ok. Qed.

Lemma pow256_succ n : (256 ^ N.of_nat (S n) = 256 * 256 ^ N.of_nat n)%N.
Proof. rewrite Nat2N.inj_succ. apply N.pow_succ_r'. Qed.

Lemma from_to_le n v : (v < 256 ^ N.of_nat n)%N → from_le_bytes (to_le_bytes n v) = v.
Proof.
  revert v. induction n as [|n IH]; intros v Hv; cbn [to_le_bytes from_le_bytes].
  - cbn in Hv. lia.
  - rewrite pow256_succ in Hv. rewrite IH by (apply N.Div0.div_lt_upper_bound; lia).
    pose proof (N.div_mod v 256 ltac:(lia)). lia.
Qed.

Lemma to_from_le bs : bytes_ok bs → to_le_bytes (length bs) (from_le_bytes bs) = bs.
Proof.
  induction 1 as [|b bs Hb _ IH]; cbn [length to_le_bytes from_le_bytes]; [done|]. f_equal.
  - rewrite N.mul_comm, N.Div0.mod_add. by apply N.mod_small.
  - rewrite (N.add_comm b), N.mul_comm, N.div_add_l, N.div_small by lia. by rewrite N.add_0_r.
Qed.

Lemma from_le_bound bs : bytes_ok bs → (from_le_bytes bs < 256 ^ N.of_nat (length bs))%N.
Proof.
  induction 1 as [|b bs Hb _ IH]; cbn [length from_le_bytes]; [done|].
  rewrite pow256_succ. lia.
Qed.

Lemma from_to_be n v : (v < 256 ^ N.of_nat n)%N → from_be_bytes (to_be_bytes n v) = v.
Proof. intros Hv. unfold from_be_bytes, to_be_bytes. rewrite rev_involutive. by apply from_to_le. Qed.

Lemma to_from_be bs : bytes_ok bs → to_be_bytes (length bs) (from_be_bytes bs) = bs.
Proof.
  intros Hb. unfold from_be_bytes, to_be_bytes.
  rewrite <- (length_rev bs), to_from_le by (by apply bytes_ok_rev). apply rev_involutive.
Qed.

Lemma from_be_bound bs : bytes_ok bs → (from_be_bytes bs < 256 ^ N.of_nat (length bs))%N.
Proof. intros Hb. rewrite <- (length_rev bs). by apply from_le_bound, bytes_ok_rev. Qed.

(** The last big-endian byte is the value modulo 256. *)
Lemma to_be_last n v : to_be_bytes (S n) v !! n = Some (v mod 256)%N.
Proof.
  unfold to_be_bytes. cbn [to_le_bytes rev].
  rewrite lookup_app_r; rewrite length_rev, length_to_le_bytes; [|lia].
  by rewrite Nat.sub_diag.
Qed.

(** ** Readers *)

Definition Reader (E A : Type) : Type := list N → result E (A * list N).

#[export] Instance reader_ret E : MRet (Reader E) := λ A a buf, Ok (a, buf).
#[export] Instance reader_bind E : MBind (Reader E) := λ A B f r buf,
  match r buf with Ok (a, rest) => f a rest | Err e => Err e end.

Definition fail {E A} (e : E) : Reader E A := λ _, Err e.

(** A loop that reads [n] items and collects them. *)
Fixpoint read_many {E A} (r : Reader E A) (n : nat) : Reader E (list A) :=
  match n with
  | O => mret []
  | S n' => a ← r; l ← read_many r n'; mret (a :: l)
  end.

Definition reads {E A} (r : Reader E A) (bs : list N) (a : A) : Prop :=
  ∀ rest, r (bs ++ rest) = Ok (a, rest).

(** [r] looks only at what it takes: more bytes behind the buffer change nothing. *)
Definition local {E A} (r : Reader E A) : Prop :=
  ∀ buf a rest more, r buf = Ok (a, rest) → r (buf ++ more) = Ok (a, rest ++ more).

Create HintDb codec.

Section readers.
Context {E : Type}.

Lemma reads_ret {A} (a : A) : reads (E:=E) (mret a) [] a.
Proof. done. Qed.

Lemma reads_bind {A B} (r : Reader E A) (f : A → Reader E B) bs cs a b :
  reads r bs a → reads (f a) cs b → reads (r ≫= f) (bs ++ cs) b.
Proof.
  intros Hr Hf rest. unfold mbind, reader_bind. rewrite <- app_assoc, Hr. apply Hf.
Qed.

Lemma reads_bind_ret {A B} (r : Reader E A) (f : A → Reader E B) bs a b :
  reads r bs a → f a = mret b → reads (r ≫= f) bs b.
Proof.
  intros Hr Hf rest. unfold mbind, reader_bind. by rewrite Hr, Hf.
Qed.

Lemma reads_many {A} (r : Reader E A) (enc : A → list N) (l : list A) :
  Forall (λ a, reads r (enc a) a) l → reads (read_many r (length l)) (l ≫= enc) l.
Proof.
  induction 1 as [|a l Ha _ IH]; cbn [length read_many]; [apply reads_ret|].
  cbn. apply reads_bind with (a := a); [done|].
  by apply reads_bind_ret with (a := l).
Qed.

Lemma local_ret {A} (a : A) : local (E:=E) (mret a).
Proof. intros buf x rest more [= <- <-]. done. Qed.

Lemma local_fail {A} (e : E) : local (A:=A) (fail e).
Proof. done. Qed.

Lemma local_bind {A B} (r : Reader E A) (f : A → Reader E B) :
  local r → (∀ a, local (f a)) → local (r ≫= f).
Proof.
  intros Hr Hf buf b rest more. unfold mbind, reader_bind.
  destruct (r buf) as [[a mid]|] eqn:Er; [|done]. rewrite (Hr _ _ _ more Er). apply Hf.
Qed.

Lemma local_many {A} (r : Reader E A) n : local r → local (read_many r n).
Proof.
  intros Hr. induction n as [|n IH]; cbn [read_many]; [apply local_ret|].
  apply local_bind; [done|]. intros a. apply local_bind; [done|]. intros l. apply local_ret.
Qed.

(** A reader that takes all of [bs] takes nothing from a proper prefix of it. *)
Lemma local_prefix {A} (r : Reader E A) bs pre tail a :
  local r → reads r bs a → bs = pre ++ tail → tail ≠ [] → ∃ e, r pre = Err e.
Proof.
  intros Hl Hr -> Ht. destruct (r pre) as [[b rest]|e] eqn:E1; [|by exists e]. exfalso.
  apply (Hl _ _ _ tail) in E1. specialize (Hr []). rewrite app_nil_r, E1 in Hr.
  injection Hr as _ Hnil. by apply app_eq_nil in Hnil as [_ ?].
Qed.
End readers.

#[export] Hint Resolve reads_ret local_ret local_fail local_bind local_many : codec.
