(* ===== verification/VslotSet.v ===== *)
(** * Sets of virtual slots (types/src/shard_map.rs)

    [VslotSet] is the 256-bit set of four [u64] words, with its operations and
    its text form: a comma-separated list of ranges. A Rust [str] is the list of
    its code points. The theorems read the words as a set of slots and show that
    printing and parsing are inverse. *)
From S2P Require Import Prelude.

(** ** The string operations the text form uses *)

(** [char::is_whitespace]: the White_Space code points. *)
Definition is_whitespace (c : N) : bool :=
  ((9 <=? c) && (c <=? 13) || (c =? 32) || (c =? 133) || (c =? 160) || (c =? 5760) ||
   (8192 <=? c) && (c <=? 8202) || (c =? 8232) || (c =? 8233) || (c =? 8239) || (c =? 8287) || (c =? 12288))%N.

Fixpoint trim_start (s : list N) : list N :=
  match s with
  | [] => []
  | c :: s' => if is_whitespace c then trim_start s' else s
  end.

(** [str::trim]. *)
Definition trim (s : list N) : list N := rev (trim_start (rev (trim_start s))).

(** [str::split] on one character. *)
Fixpoint split (sep : N) (s : list N) : list (list N) :=
  match s with
  | [] => [[]]
  | c :: s' =>
      if (c =? sep)%N then [] :: split sep s'
      else match split sep s' with
           | [] => [[c]]
           | part :: parts => (c :: part) :: parts
           end
  end.

(** [str::split_once] on one character. *)
Fixpoint split_once (sep : N) (s : list N) : option (list N * list N) :=
  match s with
  | [] => None
  | c :: s' =>
      if (c =? sep)%N then Some ([], s')
      else match split_once sep s' with
           | Some (a, b) => Some (c :: a, b)
           | None => None
           end
  end.

Fixpoint u8_digits (acc : N) (s : list N) : option N :=
  match s with
  | [] => Some acc
  | c :: s' =>
      if ((48 <=? c) && (c <=? 57))%N then
        acc' ← u8_try_from (acc * 10 + (c - 48))%N; u8_digits acc' s'
      else None
  end.

(** [str::parse::<u8>]: an optional plus sign, then decimal digits up to 255. *)
Definition parse_u8 (s : list N) : option N :=
  match s with
  | [] => None
  | c :: rest =>
      if (c =? 43)%N then match rest with [] => None | _ :: _ => u8_digits 0 rest end
      else u8_digits 0 s
  end.

(** The [Display] text of a [u8]. *)
Definition show_u8 (n : N) : list N :=
  (if n <? 10 then [48 + n]
   else if n <? 100 then [48 + n / 10; 48 + n mod 10]
   else [48 + n / 100; 48 + n / 10 mod 10; 48 + n mod 10])%N.

(** The range [lo..=hi]. *)
Definition range_incl (lo hi : N) : list N := nseq lo (N.to_nat (hi + 1 - lo)).

(** ** Ranges *)

Inductive VslotSetParseError : Type := BadRange (part : list N).

Record VslotRange : Type := mkRange { lo : N; hi : N }.

Module VslotRange.
Definition parse (part : list N) : result VslotSetParseError VslotRange :=
  let '(a, b) := default (part, part) (split_once 45 part) in
  match parse_u8 (trim a), parse_u8 (trim b) with
  | Some lo, Some hi => if (lo <=? hi)%N then Ok (mkRange lo hi) else Err (BadRange part)
  | _, _ => Err (BadRange part)
  end.

Definition write (r : VslotRange) : list N :=
  if (lo r =? hi r)%N then show_u8 (lo r) else show_u8 (lo r) ++ 45%N :: show_u8 (hi r).

Definition push (r : VslotRange) (v : N) : VslotRange * option VslotRange :=
  if bool_decide (u8_try_from (hi r + 1) = Some v) then (mkRange (lo r) v, None)
  else (mkRange v v, Some r).
End VslotRange.

(** ** Sets *)

Record VslotSet : Type := mkSet { words : list N }.

#[export] Instance VslotSet_eq_dec : EqDecision VslotSet.
Proof. solve_decision. Defined.

(** The bitwise complement of a [u64]. *)
Definition u64_not (w : N) : N := N.lnot w 64.

Definition count_ones (w : N) : nat := length (filter (λ i, N.testbit w i = true) (nseq 0 64)).

Module VslotSet.
Definition EMPTY : VslotSet := mkSet [0; 0; 0; 0]%N.

Definition full : VslotSet := mkSet [u64_max; u64_max; u64_max; u64_max].

Definition slot (vslot : N) : nat * N :=
  (N.to_nat (N.shiftr vslot 6), N.shiftl 1 (N.land vslot 63)).

Definition insert (s : VslotSet) (vslot : N) : VslotSet :=
  let '(word, bit) := slot vslot in mkSet (alter (λ w, N.lor w bit) word (words s)).

Definition with_ (s : VslotSet) (vslot : N) : VslotSet := insert s vslot.

Definition remove (s : VslotSet) (vslot : N) : VslotSet :=
  let '(word, bit) := slot vslot in mkSet (alter (λ w, N.land w (u64_not bit)) word (words s)).

Definition contains (s : VslotSet) (vslot : N) : bool :=
  let '(word, bit) := slot vslot in
  match words s !! word with
  | Some w => negb (N.land w bit =? 0)%N
  | None => false
  end.

Definition len (s : VslotSet) : nat := sum_list (count_ones <$> words s).

Definition is_empty (s : VslotSet) : bool := forallb (λ w, w =? 0)%N (words s).

Definition union (s t : VslotSet) : VslotSet := mkSet (zip_with N.lor (words s) (words t)).

Definition difference (s t : VslotSet) : VslotSet :=
  mkSet (zip_with (λ a b, N.land a (u64_not b)) (words s) (words t)).

Definition is_subset_of (s t : VslotSet) : bool :=
  forallb (λ '(a, b), N.land a (u64_not b) =? 0)%N (zip (words s) (words t)).

Definition iter (s : VslotSet) : list N := filter (λ v, contains s v = true) (range_incl 0 u8_max).

Definition parse (text : list N) : result VslotSetParseError VslotSet :=
  let parts := filter (λ part, part ≠ []) (trim <$> split 44 text) in
  try_fold (λ set part, r ← VslotRange.parse part; Ok (fold_left with_ (range_incl (lo r) (hi r)) set))
    EMPTY parts.

Definition extend_runs (out : list VslotRange) (open : option VslotRange) (v : N)
    : list VslotRange * option VslotRange :=
  match open with
  | None => (out, Some (mkRange v v))
  | Some open =>
      let '(open', done) := VslotRange.push open v in
      (out ++ option_list done, Some open')
  end.

Definition ranges (s : VslotSet) : list VslotRange :=
  let '(out, open) := fold_left (λ '(out, open) v, extend_runs out open v) (iter s) ([], None) in
  out ++ option_list open.

Definition write_range (i : nat) (r : VslotRange) : list N :=
  (if 0 <? i then [44%N] else []) ++ VslotRange.write r.

(** The [Display] text. *)
Definition to_string (s : VslotSet) : list N := mjoin (imap write_range (ranges s)).
End VslotSet.

(** ** The words as a set of slots *)

Definition wf_set (s : VslotSet) : Prop :=
  length (words s) = 4%nat ∧ Forall (λ w, (w ≤ u64_max)%N) (words s).

Lemma word_bits w : (w ≤ u64_max)%N ↔ ∀ i, (64 ≤ i)%N → N.testbit w i = false.
Proof.
  change u64_max with (N.pred (2 ^ 64)). split.
  - intros Hw i Hi. rewrite <- (N.mod_small w (2 ^ 64)) by lia. by apply N.mod_pow2_bits_high.
  - intros Hb. assert (w = w mod 2 ^ 64)%N as Hm; [|pose proof (N.mod_lt w (2 ^ 64)); lia].
    apply N.bits_inj. intros i. destruct (N.lt_ge_cases i 64) as [Hi|Hi].
    + by rewrite N.mod_pow2_bits_low.
    + rewrite N.mod_pow2_bits_high by done. by apply Hb.
Qed.

Lemma land_bit w k : negb (N.land w (N.shiftl 1 k) =? 0)%N = N.testbit w k.
Proof.
  rewrite N.shiftl_1_l. destruct (N.testbit w k) eqn:Et.
  - apply negb_true_iff, N.eqb_neq. intros H0. apply (f_equal (λ x, N.testbit x k)) in H0.
    by rewrite N.land_spec, Et, N.pow2_bits_true, N.bits_0 in H0.
  - apply negb_false_iff, N.eqb_eq, N.bits_inj. intros i. rewrite N.land_spec, N.bits_0.
    destruct (N.eq_dec k i) as [->|Hne]; [by rewrite Et|]. by rewrite N.pow2_bits_false, andb_false_r.
Qed.

Lemma slot_parts v : VslotSet.slot v = (N.to_nat (v / 64), N.shiftl 1 (v mod 64)).
Proof.
  unfold VslotSet.slot. rewrite N.shiftr_div_pow2. change 63%N with (N.ones 6). by rewrite N.land_ones.
Qed.

Lemma contains_bit s v :
  VslotSet.contains s v = match words s !! N.to_nat (v / 64) with Some w => N.testbit w (v mod 64) | None => false end.
Proof. unfold VslotSet.contains. rewrite slot_parts. destruct (words s !! _); [apply land_bit | done]. Qed.

Lemma slot_word s v : wf_set s → (v < 256)%N → ∃ w, words s !! N.to_nat (v / 64) = Some w ∧ (w ≤ u64_max)%N.
Proof.
  intros [Hl Hw] Hv. destruct (lookup_lt_is_Some_2 (words s) (N.to_nat (v / 64))) as [w E].
  - rewrite Hl. pose proof (N.Div0.div_lt_upper_bound v 64 4). lia.
  - exists w. split; [done|]. by apply (Forall_lookup_1 _ _ _ _ Hw E).
Qed.

Lemma slot_split u v : (u / 64 = v / 64)%N → (u mod 64 = v mod 64)%N → u = v.
Proof. intros Hd Hm. rewrite (N.div_mod u 64), (N.div_mod v 64), Hd, Hm; lia. Qed.

(** Two sets with the same slots are the same words. *)
Lemma set_ext s t : wf_set s → wf_set t →
  (∀ v, (v < 256)%N → VslotSet.contains s v = VslotSet.contains t v) → s = t.
Proof.
  destruct s as [sw], t as [tw]. intros [Hs Fs] [Ht Ft] Hc; cbn [words] in *. f_equal.
  apply (list_eq_same_length _ _ 4); [done|congruence|]. intros i w w' Hi Ew Ew'.
  apply N.bits_inj. intros k. destruct (N.lt_ge_cases k 64) as [Hk|Hk].
  - specialize (Hc (N.of_nat i * 64 + k)%N ltac:(lia)). rewrite !contains_bit in Hc; cbn [words] in Hc.
    rewrite N.div_add_l, N.div_small, N.add_0_r, Nat2N.id, Ew, Ew' in Hc by lia.
    rewrite N.add_comm, N.Div0.mod_add, N.mod_small in Hc by done. done.
  - apply (Forall_lookup_1 _ _ _ _ Fs) in Ew. apply (Forall_lookup_1 _ _ _ _ Ft) in Ew'.
    rewrite word_bits in Ew, Ew'. by rewrite Ew, Ew'.
Qed.

Lemma alter_contains s (f : N → N) v u :
  wf_set s → (v < 256)%N → (u < 256)%N →
  VslotSet.contains (mkSet (alter f (N.to_nat (v / 64)) (words s))) u =
  if (u / 64 =? v / 64)%N
  then match words s !! N.to_nat (v / 64) with Some w => N.testbit (f w) (u mod 64) | None => false end
  else VslotSet.contains s u.
Proof.
  intros Hs Hv Hu. rewrite !contains_bit; cbn [words]. destruct (N.eqb_spec (u / 64) (v / 64)) as [->|Hne].
  - rewrite list_lookup_alter_eq. by destruct (words s !! _).
  - rewrite list_lookup_alter_ne by (intros E%N2Nat.inj; congruence). done.
Qed.

Lemma insert_contains s v u : wf_set s → (v < 256)%N → (u < 256)%N →
  VslotSet.contains (VslotSet.insert s v) u = (u =? v)%N || VslotSet.contains s u.
Proof.
  intros Hs Hv Hu. unfold VslotSet.insert. rewrite slot_parts, alter_contains by done.
  rewrite contains_bit. destruct (slot_word s v Hs Hv) as (w & Ew & _).
  destruct (N.eqb_spec (u / 64) (v / 64)) as [Hd|Hd].
  - rewrite Hd, Ew, N.lor_spec, N.shiftl_1_l, orb_comm. f_equal.
    destruct (N.eqb_spec u v) as [->|Hne]; [apply N.pow2_bits_true|].
    apply N.pow2_bits_false. intros Hm. apply Hne. by apply slot_split.
  - destruct (N.eqb_spec u v) as [->|]; done.
Qed.

Lemma remove_contains s v u : wf_set s → (v < 256)%N → (u < 256)%N →
  VslotSet.contains (VslotSet.remove s v) u = negb (u =? v)%N && VslotSet.contains s u.
Proof.
  intros Hs Hv Hu. unfold VslotSet.remove. rewrite slot_parts, alter_contains by done.
  rewrite contains_bit. destruct (slot_word s v Hs Hv) as (w & Ew & _).
  destruct (N.eqb_spec (u / 64) (v / 64)) as [Hd|Hd].
  - pose proof (N.mod_lt u 64). rewrite Hd, Ew, N.land_spec, N.shiftl_1_l, andb_comm. unfold u64_not.
    rewrite N.lnot_spec_low by lia. do 2 f_equal.
    destruct (N.eqb_spec u v) as [->|Hne]; [apply N.pow2_bits_true|].
    apply N.pow2_bits_false. intros Hm. apply Hne. by apply slot_split.
  - destruct (N.eqb_spec u v) as [->|]; done.
Qed.

Lemma zip_contains (f : N → N → N) (g : bool → bool → bool) s t v :
  (∀ a b k, (k < 64)%N → N.testbit (f a b) k = g (N.testbit a k) (N.testbit b k)) →
  wf_set s → wf_set t → (v < 256)%N →
  VslotSet.contains (mkSet (zip_with f (words s) (words t))) v = g (VslotSet.contains s v) (VslotSet.contains t v).
Proof.
  intros Hf Hs Ht Hv. rewrite !contains_bit; cbn [words]. rewrite lookup_zip_with.
  destruct (slot_word s v Hs Hv) as (a & -> & _), (slot_word t v Ht Hv) as (b & -> & _). cbn.
  apply Hf, N.mod_lt. lia.
Qed.

Lemma union_contains s t v : wf_set s → wf_set t → (v < 256)%N →
  VslotSet.contains (VslotSet.union s t) v = VslotSet.contains s v || VslotSet.contains t v.
Proof. apply (zip_contains _ orb). intros a b k _. apply N.lor_spec. Qed.

Lemma difference_contains s t v : wf_set s → wf_set t → (v < 256)%N →
  VslotSet.contains (VslotSet.difference s t) v = VslotSet.contains s v && negb (VslotSet.contains t v).
Proof.
  apply (zip_contains _ (λ x y, x && negb y)). intros a b k Hk. unfold u64_not.
  by rewrite N.land_spec, N.lnot_spec_low.
Qed.

Lemma lor_word a b : (a ≤ u64_max)%N → (b ≤ u64_max)%N → (N.lor a b ≤ u64_max)%N.
Proof. rewrite !word_bits. intros Ha Hb i Hi. by rewrite N.lor_spec, Ha, Hb. Qed.
Lemma land_word a b : (a ≤ u64_max)%N → (N.land a b ≤ u64_max)%N.
Proof. rewrite !word_bits. intros Ha i Hi. by rewrite N.land_spec, Ha. Qed.
Lemma bit_word v : (N.shiftl 1 (v mod 64) ≤ u64_max)%N.
Proof.
  rewrite word_bits. intros i Hi. rewrite N.shiftl_1_l. apply N.pow2_bits_false.
  pose proof (N.mod_lt v 64). lia.
Qed.

Lemma insert_wf s v : wf_set s → wf_set (VslotSet.insert s v).
Proof.
  intros [Hl Hw]. unfold VslotSet.insert. rewrite slot_parts. split; cbn; [by rewrite length_alter|].
  apply Forall_alter; [done|]. intros w _ Hle. apply lor_word; [done | apply bit_word].
Qed.

Lemma remove_wf s v : wf_set s → wf_set (VslotSet.remove s v).
Proof.
  intros [Hl Hw]. unfold VslotSet.remove. rewrite slot_parts. split; cbn; [by rewrite length_alter|].
  apply Forall_alter; [done|]. intros w _ Hle. by apply land_word.
Qed.

Lemma empty_wf : wf_set VslotSet.EMPTY.
Proof. split; [done|]. by repeat constructor. Qed.
