(* ===== verification/VslotSetSpec.v ===== *)
(** * Slot sets: set semantics and the text round trip

    The observations of a [VslotSet] (length, emptiness, subset, iteration) agree
    with its slots, and [VslotSet.parse] inverts [VslotSet.to_string]. *)
From S2P Require Import Prelude VslotSet.

(** ** Observations *)

Lemma nseq_sorted s n : StronglySorted N.lt (nseq s n).
Proof.
  revert s. induction n as [|n IH]; intros s; cbn; constructor; [done|].
  apply Forall_forall. intros k Hk%elem_of_nseq. lia.
Qed.

Lemma filter_nseq_shift (P Q : N → Prop) `{∀ x, Decision (P x)} `{∀ x, Decision (Q x)} a b n :
  (∀ k, (k < N.of_nat n)%N → P (a + k)%N ↔ Q (b + k)%N) →
  length (filter P (nseq a n)) = length (filter Q (nseq b n)).
Proof.
  revert a b. induction n as [|n IH]; intros a b Hpq; cbn [nseq]; [done|].
  rewrite !filter_cons. pose proof (Hpq 0%N ltac:(lia)) as Hz. rewrite !N.add_0_r in Hz.
  assert (length (filter P (nseq (a + 1) n)) = length (filter Q (nseq (b + 1) n))) as Hrest.
  { apply IH. intros k Hk. rewrite <- !N.add_assoc, (N.add_comm 1). apply Hpq. lia. }
  repeat case_decide; cbn; tauto || lia.
Qed.

Lemma count_word s i w : words s !! i = Some w → (i < 4)%nat →
  length (filter (λ v, VslotSet.contains s v = true) (nseq (N.of_nat i * 64) 64)) = count_ones w.
Proof.
  intros Ew Hi. apply filter_nseq_shift. intros k Hk. rewrite contains_bit, N.add_0_l.
  rewrite N.div_add_l, N.div_small, N.add_0_r, Nat2N.id, Ew by lia.
  by rewrite N.add_comm, N.Div0.mod_add, N.mod_small by lia.
Qed.

Lemma len_iter s : wf_set s → VslotSet.len s = length (VslotSet.iter s).
Proof.
  intros [Hl _]. unfold VslotSet.len, VslotSet.iter.
  change (range_incl 0 u8_max) with (nseq (N.of_nat 0 * 64) 64 ++ nseq (N.of_nat 1 * 64) 64 ++
    nseq (N.of_nat 2 * 64) 64 ++ nseq (N.of_nat 3 * 64) 64).
  rewrite !filter_app, !length_app. destruct s as [[|w0 [|w1 [|w2 [|w3 [|]]]]]]; try done.
  rewrite (count_word _ 0 w0), (count_word _ 1 w1), (count_word _ 2 w2), (count_word _ 3 w3) by (done || lia).
  change (sum_list _) with (count_ones w0 + (count_ones w1 + (count_ones w2 + (count_ones w3 + 0))))%nat. lia.
Qed.

Lemma elem_of_iter s v : v ∈ VslotSet.iter s ↔ (v < 256)%N ∧ VslotSet.contains s v = true.
Proof.
  unfold VslotSet.iter, range_incl. rewrite list_elem_of_filter, elem_of_nseq. change (u8_max + 1 - 0)%N with 256%N.
  split; intros [? ?]; split; done || lia.
Qed.

Lemma iter_sorted s : StronglySorted N.lt (VslotSet.iter s).
Proof. apply StronglySorted_filter, nseq_sorted. Qed.

Lemma contains_empty v : VslotSet.contains VslotSet.EMPTY v = false.
Proof.
  rewrite contains_bit. destruct (words VslotSet.EMPTY !! _) eqn:E; [|done].
  apply list_elem_of_lookup_2 in E. assert (n = 0%N) as -> by (cbn in E; set_solver). apply N.bits_0.
Qed.

Lemma contains_full v : (v < 256)%N → VslotSet.contains VslotSet.full v = true.
Proof.
  intros Hv. assert (wf_set VslotSet.full) as Hw by (split; [done|]; by repeat constructor).
  rewrite contains_bit. destruct (slot_word _ v Hw Hv) as (w & E & _). rewrite E.
  apply list_elem_of_lookup_2 in E. assert (w = N.ones 64) as -> by (cbn in E; set_solver).
  apply N.ones_spec_low, N.mod_lt. lia.
Qed.

Lemma is_empty_spec s : wf_set s →
  VslotSet.is_empty s = true ↔ ∀ v, (v < 256)%N → VslotSet.contains s v = false.
Proof.
  intros Hs. split.
  - intros He v Hv. rewrite contains_bit. destruct (words s !! _) as [w|] eqn:E; [|done].
    unfold VslotSet.is_empty in He. rewrite forallb_forall in He.
    apply list_elem_of_lookup_2, list_elem_of_In, He, N.eqb_eq in E as ->. apply N.bits_0.
  - intros Hn. rewrite (set_ext s VslotSet.EMPTY Hs empty_wf); [done|].
    intros v Hv. by rewrite Hn, contains_empty.
Qed.

Lemma zip_wf (f : N → N → N) s t :
  (∀ a b, (a ≤ u64_max)%N → (b ≤ u64_max)%N → (f a b ≤ u64_max)%N) →
  wf_set s → wf_set t → wf_set (mkSet (zip_with f (words s) (words t))).
Proof.
  intros Hf [Hls Hws] [Hlt Hwt]. split; cbn [words]; [by rewrite length_zip_with, Hls, Hlt|].
  apply Forall_lookup_2. intros i w. rewrite lookup_zip_with.
  destruct (words s !! i) as [a|] eqn:Ea; [|done]. destruct (words t !! i) as [b|] eqn:Eb; [|done]. cbn. intros [= <-].
  apply Hf; [exact (Forall_lookup_1 _ _ _ _ Hws Ea) | exact (Forall_lookup_1 _ _ _ _ Hwt Eb)].
Qed.

Lemma difference_wf s t : wf_set s → wf_set t → wf_set (VslotSet.difference s t).
Proof. apply zip_wf. intros a b Ha _. by apply land_word. Qed.

Lemma union_wf s t : wf_set s → wf_set t → wf_set (VslotSet.union s t).
Proof. apply zip_wf, lor_word. Qed.

Lemma subset_difference s t : VslotSet.is_subset_of s t = VslotSet.is_empty (VslotSet.difference s t).
Proof.
  unfold VslotSet.is_subset_of, VslotSet.is_empty, VslotSet.difference; cbn.
  generalize (words t). induction (words s) as [|a l IH]; intros [|b l']; cbn; [done..|]. by rewrite <- IH.
Qed.

Lemma is_subset_spec s t : wf_set s → wf_set t →
  VslotSet.is_subset_of s t = true ↔
  ∀ v, (v < 256)%N → VslotSet.contains s v = true → VslotSet.contains t v = true.
Proof.
  intros Hs Ht. rewrite subset_difference, is_empty_spec by (by apply difference_wf).
  split; intros H v Hv; specialize (H v Hv); rewrite ?difference_contains in * by done;
    destruct (VslotSet.contains s v), (VslotSet.contains t v); naive_solver.
Qed.

(** ** Ranges *)

Definition expand (r : VslotRange) : list N := range_incl (lo r) (hi r).
Definition range_ok (r : VslotRange) : Prop := (lo r ≤ hi r ≤ u8_max)%N.
(** Two runs with at least one free slot between them. *)
Definition apart (r r' : VslotRange) : Prop := (hi r + 1 < lo r')%N.

Lemma range_incl_one v : range_incl v v = [v].
Proof. unfold range_incl. by replace (N.to_nat (v + 1 - v)) with 1%nat by lia. Qed.

Lemma range_incl_snoc a b : (a ≤ b)%N → range_incl a (b + 1) = range_incl a b ++ [b + 1]%N.
Proof.
  intros Hab. unfold range_incl.
  replace (N.to_nat (b + 1 + 1 - a)) with (N.to_nat (b + 1 - a) + 1)%nat by lia.
  rewrite nseq_app. cbn [nseq]. do 2 f_equal. lia.
Qed.

Lemma expand_one v : expand (mkRange v v) = [v].
Proof. apply range_incl_one. Qed.

Lemma expand_snoc rs r : (rs ++ [r]) ≫= expand = (rs ≫= expand) ++ expand r.
Proof. rewrite bind_app. f_equal. apply app_nil_r. Qed.

Lemma hi_in_expand r : range_ok r → hi r ∈ expand r.
Proof. intros [Hr _]. unfold expand, range_incl. apply elem_of_nseq. lia. Qed.

(** The open run, what is closed, and the slots folded so far. *)
Definition runs_ok (l : list N) (st : list VslotRange * option VslotRange) : Prop :=
  let rs := st.1 ++ option_list st.2 in
  rs ≫= expand = l ∧ Forall range_ok rs ∧ StronglySorted apart rs ∧ (st.2 = None → st.1 = []).

Lemma extend_runs_ok l out open v :
  runs_ok l (out, open) → (v ≤ u8_max)%N → Forall (λ x, (x < v)%N) l →
  runs_ok (l ++ [v]) (VslotSet.extend_runs out open v).
Proof.
  intros (Hl & Hok & Hs & Hn) Hv Hlt; cbn [fst snd] in *. destruct open as [r|].
  2:{ rewrite (Hn eq_refl) in *. assert (l = []) as -> by (by rewrite <- Hl).
      unfold runs_ok; cbn [VslotSet.extend_runs fst snd]. change (option_list _) with [mkRange v v]. cbn [app].
      split_and!; [etrans; [apply (expand_snoc []) | apply expand_one]| |repeat constructor|done].
      repeat constructor; cbn; lia. }
  change (option_list (Some r)) with [r] in *.
  apply Forall_app in Hok as [Hout [Hr _]%Forall_cons]. apply StronglySorted_app in Hs as (Hap & Hso & _).
  rewrite expand_snoc in Hl.
  assert (hi r < v)%N as Hrv.
  { rewrite Forall_forall in Hlt. apply Hlt. rewrite <- Hl. apply elem_of_app. right. by apply hi_in_expand. }
  unfold VslotSet.extend_runs, VslotRange.push. case_bool_decide as Hp; unfold runs_ok; cbn [fst snd];
    repeat match goal with |- context [option_list (Some ?x)] => change (option_list (Some x)) with [x] end.
  - assert (v = hi r + 1)%N as ->.
    { unfold u8_try_from in Hp. destruct (hi r + 1 <=? u8_max)%N; congruence. }
    destruct Hr as [Hr1 Hr2]. rewrite app_nil_r, expand_snoc. unfold expand at 2; cbn [lo hi].
    rewrite range_incl_snoc by done. split_and!; [by rewrite <- Hl, <- app_assoc|..|done].
    + apply Forall_app. split; [done|]. repeat constructor; cbn; lia.
    + apply StronglySorted_app_2; [|done|repeat constructor]. intros x y Hx ->%list_elem_of_singleton.
      apply (Hap x r Hx). set_solver.
  - assert (hi r + 1 < v)%N as Hgap.
    { destruct (decide (hi r + 1 = v)%N) as [E|]; [|lia]. exfalso. apply Hp. unfold u8_try_from.
      rewrite E. by rewrite (proj2 (N.leb_le _ _) Hv). }
    split_and!; [by rewrite !expand_snoc, expand_one, Hl| | |done].
    + rewrite !Forall_app. split_and!; [done|by constructor|]. repeat constructor; cbn; lia.
    + apply StronglySorted_app_2; [|apply StronglySorted_app_2; [exact Hap|done|repeat constructor]|repeat constructor].
      intros x y Hx ->%list_elem_of_singleton. unfold apart; cbn [lo].
      apply elem_of_app in Hx as [Hx| ->%list_elem_of_singleton]; [|done].
      specialize (Hap x r Hx ltac:(set_solver)). unfold apart in Hap. destruct Hr. lia.
Qed.

Lemma ranges_ok s : runs_ok (VslotSet.iter s)
  (fold_left (λ '(out, open) v, VslotSet.extend_runs out open v) (VslotSet.iter s) ([], None)).
Proof.
  assert (∀ v, v ∈ VslotSet.iter s → (v ≤ u8_max)%N) as Hb.
  { intros v [Hv _]%elem_of_iter. unfold u8_max. lia. }
  pose proof (iter_sorted s) as Hs. revert Hb Hs. generalize (VslotSet.iter s) as l.
  induction l as [|v l IH] using rev_ind; intros Hb Hs; [split_and!; by constructor|].
  apply StronglySorted_app in Hs as (Hlt & Hs & _). rewrite fold_left_app. cbn [fold_left].
  destruct (fold_left _ l _) as [out open]. apply extend_runs_ok.
  - apply IH; [|done]. set_solver.
  - apply Hb. set_solver.
  - apply Forall_forall. intros x Hx. apply Hlt; set_solver.
Qed.

Lemma ranges_spec s :
  VslotSet.ranges s ≫= expand = VslotSet.iter s ∧ Forall range_ok (VslotSet.ranges s) ∧
  StronglySorted apart (VslotSet.ranges s).
Proof.
  pose proof (ranges_ok s) as H. unfold VslotSet.ranges.
  destruct (fold_left _ _ _) as [out open]. destruct H as (? & ? & ? & _). done.
Qed.

(** ** The text form *)

Definition is_digit (c : N) : bool := ((48 <=? c) && (c <=? 57))%N.

Lemma show_table :
  forallb (λ n, bool_decide (parse_u8 (show_u8 n) = Some n) && forallb is_digit (show_u8 n)) (nseq 0 256) = true.
Proof. by vm_compute. Qed.

Lemma show_spec n : (n ≤ u8_max)%N → parse_u8 (show_u8 n) = Some n ∧ Forall (λ c, is_digit c = true) (show_u8 n).
Proof.
  intros Hn. pose proof show_table as Ht. rewrite forallb_forall in Ht.
  specialize (Ht n). rewrite <- list_elem_of_In, elem_of_nseq in Ht.
  apply andb_true_iff in Ht as [Hp%bool_decide_eq_true Hd]; [|unfold u8_max in Hn; lia].
  split; [done|]. apply Forall_forall. rewrite forallb_forall in Hd. intros c Hc%list_elem_of_In. by apply Hd.
Qed.

(** A character of a printed range. *)
Definition range_char (c : N) : Prop := is_digit c = true ∨ c = 45%N.

Lemma range_char_facts c : range_char c → is_whitespace c = false ∧ (c =? 44)%N = false.
Proof.
  intros [Hd| ->]; [|done]. unfold is_digit in Hd. apply andb_true_iff in Hd as [H1%N.leb_le H2%N.leb_le].
  assert (In c (nseq 48 10)) as Hin by (apply list_elem_of_In, elem_of_nseq; lia).
  cbn in Hin. by repeat destruct Hin as [<-|Hin].
Qed.

Lemma digit_char c : is_digit c = true → range_char c.
Proof. by left. Qed.

Lemma write_chars r : range_ok r → Forall range_char (VslotRange.write r).
Proof.
  intros [Hlo Hhi]. unfold VslotRange.write.
  destruct (show_spec (lo r)) as [_ Hl]; [lia|]. destruct (show_spec (hi r)) as [_ Hh]; [lia|].
  destruct (lo r =? hi r)%N; [eapply Forall_impl; [exact Hl | apply digit_char]|].
  apply Forall_app. split; [eapply Forall_impl; [exact Hl | apply digit_char]|].
  constructor; [by right|]. eapply Forall_impl; [exact Hh | apply digit_char].
Qed.

Lemma trim_start_id s : Forall range_char s → trim_start s = s.
Proof. intros [|c s' Hc _]; cbn; [done|]. by rewrite (proj1 (range_char_facts c Hc)). Qed.

Lemma trim_id s : Forall range_char s → trim s = s.
Proof.
  intros Hs. unfold trim. rewrite (trim_start_id s Hs), trim_start_id; [apply rev_involutive|].
  by apply List.Forall_rev.
Qed.

Lemma split_once_digits a b : Forall (λ c, is_digit c = true) a →
  split_once 45 a = None ∧ split_once 45 (a ++ 45%N :: b) = Some (a, b).
Proof.
  induction 1 as [|c a Hc _ [IH1 IH2]]; cbn; [done|].
  destruct (N.eqb_spec c 45) as [->|]; [done|]. by rewrite IH1, IH2.
Qed.

Lemma parse_write r : range_ok r → VslotRange.parse (VslotRange.write r) = Ok r.
Proof.
  intros [Hlo Hhi]. unfold VslotRange.parse, VslotRange.write.
  destruct (show_spec (lo r)) as [Pl Hl]; [lia|]. destruct (show_spec (hi r)) as [Ph Hh]; [lia|].
  assert (∀ s, Forall (λ c, is_digit c = true) s → trim s = s) as Htrim.
  { intros s Hs. apply trim_id. eapply Forall_impl; [exact Hs | apply digit_char]. }
  destruct (N.eqb_spec (lo r) (hi r)) as [E|_].
  - rewrite (proj1 (split_once_digits _ [] Hl)). cbn [default]. rewrite Htrim, Pl, N.leb_refl by done.
    f_equal. destruct r; cbn in *; congruence.
  - rewrite (proj2 (split_once_digits _ (show_u8 (hi r)) Hl)). cbn [default]. unfold id.
    rewrite !Htrim, Pl, Ph, (proj2 (N.leb_le _ _) Hlo) by done. by destruct r.
Qed.

Lemma split_part p rest : Forall range_char p →
  split 44 (p ++ 44%N :: rest) = p :: split 44 rest ∧ split 44 p = [p].
Proof.
  induction 1 as [|c p Hc _ [IH1 IH2]]; cbn [app split]; [done|].
  rewrite (proj2 (range_char_facts c Hc)). by rewrite IH1, IH2.
Qed.

Lemma split_joined p rs : Forall range_char p → Forall range_ok rs →
  split 44 (p ++ mjoin ((λ r, 44%N :: VslotRange.write r) <$> rs)) = p :: (VslotRange.write <$> rs).
Proof.
  intros Hp Hrs. revert p Hp. induction Hrs as [|r rs Hr _ IH]; intros p Hp; cbn [fmap list_fmap mjoin list_join].
  - rewrite app_nil_r. by apply (split_part p []).
  - cbn [app]. rewrite (proj1 (split_part p _ Hp)). f_equal. apply IH. by apply write_chars.
Qed.

Lemma text_parts rs : Forall range_ok rs →
  filter (λ part, part ≠ []) (trim <$> split 44 (mjoin (imap VslotSet.write_range rs))) = VslotRange.write <$> rs.
Proof.
  intros Hrs. destruct rs as [|r rs]; [done|]. pose proof Hrs as [Hr Hrs']%Forall_cons.
  replace (mjoin (imap VslotSet.write_range (r :: rs)))
    with (VslotRange.write r ++ mjoin ((λ r, 44%N :: VslotRange.write r) <$> rs)).
  2:{ rewrite imap_cons. cbn. do 2 f_equal. clear. generalize 0%nat as i. induction rs as [|r' rs IH]; intros i; [done|].
      rewrite imap_cons. cbn [fmap list_fmap]. f_equal. apply (IH (S i)). }
  rewrite split_joined; [|by apply write_chars|done]. rewrite <- fmap_cons.
  clear Hr Hrs'. induction Hrs as [|x l Hx _ IH]; [done|]. cbn [fmap list_fmap].
  rewrite trim_id by (by apply write_chars). rewrite filter_cons_True; [by rewrite IH|].
  intros E. pose proof (parse_write x Hx) as Hp. by rewrite E in Hp.
Qed.

Lemma fold_with_contains l s v : wf_set s → (v < 256)%N → Forall (λ x, (x < 256)%N) l →
  VslotSet.contains (fold_left VslotSet.with_ l s) v = bool_decide (v ∈ l) || VslotSet.contains s v.
Proof.
  revert s. induction l as [|x l IH]; intros s Hs Hv Hl; cbn [fold_left]; [done|].
  apply Forall_cons in Hl as [Hx Hl].
  rewrite IH by (done || by apply insert_wf). unfold VslotSet.with_. rewrite insert_contains by done.
  rewrite orb_assoc. f_equal. destruct (N.eqb_spec v x) as [->|Hne].
  - rewrite orb_true_r. symmetry. apply bool_decide_eq_true. set_solver.
  - rewrite orb_false_r. apply bool_decide_ext. set_solver.
Qed.

Lemma fold_with_wf l s : wf_set s → wf_set (fold_left VslotSet.with_ l s).
Proof. revert s. induction l; intros s Hs; cbn; [done|]. apply IHl. by apply insert_wf. Qed.

Lemma fold_ranges rs s :
  fold_left (λ set r, fold_left VslotSet.with_ (expand r) set) rs s = fold_left VslotSet.with_ (rs ≫= expand) s.
Proof. revert s. induction rs as [|r rs IH]; intros s; cbn [fold_left]; [done|]. rewrite IH. cbn. by rewrite fold_left_app. Qed.

Lemma try_fold_ranges rs s : Forall range_ok rs →
  try_fold (λ set part, r ← VslotRange.parse part; Ok (fold_left VslotSet.with_ (range_incl (lo r) (hi r)) set))
    s (VslotRange.write <$> rs) = Ok (fold_left VslotSet.with_ (rs ≫= expand) s).
Proof.
  intros Hrs. rewrite <- fold_ranges. revert s.
  induction Hrs as [|r rs Hr _ IH]; intros s; cbn [fmap list_fmap try_fold fold_left]; [done|].
  rewrite (parse_write r Hr). cbn [mbind result_bind]. apply IH.
Qed.

Lemma try_fold_wf parts s s' : wf_set s →
  try_fold (λ set part, r ← VslotRange.parse part; Ok (fold_left VslotSet.with_ (range_incl (lo r) (hi r)) set))
    s parts = Ok s' → wf_set s'.
Proof.
  revert s. induction parts as [|p parts IH]; intros s Hs; cbn [try_fold]; [by intros [= <-]|].
  destruct (VslotRange.parse p); cbn [mbind result_bind]; [|done]. apply IH. by apply fold_with_wf.
Qed.

(** ** Theorems *)

(** The four words are a set of slots: insert, remove, union and difference
    answer [contains] as the set operations do and keep four 64-bit words, and the
    subset test, the emptiness test, the length and the ascending iteration agree
    with the slots contained. *)
Theorem vslot_set_semantics (s t : VslotSet) (v u : N) :
  wf_set s → wf_set t → (v < 256)%N → (u < 256)%N →
  (wf_set (VslotSet.insert s v) ∧ wf_set (VslotSet.remove s v) ∧
   wf_set (VslotSet.union s t) ∧ wf_set (VslotSet.difference s t)) ∧
  VslotSet.contains (VslotSet.insert s v) u = (u =? v)%N || VslotSet.contains s u ∧
  VslotSet.contains (VslotSet.remove s v) u = negb (u =? v)%N && VslotSet.contains s u ∧
  VslotSet.contains (VslotSet.union s t) u = VslotSet.contains s u || VslotSet.contains t u ∧
  VslotSet.contains (VslotSet.difference s t) u = VslotSet.contains s u && negb (VslotSet.contains t u) ∧
  (VslotSet.is_subset_of s t = true ↔ VslotSet.iter s ⊆ VslotSet.iter t) ∧
  (VslotSet.is_empty s = true ↔ VslotSet.iter s = []) ∧
  VslotSet.len s = length (VslotSet.iter s) ∧
  StronglySorted N.lt (VslotSet.iter s) ∧
  (u ∈ VslotSet.iter s ↔ VslotSet.contains s u = true).
Proof.
  intros Hs Ht Hv Hu.
  split; [split_and!; auto using insert_wf, remove_wf, union_wf, difference_wf|].
  split; [by apply insert_contains|]. split; [by apply remove_contains|].
  split; [by apply union_contains|]. split; [by apply difference_contains|].
  split; [|split; [|split; [by apply len_iter|split; [apply iter_sorted|]]]].
  - rewrite is_subset_spec by done. split.
    + intros H x [Hx Hc]%elem_of_iter. apply elem_of_iter. auto.
    + intros H x Hx Hc. apply (elem_of_iter t x), H, elem_of_iter. done.
  - rewrite is_empty_spec by done. split.
    + intros H. apply elem_of_nil_inv. intros x [Hx Hc]%elem_of_iter. by rewrite H in Hc.
    + intros H x Hx. apply not_true_iff_false. intros Hc.
      assert (x ∈ VslotSet.iter s) as Hin by (by apply elem_of_iter). rewrite H in Hin. by apply elem_of_nil in Hin.
  - rewrite elem_of_iter. naive_solver.
Qed.

(** The text form round-trips: [parse] of the printed set is the set, the printed
    ranges ascend with at least one free slot between two of them, and every set
    that [parse] accepts is a well-formed one, so it prints to a text that parses
    back to it. *)
Theorem vslot_text_roundtrip (s : VslotSet) (text : list N) (s' : VslotSet) :
  wf_set s → VslotSet.parse text = Ok s' →
  VslotSet.parse (VslotSet.to_string s) = Ok s ∧
  StronglySorted apart (VslotSet.ranges s) ∧
  VslotSet.parse (VslotSet.to_string s') = Ok s'.
Proof.
  assert (∀ x, wf_set x → VslotSet.parse (VslotSet.to_string x) = Ok x) as Hround.
  { intros x Hx. destruct (ranges_spec x) as (Hi & Hok & _).
    unfold VslotSet.parse, VslotSet.to_string. rewrite text_parts, try_fold_ranges, Hi by done. f_equal.
    apply set_ext; [apply fold_with_wf, empty_wf|done|]. intros v Hv.
    rewrite fold_with_contains, contains_empty, orb_false_r; [|apply empty_wf|done|].
    - apply eq_true_iff_eq. rewrite bool_decide_eq_true, elem_of_iter. naive_solver.
    - apply Forall_forall. intros y [Hy _]%elem_of_iter. done. }
  intros Hs Hp. split_and!; [by apply Hround|apply ranges_spec|].
  apply Hround. eapply try_fold_wf; [apply empty_wf|exact Hp].
Qed.

(** ** Instances *)

(** The text [0-7, 16,32-47,255]. *)
Definition sample_text : list N :=
  [48; 45; 55; 44; 32; 49; 54; 44; 51; 50; 45; 52; 55; 44; 50; 53; 53]%N.
Definition sample_slots : VslotSet := mkSet [281470681809151; 0; 0; 9223372036854775808]%N.

Lemma sample_slots_wf : wf_set sample_slots.
Proof. split; [done|]. by repeat constructor. Qed.

Lemma vslot_set_semantics_witness :
  VslotSet.contains (VslotSet.insert sample_slots 8) 8 = true ∧
  VslotSet.contains (VslotSet.insert sample_slots 8) 8 = (8 =? 8)%N || VslotSet.contains sample_slots 8.
Proof.
  split; [by vm_compute|].
  apply (vslot_set_semantics sample_slots VslotSet.EMPTY 8 8 sample_slots_wf empty_wf); done.
Defined.

Lemma vslot_text_roundtrip_witness :
  VslotSet.parse sample_text = Ok sample_slots ∧
  VslotSet.parse (VslotSet.to_string sample_slots) = Ok sample_slots.
Proof.
  split; [by vm_compute|].
  apply (vslot_text_roundtrip sample_slots sample_text sample_slots sample_slots_wf). by vm_compute.
Defined.
