(* ===== verification/ShardMap.v ===== *)
(** * Sender routing (types/src/shard_map.rs, types/src/shard_map/rebalance.rs)

    The fixed level sends a sender to one of 256 virtual slots by a hash; the
    versioned [ShardMap] sends a slot to a lane; [rebalance] computes the next map
    for another number of lanes. [keccak256] is code of another crate: a variable
    of the section that uses it, with the shape of its digest as a hypothesis. *)
From S2P Require Import Prelude Bytes VslotSet.

Definition VSLOT_COUNT : nat := 256.
Definition VSLOT_COUNT_U32 : N := 256.
Definition LANE_CAP : N := 256.
Definition LANE_COUNT : N := 8.

Inductive ShardMapError : Type :=
| TableLength (len : nat)
| VersionExhausted
| LaneAbovePlane (lane : N)
| LaneCount (lanes : N)
| NotADivisor (lanes : N)
| AboveLanePlane (lanes : N).

(** [u32::is_multiple_of]. *)
Definition is_multiple_of (a m : N) : bool := if (m =? 0)%N then (a =? 0)%N else (a mod m =? 0)%N.

Definition validate_shard_count (m : N) : result ShardMapError N :=
  if (m =? 0)%N then Err (LaneCount m)
  else
    lanes ← ok_or (lanes ← u8_try_from m; if (lanes <=? LANE_COUNT)%N then Some lanes else None) (AboveLanePlane m);
    if negb (is_multiple_of VSLOT_COUNT_U32 m) then Err (NotADivisor m) else Ok lanes.

Section routing.
Variable keccak256 : Address → list N.

Definition sender_hash_prefix (sender : Address) : N := from_be_bytes (take 8 (keccak256 sender)).

Definition vslot_for (sender : Address) : N := default 0%N (to_be_bytes 8 (sender_hash_prefix sender) !! 7%nat).

Definition partition_for (sender : Address) (m : N) : N :=
  if is_multiple_of VSLOT_COUNT_U32 m then (vslot_for sender mod m)%N
  else (sender_hash_prefix sender mod m)%N.
End routing.

Record ShardMap : Type := mkShardMap { version : N; table : list N }.
Record ShardMapWire : Type := mkShardMapWire { wire_version : N; wire_table : list N }.

Module ShardMap.
Definition identity (lanes : N) : result ShardMapError ShardMap :=
  if ((lanes =? 0) || (LANE_CAP <? lanes))%N then Err (LaneCount lanes)
  else if negb (is_multiple_of VSLOT_COUNT_U32 lanes) then Err (NotADivisor lanes)
  else Ok (mkShardMap 0 ((λ vslot, vslot mod lanes)%N <$> nseq 0 VSLOT_COUNT)).

Definition from_table (version : N) (table : list N) : ShardMap := mkShardMap version table.

Definition validate (m : ShardMap) : result ShardMapError () :=
  match list_find (λ l, (LANE_COUNT ≤ l)%N) (table m) with
  | Some (_, l) => Err (LaneAbovePlane l)
  | None => Ok ()
  end.

Definition active_lanes (m : ShardMap) : N :=
  match table m with
  | [] => 0
  | l :: ls => N.min (fold_left N.max ls l + 1) u8_max
  end.

Definition vslots_of_lane (m : ShardMap) (lane : N) : list N :=
  (filter (λ p, p.2 = lane) (zip (range_incl 0 u8_max) (table m))).*1.

Definition vslot_set (m : ShardMap) (lane : N) : VslotSet :=
  fold_left VslotSet.with_ (vslots_of_lane m lane) VslotSet.EMPTY.

Definition lane_of_vslot (m : ShardMap) (vslot : N) : N := table m !!! N.to_nat vslot.

Definition lane_for (keccak256 : Address → list N) (m : ShardMap) (sender : Address) : N :=
  lane_of_vslot m (vslot_for keccak256 sender).

Definition serialize (m : ShardMap) : ShardMapWire := mkShardMapWire (version m) (table m).

Definition deserialize (wire : ShardMapWire) : result ShardMapError ShardMap :=
  if (length (wire_table wire) =? VSLOT_COUNT)%nat then
    let map := from_table (wire_version wire) (wire_table wire) in
    _ ← validate map; Ok map
  else Err (TableLength (length (wire_table wire))).
End ShardMap.

(** ** Rebalancing *)

Record Balance : Type := mkBalance { b_table : list N; load : list nat; want : list nat }.

(** [Iterator::max_by_key]: the last of the elements with the highest key. *)
Definition max_by_key {A} (key : A → nat) (l : list A) : option A :=
  match l with
  | [] => None
  | x :: l' => Some (fold_left (λ best y, if key y <? key best then best else y) l' x)
  end.

Module Balance.
Definition new (table : list N) (target : N) : Balance :=
  let count := N.to_nat target in
  let load := fold_left (λ load lane, alter S (N.to_nat lane) load) table (replicate 8 0) in
  let want := (λ lane, if lane <? count
                       then VSLOT_COUNT / count + (if lane <? VSLOT_COUNT mod count then 1 else 0)
                       else 0) <$> seq 0 8 in
  mkBalance table load want.

Definition move_slot (b : Balance) (slot : nat) : Balance :=
  let lane := N.to_nat (b_table b !!! slot) in
  if load b !!! lane <=? want b !!! lane then b
  else
    match max_by_key (λ lane, want b !!! N.to_nat lane - load b !!! N.to_nat lane) (rev (nseq 0 8)) with
    | None => b
    | Some dest =>
        let load1 := <[lane := load b !!! lane - 1]> (load b) in
        mkBalance (<[slot := dest]> (b_table b))
          (<[N.to_nat dest := load1 !!! N.to_nat dest + 1]> load1) (want b)
    end.
End Balance.

Definition rebalance (m : ShardMap) (target : N) : result ShardMapError ShardMap :=
  target ← ok_or (t ← u8_try_from target;
                  if (t =? 0)%N then None else if (t <=? LANE_COUNT)%N then Some t else None)
                 (AboveLanePlane target);
  _ ← ShardMap.validate m;
  version ← ok_or (u32_try_from (version m + 1)) VersionExhausted;
  let balance := Balance.new (table m) target in
  let balance := if negb (target =? ShardMap.active_lanes m)%N
                 then fold_left Balance.move_slot (seq 0 VSLOT_COUNT) balance else balance in
  Ok (ShardMap.from_table version (b_table balance)).
