(* ===== verification/ShardMapSpec.v ===== *)
(** * Sender routing: the theorems

    The identity map is the legacy rule, the lanes partition the slots, and
    [rebalance] reaches the even shares with the fewest moved slots. *)
From S2P Require Import Prelude Bytes VslotSet VslotSetSpec ShardMap.

(** ** Loads *)

(** The slots of one lane in a table. *)
Definition count_lane (t : list N) (l : N) : nat := length (filter (λ x, x = l) t).
(** The load of each physical lane. *)
Definition loads (t : list N) : list nat := count_lane t <$> nseq 0 8.
(** The share of each lane when [count] lanes divide the slots evenly, the lower
    lanes taking the remainder. *)
Definition share (count l : nat) : nat :=
  if l <? count then VSLOT_COUNT / count + (if l <? VSLOT_COUNT mod count then 1 else 0) else 0.
Definition shares (count : N) : list nat := share (N.to_nat count) <$> seq 0 8.
(** The number of slots two tables send to different lanes. *)
Definition moved (t t' : list N) : nat := sum_list (zip_with (λ a b, if decide (a = b) then 0 else 1) t t').
(** How far the loads exceed the wanted ones. *)
Definition surplus (load want : list nat) : nat := sum_list (zip_with Nat.sub load want).

Lemma sum_list_cons x (l : list nat) : sum_list (x :: l) = x + sum_list l.
Proof. done. Qed.

Lemma sum_zip_insert {A B} (g : A → B → nat) l w i a b x :
  l !! i = Some a → w !! i = Some b →
  sum_list (zip_with g (<[i := x]> l) w) + g a b = sum_list (zip_with g l w) + g x b.
Proof.
  revert w i. induction l as [|y l IH]; intros [|z w] [|i]; try done.
  - intros [= ->] [= ->]. change (<[0 := x]> (a :: l)) with (x :: l). cbn [zip_with]. rewrite !sum_list_cons. lia.
  - intros Ha Hb. change (<[S i := x]> (y :: l)) with (y :: <[i := x]> l). cbn [zip_with].
    rewrite !sum_list_cons. specialize (IH w i Ha Hb). lia.
Qed.

Lemma count_insert t i a x l : t !! i = Some a →
  count_lane (<[i := x]> t) l + (if decide (a = l) then 1 else 0) = count_lane t l + (if decide (x = l) then 1 else 0).
Proof.
  unfold count_lane. revert i. induction t as [|y t IH]; intros [|i]; try done.
  - intros [= ->]. change (<[0 := x]> (a :: t)) with (x :: t). rewrite !filter_cons. repeat case_decide; cbn; lia.
  - intros Ha. specialize (IH i Ha). change (<[S i := x]> (y :: t)) with (y :: <[i := x]> t).
    rewrite !filter_cons. repeat case_decide; cbn [length]; lia.
Qed.

Lemma count_pos t l : 0 < count_lane t l → ∃ j, t !! j = Some l.
Proof.
  unfold count_lane. intros Hp. destruct (filter (λ x, x = l) t) as [|y f] eqn:E; [cbn in Hp; lia|].
  assert (y ∈ filter (λ x, x = l) t) as [-> Hin]%list_elem_of_filter by (rewrite E; set_solver).
  by apply list_elem_of_lookup in Hin.
Qed.

Lemma lookup_loads t l : l < 8 → loads t !! l = Some (count_lane t (N.of_nat l)).
Proof. intros Hl. unfold loads. rewrite list_lookup_fmap, lookup_nseq by done. by rewrite N.add_0_l. Qed.

Lemma loads_total t l : l < 8 → loads t !!! l = count_lane t (N.of_nat l).
Proof. intros Hl. apply list_lookup_total_correct. by apply lookup_loads. Qed.

Lemma length_loads t : length (loads t) = 8.
Proof. unfold loads. by rewrite length_fmap, length_nseq. Qed.

Lemma loads_ext t (f : list nat) : length f = 8 →
  (∀ l, l < 8 → f !! l = Some (count_lane t (N.of_nat l))) → f = loads t.
Proof.
  intros Hf H. apply list_eq_same_length with 8; [by rewrite length_loads|done|].
  intros i x y Hi Ex Ey. rewrite H in Ex by done. rewrite lookup_loads in Ey by done. congruence.
Qed.

Definition in_plane (t : list N) : Prop := Forall (λ l, (l < 8)%N) t.

Lemma count_cons t x l : count_lane (x :: t) l = (if decide (x = l) then 1 else 0) + count_lane t l.
Proof. unfold count_lane. rewrite filter_cons. by case_decide. Qed.

(** [Balance::new] counts the loads. *)
Lemma loads_snoc t lane : (lane < 8)%N → loads (t ++ [lane]) = alter S (N.to_nat lane) (loads t).
Proof.
  intros Hl. symmetry. apply loads_ext; [by rewrite length_alter, length_loads|]. intros i Hi.
  unfold count_lane. rewrite filter_app, length_app, filter_cons, filter_nil.
  change (length (filter _ t)) with (count_lane t (N.of_nat i)).
  destruct (decide (i = N.to_nat lane)) as [->|Hne].
  - rewrite list_lookup_alter_eq, lookup_loads by done. cbn [fmap option_fmap option_map].
    rewrite N2Nat.id, decide_True by done. f_equal. cbn. lia.
  - rewrite list_lookup_alter_ne, lookup_loads by done. rewrite decide_False by lia. f_equal. cbn. lia.
Qed.

Lemma new_load t target : in_plane t → load (Balance.new t target) = loads t.
Proof.
  cbn [load Balance.new]. induction t as [|lane t IH] using rev_ind; [done|]. intros [Ht [Hl _]%Forall_cons]%Forall_app.
  rewrite fold_left_app, IH by done. cbn [fold_left]. by rewrite loads_snoc.
Qed.

Lemma new_want t target : want (Balance.new t target) = shares target.
Proof. done. Qed.

Lemma sum_loads t : in_plane t → sum_list (loads t) = length t.
Proof.
  induction 1 as [|x t Hx _ IH]; [done|]. cbn [length]. rewrite <- IH. unfold loads.
  assert (∀ L, NoDup L → sum_list (count_lane (x :: t) <$> L) =
    (if decide (x ∈ L) then 1 else 0) + sum_list (count_lane t <$> L)) as Hgen.
  { induction 1 as [|l L Hnl _ IHL]; [done|]. rewrite !fmap_cons, !sum_list_cons, IHL, count_cons.
    repeat case_decide; set_solver || lia. }
  rewrite Hgen by apply NoDup_nseq. rewrite decide_True; [done|]. apply elem_of_nseq. lia.
Qed.

Lemma sum_shares target : (1 ≤ target ≤ 8)%N → sum_list (shares target) = VSLOT_COUNT ∧ length (shares target) = 8.
Proof.
  intros Ht. assert (In target (nseq 1 8)) as Hin by (apply list_elem_of_In, elem_of_nseq; lia).
  cbn in Hin. by repeat destruct Hin as [<-|Hin].
Qed.

Lemma sum_le_mono (l w : list nat) : length l = length w →
  (∀ i, i < length l → l !!! i ≤ w !!! i) → sum_list l ≤ sum_list w.
Proof.
  revert w. induction l as [|x l IH]; intros [|y w] Hl Hle; try done.
  rewrite !sum_list_cons. pose proof (Hle 0 ltac:(cbn; lia)) as Hx. cbn in Hx.
  assert (sum_list l ≤ sum_list w); [|lia]. apply IH; [by injection Hl|].
  intros i Hi. apply (Hle (S i)). cbn. lia.
Qed.

(** Two vectors of the same sum, one below the other, are equal. *)
Lemma sum_le_eq (l w : list nat) : length l = length w →
  (∀ i, i < length l → l !!! i ≤ w !!! i) → sum_list w ≤ sum_list l → l = w.
Proof.
  revert w. induction l as [|x l IH]; intros [|y w] Hl Hle Hs; try done. injection Hl as Hl.
  assert (∀ i, i < length l → l !!! i ≤ w !!! i) as Hle' by (intros i Hi; apply (Hle (S i)); cbn; lia).
  pose proof (sum_le_mono l w Hl Hle') as Hsl.
  pose proof (Hle 0 ltac:(cbn; lia)) as Hx. cbn in Hx. rewrite !sum_list_cons in Hs.
  f_equal; [lia|]. apply IH; [done|done|lia].
Qed.

(** ** One rebalancing pass *)

Lemma max_by_key_spec {A} (key : A → nat) l x :
  max_by_key key l = Some x → x ∈ l ∧ ∀ y, y ∈ l → key y ≤ key x.
Proof.
  destruct l as [|a l]; [done|]. unfold max_by_key. intros [= <-]. revert a.
  induction l as [|b l IH]; intros a; cbn [fold_left].
  - split; [by apply list_elem_of_here|]. intros y ->%list_elem_of_singleton. done.
  - destruct (Nat.ltb_spec (key b) (key a)) as [Hlt|Hge].
    + destruct (IH a) as [Hin Hmax]. pose proof (Hmax a (list_elem_of_here _ _)). split.
      * apply elem_of_cons in Hin as [Hin|Hin]; [rewrite Hin; apply list_elem_of_here|]. by do 2 apply list_elem_of_further.
      * intros y [->|[->|Hy]%elem_of_cons]%elem_of_cons; [done|lia|]. by apply Hmax, list_elem_of_further.
    + destruct (IH b) as [Hin Hmax]. pose proof (Hmax b (list_elem_of_here _ _)). split.
      * by apply list_elem_of_further.
      * intros y [->|Hy]%elem_of_cons; [lia|]. by apply Hmax.
Qed.

Section pass.
Variables (t0 : list N) (w : list nat).
Hypotheses (Hw_len : length w = 8) (Hw_sum : sum_list w = VSLOT_COUNT).

Record balancing (k : nat) (b : Balance) : Prop := {
  bl_len : length (b_table b) = VSLOT_COUNT;
  bl_plane : in_plane (b_table b);
  bl_load : load b = loads (b_table b);
  bl_want : want b = w;
  bl_done : ∀ l j, l < 8 → w !!! l < load b !!! l → j < k → b_table b !! j ≠ Some (N.of_nat l);
  bl_rest : ∀ j, k ≤ j → b_table b !! j = t0 !! j;
  bl_moved : moved (b_table b) t0 + surplus (load b) w = surplus (loads t0) w;
}.

(** When a lane is overfull, the chosen lane has room. *)
Lemma dest_has_room t lane dest :
  length t = VSLOT_COUNT → in_plane t → lane < 8 → w !!! lane < loads t !!! lane →
  max_by_key (λ lane, w !!! N.to_nat lane - loads t !!! N.to_nat lane) (rev (nseq 0 8)) = Some dest →
  (dest < 8)%N ∧ loads t !!! N.to_nat dest < w !!! N.to_nat dest.
Proof.
  intros Hlen Hp Hlane Hover [Hin Hmax]%max_by_key_spec.
  assert (∀ y, y ∈ rev (nseq 0 8) ↔ (y < 8)%N) as Hrev.
  { intros y. rewrite list_elem_of_In, <- in_rev, <- list_elem_of_In, elem_of_nseq. lia. }
  split; [by apply Hrev|].
  destruct (decide (w = loads t)) as [E|Hne]; [rewrite E in Hover; lia|].
  assert (∃ d, d < 8 ∧ loads t !!! d < w !!! d) as (d & Hd & Hdef).
  { destruct (decide (Forall (λ d, w !!! d ≤ loads t !!! d) (seq 0 8))) as [Hall|Hex].
    - exfalso. apply Hne, sum_le_eq; [by rewrite length_loads| |].
      + intros i Hi. rewrite Forall_forall in Hall. apply Hall, elem_of_seq. lia.
      + rewrite sum_loads by done. rewrite Hlen, Hw_sum. done.
    - apply not_Forall_Exists in Hex; [|intros x; apply _]. apply Exists_exists in Hex as (d & Hd%elem_of_seq & Hlt).
      exists d. unfold compose in Hlt. cbv beta in Hlt. split; [lia|]. by apply Nat.nle_gt. }
  specialize (Hmax (N.of_nat d) ltac:(apply Hrev; lia)). cbn beta in Hmax. rewrite Nat2N.id in Hmax. lia.
Qed.

(** The loads after one slot moved. *)
Lemma loads_move t k lane dest :
  t !! k = Some lane → (lane < 8)%N → (dest < 8)%N → dest ≠ lane →
  let load1 := <[N.to_nat lane := loads t !!! N.to_nat lane - 1]> (loads t) in
  <[N.to_nat dest := load1 !!! N.to_nat dest + 1]> load1 = loads (<[k := dest]> t).
Proof.
  intros Hk Hlane Hdest Hne load1. pose proof (length_loads t) as Hll.
  assert (load1 !!! N.to_nat dest = loads t !!! N.to_nat dest) as ->
    by (apply list_lookup_total_insert_ne; intros E%N2Nat.inj; congruence).
  apply loads_ext; [unfold load1; by rewrite !length_insert|]. intros l Hl.
  pose proof (count_insert t k lane dest (N.of_nat l) Hk) as Hc.
  assert (0 < count_lane t lane) as Hpos.
  { unfold count_lane. destruct (filter (λ x, x = lane) t) eqn:E; [|cbn; lia]. exfalso.
    apply list_elem_of_lookup_2 in Hk. by apply (filter_nil_not_elem_of _ t lane) in E. }
  unfold load1. destruct (decide (l = N.to_nat dest)) as [->|H1]; [|destruct (decide (l = N.to_nat lane)) as [->|H2]].
  - rewrite list_lookup_insert_eq by (rewrite length_insert; lia). rewrite loads_total by lia.
    rewrite N2Nat.id, decide_False, decide_True in Hc by congruence. rewrite N2Nat.id. f_equal. lia.
  - rewrite list_lookup_insert_ne, list_lookup_insert_eq, loads_total by lia.
    rewrite N2Nat.id, decide_True, decide_False in Hc by congruence. rewrite N2Nat.id. f_equal. lia.
  - rewrite !list_lookup_insert_ne, lookup_loads by lia. rewrite !decide_False in Hc by lia. f_equal. lia.
Qed.

(** Moving a slot from an overfull lane to one with room pays one of the surplus. *)
Lemma surplus_move load lane dest :
  lane < length load → dest < length load → lane ≠ dest → length load = length w →
  w !!! lane < load !!! lane → load !!! dest < w !!! dest →
  let load1 := <[lane := load !!! lane - 1]> load in
  surplus (<[dest := load1 !!! dest + 1]> load1) w + 1 = surplus load w.
Proof.
  intros Hl Hd Hne Hlen Hover Hroom load1.
  assert (load1 !!! dest = load !!! dest) as -> by (by apply list_lookup_total_insert_ne).
  assert (∀ i, i < length w → w !! i = Some (w !!! i)) as Hwl
    by (intros i Hi; by apply list_lookup_lookup_total_lt).
  pose proof (sum_zip_insert Nat.sub load w lane (load !!! lane) (w !!! lane) (load !!! lane - 1)
    ltac:(by apply list_lookup_lookup_total_lt) ltac:(apply Hwl; lia)) as S1.
  assert (load1 !! dest = Some (load !!! dest)) as E1.
  { unfold load1. rewrite list_lookup_insert_ne by done. by apply list_lookup_lookup_total_lt. }
  pose proof (sum_zip_insert Nat.sub load1 w dest _ (w !!! dest) (load !!! dest + 1) E1 ltac:(apply Hwl; lia)) as S2.
  unfold surplus. fold load1 in S1. lia.
Qed.

Lemma move_slot_step k b : k < VSLOT_COUNT → balancing k b → balancing (S k) (Balance.move_slot b k).
Proof.
  intros Hk [Hlen Hp Hload Hwant Hdone Hrest Hmoved].
  destruct (lookup_lt_is_Some_2 (b_table b) k ltac:(lia)) as [lane Ek].
  assert (lane < 8)%N as Hlane by exact (Forall_lookup_1 _ _ _ _ Hp Ek).
  unfold Balance.move_slot. rewrite Hwant, (list_lookup_total_correct _ _ _ Ek).
  destruct (Nat.leb_spec (load b !!! N.to_nat lane) (w !!! N.to_nat lane)) as [Hle|Hover].
  { split; auto; [|intros j Hj; apply Hrest; lia]. intros l j Hl Ho Hj.
    destruct (decide (j = k)) as [->|]; [|apply Hdone; [done|done|lia]]. rewrite Ek. intros [= ->].
    rewrite Nat2N.id in Hle. lia. }
  rewrite Hload in Hover |- *.
  destruct (max_by_key _ _) as [dest|] eqn:Emax; [|done].
  destruct (dest_has_room (b_table b) (N.to_nat lane) dest Hlen Hp ltac:(lia) Hover Emax) as [Hd8 Hroom].
  assert (dest ≠ lane) as Hne by (intros ->; lia).
  pose proof (loads_move _ _ _ _ Ek Hlane Hd8 Hne) as Hmove. cbv zeta in Hmove.
  assert (t0 !! k = Some lane) as E0 by (by rewrite <- Hrest).
  split; cbn [b_table load want].
  - by rewrite length_insert.
  - by apply Forall_insert.
  - exact Hmove.
  - done.
  - intros l j Hl Ho Hj. rewrite Hmove, loads_total in Ho by done.
    pose proof (count_insert _ _ _ dest (N.of_nat l) Ek) as Hc. rewrite loads_total in Hroom by lia.
    destruct (decide (dest = N.of_nat l)) as [->|Hdl].
    { rewrite decide_False in Hc by congruence. rewrite !Nat2N.id in Hroom. lia. }
    destruct (decide (j = k)) as [->|Hjk].
    { rewrite list_lookup_insert_eq by lia. congruence. }
    rewrite list_lookup_insert_ne by done. apply Hdone; [done| |lia].
    rewrite Hload, loads_total by done. destruct (decide (lane = N.of_nat l)); lia.
  - intros j Hj. rewrite list_lookup_insert_ne by lia. apply Hrest. lia.
  - pose proof (surplus_move (loads (b_table b)) (N.to_nat lane) (N.to_nat dest)) as Hs. rewrite length_loads in Hs.
    specialize (Hs ltac:(lia) ltac:(lia) ltac:(lia) ltac:(done) Hover Hroom). cbv zeta in Hs.
    pose proof (sum_zip_insert (λ a b, if decide (a = b) then 0 else 1) _ _ _ _ _ dest Ek E0) as Hz.
    cbv beta in Hz. fold (moved (b_table b) t0) (moved (<[k := dest]> (b_table b)) t0) in Hz.
    rewrite decide_True, decide_False in Hz by done. rewrite Hload in Hmoved. lia.
Qed.

Lemma move_all b : balancing 0 b → balancing VSLOT_COUNT (fold_left Balance.move_slot (seq 0 VSLOT_COUNT) b).
Proof.
  intros H0. assert (∀ n, n ≤ VSLOT_COUNT → balancing n (fold_left Balance.move_slot (seq 0 n) b)) as Hall.
  { induction n as [|n IH]; intros Hn; [done|]. rewrite seq_S, fold_left_app. apply move_slot_step; [lia|]. apply IH. lia. }
  by apply Hall.
Qed.

(** When every slot was visited, no lane is overfull. *)
Lemma balanced_end b : balancing VSLOT_COUNT b →
  loads (b_table b) = w ∧ moved (b_table b) t0 = surplus (loads t0) w.
Proof.
  intros [Hlen Hp Hload Hwant Hdone Hrest Hmoved].
  assert (loads (b_table b) = w) as E.
  { apply sum_le_eq; [by rewrite length_loads| |].
    - rewrite length_loads. intros l Hl. destruct (Nat.le_gt_cases (loads (b_table b) !!! l) (w !!! l)) as [|Hover]; [done|].
      exfalso. rewrite <- Hload in Hover. pose proof Hover as Ho. rewrite Hload, loads_total in Hover by done.
      destruct (count_pos (b_table b) (N.of_nat l)) as [j Ej]; [lia|]. apply lookup_lt_Some in Ej as Hj.
      apply (Hdone l j Hl Ho); [lia|done].
    - rewrite sum_loads by done. lia. }
  split; [done|]. rewrite Hload, E in Hmoved. rewrite <- Hmoved.
  enough (surplus w w = 0) by lia. clear. unfold surplus. induction w as [|x l IH]; [done|].
  cbn [zip_with]. rewrite sum_list_cons, IH. lia.
Qed.
End pass.

(** No table with the wanted loads is nearer: each unit of surplus moves a slot. *)
Lemma moved_least t t' : length t' = length t → surplus (loads t) (loads t') ≤ moved t' t.
Proof.
  intros Hlen. unfold surplus, loads, moved.
  assert (∀ L, zip_with Nat.sub (count_lane t <$> L) (count_lane t' <$> L) =
    (λ l, count_lane t l - count_lane t' l) <$> L) as -> by (induction L as [|l L IH]; [done|]; cbn; by rewrite <- IH).
  set (leaves l (a b : N) := if decide (b = l ∧ a ≠ l) then 1 else 0).
  transitivity (sum_list ((λ l, sum_list (zip_with (leaves l) t' t)) <$> nseq 0 8)).
  - generalize (nseq 0 8) as L. induction L as [|l L IH]; [done|]. rewrite !fmap_cons, !sum_list_cons.
    apply Nat.add_le_mono; [|done]. clear IH. revert t' Hlen. induction t as [|b t IH]; intros [|a t'] Hlen; try done.
    injection Hlen as Hlen. specialize (IH t' Hlen). rewrite !count_cons. cbn [zip_with]. rewrite sum_list_cons.
    unfold leaves at 1. repeat case_decide; try lia; naive_solver.
  - revert t' Hlen. induction t as [|b t IH]; intros [|a t'] Hlen; try done.
    injection Hlen as Hlen. specialize (IH t' Hlen). cbn [zip_with]. rewrite sum_list_cons.
    assert (∀ L, NoDup L → sum_list ((λ l, sum_list (leaves l a b :: zip_with (leaves l) t' t)) <$> L) ≤
      (if decide (a = b) then 0 else if decide (b ∈ L) then 1 else 0) +
      sum_list ((λ l, sum_list (zip_with (leaves l) t' t)) <$> L)) as Hgen.
    { induction 1 as [|l L Hnl _ IHL]; [apply Nat.le_0_l|]. rewrite !fmap_cons, !sum_list_cons. unfold leaves at 1.
      repeat case_decide; try lia; set_solver. }
    specialize (Hgen _ (NoDup_nseq 0 8)). repeat case_decide; lia.
Qed.

Lemma validate_spec m : ShardMap.validate m = Ok () ↔ in_plane (table m).
Proof.
  unfold ShardMap.validate. destruct (list_find _ _) as [[i l]|] eqn:E.
  - apply list_find_Some in E as (Hi & Hl & _). split; [done|]. intros Hp.
    apply (Forall_lookup_1 _ _ _ _ Hp) in Hi. unfold LANE_COUNT in Hl. lia.
  - apply list_find_None in E. split; [|done]. intros _. eapply Forall_impl; [exact E|].
    intros l Hl. unfold LANE_COUNT in Hl. lia.
Qed.

Lemma target_spec target :
  (t ← u8_try_from target; if (t =? 0)%N then None else if (t <=? LANE_COUNT)%N then Some t else None) =
  if decide (1 ≤ target ≤ 8)%N then Some target else None.
Proof.
  unfold u8_try_from, u8_max, LANE_COUNT. destruct (N.leb_spec target 255); cbn [mbind option_bind];
    [destruct (N.eqb_spec target 0), (N.leb_spec target 8)|]; case_decide; (done || lia).
Qed.

Lemma lookup_zip_range {A} (t : list A) v l : length t = 256 →
  (v, l) ∈ zip (range_incl 0 u8_max) t ↔ t !! N.to_nat v = Some l.
Proof.
  intros Hlen. change (range_incl 0 u8_max) with (nseq 0 256). rewrite list_elem_of_lookup. split.
  - intros (i & Hi). rewrite lookup_zip_with in Hi.
    destruct (nseq 0 256 !! i) as [x|] eqn:Ex; [|done]. destruct (t !! i) as [y|] eqn:Ey; [|done].
    cbn in Hi. injection Hi as -> ->. rewrite lookup_nseq in Ex by (apply lookup_lt_Some in Ey; lia).
    injection Ex as <-. by rewrite N.add_0_l, Nat2N.id.
  - intros Hv. exists (N.to_nat v). apply lookup_lt_Some in Hv as Hlt. rewrite lookup_zip_with, lookup_nseq, Hv by lia.
    cbn. by rewrite N.add_0_l, N2Nat.id.
Qed.

(** Every divisor of 256 spreads the slots evenly. *)
Lemma even_table :
  forallb (λ d, if (256 mod d =? 0)%N
                then forallb (λ l, N.of_nat (count_lane ((λ v, v mod d)%N <$> nseq 0 VSLOT_COUNT) l) =? 256 / d)%N
                       (nseq 0 (N.to_nat d))
                else true) (nseq 1 256) = true.
Proof. by vm_compute. Qed.

(** ** Theorems *)

(** Every lane of the map has its even share of [count] lanes. *)
Definition even (m : ShardMap) (count : N) : Prop := ∀ l, l < 8 → count_lane (table m) (N.of_nat l) = share (N.to_nat count) l.

Lemma share_pos count l : 1 ≤ count ≤ 8 → 0 < share count l ↔ l < count.
Proof.
  intros Hc. unfold share, VSLOT_COUNT. destruct (Nat.ltb_spec l count); [|lia].
  assert (256 / 8 ≤ 256 / count) by (apply Nat.div_le_compat_l; lia). change (256 / 8) with 32 in *. lia.
Qed.

Lemma elem_count t x : x ∈ t → 0 < count_lane t x.
Proof.
  intros Hin. unfold count_lane. destruct (filter (λ y, y = x) t) as [|y f] eqn:E; [|cbn; lia].
  assert (x ∈ filter (λ y, y = x) t) as Hx by by apply list_elem_of_filter. rewrite E in Hx. by apply elem_of_nil in Hx.
Qed.

Lemma fold_max_bounds (l : list N) x : (∀ y, y ∈ x :: l → (y ≤ fold_left N.max l x)%N) ∧ fold_left N.max l x ∈ x :: l.
Proof.
  revert x. induction l as [|z l IH]; intros x; cbn; [split; [intros y ->%list_elem_of_singleton; done|left]|].
  destruct (IH (N.max x z)) as [H1 H2]. split.
  - pose proof (H1 (N.max x z) ltac:(left)). intros y [->|[->|Hy]%elem_of_cons]%elem_of_cons; [lia|lia|]. apply H1. by right.
  - apply elem_of_cons in H2 as [E|H2]; [|by do 2 right]. rewrite E. destruct (N.max_spec x z) as [[_ ->]|[_ ->]]; [right; left|left].
Qed.

(** The lanes of an even map are those it is even over. *)
Lemma even_active m count : in_plane (table m) → (1 ≤ count ≤ 8)%N → even m count → ShardMap.active_lanes m = count.
Proof.
  intros Hp Hc He. unfold ShardMap.active_lanes. unfold in_plane in Hp. rewrite Forall_forall in Hp.
  assert (∀ x, x ∈ table m ↔ (x < count)%N) as Hin.
  { intros x. split.
    - intros Hx. pose proof (Hp x Hx) as H8. pose proof (elem_count _ _ Hx) as Hpos. specialize (He (N.to_nat x) ltac:(lia)).
      rewrite N2Nat.id in He. rewrite He, share_pos in Hpos by lia. lia.
    - intros Hx. specialize (He (N.to_nat x) ltac:(lia)). rewrite N2Nat.id in He.
      destruct (count_pos (table m) x) as [j Hj]; [rewrite He; apply share_pos; lia|]. by eapply list_elem_of_lookup_2. }
  destruct (table m) as [|l ls]; [assert (0%N ∈ []) as Hn by (apply Hin; lia); by apply elem_of_nil in Hn|].
  destruct (fold_max_bounds ls l) as [H1 H2]. apply Hin in H2. pose proof (H1 (count - 1)%N ltac:(apply Hin; lia)). unfold u8_max. lia.
Qed.

(** C36. Rebalancing: [rebalance] succeeds exactly for a target of one to eight lanes,
    a map within the lane plane and a version that can grow. The next version
    follows. When the target differs from the number of active lanes, each lane gets
    its even share, and no other table with those shares moves fewer slots. When it is
    the same, the table stays as it is, even or not. So from a map that is even, or for
    another number of lanes, the next map is even over the target. *)
Theorem rebalance_balances (m : ShardMap) (target : N) :
  length (table m) = VSLOT_COUNT →
  (is_ok (rebalance m target) = true ↔
     (1 ≤ target ≤ 8)%N ∧ in_plane (table m) ∧ (version m < u32_max)%N) ∧
  ∀ m', rebalance m target = Ok m' →
    version m' = (version m + 1)%N ∧ length (table m') = VSLOT_COUNT ∧ in_plane (table m') ∧
    (target = ShardMap.active_lanes m → table m' = table m) ∧
    (target ≠ ShardMap.active_lanes m → even m' target ∧
       ∀ t, length t = VSLOT_COUNT → loads t = loads (table m') → moved (table m') (table m) ≤ moved t (table m)) ∧
    (target ≠ ShardMap.active_lanes m ∨ even m (ShardMap.active_lanes m) → even m' target ∧ ShardMap.active_lanes m' = target).
Proof.
  intros Hlen. unfold rebalance. rewrite target_spec. cbn [ok_or].
  destruct (decide (1 ≤ target ≤ 8)%N) as [Ht|Ht]; cbn [ok_or mbind result_bind]; [|split; [split; [done|tauto]|done]].
  destruct (ShardMap.validate m) as [[]|e] eqn:Ev; cbn [mbind result_bind].
  2:{ split; [|done]. split; [done|]. intros (_ & Hp & _). apply validate_spec in Hp. congruence. }
  apply validate_spec in Ev as Hp. unfold u32_try_from.
  destruct (N.leb_spec (version m + 1) u32_max) as [Hv|Hv]; cbn [ok_or mbind result_bind is_ok].
  2:{ split; [|done]. split; [done|]. lia. }
  split; [split; [intros _; split_and!; (done || lia)|done]|].
  remember (if negb (target =? ShardMap.active_lanes m)%N then _ else _) as bal eqn:Ebal.
  intros m' [= <-].
  cbn [ShardMap.from_table version table]. split; [done|]. revert Ebal.
  destruct (N.eqb_spec target (ShardMap.active_lanes m)) as [E|E]; cbn [negb]; intros ->.
  { split_and!; [exact Hlen|exact Hp|reflexivity|intros Hn; by destruct Hn|]. rewrite <-E. intros [?|He]; [done|]. split; [exact He|]. done. }
  destruct (sum_shares target Ht) as [Hsum Hslen].
  assert (balancing (table m) (shares target) 0 (Balance.new (table m) target)) as H0.
  { split; change (b_table (Balance.new (table m) target)) with (table m);
      [done|done|by apply new_load|done|lia|done|]. rewrite new_load by done.
    enough (moved (table m) (table m) = 0) as -> by done. clear. unfold moved.
    induction (table m) as [|x l IH]; [done|]. cbn [zip_with]. by rewrite sum_list_cons, IH, decide_True. }
  pose proof (move_all _ _ Hslen Hsum _ H0) as Hb. destruct (balanced_end _ _ Hslen Hsum _ Hb) as [Hl Hm].
  set (b := fold_left _ _ _) in *. clearbody b.
  assert (even (ShardMap.from_table (version m + 1) (b_table b)) target) as He.
  { intros l Hl8. cbn [ShardMap.from_table table]. rewrite <- loads_total, Hl by done. unfold shares.
    apply list_lookup_total_correct. rewrite list_lookup_fmap, lookup_seq_lt by done. done. }
  split_and!; [apply (bl_len _ _ _ _ Hb)|apply (bl_plane _ _ _ _ Hb)|intros En; by destruct E| |].
  - intros _. split; [exact He|]. intros t Htl Hloads. rewrite Hm, <- Hl, <- Hloads. apply moved_least. lia.
  - intros _. split; [exact He|]. apply even_active; [apply (bl_plane _ _ _ _ Hb)|done|exact He].
Qed.

(** The slot set of a lane. *)
Lemma vslot_set_contains (m : ShardMap) (lane v : N) :
  length (table m) = VSLOT_COUNT → (v < 256)%N →
  VslotSet.contains (ShardMap.vslot_set m lane) v = (ShardMap.lane_of_vslot m v =? lane)%N.
Proof.
  intros Hlen Hv.
  assert (∀ x, x ∈ ShardMap.vslots_of_lane m lane ↔ table m !! N.to_nat x = Some lane) as Hin.
  { intros x. unfold ShardMap.vslots_of_lane. rewrite list_elem_of_fmap. split.
    - intros ([y l] & -> & [Hl Hz]%list_elem_of_filter). cbn in *. subst l. by apply lookup_zip_range in Hz.
    - intros Hx. exists (x, lane). split; [done|]. apply list_elem_of_filter. split; [done|]. by apply lookup_zip_range. }
  unfold ShardMap.vslot_set. rewrite fold_with_contains, contains_empty, orb_false_r; [|apply empty_wf|done|].
  - apply eq_true_iff_eq. rewrite bool_decide_eq_true, Hin, N.eqb_eq. unfold ShardMap.lane_of_vslot.
    destruct (lookup_lt_is_Some_2 (table m) (N.to_nat v)) as [l E]; [unfold VSLOT_COUNT in Hlen; lia|].
    rewrite (list_lookup_total_correct _ _ _ E), E. split; congruence.
  - apply Forall_forall. intros x Hx%Hin. apply lookup_lt_Some in Hx. unfold VSLOT_COUNT in Hlen. lia.
Qed.

(** The identity map, when it exists. *)
Lemma identity_inv (lanes : N) (m : ShardMap) :
  ShardMap.identity lanes = Ok m →
  (0 < lanes ≤ 256)%N ∧ (256 mod lanes = 0)%N ∧ m = mkShardMap 0 ((λ vslot, vslot mod lanes)%N <$> nseq 0 VSLOT_COUNT).
Proof.
  unfold ShardMap.identity, LANE_CAP, VSLOT_COUNT_U32, is_multiple_of. intros Hid.
  destruct (N.eqb_spec lanes 0) as [|Hl0]; [done|]. destruct (N.ltb_spec 256 lanes) as [|Hcap]; [done|]. cbn [orb] in Hid.
  destruct (N.eqb_spec (256 mod lanes) 0) as [Hdiv|]; [|done]. cbn [negb] in Hid. split; [lia|]. split; [done|congruence].
Qed.

Lemma identity_lane (lanes v : N) (m : ShardMap) :
  ShardMap.identity lanes = Ok m → (v < 256)%N → ShardMap.lane_of_vslot m v = (v mod lanes)%N.
Proof.
  intros (_ & _ & ->)%identity_inv Hv. unfold ShardMap.lane_of_vslot. cbn [table]. apply list_lookup_total_correct.
  rewrite list_lookup_fmap, lookup_nseq by (unfold VSLOT_COUNT; lia). cbn. by rewrite N2Nat.id.
Qed.

(** The identity map is the legacy rule: for a digest of at least eight bytes and a
    lane count that [identity] accepts, the map has 256 slots spread evenly over
    the lanes, and [lane_for] and [partition_for] both send a sender to the prefix
    of its hash modulo the lane count. For a lane count that does not divide 256,
    [partition_for] is that rule too. *)
Theorem identity_is_legacy (keccak256 : Address → list N) (lanes : N) (m : ShardMap) (a : Address) (k : N) :
  (∀ x, 8 ≤ length (keccak256 x) ∧ bytes_ok (keccak256 x)) →
  ShardMap.identity lanes = Ok m → (0 < k)%N →
  length (table m) = VSLOT_COUNT ∧
  (∀ l, (l < lanes)%N → N.of_nat (count_lane (table m) l) = (256 / lanes)%N) ∧
  ShardMap.lane_for keccak256 m a = (sender_hash_prefix keccak256 a mod lanes)%N ∧
  partition_for keccak256 a k = (sender_hash_prefix keccak256 a mod k)%N.
Proof.
  intros Hk Hid Hpos.
  assert (vslot_for keccak256 a = sender_hash_prefix keccak256 a mod 256)%N as Hv
    by (unfold vslot_for; by rewrite (to_be_last 7)).
  assert (∀ p d, (0 < d)%N → (256 mod d = 0)%N → (p mod 256 mod d = p mod d)%N) as Hmod.
  { intros p d Hd Hdiv. rewrite (N.div_mod p 256) at 2 by lia.
    rewrite (N.div_mod 256 d) at 2 by lia. rewrite Hdiv, N.add_0_r.
    replace (d * (256 / d) * (p / 256) + p mod 256)%N with (p mod 256 + (256 / d * (p / 256)) * d)%N by lia.
    by rewrite N.Div0.mod_add. }
  pose proof (identity_lane lanes (vslot_for keccak256 a) m Hid) as Hlane. apply identity_inv in Hid as (Hrange & Hdiv & ->). cbn [table].
  split_and!.
  - by rewrite length_fmap, length_nseq.
  - pose proof even_table as Htab. rewrite forallb_forall in Htab. specialize (Htab lanes).
    rewrite <- list_elem_of_In, elem_of_nseq in Htab. specialize (Htab ltac:(lia)). rewrite Hdiv in Htab.
    cbn [N.eqb] in Htab. rewrite forallb_forall in Htab.
    intros l Hl. apply N.eqb_eq, Htab, list_elem_of_In, elem_of_nseq. lia.
  - unfold ShardMap.lane_for. rewrite Hlane, Hv; [apply Hmod; [lia|done]|]. rewrite Hv. by apply N.mod_lt.
  - unfold partition_for, is_multiple_of, VSLOT_COUNT_U32. destruct (N.eqb_spec k 0) as [|_]; [lia|].
    destruct (N.eqb_spec (256 mod k) 0) as [Hd|]; [|done]. rewrite Hv. by apply Hmod.
Qed.

(** The lanes partition the slots: the slot set of a lane contains exactly the
    slots the map sends to the lane, so every slot is in the set of one lane and
    no other, and a map within the lane plane survives its serialized form. *)
Theorem lanes_partition (m : ShardMap) (lane v : N) :
  length (table m) = VSLOT_COUNT → (v < 256)%N →
  VslotSet.contains (ShardMap.vslot_set m lane) v = (ShardMap.lane_of_vslot m v =? lane)%N ∧
  (in_plane (table m) → ShardMap.deserialize (ShardMap.serialize m) = Ok m).
Proof.
  intros Hlen Hv. split; [by apply vslot_set_contains|].
  intros Hp%validate_spec. unfold ShardMap.deserialize. cbn [ShardMap.serialize wire_table wire_version].
    rewrite Hlen, Nat.eqb_refl. unfold ShardMap.from_table. destruct m as [ver tab]; cbn [version table] in *. by rewrite Hp.
Qed.

(** ** Instances *)

(** Two lanes, as [identity 2] builds them. *)
Definition sample_map : ShardMap := mkShardMap 0 ((λ v, v mod 2)%N <$> nseq 0 256).
(** A digest with the shape of the hash: the address padded to 32 bytes. *)
Definition sample_digest (a : Address) : list N := to_be_bytes 32 a.

Lemma rebalance_balances_witness :
  is_ok (rebalance sample_map 3) = true ∧
  ∀ m', rebalance sample_map 3 = Ok m' → count_lane (table m') 2 = 85.
Proof.
  split; [by vm_compute|]. intros m' Hm'.
  destruct (rebalance_balances sample_map 3) as [_ Hb]; [done|].
  destruct (Hb m' Hm') as (_ & _ & _ & _ & Hshare & _).
  destruct Hshare as [Hshare _]; [by vm_compute|]. exact (Hshare 2 ltac:(lia)).
Defined.

Lemma identity_is_legacy_witness :
  ShardMap.identity 2 = Ok sample_map ∧
  ShardMap.lane_for sample_digest sample_map 7 = (sender_hash_prefix sample_digest 7 mod 2)%N.
Proof.
  split; [by vm_compute|]. apply (identity_is_legacy sample_digest 2 sample_map 7 3); [|by vm_compute|done].
  intros x. split; [unfold sample_digest; rewrite length_to_be_bytes; lia|apply to_be_bytes_ok].
Defined.

Lemma lanes_partition_witness :
  ShardMap.lane_of_vslot sample_map 5 = 1%N ∧
  VslotSet.contains (ShardMap.vslot_set sample_map 1) 5 = (ShardMap.lane_of_vslot sample_map 5 =? 1)%N.
Proof. split; [by vm_compute|]. by apply (lanes_partition sample_map 1 5). Defined.
