(* ===== verification/Types.v ===== *)
(** * Shared record types

    Models the parts of [crates/types/src] that the sequencer reads: positions
    ([position.rs]), receipts and rollbacks ([receipt.rs]), rejections
    ([tx_error.rs]), drops ([tx_drop.rs]), statuses ([tx_status.rs]) and refs
    ([txref.rs]). Wire attributes (rkyv) and string tables are left out. *)
From S2P Require Import Prelude.

(** ** Positions

    An [i32] is a [Z]; [as_i32] is the cast of an unsigned word, which keeps its
    low 32 bits, and [cast_unsigned] reads the bit pattern back. *)
Definition as_i32 (n : N) : Z :=
  let w := (n mod 4294967296)%N in
  if (w <? 2147483648)%N then Z.of_N w else (Z.of_N w - 4294967296)%Z.

Definition cast_unsigned (z : Z) : N := Z.to_N (z mod 4294967296)%Z.

Record BPosition : Type := mkPos { term_id : Z; term_offset : Z }.

#[export] Instance BPosition_eq_dec : EqDecision BPosition.
Proof. solve_decision. Defined.

Module BPosition.
Definition ZERO : BPosition := mkPos 0 0.

Definition from_index (idx : N) : BPosition :=
  mkPos (as_i32 (N.shiftr idx 32)) (as_i32 (N.land idx 4294967295)).

Definition as_index (p : BPosition) : N :=
  N.lor (N.shiftl (cast_unsigned (term_id p)) 32) (cast_unsigned (term_offset p)).

(** The derived [Ord]: lexicographic on [(term_id, term_offset)]. *)
Definition ltb (p q : BPosition) : bool :=
  (term_id p <? term_id q)%Z || ((term_id p =? term_id q)%Z && (term_offset p <? term_offset q)%Z).
End BPosition.

(** ** References *)
Record TxRef : Type := mkTxRef {
  ref_tx_hash : B256;
  shard_id : N;
  tx_data_position : BPosition;
  tx_data_session_id : Z;
}.

(** ** Transactions *)
Record TxEnvelope : Type := mkTxEnvelope {
  te_correlation_id : N;
  raw_tx : list N;
  te_sender : Address;
  te_tx_hash : B256;
  te_max_inclusion_block : N;
}.

(** ** Receipts *)
Definition TX_TYPE_LEGACY : N := 0.
Definition TX_TYPE_DEPOSIT : N := 126.
Definition TX_TYPE_XCHAIN : N := 125.

(** The keccak-256 hash of the empty write-set encoding. *)
Definition EMPTY_WRITE_SET_HASH : B256 :=
  0x2b97a4b75a93aa1ac8581fac0f7d4ab42406569409a737bdf9de584903b372c5%N.

Definition tx_type_of (raw_tx : list N) : N :=
  match raw_tx with
  | b :: _ => if (b <=? 127)%N then b else TX_TYPE_LEGACY
  | [] => TX_TYPE_LEGACY
  end.

Inductive SkipReason : Type :=
| Undecodable | NonceTooLow | NonceTooHigh | InsufficientFundsSkip | GasLimit | Fee
| InitCodeSize | SenderHasCode | OtherTransaction | Header.

#[export] Instance SkipReason_eq_dec : EqDecision SkipReason.
Proof. solve_decision. Defined.

Definition can_use_nonce (r : SkipReason) : bool :=
  match r with
  | Undecodable | NonceTooLow | NonceTooHigh | Header => false
  | _ => true
  end.

Record WireLog : Type := mkLog { log_address : Address; topics : list B256; log_data : list N }.

Record Receipt : Type := mkReceipt {
  tx_idx : BPosition;
  tx_type : N;
  rc_tx_hash : B256;
  status : bool;
  gas_used : N;
  logs : list WireLog;
  write_set_hash : B256;
  rc_nonce : N;
  from : Address;
  to : option Address;
  contract_address : option Address;
  effective_gas_price : N;
  priority_fee_per_gas : N;
  priority_fee_paid : N;
  block_number : N;
  transaction_index : N;
  cumulative_gas_used : N;
  skip_reason : option SkipReason;
}.

Definition is_invalid_skip (r : Receipt) : bool := negb (status r) && (gas_used r =? 0)%N.

Definition is_deposit (r : Receipt) : bool := (tx_type r =? TX_TYPE_DEPOSIT)%N.

Definition burns_nonce (r : Receipt) : bool :=
  is_invalid_skip r && negb (is_deposit r)
  && match skip_reason r with Some reason => can_use_nonce reason | None => false end
  && negb (write_set_hash r =? EMPTY_WRITE_SET_HASH)%N.

Definition uses_nonce (r : Receipt) : bool :=
  (negb (is_invalid_skip r) && negb (is_deposit r)) || burns_nonce r.

Record AccountRow : Type := mkRow { row_address : Address; row_nonce : N; row_balance : N }.
Record ReceiptRows : Type := mkRows { receipt : Receipt; rows : list AccountRow }.
Record ReceiptBatch : Type := mkBatch { receipts : list Receipt; accounts : list AccountRow }.

Module ReceiptBatch.
(** The merged map: [collect] into a [BTreeMap] keeps the last row of a key. *)
Definition merged (items : list ReceiptRows) : gmap Address AccountRow :=
  fold_left (λ m row, <[row_address row := row]> m) (mjoin (rows <$> items)) ∅.

Definition merge (items : list ReceiptRows) : ReceiptBatch :=
  mkBatch (receipt <$> items) (btree_list (merged items)).*2.

Definition end_tx_idx (b : ReceiptBatch) : option BPosition := tx_idx <$> last (receipts b).
End ReceiptBatch.

Record ReceiptRollback : Type := mkRollback { to_block : N; rollback_id : B256 }.

(** ** Rejections, drops and statuses *)
Inductive TxErrorReason : Type :=
| DuplicatedTx (expected_nonce : N)
| Evicted (expected_nonce : N)
| Expired (expected_nonce : N)
| PastDeadline (max_inclusion_block at_block : N)
| FeeInvalid (max_fee_per_gas max_priority_fee_per_gas : N)
| FeeTooLow (max_fee_per_gas base_fee : N)
| InsufficientFunds (have want : N)
| DaLag (sealed_head posted_head budget_blocks : N)
| RecordLag (sealed_index recorded_index budget : N)
| SealerNonceAhead (expected_nonce chain_nonce : N)
| NonceInFlight (chain_nonce : N)
| AlreadyKnown (expected_nonce : N).

Definition expected_nonce_of (r : TxErrorReason) : option N :=
  match r with
  | DuplicatedTx n | Evicted n | Expired n | AlreadyKnown n => Some n
  | _ => None
  end.

Record TxError : Type := mkTxError { err_sender : Address; err_nonce : N; err_reason : TxErrorReason }.

Inductive DropReason : Type :=
| DropNonceTooLow | DropInsufficientFunds | ReplacementUnderpriced | TxpoolFull
| FeeCapBelowBaseFee | DropExpired | TipAboveFeeCap | SealerRefusedReference.

Definition drop_reason (r : TxErrorReason) : DropReason :=
  match r with
  | DuplicatedTx _ | SealerNonceAhead _ _ => DropNonceTooLow
  | AlreadyKnown _ | NonceInFlight _ => ReplacementUnderpriced
  | Evicted _ | DaLag _ _ _ | RecordLag _ _ _ => TxpoolFull
  | Expired _ | PastDeadline _ _ => DropExpired
  | FeeInvalid _ _ => TipAboveFeeCap
  | FeeTooLow _ _ => FeeCapBelowBaseFee
  | InsufficientFunds _ _ => DropInsufficientFunds
  end.

Record TxDrop : Type :=
  mkTxDrop { drop_tx_hash : B256; drop_sender : Address; drop_nonce : N; reason : DropReason }.

Inductive TxStage : Type :=
| Offered (sender : Address) (nonce : N)
| Sealed
| ExecutedStage (sender : Address) (nonce : N) (status : bool)
| Rejected (sender : Address) (nonce : N) (reason : TxErrorReason)
| Accepted (sender : Address) (nonce : N).

Record TxStatus : Type := mkTxStatus { st_tx_hash : B256; stage : TxStage }.

Inductive TxStageKind : Type := KAccepted | KOffered | KSealed | KExecuted | KRejected.

Definition stage_bit (k : TxStageKind) : N :=
  match k with KOffered => 1 | KSealed => 2 | KExecuted => 4 | KRejected => 8 | KAccepted => 16 end.

Definition stage_kind (s : TxStage) : TxStageKind :=
  match s with
  | Offered _ _ => KOffered
  | Sealed => KSealed
  | ExecutedStage _ _ _ => KExecuted
  | Rejected _ _ _ => KRejected
  | Accepted _ _ => KAccepted
  end.

Definition stage_identity (s : TxStage) : option (Address * N) :=
  match s with
  | Offered a n | ExecutedStage a n _ | Rejected a n _ | Accepted a n => Some (a, n)
  | Sealed => None
  end.

Module TxStatus.
Definition offered (tx_hash : B256) (sender : Address) (nonce : N) : TxStatus :=
  mkTxStatus tx_hash (Offered sender nonce).
Definition sealed (tx_hash : B256) : TxStatus := mkTxStatus tx_hash Sealed.
Definition executed (r : Receipt) : TxStatus :=
  mkTxStatus (rc_tx_hash r) (ExecutedStage (from r) (rc_nonce r) (status r)).
Definition rejected (tx_hash : B256) (err : TxError) : TxStatus :=
  mkTxStatus tx_hash (Rejected (err_sender err) (err_nonce err) (err_reason err)).
Definition accepted (tx_hash : B256) (sender : Address) (nonce : N) : TxStatus :=
  mkTxStatus tx_hash (Accepted sender nonce).
End TxStatus.

(** ** Facts on positions *)
Lemma cast_unsigned_as_i32 n : cast_unsigned (as_i32 n) = (n mod 4294967296)%N.
Proof.
  unfold cast_unsigned, as_i32. set (w := (n mod 4294967296)%N).
  assert (Hw : (w < 4294967296)%N) by (apply N.mod_lt; done).
  destruct (N.ltb_spec w 2147483648).
  - rewrite Z.mod_small by lia. lia.
  - replace (Z.of_N w - 4294967296)%Z with (Z.of_N w + (-1) * 4294967296)%Z by lia.
    rewrite Z_mod_plus_full, Z.mod_small by lia. lia.
Qed.

Lemma as_i32_cast_unsigned z : (-2147483648 ≤ z < 2147483648)%Z → as_i32 (cast_unsigned z) = z.
Proof.
  intros Hz. unfold as_i32, cast_unsigned.
  assert (Hm : (0 ≤ z mod 4294967296 < 4294967296)%Z) by (apply Z.mod_pos_bound; lia).
  assert (Hsm : ((Z.to_N (z mod 4294967296)) mod 4294967296)%N = Z.to_N (z mod 4294967296))
    by (apply N.mod_small; lia).
  rewrite Hsm. destruct (Z.lt_ge_cases z 0) as [Hn|Hp].
  - assert (Hz' : (z mod 4294967296 = z + 4294967296)%Z).
    { rewrite <-(Z_mod_plus_full z 1), Z.mod_small; lia. }
    rewrite Hz'. destruct (N.ltb_spec (Z.to_N (z + 4294967296)) 2147483648); lia.
  - rewrite Z.mod_small in * by lia. destruct (N.ltb_spec (Z.to_N z) 2147483648); lia.
Qed.

(** The two words of a [u64]. *)
Lemma split_words idx :
  N.shiftr idx 32 = (idx / 4294967296)%N ∧ N.land idx 4294967295 = (idx mod 4294967296)%N.
Proof.
  split; [by rewrite N.shiftr_div_pow2|].
  change 4294967295%N with (N.ones 32). by rewrite N.land_ones.
Qed.

Lemma join_words hi lo : (lo < 4294967296)%N → N.lor (N.shiftl hi 32) lo = (hi * 4294967296 + lo)%N.
Proof.
  intros Hlo. rewrite N.shiftl_mul_pow2. change (2 ^ 32)%N with 4294967296%N.
  assert (Hand : N.land (hi * 4294967296) lo = 0%N).
  { apply N.bits_inj_0. intros i. rewrite N.land_spec. change 4294967296%N with (2 ^ 32)%N in *.
    destruct (N.lt_ge_cases i 32) as [Hi|Hi]; [by rewrite N.mul_pow2_bits_low|].
    rewrite <-(N.mod_small lo (2 ^ 32)), N.mod_pow2_bits_high by done. apply andb_false_r. }
  by rewrite <-N.lxor_lor, <-N.add_nocarry_lxor.
Qed.

Lemma position_words idx :
  (idx ≤ u64_max)%N →
  cast_unsigned (term_id (BPosition.from_index idx)) = (idx / 4294967296)%N ∧
  cast_unsigned (term_offset (BPosition.from_index idx)) = (idx mod 4294967296)%N.
Proof.
  intros Hu. destruct (split_words idx) as [H1 H2]. unfold BPosition.from_index; cbn [term_id term_offset].
  rewrite !cast_unsigned_as_i32, H1, H2. split.
  - apply N.mod_small. apply N.Div0.div_lt_upper_bound. unfold u64_max in Hu. lia.
  - by rewrite N.Div0.mod_mod.
Qed.

Lemma as_i32_small n : (n < 2147483648)%N → as_i32 n = Z.of_N n.
Proof.
  intros Hn. unfold as_i32. rewrite N.mod_small by lia. by rewrite (proj2 (N.ltb_lt _ _) Hn).
Qed.

Lemma as_i32_big n : (2147483648 ≤ n < 4294967296)%N → as_i32 n = (Z.of_N n - 4294967296)%Z.
Proof.
  intros Hn. unfold as_i32. rewrite N.mod_small by lia. by rewrite (proj2 (N.ltb_ge _ _)) by lia.
Qed.

(** ** Facts on merged batches *)

(** The last row of an address in a list of rows. *)
Definition last_row (a : Address) (l : list AccountRow) : option AccountRow :=
  last (filter (λ r, row_address r = a) l).

Lemma fold_rows_lookup (l : list AccountRow) (m : gmap Address AccountRow) a :
  fold_left (λ m row, <[row_address row := row]> m) l m !! a =
  match last_row a l with Some r => Some r | None => m !! a end.
Proof.
  induction l as [|r l IH] using rev_ind; [done|].
  rewrite fold_left_app. cbn. unfold last_row. rewrite filter_app, filter_cons, filter_nil.
  rewrite lookup_insert. case_decide; cbn.
  - by rewrite last_snoc.
  - rewrite app_nil_r. apply IH.
Qed.

(** ** Properties *)

(** A logical index survives the two position words: [as_index] inverts
    [from_index] on every [u64], and [from_index] inverts [as_index] on every pair
    of [i32] words. *)
Theorem position_roundtrip (idx : N) (p : BPosition) :
  (idx ≤ u64_max)%N →
  (-2147483648 ≤ term_id p < 2147483648 ∧ -2147483648 ≤ term_offset p < 2147483648)%Z →
  BPosition.as_index (BPosition.from_index idx) = idx ∧
  BPosition.from_index (BPosition.as_index p) = p.
Proof.
  intros Hu [Hi Ho]. unfold BPosition.as_index. split.
  - destruct (position_words idx Hu) as [-> ->].
    rewrite join_words by (apply N.mod_lt; done).
    rewrite N.mul_comm, <-N.Div0.div_mod. done.
  - assert (Hlo : (cast_unsigned (term_offset p) < 4294967296)%N).
    { unfold cast_unsigned. pose proof (Z.mod_pos_bound (term_offset p) 4294967296). lia. }
    assert (Hhi : (cast_unsigned (term_id p) < 4294967296)%N).
    { unfold cast_unsigned. pose proof (Z.mod_pos_bound (term_id p) 4294967296). lia. }
    rewrite join_words by done. unfold BPosition.from_index.
    destruct (split_words (cast_unsigned (term_id p) * 4294967296 + cast_unsigned (term_offset p)))
      as [-> ->].
    rewrite N.div_add_l, N.div_small, N.add_0_r by done.
    rewrite N.add_comm, N.Div0.mod_add, N.mod_small by done.
    rewrite !as_i32_cast_unsigned by done. by destruct p.
Qed.

(** The order of positions is the order of the indices only while the low word
    stays below [2^31]. At each index whose low word is [2^31 - 1] the derived order
    puts the next index below it: the low word is compared as a signed [i32]. *)
Theorem position_order_inverts (i j hi : N) :
  (i < j < 2147483648)%N → (hi < 4294967296)%N →
  BPosition.ltb (BPosition.from_index i) (BPosition.from_index j) = true ∧
  BPosition.ltb (BPosition.from_index (hi * 4294967296 + 2147483648))
                (BPosition.from_index (hi * 4294967296 + 2147483647)) = true.
Proof.
  intros Hij Hhi. unfold BPosition.ltb, BPosition.from_index; cbn [term_id term_offset].
  destruct (split_words i) as [-> ->], (split_words j) as [-> ->].
  destruct (split_words (hi * 4294967296 + 2147483648)) as [-> ->].
  destruct (split_words (hi * 4294967296 + 2147483647)) as [-> ->].
  rewrite !N.div_add_l by done. rewrite !(N.add_comm (hi * 4294967296)), !N.Div0.mod_add.
  rewrite (N.div_small i), (N.div_small j), (N.mod_small i), (N.mod_small j) by lia.
  change (2147483648 / 4294967296)%N with 0%N. change (2147483647 / 4294967296)%N with 0%N.
  change (2147483648 mod 4294967296)%N with 2147483648%N.
  change (2147483647 mod 4294967296)%N with 2147483647%N.
  rewrite !N.add_0_r, !Z.eqb_refl, !Z.ltb_irrefl. cbn [orb andb].
  rewrite (as_i32_small i), (as_i32_small j) by lia. split; [apply Z.ltb_lt; lia | done].
Qed.

(** A receipt batch lists each touched account once, ascending by address, with
    the row of the last transaction in canonical order that wrote it. *)
Theorem merge_last_write_wins (items : list ReceiptRows) :
  StronglySorted N.lt (row_address <$> accounts (ReceiptBatch.merge items)) ∧
  ∀ row, row ∈ accounts (ReceiptBatch.merge items) ↔
         last_row (row_address row) (mjoin (rows <$> items)) = Some row.
Proof.
  set (m := ReceiptBatch.merged items).
  assert (Hm : ∀ a, m !! a = last_row a (mjoin (rows <$> items))).
  { intros a. unfold m, ReceiptBatch.merged. rewrite fold_rows_lookup, lookup_empty.
    by destruct (last_row a _). }
  assert (Hkey : ∀ a row, m !! a = Some row → row_address row = a).
  { intros a row. rewrite Hm. unfold last_row. intros Hl%last_Some_elem_of.
    by apply list_elem_of_filter in Hl as [? _]. }
  unfold ReceiptBatch.merge; cbn [accounts]. fold m. split.
  - assert (Heq : row_address <$> (btree_list m).*2 = (btree_list m).*1).
    { rewrite <-list_fmap_compose. apply list_fmap_ext. intros i [a row] Hi. cbn.
      apply Hkey, elem_of_btree_list. by eapply list_elem_of_lookup_2. }
    rewrite Heq. apply btree_keys_sorted.
  - intros row. rewrite <-Hm, list_elem_of_fmap. split.
    + intros ([a row'] & -> & Hin%elem_of_btree_list). cbn. by rewrite (Hkey _ _ Hin).
    + intros Hr. exists (row_address row, row). split; [done|]. by apply elem_of_btree_list.
Qed.

(** ** Witnesses *)
Lemma position_roundtrip_witness :
  BPosition.as_index (BPosition.from_index 18446744073709551615) = 18446744073709551615%N ∧
  BPosition.from_index (BPosition.as_index (mkPos (-1) 7)) = mkPos (-1) 7.
Proof. apply position_roundtrip; [done | cbn; lia]. Defined.

Lemma position_order_inverts_witness :
  BPosition.ltb (BPosition.from_index 3) (BPosition.from_index 4) = true ∧
  BPosition.ltb (BPosition.from_index (0 * 4294967296 + 2147483648))
                (BPosition.from_index (0 * 4294967296 + 2147483647)) = true.
Proof. apply position_order_inverts; lia. Defined.
