(* ===== verification/Frame.v ===== *)
(** * The KAR1 payload codec (batcher/src/frame.rs, types/src/xchain/message.rs)

    The blocks a batch posts, as records, with the writer [encode] and the reader
    [decode] of the byte layout. An [Address] and a [B256] are numbers; their byte
    form is the 20 or 32 big-endian bytes. A message text of an error is a
    constructor with the values the text shows. *)
From S2P Require Import Prelude Bytes.

(** ** Cross-chain records *)

Record Callback : Type := mkCallback { cb_target : Address; cb_gas_limit : N; context : B256 }.

Record XChainMessage : Type := mkMessage {
  source_hash : B256;
  seq_no : N;
  origin_sender : Address;
  target : Address;
  msg_value : N;
  msg_gas_limit : N;
  hops : N;
  input : list N;
  callback : option Callback;
}.

(** A vector with a first element. *)
Record NonEmptyVec (A : Type) : Type := mkNonEmpty { first : A; rest : list A }.
Arguments mkNonEmpty {A} _ _.
Arguments first {A} _.
Arguments rest {A} _.

Module NonEmptyVec.
Definition iter {A} (v : NonEmptyVec A) : list A := first v :: rest v.
Definition len {A} (v : NonEmptyVec A) : nat := S (length (rest v)).
End NonEmptyVec.

Record RemoteEpochRecord : Type := mkRemoteEpoch {
  origin_chain_id : N;
  anchor_number : N;
  anchor_hash : B256;
  first_seq : N;
  messages : NonEmptyVec XChainMessage;
}.

(** ** Frames *)

Record TxFrame : Type := mkTxFrame { correlation_id : N; sender : Address; frame_tx_hash : B256; raw_tx : list N }.
Record BlockCursor : Type := mkCursor { cursor_end : N; cursor_origin : N }.
Record BlockFrame : Type := mkBlockFrame {
  block_number : N;
  l2_timestamp : N;
  cursor : option BlockCursor;
  remote_epochs : list RemoteEpochRecord;
  txs : list TxFrame;
}.
Record Kar1Payload : Type := mkPayload { blocks : list BlockFrame; compressed : bool }.

Inductive FrameFault : Type :=
| BlockCountOverflow | TxCountOverflow | RemoteEpochCountOverflow | RawTxLenOverflow
| MsgCountOverflow | InputLenOverflow
| MixedCursors (with_cursor total : nat)
| BadMagic (magic : list N)
| UnsupportedVersion (version : N)
| ShortRead (want have : nat)
| EmptyRemoteEpoch
| InvalidCallbackFlag (flag : N)
| ZeroBlocks.

Inductive BatcherError : Type :=
| Io | Codec | Compress | Da | L1 | Config | Reconstruct | Corruption
| Frame (what : FrameFault)
| Payload (ceiling bytes : nat)
| BlockTooLarge (number : N) (bytes ceiling : nat).

Definition is_payload_overflow (e : BatcherError) : bool :=
  match e with Payload _ _ => true | _ => false end.

Definition MAGIC : list N := [75; 65; 82; 49]%N.
Definition VERSION : N := 5.
Definition VERSION_NO_CURSOR : N := 4.
Definition FLAG_ZSTD : N := 1.

(** [u32::try_from] of a length, with the error of the field. *)
Definition len_u32 {A} (l : list A) (fault : FrameFault) : result BatcherError N :=
  ok_or (u32_try_from (N.of_nat (length l))) (Frame fault).

Definition payload_version (p : Kar1Payload) : result BatcherError N :=
  let with_cursor := length (filter (λ b, is_Some (cursor b)) (blocks p)) in
  if (with_cursor =? length (blocks p))%nat then Ok VERSION
  else if (with_cursor =? 0)%nat then Ok VERSION_NO_CURSOR
  else Err (Frame (MixedCursors with_cursor (length (blocks p)))).

(** ** The writer

    A method takes the buffer written so far and answers the longer one. *)
Module FrameWriter.
Definition tx (buf : list N) (t : TxFrame) : result BatcherError (list N) :=
  raw_len ← len_u32 (raw_tx t) RawTxLenOverflow;
  Ok (buf ++ to_le_bytes 8 (correlation_id t) ++ to_be_bytes 20 (sender t) ++ to_be_bytes 32 (frame_tx_hash t) ++
      to_le_bytes 4 raw_len ++ raw_tx t).

Definition xchain_message (buf : list N) (msg : XChainMessage) : result BatcherError (list N) :=
  input_len ← len_u32 (input msg) InputLenOverflow;
  Ok (buf ++ to_be_bytes 32 (source_hash msg) ++ to_le_bytes 8 (seq_no msg) ++ to_be_bytes 20 (origin_sender msg) ++
      to_be_bytes 20 (target msg) ++ to_le_bytes 16 (msg_value msg) ++ to_le_bytes 8 (msg_gas_limit msg) ++
      [hops msg] ++ to_le_bytes 4 input_len ++ input msg ++
      match callback msg with
      | None => [0%N]
      | Some cb => [1%N] ++ to_be_bytes 20 (cb_target cb) ++ to_le_bytes 8 (cb_gas_limit cb) ++
                   to_be_bytes 32 (context cb)
      end).

Definition remote_epoch (buf : list N) (rec : RemoteEpochRecord) : result BatcherError (list N) :=
  msg_count ← ok_or (u32_try_from (N.of_nat (NonEmptyVec.len (messages rec)))) (Frame MsgCountOverflow);
  try_fold xchain_message
    (buf ++ to_le_bytes 8 (origin_chain_id rec) ++ to_le_bytes 8 (anchor_number rec) ++
     to_be_bytes 32 (anchor_hash rec) ++ to_le_bytes 8 (first_seq rec) ++ to_le_bytes 4 msg_count)
    (NonEmptyVec.iter (messages rec)).

Definition block (buf : list N) (b : BlockFrame) : result BatcherError (list N) :=
  tx_count ← len_u32 (txs b) TxCountOverflow;
  remote_epoch_count ← len_u32 (remote_epochs b) RemoteEpochCountOverflow;
  buf ← try_fold remote_epoch
    (buf ++ to_le_bytes 8 (block_number b) ++ to_le_bytes 8 (l2_timestamp b) ++
     match cursor b with
     | Some c => to_le_bytes 8 (cursor_end c) ++ to_le_bytes 8 (cursor_origin c)
     | None => []
     end ++ to_le_bytes 4 remote_epoch_count)
    (remote_epochs b);
  try_fold tx (buf ++ to_le_bytes 4 tx_count) (txs b).
End FrameWriter.

Definition encode (p : Kar1Payload) : result BatcherError (list N) :=
  block_count ← len_u32 (blocks p) BlockCountOverflow;
  version ← payload_version p;
  try_fold FrameWriter.block
    (MAGIC ++ [version] ++ [if compressed p then FLAG_ZSTD else 0%N] ++
     to_le_bytes 4 block_count ++ to_le_bytes 2 0)
    (blocks p).

(** ** The reader *)

Inductive BlockLayout : Type := NoCursor | WithCursor.

Definition layout_of (version : N) : result BatcherError BlockLayout :=
  if (version =? VERSION)%N then Ok WithCursor
  else if (version =? VERSION_NO_CURSOR)%N then Ok NoCursor
  else Err (Frame (UnsupportedVersion version)).

Module FrameReader.
Definition read_bytes (n : nat) : Reader BatcherError (list N) := λ buf,
  if length buf <? n then Err (Frame (ShortRead n (length buf))) else Ok (take n buf, drop n buf).

Definition read_le (n : nat) : Reader BatcherError N := bs ← read_bytes n; mret (from_le_bytes bs).
Definition read_u8 : Reader BatcherError N := read_le 1.
Definition read_u16_le : Reader BatcherError N := read_le 2.
Definition read_u32_le : Reader BatcherError N := read_le 4.
Definition read_u64_le : Reader BatcherError N := read_le 8.
Definition read_u128_le : Reader BatcherError N := read_le 16.

(** [Address::from_slice] and [B256::from_slice] of the next bytes. *)
Definition read_be (n : nat) : Reader BatcherError N := bs ← read_bytes n; mret (from_be_bytes bs).

Definition decode_cursor (layout : BlockLayout) : Reader BatcherError (option BlockCursor) :=
  match layout with
  | NoCursor => mret None
  | WithCursor =>
      end_tx_idx ← read_u64_le;
      l1_origin ← read_u64_le;
      mret (Some (mkCursor end_tx_idx l1_origin))
  end.

Definition decode_tx_frame : Reader BatcherError TxFrame :=
  correlation_id ← read_u64_le;
  sender ← read_be 20;
  tx_hash ← read_be 32;
  raw_tx_len ← read_u32_le;
  raw_tx ← read_bytes (N.to_nat raw_tx_len);
  mret (mkTxFrame correlation_id sender tx_hash raw_tx).

Definition decode_xchain_message : Reader BatcherError XChainMessage :=
  source_hash ← read_be 32;
  seq ← read_u64_le;
  origin_sender ← read_be 20;
  target ← read_be 20;
  value ← read_u128_le;
  gas_limit ← read_u64_le;
  hops ← read_u8;
  input_len ← read_u32_le;
  input ← read_bytes (N.to_nat input_len);
  flag ← read_u8;
  callback ← (if (flag =? 0)%N then mret None
              else if (flag =? 1)%N then
                cb_target ← read_be 20;
                cb_gas_limit ← read_u64_le;
                context ← read_be 32;
                mret (Some (mkCallback cb_target cb_gas_limit context))
              else fail (Frame (InvalidCallbackFlag flag)));
  mret (mkMessage source_hash seq origin_sender target value gas_limit hops input callback).

Definition decode_remote_epoch : Reader BatcherError RemoteEpochRecord :=
  origin_chain_id ← read_u64_le;
  anchor_number ← read_u64_le;
  anchor_hash ← read_be 32;
  first_seq ← read_u64_le;
  msg_count ← read_u32_le;
  messages ← read_many decode_xchain_message (N.to_nat msg_count);
  match messages with
  | [] => fail (Frame EmptyRemoteEpoch)
  | first :: rest => mret (mkRemoteEpoch origin_chain_id anchor_number anchor_hash first_seq (mkNonEmpty first rest))
  end.

Definition decode_block_frame (layout : BlockLayout) : Reader BatcherError BlockFrame :=
  block_number ← read_u64_le;
  l2_timestamp ← read_u64_le;
  cursor ← decode_cursor layout;
  remote_epoch_count ← read_u32_le;
  remote_epochs ← read_many decode_remote_epoch (N.to_nat remote_epoch_count);
  tx_count ← read_u32_le;
  txs ← read_many decode_tx_frame (N.to_nat tx_count);
  mret (mkBlockFrame block_number l2_timestamp cursor remote_epochs txs).

(** The body of [decode], over the reader. *)
Definition decode_payload : Reader BatcherError Kar1Payload :=
  magic ← read_bytes 4;
  if decide (magic = MAGIC) then
    version ← read_u8;
    match layout_of version with
    | Err e => fail e
    | Ok layout =>
        flags ← read_u8;
        block_count ← read_u32_le;
        _ ← read_u16_le;
        blocks ← read_many (decode_block_frame layout) (N.to_nat block_count);
        mret (mkPayload blocks (negb (N.land flags FLAG_ZSTD =? 0)%N))
    end
  else fail (Frame (BadMagic magic)).
End FrameReader.

Definition decode (bytes : list N) : result BatcherError Kar1Payload := fst <$> FrameReader.decode_payload bytes.
