(* ===== verification/FrameSpec.v ===== *)
(** * The KAR1 codec: round trip and truncation

    [tx_bytes], [message_bytes], [epoch_bytes] and [block_bytes] are the layout of
    the format table as pure functions. The writer appends exactly them, the reader
    takes exactly them, and the reader refuses every proper prefix of an encoding. *)
From S2P Require Import Prelude Bytes Frame.

(** ** The layout *)

Definition le_len {A} (l : list A) : list N := to_le_bytes 4 (N.of_nat (length l)).

Definition tx_bytes (t : TxFrame) : list N :=
  to_le_bytes 8 (correlation_id t) ++ to_be_bytes 20 (sender t) ++ to_be_bytes 32 (frame_tx_hash t) ++
  le_len (raw_tx t) ++ raw_tx t.

Definition callback_bytes (c : option Callback) : list N :=
  match c with
  | None => [0%N]
  | Some cb => [1%N] ++ to_be_bytes 20 (cb_target cb) ++ to_le_bytes 8 (cb_gas_limit cb) ++ to_be_bytes 32 (context cb)
  end.

Definition message_bytes (m : XChainMessage) : list N :=
  to_be_bytes 32 (source_hash m) ++ to_le_bytes 8 (seq_no m) ++ to_be_bytes 20 (origin_sender m) ++
  to_be_bytes 20 (target m) ++ to_le_bytes 16 (msg_value m) ++ to_le_bytes 8 (msg_gas_limit m) ++
  [hops m] ++ le_len (input m) ++ input m ++ callback_bytes (callback m).

Definition epoch_head (r : RemoteEpochRecord) : list N :=
  to_le_bytes 8 (origin_chain_id r) ++ to_le_bytes 8 (anchor_number r) ++ to_be_bytes 32 (anchor_hash r) ++
  to_le_bytes 8 (first_seq r) ++ to_le_bytes 4 (N.of_nat (NonEmptyVec.len (messages r))).
Definition epoch_bytes (r : RemoteEpochRecord) : list N :=
  epoch_head r ++ (NonEmptyVec.iter (messages r) ≫= message_bytes).

Definition cursor_bytes (c : option BlockCursor) : list N :=
  match c with Some c => to_le_bytes 8 (cursor_end c) ++ to_le_bytes 8 (cursor_origin c) | None => [] end.

Definition block_head (b : BlockFrame) : list N :=
  to_le_bytes 8 (block_number b) ++ to_le_bytes 8 (l2_timestamp b) ++ cursor_bytes (cursor b) ++ le_len (remote_epochs b).
Definition block_bytes (b : BlockFrame) : list N :=
  block_head b ++ (remote_epochs b ≫= epoch_bytes) ++ le_len (txs b) ++ (txs b ≫= tx_bytes).

Definition payload_bytes (version : N) (p : Kar1Payload) : list N :=
  (MAGIC ++ [version] ++ [if compressed p then FLAG_ZSTD else 0%N] ++ le_len (blocks p) ++ to_le_bytes 2 0) ++
  (blocks p ≫= block_bytes).

(** ** The ranges of the fields *)

Definition fits {A} (l : list A) : Prop := (N.of_nat (length l) ≤ u32_max)%N.
Definition u64_ok (n : N) : Prop := (n ≤ u64_max)%N.
Definition address_ok (a : Address) : Prop := (a < 2 ^ 160)%N.
Definition b256_ok (h : B256) : Prop := (h < 2 ^ 256)%N.

Definition tx_ok (t : TxFrame) : Prop :=
  u64_ok (correlation_id t) ∧ address_ok (sender t) ∧ b256_ok (frame_tx_hash t).
Definition callback_ok (c : option Callback) : Prop :=
  match c with
  | None => True
  | Some cb => address_ok (cb_target cb) ∧ u64_ok (cb_gas_limit cb) ∧ b256_ok (context cb)
  end.
Definition message_ok (m : XChainMessage) : Prop :=
  b256_ok (source_hash m) ∧ u64_ok (seq_no m) ∧ address_ok (origin_sender m) ∧ address_ok (target m) ∧
  (msg_value m ≤ u128_max)%N ∧ u64_ok (msg_gas_limit m) ∧ (hops m ≤ u8_max)%N ∧ callback_ok (callback m).
Definition epoch_ok (r : RemoteEpochRecord) : Prop :=
  u64_ok (origin_chain_id r) ∧ u64_ok (anchor_number r) ∧ b256_ok (anchor_hash r) ∧ u64_ok (first_seq r) ∧
  Forall message_ok (NonEmptyVec.iter (messages r)).
Definition cursor_ok (c : option BlockCursor) : Prop :=
  match c with None => True | Some c => u64_ok (cursor_end c) ∧ u64_ok (cursor_origin c) end.
Definition block_ok (b : BlockFrame) : Prop :=
  u64_ok (block_number b) ∧ u64_ok (l2_timestamp b) ∧ cursor_ok (cursor b) ∧
  Forall epoch_ok (remote_epochs b) ∧ Forall tx_ok (txs b).
Definition payload_ok (p : Kar1Payload) : Prop := Forall block_ok (blocks p).

(** What the writer checks: every count and length fits its [u32] field. *)
Definition epoch_fits (r : RemoteEpochRecord) : Prop :=
  (N.of_nat (NonEmptyVec.len (messages r)) ≤ u32_max)%N ∧ Forall (λ m, fits (input m)) (NonEmptyVec.iter (messages r)).
Definition block_fits (b : BlockFrame) : Prop :=
  fits (txs b) ∧ fits (remote_epochs b) ∧ Forall epoch_fits (remote_epochs b) ∧ Forall (λ t, fits (raw_tx t)) (txs b).

(** ** The writer appends the layout *)

Lemma u32_spec n : u32_try_from n = Some n ∧ (n ≤ u32_max)%N ∨ u32_try_from n = None ∧ (u32_max < n)%N.
Proof. unfold u32_try_from. destruct (N.leb_spec n u32_max); auto. Qed.

Lemma try_fold_writes {A} (f : list N → A → result BatcherError (list N)) (bytes : A → list N) (P : A → Prop) :
  (∀ buf a, (f buf a = Ok (buf ++ bytes a) ∧ P a) ∨ (is_ok (f buf a) = false ∧ ¬ P a)) →
  ∀ l buf, (try_fold f buf l = Ok (buf ++ (l ≫= bytes)) ∧ Forall P l) ∨ (is_ok (try_fold f buf l) = false ∧ ¬ Forall P l).
Proof.
  intros Hf l. induction l as [|a l IH]; intros buf; cbn [try_fold].
  { left. split; [by rewrite app_nil_r|constructor]. }
  destruct (Hf buf a) as [[-> Ha]|[Hno Ha]].
  - destruct (IH (buf ++ bytes a)) as [[-> Hl]|[Hno Hl]]; [left|right].
    + split; [|by constructor]. cbn. by rewrite <- app_assoc.
    + split; [done|]. by intros [_ ?]%Forall_cons.
  - right. destruct (f buf a); [done|]. split; [done|]. by intros [? _]%Forall_cons.
Qed.

Lemma tx_writes buf t :
  (FrameWriter.tx buf t = Ok (buf ++ tx_bytes t) ∧ fits (raw_tx t)) ∨
  (is_ok (FrameWriter.tx buf t) = false ∧ ¬ fits (raw_tx t)).
Proof.
  unfold FrameWriter.tx, len_u32, fits. destruct (u32_spec (N.of_nat (length (raw_tx t)))) as [[-> H]|[-> H]].
  - by left.
  - right. split; [done|lia].
Qed.

Lemma message_writes buf m :
  (FrameWriter.xchain_message buf m = Ok (buf ++ message_bytes m) ∧ fits (input m)) ∨
  (is_ok (FrameWriter.xchain_message buf m) = false ∧ ¬ fits (input m)).
Proof.
  unfold FrameWriter.xchain_message, len_u32, fits. destruct (u32_spec (N.of_nat (length (input m)))) as [[-> H]|[-> H]].
  - by left.
  - right. split; [done|lia].
Qed.

Lemma epoch_writes buf r :
  (FrameWriter.remote_epoch buf r = Ok (buf ++ epoch_bytes r) ∧ epoch_fits r) ∨
  (is_ok (FrameWriter.remote_epoch buf r) = false ∧ ¬ epoch_fits r).
Proof.
  unfold FrameWriter.remote_epoch, epoch_fits.
  destruct (u32_spec (N.of_nat (NonEmptyVec.len (messages r)))) as [[-> H]|[-> H]]; cbn [ok_or mbind result_bind].
  2:{ right. split; [done|]. lia. }
  fold (epoch_head r).
  destruct (try_fold_writes _ message_bytes _ message_writes (NonEmptyVec.iter (messages r)) (buf ++ epoch_head r))
    as [[-> Hm]|[-> Hm]]; [left|right; tauto].
  split; [|done]. unfold epoch_bytes. by rewrite <- app_assoc.
Qed.

Lemma block_writes buf b :
  (FrameWriter.block buf b = Ok (buf ++ block_bytes b) ∧ block_fits b) ∨
  (is_ok (FrameWriter.block buf b) = false ∧ ¬ block_fits b).
Proof.
  unfold FrameWriter.block, len_u32, block_fits, fits at 1 2 4 5.
  destruct (u32_spec (N.of_nat (length (txs b)))) as [[-> Ht]|[-> Ht]]; cbn [ok_or mbind result_bind]; [|right; split; [done|lia]].
  destruct (u32_spec (N.of_nat (length (remote_epochs b)))) as [[-> He]|[-> He]]; cbn [ok_or mbind result_bind]; [|right; split; [done|lia]].
  fold (le_len (remote_epochs b)) (le_len (txs b)) (cursor_bytes (cursor b)). fold (block_head b).
  destruct (try_fold_writes _ epoch_bytes _ epoch_writes (remote_epochs b) (buf ++ block_head b)) as [[-> Hes]|[Hno Hes]].
  2:{ right. destruct (try_fold _ _ _); [done|]. split; [done|tauto]. }
  cbn [mbind result_bind].
  destruct (try_fold_writes _ tx_bytes _ tx_writes (txs b) (((buf ++ block_head b) ++ (remote_epochs b ≫= epoch_bytes)) ++ le_len (txs b)))
    as [[Htx Hts]|[Hno Hts]].
  - left. rewrite Htx. split; [|done]. unfold block_bytes. by rewrite <- !app_assoc.
  - right. split; [done|tauto].
Qed.

(** ** The reader takes the layout *)

Lemma reads_bytes bs n : length bs = n → reads (FrameReader.read_bytes n) bs bs.
Proof.
  intros <- tl. unfold FrameReader.read_bytes. rewrite length_app.
  destruct (Nat.ltb_spec (length bs + length tl) (length bs)); [lia|].
  by rewrite take_app_length, drop_app_length.
Qed.

Lemma reads_le n v : (v < 256 ^ N.of_nat n)%N → reads (FrameReader.read_le n) (to_le_bytes n v) v.
Proof.
  intros Hv. eapply reads_bind_ret; [apply reads_bytes, length_to_le_bytes|]. by rewrite from_to_le.
Qed.

Lemma reads_be n v : (v < 256 ^ N.of_nat n)%N → reads (FrameReader.read_be n) (to_be_bytes n v) v.
Proof.
  intros Hv. eapply reads_bind_ret; [apply reads_bytes, length_to_be_bytes|]. by rewrite from_to_be.
Qed.

Lemma reads_u8 v : (v ≤ u8_max)%N → reads FrameReader.read_u8 [v] v.
Proof.
  intros Hv. assert ([v] = to_le_bytes 1 v) as ->.
  { cbn. rewrite N.mod_small; [done|]. unfold u8_max in Hv. lia. }
  apply reads_le. unfold u8_max in Hv. cbn. lia.
Qed.

Lemma reads_u64 v : u64_ok v → reads FrameReader.read_u64_le (to_le_bytes 8 v) v.
Proof. intros Hv. apply reads_le. change (256 ^ N.of_nat 8)%N with (u64_max + 1)%N. unfold u64_ok in Hv. lia. Qed.

Lemma reads_u128 v : (v ≤ u128_max)%N → reads FrameReader.read_u128_le (to_le_bytes 16 v) v.
Proof. intros Hv. apply reads_le. change (256 ^ N.of_nat 16)%N with (u128_max + 1)%N. lia. Qed.

Lemma reads_u32 v : (v ≤ u32_max)%N → reads FrameReader.read_u32_le (to_le_bytes 4 v) v.
Proof. intros Hv. apply reads_le. change (256 ^ N.of_nat 4)%N with (u32_max + 1)%N. lia. Qed.

Lemma reads_len {A} (l : list A) : fits l → reads FrameReader.read_u32_le (le_len l) (N.of_nat (length l)).
Proof. apply reads_u32. Qed.

Lemma reads_address a : address_ok a → reads (FrameReader.read_be 20) (to_be_bytes 20 a) a.
Proof. intros Ha. apply reads_be. exact Ha. Qed.

Lemma reads_b256 h : b256_ok h → reads (FrameReader.read_be 32) (to_be_bytes 32 h) h.
Proof. intros Hh. apply reads_be. exact Hh. Qed.

Lemma reads_raw (bs : list N) : reads (FrameReader.read_bytes (N.to_nat (N.of_nat (length bs)))) bs bs.
Proof. apply reads_bytes. by rewrite Nat2N.id. Qed.

#[local] Hint Resolve reads_u8 reads_u64 reads_u128 reads_u32 reads_len reads_address reads_b256 reads_raw : codec.

(** One read of a decoder, and the read before its last line. *)
Ltac read_field := eapply reads_bind; [solve [eauto with codec]|cbn beta].
Ltac read_last := eapply reads_bind_ret; [solve [eauto with codec]|try reflexivity].

Lemma reads_tx t : tx_ok t → fits (raw_tx t) → reads FrameReader.decode_tx_frame (tx_bytes t) t.
Proof.
  intros (Hc & Hs & Hh) Hf. unfold FrameReader.decode_tx_frame, tx_bytes. do 4 read_field. read_last. by destruct t.
Qed.

Lemma reads_message m : message_ok m → fits (input m) → reads FrameReader.decode_xchain_message (message_bytes m) m.
Proof.
  intros (Hs & Hq & Ho & Ht & Hv & Hg & Hh & Hc) Hf. unfold FrameReader.decode_xchain_message, message_bytes.
  do 9 read_field. destruct m as [? ? ? ? ? ? ? ? [cb|]]; cbn [callback callback_bytes] in *.
  - destruct Hc as (Hct & Hcg & Hcc). eapply reads_bind; [apply reads_u8; done|]. cbn beta.
    eapply reads_bind_ret; [|reflexivity]. cbn [N.eqb Pos.eqb]. do 2 read_field. read_last. by destruct cb.
  - eapply reads_bind_ret; [by apply reads_u8|]. done.
Qed.

Lemma reads_epoch r : epoch_ok r → epoch_fits r → reads FrameReader.decode_remote_epoch (epoch_bytes r) r.
Proof.
  intros (Ho & Ha & Hh & Hf & Hm) [Hn Hin]. unfold FrameReader.decode_remote_epoch, epoch_bytes, epoch_head.
  rewrite <- !app_assoc. do 5 read_field. rewrite Nat2N.id.
  change (NonEmptyVec.len (messages r)) with (length (NonEmptyVec.iter (messages r))).
  eapply reads_bind_ret; [apply reads_many; apply Forall_forall; intros m Hmm|].
  - rewrite Forall_forall in Hm, Hin. apply reads_message; auto.
  - destruct r as [? ? ? ? []]; done.
Qed.

(** The layout a block needs. *)
Definition layout_for (b : BlockFrame) : BlockLayout :=
  match cursor b with Some _ => WithCursor | None => NoCursor end.

Lemma reads_block b layout :
  block_ok b → block_fits b → layout = layout_for b →
  reads (FrameReader.decode_block_frame layout) (block_bytes b) b.
Proof.
  intros (Hn & Ht & Hc & He & Hx) (Fx & Fe & Hef & Hxf) ->.
  unfold FrameReader.decode_block_frame, block_bytes, block_head. rewrite <- !app_assoc.
  unfold layout_for. do 2 read_field. eapply reads_bind with (a := cursor b).
  { destruct (cursor b) as [c|]; cbn [FrameReader.decode_cursor cursor_bytes cursor_ok] in *; [|apply reads_ret].
    destruct Hc. read_field. read_last. by destruct c. }
  read_field. rewrite Nat2N.id. eapply reads_bind; [apply reads_many; apply Forall_forall; intros r Hr|].
  { rewrite Forall_forall in He, Hef. apply reads_epoch; auto. }
  read_field. rewrite Nat2N.id. eapply reads_bind_ret; [apply reads_many; apply Forall_forall; intros t Htx|].
  { rewrite Forall_forall in Hx, Hxf. apply reads_tx; auto. }
  by destruct b.
Qed.

(** The version names the layout of every block. *)
Lemma version_layout p v : payload_version p = Ok v →
  (v ≤ u8_max)%N ∧ ∃ layout, layout_of v = Ok layout ∧
    Forall (λ b, layout = layout_for b) (blocks p).
Proof.
  unfold payload_version. destruct (Nat.eqb_spec (length (filter (λ b, is_Some (cursor b)) (blocks p))) (length (blocks p))) as [E|_].
  - intros [= <-]. split; [done|]. exists WithCursor. split; [done|].
    assert (Forall (λ b, is_Some (cursor b)) (blocks p)) as Hall.
    { induction (blocks p) as [|b l IH]; [constructor|]. rewrite filter_cons in E.
      case_decide; cbn in E; [constructor; [done|apply IH; lia]|].
      pose proof (length_filter (λ b, is_Some (cursor b)) l). lia. }
    eapply Forall_impl; [exact Hall|]. intros b [c Ec]. unfold layout_for. by rewrite Ec.
  - destruct (Nat.eqb_spec (length (filter (λ b, is_Some (cursor b)) (blocks p))) 0) as [E|]; [|done].
    intros [= <-]. split; [done|]. exists NoCursor. split; [done|]. apply Forall_forall. intros b Hb.
    apply nil_length_inv in E. unfold layout_for. destruct (cursor b) as [c|] eqn:Ec; [|done].
    exfalso. apply (filter_nil_not_elem_of (λ b, is_Some (cursor b)) (blocks p) b E); [by exists c|done].
Qed.

Lemma reads_payload p v : payload_version p = Ok v → payload_ok p → fits (blocks p) → Forall block_fits (blocks p) →
  reads FrameReader.decode_payload (payload_bytes v p) p.
Proof.
  intros Hv Hp Hf Hb. destruct (version_layout p v Hv) as (Hv8 & layout & Hl & Hlay).
  unfold FrameReader.decode_payload, payload_bytes. rewrite <- !app_assoc.
  eapply reads_bind; [by apply (reads_bytes MAGIC)|]. rewrite decide_True by done.
  read_field. rewrite Hl. eapply reads_bind; [apply reads_u8; by destruct (compressed p)|].
  read_field. eapply reads_bind; [by apply (reads_le 2)|]. rewrite Nat2N.id.
  eapply reads_bind_ret; [apply reads_many; apply Forall_forall; intros b Hin|].
  - unfold payload_ok in Hp. rewrite Forall_forall in Hp, Hb, Hlay. apply reads_block; auto.
  - destruct p as [bs [|]]; done.
Qed.

Lemma encode_spec p bs : encode p = Ok bs →
  ∃ v, payload_version p = Ok v ∧ bs = payload_bytes v p ∧ fits (blocks p) ∧ Forall block_fits (blocks p).
Proof.
  unfold encode, len_u32, fits.
  destruct (u32_spec (N.of_nat (length (blocks p)))) as [[-> H]|[-> H]]; cbn [ok_or mbind result_bind]; [|done].
  destruct (payload_version p) as [v|e] eqn:Ev; cbn [mbind result_bind]; [|done].
  match goal with |- try_fold _ ?head _ = _ → _ =>
    destruct (try_fold_writes _ block_bytes _ block_writes (blocks p) head) as [[-> Hb]|[Hno _]] end.
  - intros [= <-]. exists v. done.
  - destruct (try_fold _ _ _); done.
Qed.

(** ** The reader is local *)

Lemma local_bytes n : local (FrameReader.read_bytes n).
Proof.
  intros buf a tl more. unfold FrameReader.read_bytes. rewrite length_app.
  destruct (Nat.ltb_spec (length buf) n) as [|Hn]; [done|]. intros [= <- <-].
  destruct (Nat.ltb_spec (length buf + length more) n); [lia|]. by rewrite take_app_le, drop_app_le.
Qed.

Lemma local_le n : local (FrameReader.read_le n).
Proof. apply local_bind; [apply local_bytes|]. intros. apply local_ret. Qed.
Lemma local_be n : local (FrameReader.read_be n).
Proof. apply local_bind; [apply local_bytes|]. intros. apply local_ret. Qed.

#[local] Hint Resolve local_bytes local_le local_be : codec.

(** Peel the reads of a decoder; what branches is left. *)
Ltac local_reads :=
  repeat first [assumption | apply local_ret | apply local_fail | apply local_bytes | apply local_le | apply local_be
               | apply local_many | (apply local_bind; [|intros ?])].

Lemma local_message : local FrameReader.decode_xchain_message.
Proof.
  unfold FrameReader.decode_xchain_message. local_reads.
  repeat (case_match; local_reads).
Qed.

Lemma local_epoch : local FrameReader.decode_remote_epoch.
Proof.
  pose proof local_message. unfold FrameReader.decode_remote_epoch. local_reads. case_match; local_reads.
Qed.

Lemma local_tx : local FrameReader.decode_tx_frame.
Proof. unfold FrameReader.decode_tx_frame. local_reads. Qed.

Lemma local_block layout : local (FrameReader.decode_block_frame layout).
Proof.
  pose proof local_epoch. pose proof local_tx. unfold FrameReader.decode_block_frame. local_reads.
  destruct layout; cbn [FrameReader.decode_cursor]; local_reads.
Qed.

Lemma local_payload : local FrameReader.decode_payload.
Proof.
  unfold FrameReader.decode_payload. apply local_bind; [apply local_bytes|]. intros magic.
  case_decide; [|apply local_fail]. apply local_bind; [apply local_le|]. intros v.
  destruct (layout_of v) as [layout|e]; [|apply local_fail]. pose proof (local_block layout). local_reads.
Qed.

Lemma decode_encode p bs trailing : encode p = Ok bs → payload_ok p → decode (bs ++ trailing) = Ok p.
Proof.
  intros (v & Hv & -> & Hf & Hb)%encode_spec Hp. unfold decode.
  by rewrite (reads_payload p v Hv Hp Hf Hb trailing).
Qed.

(** ** Theorems *)

(** C37. The payload round trip: [encode] succeeds exactly when every count and length
    fits its field and the blocks carry a cursor all or none, and [decode] answers
    the payload from the encoding of one whose fields are in range, whatever bytes
    follow it. *)
Theorem frame_roundtrip (p : Kar1Payload) :
  (is_ok (encode p) = true ↔ fits (blocks p) ∧ Forall block_fits (blocks p) ∧ is_ok (payload_version p) = true) ∧
  ∀ bs trailing, encode p = Ok bs → payload_ok p → decode (bs ++ trailing) = Ok p.
Proof.
  split; [|apply decode_encode].
  split.
  - destruct (encode p) as [bs|] eqn:E; [|done]. intros _. by apply encode_spec in E as (v & -> & _ & ? & ?).
  - intros (Hf & Hb & Hv). unfold encode, len_u32, fits in *.
    destruct (u32_spec (N.of_nat (length (blocks p)))) as [[-> _]|[_ ?]]; [|lia]. cbn [ok_or mbind result_bind].
    destruct (payload_version p) as [v|]; [|done]. cbn [mbind result_bind].
    match goal with |- is_ok (try_fold _ ?head _) = _ =>
      destruct (try_fold_writes _ block_bytes _ block_writes (blocks p) head) as [[-> _]|[_ Hno]] end; [done|].
    by destruct Hno.
Qed.

(** Truncation is detected: [decode] refuses every proper prefix of the encoding of
    a payload whose fields are in range. *)
Theorem frame_truncation (p : Kar1Payload) (bs pre tail : list N) :
  encode p = Ok bs → payload_ok p → bs = pre ++ tail → tail ≠ [] → is_ok (decode pre) = false.
Proof.
  intros (v & Hv & Ebs & Hf & Hb)%encode_spec Hp Hpre Ht. rewrite Ebs in Hpre.
  destruct (local_prefix _ _ _ _ _ local_payload (reads_payload p v Hv Hp Hf Hb) Hpre Ht) as [e He].
  unfold decode. by rewrite He.
Qed.

(** ** Instances *)

Definition sample_message : XChainMessage :=
  mkMessage 11 4 12 13 0 21000 3 [1; 2; 3]%N (Some (mkCallback 14 50000 15)).
Definition sample_block : BlockFrame :=
  mkBlockFrame 9 1700 (Some (mkCursor 40 7)) [mkRemoteEpoch 5 6 7 4 (mkNonEmpty sample_message [])]
    [mkTxFrame 1 2 3 [200; 201]%N].
Definition sample_payload : Kar1Payload := mkPayload [sample_block] false.
Definition sample_encoding : list N := match encode sample_payload with Ok bs => bs | Err _ => [] end.

Lemma sample_encoded : encode sample_payload = Ok sample_encoding.
Proof. by vm_compute. Qed.

Lemma sample_payload_ok : payload_ok sample_payload.
Proof.
  repeat constructor; cbn; unfold u64_ok, address_ok, b256_ok, u64_max, u128_max, u8_max; lia || done.
Qed.

Lemma frame_roundtrip_witness : length sample_encoding = 351 ∧ decode (sample_encoding ++ [99%N]) = Ok sample_payload.
Proof.
  split; [by vm_compute|].
  apply (frame_roundtrip sample_payload); [apply sample_encoded|apply sample_payload_ok].
Defined.

Lemma frame_truncation_witness : is_ok (decode (take 350 sample_encoding)) = false.
Proof.
  apply (frame_truncation sample_payload sample_encoding _ (drop 350 sample_encoding) sample_encoded sample_payload_ok).
  - by rewrite take_drop.
  - by vm_compute.
Defined.
