(* ===== verification/Commitment.v ===== *)
(** * Record commitments (types/src/prover.rs, types/src/xchain, types/src/abi.rs)

    The digest of a block's records that the batcher posts and a proof must carry:
    the Outbox leaf of a message, the canonical id of a remote-epoch record, the
    per-block digest and the batch fold. [keccak256] is code of another crate: a
    parameter, from bytes to the number its 32 digest bytes spell. The streaming
    [Keccak256] hasher is the list of the bytes it absorbed. A Rust panic is
    [None]. *)
From S2P Require Import Prelude Bytes Frame.

(** ** ABI words *)

Definition word_u64 (v : N) : list N := replicate 24 0%N ++ to_be_bytes 8 v.
Definition word_u128 (v : N) : list N := replicate 16 0%N ++ to_be_bytes 16 v.
Definition word_address (a : Address) : list N := replicate 12 0%N ++ to_be_bytes 20 a.

Section commitments.
Variable keccak256 : list N → B256.

(** ** Message leaves *)

(** The bytes of [KARDAMOM_XCHAIN_MESSAGE_V1]. *)
Definition LEAF_DOMAIN_TEXT : list N :=
  [75; 65; 82; 68; 65; 77; 79; 77; 95; 88; 67; 72; 65; 73; 78; 95; 77; 69; 83; 83; 65; 71; 69; 95; 86; 49]%N.

Definition xchain_leaf_domain : B256 := keccak256 LEAF_DOMAIN_TEXT.
Definition no_callback_hash : B256 := 0%N.

Definition callback_is_zero (cb : Callback) : bool :=
  ((cb_target cb =? 0) && (cb_gas_limit cb =? 0) && (context cb =? 0))%N.

Definition callback_commitment (cb : Callback) : B256 :=
  if callback_is_zero cb then 0%N
  else keccak256 (word_address (cb_target cb) ++ word_u64 (cb_gas_limit cb) ++ to_be_bytes 32 (context cb)).

Record MsgLeaf : Type := mkMsgLeaf {
  leaf_origin : N; leaf_dest : N; leaf_seq : N; leaf_sender : Address; leaf_target : Address;
  leaf_value : N; leaf_gas_limit : N; leaf_hops : N; data_hash : B256; cb_hash : B256;
}.

Definition leaf_words (l : MsgLeaf) : list N :=
  to_be_bytes 32 xchain_leaf_domain ++ word_u64 (leaf_origin l) ++ word_u64 (leaf_dest l) ++ word_u64 (leaf_seq l) ++
  word_address (leaf_sender l) ++ word_address (leaf_target l) ++ word_u128 (leaf_value l) ++
  word_u64 (leaf_gas_limit l) ++ word_u64 (leaf_hops l) ++ to_be_bytes 32 (data_hash l) ++ to_be_bytes 32 (cb_hash l).

Definition leaf_hash (l : MsgLeaf) : B256 := keccak256 (leaf_words l).

Definition message_leaf (m : XChainMessage) (origin_chain_id dest_chain_id : N) : MsgLeaf :=
  mkMsgLeaf origin_chain_id dest_chain_id (seq_no m) (origin_sender m) (target m) (msg_value m) (msg_gas_limit m)
    (hops m) (keccak256 (input m))
    (match callback m with None => no_callback_hash | Some cb => callback_commitment cb end).

Definition leaf (m : XChainMessage) (origin_chain_id dest_chain_id : N) : B256 :=
  leaf_hash (message_leaf m origin_chain_id dest_chain_id).

(** ** Remote-epoch ids *)

Definition last_seq (r : RemoteEpochRecord) : N :=
  (u64_saturating_add (first_seq r) (N.of_nat (NonEmptyVec.len (messages r))) - 1)%N.

Definition canonical_id (r : RemoteEpochRecord) : B256 :=
  keccak256 (to_be_bytes 8 (origin_chain_id r) ++ to_be_bytes 8 (anchor_number r) ++ to_be_bytes 32 (anchor_hash r) ++
             to_be_bytes 8 (first_seq r) ++ to_be_bytes 8 (last_seq r)).

End commitments.

(** ** Digests *)

Definition TAG_TX : N := 1.
Definition TAG_REMOTE_EPOCH : N := 2.

Module BlockRecordsDigest.
(** The bytes absorbed so far. *)
Definition new (block_number : N) : list N := [75; 82; 69; 67]%N ++ to_le_bytes 8 block_number.

Definition add_tx (h : list N) (raw_tx : list N) : option (list N) :=
  len ← u32_try_from (N.of_nat (length raw_tx));
  Some (h ++ [TAG_TX] ++ to_le_bytes 4 len ++ raw_tx).

Definition add_remote_epoch (keccak256 : list N → B256) (h : list N) (dest_chain_id : N) (rec : RemoteEpochRecord) : option (list N) :=
  count ← u32_try_from (N.of_nat (NonEmptyVec.len (messages rec)));
  Some (h ++ [TAG_REMOTE_EPOCH] ++ to_be_bytes 32 (canonical_id keccak256 rec) ++ to_le_bytes 4 count ++
        (NonEmptyVec.iter (messages rec) ≫= λ msg, to_be_bytes 32 (leaf keccak256 msg (origin_chain_id rec) dest_chain_id))).

Definition finish (keccak256 : list N → B256) (h : list N) : B256 := keccak256 h.
End BlockRecordsDigest.

Definition batch_records_commitment (keccak256 : list N → B256) (block_digests : list B256) : B256 :=
  keccak256 ([75; 66; 65; 84]%N ++ (block_digests ≫= to_be_bytes 32)).
