(* ===== verification/Batcher.v ===== *)
(** * The batcher (batcher/src/batch.rs, batcher.rs, recon.rs, compress.rs)

    The accumulator that groups the canonical records into closed blocks, the
    packing of closed blocks into posts below the payload ceiling, and the
    reconstruction of the blocks from a posted payload. zstd and Keccak are code of
    other crates: fields of the [Codecs] interface, with the documented behaviour
    of zstd as its laws. A function that can panic or loop answers an [option] of
    its result: [None] is a panic, or a loop cut off by its fuel. *)
From S2P Require Import Prelude Bytes Types Frame Commitment.

(** ** The code of other crates *)
Class Codecs := {
  keccak256 : list N → B256;
  zstd_encode : list N → Z → option (list N);
  zstd_decode : list N → option (list N);
}.

(** The magic number that starts every zstd frame. *)
Definition ZSTD_MAGIC : list N := [40; 181; 47; 253]%N.

Class ZstdLaws (C : Codecs) : Prop := {
  zstd_inverse : ∀ x level y, zstd_encode x level = Some y → zstd_decode y = Some x;
  zstd_magic : ∀ x level y, zstd_encode x level = Some y → ∃ tl, y = ZSTD_MAGIC ++ tl;
}.

(** ** Closed blocks *)

Record TxEnvelope : Type := mkEnvelope {
  env_correlation_id : N; env_raw_tx : list N; env_sender : Address; env_tx_hash : B256; max_inclusion_block : N;
}.
Record BlockBoundaryStart : Type := mkBoundaryStart {
  bs_block_number : N; bs_end_tx_idx : BPosition; bs_l2_timestamp : N; bs_l1_origin : N;
}.
Record RecordedTx : Type := mkRecordedTx { position : BPosition; envelope : TxEnvelope }.
Record ClosedBlock : Type := mkClosed {
  closed_number : N;
  closed_timestamp : N;
  closed_end : BPosition;
  closed_origin : N;
  closed_epochs : list RemoteEpochRecord;
  closed_txs : list RecordedTx;
}.

Inductive ResolvedRecord : Type :=
| RTx (position : BPosition) (sequencer_id : N) (tx_data_position : BPosition) (env : TxEnvelope)
| RBoundary (position : BPosition) (marker : BlockBoundaryStart)
| RRemoteEpoch (position : BPosition) (record : RemoteEpochRecord).

Module BatchAccumulator.
Record t : Type := mk { pending : list RecordedTx; pending_remote_epochs : list RemoteEpochRecord }.

Definition new : t := mk [] [].

Definition observe_tx (a : t) (env : TxEnvelope) (pos : BPosition) : t :=
  mk (pending a ++ [mkRecordedTx pos env]) (pending_remote_epochs a).

Definition observe_remote_epoch (a : t) (rec : RemoteEpochRecord) : t :=
  mk (pending a) (pending_remote_epochs a ++ [rec]).

Definition observe_boundary (a : t) (b : BlockBoundaryStart) : t * ClosedBlock :=
  (mk [] [], mkClosed (bs_block_number b) (bs_l2_timestamp b) (bs_end_tx_idx b) (bs_l1_origin b)
               (pending_remote_epochs a) (pending a)).

Definition observe (a : t) (rec : ResolvedRecord) : t * option ClosedBlock :=
  match rec with
  | RTx position _ _ env => (observe_tx a env position, None)
  | RRemoteEpoch _ record => (observe_remote_epoch a record, None)
  | RBoundary _ marker => let '(a', b) := observe_boundary a marker in (a', Some b)
  end.

Definition pending_len (a : t) : nat := length (pending a).
End BatchAccumulator.

(** ** Packing *)

Record BatcherConfig : Type := mkBatcherConfig {
  blocks_per_batch : nat;
  compress : bool;
  max_payload_bytes : nat;
  compression_level : Z;
  chain_id : N;
}.

Record PostedBatch : Type := mkPosted {
  payload : list N;
  l2_block_start : N;
  l2_block_end : N;
  records_commitment : B256;
}.

Definition build_payload (bs : list ClosedBlock) : Kar1Payload :=
  mkPayload
    ((λ b, mkBlockFrame (closed_number b) (closed_timestamp b)
             (Some (mkCursor (BPosition.as_index (closed_end b)) (closed_origin b)))
             (closed_epochs b)
             ((λ t, mkTxFrame (env_correlation_id (envelope t)) (env_sender (envelope t))
                      (env_tx_hash (envelope t)) (env_raw_tx (envelope t))) <$> closed_txs b)) <$> bs)
    false.

(** [Iterator::for_each] over a step that can panic. *)
Fixpoint opt_fold {A B} (f : B → A → option B) (b : B) (l : list A) : option B :=
  match l with
  | [] => Some b
  | x :: l' => b' ← f b x; opt_fold f b' l'
  end.

Section packing.
Context `{Codecs}.

Definition encode_zstd (bs : list N) (level : Z) : result BatcherError (list N) := ok_or (zstd_encode bs level) Compress.
Definition decode_zstd (bs : list N) : result BatcherError (list N) := ok_or (zstd_decode bs) Compress.

Definition block_records_digest (chain_id : N) (b : ClosedBlock) : option B256 :=
  h ← opt_fold (λ h rec, BlockRecordsDigest.add_remote_epoch keccak256 h chain_id rec)
        (BlockRecordsDigest.new (closed_number b)) (closed_epochs b);
  h ← opt_fold BlockRecordsDigest.add_tx h ((λ t, env_raw_tx (envelope t)) <$> closed_txs b);
  Some (BlockRecordsDigest.finish keccak256 h).

Definition pack_blocks (cfg : BatcherConfig) (bs : list ClosedBlock) : option (result BatcherError PostedBatch) :=
  match head bs, last bs with
  | Some first_block, Some last_block =>
      match (framed ← encode (build_payload bs);
             if compress cfg then encode_zstd framed (compression_level cfg) else Ok framed) with
      | Err e => Some (Err e)
      | Ok to_pack =>
          if max_payload_bytes cfg <? length to_pack then
            match bs with
            | [only] => Some (Err (BlockTooLarge (closed_number only) (length to_pack) (max_payload_bytes cfg)))
            | _ => Some (Err (Payload (max_payload_bytes cfg) (length to_pack)))
            end
          else
            digests ← mapM (block_records_digest (chain_id cfg)) bs;
            Some (Ok (mkPosted to_pack (closed_number first_block) (closed_number last_block)
                        (batch_records_commitment keccak256 digests)))
      end
  | _, _ => Some (Err (Frame ZeroBlocks))
  end.

Record PrefixSearch : Type := mkSearch { best : option (PostedBatch * nat); lo : nat; hi : nat }.

Definition search_open (s : PrefixSearch) : bool := 1 <? hi s - lo s.

Definition probe (cfg : BatcherConfig) (bs : list ClosedBlock) (s : PrefixSearch)
    : option (result BatcherError PrefixSearch) :=
  let mid := (lo s + hi s) / 2 in
  match pack_blocks cfg (take mid bs) with
  | None => None
  | Some (Ok batch) => Some (Ok (mkSearch (Some (batch, mid)) mid (hi s)))
  | Some (Err e) => if is_payload_overflow e then Some (Ok (mkSearch (best s) (lo s) mid)) else Some (Err e)
  end.

Fixpoint search_loop (fuel : nat) (cfg : BatcherConfig) (bs : list ClosedBlock) (s : PrefixSearch)
    : option (result BatcherError PrefixSearch) :=
  if search_open s then
    match fuel with
    | O => None
    | S fuel' =>
        match probe cfg bs s with
        | Some (Ok s') => search_loop fuel' cfg bs s'
        | stop => stop
        end
    end
  else Some (Ok s).

Definition pack_largest_prefix (cfg : BatcherConfig) (bs : list ClosedBlock)
    : option (result BatcherError (PostedBatch * nat)) :=
  match pack_blocks cfg bs with
  | None => None
  | Some (Ok batch) => Some (Ok (batch, length bs))
  | Some (Err e) =>
      if is_payload_overflow e then
        match search_loop (length bs) cfg bs (mkSearch None 0 (length bs)) with
        | None => None
        | Some (Err e) => Some (Err e)
        | Some (Ok s) =>
            match best s with
            | Some found => Some (Ok found)
            | None =>
                match pack_blocks cfg (take 1 bs) with
                | None => None
                | Some (Ok b) => Some (Ok (b, 1))
                | Some (Err e) => Some (Err e)
                end
            end
        end
      else Some (Err e)
  end.

Fixpoint pack_loop (fuel : nat) (cfg : BatcherConfig) (rest : list ClosedBlock) (out : list PostedBatch)
    : option (result BatcherError (list PostedBatch)) :=
  match rest with
  | [] => Some (Ok out)
  | _ :: _ =>
      match fuel with
      | O => None
      | S fuel' =>
          match pack_largest_prefix cfg rest with
          | None => None
          | Some (Err e) => Some (Err e)
          | Some (Ok (batch, taken)) => pack_loop fuel' cfg (drop taken rest) (out ++ [batch])
          end
      end
  end.

Definition pack_block_groups (cfg : BatcherConfig) (bs : list ClosedBlock)
    : option (result BatcherError (list PostedBatch)) :=
  pack_loop (length bs) cfg bs [].

(** ** Reconstruction *)

Definition is_zstd (bytes : list N) : bool :=
  match bytes with
  | a :: b :: c :: d :: _ => ((a =? 40) && (b =? 181) && (c =? 47) && (d =? 253))%N
  | _ => false
  end.

Definition reconstruct (payload : list N) : result BatcherError (list BlockFrame) :=
  framed ← (if is_zstd payload then decode_zstd payload else Ok payload);
  blocks <$> decode framed.
End packing.

(** ** The batching loop *)

(** The sink of posted batches. *)
Class Sender (S : Type) := post : S → PostedBatch → S * result BatcherError ().

Module Batcher.
Record t (S : Type) : Type := mk {
  cfg : BatcherConfig;
  accumulator : BatchAccumulator.t;
  sender : S;
  pending_blocks : list ClosedBlock;
}.
Arguments mk {S} _ _ _ _.
Arguments cfg {S} _.
Arguments accumulator {S} _.
Arguments sender {S} _.
Arguments pending_blocks {S} _.

Definition new {S} (cfg : BatcherConfig) (sender : S) : t S := mk cfg BatchAccumulator.new sender [].

Fixpoint post_all {S} `{Sender S} (s : S) (batches : list PostedBatch) : S * result BatcherError () :=
  match batches with
  | [] => (s, Ok ())
  | b :: rest =>
      let '(s', r) := post s b in
      match r with Ok _ => post_all s' rest | Err e => (s', Err e) end
  end.

Definition on_closed_block {S} `{Codecs} `{Sender S} (b : t S) (block : ClosedBlock)
    : option (t S * result BatcherError ()) :=
  let pending := pending_blocks b ++ [block] in
  if length pending <? blocks_per_batch (cfg b) then
    Some (mk (cfg b) (accumulator b) (sender b) pending, Ok ())
  else
    match pack_block_groups (cfg b) pending with
    | None => None
    | Some (Err e) => Some (mk (cfg b) (accumulator b) (sender b) [], Err e)
    | Some (Ok batches) =>
        let '(s', r) := post_all (sender b) batches in
        Some (mk (cfg b) (accumulator b) s' [], r)
    end.
End Batcher.
