(* ===== verification/BatcherSpec.v ===== *)
(** * The batcher: theorems

    What a batch posts is what a reader rebuilds, the packing terminates without a
    panic and covers every block once in order, and without compression it takes
    the longest prefix that fits. *)
From S2P Require Import Prelude Bytes Types Frame FrameSpec Commitment Batcher.

(** The fields of a closed block are in the range of their types. *)
Definition envelope_ok (e : TxEnvelope) : Prop :=
  u64_ok (env_correlation_id e) ∧ address_ok (env_sender e) ∧ b256_ok (env_tx_hash e).
Definition closed_ok (b : ClosedBlock) : Prop :=
  u64_ok (closed_number b) ∧ u64_ok (closed_timestamp b) ∧ u64_ok (closed_origin b) ∧
  Forall epoch_ok (closed_epochs b) ∧ Forall (λ t, envelope_ok (envelope t)) (closed_txs b).

Lemma as_index_ok p : u64_ok (BPosition.as_index p).
Proof.
  unfold u64_ok, BPosition.as_index, u64_max.
  pose proof (Z.mod_pos_bound (term_id p) 4294967296). pose proof (Z.mod_pos_bound (term_offset p) 4294967296).
  unfold cast_unsigned. rewrite join_words by lia. lia.
Qed.

Lemma build_ok bs : Forall closed_ok bs → payload_ok (build_payload bs).
Proof.
  intros Hbs. apply Forall_fmap. eapply Forall_impl; [exact Hbs|]. intros b (Hn & Ht & Ho & He & Hx).
  split_and!; [done|done|split; [apply as_index_ok|done]|done|].
  apply Forall_fmap. eapply Forall_impl; [exact Hx|]. intros t Htx. exact Htx.
Qed.

(** The codec fails with a frame error only. *)
Definition frame_error {A} (r : result BatcherError A) : Prop :=
  match r with Ok _ | Err (Frame _) => True | _ => False end.

Lemma frame_error_bind {A B} (r : result BatcherError A) (f : A → result BatcherError B) :
  frame_error r → (∀ a, frame_error (f a)) → frame_error (r ≫= f).
Proof. destruct r as [a|e]; cbn; auto. Qed.

Lemma frame_error_ok_or {A} (o : option A) fault : frame_error (ok_or o (Frame fault)).
Proof. by destruct o. Qed.

Lemma frame_error_fold {A B} (f : B → A → result BatcherError B) l b :
  (∀ b a, frame_error (f b a)) → frame_error (try_fold f b l).
Proof.
  intros Hf. revert b. induction l as [|a l IH]; intros b; cbn [try_fold]; [done|].
  specialize (Hf b a). destruct (f b a); [apply IH|done].
Qed.

Lemma encode_frame_error p : frame_error (encode p).
Proof.
  assert (∀ buf t, frame_error (FrameWriter.tx buf t)) as Htx
    by (intros; apply frame_error_bind; [apply frame_error_ok_or|done]).
  assert (∀ buf m, frame_error (FrameWriter.xchain_message buf m)) as Hmsg
    by (intros; apply frame_error_bind; [apply frame_error_ok_or|done]).
  assert (∀ buf r, frame_error (FrameWriter.remote_epoch buf r)) as Hep
    by (intros; apply frame_error_bind; [apply frame_error_ok_or|intros; by apply frame_error_fold]).
  assert (∀ buf b, frame_error (FrameWriter.block buf b)) as Hblock.
  { intros. apply frame_error_bind; [apply frame_error_ok_or|intros].
    apply frame_error_bind; [apply frame_error_ok_or|intros].
    apply frame_error_bind; [by apply frame_error_fold|intros]. by apply frame_error_fold. }
  apply frame_error_bind; [apply frame_error_ok_or|intros]. apply frame_error_bind; [|intros; by apply frame_error_fold].
  unfold payload_version. by repeat case_match.
Qed.

Section packing.
Context `{HC : Codecs}.

(** ** One pack *)

Lemma opt_fold_Some {A B} (f : B → A → option B) l b :
  Forall (λ a, ∀ b, is_Some (f b a)) l → is_Some (opt_fold f b l).
Proof.
  intros Hl. revert b. induction Hl as [|a l Ha _ IH]; intros b; cbn; [by eexists|].
  destruct (Ha b) as [b' ->]. cbn. apply IH.
Qed.

(** An encodable block digests without a panic: the codec checks the same lengths. *)
Lemma digest_total cid bs framed : encode (build_payload bs) = Ok framed →
  is_Some (mapM (block_records_digest cid) bs).
Proof.
  intros (v & _ & _ & _ & Hfit)%encode_spec. apply mapM_is_Some_2.
  unfold build_payload in Hfit; cbn [blocks] in Hfit. rewrite Forall_fmap in Hfit.
  eapply Forall_impl; [exact Hfit|]. intros b (_ & _ & Hep & Htx). unfold compose, block_records_digest.
  cbn [remote_epochs txs] in Hep, Htx. rewrite Forall_fmap in Htx.
  destruct (opt_fold_Some (λ h rec, BlockRecordsDigest.add_remote_epoch keccak256 h cid rec) (closed_epochs b)
    (BlockRecordsDigest.new (closed_number b))) as [h ->].
  { eapply Forall_impl; [exact Hep|]. intros rec [Hn _] h. unfold BlockRecordsDigest.add_remote_epoch.
    destruct (u32_spec (N.of_nat (NonEmptyVec.len (messages rec)))) as [[-> _]|[_ ?]]; [cbn; by eexists|lia]. }
  cbn [mbind option_bind].
  destruct (opt_fold_Some BlockRecordsDigest.add_tx ((λ t, env_raw_tx (envelope t)) <$> closed_txs b) h) as [h' ->].
  { apply Forall_fmap. eapply Forall_impl; [exact Htx|]. intros t Hraw h'. unfold BlockRecordsDigest.add_tx. cbn in Hraw |- *.
    unfold fits in Hraw. destruct (u32_spec (N.of_nat (length (env_raw_tx (envelope t))))) as [[-> _]|[_ ?]]; [cbn; by eexists|].
    cbn in Hraw. lia. }
  by eexists.
Qed.

(** What the payload of a batch holds. *)
Definition carries (cfg : BatcherConfig) (bs : list ClosedBlock) (batch : PostedBatch) : Prop :=
  ∃ framed digests, encode (build_payload bs) = Ok framed ∧
    (if compress cfg then zstd_encode framed (compression_level cfg) = Some (payload batch) else payload batch = framed) ∧
    length (payload batch) ≤ max_payload_bytes cfg ∧
    mapM (block_records_digest (chain_id cfg)) bs = Some digests ∧
    records_commitment batch = batch_records_commitment keccak256 digests ∧
    head (closed_number <$> bs) = Some (l2_block_start batch) ∧
    last (closed_number <$> bs) = Some (l2_block_end batch).

(** The outcomes of one pack: a batch, an overflow of two blocks or more, or an
    error that no shorter prefix avoids. It never panics. *)
Lemma pack_blocks_cases cfg bs :
  (∃ batch, pack_blocks cfg bs = Some (Ok batch) ∧ carries cfg bs batch) ∨
  (∃ n, pack_blocks cfg bs = Some (Err (Payload (max_payload_bytes cfg) n)) ∧ 2 ≤ length bs) ∨
  (∃ e, pack_blocks cfg bs = Some (Err e) ∧ is_payload_overflow e = false).
Proof.
  unfold pack_blocks. destruct (head bs) as [fb|] eqn:Eh; [|right; right; by eexists].
  destruct (last bs) as [lb|] eqn:El; [|right; right; by eexists].
  pose proof (encode_frame_error (build_payload bs)) as Hfe.
  destruct (encode (build_payload bs)) as [framed|e] eqn:Ee; cbn [mbind result_bind].
  2:{ right; right. exists e. split; [done|]. by destruct e. }
  destruct (if compress cfg then encode_zstd framed (compression_level cfg) else Ok framed) as [tp|e] eqn:Ez.
  2:{ right; right. exists e. split; [done|]. unfold encode_zstd in Ez.
      destruct (compress cfg); [|done]. destruct (zstd_encode _ _); [done|]. by injection Ez as <-. }
  destruct (Nat.ltb_spec (max_payload_bytes cfg) (length tp)) as [Hover|Hfits].
  { destruct bs as [|b [|b' bs]]; [done|right; right; by eexists|]. right; left. eexists. split; [done|]. cbn. lia. }
  left. destruct (digest_total (chain_id cfg) bs framed Ee) as [ds Eds]. rewrite Eds. cbn [mbind option_bind].
  eexists. split; [done|]. exists framed, ds. cbn [payload records_commitment l2_block_start l2_block_end].
  split_and!; [done| |done|done|done|..].
  - unfold encode_zstd in Ez. destruct (compress cfg); [|congruence]. destruct (zstd_encode _ _); [cbn in Ez; congruence|done].
  - by rewrite head_fmap, Eh || (destruct bs; [done|]; cbn in Eh |- *; congruence).
  - by rewrite fmap_last, El.
Qed.

(** ** The prefix search *)

Definition overflows (cfg : BatcherConfig) (bs : list ClosedBlock) : Prop :=
  ∃ n, pack_blocks cfg bs = Some (Err (Payload (max_payload_bytes cfg) n)).

Definition packs (cfg : BatcherConfig) (bs : list ClosedBlock) (batch : PostedBatch) : Prop :=
  pack_blocks cfg bs = Some (Ok batch).

Record searching (cfg : BatcherConfig) (bs : list ClosedBlock) (s : PrefixSearch) : Prop := {
  sr_lt : lo s < hi s;
  sr_hi : overflows cfg (take (hi s) bs) ∧ hi s ≤ length bs;
  sr_best : match best s with
            | None => lo s = 0
            | Some (b, n) => n = lo s ∧ 1 ≤ n ∧ packs cfg (take n bs) b
            end;
}.

Lemma search_loop_total cfg bs fuel s : searching cfg bs s → hi s - lo s ≤ S fuel →
  (∃ s', search_loop fuel cfg bs s = Some (Ok s') ∧ searching cfg bs s' ∧ hi s' = S (lo s')) ∨
  (∃ e, search_loop fuel cfg bs s = Some (Err e) ∧ is_payload_overflow e = false).
Proof.
  revert s. induction fuel as [|fuel IH]; intros s Hs Hf; cbn [search_loop]; unfold search_open.
  { destruct (Nat.ltb_spec 1 (hi s - lo s)); [lia|]. left. exists s. pose proof (sr_lt _ _ _ Hs). split_and!; (done || lia). }
  destruct (Nat.ltb_spec 1 (hi s - lo s)) as [Hopen|Hshut].
  2:{ left. exists s. pose proof (sr_lt _ _ _ Hs). split_and!; (done || lia). }
  destruct Hs as [Hlt [Hhi Hlen] Hbest]. unfold probe. set (mid := (lo s + hi s) / 2).
  assert (lo s < mid < hi s) as Hmid.
  { unfold mid. pose proof (Nat.div_mod_eq (lo s + hi s) 2). pose proof (Nat.mod_upper_bound (lo s + hi s) 2). lia. }
  clearbody mid. destruct (pack_blocks_cases cfg (take mid bs)) as [(b & Eb & _)|[(n & En & _)|(e & Ee & Hno)]].
  - rewrite Eb. apply IH; [|cbn [lo hi]; lia]. split; cbn [lo hi best]; [lia|done|]. split_and!; (done || lia).
  - rewrite En. cbn [is_payload_overflow]. apply IH; [|cbn [lo hi]; lia].
    split; cbn [lo hi best]; [lia|split; [by exists n|lia]|done].
  - rewrite Ee, Hno. right. by exists e.
Qed.

(** [pack_largest_prefix] packs a prefix of at least one block, and the prefix one
    longer, if there is one, overflows; or it fails with an error that is not the
    overflow of a group. *)
Lemma pack_prefix_cases cfg bs : bs ≠ [] →
  (∃ batch n, pack_largest_prefix cfg bs = Some (Ok (batch, n)) ∧ 1 ≤ n ≤ length bs ∧ packs cfg (take n bs) batch ∧
     (n = length bs ∨ ∃ m, n < m ≤ length bs ∧ m = S n ∧ overflows cfg (take m bs))) ∨
  (∃ e, pack_largest_prefix cfg bs = Some (Err e) ∧ is_payload_overflow e = false).
Proof.
  intros Hbs. unfold pack_largest_prefix.
  destruct (pack_blocks_cases cfg bs) as [(b & Eb & _)|[(n & En & Hn2)|(e & Ee & Hno)]].
  - rewrite Eb. left. exists b, (length bs). split; [done|]. split; [destruct bs; [done|cbn; lia]|].
    split; [unfold packs; by rewrite firstn_all|by left].
  - rewrite En. cbn [is_payload_overflow].
    assert (searching cfg bs (mkSearch None 0 (length bs))) as Hs.
    { split; cbn [lo hi best]; [lia|split; [exists n; by rewrite firstn_all|lia]|done]. }
    destruct (search_loop_total cfg bs (length bs) _ Hs) as [(s' & -> & [Hlt [Hhi Hlen] Hbest] & Hend)|(e & -> & Hno)];
      [cbn; lia| |right; by exists e].
    destruct (best s') as [[b k]|]; [left|].
    + destruct Hbest as (-> & Hk & Hp). exists b, (lo s'). split; [done|]. split; [lia|]. split; [done|].
      right. exists (hi s'). split_and!; (done || lia).
    + exfalso. rewrite Hend, Hbest in Hhi. destruct Hhi as [k Hk].
      destruct (pack_blocks_cases cfg (take 1 bs)) as [(? & E & _)|[(? & _ & H2)|(? & E & Hno)]]; [congruence| |].
      * rewrite length_take in H2. lia.
      * rewrite E in Hk. by injection Hk as ->.
  - rewrite Ee, Hno. right. by exists e.
Qed.

(** ** All groups *)

Lemma pack_loop_cases cfg fuel rest out : length rest ≤ fuel →
  (∃ batches groups, pack_loop fuel cfg rest out = Some (Ok (out ++ batches)) ∧ mjoin groups = rest ∧
     Forall2 (packs cfg) groups batches ∧ Forall (λ g, g ≠ []) groups) ∨
  (∃ e, pack_loop fuel cfg rest out = Some (Err e) ∧ is_payload_overflow e = false).
Proof.
  revert rest out. induction fuel as [|fuel IH]; intros rest out Hf.
  { assert (rest = []) as -> by (apply length_zero_iff_nil; lia). left. exists [], []. cbn. by rewrite app_nil_r. }
  destruct rest as [|x rest]; [left; exists [], []; cbn; by rewrite app_nil_r|]. cbn [pack_loop].
  destruct (pack_prefix_cases cfg (x :: rest)) as [(b & n & -> & Hn & Hp & _)|(e & -> & Hno)]; [done| |right; by exists e].
  destruct (IH (drop n (x :: rest)) (out ++ [b])) as [(batches & groups & -> & Hj & Hall & Hne)|(e & -> & Hno)].
  { rewrite length_drop. lia. }
  - left. exists (b :: batches), (take n (x :: rest) :: groups). split; [by rewrite <- app_assoc|].
    split; [etrans; [apply (f_equal (app _) Hj)|apply take_drop]|]. split; [by constructor|]. constructor; [|done].
    intros E. apply (f_equal length) in E. rewrite length_take in E. cbn in *. lia.
  - right. by exists e.
Qed.

Lemma packs_carries cfg bs batch : packs cfg bs batch → carries cfg bs batch.
Proof.
  unfold packs. destruct (pack_blocks_cases cfg bs) as [(b & E & Hc)|[(n & E & _)|(e & E & _)]]; rewrite E; [|done..].
  by intros [= ->].
Qed.

(** Without compression the size of a payload is the sum of its blocks. *)
Lemma plain_size cfg bs framed : compress cfg = false → encode (build_payload bs) = Ok framed →
  (overflows cfg bs → max_payload_bytes cfg < length framed) ∧
  length framed = 12 + length (blocks (build_payload bs) ≫= block_bytes).
Proof.
  intros Hc He. split.
  - intros [n Hn]. unfold pack_blocks in Hn. rewrite He, Hc in Hn. cbn [mbind result_bind] in Hn.
    destruct (head bs); [|done]. destruct (last bs); [|done].
    destruct (Nat.ltb_spec (max_payload_bytes cfg) (length framed)); [done|].
    destruct (mapM _ _); done.
  - apply encode_spec in He as (v & _ & -> & _). unfold payload_bytes. rewrite !length_app. unfold le_len.
    rewrite !length_to_le_bytes. cbn. lia.
Qed.

Lemma overflow_encodes cfg bs : overflows cfg bs → ∃ framed, encode (build_payload bs) = Ok framed.
Proof.
  intros [n Hn]. unfold pack_blocks in Hn. destruct (head bs); [|done]. destruct (last bs); [|done].
  destruct (encode (build_payload bs)) as [framed|e] eqn:E; [by exists framed|]. cbn [mbind result_bind] in Hn.
  pose proof (encode_frame_error (build_payload bs)) as Hfe. rewrite E in Hfe. injection Hn as ->. done.
Qed.

Lemma plain_overflow_mono cfg bs m k batch : compress cfg = false → m ≤ k →
  overflows cfg (take m bs) → ¬ packs cfg (take k bs) batch.
Proof.
  intros Hc Hmk Ho Hp. destruct (overflow_encodes _ _ Ho) as [f Ef].
  destruct (plain_size _ _ _ Hc Ef) as [Hbig Hf]. specialize (Hbig Ho).
  destruct (packs_carries _ _ _ Hp) as (f' & ds & Ef' & Hz & Hle & _). rewrite Hc in Hz. rewrite Hz in Hle.
  destruct (plain_size _ _ _ Hc Ef') as [_ Hf'].
  assert (length (blocks (build_payload (take m bs)) ≫= block_bytes) ≤ length (blocks (build_payload (take k bs)) ≫= block_bytes)); [|lia].
  replace (take m bs) with (take m (take k bs)) by (rewrite take_take; f_equal; lia).
  generalize (take k bs) as l. clear. intros l. unfold build_payload; cbn [blocks]. rewrite fmap_take.
  set (L := _ <$> l). clearbody L. rewrite <- (take_drop m L) at 2. rewrite bind_app, length_app. lia.
Qed.

Lemma kar1_not_zstd v p : is_zstd (payload_bytes v p) = false.
Proof. done. Qed.

Lemma carries_reconstruct `{!ZstdLaws HC} cfg bs batch : Forall closed_ok bs → carries cfg bs batch →
  reconstruct (payload batch) = Ok (blocks (build_payload bs)).
Proof.
  intros Hok (framed & ds & He & Hz & _). unfold reconstruct.
  pose proof (decode_encode (build_payload bs) framed [] He (build_ok bs Hok)) as Hd.
  rewrite app_nil_r in Hd. destruct (compress cfg).
  - destruct (zstd_magic _ _ _ Hz) as [tl Htl]. rewrite Htl at 1.
    change (is_zstd (ZSTD_MAGIC ++ tl)) with true. cbn iota. unfold decode_zstd.
    rewrite (zstd_inverse _ _ _ Hz). cbn [ok_or mbind result_bind]. by rewrite Hd.
  - rewrite Hz. apply encode_spec in He as (v & _ & Hfr & _). rewrite Hfr at 1. rewrite kar1_not_zstd.
    cbn [mbind result_bind]. by rewrite Hd.
Qed.
End packing.

(** ** The accumulator *)

Definition is_boundary (r : ResolvedRecord) : bool := match r with RBoundary _ _ => true | _ => false end.
Definition txs_of (l : list ResolvedRecord) : list RecordedTx :=
  omap (λ r, match r with RTx position _ _ env => Some (mkRecordedTx position env) | _ => None end) l.
Definition epochs_of (l : list ResolvedRecord) : list RemoteEpochRecord :=
  omap (λ r, match r with RRemoteEpoch _ record => Some record | _ => None end) l.

(** The records of one block and the boundary that closes it. *)
Definition segment : Type := list ResolvedRecord * (BPosition * BlockBoundaryStart).
Definition segment_records (g : segment) : list ResolvedRecord := g.1 ++ [RBoundary g.2.1 g.2.2].
Definition segment_block (g : segment) : ClosedBlock :=
  let m := g.2.2 in
  mkClosed (bs_block_number m) (bs_l2_timestamp m) (bs_end_tx_idx m) (bs_l1_origin m) (epochs_of g.1) (txs_of g.1).

(** Feed a stream of records and collect the blocks it closes. *)
Definition run_records (a : BatchAccumulator.t) (l : list ResolvedRecord) : BatchAccumulator.t * list ClosedBlock :=
  fold_left (λ '(a, out) r, let '(a', c) := BatchAccumulator.observe a r in (a', out ++ option_list c)) l (a, []).

Lemma run_records_out l a out :
  fold_left (λ '(a, out) r, let '(a', c) := BatchAccumulator.observe a r in (a', out ++ option_list c)) l (a, out) =
  ((run_records a l).1, out ++ (run_records a l).2).
Proof.
  unfold run_records. revert a out. induction l as [|r l IH]; intros a out; cbn [fold_left]; [by rewrite app_nil_r|].
  destruct (BatchAccumulator.observe a r) as [a' c]. rewrite IH, (IH a' ([] ++ _)). cbn. by rewrite <- app_assoc.
Qed.

Lemma run_records_app a l l' :
  run_records a (l ++ l') =
  ((run_records (run_records a l).1 l').1, (run_records a l).2 ++ (run_records (run_records a l).1 l').2).
Proof.
  unfold run_records at 1. rewrite fold_left_app.
  change (fold_left _ l (a, [])) with (run_records a l).
  destruct (run_records a l) as [a' out]. apply run_records_out.
Qed.

Lemma run_records_open l a : Forall (λ r, is_boundary r = false) l →
  run_records a l = (BatchAccumulator.mk (BatchAccumulator.pending a ++ txs_of l)
                       (BatchAccumulator.pending_remote_epochs a ++ epochs_of l), []).
Proof.
  intros Hl. revert a. induction Hl as [|r l Hr _ IH]; intros a; [cbn; rewrite !app_nil_r; by destruct a|].
  change (r :: l) with ([r] ++ l) at 1. rewrite run_records_app. destruct r; try done; cbn; rewrite IH; cbn;
    by rewrite <- ?app_assoc.
Qed.

Lemma run_segment g : Forall (λ r, is_boundary r = false) g.1 →
  run_records BatchAccumulator.new (segment_records g) = (BatchAccumulator.new, [segment_block g]).
Proof.
  intros Hg. unfold segment_records. rewrite run_records_app, (run_records_open g.1) by done. reflexivity.
Qed.

(** ** Theorems *)

(** C34. What is posted is what is read back: when the packing of well-formed blocks
    succeeds, the posted batches split the blocks into consecutive nonempty groups
    in order, and for each group the payload is within the ceiling, reconstructs to
    the frames of the group, and carries the block range and the records
    commitment of the group. *)
Theorem batches_reconstruct `{HC : Codecs, !ZstdLaws HC} (cfg : BatcherConfig) (bs : list ClosedBlock)
    (batches : list PostedBatch) :
  Forall closed_ok bs → pack_block_groups cfg bs = Some (Ok batches) →
  ∃ groups, mjoin groups = bs ∧
    Forall2 (λ g batch, g ≠ [] ∧
      reconstruct (payload batch) = Ok (blocks (build_payload g)) ∧
      length (payload batch) ≤ max_payload_bytes cfg ∧
      head (closed_number <$> g) = Some (l2_block_start batch) ∧
      last (closed_number <$> g) = Some (l2_block_end batch) ∧
      mapM (block_records_digest (chain_id cfg)) g ≫= (λ ds, Some (batch_records_commitment keccak256 ds)) =
        Some (records_commitment batch)) groups batches.
Proof.
  intros Hok Hp. unfold pack_block_groups in Hp.
  destruct (pack_loop_cases cfg (length bs) bs [] (Nat.le_refl _)) as [(bt & groups & E & Hj & Hall & Hne)|(e & E & _)];
    rewrite E in Hp; [|done]. injection Hp as <-. exists groups. split; [done|].
  assert (Forall (Forall closed_ok) groups) as Hgs.
  { subst bs. apply Forall_forall. intros g Hg. apply Forall_forall. intros b Hb.
    rewrite Forall_forall in Hok. apply Hok, list_elem_of_join. by exists g. }
  clear E Hj Hok. induction Hall as [|g b gs bts Hgb _ IH]; [constructor|].
  apply Forall_cons in Hne as [Hg Hne]. apply Forall_cons in Hgs as [Hgok Hgs]. constructor; [|by apply IH].
  apply packs_carries in Hgb as Hc. pose proof (carries_reconstruct _ _ _ Hgok Hc) as Hr.
  destruct Hc as (f & ds & _ & _ & Hle & Hds & Hcom & Hh & Hl). rewrite Hds, Hcom. done.
Qed.

(** C35. Packing always answers: it terminates, never panics, and never fails with the
    overflow of a group of blocks; when it succeeds, every block is in one batch. *)
Theorem packing_total `{HC : Codecs} (cfg : BatcherConfig) (bs : list ClosedBlock) :
  (∃ batches groups, pack_block_groups cfg bs = Some (Ok batches) ∧ mjoin groups = bs ∧
     Forall2 (λ g batch, pack_blocks cfg g = Some (Ok batch)) groups batches) ∨
  (∃ e, pack_block_groups cfg bs = Some (Err e) ∧ is_payload_overflow e = false).
Proof.
  unfold pack_block_groups.
  destruct (pack_loop_cases cfg (length bs) bs [] (Nat.le_refl _)) as [(bt & gs & E & Hj & Hall & _)|(e & E & Hno)].
  - left. by exists bt, gs.
  - right. by exists e.
Qed.

(** Without compression the bisection takes the longest prefix that fits: the prefix
    it answers packs, and no longer prefix does. *)
Theorem largest_prefix_optimal `{HC : Codecs} (cfg : BatcherConfig) (bs : list ClosedBlock) (batch : PostedBatch) (n : nat) :
  compress cfg = false → pack_largest_prefix cfg bs = Some (Ok (batch, n)) →
  1 ≤ n ≤ length bs ∧ pack_blocks cfg (take n bs) = Some (Ok batch) ∧
  ∀ k b, n < k ≤ length bs → pack_blocks cfg (take k bs) ≠ Some (Ok b).
Proof.
  intros Hc Hp. assert (bs ≠ []) as Hne by (intros ->; done).
  destruct (pack_prefix_cases cfg bs Hne) as [(b & n' & E & Hn & Hpk & Hend)|(e & E & _)]; rewrite E in Hp; [|done].
  injection Hp as <- <-. split; [done|]. split; [done|]. intros k b' Hk.
  destruct Hend as [->|(m & Hm & -> & Ho)]; [lia|]. apply (plain_overflow_mono cfg bs (S n') k b' Hc); [lia|done].
Qed.

(** The accumulator cuts the stream at the boundaries: for a stream of segments, each
    closed by its boundary, and a tail without one, it closes one block per
    boundary, with the fields of the boundary and the records of the segment in
    order, and keeps the records of the tail for the next block. *)
Theorem accumulator_segments (segs : list segment) (tail : list ResolvedRecord) :
  Forall (λ g, Forall (λ r, is_boundary r = false) g.1) segs → Forall (λ r, is_boundary r = false) tail →
  run_records BatchAccumulator.new ((segs ≫= segment_records) ++ tail) =
  (BatchAccumulator.mk (txs_of tail) (epochs_of tail), segment_block <$> segs).
Proof.
  intros Hsegs Ht. induction Hsegs as [|g segs Hg _ IH]; [by rewrite run_records_open|].
  change ((g :: segs) ≫= segment_records) with (segment_records g ++ (segs ≫= segment_records)).
  rewrite <- app_assoc, run_records_app, run_segment by done. cbn [fst snd]. by rewrite IH.
Qed.

(** ** Instances *)

(** A stand-in for the hash and the compressor: the digest is the value of the bytes
    modulo [2^256], and a compressed stream is the magic number and the bytes. *)
#[local] Instance plain_codecs : Codecs := {|
  keccak256 := λ bs, (from_be_bytes bs mod 2 ^ 256)%N;
  zstd_encode := λ x _, Some (ZSTD_MAGIC ++ x);
  zstd_decode := λ y, Some (drop 4 y);
|}.
#[local] Instance plain_zstd : ZstdLaws plain_codecs.
Proof. split; intros x level y [= <-]; [done|by exists x]. Qed.

Definition sample_closed (n : N) : ClosedBlock :=
  mkClosed n (1700 + n) (mkPos 0 40) 7 [mkRemoteEpoch 5 6 7 4 (mkNonEmpty sample_message [])]
    [mkRecordedTx (mkPos 0 39) (mkEnvelope 1 [200; 201]%N 2 3 90)].
Definition sample_config (compress : bool) : BatcherConfig := mkBatcherConfig 3 compress 800 9 1.

Lemma sample_closed_ok : Forall closed_ok [sample_closed 1; sample_closed 2; sample_closed 3].
Proof.
  repeat constructor; cbn; unfold u64_ok, address_ok, b256_ok, u64_max, u128_max, u8_max; lia || done.
Qed.

(** Three blocks of one group become two batches of two and one. *)
Lemma batches_reconstruct_witness :
  ∃ batches groups, pack_block_groups (sample_config true) [sample_closed 1; sample_closed 2; sample_closed 3] = Some (Ok batches) ∧
    length batches = 2 ∧ mjoin groups = [sample_closed 1; sample_closed 2; sample_closed 3] ∧
    Forall2 (λ g batch, reconstruct (payload batch) = Ok (blocks (build_payload g))) groups batches.
Proof.
  destruct (pack_block_groups (sample_config true) [sample_closed 1; sample_closed 2; sample_closed 3]) as [[batches|]|] eqn:E;
    [|by vm_compute in E..].
  destruct (batches_reconstruct _ _ _ sample_closed_ok E) as (groups & Hj & Hall).
  exists batches, groups. split_and!; [done|vm_compute in E; by injection E as <-|done|].
  eapply Forall2_impl; [exact Hall|]. cbn beta. tauto.
Defined.

Lemma largest_prefix_optimal_witness :
  ∃ batch, pack_largest_prefix (sample_config false) [sample_closed 1; sample_closed 2; sample_closed 3] = Some (Ok (batch, 2)) ∧
    pack_blocks (sample_config false) [sample_closed 1; sample_closed 2; sample_closed 3] ≠ Some (Ok batch).
Proof.
  destruct (pack_largest_prefix (sample_config false) [sample_closed 1; sample_closed 2; sample_closed 3]) as [[[batch n]|]|] eqn:E;
    [|by vm_compute in E..].
  assert (n = 2) as -> by (vm_compute in E; by injection E as _ <-).
  exists batch. split; [done|].
  apply (proj2 (proj2 (largest_prefix_optimal (sample_config false) _ batch 2 eq_refl E)) 3 batch). cbn. lia.
Defined.

Lemma accumulator_segments_witness :
  (run_records BatchAccumulator.new
     [RTx (mkPos 0 1) 0 (mkPos 0 0) (mkEnvelope 1 [200]%N 2 3 90);
      RBoundary (mkPos 0 2) (mkBoundaryStart 1 (mkPos 0 2) 1700 7)]).2 =
  [mkClosed 1 1700 (mkPos 0 2) 7 [] [mkRecordedTx (mkPos 0 1) (mkEnvelope 1 [200]%N 2 3 90)]].
Proof.
  change [RTx (mkPos 0 1) 0 (mkPos 0 0) (mkEnvelope 1 [200]%N 2 3 90);
      RBoundary (mkPos 0 2) (mkBoundaryStart 1 (mkPos 0 2) 1700 7)] with
    (([([RTx (mkPos 0 1) 0 (mkPos 0 0) (mkEnvelope 1 [200]%N 2 3 90)],
        (mkPos 0 2, mkBoundaryStart 1 (mkPos 0 2) 1700 7)) : segment] ≫= segment_records) ++ []).
  rewrite accumulator_segments; [done|by repeat constructor|constructor].
Defined.
