(* ===== verification/Fees.v ===== *)
(** * Fee arithmetic and the admission gate

    Models [crates/types/src/fees.rs] (the base fee schedule and the fee fields
    of a transaction) and [crates/sequencer/src/fees.rs] (the admission gate of
    the sequencer). The 256-bit integers of [alloy_primitives] are an interface:
    their operations are exact where the result is a 256-bit number. *)
From S2P Require Import Prelude Types.

Definition u256_max : N := 2 ^ 256 - 1.

(** What the fee code relies on of [U256]. *)
Class U256 := {
  u256_add : N → N → N;
  u256_sub : N → N → N;
  u256_mul : N → N → N;
  u256_div : N → N → N;
  u256_add_exact : ∀ a b, (a + b ≤ u256_max)%N → u256_add a b = (a + b)%N;
  u256_sub_exact : ∀ a b, (b ≤ a ≤ u256_max)%N → u256_sub a b = (a - b)%N;
  u256_mul_exact : ∀ a b, (a * b ≤ u256_max)%N → u256_mul a b = (a * b)%N;
  u256_div_exact : ∀ a b, (a ≤ u256_max)%N → b ≠ 0%N → u256_div a b = (a / b)%N;
}.

(** [saturating_to::<u128>]. *)
Definition saturating_to_u128 (n : N) : N := N.min n u128_max.

Definition u128_checked_mul (a b : N) : option N :=
  if (a * b <=? u128_max)%N then Some (a * b)%N else None.

Definition BLOCK_GAS_LIMIT : N := 30000000.
Definition BASE_FEE_MAX_CHANGE_DENOMINATOR : N := 8.
Definition ELASTICITY_MULTIPLIER : N := 2.

Record BaseFeeSchedule : Type := mkSchedule { gas_target : N; denominator : N }.

Definition CHAIN : BaseFeeSchedule :=
  mkSchedule (BLOCK_GAS_LIMIT / ELASTICITY_MULTIPLIER) BASE_FEE_MAX_CHANGE_DENOMINATOR.

Record FeeSchedule : Type := mkFeeSchedule { base_fee_initial : N; fs_beneficiary : Address }.
Record BlockFees : Type := mkBlockFees { base_fee : N; beneficiary : Address }.
Record TxFees : Type := mkTxFees {
  gas_limit : N;
  max_fee_per_gas : N;
  max_priority_fee_per_gas : N;
  legacy : bool;
}.

Record FeeFields : Type := mkFeeFields { fees : TxFees; value : N }.

Section fees.
Context `{U256}.

Definition next_base_fee (s : BaseFeeSchedule) (base_fee gas_used : N) : N :=
  if (gas_used =? gas_target s)%N then base_fee
  else if (gas_target s <? gas_used)%N then
    let over := (gas_used - gas_target s)%N in
    let delta := N.max (u256_div (u256_div (u256_mul base_fee over) (gas_target s)) (denominator s)) 1 in
    saturating_to_u128 (u256_add base_fee delta)
  else
    let under := (gas_target s - gas_used)%N in
    let delta := u256_div (u256_div (u256_mul base_fee under) (gas_target s)) (denominator s) in
    saturating_to_u128 (u256_sub base_fee delta).

Definition scheduled (b : BlockFees) : bool := (0 <? base_fee b)%N.

Definition NONE : BlockFees := mkBlockFees 0 0.

Definition genesis (schedule : option FeeSchedule) : BlockFees :=
  match schedule with
  | Some s => mkBlockFees (base_fee_initial s) (fs_beneficiary s)
  | None => NONE
  end.

Definition next (b : BlockFees) (gas_used : N) : BlockFees :=
  if negb (scheduled b) then b
  else mkBlockFees (next_base_fee CHAIN (base_fee b) gas_used) (beneficiary b).

Definition valid (f : TxFees) : bool := (max_priority_fee_per_gas f <=? max_fee_per_gas f)%N.

Definition effective_tip_rate (f : TxFees) (base_fee : N) : option N :=
  if (base_fee <=? max_fee_per_gas f)%N
  then Some (N.min (max_priority_fee_per_gas f) (max_fee_per_gas f - base_fee)) else None.

(** The subtraction of [N] is the saturating one. *)
Definition bid (f : TxFees) (base_fee : N) : option N :=
  let rate := if legacy f then (max_fee_per_gas f - base_fee)%N else max_priority_fee_per_gas f in
  u128_checked_mul rate (gas_limit f).

Definition tip_amount (f : TxFees) (base_fee : N) : option N :=
  rate ← effective_tip_rate f base_fee; Some (u256_mul rate (gas_limit f)).

Definition worst_case_cost (f : TxFees) (value : N) : N :=
  u256_add (u256_mul (max_fee_per_gas f) (gas_limit f)) value.
End fees.

(** ** The admission gate

    [base_fee] is the value the [LatestBaseFee] view holds, and [balance] the
    answer of the local account layer, [None] for a sender it does not hold. *)
Record FeeGate : Type := mkGate { enabled : bool; gate_base_fee : N; balance : Address → option N }.

Section gate.
Context `{U256}.

Definition off : FeeGate := mkGate false 0 (λ _, None).

(** [LatestBaseFee::on_boundary]. *)
Definition on_boundary (g : FeeGate) (closed_base_fee gas_used : N) : FeeGate :=
  mkGate (enabled g) (next_base_fee CHAIN closed_base_fee gas_used) (balance g).

Definition check_balance (g : FeeGate) (sender : Address) (want : N) : result TxErrorReason () :=
  match balance g sender with
  | None => Ok ()
  | Some have =>
    if (want <=? have)%N then Ok ()
    else Err (InsufficientFunds (saturating_to_u128 have) (saturating_to_u128 want))
  end.

Definition admit_tx (g : FeeGate) (sender : Address) (fields : FeeFields) : result TxErrorReason N :=
  if negb (enabled g) then Ok 0%N
  else
    let f := fees fields in
    let invalid := FeeInvalid (max_fee_per_gas f) (max_priority_fee_per_gas f) in
    if negb (valid f) then Err invalid
    else if (max_fee_per_gas f <? gate_base_fee g)%N then
      Err (FeeTooLow (max_fee_per_gas f) (gate_base_fee g))
    else
      _ ← check_balance g sender (worst_case_cost f (value fields));
      ok_or (bid f (gate_base_fee g)) invalid.
End gate.

(** ** Facts *)
Section facts.
Context `{U256}.

Lemma u256_fits a b : (a ≤ u128_max)%N → (b ≤ u64_max)%N → (a * b ≤ u256_max)%N.
Proof.
  intros Ha Hb. etrans; [apply (N.mul_le_mono a u128_max b u64_max Ha Hb)|]. by vm_compute.
Qed.

(** The two divisions of the schedule, as one. *)
Lemma schedule_delta s base gas :
  (base ≤ u128_max)%N → (gas ≤ u64_max)%N → gas_target s ≠ 0%N → denominator s ≠ 0%N →
  u256_div (u256_div (u256_mul base gas) (gas_target s)) (denominator s) =
  (base * gas / (gas_target s * denominator s))%N.
Proof.
  intros Hb Hg Ht Hd. rewrite u256_mul_exact by (by apply u256_fits).
  assert (Hle : (base * gas / gas_target s ≤ u256_max)%N).
  { etrans; [apply N.Div0.div_le_upper_bound with (q := (base * gas)%N); nia | by apply u256_fits]. }
  rewrite (u256_div_exact (base * gas)) by (done || by apply u256_fits).
  rewrite u256_div_exact by done. by rewrite N.Div0.div_div.
Qed.
End facts.

(** ** Properties *)
Section properties.
Context `{U256}.

(** One step of the base fee schedule, for a block within the gas limit: at the
    target the base fee stays; above it the base fee rises by at least one wei (up
    to the [u128] maximum) and at most the larger of one eighth and one wei; below
    it the base fee falls by at most one eighth; and a positive base fee stays
    positive. *)
Theorem base_fee_step (base gas_used : N) :
  (base ≤ u128_max)%N → (gas_used ≤ BLOCK_GAS_LIMIT)%N →
  let n := next_base_fee CHAIN base gas_used in
  (gas_used = gas_target CHAIN → n = base) ∧
  ((gas_target CHAIN < gas_used)%N →
     N.min (base + 1) u128_max ≤ n ∧ n ≤ base + N.max 1 (base / 8))%N ∧
  ((gas_used < gas_target CHAIN)%N → (base - base / 8 ≤ n ≤ base)%N) ∧
  ((0 < base)%N → (0 < n)%N) ∧ (n ≤ u128_max)%N.
Proof.
  intros Hb Hg n. unfold n, next_base_fee.
  assert (Hu : (BLOCK_GAS_LIMIT ≤ u64_max)%N) by done.
  assert (Hd : ∀ gas, (gas ≤ gas_target CHAIN)%N →
    u256_div (u256_div (u256_mul base gas) (gas_target CHAIN)) (denominator CHAIN) =
    (base * gas / (gas_target CHAIN * denominator CHAIN))%N ∧
    (base * gas / (gas_target CHAIN * denominator CHAIN) ≤ base / 8)%N).
  { intros gas Hgas. assert (Ht : (gas_target CHAIN ≤ u64_max)%N) by done. split.
    - apply schedule_delta; [done | lia | done | done].
    - etrans; [apply N.Div0.div_le_mono, N.mul_le_mono_l, Hgas|].
      rewrite (N.mul_comm base), N.Div0.div_mul_cancel_l by done. done. }
  assert (H8 : (base / 8 ≤ base)%N) by (apply N.Div0.div_le_upper_bound; lia).
  assert (H8' : (0 < base → base / 8 < base)%N) by (intros; apply N.div_lt; lia).
  assert (Hw : (u128_max + u128_max ≤ u256_max)%N) by (by vm_compute).
  assert (H1 : (1 ≤ u128_max)%N) by done.
  assert (Hlim : BLOCK_GAS_LIMIT = (2 * gas_target CHAIN)%N) by done.
  unfold saturating_to_u128. destruct (N.eqb_spec gas_used (gas_target CHAIN)) as [Heq|Hne].
  - split; [done|]. split; [lia|]. split; [lia|]. split; [done|done].
  - destruct (N.ltb_spec (gas_target CHAIN) gas_used) as [Hlt|Hge].
    + destruct (Hd (gas_used - gas_target CHAIN)%N) as [-> Hle]; [lia|].
      set (delta := (base * _ / _)%N) in *. rewrite u256_add_exact by lia.
      split; [lia|]. split; [lia|]. split; [lia|]. split; lia.
    + destruct (Hd (gas_target CHAIN - gas_used)%N) as [-> Hle]; [lia|].
      set (delta := (base * _ / _)%N) in *. rewrite u256_sub_exact by lia.
      split; [lia|]. split; [lia|]. split; [lia|]. split; lia.
Qed.

(** The admission check covers what execution charges: when the worst case fits
    256 bits, the base fee on the whole gas limit, the full tip and the value
    together are at most [worst_case_cost], and the tip paid is at most the bid the
    transaction was ordered by. *)
Theorem worst_case_covers_charge (f : TxFees) (base_fee v tip b : N) :
  (max_fee_per_gas f ≤ u128_max)%N → (max_priority_fee_per_gas f ≤ u128_max)%N → (gas_limit f ≤ u64_max)%N →
  (max_fee_per_gas f * gas_limit f + v ≤ u256_max)%N →
  tip_amount f base_fee = Some tip → bid f base_fee = Some b →
  (base_fee * gas_limit f + tip + v ≤ worst_case_cost f v)%N ∧ (tip ≤ b)%N ∧
  (legacy f = true → max_priority_fee_per_gas f = max_fee_per_gas f → tip = b).
Proof.
  intros Hm Hp Hg Hfit Htip Hbid. unfold tip_amount, effective_tip_rate in Htip. unfold bid, u128_checked_mul in Hbid.
  destruct (N.leb_spec base_fee (max_fee_per_gas f)) as [Hle|]; [|done]. cbn in Htip.
  rewrite u256_mul_exact in Htip by (apply u256_fits; [lia|done]). injection Htip as <-.
  unfold worst_case_cost. rewrite u256_mul_exact, u256_add_exact by (done || lia).
  set (rate := if legacy f then _ else _) in Hbid.
  destruct (N.leb_spec (rate * gas_limit f) u128_max) as [_|]; [|done]. injection Hbid as <-.
  assert (Hr : (N.min (max_priority_fee_per_gas f) (max_fee_per_gas f - base_fee) ≤ rate)%N)
    by (unfold rate; destruct (legacy f); lia).
  split; [|split].
  - transitivity ((base_fee + (max_fee_per_gas f - base_fee)) * gas_limit f + v)%N; [nia|].
    replace (base_fee + (max_fee_per_gas f - base_fee))%N with (max_fee_per_gas f) by lia. done.
  - nia.
  - intros Hleg Hsame. unfold rate. rewrite Hleg, Hsame. f_equal. lia.
Qed.

(** The gate admits exactly the payable transactions: with the setting on, [admit_tx]
    answers [Ok b] when and only when the tip rate is within the cap, the cap covers
    the base fee, a known balance covers the worst case, and the bid [b] does not
    overflow; with the setting off it admits everything with a zero bid. *)
Theorem admit_exact (g : FeeGate) (a : Address) (fields : FeeFields) (b : N) :
  admit_tx g a fields = Ok b ↔
  (enabled g = false ∧ b = 0%N) ∨
  (enabled g = true ∧ (max_priority_fee_per_gas (fees fields) ≤ max_fee_per_gas (fees fields))%N ∧
   (gate_base_fee g ≤ max_fee_per_gas (fees fields))%N ∧
   (∀ have, balance g a = Some have → (worst_case_cost (fees fields) (value fields) ≤ have)%N) ∧
   bid (fees fields) (gate_base_fee g) = Some b).
Proof.
  unfold admit_tx, valid, check_balance. destruct (enabled g); cbn [negb]; [|naive_solver].
  destruct (N.leb_spec (max_priority_fee_per_gas (fees fields)) (max_fee_per_gas (fees fields))); cbn [negb].
  2:{ split; [done|]. intros [[]|(_ & ? & _)]; [done|lia]. }
  destruct (N.ltb_spec (max_fee_per_gas (fees fields)) (gate_base_fee g)).
  { split; [done|]. intros [[]|(_ & _ & ? & _)]; [done|lia]. }
  destruct (balance g a) as [have|]; cbn.
  - destruct (N.leb_spec (worst_case_cost (fees fields) (value fields)) have); cbn.
    + unfold ok_or. destruct (bid _ _); naive_solver.
    + split; [done|]. intros [[]|(_ & _ & _ & Hw & _)]; [done|]. specialize (Hw _ eq_refl). lia.
  - unfold ok_or. destruct (bid _ _); naive_solver.
Qed.
End properties.

(** ** Witnesses *)

(** 256-bit arithmetic that wraps around. *)
#[export] Instance wrapping_u256 : U256.
Proof.
  refine {| u256_add a b := ((a + b) mod 2 ^ 256)%N; u256_sub a b := ((a + 2 ^ 256 - b) mod 2 ^ 256)%N;
            u256_mul a b := ((a * b) mod 2 ^ 256)%N; u256_div a b := (a / b)%N |}; unfold u256_max.
  - intros a b Hab. apply N.mod_small. lia.
  - intros a b Hab. replace (a + 2 ^ 256 - b)%N with ((a - b) + 1 * 2 ^ 256)%N by lia.
    rewrite N.Div0.mod_add. apply N.mod_small. lia.
  - intros a b Hab. apply N.mod_small. lia.
  - done.
Defined.

Lemma base_fee_step_witness :
  next_base_fee CHAIN 800 30000000 = 900%N ∧ (next_base_fee CHAIN 800 30000000 ≤ 800 + N.max 1 (800 / 8))%N.
Proof.
  split; [by vm_compute|]. apply (base_fee_step 800 30000000); by vm_compute.
Defined.

Definition sample_fees : TxFees := mkTxFees 21000 100 30 false.

Lemma worst_case_covers_charge_witness :
  (80 * 21000 + 420000 + 5 ≤ worst_case_cost sample_fees 5)%N.
Proof.
  apply (worst_case_covers_charge sample_fees 80 5 420000 630000); by vm_compute.
Defined.

Lemma admit_exact_witness :
  admit_tx (mkGate true 50 (λ _, Some 3000000%N)) 7 (mkFeeFields sample_fees 5) = Ok 630000%N.
Proof.
  apply (admit_exact (mkGate true 50 (λ _, Some 3000000%N)) 7 (mkFeeFields sample_fees 5)).
  right. split; [done|]. split; [done|]. split; [done|]. split; [|by vm_compute].
  intros have [= <-]. by vm_compute.
Defined.
