(* ===== verification/Pending.v ===== *)
(** * Per-sender future-nonce buffer

    Models [crates/sequencer/src/pending.rs]: the bounded buffer of parked
    nonces of one sender. [inner] is the [BTreeMap]; a [Slot] carries the value
    and the expiry deadline. Metrics and logging are not part of the state. The
    buffer keeps the lowest nonces that it saw. *)
From S2P Require Import Prelude.

Module PendingBuffer.
Section pending.
Context {T : Type}.

Inductive InsertOutcome : Type :=
| Inserted
| Replaced
| EvictedFuture (evicted_nonce : N) (evicted : T)
| RejectedTooFar (nonce : N)
| DroppedBufferDisabled.

Record Slot : Type := mkSlot { deadline : option Instant; value : T }.

(** [capacity = None]: the buffer is disabled ([NonZeroUsize::new 0]). *)
Record t : Type := mk { capacity : option nat; inner : gmap N Slot }.

Definition with_inner (b : t) (m : gmap N Slot) : t := mk (capacity b) m.

Definition new (capacity : nat) : t :=
  mk (match capacity with O => None | S _ => Some capacity end) ∅.

Definition len (b : t) : nat := size (inner b).

(** [BTreeMap::last_entry]: the entry with the greatest key. *)
Definition last_entry (m : gmap N Slot) : option (N * Slot) := last (btree_list m).

Definition count_below (b : t) (floor : N) : nat :=
  length (filter (λ e, (e.1 < floor)%N) (btree_list (inner b))).

Definition contains (b : t) (nonce : N) : bool := bool_decide (is_Some (inner b !! nonce)).

Definition insert (b : t) (nonce : N) (v : T) (at_ : Instant) : t * InsertOutcome :=
  match capacity b with
  | None => (b, DroppedBufferDisabled)
  | Some cap =>
    let slot := mkSlot (Some at_) v in
    let full_max :=
      if negb (contains b nonce) && (cap <=? len b)%nat then last_entry (inner b) else None in
    match full_max with
    | Some (max, max_slot) =>
      if (max <? nonce)%N then (b, RejectedTooFar nonce)
      else (with_inner b (<[nonce := slot]> (delete max (inner b))),
            EvictedFuture max (value max_slot))
    | None =>
      (with_inner b (<[nonce := slot]> (inner b)),
       if contains b nonce then Replaced else Inserted)
    end
  end.

Definition reinsert (b : t) (nonce : N) (v : T) (at_ : option Instant) : t :=
  with_inner b (<[nonce := mkSlot at_ v]> (inner b)).

Definition remove (b : t) (nonce : N) : t * option T :=
  (with_inner b (delete nonce (inner b)), value <$> inner b !! nonce).

Definition expire (b : t) (nonce : N) (at_ : Instant) : t * option T :=
  let live := match inner b !! nonce with
              | Some slot => bool_decide (deadline slot = Some at_)
              | None => false end in
  if live then remove b nonce else (b, None).

Definition take_parked (b : t) (nonce : N) (named : T → bool) : t * option T :=
  let parked := match inner b !! nonce with
                | Some slot => bool_decide (is_Some (deadline slot)) && named (value slot)
                | None => false end in
  if parked then remove b nonce else (b, None).

Definition drop_below (b : t) (floor : N) : t * list (N * T) :=
  (with_inner b (filter (λ e, (floor ≤ e.1)%N) (inner b)),
   (λ e, (e.1, value e.2)) <$> btree_list (filter (λ e, (e.1 < floor)%N) (inner b))).

(** The [DrainConsecutive] iterator: the buffer it borrows and the nonce it
    yields next. *)
Record DrainConsecutive : Type := mkDrain { buf : t; next_ : N }.

Definition drain_consecutive_from (b : t) (start : N) : DrainConsecutive := mkDrain b start.

(** [Iterator::next]: the removal comes before the overflow check. *)
Definition drain_next (d : DrainConsecutive) : DrainConsecutive * option (N * T) :=
  match inner (buf d) !! next_ d with
  | None => (d, None)
  | Some slot =>
    let b' := with_inner (buf d) (delete (next_ d) (inner (buf d))) in
    match u64_checked_add (next_ d) 1 with
    | None => (mkDrain b' (next_ d), None)
    | Some n' => (mkDrain b' n', Some (next_ d, value slot))
    end
  end.

(** A [for] loop over the iterator, run to its end. Every yield removes an
    entry, so [size (inner b)] yields are enough. *)
Fixpoint drain_collect (fuel : nat) (d : DrainConsecutive) : t * list (N * T) :=
  match fuel with
  | O => (buf d, [])
  | S fuel' =>
    match drain_next d with
    | (d', None) => (buf d', [])
    | (d', Some item) => let '(b, items) := drain_collect fuel' d' in (b, item :: items)
    end
  end.

Definition drain (b : t) (start : N) : t * list (N * T) :=
  drain_collect (S (len b)) (drain_consecutive_from b start).
End pending.
Arguments InsertOutcome : clear implicits.
Arguments Slot : clear implicits.
Arguments t : clear implicits.
Arguments DrainConsecutive : clear implicits.
End PendingBuffer.

(** ** Facts *)
Section pending_facts.
Context {T : Type}.
Implicit Types (b : PendingBuffer.t T) (n k : N).
Import PendingBuffer.

(** The nonce an insert sheds, if any. *)
Definition dropped (o : InsertOutcome T) (n : N) : option N :=
  match o with
  | EvictedFuture m _ => Some m
  | RejectedTooFar m => Some m
  | DroppedBufferDisabled => Some n
  | Inserted | Replaced => None
  end.

Lemma contains_spec b n : contains b n = true ↔ is_Some (inner b !! n).
Proof. unfold contains. by rewrite bool_decide_eq_true. Qed.

Lemma contains_false b n : contains b n = false ↔ inner b !! n = None.
Proof. unfold contains. by rewrite bool_decide_eq_false, eq_None_not_Some. Qed.

(** The three ways an insert into an enabled buffer goes. *)
Lemma insert_cases b n v d cap :
  capacity b = Some cap →
  (∃ m s, inner b !! n = None ∧ cap ≤ len b ∧ inner b !! m = Some s ∧
     (∀ k s', inner b !! k = Some s' → (k ≤ m)%N) ∧ (m < n)%N ∧
     PendingBuffer.insert b n v d = (b, RejectedTooFar n)) ∨
  (∃ m s, inner b !! n = None ∧ cap ≤ len b ∧ inner b !! m = Some s ∧
     (∀ k s', inner b !! k = Some s' → (k ≤ m)%N) ∧ (n < m)%N ∧
     PendingBuffer.insert b n v d =
       (with_inner b (<[n := mkSlot (Some d) v]> (delete m (inner b))),
        EvictedFuture m (value s))) ∨
  ((is_Some (inner b !! n) ∨ len b < cap ∨ inner b = ∅) ∧
     PendingBuffer.insert b n v d =
       (with_inner b (<[n := mkSlot (Some d) v]> (inner b)),
        if contains b n then Replaced else Inserted)).
Proof.
  intros Hcap. unfold PendingBuffer.insert. rewrite Hcap.
  destruct (contains b n) eqn:Hc; cbn [negb andb].
  { right; right. apply contains_spec in Hc. auto. }
  apply contains_false in Hc.
  destruct (Nat.leb_spec cap (len b)) as [Hle|Hlt]; [|right; right; auto].
  unfold last_entry. destruct (last (btree_list (inner b))) as [[m s]|] eqn:Hl.
  - destruct (btree_last _ _ _ Hl) as [Hm Hmax].
    destruct (N.ltb_spec m n); [left | right; left]; exists m, s; repeat split; auto.
    assert (n ≠ m) by congruence. lia.
  - right; right. split; [|done]. right; right.
    destruct (decide (inner b = ∅)) as [|Hne]; [done|].
    apply btree_last_is_Some in Hne. rewrite Hl in Hne. by destruct Hne.
Qed.

(** The size of the buffer and the fate of the incoming nonce. *)
Lemma insert_len b n v d cap :
  capacity b = Some cap → 0 < cap →
  len (PendingBuffer.insert b n v d).1 ≤ len b `max` cap.
Proof.
  intros Hcap Hpos.
  destruct (insert_cases b n v d cap Hcap)
    as [(m & s & Hn & Hfull & Hm & Hmax & Hlt & ->)
       |[(m & s & Hn & Hfull & Hm & Hmax & Hlt & ->)|[Hwhy ->]]]; cbn; unfold len in *; cbn.
  - lia.
  - rewrite map_size_insert_None by (rewrite lookup_delete_ne by lia; done).
    rewrite map_size_delete, Hm. lia.
  - rewrite map_size_insert. destruct (inner b !! n) eqn:E; cbn; [lia|].
    destruct Hwhy as [[? [=]]|[?|He]]; [lia|]. rewrite He, map_size_empty in *. lia.
Qed.

(** A drained run: [items] are the entries at [start .. start + length items],
    the buffer keeps every other entry, and the drain stops at a gap. Only the
    entry at [u64::MAX] leaves without being yielded. *)
Record drained_run (b b' : PendingBuffer.t T) (start : N) (items : list (N * T)) : Prop := {
  dr_capacity : capacity b' = capacity b;
  dr_nonces : items.*1 = nseq start (length items);
  dr_values : ∀ k v, (k, v) ∈ items → value <$> inner b !! k = Some v;
  dr_stop : inner b' !! (start + N.of_nat (length items))%N = None;
  dr_bound : (start ≤ u64_max → start + N.of_nat (length items) ≤ u64_max)%N;
  dr_rest : ∀ k, k ∉ items.*1 → k ≠ u64_max → inner b' !! k = inner b !! k;
  dr_gone : ∀ k, k ∈ items.*1 → inner b' !! k = None;
  dr_max : inner b' !! u64_max = inner b !! u64_max ∨
           (start + N.of_nat (length items) = u64_max ∧ inner b' !! u64_max = None)%N;
}.

Lemma drain_collect_run fuel b start :
  len b < fuel → (start ≤ u64_max)%N →
  drained_run b (drain_collect fuel (mkDrain b start)).1 start
              (drain_collect fuel (mkDrain b start)).2.
Proof.
  revert b start; induction fuel as [|fuel IH]; intros b start Hf Hu; [lia|].
  cbn [drain_collect]. unfold drain_next; cbn [buf next_].
  destruct (inner b !! start) as [s|] eqn:Hs.
  2:{ cbn. split; cbn; rewrite ?N.add_0_r; auto; set_solver. }
  unfold u64_checked_add. destruct (N.leb_spec (start + 1) u64_max) as [Hle|Hgt].
  2:{ assert (start = u64_max) as -> by lia.
      cbn -[u64_max]. split; cbn -[u64_max]; rewrite ?N.add_0_r; try done; try set_solver.
      - apply lookup_delete_eq.
      - intros k _ Hk. by rewrite lookup_delete_ne.
      - right. split; [done | apply lookup_delete_eq]. }
  set (b1 := with_inner b (delete start (inner b))).
  assert (Hlen : len b1 < fuel).
  { unfold len, b1 in *; cbn. rewrite map_size_delete, Hs.
    assert (size (inner b) ≠ 0) by (intros E%map_size_empty_inv; by rewrite E in Hs). lia. }
  specialize (IH b1 (start + 1)%N Hlen Hle).
  destruct (drain_collect fuel (mkDrain b1 (start + 1))) as [b' items]; cbn in *.
  destruct IH as [Hc Hn Hv Hst Hbd Hr Hg Hm].
  assert (Hnot : start ∉ items.*1) by (rewrite Hn, elem_of_nseq; lia).
  split; cbn.
  - done.
  - by rewrite Hn.
  - intros k v [[=->->]|Hin]%elem_of_cons; [by rewrite Hs|].
    specialize (Hv _ _ Hin). unfold b1 in Hv; cbn in Hv.
    rewrite lookup_delete_ne in Hv; [done|].
    intros ->. apply Hnot. apply list_elem_of_fmap. by exists (k, v).
  - rewrite <-Hst. f_equal; lia.
  - lia.
  - intros k Hk Hmx. rewrite Hr by set_solver. unfold b1; cbn.
    rewrite lookup_delete_ne; set_solver.
  - intros k [->|Hk]%elem_of_cons; [|auto].
    rewrite Hr by (done || lia). apply lookup_delete_eq.
  - destruct Hm as [Hm|[Hm1 Hm2]]; [left|right].
    + rewrite Hm. unfold b1; cbn. rewrite lookup_delete_ne; [done|lia].
    + split; [lia|done].
Qed.

Lemma drain_run b start :
  (start ≤ u64_max)%N → drained_run b (drain b start).1 start (drain b start).2.
Proof. intros. apply drain_collect_run; unfold len; [lia|done]. Qed.

(** The entries [drop_below] returns. *)
Lemma drop_below_spec b floor :
  StronglySorted N.lt (drop_below b floor).2.*1 ∧
  ∀ k v, (k, v) ∈ (drop_below b floor).2 ↔ (k < floor)%N ∧ value <$> inner b !! k = Some v.
Proof.
  cbn [drop_below snd]. set (m := filter _ _). split.
  - rewrite <-list_fmap_compose. apply (btree_keys_sorted m).
  - intros k v. rewrite list_elem_of_fmap. split.
    + intros ([k' sl] & [= -> ->] & Hin%elem_of_btree_list).
      apply map_lookup_filter_Some in Hin as [Hk Hlt]. cbn in *. by rewrite Hk.
    + intros [Hlt Hv]. destruct (inner b !! k) as [sl|] eqn:E; [|done]. injection Hv as <-.
      exists (k, sl). split; [done|]. by apply elem_of_btree_list, map_lookup_filter_Some.
Qed.
End pending_facts.

(** ** Properties of the future-nonce buffer

    What the buffer keeps under any sequence of inserts (the lowest nonces, so
    that two replicas that see the same refs in different orders agree), and
    what a drain yields, the edge at [u64::MAX] included. *)
Import PendingBuffer.

Section inserts.
Context {T : Type}.
Implicit Types (b : PendingBuffer.t T) (n k : N) (l : list (N * T)).

(** A sequence of inserts, each with the deadline [d]. *)
Definition insert_all b l (d : Instant) : PendingBuffer.t T :=
  fold_left (λ q e, (PendingBuffer.insert q e.1 e.2 d).1) l b.

(** The nonces a buffer holds. *)
Definition keys b : gset N := dom (inner b).

(** [b] holds the [cap] lowest of the nonces in [seen]. *)
Record keeps_lowest (cap : nat) b (seen : gset N) : Prop := {
  kl_sub : keys b ⊆ seen;
  kl_size : size (keys b) = cap `min` size seen;
  kl_low : ∀ k x, k ∈ keys b → x ∈ seen → x ∉ keys b → (k < x)%N;
}.

Lemma len_keys b : len b = size (keys b).
Proof. unfold len, keys. by rewrite size_dom. Qed.

Lemma insert_capacity b n v d : capacity (PendingBuffer.insert b n v d).1 = capacity b.
Proof.
  unfold PendingBuffer.insert. destruct (capacity b) as [cap|] eqn:Hc; [|done].
  destruct (if _ : bool then _ else _) as [[m sl]|]; [destruct (N.ltb m n)|]; cbn; done.
Qed.

Lemma keeps_all cap b seen : size (keys b) < cap → keeps_lowest cap b seen → keys b ≡ seen.
Proof.
  intros Hlt [Hsub Hsz _]. apply set_subseteq_size_equiv; [done|]. lia.
Qed.

Lemma insert_keeps_lowest cap b seen n v d :
  0 < cap → capacity b = Some cap → keeps_lowest cap b seen →
  keeps_lowest cap (PendingBuffer.insert b n v d).1 ({[ n ]} ∪ seen).
Proof.
  intros Hpos Hcap Hk. pose proof (keeps_all cap b seen) as Hall.
  pose proof Hk as [Hsub Hsz Hlow].
  assert (Hin : ∀ k, k ∈ keys b ↔ is_Some (inner b !! k)) by (intros; apply elem_of_dom).
  destruct (insert_cases b n v d cap Hcap)
    as [(m & sl & Hn & Hfull & Hm & Hmax & Hlt & ->)
       |[(m & sl & Hn & Hfull & Hm & Hmax & Hlt & ->)|[Hwhy ->]]]; rewrite ?len_keys in *.
  - assert (size seen ≤ size ({[n]} ∪ seen)) by (apply subseteq_size; set_solver).
    split; [set_solver | cbn; lia |]. cbn. intros k x Hkk [->%elem_of_singleton|Hx]%elem_of_union Hnx.
    + apply Hin in Hkk as [s' Hs']. specialize (Hmax _ _ Hs'). lia.
    + eauto.
  - assert (Hns : n ∉ seen).
    { intros Hs. assert (m < n)%N by (apply Hlow; [apply Hin; eauto | done | ]; rewrite Hin, Hn; by intros []).
      lia. }
    assert (Hkeys : keys (with_inner b (<[n:=mkSlot (Some d) v]> (delete m (inner b)))) =
                    {[ n ]} ∪ keys b ∖ {[ m ]}) by (unfold keys; cbn; by rewrite dom_insert_L, dom_delete_L).
    split; cbn [fst]; rewrite Hkeys.
    + set_solver.
    + assert (m ∈ keys b) by (apply Hin; eauto). assert (n ∉ keys b) by (rewrite Hin, Hn; by intros []).
      rewrite (size_union _ seen), size_union, size_difference, !size_singleton by set_solver. lia.
    + assert (Hmk : m ∈ keys b) by (apply Hin; eauto).
      intros k x Hkx Hx Hnx.
      destruct (decide (x = m)) as [->|Hxm].
      * destruct (decide (k = n)) as [->|]; [done|].
        assert (Hkb : k ∈ keys b ∧ k ≠ m) by set_solver. destruct Hkb as [[s' Hs']%Hin Hkm].
        specialize (Hmax _ _ Hs'). lia.
      * assert (Hxs : x ∈ seen ∧ x ∉ keys b) by set_solver. destruct Hxs as [Hxs Hxk].
        destruct (decide (k = n)) as [->|]; [|apply Hlow; set_solver].
        specialize (Hlow _ _ Hmk Hxs Hxk). lia.
  - assert (Hkeys : keys (with_inner b (<[n:=mkSlot (Some d) v]> (inner b))) = {[ n ]} ∪ keys b)
      by (unfold keys; cbn; by rewrite dom_insert_L).
    destruct (decide (n ∈ keys b)) as [Hnk|Hnk].
    + assert ({[n]} ∪ keys b = keys b) as Hsame by set_solver.
      assert ({[n]} ∪ seen = seen) as -> by set_solver.
      split; cbn [fst]; rewrite Hkeys, Hsame; done.
    + assert (Hlt : size (keys b) < cap).
      { destruct Hwhy as [Hw|[Hw|Hw]]; [by apply Hin in Hw | done |].
        unfold keys. rewrite Hw, dom_empty_L, size_empty. done. }
      assert (keys b = seen) as <- by (apply leibniz_equiv, Hall; done).
      split; cbn [fst]; rewrite Hkeys; [done | | done].
      rewrite size_union, size_singleton by set_solver. lia.
Qed.

Lemma insert_all_keeps_lowest cap b seen l d :
  0 < cap → capacity b = Some cap → keeps_lowest cap b seen →
  keeps_lowest cap (insert_all b l d) (list_to_set l.*1 ∪ seen).
Proof.
  intros Hpos. revert b seen. induction l as [|[n v] l IH]; intros b seen Hc Hk; cbn.
  - by rewrite union_empty_l_L.
  - replace ({[n]} ∪ list_to_set l.*1 ∪ seen) with (list_to_set l.*1 ∪ ({[n]} ∪ seen) : gset N)
      by set_solver.
    apply IH; [by rewrite insert_capacity|]. by apply insert_keeps_lowest.
Qed.

Lemma new_keeps_lowest cap : keeps_lowest cap (PendingBuffer.new cap : PendingBuffer.t T) ∅.
Proof.
  split; unfold keys; cbn; rewrite dom_empty_L; [done | | set_solver].
  rewrite size_empty. lia.
Qed.

Lemma insert_new_keeps_lowest cap l d :
  0 < cap → keeps_lowest cap (insert_all (PendingBuffer.new cap) l d) (list_to_set l.*1).
Proof.
  intros Hpos. rewrite <-(union_empty_r_L (list_to_set l.*1)).
  apply insert_all_keeps_lowest; [done | | apply new_keeps_lowest]. by destruct cap; [lia|].
Qed.

(** The [cap] lowest nonces of a set are one set. *)
Lemma keeps_lowest_agree cap b1 b2 seen :
  keeps_lowest cap b1 seen → keeps_lowest cap b2 seen → keys b1 ⊆ keys b2.
Proof.
  intros [S1 Z1 L1] [S2 Z2 L2] k Hk. destruct (decide (k ∈ keys b2)) as [|Hn]; [done|exfalso].
  assert (Hsub : keys b2 ⊆ keys b1 ∖ {[k]}).
  { intros x Hx. assert (x < k)%N by (apply L2; auto).
    destruct (decide (x ∈ keys b1)) as [|Hx1]; [set_solver by lia|].
    assert (k < x)%N by (apply L1; auto). lia. }
  apply subseteq_size in Hsub. rewrite size_difference, size_singleton in Hsub by set_solver.
  assert (size (keys b1) ≠ 0) by (rewrite size_non_empty_iff; set_solver). lia.
Qed.
End inserts.

(** ** Properties *)
Section properties.
Context {T : Type}.

(** A buffer of capacity [cap] that receives any sequence of inserts holds
    the [cap] lowest of the nonces it saw: it holds [min cap] of them, each seen,
    and each one it holds is below each one it shed. *)
Theorem buffer_keeps_lowest (cap : nat) (l : list (N * T)) (d : Instant) :
  0 < cap →
  keys (insert_all (PendingBuffer.new cap) l d) ⊆ list_to_set l.*1 ∧
  len (insert_all (PendingBuffer.new cap) l d) = cap `min` size (list_to_set l.*1 : gset N) ∧
  ∀ k x, k ∈ keys (insert_all (PendingBuffer.new cap) l d) → x ∈ l.*1 →
         x ∉ keys (insert_all (PendingBuffer.new cap) l d) → (k < x)%N.
Proof.
  intros Hpos. destruct (insert_new_keeps_lowest cap l d Hpos) as [Hs Hz Hl].
  rewrite len_keys. split; [done|]. split; [done|].
  intros k x Hk Hx Hn. apply Hl; [done | by apply elem_of_list_to_set | done].
Qed.

(** The nonces a buffer holds do not depend on the order the refs arrive in:
    two replicas that insert the same nonces hold the same nonces. *)
Theorem buffer_order_independent (cap : nat) (l1 l2 : list (N * T)) (d1 d2 : Instant) :
  0 < cap → (∀ n, n ∈ l1.*1 ↔ n ∈ l2.*1) →
  keys (insert_all (PendingBuffer.new cap) l1 d1) = keys (insert_all (PendingBuffer.new cap) l2 d2).
Proof.
  intros Hpos Hl.
  assert (Hset : list_to_set l1.*1 = (list_to_set l2.*1 : gset N)).
  { apply leibniz_equiv. intros n. by rewrite !elem_of_list_to_set. }
  pose proof (insert_new_keeps_lowest cap l1 d1 Hpos) as H1.
  pose proof (insert_new_keeps_lowest cap l2 d2 Hpos) as H2. rewrite Hset in H1.
  apply leibniz_equiv, set_equiv_subseteq. split; eapply keeps_lowest_agree; eauto.
Qed.

(** A drain from [start] yields the entries at [start], [start + 1], ... up to
    the first gap, with their buffered values, and leaves every other entry below
    [u64::MAX] where it is. *)
Theorem drain_yields_run (b : PendingBuffer.t T) (start : N) :
  (start ≤ u64_max)%N →
  let '(b', items) := drain b start in
  items.*1 = nseq start (length items) ∧
  (∀ k v, (k, v) ∈ items → value <$> inner b !! k = Some v) ∧
  inner b' !! (start + N.of_nat (length items))%N = None ∧
  (∀ k, (k < u64_max)%N →
     inner b' !! k = if decide (k ∈ items.*1) then None else inner b !! k) ∧
  ((start + N.of_nat (length items) < u64_max)%N →
     inner b !! (start + N.of_nat (length items))%N = None).
Proof.
  intros Hu. pose proof (drain_run b start Hu) as Hr.
  destruct (drain b start) as [b' items]; cbn in Hr. destruct Hr as [Hc Hn Hv Hst Hb Hr Hg Hm].
  split; [done|]. split; [done|]. split; [done|]. split.
  - intros k Hk. case_decide; [auto | apply Hr; [done | lia]].
  - intros Hlt. rewrite <-Hr; [done | | lia]. rewrite Hn, elem_of_nseq. lia.
Qed.

(** An entry at nonce [u64::MAX] is lost by the drain that reaches it: it
    leaves the buffer and is not yielded. *)
Theorem drain_loses_max (b : PendingBuffer.t T) :
  is_Some (inner b !! u64_max) →
  (drain b u64_max).2 = [] ∧ inner (drain b u64_max).1 !! u64_max = None.
Proof.
  intros [sl Hs]. unfold drain, drain_collect, drain_next, drain_consecutive_from.
  cbn [buf next_]. rewrite Hs. change (u64_checked_add u64_max 1) with (@None N).
  split; [done|]. apply lookup_delete_eq.
Qed.
End properties.

(** ** Witnesses *)
Lemma buffer_keeps_lowest_witness :
  len (insert_all (PendingBuffer.new 2) [(7, 70); (3, 30); (5, 50)]%N 9) =
  2 `min` size (list_to_set [7; 3; 5]%N : gset N).
Proof. apply (buffer_keeps_lowest 2 [(7, 70); (3, 30); (5, 50)]%N 9). lia. Defined.

Lemma buffer_order_independent_witness :
  keys (insert_all (PendingBuffer.new 2) [(7, 70); (3, 30); (5, 50)]%N 9) =
  keys (insert_all (PendingBuffer.new 2) [(5, 51); (7, 71); (3, 31)]%N 11).
Proof.
  apply (buffer_order_independent 2); [lia|]. intros n. cbn. set_solver.
Defined.

Definition three_parked : PendingBuffer.t N :=
  insert_all (PendingBuffer.new 4) [(7, 70); (3, 30); (4, 40)]%N 9.

Lemma drain_yields_run_witness :
  (drain three_parked 3).2 = [(3, 30); (4, 40)]%N ∧
  (drain three_parked 3).2.*1 = nseq 3 (length (drain three_parked 3).2).
Proof.
  split; [by vm_compute|].
  pose proof (drain_yields_run three_parked 3 ltac:(done)) as H.
  destruct (drain three_parked 3) as [b' items]. apply H.
Defined.

Definition max_parked : PendingBuffer.t N :=
  insert_all (PendingBuffer.new 4) [(u64_max, 1)]%N 9.

Lemma drain_loses_max_witness :
  is_Some (inner max_parked !! u64_max) ∧ (drain max_parked u64_max).2 = [].
Proof.
  assert (H : is_Some (inner max_parked !! u64_max)) by (vm_compute; eauto).
  split; [done|]. apply (drain_loses_max max_parked H).
Defined.
