(* ===== verification/Unconfirmed.v ===== *)
(** * Publish-confirmation ledger

    Models [crates/sequencer/src/unconfirmed.rs]: the refs that this sequencer
    published and that no receipt has confirmed. [entries] is the [BTreeMap],
    [expiry] the publish-order queue with lazy deletion. The clock of
    [record_published] is the argument [at_]. *)
From S2P Require Import Prelude.

(** [(Address, u64)]. *)
Abbreviation UnconfirmedKey := (N * N)%type (only parsing).

Module UnconfirmedLedger.
Section ledger.
Context {T : Type}.

Record t : Type := mk {
  entries : gmap UnconfirmedKey (T * Instant);
  expiry : list (Instant * UnconfirmedKey);
}.

Definition with_entries (l : t) (m : gmap UnconfirmedKey (T * Instant)) : t := mk m (expiry l).
Definition with_expiry (l : t) (q : list (Instant * UnconfirmedKey)) : t := mk (entries l) q.

Definition new : t := mk ∅ [].

Definition len (l : t) : nat := size (entries l).

(** [entries.range((sender, lo)..=(sender, hi))], the keys in order. *)
Definition keys_in (l : t) (sender : Address) (lo hi : N) : list UnconfirmedKey :=
  filter (λ k, k.1 = sender ∧ (lo ≤ k.2 ≤ hi)%N) (btree_list (entries l)).*1.

Definition contains (l : t) (sender : Address) (nonce : N) : bool :=
  bool_decide (is_Some (entries l !! (sender, nonce))).

Definition count_from (l : t) (sender : Address) (from : N) : nat :=
  length (keys_in l sender from u64_max).

Definition record_published (l : t) (at_ : Instant) (sender : Address) (nonce : N) (meta : T) : t :=
  mk (<[(sender, nonce) := (meta, at_)]> (entries l)) (expiry l ++ [(at_, (sender, nonce))]).

Definition confirm_through (l : t) (sender : Address) (confirmed : N) : t :=
  fold_left (λ q k, with_entries q (delete k (entries q))) (keys_in l sender 0 confirmed) l.

Definition drop_committed (l : t) (sender : Address) (nonce : N) : t * option T :=
  (with_entries l (delete (sender, nonce) (entries l)), fst <$> entries l !! (sender, nonce)).

Definition take_named (l : t) (sender : Address) (nonce : N) (named : T → bool) : t * option T :=
  let held := match entries l !! (sender, nonce) with
              | Some (meta, _) => named meta
              | None => false end in
  if held then drop_committed l sender nonce else (l, None).

(** [filter_map] over the keys from the last to the first. *)
Definition take_one (acc : t * list (UnconfirmedKey * T)) (k : UnconfirmedKey)
  : t * list (UnconfirmedKey * T) :=
  let '(l, out) := acc in
  match entries l !! k with
  | Some (meta, _) => (with_entries l (delete k (entries l)), out ++ [(k, meta)])
  | None => (l, out)
  end.

Definition take_descending (l : t) (keys : list UnconfirmedKey) : t * list (UnconfirmedKey * T) :=
  fold_left take_one (rev keys) (l, []).

Definition take_gap_rewinds (l : t) (sender : Address) (expected : N)
  : t * list (UnconfirmedKey * T) :=
  take_descending l (keys_in l sender expected u64_max).

(** [Break] is [None]; [Continue c] is [Some c]. *)
Definition expire_step (l : t) (now : Instant) (timeout : Duration)
  : t * option (option UnconfirmedKey) :=
  match expiry l with
  | [] => (l, None)
  | (queued_at, key) :: rest =>
    if (now - queued_at <? timeout)%N then (l, None)
    else
      let current := match entries l !! key with
                     | Some (_, at_) => (at_ =? queued_at)%N
                     | None => false end in
      (with_expiry l rest, Some (if current then Some key else None))
  end.

(** The [while stale.len() < max] loop: every turn pops a queue entry, so the
    length of the queue bounds the turns. *)
Fixpoint sweep_loop (fuel : nat) (l : t) (timeout : Duration) (now : Instant) (max : nat)
  (stale : list UnconfirmedKey) : t * list UnconfirmedKey :=
  match fuel with
  | O => (l, stale)
  | S fuel' =>
    if (length stale <? max)%nat then
      match expire_step l now timeout with
      | (l', None) => (l', stale)
      | (l', Some (Some key)) => sweep_loop fuel' l' timeout now max (stale ++ [key])
      | (l', Some None) => sweep_loop fuel' l' timeout now max stale
      end
    else (l, stale)
  end.

Definition sweep_expired (l : t) (timeout : Duration) (now : Instant) (max : nat)
  : t * list (UnconfirmedKey * T) :=
  let '(l', stale) := sweep_loop (S (length (expiry l))) l timeout now max [] in
  take_descending l' stale.
End ledger.
Arguments t : clear implicits.
End UnconfirmedLedger.

(** ** Facts *)
Section ledger_facts.
Context {T : Type}.
Implicit Types (l : UnconfirmedLedger.t T) (a : Address) (n : N) (k : UnconfirmedKey) (m : T).
Import UnconfirmedLedger.

(** Every entry has a queue slot with its publish time, and the queue is in
    publish order, each slot once. *)
Record tracked l : Prop := {
  tr_queued : ∀ k m at_, entries l !! k = Some (m, at_) → (at_, k) ∈ expiry l;
  tr_sorted : StronglySorted (λ x y, (x.1 ≤ y.1)%N) (expiry l);
  tr_nodup : NoDup (expiry l);
}.

Lemma elem_of_keys_in l a lo hi k :
  k ∈ keys_in l a lo hi ↔ k.1 = a ∧ (lo ≤ k.2 ≤ hi)%N ∧ is_Some (entries l !! k).
Proof.
  unfold keys_in. rewrite list_elem_of_filter, list_elem_of_fmap. split.
  - intros [[H1 H2] ([k' v] & -> & Hin%elem_of_btree_list)]. cbn. eauto.
  - intros (H1 & H2 & [v Hv]). split; [done|]. exists (k, v). by rewrite elem_of_btree_list.
Qed.

Lemma keys_in_NoDup l a lo hi : NoDup (keys_in l a lo hi).
Proof. apply NoDup_filter, btree_list_NoDup. Qed.

Lemma keys_in_ascending l a lo hi : StronglySorted N.lt (keys_in l a lo hi).*2.
Proof.
  pose proof (keys_in_NoDup l a lo hi) as Hnd.
  assert (Hs : StronglySorted key_le (keys_in l a lo hi)).
  { unfold keys_in. apply StronglySorted_filter.
    by eapply StronglySorted_fmap, btree_list_sorted. }
  assert (Ha : ∀ k, k ∈ keys_in l a lo hi → k.1 = a) by (intros k; rewrite elem_of_keys_in; tauto).
  induction Hs as [|[a1 n1] q Hs IH Hx]; cbn; constructor.
  - apply IH; [by apply NoDup_cons in Hnd as [_ ?] | intros; apply Ha; by right].
  - apply Forall_fmap, Forall_forall. intros [a2 n2] Hin. cbn.
    assert (a1 = a) as -> by (apply (Ha (a1, n1)); left).
    assert (a2 = a) as -> by (apply (Ha (a2, n2)); by right).
    apply (proj1 (Forall_forall _ _) Hx) in Hin as Hle. cbn in Hle. unfold pair_key_le in Hle.
    cbn in Hle. rewrite decide_True in Hle by done. cbn in Hle.
    assert (n1 ≠ n2) by (intros ->; by apply NoDup_cons in Hnd as [? _]). lia.
Qed.

Lemma delete_all_spec l (ks : list UnconfirmedKey) k :
  entries (fold_left (λ q j, with_entries q (delete j (entries q))) ks l) !! k =
  if decide (k ∈ ks) then None else entries l !! k.
Proof.
  revert l; induction ks as [|j ks IH]; intros l; [done|]. cbn [fold_left]. rewrite IH. cbn.
  rewrite lookup_delete. destruct (decide (j = k)) as [->|Hne].
  - rewrite (decide_True (P := k ∈ k :: ks)) by left. by case_decide.
  - destruct (decide (k ∈ ks)).
    + rewrite decide_True by (by right). done.
    + rewrite decide_False by set_solver. done.
Qed.

Lemma delete_all_expiry l (ks : list UnconfirmedKey) :
  expiry (fold_left (λ q j, with_entries q (delete j (entries q))) ks l) = expiry l.
Proof. revert l; induction ks as [|j ks IH]; intros l; [done|]. cbn [fold_left]. by rewrite IH. Qed.

Lemma confirm_through_entries l a n k :
  entries (confirm_through l a n) !! k =
  if decide (k.1 = a ∧ (k.2 ≤ n)%N) then None else entries l !! k.
Proof.
  unfold confirm_through. rewrite delete_all_spec.
  destruct (decide (k ∈ _)) as [Hin|Hin]; rewrite elem_of_keys_in in Hin.
  - rewrite decide_True by (split; [tauto | lia]). done.
  - case_decide as Hd; [|done]. apply eq_None_not_Some. intros Hs. apply Hin.
    destruct Hd. split; [done|]. split; [lia | done].
Qed.

(** What [take_descending] takes. *)
Lemma take_fold_spec (ks : list UnconfirmedKey) l out :
  let '(l', out') := fold_left take_one ks (l, out) in
  expiry l' = expiry l ∧
  (∀ k, entries l' !! k = if decide (k ∈ ks) then None else entries l !! k) ∧
  ∃ taken, out' = out ++ taken ∧ NoDup taken.*1 ∧
    (∀ k m, (k, m) ∈ taken ↔ k ∈ ks ∧ fst <$> entries l !! k = Some m) ∧
    (NoDup ks → (∀ k, k ∈ ks → is_Some (entries l !! k)) → taken.*1 = ks).
Proof.
  revert l out; induction ks as [|j ks IH]; intros l out; cbn [fold_left].
  { split; [done|]. split; [done|]. exists []. rewrite app_nil_r. split; [done|].
    split; [constructor|]. split; [|done]. intros k m. rewrite !elem_of_nil. tauto. }
  unfold take_one at 2. destruct (entries l !! j) as [[m0 at0]|] eqn:E.
  - specialize (IH (with_entries l (delete j (entries l))) (out ++ [(j, m0)])).
    destruct (fold_left take_one ks _) as [l' out']. destruct IH as (He & Hl & taken & -> & Hnd & Ht & Ho).
    cbn [entries with_entries] in *.
    split; [done|]. split.
    + intros k. rewrite Hl, lookup_delete. destruct (decide (j = k)) as [->|Hne].
      * rewrite (decide_True (P := k ∈ k :: ks)) by left. by case_decide.
      * repeat case_decide; set_solver.
    + exists ((j, m0) :: taken). rewrite <-app_assoc. split; [done|].
      assert (Hj : ∀ m, (j, m) ∉ taken).
      { intros m Hin. apply Ht in Hin as [_ Hin]. by rewrite lookup_delete_eq in Hin. }
      split; [|split].
      * cbn. constructor; [|done]. intros ([k m] & -> & Hin)%list_elem_of_fmap. by apply (Hj m).
      * intros k m. rewrite !elem_of_cons, Ht, lookup_delete. split.
        -- intros [[= -> ->]|[Hin Hm]]; [rewrite E; auto|]. case_decide; [done | auto].
        -- intros [[->|Hin] Hm]; [rewrite E in Hm; injection Hm as <-; by left|].
           destruct (decide (j = k)) as [->|]; [rewrite E in Hm; injection Hm as <-; by left | by right].
      * intros [Hni Hnd']%NoDup_cons Hall. cbn. f_equal. apply Ho; [done|].
        intros k Hk. rewrite lookup_delete_ne by (intros ->; done). apply Hall. by right.
  - specialize (IH l out). destruct (fold_left take_one ks _) as [l' out'].
    destruct IH as (He & Hl & taken & -> & Hnd & Ht & Ho). split; [done|]. split.
    + intros k. rewrite Hl. destruct (decide (k = j)) as [->|]; [|repeat case_decide; set_solver].
      rewrite (decide_True (P := j ∈ j :: ks)) by left. by case_decide.
    + exists taken. split; [done|]. split; [done|]. split.
      * intros k m. rewrite Ht, elem_of_cons. split; [tauto|]. intros [[->|Hin] Hm]; [by rewrite E in Hm | done].
      * intros _ Hall. destruct (Hall j) as [? Hj]; [left|]. congruence.
Qed.

(** The front of the queue is live: nothing more has expired. *)
Definition front_live l (timeout : Duration) (now : Instant) : Prop :=
  match expiry l with [] => True | q :: _ => (now - q.1 < timeout)%N end.

(** The sweep loop pops the slots [popped], and the current ones join [new]. *)
Record popped_run l l' (timeout : Duration) (now : Instant) (max : nat)
    (stale new : list UnconfirmedKey) (popped : list (Instant * UnconfirmedKey)) : Prop := {
  pr_queue : expiry l = popped ++ expiry l';
  pr_entries : entries l' = entries l;
  pr_new : ∀ k, k ∈ new ↔ ∃ at_ m, (at_, k) ∈ popped ∧ entries l !! k = Some (m, at_);
  pr_expired : ∀ q, q ∈ popped → (timeout ≤ now - q.1)%N;
  pr_max : length (stale ++ new) ≤ max;
  pr_live : length (stale ++ new) < max → front_live l' timeout now;
  pr_nodup : NoDup (expiry l) → NoDup new;
}.

Lemma popped_run_nil l timeout now max stale :
  length stale ≤ max → (length stale < max → front_live l timeout now) →
  popped_run l l timeout now max stale [] [].
Proof.
  intros Hm Hl. split; rewrite ?app_nil_r; auto.
  - intros k. split; [by intros ?%elem_of_nil | by intros (? & ? & ?%elem_of_nil & _)].
  - by intros q ?%elem_of_nil.
  - intros _. constructor.
Qed.

Lemma popped_run_cons l l' timeout now max stale new popped q k0 rest (cur : bool) :
  expiry l = (q, k0) :: rest → (timeout ≤ now - q)%N →
  (cur = true ↔ ∃ m, entries l !! k0 = Some (m, q)) →
  popped_run (with_expiry l rest) l' timeout now max
    (if cur then stale ++ [k0] else stale) new popped →
  popped_run l l' timeout now max stale (if cur then k0 :: new else new) ((q, k0) :: popped).
Proof.
  intros He Hexp Hcur [P1 P2 P3 P4 P5 P6 P7]. cbn in *.
  assert (Happ : (if cur then stale ++ [k0] else stale) ++ new = stale ++ (if cur then k0 :: new else new))
    by (destruct cur; by rewrite <-?app_assoc).
  rewrite Happ in *. split; auto.
  - by rewrite He, P1.
  - intros k. transitivity ((cur = true ∧ k = k0) ∨ k ∈ new); [destruct cur; rewrite ?elem_of_cons; naive_solver|].
    rewrite P3. setoid_rewrite elem_of_cons. split.
    + intros [[Hc ->]|(at_ & m & H1 & H2)]; [apply Hcur in Hc as [m Hm]|]; eauto 6.
    + intros (at_ & m & [[= -> ->]|H1] & H2); [left; split; [apply Hcur|]; eauto | right; eauto].
  - intros x [->|Hx]%elem_of_cons; auto.
  - rewrite He. intros [Hni Hnd]%NoDup_cons. specialize (P7 Hnd). destruct cur; [|done].
    constructor; [|done]. intros (at_ & m & H1 & H2)%P3. apply Hni.
    destruct (proj1 Hcur eq_refl) as [m' Hm']. rewrite Hm' in H2. injection H2 as -> ->.
    rewrite P1. set_solver.
Qed.

Lemma sweep_loop_spec fuel l timeout now max (stale : list UnconfirmedKey) :
  length (expiry l) < fuel → length stale ≤ max →
  ∃ l' new popped, sweep_loop fuel l timeout now max stale = (l', stale ++ new) ∧
    popped_run l l' timeout now max stale new popped.
Proof.
  revert l stale; induction fuel as [|fuel IH]; intros l stale Hf Hm; [lia|]. cbn [sweep_loop].
  assert (Hstop : (length stale < max → front_live l timeout now) →
    ∃ l' new popped, (l, stale) = (l', stale ++ new) ∧ popped_run l l' timeout now max stale new popped).
  { intros Hlive. exists l, [], []. rewrite app_nil_r. split; [done|]. by apply popped_run_nil. }
  destruct (Nat.ltb_spec (length stale) max) as [Hlt|Hge]; [|apply Hstop; lia].
  unfold expire_step. unfold front_live in Hstop. destruct (expiry l) as [|[q k0] rest] eqn:Eq; [by apply Hstop|].
  destruct (N.ltb_spec (now - q) timeout) as [Hlive|Hexp]; [by apply Hstop|].
  cbn in Hf. set (cur := match entries l !! k0 with Some (_, at_) => (at_ =? q)%N | None => false end).
  assert (Hcur : cur = true ↔ ∃ m, entries l !! k0 = Some (m, q)).
  { unfold cur. destruct (entries l !! k0) as [[m at_]|]; [|naive_solver]. rewrite N.eqb_eq. naive_solver. }
  destruct (IH (with_expiry l rest) (if cur then stale ++ [k0] else stale)) as (l' & new & popped & Heq & Hp).
  { cbn. lia. }
  { destruct cur; rewrite ?length_app; cbn; lia. }
  exists l', (if cur then k0 :: new else new), ((q, k0) :: popped).
  split; [destruct cur; rewrite Heq, <-?app_assoc; done|].
  by eapply popped_run_cons.
Qed.

(** The ref of [k] was published at least [timeout] before [now]. *)
Definition timed_out l (timeout : Duration) (now : Instant) k m : Prop :=
  ∃ at_, entries l !! k = Some (m, at_) ∧ (timeout ≤ now - at_)%N.

Lemma live_suffix l (timeout : Duration) (now : Instant) q :
  StronglySorted (λ x y, (x.1 ≤ y.1)%N) (expiry l) → front_live l timeout now →
  q ∈ expiry l → (now - q.1 < timeout)%N.
Proof.
  intros Hs Hf Hq. unfold front_live in Hf.
  destruct (expiry l) as [|q0 rest]; [by apply elem_of_nil in Hq|].
  inversion Hs as [|? ? _ Hall]; subst. apply elem_of_cons in Hq as [->|Hq]; [done|].
  apply (proj1 (Forall_forall _ _) Hall) in Hq. lia.
Qed.

Lemma elem_of_rev {A} (x : A) (q : list A) : x ∈ rev q ↔ x ∈ q.
Proof. by rewrite !list_elem_of_In, <-in_rev. Qed.

Lemma sweep_expired_spec l timeout now max :
  tracked l →
  let '(l', out) := sweep_expired l timeout now max in
  tracked l' ∧ NoDup out.*1 ∧ length out ≤ max ∧
  (∀ k m, (k, m) ∈ out → timed_out l timeout now k m) ∧
  (∀ k, entries l' !! k = if decide (k ∈ out.*1) then None else entries l !! k) ∧
  (length out < max → ∀ k m, ¬ timed_out l' timeout now k m).
Proof.
  intros [Htr Hso Hq]. unfold sweep_expired.
  destruct (sweep_loop_spec (S (length (expiry l))) l timeout now max []) as (l1 & new & popped & -> & Hp);
    [lia | cbn; lia|].
  destruct Hp as [P1 P2 P3 P4 P5 P6 P7]. cbn [app] in *. specialize (P7 Hq).
  unfold take_descending. pose proof (take_fold_spec (rev new) l1 []) as Ht.
  destruct (fold_left take_one (rev new) (l1, [])) as [l' out].
  destruct Ht as (Hex & Hent & taken & -> & Hnd & Htk & Hord). cbn [app] in *. rewrite P2 in *.
  assert (Hkeys : taken.*1 = rev new).
  { apply Hord; [by rewrite <-Permutation_rev|].
    intros k Hk. rewrite elem_of_rev in Hk. apply P3 in Hk as (at_ & m & _ & ->). eauto. }
  assert (Hin : ∀ k, k ∈ taken.*1 ↔ k ∈ new) by (intros k; rewrite Hkeys; apply elem_of_rev).
  assert (Hlen : length taken = length new) by (rewrite <-(length_fmap fst taken), Hkeys; apply length_rev).
  rewrite P1 in Hso. apply StronglySorted_app_1_r in Hso as Hso'.
  assert (Htr' : ∀ k m at_, entries l' !! k = Some (m, at_) → (at_, k) ∈ expiry l').
  { intros k m at_. rewrite Hent, Hex. case_decide as Hk; [done|]. intros Hm.
    specialize (Htr _ _ _ Hm) as Hin'. rewrite P1 in Hin'. apply elem_of_app in Hin' as [Hpop|]; [|done].
    exfalso. apply Hk, elem_of_rev, P3. eauto. }
  split; [|split; [done|split; [lia|split; [|split]]]].
  - split; [done | by rewrite Hex|]. rewrite Hex. rewrite P1 in Hq. by apply NoDup_app in Hq as (_ & _ & ?).
  - intros k m [Hk Hm]%Htk. rewrite elem_of_rev in Hk. apply P3 in Hk as (at_ & m' & Hpop & Hm'). exists at_.
    rewrite Hm' in Hm. injection Hm as ->. split; [done|]. by apply (P4 (at_, k)).
  - intros k. by rewrite Hent, Hkeys.
  - intros Hlt k m (at_ & Hm & Hle). rewrite Hlen in Hlt. specialize (P6 Hlt).
    specialize (Htr' _ _ _ Hm). rewrite Hex in Htr'.
    pose proof (live_suffix l1 timeout now (at_, k) Hso' P6 Htr'). cbn in *. lia.
Qed.

(** ** The ledger operations as steps *)
Inductive LOp : Type :=
| LRecord (at_ : Instant) (a : Address) (n : N) (m : T)
| LConfirm (a : Address) (n : N)
| LTake (a : Address) (n : N) (named : T → bool)
| LGap (a : Address) (n : N)
| LSweep (timeout : Duration) (now : Instant) (max : nat).

Definition exec_lop l (op : LOp) : UnconfirmedLedger.t T :=
  match op with
  | LRecord at_ a n m => record_published l at_ a n m
  | LConfirm a n => confirm_through l a n
  | LTake a n named => (take_named l a n named).1
  | LGap a n => (take_gap_rewinds l a n).1
  | LSweep timeout now max => (sweep_expired l timeout now max).1
  end.

(** The clock does not go back, and no key is published twice at one instant. *)
Definition lop_ok l (op : LOp) : Prop :=
  match op with
  | LRecord at_ a n _ => (∀ q, q ∈ expiry l → (q.1 ≤ at_)%N) ∧ (at_, (a, n)) ∉ expiry l
  | _ => True
  end.

Fixpoint lops_ok l (ops : list LOp) : Prop :=
  match ops with
  | [] => True
  | op :: ops' => lop_ok l op ∧ lops_ok (exec_lop l op) ops'
  end.

Lemma tracked_sub l l' :
  tracked l → expiry l' = expiry l →
  (∀ k v, entries l' !! k = Some v → entries l !! k = Some v) → tracked l'.
Proof. intros [H1 H2 H3] He Hs. split; rewrite He; eauto. Qed.

Lemma take_gap_rewinds_spec l a n :
  let '(l', out) := take_gap_rewinds l a n in
  expiry l' = expiry l ∧ out.*1 = rev (keys_in l a n u64_max) ∧
  (∀ k m, (k, m) ∈ out ↔ k.1 = a ∧ (n ≤ k.2 ≤ u64_max)%N ∧ fst <$> entries l !! k = Some m) ∧
  (∀ k, entries l' !! k = if decide (k.1 = a ∧ (n ≤ k.2 ≤ u64_max)%N) then None else entries l !! k).
Proof.
  unfold take_gap_rewinds, take_descending.
  pose proof (take_fold_spec (rev (keys_in l a n u64_max)) l []) as Ht.
  destruct (fold_left take_one _ (l, [])) as [l' out].
  destruct Ht as (Hex & Hent & taken & -> & Hnd & Htk & Hord). cbn [app].
  assert (Hin : ∀ k, k ∈ rev (keys_in l a n u64_max) ↔ k.1 = a ∧ (n ≤ k.2 ≤ u64_max)%N ∧ is_Some (entries l !! k))
    by (intros k; by rewrite elem_of_rev, elem_of_keys_in).
  split; [done|]. split; [|split].
  - apply Hord; [rewrite <-Permutation_rev; apply keys_in_NoDup|]. intros k Hk%Hin. tauto.
  - intros k m. rewrite Htk, Hin. split; [tauto|]. intros (H1 & H2 & H3).
    destruct (entries l !! k); [|done]. eauto 6.
  - intros k. rewrite Hent. destruct (decide (k ∈ _)) as [Hk%Hin|Hk].
    + rewrite decide_True by tauto. done.
    + case_decide; [|done]. apply eq_None_not_Some. rewrite Hin in Hk. tauto.
Qed.

Lemma exec_lop_tracked l op : tracked l → lop_ok l op → tracked (exec_lop l op).
Proof.
  intros Htr Hok. destruct op as [at_ a n m|a n|a n named|a n|timeout now max]; cbn [exec_lop].
  - destruct Htr as [H1 H2 H3], Hok as [K1 K2]. split; cbn.
    + intros k m' at'. rewrite lookup_insert, elem_of_app. case_decide.
      * subst. intros [= <- <-]. right. left.
      * intros Hm. left. eauto.
    + apply StronglySorted_app_2; [|done | repeat constructor].
      intros x y Hx ->%list_elem_of_singleton. by apply K1.
    + apply NoDup_app. split; [done|]. split; [|repeat constructor; by apply not_elem_of_nil].
      intros x Hx ->%list_elem_of_singleton. done.
  - eapply tracked_sub; [done | apply delete_all_expiry|].
    intros k v. rewrite confirm_through_entries. by case_decide.
  - eapply tracked_sub; [done|..]; unfold take_named; destruct (match _ with Some _ => _ | None => _ end); try done.
    cbn. intros k v. rewrite lookup_delete_Some. tauto.
  - pose proof (take_gap_rewinds_spec l a n) as Hs. destruct (take_gap_rewinds l a n) as [l' out].
    destruct Hs as (He & _ & _ & Hl). eapply tracked_sub; [done | done|].
    intros k v. cbn. rewrite Hl. by case_decide.
  - pose proof (sweep_expired_spec l timeout now max Htr) as Hs.
    destruct (sweep_expired l timeout now max). apply Hs.
Qed.

Lemma exec_lops_tracked l (ops : list LOp) : tracked l → lops_ok l ops → tracked (fold_left exec_lop ops l).
Proof.
  revert l; induction ops as [|op ops IH]; intros l Htr Hok; [done|]. destruct Hok as [H1 H2].
  cbn [fold_left]. apply IH; [by apply exec_lop_tracked | done].
Qed.

Lemma tracked_new : tracked (UnconfirmedLedger.new : UnconfirmedLedger.t T).
Proof. split; [|constructor|constructor]. intros k m at_. cbn. by rewrite lookup_empty. Qed.
End ledger_facts.

(** ** Properties *)
Section ledger_properties.
Context {T : Type}.
Import UnconfirmedLedger.
Implicit Types (l : UnconfirmedLedger.t T).

(** C38. No published ref is forgotten: after any sequence of ledger operations, a
    confirm-timeout sweep that returns fewer than [max] refs returns exactly the
    refs still held that were published at least [timeout] ago, each once, and
    holds on to every other ref. *)
Theorem ledger_sweep_complete (ops : list (LOp (T:=T))) (timeout : Duration) (now : Instant) (max : nat) :
  lops_ok UnconfirmedLedger.new ops →
  let l := fold_left exec_lop ops UnconfirmedLedger.new in
  let '(l', out) := UnconfirmedLedger.sweep_expired l timeout now max in
  NoDup out.*1 ∧ length out ≤ max ∧
  (∀ k, entries l' !! k = if decide (k ∈ out.*1) then None else entries l !! k) ∧
  (length out < max → ∀ k m, (k, m) ∈ out ↔ timed_out l timeout now k m).
Proof.
  intros Hok l. pose proof (exec_lops_tracked _ ops tracked_new Hok) as Htr. fold l in Htr.
  pose proof (sweep_expired_spec l timeout now max Htr) as Hs.
  destruct (UnconfirmedLedger.sweep_expired l timeout now max) as [l' out].
  destruct Hs as (_ & Hnd & Hmax & Hout & Hent & Hall). do 3 (split; [done|]).
  intros Hlt k m. split; [auto|]. intros (at_ & Hm & Hle).
  destruct (decide (k ∈ out.*1)) as [Hin|Hin].
  - apply list_elem_of_fmap in Hin as ([k' m'] & -> & Hin). cbn in *.
    destruct (Hout _ _ Hin) as (at' & Hm' & _). rewrite Hm in Hm'. by injection Hm' as <- <-.
  - exfalso. apply (Hall Hlt k m). exists at_. by rewrite Hent, decide_False.
Qed.

(** A contiguity reject rewinds exactly the refs of the sender at or above the
    expected nonce, in strictly descending nonce order; a confirmation drops
    exactly the refs of the sender at or below the confirmed nonce. *)
Theorem ledger_ranges_exact l (a : Address) (n : N) :
  let '(l', out) := take_gap_rewinds l a n in
  (∀ k m, (k, m) ∈ out ↔ k.1 = a ∧ (n ≤ k.2 ≤ u64_max)%N ∧ fst <$> entries l !! k = Some m) ∧
  StronglySorted N.gt (snd <$> out.*1) ∧
  (∀ k, entries l' !! k = if decide (k.1 = a ∧ (n ≤ k.2 ≤ u64_max)%N) then None else entries l !! k) ∧
  (∀ k, entries (confirm_through l a n) !! k =
        if decide (k.1 = a ∧ (k.2 ≤ n)%N) then None else entries l !! k).
Proof.
  pose proof (take_gap_rewinds_spec l a n) as Hs.
  destruct (take_gap_rewinds l a n) as [l' out]. destruct Hs as (_ & Hk & Hout & Hent).
  split; [done|]. split; [|split; [done|intros; apply confirm_through_entries]].
  rewrite Hk. pose proof (keys_in_ascending l a n u64_max) as Hasc. clear -Hasc.
  induction (keys_in l a n u64_max) as [|k ks IH]; [constructor|].
  cbn in *. inversion Hasc as [|? ? Hs Hall]; subst. rewrite fmap_app.
  apply StronglySorted_app_2; [|auto|repeat constructor].
  intros x y (k' & -> & Hin)%list_elem_of_fmap ->%list_elem_of_singleton.
  rewrite elem_of_rev in Hin. apply N.lt_gt, (proj1 (Forall_forall _ _) Hall), list_elem_of_fmap. eauto.
Qed.
End ledger_properties.

(** ** Witnesses *)
Definition sample_lops : list (LOp (T:=N)) :=
  [LRecord 10 1 0 100; LRecord 11 1 1 101; LRecord 20 2 0 200; LConfirm 1 0]%N.

Definition sample_ledger : UnconfirmedLedger.t N := fold_left exec_lop sample_lops UnconfirmedLedger.new.

Lemma ledger_sweep_complete_witness :
  (UnconfirmedLedger.sweep_expired sample_ledger 5 16 8).2 = [((1, 1), 101)]%N ∧
  let '(l', out) := UnconfirmedLedger.sweep_expired sample_ledger 5 16 8 in
  length out < 8 → ∀ k m, (k, m) ∈ out ↔ timed_out sample_ledger 5 16 k m.
Proof.
  assert (Hok : lops_ok UnconfirmedLedger.new sample_lops).
  { cbn. split_and!; try done; rewrite ?list_elem_of_In; cbn;
      try (intros q; rewrite list_elem_of_In; cbn); intuition (subst; cbn; lia || congruence). }
  split; [by vm_compute|].
  generalize (ledger_sweep_complete sample_lops 5 16 8 Hok). cbv zeta. fold sample_ledger.
  destruct (UnconfirmedLedger.sweep_expired sample_ledger 5 16 8) as [l' out].
  intros (_ & _ & _ & H). exact H.
Defined.
