(* ===== verification/NonceAhead.v ===== *)
(** * The watch on senders the sealer's nonce guard rejects above the chain

    Models [crates/sequencer/src/nonce_ahead.rs]: the first reject above the
    chain of each watched sender, and the verdict on a new one. *)
From S2P Require Import Prelude.

Definition CAPACITY : nat := 4096.

Inductive Verdict : Type := Stuck | InFlight.

Module NonceAheadWatch.
Record t : Type := mk { settle : Duration; since : gmap Address (N * Instant) }.

Definition new (settle : Duration) : t := mk settle ∅.

Definition with_since (w : t) (m : gmap Address (N * Instant)) : t := mk (settle w) m.

(** The first half of [start]: a full map drops its old entries. The settle time
    is a [u64] of milliseconds, so ten of them do not saturate a [Duration]. *)
Definition make_room (w : t) (now : Instant) : t :=
  if (CAPACITY <=? size (since w))%nat then
    with_since w (filter (λ e, (now - e.2.2 < settle w * 10)%N) (since w))
  else w.

Definition start (w : t) (sender : Address) (chain : N) (now : Instant) : t * Instant :=
  let w1 := make_room w now in
  (if (size (since w1) <? CAPACITY)%nat || bool_decide (is_Some (since w1 !! sender))
   then with_since w1 (<[sender := (chain, now)]> (since w1)) else w1, now).

Definition observe (w : t) (sender : Address) (chain : N) (now : Instant) : t * Verdict :=
  let '(w', first) :=
    match since w !! sender with
    | Some (at_chain, first) =>
      if (at_chain =? chain)%N then (w, first) else start w sender chain now
    | None => start w sender chain now
    end in
  (w', if (settle w' <=? now - first)%N then Stuck else InFlight).

Definition forget (w : t) (sender : Address) : t := with_since w (delete sender (since w)).
End NonceAheadWatch.
Import NonceAheadWatch.

(** ** The rejects the watch has seen *)
Inductive Event : Type :=
| ERejected (sender : Address) (chain : N) (now : Instant)
| EForgot (sender : Address).

Definition see (w : NonceAheadWatch.t) (e : Event) : NonceAheadWatch.t :=
  match e with
  | ERejected a chain now => (observe w a chain now).1
  | EForgot a => forget w a
  end.

(** The event says nothing against [a] standing at [chain]. *)
Definition at_chain_still (a : Address) (chain : N) (e : Event) : Prop :=
  match e with
  | ERejected b c _ => b = a → c = chain
  | EForgot b => b ≠ a
  end.

(** [a] was rejected at [chain] at the time [first], and every later event of
    [a] is a reject at the same chain nonce. *)
Definition stands_since (h : list Event) (a : Address) (chain : N) (first : Instant) : Prop :=
  ∃ h1 h2, h = h1 ++ ERejected a chain first :: h2 ∧ Forall (at_chain_still a chain) h2.

(** Every watched entry is in the history. *)
Definition recorded (h : list Event) (w : NonceAheadWatch.t) : Prop :=
  ∀ a chain first, since w !! a = Some (chain, first) → stands_since h a chain first.

Lemma stands_snoc h a chain first e :
  stands_since h a chain first → at_chain_still a chain e → stands_since (h ++ [e]) a chain first.
Proof.
  intros (h1 & h2 & -> & Hf) He. exists h1, (h2 ++ [e]). rewrite <-app_assoc. split; [done|].
  apply Forall_app. by repeat constructor.
Qed.

Lemma start_since w a chain now b v :
  since (start w a chain now).1 !! b = Some v →
  (b = a ∧ v = (chain, now)) ∨ since w !! b = Some v.
Proof.
  unfold start. set (w1 := make_room w now).
  assert (H1 : ∀ v', since w1 !! b = Some v' → since w !! b = Some v').
  { intros v'. unfold w1, make_room. destruct (_ <=? _)%nat; [|done]. cbn. rewrite map_lookup_filter_Some. tauto. }
  destruct (_ || _); cbn; [|auto]. rewrite lookup_insert. case_decide; [|auto].
  intros [= <-]. auto.
Qed.

Lemma settle_start w a chain now : settle (start w a chain now).1 = settle w.
Proof.
  unfold start. set (w1 := make_room w now).
  assert (H1 : settle w1 = settle w) by (unfold w1, make_room; by destruct (_ <=? _)%nat).
  cbn [fst]. by destruct (_ || _).
Qed.

(** No entry of the sender at another chain nonce survives [start]. *)
Lemma start_self w a chain now v :
  since (start w a chain now).1 !! a = Some v → v = (chain, now).
Proof.
  unfold start. set (w1 := make_room w now). cbn [fst].
  destruct (_ || _) eqn:E; [cbn; rewrite lookup_insert_eq; congruence|].
  apply orb_false_iff in E as [_ E%bool_decide_eq_false]. intros H. exfalso. eauto.
Qed.

Lemma start_size w a chain now : size (since w) ≤ CAPACITY → size (since (start w a chain now).1) ≤ CAPACITY.
Proof.
  intros Hw. unfold start. set (w1 := make_room w now).
  assert (H1 : size (since w1) ≤ CAPACITY).
  { unfold w1, make_room. destruct (_ <=? _)%nat; [|done]. cbn [since with_since].
    etrans; [apply map_size_filter|done]. }
  cbn [fst]. destruct (Nat.ltb_spec (size (since w1)) CAPACITY); cbn [orb].
  - cbn [since with_since]. rewrite map_size_insert. destruct (since w1 !! a); cbn; lia.
  - case_bool_decide as Hs; [|done]. cbn [since with_since]. rewrite map_size_insert.
    destruct Hs as [v ->]. cbn. lia.
Qed.

Lemma settle_observe w a chain now : settle (observe w a chain now).1 = settle w.
Proof.
  unfold observe. destruct (since w !! a) as [[c first]|].
  - destruct (c =? chain)%N; [done|]. pose proof (settle_start w a chain now). by destruct (start w a chain now).
  - pose proof (settle_start w a chain now). by destruct (start w a chain now).
Qed.

(** The watch after [observe] and the first reject the verdict counts from. *)
Lemma observe_cases w a chain now :
  (∃ first, since w !! a = Some (chain, first) ∧
     observe w a chain now = (w, if (settle w <=? now - first)%N then Stuck else InFlight)) ∨
  observe w a chain now =
    ((start w a chain now).1, if (settle w <=? now - now)%N then Stuck else InFlight).
Proof.
  unfold observe. pose proof (settle_start w a chain now) as Hs.
  destruct (since w !! a) as [[c first]|]; [destruct (N.eqb_spec c chain) as [->|]|]; [left; eauto|right..];
    destruct (start w a chain now) as [w' f] eqn:E; cbn in *; rewrite Hs;
    unfold start in E; injection E as _ <-; done.
Qed.

Lemma see_recorded h w e : recorded h w → recorded (h ++ [e]) (see w e).
Proof.
  intros Hr b c first Hb. destruct e as [a chain now|a]; cbn [see] in Hb.
  - destruct (observe_cases w a chain now) as [(f & Hf & Heq)|Heq]; rewrite Heq in Hb; cbn [fst] in Hb.
    + apply stands_snoc; [by apply Hr|]. cbn. intros <-. rewrite Hf in Hb. congruence.
    + destruct (decide (b = a)) as [->|Hne].
      * apply start_self in Hb as [= -> ->]. exists h, []. split; [done|constructor].
      * destruct (start_since _ _ _ _ _ _ Hb) as [[? _]|Hw]; [done|].
        apply stands_snoc; [by apply Hr|]. cbn. congruence.
  - cbn in Hb. apply lookup_delete_Some in Hb as [Hne Hw]. apply stands_snoc; [by apply Hr|]. by cbn.
Qed.

Lemma see_all_recorded h w (es : list Event) : recorded h w → recorded (h ++ es) (fold_left see es w).
Proof.
  revert h w; induction es as [|e es IH]; intros h w Hr; [by rewrite app_nil_r|].
  cbn [fold_left]. rewrite (cons_middle e h es), app_assoc. apply IH, see_recorded, Hr.
Qed.

Lemma see_all_settle w es : settle (fold_left see es w) = settle w.
Proof.
  revert w; induction es as [|e es IH]; intros w; [done|]. cbn [fold_left]. rewrite IH.
  destruct e; cbn [see]; [apply settle_observe | done].
Qed.

Lemma see_all_size w es : size (since w) ≤ CAPACITY → size (since (fold_left see es w)) ≤ CAPACITY.
Proof.
  revert w; induction es as [|e es IH]; intros w Hw; [done|]. cbn [fold_left]. apply IH.
  destruct e as [a chain now|a]; cbn [see].
  - destruct (observe_cases w a chain now) as [(f & _ & ->)| ->]; [done | by apply start_size].
  - cbn. rewrite map_size_delete. destruct (since w !! a); cbn; lia.
Qed.

(** ** Properties *)

(** A sender is called stuck only after the settle time at one chain nonce: when
    [observe] answers [Stuck] for a positive settle time, an earlier reject of the
    sender at the same chain nonce is at least the settle time old, and no event
    of the sender since then forgot it or moved its chain nonce. The watch never
    holds more than [CAPACITY] senders. *)
Theorem stuck_only_after_settle (settle_ : Duration) (h : list Event) (a : Address) (chain : N) (now : Instant) :
  (0 < settle_)%N →
  let w := fold_left see h (NonceAheadWatch.new settle_) in
  size (since w) ≤ CAPACITY ∧
  ((observe w a chain now).2 = Stuck →
   ∃ first, stands_since h a chain first ∧ (settle_ ≤ now - first)%N).
Proof.
  intros Hpos w.
  assert (Hs : settle w = settle_) by apply see_all_settle.
  assert (Hr : recorded h w).
  { apply (see_all_recorded []). intros b c f. cbn. by rewrite lookup_empty. }
  split; [apply see_all_size; cbn; rewrite map_size_empty; unfold CAPACITY; lia|].
  destruct (observe_cases w a chain now) as [(f & Hf & ->)| ->]; cbn [snd]; rewrite Hs.
  - destruct (N.leb_spec settle_ (now - f)); [|done]. intros _. eauto.
  - destruct (N.leb_spec settle_ (now - now)); [lia|done].
Qed.

Lemma stuck_only_after_settle_witness :
  (observe (fold_left see [ERejected 1 0 10] (NonceAheadWatch.new 15)) 1 0 25).2 = Stuck ∧
  ∃ first, stands_since [ERejected 1 0 10] 1 0 first ∧ (15 ≤ 25 - first)%N.
Proof.
  assert (Hv : (observe (fold_left see [ERejected 1 0 10] (NonceAheadWatch.new 15)) 1 0 25).2 = Stuck)
    by (by vm_compute).
  split; [done|]. by apply (stuck_only_after_settle 15 [ERejected 1 0 10] 1 0 25).
Defined.
