(* ===== verification/Resync.v ===== *)
(** * Lag detection and receipt-floor resync

    Models [crates/sequencer/src/resync/mod.rs], [resync/floor.rs],
    [resync/answers.rs] and [crates/cache/src/rollbacks.rs]: the executed-truth
    floors of the senders, the drains of the three bounded channels, and the
    enter/exit state machine of resync mode. Ticks of [Instant] are nanoseconds.
    A channel is its queue and whether the producer is gone; the order in which
    a [HashMap] yields its senders is an argument. *)
From S2P Require Import Prelude Types.

(** ** Applied rollbacks *)
Module AppliedRollbacks.
Definition CAP : nat := 64.

(** [VecDeque], oldest first. *)
Record t : Type := mk { recent : list ReceiptRollback }.

Definition contains (r : t) (id : B256) : bool :=
  existsb (λ x, (rollback_id x =? id)%N) (recent r).

Definition first_time (r : t) (rollback : ReceiptRollback) : t * bool :=
  if contains r (rollback_id rollback) then (r, false)
  else
    let kept := if (length (recent r) =? CAP)%nat then tail (recent r) else recent r in
    (mk (kept ++ [rollback]), true).

Definition newest (r : t) (n : nat) : list ReceiptRollback :=
  drop (length (recent r) - n) (recent r).
End AppliedRollbacks.

(** ** Floor evidence *)
Inductive Evidence : Type :=
| EvReceipt (block : N)
| EvLookup (generation : N).

Definition stale_at (e : Evidence) (generation : N) : bool :=
  match e with
  | EvLookup asked => (asked <? generation)%N
  | EvReceipt _ => false
  end.

Inductive Outcome : Type :=
| OutExecuted (nonce : N)
| OutSkipped (nonce : N) (reason : SkipReason)
| OutDeposit.

Record FloorUpdate : Type :=
  mkUpdate { up_sender : Address; up_outcome : Outcome; up_evidence : Evidence }.

Inductive FloorEvent : Type :=
| FUpdate (u : FloorUpdate)
| FRollback (r : ReceiptRollback).

Module Outcome.
Definition confirmed (o : Outcome) : option N :=
  match o with
  | OutExecuted n | OutSkipped n _ => Some n
  | OutDeposit => None
  end.

Definition floor (o : Outcome) : option N :=
  match o with
  | OutExecuted n => Some (u64_saturating_add n 1)
  | OutSkipped _ _ | OutDeposit => None
  end.

Definition released (o : Outcome) (floor : N) : option N :=
  match o with
  | OutSkipped nonce r =>
    if (nonce <? floor)%N then None
    else match r with
         | NonceTooLow => None
         | NonceTooHigh => Some floor
         | _ => Some nonce
         end
  | OutExecuted _ | OutDeposit => None
  end.
End Outcome.

Definition of_receipt (r : Receipt) : FloorUpdate :=
  let outcome :=
    match is_deposit r, skip_reason r with
    | true, _ => OutDeposit
    | false, Some reason =>
      if negb (burns_nonce r) then OutSkipped (rc_nonce r) reason else OutExecuted (rc_nonce r)
    | false, None => OutExecuted (rc_nonce r)
    end in
  mkUpdate (from r) outcome (EvReceipt (block_number r)).

(** ** Sealer answers *)
Record SealerRefusal : Type :=
  mkRefusal { rf_sender : Address; rf_nonce : N; rf_reason : TxErrorReason }.

Inductive SealerAnswer : Type :=
| ContiguityReject (sender : Address) (nonce expected : N)
| WindowFull (sender : Address) (nonce : N).

Record AnswerDrain : Type := mkAnswers {
  drops : list (Address * N * N);
  gaps : gmap Address N;
  window_full : list (Address * N);
}.

Definition add_reject (d : AnswerDrain) (sender : Address) (nonce expected : N) : AnswerDrain :=
  if (nonce <? expected)%N then mkAnswers (drops d ++ [(sender, nonce, expected)]) (gaps d) (window_full d)
  else mkAnswers (drops d)
         (<[sender := match gaps d !! sender with
                      | Some e => N.min e expected
                      | None => expected end]> (gaps d)) (window_full d).

(** ** Channels *)
Record Chan (A : Type) : Type := mkChan { queue : list A; closed : bool }.
Arguments mkChan {A} _ _.
Arguments queue {A} _.
Arguments closed {A} _.

(** One [try_recv] with the latch of a dead producer. *)
Definition drain_bounded_step {A} (rx : Chan A) (dead : bool) : Chan A * bool * option A :=
  match queue rx with
  | x :: q => (mkChan q (closed rx), dead, Some x)
  | [] => (rx, dead || closed rx, None)
  end.

Fixpoint drain_bounded {A} (rx : Chan A) (dead : bool) (max : nat) : Chan A * bool * list A :=
  match max with
  | O => (rx, dead, [])
  | S max' =>
    match drain_bounded_step rx dead with
    | (rx', dead', None) => (rx', dead', [])
    | (rx', dead', Some x) => let '(rx2, dead2, out) := drain_bounded rx' dead' max' in
                              (rx2, dead2, x :: out)
    end
  end.

Definition FLOOR_DRAIN_PER_ITER : nat := 1024.

(** ** Configuration *)
Record ResyncConfig : Type := mkCfg {
  dedup_capacity : N;
  enter_percent : N;
  boundary_silence_ms : N;
  publish_stall_ms : N;
  exit_hold_ms : N;
  confirm_timeout_ms : N;
  nonce_ahead_settle_ms : N;
}.

Definition DEFAULT_DEDUP_CAPACITY : N := 131072.
Definition DEFAULT_ENTER_PERCENT : N := 25.

Definition default_cfg : ResyncConfig :=
  mkCfg DEFAULT_DEDUP_CAPACITY DEFAULT_ENTER_PERCENT 10000 10000 2000 15000 15000.

Inductive ResyncConfigError : Type :=
| ThresholdOverflow (capacity percent : N)
| ThresholdTooSmall (capacity percent : N)
| CapacityNotUsize (capacity : N).

Definition cfg_enter_threshold (c : ResyncConfig) : result ResyncConfigError N :=
  product ← ok_or (u64_checked_mul (dedup_capacity c) (enter_percent c))
                  (ThresholdOverflow (dedup_capacity c) (enter_percent c));
  if (product / 100 =? 0)%N then Err (ThresholdTooSmall (dedup_capacity c) (enter_percent c))
  else Ok (product / 100)%N.

(** [usize_max]: the largest [usize] of the target. *)
Definition validate_cfg (usize_max : N) (c : ResyncConfig) : result ResyncConfigError () :=
  _ ← cfg_enter_threshold c;
  if (dedup_capacity c <=? usize_max)%N then Ok () else Err (CapacityNotUsize (dedup_capacity c)).

Definition duration_to_ms_saturating (d : Duration) : N :=
  u64_saturating_add (N.min (d / 1000000000 * 1000) u64_max) (d mod 1000000000 / 1000000).

Definition elapsed_ms_saturating (now since : Instant) : N := duration_to_ms_saturating (now - since).

(** ** The controller *)
Record SharedWatermark : Type := mkWatermark { wm_count : N; lag_gap_ms : N }.

Definition wm_store (w : SharedWatermark) (count : N) : SharedWatermark := mkWatermark count (lag_gap_ms w).
Definition flag_lag (w : SharedWatermark) (gap_ms : N) : SharedWatermark :=
  mkWatermark (wm_count w) (N.max (lag_gap_ms w) gap_ms).
Definition take_lag (w : SharedWatermark) : SharedWatermark * option N :=
  (mkWatermark (wm_count w) 0, if (lag_gap_ms w =? 0)%N then None else Some (lag_gap_ms w)).

Record Floor : Type := mkFloor { fl_nonce : N; fl_evidence : Evidence }.
Record Cut : Type := mkCut { cut_to_block : option N; cut_generation : N }.

Definition voided_by (f : Floor) (c : Cut) : bool :=
  match fl_evidence f with
  | EvReceipt block => match cut_to_block c with Some to_block => (to_block <? block)%N | None => false end
  | EvLookup _ => stale_at (fl_evidence f) (cut_generation c)
  end.

Record ReceiptDrain : Type := mkDrain {
  raised : list (Address * N);
  confirmations : list (Address * N);
  released : list (Address * N);
  forgotten : list Address;
  stale_lookups : list Address;
}.

Definition empty_drain : ReceiptDrain := mkDrain [] [] [] [] [].

Inductive EnterReason : Type :=
| Startup | WatermarkJump (gap : N) | BoundarySilence (silent_ms : N) | PublishStall (stalled_ms : N).

Module ResyncController.
Record t : Type := mk {
  cfg : ResyncConfig;
  enter_threshold : N;
  active : bool;
  floors : gmap Address Floor;
  generation : N;
  rollbacks : AppliedRollbacks.t;
  floor_rx : Chan FloorEvent;
  floor_rx_dead : bool;
  answer_rx : Chan SealerAnswer;
  answer_rx_dead : bool;
  deadline_rx : Chan SealerRefusal;
  deadline_rx_dead : bool;
  watermark : SharedWatermark;
  last_watermark : N;
  watermark_seen : bool;
  stall_since : option Instant;
  calm_since : option Instant;
}.

(** The parts of the state that one operation changes. *)
Definition with_mode (c : t) (active' : bool) (calm : option Instant) : t :=
  mk (cfg c) (enter_threshold c) active' (floors c) (generation c) (rollbacks c) (floor_rx c)
     (floor_rx_dead c) (answer_rx c) (answer_rx_dead c) (deadline_rx c) (deadline_rx_dead c)
     (watermark c) (last_watermark c) (watermark_seen c) (stall_since c) calm.
Definition with_floors (c : t) (m : gmap Address Floor) (g : N) (r : AppliedRollbacks.t) : t :=
  mk (cfg c) (enter_threshold c) (active c) m g r (floor_rx c)
     (floor_rx_dead c) (answer_rx c) (answer_rx_dead c) (deadline_rx c) (deadline_rx_dead c)
     (watermark c) (last_watermark c) (watermark_seen c) (stall_since c) (calm_since c).
Definition with_floor_rx (c : t) (rx : Chan FloorEvent) (dead : bool) : t :=
  mk (cfg c) (enter_threshold c) (active c) (floors c) (generation c) (rollbacks c) rx dead
     (answer_rx c) (answer_rx_dead c) (deadline_rx c) (deadline_rx_dead c)
     (watermark c) (last_watermark c) (watermark_seen c) (stall_since c) (calm_since c).
Definition with_answer_rx (c : t) (rx : Chan SealerAnswer) (dead : bool) : t :=
  mk (cfg c) (enter_threshold c) (active c) (floors c) (generation c) (rollbacks c) (floor_rx c)
     (floor_rx_dead c) rx dead (deadline_rx c) (deadline_rx_dead c)
     (watermark c) (last_watermark c) (watermark_seen c) (stall_since c) (calm_since c).
Definition with_deadline_rx (c : t) (rx : Chan SealerRefusal) (dead : bool) : t :=
  mk (cfg c) (enter_threshold c) (active c) (floors c) (generation c) (rollbacks c) (floor_rx c)
     (floor_rx_dead c) (answer_rx c) (answer_rx_dead c) rx dead
     (watermark c) (last_watermark c) (watermark_seen c) (stall_since c) (calm_since c).
Definition with_watermark (c : t) (w : SharedWatermark) (last : N) (seen : bool) : t :=
  mk (cfg c) (enter_threshold c) (active c) (floors c) (generation c) (rollbacks c) (floor_rx c)
     (floor_rx_dead c) (answer_rx c) (answer_rx_dead c) (deadline_rx c) (deadline_rx_dead c)
     w last seen (stall_since c) (calm_since c).
Definition with_stall (c : t) (s : option Instant) : t :=
  mk (cfg c) (enter_threshold c) (active c) (floors c) (generation c) (rollbacks c) (floor_rx c)
     (floor_rx_dead c) (answer_rx c) (answer_rx_dead c) (deadline_rx c) (deadline_rx_dead c)
     (watermark c) (last_watermark c) (watermark_seen c) s (calm_since c).

Definition enter (c : t) (reason : EnterReason) : t := with_mode c true None.

Definition new (cfg : ResyncConfig) (floor_rx : Chan FloorEvent) (answer_rx : Chan SealerAnswer)
  (deadline_rx : Chan SealerRefusal) (watermark : SharedWatermark) : result ResyncConfigError t :=
  threshold ← cfg_enter_threshold cfg;
  Ok (enter (mk cfg threshold false ∅ 0 (AppliedRollbacks.mk []) floor_rx false answer_rx false
                deadline_rx false watermark 0 false None None) Startup).

Definition floor (c : t) (sender : Address) : option N := fl_nonce <$> floors c !! sender.

(** [Break] is [false]: the channel is empty, or the event is a rollback. *)
Definition take_floor_event (c : t) (events : list FloorEvent) : t * list FloorEvent * bool :=
  match drain_bounded_step (floor_rx c) (floor_rx_dead c) with
  | (rx, dead, None) => (with_floor_rx c rx dead, events, false)
  | (rx, dead, Some event) =>
    (with_floor_rx c rx dead, events ++ [event],
     match event with FRollback _ => false | FUpdate _ => true end)
  end.

(** The [while] loop: every turn adds an event, so [FLOOR_DRAIN_PER_ITER] turns
    reach its bound. *)
Fixpoint take_floor_loop (fuel : nat) (c : t) (events : list FloorEvent) : t * list FloorEvent :=
  match fuel with
  | O => (c, events)
  | S fuel' =>
    if (length events <? FLOOR_DRAIN_PER_ITER)%nat then
      match take_floor_event c events with
      | (c', events', true) => take_floor_loop fuel' c' events'
      | (c', events', false) => (c', events')
      end
    else (c, events)
  end.

Definition take_floor_events (c : t) : t * list FloorEvent :=
  take_floor_loop (S FLOOR_DRAIN_PER_ITER) c [].

(** [order]: the order [extract_if] visits the senders of the map in. *)
Definition roll_back (order : list Address) (c : t) (d : ReceiptDrain) (rollback : ReceiptRollback)
  : t * ReceiptDrain :=
  let generation' := u64_saturating_add (generation c) 1 in
  let '(rollbacks', new_) := AppliedRollbacks.first_time (rollbacks c) rollback in
  let cut := mkCut (if new_ : bool then Some (to_block rollback) else None) generation' in
  let voided := filter (λ a, match floors c !! a with
                             | Some f => voided_by f cut | None => false end = true) order in
  (with_floors c (filter (λ e, voided_by e.2 cut = false) (floors c)) generation' rollbacks',
   mkDrain (raised d) (confirmations d) (released d) (forgotten d ++ voided) (stale_lookups d)).

Definition fold_floor_update (c : t) (d : ReceiptDrain) (u : FloorUpdate) : t * ReceiptDrain :=
  if stale_at (up_evidence u) (generation c) then
    (c, mkDrain (raised d) (confirmations d) (released d) (forgotten d) (stale_lookups d ++ [up_sender u]))
  else match Outcome.confirmed (up_outcome u) with
  | None => (c, d)
  | Some nonce =>
    let confirmations' := confirmations d ++ [(up_sender u, nonce)] in
    let released' :=
      match Outcome.released (up_outcome u) (default 0%N (floor c (up_sender u))) with
      | Some chain => released d ++ [(up_sender u, chain)]
      | None => released d
      end in
    match Outcome.floor (up_outcome u) with
    | None => (c, mkDrain (raised d) confirmations' released' (forgotten d) (stale_lookups d))
    | Some fl =>
      let e := default (mkFloor 0 (up_evidence u)) (floors c !! up_sender u) in
      if (fl_nonce e <? fl)%N then
        (with_floors c (<[up_sender u := mkFloor fl (up_evidence u)]> (floors c)) (generation c) (rollbacks c),
         mkDrain (raised d ++ [(up_sender u, fl)]) confirmations' released' (forgotten d) (stale_lookups d))
      else
        (with_floors c (<[up_sender u := e]> (floors c)) (generation c) (rollbacks c),
         mkDrain (raised d) confirmations' released' (forgotten d) (stale_lookups d))
    end
  end.

Definition fold_event (order : list Address) (acc : t * ReceiptDrain) (event : FloorEvent)
  : t * ReceiptDrain :=
  match event with
  | FUpdate u => fold_floor_update acc.1 acc.2 u
  | FRollback r => roll_back order acc.1 acc.2 r
  end.

Definition drain_floor_updates (order : list Address) (c : t) : t * ReceiptDrain :=
  let '(c', events) := take_floor_events c in
  fold_left (fold_event order) events (c', empty_drain).

Definition drain_deadline_rejects (c : t) : t * list SealerRefusal :=
  let '(rx, dead, out) := drain_bounded (deadline_rx c) (deadline_rx_dead c) FLOOR_DRAIN_PER_ITER in
  (with_deadline_rx c rx dead, out).

Definition fold_answer (c : t) (d : AnswerDrain) (answer : SealerAnswer) : AnswerDrain :=
  match answer with
  | ContiguityReject sender nonce expected =>
    add_reject d sender nonce (N.max (default 0%N (floor c sender)) expected)
  | WindowFull sender nonce => mkAnswers (drops d) (gaps d) (window_full d ++ [(sender, nonce)])
  end.

Definition drain_answers (c : t) : t * AnswerDrain :=
  let '(rx, dead, out) := drain_bounded (answer_rx c) (answer_rx_dead c) FLOOR_DRAIN_PER_ITER in
  let c' := with_answer_rx c rx dead in
  (c', fold_left (fold_answer c') out (mkAnswers [] ∅ [])).

Definition check_watermark_jump (c : t) (jump : N) : t :=
  if watermark_seen c && (enter_threshold c <=? jump)%N then enter c (WatermarkJump jump) else c.

Definition observe_watermark_change (c : t) (w : N) : t :=
  let c1 := if (last_watermark c <=? w)%N then check_watermark_jump c (w - last_watermark c) else c in
  with_watermark c1 (watermark c1) w true.

Definition maybe_exit (c : t) (now : Instant) : t :=
  if negb (active c) then c
  else if negb (watermark_seen c && bool_decide (stall_since c = None)) then with_mode c (active c) None
  else
    let since := default now (calm_since c) in
    if (exit_hold_ms (cfg c) <=? elapsed_ms_saturating now since)%N
    then with_mode c false None else with_mode c (active c) (Some since).

Definition observe (c : t) (now : Instant) : t :=
  let w := wm_count (watermark c) in
  let '(wm, lag) := take_lag (watermark c) in
  let c1 := with_watermark c wm (last_watermark c) (watermark_seen c) in
  let c2 := match lag with Some gap_ms => enter c1 (BoundarySilence gap_ms) | None => c1 end in
  let c3 := if negb (w =? last_watermark c2)%N then observe_watermark_change c2 w else c2 in
  maybe_exit c3 now.

Definition note_publish_stall (c : t) (now : Instant) : t :=
  let since := default now (stall_since c) in
  let c1 := with_stall c (Some since) in
  let stalled_ms := elapsed_ms_saturating now since in
  if (publish_stall_ms (cfg c) <=? stalled_ms)%N
  then with_stall (enter c1 (PublishStall stalled_ms)) (Some now) else c1.

Definition note_publish_ok (c : t) : t := with_stall c None.
End ResyncController.
