(* ===== verification/State.v ===== *)
(** * Per-partition nonce-check state machine

    Models [crates/sequencer/src/state/mod.rs]: [PartitionState], the state
    machine that turns the envelopes of a partition into the canonical publish
    order of each sender. [Instant::now()] is an argument of the operations
    that read the clock; a function that iterates a [HashMap] takes the order
    of iteration as an argument. *)
From S2P Require Import Prelude Pending.

(** One parked entry's expiry; the heap orders it by [at_], then sender, then
    nonce (the derived [Ord] of the struct). *)
Record ParkedDeadline : Type := mkParked { at_ : Instant; pd_sender : Address; pd_nonce : N }.

Definition parked_key (d : ParkedDeadline) : N * (N * N) := (at_ d, (pd_sender d, pd_nonce d)).

(** [BinaryHeap<Reverse<ParkedDeadline>>]: a priority queue, kept as the list
    of its entries in pop order. *)
Fixpoint heap_push (d : ParkedDeadline) (h : list ParkedDeadline) : list ParkedDeadline :=
  match h with
  | [] => [d]
  | e :: h' => if decide (key_le (parked_key d) (parked_key e)) then d :: h
               else e :: heap_push d h'
  end.

Module PartitionState.
Section state.
Context {T : Type}.

Inductive ProcessAction : Type :=
| Publish (nonce : N) (payload : T)
| ReportDuplicate (nonce : N) (expected_nonce : N).

Inductive NonceOutcome : Type :=
| Matched
| Buffered
| BufferedEvicting (evicted_nonce : N) (evicted : T)
| RejectedTooFar (nonce : N)
| BufferedReplaced
| BufferedDisabled
| Past
| Reoffered.

Record ProcessResult : Type := mkResult { actions : list ProcessAction; outcome : NonceOutcome }.

Record FreedNonce : Type :=
  mkFreed { freed_sender : Address; freed_nonce : N; later : list (N * T) }.

Record t : Type := mk {
  max_pending_per_sender : nat;
  tx_ttl : Duration;
  next : gmap Address N;
  pending : gmap Address (PendingBuffer.t T);
  deadlines : list ParkedDeadline;
  refused : gmap Address (gset N);
}.

Definition with_next (s : t) (m : gmap Address N) : t :=
  mk (max_pending_per_sender s) (tx_ttl s) m (pending s) (deadlines s) (refused s).
Definition with_pending (s : t) (m : gmap Address (PendingBuffer.t T)) : t :=
  mk (max_pending_per_sender s) (tx_ttl s) (next s) m (deadlines s) (refused s).
Definition with_deadlines (s : t) (h : list ParkedDeadline) : t :=
  mk (max_pending_per_sender s) (tx_ttl s) (next s) (pending s) h (refused s).
Definition with_refused (s : t) (m : gmap Address (gset N)) : t :=
  mk (max_pending_per_sender s) (tx_ttl s) (next s) (pending s) (deadlines s) m.

Definition new (max_pending_per_sender : nat) (tx_ttl : Duration) : t :=
  mk max_pending_per_sender tx_ttl ∅ ∅ [] ∅.

Definition next_nonce (s : t) (sender : Address) : N := default 0%N (next s !! sender).

Definition next_nonce_known (s : t) (sender : Address) : option N := next s !! sender.

Definition refs_below_floor (s : t) : nat :=
  sum_list ((λ e, PendingBuffer.count_below e.2 (next_nonce s e.1)) <$> map_to_list (pending s)).

Definition seed_next_nonce (s : t) (sender : Address) (n : N) : t :=
  with_next s (<[sender := n]> (next s)).

(** [self.pending.entry(sender).or_insert_with(..)]. *)
Definition buffer_of (s : t) (sender : Address) : PendingBuffer.t T :=
  default (PendingBuffer.new (max_pending_per_sender s)) (pending s !! sender).

Definition is_refused (s : t) (sender : Address) (nonce : N) : bool :=
  match refused s !! sender with
  | Some marks => bool_decide (nonce ∈ marks)
  | None => false
  end.

Definition park (s : t) (now : Instant) (sender : Address) (nonce : N) (payload : T)
  : t * NonceOutcome :=
  let deadline := (now + tx_ttl s)%N in
  let '(buf, o) := PendingBuffer.insert (buffer_of s sender) nonce payload deadline in
  let '(out, parked) :=
    match o with
    | PendingBuffer.Inserted => (Buffered, true)
    | PendingBuffer.Replaced => (BufferedReplaced, true)
    | PendingBuffer.EvictedFuture m e => (BufferedEvicting m e, true)
    | PendingBuffer.RejectedTooFar m => (RejectedTooFar m, false)
    | PendingBuffer.DroppedBufferDisabled => (BufferedDisabled, false)
    end in
  let s' := with_pending s (<[sender := buf]> (pending s)) in
  (if parked : bool then with_deadlines s' (heap_push (mkParked deadline sender nonce) (deadlines s'))
   else s', out).

(** The nonce past the last drained one, [from] when nothing drained. *)
Definition advanced_past (from : N) (items : list (N * T)) : N :=
  match last items with
  | Some (n, _) => u64_saturating_add n 1
  | None => from
  end.

Definition drain_consecutive_into (s : t) (sender : Address) (from : N) (acts : list ProcessAction)
  : t * list ProcessAction * N :=
  match pending s !! sender with
  | None => (s, acts, from)
  | Some buf =>
    let '(buf', items) := PendingBuffer.drain buf from in
    (with_pending s (<[sender := buf']> (pending s)),
     acts ++ ((λ e, Publish e.1 e.2) <$> items), advanced_past from items)
  end.

Definition process_at (s : t) (now : Instant) (sender : Address) (nonce : N) (payload : T)
  : t * ProcessResult :=
  let expected := next_nonce s sender in
  if (nonce <? expected)%N && is_refused s sender nonce then
    (s, mkResult [Publish nonce payload] Reoffered)
  else if (nonce <? expected)%N then
    (s, mkResult [ReportDuplicate nonce expected] Past)
  else if (expected <? nonce)%N then
    let '(s', out) := park s now sender nonce payload in (s', mkResult [] out)
  else
    let '(s1, first) :=
      match pending s !! sender with
      | None => (s, None)
      | Some buf => let '(buf', v) := PendingBuffer.remove buf nonce in
                    (with_pending s (<[sender := buf']> (pending s)), v)
      end in
    let '(s2, acts, advanced) :=
      drain_consecutive_into s1 sender (u64_saturating_add nonce 1)
        [Publish nonce (default payload first)] in
    (with_next s2 (<[sender := advanced]> (next s2)), mkResult acts Matched).

Definition rewind_floor (s : t) (sender : Address) (nonce : N) : t * PendingBuffer.t T :=
  let floor := match next_nonce_known s sender with
               | Some n => N.min n nonce
               | None => nonce end in
  (with_next s (<[sender := floor]> (next s)), buffer_of s sender).

Definition reinsert_for_retry (s : t) (sender : Address) (nonce : N) (payload : T) : t :=
  let '(s', buf) := rewind_floor s sender nonce in
  with_pending s' (<[sender := PendingBuffer.reinsert buf nonce payload None]> (pending s')).

Definition trim_refused (s : t) (sender : Address) (keep : N → bool) : t :=
  match refused s !! sender with
  | None => s
  | Some marks =>
    let kept := filter (λ n, keep n = true) marks in
    if decide (kept = ∅) then with_refused s (delete sender (refused s))
    else with_refused s (<[sender := kept]> (refused s))
  end.

Definition free_nonce (s : t) (now : Instant) (freed : FreedNonce) : t :=
  let sender := freed_sender freed in
  let nonce := freed_nonce freed in
  let s0 := trim_refused s sender (λ n, (n <? nonce)%N) in
  let at' := (now + tx_ttl s0)%N in
  let '(s1, buf) := rewind_floor s0 sender nonce in
  let buf' := fold_left (λ b e, PendingBuffer.reinsert b e.1 e.2 (Some at')) (later freed) buf in
  let heap := fold_left (λ h e, heap_push (mkParked at' sender e.1) h) (later freed) (deadlines s1) in
  with_deadlines (with_pending s1 (<[sender := buf']> (pending s1))) heap.

Definition mark_refused (s : t) (sender : Address) (nonce : N) : t :=
  if (nonce <? next_nonce s sender)%N then
    with_refused s (<[sender := {[ nonce ]} ∪ default ∅ (refused s !! sender)]> (refused s))
  else s.

Definition clear_refused (s : t) (sender : Address) (nonce : N) : t :=
  trim_refused s sender (λ n, negb (n =? nonce)%N).

Definition holds (s : t) (sender : Address) (nonce : N) : bool :=
  match pending s !! sender with
  | Some buf => PendingBuffer.contains buf nonce
  | None => false
  end.

Definition take_parked (s : t) (sender : Address) (nonce : N) (named : T → bool)
  : t * option T :=
  match pending s !! sender with
  | None => (s, None)
  | Some buf => let '(buf', v) := PendingBuffer.take_parked buf nonce named in
                (with_pending s (<[sender := buf']> (pending s)), v)
  end.

Definition pop_due (s : t) (now : Instant) : t * option ParkedDeadline :=
  match deadlines s with
  | [] => (s, None)
  | head :: rest => if (at_ head <=? now)%N then (with_deadlines s rest, Some head) else (s, None)
  end.

Definition expire_parked (s : t) (d : ParkedDeadline) : t * option (Address * N * T) :=
  if (pd_nonce d <=? next_nonce s (pd_sender d))%N then (s, None)
  else match pending s !! pd_sender d with
       | None => (s, None)
       | Some buf =>
         let '(buf', v) := PendingBuffer.expire buf (pd_nonce d) (at_ d) in
         (with_pending s (<[pd_sender d := buf']> (pending s)),
          (λ p, (pd_sender d, pd_nonce d, p)) <$> v)
       end.

(** [from_fn(pop_due, expire_parked).flatten().take(max)]: every pull pops one
    heap entry, so the length of the heap bounds the pulls. *)
Fixpoint sweep_loop (fuel : nat) (s : t) (now : Instant) (max : nat)
  : t * list (Address * N * T) :=
  match fuel, max with
  | O, _ | _, O => (s, [])
  | S fuel', S max' =>
    match pop_due s now with
    | (s1, None) => (s1, [])
    | (s1, Some d) =>
      match expire_parked s1 d with
      | (s2, None) => sweep_loop fuel' s2 now max
      | (s2, Some e) => let '(s3, es) := sweep_loop fuel' s2 now max' in (s3, e :: es)
      end
    end
  end.

Definition sweep_expired (s : t) (now : Instant) (max : nat) : t * list (Address * N * T) :=
  sweep_loop (length (deadlines s)) s now max.

Definition u32_saturating_add (a b : N) : N := N.min (a + b) u32_max.

Definition pending_depth_by (s : t) (order : list Address) (bucket : Address → N) : list N :=
  fold_left (λ depth sender,
    match pending s !! sender with
    | None => depth
    | Some buf =>
      alter (λ d, u32_saturating_add d
               (default u32_max (u32_try_from (N.of_nat (PendingBuffer.len buf)))))
            (N.to_nat (bucket sender)) depth
    end) order (replicate 256 0%N).

Definition drain_sender_run (buf : PendingBuffer.t T) (sender : Address) (expected : N)
  (out : list (Address * N * T)) : PendingBuffer.t T * list (Address * N * T) * option N :=
  let '(buf', items) := PendingBuffer.drain buf expected in
  (buf', out ++ ((λ e, (sender, e.1, e.2)) <$> items),
   (λ e, u64_saturating_add e.1 1) <$> last items).

Definition drain_one_sender (acc : t * list (Address * N * T)) (sender : Address)
  : t * list (Address * N * T) :=
  let '(s, out) := acc in
  match pending s !! sender with
  | None => (s, out)
  | Some buf =>
    let '(buf', out', advanced) := drain_sender_run buf sender (next_nonce s sender) out in
    let s1 := with_pending s (<[sender := buf']> (pending s)) in
    (match advanced with
     | Some n => with_next s1 (<[sender := n]> (next s1))
     | None => s1
     end, out')
  end.

(** [order]: the order the [HashMap] yields its senders in. *)
Definition drain_pending (s : t) (order : list Address) : t * list (Address * N * T) :=
  fold_left drain_one_sender order (s, []).

Definition advance_floor (s : t) (sender : Address) (floor : N)
  : t * option (N * list (N * T)) :=
  let cur := next_nonce s sender in
  if (floor <=? cur)%N then (s, None)
  else
    let '(s1, dropped) :=
      match pending s !! sender with
      | None => (s, [])
      | Some buf => let '(buf', d) := PendingBuffer.drop_below buf floor in
                    (with_pending s (<[sender := buf']> (pending s)), d)
      end in
    let s2 := with_next s1 (<[sender := floor]> (next s1)) in
    (trim_refused s2 sender (λ n, (floor <=? n)%N), Some (cur, dropped)).

Definition release_floor (s : t) (sender : Address) (chain : N) : t * option N :=
  match next_nonce_known s sender with
  | Some cur =>
    if (chain <? cur)%N then
      (trim_refused (with_next s (<[sender := chain]> (next s))) sender (λ n, (n <? chain)%N),
       Some cur)
    else (s, None)
  | None => (s, None)
  end.

Definition forget_floor (s : t) (sender : Address) : t * option N :=
  (with_next s (delete sender (next s)), next s !! sender).
End state.
Arguments ProcessAction : clear implicits.
Arguments NonceOutcome : clear implicits.
Arguments ProcessResult : clear implicits.
Arguments FreedNonce : clear implicits.
Arguments t : clear implicits.
End PartitionState.
