(* ===== verification/StateFacts.v ===== *)
(** * Invariants and publish order of the nonce state machine

    The well-formedness invariant of [PartitionState.t], that every operation
    preserves it, and the lemmas on what each operation publishes. *)
From S2P Require Import Prelude Pending State.
Import PartitionState.

Section facts.
Context {T : Type}.
Implicit Types (s : PartitionState.t T) (a : Address) (n k : N) (p : T).

(** ** The floor invariant

    No buffered ref sits below the floor of its sender. Every floor is a [u64],
    and every buffered nonce is below [u64::MAX] (a transaction nonce never
    reaches [u64::MAX], EIP-2681). *)
Record wf s : Prop := {
  wf_next : ∀ a n, next s !! a = Some n → (n ≤ u64_max)%N;
  wf_keys : ∀ a buf k, pending s !! a = Some buf →
    is_Some (PendingBuffer.inner buf !! k) → (k < u64_max)%N;
  wf_floor : ∀ a buf k, pending s !! a = Some buf →
    is_Some (PendingBuffer.inner buf !! k) → (next_nonce s a ≤ k)%N;
}.

(** The slot of [a] at [k], if one is buffered. *)
Definition slot_of s a k : option (PendingBuffer.Slot T) :=
  buf ← pending s !! a; PendingBuffer.inner buf !! k.

Lemma slot_of_Some s a buf : pending s !! a = Some buf →
  ∀ k, slot_of s a k = PendingBuffer.inner buf !! k.
Proof. intros H k. unfold slot_of. by rewrite H. Qed.

Lemma wf_slot s : wf s ↔
  (∀ a, (next_nonce s a ≤ u64_max)%N) ∧
  (∀ a k, is_Some (slot_of s a k) → (next_nonce s a ≤ k < u64_max)%N).
Proof.
  split.
  - intros [Hn Hk Hf]. split.
    + intros a. unfold next_nonce. destruct (next s !! a) eqn:E; cbn; [eauto | unfold u64_max; lia].
    + intros a k. unfold slot_of. destruct (pending s !! a) as [buf|] eqn:E; cbn; [|by intros []].
      intros Hs. split; eauto.
  - intros [Hn Hs]. split.
    + intros a n E. specialize (Hn a). unfold next_nonce in Hn. by rewrite E in Hn.
    + intros a buf k E Hk. apply (Hs a). by rewrite (slot_of_Some _ _ _ E).
    + intros a buf k E Hk. apply (Hs a). by rewrite (slot_of_Some _ _ _ E).
Qed.

(** [refs_below_floor] counts exactly the violations of the floor rule. *)
Lemma count_below_zero (b : PendingBuffer.t T) (floor : N) :
  PendingBuffer.count_below b floor = 0 ↔
  ∀ k, is_Some (PendingBuffer.inner b !! k) → (floor ≤ k)%N.
Proof.
  unfold PendingBuffer.count_below. rewrite length_zero_iff_nil. split.
  - intros Hf k [sl Hk]. apply N.nlt_ge. intros Hlt.
    assert (Hin : (k, sl) ∈ filter (λ e, (e.1 < floor)%N) (btree_list (PendingBuffer.inner b)))
      by (rewrite list_elem_of_filter, elem_of_btree_list; done).
    rewrite Hf in Hin. set_solver.
  - intros Hk. apply elem_of_nil_inv. intros [k sl] [Hlt Hin%elem_of_btree_list]%list_elem_of_filter.
    assert (floor ≤ k)%N by eauto. cbn in Hlt. lia.
Qed.

Lemma sum_list_zero (l : list nat) : sum_list l = 0 ↔ ∀ x, x ∈ l → x = 0.
Proof.
  induction l as [|x l IH]; cbn; [set_solver|].
  rewrite Nat.eq_add_0, IH. set_solver.
Qed.

Lemma refs_below_floor_zero s :
  refs_below_floor s = 0 ↔ ∀ a k, is_Some (slot_of s a k) → (next_nonce s a ≤ k)%N.
Proof.
  unfold refs_below_floor. rewrite sum_list_zero. split.
  - intros Hz a k. unfold slot_of. destruct (pending s !! a) as [buf|] eqn:E; [|by intros []].
    cbn. apply count_below_zero. apply Hz, list_elem_of_fmap.
    exists (a, buf). by rewrite elem_of_map_to_list.
  - intros Hs x ([a buf] & -> & Hin%elem_of_map_to_list)%list_elem_of_fmap.
    apply count_below_zero. intros k Hk. apply Hs. by rewrite (slot_of_Some _ _ _ Hin).
Qed.

(** ** What the setters leave visible *)
Lemma next_nonce_insert s a n b :
  next_nonce (with_next s (<[a := n]> (next s))) b = if decide (a = b) then n else next_nonce s b.
Proof. unfold next_nonce; cbn. rewrite lookup_insert. by case_decide. Qed.

Lemma slot_of_insert s a buf b k :
  slot_of (with_pending s (<[a := buf]> (pending s))) b k =
  if decide (a = b) then PendingBuffer.inner buf !! k else slot_of s b k.
Proof. unfold slot_of; cbn. rewrite lookup_insert. by case_decide. Qed.

Lemma slot_of_deadlines s h a k : slot_of (with_deadlines s h) a k = slot_of s a k.
Proof. done. Qed.

Lemma slot_of_next s m a k : slot_of (with_next s m) a k = slot_of s a k.
Proof. done. Qed.

Lemma slot_of_buffer_of s a k : PendingBuffer.inner (buffer_of s a) !! k = slot_of s a k.
Proof. unfold buffer_of, slot_of. destruct (pending s !! a); cbn; [done | apply lookup_empty]. Qed.

Lemma next_trim_refused s a keep : next (trim_refused s a keep) = next s.
Proof. unfold trim_refused. destruct (refused s !! a); [case_decide|]; done. Qed.

Lemma pending_trim_refused s a keep : pending (trim_refused s a keep) = pending s.
Proof. unfold trim_refused. destruct (refused s !! a); [case_decide|]; done. Qed.

Lemma next_nonce_trim s a keep b : next_nonce (trim_refused s a keep) b = next_nonce s b.
Proof. unfold next_nonce. by rewrite next_trim_refused. Qed.

Lemma slot_of_trim s a keep b k : slot_of (trim_refused s a keep) b k = slot_of s b k.
Proof. unfold slot_of. by rewrite pending_trim_refused. Qed.

Lemma is_refused_trim s a keep b n :
  is_refused (trim_refused s a keep) b n =
  is_refused s b n && (if decide (a = b) then keep n else true).
Proof.
  unfold is_refused, trim_refused.
  destruct (refused s !! a) as [marks|] eqn:E.
  2:{ case_decide; subst; rewrite ?E; cbn; [done|]. by rewrite andb_true_r. }
  destruct (decide (a = b)) as [<-|Hne].
  - rewrite E. case_decide as Hk; cbn.
    + rewrite lookup_delete_eq. destruct (keep n) eqn:K; [|by rewrite andb_false_r].
      rewrite andb_true_r. symmetry. apply bool_decide_eq_false. intros Hin.
      assert (n ∈ (∅ : gset N)) by (rewrite <-Hk, elem_of_filter; done). set_solver.
    + rewrite lookup_insert_eq. destruct (keep n) eqn:K.
      * rewrite andb_true_r. apply bool_decide_ext. rewrite elem_of_filter. naive_solver.
      * rewrite andb_false_r. apply bool_decide_eq_false. rewrite elem_of_filter. intros []; congruence.
  - case_decide; cbn; [rewrite lookup_delete_ne by done | rewrite lookup_insert_ne by done];
      by rewrite andb_true_r.
Qed.
End facts.

#[export] Hint Rewrite @next_nonce_insert @slot_of_insert @slot_of_buffer_of @next_nonce_trim
  @slot_of_trim @is_refused_trim : pstate.

Section publish.
Context {T : Type}.
Implicit Types (s : PartitionState.t T) (a b : Address) (n k : N) (p : T).

Lemma advanced_past_run (from : N) (items : list (N * T)) :
  items.*1 = nseq from (length items) → (from + N.of_nat (length items) ≤ u64_max)%N →
  advanced_past from items = (from + N.of_nat (length items))%N.
Proof.
  intros Hn Hb. unfold advanced_past. destruct items as [|[k v] items _] using rev_ind; [cbn; lia|].
  rewrite last_snoc. rewrite length_app in *; cbn in *.
  rewrite fmap_app, nseq_app in Hn. cbn in Hn. apply app_inj_2 in Hn as [_ [= ->]]; [|done].
  unfold u64_saturating_add. lia.
Qed.

(** From [s] to [s'], sender [a] publishes the run [items]: the nonces are dense
    from its floor, the floor ends past them, and they leave the buffer. The run
    [[]] says that nothing of [a] changes. *)
Record run_of s s' a (items : list (N * T)) : Prop := {
  run_nonces : items.*1 = nseq (next_nonce s a) (length items);
  run_next : next_nonce s' a = (next_nonce s a + N.of_nat (length items))%N;
  run_rest : ∀ k, k ∉ items.*1 → slot_of s' a k = slot_of s a k;
  run_gone : ∀ k, k ∈ items.*1 → slot_of s' a k = None;
  run_bound : (next_nonce s' a ≤ u64_max)%N;
}.

Lemma run_of_nil s s' a :
  (next_nonce s a ≤ u64_max)%N → next_nonce s' a = next_nonce s a →
  (∀ k, slot_of s' a k = slot_of s a k) → run_of s s' a [].
Proof. intros Hb Hn Hs. split; cbn; rewrite ?N.add_0_r; auto; [set_solver | congruence]. Qed.

Lemma run_of_trans s1 s2 s3 a i1 i2 :
  run_of s1 s2 a i1 → run_of s2 s3 a i2 → run_of s1 s3 a (i1 ++ i2).
Proof.
  intros [N1 F1 R1 G1 B1] [N2 F2 R2 G2 B2]. split.
  - by rewrite fmap_app, length_app, nseq_app, N1, N2, F1.
  - rewrite F2, F1, length_app. lia.
  - intros k Hk. rewrite fmap_app in Hk. rewrite R2, R1 by set_solver. done.
  - intros k Hk. rewrite fmap_app, elem_of_app in Hk.
    destruct (decide (k ∈ i2.*1)) as [|Hn]; [auto|]. rewrite R2 by done. apply G1. tauto.
  - done.
Qed.

Lemma run_of_wf s s' :
  wf s → (∀ a, ∃ items, run_of s s' a items) → wf s'.
Proof.
  intros Hwf Hrun. apply wf_slot. split; intros a; destruct (Hrun a) as [items Hr].
  - apply Hr.
  - intros k Hk. destruct (decide (k ∈ items.*1)) as [Hin|Hin].
    { rewrite (run_gone _ _ _ _ Hr) in Hk by done. by destruct Hk. }
    rewrite (run_rest _ _ _ _ Hr) in Hk by done.
    apply wf_slot in Hwf as [_ Hwf]. specialize (Hwf _ _ Hk).
    rewrite (run_nonces _ _ _ _ Hr), elem_of_nseq in Hin.
    rewrite (run_next _ _ _ _ Hr). lia.
Qed.

(** The drain of one buffer, when no nonce is [u64::MAX]. *)
Lemma drain_clean (buf : PendingBuffer.t T) start :
  (start ≤ u64_max)%N →
  (∀ k, is_Some (PendingBuffer.inner buf !! k) → (k < u64_max)%N) →
  let '(buf', items) := PendingBuffer.drain buf start in
  items.*1 = nseq start (length items) ∧
  (start + N.of_nat (length items) ≤ u64_max)%N ∧
  (∀ k v, (k, v) ∈ items → PendingBuffer.value <$> PendingBuffer.inner buf !! k = Some v) ∧
  PendingBuffer.inner buf' !! (start + N.of_nat (length items))%N = None ∧
  (∀ k, k ∉ items.*1 → PendingBuffer.inner buf' !! k = PendingBuffer.inner buf !! k) ∧
  (∀ k, k ∈ items.*1 → PendingBuffer.inner buf' !! k = None) ∧
  PendingBuffer.capacity buf' = PendingBuffer.capacity buf.
Proof.
  intros Hu Hk. pose proof (drain_run buf start Hu) as Hr.
  destruct (PendingBuffer.drain buf start) as [buf' items]; cbn in Hr.
  destruct Hr as [Hc Hn Hv Hst Hb Hr Hg Hm].
  repeat split; auto. intros k Hin.
  destruct (decide (k = u64_max)) as [->|Hne]; [|auto].
  assert (Hnone : PendingBuffer.inner buf !! u64_max = None).
  { apply eq_None_not_Some. intros Hs%Hk. lia. }
  destruct Hm as [Hm|[_ Hm]]; congruence.
Qed.

Lemma wf_next_nonce s a : wf s → (next_nonce s a ≤ u64_max)%N.
Proof. intros [H _]%wf_slot. apply H. Qed.

Lemma wf_slots s a k : wf s → is_Some (slot_of s a k) → (next_nonce s a ≤ k < u64_max)%N.
Proof. intros [_ H]%wf_slot. apply H. Qed.

(** [drain_one_sender] publishes the run at the floor of one sender. *)
Lemma drain_one_sender_run s out a :
  wf s →
  ∃ s' items, drain_one_sender (s, out) a = (s', out ++ ((λ e, (a, e.1, e.2)) <$> items)) ∧
    run_of s s' a items ∧ (∀ b, a ≠ b → run_of s s' b []) ∧
    slot_of s' a (next_nonce s' a) = None ∧
    (∀ k v, (k, v) ∈ items → PendingBuffer.value <$> slot_of s a k = Some v).
Proof.
  intros Hwf. unfold drain_one_sender.
  destruct (pending s !! a) as [buf|] eqn:E.
  2:{ exists s, []. cbn. rewrite app_nil_r. split; [done|].
      assert (Hs : ∀ k, slot_of s a k = None) by (intros; unfold slot_of; by rewrite E).
      pose proof (wf_next_nonce s) as Hnx.
      split; [by apply run_of_nil; auto|]. split; [intros; by apply run_of_nil; auto|].
      split; [done | set_solver]. }
  unfold drain_sender_run.
  pose proof (drain_clean buf (next_nonce s a) (wf_next_nonce _ _ Hwf)) as Hd.
  destruct (PendingBuffer.drain buf (next_nonce s a)) as [buf' items].
  destruct Hd as (Hn & Hb & Hv & Hst & Hr & Hg & _).
  { intros k Hk. apply (wf_slots s a); [done|]. by rewrite (slot_of_Some _ _ _ E). }
  set (s1 := with_pending s (<[a := buf']> (pending s))).
  assert (Hadv : match (λ e : N * T, u64_saturating_add e.1 1) <$> last items with
                 | Some n => with_next s1 (<[a := n]> (next s1)) | None => s1 end =
                 if decide (items = []) then s1
                 else with_next s1 (<[a := (next_nonce s a + N.of_nat (length items))%N]> (next s1))).
  { rewrite <-(advanced_past_run _ _ Hn Hb). unfold advanced_past.
    case_decide as Hnil; [by subst|].
    destruct (last items) as [[k v]|] eqn:El; [done|]. by rewrite last_None in El. }
  eexists _, items. split; [by rewrite Hadv|].
  assert (Hnext : ∀ b, next_nonce (if decide (items = []) then s1 else
    with_next s1 (<[a := (next_nonce s a + N.of_nat (length items))%N]> (next s1))) b =
    if decide (a = b) then (next_nonce s a + N.of_nat (length items))%N else next_nonce s b).
  { intros b. case_decide as Hnil; [subst; cbn; case_decide; subst; rewrite ?N.add_0_r; done|].
    by rewrite next_nonce_insert. }
  assert (Hslot : ∀ b k, slot_of (if decide (items = []) then s1 else
    with_next s1 (<[a := (next_nonce s a + N.of_nat (length items))%N]> (next s1))) b k =
    if decide (a = b) then PendingBuffer.inner buf' !! k else slot_of s b k).
  { intros b k. case_decide; unfold s1; apply slot_of_insert. }
  split; [split|split; [|split]].
  - done.
  - by rewrite Hnext, decide_True.
  - intros k Hk. rewrite Hslot, decide_True by done. rewrite (slot_of_Some _ _ _ E). auto.
  - intros k Hk. rewrite Hslot, decide_True by done. auto.
  - by rewrite Hnext, decide_True.
  - intros b Hne. apply run_of_nil; [by apply wf_next_nonce | |]; intros;
      by rewrite ?Hnext, ?Hslot, decide_False.
  - by rewrite Hslot, Hnext, !decide_True.
  - intros k v Hin. rewrite (slot_of_Some _ _ _ E). auto.
Qed.

(** The refs of [b] in a drained batch, in order. *)
Definition of_sender (b : Address) (out : list (Address * N * T)) : list (N * T) :=
  (λ e, (e.1.2, e.2)) <$> filter (λ e, e.1.1 = b) out.

Lemma of_sender_app b o1 o2 : of_sender b (o1 ++ o2) = of_sender b o1 ++ of_sender b o2.
Proof. unfold of_sender. by rewrite filter_app, fmap_app. Qed.

Lemma of_sender_tag a b (items : list (N * T)) :
  of_sender b ((λ e, (a, e.1, e.2)) <$> items) = if decide (a = b) then items else [].
Proof.
  unfold of_sender. induction items as [|[k v] items IH]; [by case_decide|].
  rewrite fmap_cons, filter_cons. cbn [fst snd]. case_decide; [|done].
  rewrite fmap_cons, IH. done.
Qed.

Lemma wf_drain_one s out a : wf s → wf (drain_one_sender (s, out) a).1.
Proof.
  intros Hwf. destruct (drain_one_sender_run s out a Hwf) as (s' & items & -> & Hr & Ho & _).
  cbn. apply (run_of_wf s); [done|]. intros b.
  destruct (decide (a = b)) as [<-|]; eauto.
Qed.

Lemma drain_pending_from s out order :
  wf s →
  let '(s', out') := fold_left drain_one_sender order (s, out) in
  ∃ new, out' = out ++ new ∧ ∀ b, run_of s s' b (of_sender b new) ∧
    (b ∈ order → slot_of s' b (next_nonce s' b) = None) ∧
    (∀ k v, (k, v) ∈ of_sender b new → PendingBuffer.value <$> slot_of s b k = Some v).
Proof.
  revert s out; induction order as [|a order IH]; intros s out Hwf; cbn [fold_left].
  { exists []. rewrite app_nil_r. split; [done|]. intros b. split; [|set_solver].
    apply run_of_nil; auto using wf_next_nonce. }
  pose proof (wf_drain_one s out a Hwf) as Hwf1.
  destruct (drain_one_sender_run s out a Hwf) as (s1 & items & Heq & Hr & Ho & Hst & Hv).
  rewrite Heq in *. cbn [fst] in Hwf1.
  specialize (IH s1 (out ++ ((λ e, (a, e.1, e.2)) <$> items)) Hwf1).
  destruct (fold_left drain_one_sender order _) as [s' out'].
  destruct IH as (new & -> & Hnew).
  exists (((λ e, (a, e.1, e.2)) <$> items) ++ new). rewrite app_assoc. split; [done|].
  intros b. destruct (Hnew b) as (Hrun & Hstop & Hval). rewrite of_sender_app, of_sender_tag.
  assert (Hab : run_of s s1 b (if decide (a = b) then items else []))
    by (case_decide; subst; auto).
  split; [by eapply run_of_trans|]. split.
  - intros [->|Hin]%elem_of_cons; [|auto].
    assert (Hnil : of_sender a new = []).
    { destruct (of_sender a new) as [|[k v] rest] eqn:El; [done|].
      pose proof (run_nonces _ _ _ _ Hrun) as Hk. rewrite fmap_cons in Hk. cbn in Hk.
      injection Hk as -> _. specialize (Hval (next_nonce s1 a) v ltac:(set_solver)).
      by rewrite Hst in Hval. }
    rewrite Hnil in Hrun. rewrite (run_next _ _ _ _ Hrun). cbn. rewrite N.add_0_r.
    rewrite (run_rest _ _ _ _ Hrun); [done | set_solver].
  - intros k v [Hk|Hk]%elem_of_app.
    + case_decide; [subst; auto | set_solver].
    + specialize (Hval _ _ Hk).
      rewrite (run_rest _ _ _ _ Hab) in Hval; [done|].
      intros Hin. by rewrite (run_gone _ _ _ _ Hab _ Hin) in Hval.
Qed.

(** The publishes among the actions of one [process_at]. *)
Definition published (acts : list (ProcessAction T)) : list (N * T) :=
  omap (λ x, match x with Publish n p => Some (n, p) | ReportDuplicate _ _ => None end) acts.

Lemma published_map (items : list (N * T)) :
  published ((λ e, Publish e.1 e.2) <$> items) = items.
Proof. induction items as [|[n p] items IH]; cbn; [done | by f_equal]. Qed.

Lemma published_app l1 l2 : published (l1 ++ l2) = published l1 ++ published l2.
Proof. apply omap_app. Qed.

(** The drain behind a matched nonce. *)
Lemma drain_into_run s a from acts :
  wf s → (from ≤ u64_max)%N → (next_nonce s a ≤ from)%N →
  ∃ s' items, drain_consecutive_into s a from acts =
      (s', acts ++ ((λ e, Publish e.1 e.2) <$> items), (from + N.of_nat (length items))%N) ∧
    items.*1 = nseq from (length items) ∧ (from + N.of_nat (length items) ≤ u64_max)%N ∧
    next s' = next s ∧
    (∀ k v, (k, v) ∈ items → PendingBuffer.value <$> slot_of s a k = Some v) ∧
    slot_of s' a (from + N.of_nat (length items))%N = None ∧
    (∀ k, k ∉ items.*1 → slot_of s' a k = slot_of s a k) ∧
    (∀ k, k ∈ items.*1 → slot_of s' a k = None) ∧
    (∀ b k, a ≠ b → slot_of s' b k = slot_of s b k).
Proof.
  intros Hwf Hu Hf. unfold drain_consecutive_into.
  destruct (pending s !! a) as [buf|] eqn:E.
  2:{ exists s, []. cbn. rewrite app_nil_r, N.add_0_r. split; [done|].
      repeat split; auto; try set_solver. unfold slot_of. by rewrite E. }
  pose proof (drain_clean buf from Hu) as Hd.
  destruct (PendingBuffer.drain buf from) as [buf' items].
  destruct Hd as (Hn & Hb & Hv & Hst & Hr & Hg & _).
  { intros k Hk. apply (wf_slots s a); [done|]. by rewrite (slot_of_Some _ _ _ E). }
  eexists _, items. split; [by rewrite (advanced_past_run _ _ Hn Hb)|].
  assert (Hslot : ∀ b k, slot_of (with_pending s (<[a:=buf']> (pending s))) b k =
    if decide (a = b) then PendingBuffer.inner buf' !! k else slot_of s b k)
    by (intros; apply slot_of_insert).
  split; [done|]. split; [done|]. split; [done|].
  split; [intros k v Hin; rewrite (slot_of_Some _ _ _ E); auto|].
  split; [by rewrite Hslot, decide_True|].
  split; [intros k Hk; rewrite Hslot, decide_True, (slot_of_Some _ _ _ E) by done; auto|].
  split; [intros k Hk; rewrite Hslot, decide_True by done; auto|].
  intros b k Hne. by rewrite Hslot, decide_False.
Qed.

(** The [remove] before the drain: the buffered entry wins over the payload. *)
Definition remove_at s a n : PartitionState.t T * option T :=
  match pending s !! a with
  | None => (s, None)
  | Some buf => let '(buf', v) := PendingBuffer.remove buf n in
                (with_pending s (<[a := buf']> (pending s)), v)
  end.

Lemma remove_at_spec s a n :
  (remove_at s a n).2 = PendingBuffer.value <$> slot_of s a n ∧
  next (remove_at s a n).1 = next s ∧
  ∀ b k, slot_of (remove_at s a n).1 b k =
         if decide (a = b ∧ k = n) then None else slot_of s b k.
Proof.
  unfold remove_at, slot_of. destruct (pending s !! a) as [buf|] eqn:E; cbn.
  - split; [done|]. split; [done|]. intros b k. rewrite lookup_insert.
    destruct (decide (a = b)) as [<-|Hne]; cbn.
    + rewrite lookup_delete, E. repeat case_decide; naive_solver.
    + rewrite decide_False by naive_solver. done.
  - split; [done|]. split; [done|]. intros b k. case_decide as Hd; [|done].
    destruct Hd as [<- ->]. by rewrite E.
Qed.

Lemma remove_at_wf s a n : wf s → wf (remove_at s a n).1.
Proof.
  intros Hwf. destruct (remove_at_spec s a n) as (_ & Hn & Hs).
  apply wf_slot. unfold next_nonce. rewrite Hn.
  apply wf_slot in Hwf as [H1 H2]. split; [done|].
  intros b k. rewrite Hs. case_decide; [by intros []|]. apply H2.
Qed.

Lemma process_matched s now a n p :
  wf s → n = next_nonce s a → (n < u64_max)%N →
  ∃ s' items, process_at s now a n p =
      (s', mkResult ((λ e, Publish e.1 e.2) <$> items) Matched) ∧
    run_of s s' a items ∧ (∀ b, a ≠ b → run_of s s' b []) ∧
    items ≠ [] ∧ slot_of s' a (next_nonce s' a) = None ∧
    (∀ k v, (k, v) ∈ items →
       (PendingBuffer.value <$> slot_of s a k) = Some v ∨ (k = n ∧ slot_of s a k = None ∧ v = p)).
Proof.
  intros Hwf Hn Hu. unfold process_at. rewrite <-Hn, N.ltb_irrefl. cbn [andb].
  fold (remove_at s a n).
  destruct (remove_at_spec s a n) as (Hv0 & Hn0 & Hs0). pose proof (remove_at_wf s a n Hwf) as Hwf0.
  destruct (remove_at s a n) as [s1 first]; cbn in Hv0, Hn0, Hs0, Hwf0.
  assert (Hsat : u64_saturating_add n 1 = (n + 1)%N) by (unfold u64_saturating_add; lia).
  assert (Hnx : ∀ b, next_nonce s1 b = next_nonce s b) by (intros; unfold next_nonce; by rewrite Hn0).
  destruct (drain_into_run s1 a (n + 1) [Publish n (default p first)] Hwf0)
    as (s2 & items & Heq & Hi & Hb & Hn2 & Hv & Hst & Hr & Hg & Ho); [lia | rewrite Hnx; lia|].
  rewrite Hsat, Heq.
  eexists _, ((n, default p first) :: items). split; [done|].
  set (s' := with_next s2 (<[a := (n + 1 + N.of_nat (length items))%N]> (next s2))).
  assert (Hns : ∀ b, next_nonce s' b =
    if decide (a = b) then (n + 1 + N.of_nat (length items))%N else next_nonce s b).
  { intros b. unfold s'. rewrite next_nonce_insert. case_decide; [done|].
    unfold next_nonce. by rewrite Hn2, Hn0. }
  assert (Hss : ∀ b k, slot_of s' b k = slot_of s2 b k) by done.
  assert (Hnot : n ∉ items.*1) by (rewrite Hi, elem_of_nseq; lia).
  split; [split|split; [|split; [done|split]]].
  - cbn. by rewrite <-Hn, Hi.
  - rewrite Hns, decide_True, <-Hn by done. cbn. lia.
  - intros k Hk. cbn in Hk. rewrite Hss, Hr, Hs0, decide_False by set_solver. done.
  - cbn. intros k [->|Hk]%elem_of_cons; rewrite Hss; [|by apply Hg].
    by rewrite Hr, Hs0, decide_True.
  - rewrite Hns, decide_True by done. lia.
  - intros b Hne. apply run_of_nil; [by apply wf_next_nonce|by rewrite Hns, decide_False|].
    intros k. rewrite Hss, Ho, Hs0, decide_False by naive_solver. done.
  - by rewrite Hss, Hns, decide_True.
  - intros k v [[= -> ->]|Hin]%elem_of_cons.
    + subst first. destruct (slot_of s a n); cbn; [by left | right; done].
    + left. specialize (Hv _ _ Hin). rewrite Hs0, decide_False in Hv; [done|].
      intros [_ ->]. apply Hnot, list_elem_of_fmap. by exists (n, v).
Qed.

(** ** Parking a future nonce *)
Record parks s s' a n (now : Instant) (p : T) (o : NonceOutcome T) : Prop := {
  park_next : next s' = next s;
  park_refused : refused s' = refused s;
  park_other : ∀ b k, a ≠ b → slot_of s' b k = slot_of s b k;
  park_new : slot_of s' a n = Some (PendingBuffer.mkSlot (Some (now + tx_ttl s)%N) p) ∨
             (slot_of s' a n = slot_of s a n ∧ slot_of s a n = None ∧ o = RejectedTooFar n) ∨
             (slot_of s' a n = slot_of s a n ∧ o = BufferedDisabled);
  park_old : ∀ k sl, k ≠ n → slot_of s' a k = Some sl → slot_of s a k = Some sl;
  park_kept : ∀ k sl, k ≠ n → slot_of s a k = Some sl →
    slot_of s' a k = Some sl ∨ ((n < k)%N ∧ o = BufferedEvicting k (PendingBuffer.value sl));
}.

Lemma park_parks s now a n p : parks s (park s now a n p).1 a n now p (park s now a n p).2.
Proof.
  unfold park. set (d := (now + tx_ttl s)%N). set (b := buffer_of s a).
  assert (Hb : ∀ k, PendingBuffer.inner b !! k = slot_of s a k) by apply slot_of_buffer_of.
  destruct (PendingBuffer.capacity b) as [cap|] eqn:Hcap.
  - destruct (insert_cases b n p d cap Hcap)
      as [(m & sl & Hn & Hfull & Hm & Hmax & Hlt & ->)
         |[(m & sl & Hn & Hfull & Hm & Hmax & Hlt & ->)|[Hwhy ->]]].
    + split; cbn; try done; intros; rewrite ?slot_of_insert in *; repeat case_decide; try done;
        rewrite ?Hb in *; auto 6.
    + split; cbn; try done.
      * intros. rewrite slot_of_deadlines, slot_of_insert. by case_decide.
      * left. rewrite slot_of_deadlines, slot_of_insert, decide_True by done. apply lookup_insert_eq.
      * intros k sl' Hk. rewrite slot_of_deadlines, slot_of_insert, decide_True by done. cbn.
        rewrite lookup_insert_ne by done. rewrite lookup_delete_Some, Hb. tauto.
      * intros k sl' Hk Hs. rewrite slot_of_deadlines, slot_of_insert, decide_True by done. cbn.
        rewrite lookup_insert_ne by done. destruct (decide (m = k)) as [->|Hne].
        -- right. split; [done|]. rewrite <-Hb in Hs. congruence.
        -- left. by rewrite lookup_delete_ne, Hb.
    + assert (Hall : ∀ c k, slot_of (with_pending s (<[a := PendingBuffer.with_inner b
          (<[n := PendingBuffer.mkSlot (Some d) p]> (PendingBuffer.inner b))]> (pending s))) c k =
          if decide (a = c) then if decide (n = k) then Some (PendingBuffer.mkSlot (Some d) p)
                                 else slot_of s a k else slot_of s c k).
      { intros c k. rewrite slot_of_insert. case_decide; [|done]. cbn.
        rewrite lookup_insert, Hb. done. }
      destruct (PendingBuffer.contains b n); (split; cbn; try done; intros; cbn in *;
        rewrite ?slot_of_deadlines, ?Hall in *; repeat case_decide; naive_solver).
  - unfold PendingBuffer.insert. rewrite Hcap.
    split; cbn; try done; intros; rewrite ?slot_of_insert in *; repeat case_decide; try done;
      rewrite ?Hb in *; auto 6.
Qed.
End publish.
