(* ===== verification/StateOps.v ===== *)
(** * Operations of the nonce state machine as steps

    Every operation of [PartitionState.t] as one step of a transition system,
    the conditions under which the sequencer loop calls it, and the theorems
    over sequences of steps: the floor invariant, the density of the publish
    order, isolation of the senders, rewinds and expiry. *)
From S2P Require Import Prelude Pending State StateFacts.
Import PartitionState.

Inductive Op (T : Type) : Type :=
| OSeed (a : Address)
| OProcess (now : Instant) (a : Address) (n : N) (p : T)
| OReinsert (a : Address) (n : N) (p : T)
| OFree (now : Instant) (freed : FreedNonce T)
| OMark (a : Address) (n : N)
| OClear (a : Address) (n : N)
| OTake (a : Address) (n : N) (named : T → bool)
| OSweep (now : Instant) (max : nat)
| ODrain (order : list Address)
| OAdvance (a : Address) (floor : N)
| ORelease (a : Address) (chain : N)
| OForget (a : Address).
Arguments OSeed {T} _.
Arguments OProcess {T} _ _ _ _.
Arguments OReinsert {T} _ _ _.
Arguments OFree {T} _ _.
Arguments OMark {T} _ _.
Arguments OClear {T} _ _.
Arguments OTake {T} _ _ _.
Arguments OSweep {T} _ _.
Arguments ODrain {T} _.
Arguments OAdvance {T} _ _.
Arguments ORelease {T} _ _.
Arguments OForget {T} _.

Section ops.
Context {T : Type}.
Implicit Types (s : PartitionState.t T) (a b : Address) (n k : N) (p : T) (op : Op T).

(** One step: the next state and the refs it hands to the publisher, in order. *)
Definition exec_op s op : PartitionState.t T * list (Address * N * T) :=
  match op with
  | OSeed a => (seed_next_nonce s a 0, [])
  | OProcess now a n p =>
    let '(s', r) := process_at s now a n p in
    (s', (λ e, (a, e.1, e.2)) <$> published (actions r))
  | OReinsert a n p => (reinsert_for_retry s a n p, [])
  | OFree now freed => (free_nonce s now freed, [])
  | OMark a n => (mark_refused s a n, [])
  | OClear a n => (clear_refused s a n, [])
  | OTake a n named => ((take_parked s a n named).1, [])
  | OSweep now max => ((sweep_expired s now max).1, [])
  | ODrain order => drain_pending s order
  | OAdvance a floor => ((advance_floor s a floor).1, [])
  | ORelease a chain => ((release_floor s a chain).1, [])
  | OForget a => ((forget_floor s a).1, [])
  end.

(** When the sequencer loop calls the operation. A rewind of a sender whose
    floor is unknown must not be above a ref that is still buffered. *)
Definition op_ok s op : Prop :=
  match op with
  | OSeed a => next_nonce_known s a = None
  | OProcess _ _ n _ => (n < u64_max)%N
  | OReinsert a n _ =>
    (n < u64_max)%N ∧
    (next_nonce_known s a = None → ∀ k, is_Some (slot_of s a k) → (n ≤ k)%N)
  | OFree _ freed =>
    (freed_nonce freed < u64_max)%N ∧
    (∀ e, e ∈ later freed → (freed_nonce freed ≤ e.1 < u64_max)%N) ∧
    (next_nonce_known s (freed_sender freed) = None →
     ∀ k, is_Some (slot_of s (freed_sender freed) k) → (freed_nonce freed ≤ k)%N)
  | OAdvance _ floor => (floor ≤ u64_max)%N
  | _ => True
  end.

(** The operations that leave the floors to the publishes. *)
Definition keeps_floor op : Prop :=
  match op with
  | OReinsert _ _ _ | OFree _ _ | OAdvance _ _ | ORelease _ _ | OForget _ => False
  | _ => True
  end.

Fixpoint exec_ops s (ops : list (Op T)) : PartitionState.t T * list (Address * N * T) :=
  match ops with
  | [] => (s, [])
  | op :: ops' =>
    let '(s1, out1) := exec_op s op in
    let '(s2, out2) := exec_ops s1 ops' in (s2, out1 ++ out2)
  end.

Fixpoint ops_ok s (ops : list (Op T)) : Prop :=
  match ops with
  | [] => True
  | op :: ops' => op_ok s op ∧ ops_ok (exec_op s op).1 ops'
  end.

(** ** Single operations *)

(** Nothing enters a buffer and no floor moves. *)
Definition shrinks s s' : Prop :=
  (∀ a, next_nonce s' a = next_nonce s a) ∧
  (∀ a k sl, slot_of s' a k = Some sl → slot_of s a k = Some sl).

Lemma shrinks_refl s : shrinks s s.
Proof. done. Qed.

Lemma shrinks_trans s1 s2 s3 : shrinks s1 s2 → shrinks s2 s3 → shrinks s1 s3.
Proof. intros [A1 B1] [A2 B2]. split; [congruence | eauto]. Qed.

Lemma shrinks_wf s s' : wf s → shrinks s s' → wf s'.
Proof.
  intros [H1 H2]%wf_slot [Hn Hs]. apply wf_slot. split; [intros; by rewrite Hn|].
  intros a k [sl Hsl]. rewrite Hn. eapply H2; eauto.
Qed.

Lemma mark_shrinks s a n : shrinks s (mark_refused s a n).
Proof. unfold mark_refused. by destruct (N.ltb n (next_nonce s a)). Qed.

Lemma trim_shrinks s a keep : shrinks s (trim_refused s a keep).
Proof. split; intros; [apply next_nonce_trim|]. by rewrite slot_of_trim in *. Qed.

Lemma pb_remove_old (buf : PendingBuffer.t T) n k sl :
  PendingBuffer.inner (PendingBuffer.remove buf n).1 !! k = Some sl →
  PendingBuffer.inner buf !! k = Some sl.
Proof. cbn. rewrite lookup_delete_Some. tauto. Qed.

Lemma replace_shrinks s a buf buf' :
  pending s !! a = Some buf →
  (∀ k sl, PendingBuffer.inner buf' !! k = Some sl → PendingBuffer.inner buf !! k = Some sl) →
  shrinks s (with_pending s (<[a := buf']> (pending s))).
Proof.
  intros E Hsub. split; [done|]. intros b k sl. rewrite slot_of_insert.
  case_decide; subst; [|done]. rewrite (slot_of_Some _ _ _ E). auto.
Qed.

Lemma take_parked_shrinks s a n named : shrinks s (take_parked s a n named).1.
Proof.
  unfold take_parked. destruct (pending s !! a) as [buf|] eqn:E; [|done].
  assert (Hold : ∀ k sl, PendingBuffer.inner (PendingBuffer.take_parked buf n named).1 !! k = Some sl →
    PendingBuffer.inner buf !! k = Some sl).
  { unfold PendingBuffer.take_parked. destruct (match _ with Some _ => _ | None => _ end);
      [apply pb_remove_old | done]. }
  destruct (PendingBuffer.take_parked buf n named); cbn in *. by apply replace_shrinks with buf.
Qed.

Lemma expire_parked_shrinks s d : shrinks s (expire_parked s d).1.
Proof.
  unfold expire_parked. destruct (N.leb _ _); [done|].
  destruct (pending s !! pd_sender d) as [buf|] eqn:E; [|done].
  assert (Hold : ∀ k sl, PendingBuffer.inner (PendingBuffer.expire buf (pd_nonce d) (at_ d)).1 !! k
    = Some sl → PendingBuffer.inner buf !! k = Some sl).
  { unfold PendingBuffer.expire. destruct (match _ with Some _ => _ | None => _ end);
      [apply pb_remove_old | done]. }
  destruct (PendingBuffer.expire buf _ _); cbn in *. by apply replace_shrinks with buf.
Qed.

Lemma pop_due_shrinks s now : shrinks s (pop_due s now).1.
Proof. unfold pop_due. destruct (deadlines s); [done|]. by destruct (N.leb _ _). Qed.

Lemma sweep_loop_shrinks fuel s now max : shrinks s (sweep_loop fuel s now max).1.
Proof.
  revert s max; induction fuel as [|fuel IH]; intros s [|max]; try done. cbn.
  pose proof (pop_due_shrinks s now) as Hp. destruct (pop_due s now) as [s1 [d|]]; [|done].
  cbn in Hp. pose proof (expire_parked_shrinks s1 d) as He.
  destruct (expire_parked s1 d) as [s2 [e|]]; cbn in He.
  - specialize (IH s2 max). destruct (sweep_loop fuel s2 now max) as [s3 es]; cbn in *.
    eauto using shrinks_trans.
  - eauto using shrinks_trans.
Qed.

(** The floor and the slots after a rewind of [a] to [n]. *)
Lemma rewind_floor_next s a n b :
  next_nonce (rewind_floor s a n).1 b =
  if decide (a = b) then match next s !! a with Some m => N.min m n | None => n end
  else next_nonce s b.
Proof. unfold rewind_floor, next_nonce_known. apply next_nonce_insert. Qed.

Lemma reinsert_next s a n p b :
  next_nonce (reinsert_for_retry s a n p) b =
  if decide (a = b) then match next s !! a with Some m => N.min m n | None => n end
  else next_nonce s b.
Proof.
  unfold reinsert_for_retry. rewrite <-rewind_floor_next.
  by destruct (rewind_floor s a n).
Qed.

Lemma reinsert_slot s a n p b k :
  slot_of (reinsert_for_retry s a n p) b k =
  if decide (a = b ∧ k = n) then Some (PendingBuffer.mkSlot None p) else slot_of s b k.
Proof.
  unfold reinsert_for_retry, rewind_floor.
  rewrite slot_of_insert. destruct (decide (a = b)) as [<-|Hne].
  - cbn. rewrite lookup_insert, slot_of_buffer_of. repeat case_decide; naive_solver.
  - rewrite decide_False by naive_solver. done.
Qed.

(** Re-buffering a list of refs: the later ones overwrite. *)
Lemma fold_reinsert_inner (l : list (N * T)) (buf : PendingBuffer.t T) d k :
  PendingBuffer.inner (fold_left (λ q e, PendingBuffer.reinsert q e.1 e.2 d) l buf) !! k =
  PendingBuffer.inner buf !! k ∨
  ∃ v, (k, v) ∈ l ∧ PendingBuffer.inner
    (fold_left (λ q e, PendingBuffer.reinsert q e.1 e.2 d) l buf) !! k =
    Some (PendingBuffer.mkSlot d v).
Proof.
  revert buf; induction l as [|[n v] l IH]; intros buf; cbn [fold_left]; [by left|].
  destruct (IH (PendingBuffer.reinsert buf n v d)) as [Heq|(w & Hin & Heq)].
  - cbn in Heq. rewrite lookup_insert in Heq. case_decide; subst.
    + right. exists v. cbn. split; [set_solver | done].
    + by left.
  - right. exists w. cbn. split; [set_solver | done].
Qed.

Lemma free_nonce_next s now freed b :
  next_nonce (free_nonce s now freed) b =
  if decide (freed_sender freed = b)
  then match next s !! freed_sender freed with
       | Some m => N.min m (freed_nonce freed) | None => freed_nonce freed end
  else next_nonce s b.
Proof.
  unfold free_nonce. set (s0 := trim_refused _ _ _).
  pose proof (rewind_floor_next s0 (freed_sender freed) (freed_nonce freed) b) as Hr.
  destruct (rewind_floor s0 _ _) as [s1 buf]; cbn in *. unfold next_nonce in *; cbn.
  rewrite Hr. unfold s0. by rewrite next_trim_refused.
Qed.

Lemma free_nonce_slot s now freed b k sl :
  slot_of (free_nonce s now freed) b k = Some sl →
  slot_of s b k = Some sl ∨ (b = freed_sender freed ∧ k ∈ (later freed).*1).
Proof.
  unfold free_nonce. set (s0 := trim_refused _ _ _). unfold rewind_floor. cbn [fst snd].
  rewrite slot_of_deadlines, slot_of_insert.
  assert (H0 : ∀ c j, slot_of s0 c j = slot_of s c j) by (intros; apply slot_of_trim).
  case_decide as Hd; [|rewrite slot_of_next, H0; by left]. subst b.
  destruct (fold_reinsert_inner (later freed) (buffer_of s0 (freed_sender freed))
    (Some (now + tx_ttl s0)%N) k) as [->|(v & Hin & _)].
  - rewrite slot_of_buffer_of, H0. by left.
  - intros _. right. split; [done|]. apply list_elem_of_fmap. by exists (k, v).
Qed.

Lemma advance_floor_next s a floor b :
  next_nonce (advance_floor s a floor).1 b =
  if decide (a = b) then N.max (next_nonce s a) floor else next_nonce s b.
Proof.
  unfold advance_floor. destruct (N.leb_spec floor (next_nonce s a)); cbn.
  { case_decide; subst; lia. }
  destruct (pending s !! a) as [buf|]; cbn; rewrite next_nonce_trim; unfold next_nonce in *; cbn;
    rewrite lookup_insert; case_decide; subst; cbn; try done; lia.
Qed.

Lemma advance_floor_slot s a floor b k :
  slot_of (advance_floor s a floor).1 b k =
  if decide (a = b ∧ (next_nonce s a < floor)%N ∧ (k < floor)%N) then None else slot_of s b k.
Proof.
  unfold advance_floor. destruct (N.leb_spec floor (next_nonce s a)); cbn.
  { rewrite decide_False by lia. done. }
  destruct (pending s !! a) as [buf|] eqn:E; cbn; rewrite slot_of_trim, slot_of_next.
  - rewrite slot_of_insert. destruct (decide (a = b)) as [<-|Hne].
    + cbn. rewrite (slot_of_Some _ _ _ E). destruct (decide (k < floor)%N).
      * rewrite decide_True by tauto. apply map_lookup_filter_None. right. intros; cbn; lia.
      * rewrite decide_False by lia. destruct (PendingBuffer.inner buf !! k) eqn:Ek.
        -- apply map_lookup_filter_Some. split; [done | cbn; lia].
        -- apply map_lookup_filter_None. by left.
    + rewrite decide_False by tauto. done.
  - case_decide as Hd; [|done]. destruct Hd as [<- _]. unfold slot_of. by rewrite E.
Qed.

Lemma release_floor_next s a chain b :
  next_nonce (release_floor s a chain).1 b =
  if decide (a = b) then match next s !! a with Some m => N.min m chain | None => 0%N end
  else next_nonce s b.
Proof.
  unfold release_floor, next_nonce_known. destruct (next s !! a) as [m|] eqn:E; cbn.
  - destruct (N.ltb_spec chain m); cbn.
    + rewrite next_nonce_trim, next_nonce_insert. case_decide; [lia|done].
    + case_decide; [|done]. subst. unfold next_nonce. rewrite E. cbn. lia.
  - case_decide; [|done]. subst. unfold next_nonce. by rewrite E.
Qed.

Lemma release_floor_slot s a chain b k : slot_of (release_floor s a chain).1 b k = slot_of s b k.
Proof.
  unfold release_floor. destruct (next_nonce_known s a); [|done].
  destruct (N.ltb _ _); [|done]. cbn. by rewrite slot_of_trim.
Qed.

Lemma forget_floor_next s a b :
  next_nonce (forget_floor s a).1 b = if decide (a = b) then 0%N else next_nonce s b.
Proof.
  unfold forget_floor, next_nonce; cbn. rewrite lookup_delete. by case_decide.
Qed.

(** [process_at], by the place of the nonce. *)
Lemma process_past s now a n p :
  (n < next_nonce s a)%N →
  process_at s now a n p =
    (s, if is_refused s a n then mkResult [Publish n p] Reoffered
        else mkResult [ReportDuplicate n (next_nonce s a)] Past).
Proof.
  intros Hlt. unfold process_at. rewrite (proj2 (N.ltb_lt _ _) Hlt).
  by destruct (is_refused s a n).
Qed.

Lemma process_future s now a n p :
  (next_nonce s a < n)%N →
  process_at s now a n p = ((park s now a n p).1, mkResult [] (park s now a n p).2).
Proof.
  intros Hlt. unfold process_at. rewrite (proj2 (N.ltb_ge _ _)), (proj2 (N.ltb_lt _ _) Hlt) by lia. cbn. by destruct (park s now a n p).
Qed.

Lemma park_wf s now a n p : wf s → (next_nonce s a < n < u64_max)%N → wf (park s now a n p).1.
Proof.
  intros [H1 H2]%wf_slot Hn.
  destruct (park_parks s now a n p) as [Hnx _ Ho Hnew Hold _].
  apply wf_slot. unfold next_nonce in *. rewrite Hnx. split; [done|].
  intros b k [sl Hsl]. destruct (decide (a = b)) as [<-|Hne]; [|rewrite Ho in Hsl by done; eauto].
  destruct (decide (k = n)) as [->|Hk]; [lia|]. apply H2. eauto.
Qed.

(** *** The publish order *)

(** The nonces that a sender publishes, split by its floor: those at or above it,
    each of which raises it past itself, and those below it. *)
Fixpoint split_run (floor : N) (nonces : list N) : list N * list N :=
  match nonces with
  | [] => ([], [])
  | n :: nonces' =>
    if (n <? floor)%N then let '(run, again) := split_run floor nonces' in (run, n :: again)
    else let '(run, again) := split_run (n + 1) nonces' in (n :: run, again)
  end.

(** The first part is the run from [floor] to [floor'], and [M] holds of the rest. *)
Definition runs_to (M : N → Prop) (floor : N) (nonces : list N) (floor' : N) : Prop :=
  let '(run, again) := split_run floor nonces in
  run = nseq floor (length run) ∧ floor' = (floor + N.of_nat (length run))%N ∧ ∀ n, n ∈ again → M n.

Lemma runs_to_app M l1 l2 floor floor1 floor2 :
  runs_to M floor l1 floor1 → runs_to M floor1 l2 floor2 → runs_to M floor (l1 ++ l2) floor2.
Proof.
  unfold runs_to. revert floor. induction l1 as [|n l1 IH]; intros floor; cbn [app split_run].
  { intros (_ & -> & _). cbn [length]. by rewrite N.add_0_r. }
  destruct (N.ltb_spec n floor).
  - specialize (IH floor). destruct (split_run floor l1) as [r1 g1], (split_run floor (l1 ++ l2)) as [r g].
    intros (E1 & E2 & Hg) H2. destruct IH as (? & ? & ?); [set_solver|done|]. set_solver.
  - specialize (IH (n + 1)%N). destruct (split_run (n + 1) l1) as [r1 g1], (split_run (n + 1) (l1 ++ l2)) as [r g].
    cbn [length nseq]. intros ([= -> E1] & -> & Hg) H2.
    destruct IH as (IH1 & -> & IH3); [split_and!; [done|lia|done]|done|]. rewrite <-IH1. split_and!; [done|lia|done].
Qed.

Lemma runs_to_nseq M floor len : runs_to M floor (nseq floor len) (floor + N.of_nat len).
Proof.
  unfold runs_to. revert floor. induction len as [|len IH]; intros floor; cbn [nseq split_run].
  { split_and!; [done|done|]. by intros n ?%elem_of_nil. }
  rewrite N.ltb_irrefl. specialize (IH (floor + 1)%N). destruct (split_run _ _) as [r g]. cbn [length nseq].
  destruct IH as (E1 & E2 & Hg). split_and!; [by f_equal|lia|done].
Qed.

Lemma runs_to_nil M floor : runs_to M floor [] floor.
Proof. unfold runs_to. cbn. rewrite N.add_0_r. split_and!; [done..|]. by intros n ?%elem_of_nil. Qed.

Lemma runs_to_again M floor n : (n < floor)%N → M n → runs_to M floor [n] floor.
Proof.
  intros Hlt HM. unfold runs_to. cbn. rewrite (proj2 (N.ltb_lt _ _) Hlt). cbn. rewrite N.add_0_r.
  split_and!; [done..|]. by intros k ->%list_elem_of_singleton.
Qed.

Lemma runs_to_mono (M M' : N → Prop) floor l floor' : (∀ n, M n → M' n) → runs_to M floor l floor' → runs_to M' floor l floor'.
Proof. unfold runs_to. intros HM. destruct (split_run floor l). naive_solver. Qed.

(** What a step that keeps the floors publishes: the run from the floor, or the ref
    of a refused nonce below it once more. *)
Lemma exec_op_run s op b :
  wf s → op_ok s op → keeps_floor op →
  runs_to (λ n, is_refused s b n = true) (next_nonce s b) (of_sender b (exec_op s op).2).*1 (next_nonce (exec_op s op).1 b).
Proof.
  intros Hwf Hok Hk. destruct op as [a|now a n p|?|?|a n|a n|a n named|now max|order|?|?|?];
    try done; cbn [exec_op fst snd].
  - cbn in Hok. unfold seed_next_nonce. rewrite next_nonce_insert. case_decide; [subst|apply runs_to_nil].
    unfold next_nonce, next_nonce_known in *. rewrite Hok. apply runs_to_nil.
  - cbn in Hok. destruct (N.lt_trichotomy n (next_nonce s a)) as [Hlt|[Heq|Hgt]].
    + rewrite process_past by done. destruct (is_refused s a n) eqn:Er; [|apply runs_to_nil].
      cbn [actions fst snd]. change (published [Publish n p]) with [(n, p)]. rewrite of_sender_tag.
      case_decide; [subst|apply runs_to_nil]. by apply runs_to_again.
    + destruct (process_matched s now a n p Hwf Heq Hok) as (s' & items & -> & Hr & Ho & _).
      cbn [actions fst snd]. rewrite published_map, of_sender_tag. case_decide; subst.
      * rewrite (run_next _ _ _ _ Hr), (run_nonces _ _ _ _ Hr). apply runs_to_nseq.
      * rewrite (run_next _ _ _ _ (Ho b ltac:(done))), N.add_0_r. apply runs_to_nil.
    + rewrite process_future by done. destruct (park_parks s now a n p) as [Hnx _ _ _ _ _].
      unfold next_nonce. cbn [fst snd actions]. rewrite Hnx. apply runs_to_nil.
  - rewrite (proj1 (mark_shrinks s a n)). apply runs_to_nil.
  - unfold clear_refused. rewrite (proj1 (trim_shrinks s a _)). apply runs_to_nil.
  - rewrite (proj1 (take_parked_shrinks s a n named)). apply runs_to_nil.
  - unfold sweep_expired. rewrite (proj1 (sweep_loop_shrinks _ s now max)). apply runs_to_nil.
  - pose proof (drain_pending_from s [] order Hwf) as Hd. unfold drain_pending.
    destruct (fold_left drain_one_sender order (s, [])) as [s' out].
    destruct Hd as (new & -> & Hnew). destruct (Hnew b) as (Hr & _). cbn [app fst snd].
    rewrite (run_next _ _ _ _ Hr), (run_nonces _ _ _ _ Hr). apply runs_to_nseq.
Qed.

Lemma process_refused s now a n p : refused (process_at s now a n p).1 = refused s.
Proof.
  unfold process_at. destruct (_ && _); [done|]. destruct (n <? _)%N; [done|]. destruct (_ <? n)%N.
  - pose proof (park_refused _ _ _ _ _ _ _ (park_parks s now a n p)) as Hp. by destruct (park s now a n p).
  - fold (remove_at s a n). assert (H0 : refused (remove_at s a n).1 = refused s) by (unfold remove_at; by destruct (pending s !! a)).
    destruct (remove_at s a n) as [s1 first]; cbn in H0. unfold drain_consecutive_into.
    destruct (pending s1 !! a) as [buf|]; [|done]. by destruct (PendingBuffer.drain buf _).
Qed.

Lemma sweep_loop_refused fuel s now max : refused (sweep_loop fuel s now max).1 = refused s.
Proof.
  revert s max; induction fuel as [|fuel IH]; intros s [|max]; try done. cbn [sweep_loop]. unfold pop_due.
  destruct (deadlines s) as [|d rest]; [done|]. destruct (at_ d <=? now)%N; [|done].
  assert (refused (expire_parked (with_deadlines s rest) d).1 = refused s) as He.
  { unfold expire_parked. destruct (_ <=? _)%N; [done|]. destruct (pending _ !! _); [|done]. by destruct (PendingBuffer.expire _ _ _). }
  destruct (expire_parked _ d) as [s2 [e|]]; cbn [fst] in *; [|by rewrite IH].
  specialize (IH s2 max). destruct (sweep_loop fuel s2 now max); cbn in *. congruence.
Qed.

Lemma drain_pending_refused s order : refused (drain_pending s order).1 = refused s.
Proof.
  unfold drain_pending. generalize (@nil (Address * N * T)) as out. revert s.
  induction order as [|a order IH]; intros s out; [done|]. cbn [fold_left]. unfold drain_one_sender at 2.
  destruct (pending s !! a) as [buf|]; [|apply IH]. unfold drain_sender_run. destruct (PendingBuffer.drain _ _) as [buf' items].
  rewrite IH. by destruct (last items).
Qed.

(** Only a mark adds to the refused nonces of a step that keeps the floors. *)
Lemma exec_op_refused s op a n :
  keeps_floor op → is_refused (exec_op s op).1 a n = true → is_refused s a n = true ∨ op = OMark a n.
Proof.
  intros Hk. assert (Hsame : ∀ s', refused s' = refused s → is_refused s' a n = true → is_refused s a n = true ∨ op = OMark a n).
  { intros s' E. unfold is_refused. rewrite E. auto. }
  destruct op as [b|now b k p|?|?|b k|b k|b k named|now max|order|?|?|?]; try done; cbn [exec_op].
  - by apply Hsame.
  - pose proof (process_refused s now b k p) as E. destruct (process_at s now b k p). by apply Hsame.
  - unfold mark_refused. destruct (k <? _)%N; [|by left]. cbn [fst]. unfold is_refused at 1. cbn [refused with_refused].
    destruct (decide (a = b)) as [->|Hne]; [|rewrite lookup_insert_ne by done; by left].
    rewrite lookup_insert_eq, bool_decide_eq_true, elem_of_union, elem_of_singleton. intros [->|Hin]; [by right|left].
    unfold is_refused. destruct (refused s !! b); [by rewrite bool_decide_eq_true|]. cbn in Hin. set_solver.
  - unfold clear_refused. cbn [fst]. rewrite is_refused_trim, andb_true_iff. tauto.
  - apply Hsame. unfold take_parked. destruct (pending s !! b); [|done]. by destruct (PendingBuffer.take_parked _ _ _).
  - apply Hsame, sweep_loop_refused.
  - apply Hsame, drain_pending_refused.
Qed.

Lemma exec_op_wf s op : wf s → op_ok s op → wf (exec_op s op).1.
Proof.
  intros Hwf Hok. destruct op as [a|now a n p|a n p|now freed|a n|a n|a n named|now max|order|a floor|a chain|a];
    cbn [exec_op fst] in *.
  - apply (shrinks_wf s); [done|]. split; [|done]. intros b. unfold seed_next_nonce.
    rewrite next_nonce_insert. case_decide; [|done]. subst.
    cbn in Hok. unfold next_nonce, next_nonce_known in *. by rewrite Hok.
  - cbn in Hok. destruct (N.lt_trichotomy n (next_nonce s a)) as [Hlt|[Heq|Hgt]].
    + rewrite process_past by done. by destruct (is_refused s a n).
    + destruct (process_matched s now a n p Hwf Heq Hok) as (s' & items & -> & Hr & Ho & _).
      apply (run_of_wf s); [done|]. intros b. destruct (decide (a = b)) as [<-|]; eauto.
    + rewrite process_future by done. apply park_wf; [done | lia].
  - destruct Hok as [Hu Hcold]. apply wf_slot in Hwf as [H1 H2]. apply wf_slot. split.
    + intros b. rewrite reinsert_next. specialize (H1 b). case_decide; [|done].
      destruct (next s !! a); lia.
    + intros b k [sl Hsl]. rewrite reinsert_slot in Hsl. rewrite reinsert_next.
      case_decide as Hd.
      { destruct Hd as [<- ->]. rewrite decide_True by done. destruct (next s !! a); lia. }
      assert (Hs : is_Some (slot_of s b k)) by eauto. specialize (H2 _ _ Hs).
      case_decide; [subst a|done]. unfold next_nonce, next_nonce_known in *.
      destruct (next s !! b); cbn in *; [lia|]. specialize (Hcold eq_refl k Hs). lia.
  - destruct Hok as (Hu & Hlater & Hcold). apply wf_slot in Hwf as [H1 H2]. apply wf_slot. split.
    + intros b. rewrite free_nonce_next. specialize (H1 b). case_decide; [|done].
      destruct (next s !! freed_sender freed); lia.
    + intros b k [sl Hsl]. rewrite free_nonce_next.
      destruct (free_nonce_slot _ _ _ _ _ _ Hsl) as [Hs|[-> ([n v] & -> & Hin)%list_elem_of_fmap]].
      * assert (His : is_Some (slot_of s b k)) by eauto. specialize (H2 _ _ His).
        case_decide; [subst b|done]. unfold next_nonce, next_nonce_known in *.
        destruct (next s !! freed_sender freed); cbn in *; [lia|].
        specialize (Hcold eq_refl k His). lia.
      * rewrite decide_True by done. specialize (Hlater _ Hin). cbn in *.
        destruct (next s !! freed_sender freed); lia.
  - apply (shrinks_wf s); [done | apply mark_shrinks].
  - apply (shrinks_wf s); [done | apply trim_shrinks].
  - apply (shrinks_wf s); [done | apply take_parked_shrinks].
  - apply (shrinks_wf s); [done | apply sweep_loop_shrinks].
  - pose proof (drain_pending_from s [] order Hwf) as Hd. unfold drain_pending.
    destruct (fold_left drain_one_sender order (s, [])) as [s' out].
    destruct Hd as (new & -> & Hnew). apply (run_of_wf s); [done|]. intros b. eexists. apply Hnew.
  - cbn in Hok. apply wf_slot in Hwf as [H1 H2]. apply wf_slot. split.
    + intros b. rewrite advance_floor_next. specialize (H1 b). case_decide; [subst; lia|done].
    + intros b k. rewrite advance_floor_slot, advance_floor_next.
      case_decide as Hd; [by intros []|]. intros Hs. specialize (H2 _ _ Hs).
      case_decide; [subst|done]. split; [|lia]. destruct (N.lt_ge_cases (next_nonce s b) floor); lia.
  - apply wf_slot in Hwf as [H1 H2]. apply wf_slot. split.
    + intros b. rewrite release_floor_next. specialize (H1 a) as Ha. specialize (H1 b).
      case_decide; [|done]. subst. unfold next_nonce in *. destruct (next s !! b); cbn in *; lia.
    + intros b k. rewrite release_floor_slot, release_floor_next. intros Hs. specialize (H2 _ _ Hs).
      case_decide; [subst|done]. unfold next_nonce in *. destruct (next s !! b); cbn in *; lia.
  - apply wf_slot in Hwf as [H1 H2]. apply wf_slot. split.
    + intros b. rewrite forget_floor_next. specialize (H1 b). case_decide; [lia|done].
    + intros b k. change (slot_of (forget_floor s a).1 b k) with (slot_of s b k).
      rewrite forget_floor_next. intros Hs. specialize (H2 _ _ Hs). case_decide; lia.
Qed.

Lemma exec_ops_wf s ops : wf s → ops_ok s ops → wf (exec_ops s ops).1.
Proof.
  revert s; induction ops as [|op ops IH]; intros s Hwf Hok; [done|].
  destruct Hok as [H1 H2]. pose proof (exec_op_wf s op Hwf H1) as Hwf1. cbn.
  destruct (exec_op s op) as [s1 o1]. specialize (IH s1 Hwf1 H2). cbn in *.
  by destruct (exec_ops s1 ops).
Qed.

Lemma wf_new cap ttl : wf (PartitionState.new cap ttl : PartitionState.t T).
Proof.
  apply wf_slot. split.
  - intros a. unfold next_nonce; cbn. rewrite lookup_empty. cbn. unfold u64_max. lia.
  - intros a k. unfold slot_of; cbn. rewrite lookup_empty. by intros [].
Qed.
End ops.

(** ** Capacities

    A buffer is made with the capacity of the state and keeps it, so buffers are
    disabled only where the configuration disables them. *)
Section caps.
Context {T : Type}.
Implicit Types (s : PartitionState.t T) (a : Address) (n : N) (buf : PendingBuffer.t T).

(** Every buffer has the capacity of a new one. *)
Definition caps s : Prop :=
  ∀ a buf, pending s !! a = Some buf → PendingBuffer.capacity buf = PendingBuffer.capacity (PendingBuffer.new (T := T) (max_pending_per_sender s)).

Definition keeps_caps s s' : Prop := max_pending_per_sender s' = max_pending_per_sender s ∧ (caps s → caps s').

Lemma keeps_caps_refl s : keeps_caps s s.
Proof. done. Qed.

Lemma keeps_caps_trans s1 s2 s3 : keeps_caps s1 s2 → keeps_caps s2 s3 → keeps_caps s1 s3.
Proof. intros [E1 H1] [E2 H2]. split; [congruence|auto]. Qed.

Lemma keeps_caps_same s s' : max_pending_per_sender s' = max_pending_per_sender s → pending s' = pending s → keeps_caps s s'.
Proof. intros E1 E2. split; [done|]. unfold caps. by rewrite E1, E2. Qed.

Lemma caps_buffer_of s a : caps s → PendingBuffer.capacity (buffer_of s a) = PendingBuffer.capacity (PendingBuffer.new (T := T) (max_pending_per_sender s)).
Proof. intros Hc. unfold buffer_of. destruct (pending s !! a) as [buf|] eqn:E; [by apply (Hc a)|done]. Qed.

(** One buffer is replaced by another of its capacity. *)
Lemma keeps_caps_put s s' a buf :
  max_pending_per_sender s' = max_pending_per_sender s → pending s' = <[a := buf]> (pending s) →
  PendingBuffer.capacity buf = PendingBuffer.capacity (buffer_of s a) → keeps_caps s s'.
Proof.
  intros E1 E2 Hb. split; [done|]. intros Hc b buf'. rewrite E1, E2, lookup_insert. case_decide; [|apply Hc].
  intros [= <-]. rewrite Hb. by apply caps_buffer_of.
Qed.

Lemma buffer_of_some s a buf : pending s !! a = Some buf → buffer_of s a = buf.
Proof. intros E. unfold buffer_of. by rewrite E. Qed.

Lemma drain_capacity buf n : PendingBuffer.capacity (PendingBuffer.drain buf n).1 = PendingBuffer.capacity buf.
Proof.
  unfold PendingBuffer.drain. generalize (S (PendingBuffer.len buf)) as fuel.
  change (PendingBuffer.capacity buf) with (PendingBuffer.capacity (PendingBuffer.buf (PendingBuffer.drain_consecutive_from buf n))).
  generalize (PendingBuffer.drain_consecutive_from buf n) as d. clear buf n.
  intros d fuel. revert d. induction fuel as [|fuel IH]; intros d; [done|]. cbn [PendingBuffer.drain_collect].
  assert (PendingBuffer.capacity (PendingBuffer.buf (PendingBuffer.drain_next d).1) = PendingBuffer.capacity (PendingBuffer.buf d)) as Hd.
  { unfold PendingBuffer.drain_next. destruct (_ !! _); [|done]. by destruct (u64_checked_add _ _). }
  destruct (PendingBuffer.drain_next d) as [d' [item|]]; [|done]. cbn [fst] in Hd. rewrite <-Hd, <-IH.
  by destruct (PendingBuffer.drain_collect fuel d').
Qed.

Lemma trim_caps s a keep : keeps_caps s (trim_refused s a keep).
Proof. unfold trim_refused. by repeat case_match. Qed.

Lemma reinsert_caps s a n p : keeps_caps s (reinsert_for_retry s a n p).
Proof. by eapply (keeps_caps_put _ _ a). Qed.

Lemma free_nonce_caps s now freed : keeps_caps s (free_nonce s now freed).
Proof.
  unfold free_nonce. eapply keeps_caps_trans; [apply (trim_caps s (freed_sender freed) (λ n, (n <? freed_nonce freed)%N))|].
  generalize (trim_refused s (freed_sender freed) (λ n, (n <? freed_nonce freed)%N)) as s0. intros s0.
  eapply (keeps_caps_put s0 _ (freed_sender freed)); [done|done|].
  generalize (later freed) as l. generalize (buffer_of s0 (freed_sender freed)) as buf.
  intros buf l. revert buf. induction l as [|e l IH]; intros buf; [done|]. cbn [fold_left]. by rewrite IH.
Qed.

Lemma take_parked_caps s a n named : keeps_caps s (take_parked s a n named).1.
Proof.
  unfold take_parked. destruct (pending s !! a) as [buf|] eqn:E; [|done].
  assert (PendingBuffer.capacity (PendingBuffer.take_parked buf n named).1 = PendingBuffer.capacity buf) as Hb
    by (unfold PendingBuffer.take_parked; by repeat case_match).
  destruct (PendingBuffer.take_parked buf n named) as [buf' v]. eapply (keeps_caps_put _ _ a buf'); [done|done|].
  by rewrite (buffer_of_some _ _ _ E).
Qed.

Lemma expire_parked_caps s d : keeps_caps s (expire_parked s d).1.
Proof.
  unfold expire_parked. destruct (_ <=? _)%N; [done|]. destruct (pending s !! pd_sender d) as [buf|] eqn:E; [|done].
  assert (PendingBuffer.capacity (PendingBuffer.expire buf (pd_nonce d) (at_ d)).1 = PendingBuffer.capacity buf) as Hb
    by (unfold PendingBuffer.expire; by repeat case_match).
  destruct (PendingBuffer.expire buf _ _) as [buf' v]. eapply (keeps_caps_put _ _ (pd_sender d) buf'); [done|done|].
  by rewrite (buffer_of_some _ _ _ E).
Qed.

Lemma sweep_caps s now max : keeps_caps s (sweep_expired s now max).1.
Proof.
  unfold sweep_expired. generalize (length (deadlines s)) as fuel. intros fuel. revert s max.
  induction fuel as [|fuel IH]; intros s [|max]; try done. cbn [sweep_loop].
  assert (keeps_caps s (pop_due s now).1) as Hp by (unfold pop_due; by repeat case_match).
  destruct (pop_due s now) as [s1 [d|]]; [|done]. cbn [fst] in Hp. pose proof (expire_parked_caps s1 d) as He.
  destruct (expire_parked s1 d) as [s2 [e|]]; cbn [fst] in He.
  - specialize (IH s2 max). destruct (sweep_loop fuel s2 now max) as [s3 es]. cbn [fst] in *. eauto using keeps_caps_trans.
  - eauto using keeps_caps_trans.
Qed.

Lemma drain_pending_caps s order : keeps_caps s (drain_pending s order).1.
Proof.
  unfold drain_pending. generalize (@nil (Address * N * T)) as out. revert s.
  induction order as [|a order IH]; intros s out; [done|]. cbn [fold_left].
  assert (keeps_caps s (drain_one_sender (s, out) a).1) as Hd.
  { unfold drain_one_sender. destruct (pending s !! a) as [buf|] eqn:E; [|done]. unfold drain_sender_run.
    pose proof (drain_capacity buf (next_nonce s a)) as Hb. destruct (PendingBuffer.drain buf _) as [buf' items].
    eapply (keeps_caps_put _ _ a buf'); [by destruct (last items)|by destruct (last items)|]. by rewrite (buffer_of_some _ _ _ E). }
  destruct (drain_one_sender (s, out) a) as [s1 out1]. cbn [fst] in Hd. eauto using keeps_caps_trans.
Qed.

Lemma park_caps s now a n p : keeps_caps s (park s now a n p).1.
Proof.
  unfold park. pose proof (insert_capacity (buffer_of s a) n p (now + tx_ttl s)) as Hb.
  destruct (PendingBuffer.insert _ _ _ _) as [buf o]. cbn [fst] in Hb.
  by eapply (keeps_caps_put _ _ a buf); destruct o.
Qed.

Lemma process_caps s now a n p : keeps_caps s (process_at s now a n p).1.
Proof.
  unfold process_at. destruct (_ && _); [done|]. destruct (n <? _)%N; [done|]. destruct (_ <? n)%N.
  { pose proof (park_caps s now a n p) as Hp. by destruct (park s now a n p). }
  fold (remove_at s a n). assert (keeps_caps s (remove_at s a n).1) as Hr.
  { unfold remove_at. destruct (pending s !! a) as [buf|] eqn:E; [|done]. eapply (keeps_caps_put _ _ a); [done|done|].
    by rewrite (buffer_of_some _ _ _ E). }
  destruct (remove_at s a n) as [s1 first]. cbn [fst] in Hr. eapply keeps_caps_trans; [exact Hr|]. unfold drain_consecutive_into.
  destruct (pending s1 !! a) as [buf|] eqn:E; [|done]. pose proof (drain_capacity buf (u64_saturating_add n 1)) as Hb.
  destruct (PendingBuffer.drain buf _) as [buf' items]. eapply (keeps_caps_put _ _ a buf'); [done|done|].
  by rewrite (buffer_of_some _ _ _ E).
Qed.

Lemma advance_floor_caps s a floor : keeps_caps s (advance_floor s a floor).1.
Proof.
  unfold advance_floor. destruct (_ <=? _)%N; [done|]. destruct (pending s !! a) as [buf|] eqn:E; cbn [fst].
  - eapply keeps_caps_trans; [|apply trim_caps]. eapply (keeps_caps_put _ _ a); [done|done|]. by rewrite (buffer_of_some _ _ _ E).
  - eapply keeps_caps_trans; [|apply trim_caps]. done.
Qed.

Lemma release_floor_caps s a chain : keeps_caps s (release_floor s a chain).1.
Proof.
  unfold release_floor. destruct (next_nonce_known s a); [|done]. destruct (_ <? _)%N; [|done]. cbn [fst].
  eapply keeps_caps_trans; [|apply trim_caps]. done.
Qed.

(** A change of the state that keeps the capacities. *)
Definition caps_kept {A} (f : PartitionState.t T → PartitionState.t T * A) : Prop := ∀ s, keeps_caps s (f s).1.

Lemma mark_caps s a n : keeps_caps s (mark_refused s a n).
Proof. unfold mark_refused. by destruct (_ <? _)%N. Qed.

Lemma clear_caps s a n : keeps_caps s (clear_refused s a n).
Proof. apply trim_caps. Qed.

Lemma forget_caps s a : keeps_caps s (forget_floor s a).1.
Proof. done. Qed.

Lemma seed_caps s a : keeps_caps s (match next_nonce_known s a with None => seed_next_nonce s a 0 | Some _ => s end).
Proof. by destruct (next_nonce_known s a). Qed.
End caps.

Create HintDb caps.
#[export] Hint Resolve trim_caps reinsert_caps free_nonce_caps take_parked_caps sweep_caps drain_pending_caps process_caps advance_floor_caps
  release_floor_caps mark_caps clear_caps forget_caps seed_caps : caps.
