(* ===== verification/StateExpiry.v ===== *)
(** * Expiry of parked refs

    The deadline heap of [PartitionState.t]: every slot parked above the
    floor of its sender keeps its entry in the heap, so a sweep finds each of those
    whose lifetime has passed. *)
From S2P Require Import Prelude Pending State StateFacts StateOps.
Import PartitionState.

(** ** The heap *)
Definition parked_le (x y : ParkedDeadline) : Prop := key_le (parked_key x) (parked_key y).

Lemma elem_of_heap_push d h x : x ∈ heap_push d h ↔ x = d ∨ x ∈ h.
Proof.
  induction h as [|e h IH]; cbn; [set_solver|]. case_decide; set_solver.
Qed.

Lemma length_heap_push d h : length (heap_push d h) = S (length h).
Proof. induction h as [|e h IH]; cbn; [done|]. case_decide; cbn; lia. Qed.

Lemma heap_push_sorted d h : StronglySorted parked_le h → StronglySorted parked_le (heap_push d h).
Proof.
  induction 1 as [|e h Hs IH He]; cbn; [by repeat constructor|]. case_decide as Hd.
  - constructor; [by constructor|]. constructor; [done|].
    eapply Forall_impl; [done|]. intros x Hx. unfold parked_le in *. by etrans.
  - constructor; [done|]. apply Forall_forall. intros x [->|Hx]%elem_of_heap_push.
    + unfold parked_le. destruct (total key_le (parked_key d) (parked_key e)); done.
    + by eapply Forall_forall in He.
Qed.

Lemma parked_le_at x y : parked_le x y → (at_ x ≤ at_ y)%N.
Proof.
  unfold parked_le, parked_key. cbn. unfold pair_key_le. cbn. case_decide as H; [by rewrite H|done].
Qed.

Section expiry.
Context {T : Type}.
Implicit Types (s : PartitionState.t T) (a b : Address) (n k : N) (p : T) (op : Op T).

(** If the slot of [a] at [k] is parked, it has its heap entry. *)
Definition on_heap s a k : Prop :=
  ∀ sl d, slot_of s a k = Some sl → PendingBuffer.deadline sl = Some d → mkParked d a k ∈ deadlines s.

(** Every slot parked above the floor of its sender has its heap entry, and the heap
    is in pop order. *)
Record covered s : Prop := {
  cov_entry : ∀ a k, (next_nonce s a < k)%N → on_heap s a k;
  cov_sorted : StronglySorted parked_le (deadlines s);
}.

(** A step that adds heap entries for the slots it parks. *)
Definition heap_grows s s' : Prop :=
  (∀ a k sl d, slot_of s' a k = Some sl → PendingBuffer.deadline sl = Some d →
     slot_of s a k = Some sl ∨ mkParked d a k ∈ deadlines s') ∧
  (∀ x, x ∈ deadlines s → x ∈ deadlines s') ∧
  (StronglySorted parked_le (deadlines s) → StronglySorted parked_le (deadlines s')).

Lemma heap_grows_covered s s' :
  (∀ a k, (next_nonce s' a < k)%N → (next_nonce s a < k)%N ∨ on_heap s a k) → covered s → heap_grows s s' → covered s'.
Proof.
  intros Hf [C1 C2] (H1 & H2 & H3). split; [|auto]. intros a k Hk sl d Hs Hd.
  destruct (H1 a k sl d Hs Hd) as [Hold|]; [|done]. apply H2. destruct (Hf a k Hk); [by eapply C1|eauto].
Qed.

(** A floor that goes down leaves its sender covered when the slot at it was. *)
Lemma lowers_covered s a : wf s → on_heap s a (next_nonce s a) → ∀ k, (next_nonce s a < k)%N ∨ on_heap s a k.
Proof.
  intros Hwf Ha k. destruct (N.lt_trichotomy (next_nonce s a) k) as [?|[<-|Hlt]]; [by left|by right|right].
  intros sl d Hs _. pose proof (wf_slots s a k Hwf ltac:(eauto)). lia.
Qed.

Lemma shrinks_grows s s' : shrinks s s' → deadlines s' = deadlines s → heap_grows s s'.
Proof. intros [_ Hs] Hd. split; [eauto|]. rewrite Hd. auto. Qed.

Lemma slots_grow s s' :
  (∀ a k sl, slot_of s' a k = Some sl → slot_of s a k = Some sl ∨ PendingBuffer.deadline sl = None) →
  deadlines s' = deadlines s → heap_grows s s'.
Proof.
  intros Hs Hd. split; [|rewrite Hd; auto]. intros a k sl d H1 H2.
  destruct (Hs _ _ _ H1); [auto | congruence].
Qed.

Lemma deadlines_trim s a keep : deadlines (trim_refused s a keep) = deadlines s.
Proof. unfold trim_refused. destruct (refused s !! a); [case_decide|]; done. Qed.

Lemma run_slots s s' a items k sl : run_of s s' a items → slot_of s' a k = Some sl → slot_of s a k = Some sl.
Proof.
  intros Hr Hs. destruct (decide (k ∈ items.*1)) as [Hi|Hi].
  - by rewrite (run_gone _ _ _ _ Hr _ Hi) in Hs.
  - by rewrite <-(run_rest _ _ _ _ Hr _ Hi).
Qed.

Lemma process_deadlines s now a n p :
  n = next_nonce s a → deadlines (process_at s now a n p).1 = deadlines s.
Proof.
  intros Hn. unfold process_at. rewrite <-Hn, N.ltb_irrefl. cbn [andb].
  fold (remove_at s a n). assert (H0 : deadlines (remove_at s a n).1 = deadlines s).
  { unfold remove_at. by destruct (pending s !! a). }
  destruct (remove_at s a n) as [s1 first]; cbn in H0. unfold drain_consecutive_into.
  destruct (pending s1 !! a) as [buf|]; [|done].
  by destruct (PendingBuffer.drain buf _).
Qed.

Lemma drain_pending_deadlines s order : deadlines (drain_pending s order).1 = deadlines s.
Proof.
  unfold drain_pending. generalize (@nil (Address * N * T)) as out. revert s.
  induction order as [|a order IH]; intros s out; [done|]. cbn [fold_left].
  assert (H1 : deadlines (drain_one_sender (s, out) a).1 = deadlines s).
  { unfold drain_one_sender. destruct (pending s !! a) as [buf|]; [|done].
    unfold drain_sender_run. destruct (PendingBuffer.drain _ _) as [buf' items].
    by destruct (last items). }
  destruct (drain_one_sender (s, out) a) as [s1 out1]. by rewrite IH.
Qed.

Lemma park_grows s now a n p : heap_grows s (park s now a n p).1.
Proof.
  destruct (park_parks s now a n p) as [_ _ Ho Hn Hold _].
  assert (Hheap : deadlines (park s now a n p).1 = deadlines s ∧
      (slot_of (park s now a n p).1 a n = slot_of s a n) ∨
      deadlines (park s now a n p).1 = heap_push (mkParked (now + tx_ttl s) a n) (deadlines s)).
  { revert Hn. unfold park. destruct (PendingBuffer.insert _ _ _ _) as [buf []] eqn:E; cbn;
      try (by right); left; split; try done; revert E; unfold PendingBuffer.insert;
      destruct (PendingBuffer.capacity _); try (destruct (if _ : bool then _ else _) as [[]|]);
      try (destruct (N.ltb _ _)); try (destruct (PendingBuffer.contains _ _)); intros [= <-];
      rewrite slot_of_insert, decide_True by done; apply slot_of_buffer_of. }
  assert (Hin : ∀ x, x ∈ deadlines s → x ∈ deadlines (park s now a n p).1).
  { intros x Hx. destruct Hheap as [[-> _]| ->]; [done|]. rewrite elem_of_heap_push. auto. }
  split; [|split; [done|]].
  - intros b k sl d Hs Hd. destruct (decide (a = b)) as [<-|Hne]; [|left; by rewrite <-Ho].
    destruct (decide (k = n)) as [->|Hk]; [|left; by apply Hold].
    destruct Hheap as [[_ He]|He]; [left; congruence|].
    destruct Hn as [Hn|[[Hn _]|[Hn _]]]; [|left; congruence|left; congruence].
    right. rewrite He, elem_of_heap_push. left. rewrite Hn in Hs. injection Hs as <-.
    cbn in Hd. injection Hd as <-. done.
  - intros Hs. destruct Hheap as [[-> _]| ->]; [done|]. by apply heap_push_sorted.
Qed.

Lemma fold_push_heap (l : list (N * T)) d a h :
  (∀ x, x ∈ h ∨ (∃ e, e ∈ l ∧ x = mkParked d a e.1) →
        x ∈ fold_left (λ h e, heap_push (mkParked d a e.1) h) l h) ∧
  (StronglySorted parked_le h →
   StronglySorted parked_le (fold_left (λ h e, heap_push (mkParked d a e.1) h) l h)).
Proof.
  revert h; induction l as [|e l IH]; intros h; cbn.
  - split; [|done]. intros x [?|(e & ? & _)]; set_solver.
  - destruct (IH (heap_push (mkParked d a e.1) h)) as [I1 I2]. split.
    + intros x Hx. apply I1. rewrite elem_of_heap_push.
      destruct Hx as [Hx|(e' & [->|He]%elem_of_cons & ->)]; eauto.
    + intros Hs. by apply I2, heap_push_sorted.
Qed.

Lemma tx_ttl_trim s a keep : tx_ttl (trim_refused s a keep) = tx_ttl s.
Proof. unfold trim_refused. destruct (refused s !! a); [case_decide|]; done. Qed.

Lemma free_nonce_deadlines s now freed :
  deadlines (free_nonce s now freed) =
  fold_left (λ h e, heap_push (mkParked (now + tx_ttl s) (freed_sender freed) e.1) h)
            (later freed) (deadlines s).
Proof.
  unfold free_nonce, rewind_floor. cbn [deadlines with_deadlines with_next].
  by rewrite deadlines_trim, tx_ttl_trim.
Qed.

Lemma free_nonce_grows s now freed : heap_grows s (free_nonce s now freed).
Proof.
  destruct (fold_push_heap (later freed) (now + tx_ttl s) (freed_sender freed) (deadlines s)) as [F1 F2].
  unfold heap_grows. rewrite free_nonce_deadlines. split; [|split; auto].
  intros a k sl d' Hs Hd. unfold free_nonce in Hs. rewrite tx_ttl_trim in Hs.
  set (s0 := trim_refused _ _ _) in Hs. unfold rewind_floor in Hs. cbn [fst snd] in Hs.
  rewrite slot_of_deadlines, slot_of_insert in Hs.
  case_decide as Ha; [|left; rewrite slot_of_next in Hs; unfold s0 in Hs; by rewrite slot_of_trim in Hs].
  subst a. destruct (fold_reinsert_inner (later freed) (buffer_of s0 (freed_sender freed))
    (Some (now + tx_ttl s)%N) k) as [Heq|(v & Hin & Heq)].
  - left. rewrite Heq, slot_of_buffer_of in Hs. unfold s0 in Hs. by rewrite slot_of_trim in Hs.
  - right. rewrite Heq in Hs. injection Hs as <-. cbn in Hd. injection Hd as <-. apply F1. eauto.
Qed.

(** ** The sweep *)

(** The slot of [a] at [k] waits above the floor with [p], parked until at most [now]. *)
Definition due s (now : Instant) a k p : Prop :=
  (next_nonce s a < k)%N ∧ ∃ d, slot_of s a k = Some (PendingBuffer.mkSlot (Some d) p) ∧ (d ≤ now)%N.

(** What the entry [d] of the heap names above the floor. *)
Definition named s (d : ParkedDeadline) : option (PendingBuffer.Slot T) :=
  if (next_nonce s (pd_sender d) <? pd_nonce d)%N then slot_of s (pd_sender d) (pd_nonce d) else None.

Lemma expire_parked_spec s d :
  let '(s', r) := expire_parked s d in
  next s' = next s ∧ deadlines s' = deadlines s ∧
  (∀ b k, (b, k) ≠ (pd_sender d, pd_nonce d) → slot_of s' b k = slot_of s b k) ∧
  match named s d with
  | Some (PendingBuffer.mkSlot dl p) =>
    if decide (dl = Some (at_ d))
    then r = Some (pd_sender d, pd_nonce d, p) ∧ slot_of s' (pd_sender d) (pd_nonce d) = None
    else r = None ∧ slot_of s' (pd_sender d) (pd_nonce d) = slot_of s (pd_sender d) (pd_nonce d)
  | None => r = None ∧ slot_of s' (pd_sender d) (pd_nonce d) = slot_of s (pd_sender d) (pd_nonce d)
  end.
Proof.
  unfold expire_parked, named. destruct d as [d a n]; cbn [pd_sender pd_nonce at_].
  destruct (N.leb_spec n (next_nonce s a)) as [Hle|Hlt]; [by rewrite (proj2 (N.ltb_ge _ _) Hle)|].
  rewrite (proj2 (N.ltb_lt _ _) Hlt). destruct (pending s !! a) as [buf|] eqn:E.
  2:{ assert (slot_of s a n = None) as -> by (unfold slot_of; by rewrite E). done. }
  assert (Hsame : ∀ b k, slot_of (with_pending s (<[a := buf]> (pending s))) b k = slot_of s b k).
  { intros b k. rewrite slot_of_insert. case_decide; [subst b|done]. by rewrite (slot_of_Some _ _ _ E). }
  rewrite (slot_of_Some _ _ _ E). unfold PendingBuffer.expire.
  destruct (PendingBuffer.inner buf !! n) as [[dl p]|] eqn:En; cbn [PendingBuffer.deadline].
  2:{ split; [done|]. split; [done|]. split; [auto|]. split; [done|]. by rewrite Hsame, (slot_of_Some _ _ _ E). }
  destruct (decide (dl = Some d)) as [->|Hne].
  - rewrite bool_decide_true by done. cbn [PendingBuffer.remove fst snd]. rewrite En.
    split; [done|]. split; [done|]. split.
    + intros b k Hbk. rewrite slot_of_insert. case_decide; [subst b|done]. cbn.
      rewrite lookup_delete_ne by congruence. by rewrite (slot_of_Some _ _ _ E).
    + split; [done|]. rewrite slot_of_insert, decide_True by done. apply lookup_delete_eq.
  - rewrite bool_decide_false by done. split; [done|]. split; [done|]. split; [auto|]. split; [done|].
    by rewrite Hsame, (slot_of_Some _ _ _ E).
Qed.

(** One pull of the sweep: pop the head of the heap, and expire its slot. *)
Lemma pull_covered s head rest :
  covered s → deadlines s = head :: rest → covered (expire_parked (with_deadlines s rest) head).1.
Proof.
  intros [C1 C2] Hd. set (s1 := with_deadlines s rest).
  pose proof (expire_parked_spec s1 head) as He.
  destruct (expire_parked s1 head) as [s2 r]. destruct He as (Hnx & Hdl & Hoth & Hat). cbn [fst].
  rewrite Hd in C2. inversion C2 as [|? ? C3 _]; subst.
  split; [|by rewrite Hdl]. unfold on_heap. rewrite Hdl. cbn [deadlines s1 with_deadlines]. unfold next_nonce. rewrite Hnx.
  intros a k Hk sl d Hs Hdd. change (next_nonce s a < k)%N in Hk.
  assert (∀ sl, slot_of s a k = Some sl → PendingBuffer.deadline sl = Some d → mkParked d a k = head ∨ mkParked d a k ∈ rest) as Hin.
  { intros sl' H1 H2. apply elem_of_cons. rewrite <-Hd. by apply (C1 a k Hk sl'). }
  destruct (decide ((a, k) = (pd_sender head, pd_nonce head))) as [[= -> ->]|Hne].
  - unfold named in Hat. change (next_nonce s1) with (next_nonce s) in Hat. rewrite (proj2 (N.ltb_lt _ _) Hk) in Hat.
    unfold s1 in Hat. rewrite slot_of_deadlines in Hat.
    destruct (slot_of s (pd_sender head) (pd_nonce head)) as [[dl p]|] eqn:E; [|destruct Hat as [_ Hat]; congruence].
    case_decide as Hdl'; destruct Hat as [_ Hat]; [congruence|].
    rewrite Hat in Hs. injection Hs as <-. cbn in Hdd. subst dl.
    destruct (Hin _ eq_refl eq_refl) as [Hh|]; [|done]. rewrite <-Hh in Hdl'. by cbn in Hdl'.
  - rewrite Hoth in Hs by done. destruct (Hin _ Hs Hdd) as [Hh|]; [|done]. rewrite <-Hh in Hne. by cbn in Hne.
Qed.

Record swept s s' (now : Instant) (max : nat) (out : list (Address * N * T)) : Prop := {
  sw_due : ∀ a k p, (a, k, p) ∈ out → due s now a k p;
  sw_slots : ∀ a k sl, slot_of s' a k = Some sl ↔
     slot_of s a k = Some sl ∧ (a, k) ∉ out.*1;
  sw_nodup : NoDup out.*1;
  sw_max : length out ≤ max;
  sw_all : length out < max → ∀ a k p, due s now a k p → (a, k, p) ∈ out;
  sw_covered : covered s';
  sw_shrinks : shrinks s s';
}.

Lemma head_not_due s now head rest a k p :
  covered s → deadlines s = head :: rest → (now < at_ head)%N → ¬ due s now a k p.
Proof.
  intros [C1 C2] Hd Hlt (Hk & d & Hs & Hle). specialize (C1 _ _ Hk _ d Hs eq_refl). rewrite Hd in *.
  inversion C2 as [|? ? _ C4]; subst. apply elem_of_cons in C1 as [<-|Hin].
  - cbn in Hlt. lia.
  - apply (proj1 (Forall_forall _ _) C4) in Hin. apply parked_le_at in Hin. cbn in Hin. lia.
Qed.

Lemma swept_nil s now max :
  covered s → (max = 0 ∨ ∀ a k p, ¬ due s now a k p) → swept s s now max [].
Proof.
  intros Hc Hn. split; try done; cbn.
  - by intros a k p Hin%elem_of_nil.
  - intros a k sl. split; [|tauto]. intros Hs. split; [done|]. apply not_elem_of_nil.
  - constructor.
  - lia.
  - intros Hm a k p Hd. destruct Hn as [Hn|Hn]; [lia|]. by destruct (Hn a k p).
Qed.

(** A pull that expires nothing changes no slot. *)
Lemma swept_skip s s2 s' now max out :
  (∀ a, next_nonce s2 a = next_nonce s a) → (∀ a k, slot_of s2 a k = slot_of s a k) →
  swept s2 s' now max out → swept s s' now max out.
Proof.
  intros Hn Hs [W1 W2 W3 W4 W5 W6 W7].
  assert (Hdue : ∀ a k p, due s2 now a k p ↔ due s now a k p)
    by (intros; unfold due; rewrite Hn; by setoid_rewrite Hs).
  split; try done.
  - intros a k p Hin. by apply Hdue, W1.
  - intros a k sl. rewrite W2, Hs. done.
  - intros Hm a k p Hd. apply W5; [done|]. by apply Hdue.
  - eapply shrinks_trans; [|done]. split; [done|]. intros a k sl. by rewrite Hs.
Qed.

(** A pull that expires the slot of [a] at [k]. *)
Lemma swept_cons s s2 s' now max out a k p :
  due s now a k p → (∀ b, next_nonce s2 b = next_nonce s b) →
  (∀ b j, slot_of s2 b j = if decide ((b, j) = (a, k)) then None else slot_of s b j) →
  swept s2 s' now max out → swept s s' now (S max) ((a, k, p) :: out).
Proof.
  intros Hd Hn Hs [W1 W2 W3 W4 W5 W6 W7].
  assert (Hnin : (a, k) ∉ out.*1).
  { intros ([[b j] q] & [= <- <-] & Hin)%list_elem_of_fmap.
    destruct (W1 _ _ _ Hin) as (_ & d & Hd' & _). rewrite Hs, decide_True in Hd' by done. done. }
  split; cbn [length fmap list_fmap fst].
  - intros b j q [[= -> -> ->]|Hin]%elem_of_cons; [done|].
    destruct (W1 _ _ _ Hin) as (Hk & d & Hd' & Hle). rewrite Hs in Hd'. case_decide; [done|].
    rewrite Hn in Hk. split; [done|]. by exists d.
  - intros b j sl. rewrite W2, Hs, not_elem_of_cons. case_decide as Hbj; [|tauto].
    split; [by intros []|]. intros [_ [Hne _]]. congruence.
  - by constructor.
  - lia.
  - intros Hm b j q (Hj & d & Hd' & Hle). destruct (decide ((b, j) = (a, k))) as [[= -> ->]|Hne].
    + destruct Hd as (_ & d0 & Hd0 & _). rewrite Hd0 in Hd'. injection Hd' as <- <-. left.
    + right. apply W5; [lia|]. split; [by rewrite Hn|]. exists d. split; [|done]. rewrite Hs, decide_False by done. done.
  - done.
  - eapply shrinks_trans; [|done]. split; [done|]. intros b j sl. rewrite Hs. by case_decide.
Qed.

Lemma sweep_loop_swept fuel s now max :
  covered s → length (deadlines s) ≤ fuel →
  swept s (sweep_loop fuel s now max).1 now max (sweep_loop fuel s now max).2.
Proof.
  revert s max; induction fuel as [|fuel IH]; intros s max Hc Hf.
  { apply swept_nil; [done|]. right. intros a k p (Hk & d & Hs & _).
    pose proof (cov_entry s Hc a k Hk _ d Hs eq_refl) as Hin.
    destruct (deadlines s); [by apply elem_of_nil in Hin | cbn in Hf; lia]. }
  destruct max as [|max]; [apply swept_nil; auto|].
  cbn [sweep_loop]. unfold pop_due. destruct (deadlines s) as [|head rest] eqn:Hd.
  { apply swept_nil; [done|]. right. intros a k p (Hk & d & Hs & _).
    pose proof (cov_entry s Hc a k Hk _ d Hs eq_refl) as Hin. rewrite Hd in Hin. by apply elem_of_nil in Hin. }
  destruct (N.leb_spec (at_ head) now) as [Hle|Hlt].
  2:{ apply swept_nil; [done|]. right. intros a k p. by eapply head_not_due. }
  set (s1 := with_deadlines s rest).
  pose proof (expire_parked_spec s1 head) as He.
  pose proof (pull_covered s head rest Hc Hd) as Hc2. fold s1 in Hc2.
  destruct (expire_parked s1 head) as [s2 r]. cbn [fst] in Hc2.
  destruct He as (Hnx & Hdl & Hoth & Hat).
  assert (Hf2 : length (deadlines s2) ≤ fuel) by (rewrite Hdl; cbn in *; lia).
  pose proof (IH s2) as IH2.
  assert (Hn2 : ∀ a, next_nonce s2 a = next_nonce s a) by (intros; unfold next_nonce; by rewrite Hnx).
  unfold named in Hat. change (slot_of s1) with (slot_of s) in *. change (next_nonce s1) with (next_nonce s) in *.
  assert (Hskip : r = None ∧ slot_of s2 (pd_sender head) (pd_nonce head) =
      slot_of s (pd_sender head) (pd_nonce head) →
    swept s (sweep_loop fuel s2 now (S max)).1 now (S max) (sweep_loop fuel s2 now (S max)).2).
  { intros [_ Hsame]. apply (swept_skip s s2); [done| |by apply IH2].
    intros a k. destruct (decide ((a, k) = (pd_sender head, pd_nonce head))) as [[= -> ->]|]; auto. }
  destruct (N.ltb_spec (next_nonce s (pd_sender head)) (pd_nonce head)) as [Hk|]; [|destruct Hat as [-> Hat]; auto].
  destruct (slot_of s (pd_sender head) (pd_nonce head)) as [[dl p]|] eqn:E; [|destruct Hat as [-> Hat]; auto].
  case_decide as Hdd; [|destruct Hat as [-> Hat]; auto].
  destruct Hat as [-> Hat]. specialize (IH2 max Hc2 Hf2).
  destruct (sweep_loop fuel s2 now max) as [s3 es]. cbn [fst snd] in *.
  apply (swept_cons s s2); [|done| |done].
  - split; [done|]. exists (at_ head). by rewrite E, Hdd.
  - intros b j. case_decide as Hbj; [injection Hbj as -> ->; done | auto].
Qed.

(** ** Coverage over every operation *)

(** A step that lowers the floor of a sender finds no parked ref at it whose heap entry
    a sweep has taken. *)
Definition rewind_ok s op : Prop :=
  match op with
  | OReinsert a _ _ | ORelease a _ | OForget a => on_heap s a (next_nonce s a)
  | OFree _ freed => on_heap s (freed_sender freed) (next_nonce s (freed_sender freed))
  | _ => True
  end.

Fixpoint rewinds_ok s (ops : list (Op T)) : Prop :=
  match ops with
  | [] => True
  | op :: ops' => rewind_ok s op ∧ rewinds_ok (exec_op s op).1 ops'
  end.

(** The floors that a step leaves at or above where they were, but for one sender. *)
Lemma floors_covered s s' (lowered : option Address) :
  wf s → match lowered with Some a => on_heap s a (next_nonce s a) | None => True end →
  (∀ a, lowered ≠ Some a → (next_nonce s a ≤ next_nonce s' a)%N) → covered s → heap_grows s s' → covered s'.
Proof.
  intros Hwf Hl Hn. apply heap_grows_covered. intros a k Hk. destruct (decide (lowered = Some a)) as [->|Hne].
  - by apply lowers_covered.
  - left. specialize (Hn a Hne). lia.
Qed.

Lemma exec_op_covered s op : wf s → op_ok s op → rewind_ok s op → covered s → covered (exec_op s op).1.
Proof.
  intros Hwf Hok Hset Hc.
  destruct op as [a|now a n p|a n p|now freed|a n|a n|a n named|now max|order|a floor|a chain|a];
    cbn [exec_op fst rewind_ok] in *.
  - apply (floors_covered s _ None Hwf I); [|done|apply slots_grow; auto]. intros b _. cbn in Hok. unfold seed_next_nonce.
    rewrite next_nonce_insert. case_decide; [subst|done]. unfold next_nonce, next_nonce_known in *. rewrite Hok. cbn. lia.
  - cbn in Hok. destruct (N.lt_trichotomy n (next_nonce s a)) as [Hlt|[Heq|Hgt]].
    + rewrite process_past by done. done.
    + pose proof (process_deadlines s now a n p Heq) as Hd.
      destruct (process_matched s now a n p Hwf Heq Hok) as (s' & items & Hp & Hr & Ho & _).
      rewrite Hp in *. assert (∀ b, ∃ l, run_of s s' b l) as Hrun by (intros b; destruct (decide (a = b)) as [<-|]; eauto).
      apply (floors_covered s _ None Hwf I); [|done|].
      * intros b _. destruct (Hrun b) as [l Hl]. cbn [fst]. rewrite (run_next _ _ _ _ Hl). lia.
      * apply slots_grow; [|done]. intros b k sl Hs. left. destruct (Hrun b) as [l Hl]. eapply run_slots; eauto.
    + rewrite process_future by done. apply (floors_covered s _ None Hwf I); [|done|apply park_grows].
      intros b _. unfold next_nonce. cbn [fst]. by rewrite (park_next _ _ _ _ _ _ _ (park_parks s now a n p)).
  - apply (floors_covered s _ (Some a) Hwf Hset); [|done|].
    + intros b Hb. rewrite reinsert_next, decide_False by congruence. done.
    + apply slots_grow; [|done]. intros b k sl. rewrite reinsert_slot. case_decide; [intros [= <-]; by right | auto].
  - apply (floors_covered s _ (Some (freed_sender freed)) Hwf Hset); [|done|apply free_nonce_grows].
    intros b Hb. rewrite free_nonce_next, decide_False by congruence. done.
  - apply (floors_covered s _ None Hwf I); [intros b _; by rewrite (proj1 (mark_shrinks s a n))|done|].
    apply shrinks_grows; [apply mark_shrinks|]. unfold mark_refused. by destruct (N.ltb _ _).
  - unfold clear_refused. apply (floors_covered s _ None Hwf I); [intros b _; by rewrite next_nonce_trim|done|].
    apply shrinks_grows; [apply trim_shrinks | apply deadlines_trim].
  - apply (floors_covered s _ None Hwf I); [intros b _; by rewrite (proj1 (take_parked_shrinks s a n named))|done|].
    apply shrinks_grows; [apply take_parked_shrinks|].
    unfold take_parked. destruct (pending s !! a); [|done]. by destruct (PendingBuffer.take_parked _ _ _).
  - eapply sw_covered, (sweep_loop_swept (length (deadlines s)) s now max); auto.
  - pose proof (drain_pending_deadlines s order) as Hd. revert Hd.
    pose proof (drain_pending_from s [] order Hwf) as Hr. unfold drain_pending.
    destruct (fold_left drain_one_sender order (s, [])) as [s' out]. cbn [fst]. intros Hd.
    destruct Hr as (new & _ & Hnew). apply (floors_covered s _ None Hwf I); [|done|].
    + intros b _. destruct (Hnew b) as [Hr _]. rewrite (run_next _ _ _ _ Hr). lia.
    + apply slots_grow; [|done]. intros b k sl Hs. left. destruct (Hnew b) as [Hr _]. eapply run_slots; eauto.
  - apply (floors_covered s _ None Hwf I); [intros b _; rewrite advance_floor_next; case_decide; subst; lia|done|].
    apply slots_grow.
    + intros b k sl. rewrite advance_floor_slot. case_decide; [done | auto].
    + unfold advance_floor. destruct (N.leb _ _); [done|].
      destruct (pending s !! a); cbn; by rewrite deadlines_trim.
  - apply (floors_covered s _ (Some a) Hwf Hset); [intros b Hb; rewrite release_floor_next, decide_False by congruence; done|done|].
    apply slots_grow.
    + intros b k sl. rewrite release_floor_slot. auto.
    + unfold release_floor. destruct (next_nonce_known s a); [|done].
      destruct (N.ltb _ _); [|done]. cbn [fst]. by rewrite deadlines_trim.
  - apply (floors_covered s _ (Some a) Hwf Hset); [|done|apply slots_grow; auto].
    intros b Hb. rewrite forget_floor_next, decide_False by congruence. done.
Qed.

Lemma exec_ops_covered s ops :
  wf s → ops_ok s ops → rewinds_ok s ops → covered s → covered (exec_ops s ops).1.
Proof.
  revert s; induction ops as [|op ops IH]; intros s Hwf Hok Hst Hc; [done|].
  destruct Hok as [H1 H2]. destruct Hst as [S1 S2].
  pose proof (exec_op_wf s op Hwf H1) as Hwf1. pose proof (exec_op_covered s op Hwf H1 S1 Hc) as Hc1.
  cbn [exec_ops]. destruct (exec_op s op) as [s1 o1]. specialize (IH s1 Hwf1 H2 S2 Hc1). cbn in *.
  by destruct (exec_ops s1 ops).
Qed.

Lemma covered_new cap ttl : covered (PartitionState.new cap ttl : PartitionState.t T).
Proof.
  split; [|constructor]. intros a k _ sl d. unfold slot_of; cbn. by rewrite lookup_empty.
Qed.

(** The heap entry of a slot at the floor leaves with the sweep, and the slot
    stays. *)
Lemma unsettled_sweep_drops s now max a n p d :
  deadlines s = [mkParked d a n] → next_nonce s a = n → (d ≤ now)%N →
  slot_of s a n = Some (PendingBuffer.mkSlot (Some d) p) → 0 < max →
  sweep_expired s now max = (with_deadlines s [], []).
Proof.
  intros Hd Hn Hle Hs Hm. unfold sweep_expired. rewrite Hd. cbn [length sweep_loop].
  destruct max as [|max]; [lia|]. unfold pop_due. rewrite Hd. cbn [at_].
  rewrite (proj2 (N.leb_le _ _) Hle). unfold expire_parked. cbn [pd_nonce pd_sender].
  change (next_nonce (with_deadlines s []) a) with (next_nonce s a).
  rewrite Hn, N.leb_refl. done.
Qed.
End expiry.
