(* ===== verification/StateSpec.v ===== *)
(** * Properties of the nonce state machine

    The theorems over [PartitionState.t]: the floor invariant over every
    sequence of operations, the density of the publish order, conservation of
    refs, rewinds, and expiry. *)
From S2P Require Import Prelude Pending State StateFacts StateOps StateExpiry.
Import PartitionState.

Section lemmas.
Context {T : Type}.
Implicit Types (s : PartitionState.t T) (a b : Address) (n k : N) (p : T) (op : Op T).

(** The refused nonces of a sender, before the steps or marked by one of them. *)
Definition marked s (ops : list (Op T)) a n : Prop := is_refused s a n = true ∨ OMark a n ∈ ops.

Lemma exec_ops_run s ops b :
  wf s → ops_ok s ops → Forall keeps_floor ops →
  runs_to (marked s ops b) (next_nonce s b) (of_sender b (exec_ops s ops).2).*1 (next_nonce (exec_ops s ops).1 b).
Proof.
  revert s; induction ops as [|op ops IH]; intros s Hwf Hok Hk; [apply runs_to_nil|].
  destruct Hok as [H1 H2]. apply Forall_cons in Hk as [K1 K2].
  pose proof (exec_op_run s op b Hwf H1 K1) as Hr1. pose proof (λ n, exec_op_refused s op b n K1) as Hm.
  pose proof (exec_op_wf s op Hwf H1) as Hwf1. cbn [exec_ops].
  destruct (exec_op s op) as [s1 o1]. specialize (IH s1 Hwf1 H2 K2). cbn [fst snd] in *.
  destruct (exec_ops s1 ops) as [s2 o2]. cbn [fst snd] in *. rewrite of_sender_app, fmap_app.
  eapply runs_to_app; (eapply runs_to_mono; [|eassumption]); intros n; [by left|].
  intros [[?| ->]%Hm|?]; [by left|right; left|by right; right].
Qed.

(** Rewinds of one sender, as [rewind_for_republish] applies them. *)
Definition reinsert_all s a (refs : list (N * T)) : PartitionState.t T :=
  fold_left (λ q e, reinsert_for_retry q a e.1 e.2) refs s.

Lemma reinsert_all_other s a refs b :
  a ≠ b → next_nonce (reinsert_all s a refs) b = next_nonce s b ∧
          ∀ k, slot_of (reinsert_all s a refs) b k = slot_of s b k.
Proof.
  intros Hne. revert s; induction refs as [|[n p] refs IH]; intros s; [done|].
  change (reinsert_all s a ((n, p) :: refs)) with (reinsert_all (reinsert_for_retry s a n p) a refs).
  destruct (IH (reinsert_for_retry s a n p)) as [-> H2]. split.
  - rewrite reinsert_next, decide_False by done. done.
  - intros k. rewrite H2, reinsert_slot, decide_False by naive_solver. done.
Qed.

Lemma reinsert_next_map s a n p :
  next (reinsert_for_retry s a n p) = <[a := match next s !! a with Some m => N.min m n | None => n end]> (next s).
Proof. done. Qed.

(** The floor ends at the lowest of the floor and the rewound nonces. *)
Lemma reinsert_all_next s a refs m :
  next s !! a = Some m →
  next (reinsert_all s a refs) !! a = Some (fold_left N.min refs.*1 m).
Proof.
  revert s m; induction refs as [|[n p] refs IH]; intros s m Hm; [done|].
  apply (IH (reinsert_for_retry s a n p)). rewrite reinsert_next_map, Hm. apply lookup_insert_eq.
Qed.

Lemma reinsert_all_slot s a refs k :
  NoDup refs.*1 →
  slot_of (reinsert_all s a refs) a k =
  match list_find (λ e, e.1 = k) refs with
  | Some (_, e) => Some (PendingBuffer.mkSlot None e.2)
  | None => slot_of s a k
  end.
Proof.
  revert s; induction refs as [|[n p] refs IH]; intros s Hnd; [done|].
  apply NoDup_cons in Hnd as [Hni Hnd].
  change (reinsert_all s a ((n, p) :: refs)) with (reinsert_all (reinsert_for_retry s a n p) a refs).
  rewrite IH, reinsert_slot by done. cbn.
  destruct (decide (n = k)) as [->|Hne].
  - destruct (list_find (λ e, e.1 = k) refs) as [[i [k' v]]|] eqn:E.
    + apply list_find_Some in E as (E1 & E2 & _). cbn in E2. subst k'.
      exfalso. apply Hni, list_elem_of_fmap. exists (k, v). split; [done|].
      by eapply list_elem_of_lookup_2.
    + by rewrite decide_True.
  - rewrite decide_False by naive_solver.
    destruct (list_find (λ e, e.1 = k) refs) as [[i [k' v]]|]; done.
Qed.

Lemma fold_min_run (l : list N) (m start : N) (len : nat) :
  l ≡ₚ nseq start len → 0 < len → (start ≤ m)%N → fold_left N.min l m = start.
Proof.
  intros Hp Hl Hm.
  assert (Hge : ∀ l' m', (∀ x, x ∈ l' → (start ≤ x)%N) → (start ≤ m')%N → (start ≤ fold_left N.min l' m')%N).
  { induction l' as [|x l' IH]; intros m' Hx Hm'; cbn; [done|]. apply IH; [set_solver|].
    specialize (Hx x ltac:(set_solver)). lia. }
  assert (Hmono : ∀ l' y, (fold_left N.min l' y ≤ y)%N).
  { induction l' as [|z l' IH]; intros y; cbn; [lia|]. specialize (IH (N.min y z)). lia. }
  assert (Hle : ∀ l' m', (m' = start ∨ start ∈ l') → (fold_left N.min l' m' ≤ start)%N).
  { induction l' as [|x l' IH]; intros m' [->|Hin]; cbn; [lia|set_solver|..].
    - destruct (N.min_spec start x) as [[? ->]|[? ->]]; [apply IH; auto|].
      specialize (Hmono l' x). lia.
    - apply elem_of_cons in Hin as [<-|Hin]; [|apply IH; auto].
      specialize (Hmono l' (N.min m' start)). lia. }
  apply N.le_antisymm.
  - apply Hle. right. rewrite Hp, elem_of_nseq. lia.
  - apply Hge; [|done]. intros x. rewrite Hp, elem_of_nseq. lia.
Qed.
End lemmas.

Section rewinds.
Context {T : Type}.
Implicit Types (s : PartitionState.t T) (a b : Address) (n k : N) (p : T).

Lemma reinsert_all_wf s a (refs : list (N * T)) :
  wf s → is_Some (next s !! a) → (∀ n, n ∈ refs.*1 → (n < u64_max)%N) → wf (reinsert_all s a refs).
Proof.
  revert s; induction refs as [|[n p] refs IH]; intros s Hwf [m Hm] Hu; [done|].
  apply (IH (reinsert_for_retry s a n p)).
  - apply (exec_op_wf s (OReinsert a n p) Hwf). split; [apply Hu; left|].
    unfold next_nonce_known. by rewrite Hm.
  - rewrite reinsert_next_map, lookup_insert_eq. eauto.
  - intros k Hk. apply Hu. by right.
Qed.

(** A sorted listing of a permutation of a run is the run. *)
Lemma sorted_run (l : list (N * T)) start len :
  StronglySorted entry_le l → l.*1 ≡ₚ nseq start len → l.*1 = nseq start len.
Proof.
  intros Hs Hp. apply (StronglySorted_unique N.le); [| |done].
  - clear Hp. induction Hs as [|x l Hs IH Hx]; cbn; constructor; [done|].
    apply Forall_fmap. eapply Forall_impl; [exact Hx|]. by intros y Hy.
  - clear. revert start; induction len as [|len IH]; intros start; cbn; constructor; [done|].
    apply Forall_forall. intros x [? _]%elem_of_nseq. lia.
Qed.

(** A run that is buffered from the floor on is drained first. *)
Lemma drained_prefix s s' a (items run : list (N * T)) :
  run_of s s' a items → slot_of s' a (next_nonce s' a) = None →
  (∀ k v, (k, v) ∈ items → PendingBuffer.value <$> slot_of s a k = Some v) →
  run.*1 = nseq (next_nonce s a) (length run) →
  (∀ k v, (k, v) ∈ run → PendingBuffer.value <$> slot_of s a k = Some v) →
  ∃ rest, items = run ++ rest.
Proof.
  intros Hr Hst Hv Hn Hrun.
  assert (Hlen : length run ≤ length items).
  { destruct (le_lt_dec (length run) (length items)) as [|Hlt]; [done|exfalso].
    rewrite (run_next _ _ _ _ Hr) in Hst.
    assert (Hin : (next_nonce s a + N.of_nat (length items))%N ∈ run.*1)
      by (rewrite Hn, elem_of_nseq; lia).
    apply list_elem_of_fmap in Hin as ([k v] & Hk & Hin). cbn in Hk. specialize (Hrun _ _ Hin).
    rewrite (run_rest _ _ _ _ Hr), Hk in Hst.
    - by rewrite Hst in Hrun.
    - rewrite (run_nonces _ _ _ _ Hr), elem_of_nseq. lia. }
  exists (drop (length run) items). rewrite <-(take_drop (length run) items) at 1. f_equal.
  apply list_eq_Forall2. apply Forall2_same_length_lookup_2.
  - rewrite length_take. lia.
  - intros i [k v] [k' v'] [Hi Hlt]%lookup_take_Some Hi'.
    assert (Hk : k = (next_nonce s a + N.of_nat i)%N).
    { assert (H : items.*1 !! i = Some k) by (by rewrite list_lookup_fmap, Hi).
      rewrite (run_nonces _ _ _ _ Hr), lookup_nseq in H by (apply lookup_lt_Some in Hi; done).
      by injection H. }
    assert (Hk' : k' = (next_nonce s a + N.of_nat i)%N).
    { assert (H : run.*1 !! i = Some k') by (by rewrite list_lookup_fmap, Hi').
      rewrite Hn, lookup_nseq in H by (apply lookup_lt_Some in Hi'; done). by injection H. }
    subst k k'. apply list_elem_of_lookup_2 in Hi, Hi'.
    specialize (Hv _ _ Hi). specialize (Hrun _ _ Hi'). rewrite Hv in Hrun. by injection Hrun as ->.
Qed.

Lemma reinsert_all_drains s a (refs : list (N * T)) start (order : list Address) :
  wf s → next_nonce_known s a = Some (next_nonce s a) →
  refs ≠ [] → refs.*1 ≡ₚ nseq start (length refs) →
  (start + N.of_nat (length refs) ≤ next_nonce s a)%N → a ∈ order →
  ∃ rest, (of_sender a (drain_pending (reinsert_all s a refs) order).2) =
          merge_sort entry_le refs ++ rest.
Proof.
  intros Hwf Hknown Hne Hrun Hend Hin.
  assert (Hlen : 0 < length refs) by (destruct refs; [done | cbn; lia]).
  pose proof (wf_next_nonce s a Hwf) as Hb.
  assert (Hu : ∀ n, n ∈ refs.*1 → (n < u64_max)%N) by (intros n; rewrite Hrun, elem_of_nseq; lia).
  set (s1 := reinsert_all s a refs).
  assert (Hwf1 : wf s1) by (apply reinsert_all_wf; [done | by eexists | done]).
  assert (Hn1 : next_nonce s1 a = start).
  { unfold next_nonce, s1. rewrite (reinsert_all_next s a refs _ Hknown). cbn.
    eapply fold_min_run; [exact Hrun | done | lia]. }
  assert (Hnd : NoDup refs.*1) by (rewrite Hrun; apply NoDup_nseq).
  pose proof (drain_pending_from s1 [] order Hwf1) as Hd. unfold drain_pending.
  destruct (fold_left drain_one_sender order (s1, [])) as [s' out].
  destruct Hd as (new & -> & Hnew). destruct (Hnew a) as (Hr & Hst & Hv). cbn [app snd].
  assert (Hperm : merge_sort entry_le refs ≡ₚ refs) by apply merge_sort_Permutation.
  eapply drained_prefix; [done | auto | done | |].
  - rewrite Hn1, (Permutation_length Hperm). apply sorted_run; [apply StronglySorted_merge_sort; apply _|].
    by rewrite Hperm.
  - intros k v Hk. rewrite Hperm in Hk. unfold s1. rewrite reinsert_all_slot by done.
    destruct (list_find (λ e, e.1 = k) refs) as [[i [k' v']]|] eqn:E.
    + apply list_find_Some in E as (E1 & E2 & _). cbn in *. subst k'. f_equal.
      apply list_elem_of_lookup_2 in E1. by eapply NoDup_fmap_fst_eq.
    + apply list_find_None in E. apply (proj1 (Forall_forall _ _) E) in Hk. by cbn in Hk.
Qed.
End rewinds.

(** ** Properties *)
Section properties.
Context {T : Type}.
Implicit Types (s : PartitionState.t T) (a b : Address) (n k : N) (p : T) (op : Op T).

(** The floor rules: after any sequence of operations called as the sequencer
    loop calls them, no buffered ref sits below the floor of its sender
    ([refs_below_floor] is zero), and every buffered nonce is below [u64::MAX]. *)
Theorem floors_hold (cap : nat) (ttl : Duration) (ops : list (Op T)) :
  ops_ok (new cap ttl) ops →
  let s := (exec_ops (new cap ttl) ops).1 in
  refs_below_floor s = 0 ∧
  (∀ a k, is_Some (slot_of s a k) → (next_nonce s a ≤ k < u64_max)%N).
Proof.
  intros Hok s. pose proof (exec_ops_wf _ _ (wf_new cap ttl) Hok) as Hwf. fold s in Hwf.
  split; [|intros a k; by apply wf_slots].
  apply refs_below_floor_zero. intros a k Hk. by apply (wf_slots s a k Hwf).
Qed.

(** C26. The publish order of each sender is dense: over any sequence of operations
    that leaves the floors to the publishes, the nonces handed to the publisher for
    one sender fall into two parts. Those at or above the floor of their time are the
    run from the first floor, with no gap, no repetition and no reordering, and the
    floor ends one past the last of them. Those below it are re-offers of nonces that
    were marked as refused. *)
Theorem publish_order_dense s (ops : list (Op T)) a :
  wf s → ops_ok s ops → Forall keeps_floor ops →
  let '(s', out) := exec_ops s ops in
  let '(run, again) := split_run (next_nonce s a) (of_sender a out).*1 in
  run = nseq (next_nonce s a) (length run) ∧
  next_nonce s' a = (next_nonce s a + N.of_nat (length run))%N ∧
  ∀ n, n ∈ again → is_refused s a n = true ∨ OMark a n ∈ ops.
Proof.
  intros Hwf Hok Hk. pose proof (exec_ops_run s ops a Hwf Hok Hk) as H.
  by destruct (exec_ops s ops).
Qed.

(** [drain_pending] drains every sender it visits to a gap and loses nothing:
    a buffered ref is either published with its payload, in the run from the
    floor, or still buffered, and nothing is left at the new floor. *)
Theorem drain_pending_complete s order :
  wf s →
  let '(s', out) := drain_pending s order in
  ∀ a, (of_sender a out).*1 = nseq (next_nonce s a) (length (of_sender a out)) ∧
    next_nonce s' a = (next_nonce s a + N.of_nat (length (of_sender a out)))%N ∧
    (a ∈ order → slot_of s' a (next_nonce s' a) = None) ∧
    (∀ k sl, slot_of s a k = Some sl ↔
       (k, PendingBuffer.value sl) ∈ of_sender a out ∧ slot_of s a k = Some sl
       ∨ slot_of s' a k = Some sl).
Proof.
  intros Hwf. pose proof (drain_pending_from s [] order Hwf) as H. unfold drain_pending.
  destruct (fold_left drain_one_sender order (s, [])) as [s' out].
  destruct H as (new & -> & Hnew). cbn [app]. intros a. destruct (Hnew a) as (Hr & Hst & Hv).
  split; [apply Hr|]. split; [apply Hr|]. split; [done|]. intros k sl. split.
  - intros Hs. destruct (decide (k ∈ (of_sender a new).*1)) as [Hin|Hin].
    + left. split; [|done]. apply list_elem_of_fmap in Hin as ([k' v] & -> & Hin).
      specialize (Hv _ _ Hin) as Hv'. cbn in *. rewrite Hs in Hv'. by injection Hv' as ->.
    + right. by rewrite (run_rest _ _ _ _ Hr).
  - intros [[_ ?]|Hs]; [done|]. eapply run_slots; eauto.
Qed.

(** The fate of the ref that [process_at] is given. *)
Lemma process_incoming s now a n p :
  wf s → (n < u64_max)%N →
  let '(s', r) := process_at s now a n p in
  (n, p) ∈ published (actions r) ∨
  slot_of s' a n = Some (PendingBuffer.mkSlot (Some (now + tx_ttl s)%N) p) ∨
  (∃ expected, actions r = [ReportDuplicate n expected]) ∧ outcome r = Past ∨ outcome r = RejectedTooFar n ∨
  outcome r = BufferedDisabled ∧ PendingBuffer.capacity (buffer_of s' a) = None ∨
  (outcome r = Matched ∧ n = next_nonce s a ∧ is_Some (slot_of s a n)).
Proof.
  intros Hwf Hu. destruct (N.lt_trichotomy n (next_nonce s a)) as [Hlt|[Heq|Hgt]].
  - rewrite process_past by done. destruct (is_refused s a n); cbn; [left; left | eauto 6].
  - destruct (process_matched s now a n p Hwf Heq Hu) as (s' & items & -> & Hr & _ & Hne & _ & Hv).
    cbn [actions outcome]. rewrite published_map.
    assert (Hn : n ∈ items.*1).
    { rewrite (run_nonces _ _ _ _ Hr), elem_of_nseq, Heq. destruct items; [done|]. cbn. lia. }
    apply list_elem_of_fmap in Hn as ([k' v] & -> & Hin). cbn in *.
    destruct (Hv _ _ Hin) as [Hv'|(_ & _ & ->)]; [|by left].
    do 5 right. split; [done|]. split; [done|]. destruct (slot_of s a k'); [eauto | done].
  - rewrite process_future by done. cbn [actions outcome fst].
    destruct (park_new _ _ _ _ _ _ _ (park_parks s now a n p)) as [?|[(_ & _ & ?)|[_ Ho]]]; auto 7.
    do 4 right. left. split; [done|]. revert Ho. unfold park, PendingBuffer.insert.
    destruct (PendingBuffer.capacity (buffer_of s a)) eqn:Ec.
    { repeat case_match; naive_solver. }
    intros _. cbn. unfold buffer_of at 1. cbn. by rewrite lookup_insert_eq.
Qed.

(** [process_at] loses no ref. Each buffered ref of the sender is published,
    still buffered, replaced by the incoming one at its nonce, or named in the
    outcome as evicted; and the incoming ref is published, buffered, or its fate
    is the outcome (a past nonce, too far, no buffer, or superseded by the
    buffered ref at the same nonce). *)
Theorem process_conserves s now a n p :
  wf s → (n < u64_max)%N →
  let '(s', r) := process_at s now a n p in
  (∀ k sl, slot_of s a k = Some sl →
     (k, PendingBuffer.value sl) ∈ published (actions r) ∨ slot_of s' a k = Some sl ∨
     (k = n ∧ outcome r ≠ Matched ∧
        slot_of s' a n = Some (PendingBuffer.mkSlot (Some (now + tx_ttl s)%N) p)) ∨
     outcome r = BufferedEvicting k (PendingBuffer.value sl)) ∧
  ((n, p) ∈ published (actions r) ∨
   slot_of s' a n = Some (PendingBuffer.mkSlot (Some (now + tx_ttl s)%N) p) ∨
   outcome r = Past ∨ outcome r = RejectedTooFar n ∨ outcome r = BufferedDisabled ∨
   (outcome r = Matched ∧ is_Some (slot_of s a n))).
Proof.
  intros Hwf Hu. pose proof (process_incoming s now a n p Hwf Hu) as Hin.
  destruct (process_at s now a n p) as [s' r] eqn:Ep. split; [clear Hin|destruct Hin as [?|[?|[[??]|[?|[[??]|(?&?&?)]]]]]; auto 7].
  destruct (N.lt_trichotomy n (next_nonce s a)) as [Hlt|[Heq|Hgt]].
  - rewrite process_past in Ep by done. destruct (is_refused s a n); injection Ep as <- <-; auto.
  - destruct (process_matched s now a n p Hwf Heq Hu) as (s1 & items & Ep' & Hr & _ & _ & _ & Hv).
    rewrite Ep' in Ep. injection Ep as <- <-. cbn [actions outcome]. rewrite published_map.
    intros k sl Hs. destruct (decide (k ∈ items.*1)) as [Hin|Hin].
    + left. apply list_elem_of_fmap in Hin as ([k' v] & -> & Hin). cbn in *.
      destruct (Hv _ _ Hin) as [Hv'|(_ & Hnone & _)]; [|congruence].
      rewrite Hs in Hv'. by injection Hv' as ->.
    + right; left. by rewrite (run_rest _ _ _ _ Hr).
  - rewrite process_future in Ep by done. injection Ep as <- <-. cbn [actions outcome fst].
    destruct (park_parks s now a n p) as [_ _ Ho Hnew Hold Hkept].
    intros k sl Hs. destruct (decide (k = n)) as [->|Hk].
    + destruct Hnew as [Hnew|[(_ & Hnone & _)|[Hsame _]]]; [|congruence|right; left; congruence].
      do 2 right. left. split; [done|]. split; [|done].
      unfold park. destruct (PendingBuffer.insert _ _ _ _) as [? []]; done.
    + destruct (Hkept k sl Hk Hs) as [?|[_ ?]]; auto.
Qed.

(** C33. A rewind republishes what it took: the refs of a run that ends below the
    known floor of the sender, reinserted in any order, are the head of what the
    next drain publishes for the sender, in ascending order. *)
Theorem rewind_republishes s a (refs : list (N * T)) start (order : list Address) :
  wf s → next_nonce_known s a = Some (next_nonce s a) →
  refs ≠ [] → refs.*1 ≡ₚ nseq start (length refs) →
  (start + N.of_nat (length refs) ≤ next_nonce s a)%N → a ∈ order →
  ∃ rest, (of_sender a (drain_pending (reinsert_all s a refs) order).2) =
          merge_sort entry_le refs ++ rest.
Proof.
  intros Hwf Hknown Hne Hrun Hend Hin.
  destruct (reinsert_all_drains s a refs start order Hwf Hknown Hne Hrun Hend Hin) as [rest Hrest].
  exists rest. exact Hrest.
Qed.

(** C27. Parked refs expire on time. Take any sequence of operations called as [op_ok]
    states (in particular, a rewind of a sender without a known floor does not pass its
    parked refs), in which every step that lowers the floor of a sender finds no parked
    ref at that floor whose heap entry a sweep has taken; a drain leaves none. Sweeps run
    anywhere in it. A sweep at [now] that returns fewer than [max] entries returns
    exactly the refs that wait above the floor of their sender and whose lifetime has
    passed, each once, and leaves every other ref. *)
Theorem expiry_complete (cap : nat) (ttl : Duration) (ops : list (Op T)) (now : Instant) (max : nat) :
  ops_ok (new cap ttl) ops → rewinds_ok (new cap ttl) ops →
  let s := (exec_ops (new cap ttl) ops).1 in
  let '(s', out) := sweep_expired s now max in
  length out ≤ max ∧ NoDup out.*1 ∧
  (∀ a k sl, slot_of s' a k = Some sl ↔ slot_of s a k = Some sl ∧ (a, k) ∉ out.*1) ∧
  (length out < max → ∀ a k p, (a, k, p) ∈ out ↔ due s now a k p).
Proof.
  intros Hok Hrw s.
  pose proof (exec_ops_covered _ _ (wf_new cap ttl) Hok Hrw (covered_new cap ttl)) as Hc.
  fold s in Hc. unfold sweep_expired.
  destruct (sweep_loop_swept (length (deadlines s)) s now max Hc ltac:(done))
    as [W1 W2 W3 W4 W5 _ _].
  destruct (sweep_loop (length (deadlines s)) s now max) as [s' out]. cbn [fst snd] in *.
  do 3 (split; [done|]). intros Hm a k p. split; auto.
Qed.

(** A ref that reaches the floor while its lifetime ends loses its heap entry to
    the sweep. If the floor then goes back to a lower chain nonce before a drain
    runs, the ref waits on a gap and no later sweep expires it. *)
Theorem swept_at_floor_never_expires s now max a n p d chain now' max' :
  deadlines s = [mkParked d a n] → next_nonce_known s a = Some n → (d ≤ now)%N →
  slot_of s a n = Some (PendingBuffer.mkSlot (Some d) p) → 0 < max → (chain < n)%N →
  let s1 := (release_floor (sweep_expired s now max).1 a chain).1 in
  (next_nonce s1 a < n)%N ∧
  slot_of s1 a n = Some (PendingBuffer.mkSlot (Some d) p) ∧
  sweep_expired s1 now' max' = (s1, []).
Proof.
  intros Hd Hk Hle Hs Hm Hc s1.
  assert (Hn : next_nonce s a = n) by (unfold next_nonce; unfold next_nonce_known in Hk; by rewrite Hk).
  unfold s1. rewrite (unsettled_sweep_drops s now max a n p d) by done. cbn [fst].
  rewrite release_floor_next, release_floor_slot, decide_True by done.
  unfold next_nonce_known in Hk. cbn [next with_deadlines]. rewrite Hk. split; [lia|]. split; [done|].
  unfold sweep_expired.
  assert (Hnil : deadlines (release_floor (with_deadlines s []) a chain).1 = []).
  { unfold release_floor, next_nonce_known. cbn [next with_deadlines]. rewrite Hk.
    rewrite (proj2 (N.ltb_lt _ _) Hc). cbn [fst]. by rewrite deadlines_trim. }
  by rewrite Hnil.
Qed.

(** [advance_floor] moves the floor up only, returns the buffered refs below the
    new floor, ascending, and keeps every other ref of every sender. *)
Theorem advance_floor_exact s a floor :
  match advance_floor s a floor with
  | (s', None) => (floor ≤ next_nonce s a)%N ∧ s' = s
  | (s', Some (from, drops)) =>
    (from = next_nonce s a ∧ from < floor ∧ next_nonce s' a = floor)%N ∧
    StronglySorted N.lt drops.*1 ∧
    (∀ k v, (k, v) ∈ drops ↔ (k < floor)%N ∧ PendingBuffer.value <$> slot_of s a k = Some v) ∧
    (∀ b k, slot_of s' b k = if decide (a = b ∧ (k < floor)%N) then None else slot_of s b k) ∧
    (∀ n, is_refused s' a n = is_refused s a n && (floor <=? n)%N)
  end.
Proof.
  pose proof (advance_floor_next s a floor a) as Hn. pose proof (advance_floor_slot s a floor) as Hs.
  revert Hn Hs. unfold advance_floor. destruct (N.leb_spec floor (next_nonce s a)); [done|].
  set (kept := match pending s !! a with None => _ | Some _ => _ end).
  assert (Hdrop : StronglySorted N.lt kept.2.*1 ∧ ∀ k v, (k, v) ∈ kept.2 ↔
     (k < floor)%N ∧ PendingBuffer.value <$> slot_of s a k = Some v).
  { unfold kept, slot_of. destruct (pending s !! a) as [buf|]; [apply drop_below_spec|]. cbn.
    split; [constructor|]. intros k v. rewrite elem_of_nil. naive_solver. }
  assert (Href : refused kept.1 = refused s) by (unfold kept; by destruct (pending s !! a)).
  destruct kept as [s1 drops]. cbn [fst snd] in *. intros Hn Hs.
  rewrite decide_True in Hn by done. split; [|split; [apply Hdrop|split; [apply Hdrop|split]]].
  - split; [done|]. split; [done|]. rewrite Hn. lia.
  - intros b k. rewrite Hs. repeat case_decide; naive_solver.
  - intros n. rewrite is_refused_trim, decide_True by done. unfold is_refused. cbn. by rewrite Href.
Qed.

(** A rewind of a sender whose floor a rollback voided seeds the floor at the
    rewound nonce. A ref parked below that nonce is then stranded: it sits below
    the floor, and [refs_below_floor] is not zero. *)
Theorem cold_rewind_strands s a k sl n p :
  slot_of s a k = Some sl → (k < n)%N →
  let s1 := reinsert_for_retry (forget_floor s a).1 a n p in
  (k < next_nonce s1 a)%N ∧ slot_of s1 a k = Some sl ∧ refs_below_floor s1 ≠ 0.
Proof.
  intros Hs Hlt s1.
  assert (Hn : next_nonce s1 a = n).
  { unfold s1. rewrite reinsert_next, decide_True by done. cbn. by rewrite lookup_delete_eq. }
  assert (Hk : slot_of s1 a k = Some sl).
  { unfold s1. rewrite reinsert_slot, decide_False by lia. done. }
  rewrite Hn. split; [done|]. split; [done|].
  rewrite refs_below_floor_zero. intros Hz. specialize (Hz a k ltac:(eauto)). lia.
Qed.
End properties.

(** ** Witnesses *)
Definition sample_ops : list (Op N) :=
  [OSeed 1; OProcess 10 1 2 102; OProcess 11 1 1 101; OProcess 12 1 0 100; ODrain [1]; OSweep 100 8]%N.

Definition sample_state : PartitionState.t N := (exec_ops (new 4 50) [OSeed 1; OProcess 10 1 0 100; OProcess 10 1 1 101; OProcess 10 1 5 105]%N).1.

Lemma sample_wf : wf sample_state.
Proof. apply exec_ops_wf; [apply wf_new|]. repeat split; vm_compute; done. Qed.

Lemma floors_hold_witness : refs_below_floor (exec_ops (new 4 50) sample_ops).1 = 0.
Proof. apply (floors_hold 4 50 sample_ops). repeat split; vm_compute; done. Defined.

(** The sample with a mark of nonce 0, and a re-offer of it. *)
Definition reoffer_ops : list (Op N) := sample_ops ++ [OMark 1 0; OProcess 101 1 0 200; OProcess 102 1 3 103]%N.

Lemma publish_order_dense_witness :
  (of_sender 1 (exec_ops (new 4 50) reoffer_ops).2).*1 = [0; 1; 2; 0; 3]%N ∧
  let '(s', out) := exec_ops (new 4 50) reoffer_ops in
  let '(run, again) := split_run 0 (of_sender 1 out).*1 in
  run = nseq 0 (length run) ∧ next_nonce s' 1 = (0 + N.of_nat (length run))%N ∧
  ∀ n, n ∈ again → is_refused (new 4 50 : PartitionState.t N) 1 n = true ∨ OMark 1 n ∈ reoffer_ops.
Proof.
  split; [by vm_compute|].
  apply (publish_order_dense (new 4 50) reoffer_ops 1); [apply wf_new | | repeat constructor].
  repeat split; vm_compute; done.
Defined.

(** The sender 1 has a rebuffered ref at its floor, and one parked at 5. *)
Definition rewound_state : PartitionState.t N := reinsert_for_retry sample_state 1 1 101%N.

Lemma rewound_wf : wf rewound_state.
Proof.
  apply (exec_op_wf sample_state (OReinsert 1 1 101)%N sample_wf). split; [done|]. by vm_compute.
Qed.

Lemma drain_pending_complete_witness :
  (drain_pending rewound_state [1]%N).2 = [(1, 1, 101)]%N ∧
  let '(s', out) := drain_pending rewound_state [1]%N in
  next_nonce s' 1 = (next_nonce rewound_state 1 + N.of_nat (length (of_sender 1 out)))%N.
Proof.
  split; [by vm_compute|]. pose proof (drain_pending_complete rewound_state [1]%N rewound_wf) as H.
  destruct (drain_pending rewound_state [1]%N) as [s' out]. apply (H 1%N).
Defined.

Lemma process_conserves_witness :
  outcome (process_at sample_state 20 1 3 103%N).2 = Buffered ∧
  let '(s', r) := process_at sample_state 20 1 3 103%N in
  ∀ k sl, slot_of sample_state 1 k = Some sl →
     (k, PendingBuffer.value sl) ∈ published (actions r) ∨ slot_of s' 1 k = Some sl ∨
     (k = 3 ∧ outcome r ≠ Matched ∧ slot_of s' 1 3 = Some (PendingBuffer.mkSlot (Some 70) 103))%N ∨
     outcome r = BufferedEvicting k (PendingBuffer.value sl).
Proof.
  split; [by vm_compute|].
  pose proof (process_conserves sample_state 20 1 3 103%N sample_wf ltac:(done)) as H.
  destruct (process_at sample_state 20 1 3 103%N) as [s' r]. apply H.
Defined.

Lemma rewind_republishes_witness :
  ∃ rest, of_sender 1 (drain_pending (reinsert_all sample_state 1 [(1, 101); (0, 100)]%N) [1]%N).2 =
          merge_sort entry_le [(1, 101); (0, 100)]%N ++ rest.
Proof.
  apply (rewind_republishes sample_state 1 [(1, 101); (0, 100)]%N 0 [1]%N);
    [apply sample_wf | by vm_compute | done | | by vm_compute | left].
  cbn. apply Permutation_swap.
Defined.

(** A sweep runs while a ref waits at the floor, then the drain that takes it and a
    rewind. *)
Definition expiry_ops : list (Op N) :=
  [OSeed 1; OProcess 10 1 0 100; OProcess 10 1 2 102; OProcess 10 1 6 106; OAdvance 1 2; OSweep 60 8;
   ODrain [1]; OReinsert 1 2 102; OProcess 100 1 7 107]%N.

Definition expiry_state : PartitionState.t N := (exec_ops (new 4 200) expiry_ops).1.

Lemma expiry_ops_ok : ops_ok (new 4 200) expiry_ops.
Proof. repeat split; vm_compute; done. Qed.

Lemma expiry_rewinds_ok : rewinds_ok (new 4 200) expiry_ops.
Proof.
  unfold expiry_ops. do 7 (split; [exact I|]). split; [|split; [exact I|exact I]].
  intros sl d Hs. vm_compute in Hs. discriminate Hs.
Qed.

Lemma expiry_complete_witness :
  (sweep_expired expiry_state 250 8).2 = [(1, 6, 106)]%N ∧
  let '(s', out) := sweep_expired expiry_state 250 8 in
  length out < 8 → ∀ a k p, (a, k, p) ∈ out ↔ due expiry_state 250 a k p.
Proof.
  split; [by vm_compute|].
  pose proof (expiry_complete 4 200 expiry_ops 250 8 expiry_ops_ok expiry_rewinds_ok) as H.
  cbv zeta in H. fold expiry_state in H. destruct (sweep_expired expiry_state 250 8) as [s' out].
  destruct H as (_ & _ & _ & H). exact H.
Defined.

(** The ref of sender 1 at nonce 5, after a receipt floor of 5. *)
Definition at_floor_state : PartitionState.t N := (advance_floor sample_state 1 5).1.

Lemma swept_at_floor_never_expires_witness :
  sweep_expired (release_floor (sweep_expired at_floor_state 60 8).1 1 2).1 1000 8 =
  ((release_floor (sweep_expired at_floor_state 60 8).1 1 2).1, []).
Proof.
  apply (swept_at_floor_never_expires at_floor_state 60 8 1 5 105%N 60 2 1000 8); first [lia | by vm_compute].
Defined.

Lemma cold_rewind_strands_witness :
  refs_below_floor (reinsert_for_retry (forget_floor sample_state 1).1 1 6 106%N) ≠ 0.
Proof.
  apply (cold_rewind_strands sample_state 1 5 (PendingBuffer.mkSlot (Some 60%N) 105%N) 6 106%N);
    by vm_compute.
Defined.
