(* ===== verification/ResyncSpec.v ===== *)
(** * Properties of the receipt-floor resync

    Every known floor is backed by evidence that no later rollback voids; a
    drain of many updates moves the nonce floors as the stream does; the answers
    of the sealer are folded above the receipt floor; and the enter/exit rules
    of resync mode. *)
From S2P Require Import Prelude Types Pending State StateFacts StateOps Resync.
Import ResyncController.

(** ** Evidence *)
Definition is_rollback (e : FloorEvent) : bool :=
  match e with FRollback _ => true | FUpdate _ => false end.

(** The controller after a list of floor events. *)
Definition after_events (order : list Address) (c : ResyncController.t) (h : list FloorEvent)
  : ResyncController.t := (fold_left (fold_event order) h (c, empty_drain)).1.

(** The update [u] of [h] set a floor, and no rollback after it voids it: a
    receipt stands at or below the block of every rollback that is not a copy,
    and a lookup was asked after the last rollback. *)
Definition backed (h : list FloorEvent) (generation : N) (a : Address) (f : Floor) : Prop :=
  ∃ h1 u h2, h = h1 ++ FUpdate u :: h2 ∧ up_sender u = a ∧ up_evidence u = fl_evidence f ∧
    Outcome.floor (up_outcome u) = Some (fl_nonce f) ∧
    match fl_evidence f with
    | EvReceipt block =>
      ∀ g1 r g2, h2 = g1 ++ FRollback r :: g2 →
        (∀ r', FRollback r' ∈ h1 ++ FUpdate u :: g1 → rollback_id r' ≠ rollback_id r) →
        (block ≤ to_block r)%N
    | EvLookup asked => (generation ≤ asked)%N
    end.

Record evidence_inv (h : list FloorEvent) (c : ResyncController.t) : Prop := {
  ev_backed : ∀ a f, floors c !! a = Some f → backed h (generation c) a f;
  ev_ids : ∀ r, r ∈ AppliedRollbacks.recent (rollbacks c) → FRollback r ∈ h;
}.

Lemma first_time_new (ab : AppliedRollbacks.t) r (h : list FloorEvent) :
  (∀ x, x ∈ AppliedRollbacks.recent ab → FRollback x ∈ h) →
  (∀ r', FRollback r' ∈ h → rollback_id r' ≠ rollback_id r) →
  (AppliedRollbacks.first_time ab r).2 = true.
Proof.
  intros Hin Hnew. unfold AppliedRollbacks.first_time.
  destruct (AppliedRollbacks.contains ab (rollback_id r)) eqn:E; [|done]. exfalso.
  apply existsb_exists in E as (x & Hx%list_elem_of_In & Heq%N.eqb_eq). by apply (Hnew x); auto.
Qed.

Lemma first_time_recent (ab : AppliedRollbacks.t) r x :
  x ∈ AppliedRollbacks.recent (AppliedRollbacks.first_time ab r).1 →
  x = r ∨ x ∈ AppliedRollbacks.recent ab.
Proof.
  unfold AppliedRollbacks.first_time. destruct (AppliedRollbacks.contains _ _); cbn; [auto|].
  rewrite elem_of_app, list_elem_of_singleton. intros [Hx|Hx]; [|auto]. right.
  destruct (_ =? _)%nat; [|done]. destruct (AppliedRollbacks.recent ab); [done | by right].
Qed.

(** A later update keeps the evidence. *)
Lemma backed_update h g a f u : backed h g a f → backed (h ++ [FUpdate u]) g a f.
Proof.
  intros (h1 & u0 & h2 & -> & H1 & H2 & H3 & H4). exists h1, u0, (h2 ++ [FUpdate u]).
  rewrite <-app_assoc. do 4 (split; [done|]). destruct (fl_evidence f) as [block|asked]; [|done].
  intros g1 r g2 Heq Hnew.
  destruct g2 as [|x g2 _] using rev_ind; [by apply app_inj_2 in Heq as [_ [=]]|].
  rewrite app_comm_cons, app_assoc in Heq. apply app_inj_2 in Heq as [-> _]; [|done].
  by eapply H4.
Qed.

(** A rollback that does not void the floor keeps the evidence. *)
Lemma backed_rollback h g g' a f ab r :
  (∀ x, x ∈ AppliedRollbacks.recent ab → FRollback x ∈ h) →
  voided_by f (mkCut (if (AppliedRollbacks.first_time ab r).2 then Some (to_block r) else None) g') = false →
  backed h g a f → backed (h ++ [FRollback r]) g' a f.
Proof.
  intros Hids Hv (h1 & u0 & h2 & -> & H1 & H2 & H3 & H4).
  exists h1, u0, (h2 ++ [FRollback r]). rewrite <-app_assoc. do 4 (split; [done|]).
  unfold voided_by in Hv. destruct (fl_evidence f) as [block|asked]; cbn in Hv; [|by apply N.ltb_ge in Hv].
  intros g1 r0 g2 Heq Hnew. destruct g2 as [|x g2 _] using rev_ind.
  - apply app_inj_2 in Heq as [-> [= ->]]; [|done].
    rewrite (first_time_new ab r0 _ Hids Hnew) in Hv. by apply N.ltb_ge in Hv.
  - rewrite app_comm_cons, app_assoc in Heq. apply app_inj_2 in Heq as [-> _]; [|done]. by eapply H4.
Qed.

Lemma outcome_floor_pos o fl : Outcome.floor o = Some fl → (0 < fl)%N.
Proof.
  destruct o as [n| |]; [|done..]. intros [= <-].
  unfold u64_saturating_add. assert (0 < u64_max)%N by done. lia.
Qed.

Lemma fold_update_inv h c d u : evidence_inv h c → evidence_inv (h ++ [FUpdate u]) (fold_floor_update c d u).1.
Proof.
  intros [Hb Hi].
  assert (Hi' : ∀ r, r ∈ AppliedRollbacks.recent (rollbacks c) → FRollback r ∈ h ++ [FUpdate u])
    by (intros; apply elem_of_app; auto).
  assert (Hb' : ∀ a f, floors c !! a = Some f → backed (h ++ [FUpdate u]) (generation c) a f)
    by (intros; by apply backed_update, Hb).
  unfold fold_floor_update. destruct (stale_at (up_evidence u) (generation c)) eqn:Hst; [by split|].
  destruct (Outcome.confirmed (up_outcome u)); [|by split].
  destruct (Outcome.floor (up_outcome u)) as [fl|] eqn:Hfl; [|by split].
  destruct (N.ltb_spec (fl_nonce (default (mkFloor 0 (up_evidence u)) (floors c !! up_sender u))) fl)
    as [Hlt|Hge]; split; cbn [fst rollbacks with_floors floors generation]; try done; intros a f;
    rewrite lookup_insert; (case_decide as Ha; [|auto]); subst a; intros [= <-].
  - exists h, u, []. do 4 (split; [done|]). cbn [fl_evidence].
    destruct (up_evidence u) as [block|asked] eqn:Ev; [|cbn in Hst; by apply N.ltb_ge in Hst].
    intros g1 r g2 Heq. by destruct g1.
  - destruct (floors c !! up_sender u) as [f|] eqn:Ef; [by apply Hb'|]. cbn in Hge.
    apply outcome_floor_pos in Hfl. lia.
Qed.

Lemma fold_rollback_inv order h c d r :
  evidence_inv h c → evidence_inv (h ++ [FRollback r]) (roll_back order c d r).1.
Proof.
  intros [Hb Hi]. unfold roll_back.
  destruct (AppliedRollbacks.first_time (rollbacks c) r) as [ab new_] eqn:E.
  pose proof (first_time_recent (rollbacks c) r) as Hrec. rewrite E in Hrec.
  split; cbn [fst floors rollbacks generation with_floors].
  - intros a f [Hf Hv]%map_lookup_filter_Some. cbn in Hv.
    apply (backed_rollback h (generation c) _ a f (rollbacks c)); [done | by rewrite E | by apply Hb].
  - intros x [->|Hx]%Hrec; apply elem_of_app; [right; by apply list_elem_of_singleton | auto].
Qed.

Lemma events_inv order c h0 d (h : list FloorEvent) :
  evidence_inv h0 c → evidence_inv (h0 ++ h) (fold_left (fold_event order) h (c, d)).1.
Proof.
  revert h0 c d; induction h as [|e h IH]; intros h0 c d Hc; [by rewrite app_nil_r|].
  cbn [fold_left]. rewrite cons_middle, app_assoc.
  destruct (fold_event order (c, d) e) as [c1 d1] eqn:E. apply IH.
  destruct e as [u|r]; cbn [fold_event fst snd] in E.
  - pose proof (fold_update_inv h0 c d u Hc) as H. by rewrite E in H.
  - pose proof (fold_rollback_inv order h0 c d r Hc) as H. by rewrite E in H.
Qed.

(** ** Batched and streamed floor moves *)
Section floor_moves.
Context {T : Type}.
Implicit Types (s : PartitionState.t T) (a b : Address) (d : ReceiptDrain).

(** The releases, then the raises of one drain, as [apply_receipt_drain] applies
    them to the nonce state machine. *)
Definition apply_moves s d : PartitionState.t T :=
  fold_left (λ q e, (PartitionState.advance_floor q e.1 e.2).1) (raised d)
    (fold_left (λ q e, (PartitionState.release_floor q e.1 e.2).1) (released d) s).

(** The floor of one sender after one move. *)
Definition rel (c : N) (f : option N) : option N := (λ x, N.min x c) <$> f.
Definition adv (r : N) (f : option N) : option N := if (r <=? default 0%N f)%N then f else Some r.

Lemma release_known s a c b :
  PartitionState.next_nonce_known (PartitionState.release_floor s a c).1 b =
  if decide (a = b) then rel c (PartitionState.next_nonce_known s b)
  else PartitionState.next_nonce_known s b.
Proof.
  unfold PartitionState.release_floor, PartitionState.next_nonce_known, rel.
  destruct (PartitionState.next s !! a) as [cur|] eqn:E.
  - destruct (N.ltb_spec c cur); cbn [fst].
    + rewrite next_trim_refused. cbn. rewrite lookup_insert. case_decide; [|done]. subst b.
      rewrite E. cbn. f_equal. lia.
    + case_decide; [|done]. subst b. rewrite E. cbn. f_equal. lia.
  - case_decide; [|done]. subst b. cbn. by rewrite E.
Qed.

Lemma advance_known s a r b :
  PartitionState.next_nonce_known (PartitionState.advance_floor s a r).1 b =
  if decide (a = b) then adv r (PartitionState.next_nonce_known s b)
  else PartitionState.next_nonce_known s b.
Proof.
  unfold PartitionState.advance_floor, PartitionState.next_nonce_known, adv, PartitionState.next_nonce.
  destruct (N.leb_spec r (default 0%N (PartitionState.next s !! a))).
  - case_decide; [|done]. subst b. by rewrite (proj2 (N.leb_le _ _)).
  - destruct (PartitionState.pending s !! a); cbn; rewrite next_trim_refused; cbn;
      rewrite lookup_insert; (case_decide; [|done]); subst b; by rewrite (proj2 (N.leb_gt _ _)).
Qed.

Lemma rel_adv c r f : (r ≤ c)%N → rel c (adv r f) = adv r (rel c f).
Proof.
  intros Hrc. unfold rel, adv. destruct f as [x|]; cbn.
  - destruct (N.leb_spec r x), (N.leb_spec r (N.min x c)); cbn; f_equal; lia.
  - destruct (N.leb_spec r 0); cbn; [done|]. f_equal. lia.
Qed.

(** Two states with the same known floors. *)
Definition same_floors s1 s2 : Prop :=
  ∀ b, PartitionState.next_nonce_known s1 b = PartitionState.next_nonce_known s2 b.

Lemma same_advance s1 s2 a r :
  same_floors s1 s2 →
  same_floors (PartitionState.advance_floor s1 a r).1 (PartitionState.advance_floor s2 a r).1.
Proof. intros H b. rewrite !advance_known. by rewrite H. Qed.

Lemma same_release s1 s2 a r :
  same_floors s1 s2 →
  same_floors (PartitionState.release_floor s1 a r).1 (PartitionState.release_floor s2 a r).1.
Proof. intros H b. rewrite !release_known. by rewrite H. Qed.

(** A release commutes with raises that it is not below. *)
Lemma release_after_raises s (rs : list (Address * N)) a c :
  (∀ r, (a, r) ∈ rs → (r ≤ c)%N) →
  same_floors
    (fold_left (λ q e, (PartitionState.advance_floor q e.1 e.2).1) rs
       (PartitionState.release_floor s a c).1)
    (PartitionState.release_floor
       (fold_left (λ q e, (PartitionState.advance_floor q e.1 e.2).1) rs s) a c).1.
Proof.
  induction rs as [|[b r] rs IH] using rev_ind; intros Hr; [done|].
  rewrite !fold_left_app. cbn [fold_left fst snd]. intros x.
  rewrite advance_known, IH, release_known, release_known, advance_known
    by (intros; apply Hr, elem_of_app; by left).
  destruct (decide (b = x)) as [->|]; [|done]. destruct (decide (a = x)) as [->|]; [|done].
  symmetry. apply rel_adv, Hr, elem_of_app. right. by apply list_elem_of_singleton.
Qed.

(** Every raise of the drain is at or below the floor the controller holds. *)
Definition raises_held (c : ResyncController.t) d : Prop :=
  ∀ a r, (a, r) ∈ raised d → (r ≤ default 0%N (ResyncController.floor c a))%N.

Lemma released_ge o fl c : Outcome.released o fl = Some c → (fl ≤ c)%N.
Proof.
  destruct o as [|n r|]; cbn; [done| |done]. destruct (N.ltb_spec n fl); [done|].
  destruct r; intros [= <-]; lia.
Qed.

(** The moves that one update adds to a drain. *)
Lemma update_moves c d u :
  (fold_floor_update c d u).1 = (fold_floor_update c empty_drain u).1 ∧
  raised (fold_floor_update c d u).2 = raised d ++ raised (fold_floor_update c empty_drain u).2 ∧
  released (fold_floor_update c d u).2 = released d ++ released (fold_floor_update c empty_drain u).2 ∧
  (raised (fold_floor_update c empty_drain u).2 = [] ∨ released (fold_floor_update c empty_drain u).2 = []) ∧
  (∀ a x, (a, x) ∈ released (fold_floor_update c empty_drain u).2 →
     released (fold_floor_update c empty_drain u).2 = [(a, x)] ∧
     (default 0%N (ResyncController.floor c a) ≤ x)%N).
Proof.
  unfold fold_floor_update, empty_drain.
  assert (Hnil : ∀ a x, (a, x) ∈ ([] : list (Address * N)) →
    ([] : list (Address * N)) = [(a, x)] ∧ (default 0%N (ResyncController.floor c a) ≤ x)%N)
    by (intros a x Hin; by apply elem_of_nil in Hin).
  destruct (stale_at _ _); [cbn; rewrite !app_nil_r; split_and!; auto|].
  destruct (up_outcome u) as [n|n r|] eqn:Eo; cbn [Outcome.confirmed Outcome.floor].
  - cbn [Outcome.released]. destruct (N.ltb _ _); cbn; rewrite ?app_nil_r; split_and!; auto.
  - destruct (Outcome.released (OutSkipped n r) (default 0%N (ResyncController.floor c (up_sender u))))
      as [x|] eqn:Er; cbn; rewrite ?app_nil_r; split_and!; auto.
    intros a y Hin. apply list_elem_of_singleton in Hin as [= -> ->]. split; [done|].
    by apply released_ge in Er.
  - cbn. rewrite !app_nil_r. split_and!; auto.
Qed.

Lemma update_floor_mono c d u a :
  (default 0%N (ResyncController.floor c a) ≤ default 0%N (ResyncController.floor (fold_floor_update c d u).1 a))%N ∧
  (∀ r, (a, r) ∈ raised (fold_floor_update c empty_drain u).2 →
        ResyncController.floor (fold_floor_update c d u).1 a = Some r).
Proof.
  unfold fold_floor_update, empty_drain, ResyncController.floor.
  assert (Hnil : ∀ r, (a, r) ∈ ([] : list (Address * N)) → ∀ P : Prop, P) by (intros r Hr; by apply elem_of_nil in Hr).
  destruct (stale_at _ _); [split; [done|intros r Hr; by apply (Hnil r)]|].
  destruct (Outcome.confirmed _); [|split; [done|intros r Hr; by apply (Hnil r)]].
  destruct (Outcome.floor _) as [fl|]; [|split; [done|intros r Hr; by apply (Hnil r)]].
  destruct (N.ltb_spec (fl_nonce (default (mkFloor 0 (up_evidence u)) (floors c !! up_sender u))) fl) as [Hlt|Hge];
    cbn [fst snd floors with_floors raised]; rewrite lookup_insert.
  - split.
    + case_decide as Ha; [|done]. rewrite <-Ha. destruct (floors c !! up_sender u); cbn in *; lia.
    + intros r [= -> ->]%list_elem_of_singleton. by rewrite decide_True.
  - split; [|intros r Hr; by apply (Hnil r)].
    case_decide as Ha; [|done]. rewrite <-Ha. by destruct (floors c !! up_sender u); cbn in *.
Qed.
End floor_moves.

Section streaming.
Context {T : Type}.
Implicit Types (s : PartitionState.t T).

(** One update, drained and applied on its own. *)
Definition stream_step (acc : ResyncController.t * PartitionState.t T) (u : FloorUpdate)
  : ResyncController.t * PartitionState.t T :=
  let '(c', d) := fold_floor_update acc.1 empty_drain u in (c', apply_moves acc.2 d).

Lemma stream_drain order (us : list FloorUpdate) c s :
  let '(c', d) := fold_left (fold_event order) (FUpdate <$> us) (c, empty_drain) in
  c' = (fold_left stream_step us (c, s)).1 ∧ raises_held c' d ∧
  same_floors (apply_moves s d) (fold_left stream_step us (c, s)).2.
Proof.
  induction us as [|u us IH] using rev_ind.
  { cbn. split; [done|]. split; [|done]. intros a r Hin. by apply elem_of_nil in Hin. }
  rewrite fmap_app, !fold_left_app. cbn [fmap list_fmap fold_left].
  destruct (fold_left (fold_event order) (FUpdate <$> us) (c, empty_drain)) as [c1 d1].
  destruct IH as (Hc & Hheld & Hsame). cbn [fold_event fst snd].
  destruct (fold_left stream_step us (c, s)) as [c1' s1]. cbn [fst snd] in *. subst c1'.
  unfold stream_step; cbn [fst snd].
  destruct (update_moves c1 d1 u) as (Hc & Hra & Hre & Hone & Hrel).
  pose proof (update_floor_mono c1 d1 u) as Hmono.
  destruct (fold_floor_update c1 d1 u) as [c2 d2].
  destruct (fold_floor_update c1 empty_drain u) as [c2' d0]. cbn [fst snd] in *. subst c2'.
  split; [done|]. split.
  - intros a r Hin. rewrite Hra in Hin. destruct (Hmono a) as [Hle Hset].
    apply elem_of_app in Hin as [Hin|Hin].
    + specialize (Hheld a r Hin). lia.
    + by rewrite (Hset r Hin).
  - unfold apply_moves in *. rewrite Hra, Hre, !fold_left_app.
    destruct (released d0) as [|[a x] rest] eqn:Er.
    + cbn [fold_left]. clear -Hsame. revert Hsame.
      generalize (fold_left (λ q e, (PartitionState.advance_floor q e.1 e.2).1) (raised d1)
        (fold_left (λ q e, (PartitionState.release_floor q e.1 e.2).1) (released d1) s)).
      revert s1. induction (raised d0) as [|[b r] l IH]; intros s1 s2 Hs; [done|].
      cbn [fold_left fst snd]. by apply IH, same_advance.
    + destruct (Hrel a x) as [Heq Hge]; [left|]. injection Heq as ->.
      destruct Hone as [->|?]; [|done]. cbn [fold_left fst snd]. intros b.
      rewrite release_after_raises.
      * by apply same_release.
      * intros r Hin. specialize (Hheld a r Hin). lia.
Qed.
End streaming.

(** ** Channels *)
Lemma drain_bounded_spec {A} (rx : Chan A) dead max :
  let '(rx', dead', out) := drain_bounded rx dead max in
  out = take max (queue rx) ∧ queue rx' = drop max (queue rx).
Proof.
  revert rx dead; induction max as [|max IH]; intros rx dead; [done|]. cbn [drain_bounded].
  unfold drain_bounded_step. destruct rx as [[|x q] cl]; cbn [queue closed]; [done|].
  specialize (IH (mkChan q cl) dead). destruct (drain_bounded (mkChan q cl) dead max) as [[rx' dead'] out].
  destruct IH as [-> ->]. done.
Qed.

(** ** Answers *)

(** The expected nonce of a reject, raised to the floor of the sender. *)
Definition raised_expected (c : ResyncController.t) (a : Address) (expected : N) : N :=
  N.max (default 0%N (ResyncController.floor c a)) expected.

Record answers_folded (c : ResyncController.t) (took : list SealerAnswer) (d : AnswerDrain) : Prop := {
  af_drops : ∀ a n e, (a, n, e) ∈ drops d ↔
    ∃ e0, ContiguityReject a n e0 ∈ took ∧ e = raised_expected c a e0 ∧ (n < e)%N;
  af_gap : ∀ a e, gaps d !! a = Some e →
    ∃ n e0, ContiguityReject a n e0 ∈ took ∧ e = raised_expected c a e0 ∧ (e ≤ n)%N;
  af_low : ∀ a n e0, ContiguityReject a n e0 ∈ took → (raised_expected c a e0 ≤ n)%N →
    ∃ e, gaps d !! a = Some e ∧ (e ≤ raised_expected c a e0)%N;
  af_window : ∀ a n, (a, n) ∈ window_full d ↔ WindowFull a n ∈ took;
}.

Lemma fold_answers_spec c took : answers_folded c took (fold_left (fold_answer c) took (mkAnswers [] ∅ [])).
Proof.
  induction took as [|x took IH] using rev_ind.
  { split; cbn.
    - intros a n e. rewrite elem_of_nil. split; [done|]. by intros (e0 & Hin%elem_of_nil & _).
    - intros a e. by rewrite lookup_empty.
    - intros a n e0 Hin. by apply elem_of_nil in Hin.
    - intros a n. by rewrite !elem_of_nil. }
  rewrite fold_left_app. cbn [fold_left].
  destruct (fold_left (fold_answer c) took (mkAnswers [] ∅ [])) as [dr gp wf]. destruct IH as [A1 A2 A3 A4].
  cbn [drops gaps window_full] in *.
  destruct x as [a n e0|a n]; cbn [fold_answer].
  - unfold add_reject. fold (raised_expected c a e0). remember (raised_expected c a e0) as e eqn:He.
    cbn [drops gaps window_full]. destruct (N.ltb_spec n e) as [Hlt|Hge].
    + split; cbn [drops gaps window_full].
      * intros b m x. rewrite elem_of_app, list_elem_of_singleton, A1. setoid_rewrite elem_of_app.
        setoid_rewrite list_elem_of_singleton. split.
        -- intros [(e1 & ? & ? & ?)|Heq]; [eauto 6|]. injection Heq as -> -> ->. exists e0. auto.
        -- intros (e1 & [Hin|Heq] & -> & ?); [left; eauto|]. injection Heq as -> -> ->. right. by rewrite He.
      * intros b x (m & e1 & ? & ? & ?)%A2. exists m, e1. rewrite elem_of_app. auto.
      * intros b m e1 [Hin|[= -> -> ->]%list_elem_of_singleton]%elem_of_app Hle; [eauto|]. rewrite <-He in Hle. lia.
      * intros b m. rewrite A4, elem_of_app, list_elem_of_singleton. split; [auto|]. by intros [?|?].
    + split; cbn [drops gaps window_full].
      * intros b m x. rewrite A1. setoid_rewrite elem_of_app. setoid_rewrite list_elem_of_singleton. split.
        -- intros (e1 & ? & ? & ?). eauto 6.
        -- intros (e1 & [Hin|[= -> -> ->]] & -> & ?); [eauto|]. rewrite <-He in *. lia.
      * intros b x. rewrite lookup_insert. case_decide as Hab.
        -- subst b. intros [= <-]. destruct (gp !! a) as [g|] eqn:Eg.
           ++ destruct (A2 _ _ Eg) as (m & e1 & Hin & -> & Hm).
              destruct (N.min_spec (raised_expected c a e1) e) as [[? ->]|[? ->]].
              ** exists m, e1. rewrite elem_of_app. auto.
              ** exists n, e0. rewrite elem_of_app, list_elem_of_singleton. auto.
           ++ exists n, e0. rewrite elem_of_app, list_elem_of_singleton. auto.
        -- intros (m & e1 & ? & ? & ?)%A2. exists m, e1. rewrite elem_of_app. auto.
      * intros b m e1 Hin Hle. rewrite lookup_insert.
        apply elem_of_app in Hin as [Hin|[= -> -> ->]%list_elem_of_singleton].
        -- destruct (A3 _ _ _ Hin Hle) as (g & Hg & Hgl). case_decide as Hab; [|eauto].
           subst b. rewrite Hg. eexists. split; [done|]. lia.
        -- rewrite decide_True by done. eexists. split; [done|]. rewrite <-He. destruct (gp !! a); lia.
      * intros b m. rewrite A4, elem_of_app, list_elem_of_singleton. split; [auto|]. by intros [?|?].
  - split; cbn [drops gaps window_full]; setoid_rewrite elem_of_app; setoid_rewrite list_elem_of_singleton.
    + intros b m x. rewrite A1. split; [intros (e1 & ? & ? & ?); eauto 6|].
      intros (e1 & [?|?] & ? & ?); [eauto | done].
    + intros b x (m & e1 & ? & ? & ?)%A2. eauto 6.
    + intros b m e1 [Hin|?] Hle; [eauto | done].
    + intros b m. rewrite A4. split; (intros [?|Heq]; [auto|]); injection Heq as -> ->; auto.
Qed.

(** ** Properties *)

(** C39. Every known floor is backed: after any sequence of floor events, the floor of
    a sender was proved by an update of that sender, and its evidence stands. A
    receipt is at or below the block of every rollback that came after it for the
    first time, and a lookup answer was asked after the last rollback. *)
Theorem floors_backed (order : list Address) cfg frx arx drx wm c (h : list FloorEvent) (a : Address) (f : Floor) :
  ResyncController.new cfg frx arx drx wm = Ok c →
  floors (after_events order c h) !! a = Some f →
  backed h (generation (after_events order c h)) a f.
Proof.
  intros Hnew Hf. unfold ResyncController.new in Hnew.
  destruct (cfg_enter_threshold cfg) as [threshold|]; [|done]. injection Hnew as <-.
  eapply ev_backed, Hf. apply (events_inv order _ [] empty_drain h).
  split; cbn; [intros b g; by rewrite lookup_empty | intros r Hr; by apply elem_of_nil in Hr].
Qed.

(** One drain of many receipt updates moves the nonce floors as the stream does:
    applying all its releases and then all its raises gives every sender the same
    floor as applying the updates one by one. *)
Theorem drain_moves_as_stream {T : Type} (order : list Address) (us : list FloorUpdate)
    (c : ResyncController.t) (s : PartitionState.t T) (a : Address) :
  PartitionState.next_nonce_known
    (apply_moves s (fold_left (fold_event order) (FUpdate <$> us) (c, empty_drain)).2) a =
  PartitionState.next_nonce_known (fold_left stream_step us (c, s)).2 a.
Proof.
  pose proof (stream_drain order us c s) as H.
  destruct (fold_left (fold_event order) (FUpdate <$> us) (c, empty_drain)) as [c' d]. apply H.
Qed.

(** [drain_answers] takes the oldest answers of the channel, at most 1024, and
    folds each above the receipt floor of its sender: a reject below its raised
    expected nonce is a drop, any other lowers the gap of its sender to the lowest
    raised expected nonce, and a window-full answer is kept as it is. *)
Theorem answers_above_floor (c : ResyncController.t) :
  let '(c', d) := drain_answers c in
  answers_folded c (take 1024 (queue (answer_rx c))) d ∧
  queue (answer_rx c') = drop 1024 (queue (answer_rx c)) ∧
  (∀ a e, gaps d !! a = Some e → (default 0%N (ResyncController.floor c a) ≤ e)%N).
Proof.
  unfold drain_answers. pose proof (drain_bounded_spec (answer_rx c) (answer_rx_dead c) FLOOR_DRAIN_PER_ITER) as Hd.
  destruct (drain_bounded (answer_rx c) (answer_rx_dead c) FLOOR_DRAIN_PER_ITER) as [[rx dead] out].
  destruct Hd as [-> Hq].
  pose proof (fold_answers_spec (with_answer_rx c rx dead) (take FLOOR_DRAIN_PER_ITER (queue (answer_rx c)))) as Hf.
  split; [destruct Hf as [F1 F2 F3 F4]; split; assumption|]. split; [done|].
  intros a e Hg. destruct (af_gap _ _ _ Hf a e Hg) as (n & e0 & _ & -> & _).
  unfold raised_expected. apply N.le_max_l.
Qed.

(** A controller in the mode leaves it only from a calm that has lasted the hold. *)
Lemma maybe_exit_held (q : ResyncController.t) (now : Instant) :
  (0 < exit_hold_ms (cfg q))%N → active q = true → active (maybe_exit q now) = false →
  stall_since q = None ∧
  ∃ since, calm_since q = Some since ∧ (exit_hold_ms (cfg q) ≤ elapsed_ms_saturating now since)%N.
Proof.
  intros Hhold Ha Hoff. unfold maybe_exit in Hoff. rewrite Ha in Hoff. cbn [negb] in Hoff.
  destruct (watermark_seen q && bool_decide (stall_since q = None)) eqn:Ecalm; cbn [negb] in Hoff; [|cbn in Hoff; congruence].
  apply andb_true_iff in Ecalm as [_ Hst%bool_decide_eq_true]. split; [done|].
  destruct (calm_since q) as [since|]; cbn [default] in Hoff.
  - exists since. split; [done|]. apply N.leb_le.
    destruct (exit_hold_ms (cfg q) <=? elapsed_ms_saturating now since)%N eqn:El; [done|].
    unfold id in Hoff. by rewrite El in Hoff.
  - exfalso. unfold elapsed_ms_saturating in Hoff. rewrite N.sub_diag in Hoff.
    change (duration_to_ms_saturating 0) with 0%N in Hoff.
    by rewrite (proj2 (N.leb_gt _ _) Hhold) in Hoff.
Qed.

Lemma maybe_exit_lag (q : ResyncController.t) (now : Instant) :
  watermark (maybe_exit q now) = watermark q.
Proof.
  unfold maybe_exit. destruct (active q); cbn [negb]; [|done].
  destruct (negb _); [done|]. cbv zeta. by destruct (exit_hold_ms _ <=? _)%N.
Qed.

(** The controller as [observe] hands it to [maybe_exit]. *)
Lemma observe_marks (c : ResyncController.t) (now : Instant) :
  let w := wm_count (watermark c) in
  let lag := (0 <? lag_gap_ms (watermark c))%N in
  let jump := watermark_seen c && (last_watermark c <? w)%N && (enter_threshold c <=? w - last_watermark c)%N in
  ∃ c3, observe c now = maybe_exit c3 now ∧ cfg c3 = cfg c ∧ lag_gap_ms (watermark c3) = 0%N ∧
    (lag || jump = true → active c3 = true ∧ calm_since c3 = None) ∧
    (lag || jump = false → active c3 = active c ∧ calm_since c3 = calm_since c ∧ stall_since c3 = stall_since c).
Proof.
  intros w lag jump.
  set (c1 := with_watermark c (mkWatermark w 0) (last_watermark c) (watermark_seen c)).
  set (c2 := if lag then enter c1 (BoundarySilence (lag_gap_ms (watermark c))) else c1).
  exists (if negb (w =? last_watermark c2)%N then observe_watermark_change c2 w else c2). split.
  { unfold observe, take_lag, c2, c1, lag, w. destruct (N.eqb_spec (lag_gap_ms (watermark c)) 0) as [->|Hne].
    - by rewrite N.ltb_irrefl.
    - by rewrite (proj2 (N.ltb_lt _ _)) by lia. }
  unfold observe_watermark_change, check_watermark_jump, jump.
  assert (Hl : last_watermark c2 = last_watermark c) by (unfold c2; by destruct lag).
  assert (Hs : watermark_seen c2 = watermark_seen c) by (unfold c2; by destruct lag).
  assert (Ht : enter_threshold c2 = enter_threshold c) by (unfold c2; by destruct lag).
  rewrite Hl, Hs, Ht.
  destruct (N.eqb_spec w (last_watermark c)) as [Heq|Hne]; cbn [negb].
  { rewrite Heq, N.ltb_irrefl, andb_false_r. cbn [andb]. rewrite orb_false_r. unfold c2. by destruct lag. }
  destruct (N.leb_spec (last_watermark c) w) as [Hle|Hgt].
  - rewrite (proj2 (N.ltb_lt (last_watermark c) w)) by lia. rewrite andb_true_r.
    destruct (watermark_seen c && (enter_threshold c <=? w - last_watermark c)%N) eqn:Ej; unfold c2; destruct lag; by cbn.
  - rewrite (proj2 (N.ltb_ge (last_watermark c) w)) by lia. rewrite andb_false_r. cbn [andb].
    rewrite orb_false_r. unfold c2; destruct lag; by cbn.
Qed.

(** Resync mode: with a positive exit hold, a lag flag or a watermark jump of at
    least the threshold leaves the controller active after [observe]; and
    [observe] leaves the mode only after the hold time of calm, with no lag flag
    and no such jump. *)
Theorem observe_mode (c : ResyncController.t) (now : Instant) :
  (0 < exit_hold_ms (cfg c))%N →
  let w := wm_count (watermark c) in
  let lag := (0 <? lag_gap_ms (watermark c))%N in
  let jump := watermark_seen c && (last_watermark c <? w)%N && (enter_threshold c <=? w - last_watermark c)%N in
  (lag || jump = true → active (observe c now) = true) ∧
  (active c = true → active (observe c now) = false →
   lag || jump = false ∧ stall_since c = None ∧
   ∃ since, calm_since c = Some since ∧ (exit_hold_ms (cfg c) ≤ elapsed_ms_saturating now since)%N) ∧
  lag_gap_ms (watermark (observe c now)) = 0%N.
Proof.
  intros Hhold w lag jump.
  destruct (observe_marks c now) as (c3 & -> & Hcfg & Hlag & Hin & Hout). fold w lag in Hin, Hout. fold jump in Hin, Hout.
  assert (Hheld := maybe_exit_held c3 now). rewrite Hcfg in Hheld. split; [|split].
  - intros Hlj. destruct (Hin Hlj) as [Ha Hc]. apply not_false_iff_true. intros Hoff.
    destruct (Hheld Hhold Ha Hoff) as (_ & since & Hs & _). congruence.
  - intros Ha Hoff. destruct (lag || jump) eqn:Elj.
    { destruct (Hin eq_refl) as [H1 H2]. destruct (Hheld Hhold H1 Hoff) as (_ & since & Hs & _). congruence. }
    destruct (Hout eq_refl) as (H1 & H2 & H3). split; [done|]. rewrite <- H2, <- H3.
    apply Hheld; [done| congruence | done].
  - by rewrite maybe_exit_lag.
Qed.

(** A receipt raises the floor exactly when it proves that its sender used the
    nonce: for a receipt that carries a skip reason exactly when it is a skip
    marker, the floor of its update is one past its nonce if [uses_nonce] holds,
    and none otherwise. *)
Theorem receipt_floor_evidence (r : Receipt) :
  (is_Some (skip_reason r) ↔ is_invalid_skip r = true) →
  Outcome.floor (up_outcome (of_receipt r)) =
    (if uses_nonce r then Some (u64_saturating_add (rc_nonce r) 1) else None) ∧
  Outcome.confirmed (up_outcome (of_receipt r)) =
    (if is_deposit r then None else Some (rc_nonce r)).
Proof.
  intros Hiff. unfold of_receipt, uses_nonce; cbn [up_outcome].
  destruct (is_deposit r) eqn:Ed.
  { split; [|done]. unfold burns_nonce. rewrite Ed. by rewrite !andb_false_r. }
  destruct (skip_reason r) as [reason|] eqn:Es.
  - rewrite (proj1 Hiff) by eauto. cbn [negb andb orb]. by destruct (burns_nonce r).
  - assert (Hno : is_invalid_skip r = false).
    { destruct (is_invalid_skip r); [|done]. destruct (proj2 Hiff eq_refl). done. }
    by rewrite Hno.
Qed.

(** ** Witnesses *)
Definition idle {A} : Chan A := mkChan [] false.

Definition started (cfg : ResyncConfig) : result ResyncConfigError ResyncController.t :=
  ResyncController.new cfg idle idle idle (mkWatermark 0 0).

Definition sample_events : list FloorEvent :=
  [FUpdate (mkUpdate 1 (OutExecuted 4) (EvReceipt 7)); FRollback (mkRollback 9 77)]%N.

Definition sample_controller : ResyncController.t :=
  ResyncController.enter (ResyncController.mk default_cfg 32768 false ∅ 0 (AppliedRollbacks.mk [])
    idle false idle false idle false (mkWatermark 0 0) 0 false None None) Startup.

Lemma sample_started : started default_cfg = Ok sample_controller.
Proof. by vm_compute. Qed.

Lemma floors_backed_witness :
  floors (after_events [1%N] sample_controller sample_events) !! 1%N = Some (mkFloor 5 (EvReceipt 7)) ∧
  backed sample_events (generation (after_events [1%N] sample_controller sample_events)) 1
         (mkFloor 5 (EvReceipt 7)).
Proof.
  assert (Hf : floors (after_events [1%N] sample_controller sample_events) !! 1%N =
               Some (mkFloor 5 (EvReceipt 7))) by (by vm_compute).
  split; [done|]. eapply (floors_backed [1%N] default_cfg); [exact sample_started | exact Hf].
Defined.

Lemma observe_mode_witness :
  active (observe (with_watermark sample_controller (mkWatermark 50 12) 0 true) 5) = true.
Proof.
  apply (observe_mode (with_watermark sample_controller (mkWatermark 50 12) 0 true) 5); by vm_compute.
Defined.

Definition sample_receipt : Receipt :=
  mkReceipt BPosition.ZERO 2 11 true 21000 [] 5 8 1 None None 0 0 0 3 0 21000 None.

Lemma receipt_floor_evidence_witness :
  Outcome.floor (up_outcome (of_receipt sample_receipt)) =
    (if uses_nonce sample_receipt then Some 9%N else None).
Proof.
  refine (proj1 (receipt_floor_evidence sample_receipt _)). split; [by intros [] | by vm_compute].
Defined.
