(* ===== verification/SequencerConfig.v ===== *)
(** * Sequencer configuration

    Models the parts of [crates/sequencer/src/config.rs] and
    [crates/sequencer/src/partition.rs] the publish loop depends on: the lanes
    and virtual slots of a replica, the shadow warm-up of a resize, the
    validation the constructor runs, and the partition rotation of a second
    replica group. The fields that only configure other processes or the
    deployment (core pinning, cluster client, caches, lookup endpoints) are left
    out of the record. *)
From S2P Require Import Prelude VslotSet VslotSetSpec ShardMap ShardMapSpec Resync.

Module PartitionCount.
(** [PartitionCount(NonZeroU32)]: the count; the type keeps it above zero. *)
Record t : Type := mk { get : N }.

Definition index_of (keccak256 : Address → list N) (m : t) (sender : Address) : N :=
  partition_for keccak256 sender (get m).

Definition identity_map (m : t) : result ShardMapError ShardMap :=
  lanes ← validate_shard_count (get m);
  ShardMap.identity lanes.
End PartitionCount.

Inductive ConfigError : Type :=
| IndexOutOfRange (index count : N)
| PartitionOffsetOverflow (index offset : N)
| PartitionIndexNotU8 (index : N)
| LaneOutOfPlane (lane : N)
| ExtraLaneIsOwn (lane : N)
| ShadowNotSubset
| ShadowWithoutOldLane
| ShadowWarmBelowTtl (warm_ms ttl_ms : N)
| LanePlane (e : ShardMapError)
| ResyncError (e : ResyncConfigError).

(** The conversion that [?] runs on an error of another type. *)
Definition map_err {E F A} (f : E → F) (r : result E A) : result F A :=
  match r with Ok a => Ok a | Err e => Err (f e) end.

Definition SHADOW_WARM_MARGIN_MS : N := 5000.

(** [Duration::from_millis]; a tick of the clock is a nanosecond. *)
Definition from_millis (ms : N) : Duration := (ms * 1000000)%N.

Record SequencerConfig : Type := mkConfig {
  partition_count : PartitionCount.t;
  partition_index : N;
  sequencer_id : N;
  cfg_max_pending_per_sender : nat;
  tx_ttl_ms : N;
  resync_cfg : ResyncConfig;
  own_lane : option N;
  cfg_vslots : option VslotSet;
  extra_lanes : list N;
  shadow_vslots : VslotSet;
  shadow_warm_ms : option N;
}.

Module SequencerConfig.
Definition default : SequencerConfig :=
  mkConfig (PartitionCount.mk 8) 0 0 16 30000 default_cfg None None [] VslotSet.EMPTY None.

Definition lane (c : SequencerConfig) : N := from_option id (sequencer_id c) (own_lane c).

Definition lanes (c : SequencerConfig) : list N := lane c :: extra_lanes c.

Definition tx_ttl (c : SequencerConfig) : Duration := from_millis (tx_ttl_ms c).

Definition vslot_set (c : SequencerConfig) : result ConfigError VslotSet :=
  match cfg_vslots c with
  | Some set => Ok set
  | None =>
    map ← map_err LanePlane (PartitionCount.identity_map (partition_count c));
    lane ← ok_or (u8_try_from (partition_index c)) (PartitionIndexNotU8 (partition_index c));
    Ok (ShardMap.vslot_set map lane)
  end.

Definition shadow_warm (c : SequencerConfig) : Duration :=
  from_millis (from_option id (u64_saturating_add (tx_ttl_ms c) SHADOW_WARM_MARGIN_MS) (shadow_warm_ms c)).

Definition validate_identity_layout (c : SequencerConfig) : result ConfigError () :=
  match cfg_vslots c with
  | Some _ => Ok ()
  | None =>
    _ ← map_err LanePlane (PartitionCount.identity_map (partition_count c));
    if (PartitionCount.get (partition_count c) <=? partition_index c)%N
    then Err (IndexOutOfRange (partition_index c) (PartitionCount.get (partition_count c)))
    else Ok ()
  end.

Definition validate_lanes (c : SequencerConfig) : result ConfigError () :=
  match list_find (λ l, (LANE_COUNT ≤ l)%N) (lanes c) with
  | Some (_, bad) => Err (LaneOutOfPlane bad)
  | None => if decide (lane c ∈ extra_lanes c) then Err (ExtraLaneIsOwn (lane c)) else Ok ()
  end.

Definition validate_shadow (c : SequencerConfig) : result ConfigError () :=
  vslots ← vslot_set c;
  if negb (VslotSet.is_subset_of (shadow_vslots c) vslots) then Err ShadowNotSubset
  else if negb (VslotSet.is_empty (shadow_vslots c)) && bool_decide (extra_lanes c = [])
  then Err ShadowWithoutOldLane
  else
    let ttl_ms := tx_ttl_ms c in
    match shadow_warm_ms c with
    | Some warm_ms => if (warm_ms <? ttl_ms)%N then Err (ShadowWarmBelowTtl warm_ms ttl_ms) else Ok ()
    | None => Ok ()
    end.

Definition validate (usize_max : N) (c : SequencerConfig) : result ConfigError () :=
  _ ← validate_identity_layout c;
  _ ← validate_lanes c;
  _ ← validate_shadow c;
  map_err ResyncError (validate_cfg usize_max (resync_cfg c)).

(** [Err] leaves the index already rotated when only the id does not fit. *)
Definition rotate_partition (c : SequencerConfig) (offset : N) : SequencerConfig * result ConfigError () :=
  if (partition_index c + offset <=? u32_max)%N then
    let index := ((partition_index c + offset) mod PartitionCount.get (partition_count c))%N in
    let with_id id := mkConfig (partition_count c) index id (cfg_max_pending_per_sender c) (tx_ttl_ms c)
                        (resync_cfg c) (own_lane c) (cfg_vslots c) (extra_lanes c) (shadow_vslots c)
                        (shadow_warm_ms c) in
    match u8_try_from index with
    | Some id => (with_id id, Ok ())
    | None => (with_id (sequencer_id c), Err (PartitionIndexNotU8 index))
    end
  else (c, Err (PartitionOffsetOverflow (partition_index c) offset)).
End SequencerConfig.
