(* ===== verification/TxDecode.v ===== *)
(** * Field extraction from transaction envelopes

    Models [crates/sequencer/src/tx_decode.rs]: the walk over the RLP headers of
    an encoded transaction that reads the nonce, the fee fields and the value
    without a full decode, and the fall-back to the full decode of [alloy],
    which is a parameter. [usize] has 64 bits. *)
From S2P Require Import Prelude Bytes Types Fees SequencerConfig.

(** [SequencerError] of [crates/sequencer/src/error.rs]. *)
Inductive SequencerError : Type :=
| Backpressure
| IngressDisconnected
| MalformedFrame (message : list N)
| EncodeFailed (message : list N)
| Config (e : ConfigError)
| OriginGapUnfilled (expected : N)
| EpochQueueFull (held : nat) (oldest : N).

Record TxFields : Type := mkTxFields { tf_nonce : N; tf_fees : FeeFields }.

Inductive Layout : Type := Legacy | AccessList | DynamicFee.

Definition is_legacy (l : Layout) : bool := match l with Legacy => true | _ => false end.
Definition is_dynamic (l : Layout) : bool := match l with DynamicFee => true | _ => false end.

(** [be_len]: at most eight bytes reach it, so no bit leaves the [usize]. *)
Definition be_len (bytes : list N) : N :=
  fold_left (λ l x, N.lor (N.shiftl l 8 mod 2 ^ 64) x) bytes 0%N.

Definition usize_checked_add (a b : N) : option N := u64_checked_add a b.

(** [b.get(i)] and [b.get(lo..hi)] with [lo <= hi]. *)
Definition get_byte (b : list N) (i : N) : option N := b !! N.to_nat i.
Definition get_range (b : list N) (lo len : N) : option (list N) :=
  if (lo + len <=? N.of_nat (length b))%N
  then Some (take (N.to_nat len) (drop (N.to_nat lo) b)) else None.

Module Cursor.
Record t : Type := mk { b : list N; i : N }.

Definition at_ (c : t) (i' : N) : t := mk (b c) i'.

Definition enter_list (c : t) : option t :=
  first ← get_byte (b c) (i c);
  let i1 := (i c + 1)%N in
  if (0xf8 <=? first)%N then Some (at_ c (i1 + (first - 0xf7)))
  else if (first <? 0xc0)%N then None
  else Some (at_ c i1).

Definition uint (c : t) (max_len : N) : option (t * N) :=
  p ← get_byte (b c) (i c);
  if (p <? 0x80)%N then Some (at_ c (i c + 1), p)
  else
    let l := (p - 0x80)%N in
    if (N.min max_len 55 <? l)%N then None
    else
      bytes ← get_range (b c) (i c + 1) l;
      if bool_decide (head bytes = Some 0%N) then None
      else Some (at_ c (i c + (1 + l)), from_be_bytes bytes).

Definition skip_item (c : t) : option t :=
  p ← get_byte (b c) (i c);
  let long base :=
    let ll := (p - base)%N in
    bytes ← get_range (b c) (i c + 1) ll;
    i' ← usize_checked_add (i c + 1 + ll) (be_len bytes);
    Some (at_ c i') in
  if (p <=? 0x7f)%N then Some (at_ c (i c + 1))
  else if (p <=? 0xb7)%N then Some (at_ c (i c + 1 + (p - 0x80)))
  else if (p <=? 0xbf)%N then long 0xb7%N
  else if (p <=? 0xf7)%N then Some (at_ c (i c + 1 + (p - 0xc0)))
  else long 0xf7%N.
End Cursor.

Definition layout_of_first (f : N) : option (N * Layout) :=
  if (f =? 1)%N then Some (1%N, AccessList)
  else if (f =? 2)%N || (f =? 3)%N then Some (1%N, DynamicFee)
  else if (0xc0 <=? f)%N then Some (0%N, Legacy)
  else None.

Definition peek_fields (b : list N) : option TxFields :=
  f ← head b;
  '(start, layout) ← layout_of_first f;
  cur ← Cursor.enter_list (Cursor.mk b start);
  cur ← (if is_legacy layout then Some cur else Cursor.skip_item cur);
  '(cur, nonce) ← Cursor.uint cur 8;
  '(cur, (max_priority_fee_per_gas, max_fee_per_gas)) ←
    (if is_dynamic layout then
       '(cur, priority) ← Cursor.uint cur 16;
       '(cur, fee) ← Cursor.uint cur 16;
       Some (cur, (priority, fee))
     else '(cur, price) ← Cursor.uint cur 16; Some (cur, (price, price)));
  '(cur, gas_limit) ← Cursor.uint cur 8;
  cur ← Cursor.skip_item cur;
  '(_, value) ← Cursor.uint cur 32;
  Some (mkTxFields nonce
    (mkFeeFields (mkTxFees gas_limit max_fee_per_gas max_priority_fee_per_gas (negb (is_dynamic layout)))
       value)).

(** What the accessors of [alloy]'s decoded envelope return. *)
Record ConsensusEnvelope : Type := mkEnvelope {
  env_nonce : N;
  env_is_dynamic_fee : bool;
  env_gas_limit : N;
  env_max_fee_per_gas : N;
  env_priority_fee_or_price : N;
  env_value : N;
}.

(** [decode_2718]: the full decode, with the message of its error. *)
Definition decode_fields (decode_2718 : list N → result (list N) ConsensusEnvelope) (raw_tx : list N)
  : result SequencerError TxFields :=
  match peek_fields raw_tx with
  | Some fields => Ok fields
  | None =>
    match decode_2718 raw_tx with
    | Err e => Err (MalformedFrame e)
    | Ok env =>
      Ok (mkTxFields (env_nonce env)
            (mkFeeFields (mkTxFees (env_gas_limit env) (env_max_fee_per_gas env)
               (env_priority_fee_or_price env) (negb (env_is_dynamic_fee env))) (env_value env)))
    end
  end.

(** ** Field extraction: agreement with the RLP encoding

    A reference encoder of the transaction layouts (the RLP rules of Ethereum),
    and the theorem that the header walk reads back the fields of every
    encoding of it, whatever follows the value. *)

(** ** The RLP encoding *)

(** The number of bytes of the shortest big-endian spelling. *)
Definition byte_len (n : N) : nat := N.to_nat ((N.size n + 7) / 8).

Definition be_min (n : N) : list N := to_be_bytes (byte_len n) n.

Definition rlp_uint (n : N) : list N :=
  if (0 <? n)%N && (n <? 0x80)%N then [n] else (0x80 + N.of_nat (byte_len n))%N :: be_min n.

(** A byte string of at most 55 bytes. *)
Definition rlp_str (s : list N) : list N :=
  match s with
  | [x] => if (x <? 0x80)%N then [x] else [0x81%N; x]
  | _ => (0x80 + N.of_nat (length s))%N :: s
  end.

Definition rlp_list (payload : list N) : list N :=
  if (length payload <=? 55)%nat then (0xc0 + N.of_nat (length payload))%N :: payload
  else (0xf7 + N.of_nat (byte_len (N.of_nat (length payload))))%N
         :: be_min (N.of_nat (length payload)) ++ payload.

(** The transaction types of a layout, and an encoding of one: [to] is empty for
    a creation, [tail] is all that follows the value, and [nonce_item] the bytes
    that stand for the nonce. *)
Definition tx_prefix (layout : Layout) (blob : bool) : list N :=
  match layout with
  | Legacy => []
  | AccessList => [1%N]
  | DynamicFee => [if blob then 3%N else 2%N]
  end.

Definition rlp_tx_as (nonce_item : list N) (layout : Layout) (blob : bool) (chain_id : N) (f : TxFields)
    (to tail : list N) : list N :=
  let tx := fees (tf_fees f) in
  tx_prefix layout blob ++
  rlp_list ((if is_legacy layout then [] else rlp_uint chain_id) ++
            nonce_item ++
            (if is_dynamic layout then rlp_uint (max_priority_fee_per_gas tx) else []) ++
            rlp_uint (max_fee_per_gas tx) ++
            rlp_uint (gas_limit tx) ++
            rlp_str to ++
            rlp_uint (value (tf_fees f)) ++ tail).

Definition rlp_tx (layout : Layout) (blob : bool) (chain_id : N) (f : TxFields) (to tail : list N) : list N :=
  rlp_tx_as (rlp_uint (tf_nonce f)) layout blob chain_id f to tail.

(** The fields within their widths, and with the price of a transaction type
    without a priority fee in both fee fields. *)
Definition fields_ok (layout : Layout) (f : TxFields) : Prop :=
  let tx := fees (tf_fees f) in
  (tf_nonce f ≤ u64_max)%N ∧ (gas_limit tx ≤ u64_max)%N ∧
  (max_fee_per_gas tx ≤ u128_max)%N ∧ (max_priority_fee_per_gas tx ≤ u128_max)%N ∧
  (value (tf_fees f) ≤ u256_max)%N ∧
  legacy tx = negb (is_dynamic layout) ∧
  (is_dynamic layout = false → max_priority_fee_per_gas tx = max_fee_per_gas tx).

(** ** Lemmas *)
Lemma byte_len_spec n : (n < 256 ^ N.of_nat (byte_len n))%N.
Proof.
  unfold byte_len. rewrite N2Nat.id. replace 256%N with (2 ^ 8)%N by done. rewrite <-N.pow_mul_r.
  eapply N.lt_le_trans; [apply N.size_gt|]. apply N.pow_le_mono_r; [done|].
  pose proof (N.div_mod (N.size n + 7) 8). pose proof (N.mod_lt (N.size n + 7) 8). lia.
Qed.

Lemma byte_len_le n k : (n < 256 ^ N.of_nat k)%N → (byte_len n ≤ k)%nat.
Proof.
  intros Hn. unfold byte_len. replace 256%N with (2 ^ 8)%N in Hn by done. rewrite <-N.pow_mul_r in Hn.
  assert (N.size n ≤ 8 * N.of_nat k)%N as Hs.
  { destruct (N.eq_dec n 0%N) as [->|Hz]; [cbn; lia|].
    rewrite N.size_log2 by done. apply N.le_succ_l, N.log2_lt_pow2; lia. }
  assert ((N.size n + 7) / 8 ≤ N.of_nat k)%N; [|lia].
  apply N.lt_succ_r, N.Div0.div_lt_upper_bound. lia.
Qed.

Lemma byte_len_pos n : (0 < n)%N → (0 < byte_len n)%nat.
Proof. pose proof (byte_len_spec n). destruct (byte_len n); [cbn in *; lia|lia]. Qed.

Lemma from_be_min n : from_be_bytes (be_min n) = n.
Proof. apply from_to_be, byte_len_spec. Qed.

Lemma length_be_min n : length (be_min n) = byte_len n.
Proof. apply length_to_be_bytes. Qed.

(** The shortest spelling has no leading zero. *)
Lemma from_be_cons x bs : from_be_bytes (x :: bs) = (x * 256 ^ N.of_nat (length bs) + from_be_bytes bs)%N.
Proof.
  unfold from_be_bytes. cbn [rev].
  assert (∀ l, from_le_bytes (l ++ [x]) = (from_le_bytes l + 256 ^ N.of_nat (length l) * x)%N) as H.
  { induction l as [|y l IH]; [cbn; lia|]. cbn [app from_le_bytes length]. rewrite IH.
    rewrite Nat2N.inj_succ, N.pow_succ_r'. lia. }
  rewrite H, length_rev. lia.
Qed.

Lemma be_min_head n : head (be_min n) ≠ Some 0%N.
Proof.
  pose proof (from_be_min n) as Hv. pose proof (length_be_min n) as Hl.
  assert (bytes_ok (be_min n)) as Hok by apply to_be_bytes_ok.
  destruct (be_min n) as [|x bs]; [done|]. cbn. intros [= ->].
  rewrite from_be_cons, N.mul_0_l, N.add_0_l in Hv.
  assert (bytes_ok bs) as Hbs by (by inversion Hok).
  pose proof (from_be_bound bs Hbs) as Hb. rewrite Hv in Hb.
  apply byte_len_le in Hb. cbn in Hl. lia.
Qed.

(** A cursor at the end of [pre]. *)
Definition cursor_at (pre post : list N) : Cursor.t := Cursor.mk (pre ++ post) (N.of_nat (length pre)).

Lemma get_byte_at pre x post : get_byte (pre ++ x :: post) (N.of_nat (length pre)) = Some x.
Proof. unfold get_byte. rewrite Nat2N.id. by apply list_lookup_middle. Qed.

Lemma get_range_at pre x mid post :
  get_range (pre ++ x :: mid ++ post) (N.of_nat (length pre) + 1) (N.of_nat (length mid)) = Some mid.
Proof.
  unfold get_range. rewrite (proj2 (N.leb_le _ _)) by (rewrite length_app; cbn; rewrite length_app; lia).
  f_equal. rewrite Nat2N.id. replace (N.to_nat (N.of_nat (length pre) + 1)) with (length (pre ++ [x]))
    by (rewrite length_app; cbn; lia).
  replace (pre ++ x :: mid ++ post) with ((pre ++ [x]) ++ mid ++ post) by (by rewrite <-app_assoc).
  by rewrite drop_app_length, take_app_length.
Qed.

(** Moving over [item] leaves the cursor after it. *)
Lemma move_over pre item post : Cursor.at_ (cursor_at pre (item ++ post)) (N.of_nat (length (pre ++ item))) =
  cursor_at (pre ++ item) post.
Proof. unfold Cursor.at_, cursor_at. cbn. by rewrite app_assoc. Qed.

Lemma uint_reads pre post n max_len :
  (n < 256 ^ max_len)%N → (max_len ≤ 32)%N →
  Cursor.uint (cursor_at pre (rlp_uint n ++ post)) max_len = Some (cursor_at (pre ++ rlp_uint n) post, n).
Proof.
  intros Hn Hm. rewrite <-move_over. unfold Cursor.uint, rlp_uint.
  destruct (0 <? n)%N eqn:Hz, (n <? 128)%N eqn:Hs; cbn [andb app cursor_at Cursor.b Cursor.i].
  1: { rewrite get_byte_at. cbn [mbind option_bind]. rewrite Hs. do 3 f_equal. rewrite length_app; cbn; lia. }
  all: rewrite get_byte_at; cbn [mbind option_bind];
    rewrite (proj2 (N.ltb_ge _ _)) by lia;
    assert (byte_len n ≤ N.to_nat max_len)%nat as Hl by (apply byte_len_le; by rewrite N2Nat.id);
    rewrite (proj2 (N.ltb_ge _ _)) by lia;
    replace (128 + N.of_nat (byte_len n) - 128)%N with (N.of_nat (length (be_min n)))
      by (rewrite length_be_min; lia);
    rewrite get_range_at; cbn [mbind option_bind];
    rewrite bool_decide_eq_false_2 by apply be_min_head;
    rewrite from_be_min; do 3 f_equal; rewrite length_app; cbn; lia.
Qed.

Lemma skip_short pre post p l s :
  (p = 0x80 + N.of_nat l)%N → length s = l → (l ≤ 55)%nat →
  Cursor.skip_item (cursor_at pre ((p :: s) ++ post)) = Some (cursor_at (pre ++ p :: s) post).
Proof.
  intros -> Hl Hs. rewrite <-move_over. unfold Cursor.skip_item. cbn [app cursor_at Cursor.b Cursor.i].
  rewrite get_byte_at. cbn [mbind option_bind].
  rewrite (proj2 (N.leb_gt _ _)) by lia. rewrite (proj2 (N.leb_le _ _)) by lia.
  do 2 f_equal. rewrite length_app; cbn; lia.
Qed.

Lemma skip_byte pre post x : (x < 0x80)%N →
  Cursor.skip_item (cursor_at pre ([x] ++ post)) = Some (cursor_at (pre ++ [x]) post).
Proof.
  intros Hx. rewrite <-move_over. unfold Cursor.skip_item. cbn [app cursor_at Cursor.b Cursor.i].
  rewrite get_byte_at. cbn [mbind option_bind]. rewrite (proj2 (N.leb_le _ _)) by lia.
  do 2 f_equal. rewrite length_app; cbn; lia.
Qed.

Lemma skip_uint pre post n : (n ≤ u256_max)%N →
  Cursor.skip_item (cursor_at pre (rlp_uint n ++ post)) = Some (cursor_at (pre ++ rlp_uint n) post).
Proof.
  intros Hn. unfold rlp_uint. destruct ((0 <? n)%N && (n <? 0x80)%N) eqn:E.
  - apply andb_true_iff in E as [_ E%N.ltb_lt]. by apply skip_byte.
  - eapply (skip_short _ _ _ (byte_len n)); [done|apply length_be_min|].
    assert (byte_len n ≤ 32)%nat; [|lia]. apply byte_len_le. unfold u256_max in Hn.
    change (256 ^ N.of_nat 32)%N with (2 ^ 256)%N. lia.
Qed.

Lemma skip_str pre post s : (length s ≤ 55)%nat →
  Cursor.skip_item (cursor_at pre (rlp_str s ++ post)) = Some (cursor_at (pre ++ rlp_str s) post).
Proof.
  intros Hs. destruct s as [|x [|y s]]; cbn [rlp_str].
  - by apply (skip_short _ _ _ 0).
  - destruct (N.ltb_spec x 128); [by apply skip_byte|]. by apply (skip_short _ _ _ 1).
  - by eapply skip_short.
Qed.

Lemma enter_reads pre payload : (N.of_nat (length payload) ≤ u64_max)%N →
  ∃ hdr, rlp_list payload = hdr ++ payload ∧
    (∃ x hdr', hdr = x :: hdr' ∧ (0xc0 ≤ x)%N) ∧
    Cursor.enter_list (cursor_at pre (rlp_list payload)) = Some (cursor_at (pre ++ hdr) payload).
Proof.
  intros Hl. unfold rlp_list. destruct (Nat.leb_spec (length payload) 55) as [Hs|Hs].
  - eexists [_]. split; [done|]. split; [by eexists _, _; split; [done|lia]|].
    rewrite <-move_over. unfold Cursor.enter_list. cbn [app cursor_at Cursor.b Cursor.i].
    rewrite get_byte_at. cbn [mbind option_bind].
    rewrite (proj2 (N.leb_gt _ _)) by lia. rewrite (proj2 (N.ltb_ge _ _)) by lia.
    do 2 f_equal. rewrite length_app; cbn; lia.
  - set (n := N.of_nat (length payload)). exists ((0xf7 + N.of_nat (byte_len n))%N :: be_min n).
    assert (0 < byte_len n)%nat by (apply byte_len_pos; lia).
    split; [done|]. split; [by eexists _, _; split; [done|lia]|].
    change ((0xf7 + N.of_nat (byte_len n))%N :: be_min n ++ payload) with
      (((0xf7 + N.of_nat (byte_len n))%N :: be_min n) ++ payload).
    rewrite <-move_over. unfold Cursor.enter_list. cbn [app cursor_at Cursor.b Cursor.i].
    rewrite get_byte_at. cbn [mbind option_bind].
    rewrite (proj2 (N.leb_le _ _)) by lia.
    do 2 f_equal. rewrite length_app; cbn. rewrite length_be_min. lia.
Qed.

(** The walk over the payload of a list, from the item after the list header. *)
Definition peek_payload (layout : Layout) (cur : Cursor.t) : option TxFields :=
  cur ← (if is_legacy layout then Some cur else Cursor.skip_item cur);
  '(cur, nonce) ← Cursor.uint cur 8;
  '(cur, (priority, fee)) ←
    (if is_dynamic layout then
       '(cur, priority) ← Cursor.uint cur 16;
       '(cur, fee) ← Cursor.uint cur 16;
       Some (cur, (priority, fee))
     else '(cur, price) ← Cursor.uint cur 16; Some (cur, (price, price)));
  '(cur, gas_limit) ← Cursor.uint cur 8;
  cur ← Cursor.skip_item cur;
  '(_, value) ← Cursor.uint cur 32;
  Some (mkTxFields nonce (mkFeeFields (mkTxFees gas_limit fee priority (negb (is_dynamic layout))) value)).

Lemma peek_fields_payload b x bs start layout cur :
  b = x :: bs → layout_of_first x = Some (start, layout) →
  Cursor.enter_list (Cursor.mk b start) = Some cur → peek_fields b = peek_payload layout cur.
Proof. intros -> Hx Hc. unfold peek_fields. cbn [head mbind option_bind]. rewrite Hx. cbn [mbind option_bind]. by rewrite Hc. Qed.

(** [item] is read as the nonce [n]. *)
Definition spells_nonce (item : list N) (n : N) : Prop :=
  ∀ pre post, Cursor.uint (cursor_at pre (item ++ post)) 8 = Some (cursor_at (pre ++ item) post, n).

Lemma uint_spells n : (n ≤ u64_max)%N → spells_nonce (rlp_uint n) n.
Proof. intros Hn pre post. apply uint_reads; [|done]. unfold u64_max in Hn. change (256 ^ 8)%N with 18446744073709551616%N. lia. Qed.

Lemma wide_byte_spells n : (0 < n < 0x80)%N → spells_nonce [0x81; n]%N n.
Proof.
  intros Hn pre post. rewrite <-move_over. unfold Cursor.uint. cbn [app cursor_at Cursor.b Cursor.i].
  rewrite get_byte_at. cbn [mbind option_bind]. change (0x81 <? 0x80)%N with false. cbv iota.
  change (N.min 8 55 <? 0x81 - 0x80)%N with false. cbv iota. change (0x81 - 0x80)%N with (N.of_nat (length [n])).
  pose proof (get_range_at pre 0x81%N [n] post) as Hr. cbn [app] in Hr. rewrite Hr. cbn [mbind option_bind head].
  rewrite bool_decide_eq_false_2 by (intros [=]; lia). unfold from_be_bytes. cbn [rev app from_le_bytes].
  f_equal. f_equal; [|lia]. f_equal. rewrite length_app. cbn. lia.
Qed.

Lemma peek_payload_reads pre item layout chain_id f to tail :
  spells_nonce item (tf_nonce f) →
  fields_ok layout f → (chain_id ≤ u64_max)%N → (length to ≤ 55)%nat →
  peek_payload layout (cursor_at pre
    ((if is_legacy layout then [] else rlp_uint chain_id) ++ item ++
     (if is_dynamic layout then rlp_uint (max_priority_fee_per_gas (fees (tf_fees f))) else []) ++
     rlp_uint (max_fee_per_gas (fees (tf_fees f))) ++ rlp_uint (gas_limit (fees (tf_fees f))) ++
     rlp_str to ++ rlp_uint (value (tf_fees f)) ++ tail)) = Some f.
Proof.
  destruct f as [nonce [[gas fee prio leg] v]]. unfold fields_ok. cbn [fees tf_fees tf_nonce gas_limit max_fee_per_gas max_priority_fee_per_gas value legacy].
  intros Hitem (Hn & Hg & Hf & Hp & Hv & -> & Hd) Hc Hto. unfold peek_payload.
  unfold u64_max, u128_max, u256_max in *.
  assert (∀ k, (k ≤ 18446744073709551615)%N → (k ≤ 2 ^ 256 - 1)%N) as H256 by (intros; lia).
  destruct layout; cbn [is_legacy is_dynamic app negb] in *; cbn [mbind option_bind];
    try (rewrite skip_uint by (apply H256; done); cbn [mbind option_bind]).
  all: repeat (first [rewrite Hitem|rewrite uint_reads by (done || (change (256 ^ 8)%N with 18446744073709551616%N; change (256 ^ 16)%N with 340282366920938463463374607431768211456%N; change (256^32)%N with (2^256)%N; lia))
                     |rewrite skip_str by done]; cbn [mbind option_bind]).
  - by rewrite <-Hd.
  - by rewrite <-Hd.
  - done.
Qed.

Lemma decode_reads item decode_2718 layout blob chain_id f to tail :
  spells_nonce item (tf_nonce f) → fields_ok layout f → (chain_id ≤ u64_max)%N → (length to ≤ 55)%nat →
  (N.of_nat (length (rlp_tx_as item layout blob chain_id f to tail)) ≤ u64_max)%N →
  decode_fields decode_2718 (rlp_tx_as item layout blob chain_id f to tail) = Ok f.
Proof.
  intros Hi Hf Hc Hto Hlen. unfold decode_fields.
  enough (peek_fields (rlp_tx_as item layout blob chain_id f to tail) = Some f) as -> by done.
  unfold rlp_tx_as in *. cbv zeta in *.
  pose proof (λ pre, peek_payload_reads pre item layout chain_id f to tail Hi Hf Hc Hto) as Hread.
  match goal with |- context [rlp_list ?p] => set (payload := p) in * end. clearbody payload.
  assert (N.of_nat (length payload) ≤ u64_max)%N as Hl.
  { etrans; [|exact Hlen]. rewrite length_app. unfold rlp_list. destruct (_ <=? _); cbn; rewrite ?length_app; lia. }
  destruct (enter_reads (tx_prefix layout blob) payload Hl) as (hdr & E & (x & hdr' & -> & Hx) & He).
  assert (∃ y bs, tx_prefix layout blob ++ rlp_list payload = y :: bs ∧
            layout_of_first y = Some (N.of_nat (length (tx_prefix layout blob)), layout)) as (y & bs & Hb & Hy).
  { destruct layout; cbn [tx_prefix app length].
    - rewrite E. eexists _, _. split; [done|]. unfold layout_of_first.
      rewrite !(proj2 (N.eqb_neq _ _)) by lia. cbn [orb]. by rewrite (proj2 (N.leb_le _ _)) by lia.
    - by eexists _, _.
    - eexists _, _. split; [done|]. by destruct blob. }
  rewrite (peek_fields_payload _ _ _ _ _ _ Hb Hy He). apply Hread.
Qed.

(** C40. The header walk reads back what the encoding says: for every transaction
    layout and all field values within their widths, [decode_fields] on the RLP
    encoding returns exactly the encoded nonce, fee fields and value, without the
    full decode, whatever bytes follow the value. *)
Theorem decode_reads_encoding (decode_2718 : list N → result (list N) ConsensusEnvelope)
    (layout : Layout) (blob : bool) (chain_id : N) (f : TxFields) (to tail : list N) :
  fields_ok layout f → (chain_id ≤ u64_max)%N → (length to ≤ 55)%nat →
  (N.of_nat (length (rlp_tx layout blob chain_id f to tail)) ≤ u64_max)%N →
  decode_fields decode_2718 (rlp_tx layout blob chain_id f to tail) = Ok f.
Proof. intros Hf. apply decode_reads; [|done]. apply uint_spells, Hf. Qed.

(** The header walk is wider than RLP: a one-byte nonce spelled with a length
    prefix, which RLP forbids, decodes to the same fields as its canonical
    spelling, and the full decode never sees the bytes. *)
Theorem noncanonical_nonce_accepted (decode_2718 : list N → result (list N) ConsensusEnvelope)
    (layout : Layout) (blob : bool) (chain_id : N) (f : TxFields) (to tail : list N) :
  (0 < tf_nonce f < 0x80)%N → fields_ok layout f → (chain_id ≤ u64_max)%N → (length to ≤ 55)%nat →
  (N.of_nat (length (rlp_tx_as [0x81; tf_nonce f]%N layout blob chain_id f to tail)) ≤ u64_max)%N →
  decode_fields decode_2718 (rlp_tx_as [0x81; tf_nonce f]%N layout blob chain_id f to tail) = Ok f.
Proof. intros Hn. by apply decode_reads, wide_byte_spells. Qed.

(** ** Instances *)
Definition sample_fields : TxFields := mkTxFields 7 (mkFeeFields (mkTxFees 21000 1000 20 false) 300).
Definition sample_to : list N := replicate 20 9%N.
Definition no_decode (_ : list N) : result (list N) ConsensusEnvelope := Err [].

Lemma sample_fields_ok : fields_ok DynamicFee sample_fields.
Proof. unfold fields_ok; cbn. unfold u64_max, u128_max, u256_max. repeat split; try done; lia. Qed.

Lemma decode_reads_encoding_witness :
  decode_fields no_decode (rlp_tx DynamicFee false 412346 sample_fields sample_to [0xc0%N]) = Ok sample_fields.
Proof. apply (decode_reads_encoding no_decode); [apply sample_fields_ok|done|cbn; lia|by vm_compute]. Defined.

Lemma noncanonical_nonce_accepted_witness :
  decode_fields no_decode (rlp_tx_as [0x81; 7]%N DynamicFee false 412346 sample_fields sample_to [0xc0%N]) = Ok sample_fields.
Proof. apply (noncanonical_nonce_accepted no_decode DynamicFee false 412346 sample_fields); [done|apply sample_fields_ok|done|cbn; lia|by vm_compute]. Defined.
