(* ===== verification/Sequencer.v ===== *)
(** * The sequencer's publish loop

    Models [crates/sequencer/src/sequencer.rs] with its two submodules
    [sequencer/sealer_answers.rs] and [sequencer/receipt_floor.rs], and the small
    modules it calls: [inbound.rs], [outbound.rs], [lookup.rs], [pause_gate.rs],
    [sender.rs], [sealer_rules.rs] (the shared version) and the guard header of
    [crates/cluster-adapter/src/wire]. One loop pass is [run_once]; it runs the
    receipt drain, the sealer's answers, the expiry sweep, the retry drain and one
    envelope of [tx_data].

    The code is a state monad over [World]: the sequencer, its ports, a counter of
    the reads of the clock and of hash iteration orders, and the trace of what the
    pass asked of its ports. Metrics and log lines are left out. *)
From S2P Require Import Prelude VslotSet ShardMap Types Fees Pending State Unconfirmed NonceAhead Resync.
From S2P Require Import SequencerConfig TxDecode.

(** ** Records on the wire *)
Record TxDataLoc : Type := mkLoc { loc_session_id : Z; loc_position : BPosition }.

Record Inbound : Type :=
  mkInbound { in_lane : N; in_loc : TxDataLoc; stream_position : N; envelope : TxEnvelope }.

Definition sender_of (e : TxEnvelope) : Address := te_sender e.

Record GuardHeader : Type :=
  mkGuard { g_sender : Address; g_nonce : N; g_max_inclusion_block : N; g_tip : N }.

Record RefOffer : Type := mkOffer { tx_ref : TxRef; guard : GuardHeader; offer_envelope : option (list N) }.

Definition POSITION_TAG : N := N.shiftl 0x40 56.
Definition POSITION_MASK : N := N.shiftl 1 56 - 1.

Definition position_deadline (stream_position : N) : option N :=
  if (stream_position <=? POSITION_MASK)%N then Some (N.lor POSITION_TAG stream_position) else None.

Definition SEALER_V4_DECISION_VERSION : N := 4.

(** [SealerVersion(Arc<AtomicU8>)]: the value the loop reads. *)
Definition orders_by_position (version : N) : bool := (SEALER_V4_DECISION_VERSION <=? version)%N.

Record LookupRequest : Type := mkLookup { lk_sender : Address; lk_generation : N }.

(** ** The pause gate *)
Module PauseGate.
(** A [tokio] watch receiver: what [has_changed] answers, [None] for its error,
    and whether the current slots hold a pause. *)
Record Watch : Type := mkWatch { has_changed : option bool; slots_pause : bool }.

Record t : Type := mk { rx : option Watch; flag : bool }.

Definition off : t := mk None false.

Definition new (w : Watch) : t := mk (Some w) (slots_pause w).

Definition paused (g : t) : t * bool :=
  match rx g with
  | Some w => if default false (has_changed w)
              then (mk (Some (mkWatch (Some false) (slots_pause w))) (slots_pause w), slots_pause w)
              else (g, flag g)
  | None => (g, flag g)
  end.
End PauseGate.

(** ** The sequencer *)
Record RefMetadata : Type := mkMeta {
  correlation_id : N;
  meta_tx_hash : B256;
  lane : N;
  meta_tx_data_position : BPosition;
  meta_tx_data_session_id : Z;
  max_inclusion_block : N;
  tip : N;
}.

Record Observed : Type := mkObserved { ob_sender : Address; ob_nonce : N; ob_tx_hash : B256 }.

Record ShadowWindow : Type := mkShadow { sw_vslots : VslotSet; until : Instant }.

#[export] Instance ShadowWindow_eq_dec : EqDecision ShadowWindow.
Proof. solve_decision. Defined.

Record DepthReport : Type := mkDepth { dr_at : Instant; depths : list N }.

Module DepthReport.
Definition INTERVAL : Duration := from_millis 1000.
Definition new (now : Instant) : DepthReport := mkDepth now (replicate 256 0%N).
Definition tick (d : DepthReport) (now : Instant) (depths' : list N) : DepthReport * bool :=
  if (now - dr_at d <? INTERVAL)%N then (d, false) else (mkDepth now depths', true).
End DepthReport.

Record PastReject : Type :=
  mkPast { past_sender : Address; past_nonce : N; past_expected : N; past_chain : N }.

Record Sequencer : Type := mkSequencer {
  cfg : SequencerConfig;
  state : PartitionState.t RefMetadata;
  resync : option ResyncController.t;
  unconfirmed : UnconfirmedLedger.t RefMetadata;
  nonce_ahead : NonceAheadWatch.t;
  lookup_wired : bool;
  vslots : VslotSet;
  shadow : option ShadowWindow;
  depth : DepthReport;
  pause : PauseGate.t;
  fee_gate : FeeGate;
  sealer_version : N;
}.

(** What a pass asks of its ports. *)
Inductive Effect : Type :=
| EOffer (offers : list RefOffer) (published : nat) (err : option SequencerError)
| EStatus (s : TxStatus)
| EDrop (d : TxDrop)
| EError (e : TxError)
| ESent (tx_hash : B256)
| EFlushEvents
| EPoll (got : result SequencerError (option Inbound))
| ELookup (r : LookupRequest).

(** The code the loop calls but does not own: the [tx_data] subscription, the
    [tx_ordering] publisher, the clock, the iteration order of a [HashMap], the
    hash and the full transaction decode. *)
Class Externals := {
  tx_data_port : Type;
  refs_port : Type;
  poll : tx_data_port → tx_data_port * result SequencerError (option Inbound);
  try_publish_ref_batch : refs_port → list RefOffer → refs_port * (nat * option SequencerError);
  clock : nat → Instant;
  hash_order : nat → gset Address → list Address;
  keccak256 : Address → list N;
  decode_2718 : list N → result (list N) ConsensusEnvelope;
  u256_ops :: U256;
}.

(** What the loop relies on. A batch publish offers a prefix and reports an
    error for the rest, the clock does not go back, and an iteration visits every
    key once. *)
Class ExternalLaws (E : Externals) := {
  batch_prefix p offers : ((try_publish_ref_batch p offers).2.1 ≤ length offers)%nat;
  batch_all p offers : (try_publish_ref_batch p offers).2.2 = None →
    (try_publish_ref_batch p offers).2.1 = length offers;
  clock_mono i j : (i ≤ j)%nat → (clock i ≤ clock j)%N;
  hash_order_perm i X : hash_order i X ≡ₚ elements X;
}.

Record World `{Externals} : Type := mkWorld {
  core : Sequencer;
  tx_data : tx_data_port;
  refs : refs_port;
  reads : nat;
  trace : list Effect;
}.

Definition M `{Externals} (A : Type) : Type := World → A * World.
#[export] Instance M_ret `{Externals} : MRet M := λ A a w, (a, w).
#[export] Instance M_bind `{Externals} : MBind M := λ A B f m w, let '(a, w') := m w in f a w'.

Fixpoint for_each `{Externals} {A} (f : A → M ()) (l : list A) : M () :=
  match l with
  | [] => mret ()
  | x :: l' => _ ← f x; for_each f l'
  end.

Section primitives.
Context `{Externals}.

Definition set_core (w : World) (c : Sequencer) : World := mkWorld _ c (tx_data w) (refs w) (reads w) (trace w).

Definition ask {A} (f : Sequencer → A) : M A := λ w, (f (core w), w).
Definition modify (f : Sequencer → Sequencer) : M () := λ w, ((), set_core w (f (core w))).
Definition emit (e : Effect) : M () :=
  λ w, ((), mkWorld _ (core w) (tx_data w) (refs w) (reads w) (trace w ++ [e])).
(** [Instant::now()]. *)
Definition now : M Instant :=
  λ w, (clock (reads w), mkWorld _ (core w) (tx_data w) (refs w) (S (reads w)) (trace w)).
(** The order a [HashMap] with the keys [X] yields them in. *)
Definition iterate (X : gset Address) : M (list Address) :=
  λ w, (hash_order (reads w) X, mkWorld _ (core w) (tx_data w) (refs w) (S (reads w)) (trace w)).

Definition with_state (c : Sequencer) (s : PartitionState.t RefMetadata) : Sequencer :=
  mkSequencer (cfg c) s (resync c) (unconfirmed c) (nonce_ahead c) (lookup_wired c) (vslots c) (shadow c)
    (depth c) (pause c) (fee_gate c) (sealer_version c).
Definition with_resync (c : Sequencer) (r : option ResyncController.t) : Sequencer :=
  mkSequencer (cfg c) (state c) r (unconfirmed c) (nonce_ahead c) (lookup_wired c) (vslots c) (shadow c)
    (depth c) (pause c) (fee_gate c) (sealer_version c).
Definition with_unconfirmed (c : Sequencer) (l : UnconfirmedLedger.t RefMetadata) : Sequencer :=
  mkSequencer (cfg c) (state c) (resync c) l (nonce_ahead c) (lookup_wired c) (vslots c) (shadow c)
    (depth c) (pause c) (fee_gate c) (sealer_version c).
Definition with_nonce_ahead (c : Sequencer) (n : NonceAheadWatch.t) : Sequencer :=
  mkSequencer (cfg c) (state c) (resync c) (unconfirmed c) n (lookup_wired c) (vslots c) (shadow c)
    (depth c) (pause c) (fee_gate c) (sealer_version c).
Definition with_shadow (c : Sequencer) (sh : option ShadowWindow) : Sequencer :=
  mkSequencer (cfg c) (state c) (resync c) (unconfirmed c) (nonce_ahead c) (lookup_wired c) (vslots c) sh
    (depth c) (pause c) (fee_gate c) (sealer_version c).
Definition with_depth (c : Sequencer) (d : DepthReport) : Sequencer :=
  mkSequencer (cfg c) (state c) (resync c) (unconfirmed c) (nonce_ahead c) (lookup_wired c) (vslots c) (shadow c)
    d (pause c) (fee_gate c) (sealer_version c).
Definition with_pause (c : Sequencer) (p : PauseGate.t) : Sequencer :=
  mkSequencer (cfg c) (state c) (resync c) (unconfirmed c) (nonce_ahead c) (lookup_wired c) (vslots c) (shadow c)
    (depth c) p (fee_gate c) (sealer_version c).

(** An operation of a part of the sequencer. *)
Definition on_state {A} (f : PartitionState.t RefMetadata → PartitionState.t RefMetadata * A) : M A :=
  λ w, let '(s, a) := f (state (core w)) in (a, set_core w (with_state (core w) s)).
Definition on_ledger {A} (f : UnconfirmedLedger.t RefMetadata → UnconfirmedLedger.t RefMetadata * A) : M A :=
  λ w, let '(l, a) := f (unconfirmed (core w)) in (a, set_core w (with_unconfirmed (core w) l)).
Definition on_watch {A} (f : NonceAheadWatch.t → NonceAheadWatch.t * A) : M A :=
  λ w, let '(n, a) := f (nonce_ahead (core w)) in (a, set_core w (with_nonce_ahead (core w) n)).
Definition on_pause {A} (f : PauseGate.t → PauseGate.t * A) : M A :=
  λ w, let '(g, a) := f (pause (core w)) in (a, set_core w (with_pause (core w) g)).
Definition upd_state (f : PartitionState.t RefMetadata → PartitionState.t RefMetadata) : M () :=
  on_state (λ s, (f s, ())).
Definition upd_ledger (f : UnconfirmedLedger.t RefMetadata → UnconfirmedLedger.t RefMetadata) : M () :=
  on_ledger (λ l, (f l, ())).

(** One call of the publisher, and one of the subscription. *)
Definition offer (offers : list RefOffer) : M (nat * option SequencerError) :=
  λ w, let '(p, (published, err)) := try_publish_ref_batch (refs w) offers in
       ((published, err), mkWorld _ (core w) (tx_data w) p (reads w) (trace w ++ [EOffer offers published err])).
Definition poll_tx_data : M (result SequencerError (option Inbound)) :=
  λ w, let '(p, got) := poll (tx_data w) in
       (got, mkWorld _ (core w) p (refs w) (reads w) (trace w ++ [EPoll got])).
End primitives.

Module SequencerLoop.
Section loop.
Context `{Externals}.

Definition new (usize_max : N) (c : SequencerConfig) (now : Instant) : result ConfigError Sequencer :=
  _ ← SequencerConfig.validate usize_max c;
  vs ← SequencerConfig.vslot_set c;
  Ok (mkSequencer c (PartitionState.new (cfg_max_pending_per_sender c) (SequencerConfig.tx_ttl c)) None
        UnconfirmedLedger.new (NonceAheadWatch.new (from_millis (nonce_ahead_settle_ms (resync_cfg c))))
        false vs
        (if negb (VslotSet.is_empty (shadow_vslots c))
         then Some (mkShadow (shadow_vslots c) (now + SequencerConfig.shadow_warm c)) else None)
        (DepthReport.new now) PauseGate.off off 0).

Definition guard_deadline (c : Sequencer) (max_inclusion_block stream_position : N) : N :=
  if negb (orders_by_position (sealer_version c)) then max_inclusion_block
  else default max_inclusion_block (position_deadline stream_position).

Definition shadow_vslots (c : Sequencer) : VslotSet :=
  match shadow c with Some s => sw_vslots s | None => VslotSet.EMPTY end.

Definition in_shadow (c : Sequencer) (sender : Address) : bool :=
  match shadow c with
  | Some s => VslotSet.contains (sw_vslots s) (vslot_for keccak256 sender)
  | None => false
  end.

(** ** Reports *)
Definition publish_error (err : TxError) : M () :=
  silent ← ask (λ c, in_shadow c (err_sender err));
  if silent : bool then mret () else emit (EError err).

Definition publish_rejection (tx_hash : B256) (err : TxError) : M () :=
  silent ← ask (λ c, in_shadow c (err_sender err));
  if silent : bool then mret ()
  else
    _ ← emit (EStatus (TxStatus.rejected tx_hash err));
    _ ← emit (EDrop (mkTxDrop tx_hash (err_sender err) (err_nonce err) (drop_reason (err_reason err))));
    emit (EError err).

Definition publish_proven_drop (observed : Observed) : M () :=
  silent ← ask (λ c, in_shadow c (ob_sender observed));
  if silent : bool then mret ()
  else emit (EDrop (mkTxDrop (ob_tx_hash observed) (ob_sender observed) (ob_nonce observed) DropNonceTooLow)).

Definition report_expired (e : Address * N * RefMetadata) : M () :=
  let '(sender, nonce, meta) := e in
  expected_nonce ← ask (λ c, PartitionState.next_nonce (state c) sender);
  publish_rejection (meta_tx_hash meta) (mkTxError sender nonce (Expired expected_nonce)).

Definition report_fee_reject (observed : Observed) (reason : TxErrorReason) : M () :=
  publish_rejection (ob_tx_hash observed) (mkTxError (ob_sender observed) (ob_nonce observed) reason).

Definition report_evicted (sender : Address) (nonce : N) (tx_hash : B256) : M () :=
  expected_nonce ← ask (λ c, PartitionState.next_nonce (state c) sender);
  publish_rejection tx_hash (mkTxError sender nonce (Evicted expected_nonce)).

Definition proven_executed (c : Sequencer) (sender : Address) (nonce : N) : bool :=
  match resync c with
  | Some r => match ResyncController.floor r sender with
              | Some f => (nonce <? f)%N
              | None => false end
  | None => false
  end.

Definition report_duplicate (observed : Observed) (nonce expected_nonce : N) : M () :=
  let sender := ob_sender observed in
  proven ← ask (λ c, proven_executed c sender nonce);
  if proven : bool then publish_proven_drop (mkObserved sender nonce (ob_tx_hash observed))
  else publish_rejection (ob_tx_hash observed) (mkTxError sender nonce (DuplicatedTx expected_nonce)).

Definition request_lookup (sender : Address) : M () :=
  wired ← ask lookup_wired;
  r ← ask resync;
  let floor_known := match r with
                     | Some r => bool_decide (is_Some (ResyncController.floor r sender))
                     | None => false end in
  let generation := match r with Some r => ResyncController.generation r | None => 0%N end in
  if wired && negb floor_known then emit (ELookup (mkLookup sender generation)) else mret ().

(** ** Publishing *)
Definition make_txref (meta : RefMetadata) : TxRef :=
  mkTxRef (meta_tx_hash meta) (lane meta) (meta_tx_data_position meta) (meta_tx_data_session_id meta).

Definition offer_of (e : Address * N * RefMetadata) : RefOffer :=
  let '(s, n, m) := e in
  mkOffer (make_txref m) (mkGuard s n (max_inclusion_block m) (tip m)) None.

Definition suppress_shadow (drained : list (Address * N * RefMetadata)) : M (list (Address * N * RefMetadata)) :=
  c ← ask id;
  match shadow c with
  | None => mret drained
  | Some _ => mret (filter (λ e, in_shadow c e.1.1 = false) drained)
  end.

Definition record_one_published (e : Address * N * RefMetadata) : M () :=
  let '(sender, n, meta) := e in
  _ ← emit (EStatus (TxStatus.offered (meta_tx_hash meta) sender n));
  _ ← emit (ESent (meta_tx_hash meta));
  _ ← upd_state (λ s, PartitionState.clear_refused s sender n);
  r ← ask resync;
  match r with
  | Some _ =>
    at_ ← now;
    upd_ledger (λ l, UnconfirmedLedger.record_published l at_ sender n meta)
  | None => mret ()
  end.

(** [rest.drain(..published)]. *)
Definition record_published_prefix (rest : list (Address * N * RefMetadata)) (published : nat)
  : M (list (Address * N * RefMetadata)) :=
  _ ← for_each record_one_published (take published rest);
  mret (drop published rest).

Definition rebuffer_one (e : Address * N * RefMetadata) : M () :=
  let '(sender, nonce, meta) := e in
  refused ← ask (λ c, PartitionState.is_refused (state c) sender nonce);
  if refused : bool then report_evicted sender nonce (meta_tx_hash meta)
  else upd_state (λ s, PartitionState.reinsert_for_retry s sender nonce meta).

(** [pop_back] until empty. *)
Definition rebuffer_rest (rest : list (Address * N * RefMetadata)) : M () := for_each rebuffer_one (rev rest).

Definition BATCH_MAX : nat := 13.

(** [Continue] is [None], with the rest of the queue. *)
Definition flush_chunk (rest : list (Address * N * RefMetadata))
  : M (list (Address * N * RefMetadata) * option (result SequencerError ())) :=
  let chunk := Nat.min BATCH_MAX (length rest) in
  '(published, err) ← offer (offer_of <$> take chunk rest);
  rest' ← record_published_prefix rest published;
  match err with
  | None => mret (rest', None)
  | Some Backpressure => _ ← rebuffer_rest rest'; mret ([], Some (Err Backpressure))
  | Some e => mret (rest', Some (Err e))
  end.

(** [while !rest.is_empty()]: a turn that continues published its whole chunk, so
    the length of the queue bounds the turns. *)
Fixpoint flush_loop (fuel : nat) (rest : list (Address * N * RefMetadata)) : M (result SequencerError ()) :=
  match fuel, rest with
  | O, _ | _, [] => mret (Ok ())
  | S fuel', _ =>
    '(rest', stop) ← flush_chunk rest;
    match stop with
    | Some result => mret result
    | None => flush_loop fuel' rest'
    end
  end.

Definition flush_drained (drained : list (Address * N * RefMetadata)) : M (result SequencerError ()) :=
  live ← suppress_shadow drained;
  flush_loop (length live) live.

(** Reinserts in the ledger's descending order. *)
Definition rewind_for_republish (entries : list (UnconfirmedKey * RefMetadata)) : M () :=
  for_each (λ e, upd_state (λ s, PartitionState.reinsert_for_retry s e.1.1 e.1.2 e.2)) entries.

Definition sweep_confirm_timeouts : M () :=
  timeout ← ask (λ c, from_millis (confirm_timeout_ms (resync_cfg (cfg c))));
  now ← now;
  expired ← on_ledger (λ l, UnconfirmedLedger.sweep_expired l timeout now 256);
  if bool_decide (expired = []) then mret () else rewind_for_republish expired.

(** ** The sealer's answers *)
Definition rewind_one_gap (sender : Address) (expected : N) : M () :=
  taken ← on_ledger (λ l, UnconfirmedLedger.take_gap_rewinds l sender expected);
  if bool_decide (taken = []) then mret () else rewind_for_republish taken.

Definition free_nonce (sender : Address) (nonce : N) : M () :=
  taken ← on_ledger (λ l, UnconfirmedLedger.take_gap_rewinds l sender nonce);
  let later := (λ e, (e.1.2, e.2)) <$> taken in
  at_ ← now;
  upd_state (λ s, PartitionState.free_nonce s at_ (PartitionState.mkFreed sender nonce later)).

Definition apply_gap (sender : Address) (expected : N) : M () :=
  held ← ask (λ c, UnconfirmedLedger.contains (unconfirmed c) sender expected
                   || PartitionState.holds (state c) sender expected);
  if held : bool then rewind_one_gap sender expected else free_nonce sender expected.

Definition republish_held (sender : Address) (nonce : N) : M () :=
  held ← ask (λ c, UnconfirmedLedger.contains (unconfirmed c) sender nonce);
  if held : bool then rewind_one_gap sender nonce else mret ().

Definition named_by (meta : RefMetadata) (reason : TxErrorReason) : bool :=
  match reason with
  | PastDeadline deadline _ => (max_inclusion_block meta =? deadline)%N
  | _ => true
  end.

Definition take_refused (refusal : SealerRefusal) : M (option RefMetadata) :=
  let sender := rf_sender refusal in
  let nonce := rf_nonce refusal in
  let named meta := named_by meta (rf_reason refusal) in
  taken ← on_ledger (λ l, UnconfirmedLedger.take_named l sender nonce named);
  refused ← match taken with
            | Some meta => mret (Some meta)
            | None => on_state (λ s, PartitionState.take_parked s sender nonce named)
            end;
  match refused with
  | None => mret None
  | Some meta =>
    _ ← upd_state (λ s, PartitionState.mark_refused s sender nonce);
    mret (Some meta)
  end.

Definition report_refusal (refusal : SealerRefusal) : M () :=
  taken ← take_refused refusal;
  let err := mkTxError (rf_sender refusal) (rf_nonce refusal) (rf_reason refusal) in
  match taken with
  | Some meta => publish_rejection (meta_tx_hash meta) err
  | None => publish_error err
  end.

Definition apply_deadline_rejects (r : ResyncController.t) : M ResyncController.t :=
  let '(r', refusals) := ResyncController.drain_deadline_rejects r in
  _ ← for_each report_refusal refusals;
  mret r'.

Definition apply_past_reject (past : PastReject) : M () :=
  let sender := past_sender past in
  let nonce := past_nonce past in
  let chain := past_chain past in
  held ← ask (λ c, UnconfirmedLedger.contains (unconfirmed c) sender nonce);
  if negb held then mret ()
  else
    in_flight ← ask (λ c, N.of_nat (UnconfirmedLedger.count_from (unconfirmed c) sender chain));
    verdict ←
      (if (past_expected past <=? u64_saturating_add chain in_flight)%N then mret InFlight
       else
         at_ ← now;
         on_watch (λ n, NonceAheadWatch.observe n sender chain at_));
    report_refusal (mkRefusal sender nonce
      (match verdict with
       | Stuck => SealerNonceAhead (past_expected past) chain
       | InFlight => NonceInFlight chain
       end)).

Definition apply_sealer_answers (r : ResyncController.t) : M ResyncController.t :=
  let '(r', answers) := ResyncController.drain_answers r in
  _ ← for_each (λ '(sender, nonce, expected),
        apply_past_reject (mkPast sender nonce expected (default 0%N (ResyncController.floor r' sender))))
      (drops answers);
  order ← iterate (dom (gaps answers));
  _ ← for_each (λ sender, match gaps answers !! sender with
                          | Some expected => apply_gap sender expected
                          | None => mret () end) order;
  _ ← for_each (λ e, republish_held e.1 e.2) (window_full answers);
  mret r'.

(** ** The receipts *)
Definition forget_one_floor (sender : Address) : M () :=
  _ ← on_watch (λ n, (NonceAheadWatch.forget n sender, ()));
  _ ← on_state (λ s, PartitionState.forget_floor s sender);
  mret ().

Definition apply_one_release (sender : Address) (chain : N) : M () :=
  _ ← on_state (λ s, PartitionState.release_floor s sender chain);
  mret ().

Definition apply_one_floor_update (sender : Address) (floor : N) : M () :=
  _ ← on_watch (λ n, (NonceAheadWatch.forget n sender, ()));
  advanced ← on_state (λ s, PartitionState.advance_floor s sender floor);
  match advanced with
  | None => mret ()
  | Some (_, dropped) =>
    for_each (λ e, publish_proven_drop (mkObserved sender e.1 (meta_tx_hash e.2))) dropped
  end.

(** The senders of the events a drain may read. *)
Definition event_senders (events : list FloorEvent) : list Address :=
  omap (λ e, match e with FUpdate u => Some (up_sender u) | FRollback _ => None end) events.

(** The rollback of a drain visits the floors the map holds then: a part of the
    ones before the drain and the senders of the queued updates. *)
Definition apply_receipt_drain (r : ResyncController.t) : M (ResyncController.t * list Address) :=
  order ← iterate (dom (ResyncController.floors r) ∪
                   list_to_set (event_senders (queue (ResyncController.floor_rx r))));
  let '(r', d) := ResyncController.drain_floor_updates order r in
  _ ← for_each (λ e, upd_ledger (λ l, UnconfirmedLedger.confirm_through l e.1 e.2)) (confirmations d);
  _ ← for_each (λ e, apply_one_release e.1 e.2) (released d);
  _ ← for_each (λ e, apply_one_floor_update e.1 e.2) (raised d);
  _ ← for_each forget_one_floor (forgotten d);
  at_ ← now;
  mret (ResyncController.observe r' at_, forgotten d ++ stale_lookups d).

(** [self.resync] is [None] while the controller is out. *)
Definition resync_tick : M () :=
  taken ← ask resync;
  match taken with
  | None => mret ()
  | Some r =>
    _ ← modify (λ c, with_resync c None);
    '(r, lookups) ← apply_receipt_drain r;
    r ← apply_deadline_rejects r;
    r ← apply_sealer_answers r;
    _ ← modify (λ c, with_resync c (Some r));
    _ ← for_each request_lookup lookups;
    sweep_confirm_timeouts
  end.

(** ** The pass *)
Definition shadow_tick (now : Instant) : M () :=
  window ← ask shadow;
  match window with
  | Some s => if (until s <=? now)%N then modify (λ c, with_shadow c None) else mret ()
  | None => mret ()
  end.

Definition expiry_tick : M () :=
  now ← now;
  expired ← on_state (λ s, PartitionState.sweep_expired s now 256);
  _ ← for_each report_expired expired;
  _ ← shadow_tick now;
  keys ← ask (λ c, dom (PartitionState.pending (state c)));
  order ← iterate keys;
  depths ← ask (λ c, PartitionState.pending_depth_by (state c) order (vslot_for keccak256));
  modify (λ c, with_depth c (DepthReport.tick (depth c) now depths).1).

Definition collect_one_action (observed : Observed) (action : PartitionState.ProcessAction RefMetadata)
  (publishes : list (Address * N * RefMetadata)) : M (list (Address * N * RefMetadata)) :=
  match action with
  | PartitionState.Publish n payload => mret (publishes ++ [(ob_sender observed, n, payload)])
  | PartitionState.ReportDuplicate n expected_nonce =>
    _ ← report_duplicate observed n expected_nonce; mret publishes
  end.

Fixpoint collect_publishes (observed : Observed) (actions : list (PartitionState.ProcessAction RefMetadata))
  (publishes : list (Address * N * RefMetadata)) : M (list (Address * N * RefMetadata)) :=
  match actions with
  | [] => mret publishes
  | action :: actions' =>
    publishes' ← collect_one_action observed action publishes;
    collect_publishes observed actions' publishes'
  end.

(** [record_past_outcome] of a [Past] outcome only counts. *)
Definition handle_outcome (observed : Observed) (result : PartitionState.ProcessResult RefMetadata)
  : M (list (Address * N * RefMetadata)) :=
  let sender := ob_sender observed in
  _ ← match PartitionState.outcome result with
      | PartitionState.Matched | PartitionState.Reoffered => mret ()
      | PartitionState.Buffered | PartitionState.BufferedReplaced => request_lookup sender
      | PartitionState.BufferedDisabled => mret ()
      | PartitionState.BufferedEvicting evicted_nonce evicted =>
        _ ← request_lookup sender;
        report_evicted sender evicted_nonce (meta_tx_hash evicted)
      | PartitionState.RejectedTooFar rejected => report_evicted sender rejected (ob_tx_hash observed)
      | PartitionState.Past => mret ()
      end;
  collect_publishes observed (PartitionState.actions result) [].

(** An envelope of a served slot: the decode, the fee gate, the state machine and
    the publish of what it released. *)
Definition process_envelope (inbound : Inbound) : M (result SequencerError bool) :=
  let env := envelope inbound in
  let sender := sender_of env in
  match decode_fields decode_2718 (raw_tx env) with
  | Err e => mret (Err e)
  | Ok fields =>
    let nonce := tf_nonce fields in
    let observed := mkObserved sender nonce (te_tx_hash env) in
    c ← ask id;
    match admit_tx (fee_gate c) sender (tf_fees fields) with
    | Err reason => _ ← report_fee_reject observed reason; mret (Ok true)
    | Ok bid =>
      _ ← upd_state (λ s, match PartitionState.next_nonce_known s sender with
                          | None => PartitionState.seed_next_nonce s sender 0
                          | Some _ => s end);
      let meta := mkMeta (te_correlation_id env) (te_tx_hash env) (in_lane inbound)
                    (loc_position (in_loc inbound)) (loc_session_id (in_loc inbound))
                    (guard_deadline c (te_max_inclusion_block env) (stream_position inbound)) bid in
      at_ ← now;
      result ← on_state (λ s, PartitionState.process_at s at_ sender nonce meta);
      publishes ← handle_outcome observed result;
      flushed ← flush_drained publishes;
      mret (match flushed with Ok _ => Ok true | Err e => Err e end)
    end
  end.

Definition run_once : M (result SequencerError bool) :=
  _ ← resync_tick;
  _ ← emit EFlushEvents;
  _ ← expiry_tick;
  paused ← on_pause PauseGate.paused;
  if paused : bool then mret (Ok false)
  else
    keys ← ask (λ c, dom (PartitionState.pending (state c)));
    order ← iterate keys;
    pending ← on_state (λ s, PartitionState.drain_pending s order);
    if negb (bool_decide (pending = [])) then
      flushed ← flush_drained pending;
      mret (match flushed with Ok _ => Ok true | Err e => Err e end)
    else
      got ← poll_tx_data;
      match got with
      | Err e => mret (Err e)
      | Ok None => mret (Ok false)
      | Ok (Some inbound) =>
        served ← ask (λ c, VslotSet.contains (vslots c) (vslot_for keccak256 (sender_of (envelope inbound))));
        if negb served then mret (Ok true) else process_envelope inbound
      end.

Definition resync_note_publish_ok : M () :=
  modify (λ c, with_resync c (ResyncController.note_publish_ok <$> resync c)).

Definition resync_note_publish_stall : M () :=
  r ← ask resync;
  match r with
  | Some r => at_ ← now; modify (λ c, with_resync c (Some (ResyncController.note_publish_stall r at_)))
  | None => mret ()
  end.

Definition after_pass (outcome : result SequencerError bool) : M (result SequencerError bool) :=
  match outcome with
  | Ok _ => _ ← resync_note_publish_ok; mret (Ok true)
  | Err Backpressure => _ ← resync_note_publish_stall; mret (Ok true)
  | Err IngressDisconnected => mret (Ok false)
  | Err e => mret (Err e)
  end.

Definition run_tick : M (result SequencerError bool) :=
  outcome ← run_once;
  after_pass outcome.
End loop.
End SequencerLoop.
