(* ===== verification/SequencerFacts.v ===== *)
(** * Reasoning about the publish loop

    A property of a pass is a preorder on worlds that every step respects. The
    [Frame] interface says which steps a preorder respects; the [framed] tactic
    walks over the code of an operation and closes it from the interface. At the
    end, a concrete environment with its laws. *)
From S2P Require Import Prelude Bytes VslotSet ShardMap Types Fees Pending Unconfirmed NonceAhead Resync State StateFacts StateOps SequencerConfig TxDecode.
From S2P Require Import TxDecode Sequencer.

Create HintDb loop.
Create Rewrite HintDb loopw.

Section runs.
Context `{Externals}.

(** Every run of [m] goes along [R]. *)
Definition runs {A} (R : relation World) (m : M A) : Prop := ∀ w, R w (m w).2.

Lemma runs_ret {A} (R : relation World) `{!Reflexive R} (a : A) : runs R (mret a).
Proof. by intros w. Qed.

Lemma runs_bind {A B} (R : relation World) `{!Transitive R} (m : M A) (f : A → M B) :
  runs R m → (∀ a, runs R (f a)) → runs R (m ≫= f).
Proof.
  intros Hm Hf w. unfold mbind, M_bind. specialize (Hm w). destruct (m w) as [a w'].
  etrans; [exact Hm|apply Hf].
Qed.

(** ... and its result is in [Q]. *)
Definition runs_post {A} (R : relation World) (m : M A) (Q : A → Prop) : Prop := ∀ w, R w (m w).2 ∧ Q (m w).1.

Lemma runs_post_ret {A} (R : relation World) `{!Reflexive R} (a : A) (Q : A → Prop) : Q a → runs_post R (mret a) Q.
Proof. by intros Ha w. Qed.

Lemma runs_post_bind {A B} (R : relation World) `{!Transitive R} (m : M A) (f : A → M B) (Q : B → Prop) :
  runs R m → (∀ a, runs_post R (f a) Q) → runs_post R (m ≫= f) Q.
Proof.
  intros Hm Hf w. unfold mbind, M_bind. specialize (Hm w). destruct (m w) as [a w'].
  destruct (Hf a w') as [? ?]. split; [by etrans|done].
Qed.

Lemma runs_bind_post {A B} (R : relation World) `{!Transitive R} (m : M A) (f : A → M B) (P : A → Prop) :
  runs_post R m P → (∀ a, P a → runs R (f a)) → runs R (m ≫= f).
Proof.
  intros Hm Hf w. unfold mbind, M_bind. destruct (Hm w) as [Hr Hp]. destruct (m w) as [a w'].
  etrans; [exact Hr|by apply Hf].
Qed.

Lemma runs_post_both {A B} (R : relation World) `{!Transitive R} (m : M A) (f : A → M B) (P : A → Prop) (Q : B → Prop) :
  runs_post R m P → (∀ a, P a → runs_post R (f a) Q) → runs_post R (m ≫= f) Q.
Proof.
  intros Hm Hf w. unfold mbind, M_bind. destruct (Hm w) as [Hr Hp]. destruct (m w) as [a w'].
  destruct (Hf a Hp w') as [? ?]. split; [by etrans|done].
Qed.

Lemma runs_for_each {A} (R : relation World) `{!PreOrder R} (f : A → M ()) l :
  (∀ x, x ∈ l → runs R (f x)) → runs R (for_each f l).
Proof.
  induction l as [|x l IH]; cbn; intros Hf; [apply runs_ret; apply _|].
  apply runs_bind; [apply _|apply Hf; left|]. intros _. apply IH. intros y Hy. apply Hf. by right.
Qed.

Lemma runs_ask {A} (R : relation World) `{!Reflexive R} (f : Sequencer → A) : runs R (ask f).
Proof. by intros w. Qed.

(** The steps a preorder allows; [allowed] are the effects it allows. A step of the
    state keeps the capacities of the buffers. *)
Class Frame (allowed : Effect → Prop) (R : relation World) := {
  frame_pre :: PreOrder R;
  frame_state {A} (f : PartitionState.t RefMetadata → PartitionState.t RefMetadata * A) : caps_kept f → runs R (on_state f);
  frame_ledger {A} (f : UnconfirmedLedger.t RefMetadata → UnconfirmedLedger.t RefMetadata * A) : runs R (on_ledger f);
  frame_watch {A} (f : NonceAheadWatch.t → NonceAheadWatch.t * A) : runs R (on_watch f);
  frame_now : runs R now;
  frame_iterate X : runs R (iterate X);
  frame_depth f : runs R (modify (λ c, with_depth c (f c)));
  frame_emit e : allowed e → runs R (emit e);
}.
End runs.

#[export] Hint Resolve frame_ledger frame_watch frame_now frame_iterate frame_depth
  frame_emit : loop.
#[export] Hint Extern 1 (Frame _ _) => typeclasses eauto : loop.

Ltac framed_step :=
  match goal with
  | |- runs _ (mbind _ _) => apply runs_bind; [apply _| |intros]
  | |- runs _ (mret _) => apply runs_ret; apply _
  | |- runs _ (ask _) => apply runs_ask; apply _
  | |- runs _ (for_each _ _) => apply runs_for_each; [apply _|intros]
  | |- runs _ (upd_state _) => apply frame_state; intros ?; cbn [fst]; solve [auto with caps]
  | |- runs _ (on_state _) => apply frame_state; intros ?; solve [auto with caps]
  | |- runs _ (upd_ledger _) => apply frame_ledger
  | |- runs _ (match ?x with _ => _ end) => destruct x eqn:?
  | |- runs _ (let '(_, _) := ?x in _) => destruct x eqn:?
  | |- runs _ _ => solve [eauto with loop]
  end.
(** Unfold an operation and walk over it. *)
Ltac framed := repeat framed_step.

(** Close the conditions of a frame lemma. *)
Ltac by_frame lem := apply lem; first [apply _ | done | idtac].

(** ** The reports, over a frame that allows their effects *)
Section reports.
Context `{Externals} (allowed : Effect → Prop) (R : relation World) `{!Frame allowed R}.
Import SequencerLoop.
Hypothesis Hstatus : ∀ s, allowed (EStatus s).
Hypothesis Hdrop : ∀ d, allowed (EDrop d).
Hypothesis Herror : ∀ e, allowed (EError e).
Hypothesis Hsent : ∀ h, allowed (ESent h).

Lemma frame_publish_error e : runs R (publish_error e).
Proof. unfold publish_error. framed. Qed.
Lemma frame_publish_rejection h e : runs R (publish_rejection h e).
Proof. unfold publish_rejection. framed. Qed.
Lemma frame_proven_drop o : runs R (publish_proven_drop o).
Proof. unfold publish_proven_drop. framed. Qed.
Lemma frame_record_one e : runs R (record_one_published e).
Proof. unfold record_one_published. framed. Qed.
End reports.

(** ** The operations, over any frame *)
Section framed.
Context `{Externals} (allowed : Effect → Prop) (R : relation World) `{!Frame allowed R}.
Import SequencerLoop.

(** The reports are steps of the frame; [good] are the refs it may offer. *)
Hypothesis Herror : ∀ e, runs R (publish_error e).
Hypothesis Hrejection : ∀ h e, runs R (publish_rejection h e).
Hypothesis Hdrop : ∀ o, runs R (publish_proven_drop o).
Hypothesis Hlookup : ∀ r, allowed (ELookup r).

Lemma frame_request_lookup a : runs R (request_lookup a).
Proof. unfold request_lookup. framed. Qed.
Hint Resolve frame_request_lookup : loop.
Lemma frame_report_evicted a n h : runs R (report_evicted a n h).
Proof. unfold report_evicted. framed. Qed.
Lemma frame_report_expired e : runs R (report_expired e).
Proof. unfold report_expired. framed. Qed.
Lemma frame_rewind_for_republish l : runs R (rewind_for_republish l).
Proof. unfold rewind_for_republish. framed. Qed.
Hint Resolve frame_report_evicted frame_report_expired frame_rewind_for_republish : loop.
Lemma frame_sweep : runs R sweep_confirm_timeouts.
Proof. unfold sweep_confirm_timeouts. framed. Qed.
Lemma frame_rewind_one_gap a n : runs R (rewind_one_gap a n).
Proof. unfold rewind_one_gap. framed. Qed.
Lemma frame_free_nonce a n : runs R (free_nonce a n).
Proof. unfold free_nonce. framed. Qed.
Lemma frame_take_refused r : runs R (take_refused r).
Proof. unfold take_refused. framed. Qed.
Hint Resolve frame_sweep frame_rewind_one_gap frame_free_nonce frame_take_refused : loop.
Lemma frame_report_refusal r : runs R (report_refusal r).
Proof. unfold report_refusal. framed. Qed.
Lemma frame_apply_gap a n : runs R (apply_gap a n).
Proof. unfold apply_gap. framed. Qed.
Lemma frame_republish_held a n : runs R (republish_held a n).
Proof. unfold republish_held. framed. Qed.
Hint Resolve frame_report_refusal frame_apply_gap frame_republish_held : loop.
Lemma frame_apply_past_reject p : runs R (apply_past_reject p).
Proof. unfold apply_past_reject. framed. Qed.
Hint Resolve frame_apply_past_reject : loop.
Lemma frame_sealer_answers r : runs R (apply_sealer_answers r).
Proof. unfold apply_sealer_answers. framed. Qed.
Lemma frame_deadline_rejects r : runs R (apply_deadline_rejects r).
Proof. unfold apply_deadline_rejects. framed. Qed.
Lemma frame_forget a : runs R (forget_one_floor a).
Proof. unfold forget_one_floor. framed. Qed.
Lemma frame_release a n : runs R (apply_one_release a n).
Proof. unfold apply_one_release. framed. Qed.
Lemma frame_floor_update a n : runs R (apply_one_floor_update a n).
Proof. unfold apply_one_floor_update. framed. Qed.
Hint Resolve frame_sealer_answers frame_deadline_rejects frame_forget frame_release frame_floor_update : loop.
Lemma frame_receipt_drain r : runs R (apply_receipt_drain r).
Proof. unfold apply_receipt_drain. framed. Qed.
Hint Resolve frame_receipt_drain : loop.
Lemma frame_report_duplicate o n e : runs R (report_duplicate o n e).
Proof. unfold report_duplicate. framed. Qed.
Hint Resolve frame_report_duplicate : loop.
Lemma frame_collect_publishes o acts out : runs R (collect_publishes o acts out).
Proof.
  revert out; induction acts as [|act acts IH]; intros out; cbn [collect_publishes]; [framed|].
  unfold collect_one_action. framed.
Qed.
Hint Resolve frame_collect_publishes : loop.
Lemma frame_handle_outcome o r : runs R (handle_outcome o r).
Proof. unfold handle_outcome. framed. Qed.
Lemma frame_rebuffer_rest l : runs R (rebuffer_rest l).
Proof. unfold rebuffer_rest, rebuffer_one. framed. Qed.

(** The controller, the shadow window, and the offers and polls may change too. *)
Section resync.
Hypothesis Hresync : ∀ f, runs R (modify (λ c, with_resync c (f c))).
Lemma frame_resync_tick : runs R resync_tick.
Proof. unfold resync_tick. framed. Qed.
Lemma frame_after_pass o : runs R (after_pass o).
Proof. unfold after_pass, resync_note_publish_ok, resync_note_publish_stall. framed. Qed.
End resync.

Section ticks.
Hypothesis Hshadow : runs R (modify (λ c, with_shadow c None)).
Lemma frame_expiry_tick : runs R expiry_tick.
Proof. unfold expiry_tick, shadow_tick. framed. Qed.
End ticks.

Section publishes.
Context (good : Address * N * RefMetadata → Prop).
Hypothesis Hoffer : ∀ l, Forall good l → runs R (offer (offer_of <$> l)).
Hypothesis Hrecord : ∀ e, good e → runs R (record_one_published e).
Hint Resolve frame_handle_outcome frame_rebuffer_rest : loop.

Lemma frame_record_prefix l n : Forall good l → runs_post R (record_published_prefix l n) (Forall good).
Proof.
  intros Hl. unfold record_published_prefix. apply runs_post_bind; [apply _| |].
  - apply runs_for_each; [apply _|]. intros e He. apply Hrecord.
    eapply Forall_forall; [by apply Forall_take, Hl|done].
  - intros _. apply runs_post_ret; [apply _|]. by apply Forall_drop.
Qed.

Lemma frame_flush_chunk l : Forall good l → runs_post R (flush_chunk l) (λ r, Forall good r.1).
Proof.
  intros Hl. unfold flush_chunk. apply runs_post_bind; [apply _|by apply Hoffer, Forall_take|].
  intros [n err]. eapply runs_post_both; [apply _|by apply frame_record_prefix|]. intros l' Hl'.
  assert (∀ e, runs_post R (mret (M:=M) (l', e)) (λ r : _ * option (result SequencerError ()), Forall good r.1))
    as Hret by (intros; by apply runs_post_ret; [apply _|]).
  destruct err as [[]|]; try apply Hret.
  apply runs_post_bind; [apply _|apply frame_rebuffer_rest|]. intros _. by apply runs_post_ret; [apply _|].
Qed.

Lemma frame_flush_loop fuel l : Forall good l → runs R (flush_loop fuel l).
Proof.
  revert l; induction fuel as [|fuel IH]; intros l Hl; cbn [flush_loop]; [framed|].
  destruct l as [|e l]; [framed|]. eapply runs_bind_post; [apply _|by apply frame_flush_chunk|].
  intros [l' stop] Hl'. destruct stop; [framed|by apply IH].
Qed.
End publishes.

Lemma frame_flush_drained l :
  (∀ offers, runs R (offer offers)) → (∀ e, runs R (record_one_published e)) → runs R (flush_drained l).
Proof.
  intros Ho Hr. unfold flush_drained, suppress_shadow. framed.
  apply (frame_flush_loop (λ _, True)); auto. by apply Forall_true.
Qed.

Section envelopes.
Hypothesis Hflush : ∀ l, runs R (flush_drained l).
Hint Resolve frame_handle_outcome : loop.
Lemma frame_process_envelope i : runs R (process_envelope i).
Proof. unfold process_envelope, report_fee_reject. framed. Qed.
End envelopes.

Section pass.
Hypothesis Htick : runs R resync_tick.
Hypothesis Hnotes : ∀ o, runs R (after_pass o).
Hypothesis Hflush : ∀ l, runs R (flush_drained l).
Hypothesis Hshadow : runs R (modify (λ c, with_shadow c None)).
Hypothesis Hpoll : runs R poll_tx_data.
Hypothesis Hpause : ∀ A (f : PauseGate.t → PauseGate.t * A), runs R (on_pause f).
Hypothesis Hevents : allowed EFlushEvents.
Hint Resolve frame_expiry_tick frame_process_envelope : loop.
Lemma frame_run_once : runs R run_once.
Proof. unfold run_once. framed. Qed.
Hint Resolve frame_run_once : loop.
Lemma frame_run_tick : runs R run_tick.
Proof. unfold run_tick. framed. Qed.
End pass.
End framed.

(** ** Traces *)
Section traces.
Context `{Externals}.

(** The trace of [w'] is the one of [w] and new effects, all in [P]. *)
Definition extends (P : Effect → Prop) : relation World :=
  λ w w', ∃ new, trace w' = trace w ++ new ∧ Forall P new.

#[export] Instance extends_preorder P : PreOrder (extends P).
Proof.
  split.
  - intros w. exists []. by rewrite app_nil_r.
  - intros w1 w2 w3 (n1 & E1 & H1) (n2 & E2 & H2). exists (n1 ++ n2).
    rewrite E2, E1, app_assoc. split; [done|]. by apply Forall_app.
Qed.

Lemma extends_same P w w' : trace w' = trace w → extends P w w'.
Proof. intros E. exists []. by rewrite E, app_nil_r. Qed.

Lemma extends_one (P : Effect → Prop) w w' e : trace w' = trace w ++ [e] → P e → extends P w w'.
Proof. intros E He. exists [e]. split; [done|]. by constructor. Qed.

Lemma extends_impl (P Q : Effect → Prop) w w' : (∀ e, P e → Q e) → extends P w w' → extends Q w w'.
Proof. intros Hi (new & E & Hn). exists new. split; [done|]. by eapply Forall_impl. Qed.

(** The steps that touch one part of the core leave the trace alone. *)
Lemma on_state_trace {A} (f : _ → _ * A) w : trace (on_state f w).2 = trace w.
Proof. unfold on_state. by destruct (f _). Qed.
Lemma on_ledger_trace {A} (f : _ → _ * A) w : trace (on_ledger f w).2 = trace w.
Proof. unfold on_ledger. by destruct (f _). Qed.
Lemma on_watch_trace {A} (f : _ → _ * A) w : trace (on_watch f w).2 = trace w.
Proof. unfold on_watch. by destruct (f _). Qed.
Lemma on_state_core {A} (f : _ → _ * A) w : core (on_state f w).2 = with_state (core w) (f (state (core w))).1.
Proof. unfold on_state. by destruct (f _). Qed.
Lemma on_ledger_core {A} (f : _ → _ * A) w : core (on_ledger f w).2 = with_unconfirmed (core w) (f (unconfirmed (core w))).1.
Proof. unfold on_ledger. by destruct (f _). Qed.
Lemma on_watch_core {A} (f : _ → _ * A) w : core (on_watch f w).2 = with_nonce_ahead (core w) (f (nonce_ahead (core w))).1.
Proof. unfold on_watch. by destruct (f _). Qed.
End traces.

#[export] Hint Rewrite @on_state_trace @on_ledger_trace @on_watch_trace @on_state_core @on_ledger_core @on_watch_core : loopw.

(** ** A concrete environment of the publish loop

    In-memory ports in the manner of the fakes of [crates/sequencer/src/inbound.rs]
    and [fakes.rs]: a scripted [tx_data] queue and a publisher that takes as many
    refs as it has room for and is blocked then. They show that the laws the loop
    relies on can hold, and run the loop on concrete inputs. *)

Definition sample_env : Externals := {|
  tx_data_port := list Inbound;
  refs_port := nat;
  poll q := match q with [] => ([], Ok None) | i :: q' => (q', Ok (Some i)) end;
  try_publish_ref_batch room offers :=
    let n := Nat.min room (length offers) in
    ((room - n)%nat, (n, if (n =? length offers)%nat then None else Some Backpressure));
  clock i := N.of_nat i;
  hash_order _ X := elements X;
  keccak256 a := to_be_bytes 32 a;
  decode_2718 _ := Err [];
  u256_ops := wrapping_u256;
|}.

Lemma sample_laws : ExternalLaws sample_env.
Proof.
  split.
  - intros p offers. cbn. lia.
  - intros p offers. cbn. destruct (Nat.eqb_spec (p `min` length offers) (length offers)); done.
  - intros i j Hij. cbn. lia.
  - done.
Qed.

(** A replica of one partition that serves every slot, with no side tasks. *)
Definition sample_core : Sequencer :=
  mkSequencer SequencerConfig.default (PartitionState.new 4 1000) None UnconfirmedLedger.new
    (NonceAheadWatch.new 100) false VslotSet.full None (DepthReport.new 0) PauseGate.off off 0.

Definition sample_resync : ResyncController.t :=
  ResyncController.mk default_cfg 100 false ∅ 0 (AppliedRollbacks.mk []) (mkChan [] false) false (mkChan [] false) false
    (mkChan [] false) false (mkWatermark 0 0) 0 false None None.

Definition sample_meta (h : N) : RefMetadata := mkMeta 1 h 0 BPosition.ZERO 0 1000 0.

(** The state machine after a list of operations. *)
Definition sample_state_after (ops : list (Op RefMetadata)) : PartitionState.t RefMetadata :=
  (exec_ops (PartitionState.new 4 1000) ops).1.

Definition sample_world (c : Sequencer) (queue : list Inbound) (room : nat) : World (H := sample_env) :=
  mkWorld sample_env c queue room 0 [].

(** A transaction of sender [a] as it arrives on the lane. *)
Definition sample_inbound (a nonce : N) : Inbound :=
  mkInbound 0 (mkLoc 1 BPosition.ZERO) 0 (mkTxEnvelope 5
    (rlp_tx DynamicFee false 412346 (mkTxFields nonce (tf_fees sample_fields)) sample_to [0xc0%N]) a 77 1000).

(** A replica as its constructor makes it from the default configuration. *)
Definition sample_started : Sequencer :=
  match SequencerLoop.new u64_max SequencerConfig.default 0 with Ok c => c | Err _ => sample_core end.
