(* ===== verification/SequencerSpec.v ===== *)
(** * Theorems about the publish loop *)
From S2P Require Import Prelude Bytes VslotSet ShardMap Types Fees Pending State Unconfirmed NonceAhead Resync.
From S2P Require Import StateFacts StateOps SequencerConfig TxDecode Sequencer SequencerFacts.
Import SequencerLoop.

(** ** The pause gate *)
Section paused.
Context `{Externals}.

Definition quiet (e : Effect) : Prop :=
  match e with EOffer _ _ _ | EPoll _ => False | _ => True end.

(** The ports and the gate are as before, and nothing was offered or polled. *)
Definition untouched : relation World := λ w w',
  pause (core w') = pause (core w) ∧ refs w' = refs w ∧ tx_data w' = tx_data w ∧ extends quiet w w'.

#[export] Instance untouched_preorder : PreOrder untouched.
Proof.
  split; [by intros w|]. intros w1 w2 w3 (a1 & b1 & c1 & d1) (a2 & b2 & c2 & d2).
  repeat split; [congruence..|]. by etrans.
Qed.

#[export] Instance untouched_frame : Frame quiet untouched.
Proof.
  split; [apply _|..]; intros; intros w; unfold untouched.
  all: try (autorewrite with loopw; repeat split; try done;
            try (unfold on_state, on_ledger, on_watch; by destruct (f _)); by apply extends_same; autorewrite with loopw).
  repeat split; [done..|]. by eapply extends_one.
Qed.
Lemma untouched_resync_tick : runs untouched resync_tick.
Proof.
  apply (frame_resync_tick quiet); try done; try apply _; intros.
  - by_frame (frame_publish_error quiet).
  - by_frame (frame_publish_rejection quiet).
  - by_frame (frame_proven_drop quiet).
  - intros w. by repeat split; apply extends_same.
Qed.

Lemma untouched_expiry_tick : runs untouched expiry_tick.
Proof.
  apply (frame_expiry_tick quiet); try done; try apply _; intros.
  - by_frame (frame_publish_rejection quiet).
  - intros w. by repeat split; apply extends_same.
Qed.
End paused.

(** While the process is paused the loop offers nothing and reads nothing: a pass
    with a closed gate returns [Ok false], calls neither the publisher nor the
    [tx_data] subscription, and leaves both ports as they were, while the receipt
    drain, the sealer's answers and the expiry sweep still run. *)
Theorem paused_offers_nothing `{Externals} (w : World) :
  (PauseGate.paused (pause (core w))).2 = true →
  (run_once w).1 = Ok false ∧ refs (run_once w).2 = refs w ∧ tx_data (run_once w).2 = tx_data w ∧
  extends quiet w (run_once w).2.
Proof.
  intros Hp.
  assert (runs untouched (_ ← resync_tick; _ ← emit EFlushEvents; expiry_tick)) as Hr.
  { apply runs_bind; [apply _|apply untouched_resync_tick|]. intros ?.
    apply runs_bind; [apply _|by apply (frame_emit (allowed:=quiet))|]. intros ?.
    apply untouched_expiry_tick. }
  specialize (Hr w). unfold run_once. unfold mbind, M_bind in *.
  destruct (resync_tick w) as [[] w1]. destruct (emit EFlushEvents w1) as [[] w2].
  destruct (expiry_tick w2) as [[] w3]. cbn in Hr. destruct Hr as (Eg & Er & Et & Hx).
  unfold on_pause. rewrite Eg. destruct (PauseGate.paused _) as [g p]. cbn in Hp. subst p. cbn. done.
Qed.

(** ** Shadow mode *)

(** The senders an effect is about, for the sealer and the clients. *)
Definition names (e : Effect) (a : Address) : Prop :=
  match e with
  | EOffer offers _ _ => a ∈ (g_sender ∘ guard) <$> offers
  | EStatus s => fst <$> stage_identity (stage s) = Some a
  | EDrop d => drop_sender d = a
  | EError e => err_sender e = a
  | _ => False
  end.

Section shadow.
Context `{Externals}.

Definition mutes (win : ShadowWindow) (a : Address) : bool :=
  VslotSet.contains (sw_vslots win) (vslot_for keccak256 a).

Definition silent (win : ShadowWindow) (e : Effect) : Prop := ∀ a, names e a → mutes win a = false.

(** A window only ends. *)
Definition window_ends : relation World := λ w w',
  (shadow (core w') = shadow (core w) ∨ shadow (core w') = None) ∧ extends (λ _, True) w w'.

(** ... and while it lasts, the new effects are about other senders. *)
Definition keeps_silent (win : ShadowWindow) : relation World := λ w w',
  window_ends w w' ∧ (shadow (core w') = Some win → extends (silent win) w w').

#[export] Instance window_ends_preorder : PreOrder window_ends.
Proof.
  split; [intros w; split; [by left|done]|]. intros w1 w2 w3 [H1 E1] [H2 E2]. split; [|by etrans].
  destruct H1 as [H1|H1], H2 as [H2|H2]; rewrite H2, ?H1; auto.
Qed.

#[export] Instance keeps_silent_preorder win : PreOrder (keeps_silent win).
Proof.
  split; [by intros w|]. intros w1 w2 w3 [M1 S1] [M2 S2]. split; [by etrans|]. intros E3.
  assert (shadow (core w2) = Some win) as E2 by (destruct M2 as [[E|E] _]; congruence).
  etrans; [by apply S1|by apply S2].
Qed.

Lemma window_ends_same w w' : shadow (core w') = shadow (core w) → trace w' = trace w → window_ends w w'.
Proof. intros. split; [by left|by apply extends_same]. Qed.

Lemma keeps_silent_same win w w' : shadow (core w') = shadow (core w) → trace w' = trace w → keeps_silent win w w'.
Proof. intros. split; [by apply window_ends_same|]. intros _. by apply extends_same. Qed.

Lemma keeps_silent_off win w w' : window_ends w w' → shadow (core w) ≠ Some win → keeps_silent win w w'.
Proof. intros Hm Hs. split; [done|]. intros E. destruct Hm as [[E'|E'] _]; congruence. Qed.

(** A step that emits one effect. *)
Lemma keeps_silent_one win w w' e :
  shadow (core w') = shadow (core w) → trace w' = trace w ++ [e] →
  (shadow (core w) = Some win → silent win e) → keeps_silent win w w'.
Proof.
  intros Es Et Hs. split.
  - split; [by left|]. by eapply extends_one.
  - intros E. eapply extends_one; [done|]. apply Hs. congruence.
Qed.

#[export] Instance window_ends_frame : Frame (λ _, True) window_ends.
Proof.
  split; [apply _|..]; intros; intros w; try (by apply window_ends_same; autorewrite with loopw).
  split; [by left|]. by eapply extends_one.
Qed.

#[export] Instance keeps_silent_frame win : Frame (silent win) (keeps_silent win).
Proof.
  split; [apply _|..]; intros; intros w; try (by apply keeps_silent_same; autorewrite with loopw).
  by eapply keeps_silent_one.
Qed.

(** Reports about a sender that is not in shadow. *)
Lemma unmuted_reports win w w' es a :
  in_shadow (core w) a = false → core w' = core w → trace w' = trace w ++ es →
  Forall (λ e, ∀ b, names e b → b = a) es → keeps_silent win w w'.
Proof.
  intros Hin Ec Et Hn. split; [split; [left; by rewrite Ec|exists es; split; [done|by apply Forall_true]]|].
  rewrite Ec. intros E. exists es. split; [done|]. eapply Forall_impl; [exact Hn|]. intros e He b ->%He.
  unfold in_shadow in Hin. by rewrite E in Hin.
Qed.

Lemma silent_error win err : runs (keeps_silent win) (publish_error err).
Proof.
  intros w. unfold publish_error, mbind, M_bind, ask. destruct (in_shadow _ _) eqn:E; [done|].
  eapply (unmuted_reports win w _ [_]); [exact E|done..|].
  repeat constructor; intros b Hb; cbn in Hb; congruence.
Qed.

Lemma silent_proven_drop win o : runs (keeps_silent win) (publish_proven_drop o).
Proof.
  intros w. unfold publish_proven_drop, mbind, M_bind, ask. destruct (in_shadow _ _) eqn:E; [done|].
  eapply (unmuted_reports win w _ [_]); [exact E|done..|].
  repeat constructor; intros b Hb; cbn in Hb; congruence.
Qed.

Lemma silent_rejection win h err : runs (keeps_silent win) (publish_rejection h err).
Proof.
  intros w. unfold publish_rejection, mbind, M_bind, ask. destruct (in_shadow _ _) eqn:E; [done|].
  eapply (unmuted_reports win w _ [_; _; _]); [exact E|done|cbn; by rewrite <-!app_assoc|].
  repeat constructor; intros b Hb; cbn in Hb; congruence.
Qed.

Lemma mono_flush_drained l : runs window_ends (flush_drained l).
Proof.
  apply (frame_flush_drained (λ _, True)); try apply _; intros.
  - by_frame (frame_publish_rejection (λ _, True)).
  - intros w. unfold offer. destruct (try_publish_ref_batch _ _) as [p [n err]].
    split; [by left|]. by eapply extends_one.
  - by_frame (frame_record_one (λ _, True)).
Qed.

Definition unmuted (win : ShadowWindow) (e : Address * N * RefMetadata) : Prop := mutes win e.1.1 = false.

Lemma silent_offer win l : Forall (unmuted win) l → runs (keeps_silent win) (offer (offer_of <$> l)).
Proof.
  intros Hl w. unfold offer. destruct (try_publish_ref_batch _ _) as [p [n err]].
  eapply keeps_silent_one; [done..|]. intros _ a Ha. cbn in Ha. rewrite <-list_fmap_compose in Ha.
  apply list_elem_of_fmap in Ha as ([[s k] m] & -> & He). apply (proj1 (Forall_forall _ _) Hl _ He).
Qed.

Lemma silent_record_one win e : unmuted win e → runs (keeps_silent win) (record_one_published e).
Proof.
  destruct e as [[a n] m]. intros He. unfold record_one_published.
  assert (silent win (EStatus (TxStatus.offered (meta_tx_hash m) a n))) by (intros b [= <-]; exact He).
  assert (∀ h, silent win (ESent h)) by (intros h b []). framed.
Qed.

Lemma silent_flush_drained win l : runs (keeps_silent win) (flush_drained l).
Proof.
  intros w. destruct (decide (shadow (core w) = Some win)) as [E|E].
  2: { apply keeps_silent_off; [apply mono_flush_drained|done]. }
  unfold flush_drained, suppress_shadow, mbind, M_bind, ask. cbn [id]. rewrite E.
  assert (runs (keeps_silent win) (flush_loop (length (filter (λ e, in_shadow (core w) e.1.1 = false) l))
    (filter (λ e, in_shadow (core w) e.1.1 = false) l))) as Hf; [|apply Hf].
  apply (frame_flush_loop (silent win) _) with (good := unmuted win); intros; try done; try apply _.
  - apply silent_rejection.
  - by apply silent_offer.
  - by apply silent_record_one.
  - apply Forall_forall. intros e [He _]%list_elem_of_filter. unfold in_shadow in He. by rewrite E in He.
Qed.

Lemma silent_resync win f : runs (keeps_silent win) (modify (λ c, with_resync c (f c))).
Proof. intros w. by apply keeps_silent_same. Qed.

Lemma silent_effects win : silent win EFlushEvents ∧ ∀ r, silent win (ELookup r).
Proof. split; [|intros r]; by intros b []. Qed.

Lemma silent_run_tick win : runs (keeps_silent win) run_tick.
Proof.
  destruct (silent_effects win) as [He Hl].
  apply (frame_run_tick (silent win)); try apply _; intros;
    auto using silent_error, silent_rejection, silent_proven_drop, silent_flush_drained.
  - apply (frame_resync_tick (silent win)); try apply _; intros;
      auto using silent_error, silent_rejection, silent_proven_drop, silent_resync.
  - apply (frame_after_pass (silent win)); try apply _; intros; auto using silent_resync.
  - intros w. split; [split; [by right|by apply extends_same]|done].
  - intros w. unfold poll_tx_data. destruct (poll _). eapply keeps_silent_one; [done..|]. by intros _ b [].
  - intros w. unfold on_pause. destruct (f _). by apply keeps_silent_same.
Qed.
End shadow.

(** C25. Shadow mode is silent: in a pass that ends with the resize window [win] still
    open, every offer, status, drop and error the pass sent is about a sender
    outside the window's slots, and a pass never opens or changes a window. *)
Theorem shadow_is_silent `{Externals} (w : World) (win : ShadowWindow) :
  shadow (core (run_tick w).2) = Some win →
  shadow (core w) = Some win ∧
  ∃ new, trace (run_tick w).2 = trace w ++ new ∧
    ∀ e a, e ∈ new → names e a → VslotSet.contains (sw_vslots win) (vslot_for keccak256 a) = false.
Proof.
  intros E. destruct (silent_run_tick win w) as [[Hs _] Hx]. split; [destruct Hs; congruence|].
  destruct (Hx E) as (new & Et & Hn). exists new. split; [done|]. intros e a He.
  exact (proj1 (Forall_forall _ _) Hn e He a).
Qed.

(** ** Instances *)
(** Two transactions wait, the publisher has room, and the lifecycle holds a pause. *)
Lemma paused_offers_nothing_witness :
  let w := sample_world (with_pause sample_core (PauseGate.new (PauseGate.mkWatch (Some false) true)))
             [sample_inbound 1 0; sample_inbound 1 1] 2 in
  (run_once w).1 = Ok false ∧ refs (run_once w).2 = 2.
Proof.
  intros w. destruct (@paused_offers_nothing sample_env w) as (H1 & H2 & _); [by vm_compute|]. split; [exact H1|exact H2].
Defined.

(** Senders 1 and 2 each send a transaction; slot 1 is in shadow. *)
Definition shadow_window : ShadowWindow :=
  mkShadow (VslotSet.insert VslotSet.EMPTY (vslot_for (keccak256 (Externals := sample_env)) 1)) 1000.

Lemma shadow_is_silent_witness :
  let w := sample_world (with_shadow sample_core (Some shadow_window)) [sample_inbound 1 0; sample_inbound 2 0] 2 in
  shadow (core w) = Some shadow_window ∧ ∃ new, trace (run_tick w).2 = [] ++ new.
Proof.
  intros w. destruct (@shadow_is_silent sample_env w shadow_window) as (H1 & new & H2 & _); [by vm_compute|].
  split; [exact H1|]. exists new. exact H2.
Defined.
