(* ===== verification/SequencerFlush.v ===== *)
(** * Publishing a drained run

    What [flush_drained] does with a list of refs: it offers them in order and in
    chunks, records the ones the publisher took in the unconfirmed ledger, and on
    backpressure puts the rest back into the buffers. *)
From S2P Require Import Prelude Bytes VslotSet ShardMap Types Fees Pending State Unconfirmed NonceAhead Resync.
From S2P Require Import StateFacts StateOps SequencerConfig TxDecode Sequencer SequencerFacts.
Import PartitionState SequencerLoop.

Abbreviation Ref := (N * N * RefMetadata)%type (only parsing).

Definition ref_key (e : Ref) : N * N := e.1.

(** The refs the publisher took. *)
Definition accepted (e : Effect) : list RefOffer :=
  match e with EOffer offers published _ => take published offers | _ => [] end.

Section flush.
Context {E : Externals} {L : ExternalLaws E}.
Implicit Types (w : World) (l pub rest : list Ref).

(** [e] happened on the way from [w] to [w']. *)
Definition fresh w w' (e : Effect) : Prop := ∃ new, trace w' = trace w ++ new ∧ e ∈ new.

Lemma fresh_later w1 w2 w3 e : fresh w1 w2 e → (∃ new, trace w3 = trace w2 ++ new) → fresh w1 w3 e.
Proof. intros (u & Eu & He) (v & Ev). exists (u ++ v). rewrite Ev, Eu, app_assoc. split; [done|]. apply elem_of_app. by left. Qed.

Lemma fresh_earlier w1 w2 w3 e : (∃ new, trace w2 = trace w1 ++ new) → fresh w2 w3 e → fresh w1 w3 e.
Proof. intros (u & Eu) (v & Ev & He). exists (u ++ v). rewrite Ev, Eu, app_assoc. split; [done|]. apply elem_of_app. by right. Qed.

(** The client of a ref hears that it was evicted. *)
Definition told_evicted w w' (e : Ref) : Prop :=
  ∃ expected, fresh w w' (EError (mkTxError e.1.1 e.1.2 (Evicted expected))) ∧
              fresh w w' (EDrop (mkTxDrop (meta_tx_hash e.2) e.1.1 e.1.2 TxpoolFull)).

(** [w'] comes from [w] by recording the refs [pub]; the publisher took [acc]
    meanwhile. *)
Record recorded w w' pub (acc : list RefOffer) : Prop := {
  rd_resync : resync (core w') = resync (core w);
  rd_shadow : shadow (core w') = shadow (core w);
  rd_vslots : vslots (core w') = vslots (core w);
  rd_next : next (state (core w')) = next (state (core w));
  rd_slot : ∀ a k, slot_of (state (core w')) a k = slot_of (state (core w)) a k;
  rd_refused : ∀ a n, is_refused (state (core w')) a n =
    is_refused (state (core w)) a n && bool_decide ((a, n) ∉ ref_key <$> pub);
  rd_entries : is_Some (resync (core w)) → ∀ e, e ∈ pub →
    fst <$> UnconfirmedLedger.entries (unconfirmed (core w')) !! ref_key e = Some e.2;
  rd_other : ∀ k, k ∉ ref_key <$> pub →
    UnconfirmedLedger.entries (unconfirmed (core w')) !! k = UnconfirmedLedger.entries (unconfirmed (core w)) !! k;
  rd_off : resync (core w) = None → unconfirmed (core w') = unconfirmed (core w);
  rd_trace : ∃ new, trace w' = trace w ++ new ∧ new ≫= accepted = acc;
}.

Lemma recorded_refl w : recorded w w [] [].
Proof.
  split; try done.
  - intros a n. by rewrite andb_true_r.
  - intros _ e He. by apply elem_of_nil in He.
  - exists []. by rewrite app_nil_r.
Qed.

Lemma recorded_trans w1 w2 w3 p1 p2 a1 a2 :
  recorded w1 w2 p1 a1 → recorded w2 w3 p2 a2 → NoDup (ref_key <$> p1 ++ p2) →
  recorded w1 w3 (p1 ++ p2) (a1 ++ a2).
Proof.
  intros [r1 s1 v1 n1 l1 f1 e1 o1 x1 t1] [r2 s2 v2 n2 l2 f2 e2 o2 x2 t2] Hnd.
  rewrite fmap_app in Hnd. apply NoDup_app in Hnd as (Hnd1 & Hdis & Hnd2).
  split; try congruence.
  - intros a n. rewrite f2, f1, <-andb_assoc. f_equal. rewrite <-bool_decide_and. apply bool_decide_ext.
    rewrite fmap_app, not_elem_of_app. tauto.
  - intros Hs e [He|He]%elem_of_app.
    + rewrite o2; [by apply e1|]. apply Hdis, list_elem_of_fmap. eauto.
    + apply e2; [by rewrite r1|done].
  - intros k. rewrite fmap_app, not_elem_of_app. intros [Hk1 Hk2]. by rewrite o2, o1.
  - intros Hr. rewrite x2 by congruence. auto.
  - destruct t1 as (u1 & E1 & A1), t2 as (u2 & E2 & A2). exists (u1 ++ u2).
    rewrite E2, E1, app_assoc. split; [done|]. by rewrite bind_app, A1, A2.
Qed.

Lemma record_one_recorded w e : recorded w (record_one_published e w).2 [e] [].
Proof.
  destruct e as [[a n] m]. unfold record_one_published, mbind, M_bind, ask. cbn [emit upd_state on_state fst snd].
  assert (∀ b k, is_refused (clear_refused (state (core w)) a n) b k =
    is_refused (state (core w)) b k && bool_decide ((b, k) ∉ ref_key <$> [(a, n, m)])) as Href.
  { intros b k. unfold clear_refused. rewrite is_refused_trim. f_equal. unfold ref_key. cbn.
    destruct (decide (a = b)) as [->|Hne].
    - destruct (N.eqb_spec k n) as [->|Hk]; cbn; symmetry.
      + apply bool_decide_eq_false. set_solver.
      + apply bool_decide_eq_true. set_solver.
    - symmetry. apply bool_decide_eq_true. set_solver. }
  destruct (resync (core w)) as [r|] eqn:Er; cbn; rewrite Er; cbn; split; cbn; try done.
  all: try apply next_trim_refused. all: try (intros; apply slot_of_trim).
  all: try (eexists [_; _]; split; [by rewrite <-app_assoc|done]).
  - intros _ e ->%list_elem_of_singleton. unfold ref_key. cbn. by rewrite lookup_insert_eq.
  - intros k Hk. unfold ref_key in Hk. cbn in Hk. rewrite lookup_insert_ne by set_solver. done.
  - intros Hr. congruence.
  - intros [r Hr]. congruence.
Qed.

Lemma record_all_recorded w l : NoDup (ref_key <$> l) → recorded w (for_each record_one_published l w).2 l [].
Proof.
  revert w. induction l as [|e l IH]; intros w Hnd; cbn [for_each]; [apply recorded_refl|].
  unfold mbind, M_bind. destruct (record_one_published e w) as [[] w1] eqn:E1.
  apply (recorded_trans w w1 _ [e] l [] []); [|by apply IH; apply NoDup_cons in Hnd as []|done].
  pose proof (record_one_recorded w e) as H. by rewrite E1 in H.
Qed.

(** [w'] comes from [w] by putting the refs [rest] back. A ref whose nonce has a
    refused mark is reported as evicted instead. *)
Record rebuffered w w' rest : Prop := {
  rb_resync : resync (core w') = resync (core w);
  rb_shadow : shadow (core w') = shadow (core w);
  rb_vslots : vslots (core w') = vslots (core w);
  rb_ledger : unconfirmed (core w') = unconfirmed (core w);
  rb_refused : ∀ a n, is_refused (state (core w')) a n = is_refused (state (core w)) a n;
  rb_kept : ∀ a n m, (a, n, m) ∈ rest → is_refused (state (core w)) a n = false →
    slot_of (state (core w')) a n = Some (PendingBuffer.mkSlot None m) ∧
    ∃ f, next (state (core w')) !! a = Some f ∧ (f ≤ n)%N;
  rb_evicted : ∀ a n m, (a, n, m) ∈ rest → is_refused (state (core w)) a n = true →
    in_shadow (core w) a = false → told_evicted w w' (a, n, m);
  rb_other : ∀ a n, (∀ m, (a, n, m) ∈ rest → is_refused (state (core w)) a n = true) →
    slot_of (state (core w')) a n = slot_of (state (core w)) a n;
  rb_mono : ∀ a f, next (state (core w)) !! a = Some f →
    ∃ f', next (state (core w')) !! a = Some f' ∧ (f' ≤ f)%N;
  rb_floor : ∀ a, next (state (core w')) !! a = next (state (core w)) !! a ∨
    ∃ n m, (a, n, m) ∈ rest ∧ is_refused (state (core w)) a n = false ∧ next (state (core w')) !! a = Some n;
  rb_trace : ∃ new, trace w' = trace w ++ new ∧ new ≫= accepted = [];
}.

Lemma rebuffered_refl w : rebuffered w w [].
Proof.
  split; try done.
  - intros a n m He. by apply elem_of_nil in He.
  - intros a n m He. by apply elem_of_nil in He.
  - eauto.
  - eauto.
  - exists []. by rewrite app_nil_r.
Qed.

Lemma in_shadow_same c c' a : shadow c' = shadow c → in_shadow c' a = in_shadow c a.
Proof. unfold in_shadow. by intros ->. Qed.

Lemma rebuffered_trans w1 w2 w3 l1 l2 :
  rebuffered w1 w2 l1 → rebuffered w2 w3 l2 → NoDup (ref_key <$> l1 ++ l2) → rebuffered w1 w3 (l1 ++ l2).
Proof.
  intros [r1 s1 v1 d1 f1 k1 e1 o1 m1 n1 t1] [r2 s2 v2 d2 f2 k2 e2 o2 m2 n2 t2] Hnd.
  rewrite fmap_app in Hnd. apply NoDup_app in Hnd as (_ & Hdis & _).
  assert (∀ a n m m', (a, n, m) ∈ l1 → (a, n, m') ∉ l2) as Hout.
  { intros a n m m' H1 H2. apply (Hdis (a, n)); apply list_elem_of_fmap; eexists; split; [|exact H1| |exact H2]; done. }
  split; try congruence.
  - intros a n m [He|He]%elem_of_app Hf.
    + destruct (k1 a n m He Hf) as (Hs & f & Ef & Hle). destruct (m2 a f Ef) as (f' & Ef' & Hle').
      split; [|exists f'; split; [done|lia]]. rewrite o2; [done|]. intros m' H2. by destruct (Hout a n m m').
    + apply k2; [done|]. by rewrite f1.
  - intros a n m [He|He]%elem_of_app Hf Hs.
    + destruct (e1 a n m He Hf Hs) as (x & Hx & Hy). destruct t2 as (new & Et & _).
      exists x. split; eapply fresh_later; eauto.
    + destruct (e2 a n m He) as (x & Hx & Hy); [by rewrite f1|by rewrite (in_shadow_same _ _ _ s1)|].
      destruct t1 as (new & Et & _). exists x. split; eapply fresh_earlier; eauto.
  - intros a n Ho. rewrite o2, o1; [done|..]; intros m Hm; rewrite ?f1; apply (Ho m), elem_of_app; auto.
  - intros a f Ef. destruct (m1 a f Ef) as (f' & Ef' & ?). destruct (m2 a f' Ef') as (f'' & ? & ?).
    exists f''. split; [done|lia].
  - intros a. destruct (n2 a) as [E2|(n & m & He & Hf & En)].
    + destruct (n1 a) as [E1|(n & m & He & Hf & En)]; [left; congruence|right].
      exists n, m. rewrite elem_of_app. rewrite E2. auto.
    + right. exists n, m. rewrite elem_of_app, <-f1. auto.
  - destruct t1 as (u1 & E1 & A1), t2 as (u2 & E2 & A2). exists (u1 ++ u2).
    rewrite E2, E1, app_assoc. split; [done|]. by rewrite bind_app, A1, A2.
Qed.

(** A rejection leaves the core alone and offers nothing. *)
Lemma publish_rejection_spec h err w :
  core (publish_rejection h err w).2 = core w ∧
  (∃ new, trace (publish_rejection h err w).2 = trace w ++ new ∧ new ≫= accepted = []) ∧
  (in_shadow (core w) (err_sender err) = false →
     fresh w (publish_rejection h err w).2 (EError err) ∧
     fresh w (publish_rejection h err w).2
       (EDrop (mkTxDrop h (err_sender err) (err_nonce err) (drop_reason (err_reason err))))).
Proof.
  unfold publish_rejection, mbind, M_bind, ask. destruct (in_shadow _ _) eqn:Es; cbn.
  - repeat split; try done. exists []. by rewrite app_nil_r.
  - split; [done|]. split; [eexists [_; _; _]; split; [by rewrite <-!app_assoc|done]|].
    intros _. split; eexists [_; _; _]; (split; [cbn; by rewrite <-!app_assoc|set_solver]).
Qed.

Lemma rebuffer_one_rebuffered w e : rebuffered w (rebuffer_one e w).2 [e].
Proof.
  destruct e as [[a n] m]. unfold rebuffer_one, mbind at 1, M_bind at 1, ask.
  destruct (is_refused (state (core w)) a n) eqn:Ef.
  - unfold report_evicted, mbind, M_bind, ask.
    match goal with |- context [publish_rejection ?h ?e w] => destruct (publish_rejection_spec h e w) as (Hc & Ht & Hin) end.
    split; rewrite ?Hc; try done; eauto.
    + intros b k p [= -> -> ->]%list_elem_of_singleton. congruence.
    + intros b k p [= -> -> ->]%list_elem_of_singleton _ Hs. eexists. by apply Hin.
  - change (rebuffered w (set_core w (with_state (core w) (reinsert_for_retry (state (core w)) a n m))) [(a, n, m)]).
    assert (next (reinsert_for_retry (state (core w)) a n m) =
      <[a := match next (state (core w)) !! a with Some f => N.min f n | None => n end]> (next (state (core w)))) as En by done.
    split; cbn [core set_core with_state state resync shadow unconfirmed trace]; try done.
    + intros b k p [= -> -> ->]%list_elem_of_singleton _. rewrite reinsert_slot, decide_True by done.
      split; [done|]. rewrite En, lookup_insert_eq.
      eexists; split; [done|]. destruct (next _ !! _); lia.
    + intros b k p [= -> -> ->]%list_elem_of_singleton. congruence.
    + intros b k Ho. rewrite reinsert_slot. case_decide as Hd; [|done]. destruct Hd as [-> ->].
      specialize (Ho m). rewrite Ef in Ho. discriminate Ho. set_solver.
    + intros b f Eb. rewrite En. destruct (decide (a = b)) as [->|Hne].
      * rewrite lookup_insert_eq, Eb. eexists; split; [done|lia].
      * rewrite lookup_insert_ne by done. eauto.
    + intros b. rewrite En. destruct (decide (a = b)) as [->|Hne].
      * rewrite lookup_insert_eq.
        assert (∃ n' m', (b, n', m') ∈ [(b, n, m)] ∧ is_refused (state (core w)) b n' = false ∧ Some n = Some n') as Hr
          by (exists n, m; set_solver).
        destruct (next (state (core w)) !! b) as [f|]; [|by right].
        destruct (N.min_spec f n) as [[_ ->]|[_ ->]]; [by left|by right].
      * left. by rewrite lookup_insert_ne.
    + exists []. by rewrite app_nil_r.
Qed.

Lemma rebuffer_all_rebuffered w l : NoDup (ref_key <$> l) → rebuffered w (for_each rebuffer_one l w).2 l.
Proof.
  revert w. induction l as [|e l IH]; intros w Hnd; cbn [for_each]; [apply rebuffered_refl|].
  unfold mbind, M_bind. destruct (rebuffer_one e w) as [[] w1] eqn:E1.
  apply (rebuffered_trans w w1 _ [e] l); [|by apply IH; apply NoDup_cons in Hnd as []|done].
  pose proof (rebuffer_one_rebuffered w e) as H. by rewrite E1 in H.
Qed.

(** The order of the list does not matter to what is promised. *)
Lemma rebuffered_perm w w' l l' : (∀ e, e ∈ l ↔ e ∈ l') → rebuffered w w' l → rebuffered w w' l'.
Proof.
  intros Hp [r s v d f k e o m n t]. split; try done.
  - intros a x p Hin%Hp. by apply k.
  - intros a x p Hin%Hp. by apply (e a x p).
  - intros a x Ho. apply o. intros p Hin%Hp. by apply (Ho p).
  - intros a. destruct (n a) as [?|(x & p & Hin%Hp & ?)]; eauto.
Qed.

Lemma rebuffer_rest_rebuffered w l : NoDup (ref_key <$> l) → rebuffered w (rebuffer_rest l w).2 l.
Proof.
  intros Hnd. unfold rebuffer_rest. apply (rebuffered_perm _ _ (rev l)); [intros e; apply elem_of_rev|].
  apply rebuffer_all_rebuffered. by rewrite <-Permutation_rev.
Qed.

(** What a flush of [l] that returned [res] did: [pub] went out, and [rest] is
    buffered again when the publisher was blocked. *)
Definition flush_outcome w w' l (res : result SequencerError ()) pub rest : Prop :=
  l = pub ++ rest ∧ ∃ wm, recorded w wm pub (offer_of <$> pub) ∧
  match res with
  | Ok _ => rest = [] ∧ w' = wm
  | Err Backpressure => rebuffered wm w' rest
  | Err _ => w' = wm
  end.

(** The publisher took a prefix of the chunk. *)
Lemma offer_recorded w l n err p :
  try_publish_ref_batch (refs w) (offer_of <$> l) = (p, (n, err)) → NoDup (ref_key <$> l) →
  (n ≤ length l)%nat ∧ (err = None → n = length l) ∧
  recorded w (for_each record_one_published (take n l) (offer (offer_of <$> l) w).2).2 (take n l) (offer_of <$> take n l).
Proof.
  intros Eo Hnd. pose proof (batch_prefix (refs w) (offer_of <$> l)) as Hle.
  pose proof (batch_all (refs w) (offer_of <$> l)) as Hall. rewrite Eo in Hle, Hall. cbn in Hle, Hall.
  rewrite length_fmap in Hle, Hall. split; [done|]. split; [done|].
  unfold offer. rewrite Eo. cbn [snd].
  assert (NoDup (ref_key <$> take n l)) as Hnt by (rewrite fmap_take; by eapply sublist_NoDup, sublist_take).
  rewrite <-(app_nil_l (take n l)) at 2. rewrite <-(app_nil_r (offer_of <$> take n l)).
  eapply recorded_trans; [|by apply record_all_recorded|done].
  destruct (recorded_refl w) as [r s v x k f e o z _]. split; try done.
  exists [EOffer (offer_of <$> l) n err]. split; [done|]. cbn. by rewrite app_nil_r, fmap_take.
Qed.

Lemma flush_chunk_outcome w l : NoDup (ref_key <$> l) →
  let '((rest', stop), w') := flush_chunk l w in
  ∃ n, (n ≤ length l)%nat ∧
  match stop with
  | Some res => flush_outcome w w' l res (take n l) (drop n l)
  | None => n = Nat.min BATCH_MAX (length l) ∧ rest' = drop n l ∧
            recorded w w' (take n l) (offer_of <$> take n l)
  end.
Proof.
  intros Hnd. unfold flush_chunk, mbind, M_bind. set (c := Nat.min BATCH_MAX (length l)).
  destruct (try_publish_ref_batch (refs w) (offer_of <$> take c l)) as [p [n err]] eqn:Eo.
  assert (NoDup (ref_key <$> take c l)) as Hc by (rewrite fmap_take; by eapply sublist_NoDup, sublist_take).
  destruct (offer_recorded w (take c l) n err p Eo Hc) as (Hle & Hall & Hrec).
  rewrite length_take in Hle, Hall. rewrite take_take, (Nat.min_l n c) in Hrec by lia.
  assert (offer (offer_of <$> take c l) w = ((n, err), (offer (offer_of <$> take c l) w).2)) as ->
    by (unfold offer; by rewrite Eo).
  unfold record_published_prefix, mbind, M_bind.
  destruct (for_each record_one_published (take n l) _) as [[] wm]. cbn [snd] in Hrec.
  assert (NoDup (ref_key <$> drop n l)) as Hd by (rewrite fmap_drop; by eapply sublist_NoDup, sublist_drop).
  destruct err as [[]|]; unfold mret, M_ret.
  all: try (exists n; split; [lia|]; split; [by rewrite take_drop|]; by exists wm).
  - destruct (rebuffer_rest (drop n l) wm) as [[] w'] eqn:Er. exists n. split; [lia|].
    split; [by rewrite take_drop|]. exists wm. split; [done|].
    pose proof (rebuffer_rest_rebuffered wm (drop n l) Hd) as H. by rewrite Er in H.
  - exists n. split; [lia|]. split; [|done]. specialize (Hall eq_refl). unfold c in *. lia.
Qed.

Lemma flush_loop_outcome fuel w l : NoDup (ref_key <$> l) → (length l ≤ fuel)%nat →
  ∃ pub rest, flush_outcome w (flush_loop fuel l w).2 l (flush_loop fuel l w).1 pub rest.
Proof.
  revert w l. induction fuel as [|fuel IH]; intros w l Hnd Hl.
  { destruct l; [|cbn in Hl; lia]. exists [], []. split; [done|]. exists w. split; [apply recorded_refl|done]. }
  destruct l as [|e l0]; [exists [], []; split; [done|]; exists w; split; [apply recorded_refl|done]|].
  set (l := e :: l0) in *.
  assert (flush_loop (S fuel) l w =
    (let '((rest', stop), w1) := flush_chunk l w in
     match stop with Some res => (res, w1) | None => flush_loop fuel rest' w1 end)) as ->.
  { unfold l. cbn [flush_loop]. unfold mbind, M_bind. by destruct (flush_chunk _ w) as [[? [?|]] ?]. }
  pose proof (flush_chunk_outcome w l Hnd) as Hch.
  destruct (flush_chunk l w) as [[rest' stop] w1]. destruct Hch as (n & Hn & Hch).
  destruct stop as [res|]; [by exists (take n l), (drop n l)|].
  destruct Hch as (En & -> & Hrec).
  assert (NoDup (ref_key <$> drop n l)) as Hd by (rewrite fmap_drop; by eapply sublist_NoDup, sublist_drop).
  assert (length (drop n l) ≤ fuel)%nat as Hf.
  { rewrite length_drop. assert (0 < n)%nat; [|lia]. rewrite En. unfold BATCH_MAX, l. cbn. lia. }
  destruct (IH w1 _ Hd Hf) as (pub & rest & El & wm & Hwm & Hres).
  exists (take n l ++ pub), rest. split; [by rewrite <-app_assoc, <-El, take_drop|].
  exists wm. split; [|done]. rewrite fmap_app. eapply recorded_trans; [done..|].
  rewrite <-(take_drop n l), El, app_assoc, fmap_app in Hnd. by apply NoDup_app in Hnd as [].
Qed.

Lemma flush_drained_outcome w l : NoDup (ref_key <$> l) →
  ∃ pub rest, flush_outcome w (flush_drained l w).2 (filter (λ e, in_shadow (core w) e.1.1 = false) l)
    (flush_drained l w).1 pub rest.
Proof.
  intros Hnd. unfold flush_drained, suppress_shadow, mbind, M_bind, ask. cbn [id].
  assert (NoDup (ref_key <$> filter (λ e, in_shadow (core w) e.1.1 = false) l)) as Hf.
  { apply (sublist_NoDup _ (ref_key <$> l)); [exact Hnd|]. apply fmap_sublist, sublist_filter. }
  destruct (shadow (core w)) as [win|] eqn:Es; [by apply flush_loop_outcome|].
  assert (filter (λ e : Ref, in_shadow (core w) e.1.1 = false) l = l) as ->; [|by apply flush_loop_outcome].
  clear -Es. induction l as [|e l IH]; [done|]. rewrite filter_cons, decide_True, IH; [done|].
  unfold in_shadow. by rewrite Es.
Qed.
End flush.

(** C24. A flush loses nothing. The refs outside shadow mode split into a prefix the
    publisher took, in order, and a rest. With resync on, every taken ref is in the
    unconfirmed ledger, and no other ledger entry changes. On success the rest is
    empty; on backpressure every ref of the rest is buffered again with its sender's
    floor at or below it, except a ref whose nonce has a refused mark, which is
    reported to its client as evicted; on any outcome but backpressure the buffers
    and floors are as before. *)
Theorem flush_conserves {E : Externals} {L : ExternalLaws E} (w : World) (l : list Ref) :
  NoDup (ref_key <$> l) →
  let '(res, w') := flush_drained l w in
  ∃ pub rest, filter (λ e, in_shadow (core w) e.1.1 = false) l = pub ++ rest ∧
  (∃ new, trace w' = trace w ++ new ∧ new ≫= accepted = offer_of <$> pub) ∧
  (is_Some (resync (core w)) → ∀ e, e ∈ pub →
    fst <$> UnconfirmedLedger.entries (unconfirmed (core w')) !! ref_key e = Some e.2) ∧
  (∀ k, k ∉ ref_key <$> pub → UnconfirmedLedger.entries (unconfirmed (core w')) !! k =
    UnconfirmedLedger.entries (unconfirmed (core w)) !! k) ∧
  match res with
  | Err Backpressure => ∀ a n m, (a, n, m) ∈ rest →
    if is_refused (state (core w)) a n
    then told_evicted w w' (a, n, m)
    else slot_of (state (core w')) a n = Some (PendingBuffer.mkSlot None m) ∧ (next_nonce (state (core w')) a ≤ n)%N
  | _ => (res = Ok () → rest = []) ∧ next (state (core w')) = next (state (core w)) ∧
         ∀ a k, slot_of (state (core w')) a k = slot_of (state (core w)) a k
  end.
Proof.
  intros Hnd. destruct (flush_drained_outcome w l Hnd) as (pub & rest & El & wm & Hrec & Hres).
  destruct (flush_drained l w) as [res w']. cbn [fst snd] in *. exists pub, rest. split; [done|].
  assert (Hkeys : ∀ a n m, (a, n, m) ∈ rest → (a, n) ∉ ref_key <$> pub).
  { intros a n m Hin Hp. assert (NoDup (ref_key <$> (pub ++ rest))) as Hn.
    { rewrite <-El. eapply sublist_NoDup; [exact Hnd|]. apply fmap_sublist, sublist_filter. }
    rewrite fmap_app in Hn. apply NoDup_app in Hn as (_ & Hd & _). apply (Hd (a, n) Hp), list_elem_of_fmap.
    by exists (a, n, m). }
  assert (Hlive : ∀ a n m, (a, n, m) ∈ rest → in_shadow (core wm) a = false).
  { intros a n m Hin. rewrite (in_shadow_same _ _ _ (rd_shadow _ _ _ _ Hrec)).
    assert ((a, n, m) ∈ filter (λ e, in_shadow (core w) e.1.1 = false) l) as [Hs _]%list_elem_of_filter
      by (rewrite El; apply elem_of_app; by right). done. }
  destruct Hrec as [r s v n sl f en o x (new & Et & Ea)].
  destruct res as [[]|[]]; try (subst w' || destruct Hres as [-> ->]).
  all: try (split; [by exists new|]; split; [done|]; split; [done|]; by split).
  destruct Hres as [r' s' v' d' f' k' e' o' m' n' (new' & Et' & Ea')].
  split; [exists (new ++ new'); rewrite Et', Et, app_assoc; split; [done|]; by rewrite bind_app, Ea, Ea', app_nil_r|].
  rewrite d'. split; [done|]. split; [done|]. intros a k m Hin.
  assert (is_refused (state (core wm)) a k = is_refused (state (core w)) a k) as Ef.
  { rewrite f, bool_decide_eq_true_2 by eauto. by rewrite andb_true_r. }
  destruct (is_refused (state (core w)) a k) eqn:Er.
  - destruct (e' a k m) as (ex & Hx & Hy); [done..|by eapply Hlive|]. exists ex. split; eapply fresh_earlier; eauto.
  - destruct (k' a k m Hin Ef) as (Hs & fl & Efl & Hle). split; [done|]. unfold next_nonce. by rewrite Efl.
Qed.

(** A ref with a refused mark inside a run opens a gap: when backpressure puts a
    run [n, n + 1] back and [n] has a mark, the floor of the sender stops at
    [n + 1], above the lowest unpublished nonce, the buffer holds no ref at [n],
    and the next drain publishes [n + 1] without it. *)
Theorem marked_ref_opens_gap {E : Externals} {L : ExternalLaws E} (w : World) (a n f : N) (m m' : RefMetadata) :
  next (state (core w)) !! a = Some f → (n + 1 < f)%N → slot_of (state (core w)) a n = None →
  is_refused (state (core w)) a n = true → is_refused (state (core w)) a (n + 1) = false →
  let s' := state (core (rebuffer_rest [(a, n, m); (a, n + 1, m')]%N w).2) in
  next_nonce s' a = (n + 1)%N ∧ slot_of s' a n = None ∧
  slot_of s' a (n + 1) = Some (PendingBuffer.mkSlot None m').
Proof.
  intros Hf Hlt Hs Hr Hr1 s'.
  assert (NoDup (ref_key <$> [(a, n, m); (a, n + 1, m')]%N)) as Hnd.
  { unfold ref_key. cbn. repeat constructor; [|set_solver]. rewrite list_elem_of_singleton. intros [= Hn]. lia. }
  destruct (rebuffer_rest_rebuffered w _ Hnd) as [_ _ _ _ _ Hk _ Ho _ Hfl _]. fold s' in Hk, Ho, Hfl.
  destruct (Hk a (n + 1)%N m') as (Hs1 & x & Ex & Hx); [set_solver|done|]. split; [|split; [|done]].
  - destruct (Hfl a) as [Eq|(k & p & Hin & Hnr & Ek)].
    + rewrite Ex, Hf in Eq. injection Eq as ->. lia.
    + unfold next_nonce. rewrite Ek. cbn.
      apply elem_of_cons in Hin as [[= -> ->]|[= -> ->]%list_elem_of_singleton]; congruence.
  - rewrite Ho, Hs; [done|]. intros p [[= ->]|[= ? _]%list_elem_of_singleton]%elem_of_cons; [done|lia].
Qed.

(** ** Instances *)
Definition flush_world : World (H := sample_env) :=
  sample_world (with_resync (with_state sample_core (sample_state_after [OSeed 1])) (Some sample_resync)) [] 1.

Definition flush_refs : list Ref := [(1, 0, sample_meta 10); (1, 1, sample_meta 11)]%N.

Lemma flush_conserves_witness :
  ∃ pub rest, flush_refs = pub ++ rest ∧
  (∃ new, trace (flush_drained flush_refs flush_world).2 = [] ++ new ∧ new ≫= accepted = offer_of <$> pub).
Proof.
  assert (NoDup (ref_key <$> flush_refs)) as Hnd by (unfold ref_key; cbn; repeat constructor; set_solver).
  pose proof (@flush_conserves sample_env sample_laws flush_world flush_refs Hnd) as H.
  destruct (flush_drained flush_refs flush_world) as [res w']. destruct H as (pub & rest & El & Ht & _).
  exists pub, rest. split; [exact El|exact Ht].
Defined.

(** The replica published nonces 0 to 2, the sealer refused nonce 1 and answered a
    gap at nonce 0, and the client sent nonce 1 again. *)
Definition marked_world : World (H := sample_env) :=
  sample_world (with_state sample_core (sample_state_after
    [OSeed 1; OProcess 0 1 0 (sample_meta 10); OProcess 0 1 1 (sample_meta 11); OProcess 0 1 2 (sample_meta 12);
     OMark 1 1; OReinsert 1 2 (sample_meta 12); OReinsert 1 0 (sample_meta 10); ODrain [1];
     OProcess 5 1 1 (sample_meta 21)]%N)) [] 0.

Lemma marked_ref_opens_gap_witness :
  next_nonce (state (core (rebuffer_rest [(1, 1, sample_meta 21); (1, 2, sample_meta 12)]%N marked_world).2)) 1 = 2%N.
Proof. by apply (@marked_ref_opens_gap sample_env sample_laws marked_world 1 1 3); vm_compute. Defined.
