(* ===== verification/SequencerInv.v ===== *)
(** * Invariants of the publish loop

    Every state the loop reaches keeps the refs of a sender at or above its floor
    and offers only refs of the slots the replica serves. The environment delivers
    receipts, sealer answers and refusals between passes; a receipt rollback makes
    floors unknown and is outside of the regime this file describes (see
    [cold_rewind_strands] for what it can do). *)
From S2P Require Import Prelude Bytes VslotSet ShardMap Types Fees Pending State Unconfirmed NonceAhead Resync.
From S2P Require Import StateFacts StateOps StateSpec ResyncSpec SequencerConfig TxDecode Sequencer SequencerFacts.
From S2P Require Import SequencerFlush.
Import PartitionState SequencerLoop.

Arguments reinsert_for_retry : simpl never.
Arguments process_at : simpl never.
Arguments drain_pending : simpl never.
Arguments PartitionState.sweep_expired : simpl never.
Arguments advance_floor : simpl never.
Arguments release_floor : simpl never.
Arguments PartitionState.free_nonce : simpl never.
Arguments PartitionState.take_parked : simpl never.
Arguments mark_refused : simpl never.
Arguments clear_refused : simpl never.

Create HintDb inv.

Section invariant.
Context {E : Externals} {L : ExternalLaws E}.
Implicit Types (w : World) (c : Sequencer).

Definition serves c a : Prop := VslotSet.contains (vslots c) (vslot_for keccak256 a) = true.

(** The core: floors are consistent, what is buffered or in flight belongs to a
    served sender with a known floor. *)
Record core_ok c : Prop := {
  ok_wf : wf (state c);
  ok_slot : ∀ a k, is_Some (slot_of (state c) a k) → is_Some (next (state c) !! a) ∧ serves c a;
  ok_entry : ∀ a n, is_Some (UnconfirmedLedger.entries (unconfirmed c) !! (a, n)) →
    is_Some (next (state c) !! a) ∧ serves c a ∧ (n < u64_max)%N;
}.

(** A ref in hand between the state machine and the publisher. *)
Definition ref_ok c (e : Ref) : Prop :=
  is_Some (next (state c) !! e.1.1) ∧ serves c e.1.1 ∧ (e.1.2 < u64_max)%N.

(** Two cores with the same slots served, floors known wherever they were, and
    nothing new in the buffers or the ledger. *)
Lemma core_ok_shrink c c' :
  core_ok c → vslots c' = vslots c → wf (state c') →
  (∀ a, is_Some (next (state c) !! a) → is_Some (next (state c') !! a)) →
  (∀ a k, is_Some (slot_of (state c') a k) → is_Some (slot_of (state c) a k)) →
  (∀ q, is_Some (UnconfirmedLedger.entries (unconfirmed c') !! q) →
        is_Some (UnconfirmedLedger.entries (unconfirmed c) !! q)) → core_ok c'.
Proof.
  intros [Hwf Hs He] Hv Hwf' Hn Hsl Hen. split; [done|..].
  - intros a k Hk%Hsl%Hs. unfold serves in *. rewrite Hv. naive_solver.
  - intros a n Hk%Hen%He. unfold serves in *. rewrite Hv. naive_solver.
Qed.

(** [shrinks], with floors that stay known. *)
Lemma core_ok_state c s' :
  core_ok c → shrinks (state c) s' → next s' = next (state c) → core_ok (with_state c s').
Proof.
  intros Hok Hsh Hn. eapply core_ok_shrink; [exact Hok|done|..]; cbn.
  - eapply shrinks_wf; [apply Hok|done].
  - intros a. by rewrite Hn.
  - intros a k [sl Hk]. apply Hsh in Hk. eauto.
  - done.
Qed.

Lemma core_ok_ledger c l' :
  core_ok c → (∀ q, is_Some (UnconfirmedLedger.entries l' !! q) →
    is_Some (UnconfirmedLedger.entries (unconfirmed c) !! q)) → core_ok (with_unconfirmed c l').
Proof. intros Hok Hl. eapply core_ok_shrink; [exact Hok|done|apply Hok|done..]. Qed.

Lemma core_ok_reinsert c a n m : core_ok c → ref_ok c (a, n, m) →
  core_ok (with_state c (reinsert_for_retry (state c) a n m)).
Proof.
  intros [Hwf Hs He] (Hn & Hv & Hu). cbn in Hn, Hv, Hu.
  assert (∀ b, is_Some (next (state c) !! b) → is_Some (next (reinsert_for_retry (state c) a n m) !! b)) as Hk.
  { intros b Hb. rewrite reinsert_next_map. destruct (decide (a = b)) as [->|Hne];
      [rewrite lookup_insert_eq; eauto|by rewrite lookup_insert_ne]. }
  split; cbn.
  - apply (exec_op_wf (state c) (OReinsert a n m) Hwf). split; [done|].
    unfold next_nonce_known. destruct Hn as [x ->]. done.
  - intros b k. rewrite reinsert_slot. case_decide as Hd; [destruct Hd as [<- ->]; auto|].
    intros [? ?]%Hs. auto.
  - intros b k (? & ? & ?)%He. auto.
Qed.

(** The names of the senders of the offers. *)
Definition offers_served c (e : Effect) : Prop :=
  match e with EOffer offers _ _ => ∀ o, o ∈ offers → serves c (g_sender (guard o)) | _ => True end.

Definition world_ok w : Prop := core_ok (core w) ∧ Forall (offers_served (core w)) (trace w).

(** From a step on, the same slots are served and known floors stay known. *)
Definition stays c c' : Prop :=
  vslots c' = vslots c ∧ ∀ a, is_Some (next (state c) !! a) → is_Some (next (state c') !! a).

#[export] Instance stays_preorder : PreOrder stays.
Proof. split; [by intros c|]. intros c1 c2 c3 [V1 N1] [V2 N2]. split; [congruence|auto]. Qed.

Lemma ref_ok_stays c c' e : stays c c' → ref_ok c e → ref_ok c' e.
Proof. intros [Hv Hn] (H1 & H2 & H3). split; [auto|]. unfold serves in *. by rewrite Hv. Qed.

(** From a world that keeps the invariant and has [P], [m] reaches one that keeps it and has [Q]. *)
Definition triple {A} (P : Sequencer → Prop) (m : M A) (Q : A → Sequencer → Prop) : Prop :=
  ∀ w, world_ok w → P (core w) → world_ok (m w).2 ∧ stays (core w) (core (m w).2) ∧ Q (m w).1 (core (m w).2).

Definition any {A} : A → Sequencer → Prop := λ _ _, True.

Lemma triple_ret {A} (P : Sequencer → Prop) (a : A) (Q : A → Sequencer → Prop) :
  (∀ c, P c → Q a c) → triple P (mret a) Q.
Proof. intros Hq w Hw Hp. split; [done|]. split; [done|]. by apply Hq. Qed.

Lemma triple_bind {A B} (P : Sequencer → Prop) (m : M A) (f : A → M B) Q R :
  triple P m Q → (∀ a, triple (Q a) (f a) R) → triple P (m ≫= f) R.
Proof.
  intros Hm Hf w Hw Hp. destruct (Hm w Hw Hp) as (Hw' & Hs & Hq). unfold mbind, M_bind.
  destruct (m w) as [a w']. destruct (Hf a w' Hw' Hq) as (? & Hs' & ?). split; [done|]. split; [by etrans|done].
Qed.

Lemma triple_conseq {A} (P P' : Sequencer → Prop) (m : M A) (Q Q' : A → Sequencer → Prop) :
  triple P' m Q' → (∀ c, P c → P' c) → (∀ a c, Q' a c → Q a c) → triple P m Q.
Proof. intros Hm Hp Hq w Hw Hw'. destruct (Hm w Hw (Hp _ Hw')) as (? & ? & ?). auto. Qed.

Lemma triple_weaken {A} (P : Sequencer → Prop) (m : M A) : triple (λ _, True) m any → triple P m any.
Proof. intros Hm. eapply triple_conseq; [exact Hm|done..]. Qed.

Lemma triple_for_each {A} (P : Sequencer → Prop) (f : A → M ()) l :
  (∀ x, x ∈ l → triple P (f x) (λ _, P)) → triple P (for_each f l) (λ _, P).
Proof.
  induction l as [|x l IH]; intros Hf; cbn; [by apply triple_ret|].
  eapply triple_bind; [apply Hf; left|]. intros []. apply IH. intros y Hy. apply Hf. by right.
Qed.

(** A loop over refs in hand, each of which stays good. *)
Lemma triple_for_refs (f : Ref → M ()) l :
  (∀ e, triple (λ c, ref_ok c e) (f e) any) → triple (λ c, Forall (ref_ok c) l) (for_each f l) any.
Proof.
  intros Hf. induction l as [|e l IH]; cbn; [by apply triple_ret|]. intros w Hw He.
  apply Forall_cons in He as [He Hl]. unfold mbind, M_bind. destruct (Hf e w Hw He) as (Hw' & Hs & _).
  destruct (f e w) as [[] w']. cbn in *.
  destruct (IH w' Hw') as (? & ? & _); [|split; [done|]; split; [by etrans|done]].
  eapply Forall_impl; [exact Hl|]. intros x. by apply ref_ok_stays.
Qed.

Lemma triple_ask {A} (P : Sequencer → Prop) (f : Sequencer → A) : triple P (ask f) (λ a c, P c ∧ a = f c).
Proof. by intros w Hw Hp. Qed.

(** Steps on one part of the world. *)
Lemma world_ok_core w c' tx rf rd : world_ok w → core_ok c' → vslots c' = vslots (core w) →
  world_ok (mkWorld _ c' tx rf rd (trace w)).
Proof.
  intros [_ Ht] Hc Hv. split; [done|]. eapply Forall_impl; [exact Ht|]. intros [] Ho; try done.
  intros o Hin. unfold serves. cbn. rewrite Hv. by apply Ho.
Qed.

Lemma triple_state {A} (P : Sequencer → Prop) (f : _ → _ * A) (Q : A → Sequencer → Prop) :
  (∀ c, core_ok c → P c → let '(s', a) := f (state c) in
     core_ok (with_state c s') ∧ stays c (with_state c s') ∧ Q a (with_state c s')) →
  triple P (on_state f) Q.
Proof.
  intros Hf w Hw Hp. specialize (Hf (core w) (proj1 Hw) Hp). unfold on_state.
  destruct (f (state (core w))) as [s' a]. destruct Hf as (? & ? & ?). split; [|done]. by apply world_ok_core.
Qed.

Lemma triple_ledger {A} (P : Sequencer → Prop) (f : _ → _ * A) (Q : A → Sequencer → Prop) :
  (∀ c, core_ok c → P c → let '(l', a) := f (unconfirmed c) in
     core_ok (with_unconfirmed c l') ∧ Q a (with_unconfirmed c l')) →
  triple P (on_ledger f) Q.
Proof.
  intros Hf w Hw Hp. specialize (Hf (core w) (proj1 Hw) Hp). unfold on_ledger.
  destruct (f (unconfirmed (core w))) as [l' a]. destruct Hf as (? & ?). split; [|done]. by apply world_ok_core.
Qed.

(** The invariant reads the state, the ledger and the slots alone. *)
Lemma core_ok_ext c c' :
  core_ok c → state c' = state c → unconfirmed c' = unconfirmed c → vslots c' = vslots c → core_ok c'.
Proof. intros Hc Es Eu Ev. eapply core_ok_shrink; [exact Hc|done|rewrite Es; apply Hc|rewrite ?Es, ?Eu; done..]. Qed.

Lemma triple_other {A} (P : Sequencer → Prop) (m : M A) :
  (∀ w, state (core (m w).2) = state (core w) ∧ unconfirmed (core (m w).2) = unconfirmed (core w) ∧
        vslots (core (m w).2) = vslots (core w) ∧ trace (m w).2 = trace w) →
  (∀ c c', state c' = state c → vslots c' = vslots c → P c → P c') → triple P m (λ _, P).
Proof.
  intros Hm Hst w Hw Hp. destruct (Hm w) as (Es & Eu & Ev & Et). destruct (m w) as [a w']. cbn in *.
  split; [|split; [split; [done|by rewrite Es]|by eapply Hst]]. destruct w' as [c' tx rf rd tr]. cbn in *. subst tr.
  apply world_ok_core; [done| |done]. eapply core_ok_ext; [apply Hw|done..].
Qed.

Lemma triple_emit (P : Sequencer → Prop) e : (∀ c, offers_served c e) → triple P (emit e) (λ _, P).
Proof.
  intros He w [Hc Ht] Hp. split; [|done]. split; [done|]. cbn. apply Forall_app. split; [done|]. by constructor.
Qed.

Lemma triple_plain {A} P (m : M A) :
  (∀ w, state (core (m w).2) = state (core w) ∧ unconfirmed (core (m w).2) = unconfirmed (core w) ∧
        vslots (core (m w).2) = vslots (core w) ∧ trace (m w).2 = trace w) → triple P m any.
Proof. intros Hm. eapply triple_conseq; [by apply (triple_other (λ _, True))|done..]. Qed.
Lemma triple_now P : triple P now any.
Proof. by apply triple_plain. Qed.
Lemma triple_iterate P X : triple P (iterate X) any.
Proof. by apply triple_plain. Qed.
Lemma triple_watch {A} P (f : _ → _ * A) : triple P (on_watch f) any.
Proof. apply triple_plain. intros w. unfold on_watch. by destruct (f _). Qed.
Lemma triple_pause {A} P (f : _ → _ * A) : triple P (on_pause f) any.
Proof. apply triple_plain. intros w. unfold on_pause. by destruct (f _). Qed.
Lemma triple_modify P g :
  (∀ c, state (g c) = state c ∧ unconfirmed (g c) = unconfirmed c ∧ vslots (g c) = vslots c) → triple P (modify g) any.
Proof.
  intros Hg. apply triple_plain. intros w. destruct (Hg (core w)) as (? & ? & ?). by repeat split.
Qed.
Lemma triple_report P e : (∀ c, offers_served c e) → triple P (emit e) any.
Proof. intros He. eapply triple_conseq; [by apply triple_emit|done..]. Qed.
Lemma triple_done {A} P (x : A) : triple P (mret x) any.
Proof. by apply triple_ret. Qed.
Lemma triple_read {A} P (f : Sequencer → A) : triple P (ask f) any.
Proof. eapply triple_conseq; [apply triple_ask|done..]. Qed.
Lemma triple_each {A} P (f : A → M ()) l : (∀ x, x ∈ l → ∀ P', triple P' (f x) any) → triple P (for_each f l) any.
Proof.
  intros Hf. eapply triple_conseq; [apply (triple_for_each (λ _, True))|done..].
  intros x Hx. eapply triple_conseq; [apply (Hf x Hx (λ _, True))|done..].
Qed.
End invariant.

#[export] Hint Resolve triple_now triple_iterate triple_watch triple_pause triple_done triple_read : inv.

(** Walk over the code of an operation whose steps need no more than the invariant. *)
Ltac walk_step :=
  match goal with
  | |- triple _ (mbind _ _) any => apply (triple_bind _ _ _ any); [|intros ?]
  | |- triple _ (for_each _ _) any => apply triple_each; intros
  | |- triple _ (match ?x with _ => _ end) _ => destruct x eqn:?
  | |- triple _ (let '(_, _) := ?x in _) _ => destruct x eqn:?
  | |- triple _ (modify _) any => by apply triple_modify
  | |- triple _ (emit _) any => by apply triple_report
  | |- triple _ _ any => solve [eauto with inv]
  end.
Ltac walk := repeat walk_step.

Section operations.
Context {E : Externals} {L : ExternalLaws E}.
Implicit Types (w : World) (c : Sequencer).

(** ** Reports *)
Lemma inv_error P e : triple P (publish_error e) any.
Proof. unfold publish_error. walk. Qed.
Lemma inv_rejection P h e : triple P (publish_rejection h e) any.
Proof. unfold publish_rejection. walk. Qed.
Lemma inv_proven_drop P o : triple P (publish_proven_drop o) any.
Proof. unfold publish_proven_drop. walk. Qed.
Lemma inv_lookup P a : triple P (request_lookup a) any.
Proof. unfold request_lookup. walk. Qed.
Hint Resolve inv_error inv_rejection inv_proven_drop inv_lookup : inv.
Lemma inv_evicted P a n h : triple P (report_evicted a n h) any.
Proof. unfold report_evicted. walk. Qed.
Lemma inv_expired P e : triple P (report_expired e) any.
Proof. unfold report_expired. walk. Qed.
Lemma inv_duplicate P o n e : triple P (report_duplicate o n e) any.
Proof. unfold report_duplicate. walk. Qed.
Hint Resolve inv_evicted inv_expired inv_duplicate : inv.

(** ** The state machine *)
Lemma inv_shrink {A} P (f : PartitionState.t RefMetadata → PartitionState.t RefMetadata * A) :
  (∀ s, shrinks s (f s).1 ∧ next (f s).1 = next s) → triple P (on_state f) any.
Proof.
  intros Hf. apply triple_state. intros c Hc _. specialize (Hf (state c)).
  destruct (f (state c)) as [s' a]. destruct Hf as [Hs Hn]. cbn in Hs, Hn.
  split; [by apply core_ok_state|]. split; [|done]. split; [done|]. cbn. by rewrite Hn.
Qed.

Lemma inv_reinsert a n m :
  triple (λ c, ref_ok c (a, n, m)) (upd_state (λ s, reinsert_for_retry s a n m)) any.
Proof.
  apply triple_state. intros c Hc He. split; [by apply core_ok_reinsert|]. split; [|done]. split; [done|].
  intros b Hb. cbn. rewrite reinsert_next_map. destruct (decide (a = b)) as [->|Hne];
    [rewrite lookup_insert_eq; eauto|by rewrite lookup_insert_ne].
Qed.

(** A floor that moves within the state machine. *)
Lemma inv_floor {A} P (f : PartitionState.t RefMetadata → PartitionState.t RefMetadata * A) :
  (∀ s, wf s → wf (f s).1) →
  (∀ s b, is_Some (next s !! b) → is_Some (next (f s).1 !! b)) →
  (∀ s b k, is_Some (slot_of (f s).1 b k) → is_Some (slot_of s b k)) → triple P (on_state f) any.
Proof.
  intros Hwf Hn Hs. apply triple_state. intros c Hc _.
  specialize (Hwf (state c)). specialize (Hn (state c)). specialize (Hs (state c)).
  destruct (f (state c)) as [s' a]. cbn in *. split; [|by split].
  eapply core_ok_shrink; [exact Hc|done|apply Hwf, Hc|done..].
Qed.

Lemma inv_release P a chain : triple P (apply_one_release a chain) any.
Proof.
  unfold apply_one_release. apply (triple_bind _ _ _ any); [|intros; walk]. apply inv_floor.
  - intros s Hs. by apply (exec_op_wf s (ORelease a chain) Hs).
  - intros s b Hb. unfold release_floor, next_nonce_known. destruct (next s !! a) eqn:Ea; [|done].
    destruct (_ <? _)%N; [|done]. cbn [fst]. rewrite next_trim_refused. cbn.
    destruct (decide (a = b)) as [->|Hne]; [rewrite lookup_insert_eq; eauto|by rewrite lookup_insert_ne].
  - intros s b k. by rewrite release_floor_slot.
Qed.

Lemma inv_floor_update P a floor : (floor ≤ u64_max)%N → triple P (apply_one_floor_update a floor) any.
Proof.
  intros Hu. unfold apply_one_floor_update. walk. apply inv_floor.
  - intros s Hs. by apply (exec_op_wf s (OAdvance a floor) Hs).
  - intros s b Hb. unfold advance_floor. destruct (_ <=? _)%N; [done|].
    destruct (pending s !! a) as [buf|]; [destruct (PendingBuffer.drop_below buf floor)|];
      cbn; rewrite next_trim_refused; cbn;
      (destruct (decide (a = b)) as [->|Hne]; [rewrite lookup_insert_eq; eauto|by rewrite lookup_insert_ne]).
  - intros s b k. rewrite advance_floor_slot. by case_decide.
Qed.

(** ** The ledger *)

(** What a take hands out was in the ledger, and the ledger only loses entries. *)
Definition takes (l l' : UnconfirmedLedger.t RefMetadata) (out : list Ref) : Prop :=
  (∀ k, is_Some (UnconfirmedLedger.entries l' !! k) → is_Some (UnconfirmedLedger.entries l !! k)) ∧
  (∀ k m, (k, m) ∈ out → is_Some (UnconfirmedLedger.entries l !! k)).

Lemma fmap_fst_Some {A B} (o : option (A * B)) x : fst <$> o = Some x → is_Some o.
Proof. destruct o; [eauto|done]. Qed.

Lemma gap_takes l a n :
  let '(l', out) := UnconfirmedLedger.take_gap_rewinds l a n in
  takes l l' out ∧ ∀ k m, (k, m) ∈ out → k.1 = a ∧ (n ≤ k.2)%N.
Proof.
  pose proof (take_gap_rewinds_spec l a n) as Ht. destruct (UnconfirmedLedger.take_gap_rewinds l a n) as [l' out].
  destruct Ht as (_ & _ & Hout & Hent). split; [split|].
  - intros k. rewrite Hent. case_decide; [by intros []|done].
  - intros k m (_ & _ & He)%Hout. by eapply fmap_fst_Some.
  - intros k m (? & ? & _)%Hout. split; [done|lia].
Qed.

Lemma sweep_takes l timeout now max :
  let '(l', out) := UnconfirmedLedger.sweep_expired l timeout now max in takes l l' out.
Proof.
  unfold UnconfirmedLedger.sweep_expired.
  destruct (sweep_loop_spec (S (length (UnconfirmedLedger.expiry l))) l timeout now max [])
    as (l1 & new & popped & -> & Hp); [lia|cbn; lia|]. cbn [app].
  unfold UnconfirmedLedger.take_descending. pose proof (take_fold_spec (rev new) l1 []) as Ht.
  destruct (fold_left UnconfirmedLedger.take_one (rev new) (l1, [])) as [l' out].
  destruct Ht as (_ & Hent & taken & -> & _ & Htk & _). cbn [app]. rewrite (pr_entries _ _ _ _ _ _ _ _ Hp) in *. split.
  - intros k. rewrite Hent. case_decide; [by intros []|done].
  - intros k m (_ & He)%Htk. by eapply fmap_fst_Some.
Qed.

Lemma inv_take P (f : UnconfirmedLedger.t RefMetadata → UnconfirmedLedger.t RefMetadata * list Ref) :
  (∀ l, let '(l', out) := f l in takes l l' out) → triple P (on_ledger f) (λ out c, Forall (ref_ok c) out).
Proof.
  intros Hf. apply triple_ledger. intros c Hc _. specialize (Hf (unconfirmed c)).
  destruct (f (unconfirmed c)) as [l' out]. destruct Hf as [Hl Ho]. split; [by apply core_ok_ledger|].
  apply Forall_forall. intros [[a n] m] He%Ho. apply (ok_entry c Hc a n He).
Qed.

Lemma inv_confirm P a n : triple P (upd_ledger (λ l, UnconfirmedLedger.confirm_through l a n)) any.
Proof.
  apply triple_ledger. intros c Hc _. split; [|done]. apply core_ok_ledger; [done|].
  intros k. rewrite confirm_through_entries. case_decide; [by intros []|done].
Qed.

Lemma inv_take_named P a n named : triple P (on_ledger (λ l, UnconfirmedLedger.take_named l a n named)) any.
Proof.
  apply triple_ledger. intros c Hc _. unfold UnconfirmedLedger.take_named.
  destruct (match _ with Some _ => _ | None => _ end); cbn; (split; [|done]); apply core_ok_ledger; try done.
  intros k. cbn. rewrite lookup_delete. case_decide; [by intros []|done].
Qed.

Lemma inv_rewind l : triple (λ c, Forall (ref_ok c) l) (rewind_for_republish l) any.
Proof. apply triple_for_refs. intros [[a n] m]. apply inv_reinsert. Qed.

Lemma inv_sweep P : triple P sweep_confirm_timeouts any.
Proof.
  unfold sweep_confirm_timeouts. walk_step; [walk|]. walk_step; [walk|].
  eapply triple_bind; [apply inv_take; intros l; apply sweep_takes|]. intros out.
  case_bool_decide; [walk|apply inv_rewind].
Qed.

Lemma inv_gap_rewind P a n : triple P (rewind_one_gap a n) any.
Proof.
  unfold rewind_one_gap. eapply triple_bind.
  - apply inv_take. intros l. pose proof (gap_takes l a n) as Ht. destruct (UnconfirmedLedger.take_gap_rewinds l a n). apply Ht.
  - intros out. case_bool_decide; [walk|apply inv_rewind].
Qed.

Lemma inv_free_nonce P a n : (n < u64_max)%N → triple P (SequencerLoop.free_nonce a n) any.
Proof.
  intros Hu. unfold SequencerLoop.free_nonce.
  eapply (triple_bind _ _ _ (λ out c, Forall (ref_ok c) out ∧ ∀ k m, (k, m) ∈ out → k.1 = a ∧ (n ≤ k.2)%N)).
  { intros w Hw Hp. destruct (inv_take P (λ l, UnconfirmedLedger.take_gap_rewinds l a n)) with w as (H1 & H2 & H3);
      [|done..|].
    - intros l. pose proof (gap_takes l a n) as Ht. destruct (UnconfirmedLedger.take_gap_rewinds l a n). apply Ht.
    - split; [done|]. split; [done|]. split; [done|]. unfold on_ledger. pose proof (gap_takes (unconfirmed (core w)) a n) as Ht.
      destruct (UnconfirmedLedger.take_gap_rewinds (unconfirmed (core w)) a n). apply Ht. }
  intros out. eapply triple_bind.
  { apply (triple_other (λ c, Forall (ref_ok c) out ∧ ∀ k m, (k, m) ∈ out → k.1 = a ∧ (n ≤ k.2)%N)); [done|].
    intros c c' Es Ev [Ho Hk]. split; [|done]. eapply Forall_impl; [exact Ho|]. intros e.
    apply ref_ok_stays. split; [done|]. by rewrite Es. }
  intros at_. apply triple_state. intros c Hc [Ho Hk].
  set (later := (λ e : Ref, (e.1.2, e.2)) <$> out).
  assert (∀ e, e ∈ later → ∃ m, (a, e.1, m) ∈ out) as Hl.
  { intros e (x & -> & Hx)%list_elem_of_fmap. destruct x as [[b k] m]. destruct (Hk _ _ Hx) as [<- _]. by exists m. }
  assert (∀ b k sl, slot_of (PartitionState.free_nonce (state c) at_ (mkFreed a n later)) b k = Some sl →
    is_Some (slot_of (state c) b k) ∨ (b = a ∧ ∃ m, (a, k, m) ∈ out)) as Hslot.
  { intros b k sl [Hs|[-> Hs]]%free_nonce_slot; [eauto|right]. split; [done|].
    cbn in Hs. apply list_elem_of_fmap in Hs as (e & -> & He). by apply Hl. }
  assert (is_Some (next (PartitionState.free_nonce (state c) at_ (mkFreed a n later)) !! a)) as Hna.
  { unfold PartitionState.free_nonce. cbn. rewrite lookup_insert_eq. eauto. }
  assert (∀ b, is_Some (next (state c) !! b) →
    is_Some (next (PartitionState.free_nonce (state c) at_ (mkFreed a n later)) !! b)) as Hn.
  { intros b Hb. destruct (decide (a = b)) as [<-|Hne]; [done|].
    unfold PartitionState.free_nonce. cbn. rewrite lookup_insert_ne, next_trim_refused by done. done. }
  split; [|by split]. split; cbn.
  - apply (exec_op_wf (state c) (OFree at_ (mkFreed a n later))); [apply Hc|]. cbn. split; [done|]. split.
    + intros e He. destruct (Hl e He) as [m Hm]. destruct (Hk _ _ Hm) as [_ Hge]. cbn in Hge.
      apply (proj1 (Forall_forall _ _) Ho) in Hm as (_ & _ & Hlt). cbn in Hlt. lia.
    + intros Hno k Hs. apply (ok_slot c Hc) in Hs as [Hs _]. unfold next_nonce_known in Hno. rewrite Hno in Hs. by destruct Hs.
  - intros b k [sl [Hs|[-> [m Hm]]]%Hslot].
    + apply (ok_slot c Hc) in Hs as [? ?]. auto.
    + apply (proj1 (Forall_forall _ _) Ho) in Hm as (? & ? & _). auto.
  - intros b k (? & ? & ?)%(ok_entry c Hc). auto.
Qed.

(** ** The sealer's answers *)
Lemma inv_take_parked P a n named : triple P (on_state (λ s, take_parked s a n named)) any.
Proof.
  apply inv_shrink. intros s. split; [apply take_parked_shrinks|]. unfold take_parked.
  destruct (pending s !! a) as [buf|]; [|done]. by destruct (PendingBuffer.take_parked buf n named).
Qed.
Lemma inv_mark P a n : triple P (upd_state (λ s, mark_refused s a n)) any.
Proof. apply inv_shrink. intros s. split; [apply mark_shrinks|]. unfold mark_refused. cbn. by destruct (_ <? _)%N. Qed.
Hint Resolve inv_take_named inv_take_parked inv_mark inv_gap_rewind inv_confirm inv_release : inv.

Lemma inv_refusal P r : triple P (report_refusal r) any.
Proof. unfold report_refusal, take_refused. walk. Qed.
Hint Resolve inv_refusal : inv.
Lemma inv_past_reject P p : triple P (apply_past_reject p) any.
Proof. unfold apply_past_reject. walk. Qed.
Lemma inv_held P a n : triple P (republish_held a n) any.
Proof. unfold republish_held. walk. Qed.
Lemma inv_gap P a n : (n < u64_max)%N → triple P (apply_gap a n) any.
Proof. intros Hn. unfold apply_gap. walk_step; [walk|]. walk_step; [walk|by apply inv_free_nonce]. Qed.
Hint Resolve inv_past_reject inv_held : inv.

(** The events of the regime: receipts with no rollback, and answers about refs
    with a transaction nonce. *)
Definition benign (r : ResyncController.t) : Prop :=
  (∀ e, e ∈ queue (ResyncController.floor_rx r) → ∃ u, e = FUpdate u) ∧
  (∀ a n e, ContiguityReject a n e ∈ queue (ResyncController.answer_rx r) → (n < u64_max)%N).

Lemma inv_answers P r : benign r → triple P (apply_sealer_answers r) any.
Proof.
  intros [_ Hb]. unfold apply_sealer_answers. destruct (ResyncController.drain_answers r) as [r' d] eqn:Ed.
  assert (∀ a e, gaps d !! a = Some e → (e < u64_max)%N) as Hgap.
  { unfold ResyncController.drain_answers in Ed.
    pose proof (drain_bounded_spec (ResyncController.answer_rx r) (ResyncController.answer_rx_dead r) FLOOR_DRAIN_PER_ITER) as Hd.
    destruct (drain_bounded _ _ _) as [[rx dead] out]. destruct Hd as [-> _]. injection Ed as <- <-.
    intros a e Hg. destruct (af_gap _ _ _ (fold_answers_spec _ _) a e Hg) as (n & e0 & Hin & _ & Hle).
    apply elem_of_take in Hin as (i & Hi & _). apply list_elem_of_lookup_2, Hb in Hi. lia. }
  walk. apply inv_gap. eauto.
Qed.

Lemma inv_deadlines P r : triple P (apply_deadline_rejects r) any.
Proof. unfold apply_deadline_rejects. walk. Qed.
Hint Resolve inv_deadlines : inv.

(** ** Receipts *)
Definition raises_ok (d : ReceiptDrain) : Prop :=
  forgotten d = [] ∧ ∀ a f, (a, f) ∈ raised d → (f ≤ u64_max)%N.

Lemma update_raises_ok r d u : raises_ok d → raises_ok (ResyncController.fold_floor_update r d u).2.
Proof.
  intros [Hf Hr]. unfold ResyncController.fold_floor_update. destruct (stale_at _ _); [done|].
  destruct (Outcome.confirmed _); [|done]. destruct (Outcome.floor (up_outcome u)) as [fl|] eqn:Ef; [|done].
  destruct (_ <? _)%N; [|done]. split; [done|]. cbn. intros a f [?|[= -> ->]%list_elem_of_singleton]%elem_of_app; [eauto|].
  destruct (up_outcome u); cbn in Ef; try done. injection Ef as <-. unfold u64_saturating_add. lia.
Qed.

Lemma take_loop_from fuel r events : ∀ e,
  e ∈ (ResyncController.take_floor_loop fuel r events).2 → e ∈ events ∨ e ∈ queue (ResyncController.floor_rx r).
Proof.
  revert r events. induction fuel as [|fuel IH]; intros r events e; cbn [ResyncController.take_floor_loop]; [by left|].
  destruct (_ <? _)%nat; [|by left]. unfold ResyncController.take_floor_event, drain_bounded_step.
  destruct (queue (ResyncController.floor_rx r)) as [|x q] eqn:Eq; [by left|].
  destruct x; [|cbn; rewrite elem_of_app, list_elem_of_singleton; intros [?| ->]; set_solver].
  intros [He|He]%IH; cbn in He; [|right; by right].
  apply elem_of_app in He as [?| ->%list_elem_of_singleton]; [by left|right; left].
Qed.

Lemma drain_raises_ok order r : benign r → raises_ok (ResyncController.drain_floor_updates order r).2.
Proof.
  intros [Hb _]. unfold ResyncController.drain_floor_updates, ResyncController.take_floor_events.
  pose proof (take_loop_from (S FLOOR_DRAIN_PER_ITER) r []) as Hev.
  destruct (ResyncController.take_floor_loop _ r []) as [r1 events]. cbn [snd] in Hev.
  assert (∀ e, e ∈ events → ∃ u, e = FUpdate u) as Hup.
  { intros e He. destruct (Hev e He) as [?%elem_of_nil|?]; [done|auto]. }
  assert (raises_ok empty_drain) as Hd by (split; [done|]; intros a f ?%elem_of_nil; done).
  clear Hev Hb. revert r1 Hd. generalize empty_drain as d. induction events as [|e events IH]; intros d r1 Hd; [done|].
  cbn [fold_left]. destruct (Hup e) as [u ->]; [left|]. cbn [ResyncController.fold_event fst snd].
  pose proof (update_raises_ok r1 d u Hd) as Hd'.
  destruct (ResyncController.fold_floor_update r1 d u) as [r2 d2]. apply IH; [|done].
  intros e He. apply Hup. by right.
Qed.

Lemma inv_receipts P r : benign r → triple P (apply_receipt_drain r) any.
Proof.
  intros Hb. unfold apply_receipt_drain. walk_step; [walk|].
  match goal with |- context [ResyncController.drain_floor_updates ?o r] =>
    pose proof (drain_raises_ok o r Hb) as [Hf Hr]; destruct (ResyncController.drain_floor_updates o r) as [r' d] end.
  cbn [snd] in Hf, Hr. rewrite Hf. walk.
  - destruct x as [b f]. by eapply inv_floor_update, Hr.
  - exfalso. by eapply elem_of_nil.
Qed.

Lemma inv_expiry P : triple P expiry_tick any.
Proof.
  unfold expiry_tick, shadow_tick. walk_step; [walk|]. walk_step; [|walk].
  apply inv_shrink. intros s. split; [apply sweep_loop_shrinks|]. unfold PartitionState.sweep_expired.
  generalize (length (deadlines s)) as fuel. generalize 256%nat as max. intros max fuel. revert s max.
  induction fuel as [|fuel IH]; intros s max; [done|]. destruct max as [|max]; [done|]. cbn [PartitionState.sweep_loop].
  unfold pop_due. destruct (deadlines s) as [|d h]; [done|]. destruct (_ <=? _)%N; [|done].
  assert (next (expire_parked (with_deadlines s h) d).1 = next s) as Hx.
  { unfold expire_parked. destruct (_ <=? _)%N; [done|]. cbn [pending with_deadlines].
    destruct (pending s !! pd_sender d) as [buf|]; [|done]. by destruct (PendingBuffer.expire buf _ _). }
  destruct (expire_parked (with_deadlines s h) d) as [s2 [e|]]; cbn [fst] in Hx.
  - rewrite <-Hx, <-(IH s2 max). by destruct (PartitionState.sweep_loop fuel s2 _ max).
  - by rewrite (IH s2 (S max)).
Qed.

(** ** Publishing *)
Lemma recorded_ok w w' pub acc :
  recorded w w' pub acc → core_ok (core w) → Forall (ref_ok (core w)) pub →
  core_ok (core w') ∧ stays (core w) (core w').
Proof.
  intros [_ _ Hv Hn Hs _ _ Ho _ _] Hc Hp. split; [|split; [done|by rewrite Hn]]. split.
  - apply wf_slot. destruct (proj1 (wf_slot _) (ok_wf _ Hc)) as [W1 W2]. unfold next_nonce in *. rewrite Hn. split; [done|].
    intros a k. rewrite Hs. apply W2.
  - intros a k. rewrite Hs, Hn. unfold serves. rewrite Hv. apply Hc.
  - intros a n He. rewrite Hn. unfold serves. rewrite Hv.
    destruct (decide ((a, n) ∈ ref_key <$> pub)) as [(e & Ek & Hin)%list_elem_of_fmap|Hout].
    + apply (proj1 (Forall_forall _ _) Hp) in Hin. unfold ref_key in Ek. destruct e as [[b k] m]. cbn in Ek.
      injection Ek as -> ->. apply Hin.
    + rewrite Ho in He by done. by apply Hc.
Qed.

Lemma rebuffered_ok w w' rest :
  rebuffered w w' rest → core_ok (core w) → Forall (ref_ok (core w)) rest →
  core_ok (core w') ∧ stays (core w) (core w').
Proof.
  intros [_ _ Hv Hl _ Hk _ Ho Hm Hf _] Hc Hr.
  assert (∀ a, is_Some (next (state (core w)) !! a) → is_Some (next (state (core w')) !! a)) as Hn.
  { intros a [f Ef]. destruct (Hm a f Ef) as (f' & -> & _). eauto. }
  destruct (proj1 (wf_slot _) (ok_wf _ Hc)) as [W1 W2].
  assert (Hcase : ∀ a k, is_Some (slot_of (state (core w')) a k) →
    (∃ m, (a, k, m) ∈ rest ∧ is_refused (state (core w)) a k = false) ∨ is_Some (slot_of (state (core w)) a k)).
  { intros a k Hsl. destruct (is_refused (state (core w)) a k) eqn:Er; [right; rewrite <-Ho; done|].
    destruct (decide ((a, k) ∈ ref_key <$> rest)) as [([[b j] m] & [= -> ->] & Hin)%list_elem_of_fmap|Hout]; [eauto|right].
    rewrite <-Ho; [done|]. intros m Hin. exfalso. apply Hout, list_elem_of_fmap. by exists (a, k, m). }
  split; [|by split]. split.
  - apply wf_slot. split.
    + intros a. unfold next_nonce. destruct (Hf a) as [->|(n & m & Hin & _ & ->)]; [apply W1|].
      apply (proj1 (Forall_forall _ _) Hr) in Hin as (_ & _ & Hlt). cbn in *. lia.
    + intros a k Hsl. destruct (Hcase a k Hsl) as [(m & Hin & Er)|Hold].
      * destruct (Hk a k m Hin Er) as (_ & f & Ef & Hle). unfold next_nonce. rewrite Ef. cbn.
        apply (proj1 (Forall_forall _ _) Hr) in Hin as (_ & _ & Hlt). cbn in Hlt. lia.
      * specialize (W2 a k Hold). destruct (ok_slot _ Hc a k Hold) as [[f Ef] _].
        destruct (Hm a f Ef) as (f' & Ef' & Hle). unfold next_nonce in *. rewrite Ef', Ef in *. cbn in *. lia.
  - intros a k Hsl. unfold serves. rewrite Hv. destruct (Hcase a k Hsl) as [(m & Hin & _)|Hold].
    + apply (proj1 (Forall_forall _ _) Hr) in Hin as (? & ? & _). auto.
    + apply (ok_slot _ Hc) in Hold as [? ?]. auto.
  - intros a n. rewrite Hl. unfold serves. rewrite Hv. intros (? & ? & ?)%(ok_entry _ Hc). auto.
Qed.

(** Only offers of served senders go out, and the slots stay. *)
Definition offers_from c0 : relation World := λ w w',
  vslots (core w') = vslots (core w) ∧ extends (offers_served c0) w w'.

#[export] Instance offers_from_preorder c0 : PreOrder (offers_from c0).
Proof. split; [by intros w|]. intros w1 w2 w3 [V1 X1] [V2 X2]. split; [congruence|by etrans]. Qed.

#[export] Instance offers_from_frame c0 : Frame (offers_served c0) (offers_from c0).
Proof.
  split; [apply _|..]; intros; intros w; try (by split; [autorewrite with loopw|apply extends_same; autorewrite with loopw]).
  split; [done|]. by eapply extends_one.
Qed.

Lemma flush_offers_from c0 l : Forall (λ e : Ref, serves c0 e.1.1) l → runs (offers_from c0) (flush_drained l).
Proof.
  intros Hl. unfold flush_drained. eapply (runs_bind_post _ _ _ (Forall (λ e : Ref, serves c0 e.1.1))).
  - unfold suppress_shadow. apply runs_post_bind; [apply _|by apply runs_ask; apply _|]. intros c.
    destruct (shadow c); apply runs_post_ret; try apply _; [|done].
    apply Forall_forall. intros e [_ He]%list_elem_of_filter. by apply (proj1 (Forall_forall _ _) Hl).
  - intros live Hlive.
    apply (frame_flush_loop (offers_served c0) _) with (good := λ e : Ref, serves c0 e.1.1); intros; try done; try apply _.
    + by_frame (frame_publish_rejection (offers_served c0)).
    + intros w. unfold offer. destruct (try_publish_ref_batch _ _) as [p [n err]]. split; [done|].
      eapply extends_one; [done|]. intros o ([[a k] m] & -> & He)%list_elem_of_fmap. cbn.
      by apply (proj1 (Forall_forall _ _) H) in He.
    + by_frame (frame_record_one (offers_served c0)).
Qed.

Lemma inv_flush l : NoDup (ref_key <$> l) → triple (λ c, Forall (ref_ok c) l) (flush_drained l) any.
Proof.
  intros Hnd w [Hc Ht] Hl. destruct (flush_drained_outcome w l Hnd) as (pub & rest & El & wm & Hrec & Hres).
  assert (Forall (ref_ok (core w)) (pub ++ rest)) as [Hp Hr]%Forall_app.
  { rewrite <-El. apply Forall_forall. intros e [_ He]%list_elem_of_filter. by apply (proj1 (Forall_forall _ _) Hl). }
  destruct (flush_offers_from (core w) l) with w as [Hv (new & Et & Hnew)].
  { eapply Forall_impl; [exact Hl|]. intros e He. apply He. }
  assert (core_ok (core (flush_drained l w).2) ∧ stays (core w) (core (flush_drained l w).2)) as [Hc' Hs].
  { destruct (flush_drained l w) as [res w']. cbn [fst snd] in *.
    destruct (recorded_ok w wm pub _ Hrec Hc Hp) as [Hcm Hsm].
    destruct res as [?|[]]; try (by subst w'); [by destruct Hres as [_ ->]|].
    destruct (rebuffered_ok wm w' rest Hres Hcm) as [? ?]; [|split; [done|by etrans]].
    eapply Forall_impl; [exact Hr|]. intros e. by apply ref_ok_stays. }
  split; [|done]. split; [done|]. rewrite Et. apply Forall_app. split.
  - eapply Forall_impl; [exact Ht|]. intros [] Ho; try done. intros o Hin. unfold serves. rewrite Hv. by apply Ho.
  - eapply Forall_impl; [exact Hnew|]. intros [] Ho; try done. intros o Hin. unfold serves. rewrite Hv. by apply Ho.
Qed.
End operations.
