(* ===== verification/SequencerRun.v ===== *)
(** * The publish loop as a transition system

    A pass, the environment between passes, and the invariant of every reachable
    state. *)
From S2P Require Import Prelude Bytes VslotSet VslotSetSpec ShardMap Types Fees Pending State Unconfirmed NonceAhead Resync.
From S2P Require Import StateFacts StateOps StateSpec ResyncSpec SequencerConfig TxDecode Sequencer SequencerFacts.
From S2P Require Import SequencerFlush SequencerInv.
Import PartitionState SequencerLoop.

Section drains.
Context {E : Externals} {L : ExternalLaws E}.
Implicit Types (w : World) (c : Sequencer).

(** Dense runs of distinct senders have distinct keys. *)
Lemma runs_NoDup (out : list Ref) : (∀ a, NoDup (of_sender a out).*1) → NoDup (ref_key <$> out).
Proof.
  induction out as [|[[a n] m] out IH]; intros Hr; cbn; constructor.
  - intros ([[b k] p] & [= <- <-] & Hin)%list_elem_of_fmap. specialize (Hr a). unfold of_sender in Hr.
    rewrite filter_cons, decide_True in Hr by done. cbn in Hr. apply NoDup_cons in Hr as [Hr _]. apply Hr.
    apply list_elem_of_fmap. exists (n, p). split; [done|]. apply list_elem_of_fmap. exists (a, n, p).
    split; [done|]. by apply list_elem_of_filter.
  - apply IH. intros b. specialize (Hr b). unfold of_sender in *. rewrite filter_cons in Hr.
    case_decide; [cbn in Hr; by apply NoDup_cons in Hr as []|done].
Qed.

Lemma elem_of_sender (a n : N) m (out : list Ref) : (a, n, m) ∈ out ↔ (n, m) ∈ of_sender a out.
Proof.
  unfold of_sender. rewrite list_elem_of_fmap. split.
  - intros Hin. exists (a, n, m). split; [done|]. by apply list_elem_of_filter.
  - intros ([[b k] p] & [= -> ->] & [Hb Hin]%list_elem_of_filter). cbn in Hb. by subst.
Qed.

Lemma drain_known s order (out0 : list Ref) b :
  is_Some (next s !! b) → is_Some (next (fold_left drain_one_sender order (s, out0)).1 !! b).
Proof.
  revert s out0. induction order as [|a order IH]; intros s out0 Hb; [done|]. cbn [fold_left].
  assert (is_Some (next (drain_one_sender (s, out0) a).1 !! b)) as Hb'.
  { unfold drain_one_sender. destruct (pending s !! a) as [buf|]; [|done].
    destruct (drain_sender_run _ _ _ _) as [[buf' out'] [n|]]; [|done]. cbn.
    destruct (decide (a = b)) as [->|Hne]; [rewrite lookup_insert_eq; eauto|by rewrite lookup_insert_ne]. }
  destruct (drain_one_sender (s, out0) a) as [s1 out1]. by apply IH.
Qed.

Lemma inv_drain P order :
  triple P (on_state (λ s, drain_pending s order)) (λ out c, Forall (ref_ok c) out ∧ NoDup (ref_key <$> out)).
Proof.
  apply triple_state. intros c Hc _. unfold drain_pending.
  pose proof (drain_pending_from (state c) [] order (ok_wf c Hc)) as Hd.
  pose proof (drain_known (state c) order []) as Hk.
  pose proof (exec_op_wf (state c) (ODrain order) (ok_wf c Hc) I) as Hw. cbn [exec_op] in Hw. unfold drain_pending in Hw.
  destruct (fold_left drain_one_sender order (state c, [])) as [s' out]. cbn [fst] in *.
  destruct Hd as (new & -> & Hr). cbn [app].
  assert (∀ a k, is_Some (slot_of s' a k) → is_Some (slot_of (state c) a k)) as Hsl.
  { intros a k Hs. destruct (Hr a) as [Hrun _]. destruct (decide (k ∈ (of_sender a new).*1)) as [Hin|Hin].
    - rewrite (run_gone _ _ _ _ Hrun k Hin) in Hs. by destruct Hs.
    - by rewrite (run_rest _ _ _ _ Hrun k Hin) in Hs. }
  split; [eapply core_ok_shrink; [exact Hc|done|exact Hw|exact Hk|exact Hsl|done]|]. split; [by split|]. split.
  - apply Forall_forall. intros [[a n] m] Hin%elem_of_sender. destruct (Hr a) as (Hrun & _ & Hv).
    specialize (Hv n m Hin). assert (is_Some (slot_of (state c) a n)) as Hs by (destruct (slot_of _ a n); [eauto|done]).
    destruct (ok_slot c Hc a n Hs) as [Hn Hsv]. split; [by apply Hk|]. split; [done|].
    by apply (wf_slots (state c) a n (ok_wf c Hc)).
  - apply runs_NoDup. intros a. destruct (Hr a) as [Hrun _]. rewrite (run_nonces _ _ _ _ Hrun). apply NoDup_nseq.
Qed.

(** ** One envelope *)
Definition known_sender (a : Address) c : Prop := serves c a ∧ is_Some (next (state c) !! a).

Lemma inv_seed a : triple (λ c, serves c a)
  (upd_state (λ s, match next_nonce_known s a with None => seed_next_nonce s a 0 | Some _ => s end))
  (λ _, known_sender a).
Proof.
  apply triple_state. intros c Hc Hs. unfold next_nonce_known. destruct (next (state c) !! a) as [x|] eqn:En.
  - split; [eapply core_ok_ext; [exact Hc|done..]|]. split; [done|]. split; [done|]. exists x. exact En.
  - assert (∀ b, is_Some (next (state c) !! b) → is_Some (next (seed_next_nonce (state c) a 0) !! b)) as Hn.
    { intros b Hb. cbn. destruct (decide (a = b)) as [->|Hne]; [rewrite lookup_insert_eq; eauto|by rewrite lookup_insert_ne]. }
    split; [|split; [by split|split; [done|cbn; rewrite lookup_insert_eq; eauto]]].
    eapply core_ok_shrink; [exact Hc|done| |done..].
    apply (exec_op_wf (state c) (OSeed a) (ok_wf c Hc)). exact En.
Qed.

(** The refs that a process result hands to the publisher. *)
Definition handed (a : Address) (r : ProcessResult RefMetadata) : list Ref :=
  (λ e, (a, e.1, e.2)) <$> published (actions r).

Lemma handed_one a (items : list (N * RefMetadata)) o :
  NoDup items.*1 → NoDup (ref_key <$> handed a (mkResult ((λ e, Publish e.1 e.2) <$> items) o)).
Proof.
  intros Hnd. unfold handed. cbn [actions]. rewrite published_map, <-list_fmap_compose.
  assert (ref_key ∘ (λ e : N * RefMetadata, (a, e.1, e.2)) = (λ n, (a, n)) ∘ fst) as -> by done.
  rewrite list_fmap_compose. apply NoDup_fmap_2; [|done]. by intros x y [= ->].
Qed.

Lemma process_known s at_ a n (m : RefMetadata) b :
  is_Some (next s !! b) → is_Some (next (process_at s at_ a n m).1 !! b).
Proof.
  intros Hb. destruct (N.lt_trichotomy n (next_nonce s a)) as [Hlt|[Heq|Hgt]].
  - by rewrite process_past.
  - unfold process_at. rewrite Heq, N.ltb_irrefl. cbn [andb].
    match goal with |- context [let '(s1, first) := ?x in _] => assert (next x.1 = next s) as Hn; [|destruct x as [s1 first]] end.
    { destruct (pending s !! a) as [buf|]; [|done]. by destruct (PendingBuffer.remove buf _). }
    cbn [fst] in Hn. unfold drain_consecutive_into.
    destruct (pending s1 !! a) as [buf|]; [destruct (PendingBuffer.drain buf _) as [buf' items]|]; cbn; rewrite ?Hn;
      (destruct (decide (a = b)) as [->|Hne]; [rewrite lookup_insert_eq; eauto|by rewrite lookup_insert_ne]).
  - rewrite process_future by done. cbn. by rewrite (park_next _ _ _ _ _ _ _ (park_parks s at_ a n m)).
Qed.

Lemma inv_process at_ a n m : (n < u64_max)%N →
  triple (known_sender a) (on_state (λ s, process_at s at_ a n m))
    (λ r c, Forall (ref_ok c) (handed a r) ∧ NoDup (ref_key <$> handed a r)).
Proof.
  intros Hu. apply triple_state. intros c Hc [Hsv Hkn].
  pose proof (exec_op_wf (state c) (OProcess at_ a n m) (ok_wf c Hc) Hu) as Hw. cbn [exec_op] in Hw.
  destruct (N.lt_trichotomy n (next_nonce (state c) a)) as [Hlt|[Heq|Hgt]].
  - rewrite process_past in * by done. split; [by eapply core_ok_ext|]. split; [done|].
    destruct (is_refused (state c) a n); cbn; (split; [|repeat constructor; set_solver]); repeat constructor; done.
  - destruct (process_matched (state c) at_ a n m (ok_wf c Hc) Heq Hu) as (s' & items & Ep & Hr & Ho & _ & _ & Hv).
    rewrite Ep in *. cbn [fst] in Hw.
    pose proof (process_known (state c) at_ a n m) as Hk. rewrite Ep in Hk. cbn [fst] in Hk.
    assert (∀ b k, is_Some (slot_of s' b k) → is_Some (slot_of (state c) b k)) as Hsl.
    { intros b k Hs. destruct (decide (a = b)) as [<-|Hne].
      - destruct (decide (k ∈ items.*1)) as [Hin|Hin].
        + rewrite (run_gone _ _ _ _ Hr k Hin) in Hs. by destruct Hs.
        + by rewrite (run_rest _ _ _ _ Hr k Hin) in Hs.
      - rewrite (run_rest _ _ _ _ (Ho b Hne) k) in Hs; [done|]. by intros ?%elem_of_nil. }
    split; [eapply core_ok_shrink; [exact Hc|done|exact Hw|exact Hk|exact Hsl|done]|]. split; [by split|]. split.
    + apply Forall_forall. intros e (x & -> & Hx)%list_elem_of_fmap. cbn [actions] in Hx. rewrite published_map in Hx.
      split; [by apply Hk|]. split; [done|]. cbn.
      assert (x.1 ∈ items.*1) as Hin by (apply list_elem_of_fmap; eauto).
      rewrite (run_nonces _ _ _ _ Hr), elem_of_nseq in Hin. pose proof (run_bound _ _ _ _ Hr) as Hb.
      rewrite (run_next _ _ _ _ Hr) in Hb. lia.
    + apply handed_one. rewrite (run_nonces _ _ _ _ Hr). apply NoDup_nseq.
  - rewrite process_future in * by done. cbn [fst] in Hw. destruct (park_parks (state c) at_ a n m) as [Hn _ Ho Hnew Hold _].
    split; [|split; [split; [done|cbn [state with_state]; by rewrite Hn]|split; constructor]].
    split; cbn [state with_state unconfirmed]; [done| |].
    + intros b k Hs. rewrite Hn. destruct (decide (a = b)) as [<-|Hne]; [done|]. rewrite Ho in Hs by done.
      by apply (ok_slot c Hc) in Hs.
    + intros b k Hb. rewrite Hn. by apply (ok_entry c Hc) in Hb.
Qed.
End drains.

Section pass.
Context {E : Externals} {L : ExternalLaws E}.
Implicit Types (w : World) (c : Sequencer).

Lemma collect_result o acts out w :
  (collect_publishes o acts out w).1 = out ++ ((λ e, (ob_sender o, e.1, e.2)) <$> published acts).
Proof.
  revert out w. induction acts as [|act acts IH]; intros out w; cbn [collect_publishes].
  { cbn. by rewrite app_nil_r. }
  unfold mbind, M_bind. destruct act as [n p|n x].
  - cbn [collect_one_action mret M_ret]. rewrite IH, <-app_assoc. done.
  - unfold collect_one_action, mbind, M_bind. destruct (report_duplicate o n x w) as [[] w1]. cbn [mret M_ret]. apply IH.
Qed.

Lemma inv_collect P o acts out : triple P (collect_publishes o acts out) any.
Proof.
  revert P out. induction acts as [|act acts IH]; intros P out; cbn [collect_publishes]; [walk|].
  unfold collect_one_action. destruct act; walk_step; try apply IH; walk.
  all: eauto using inv_duplicate.
Qed.

Lemma inv_handle P o r : triple P (handle_outcome o r) any.
Proof.
  unfold handle_outcome. walk_step; [|apply inv_collect].
  destruct (outcome r); walk; eauto using inv_lookup, inv_evicted.
Qed.

Lemma handle_result o r w : (handle_outcome o r w).1 = handed (ob_sender o) r.
Proof.
  unfold handle_outcome, mbind, M_bind.
  match goal with |- context [let '(a, w') := ?x in _] => destruct x as [[] w1] end.
  by rewrite collect_result.
Qed.

Lemma inv_publish o r : triple (λ c, Forall (ref_ok c) (handed (ob_sender o) r) ∧ NoDup (ref_key <$> handed (ob_sender o) r))
  (publishes ← handle_outcome o r; flushed ← flush_drained publishes;
   mret (match flushed with Ok _ => Ok true | Err e => Err e end)) any.
Proof.
  intros w Hw [Hl Hnd]. pose proof (handle_result o r w) as Hres.
  destruct (inv_handle (λ _, True) o r w Hw I) as (Hw1 & Hs1 & _).
  unfold mbind at 1 2 3, M_bind at 1 2 3. destruct (handle_outcome o r w) as [l w1]. cbn [fst snd] in *. subst l.
  assert (Forall (ref_ok (core w1)) (handed (ob_sender o) r)) as Hl1
    by (eapply Forall_impl; [exact Hl|]; intros e; by apply ref_ok_stays).
  destruct (inv_flush _ Hnd w1 Hw1 Hl1) as (Hw2 & Hs2 & _).
  unfold mbind, M_bind. destruct (flush_drained (handed (ob_sender o) r) w1) as [res w2]. cbn in *.
  split; [done|]. split; [by etrans|done].
Qed.

Definition nonce_ok (i : Inbound) : Prop :=
  ∀ f, decode_fields decode_2718 (raw_tx (envelope i)) = Ok f → (tf_nonce f < u64_max)%N.

Lemma inv_envelope i : nonce_ok i → triple (λ c, serves c (sender_of (envelope i))) (process_envelope i) any.
Proof.
  intros Hi. unfold process_envelope. destruct (decode_fields _ _) as [f|e] eqn:Ef; [|walk].
  specialize (Hi f Ef). eapply triple_bind; [apply triple_ask|]. intros c0. cbn beta.
  destruct (admit_tx _ _ _) as [bid|reason].
  2: { walk_step; [|walk]. unfold report_fee_reject. apply inv_rejection. }
  eapply triple_bind; [eapply triple_conseq; [apply inv_seed|by intros c [? _]|done]|]. intros [].
  eapply (triple_bind _ _ _ (λ _, known_sender (sender_of (envelope i)))).
  { apply triple_other; [done|]. intros c c' Es Ev [Hs Hn]. unfold known_sender, serves. by rewrite Ev, Es. }
  intros at_. eapply triple_bind; [by apply inv_process|]. intros r.
  apply (inv_publish (mkObserved (sender_of (envelope i)) (tf_nonce f) (te_tx_hash (envelope i))) r).
Qed.

(** ** The controller *)
Definition calm c : Prop := ∀ r, resync c = Some r → benign r.

Definition subqueues (r r' : ResyncController.t) : Prop :=
  queue (ResyncController.floor_rx r') ⊆ queue (ResyncController.floor_rx r) ∧
  queue (ResyncController.answer_rx r') ⊆ queue (ResyncController.answer_rx r).

Lemma benign_sub r r' : subqueues r r' → benign r → benign r'.
Proof. intros [Hf Ha] [B1 B2]. split; [auto|]. intros a n e He%Ha. by eapply B2. Qed.

Lemma fold_update_queues r d u : subqueues r (ResyncController.fold_floor_update r d u).1.
Proof.
  unfold ResyncController.fold_floor_update. destruct (stale_at _ _); [done|].
  destruct (Outcome.confirmed _); [|done]. destruct (Outcome.floor _); [|done]. by destruct (_ <? _)%N.
Qed.

Lemma roll_back_queues order r d b : subqueues r (ResyncController.roll_back order r d b).1.
Proof. unfold ResyncController.roll_back. by destruct (AppliedRollbacks.first_time _ _). Qed.

#[export] Instance subqueues_preorder : PreOrder subqueues.
Proof. split; [by intros r|]. intros r1 r2 r3 [F1 A1] [F2 A2]. split; by etrans. Qed.

Lemma take_loop_queues fuel r events : subqueues r (ResyncController.take_floor_loop fuel r events).1.
Proof.
  revert r events. induction fuel as [|fuel IH]; intros r events; cbn [ResyncController.take_floor_loop]; [done|].
  destruct (_ <? _)%nat; [|done]. unfold ResyncController.take_floor_event, drain_bounded_step.
  destruct (queue (ResyncController.floor_rx r)) as [|x q] eqn:Eq; [by split; cbn; rewrite ?Eq|].
  assert (∀ dead, subqueues r (ResyncController.with_floor_rx r (mkChan q (closed (ResyncController.floor_rx r))) dead)) as Hs.
  { intros dead. split; cbn; [|done]. rewrite Eq. set_solver. }
  destruct x; [|apply Hs]. etrans; [apply Hs|apply IH].
Qed.

Lemma drain_updates_queues order r : subqueues r (ResyncController.drain_floor_updates order r).1.
Proof.
  unfold ResyncController.drain_floor_updates, ResyncController.take_floor_events.
  pose proof (take_loop_queues (S FLOOR_DRAIN_PER_ITER) r []) as Ht.
  destruct (ResyncController.take_floor_loop _ r []) as [r1 events]. cbn [fst] in Ht. etrans; [exact Ht|].
  generalize empty_drain as d. clear Ht. revert r1. induction events as [|e events IH]; intros r1 d; [done|].
  cbn [fold_left]. destruct (ResyncController.fold_event order (r1, d) e) as [r2 d2] eqn:Ee. etrans; [|apply IH].
  destruct e as [u|b]; cbn in Ee; [pose proof (fold_update_queues r1 d u) as H|pose proof (roll_back_queues order r1 d b) as H];
    by rewrite Ee in H.
Qed.

Lemma drain_answers_queues r : subqueues r (ResyncController.drain_answers r).1.
Proof.
  unfold ResyncController.drain_answers.
  pose proof (drain_bounded_spec (ResyncController.answer_rx r) (ResyncController.answer_rx_dead r) FLOOR_DRAIN_PER_ITER) as Hd.
  destruct (drain_bounded _ _ _) as [[rx dead] out]. destruct Hd as [_ Hq]. split; [done|]. cbn. rewrite Hq.
  intros x Hx. by eapply subseteq_drop.
Qed.

Lemma observe_queues r at_ : subqueues r (ResyncController.observe r at_).
Proof.
  unfold ResyncController.observe, ResyncController.maybe_exit, ResyncController.observe_watermark_change,
    ResyncController.check_watermark_jump. destruct (take_lag _) as [wm lag].
  repeat case_match; done.
Qed.

Lemma triple_result {A} P (m : M A) (Q : A → Prop) : triple P m any → (∀ w, Q (m w).1) → triple P m (λ x _, Q x).
Proof. intros Hm Hq w Hw Hp. destruct (Hm w Hw Hp) as (? & ? & _). auto. Qed.

Lemma receipt_result r w : subqueues r (apply_receipt_drain r w).1.1.
Proof.
  unfold apply_receipt_drain, mbind, M_bind. destruct (iterate _ w) as [order w0].
  pose proof (drain_updates_queues order r) as Hq. destruct (ResyncController.drain_floor_updates order r) as [r1 d].
  cbn [fst] in Hq. repeat match goal with |- context [let '(a, w') := ?x in _] => destruct x end.
  cbn. etrans; [exact Hq|apply observe_queues].
Qed.

Lemma deadlines_result r w : subqueues r (apply_deadline_rejects r w).1.
Proof.
  unfold apply_deadline_rejects, ResyncController.drain_deadline_rejects, mbind, M_bind.
  destruct (drain_bounded _ _ _) as [[rx dead] out]. cbn beta iota. destruct (for_each _ _ _). done.
Qed.

Lemma answers_result r w : subqueues r (apply_sealer_answers r w).1.
Proof.
  unfold apply_sealer_answers. pose proof (drain_answers_queues r) as Hq.
  destruct (ResyncController.drain_answers r) as [r1 d]. unfold mbind, M_bind.
  repeat match goal with |- context [let '(a, w') := ?x in _] => destruct x end. exact Hq.
Qed.

Lemma triple_pure {A} (φ : Prop) P (m : M A) Q : (∀ c, P c → φ) → (φ → triple P m Q) → triple P m Q.
Proof. intros Hp Hm w Hw Hw'. exact (Hm (Hp _ Hw') w Hw Hw'). Qed.

Lemma inv_resync_tick : triple calm resync_tick any.
Proof.
  unfold resync_tick. eapply triple_bind; [apply triple_ask|]. intros [r|]; [|walk].
  apply (triple_pure (benign r)); [by intros c [Hc Hr]; apply Hc|]. intros Hb.
  walk_step; [walk|].
  eapply (triple_bind _ _ _ (λ x _, subqueues r x.1)).
  { apply triple_result; [by apply inv_receipts|apply receipt_result]. }
  intros [r1 lookups]. eapply triple_pure; [by intros c Hc; exact Hc|]. intros H1. cbn [fst] in H1.
  eapply (triple_bind _ _ _ (λ x _, subqueues r1 x)).
  { apply triple_result; [apply inv_deadlines|apply deadlines_result]. }
  intros r2. eapply triple_pure; [by intros c Hc; exact Hc|]. intros H2.
  walk_step; [apply inv_answers; by eapply benign_sub, benign_sub|].
  walk_step; [walk|]. walk_step; [|apply inv_sweep]. walk. apply inv_lookup.
Qed.

(** The controller stays benign. *)
Definition stays_calm : relation World := λ w w', calm (core w) → calm (core w').

#[export] Instance stays_calm_preorder : PreOrder stays_calm.
Proof. split; [intros w Hc; exact Hc|]. intros w1 w2 w3 H1 H2 Hc. by apply H2, H1. Qed.

Lemma stays_calm_same w w' : resync (core w') = resync (core w) → stays_calm w w'.
Proof. intros Er Hc r. rewrite Er. apply Hc. Qed.

#[export] Instance stays_calm_frame : Frame (λ _, True) stays_calm.
Proof.
  split; [apply _|..]; intros; intros w; apply stays_calm_same; try done; by autorewrite with loopw.
Qed.

Lemma calm_reports : (∀ e, runs stays_calm (publish_error e)) ∧ (∀ h e, runs stays_calm (publish_rejection h e)) ∧
  (∀ o, runs stays_calm (publish_proven_drop o)).
Proof.
  split; [|split].
  - intros e. by_frame (frame_publish_error (λ _, True)).
  - intros h e. by_frame (frame_publish_rejection (λ _, True)).
  - intros o. by_frame (frame_proven_drop (λ _, True)).
Qed.

Lemma calm_flush l : runs stays_calm (flush_drained l).
Proof.
  destruct calm_reports as (He & Hr & Hd). apply (frame_flush_drained (λ _, True)); try apply _; try done.
  - intros offers w. unfold offer. destruct (try_publish_ref_batch _ _) as [p [n err]]. by apply stays_calm_same.
  - intros e. by_frame (frame_record_one (λ _, True)).
Qed.

Lemma calm_resync_tick : runs stays_calm resync_tick.
Proof.
  destruct calm_reports as (He & Hr & Hd). intros w Hc.
  unfold resync_tick, mbind, M_bind, ask. destruct (resync (core w)) as [r|] eqn:Er; [|done].
  unfold modify. pose proof (receipt_result r (set_core w (with_resync (core w) None))) as H1.
  destruct (apply_receipt_drain r _) as [[r1 lookups] w1]. cbn [fst] in H1.
  pose proof (deadlines_result r1 w1) as H2. destruct (apply_deadline_rejects r1 w1) as [r2 w2]. cbn [fst] in H2.
  pose proof (answers_result r2 w2) as H3. destruct (apply_sealer_answers r2 w2) as [r3 w3]. cbn [fst] in H3.
  assert (runs stays_calm (_ ← for_each request_lookup lookups; sweep_confirm_timeouts)) as Hrest.
  { apply runs_bind; [apply _| |intros _; by_frame (frame_sweep (λ _, True))].
    apply runs_for_each; [apply _|]. intros a _. by_frame (frame_request_lookup (λ _, True)). }
  apply (Hrest (set_core w3 (with_resync (core w3) (Some r3)))). intros r' [= <-].
  eapply benign_sub; [|by apply Hc]. by repeat (etrans; [eassumption|]).
Qed.

Lemma calm_after_pass o : runs stays_calm (after_pass o).
Proof.
  assert (∀ f, (∀ r, subqueues r (f r)) →
    runs stays_calm (modify (λ c, with_resync c (f <$> resync c)))) as Hm.
  { intros f Hf w Hc r Hr. cbn in Hr. destruct (resync (core w)) as [r0|] eqn:Er; [|done]. injection Hr as <-.
    eapply benign_sub; [apply Hf|]. by apply Hc. }
  unfold after_pass, resync_note_publish_ok. destruct o as [b|[]]; framed; [by apply Hm|].
  intros w. unfold resync_note_publish_stall, mbind, M_bind, ask. destruct (resync (core w)) as [r|] eqn:Er; [|done].
  intros Hc r' [= <-]. eapply benign_sub; [|by apply Hc]. unfold ResyncController.note_publish_stall.
  by destruct (_ <=? _)%N.
Qed.

Lemma calm_run_tick : runs stays_calm run_tick.
Proof.
  destruct calm_reports as (He & Hr & Hd).
  apply (frame_run_tick (λ _, True)); try apply _; auto using calm_resync_tick, calm_after_pass, calm_flush.
  - intros w. by apply stays_calm_same.
  - intros w. unfold poll_tx_data. destruct (poll _). by apply stays_calm_same.
  - intros A f w. unfold on_pause. destruct (f _). by apply stays_calm_same.
Qed.

(** ** A pass *)
#[export] Instance extends_frame P : Frame P (extends P).
Proof.
  split; [apply _|..]; intros; intros w; try (by apply extends_same; autorewrite with loopw).
  by eapply extends_one.
Qed.

Lemma grows_reports : (∀ h e, runs (extends (λ _, True)) (publish_rejection h e)) ∧
  (∀ o, runs (extends (λ _, True)) (publish_proven_drop o)) ∧ (∀ l, runs (extends (λ _, True)) (flush_drained l)).
Proof.
  assert (∀ h e, runs (extends (λ _, True)) (publish_rejection h e)) as Hr
    by (intros h e; by_frame (frame_publish_rejection (λ _, True))).
  split; [done|]. split; [intros o; by_frame (frame_proven_drop (λ _, True))|].
  intros l. apply (frame_flush_drained (λ _, True)); try apply _; try done.
  - intros offers w. unfold offer. destruct (try_publish_ref_batch _ _) as [p [n err]]. by eapply extends_one.
  - intros e. by_frame (frame_record_one (λ _, True)).
Qed.

Lemma grows_envelope i : runs (extends (λ _, True)) (process_envelope i).
Proof. destruct grows_reports as (Hr & Hd & Hf). by_frame (frame_process_envelope (λ _, True)). Qed.

(** The polled envelopes of a trace have transaction nonces. *)
Definition polls_ok (tr : list Effect) : Prop := ∀ i, EPoll (Ok (Some i)) ∈ tr → nonce_ok i.

(** What holds of a world that [m] leads to when the polled nonces are in range. *)
Definition lands {A} (P : Sequencer → Prop) (m : M A) : Prop :=
  ∀ w, world_ok w → P (core w) → polls_ok (trace (m w).2) → world_ok (m w).2.

Lemma triple_lands {A} P (m : M A) Q : triple P m Q → lands P m.
Proof. intros Hm w Hw Hp _. by apply (Hm w Hw Hp). Qed.

Lemma lands_bind {A B} P (m : M A) (f : A → M B) Q : triple P m Q → (∀ a, lands (Q a) (f a)) → lands P (m ≫= f).
Proof.
  intros Hm Hf w Hw Hp. destruct (Hm w Hw Hp) as (Hw' & _ & Hq). unfold mbind, M_bind.
  destruct (m w) as [a w']. by apply Hf.
Qed.

(** The end of a pass that drained nothing. *)
Definition poll_step : M (result SequencerError bool) :=
  got ← poll_tx_data;
  match got with
  | Err e => mret (Err e)
  | Ok None => mret (Ok false)
  | Ok (Some inbound) =>
    served ← ask (λ c, VslotSet.contains (vslots c) (vslot_for keccak256 (sender_of (envelope inbound))));
    if negb served then mret (Ok true) else process_envelope inbound
  end.

Lemma poll_lands P : lands P poll_step.
Proof.
  intros w Hw _. unfold poll_step, mbind, M_bind, poll_tx_data, ask. destruct (poll (tx_data w)) as [p got].
  set (w1 := mkWorld _ _ _ _ _ _). cbn beta iota.
  assert (world_ok w1) as Hw1.
  { destruct Hw as [Hc Ht]. split; [done|]. apply Forall_app. split; [done|]. by constructor. }
  destruct got as [[i|]|]; try (intros _; exact Hw1).
  destruct (VslotSet.contains (vslots (core w1)) _) eqn:Es; cbn [negb]; [|intros _; exact Hw1]. intros Hpoll.
  assert (nonce_ok i) as Hi.
  { apply Hpoll. destruct (grows_envelope i w1) as (new & -> & _). unfold w1. cbn. set_solver. }
  by apply (inv_envelope i Hi w1).
Qed.

Lemma run_once_lands : lands calm run_once.
Proof.
  unfold run_once. eapply lands_bind; [apply inv_resync_tick|]. intros [].
  eapply lands_bind; [by apply triple_report|]. intros []. eapply lands_bind; [apply inv_expiry|]. intros [].
  eapply lands_bind; [apply triple_pause|]. intros [|]; [by eapply triple_lands, triple_done|].
  eapply lands_bind; [apply triple_read|]. intros keys. eapply lands_bind; [apply triple_iterate|]. intros order.
  eapply lands_bind; [apply inv_drain|]. intros out. case_bool_decide as Ho; cbn [negb]; [apply poll_lands|].
  eapply (triple_lands _ _ any). apply (triple_pure (NoDup (ref_key <$> out))); [by intros c []|]. intros Hnd.
  eapply triple_bind; [eapply triple_conseq; [by apply inv_flush|by intros c []|done]|]. intros. walk.
Qed.

Lemma after_pass_inv P o : triple P (after_pass o) any.
Proof. unfold after_pass, resync_note_publish_ok, resync_note_publish_stall. destruct o as [|[]]; walk. Qed.

Lemma run_tick_lands : lands calm run_tick.
Proof.
  intros w Hw Hc Hp. unfold run_tick, mbind, M_bind in *. pose proof (run_once_lands w Hw Hc) as H1.
  assert (∀ o, runs (extends (λ _, True)) (after_pass o)) as Hx.
  { intros o'. apply (frame_after_pass (λ _, True)); [apply _|]. intros f w'. by apply extends_same. }
  destruct (run_once w) as [o w1]. cbn [snd] in H1.
  destruct (after_pass_inv (λ _, True) o w1) as (? & _); [|done..]. apply H1. intros i Hi. apply Hp.
  destruct (Hx o w1) as (new & -> & _). apply elem_of_app. by left.
Qed.
End pass.

(** ** The transition system *)
Section system.
Context {E : Externals}.

(** What the feed threads hand to the controller between two passes. *)
Definition deliver (r : ResyncController.t) (updates : list FloorUpdate) (answers : list SealerAnswer)
    (refusals : list SealerRefusal) (wm : SharedWatermark) : ResyncController.t :=
  let r1 := ResyncController.with_floor_rx r
    (mkChan (queue (ResyncController.floor_rx r) ++ (FUpdate <$> updates)) (closed (ResyncController.floor_rx r)))
    (ResyncController.floor_rx_dead r) in
  let r2 := ResyncController.with_answer_rx r1
    (mkChan (queue (ResyncController.answer_rx r) ++ answers) (closed (ResyncController.answer_rx r)))
    (ResyncController.answer_rx_dead r) in
  let r3 := ResyncController.with_deadline_rx r2
    (mkChan (queue (ResyncController.deadline_rx r) ++ refusals) (closed (ResyncController.deadline_rx r)))
    (ResyncController.deadline_rx_dead r) in
  ResyncController.with_watermark r3 wm (ResyncController.last_watermark r) (ResyncController.watermark_seen r).

(** An answer names a ref by its transaction nonce. *)
Definition answer_ok (x : SealerAnswer) : Prop :=
  match x with ContiguityReject _ n _ => (n < u64_max)%N | WindowFull _ _ => True end.

(** The environment: receipts, answers, refusals and the watermark arrive; the
    lifecycle, the base fee view, the sealer's version and the ports move. *)
Inductive env_step : World → World → Prop :=
| env_deliver w r updates answers refusals wm :
    resync (core w) = Some r → Forall answer_ok answers →
    env_step w (set_core w (with_resync (core w) (Some (deliver r updates answers refusals wm))))
| env_pause w g : env_step w (set_core w (with_pause (core w) g))
| env_view w gate version :
    env_step w (set_core w (mkSequencer (cfg (core w)) (state (core w)) (resync (core w)) (unconfirmed (core w))
      (nonce_ahead (core w)) (lookup_wired (core w)) (vslots (core w)) (shadow (core w)) (depth (core w))
      (pause (core w)) gate version))
| env_ports w tx rf : env_step w (mkWorld _ (core w) tx rf (reads w) (trace w)).

(** A start: the constructed sequencer, with its seams enabled. *)
Definition started (config : SequencerConfig) (w : World) : Prop :=
  ∃ usize_max at_ c, SequencerLoop.new usize_max config at_ = Ok c ∧
    state (core w) = state c ∧ unconfirmed (core w) = unconfirmed c ∧ vslots (core w) = vslots c ∧
    trace w = [] ∧ calm (core w).

Inductive reachable (config : SequencerConfig) : World → Prop :=
| reach_start w : started config w → reachable config w
| reach_pass w : reachable config w → reachable config (run_tick w).2
| reach_env w w' : reachable config w → env_step w w' → reachable config w'.

Context {L : ExternalLaws E}.

Lemma started_ok config w : started config w →
  world_ok w ∧ calm (core w) ∧ SequencerConfig.vslot_set config = Ok (vslots (core w)).
Proof.
  intros (um & at_ & c & Hnew & Es & Eu & Ev & Et & Hc).
  unfold SequencerLoop.new in Hnew. destruct (SequencerConfig.validate um config) as [[]|]; [|done]. cbn in Hnew.
  destruct (SequencerConfig.vslot_set config) as [vs|]; [|done]. injection Hnew as <-. cbn in Es, Eu, Ev.
  split; [|split; [done|by rewrite Ev]]. split; [|by rewrite Et; constructor]. split; rewrite ?Es, ?Eu.
  - apply wf_new.
  - intros a k [sl Hs]. done.
  - by intros a n [v Hv].
Qed.

Lemma env_step_ok w w' : env_step w w' →
  trace w' = trace w ∧ vslots (core w') = vslots (core w) ∧ state (core w') = state (core w) ∧
  unconfirmed (core w') = unconfirmed (core w) ∧ (calm (core w) → calm (core w')).
Proof.
  destruct 1 as [w r ups ans rfs wm Hr Ha|w g|w gate v|w tx rf]; do 4 (split; [done|]); try done.
  intros Hc r' [= <-]. destruct (Hc r Hr) as [B1 B2]. split; cbn.
  - intros e [He|(u & -> & _)%list_elem_of_fmap]%elem_of_app; [auto|eauto].
  - intros a n x [Hx|Hx]%elem_of_app; [by eapply B2|]. by apply (proj1 (Forall_forall _ _) Ha) in Hx.
Qed.

Lemma vslots_tick : runs (λ w w', vslots (core w') = vslots (core w)) run_tick.
Proof.
  set (R := λ w w', vslots (core w') = vslots (core w)).
  assert (PreOrder R) by (split; [by intros w|]; intros w1 w2 w3; unfold R; congruence).
  assert (Frame (λ _, True) R) as HF by (split; [apply _|..]; intros; intros w; unfold R; by autorewrite with loopw).
  assert (∀ h e, runs R (publish_rejection h e)) by (intros; by_frame (frame_publish_rejection (λ _, True))).
  assert (∀ e, runs R (publish_error e)) by (intros; by_frame (frame_publish_error (λ _, True))).
  assert (∀ o, runs R (publish_proven_drop o)) by (intros; by_frame (frame_proven_drop (λ _, True))).
  apply (frame_run_tick (λ _, True)); try apply _; try done.
  - apply (frame_resync_tick (λ _, True)); try apply _; try done.
  - intros o. apply (frame_after_pass (λ _, True)); [apply _|done].
  - intros l. apply (frame_flush_drained (λ _, True)); try apply _; try done.
    + intros offers w. unfold offer, R. by destruct (try_publish_ref_batch _ _) as [p [n err]].
    + intros e. by_frame (frame_record_one (λ _, True)).
  - intros w. unfold poll_tx_data, R. by destruct (poll _).
  - intros A f w. unfold on_pause, R. by destruct (f _).
Qed.

Lemma grows_once : runs (extends (λ _, True)) run_once.
Proof.
  destruct grows_reports as (Hr & Hd & Hf).
  assert (∀ e, runs (extends (λ _, True)) (publish_error e)) by (intros; by_frame (frame_publish_error (λ _, True))).
  assert (∀ f, runs (extends (λ _, True)) (modify (λ c, with_resync c (f c)))) by (intros f w; by apply extends_same).
  apply (frame_run_once (λ _, True)); try apply _; try done.
  - apply (frame_resync_tick (λ _, True)); try apply _; done.
  - intros w. by apply extends_same.
  - intros w. unfold poll_tx_data. destruct (poll _). by eapply extends_one.
  - intros A f w. unfold on_pause. destruct (f _). by apply extends_same.
Qed.

Lemma grows_tick : runs (extends (λ _, True)) run_tick.
Proof.
  apply runs_bind; [apply _|apply grows_once|]. intros o. apply (frame_after_pass (λ _, True)); [apply _|].
  intros f w. by apply extends_same.
Qed.

(** Every reachable world keeps the invariant. *)
Lemma reachable_ok config w : reachable config w → polls_ok (trace w) →
  world_ok w ∧ calm (core w) ∧ SequencerConfig.vslot_set config = Ok (vslots (core w)).
Proof.
  induction 1 as [w Hs|w _ IH|w w' _ IH Hst]; intros Hp.
  - by apply started_ok.
  - destruct IH as (Hw & Hc & Hv).
    { intros i Hi. apply Hp. destruct (grows_tick w) as (new & -> & _). apply elem_of_app. by left. }
    split; [by apply run_tick_lands|]. split; [by apply calm_run_tick|]. by rewrite vslots_tick.
  - destruct (env_step_ok w w' Hst) as (Et & Ev & Es & Eu & Hcalm). rewrite Et in Hp.
    destruct (IH Hp) as ([Hc Ht] & Hq & Hv). split; [|split; [auto|by rewrite Ev]]. split.
    + by eapply core_ok_ext.
    + rewrite Et. eapply Forall_impl; [exact Ht|]. intros [] Ho; try done. intros o Hin. unfold serves. rewrite Ev. by apply Ho.
Qed.
End system.

(** C22. The loop keeps its floors and its shard. In every state the publish loop
    reaches from a validated configuration, through passes and any deliveries of
    receipts (without a rollback), sealer answers and refusals, as long as the
    polled transactions have nonces below [u64::MAX]: no buffered ref is below the
    floor of its sender, and every ref ever offered to the sealer, and every ref in
    the buffers or the unconfirmed ledger, is of a sender in the configured slots. *)
Theorem loop_invariant {E : Externals} {L : ExternalLaws E} (config : SequencerConfig) (w : World) :
  reachable config w → polls_ok (trace w) →
  ∃ served, SequencerConfig.vslot_set config = Ok served ∧
  refs_below_floor (state (core w)) = 0 ∧
  (∀ offers p err o, EOffer offers p err ∈ trace w → o ∈ offers →
     VslotSet.contains served (vslot_for keccak256 (g_sender (guard o))) = true) ∧
  (∀ a n, is_Some (slot_of (state (core w)) a n) ∨ UnconfirmedLedger.contains (unconfirmed (core w)) a n = true →
     VslotSet.contains served (vslot_for keccak256 a) = true).
Proof.
  intros Hr Hp. destruct (reachable_ok config w Hr Hp) as ([Hc Ht] & _ & Hv).
  exists (vslots (core w)). split; [done|]. split; [|split].
  - apply refs_below_floor_zero. intros a k Hk. by apply (wf_slots _ _ _ (ok_wf _ Hc)).
  - intros offers p err o Hin Ho. exact (proj1 (Forall_forall _ _) Ht _ Hin o Ho).
  - intros a n [Hs|Hs]; [by apply (ok_slot _ Hc) in Hs as [_ ?]|].
    apply bool_decide_eq_true in Hs. by apply (ok_entry _ Hc) in Hs as (_ & ? & _).
Qed.

(** The polls of a trace, checked. *)
Definition poll_in_range `{Externals} (e : Effect) : bool :=
  match e with
  | EPoll (Ok (Some i)) =>
      match decode_fields decode_2718 (raw_tx (envelope i)) with Ok f => (tf_nonce f <? u64_max)%N | Err _ => true end
  | _ => true
  end.

Lemma polls_in_range `{Externals} tr : forallb poll_in_range tr = true → polls_ok tr.
Proof.
  intros Hb i Hi f Hf. rewrite forallb_forall in Hb. apply list_elem_of_In, Hb in Hi. cbn in Hi.
  rewrite Hf in Hi. by apply N.ltb_lt.
Qed.

Definition taken (e : Effect) : nat := match e with EOffer _ n _ => n | _ => 0 end.

(** The replica of the default configuration after a pass over one transaction of
    a sender it serves: the ref was offered and taken. *)
Lemma loop_invariant_witness :
  let w := (run_tick (sample_world sample_started [sample_inbound 0 0] 2)).2 in
  sum_list (taken <$> trace w) = 1 ∧ refs_below_floor (state (core w)) = 0.
Proof.
  intros w. split; [by vm_compute|].
  refine (match @loop_invariant sample_env sample_laws SequencerConfig.default w _ _ with
          | ex_intro _ _ (conj _ (conj Hz _)) => Hz end).
  - apply reach_pass, reach_start. exists u64_max, 0%N, sample_started.
    split; [by vm_compute|]. do 4 (split; [reflexivity|]). intros r Hr. discriminate Hr.
  - apply polls_in_range. by vm_compute.
Defined.
