(* ===== verification/SequencerFate.v ===== *)
(** * The fate of a transaction

    Every transaction the loop takes from [tx_data] is accounted for at the end of
    its pass: the sealer's publisher took a ref to it, a buffer holds the ref, or
    its client was told that it was dropped. With the identity layout, what a
    replica offers is of its own partition. *)
From S2P Require Import Prelude Bytes VslotSet VslotSetSpec ShardMap ShardMapSpec Types Fees Pending Unconfirmed NonceAhead Resync State StateFacts StateOps.
From S2P Require Import StateSpec ResyncSpec SequencerConfig TxDecode Sequencer SequencerFacts SequencerSpec SequencerFlush.
From S2P Require Import SequencerInv SequencerRun.
Import PartitionState SequencerLoop.

Section fate.
Context {E : Externals} {L : ExternalLaws E}.
Implicit Types (w : World) (i : Inbound).

(** The ref of [a] at [n] with hash [h] is taken, buffered or reported. *)
Definition accounted w w' (h : B256) (a : Address) (n : N) : Prop :=
  (∃ new o, trace w' = trace w ++ new ∧ o ∈ new ≫= accepted ∧
     ref_tx_hash (tx_ref o) = h ∧ g_sender (guard o) = a ∧ g_nonce (guard o) = n) ∨
  (∃ slot, slot_of (state (core w')) a n = Some slot ∧ meta_tx_hash (PendingBuffer.value slot) = h) ∨
  (∃ why, fresh w w' (EDrop (mkTxDrop h a n why))).

Lemma accounted_earlier w1 w2 w3 h a n :
  (∃ new, trace w2 = trace w1 ++ new) → accounted w2 w3 h a n → accounted w1 w3 h a n.
Proof.
  intros Hx [(new & o & Et & Ho & ?)|[?|[why Hf]]].
  - left. destruct Hx as [u Eu]. exists (u ++ new), o. rewrite Et, Eu, app_assoc, bind_app, elem_of_app. auto.
  - right; by left.
  - right; right. exists why. by eapply fresh_earlier.
Qed.

Lemma accounted_later w1 w2 w3 h a n :
  (∃ new, trace w3 = trace w2 ++ new) → state (core w3) = state (core w2) →
  accounted w1 w2 h a n → accounted w1 w3 h a n.
Proof.
  intros Hx Es [(new & o & Et & Ho & ?)|[Hb|[why Hf]]].
  - left. destruct Hx as [u Eu]. exists (new ++ u), o. rewrite Eu, Et, app_assoc, bind_app, elem_of_app. auto.
  - right; left. by rewrite Es.
  - right; right. exists why. by eapply fresh_later.
Qed.

(** A ref in a flushed list, when no other error stopped the flush. *)
Lemma flush_accounts w l a n m :
  NoDup (ref_key <$> l) → (a, n, m) ∈ l → in_shadow (core w) a = false →
  let '(res, w') := flush_drained l w in
  match res with
  | Ok _ | Err Backpressure => accounted w w' (meta_tx_hash m) a n
  | Err _ => True
  end.
Proof.
  intros Hnd Hin Hsh. destruct (flush_drained_outcome w l Hnd) as (pub & rest & El & wm & Hrec & Hres).
  destruct (flush_drained l w) as [res w']. cbn [fst snd] in *.
  assert ((a, n, m) ∈ pub ++ rest) as Hp by (rewrite <-El; by apply list_elem_of_filter).
  destruct (rd_trace _ _ _ _ Hrec) as (new & Et & Ea).
  assert ((a, n, m) ∈ pub → accounted w wm (meta_tx_hash m) a n) as Hpub.
  { intros Hm. left. exists new, (offer_of (a, n, m)). rewrite Ea.
    split; [done|]. split; [by apply list_elem_of_fmap_2|done]. }
  destruct res as [[]|[]]; try done.
  { destruct Hres as [-> ->]. rewrite app_nil_r in Hp. auto. }
  destruct (rb_trace _ _ _ Hres) as (new' & Et' & Ea'). apply elem_of_app in Hp as [Hm|Hm].
  { left. exists (new ++ new'), (offer_of (a, n, m)). rewrite Et', Et, app_assoc, bind_app, Ea, elem_of_app.
    split; [done|]. split; [left; by apply list_elem_of_fmap_2|done]. }
  destruct (is_refused (state (core wm)) a n) eqn:Er.
  - destruct (rb_evicted _ _ _ Hres a n m Hm Er) as (x & _ & Hd).
    { by rewrite (in_shadow_same _ _ _ (rd_shadow _ _ _ _ Hrec)). }
    right; right. eexists. eapply fresh_earlier; [by exists new|exact Hd].
  - right; left. destruct (rb_kept _ _ _ Hres a n m Hm Er) as [Hs _]. eauto.
Qed.

(** ** Reports *)
(** Steps that only report. *)
Definition reports w w' : Prop := core w' = core w ∧ ∃ new, trace w' = trace w ++ new.

#[export] Instance reports_preorder : PreOrder reports.
Proof.
  split; [intros w; split; [done|]; exists []; by rewrite app_nil_r|].
  intros w1 w2 w3 [E1 [u1 T1]] [E2 [u2 T2]]. split; [congruence|]. exists (u1 ++ u2). by rewrite T2, T1, app_assoc.
Qed.

Lemma reports_emit e : runs reports (emit e).
Proof. intros w. split; [done|]. by exists [e]. Qed.

Lemma reports_rejection h e : runs reports (publish_rejection h e).
Proof. intros w. destruct (publish_rejection_spec h e w) as (Hc & (new & Ht & _) & _). split; eauto. Qed.

Lemma reports_evicted a n h : runs reports (report_evicted a n h).
Proof. unfold report_evicted. framed_step; [apply runs_ask; apply _|apply reports_rejection]. Qed.

Lemma reports_drop o : runs reports (publish_proven_drop o).
Proof. unfold publish_proven_drop. repeat framed_step || apply reports_emit. Qed.

Lemma reports_lookup a : runs reports (request_lookup a).
Proof. unfold request_lookup. repeat framed_step || apply reports_emit. Qed.

Lemma reports_duplicate o n e : runs reports (report_duplicate o n e).
Proof. unfold report_duplicate. repeat framed_step || apply reports_drop || apply reports_rejection. Qed.

Lemma reports_collect o acts out : runs reports (collect_publishes o acts out).
Proof.
  revert out. induction acts as [|act acts IH]; intros out; cbn [collect_publishes]; [framed|].
  unfold collect_one_action. repeat framed_step || apply reports_duplicate || apply IH.
Qed.

Lemma reports_handle o r : runs reports (handle_outcome o r).
Proof.
  unfold handle_outcome. repeat framed_step || apply reports_lookup || apply reports_evicted || apply reports_collect.
Qed.

(** A rejection tells the client of the hash. *)
Lemma rejection_tells h err w : in_shadow (core w) (err_sender err) = false →
  ∃ why, fresh w (publish_rejection h err w).2 (EDrop (mkTxDrop h (err_sender err) (err_nonce err) why)).
Proof. intros Hs. destruct (publish_rejection_spec h err w) as (_ & _ & Hf). eexists. by apply Hf. Qed.

Lemma evicted_tells a n h w : in_shadow (core w) a = false →
  ∃ why, fresh w (report_evicted a n h w).2 (EDrop (mkTxDrop h a n why)).
Proof. intros Hs. unfold report_evicted, mbind, M_bind, ask. by apply rejection_tells. Qed.

Lemma duplicate_tells a n h x w : in_shadow (core w) a = false →
  ∃ why, fresh w (report_duplicate (mkObserved a n h) n x w).2 (EDrop (mkTxDrop h a n why)).
Proof.
  intros Hs. unfold report_duplicate, mbind at 1, M_bind at 1, ask. destruct (proven_executed _ _ _); [|by apply rejection_tells].
  unfold publish_proven_drop, mbind, M_bind, ask. cbn. rewrite Hs. cbn. eexists. eexists. split; [done|]. by apply list_elem_of_singleton.
Qed.

Lemma handle_tells a n h r w : in_shadow (core w) a = false →
  (∃ x, actions r = [ReportDuplicate n x]) ∧ outcome r = Past ∨ outcome r = RejectedTooFar n ∧ actions r = [] →
  ∃ why, fresh w (handle_outcome (mkObserved a n h) r w).2 (EDrop (mkTxDrop h a n why)).
Proof.
  intros Hs [[[x Ha] Ho]|[Ho Ha]]; unfold handle_outcome, mbind, M_bind; rewrite Ho, Ha; cbn [ob_sender ob_tx_hash].
  - cbn [mret M_ret collect_publishes]. unfold collect_one_action, mbind, M_bind.
    destruct (duplicate_tells a n h x w Hs) as [why Hf].
    destruct (report_duplicate _ _ _ w) as [[] w1]. by exists why.
  - destruct (evicted_tells a n h w Hs) as [why Hf]. destruct (report_evicted a n h w) as [[] w1]. by exists why.
Qed.

(** A pass of a sender's ref through the state machine. *)
Definition disabled w (a : Address) : Prop := PendingBuffer.capacity (buffer_of (state (core w)) a) = None.

(** What the caller of the publish sees: an error other than backpressure stops
    the loop. *)
Definition settles {A} w (out : result SequencerError A * World) (h : B256) (a : Address) (n : N) : Prop :=
  match out.1 with
  | Ok _ | Err Backpressure => accounted w out.2 h a n ∨ disabled out.2 a
  | Err _ => True
  end.

Lemma settles_earlier {A} w1 w2 (out : result SequencerError A * World) h a n :
  (∃ new, trace w2 = trace w1 ++ new) → settles w2 out h a n → settles w1 out h a n.
Proof.
  intros Hx. unfold settles. destruct out.1 as [|[]]; try done; (intros [?|?]; [left|by right]); by eapply accounted_earlier.
Qed.

Lemma flush_nil w : flush_drained [] w = (Ok (), w).
Proof. unfold flush_drained, suppress_shadow, mbind, M_bind, ask. cbn [id]. destruct (shadow (core w)); reflexivity. Qed.

Lemma process_no_actions s at_ a n (m : RefMetadata) :
  wf s → let r := (process_at s at_ a n m).2 in
  (slot_of (process_at s at_ a n m).1 a n = Some (PendingBuffer.mkSlot (Some (at_ + tx_ttl s)%N) m) ∨
   outcome r = RejectedTooFar n ∨ outcome r = BufferedDisabled) → (n < u64_max)%N → actions r = [].
Proof.
  intros Hwf r Hr Hu. subst r. destruct (N.lt_trichotomy n (next_nonce s a)) as [Hlt|[Heq|Hgt]].
  - rewrite process_past in * by done. destruct Hr as [Hr|Hr]; [|destruct (is_refused s a n); cbn in Hr; naive_solver].
    assert (next_nonce s a ≤ n)%N; [|lia]. apply (wf_slots s a n Hwf). cbn in Hr. rewrite Hr. eauto.
  - destruct (process_matched s at_ a n m Hwf Heq Hu) as (s' & items & Ep & Hrun & _ & Hne & _). rewrite Ep in *.
    destruct Hr as [Hr|Hr]; [|cbn in Hr; naive_solver]. cbn in Hr. rewrite (run_gone _ _ _ _ Hrun) in Hr; [done|].
    rewrite (run_nonces _ _ _ _ Hrun), elem_of_nseq, Heq. destruct items; [done|]. cbn. lia.
  - by rewrite process_future.
Qed.

Lemma process_accounts w at_ a n m h :
  core_ok (core w) → (n < u64_max)%N → in_shadow (core w) a = false → meta_tx_hash m = h →
  slot_of (state (core w)) a (next_nonce (state (core w)) a) = None → known_sender a (core w) → world_ok w →
  settles w ((result ← on_state (λ s, process_at s at_ a n m);
    publishes ← handle_outcome (mkObserved a n h) result;
    flushed ← flush_drained publishes;
    mret (match flushed with Ok _ => Ok true | Err e => Err e end)) w) h a n.
Proof.
  intros Hc Hu Hs Hh Hfree Hkn Hw.
  pose proof (process_incoming (state (core w)) at_ a n m (ok_wf _ Hc) Hu) as Hin.
  pose proof (process_no_actions (state (core w)) at_ a n m (ok_wf _ Hc)) as Hna.
  destruct (inv_process at_ a n m Hu w Hw Hkn) as (_ & _ & _ & Hnd).
  unfold mbind at 1, M_bind at 1. unfold on_state in *.
  destruct (process_at (state (core w)) at_ a n m) as [s' r]. cbn [fst snd] in *.
  set (w1 := set_core w (with_state (core w) s')) in *. unfold mbind, M_bind.
  pose proof (handle_result (mkObserved a n h) r w1) as Hres. destruct (reports_handle (mkObserved a n h) r w1) as [Hc2 Ht2].
  pose proof (handle_tells a n h r w1) as Htell.
  destruct (handle_outcome (mkObserved a n h) r w1) as [l w2]. cbn [fst snd ob_sender] in *. subst l.
  assert (in_shadow (core w2) a = false) as Hs2 by (rewrite Hc2; exact Hs).
  assert (∃ new, trace w2 = trace w ++ new) as Hx by exact Ht2.
  destruct Hin as [Hp|[Hp|[[Hd Ho]|[Ho|[[Ho Hdis]|(_ & Hn & Hsl)]]]]].
  - assert ((a, n, m) ∈ handed a r) as Hm by (unfold handed; apply list_elem_of_fmap; by exists (n, m)).
    pose proof (flush_accounts w2 (handed a r) a n m Hnd Hm Hs2) as Hf.
    destruct (flush_drained (handed a r) w2) as [res w3]. unfold settles. cbn. rewrite Hh in Hf.
    destruct res as [|[]]; try done; left; by eapply accounted_earlier.
  - unfold handed. rewrite Hna by auto. cbn [published omap list_omap fmap list_fmap]. rewrite flush_nil. unfold settles, mret, M_ret; cbn [fst snd]. left.
    right; left. rewrite Hc2. cbn. eauto.
  - unfold handed. destruct Hd as [x Hd]. rewrite Hd. cbn [published omap list_omap fmap list_fmap]. rewrite flush_nil.
    unfold settles, mret, M_ret; cbn [fst snd]. left. right; right. apply Htell; eauto.
  - unfold handed. rewrite Hna by auto. cbn [published omap list_omap fmap list_fmap]. rewrite flush_nil. unfold settles, mret, M_ret; cbn [fst snd]. left.
    right; right. apply Htell; [done|]. right. split; [done|]. by apply Hna; auto.
  - unfold handed. rewrite Hna by auto. cbn [published omap list_omap fmap list_fmap]. rewrite flush_nil. unfold settles, mret, M_ret; cbn [fst snd]. right.
    unfold disabled. cbn. by rewrite Hc2.
  - rewrite <-Hn, eq_None_not_Some in Hfree. by destruct Hfree.
Qed.

Lemma envelope_settles w i f :
  let a := sender_of (envelope i) in
  world_ok w → serves (core w) a → decode_fields decode_2718 (raw_tx (envelope i)) = Ok f → (tf_nonce f < u64_max)%N →
  in_shadow (core w) a = false → slot_of (state (core w)) a (next_nonce (state (core w)) a) = None →
  settles w (process_envelope i w) (te_tx_hash (envelope i)) a (tf_nonce f).
Proof.
  intros a Hw Hsv Hf Hu Hs Hfree. unfold process_envelope. rewrite Hf. unfold mbind at 1, M_bind at 1, ask.
  destruct (admit_tx _ _ _) as [bid|reason].
  2: { unfold report_fee_reject, mbind, M_bind. destruct (rejection_tells (te_tx_hash (envelope i))
         (mkTxError a (tf_nonce f) reason) w Hs) as [why Hd].
       cbn [ob_tx_hash ob_sender ob_nonce]. fold a. destruct (publish_rejection _ _ w) as [[] w1].
       left. right; right. exists why. exact Hd. }
  destruct (inv_seed a w Hw Hsv) as (Hw1 & _ & Hk).
  unfold mbind at 1, M_bind at 1. fold a in Hw1, Hk |- *.
  assert (∀ s : PartitionState.t RefMetadata, next_nonce (match next_nonce_known s a with None => seed_next_nonce s a 0 | Some _ => s end) a = next_nonce s a) as Hn.
  { intros s. unfold next_nonce, next_nonce_known. destruct (next s !! a) eqn:En; [by rewrite En|]. cbn. by rewrite lookup_insert_eq. }
  unfold upd_state, on_state in Hw1, Hk |- *. cbn [fst snd] in *. 
  set (s1 := match next_nonce_known (state (core w)) a with None => seed_next_nonce (state (core w)) a 0 | Some _ => state (core w) end) in *.
  unfold mbind at 1, M_bind at 1, now. cbn beta iota zeta.
  match goal with |- settles _ (_ ?w2) _ _ _ => set (w' := w2) end.
  assert (world_ok w') as Hw2 by exact Hw1.
  pose proof (process_accounts w' (clock (reads w)) a (tf_nonce f)) as Hp.
  eapply (settles_earlier w w'); [exists []; by rewrite app_nil_r|]. apply Hp; try done; [apply Hw2|].
  cbn [w' core set_core with_state state]. unfold s1 at 2. rewrite Hn. unfold s1. by destruct (next_nonce_known _ _).
Qed.

(** ** The pass *)
Definition unpolled (e : Effect) : Prop := ∀ got, e ≠ EPoll got.

(** Steps that poll nothing and open no shadow window. *)
Definition drifts : relation World := λ w w',
  extends unpolled w w' ∧ (shadow (core w') = shadow (core w) ∨ shadow (core w') = None).

#[export] Instance drifts_preorder : PreOrder drifts.
Proof.
  split; [intros w; split; [done|by left]|]. intros w1 w2 w3 [E1 H1] [E2 H2]. split; [by etrans|].
  destruct H1 as [H1|H1], H2 as [H2|H2]; rewrite H2, ?H1; auto.
Qed.

Lemma drifts_same w w' : shadow (core w') = shadow (core w) → trace w' = trace w → drifts w w'.
Proof. intros Hs Ht. split; [by apply extends_same|by left]. Qed.

#[export] Instance drifts_frame : Frame unpolled drifts.
Proof.
  split; [apply _|..]; intros; intros w; try (by apply drifts_same; autorewrite with loopw).
  split; [by eapply extends_one|by left].
Qed.

Lemma drifts_reports :
  (∀ h e, runs drifts (publish_rejection h e)) ∧ (∀ o, runs drifts (publish_proven_drop o)) ∧
  (∀ e, runs drifts (publish_error e)) ∧ (∀ f, runs drifts (modify (λ c, with_resync c (f c)))) ∧
  (∀ l, runs drifts (flush_drained l)).
Proof.
  assert (∀ h e, runs drifts (publish_rejection h e)) as Hr by (intros h e; by_frame (frame_publish_rejection unpolled)).
  split; [done|]. split; [intros o; by_frame (frame_proven_drop unpolled)|].
  split; [intros e; by_frame (frame_publish_error unpolled)|]. split; [intros f w; by apply drifts_same|].
  intros l. apply (frame_flush_drained unpolled); try apply _; try done.
  - intros offers w. unfold offer. destruct (try_publish_ref_batch _ _) as [p [n err]].
    split; [by eapply extends_one|by left].
  - intros e. by_frame (frame_record_one unpolled).
Qed.

Lemma drifts_tick : runs drifts (_ ← resync_tick; _ ← emit EFlushEvents; expiry_tick).
Proof.
  destruct drifts_reports as (Hr & Hd & He & Hm & _).
  apply runs_bind; [apply _|apply (frame_resync_tick unpolled); try apply _; done|]. intros ?.
  apply runs_bind; [apply _|by apply frame_emit|]. intros ?.
  apply (frame_expiry_tick unpolled); try apply _; try done. intros w. split; [by apply extends_same|by right].
Qed.

Lemma drifts_after o : runs drifts (after_pass o).
Proof. destruct drifts_reports as (_ & _ & _ & Hm & _). by apply (frame_after_pass unpolled); try apply _. Qed.

Lemma drifts_envelope i : runs drifts (process_envelope i).
Proof. destruct drifts_reports as (Hr & Hd & _ & _ & Hf). by_frame (frame_process_envelope unpolled). Qed.

(** A drain in an order that visits every buffer leaves no sender with its next ref. *)
Lemma drain_stops s (order : list Address) a : wf s → (∀ b, is_Some (pending s !! b) → b ∈ order) →
  (drain_pending (T := RefMetadata) s order).2 = [] →
  let s' := (drain_pending s order).1 in slot_of s' a (next_nonce s' a) = None.
Proof.
  intros Hwf Hall Hnil. pose proof (drain_pending_from s [] order Hwf) as Hd. unfold drain_pending in *.
  destruct (fold_left _ _ _) as [s' out]. cbn in *. destruct Hd as (new & -> & Hr). cbn in Hnil. subst new.
  destruct (Hr a) as (Hrun & Hst & _). destruct (decide (a ∈ order)) as [|Hno]; [auto|].
  rewrite (run_rest _ _ _ _ Hrun) by (by intros ?%elem_of_nil). unfold slot_of.
  destruct (pending s !! a) eqn:Ep; [|done]. destruct Hno. apply Hall. eauto.
Qed.

(** A pass either polls nothing or is a poll from a world without ready refs. *)
Lemma run_once_split w : world_ok w → calm (core w) →
  extends unpolled w (run_once w).2 ∨
  ∃ w1, run_once w = poll_step w1 ∧ world_ok w1 ∧ drifts w w1 ∧ vslots (core w1) = vslots (core w) ∧
    ∀ a, slot_of (state (core w1)) a (next_nonce (state (core w1)) a) = None.
Proof.
  intros Hw Hc. pose proof (drifts_tick w) as Hd.
  assert (triple calm (_ ← resync_tick; _ ← emit EFlushEvents; expiry_tick) any) as Ht.
  { eapply triple_bind; [apply inv_resync_tick|]. intros ?. eapply triple_bind; [by apply triple_report|]. intros ?. apply inv_expiry. }
  destruct (Ht w Hw Hc) as (Hw1 & [Hv1 _] & _). clear Ht.
  destruct drifts_reports as (_ & _ & _ & _ & Hfl). unfold run_once. unfold mbind, M_bind in *.
  destruct (resync_tick w) as [[] wa]. destruct (emit EFlushEvents wa) as [[] wb].
  destruct (expiry_tick wb) as [[] w1]. cbn [snd] in *.
  unfold on_pause. destruct (PauseGate.paused _) as [g [|]]; [left; exact (proj1 Hd)|].
  unfold ask, iterate. cbn [core set_core with_pause state reads].
  match goal with |- context [on_state _ ?x] => set (w2 := x) end.
  destruct (inv_drain (λ _, True) (hash_order (reads w1) (dom (pending (state (core w1))))) w2) as (Hw3 & [Hv3 _] & _);
    [apply (world_ok_core w1); [done|eapply core_ok_ext; [apply Hw1|done..]|done]|done|].
  pose proof (λ a, drain_stops (state (core w1)) (hash_order (reads w1) (dom (pending (state (core w1))))) a (ok_wf _ (proj1 Hw1))) as Hstop.
  unfold on_state in *. change (state (core w2)) with (state (core w1)) in *. cbn [reads set_core core with_pause state] in *.
  destruct (drain_pending _ _) as [s' out]. cbn [fst snd] in *.
  case_bool_decide as Ho; cbn [negb].
  - right. eexists. split; [reflexivity|]. split; [exact Hw3|]. split; [exact Hd|]. split; [by rewrite Hv3|].
    intros a. apply Hstop; [|done]. intros b Hb. rewrite hash_order_perm. by apply elem_of_elements, elem_of_dom.
  - left. match goal with |- context [flush_drained out ?x] => pose proof (Hfl out x) as [Hx _]; destruct (flush_drained out x) end.
    etrans; [exact (proj1 Hd)|exact Hx].
Qed.

Lemma unpolled_fresh w1 w2 w3 got : extends unpolled w2 w3 → (∃ new, trace w2 = trace w1 ++ new) →
  fresh w1 w3 (EPoll got) → fresh w1 w2 (EPoll got).
Proof.
  intros (u & Eu & Hu) (v & Ev) (new & Et & Hin). rewrite Eu, Ev, <-app_assoc in Et. apply app_inv_head in Et as <-.
  exists v. split; [done|]. apply elem_of_app in Hin as [|Hin]; [done|]. by destruct (proj1 (Forall_forall _ _) Hu _ Hin got).
Qed.

Lemma in_shadow_drifts w w' a : drifts w w' → in_shadow (core w) a = false → in_shadow (core w') a = false.
Proof. intros [_ [Hs|Hs]] Ha; unfold in_shadow in *; by rewrite Hs. Qed.

Lemma run_once_settles w i f :
  let a := sender_of (envelope i) in
  world_ok w → calm (core w) → fresh w (run_once w).2 (EPoll (Ok (Some i))) →
  decode_fields decode_2718 (raw_tx (envelope i)) = Ok f → (tf_nonce f < u64_max)%N →
  serves (core w) a → in_shadow (core w) a = false →
  settles w (run_once w) (te_tx_hash (envelope i)) a (tf_nonce f).
Proof.
  intros a Hw Hc Hp Hf Hu Hsv Hs. destruct (run_once_split w Hw Hc) as [Hx|(w1 & Eq & Hw1 & Hd & Hv & Hfree)].
  { apply (unpolled_fresh w w) in Hp as (new & Et & Hin); [|done|exists []; by rewrite app_nil_r].
    rewrite <-(app_nil_r (trace w)) in Et at 1. apply app_inv_head in Et as <-. by apply elem_of_nil in Hin. }
  rewrite Eq in *.
  assert (∃ new, trace w1 = trace w ++ new) as Hn by (destruct Hd as [(new & ? & _) _]; eauto).
  unfold poll_step, mbind, M_bind, poll_tx_data, ask in *. destruct (poll (tx_data w1)) as [p got].
  set (w2 := mkWorld _ _ _ _ _ _) in *. cbn beta iota in *.
  assert (Hgot : fresh w w2 (EPoll (Ok (Some i))) → got = Ok (Some i)).
  { intros (new & Et & Hin). cbn in Et. destruct Hd as [(u & Eu & Hu') _]. rewrite Eu, <-app_assoc in Et.
    apply app_inv_head in Et as <-. apply elem_of_app in Hin as [Hin|[= <-]%list_elem_of_singleton]; [|done].
    by destruct (proj1 (Forall_forall _ _) Hu' _ Hin (Ok (Some i))). }
  assert (Hn2 : ∃ new, trace w2 = trace w ++ new).
  { destruct Hn as [u Eu]. exists (u ++ [EPoll got]). cbn. by rewrite Eu, app_assoc. }
  assert (world_ok w2) as Hw2.
  { destruct Hw1 as [Hk Ht]. split; [done|]. apply Forall_app. split; [done|]. by constructor. }
  destruct got as [[j|]|e]; [|by apply Hgot in Hp..].
  assert (j = i) as ->.
  { destruct (VslotSet.contains (vslots (core w2)) _); cbn [negb] in Hp; [|by apply Hgot in Hp as [= ->]].
    apply (unpolled_fresh w w2) in Hp; [by apply Hgot in Hp as [= ->]|apply (drifts_envelope j w2)|done]. }
  unfold serves in Hsv. change (vslots (core w2)) with (vslots (core w1)). rewrite Hv. fold a. rewrite Hsv. cbn [negb].
  apply (settles_earlier w w2 _ _ _ _ Hn2). apply envelope_settles; try done.
  - unfold serves. cbn. by rewrite Hv.
  - exact (in_shadow_drifts w w1 a Hd Hs).
Qed.

Lemma after_pass_state o w : state (core (after_pass o w).2) = state (core w).
Proof.
  unfold after_pass, resync_note_publish_ok, resync_note_publish_stall, mbind, M_bind, ask, modify, now.
  destruct o as [|[]]; try done. cbn. by destruct (resync (core w)).
Qed.

Lemma after_pass_goes_on o w : (after_pass o w).1 = Ok true → (∃ x, o = Ok x) ∨ o = Err Backpressure.
Proof. destruct o as [|[]]; cbn; eauto; done. Qed.
End fate.

(** ** The capacities of the buffers *)
Section capacities.
Context {E : Externals}.
Implicit Types (w : World).

Definition capped : relation World := λ w w', keeps_caps (state (core w)) (state (core w')).

#[export] Instance capped_preorder : PreOrder capped.
Proof. split; [by intros w|]. intros w1 w2 w3. apply keeps_caps_trans. Qed.

#[export] Instance capped_frame : Frame (λ _, True) capped.
Proof.
  split; [apply _|..]; intros; intros w; unfold capped; by autorewrite with loopw.
Qed.

Lemma capped_tick : runs capped run_tick.
Proof.
  assert (∀ h e, runs capped (publish_rejection h e)) by (intros; by_frame (frame_publish_rejection (λ _, True))).
  assert (∀ e, runs capped (publish_error e)) by (intros; by_frame (frame_publish_error (λ _, True))).
  assert (∀ o, runs capped (publish_proven_drop o)) by (intros; by_frame (frame_proven_drop (λ _, True))).
  apply (frame_run_tick (λ _, True)); try apply _; try done.
  - apply (frame_resync_tick (λ _, True)); try apply _; done.
  - intros o. apply (frame_after_pass (λ _, True)); [apply _|done].
  - intros l. apply (frame_flush_drained (λ _, True)); try apply _; try done.
    + intros offers w. unfold offer, capped. by destruct (try_publish_ref_batch _ _) as [p [n err]].
    + intros e. by_frame (frame_record_one (λ _, True)).
  - intros w. unfold poll_tx_data, capped. by destruct (poll _).
  - intros A f w. unfold on_pause, capped. by destruct (f _).
Qed.

(** The buffers of a reachable state have the capacity of the configuration. *)
Lemma reachable_caps config w : reachable config w →
  max_pending_per_sender (state (core w)) = cfg_max_pending_per_sender config ∧ caps (state (core w)).
Proof.
  induction 1 as [w (um & at_ & c & Hnew & Es & _)|w _ [IH1 IH2]|w w' _ IH Hst].
  - unfold SequencerLoop.new in Hnew. destruct (SequencerConfig.validate um config) as [[]|]; [|done]. cbn in Hnew.
    destruct (SequencerConfig.vslot_set config) as [vs|]; [|done]. injection Hnew as <-. rewrite Es. split; [done|].
    intros a buf Ha. cbn in Ha. by rewrite lookup_empty in Ha.
  - destruct (capped_tick w) as [H1 H2]. split; [congruence|auto].
  - destruct (env_step_ok w w' Hst) as (_ & _ & -> & _). done.
Qed.

Lemma enabled_buffers config w a : reachable config w → cfg_max_pending_per_sender config ≠ 0 → ¬ disabled w a.
Proof.
  intros Hr Hm. destruct (reachable_caps config w Hr) as [Em Hc]. unfold disabled. rewrite (caps_buffer_of _ a Hc), Em. cbn.
  by destruct (cfg_max_pending_per_sender config).
Qed.
End capacities.

(** C23. No transaction is lost. Take a sequencer whose buffers are enabled
    ([max_pending_per_sender] is not zero) and a state that it reaches. A pass that
    takes from [tx_data] a transaction that decodes, of a served sender outside of
    shadow mode, and after which the loop goes on, accounts for it: the publisher took
    a ref to it, the buffer of its sender holds the ref, or a drop with its hash went to
    the client. *)
Theorem envelope_accounted {E : Externals} {L : ExternalLaws E} (config : SequencerConfig) (w : World) (i : Inbound) (f : TxFields) :
  let a := sender_of (envelope i) in
  let w' := (run_tick w).2 in
  cfg_max_pending_per_sender config ≠ 0 → reachable config w → polls_ok (trace w') →
  fresh w w' (EPoll (Ok (Some i))) → decode_fields decode_2718 (raw_tx (envelope i)) = Ok f →
  VslotSet.contains (vslots (core w)) (vslot_for keccak256 a) = true → in_shadow (core w) a = false → (run_tick w).1 = Ok true →
  accounted w w' (te_tx_hash (envelope i)) a (tf_nonce f).
Proof.
  intros a w' Hcap Hr Hp Hfr Hf Hsv Hs. subst w'. pose proof (enabled_buffers config _ a (reach_pass config w Hr) Hcap) as Hen.
  destruct (run_tick w) as [res w'] eqn:Er. cbn [fst snd] in *. intros Hres.
  unfold run_tick, mbind, M_bind in Er. pose proof (run_once_settles w i f) as Hset. pose proof (grows_once w) as (nw & Ew & _).
  destruct (run_once w) as [o w1]. cbn [snd] in Ew. pose proof (drifts_after o w1) as [Hx _].
  pose proof (after_pass_state o w1) as Hst. pose proof (after_pass_goes_on o w1) as Hgo.
  rewrite Er in Hx, Hst, Hgo. cbn [fst snd] in *.
  destruct (reachable_ok config w Hr) as (Hw & Hc & _).
  { intros j Hj. apply Hp. destruct Hx as (u & -> & _). rewrite Ew. rewrite !elem_of_app. by left; left. }
  assert (nonce_ok i) as Hi by (destruct Hfr as (new & Et & Hin); apply Hp; rewrite Et; apply elem_of_app; by right).
  specialize (Hset Hw Hc (unpolled_fresh _ _ _ _ Hx (ex_intro _ nw Ew) Hfr) Hf (Hi f Hf) Hsv Hs). fold a in Hset.
  assert (accounted w w1 (te_tx_hash (envelope i)) a (tf_nonce f) ∨ disabled w1 a) as [Ha|Ha].
  { unfold settles in Hset. cbn in Hset. by destruct (Hgo Hres) as [[x ->]| ->]. }
  - eapply accounted_later; [|exact Hst|exact Ha]. destruct Hx as (u & ? & _). eauto.
  - destruct Hen. unfold disabled. rewrite Hst. exact Ha.
Qed.

(** A future nonce parks; the publisher has room. *)
Lemma envelope_accounted_witness :
  let w := sample_world sample_started [sample_inbound 0 7] 2 in
  accounted w (run_tick w).2 77 0 7.
Proof.
  intros w.
  apply (@envelope_accounted sample_env sample_laws SequencerConfig.default w (sample_inbound 0 7)
    (mkTxFields 7 (tf_fees sample_fields))).
  - by vm_compute.
  - apply reach_start. exists u64_max, 0%N, sample_started.
    split; [by vm_compute|]. do 4 (split; [reflexivity|]). intros r Hr. discriminate Hr.
  - apply (polls_in_range (H := sample_env)). by vm_compute.
  - exists (trace (run_tick w).2). split; [reflexivity|]. vm_compute. right. left.
  - by vm_compute.
  - by vm_compute.
  - by vm_compute.
  - by vm_compute.
Defined.

(** ** The shards of the replicas

    With the identity layout, the replicas of a deployment split the senders: what
    a replica offers is of its own partition, the one the ingress routes to. *)

Lemma vslot_for_bound keccak256 a : (vslot_for keccak256 a < 256)%N.
Proof.
  unfold vslot_for. destruct (to_be_bytes 8 _ !! 7) as [b|] eqn:Eb; cbn; [|lia].
  apply (proj1 (Forall_forall _ _) (to_be_bytes_ok 8 (sender_hash_prefix keccak256 a))). by eapply list_elem_of_lookup_2.
Qed.

(** The slots of a partition of the identity layout. *)
Lemma identity_slots keccak256 config served a :
  cfg_vslots config = None → SequencerConfig.vslot_set config = Ok served →
  VslotSet.contains served (vslot_for keccak256 a) = true ↔
  PartitionCount.index_of keccak256 (partition_count config) a = partition_index config.
Proof.
  intros Hn. unfold SequencerConfig.vslot_set. rewrite Hn. unfold PartitionCount.identity_map.
  destruct (validate_shard_count _) as [lanes|] eqn:Ec; [|done]. cbn [mbind result_bind map_err].
  destruct (ShardMap.identity lanes) as [m|] eqn:Ei; [|done]. cbn [mbind result_bind map_err].
  unfold u8_try_from. destruct (N.leb_spec (partition_index config) u8_max) as [Hle|]; [|done].
  change (@Ok ConfigError _ (ShardMap.vslot_set m (partition_index config)) = Ok served → VslotSet.contains served (vslot_for keccak256 a) = true ↔
    PartitionCount.index_of keccak256 (partition_count config) a = partition_index config). intros [= <-].
  pose proof (vslot_for_bound keccak256 a) as Hb. destruct (identity_inv _ _ Ei) as (Hl & Hdiv & Em).
  assert (lanes = PartitionCount.get (partition_count config)) as El.
  { revert Ec. unfold validate_shard_count, u8_try_from. destruct (_ =? 0)%N; [done|]. destruct (_ <=? u8_max)%N; [|done]. cbn.
    destruct (_ <=? LANE_COUNT)%N; [|done]. cbn. by destruct (is_multiple_of _ _); intros [= <-]. }
  rewrite vslot_set_contains, (identity_lane _ _ _ Ei Hb), N.eqb_eq; [|by rewrite Em; cbn [table]; rewrite length_fmap, length_nseq|done].
  unfold PartitionCount.index_of, partition_for, is_multiple_of, VSLOT_COUNT_U32. rewrite <-El.
  destruct (N.eqb_spec lanes 0) as [|_]; [lia|]. by rewrite Hdiv.
Qed.

(** A replica publishes its own partition. With the identity layout, every ref
    that the publish loop of a configuration ever offers, in any reachable state,
    is of a sender whose partition, by the routing rule [index_of] of the ingress,
    is the one of the configuration. So two replicas of one deployment with
    different partitions never offer refs of the same sender. *)
Theorem offers_own_partition {E : Externals} {L : ExternalLaws E} (config : SequencerConfig) (w : World)
    (offers : list RefOffer) (p : nat) (err : option SequencerError) (o : RefOffer) :
  cfg_vslots config = None → reachable config w → polls_ok (trace w) → EOffer offers p err ∈ trace w → o ∈ offers →
  PartitionCount.index_of keccak256 (partition_count config) (g_sender (guard o)) = partition_index config.
Proof.
  intros Hn Hr Hp Hin Ho. destruct (reachable_ok config w Hr Hp) as ([_ Ht] & _ & Hv).
  apply (identity_slots keccak256 config (vslots (core w)) _ Hn Hv). exact (proj1 (Forall_forall _ _) Ht _ Hin o Ho).
Qed.

Definition first_offer (tr : list Effect) : list RefOffer :=
  tr ≫= λ e, match e with EOffer offers _ _ => offers | _ => [] end.

Lemma offers_own_partition_witness :
  let w := (run_tick (sample_world sample_started [sample_inbound 0 0] 2)).2 in
  ∃ o, first_offer (trace w) = [o] ∧
  PartitionCount.index_of (keccak256 (Externals := sample_env)) (partition_count SequencerConfig.default) (g_sender (guard o)) = 0%N.
Proof.
  intros w. eexists. split; [by vm_compute|].
  eapply (@offers_own_partition sample_env sample_laws SequencerConfig.default w).
  - reflexivity.
  - apply reach_pass, reach_start. exists u64_max, 0%N, sample_started.
    split; [by vm_compute|]. do 4 (split; [reflexivity|]). intros r Hr. discriminate Hr.
  - apply (polls_in_range (H := sample_env)). by vm_compute.
  - vm_compute. do 2 right. left.
  - left.
Defined.
