(* ===== verification/Java.v ===== *)
(** * Java arithmetic and collections

    The sealer of [cluster/sealer-service] is Java. A [long] is a [Z] from [-2^63]
    to [2^63 - 1]; its sums and shifts wrap. A [LinkedHashMap] is the list of its
    entries in iteration order: [lhm_put] keeps the place of a key (insertion
    order), [lru_get] and [lru_put] move it to the end (access order). A
    [ByteBuffer] is a list of bytes with the big-endian encodings of [Bytes]. *)
From S2P Require Import Prelude Bytes.

Definition long_min : Z := - 2 ^ 63.
Definition long_max : Z := 2 ^ 63 - 1.
Definition is_long (z : Z) : Prop := (long_min ≤ z ≤ long_max)%Z.

(** The [long] with the low 64 bits of [z]. *)
Definition to_long (z : Z) : Z := ((z + 2 ^ 63) mod 2 ^ 64 - 2 ^ 63)%Z.
Definition long_add (a b : Z) : Z := to_long (a + b).
Definition long_sub (a b : Z) : Z := to_long (a - b).
(** [a << n] reads the low six bits of the count. *)
Definition long_shl (a n : Z) : Z := to_long (Z.shiftl a (n mod 64)).

(** [Long.compareUnsigned]. *)
Definition unsigned (z : Z) : Z := z mod 2 ^ 64.
Definition ult (a b : Z) : bool := (unsigned a <? unsigned b)%Z.
Definition ule (a b : Z) : bool := (unsigned a <=? unsigned b)%Z.

Lemma to_long_is_long z : is_long (to_long z).
Proof. unfold is_long, to_long, long_min, long_max. pose proof (Z.mod_pos_bound (z + 2 ^ 63) (2 ^ 64) ltac:(lia)). lia. Qed.

Lemma to_long_small z : is_long z → to_long z = z.
Proof. unfold is_long, to_long, long_min, long_max. intros Hz. rewrite Z.mod_small by lia. lia. Qed.

Lemma to_long_add_l x y : to_long (to_long x + y) = to_long (x + y).
Proof.
  unfold to_long. f_equal. replace (_ - 2 ^ 63 + y + 2 ^ 63)%Z with ((x + 2 ^ 63) mod 2 ^ 64 + y)%Z by lia.
  rewrite Zplus_mod_idemp_l. f_equal. lia.
Qed.

Lemma unsigned_nonneg z : (0 ≤ z ≤ long_max)%Z → unsigned z = z.
Proof. unfold unsigned, long_max. intros Hz. apply Z.mod_small. lia. Qed.

Lemma unsigned_to_long z : unsigned (to_long z) = unsigned z.
Proof.
  unfold unsigned, to_long. rewrite Zminus_mod_idemp_l. f_equal. lia.
Qed.

Lemma unsigned_bound z : (0 ≤ unsigned z < 2 ^ 64)%Z.
Proof. apply Z.mod_pos_bound. lia. Qed.

(** A difference that does not go below zero. *)
Lemma unsigned_sub a b : (unsigned b ≤ unsigned a)%Z → unsigned (long_sub a b) = (unsigned a - unsigned b)%Z.
Proof.
  intros Hle. unfold long_sub. rewrite unsigned_to_long. unfold unsigned in *. rewrite Zminus_mod.
  pose proof (unsigned_bound a). pose proof (unsigned_bound b). unfold unsigned in *. apply Z.mod_small. lia.
Qed.

(** A long with a small unsigned value is not negative. *)
Lemma unsigned_small z : is_long z → (unsigned z ≤ long_max)%Z → z = unsigned z.
Proof.
  unfold is_long, unsigned, long_min, long_max. intros Hz Hu. destruct (decide (0 ≤ z)%Z).
  - symmetry. apply Z.mod_small. lia.
  - rewrite <-(Z.mod_add z 1), Z.mod_small in Hu by lia. lia.
Qed.

(** The unchecked exceptions. *)
Inductive Exn : Type := IllegalArgument | IllegalState | BufferUnderflow.

(** ** [LinkedHashMap] *)
Section linked_hash_map.
Context {K V : Type} `{EqDecision K}.
Implicit Types (m : list (K * V)) (k : K) (v : V).

Fixpoint lhm_get (k : K) (m : list (K * V)) : option V :=
  match m with
  | [] => None
  | (k', v) :: m' => if decide (k' = k) then Some v else lhm_get k m'
  end.

Definition lhm_contains k m : bool := bool_decide (is_Some (lhm_get k m)).

Fixpoint lhm_put (k : K) (v : V) (m : list (K * V)) : list (K * V) :=
  match m with
  | [] => [(k, v)]
  | (k', v') :: m' => if decide (k' = k) then (k, v) :: m' else (k', v') :: lhm_put k v m'
  end.

Definition lhm_remove k m : list (K * V) := filter (λ e, e.1 ≠ k) m.

(** Access order: a read moves the entry to the end. *)
Definition lru_get k m : list (K * V) * option V :=
  match lhm_get k m with
  | Some v => (lhm_remove k m ++ [(k, v)], Some v)
  | None => (m, None)
  end.

(** ... and so does a write; an insertion that passes [cap] drops the eldest. *)
Definition lru_put (cap : Z) k v m : list (K * V) :=
  match lhm_get k m with
  | Some _ => lhm_remove k m ++ [(k, v)]
  | None => let m' := m ++ [(k, v)] in if (cap <? Z.of_nat (length m'))%Z then tail m' else m'
  end.

(** [computeIfPresent] of an access-ordered map. *)
Definition lru_compute k (f : V → V) m : list (K * V) :=
  match lhm_get k m with
  | Some v => lhm_remove k m ++ [(k, f v)]
  | None => m
  end.

Lemma lhm_get_elem k v m : lhm_get k m = Some v → (k, v) ∈ m.
Proof. induction m as [|[k' v'] m IH]; cbn; [done|]. case_decide as Hk; [intros [= ->]; subst; left|right; auto]. Qed.

Lemma lhm_get_None k m : lhm_get k m = None ↔ k ∉ m.*1.
Proof. induction m as [|[k' v'] m IH]; cbn; [set_solver|]. case_decide; set_solver. Qed.

Lemma lhm_get_Some k v m : NoDup m.*1 → lhm_get k m = Some v ↔ (k, v) ∈ m.
Proof.
  intros Hnd. split; [apply lhm_get_elem|]. induction m as [|[k' v'] m IH]; cbn; [set_solver|].
  apply NoDup_cons in Hnd as [Hk Hnd]. intros [[= -> ->]|Hin]%elem_of_cons; [by rewrite decide_True|].
  rewrite decide_False; [auto|]. intros ->. apply Hk, list_elem_of_fmap. by exists (k, v).
Qed.

Lemma lhm_contains_true k m : lhm_contains k m = true ↔ k ∈ m.*1.
Proof.
  unfold lhm_contains. rewrite bool_decide_eq_true, <-not_eq_None_Some, lhm_get_None. split; [|tauto].
  intros Hn. destruct (decide (k ∈ m.*1)); [done|]. by destruct Hn.
Qed.

Lemma lhm_get_remove k k' m : lhm_get k (lhm_remove k' m) = if decide (k = k') then None else lhm_get k m.
Proof.
  unfold lhm_remove. induction m as [|[k1 v1] m IH]; [by case_decide|]. rewrite filter_cons. cbn [fst].
  case_decide as H1; cbn [lhm_get]; repeat case_decide; subst; rewrite ?IH; try done.
  all: cbn; repeat case_decide; done.
Qed.

Lemma lhm_get_app k m1 m2 : lhm_get k (m1 ++ m2) = match lhm_get k m1 with Some v => Some v | None => lhm_get k m2 end.
Proof. induction m1 as [|[k1 v1] m1 IH]; cbn; [done|]. by case_decide. Qed.

Lemma lhm_get_put k k' v m : lhm_get k (lhm_put k' v m) = if decide (k = k') then Some v else lhm_get k m.
Proof.
  induction m as [|[k1 v1] m IH]; cbn; [by repeat case_decide; subst|].
  destruct (decide (k1 = k')) as [->|H1]; cbn.
  - destruct (decide (k' = k)) as [->|]; [by rewrite decide_True|]. by rewrite decide_False by congruence.
  - destruct (decide (k1 = k)) as [->|]; [by rewrite decide_False|exact IH].
Qed.

Lemma lhm_put_fresh k v m : lhm_get k m = None → lhm_put k v m = m ++ [(k, v)].
Proof. induction m as [|[k1 v1] m IH]; cbn; [done|]. case_decide; [done|]. intros Hn. by rewrite IH. Qed.

Lemma lhm_remove_keys k m : (lhm_remove k m).*1 = filter (λ x, x ≠ k) m.*1.
Proof.
  unfold lhm_remove. induction m as [|[k1 v1] m IH]; [done|]. rewrite filter_cons, fmap_cons, filter_cons. cbn [fst].
  by case_decide; rewrite ?fmap_cons, IH.
Qed.

Lemma lhm_remove_NoDup k m : NoDup m.*1 → NoDup (lhm_remove k m).*1.
Proof. rewrite lhm_remove_keys. apply NoDup_filter. Qed.

Lemma lhm_remove_elem k e m : e ∈ lhm_remove k m ↔ e.1 ≠ k ∧ e ∈ m.
Proof. unfold lhm_remove. by rewrite list_elem_of_filter. Qed.

Lemma lhm_remove_absent k m : k ∉ m.*1 → lhm_remove k m = m.
Proof.
  induction m as [|[k1 v1] m IH]; [done|]. rewrite fmap_cons. intros Hk. unfold lhm_remove. rewrite filter_cons, decide_True by set_solver.
  f_equal. apply IH. set_solver.
Qed.

(** ** Access order *)
Lemma lhm_remove_length k v m : NoDup m.*1 → lhm_get k m = Some v → (length (lhm_remove k m) + 1 = length m)%nat.
Proof.
  induction m as [|[k1 v1] m IH]; [done|]. rewrite fmap_cons, NoDup_cons. intros [Hk Hnd]. cbn [lhm_get]. unfold lhm_remove. rewrite filter_cons. cbn [fst] in *.
  destruct (decide (k1 = k)) as [->|Hne].
  - intros _. rewrite decide_False by naive_solver. fold (lhm_remove k m). rewrite lhm_remove_absent by done. cbn. lia.
  - intros Hg. rewrite decide_True by done. cbn. pose proof (IH Hnd Hg) as Hl. unfold lhm_remove in Hl. lia.
Qed.

Lemma moved_NoDup k v m : NoDup m.*1 → NoDup (lhm_remove k m ++ [(k, v)]).*1.
Proof.
  intros Hnd. rewrite fmap_app. apply NoDup_app. split; [by apply lhm_remove_NoDup|]. split; [|repeat constructor; set_solver].
  intros x Hx Hx'. cbn in Hx'. apply list_elem_of_singleton in Hx' as ->. rewrite lhm_remove_keys in Hx.
  by apply list_elem_of_filter in Hx as [? _].
Qed.

Lemma moved_get k v m k' : lhm_get k' (lhm_remove k m ++ [(k, v)]) = if decide (k' = k) then Some v else lhm_get k' m.
Proof.
  rewrite lhm_get_app, lhm_get_remove. cbn. destruct (decide (k' = k)) as [->|]; [by rewrite decide_True|].
  destruct (lhm_get k' m); [done|]. by rewrite decide_False.
Qed.

Lemma lru_get_map k m k' : lhm_get k' (lru_get k m).1 = lhm_get k' m.
Proof. unfold lru_get. destruct (lhm_get k m) eqn:E; cbn; [|done]. rewrite moved_get. case_decide; congruence. Qed.

Lemma lru_get_value k m : (lru_get k m).2 = lhm_get k m.
Proof. unfold lru_get. by destruct (lhm_get k m). Qed.

(** The keys of the map are distinct, and at most [cap]. *)
Definition lru_ok (cap : Z) m : Prop := NoDup m.*1 ∧ (Z.of_nat (length m) ≤ cap)%Z.

Lemma lru_get_ok cap k m : lru_ok cap m → lru_ok cap (lru_get k m).1.
Proof.
  unfold lru_get. intros [Hnd Hl]. destruct (lhm_get k m) as [v|] eqn:E; cbn; [|done]. split; [by apply moved_NoDup|].
  rewrite length_app. pose proof (lhm_remove_length k v m Hnd E). cbn. lia.
Qed.

Lemma lru_compute_ok cap k f m : lru_ok cap m → lru_ok cap (lru_compute k f m).
Proof.
  unfold lru_compute. intros [Hnd Hl]. destruct (lhm_get k m) as [v|] eqn:E; cbn; [|done]. split; [by apply moved_NoDup|].
  rewrite length_app. pose proof (lhm_remove_length k v m Hnd E). cbn. lia.
Qed.

Lemma lru_put_ok cap k v m : (0 < cap)%Z → lru_ok cap m → lru_ok cap (lru_put cap k v m).
Proof.
  unfold lru_put. intros Hc [Hnd Hl]. destruct (lhm_get k m) as [v'|] eqn:E.
  - split; [by apply moved_NoDup|]. rewrite length_app. pose proof (lhm_remove_length k v' m Hnd E). cbn. lia.
  - assert (NoDup (m ++ [(k, v)]).*1) as Hnd'.
    { rewrite fmap_app. apply NoDup_app. split; [done|]. split; [|repeat constructor; set_solver].
      apply lhm_get_None in E. intros x Hx Hx'. cbn in Hx'. apply list_elem_of_singleton in Hx' as ->. done. }
    destruct (Z.ltb_spec cap (Z.of_nat (length (m ++ [(k, v)])))) as [Hlt|Hge]; [|split; [done|lia]].
    rewrite length_app in Hlt. cbn in Hlt. destruct m as [|e m]; cbn in *; [lia|]. split; [by inv Hnd'|].
    rewrite length_app. cbn. lia.
Qed.

(** Without a drop, a write is a write. *)
Lemma lru_put_map cap k v m k' : (Z.of_nat (length m) < cap)%Z ∨ is_Some (lhm_get k m) →
  lhm_get k' (lru_put cap k v m) = if decide (k' = k) then Some v else lhm_get k' m.
Proof.
  intros Hroom. unfold lru_put. destruct (lhm_get k m) as [v'|] eqn:E; [apply moved_get|].
  destruct Hroom as [Hroom|[? ?]]; [|done]. rewrite (proj2 (Z.ltb_ge _ _)) by (rewrite length_app; cbn; lia).
  rewrite lhm_get_app. cbn. destruct (decide (k' = k)) as [->|]; [by rewrite E, decide_True|].
  destruct (lhm_get k' m); [done|]. by rewrite decide_False.
Qed.
End linked_hash_map.

(** ** [ByteBuffer] *)
Definition put_byte (z : Z) : list N := [Z.to_N (z mod 2 ^ 8)].
Definition put_int (z : Z) : list N := to_be_bytes 4 (Z.to_N (z mod 2 ^ 32)).
Definition put_long (z : Z) : list N := to_be_bytes 8 (Z.to_N (unsigned z)).

(** [get(byte[n])]. *)
Definition get_bytes (n : nat) : Reader Exn (list N) := λ buf,
  if (n <=? length buf)%nat then Ok (take n buf, drop n buf) else Err BufferUnderflow.

Definition signed (w : Z) (z : Z) : Z := (if z <? 2 ^ (w - 1) then z else z - 2 ^ w)%Z.
Definition get_byte : Reader Exn Z := bs ← get_bytes 1; mret (signed 8 (Z.of_N (from_be_bytes bs))).
Definition get_int : Reader Exn Z := bs ← get_bytes 4; mret (signed 32 (Z.of_N (from_be_bytes bs))).
Definition get_long : Reader Exn Z := bs ← get_bytes 8; mret (signed 64 (Z.of_N (from_be_bytes bs))).
(** A fixed-length byte array as the number it spells. *)
Definition get_word (n : nat) : Reader Exn N := bs ← get_bytes n; mret (from_be_bytes bs).

(** [buf.remaining()]. *)
Definition remaining : Reader Exn Z := λ buf, Ok (Z.of_nat (length buf), buf).

Definition is_byte (z : Z) : Prop := (- 2 ^ 7 ≤ z < 2 ^ 7)%Z.
Definition is_int (z : Z) : Prop := (- 2 ^ 31 ≤ z < 2 ^ 31)%Z.

Lemma reads_get_bytes bs : reads (get_bytes (length bs)) bs bs.
Proof.
  intros rest. unfold get_bytes. rewrite length_app. replace (_ <=? _)%nat with true by (symmetry; apply Nat.leb_le; lia).
  by rewrite take_app_length, drop_app_length.
Qed.

Lemma reads_spelled (n : nat) (v : N) {A} (f : list N → A) :
  (v < 256 ^ N.of_nat n)%N → reads (bs ← get_bytes n; mret (f bs)) (to_be_bytes n v) (f (to_be_bytes n v)).
Proof.
  intros Hv. eapply reads_bind_ret; [|reflexivity]. pose proof (reads_get_bytes (to_be_bytes n v)) as Hr.
  by rewrite length_to_be_bytes in Hr.
Qed.

Lemma signed_mod (w z : Z) : (0 < w)%Z → (- 2 ^ (w - 1) ≤ z < 2 ^ (w - 1))%Z → signed w (z mod 2 ^ w) = z.
Proof.
  intros Hw Hz. assert (2 ^ w = 2 * 2 ^ (w - 1))%Z as Hp.
  { rewrite <-Z.pow_succ_r by lia. f_equal. lia. }
  unfold signed. destruct (Z.ltb_spec z 0).
  - rewrite <-(Z.mod_add z 1) by lia. rewrite Z.mod_small by lia. destruct (Z.ltb_spec (z + 1 * 2 ^ w) (2 ^ (w - 1))); lia.
  - rewrite Z.mod_small by lia. destruct (Z.ltb_spec z (2 ^ (w - 1))); lia.
Qed.

Lemma reads_signed (n : nat) (w z : Z) :
  w = (8 * Z.of_nat n)%Z → (0 < n)%nat → (- 2 ^ (w - 1) ≤ z < 2 ^ (w - 1))%Z →
  reads (bs ← get_bytes n; mret (signed w (Z.of_N (from_be_bytes bs)))) (to_be_bytes n (Z.to_N (z mod 2 ^ w))) z.
Proof.
  intros Hw Hn Hz. assert (0 ≤ z mod 2 ^ w < 2 ^ w)%Z as Hm by (apply Z.mod_pos_bound; lia).
  assert (Z.to_N (z mod 2 ^ w) < 256 ^ N.of_nat n)%N as Hb.
  { apply N2Z.inj_lt. rewrite Z2N.id by lia. rewrite N2Z.inj_pow, nat_N_Z.
    replace (Z.of_N 256) with (2 ^ 8)%Z by done. rewrite <-Z.pow_mul_r by lia. rewrite <-Hw. lia. }
  pose proof (reads_spelled n _ (λ bs, signed w (Z.of_N (from_be_bytes bs))) Hb) as Hr.
  cbn beta in Hr. rewrite from_to_be, Z2N.id, signed_mod in Hr by lia. exact Hr.
Qed.

Lemma reads_byte z : is_byte z → reads get_byte (put_byte z) z.
Proof.
  intros Hz. pose proof (reads_signed 1 8 z eq_refl ltac:(lia) Hz) as Hr. unfold to_be_bytes in Hr. cbn [to_le_bytes rev app] in Hr.
  rewrite N.mod_small in Hr; [exact Hr|]. apply N2Z.inj_lt. pose proof (Z.mod_pos_bound z (2 ^ 8) ltac:(lia)).
  rewrite Z2N.id by lia. lia.
Qed.

Lemma reads_int z : is_int z → reads get_int (put_int z) z.
Proof. intros Hz. apply (reads_signed 4 32); [done|lia|exact Hz]. Qed.

Lemma reads_long z : is_long z → reads get_long (put_long z) z.
Proof. intros Hz. apply (reads_signed 8 64); [done|lia|]. unfold is_long, long_min, long_max in Hz. lia. Qed.

Lemma reads_word n (v : N) : (v < 256 ^ N.of_nat n)%N → reads (get_word n) (to_be_bytes n v) v.
Proof. intros Hv. pose proof (reads_spelled n v from_be_bytes Hv) as Hr. by rewrite from_to_be in Hr. Qed.

#[export] Hint Resolve reads_byte reads_int reads_long reads_word : codec.
