(* ===== verification/SealerVoid.v ===== *)
(** * The void ledger of the sealer

    Models [VoidLedger.java]: the window of the newest ordered references, slot by
    slot, and the open votes for the removal of one of them. The flat [ids] and
    [senders] arrays are lists with one element per slot. *)
From S2P Require Import Prelude Bytes Java.

Module VoidLedger.
Definition RT_VOID : N := 4.
Definition MAX_VOTERS : Z := 64.
Definition MAX_OPEN_VOTES : Z := 1024.
(** [ENTRY_LEN] and [VOTE_LEN]. *)
Definition ENTRY_LEN : Z := 8 + 32 + 20 + 8.
Definition VOTE_LEN : Z := 16.

Record Config : Type := mkConfig { capacity : Z; voterMask : Z }.

Definition DISABLED : Config := mkConfig 0 0.

(** The constructor of [Config]. *)
Definition config (cap mask : Z) : result Exn Config :=
  if negb (mask =? 0)%Z && (cap <=? 0)%Z then Err IllegalArgument
  else Ok (mkConfig (if (mask =? 0)%Z then 0 else cap) mask).

Record Entry : Type := mkEntry { e_index : Z; e_id : B256; e_sender : Address; e_nonce : Z }.

Inductive Vote : Type := REFUSED | REPEATED | COUNTED | DECIDED.

Record Tally : Type := mkTally { vote : Vote; entry : option Entry }.

Record t : Type := mk {
  cfg : Config;
  indexAt : list Z;
  ids : list B256;
  senders : list Address;
  nonces : list Z;
  votes : list (Z * Z);
}.

Definition new (c : Config) : t :=
  let n := Z.to_nat (capacity c) in
  mk c (replicate n (-1)%Z) (replicate n 0%N) (replicate n 0%N) (replicate n 0%Z) [].

Definition with_votes (l : t) (v : list (Z * Z)) : t := mk (cfg l) (indexAt l) (ids l) (senders l) (nonces l) v.

(** An index on this path is a canonical index, so it is not negative. *)
Definition slot (l : t) (index : Z) : nat := Z.to_nat (Z.rem index (capacity (cfg l))).

Definition onReference (l : t) (index : Z) (id32 : B256) (sender20 : Address) (nonce : Z) : t :=
  if (capacity (cfg l) =? 0)%Z then l
  else
    let s := slot l index in
    mk (cfg l) (<[s := index]> (indexAt l)) (<[s := id32]> (ids l)) (<[s := sender20]> (senders l))
      (<[s := nonce]> (nonces l)) (votes l).

Definition isVoter (l : t) (voterId : Z) : bool :=
  (0 <=? voterId)%Z && (voterId <? MAX_VOTERS)%Z && negb (Z.land (voterMask (cfg l)) (long_shl 1 voterId) =? 0)%Z.

Definition holds (l : t) (index : Z) (hash32 : B256) : bool :=
  if (capacity (cfg l) =? 0)%Z || (index <? 0)%Z then false
  else let s := slot l index in
    bool_decide (indexAt l !! s = Some index) && bool_decide (ids l !! s = Some hash32).

Definition entryAt (l : t) (s : nat) (index : Z) : Entry :=
  mkEntry index (ids l !!! s) (senders l !!! s) (nonces l !!! s).

Definition take_ (l : t) (index : Z) : t * Entry :=
  let s := slot l index in
  (mk (cfg l) (<[s := (-1)%Z]> (indexAt l)) (ids l) (senders l) (nonces l) (votes l), entryAt l s index).

Definition dropVotesBelow (l : t) (oldest : Z) : t := with_votes l (filter (λ e, ¬ (e.1 < oldest)%Z) (votes l)).

Definition onVote (l : t) (voterId index : Z) (hash32 : B256) (canonicalCount : Z) : t * Tally :=
  let l := dropVotesBelow l (long_sub canonicalCount (capacity (cfg l))) in
  if negb (isVoter l voterId) || negb (holds l index hash32) then (l, mkTally REFUSED None)
  else
    let open := lhm_get index (votes l) in
    if bool_decide (open = None) && (MAX_OPEN_VOTES <=? Z.of_nat (length (votes l)))%Z then (l, mkTally REFUSED None)
    else
      let before := default 0%Z open in
      let after := Z.lor before (long_shl 1 voterId) in
      if (Z.land after (voterMask (cfg l)) =? voterMask (cfg l))%Z then
        let '(l', e) := take_ (with_votes l (lhm_remove index (votes l))) index in
        (l', mkTally DECIDED (Some e))
      else if (after =? before)%Z then (l, mkTally REPEATED None)
      else (with_votes l (lhm_put index after (votes l)), mkTally COUNTED None).

Definition payload (e : Entry) : list N :=
  to_be_bytes 32 (e_id e) ++ [RT_VOID] ++ to_le_bytes 8 (Z.to_N (unsigned (e_index e))).

(** ** Snapshot *)
(** [LongStream.range] with its filter. *)
Definition heldIndices (l : t) (canonicalCount : Z) : list Z :=
  let oldest := Z.max 0 (canonicalCount - capacity (cfg l)) in
  filter (λ i, indexAt l !! slot l i = Some i) (seqZ oldest (canonicalCount - oldest)).

Definition writeEntry (e : Entry) : list N :=
  put_long (e_index e) ++ to_be_bytes 32 (e_id e) ++ to_be_bytes 20 (e_sender e) ++ put_long (e_nonce e).

Definition writeTo (l : t) (canonicalCount : Z) : list N :=
  let held := if (capacity (cfg l) =? 0)%Z then [] else heldIndices l canonicalCount in
  put_int (Z.of_nat (length held)) ++
  (held ≫= λ i, writeEntry (entryAt l (slot l i) i)) ++
  put_int (Z.of_nat (length (votes l))) ++
  (votes l ≫= λ v, put_long v.1 ++ put_long v.2).

Definition readEntry : Reader Exn Entry :=
  index ← get_long; id ← get_word 32; sender ← get_word 20; nonce ← get_long;
  mret (mkEntry index id sender nonce).

Definition readVote : Reader Exn (Z * Z) := index ← get_long; mask ← get_long; mret (index, mask).

Definition restoreVote (l : t) (v : Z * Z) : t :=
  let kept := Z.land v.2 (voterMask (cfg l)) in
  if (kept =? 0)%Z then l else with_votes l (lhm_put v.1 kept (votes l)).

(** [count < 0 || count * len > remaining]. *)
Definition checkCount (count len : Z) : Reader Exn () :=
  left ← remaining;
  if (count <? 0)%Z || (left <? count * len)%Z then fail IllegalArgument else mret ().

Definition readFrom (c : Config) : Reader Exn t :=
  entryCount ← get_int;
  _ ← checkCount entryCount ENTRY_LEN;
  entries ← read_many readEntry (Z.to_nat entryCount);
  let l := fold_left (λ l e, onReference l (e_index e) (e_id e) (e_sender e) (e_nonce e)) entries (new c) in
  voteCount ← get_int;
  _ ← checkCount voteCount VOTE_LEN;
  read ← read_many readVote (Z.to_nat voteCount);
  mret (fold_left restoreVote read l).

(** ** Facts *)
(** A decided vote hands out the entry the vote names. *)
Lemma onVote_entry l voterId index hash count :
  match entry (onVote l voterId index hash count).2 with
  | Some e => vote (onVote l voterId index hash count).2 = DECIDED ∧ e_id e = hash
  | None => vote (onVote l voterId index hash count).2 ≠ DECIDED
  end.
Proof.
  unfold onVote. set (l1 := dropVotesBelow l _). destruct (isVoter l1 voterId); [|done]. cbn [negb orb].
  destruct (holds l1 index hash) eqn:Eh; [|done]. cbn [negb].
  destruct (bool_decide _ && _); [done|]. destruct (_ =? _)%Z; [|by destruct (_ =? _)%Z].
  cbn. split; [done|]. unfold holds in Eh. destruct (_ || _); [done|]. apply andb_true_iff in Eh as [_ Eh].
  apply bool_decide_eq_true in Eh. by apply list_lookup_total_correct.
Qed.
End VoidLedger.
