(* ===== verification/SealerVersions.v ===== *)
(** * The replicated settings of the sealer

    Models [RecordedCursors.java], [DecisionRules.java] and [VersionSwitch.java]:
    the record-lag guard, the decision rules a snapshot carries, and the switch
    between the decision versions. The parallel arrays of held activations are
    one list of (origin, time) pairs, oldest first. *)
From S2P Require Import Prelude Bytes Java SealerVoid.

(** ** The recorded cursors *)
Module RecordedCursors.
Definition NONE : Z := -1.
Definition ENTRY_LEN : Z := 9.

Record t : Type := mk { budget : Z; recorded : gmap N Z; best : Z }.

Definition new (b : Z) : t := mk b ∅ NONE.

Definition onCursor (c : t) (executorId : N) (recordedThrough : Z) : t * bool :=
  let m := match recorded c !! executorId with Some old => Z.max old recordedThrough | None => recordedThrough end in
  let c' := mk (budget c) (<[executorId := m]> (recorded c)) (best c) in
  if (recordedThrough <=? best c)%Z then (c', false) else (mk (budget c') (recorded c') recordedThrough, true).

Definition halted (c : t) (lastIndex : Z) : bool :=
  (0 <? budget c)%Z && negb (best c =? NONE)%Z && (budget c <? long_sub lastIndex (best c))%Z.

(** A voter id is below 64, so the count and the ids fit a byte. *)
Definition writeTo (c : t) : list N :=
  put_byte (Z.of_nat (size (recorded c))) ++
  (btree_list (recorded c) ≫= λ e, put_byte (Z.of_N e.1) ++ put_long e.2).

Definition readFrom (b : Z) (isVoter : Z → bool) : Reader Exn t :=
  count ← get_word 1;
  left ← remaining;
  if (left <? Z.of_N count * ENTRY_LEN)%Z then fail IllegalArgument
  else
    read ← read_many (id ← get_word 1; through ← get_long; mret (id, through)) (N.to_nat count);
    mret (fold_left (λ c e, if isVoter (Z.of_N e.1) then (onCursor c e.1 e.2).1 else c) read (new b)).
End RecordedCursors.

(** ** The decision rules *)
Module DecisionRules.
Definition VERSION : Z := 3.
Definition OFF_VERSION : Z := 2.
Definition MAX_HELD : Z := 3.

Record t : Type := mk { activations : list (Z * Z); sealedOrigin : Z }.

Definition start : t := mk [] 0.

Definition atBoundary (r : t) (l1Origin : Z) : t := mk (activations r) l1Origin.

Definition writePair (a : Z * Z) : list N := put_long a.1 ++ put_long a.2.
Definition readPair : Reader Exn (Z * Z) := o ← get_long; ms ← get_long; mret (o, ms).

Definition writeTo (r : t) : list N :=
  put_byte VERSION ++ put_long (sealedOrigin r) ++ put_byte (Z.of_nat (length (activations r))) ++
  (activations r ≫= writePair).

Definition checkVersion (version : Z) : Reader Exn () :=
  if negb (version =? OFF_VERSION)%Z && negb (version =? VERSION)%Z then fail IllegalArgument else mret ().

Definition readFrom : Reader Exn t :=
  version ← get_byte;
  _ ← checkVersion version;
  origin ← get_long;
  count ← get_byte;
  if (count <? 0)%Z || (MAX_HELD <? count)%Z then fail IllegalArgument
  else
    held ← read_many readPair (Z.to_nat count);
    mret (mk held origin).

Definition readVersionThirteen : Reader Exn t :=
  version ← get_byte;
  _ ← checkVersion version;
  origin ← get_long;
  time ← get_long;
  mret (if (origin =? 0)%Z then start else mk [(origin, if (time =? 0)%Z then 1%Z else time)] origin).
End DecisionRules.

(** ** The version switch *)
Module Schedule.
(** Held activations, oldest first. *)
Definition t : Type := list (Z * Z).

Definition newest (h : t) : Z := match last h with Some a => a.1 | None => 0%Z end.

Fixpoint visibleAt (h : t) (l1Origin : Z) : nat :=
  match h with
  | [] => 0
  | (o, _) :: h' => if ule o l1Origin then S (visibleAt h' l1Origin) else 0
  end.

Definition resolvedTime (sealedOrigin : Z) (a : Z * Z) (sealedBlockMs : Z) : Z :=
  if ult sealedOrigin a.1 && (a.2 =? 0)%Z then sealedBlockMs else a.2.

Definition onAt (sealedOrigin : Z) (h : t) (l1Origin sealedBlockMs l2Timestamp : Z) (current : bool) : bool :=
  match visibleAt h l1Origin with
  | O => current
  | S v =>
    match h !! v with
    | Some a => let time := resolvedTime sealedOrigin a sealedBlockMs in
                negb (time =? 0)%Z && ule time l2Timestamp
    | None => current
    end
  end.

Definition settle (sealedOrigin : Z) (h : t) (l1Origin sealedBlockMs : Z) : t :=
  match visibleAt h l1Origin with
  | O => h
  | S v =>
    match drop v h with
    | a :: rest => (a.1, resolvedTime sealedOrigin a sealedBlockMs) :: rest
    | [] => []
    end
  end.

Definition writeTo (h : t) : list N := put_byte (Z.of_nat (length h)) ++ (h ≫= DecisionRules.writePair).

Definition readFrom : Reader Exn t :=
  count ← get_byte;
  if (count <? 0)%Z || (3 <? count)%Z then fail IllegalArgument else read_many DecisionRules.readPair (Z.to_nat count).
End Schedule.

Module VersionSwitch.
Definition OFF_VERSION : Z := 3.
Definition ON_VERSION : Z := 4.
Definition CARRY_VERSION : Z := 5.
Definition FEATURE_SEALER_V4 : Z := 3.
Definition FEATURE_SEALER_V5 : Z := 4.
Definition FEATURE_CARRY_WINDOW : Z := 5.
Definition MAX_HELD : nat := 3.

Inductive Outcome : Type := IGNORED | STORED | STORED_LATE | MISSED | FULL | EARLY | UNSUPPORTED.

Record FeatureActivation : Type := mkActivation { fa_l1Origin : Z; featureId : Z; activationMs : Z }.

Record t : Type := mk {
  v4 : Schedule.t;
  carry : Schedule.t;
  window : Schedule.t;
  carryWindow : bool;
  fileStore : bool;
  sealedOrigin : Z;
  version : Z;
}.

Definition start : t := mk [] [] [] false false 0 OFF_VERSION.

Definition holdsActivation (s : t) : bool := negb (bool_decide (v4 s = [])) || negb (bool_decide (carry s = [])).
Definition holdsCarryActivation (s : t) : bool := negb (bool_decide (carry s = [])).
Definition holdsWindowActivation (s : t) : bool := negb (bool_decide (window s = [])).
Definition carryWindowRules (s : t) : bool := carryWindow s && (version s =? CARRY_VERSION)%Z.

Definition set_fileStore (s : t) (file : bool) : t :=
  mk (v4 s) (carry s) (window s) (carryWindow s) file (sealedOrigin s) (version s).

(** Which schedule a feature has. *)
Inductive Which : Type := V4 | CARRY | WINDOW.

Definition scheduleOf (featureId : Z) : option Which :=
  if (featureId =? FEATURE_SEALER_V4)%Z then Some V4
  else if (featureId =? FEATURE_SEALER_V5)%Z then Some CARRY
  else if (featureId =? FEATURE_CARRY_WINDOW)%Z then Some WINDOW else None.

Definition schedule (s : t) (w : Which) : Schedule.t :=
  match w with V4 => v4 s | CARRY => carry s | WINDOW => window s end.

Definition set_schedule (s : t) (w : Which) (h : Schedule.t) : t :=
  match w with
  | V4 => mk h (carry s) (window s) (carryWindow s) (fileStore s) (sealedOrigin s) (version s)
  | CARRY => mk (v4 s) h (window s) (carryWindow s) (fileStore s) (sealedOrigin s) (version s)
  | WINDOW => mk (v4 s) (carry s) h (carryWindow s) (fileStore s) (sealedOrigin s) (version s)
  end.

Definition onActivation (s : t) (activation : FeatureActivation) (stateOrigin openBlockMs : Z) : t * Outcome :=
  match scheduleOf (featureId activation) with
  | None => (s, IGNORED)
  | Some which =>
    let h := schedule s which in
    let origin := fa_l1Origin activation in
    if ule origin (Schedule.newest h) then (s, IGNORED)
    else if negb (stateOrigin =? 0)%Z && ult origin stateOrigin then (s, MISSED)
    else if negb (stateOrigin =? 0)%Z && negb (origin =? stateOrigin)%Z && negb (origin =? long_add stateOrigin 1)%Z
    then (s, IGNORED)
    else if match which with WINDOW => fileStore s | _ => false end then (s, UNSUPPORTED)
    else if match which with
            | CARRY => (version s <? ON_VERSION)%Z
            | WINDOW => negb (version s =? CARRY_VERSION)%Z
            | V4 => false
            end then (s, EARLY)
    else if (length h =? MAX_HELD)%nat then (s, FULL)
    else
      let late := ule origin (sealedOrigin s) in
      let time := activationMs activation in
      (set_schedule s which (h ++ [(origin, if late && (time =? 0)%Z then openBlockMs else time)]),
       if late then STORED_LATE else STORED)
  end.

Definition versionAtBoundary (s : t) (l1Origin sealedBlockMs l2Timestamp : Z) : Z :=
  if negb (Schedule.onAt (sealedOrigin s) (v4 s) l1Origin sealedBlockMs l2Timestamp (ON_VERSION <=? version s)%Z)
  then OFF_VERSION
  else if Schedule.onAt (sealedOrigin s) (carry s) l1Origin sealedBlockMs l2Timestamp (version s =? CARRY_VERSION)%Z
  then CARRY_VERSION else ON_VERSION.

Definition atBoundary (s : t) (l1Origin sealedBlockMs l2Timestamp : Z) : t * bool :=
  let due := versionAtBoundary s l1Origin sealedBlockMs l2Timestamp in
  let settled h := Schedule.settle (sealedOrigin s) h l1Origin sealedBlockMs in
  (mk (settled (v4 s)) (settled (carry s)) (settled (window s))
     (Schedule.onAt (sealedOrigin s) (window s) l1Origin sealedBlockMs l2Timestamp (carryWindow s))
     (fileStore s) l1Origin due,
   negb (due =? version s)%Z).

Definition writeTo (s : t) : list N := put_byte (version s) ++ put_long (sealedOrigin s) ++ Schedule.writeTo (v4 s).
Definition writeCarryTo (s : t) : list N := Schedule.writeTo (carry s).
Definition writeWindowTo (s : t) : list N := put_byte (if carryWindow s then 1 else 0) ++ Schedule.writeTo (window s).

Definition versionOf (v : Z) : Reader Exn Z :=
  if (v <? OFF_VERSION)%Z || (CARRY_VERSION <? v)%Z then fail IllegalArgument else mret v.

Definition flagOf (f : Z) : Reader Exn bool :=
  if negb (f =? 0)%Z && negb (f =? 1)%Z then fail IllegalArgument else mret (f =? 1)%Z.

Definition readFrom : Reader Exn t :=
  b ← get_byte;
  v ← versionOf b;
  origin ← get_long;
  h ← Schedule.readFrom;
  mret (mk h [] [] false false origin v).

Definition readCarryFrom (s : t) : Reader Exn t := h ← Schedule.readFrom; mret (set_schedule s CARRY h).

Definition readWindowFrom (s : t) : Reader Exn t :=
  b ← get_byte;
  f ← flagOf b;
  h ← Schedule.readFrom;
  mret (mk (v4 s) (carry s) h f (fileStore s) (sealedOrigin s) (version s)).
End VersionSwitch.
