(* ===== verification/SealerWindows.v ===== *)
(** * The replay windows of the sealer

    Models [SessionWindows.java]: one sliding bitmap for each ingress image, in a
    fixed set of slots that an open-address hash table finds. The arrays are lists
    read and written at an index; a slot without its bitmap holds the empty list.
    The probe loops take the table size as fuel, which is enough while the table
    has an empty entry: at most [slots] of its [2 * slots] entries are taken. *)
From S2P Require Import Prelude Bytes Java.

(** An element of an array. *)
Definition aget {A} `{!Inhabited A} (l : list A) (i : Z) : A := l !!! Z.to_nat i.
Definition aset {A} (i : Z) (x : A) (l : list A) : list A := <[Z.to_nat i := x]> l.

Module SessionWindows.
Inductive Seen : Type := FRESH | DUPLICATE | EXPIRED.

Definition UNIT_SHIFT : Z := 5.
Definition DEFAULT_SLOTS : Z := 256.
Definition DEFAULT_WIDTH : Z := 2 ^ 18.
Definition WORD_SHIFT : Z := 6.

Record t : Type := mk {
  slots : Z;
  width : Z;
  keys : list Z;
  highest : list Z;
  lastSeen : list Z;
  bits : list (list Z);
  table : list Z;
  used : Z;
  checkedSlot : Z;
  checkedUnit : Z;
}.

Definition wordsPerSlot (w : t) : Z := Z.shiftr (width w) WORD_SHIFT.
Definition tableMask (w : t) : Z := slots w * 2 - 1.

(** [Integer.bitCount(n) == 1], for the small positive settings. *)
Definition is_power_of_two (n : Z) : bool := (0 <? n)%Z && (Z.land n (n - 1) =? 0)%Z.

Definition new (slots width : Z) : result Exn t :=
  if negb (is_power_of_two slots) || negb (is_power_of_two width) || (width <? 64)%Z then Err IllegalArgument
  else
    let n := Z.to_nat slots in
    Ok (mk slots width (replicate n (-1)%Z) (replicate n 0%Z) (replicate n 0%Z) (replicate n [])
          (replicate (2 * n) (-1)%Z) 0 0 0).

(** ** The hash table *)
Definition keyOf (lane session : Z) : Z := Z.lor (Z.shiftl (Z.land lane 0xFF) 32) (Z.land session 0xFFFFFFFF).

Definition hash (w : t) (key : Z) : Z :=
  let z := to_long (key * to_long 0x9E3779B97F4A7C15) in
  Z.land (Z.lxor z (Z.shiftr (unsigned z) 32)) (tableMask w).

Definition next (w : t) (i : Z) : Z := Z.land (i + 1) (tableMask w).

Definition with_table (w : t) (tb : list Z) : t :=
  mk (slots w) (width w) (keys w) (highest w) (lastSeen w) (bits w) tb (used w) (checkedSlot w) (checkedUnit w).

(** [while (table[i] >= 0 && keys[table[i]] != key) i = next(i)]. *)
Fixpoint find_from (fuel : nat) (w : t) (key i : Z) : Z :=
  match fuel with
  | O => i
  | S fuel' =>
    if (0 <=? aget (table w) i)%Z && negb (aget (keys w) (aget (table w) i) =? key)%Z
    then find_from fuel' w key (next w i) else i
  end.

Definition find (w : t) (key : Z) : Z := aget (table w) (find_from (length (table w)) w key (hash w key)).

Fixpoint insert_from (fuel : nat) (w : t) (i : Z) : Z :=
  match fuel with
  | O => i
  | S fuel' => if (0 <=? aget (table w) i)%Z then insert_from fuel' w (next w i) else i
  end.

Definition insert (w : t) (key slot : Z) : t :=
  with_table w (aset (insert_from (length (table w)) w (hash w key)) slot (table w)).

(** The table and the new hole. *)
Definition shiftBack (w : t) (hole i : Z) : t * Z :=
  let home := hash w (aget (keys w) (aget (table w) i)) in
  let movable := (Z.land (i - hole) (tableMask w) <=? Z.land (i - home) (tableMask w))%Z in
  if negb movable then (w, hole)
  else (with_table w (aset i (-1)%Z (aset hole (aget (table w) i) (table w))), i).

(** [for (int i = next(hole); table[i] >= 0; i = next(i)) hole = shiftBack(hole, i)]. *)
Fixpoint shift_loop (fuel : nat) (w : t) (hole i : Z) : t :=
  match fuel with
  | O => w
  | S fuel' =>
    if (0 <=? aget (table w) i)%Z
    then let '(w', hole') := shiftBack w hole i in shift_loop fuel' w' hole' (next w i)
    else w
  end.

(** [while (keys[table[hole]] != key) hole = next(hole)]. *)
Fixpoint locate (fuel : nat) (w : t) (key i : Z) : Z :=
  match fuel with
  | O => i
  | S fuel' => if negb (aget (keys w) (aget (table w) i) =? key)%Z then locate fuel' w key (next w i) else i
  end.

Definition remove (w : t) (key : Z) : t :=
  let hole := locate (length (table w)) w key (hash w key) in
  shift_loop (length (table w)) (with_table w (aset hole (-1)%Z (table w))) hole (next w hole).

(** ** The slots *)
Definition oldest_slot (w : t) : Z :=
  fold_left (λ oldest s, if (aget (lastSeen w) s <? aget (lastSeen w) oldest)%Z then s else oldest)
    (seqZ 1 (slots w - 1)) 0%Z.

Definition evictSilent (w : t) : t * Z :=
  let oldest := oldest_slot w in
  (remove w (aget (keys w) oldest), oldest).

Definition slotOf (w : t) (key : Z) : t * Z :=
  let found := find w key in
  if (0 <=? found)%Z then (w, found)
  else
    let '(w1, slot) :=
      if (used w <? slots w)%Z
      then (mk (slots w) (width w) (keys w) (highest w) (lastSeen w) (bits w) (table w) (used w + 1)
              (checkedSlot w) (checkedUnit w), used w)
      else evictSilent w in
    let w2 := mk (slots w1) (width w1) (aset slot key (keys w1)) (aset slot (-1)%Z (highest w1)) (lastSeen w1)
                (aset slot (replicate (Z.to_nat (wordsPerSlot w1)) 0%Z) (bits w1)) (table w1) (used w1)
                (checkedSlot w1) (checkedUnit w1) in
    (insert w2 key slot, slot).

(** ** The bitmaps *)
Definition wordOf (w : t) (unit : Z) : Z := Z.shiftr (Z.land unit (width w - 1)) WORD_SHIFT.

(** [-1L >>> (63 - (unit & 63))]. *)
Definition mask_through (unit : Z) : Z := to_long (Z.shiftr (unsigned (-1)) (63 - Z.land unit 63)).

Definition clearRange (w : t) (window : list Z) (word mask : Z) : list Z :=
  let i := Z.land word (wordsPerSlot w - 1) in aset i (Z.land (aget window i) (Z.lnot mask)) window.

(** [Arrays.fill(window, from, to, 0L)]. *)
Definition fill_zero (from to : Z) (window : list Z) : list Z :=
  imap (λ i x, if (from <=? Z.of_nat i)%Z && (Z.of_nat i <? to)%Z then 0%Z else x) window.

Definition clearWords (w : t) (window : list Z) (from to : Z) : list Z :=
  let start := Z.land from (wordsPerSlot w - 1) in
  let end_ := (start + (to - from))%Z in
  if (end_ <=? wordsPerSlot w)%Z then fill_zero start end_ window
  else fill_zero 0 (end_ - wordsPerSlot w) (fill_zero start (wordsPerSlot w) window).

Definition clearAbove (w : t) (window : list Z) (top unit : Z) : list Z :=
  if (width w <=? unit - top)%Z then fill_zero 0 (Z.of_nat (length window)) window
  else
    let first := (top + 1)%Z in
    let firstWord := Z.shiftr first WORD_SHIFT in
    let lastWord := Z.shiftr unit WORD_SHIFT in
    if (firstWord =? lastWord)%Z
    then clearRange w window firstWord (Z.land (long_shl (-1) first) (mask_through unit))
    else
      let a := clearRange w window firstWord (long_shl (-1) first) in
      let b := clearWords w a (firstWord + 1) lastWord in
      clearRange w b lastWord (mask_through unit).

(** ** The decisions *)
Definition check (w : t) (lane session position now : Z) : t * Seen :=
  let '(w1, slot) := slotOf w (keyOf lane session) in
  let unit := Z.shiftr (unsigned position) UNIT_SHIFT in
  let w2 := mk (slots w1) (width w1) (keys w1) (highest w1) (aset slot now (lastSeen w1)) (bits w1) (table w1)
              (used w1) slot unit in
  let top := aget (highest w2) slot in
  if (width w2 <=? top - unit)%Z then (w2, EXPIRED)
  else
    let seen := (unit <=? top)%Z && negb (Z.land (aget (aget (bits w2) slot) (wordOf w2 unit)) (long_shl 1 unit) =? 0)%Z in
    (w2, if seen then DUPLICATE else FRESH).

Definition mark (w : t) : t :=
  let slot := checkedSlot w in
  let unit := checkedUnit w in
  let window := aget (bits w) slot in
  let top := aget (highest w) slot in
  let '(window1, top1) := if (top <? unit)%Z then (clearAbove w window top unit, unit) else (window, top) in
  let i := wordOf w unit in
  let window2 := aset i (Z.lor (aget window1 i) (long_shl 1 unit)) window1 in
  mk (slots w) (width w) (keys w) (aset slot top1 (highest w)) (lastSeen w) (aset slot window2 (bits w)) (table w)
    (used w) (checkedSlot w) (checkedUnit w).

Definition offer (w : t) (lane session position now : Z) : t * Seen :=
  let '(w', seen) := check w lane session position now in
  (match seen with FRESH => mark w' | _ => w' end, seen).

(** ** Snapshot *)
Definition writeSlot (w : t) (s : Z) : list N :=
  put_long (aget (keys w) s) ++ put_long (aget (highest w) s) ++ put_long (aget (lastSeen w) s) ++
  (aget (bits w) s ≫= put_long).

Definition writeTo (w : t) : list N :=
  put_int (slots w) ++ put_int (width w) ++ put_int (used w) ++ (seqZ 0 (used w) ≫= writeSlot w).

Definition readSlot (words : nat) : Reader Exn (Z * Z * Z * list Z) :=
  key ← get_long; high ← get_long; seen ← get_long; bs ← read_many get_long words; mret (key, high, seen, bs).

Definition loadSlot (w : t) (e : Z * Z * Z * list Z) : t :=
  let '(key, high, seen, bs) := e in
  let s := used w in
  insert (mk (slots w) (width w) (aset s key (keys w)) (aset s high (highest w)) (aset s seen (lastSeen w))
            (aset s bs (bits w)) (table w) (s + 1) (checkedSlot w) (checkedUnit w)) key s.

Definition readFrom (slots' width' : Z) : Reader Exn t :=
  snapSlots ← get_int;
  snapWidth ← get_int;
  if negb (snapSlots =? slots')%Z || negb (snapWidth =? width')%Z then fail IllegalState
  else
    match new slots' width' with
    | Err e => fail e
    | Ok w =>
      count ← get_int;
      if (count <? 0)%Z || (slots' <? count)%Z then fail IllegalArgument
      else
        read ← read_many (readSlot (Z.to_nat (wordsPerSlot w))) (Z.to_nat count);
        mret (fold_left loadSlot read w)
    end.
End SessionWindows.
