(* ===== verification/SealerTable.v ===== *)
(** * The hash table of the replay windows

    The open-address table of [SessionWindows.java]: what [find], [insert] and
    [remove] do to the set of the slots it finds. Positions are all the integers,
    read around the ring, so a probe is an interval. *)
From S2P Require Import Prelude Bytes Java SealerWindows.

Module WindowTable.
Import SessionWindows.

Definition size (w : t) : Z := slots w * 2.
(** The entry at a position of the ring. *)
Definition at_ (w : t) (p : Z) : Z := aget (table w) (p mod size w).
Definition key_of_slot (w : t) (s : Z) : Z := aget (keys w) s.
Definition home (w : t) (s : Z) : Z := hash w (key_of_slot w s).

Record sized (w : t) : Prop := {
  sz_slots : ∃ k, (0 ≤ k)%Z ∧ slots w = (2 ^ k)%Z;
  sz_table : Z.of_nat (length (table w)) = size w;
}.

(** The table finds the slots of [U]: each by one entry, with no empty entry
    between its home and that entry. *)
Record table_ok (w : t) (U : Z → Prop) : Prop := {
  to_sized : sized w;
  to_range : ∀ s, U s → (0 ≤ s < slots w)%Z;
  to_in : ∀ p, (0 ≤ at_ w p)%Z → U (at_ w p);
  to_inj : ∀ p q, (0 ≤ at_ w p)%Z → at_ w p = at_ w q → (p mod size w = q mod size w)%Z;
  to_onto : ∀ s, U s → ∃ p, at_ w p = s;
  to_path : ∀ p q, (0 ≤ at_ w p)%Z → (p - (p - home w (at_ w p)) mod size w ≤ q < p)%Z → (0 ≤ at_ w q)%Z;
  to_keys : ∀ s s', U s → U s' → key_of_slot w s = key_of_slot w s' → s = s';
}.

Section ring.
Context (w : t) (Hsz : sized w).

Lemma slots_pos : (0 < slots w)%Z.
Proof. destruct Hsz as [(k & Hk & ->) _]. by apply Z.pow_pos_nonneg. Qed.

Lemma size_pos : (0 < size w)%Z.
Proof. pose proof slots_pos. unfold size. lia. Qed.

Lemma mask_mod x : Z.land x (tableMask w) = (x mod size w)%Z.
Proof.
  unfold tableMask, size. destruct Hsz as [(k & Hk & ->) _].
  replace (2 ^ k * 2)%Z with (2 ^ (k + 1))%Z by (rewrite Z.pow_add_r; lia).
  rewrite <-Z.land_ones, Z.ones_equiv by lia. done.
Qed.

Lemma next_mod p : next w (p mod size w) = ((p + 1) mod size w)%Z.
Proof. unfold next. rewrite mask_mod. apply Zplus_mod_idemp_l. Qed.

Lemma hash_mod key : hash w key = (hash w key mod size w)%Z.
Proof. unfold hash. rewrite !mask_mod. by rewrite Zmod_mod. Qed.

(** Two positions of one entry that are less than a round apart. *)
Lemma mod_near p q : (p mod size w = q mod size w)%Z → (- size w < p - q < size w)%Z → p = q.
Proof.
  intros He Hd. pose proof size_pos as Hn. apply Z.cong_iff_0 in He. apply Z.mod_divide in He as [k Hk]; [|lia].
  assert (k = 0)%Z by nia. nia.
Qed.

Lemma at_round p : at_ w (p mod size w) = at_ w p.
Proof. unfold at_. by rewrite Zmod_mod. Qed.

Lemma at_cong p q : (p mod size w = q mod size w)%Z → at_ w p = at_ w q.
Proof. unfold at_. by intros ->. Qed.

Lemma at_set p x q : at_ (with_table w (aset (p mod size w) x (table w))) q =
  if decide (q mod size w = p mod size w)%Z then x else at_ w q.
Proof.
  unfold at_, size, aget, aset. cbn [table slots with_table]. fold (size w). pose proof size_pos as Hn. destruct Hsz as [_ Hl].
  pose proof (Z.mod_pos_bound p (size w) Hn). pose proof (Z.mod_pos_bound q (size w) Hn). unfold size in *.
  destruct (decide (_ = _)) as [->|Hne].
  - rewrite list_lookup_total_insert_eq; [done|]. lia.
  - rewrite list_lookup_total_insert_ne; [done|]. lia.
Qed.

Lemma sized_table tb : length tb = length (table w) → sized (with_table w tb).
Proof. intros El. destruct Hsz. split; [done|]. by cbn [table slots with_table]; rewrite El. Qed.

(** ** The probes *)
Lemma find_from_spec key fuel p d : (0 ≤ d < Z.of_nat fuel)%Z →
  (∀ q, (p ≤ q < p + d)%Z → (0 ≤ at_ w q)%Z ∧ key_of_slot w (at_ w q) ≠ key) →
  (at_ w (p + d) < 0)%Z ∨ key_of_slot w (at_ w (p + d)) = key →
  find_from fuel w key (p mod size w) = ((p + d) mod size w)%Z.
Proof.
  revert p d. induction fuel as [|fuel IH]; intros p d Hd Hq He; [lia|]. cbn [find_from]. fold (at_ w p). fold (key_of_slot w (at_ w p)).
  destruct (decide (d = 0)%Z) as [->|Hd0].
  - rewrite Z.add_0_r in *. replace (_ && _) with false; [done|]. symmetry. apply andb_false_iff.
    destruct He as [He|He]; [left; lia|right]. apply negb_false_iff. lia.
  - destruct (Hq p) as [H1 H2]; [lia|]. rewrite (proj2 (Z.leb_le _ _) H1). rewrite (proj2 (Z.eqb_neq _ _) H2). cbn.
    rewrite next_mod, (IH (p + 1)%Z (d - 1)%Z); [f_equal; lia|lia| |].
    + intros q Hq'. apply Hq. lia.
    + by replace (p + 1 + (d - 1))%Z with (p + d)%Z by lia.
Qed.

Lemma insert_from_spec fuel p d : (0 ≤ d < Z.of_nat fuel)%Z →
  (∀ q, (p ≤ q < p + d)%Z → (0 ≤ at_ w q)%Z) → (at_ w (p + d) < 0)%Z →
  insert_from fuel w (p mod size w) = ((p + d) mod size w)%Z.
Proof.
  revert p d. induction fuel as [|fuel IH]; intros p d Hd Hq He; [lia|]. cbn [insert_from]. fold (at_ w p).
  destruct (decide (d = 0)%Z) as [->|Hd0].
  - rewrite Z.add_0_r in *. by rewrite (proj2 (Z.leb_gt _ _) He).
  - rewrite (proj2 (Z.leb_le _ _)) by (apply Hq; lia).
    rewrite next_mod, (IH (p + 1)%Z (d - 1)%Z); [f_equal; lia|lia| |].
    + intros q Hq'. apply Hq. lia.
    + by replace (p + 1 + (d - 1))%Z with (p + d)%Z by lia.
Qed.

Lemma locate_spec key fuel p d : (0 ≤ d < Z.of_nat fuel)%Z →
  (∀ q, (p ≤ q < p + d)%Z → key_of_slot w (at_ w q) ≠ key) → key_of_slot w (at_ w (p + d)) = key →
  locate fuel w key (p mod size w) = ((p + d) mod size w)%Z.
Proof.
  revert p d. induction fuel as [|fuel IH]; intros p d Hd Hq He; [lia|]. cbn [locate]. fold (at_ w p). fold (key_of_slot w (at_ w p)).
  destruct (decide (d = 0)%Z) as [->|Hd0].
  - rewrite Z.add_0_r in *. by rewrite (proj2 (Z.eqb_eq _ _) He).
  - rewrite (proj2 (Z.eqb_neq _ _)) by (apply Hq; lia). cbn.
    rewrite next_mod, (IH (p + 1)%Z (d - 1)%Z); [f_equal; lia|lia| |].
    + intros q Hq'. apply Hq. lia.
    + by replace (p + 1 + (d - 1))%Z with (p + d)%Z by lia.
Qed.
End ring.

(** The first number with a property. *)
Lemma first_such (P : Z → Prop) `{!∀ z, Decision (P z)} (n : Z) :
  (∃ d, (0 ≤ d < n)%Z ∧ P d) → ∃ d, (0 ≤ d < n)%Z ∧ P d ∧ ∀ e, (0 ≤ e < d)%Z → ¬ P e.
Proof.
  intros (d & Hd & HP). revert HP. induction (Z.lt_wf 0 d) as [d _ IH]. intros HP.
  destruct (decide (Exists P (seqZ 0 d))) as [Hex|Hnone].
  - apply Exists_exists in Hex as (e & He%elem_of_seqZ & HPe). apply (IH e); [lia|lia|done].
  - exists d. split; [done|]. split; [done|]. intros e He HPe. apply Hnone, Exists_exists. exists e.
    split; [|done]. apply elem_of_seqZ. lia.
Qed.

Section lookup.
Context (w : t) (U : Z → Prop) (Hok : table_ok w U).

Local Lemma Hsz : sized w.
Proof. by destruct Hok. Qed.
Local Hint Resolve Hsz : core.

(** There is an empty entry in a round. *)
Lemma has_empty p : ∃ d, (0 ≤ d < size w)%Z ∧ (at_ w (p + d) < 0)%Z.
Proof.
  pose proof (slots_pos w Hsz) as Hs. pose proof (size_pos w Hsz) as Hn. destruct (decide (Forall (λ d, 0 ≤ at_ w (p + d))%Z (seqZ 0 (size w)))) as [Hall|Hnone].
  - exfalso. rewrite Forall_forall in Hall.
    assert (NoDup ((λ d, at_ w (p + d)) <$> seqZ 0 (size w))) as Hnd.
    { apply NoDup_fmap_2_strong; [|apply NoDup_seqZ]. intros x y Hx Hy He. pose proof (Hall _ Hx) as H1.
      apply elem_of_seqZ in Hx, Hy. apply (to_inj w U Hok) in He; [|done]. apply mod_near in He; [lia|done|lia]. }
    assert ((λ d, at_ w (p + d)) <$> seqZ 0 (size w) ⊆ seqZ 0 (slots w)) as Hsub.
    { intros x (d & -> & Hd)%list_elem_of_fmap. apply elem_of_seqZ.
      pose proof (to_range w U Hok _ (to_in w U Hok _ (Hall _ Hd))). lia. }
    pose proof (submseteq_length _ _ (NoDup_submseteq _ _ Hnd Hsub)) as Hl. rewrite length_fmap, !length_seqZ in Hl.
    unfold size in Hl. lia.
  - apply not_Forall_Exists in Hnone; [|solve_decision]. apply Exists_exists in Hnone as (d & Hd%elem_of_seqZ & Hneg).
    exists d. cbn in Hneg. split; lia.
Qed.

(** The position of a slot, as a distance from its home. *)
Lemma slot_dist s : U s → ∃ d, (0 ≤ d < size w)%Z ∧ at_ w (home w s + d) = s ∧
  ∀ q, (home w s ≤ q < home w s + d)%Z → (0 ≤ at_ w q)%Z ∧ at_ w q ≠ s.
Proof.
  intros Hs. destruct (to_onto w U Hok s Hs) as [p Hp]. pose proof (size_pos w Hsz) as Hn.
  pose proof (to_range w U Hok s Hs) as Hr. set (d := ((p - home w s) mod size w)%Z).
  pose proof (Z.mod_pos_bound (p - home w s) (size w) Hn) as Hd. fold d in Hd.
  assert (((home w s + d) mod size w = p mod size w)%Z) as Hc.
  { unfold d. rewrite Zplus_mod_idemp_r. f_equal. lia. }
  assert (at_ w (home w s + d) = s) as Ha by by rewrite (at_cong w _ _ Hc).
  exists d. split; [done|]. split; [done|]. intros q Hq.
  assert ((home w s + d - home w s) mod size w = d)%Z as Hm by (rewrite Z.mod_small; lia).
  split.
  - apply (to_path w U Hok (home w s + d)); rewrite ?Ha; [lia|]. rewrite Hm. lia.
  - intros He. rewrite <-Ha in He. apply (to_inj w U Hok) in He; [|rewrite He, Ha; lia].
    apply mod_near in He; [lia|done|lia].
Qed.

Lemma find_found s : U s → find w (key_of_slot w s) = s.
Proof.
  intros Hs. destruct (slot_dist s Hs) as (d & Hd & Ha & Hq). unfold find.
  rewrite (hash_mod w Hsz), (find_from_spec w Hsz _ _ _ d).
  - apply Ha.
  - destruct Hsz as [_ Hl]. lia.
  - intros q Hq'. destruct (Hq q Hq') as [H1 H2]. split; [done|]. intros He. apply H2.
    apply (to_keys w U Hok); [by apply (to_in w U Hok)|done|done].
  - right. f_equal. apply Ha.
Qed.

Lemma find_absent key : (∀ s, U s → key_of_slot w s ≠ key) → (find w key < 0)%Z.
Proof.
  intros Hn. destruct (first_such (λ d, at_ w (hash w key + d) < 0)%Z (size w) (has_empty _)) as (d & Hd & He & Hf).
  unfold find. rewrite (hash_mod w Hsz), (find_from_spec w Hsz _ _ _ d).
  - apply He.
  - destruct Hsz as [_ Hl]. lia.
  - intros q Hq. assert (0 ≤ at_ w q)%Z as Hp.
    { specialize (Hf (q - hash w key)%Z). replace (hash w key + (q - hash w key))%Z with q in Hf by lia. lia. }
    split; [done|]. apply Hn. by apply (to_in w U Hok).
  - by left.
Qed.

(** ** Insertion *)
Lemma insert_ok key s : ¬ U s → (0 ≤ s < slots w)%Z → key_of_slot w s = key → (∀ s', U s' → key_of_slot w s' ≠ key) →
  table_ok (insert w key s) (λ x, U x ∨ x = s).
Proof.
  intros Hs Hr Hk Hnew. pose proof (size_pos w Hsz) as Hn.
  destruct (first_such (λ d, at_ w (hash w key + d) < 0)%Z (size w) (has_empty _)) as (d & Hd & He & Hf).
  assert (∀ q, (hash w key ≤ q < hash w key + d)%Z → (0 ≤ at_ w q)%Z) as Hpath.
  { intros q Hq. specialize (Hf (q - hash w key)%Z). replace (hash w key + (q - hash w key))%Z with q in Hf by lia. lia. }
  unfold insert. rewrite (hash_mod w Hsz) at 1. rewrite (insert_from_spec w Hsz _ _ d); [|destruct Hsz as [_ ?]; lia|done|done].
  set (p0 := (hash w key + d)%Z) in *. set (w' := with_table _ _).
  assert (∀ q, at_ w' q = if decide (q mod size w = p0 mod size w)%Z then s else at_ w q) as Hat by (intros; by apply at_set).
  assert (∀ q, (0 ≤ at_ w q)%Z → (q mod size w ≠ p0 mod size w)%Z) as Hfree.
  { intros q Hq Hc. rewrite (at_cong w _ _ Hc) in Hq. lia. }
  split.
  - apply sized_table; [done|]. unfold aset. by rewrite length_insert.
  - intros x [Hx| ->]; [by apply (to_range w U Hok)|done].
  - intros p. rewrite Hat. destruct (decide _); [by right|]. left. by apply (to_in w U Hok).
  - intros p q. rewrite !Hat. change (size w') with (size w). destruct (decide _) as [Hp|Hp], (decide _) as [Hq|Hq]; intros H0 H1.
    + congruence.
    + destruct Hs. rewrite H1. apply (to_in w U Hok). lia.
    + destruct Hs. rewrite <-H1. by apply (to_in w U Hok).
    + by apply (to_inj w U Hok).
  - intros x [Hx| ->].
    + destruct (to_onto w U Hok x Hx) as [p Hp]. exists p. rewrite Hat. rewrite decide_False; [done|]. apply Hfree.
      pose proof (to_range w U Hok x Hx). lia.
    + exists p0. rewrite Hat. by rewrite decide_True.
  - intros p q. rewrite !Hat. change (size w') with (size w). change (home w') with (home w).
    destruct (decide (q mod _ = _)%Z); [lia|]. destruct (decide (p mod _ = _)%Z) as [Hp|Hp]; [|apply (to_path w U Hok)].
    unfold home at 1. rewrite Hk. intros _ Hq.
    assert ((p - hash w key) mod size w = d)%Z as Hm.
    { rewrite Zminus_mod, Hp. unfold p0. rewrite <-Zminus_mod. replace (hash w key + d - hash w key)%Z with d by lia. by rewrite Z.mod_small. }
    rewrite Hm in Hq. rewrite (at_cong w q (q - p + p0)); [apply Hpath; unfold p0; lia|].
    rewrite <-(Zplus_mod_idemp_r p0), <-Hp, Zplus_mod_idemp_r. f_equal. lia.
  - intros x y. change (key_of_slot w') with (key_of_slot w).
    intros [Hx| ->] [Hy| ->] Hxy; [by apply (to_keys w U Hok)| | |done].
    + by destruct (Hnew x Hx); rewrite Hxy.
    + by destruct (Hnew y Hy); rewrite <-Hxy.
Qed.
End lookup.

(** ** Removal *)
(** The loop after [s0] left its entry at [H]. [E] is the first empty entry after
    it. The entries are those of [w] without [s0], those from [i] on have not moved,
    and a probe meets one empty entry at most: the hole, on its way to an entry
    that is not visited yet. *)
Record shifting (w : t) (U : Z → Prop) (s0 H E : Z) (w' : t) (hole i : Z) : Prop := {
  sh_table : w' = with_table w (table w') ∧ length (table w') = length (table w);
  sh_order : (H ≤ hole < i ∧ i ≤ E ∧ E < H + size w)%Z;
  sh_hole : (at_ w' hole < 0)%Z;
  sh_in : ∀ p, (0 ≤ at_ w' p)%Z → U (at_ w' p) ∧ at_ w' p ≠ s0;
  sh_inj : ∀ p q, (0 ≤ at_ w' p)%Z → at_ w' p = at_ w' q → (p mod size w = q mod size w)%Z;
  sh_onto : ∀ s, U s → s ≠ s0 → ∃ p, at_ w' p = s;
  sh_ahead : ∀ q, (i ≤ q ≤ E)%Z → at_ w' q = at_ w q;
  sh_path : ∀ p q, (hole < p < hole + size w)%Z → (0 ≤ at_ w' p)%Z →
    (p - (p - home w (at_ w' p)) mod size w ≤ q < p)%Z → (0 ≤ at_ w' q)%Z ∨ (q = hole ∧ i ≤ p)%Z;
}.

Section removal.
Context (w : t) (U : Z → Prop) (Hok : table_ok w U) (s0 H E : Z).
Hypothesis (Hfirst : ∀ q, (H < q < E)%Z → (0 ≤ at_ w q)%Z) (HE : (at_ w E < 0)%Z).

Local Lemma Hsw : sized w.
Proof. by destruct Hok. Qed.
Local Hint Resolve Hsw : core.

Lemma shifting_sized w' hole i : shifting w U s0 H E w' hole i → sized w'.
Proof. intros [[-> Hl] _ _ _ _ _ _ _]. by apply sized_table. Qed.

Lemma shift_stay w' hole i : shifting w U s0 H E w' hole i → (i < E)%Z →
  (hole < i - (i - home w (at_ w' i)) mod size w)%Z → shifting w U s0 H E w' hole (i + 1).
Proof.
  intros [Ht Ho Hh Hin Hinj Hon Ha Hp] Hi Hm. split; try done; [lia|intros; apply Ha; lia|].
  intros p q Hp1 Hp2 Hq. destruct (Hp p q Hp1 Hp2 Hq) as [?|[-> Hip]]; [by left|right]. split; [done|].
  destruct (decide (i = p)) as [<-|]; lia.
Qed.

(** The entry at [i] moves into the hole. *)
Lemma shift_move w' hole i w2 : shifting w U s0 H E w' hole i → (i < E)%Z →
  (i - (i - home w (at_ w' i)) mod size w ≤ hole)%Z →
  w2 = with_table w' (aset (i mod size w) (-1)%Z (aset (hole mod size w) (at_ w' i) (table w'))) →
  shifting w U s0 H E w2 i (i + 1).
Proof.
  intros Hsh Hi Hm ->. pose proof (shifting_sized _ _ _ Hsh) as Hsz'. pose proof (size_pos w Hsw) as Hn.
  destruct Hsh as [[Ew Hl] Ho Hh Hin Hinj Hon Ha Hp].
  assert (size w' = size w) as Es by by rewrite Ew.
  assert (0 ≤ at_ w' i)%Z as Hx. { rewrite Ha by lia. apply Hfirst. lia. }
  set (x := at_ w' i) in *. set (w2 := with_table _ _).
  assert (∀ q, at_ w2 q = if decide (q mod size w = i mod size w)%Z then (-1)%Z
                          else if decide (q mod size w = hole mod size w)%Z then x else at_ w' q) as Hat.
  { intros q. set (w1 := with_table w' (aset (hole mod size w) x (table w'))).
    assert (sized w1) as Hs1 by (apply sized_table; [done|]; unfold aset; by rewrite length_insert).
    pose proof (at_set w1 Hs1 i (-1)%Z q) as A. pose proof (at_set w' Hsz' hole x q) as B.
    change (size w1) with (size w') in A. rewrite Es in A, B. fold w1 in B. rewrite B in A. exact A. }
  assert (∀ q, (0 ≤ at_ w' q)%Z → (q mod size w ≠ hole mod size w)%Z) as Hnh.
  { intros q Hq Hc. rewrite <-Es in Hc. rewrite (at_cong w' _ _ Hc) in Hq. lia. }
  assert (∀ q, (- size w < q - i < size w)%Z → (q mod size w = i mod size w)%Z → q = i) as Hqi by (intros; by apply (mod_near w)).
  split.
  - unfold w2. rewrite Ew at 1. split; [done|]. cbn. unfold aset. by rewrite !length_insert.
  - lia.
  - rewrite Hat. rewrite decide_True by done. lia.
  - intros p. rewrite Hat. repeat case_decide; [lia|by intros; apply Hin|apply Hin].
  - intros p q. rewrite !Hat. destruct (decide _) as [|Hpi]; [lia|]. destruct (decide (q mod _ = i mod _)%Z) as [|Hqi'].
    { repeat case_decide; lia. }
    destruct (decide (p mod _ = hole mod _)%Z) as [Hph|], (decide (q mod _ = hole mod _)%Z) as [Hqh|]; intros H0 H1.
    + congruence.
    + destruct Hqi'. symmetry. by apply Hinj.
    + destruct Hpi. apply Hinj; done.
    + by apply Hinj.
  - intros s Hs Hs0. destruct (Hon s Hs Hs0) as [p Hps]. pose proof (to_range w U Hok s Hs) as Hr.
    destruct (decide (p mod size w = i mod size w)%Z) as [Hpi|Hpi].
    + exists hole. rewrite Hat, decide_False, decide_True; [|done|].
      * unfold x. rewrite <-Hps. apply at_cong. by rewrite Es.
      * intros Hc. symmetry in Hc. revert Hc. by apply Hnh.
    + exists p. rewrite Hat, decide_False, decide_False; [done| |done]. apply Hnh. lia.
  - intros q Hq. rewrite Hat, decide_False, decide_False; [apply Ha; lia| |].
    + intros Hc. apply (mod_near w) in Hc; [lia|done|lia].
    + intros Hc. apply (mod_near w) in Hc; [lia|done|lia].
  - intros p q Hpr. rewrite !Hat. destruct (decide (p mod _ = i mod _)%Z); [lia|]. intros Hp0 Hq.
    pose proof (Z.mod_pos_bound (p - home w (if decide (p mod size w = hole mod size w)%Z then x else at_ w' p)) (size w) Hn) as HD.
    destruct (decide (q mod _ = i mod _)%Z) as [Hc|Hci]; [right; apply Hqi in Hc; lia|left].
    destruct (decide (q mod _ = hole mod _)%Z) as [|Hch]; [done|].
    destruct (decide (p mod _ = hole mod _)%Z) as [Hph|Hph].
    + assert (p = hole + size w)%Z as ->.
      { apply (mod_near w); [done| |lia]. rewrite Hph. symmetry. replace (hole + size w)%Z with (hole + 1 * size w)%Z by lia. apply Z.mod_add. lia. }
      replace (hole + size w - home w x)%Z with (hole - home w x + 1 * size w)%Z in Hq by lia. rewrite Z.mod_add in Hq by lia.
      assert ((hole - home w x) mod size w = (i - home w x) mod size w - (i - hole))%Z as Hd.
      { pose proof (Z.mod_pos_bound (i - home w x) (size w) Hn) as HDi. symmetry.
        apply Z.mod_unique with ((i - home w x) / size w)%Z; [lia|].
        pose proof (Z.div_mod (i - home w x) (size w)). lia. }
      destruct (Hp i (q - size w)%Z) as [Hl'|[? _]]; [lia|done|fold x; lia| |lia].
      rewrite (at_cong w' _ (q - size w)); [done|]. rewrite Es. replace (q - size w)%Z with (q + (-1) * size w)%Z by lia. rewrite Z.mod_add; lia.
    + assert (p ≠ hole + size w)%Z as Hne.
      { intros ->. destruct Hph. replace (hole + size w)%Z with (hole + 1 * size w)%Z by lia. apply Z.mod_add. lia. }
      assert (∀ z, (z - size w) mod size w = z mod size w)%Z as Hback.
      { intros z. replace (z - size w)%Z with (z + (-1) * size w)%Z by lia. rewrite Z.mod_add; lia. }
      destruct (decide (p < hole + size w)%Z).
      * destruct (Hp p q) as [?|[-> _]]; [lia|done|done|done|done].
      * assert (at_ w' (p - size w) = at_ w' p) as Eap by (apply at_cong; by rewrite Es).
        destruct (Hp (p - size w)%Z (q - size w)%Z) as [Hq'|[? ?]]; [lia|by rewrite Eap| |  |lia].
        -- rewrite Eap. replace (p - size w - home w (at_ w' p))%Z with (p - home w (at_ w' p) - size w)%Z by lia. rewrite Hback. lia.
        -- rewrite (at_cong w' _ (q - size w)); [done|]. by rewrite Es.
Qed.

Lemma shift_done w' hole i : shifting w U s0 H E w' hole i → i = E → table_ok w' (λ s, U s ∧ s ≠ s0).
Proof.
  intros Hsh ->. pose proof (shifting_sized _ _ _ Hsh) as Hsz'. destruct Hsh as [[Ew Hl] Ho Hh Hin Hinj Hon Ha Hp].
  pose proof (size_pos w Hsw) as Hn. assert (size w' = size w) as Es by by rewrite Ew.
  split; try done.
  - intros s [Hs _]. replace (slots w') with (slots w) by by rewrite Ew. by apply (to_range w U Hok).
  - by rewrite Es.
  - intros s [Hs Hs0]. by apply Hon.
  - intros p q Hp0 Hq. rewrite Es in Hq. replace (home w') with (home w) in Hq by by rewrite Ew.
    set (p' := (hole + 1 + (p - hole - 1) mod size w)%Z).
    pose proof (Z.mod_pos_bound (p - hole - 1) (size w) Hn) as Hpm.
    assert (∃ k, p' = p + k * size w)%Z as [k Hk].
    { exists (- ((p - hole - 1) / size w))%Z. pose proof (Z.div_mod (p - hole - 1) (size w)). unfold p'. lia. }
    assert (∀ z, at_ w' (z + k * size w) = at_ w' z) as Hrot.
    { intros z. apply at_cong. rewrite Es. apply Z.mod_add. lia. }
    assert (p' ≠ hole + size w)%Z as Hne.
    { intros Hc. assert (at_ w' p' = at_ w' hole) as Heq.
      { apply at_cong. rewrite Es, Hc. replace (hole + size w)%Z with (hole + 1 * size w)%Z by lia. apply Z.mod_add. lia. }
      rewrite Hk, Hrot in Heq. lia. }
    rewrite <-(Hrot p) in Hp0, Hq. rewrite <-(Hrot q). rewrite <-Hk in *.
    assert ((p - home w (at_ w' p')) mod size w = (p' - home w (at_ w' p')) mod size w)%Z as Hmm.
    { rewrite Hk at 2. replace (p + k * size w - home w (at_ w' p'))%Z with (p - home w (at_ w' p') + k * size w)%Z by lia.
      rewrite Z.mod_add by lia. done. }
    rewrite Hmm in Hq. pose proof (Z.mod_pos_bound (p' - home w (at_ w' p')) (size w) Hn) as HD.
    assert (p' ≠ E) as HpE. { intros Hc. rewrite Hc, Ha in Hp0 by lia. lia. }
    destruct (Hp p' (q + k * size w)%Z) as [?|[Hqh Hle]]; [unfold p' in *; lia|done|lia|done|exfalso].
    destruct (Hp p' E) as [HE'|[? _]]; [unfold p' in *; lia|done|lia| |lia]. rewrite Ha in HE' by lia. lia.
  - intros s s' [Hs _] [Hs' _]. replace (key_of_slot w') with (key_of_slot w) by by rewrite Ew. by apply (to_keys w U Hok).
Qed.

Lemma shift_loop_ok fuel w' hole i : shifting w U s0 H E w' hole i → (E - i ≤ Z.of_nat fuel)%Z →
  let w2 := shift_loop fuel w' (hole mod size w) (i mod size w) in
  table_ok w2 (λ s, U s ∧ s ≠ s0) ∧ w2 = with_table w (table w2).
Proof.
  revert w' hole i. induction fuel as [|fuel IH]; intros w' hole i Hsh Hf; cbn [shift_loop].
  { split; [|apply Hsh]. eapply shift_done; [done|]. destruct (sh_order _ _ _ _ _ _ _ _ Hsh). lia. }
  pose proof (shifting_sized _ _ _ Hsh) as Hsz'. pose proof (size_pos w Hsw) as Hn.
  assert (size w' = size w) as Es by by rewrite (proj1 (sh_table _ _ _ _ _ _ _ _ Hsh)).
  assert (home w' = home w) as Eh by by rewrite (proj1 (sh_table _ _ _ _ _ _ _ _ Hsh)).
  pose proof (sh_order _ _ _ _ _ _ _ _ Hsh) as Ho. rewrite <-Es. fold (at_ w' i). pose proof (sh_ahead _ _ _ _ _ _ _ _ Hsh i) as Ha.
  destruct (Z.leb_spec 0 (at_ w' i)) as [Hpos|Hneg].
  - assert (i ≠ E). { intros ->. rewrite Ha in Hpos by lia. lia. }
    unfold shiftBack. fold (at_ w' i). fold (key_of_slot w' (at_ w' i)). fold (home w' (at_ w' i)). rewrite !mask_mod by done.
    rewrite Zminus_mod_idemp_l, Zminus_mod_idemp_l, Zminus_mod_idemp_r. rewrite (Z.mod_small (i - hole)) by (rewrite Es; lia).
    rewrite next_mod, Eh, Es by done. destruct (Z.leb_spec (i - hole) ((i - home w (at_ w' i)) mod size w)) as [Hm|Hm]; cbn [negb].
    + apply IH; [|lia]. eapply (shift_move w' hole i); [done|lia|lia|done].
    + apply IH; [|lia]. apply shift_stay; [done|lia|lia].
  - split; [|apply Hsh]. eapply shift_done; [done|]. destruct (decide (i = E)); [done|]. rewrite Ha in Hneg by lia.
    pose proof (Hfirst i). lia.
Qed.
End removal.

Lemma remove_ok w U s0 : table_ok w U → U s0 →
  let w2 := remove w (key_of_slot w s0) in
  table_ok w2 (λ s, U s ∧ s ≠ s0) ∧ w2 = with_table w (table w2).
Proof.
  intros Hok Hs0. pose proof (to_sized w U Hok) as Hsz. pose proof (size_pos w Hsz) as Hn.
  pose proof (to_range w U Hok s0 Hs0) as Hr0. destruct (slot_dist w U Hok s0 Hs0) as (d & Hd & Ha & Hq).
  unfold remove. fold (home w s0). pose proof (hash_mod w Hsz (key_of_slot w s0)) as Eh. fold (home w s0) in Eh. rewrite Eh.
  assert (Z.of_nat (length (table w)) = size w) as Hl by by destruct Hsz.
  rewrite (locate_spec w Hsz _ _ _ d); [|lia| |by rewrite Ha].
  2: { intros q Hq' He. destruct (Hq q Hq') as [H1 H2]. apply H2. apply (to_keys w U Hok); [by apply (to_in w U Hok)|done|done]. }
  set (H := (home w s0 + d)%Z) in *. rewrite next_mod by done.
  destruct (first_such (λ d, at_ w (H + 1 + d) < 0)%Z (size w) (has_empty w U Hok _)) as (e & He & Hneg & Hfirst).
  set (w0 := with_table w _).
  assert (∀ q, at_ w0 q = if decide (q mod size w = H mod size w)%Z then (-1)%Z else at_ w q) as Hat by (intros; by apply at_set).
  assert (∀ q, (0 ≤ at_ w q)%Z → q mod size w = H mod size w → at_ w q = s0)%Z as Hs.
  { intros q _ Hc. by rewrite (at_cong w _ _ Hc). }
  assert (e ≠ size w - 1)%Z as Hne.
  { intros ->. rewrite (at_cong w _ H) in Hneg; [lia|]. replace (H + 1 + (size w - 1))%Z with (H + 1 * size w)%Z by lia. apply Z.mod_add. lia. }
  apply (shift_loop_ok w U Hok s0 H (H + 1 + e)).
  - intros q Hq'. specialize (Hfirst (q - H - 1)%Z). replace (H + 1 + (q - H - 1))%Z with q in Hfirst by lia. lia.
  - done.
  - split.
    + split; [done|]. cbn. unfold aset. by rewrite length_insert.
    + lia.
    + rewrite Hat, decide_True by done. lia.
    + intros p. rewrite Hat. destruct (decide _) as [|Hp]; [lia|]. intros Hp0. split; [by apply (to_in w U Hok)|].
      intros Hc. apply Hp. apply (to_inj w U Hok); [done|]. by rewrite Ha.
    + intros p q. rewrite !Hat. repeat case_decide; try lia. apply (to_inj w U Hok).
    + intros s Hs1 Hs2. destruct (to_onto w U Hok s Hs1) as [p Hp]. exists p. rewrite Hat, decide_False; [done|].
      intros Hc. apply Hs2. rewrite <-Hp. apply Hs; [|done]. pose proof (to_range w U Hok s Hs1). lia.
    + intros q Hq'. rewrite Hat, decide_False; [done|]. intros Hc. apply (mod_near w Hsz) in Hc; lia.
    + intros p q Hpr. rewrite !Hat. destruct (decide (p mod _ = _)%Z) as [|Hp]; [lia|]. intros Hp0 Hq'.
      pose proof (Z.mod_pos_bound (p - home w (at_ w p)) (size w) Hn).
      destruct (decide (q mod _ = _)%Z) as [Hc|]; [right|left; by eapply (to_path w U Hok)].
      apply (mod_near w Hsz) in Hc; lia.
  - lia.
Qed.
End WindowTable.
