(* ===== verification/SealerBitmap.v ===== *)
(** * The ring bitmap of a replay window

    What [clearAbove] and the set of one bit do to the bits of the window of
    [SessionWindows.java]. A unit [u] has the ring position [u mod width], in the word
    [u mod width / 64]. *)
From S2P Require Import Prelude Bytes Java SealerWindows.

Module WindowBits.
Import SessionWindows.

(** ** The bits of a long *)
Lemma is_long_bits z : is_long z ↔ ∀ j, (63 ≤ j)%Z → Z.testbit z j = bool_decide (z < 0)%Z.
Proof. rewrite <-Z.bounded_iff_bits by lia. unfold is_long, long_min, long_max. lia. Qed.

Lemma is_long_land a b : is_long a → is_long b → is_long (Z.land a b).
Proof.
  rewrite !is_long_bits. intros Ha Hb j Hj. rewrite Z.land_spec, Ha, Hb, <-bool_decide_and by done.
  apply bool_decide_ext. symmetry. apply Z.land_neg.
Qed.

Lemma is_long_lor a b : is_long a → is_long b → is_long (Z.lor a b).
Proof.
  rewrite !is_long_bits. intros Ha Hb j Hj. rewrite Z.lor_spec, Ha, Hb, <-bool_decide_or by done.
  apply bool_decide_ext. symmetry. apply Z.lor_neg.
Qed.

Lemma is_long_lnot a : is_long a → is_long (Z.lnot a).
Proof. unfold is_long, long_min, long_max, Z.lnot. lia. Qed.

Lemma to_long_bits z j : (0 ≤ j < 64)%Z → Z.testbit (to_long z) j = Z.testbit z j.
Proof.
  intros Hj. rewrite <-(Z.mod_pow2_bits_low (to_long z) 64), <-(Z.mod_pow2_bits_low z 64) by lia.
  fold (unsigned (to_long z)) (unsigned z). by rewrite unsigned_to_long.
Qed.

Lemma mod64_bound z : (0 ≤ z mod 64 < 64)%Z.
Proof. apply Z.mod_pos_bound. lia. Qed.

(** [1L << u]. *)
Lemma one_shl_bits u j : (0 ≤ j < 64)%Z → Z.testbit (long_shl 1 u) j = bool_decide (j = u mod 64)%Z.
Proof.
  intros Hj. pose proof (mod64_bound u). unfold long_shl. rewrite to_long_bits, Z.shiftl_1_l by done.
  rewrite Z.pow2_bits_eqb by lia. rewrite Z.eqb_sym. apply eq_bool_prop_intro. rewrite bool_decide_spec. 
  destruct (Z.eqb_spec j (u mod 64)); naive_solver.
Qed.

(** [-1L << u]. *)
Lemma ones_shl_bits u j : (0 ≤ j < 64)%Z → Z.testbit (long_shl (-1) u) j = bool_decide (u mod 64 ≤ j)%Z.
Proof.
  intros Hj. pose proof (mod64_bound u). unfold long_shl. rewrite to_long_bits, Z.shiftl_spec by lia.
  destruct (decide (u mod 64 ≤ j)%Z).
  - rewrite bool_decide_true by done. apply Z.bits_m1. lia.
  - rewrite bool_decide_false by done. apply Z.testbit_neg_r. lia.
Qed.

(** [-1L >>> (63 - (u & 63))]. *)
Lemma mask_through_bits u j : (0 ≤ j < 64)%Z → Z.testbit (mask_through u) j = bool_decide (j ≤ u mod 64)%Z.
Proof.
  intros Hj. pose proof (mod64_bound u). unfold mask_through. rewrite to_long_bits by done.
  replace (Z.land u 63) with (u mod 64)%Z by (symmetry; apply (Z.land_ones u 6); lia).
  rewrite Z.shiftr_spec by lia. replace (unsigned (-1)) with (Z.ones 64) by done. destruct (decide (j ≤ u mod 64)%Z).
  - rewrite bool_decide_true by done. apply Z.ones_spec_low. lia.
  - rewrite bool_decide_false by done. apply Z.ones_spec_high. lia.
Qed.

(** A test of one bit. *)
Lemma test_bit x u : is_long x → negb (Z.land x (long_shl 1 u) =? 0)%Z = Z.testbit x (u mod 64).
Proof.
  intros Hx. pose proof (mod64_bound u) as Hu. destruct (Z.testbit x (u mod 64)) eqn:E.
  - apply negb_true_iff, Z.eqb_neq. intros Hz. pose proof (Z.land_spec x (long_shl 1 u) (u mod 64)) as Hs.
    rewrite Hz, Z.bits_0, E, one_shl_bits, bool_decide_true in Hs by done. done.
  - apply negb_false_iff, Z.eqb_eq. apply Z.bits_inj'. intros j Hj.
    assert (∀ i, (0 ≤ i < 64)%Z → Z.testbit (Z.land x (long_shl 1 u)) i = false) as Hlow.
    { intros i Hi. rewrite Z.land_spec, one_shl_bits by done. case_bool_decide; [by subst; rewrite E|apply andb_false_r]. }
    rewrite Z.bits_0. destruct (decide (j < 64)%Z); [by apply Hlow|].
    pose proof (proj1 (is_long_bits _) (is_long_land _ _ Hx (to_long_is_long (Z.shiftl 1 (u mod 64))))) as Hl.
    fold (long_shl 1 u) in Hl. rewrite Hl, <-(Hl 63%Z) by lia. by apply Hlow.
Qed.

(** ** The words *)
(** The bit at a ring position. *)
Definition bit_at (window : list Z) (r : Z) : bool := Z.testbit (aget window (r / 64)) (r mod 64).

Definition wide (w : t) : Prop := ∃ k, (0 ≤ k)%Z ∧ width w = (64 * 2 ^ k)%Z.

Section ring.
Context (w : t) (Hw : wide w).
Abbreviation W := (wordsPerSlot w).

Lemma words_width : width w = (64 * W)%Z.
Proof.
  unfold wordsPerSlot. destruct Hw as (k & Hk & ->). unfold WORD_SHIFT. rewrite Z.shiftr_div_pow2 by lia.
  change (2 ^ 6)%Z with 64%Z. rewrite (Z.mul_comm 64 (2 ^ k)), Z.div_mul by lia. lia.
Qed.

Lemma words_pow : ∃ k, (0 ≤ k)%Z ∧ W = (2 ^ k)%Z.
Proof. pose proof words_width as E. destruct Hw as (k & Hk & Ek). exists k. split; [done|]. lia. Qed.

Lemma words_pos : (0 < W)%Z.
Proof. destruct words_pow as (k & Hk & ->). by apply Z.pow_pos_nonneg. Qed.

Lemma word_mask q : Z.land q (W - 1) = (q mod W)%Z.
Proof. destruct words_pow as (k & Hk & ->). rewrite <-Z.land_ones, Z.ones_equiv by lia. done. Qed.

(** The word and the bit of the ring position of a unit. *)
Lemma ring_split u : (u mod width w = 64 * ((u / 64) mod W) + u mod 64)%Z.
Proof. pose proof words_pos. rewrite words_width, Z.rem_mul_r by lia. lia. Qed.

Lemma ring_word u : (u mod width w / 64 = (u / 64) mod W)%Z.
Proof. pose proof (mod64_bound u). rewrite ring_split, Z.mul_comm, Z.div_add_l, (Z.div_small (u mod 64)) by lia. lia. Qed.

Lemma ring_bit u : ((u mod width w) mod 64 = u mod 64)%Z.
Proof. rewrite ring_split, Z.mul_comm, Z.add_comm, Z.mod_add by lia. apply Zmod_mod. Qed.

Lemma wordOf_eq u : wordOf w u = (u mod width w / 64)%Z.
Proof.
  unfold wordOf. destruct Hw as (k & Hk & Ek). rewrite Ek. replace (64 * 2 ^ k)%Z with (2 ^ (6 + k))%Z by (rewrite Z.pow_add_r; lia).
  replace (2 ^ (6 + k) - 1)%Z with (Z.ones (6 + k)) by by rewrite Z.ones_equiv.
  rewrite Z.land_ones by lia. unfold WORD_SHIFT. by rewrite Z.shiftr_div_pow2.
Qed.

(** The unit with a word and a bit. *)
Lemma ring_at r u : (0 ≤ r < width w)%Z → (u mod width w = r ↔ (u / 64) mod W = r / 64 ∧ u mod 64 = r mod 64)%Z.
Proof.
  intros Hr. split; [intros <-; by rewrite ring_word, ring_bit|]. intros [H1 H2]. rewrite ring_split, H1, H2.
  pose proof (Z.div_mod r 64). lia.
Qed.

Definition window_wf (window : list Z) : Prop := Z.of_nat (length window) = W ∧ Forall is_long window.

Lemma window_wf_long window j : window_wf window → is_long (aget window j).
Proof.
  intros [_ Hf]. unfold aget. destruct (window !! Z.to_nat j) as [x|] eqn:E.
  - rewrite (list_lookup_total_correct _ _ _ E). by eapply Forall_lookup_1.
  - rewrite list_lookup_total_alt, E. done.
Qed.

Lemma window_wf_set window j x : window_wf window → is_long x → window_wf (aset j x window).
Proof. intros [Hl Hf] Hx. split; unfold aset; [by rewrite length_insert|]. by apply Forall_insert. Qed.

Lemma pos_word r : (0 ≤ r < width w)%Z → (0 ≤ r / 64 < W)%Z.
Proof. intros Hr. pose proof words_width. split; [apply Z.div_pos; lia|]. apply Z.div_lt_upper_bound; lia. Qed.

Lemma bit_at_set window j x r : window_wf window → (0 ≤ j < W)%Z → (0 ≤ r < width w)%Z →
  bit_at (aset j x window) r = if decide (r / 64 = j)%Z then Z.testbit x (r mod 64) else bit_at window r.
Proof.
  intros [Hl _] Hj Hr. pose proof (pos_word r Hr). unfold bit_at, aget, aset. destruct (decide _) as [->|Hne].
  - rewrite list_lookup_total_insert_eq; [done|]. lia.
  - rewrite list_lookup_total_insert_ne; [done|]. lia.
Qed.

(** [window'] is [window] with the positions of [P] cleared. *)
Definition cleared (window window' : list Z) (P : Z → Prop) : Prop :=
  window_wf window' ∧ ∀ r, (0 ≤ r < width w)%Z → bit_at window' r = true ↔ bit_at window r = true ∧ ¬ P r.

Lemma cleared_trans a b c P Q : cleared a b P → cleared b c Q → cleared a c (λ r, P r ∨ Q r).
Proof. intros [_ Hb] [Hwf Hc]. split; [done|]. intros r Hr. rewrite Hc, Hb by done. tauto. Qed.

Lemma cleared_ext a b P Q : (∀ r, (0 ≤ r < width w)%Z → P r ↔ Q r) → cleared a b P → cleared a b Q.
Proof. intros He [Hwf Hb]. split; [done|]. intros r Hr. rewrite Hb, He by done. done. Qed.

Lemma clearRange_cleared window q mask : window_wf window → is_long mask →
  cleared window (clearRange w window q mask) (λ r, (q mod W = r / 64)%Z ∧ Z.testbit mask (r mod 64) = true).
Proof.
  intros Hwf Hm. unfold clearRange. rewrite word_mask. pose proof (Z.mod_pos_bound q W words_pos) as Hq. split.
  - apply window_wf_set; [done|]. apply is_long_land; [by apply window_wf_long|by apply is_long_lnot].
  - intros r Hr. rewrite bit_at_set by done. pose proof (mod64_bound r) as Hb. destruct (decide _) as [Heq|Hne]; [|naive_solver].
    rewrite Z.land_spec, Z.lnot_spec, andb_true_iff, negb_true_iff by lia. unfold bit_at. rewrite Heq.
    destruct (Z.testbit mask _); naive_solver.
Qed.

Lemma fill_zero_cleared window a b : window_wf window → cleared window (fill_zero a b window) (λ r, a ≤ r / 64 < b)%Z.
Proof.
  intros [Hl Hf]. unfold fill_zero. split.
  - split; [by rewrite length_imap|]. apply Forall_lookup_2. intros i x. rewrite list_lookup_imap. intros (y & Hy & ->)%fmap_Some.
    case_match; [done|]. by eapply Forall_lookup_1.
  - intros r Hr. pose proof (pos_word r Hr) as Hp. unfold bit_at, aget.
    destruct (lookup_lt_is_Some_2 window (Z.to_nat (r / 64))) as [x Hx]; [lia|].
    rewrite (list_lookup_total_correct _ _ x Hx).
    erewrite (list_lookup_total_correct (imap _ _)); [|by rewrite list_lookup_imap, Hx].
    rewrite Z2Nat.id by lia. destruct (Z.leb_spec a (r / 64)); cbn [andb]; [|intuition lia].
    destruct (Z.ltb_spec (r / 64) b); [|intuition lia]. rewrite Z.bits_0. intuition lia.
Qed.

Lemma clearWords_cleared window from to : window_wf window → (from ≤ to ≤ from + W)%Z →
  cleared window (clearWords w window from to) (λ r, ∃ q, from ≤ q < to ∧ q mod W = r / 64)%Z.
Proof.
  intros Hwf Hft. pose proof words_pos as HW. unfold clearWords. rewrite word_mask.
  pose proof (Z.mod_pos_bound from W HW) as Hs. pose proof (Z.div_mod from W ltac:(lia)) as Hdm.
  set (k := (from / W)%Z) in *. set (start := (from mod W)%Z) in *.
  assert (∀ q, (from ≤ q < to)%Z → (q mod W = q - W * k ∧ q - W * k < W ∨ q mod W = q - W * k - W ∧ W ≤ q - W * k)%Z) as Hmod.
  { intros q Hq. destruct (decide (q - W * k < W)%Z).
    - left. split; [|done]. symmetry. apply Z.mod_unique with k; lia.
    - right. split; [|lia]. symmetry. apply Z.mod_unique with (k + 1)%Z; lia. }
  assert (∀ j r, (0 ≤ r < W)%Z → ((W * j + r) mod W = r)%Z) as Hback.
  { intros j r Hr. symmetry. apply Z.mod_unique with j; lia. }
  destruct (Z.leb_spec (start + (to - from)) W) as [Hle|Hgt].
  - eapply cleared_ext; [|by apply fill_zero_cleared]. intros r Hr. pose proof (pos_word r Hr) as Hp. cbn. split.
    + intros Hq. exists (W * k + r / 64)%Z. split; [lia|]. by apply Hback.
    + intros (q & Hq & Hqr). destruct (Hmod q Hq); lia.
  - eapply cleared_ext; [|eapply cleared_trans; [by apply fill_zero_cleared|apply fill_zero_cleared; by apply fill_zero_cleared]].
    intros r Hr. pose proof (pos_word r Hr) as Hp. cbn. split.
    + intros [Hq|Hq].
      * exists (W * k + r / 64)%Z. split; [lia|]. by apply Hback.
      * exists (W * (k + 1) + r / 64)%Z. split; [lia|]. by apply Hback.
    + intros (q & Hq & Hqr). destruct (Hmod q Hq); lia.
Qed.

Lemma clearAbove_cleared window top unit : window_wf window → (-1 ≤ top < unit)%Z →
  cleared window (clearAbove w window top unit) (λ r, ∃ u, top < u ≤ unit ∧ u mod width w = r)%Z.
Proof.
  intros Hwf Htu. pose proof words_pos as HW. pose proof words_width as EW. unfold clearAbove.
  destruct (Z.leb_spec (width w) (unit - top)) as [Hbig|Hsmall].
  - eapply cleared_ext; [|by apply fill_zero_cleared]. intros r Hr. pose proof (pos_word r Hr). destruct Hwf as [-> _]. split; [|lia].
    intros _. exists (unit - (unit - r) mod width w)%Z. pose proof (Z.mod_pos_bound (unit - r) (width w) ltac:(lia)). split; [lia|].
    rewrite Zminus_mod_idemp_r. replace (unit - (unit - r))%Z with r by lia. by apply Z.mod_small.
  - assert (∀ r, (0 ≤ r < width w)%Z → (∃ u, top < u ≤ unit ∧ u mod width w = r)%Z ↔
      ∃ q, (q mod W = r / 64 ∧ top + 1 ≤ 64 * q + r mod 64 ≤ unit)%Z) as Hword.
    { intros r Hr. pose proof (mod64_bound r) as Hb. split.
      - intros (u & Hu & [H1 H2]%(ring_at r u Hr)). exists (u / 64)%Z. split; [done|]. pose proof (Z.div_mod u 64). lia.
      - intros (q & Hq & Hu). exists (64 * q + r mod 64)%Z. split; [lia|]. apply ring_at; [done|].
        rewrite Z.mul_comm, Z.div_add_l, (Z.div_small (r mod 64)), Z.add_0_r by lia. split; [done|].
        rewrite Z.add_comm, Z.mod_add, Zmod_mod by lia. done. }
    unfold WORD_SHIFT. rewrite !Z.shiftr_div_pow2 by lia. change (2 ^ 6)%Z with 64%Z.
    pose proof (Z.div_mod (top + 1) 64 ltac:(lia)) as Hf. pose proof (mod64_bound (top + 1)) as Hfb.
    pose proof (Z.div_mod unit 64 ltac:(lia)) as Hl. pose proof (mod64_bound unit) as Hlb.
    set (fw := ((top + 1) / 64)%Z) in *. set (lw := (unit / 64)%Z) in *.
    destruct (Z.eqb_spec fw lw) as [Hsame|Hdiff].
    + eapply cleared_ext; [|apply clearRange_cleared; [done|apply is_long_land; apply to_long_is_long]].
      intros r Hr. pose proof (mod64_bound r) as Hb. cbn. rewrite Hword by done.
      rewrite Z.land_spec, ones_shl_bits, mask_through_bits, andb_true_iff, !bool_decide_eq_true by done. split.
      * intros [Hq [H1 H2]]. exists fw. lia.
      * intros (q & Hq & Hu). assert (q = fw) as -> by lia. lia.
    + pose proof (clearRange_cleared window fw (long_shl (-1) (top + 1)) Hwf (to_long_is_long _)) as HA.
      pose proof (clearWords_cleared _ (fw + 1) lw (proj1 HA) ltac:(lia)) as HB.
      pose proof (clearRange_cleared _ lw (mask_through unit) (proj1 HB) (to_long_is_long _)) as HC.
      eapply cleared_ext; [|exact (cleared_trans _ _ _ _ _ (cleared_trans _ _ _ _ _ HA HB) HC)].
      intros r Hr. pose proof (mod64_bound r) as Hb. cbn. rewrite Hword by done.
      rewrite ones_shl_bits, mask_through_bits, !bool_decide_eq_true by done. split.
      * intros [[[Hq H1]|(q & Hq & Hr')]|[Hq H1]]; [exists fw; lia|exists q; lia|exists lw; lia].
      * intros (q & Hq & Hu). destruct (decide (q = fw)) as [->|]; [left; left; lia|].
        destruct (decide (q = lw)) as [->|]; [right; lia|]. left. right. exists q. lia.
Qed.

(** ** The window of one image *)
(** The bitmap and the highest unit hold the units of [seen] that are in the window. *)
Record shows (window : list Z) (top : Z) (seen : gset Z) : Prop := {
  sw_wf : window_wf window;
  sw_top : (-1 ≤ top)%Z;
  sw_below : ∀ u, u ∈ seen → (0 ≤ u ≤ top)%Z;
  sw_bits : ∀ u, (top - width w < u ≤ top)%Z → bit_at window (u mod width w) = true ↔ u ∈ seen;
}.

Lemma shows_empty : shows (replicate (Z.to_nat W) 0%Z) (-1) ∅.
Proof.
  pose proof words_pos. split; [|lia|set_solver|].
  - split; [rewrite length_replicate; lia|]. by apply Forall_replicate.
  - intros u Hu. split; [|set_solver]. unfold bit_at, aget.
    rewrite lookup_total_replicate_2; [by rewrite Z.bits_0|]. rewrite ring_word. pose proof (Z.mod_pos_bound (u / 64) W). lia.
Qed.

(** The test of [check]. *)
Lemma shows_test window top seen u : shows window top seen → (top - width w < u)%Z →
  (u <=? top)%Z && negb (Z.land (aget window (wordOf w u)) (long_shl 1 u) =? 0)%Z = bool_decide (u ∈ seen).
Proof.
  intros [Hwf Ht Hb Hs] Hu. rewrite wordOf_eq, test_bit by by apply window_wf_long.
  destruct (Z.leb_spec u top) as [Hle|Hgt]; cbn [andb].
  - rewrite <-(ring_bit u). fold (bit_at window (u mod width w)). specialize (Hs u ltac:(lia)).
    case_bool_decide; destruct (bit_at _ _); naive_solver.
  - symmetry. apply bool_decide_eq_false. intros Hin%Hb. lia.
Qed.

(** The update of [mark]. *)
Lemma shows_mark window top seen u : shows window top seen → (0 ≤ u)%Z → (top - width w < u)%Z →
  let window1 := if (top <? u)%Z then clearAbove w window top u else window in
  shows (aset (wordOf w u) (Z.lor (aget window1 (wordOf w u)) (long_shl 1 u)) window1) (Z.max top u) ({[u]} ∪ seen).
Proof.
  intros [Hwf Ht Hb Hs] Hu0 Hu window1. pose proof words_pos as HW. pose proof words_width as EW.
  assert (cleared window window1 (λ r, ∃ v, top < v ≤ u ∧ v mod width w = r)%Z) as [Hwf1 Hc].
  { unfold window1. destruct (Z.ltb_spec top u); [apply clearAbove_cleared; [done|lia]|].
    split; [done|]. intros r Hr. split; [|tauto]. intros H1. split; [done|]. intros (v & Hv & _). lia. }
  rewrite wordOf_eq. pose proof (Z.mod_pos_bound u (width w) ltac:(lia)) as Hur. pose proof (pos_word _ Hur) as Huw.
  assert (∀ a b, (a mod width w = b mod width w)%Z → (- width w < a - b < width w)%Z → a = b) as Hnear.
  { intros a b He Hd. apply Z.cong_iff_0 in He. apply Z.mod_divide in He as [k Hk]; [|lia]. assert (k = 0)%Z by nia. nia. }
  split.
  - apply window_wf_set; [done|]. apply is_long_lor; [by apply window_wf_long|apply to_long_is_long].
  - lia.
  - intros v. rewrite elem_of_union, elem_of_singleton. intros [->|Hv%Hb]; lia.
  - intros v Hv. pose proof (Z.mod_pos_bound v (width w) ltac:(lia)) as Hvr. rewrite bit_at_set by done.
    rewrite elem_of_union, elem_of_singleton.
    assert ((if decide (v mod width w / 64 = u mod width w / 64)%Z
       then Z.testbit (Z.lor (aget window1 (u mod width w / 64)) (long_shl 1 u)) ((v mod width w) mod 64)
       else bit_at window1 (v mod width w)) = true ↔ v = u ∨ bit_at window1 (v mod width w) = true) as ->.
    { pose proof (mod64_bound (v mod width w)). destruct (decide _) as [Heq|Hne].
      - rewrite Z.lor_spec, one_shl_bits, orb_true_iff, bool_decide_eq_true by done. rewrite <-Heq. fold (bit_at window1 (v mod width w)).
        rewrite <-(ring_bit u). split; [|naive_solver]. intros [?|Hm]; [by right|left].
        apply Hnear; [|lia]. rewrite (Z.div_mod (v mod width w) 64), (Z.div_mod (u mod width w) 64) by lia. lia.
      - split; [by right|]. by intros [->|?]. }
    rewrite Hc by done. destruct (decide (v ≤ top)%Z) as [Hvt|Hvt].
    + rewrite Hs by lia. split; [tauto|]. intros [?|Hin]; [by left|right]. split; [done|].
      intros (v' & Hv' & He). apply Hnear in He; lia.
    + split; [|intros [?|?%Hb]; [by left|lia]]. intros [?|[_ Hn]]; [by left|]. destruct Hn. exists v. lia.
Qed.
End ring.
End WindowBits.
