(* ===== verification/SealerWindowsSpec.v ===== *)
(** * The replay windows implement one set of units per image

    The specification keeps the images in slot order, each with its highest unit and
    the set of every unit it took. The hash table and the ring bitmaps of
    [SessionWindows.java] decide as it does. *)
From S2P Require Import Prelude Bytes Java SealerWindows SealerTable SealerBitmap.

Import SessionWindows WindowTable WindowBits.

(** ** The specification *)
Record Image : Type := mkImage { im_key : Z; im_top : Z; im_seen : gset Z; im_last : Z }.

(** The first image that has been silent longest. *)
Definition silent (a : list Image) : nat :=
  match list_find (λ im, Forall (λ im', (im_last im ≤ im_last im')%Z) a) a with Some (i, _) => i | None => 0 end.

(** The place of an image: its own, a new one, or the one silent longest. *)
Definition place (slots : Z) (a : list Image) (key now : Z) : list Image * nat :=
  match list_find (λ im, im_key im = key) a with
  | Some (i, im) => (<[i := mkImage key (im_top im) (im_seen im) now]> a, i)
  | None =>
    let im := mkImage key (-1) ∅ now in
    if (Z.of_nat (length a) <? slots)%Z then (a ++ [im], length a) else (<[silent a := im]> a, silent a)
  end.

Definition decide_unit (width : Z) (im : Image) (unit : Z) : Seen :=
  if (width <=? im_top im - unit)%Z then EXPIRED else if decide (unit ∈ im_seen im) then DUPLICATE else FRESH.

Definition take_unit (unit : Z) (im : Image) : Image :=
  mkImage (im_key im) (Z.max (im_top im) unit) ({[unit]} ∪ im_seen im) (im_last im).

(** One reference. [keep] is the answer of the other guards: without it the image
    does not take a fresh unit. *)
Definition spec_offer (slots width : Z) (a : list Image) (key unit now : Z) (keep : bool) : list Image * option Seen :=
  let '(a1, i) := place slots a key now in
  match a1 !! i with
  | None => (a1, None)
  | Some im =>
    let seen := decide_unit width im unit in
    (match seen, keep with FRESH, true => alter (take_unit unit) i a1 | _, _ => a1 end, Some seen)
  end.

(** The code: [check], then [mark] when the reference is fresh and kept. *)
Definition windows_offer (w : t) (lane session position now : Z) (keep : bool) : t * Seen :=
  let '(w', seen) := check w lane session position now in
  (match seen, keep with FRESH, true => mark w' | _, _ => w' end, seen).

(** ** The relation *)
Record rel (w : t) (a : list Image) : Prop := {
  rl_wide : wide w;
  rl_table : table_ok w (λ s, 0 ≤ s < used w)%Z;
  rl_used : (Z.of_nat (length a) = used w ∧ used w ≤ slots w)%Z;
  rl_arrays : length (keys w) = Z.to_nat (slots w) ∧ length (highest w) = Z.to_nat (slots w) ∧
    length (lastSeen w) = Z.to_nat (slots w) ∧ length (bits w) = Z.to_nat (slots w);
  rl_slot : ∀ i im, a !! i = Some im →
    keys w !! i = Some (im_key im) ∧ lastSeen w !! i = Some (im_last im) ∧ highest w !! i = Some (im_top im) ∧
    ∃ window, bits w !! i = Some window ∧ shows w window (im_top im) (im_seen im);
}.

Lemma aget_lookup {A} `{!Inhabited A} (l : list A) (i : nat) x : l !! i = Some x → aget l (Z.of_nat i) = x.
Proof. unfold aget. rewrite Nat2Z.id. apply list_lookup_total_correct. Qed.

Lemma aset_nat {A} (l : list A) (i : nat) x : aset (Z.of_nat i) x l = <[i := x]> l.
Proof. unfold aset. by rewrite Nat2Z.id. Qed.

(** [shows] reads the width of the windows only. *)
Lemma shows_width w w' window top seen : width w' = width w → shows w window top seen → shows w' window top seen.
Proof.
  intros E [[H1 H2] H3 H4 H5]. assert (wordsPerSlot w' = wordsPerSlot w) as E' by (unfold wordsPerSlot; by rewrite E).
  split; [split; [by rewrite E'|done]|done|done|by rewrite E].
Qed.

Lemma table_ok_ext w (U V : Z → Prop) : (∀ s, U s ↔ V s) → table_ok w U → table_ok w V.
Proof. intros He [H1 H2 H3 H4 H5 H6 H7]. split; intros; rewrite <-?He in *; eauto. Qed.

Lemma table_ok_keys w w' U : table w' = table w → slots w' = slots w →
  (∀ s, U s → key_of_slot w' s = key_of_slot w s) → table_ok w U → table_ok w' U.
Proof.
  intros Et Es Ek [[H1 H1'] H2 H3 H4 H5 H6 H7]. assert (size w' = size w) as Ez by (unfold size; by rewrite Es).
  assert (∀ p, at_ w' p = at_ w p) as Ea by (intros; unfold at_; by rewrite Et, Ez).
  assert (∀ s, U s → home w' s = home w s) as Eh.
  { intros s Hs. unfold home, hash, tableMask. by rewrite Ek, Es. }
  split.
  - split; [by rewrite Es|by rewrite Et, Ez].
  - by rewrite Es.
  - intros p. rewrite !Ea. apply H3.
  - intros p q. rewrite !Ea, Ez. apply H4.
  - intros s Hs. destruct (H5 s Hs) as [p Hp]. exists p. by rewrite Ea.
  - intros p q. rewrite !Ea. intros Hp. rewrite Eh, Ez by by apply H3. by apply H6.
  - intros s s' Hs Hs'. rewrite !Ek by done. by apply H7.
Qed.

Section offers.
Context (w : t) (a : list Image) (Hrel : rel w a).

Lemma rel_slot_lt i im : a !! i = Some im → (0 ≤ Z.of_nat i < used w)%Z.
Proof. intros Hi%lookup_lt_Some. pose proof (rl_used w a Hrel). lia. Qed.

Lemma rel_key i im : a !! i = Some im → key_of_slot w (Z.of_nat i) = im_key im.
Proof. intros Hi. apply aget_lookup. by apply (rl_slot w a Hrel i im Hi). Qed.

Lemma rel_image s : (0 ≤ s < used w)%Z → ∃ i im, s = Z.of_nat i ∧ a !! i = Some im.
Proof.
  intros Hs. pose proof (rl_used w a Hrel). destruct (lookup_lt_is_Some_2 a (Z.to_nat s)) as [im Him]; [lia|].
  exists (Z.to_nat s), im. split; [lia|done].
Qed.

Lemma find_image key i im : list_find (λ im, im_key im = key) a = Some (i, im) → find w key = Z.of_nat i ∧ a !! i = Some im.
Proof.
  intros (Hi & Hk & _)%list_find_Some. split; [|done]. rewrite <-Hk, <-(rel_key i im Hi).
  apply (find_found w _ (rl_table w a Hrel)). by eapply rel_slot_lt.
Qed.

Lemma absent_key key : list_find (λ im, im_key im = key) a = None → ∀ s, (0 ≤ s < used w)%Z → key_of_slot w s ≠ key.
Proof.
  intros Hn s Hs He. destruct (rel_image s Hs) as (i & im & -> & Him). rewrite (rel_key i im Him) in He.
  apply list_find_None, Forall_forall with (x := im) in Hn; [done|]. by eapply list_elem_of_lookup_2.
Qed.

(** The fold of [evictSilent]. *)
Lemma oldest_fold n : (0 < n ≤ length a)%nat →
  let o := fold_left (λ oldest s, if (aget (lastSeen w) s <? aget (lastSeen w) oldest)%Z then s else oldest)
             (seqZ 1 (Z.of_nat n - 1)) 0%Z in
  ∃ i im, o = Z.of_nat i ∧ (i < n)%nat ∧ a !! i = Some im ∧
    (∀ j im', (j < n)%nat → a !! j = Some im' → (im_last im ≤ im_last im')%Z ∧ ((j < i)%nat → (im_last im < im_last im')%Z)).
Proof.
  assert (∀ i im, a !! i = Some im → aget (lastSeen w) (Z.of_nat i) = im_last im) as Hlast.
  { intros i im Hi. apply aget_lookup. by apply (rl_slot w a Hrel i im Hi). }
  induction n as [|n IH]; intros Hn; [lia|]. destruct (decide (n = 0)%nat) as [->|Hn0].
  - destruct (lookup_lt_is_Some_2 a 0) as [im Him]; [lia|]. exists 0%nat, im. repeat split; try done; try lia.
    assert (j = 0%nat) as -> by lia. naive_solver.
  - destruct IH as (i & im & Ho & Hin & Him & Hmin); [lia|].
    replace (Z.of_nat (S n) - 1)%Z with (Z.of_nat n - 1 + 1)%Z by lia. rewrite seqZ_app by lia. rewrite fold_left_app. cbn zeta in Ho.
    rewrite Ho. replace (1 + (Z.of_nat n - 1))%Z with (Z.of_nat n) by lia. assert (∀ m, seqZ m 1 = [m]) as Eone by (intros m; unfold seqZ; cbn; f_equal; lia).
    rewrite Eone. cbn [fold_left]. destruct (lookup_lt_is_Some_2 a n) as [imn Himn]; [lia|].
    rewrite (Hlast n imn Himn), (Hlast i im Him). destruct (Z.ltb_spec (im_last imn) (im_last im)) as [Hlt|Hge].
    + exists n, imn. split; [done|]. split; [lia|]. split; [done|]. intros j im' Hj Hj'.
      destruct (decide (j = n)) as [->|Hne]; [assert (im' = imn) by congruence; subst; lia|].
      pose proof (Hmin j im' ltac:(lia) Hj'). lia.
    + exists i, im. split; [done|]. split; [lia|]. split; [done|]. intros j im' Hj Hj'.
      destruct (decide (j = n)) as [->|Hne]; [assert (im' = imn) by congruence; subst; lia|]. apply Hmin; [lia|done].
Qed.

Lemma oldest_silent : used w = slots w → oldest_slot w = Z.of_nat (silent a) ∧ ∃ im, a !! silent a = Some im.
Proof.
  intros Hfull. pose proof (slots_pos w (to_sized _ _ (rl_table w a Hrel))) as Hs. pose proof (rl_used w a Hrel) as Hu.
  destruct (oldest_fold (length a)) as (i & im & Ho & Hi & Him & Hmin); [lia|]. unfold oldest_slot.
  replace (slots w - 1)%Z with (Z.of_nat (length a) - 1)%Z by lia. rewrite Ho.
  assert (list_find (λ im, Forall (λ im', (im_last im ≤ im_last im')%Z) a) a = Some (i, im)) as Hf.
  { apply list_find_Some. split; [done|]. split.
    - apply Forall_lookup_2. intros j im' Hj. apply (Hmin j); [by eapply lookup_lt_Some|done].
    - intros j im' Hj Hji Hall. destruct (Hmin j im' ltac:(lia) Hj) as [_ Hlt]. specialize (Hlt Hji).
      pose proof (Forall_lookup_1 _ _ _ _ Hall Him). cbn in *. lia. }
  unfold silent. rewrite Hf. eauto.
Qed.

(** One slot is written. *)
Lemma rel_put w' a' i im window :
  slots w' = slots w → width w' = width w → table_ok w' (λ s, 0 ≤ s < used w')%Z →
  (Z.of_nat (length a') = used w' ∧ used w' ≤ slots w)%Z →
  keys w' = <[i := im_key im]> (keys w) → highest w' = <[i := im_top im]> (highest w) →
  lastSeen w' = <[i := im_last im]> (lastSeen w) → bits w' = <[i := window]> (bits w) →
  a' !! i = Some im → (∀ j, i ≠ j → a' !! j = a !! j) → shows w window (im_top im) (im_seen im) → rel w' a'.
Proof.
  intros Es Ew Ht Hl Ek Eh El Eb Hi Hj Hsh. destruct Hrel as [Hwd _ Hu (L1 & L2 & L3 & L4) Hslot].
  split; [unfold wide; by rewrite Ew|done|by rewrite Es|rewrite Ek, Eh, El, Eb, Es, !length_insert; done|].
  assert (i < Z.to_nat (slots w))%nat as Hlt by (apply lookup_lt_Some in Hi; lia).
  intros j im'. destruct (decide (i = j)) as [<-|Hne].
  - rewrite Hi, Ek, Eh, El, Eb. intros [= <-]. rewrite !list_lookup_insert_eq by lia. repeat split; try done.
    exists window. split; [done|]. by eapply shows_width.
  - rewrite Hj, Ek, Eh, El, Eb, !list_lookup_insert_ne by done. intros (H1 & H2 & H3 & wd & H4 & H5)%Hslot.
    repeat split; try done. exists wd. split; [done|]. by eapply shows_width.
Qed.

(** [slotOf] and the stamp of [check]. *)
Definition stamped (w1 : t) (slot now unit : Z) : t :=
  mk (slots w1) (width w1) (keys w1) (highest w1) (aset slot now (lastSeen w1)) (bits w1) (table w1) (used w1) slot unit.

Lemma slotOf_known key now unit i im : list_find (λ im, im_key im = key) a = Some (i, im) →
  slotOf w key = (w, Z.of_nat i) ∧ rel (stamped w (Z.of_nat i) now unit) (<[i := mkImage key (im_top im) (im_seen im) now]> a).
Proof.
  intros Hf. destruct (find_image key i im Hf) as [Hfi Hi]. pose proof (rel_slot_lt i im Hi) as Hlt.
  apply list_find_Some in Hf as (_ & Hk & _). unfold slotOf. rewrite Hfi. rewrite (proj2 (Z.leb_le _ _)) by lia. split; [done|].
  destruct (rl_slot w a Hrel i im Hi) as (H1 & H2 & H3 & window & H4 & H5).
  apply (rel_put _ _ i (mkImage key (im_top im) (im_seen im) now) window); cbn [slots width used keys highest lastSeen bits stamped im_key im_top im_last im_seen].
  - done.
  - done.
  - eapply table_ok_keys; [| | |apply (rl_table w a Hrel)]; done.
  - rewrite length_insert. by apply rl_used.
  - by rewrite <-Hk, list_insert_id.
  - by rewrite list_insert_id.
  - by rewrite aset_nat.
  - by rewrite list_insert_id.
  - apply list_lookup_insert_eq. by eapply lookup_lt_Some.
  - intros j Hj. by rewrite list_lookup_insert_ne.
  - done.
Qed.

(** A new image in the slot [i] of a table that does not find it. *)
Lemma rel_new w1 key now unit i a' tb u : table_ok (with_table w tb) (λ s, (0 ≤ s < used w)%Z ∧ s ≠ Z.of_nat i) →
  w1 = mk (slots w) (width w) (aset (Z.of_nat i) key (keys w)) (aset (Z.of_nat i) (-1)%Z (highest w)) (lastSeen w)
         (aset (Z.of_nat i) (replicate (Z.to_nat (wordsPerSlot w)) 0%Z) (bits w)) tb u (checkedSlot w) (checkedUnit w) →
  list_find (λ im, im_key im = key) a = None → (Z.of_nat i < slots w)%Z →
  u = Z.max (used w) (Z.of_nat i + 1) → (Z.of_nat i ≤ used w)%Z → Z.of_nat (length a') = u →
  a' !! i = Some (mkImage key (-1) ∅ now) → (∀ j, i ≠ j → a' !! j = a !! j) →
  rel (stamped (insert w1 key (Z.of_nat i)) (Z.of_nat i) now unit) a'.
Proof.
  intros Ht E1 Hn Hi Eu Hiu Hl Ha Hother. destruct (rl_arrays w a Hrel) as (L1 & L2 & L3 & L4).
  assert (∀ s, (0 ≤ s < used w)%Z ∧ s ≠ Z.of_nat i → key_of_slot w1 s = key_of_slot w s) as Hkeys.
  { intros s [Hs Hne]. subst w1. unfold key_of_slot, aget. cbn [keys]. rewrite aset_nat. apply list_lookup_total_insert_ne. lia. }
  assert (key_of_slot w1 (Z.of_nat i) = key) as Hk.
  { subst w1. apply aget_lookup. cbn [keys]. rewrite aset_nat. apply list_lookup_insert_eq. lia. }
  assert (table_ok w1 (λ s, (0 ≤ s < used w)%Z ∧ s ≠ Z.of_nat i)) as Ht1.
  { eapply table_ok_keys; [| | |exact Ht]; [by subst w1|by subst w1|done]. }
  assert (table_ok (insert w1 key (Z.of_nat i)) (λ s, 0 ≤ s < u)%Z) as Ht2.
  { eapply table_ok_ext; [|apply (insert_ok w1 _ Ht1 key (Z.of_nat i))]; [intros s; cbn; lia|lia|subst w1; cbn; lia|done|].
    intros s' Hs'. rewrite Hkeys by done. apply absent_key; [done|apply Hs']. }
  apply (rel_put _ _ i (mkImage key (-1) ∅ now) (replicate (Z.to_nat (wordsPerSlot w)) 0%Z)); try done; subst w1;
    cbn [slots width used keys highest lastSeen bits stamped insert with_table im_key im_top im_last im_seen];
    rewrite ?aset_nat; try done.
  - rewrite !aset_nat in Ht2. eapply table_ok_keys; [| | |exact Ht2]; done.
  - pose proof (rl_used w a Hrel). lia.
  - apply shows_empty. by apply rl_wide with a.
Qed.

Lemma slotOf_rel key now unit :
  let '(a1, i) := place (slots w) a key now in
  ∃ w1, slotOf w key = (w1, Z.of_nat i) ∧ rel (stamped w1 (Z.of_nat i) now unit) a1 ∧ slots w1 = slots w ∧ width w1 = width w ∧
    is_Some (a1 !! i).
Proof.
  unfold place. destruct (list_find _ a) as [[i im]|] eqn:Ef.
  { destruct (slotOf_known key now unit i im Ef) as [Hs Hr]. exists w. split; [done|]. split; [done|]. split; [done|]. split; [done|].
    apply list_find_Some in Ef as (Hi%lookup_lt_Some & _). rewrite list_lookup_insert_eq by done. eauto. }
  pose proof (find_absent w _ (rl_table w a Hrel) key (absent_key key Ef)) as Hneg. pose proof (rl_used w a Hrel) as [Hu Hus].
  unfold slotOf. rewrite (proj2 (Z.leb_gt _ _) Hneg), Hu. destruct (Z.ltb_spec (used w) (slots w)) as [Hlt|Hge].
  - rewrite <-Hu. eexists. split; [done|]. split; [|split; [done|split; [done|by rewrite list_lookup_middle]]].
    eapply (rel_new _ key now unit (length a) _ (table w)); [|done|done|lia|cbn; lia|lia|
      rewrite length_app; cbn; lia|by rewrite list_lookup_middle|].
    + eapply (table_ok_ext _ (λ s, 0 ≤ s < used w)%Z); [intros s; cbn; lia|]. eapply table_ok_keys; [| | |apply (rl_table w a Hrel)]; done.
    + intros j Hj. destruct (decide (j < length a)%nat); [by rewrite lookup_app_l|].
      rewrite lookup_app_r, !lookup_ge_None_2 by (cbn; lia). done.
  - destruct oldest_silent as [Ho [im Him]]; [lia|]. pose proof (rel_slot_lt _ _ Him) as Hlt.
    unfold evictSilent. rewrite Ho. fold (key_of_slot w (Z.of_nat (silent a))).
    destruct (remove_ok w _ (Z.of_nat (silent a)) (rl_table w a Hrel) Hlt) as [Htr Ew].
    set (w1 := remove w (key_of_slot w (Z.of_nat (silent a)))) in *. eexists. split; [done|]. split; [|split; [|split]].
    + eapply (rel_new _ key now unit (silent a) _ (table w1)); [| |done|lia| |lia| | |].
      * rewrite <-Ew. exact Htr.
      * rewrite Ew. done.
      * cbn. lia.
      * rewrite length_insert. cbn. lia.
      * apply list_lookup_insert_eq. by eapply lookup_lt_Some.
      * intros j Hj. by rewrite list_lookup_insert_ne.
    + rewrite Ew. done.
    + rewrite Ew. done.
    + rewrite list_lookup_insert_eq by (by eapply lookup_lt_Some). eauto.
Qed.
End offers.

(** [mark] after a fresh [check]. *)
Lemma mark_rel w a i im unit : rel w a → checkedSlot w = Z.of_nat i → checkedUnit w = unit → a !! i = Some im → (0 ≤ unit)%Z →
  (im_top im - width w < unit)%Z → rel (mark w) (alter (take_unit unit) i a).
Proof.
  intros Hrel Ec Eu Hi Hpos Hin. destruct (rl_slot w a Hrel i im Hi) as (H1 & H2 & H3 & window & H4 & H5).
  unfold mark. rewrite Ec, Eu. rewrite (aget_lookup _ _ _ H4), (aget_lookup _ _ _ H3).
  pose proof (shows_mark w (rl_wide w a Hrel) window (im_top im) (im_seen im) unit H5 Hpos Hin) as Hm. cbn zeta in Hm.
  set (window1 := if (im_top im <? unit)%Z then clearAbove w window (im_top im) unit else window) in *.
  assert ((if (im_top im <? unit)%Z then (clearAbove w window (im_top im) unit, unit) else (window, im_top im)) =
          (window1, Z.max (im_top im) unit)) as ->.
  { unfold window1. destruct (Z.ltb_spec (im_top im) unit); f_equal; lia. }
  eapply (rel_put w a Hrel _ _ i (take_unit unit im)); cbn [slots width used keys highest lastSeen bits take_unit im_key im_top im_last im_seen];
    rewrite ?aset_nat; try done.
  - eapply table_ok_keys; [| | |apply (rl_table w a Hrel)]; done.
  - rewrite length_alter. by apply rl_used.
  - by rewrite list_insert_id.
  - by rewrite list_insert_id.
  - by rewrite list_lookup_alter, Hi, decide_True.
  - intros j Hj. by rewrite list_lookup_alter_ne.
Qed.

Lemma mark_params w : slots (mark w) = slots w ∧ width (mark w) = width w.
Proof. unfold mark. by destruct (_ <? _)%Z. Qed.

Definition unit_of (position : Z) : Z := Z.shiftr (unsigned position) UNIT_SHIFT.

Lemma unit_nonneg position : (0 ≤ unit_of position)%Z.
Proof. apply Z.shiftr_nonneg. apply unsigned_bound. Qed.

Lemma windows_offer_rel w a lane session position now keep : rel w a →
  let '(a', seen) := spec_offer (slots w) (width w) a (keyOf lane session) (unit_of position) now keep in
  let '(w', seen') := windows_offer w lane session position now keep in
  rel w' a' ∧ seen = Some seen' ∧ slots w' = slots w ∧ width w' = width w.
Proof.
  intros Hrel. unfold spec_offer, windows_offer, check. pose proof (slotOf_rel w a Hrel (keyOf lane session) now (unit_of position)) as Hs.
  destruct (place _ _ _ _) as [a1 i]. destruct Hs as (w1 & -> & Hr & Es & Ew & [im Him]). rewrite Him.
  fold (unit_of position). fold (stamped w1 (Z.of_nat i) now (unit_of position)). set (w2 := stamped w1 _ _ _) in *.
  destruct (rl_slot w2 a1 Hr i im Him) as (_ & _ & H3 & window & H4 & H5). rewrite (aget_lookup _ _ _ H3), (aget_lookup _ _ _ H4).
  change (width w2) with (width w1). unfold decide_unit. rewrite Ew. destruct (Z.leb_spec (width w) (im_top im - unit_of position)) as [|Hin]; [done|].
  rewrite (shows_test w2 (rl_wide w2 a1 Hr) window _ _ _ H5) by (change (width w2) with (width w1); lia).
  rewrite decide_bool_decide. case_bool_decide; [done|]. destruct keep; [|done]. destruct (mark_params w2) as [-> ->]. split; [|done].
  apply (mark_rel w2 a1 i im); [done|done|done|done|apply unit_nonneg|]. change (width w2) with (width w1). lia.
Qed.

(** ** The claim *)
(** A reference, as the state hands it to the windows. *)
Record Ref : Type := mkRef { rf_lane : Z; rf_session : Z; rf_position : Z; rf_now : Z; rf_keep : bool }.

Fixpoint windows_run (w : t) (refs : list Ref) : list Seen :=
  match refs with
  | [] => []
  | r :: refs' =>
    let '(w', seen) := windows_offer w (rf_lane r) (rf_session r) (rf_position r) (rf_now r) (rf_keep r) in
    seen :: windows_run w' refs'
  end.

Fixpoint spec_run (slots width : Z) (a : list Image) (refs : list Ref) : list (option Seen) :=
  match refs with
  | [] => []
  | r :: refs' =>
    let '(a', seen) := spec_offer slots width a (keyOf (rf_lane r) (rf_session r)) (unit_of (rf_position r)) (rf_now r) (rf_keep r) in
    seen :: spec_run slots width a' refs'
  end.

Lemma windows_run_rel w a refs : rel w a → Some <$> windows_run w refs = spec_run (slots w) (width w) a refs.
Proof.
  revert w a. induction refs as [|r refs IH]; intros w a Hrel; [done|]. cbn [windows_run spec_run].
  pose proof (windows_offer_rel w a (rf_lane r) (rf_session r) (rf_position r) (rf_now r) (rf_keep r) Hrel) as Ho.
  destruct (spec_offer _ _ _ _ _ _ _) as [a' seen]. destruct (windows_offer _ _ _ _ _ _) as [w' seen'].
  destruct Ho as (Hr' & -> & <- & <-). cbn. f_equal. by apply IH.
Qed.

(** ** The new windows *)
Lemma power_of_two n : is_power_of_two n = true → ∃ k, (0 ≤ k)%Z ∧ n = (2 ^ k)%Z.
Proof.
  unfold is_power_of_two. rewrite andb_true_iff, Z.ltb_lt, Z.eqb_eq. intros [Hn Hl]. exists (Z.log2 n).
  split; [apply Z.log2_nonneg|]. destruct (Z.log2_spec n Hn) as [H1 H2]. apply Z.le_antisymm; [|done]. apply Z.nlt_ge. intros Hlt.
  assert (Z.log2 (n - 1) = Z.log2 n) as E by (apply Z.log2_unique; [apply Z.log2_nonneg|lia]).
  pose proof (Z.land_spec n (n - 1) (Z.log2 n)) as Hb. rewrite Hl, Z.bits_0, Z.bit_log2 in Hb by done.
  rewrite <-E, Z.bit_log2 in Hb; [done|]. pose proof (Z.pow_pos_nonneg 2 (Z.log2 n) ltac:(lia) (Z.log2_nonneg n)). lia.
Qed.

Lemma new_rel n wd w : new n wd = Ok w → rel w [] ∧ slots w = n ∧ width w = wd.
Proof.
  unfold new. destruct (is_power_of_two n) eqn:En; [|done]. destruct (is_power_of_two wd) eqn:Ewd; [|done]. cbn [negb orb].
  destruct (Z.ltb_spec wd 64) as [|Hwd]; [done|]. intros [= <-]. cbn [slots width]. split; [|done].
  apply power_of_two in En as (k & Hk & ->). apply power_of_two in Ewd as (m & Hm & ->). pose proof (Z.pow_pos_nonneg 2 k ltac:(lia) Hk).
  split; cbn [slots width used keys highest lastSeen bits].
  - exists (m - 6)%Z. assert (6 ≤ m)%Z as Hm6.
    { apply Z.nlt_ge. intros Hlt. pose proof (Z.pow_lt_mono_r 2 m 6). lia. }
    split; [lia|]. cbn [width]. change 64%Z with (2 ^ 6)%Z. rewrite <-Z.pow_add_r by lia. f_equal. lia.
  - set (w := mk _ _ _ _ _ _ _ _ _ _). assert (∀ p, at_ w p = (-1)%Z) as Hat.
    { intros p. unfold at_, aget. apply lookup_total_replicate_2.
      pose proof (Z.mod_pos_bound p (size w)). unfold size in *. cbn [slots w] in *. lia. }
    split; [split; [by exists k|unfold size; cbn [slots table w]; rewrite length_replicate; lia]|..]; cbn [used w];
      intros *; rewrite ?Hat; lia.
  - cbn. lia.
  - by rewrite !length_replicate.
  - done.
Qed.

(** C15. The replay windows decide by the history of each image. For every sequence
    of references, the answers of the hash table with its evictions and of the ring
    bitmaps are those of the specification: a unit [width] or more below the highest
    one of its image has expired, a unit the image took before is a duplicate, and
    every other one is fresh; a new image without a free slot takes the first slot
    that has been silent longest. *)
Theorem windows_refine (n wd : Z) (w : t) (refs : list Ref) :
  new n wd = Ok w → Some <$> windows_run w refs = spec_run n wd [] refs.
Proof. intros Hn. destruct (new_rel n wd w Hn) as (Hr & <- & <-). by apply windows_run_rel. Qed.

(** Three images in two slots. *)
Definition sample_refs : list Ref :=
  [mkRef 1 7 0 0 true; mkRef 1 7 64 1 true; mkRef 2 9 32 2 true; mkRef 1 7 0 3 true; mkRef 1 7 6400 3 true;
   mkRef 1 7 64 4 true; mkRef 3 5 96 5 true; mkRef 2 9 32 6 false; mkRef 3 5 96 7 true; mkRef 2 9 32 8 true].

Lemma windows_refine_witness :
  ∃ w, new 2 64 = Ok w ∧ Some <$> windows_run w sample_refs = spec_run 2 64 [] sample_refs ∧
    windows_run w sample_refs = [FRESH; FRESH; FRESH; DUPLICATE; FRESH; EXPIRED; FRESH; FRESH; DUPLICATE; FRESH].
Proof.
  eexists. split; [reflexivity|]. split; [by apply (windows_refine 2 64)|by vm_compute].
Defined.
