(* ===== verification/SealerState.v ===== *)
(** * The canonical state of the sealer

    Models [CanonicalSealerState.java] and [SealerSeed.java]: the deterministic
    state machine every member of the sealer cluster runs over the replicated log.
    A canonical id is the number of its 32 bytes and a sender the number of its 20
    bytes, so the length checks hold by construction; the all-zero sender is [0].
    A method that throws changes nothing before it throws, so it answers [Err] and
    the caller keeps the old state. [dedup] is a [LinkedHashMap] in insertion
    order, [expectedNonce] one in access order, [byDeadline] the [TreeMap] of the
    groups. *)
From S2P Require Import Prelude Bytes Java SealerVoid SealerVersions SealerWindows.

Definition TICK_INTERVAL_MS : Z := 250.
Definition MARKER_SLACK : Z := 4096.
Definition GENESIS_BLOCK_NUMBER : Z := 1.
Definition DEFAULT_INCLUSION_HORIZON_BLOCKS : Z := 64.
Definition DEFAULT_DA_LAG_BUDGET_BLOCKS : Z := 10000.

(** ** The values of the outcomes *)
Record Boundary : Type := mkBoundary { b_blockNumber : Z; endTxIdx : Z; l2Timestamp : Z; b_l1Origin : Z }.
Record Relayed : Type := mkRelayed { r_index : Z; r_payload : list N }.

Inductive RecordOutcome : Type :=
| RecordDuplicate
| RecordRelayed (r : Relayed)
| ContiguityReject (expectedNonce : Z)
| PastDeadline (maxInclusionBlock : Z)
| WindowFull
| DaLagReject
| RecordLagReject.

Inductive Admission : Type := ADM_FRESH | ADM_DUPLICATE | ADM_PAST_DEADLINE | ADM_WINDOW_FULL.

(** [OriginAdvance] and [RemoteOriginAdvance] hold the forced boundary, if any, and
    the relayed record. *)
Inductive OriginOutcome : Type :=
| OriginDuplicate
| OriginRelayed (forced : option Boundary) (r : Relayed)
| OriginGap (expectedOrigin : Z).

Inductive RemoteReject : Type := SEQ_MISMATCH | ANCHOR_REGRESSED | SLOT_COUNT_MISMATCH | UNKNOWN_ORIGIN | BAD_RANGE.

Inductive RemoteOriginOutcome : Type :=
| RemoteDuplicate
| RemoteRelayed (forced : option Boundary) (r : Relayed)
| RemoteRejected (reason : RemoteReject) (expectedNextSeq : Z).

Record RemotePeer : Type := mkPeer { anchorNumber : Z; nextSeqKnown : bool; nextSeq : Z }.

Inductive SeedStatus : Type := GENESIS | PENDING | CONFIRMED.

Record LagBudgets : Type := mkBudgets { daLagBlocks : Z; recordLagRecords : Z }.
(** The compact constructor. *)
Definition lag_budgets (da rec : Z) : result Exn LagBudgets :=
  if (da <? 0)%Z || (rec <? 0)%Z then Err IllegalArgument else Ok (mkBudgets da rec).

(** The replicated configuration: the final fields. *)
Record SealerConfig : Type := mkSealerConfig {
  dedupCapacity : Z;
  inclusionHorizonBlocks : Z;
  orderingWindow : Z;
  remoteOriginAllowlist : gset Z;
  daLagBudgetBlocks : Z;
}.

Record SealerSt : Type := mkSt {
  conf : SealerConfig;
  dedup : list (B256 * Z);
  byDeadline : gmap Z (list B256);
  expectedNonce : list (Address * Z);
  remoteOrigins : list (Z * RemotePeer);
  voids : VoidLedger.t;
  recorded : RecordedCursors.t;
  postedHead : Z;
  seedStatus : SeedStatus;
  seedDigest : B256;
  rules : DecisionRules.t;
  versions : VersionSwitch.t;
  windows : SessionWindows.t;
  canonicalCount : Z;
  blockNumber : Z;
  l1Origin : Z;
  lastL2Timestamp : Z;
  lastBoundaryCount : Z;
}.

(** Assignments. *)
Definition with_dedup (s : SealerSt) d b : SealerSt :=
  mkSt (conf s) d b (expectedNonce s) (remoteOrigins s) (voids s) (recorded s) (postedHead s) (seedStatus s)
    (seedDigest s) (rules s) (versions s) (windows s) (canonicalCount s) (blockNumber s) (l1Origin s)
    (lastL2Timestamp s) (lastBoundaryCount s).
Definition with_nonces (s : SealerSt) e : SealerSt :=
  mkSt (conf s) (dedup s) (byDeadline s) e (remoteOrigins s) (voids s) (recorded s) (postedHead s) (seedStatus s)
    (seedDigest s) (rules s) (versions s) (windows s) (canonicalCount s) (blockNumber s) (l1Origin s)
    (lastL2Timestamp s) (lastBoundaryCount s).
Definition with_remote (s : SealerSt) r : SealerSt :=
  mkSt (conf s) (dedup s) (byDeadline s) (expectedNonce s) r (voids s) (recorded s) (postedHead s) (seedStatus s)
    (seedDigest s) (rules s) (versions s) (windows s) (canonicalCount s) (blockNumber s) (l1Origin s)
    (lastL2Timestamp s) (lastBoundaryCount s).
Definition with_voids (s : SealerSt) v : SealerSt :=
  mkSt (conf s) (dedup s) (byDeadline s) (expectedNonce s) (remoteOrigins s) v (recorded s) (postedHead s)
    (seedStatus s) (seedDigest s) (rules s) (versions s) (windows s) (canonicalCount s) (blockNumber s) (l1Origin s)
    (lastL2Timestamp s) (lastBoundaryCount s).
Definition with_recorded (s : SealerSt) r : SealerSt :=
  mkSt (conf s) (dedup s) (byDeadline s) (expectedNonce s) (remoteOrigins s) (voids s) r (postedHead s)
    (seedStatus s) (seedDigest s) (rules s) (versions s) (windows s) (canonicalCount s) (blockNumber s) (l1Origin s)
    (lastL2Timestamp s) (lastBoundaryCount s).
Definition with_posted (s : SealerSt) p : SealerSt :=
  mkSt (conf s) (dedup s) (byDeadline s) (expectedNonce s) (remoteOrigins s) (voids s) (recorded s) p
    (seedStatus s) (seedDigest s) (rules s) (versions s) (windows s) (canonicalCount s) (blockNumber s) (l1Origin s)
    (lastL2Timestamp s) (lastBoundaryCount s).
Definition with_seed (s : SealerSt) st dg : SealerSt :=
  mkSt (conf s) (dedup s) (byDeadline s) (expectedNonce s) (remoteOrigins s) (voids s) (recorded s) (postedHead s)
    st dg (rules s) (versions s) (windows s) (canonicalCount s) (blockNumber s) (l1Origin s)
    (lastL2Timestamp s) (lastBoundaryCount s).
Definition with_versions (s : SealerSt) v : SealerSt :=
  mkSt (conf s) (dedup s) (byDeadline s) (expectedNonce s) (remoteOrigins s) (voids s) (recorded s) (postedHead s)
    (seedStatus s) (seedDigest s) (rules s) v (windows s) (canonicalCount s) (blockNumber s) (l1Origin s)
    (lastL2Timestamp s) (lastBoundaryCount s).
Definition with_windows (s : SealerSt) w : SealerSt :=
  mkSt (conf s) (dedup s) (byDeadline s) (expectedNonce s) (remoteOrigins s) (voids s) (recorded s) (postedHead s)
    (seedStatus s) (seedDigest s) (rules s) (versions s) w (canonicalCount s) (blockNumber s) (l1Origin s)
    (lastL2Timestamp s) (lastBoundaryCount s).
Definition with_count (s : SealerSt) n : SealerSt :=
  mkSt (conf s) (dedup s) (byDeadline s) (expectedNonce s) (remoteOrigins s) (voids s) (recorded s) (postedHead s)
    (seedStatus s) (seedDigest s) (rules s) (versions s) (windows s) n (blockNumber s) (l1Origin s)
    (lastL2Timestamp s) (lastBoundaryCount s).
Definition with_origin (s : SealerSt) o : SealerSt :=
  mkSt (conf s) (dedup s) (byDeadline s) (expectedNonce s) (remoteOrigins s) (voids s) (recorded s) (postedHead s)
    (seedStatus s) (seedDigest s) (rules s) (versions s) (windows s) (canonicalCount s) (blockNumber s) o
    (lastL2Timestamp s) (lastBoundaryCount s).

Module Sealer.
(** The constructor. *)
Definition new (cap initialBlockNumber : Z) (origins : gset Z) (voidConfig : VoidLedger.Config)
    (horizon window : Z) (budgets : LagBudgets) : result Exn SealerSt :=
  if (cap <=? 0)%Z then Err IllegalArgument
  else if (horizon <=? 0)%Z then Err IllegalArgument
  else if (window <? 0)%Z then Err IllegalArgument
  else
    w ← SessionWindows.new SessionWindows.DEFAULT_SLOTS SessionWindows.DEFAULT_WIDTH;
    Ok (mkSt (mkSealerConfig cap horizon window origins (daLagBlocks budgets)) [] ∅ [] []
          (VoidLedger.new voidConfig) (RecordedCursors.new (recordLagRecords budgets)) 0 GENESIS 0
          DecisionRules.start VersionSwitch.start w 0 initialBlockNumber 0 0 0).

(** ** The dedup window *)
Definition assignedDeadline (s : SealerSt) : Z :=
  let sum := long_add (blockNumber s) (inclusionHorizonBlocks (conf s)) in
  if (Z.land (Z.lxor (blockNumber s) sum) (Z.lxor (inclusionHorizonBlocks (conf s)) sum) <? 0)%Z then long_max else sum.

Definition insertFresh (s : SealerSt) (key : B256) (deadline : Z) : SealerSt :=
  let held := Z.min deadline (assignedDeadline s) in
  let group := default [] (byDeadline s !! held) in
  with_dedup s (lhm_put key held (dedup s))
    (<[held := if decide (key ∈ group) then group else group ++ [key]]> (byDeadline s)).

Definition contains (s : SealerSt) (id32 : B256) : bool := lhm_contains id32 (dedup s).

Definition dedupFull (s : SealerSt) : bool := (dedupCapacity (conf s) <=? Z.of_nat (length (dedup s)))%Z.

Definition firstSeen (s : SealerSt) (id32 : B256) (deadline : Z) : SealerSt * Admission :=
  if contains s id32 then (s, ADM_DUPLICATE)
  else if (deadline <? blockNumber s)%Z then (s, ADM_PAST_DEADLINE)
  else if dedupFull s then (s, ADM_WINDOW_FULL)
  else (insertFresh s id32 deadline, ADM_FRESH).

(** [byDeadline.headMap(blockNumber)]: the groups below the open block. *)
Definition pruneExpired (s : SealerSt) : SealerSt :=
  let expired := filter (λ e, (e.1 < blockNumber s)%Z) (map_to_list (byDeadline s)) in
  with_dedup s (fold_left (λ d id, lhm_remove id d) (expired ≫= snd) (dedup s))
    (filter (λ e, ¬ (e.1 < blockNumber s)%Z) (byDeadline s)).

Definition forget (s : SealerSt) (key : B256) : SealerSt :=
  match lhm_get key (dedup s) with
  | None => s
  | Some held =>
    let group := filter (λ id, id ≠ key) (default [] (byDeadline s !! held)) in
    with_dedup s (lhm_remove key (dedup s))
      (if decide (group = []) then delete held (byDeadline s) else <[held := group]> (byDeadline s))
  end.

(** ** The guards *)
Definition sealedHead (s : SealerSt) : Z := long_sub (blockNumber s) 1.
Definition sealedIndex (s : SealerSt) : Z := long_sub (canonicalCount s) 1.

Definition daLagHalted (s : SealerSt) : bool :=
  (0 <? daLagBudgetBlocks (conf s))%Z && (daLagBudgetBlocks (conf s) <? long_sub (sealedHead s) (postedHead s))%Z.

Definition recordLagHalted (s : SealerSt) : bool :=
  (VersionSwitch.version (versions s) <? VersionSwitch.CARRY_VERSION)%Z &&
  RecordedCursors.halted (recorded s) (sealedIndex s).

(** ** Records *)
Definition onRecord (s : SealerSt) (canonicalId32 : B256) (sender20 : Address) (nonce deadline : Z)
    (payload : list N) : SealerSt * RecordOutcome :=
  let user := negb (sender20 =? 0)%N in
  if contains s canonicalId32 then (s, RecordDuplicate)
  else if (deadline <? blockNumber s)%Z then (s, PastDeadline deadline)
  else if user && recordLagHalted s then (s, RecordLagReject)
  else if user && daLagHalted s then (s, DaLagReject)
  else if dedupFull s then (s, WindowFull)
  else
    let relay s :=
      let s := insertFresh s canonicalId32 deadline in
      (with_count s (long_add (canonicalCount s) 1), RecordRelayed (mkRelayed (canonicalCount s) payload)) in
    if user then
      let '(nonces, expected) := lru_get sender20 (expectedNonce s) in
      let s1 := with_nonces s nonces in
      match expected with
      | Some e =>
        if negb (e =? nonce)%Z then (s1, ContiguityReject e)
        else
          let s2 := with_nonces s1 (lru_put (dedupCapacity (conf s)) sender20 (long_add nonce 1) nonces) in
          relay (with_voids s2 (VoidLedger.onReference (voids s2) (canonicalCount s2) canonicalId32 sender20 nonce))
      | None =>
        let s2 := with_nonces s1 (lru_put (dedupCapacity (conf s)) sender20 (long_add nonce 1) nonces) in
        relay (with_voids s2 (VoidLedger.onReference (voids s2) (canonicalCount s2) canonicalId32 sender20 nonce))
      end
    else relay s.

(** The record without a sender or a deadline. *)
Definition onRecordPlain (s : SealerSt) (canonicalId32 : B256) (payload : list N) : SealerSt * option Relayed :=
  let '(s', o) := onRecord s canonicalId32 0 0 (assignedDeadline s) payload in
  (s', match o with RecordRelayed r => Some r | _ => None end).

(** ** Voids *)
Definition appendVoid (s : SealerSt) (e : VoidLedger.Entry) : SealerSt * Relayed :=
  let s1 := forget s (VoidLedger.e_id e) in
  let s2 := with_nonces s1 (lru_compute (VoidLedger.e_sender e) (λ x, Z.min x (VoidLedger.e_nonce e)) (expectedNonce s1)) in
  (with_count s2 (long_add (canonicalCount s2) 1), mkRelayed (canonicalCount s2) (VoidLedger.payload e)).

Definition onVoidRequest (s : SealerSt) (voterId index : Z) (txHash32 : B256) : SealerSt * (VoidLedger.Vote * option Relayed) :=
  let '(v, tally) := VoidLedger.onVote (voids s) voterId index txHash32 (canonicalCount s) in
  let s1 := with_voids s v in
  match VoidLedger.entry tally with
  | Some e => let '(s2, r) := appendVoid s1 e in (s2, (VoidLedger.vote tally, Some r))
  | None => (s1, (VoidLedger.vote tally, None))
  end.

(** ** References of decision versions 4 and 5 *)
Inductive RefOutcome : Type := RefOrdered (index : Z) | REF_DUPLICATE | REF_EXPIRED | REF_DA_LAG | REF_RECORD_LAG.

Definition onCarriedRef (s : SealerSt) (lane session position : Z) : SealerSt * RefOutcome :=
  let '(w, seen) := SessionWindows.check (windows s) lane session position (canonicalCount s) in
  let s1 := with_windows s w in
  match seen with
  | SessionWindows.DUPLICATE => (s1, REF_DUPLICATE)
  | SessionWindows.EXPIRED => (s1, REF_EXPIRED)
  | SessionWindows.FRESH =>
    if recordLagHalted s1 then (s1, REF_RECORD_LAG)
    else if daLagHalted s1 then (s1, REF_DA_LAG)
    else (with_count (with_windows s1 (SessionWindows.mark w)) (long_add (canonicalCount s1) 1),
          RefOrdered (canonicalCount s1))
  end.

Definition onRef (s : SealerSt) (lane session position : Z) (id32 : B256) : SealerSt * RefOutcome :=
  let '(s1, out) := onCarriedRef s lane session position in
  match out with
  | RefOrdered index => (with_voids s1 (VoidLedger.onReference (voids s1) index id32 0 0), out)
  | _ => (s1, out)
  end.

(** ** Boundaries and origins *)
Definition nextL2Timestamp (s : SealerSt) (leaderClockMillis : Z) : Z :=
  Z.max (Z.quot leaderClockMillis TICK_INTERVAL_MS * TICK_INTERVAL_MS) (long_add (lastL2Timestamp s) 1).

Definition onTick (s : SealerSt) (leaderClockMillis : Z) : SealerSt * Boundary :=
  let ts := nextL2Timestamp s leaderClockMillis in
  let boundary := mkBoundary (blockNumber s) (canonicalCount s) ts (l1Origin s) in
  let s1 := mkSt (conf s) (dedup s) (byDeadline s) (expectedNonce s) (remoteOrigins s) (voids s) (recorded s)
              (postedHead s) (seedStatus s) (seedDigest s) (rules s) (versions s) (windows s) (canonicalCount s)
              (long_add (blockNumber s) 1) (l1Origin s) (lastL2Timestamp s) (lastBoundaryCount s) in
  let s2 := pruneExpired s1 in
  (mkSt (conf s2) (dedup s2) (byDeadline s2) (expectedNonce s2) (remoteOrigins s2) (voids s2) (recorded s2)
     (postedHead s2) (seedStatus s2) (seedDigest s2) (DecisionRules.atBoundary (rules s2) (l1Origin s2))
     (VersionSwitch.atBoundary (versions s2) (l1Origin s2) (lastL2Timestamp s2) ts).1 (windows s2)
     (canonicalCount s2) (blockNumber s2) (l1Origin s2) ts (canonicalCount s2),
   boundary).

(** The boundary that a record which leads a block forces. *)
Definition forceBoundary (s : SealerSt) (leaderClockMillis : Z) : SealerSt * option Boundary :=
  if (lastBoundaryCount s <? canonicalCount s)%Z
  then let '(s', b) := onTick s leaderClockMillis in (s', Some b)
  else (s, None).

Definition onOriginRecord (s : SealerSt) (canonicalId32 : B256) (newL1Origin slotCount : Z) (payload : list N)
    (leaderClockMillis : Z) : result Exn (SealerSt * OriginOutcome) :=
  if (slotCount <? 1)%Z then Err IllegalArgument
  else if contains s canonicalId32 then Ok (s, OriginDuplicate)
  else if (newL1Origin <=? l1Origin s)%Z then Err IllegalArgument
  else if (0 <? l1Origin s)%Z && negb (newL1Origin =? long_add (l1Origin s) 1)%Z
  then Ok (s, OriginGap (long_add (l1Origin s) 1))
  else
    let s1 := insertFresh s canonicalId32 (assignedDeadline s) in
    let '(s2, forced) := forceBoundary s1 leaderClockMillis in
    let s3 := with_origin s2 newL1Origin in
    Ok (with_count s3 (long_add (canonicalCount s3) slotCount),
        OriginRelayed forced (mkRelayed (canonicalCount s3) payload)).

Definition onRemoteOriginRecord (s : SealerSt) (canonicalId32 : B256)
    (originChainId anchor slotCount firstSeq lastSeq : Z) (payload : list N) (leaderClockMillis : Z)
    : SealerSt * RemoteOriginOutcome :=
  if contains s canonicalId32 then (s, RemoteDuplicate)
  else if bool_decide (originChainId ∉ remoteOriginAllowlist (conf s)) then (s, RemoteRejected UNKNOWN_ORIGIN 0)
  else if ult lastSeq firstSeq then (s, RemoteRejected BAD_RANGE 0)
  else
    let span := long_sub lastSeq firstSeq in
    if ult (long_max - 2) span then (s, RemoteRejected BAD_RANGE 0)
    else if negb (slotCount =? long_add span 2)%Z then (s, RemoteRejected SLOT_COUNT_MISMATCH 0)
    else
      let peer := lhm_get originChainId (remoteOrigins s) in
      let mismatch := match peer with Some p => nextSeqKnown p && negb (nextSeq p =? firstSeq)%Z | None => false end in
      let regressed := match peer with Some p => ule anchor (anchorNumber p) | None => false end in
      if mismatch then (s, RemoteRejected SEQ_MISMATCH (match peer with Some p => nextSeq p | None => 0%Z end))
      else if regressed then (s, RemoteRejected ANCHOR_REGRESSED 0)
      else
        let s1 := insertFresh s canonicalId32 (assignedDeadline s) in
        let '(s2, forced) := forceBoundary s1 leaderClockMillis in
        let s3 := with_remote s2 (lhm_put originChainId (mkPeer anchor true (long_add lastSeq 1)) (remoteOrigins s2)) in
        (with_count s3 (long_add (canonicalCount s3) slotCount),
         RemoteRelayed forced (mkRelayed (canonicalCount s3) payload)).

(** ** Cursors, seed and feature records *)
Definition onPostedCursor (s : SealerSt) (head : Z) : result Exn (SealerSt * bool) :=
  if (sealedHead s <? head)%Z then Err IllegalArgument
  else if (head <=? postedHead s)%Z then Ok (s, false)
  else Ok (with_posted s head, true).

Definition onRecordedCursor (s : SealerSt) (executorId recordedThrough : Z) : result Exn (SealerSt * bool) :=
  if negb (VoidLedger.isVoter (voids s) executorId) then Err IllegalArgument
  else if ule (canonicalCount s) recordedThrough then Err IllegalArgument
  else let '(c, moved) := RecordedCursors.onCursor (recorded s) (Z.to_N executorId) recordedThrough in
       Ok (with_recorded s c, moved).

Definition onSeedEpoch (s : SealerSt) (digest : B256) : result Exn (SealerSt * bool) :=
  match seedStatus s with
  | GENESIS => Err IllegalState
  | st => if negb (digest =? seedDigest s)%N then Err IllegalState
          else Ok (with_seed s CONFIRMED (seedDigest s), match st with PENDING => true | _ => false end)
  end.

Definition onFeatureActivation (s : SealerSt) (a : VersionSwitch.FeatureActivation) : SealerSt * VersionSwitch.Outcome :=
  let '(v, out) := VersionSwitch.onActivation (versions s) a (l1Origin s) (lastL2Timestamp s) in
  (with_versions s v, out).

Definition decisionVersionOfOriginRecord (s : SealerSt) (leaderClockMillis : Z) : Z :=
  if (lastBoundaryCount s <? canonicalCount s)%Z
  then VersionSwitch.versionAtBoundary (versions s) (l1Origin s) (lastL2Timestamp s) (nextL2Timestamp s leaderClockMillis)
  else VersionSwitch.version (versions s).

(** ** The seed *)
Record Head : Type := mkHead { h_chainId : Z; h_block : Z; h_endTxIdx : Z; h_l2Timestamp : Z; h_l1Origin : Z }.
Record SealerSeed : Type := mkSeed { head : Head; stateRoot : B256; seed_senders : list (Address * Z); digest : B256 }.

Definition MAGIC : Z := 0x4B534544.
Definition SEED_VERSION : Z := 1.
Definition HEADER_LEN : Z := 4 + 4 + 5 * 8 + 32 + 4.
Definition SENDER_ENTRY_LEN : Z := 20 + 8.

Definition nonNegative : Reader Exn Z := v ← get_long; if (v <? 0)%Z then fail IllegalArgument else mret v.

Definition parse_seed (sha256 : list N → B256) (file : list N) : result Exn SealerSeed :=
  if (Z.of_nat (length file) <? HEADER_LEN)%Z then Err IllegalArgument
  else
    '(seed, _) ← (
      magic ← get_int;
      if negb (magic =? MAGIC)%Z then fail IllegalArgument
      else
        version ← get_int;
        if negb (version =? SEED_VERSION)%Z then fail IllegalArgument
        else
          chainId ← nonNegative; block ← nonNegative; end_ ← nonNegative; ts ← nonNegative; origin ← nonNegative;
          if (block =? 0)%Z || (block =? long_max)%Z then fail IllegalArgument
          else
            root ← get_word 32;
            count ← get_word 4;
            left ← remaining;
            if negb (Z.of_N count * SENDER_ENTRY_LEN =? left)%Z then fail IllegalArgument
            else
              senders ← read_many (address ← get_word 20; nonce ← nonNegative; mret (address, nonce)) (N.to_nat count);
              mret (mkSeed (mkHead chainId block end_ ts origin) root senders (sha256 file)) : Reader Exn SealerSeed) file;
    Ok seed.

Definition seeded (seed : SealerSeed) (cap : Z) (voidConfig : VoidLedger.Config) (horizon window : Z)
    (budgets : LagBudgets) : result Exn SealerSt :=
  let h := head seed in
  s ← new cap (long_add (h_block h) 1) ∅ voidConfig horizon window budgets;
  Ok (mkSt (conf s) (dedup s) (byDeadline s)
        (fold_left (λ m e, lru_put cap e.1 e.2 m) (seed_senders seed) (expectedNonce s))
        (remoteOrigins s) (voids s) (recorded s) (h_block h) PENDING (digest seed) (rules s) (versions s) (windows s)
        (h_endTxIdx h) (blockNumber s) (h_l1Origin h) (h_l2Timestamp h) (h_endTxIdx h)).
End Sealer.

(** ** The log *)
(** What the log holds, as the service hands it to the state. *)
Inductive Input : Type :=
| IRecord (id : B256) (sender : Address) (nonce deadline : Z) (payload : list N)
| IVoid (voterId index : Z) (hash : B256)
| IRef (lane session position : Z) (id : B256)
| ICarriedRef (lane session position : Z)
| ITick (clock : Z)
| IOrigin (id : B256) (origin slotCount : Z) (payload : list N) (clock : Z)
| IRemote (id : B256) (chain anchor slotCount firstSeq lastSeq : Z) (payload : list N) (clock : Z)
| IPosted (head : Z)
| IRecorded (executorId through : Z)
| ISeed (digest : B256)
| IFeature (a : VersionSwitch.FeatureActivation).

Inductive Output : Type :=
| ORecord (o : RecordOutcome)
| OVoid (vote : VoidLedger.Vote) (r : option Relayed)
| ORef (o : Sealer.RefOutcome)
| OTick (b : Boundary)
| OOrigin (o : OriginOutcome)
| ORemote (o : RemoteOriginOutcome)
| OMoved (b : bool)
| OFeature (o : VersionSwitch.Outcome)
| OThrown (e : Exn).

(** A method that may throw: the service catches, and the state is as before. *)
Definition caught {A} (s : SealerSt) (r : result Exn (SealerSt * A)) (f : A → Output) : SealerSt * Output :=
  match r with Ok (s', a) => (s', f a) | Err e => (s, OThrown e) end.

Definition step (s : SealerSt) (i : Input) : SealerSt * Output :=
  match i with
  | IRecord id sender nonce deadline payload =>
    let '(s', o) := Sealer.onRecord s id sender nonce deadline payload in (s', ORecord o)
  | IVoid voterId index hash =>
    let '(s', (v, r)) := Sealer.onVoidRequest s voterId index hash in (s', OVoid v r)
  | IRef lane session position id => let '(s', o) := Sealer.onRef s lane session position id in (s', ORef o)
  | ICarriedRef lane session position => let '(s', o) := Sealer.onCarriedRef s lane session position in (s', ORef o)
  | ITick clock => let '(s', b) := Sealer.onTick s clock in (s', OTick b)
  | IOrigin id origin slotCount payload clock => caught s (Sealer.onOriginRecord s id origin slotCount payload clock) OOrigin
  | IRemote id chain anchor slotCount firstSeq lastSeq payload clock =>
    let '(s', o) := Sealer.onRemoteOriginRecord s id chain anchor slotCount firstSeq lastSeq payload clock in (s', ORemote o)
  | IPosted head => caught s (Sealer.onPostedCursor s head) OMoved
  | IRecorded executorId through => caught s (Sealer.onRecordedCursor s executorId through) OMoved
  | ISeed digest => caught s (Sealer.onSeedEpoch s digest) OMoved
  | IFeature a => let '(s', o) := Sealer.onFeatureActivation s a in (s', OFeature o)
  end.
