(* ===== verification/SealerFacts.v ===== *)
(** * Facts about the canonical state of the sealer

    The dedup window with its deadline groups, and what each operation does to the
    fields of the state. *)
From S2P Require Import Prelude Bytes Java SealerVoid SealerVersions SealerWindows SealerState.

Arguments long_add : simpl never.
Arguments long_sub : simpl never.
Arguments VersionSwitch.atBoundary : simpl never.
Arguments SessionWindows.check : simpl never.
Arguments SessionWindows.mark : simpl never.
Arguments Sealer.assignedDeadline : simpl never.

(** Case analysis of an operation, from the inside of its matches. *)
Ltac destruct_innermost :=
  match goal with |- context [match ?x with _ => _ end] =>
    lazymatch x with context [match _ with _ => _ end] => fail | _ => destruct x end end.
Ltac sealer_op :=
  unfold Sealer.onRecord, Sealer.onVoidRequest, Sealer.appendVoid, Sealer.forget, Sealer.onRef, Sealer.onCarriedRef, caught,
    Sealer.onOriginRecord, Sealer.onRemoteOriginRecord, Sealer.forceBoundary, Sealer.onPostedCursor, Sealer.onRecordedCursor,
    Sealer.onSeedEpoch, Sealer.onFeatureActivation;
  repeat (first [done | progress cbn [fst snd] | destruct_innermost]).

Section facts.
Implicit Types (s : SealerSt) (id : B256) (d : Z).

(** The values that the counters keep while they do not overflow. *)
Record in_range s : Prop := {
  ir_count : (0 ≤ canonicalCount s ≤ long_max)%Z;
  ir_block : (0 ≤ blockNumber s ≤ long_max)%Z;
  ir_time : (0 ≤ lastL2Timestamp s < long_max)%Z;
  ir_origin : (0 ≤ l1Origin s ≤ long_max)%Z;
  ir_horizon : (0 < inclusionHorizonBlocks (conf s) ≤ long_max)%Z;
}.

Lemma long_add_small a b : (0 ≤ a)%Z → (0 ≤ b)%Z → (a + b ≤ long_max)%Z → long_add a b = (a + b)%Z.
Proof. intros. apply to_long_small. unfold is_long, long_min, long_max in *. lia. Qed.

(** An overflow shows as a negative sum. *)
Lemma long_add_nonneg a b : (0 ≤ a ≤ long_max)%Z → (0 ≤ b ≤ long_max)%Z → (0 ≤ long_add a b)%Z → long_add a b = (a + b)%Z.
Proof.
  unfold long_max. intros Ha Hb. destruct (decide (a + b ≤ long_max)%Z) as [H|H].
  { intros _. apply long_add_small; lia. }
  unfold long_add, to_long, long_max in *. intros Hs. exfalso. revert Hs.
  replace (a + b + 2 ^ 63)%Z with (a + b - 2 ^ 63 + 1 * 2 ^ 64)%Z by lia.
  rewrite Z.mod_add, Z.mod_small by lia. lia.
Qed.

Lemma assignedDeadline_sum s : (0 ≤ blockNumber s ≤ long_max)%Z → (0 < inclusionHorizonBlocks (conf s) ≤ long_max)%Z →
  Sealer.assignedDeadline s = Z.min long_max (blockNumber s + inclusionHorizonBlocks (conf s)).
Proof.
  intros Hb Hh. unfold Sealer.assignedDeadline. set (a := blockNumber s) in *. set (h := inclusionHorizonBlocks (conf s)) in *.
  destruct (decide (a + h ≤ long_max)%Z) as [Hle|Hgt].
  - rewrite long_add_small by lia. rewrite Z.min_r by lia. replace (_ <? 0)%Z with false; [done|]. symmetry. apply Z.ltb_ge.
    apply Z.land_nonneg. left. apply Z.lxor_nonneg. lia.
  - assert (long_add a h < 0)%Z as Hn.
    { unfold long_add, to_long, long_max in *. replace (a + h + 2 ^ 63)%Z with (a + h - 2 ^ 63 + 1 * 2 ^ 64)%Z by lia.
      rewrite Z.mod_add, Z.mod_small by lia. lia. }
    rewrite Z.min_l by lia. replace (_ <? 0)%Z with true; [done|]. symmetry. apply Z.ltb_lt.
    apply Z.land_neg. split; apply Z.lt_nge; rewrite Z.lxor_nonneg; lia.
Qed.

Lemma assignedDeadline_eq s : in_range s →
  Sealer.assignedDeadline s = Z.min long_max (blockNumber s + inclusionHorizonBlocks (conf s)).
Proof. intros [_ Hb _ _ Hh]. by apply assignedDeadline_sum. Qed.

(** ** The window *)
Record window_ok s : Prop := {
  wo_nodup : NoDup (dedup s).*1;
  wo_groups : ∀ d g, byDeadline s !! d = Some g → g ≠ [] ∧ NoDup g;
  wo_group : ∀ id d, lhm_get id (dedup s) = Some d ↔ ∃ g, byDeadline s !! d = Some g ∧ id ∈ g;
}.

(** Every held deadline is at or past the open block. *)
Definition window_live s : Prop := ∀ id d, lhm_get id (dedup s) = Some d → (blockNumber s ≤ d)%Z.

Lemma contains_get s id : Sealer.contains s id = true ↔ is_Some (lhm_get id (dedup s)).
Proof. unfold Sealer.contains, lhm_contains. apply bool_decide_eq_true. Qed.

Lemma window_contains_false s id : Sealer.contains s id = false ↔ lhm_get id (dedup s) = None.
Proof. rewrite eq_None_not_Some, <-contains_get. destruct (Sealer.contains s id); naive_solver. Qed.

Lemma insertFresh_get s id d id' :
  lhm_get id' (dedup (Sealer.insertFresh s id d)) =
  if decide (id' = id) then Some (Z.min d (Sealer.assignedDeadline s)) else lhm_get id' (dedup s).
Proof. apply lhm_get_put. Qed.

Lemma insertFresh_ok s id d : Sealer.contains s id = false → window_ok s → window_ok (Sealer.insertFresh s id d).
Proof.
  intros Hc%window_contains_false [Hnd Hgs Hg]. unfold Sealer.insertFresh. set (h := Z.min d _).
  assert (id ∉ default [] (byDeadline s !! h)) as Hout.
  { destruct (byDeadline s !! h) as [g|] eqn:E; cbn; [|set_solver]. intros Hin.
    rewrite (proj2 (Hg id h)) in Hc; [done|]. eauto. }
  rewrite decide_False by done. split; cbn [dedup byDeadline Sealer.insertFresh with_dedup].
  - rewrite lhm_put_fresh, fmap_app by done. apply NoDup_app. split; [done|].
    apply lhm_get_None in Hc. split; [|repeat constructor; set_solver]. intros x Hx ->%list_elem_of_singleton. done.
  - intros d' g. destruct (decide (h = d')) as [<-|Hne].
    + rewrite lookup_insert_eq. intros [= <-]. split; [by destruct (default _ _)|].
      apply NoDup_app. split; [|split; [|repeat constructor; set_solver]].
      * destruct (byDeadline s !! h) as [g|] eqn:E; [|constructor]. by apply (Hgs h).
      * intros x Hx ->%list_elem_of_singleton. done.
    + rewrite lookup_insert_ne by done. apply Hgs.
  - intros id' d'. rewrite lhm_get_put. destruct (decide (id' = id)) as [->|Hid].
    + split.
      * intros [= <-]. rewrite lookup_insert_eq. eexists. split; [done|]. set_solver.
      * intros (g & Hl & Hin). destruct (decide (h = d')) as [<-|Hne]; [done|]. rewrite lookup_insert_ne in Hl by done.
        rewrite (proj2 (Hg id d')) in Hc; [done|]. eauto.
    + rewrite Hg. destruct (decide (h = d')) as [<-|Hne].
      * rewrite lookup_insert_eq. split.
        -- intros (g & -> & Hin). eexists. split; [done|]. set_solver.
        -- intros (g & [= <-] & [Hin|Hin%list_elem_of_singleton]%elem_of_app); [|done].
           destruct (byDeadline s !! h); [eauto|set_solver].
      * by rewrite lookup_insert_ne.
Qed.

(** [forget] removes one id. *)
Lemma forget_get s id id' : lhm_get id' (dedup (Sealer.forget s id)) = if decide (id' = id) then None else lhm_get id' (dedup s).
Proof.
  unfold Sealer.forget. destruct (lhm_get id (dedup s)) eqn:E; cbn; [apply lhm_get_remove|]. case_decide; congruence.
Qed.

Lemma forget_ok s id : window_ok s → window_ok (Sealer.forget s id).
Proof.
  intros Hok. pose proof (forget_get s id) as Hget. destruct Hok as [Hnd Hgs Hg]. unfold Sealer.forget in *.
  destruct (lhm_get id (dedup s)) as [h|] eqn:Eh; [|by split].
  destruct (proj1 (Hg id h) Eh) as (gr & Egr & Hin). rewrite Egr in *. change (default [] (Some gr)) with gr in *.
  set (g' := filter (λ x, x ≠ id) gr) in *. cbn [dedup byDeadline with_dedup] in *.
  assert (∀ d, (if decide (g' = []) then delete h (byDeadline s) else <[h:=g']> (byDeadline s)) !! d =
    if decide (d = h) then (if decide (g' = []) then None else Some g') else byDeadline s !! d) as Hl.
  { intros d. case_decide; [rewrite lookup_delete|rewrite lookup_insert]; repeat case_decide; congruence. }
  split; cbn [dedup byDeadline with_dedup].
  - by apply lhm_remove_NoDup.
  - intros d g. rewrite Hl. destruct (decide (d = h)) as [->|Hd]; [|apply Hgs].
    destruct (decide (g' = [])); [done|]. intros [= <-]. split; [done|]. apply NoDup_filter. by apply (Hgs h).
  - intros id' d. rewrite Hget, Hl. destruct (decide (id' = id)) as [->|Hid].
    + split; [done|]. intros (g & E1 & E2). destruct (decide (d = h)) as [->|Hd].
      * destruct (decide (g' = [])); [done|]. injection E1 as <-. by apply list_elem_of_filter in E2 as [? _].
      * destruct Hd. assert (lhm_get id (dedup s) = Some d) as E' by (apply Hg; eauto). congruence.
    + rewrite Hg. destruct (decide (d = h)) as [->|Hd]; [|done]. rewrite Egr. split.
      * intros (g & [= <-] & E2). assert (id' ∈ g') as Hg' by (by apply list_elem_of_filter). exists g'.
        split; [|done]. rewrite decide_False; [done|]. intros E. rewrite E in Hg'. by apply elem_of_nil in Hg'.
      * intros (g & E1 & E2). destruct (decide (g' = [])); [done|]. injection E1 as <-. apply list_elem_of_filter in E2 as [_ E2]. eauto.
Qed.

Lemma fold_remove_get ids (m : list (B256 * Z)) id :
  lhm_get id (fold_left (λ m x, lhm_remove x m) ids m) = if decide (id ∈ ids) then None else lhm_get id m.
Proof.
  revert m. induction ids as [|x ids IH]; intros m; cbn [fold_left]; [by rewrite decide_False by set_solver|].
  rewrite IH, lhm_get_remove. destruct (decide (id ∈ ids)) as [|Hn]; [by rewrite decide_True by set_solver|].
  destruct (decide (id = x)) as [->|Hx]; [by rewrite decide_True by set_solver|]. by rewrite decide_False by set_solver.
Qed.

Lemma fold_remove_NoDup ids (m : list (B256 * Z)) : NoDup m.*1 → NoDup (fold_left (λ m x, lhm_remove x m) ids m).*1.
Proof. revert m. induction ids as [|x ids IH]; intros m Hm; cbn [fold_left]; [done|]. apply IH. by apply lhm_remove_NoDup. Qed.

Lemma expired_ids s id : window_ok s →
  id ∈ (filter (λ e, (e.1 < blockNumber s)%Z) (map_to_list (byDeadline s)) ≫= snd) ↔
  ∃ d, lhm_get id (dedup s) = Some d ∧ (d < blockNumber s)%Z.
Proof.
  intros [_ _ Hg]. rewrite list_elem_of_bind. split.
  - intros ([d g] & Hin & [Hd Hm]%list_elem_of_filter). cbn in *. apply elem_of_map_to_list in Hm.
    exists d. split; [|done]. apply Hg. eauto.
  - intros (d & (g & Hl & Hin)%Hg & Hd). exists (d, g). split; [done|]. apply list_elem_of_filter. cbn.
    split; [done|]. by apply elem_of_map_to_list.
Qed.

Lemma prune_get s id : window_ok s →
  lhm_get id (dedup (Sealer.pruneExpired s)) =
  match lhm_get id (dedup s) with Some d => if decide (d < blockNumber s)%Z then None else Some d | None => None end.
Proof.
  intros Hok. unfold Sealer.pruneExpired. cbn [dedup with_dedup]. rewrite fold_remove_get.
  destruct (decide (id ∈ _)) as [Hin|Hin]; rewrite (expired_ids s id Hok) in Hin.
  - destruct Hin as (d & -> & Hd). by rewrite decide_True.
  - destruct (lhm_get id (dedup s)) as [d|]; [|done]. rewrite decide_False; [done|]. intros Hd. apply Hin. eauto.
Qed.

Lemma prune_ok s : window_ok s → window_ok (Sealer.pruneExpired s).
Proof.
  intros Hok. pose proof (prune_get s) as Hget. destruct Hok as [Hnd Hgs Hg]. split.
  - by apply fold_remove_NoDup.
  - intros d g. cbn. rewrite map_lookup_filter_Some. intros [? _]. by apply (Hgs d).
  - intros id d. rewrite Hget by done. cbn. setoid_rewrite map_lookup_filter_Some. cbn. split.
    + destruct (lhm_get id (dedup s)) as [d'|] eqn:E; [|done]. case_decide; [done|]. intros [= ->].
      apply Hg in E as (g & ? & ?). eauto.
    + intros (g & [Hl Hd] & Hin). rewrite (proj2 (Hg id d)) by eauto. by rewrite decide_False.
Qed.

(** ** The window under a step *)
Definition same_window s s' : Prop :=
  dedup s' = dedup s ∧ byDeadline s' = byDeadline s ∧ blockNumber s' = blockNumber s ∧ conf s' = conf s.

Lemma window_ok_ext s s' : dedup s' = dedup s → byDeadline s' = byDeadline s → window_ok s → window_ok s'.
Proof. intros Ed Eb [Hnd Hgs Hg]. split; rewrite ?Ed, ?Eb; done. Qed.

Lemma window_ok_same s s' : same_window s s' → window_ok s → window_ok s'.
Proof. intros (Ed & Eb & _ & _). by apply window_ok_ext. Qed.

Lemma onTick_block s c : blockNumber (Sealer.onTick s c).1 = long_add (blockNumber s) 1.
Proof. done. Qed.

Lemma onTick_get s c id : window_ok s →
  lhm_get id (dedup (Sealer.onTick s c).1) =
  match lhm_get id (dedup s) with Some d => if decide (d < long_add (blockNumber s) 1)%Z then None else Some d | None => None end.
Proof.
  intros Hok. unfold Sealer.onTick. cbn [fst dedup]. rewrite prune_get; [done|]. by apply (window_ok_ext s).
Qed.

Lemma onTick_ok s c : window_ok s → window_ok (Sealer.onTick s c).1.
Proof.
  intros Hok. unfold Sealer.onTick. cbn [fst]. eapply window_ok_ext; [| |apply prune_ok; eapply (window_ok_ext s); [| |exact Hok]]; done.
Qed.

Lemma onCarriedRef_same s lane session position : same_window s (Sealer.onCarriedRef s lane session position).1.
Proof.
  unfold Sealer.onCarriedRef. destruct (SessionWindows.check _ _ _ _ _) as [w []]; try done.
  by destruct (Sealer.recordLagHalted _); [|destruct (Sealer.daLagHalted _)].
Qed.

Lemma onRef_same s lane session position id : same_window s (Sealer.onRef s lane session position id).1.
Proof.
  unfold Sealer.onRef. pose proof (onCarriedRef_same s lane session position) as H.
  destruct (Sealer.onCarriedRef _ _ _ _) as [s1 []]; done.
Qed.

Section window_step.
(** A property of the window that each of its changes keeps is kept by a step. *)
Context (P : SealerSt → Prop) (may_forget : B256 → Prop).
Hypothesis P_same : ∀ s s', same_window s s' → P s → P s'.
Hypothesis P_insert : ∀ s id d, P s → Sealer.contains s id = false →
  (blockNumber s ≤ d)%Z ∨ d = Sealer.assignedDeadline s → P (Sealer.insertFresh s id d).
Hypothesis P_forget : ∀ s id, P s → may_forget id → P (Sealer.forget s id).
Hypothesis P_tick : ∀ s c, P s → blockNumber (Sealer.onTick s c).1 = (blockNumber s + 1)%Z → P (Sealer.onTick s c).1.

Lemma onRecord_window s id a n d p : P s → P (Sealer.onRecord s id a n d p).1.
Proof.
  intros HP. unfold Sealer.onRecord. destruct (Sealer.contains s id) eqn:Ec; [done|].
  destruct (Z.ltb_spec d (blockNumber s)) as [|Hd]; [done|]. destruct (_ && Sealer.recordLagHalted s); [done|].
  destruct (_ && Sealer.daLagHalted s); [done|]. destruct (Sealer.dedupFull s); [done|].
  assert (∀ s', same_window s s' →
    P (with_count (Sealer.insertFresh s' id d) (long_add (canonicalCount (Sealer.insertFresh s' id d)) 1))) as Hr.
  { intros s' Hs. eapply P_same; [|apply (P_insert s' id d)]; [done|by eapply P_same| |].
    - apply window_contains_false. apply window_contains_false in Ec. destruct Hs as (-> & _). done.
    - left. by destruct Hs as (_ & _ & -> & _). }
  destruct (negb _); [|by apply Hr]. destruct (lru_get _ _) as [nonces [e|]]; [destruct (negb _)|].
  - by eapply P_same; [|exact HP].
  - by apply Hr.
  - by apply Hr.
Qed.

Lemma lead_window s id c s' forced : P s → Sealer.contains s id = false →
  Sealer.forceBoundary (Sealer.insertFresh s id (Sealer.assignedDeadline s)) c = (s', forced) →
  (0 ≤ blockNumber s ≤ long_max)%Z → (0 ≤ blockNumber s')%Z → P s'.
Proof.
  intros HP Hc Hf Hb Hb'. assert (P (Sealer.insertFresh s id (Sealer.assignedDeadline s))) as H1 by auto.
  unfold Sealer.forceBoundary in Hf. destruct (_ <? _)%Z; [|by injection Hf as <- _].
  destruct (Sealer.onTick _ c) as [s1 b] eqn:Et. injection Hf as <- _.
  assert (s1 = (Sealer.onTick (Sealer.insertFresh s id (Sealer.assignedDeadline s)) c).1) as -> by by rewrite Et.
  apply P_tick; [done|]. rewrite onTick_block in *. cbn in *. apply long_add_nonneg; [done|unfold long_max; lia|done].
Qed.

Lemma step_window s i : P s → (0 ≤ blockNumber s ≤ long_max)%Z → (0 ≤ blockNumber (step s i).1)%Z →
  (∀ voter index hash r, i = IVoid voter index hash → (step s i).2 = OVoid VoidLedger.DECIDED (Some r) → may_forget hash) →
  P (step s i).1.
Proof.
  intros HP Hb Hb' Hv. destruct i; cbn [step] in *.
  - pose proof (onRecord_window s id sender nonce deadline payload HP). by destruct (Sealer.onRecord _ _ _ _ _ _).
  - unfold Sealer.onVoidRequest in *. pose proof (VoidLedger.onVote_entry (voids s) voterId index hash (canonicalCount s)) as He.
    destruct (VoidLedger.onVote _ _ _ _ _) as [v tally]. cbn [fst snd] in He.
    destruct (VoidLedger.entry tally) as [e|]; [|by eapply P_same; [|exact HP]]. destruct He as [Hv' He].
    unfold Sealer.appendVoid in *. cbn [fst snd] in *. eapply P_same; [|apply (P_forget (with_voids s v) (VoidLedger.e_id e))].
    + done.
    + by eapply P_same; [|exact HP].
    + rewrite He. eapply Hv; [done|]. by rewrite Hv'.
  - pose proof (onRef_same s lane session position id) as Hs. destruct (Sealer.onRef _ _ _ _ _). by eapply P_same.
  - pose proof (onCarriedRef_same s lane session position) as Hs. destruct (Sealer.onCarriedRef _ _ _ _). by eapply P_same.
  - destruct (Sealer.onTick s clock) as [s' b] eqn:Et. cbn [fst] in *.
    assert (s' = (Sealer.onTick s clock).1) as -> by by rewrite Et.
    apply P_tick; [done|]. rewrite onTick_block in *. apply long_add_nonneg; [done|unfold long_max; lia|done].
  - unfold caught, Sealer.onOriginRecord in *. destruct (slotCount <? 1)%Z; [done|].
    destruct (Sealer.contains s id) eqn:Ec; [done|]. destruct (_ <=? _)%Z; [done|]. destruct (_ && _); [done|].
    destruct (Sealer.forceBoundary _ _) as [s2 forced] eqn:Ef. cbn [fst] in *.
    eapply P_same; [|by eapply (lead_window s id clock s2 forced)]. done.
  - unfold Sealer.onRemoteOriginRecord in *. destruct (Sealer.contains s id) eqn:Ec; [done|].
    destruct (bool_decide _); [done|]. destruct (ult lastSeq firstSeq); [done|]. destruct (ult _ _); [done|].
    destruct (negb _); [done|]. set (m := match lhm_get chain _ with Some _ => _ | None => false end) in *.
    destruct m; [done|]. set (r := match lhm_get chain _ with Some _ => _ | None => false end) in *. destruct r; [done|].
    destruct (Sealer.forceBoundary _ _) as [s2 forced] eqn:Ef. cbn [fst] in *.
    eapply P_same; [|by eapply (lead_window s id clock s2 forced)]. done.
  - unfold caught, Sealer.onPostedCursor. destruct (_ <? _)%Z; [done|]. destruct (_ <=? _)%Z; [done|]. by eapply P_same; [|exact HP].
  - unfold caught, Sealer.onRecordedCursor. destruct (negb _); [done|]. destruct (ule _ _); [done|].
    destruct (RecordedCursors.onCursor _ _ _). by eapply P_same; [|exact HP].
  - unfold caught, Sealer.onSeedEpoch. destruct (seedStatus s); try done; destruct (negb _); try done; by eapply P_same; [|exact HP].
  - unfold Sealer.onFeatureActivation. destruct (VersionSwitch.onActivation _ _ _ _). by eapply P_same; [|exact HP].
Qed.
End window_step.

(** What an ordered record did. *)
Lemma onRecord_relayed s id a n d p s1 r : Sealer.onRecord s id a n d p = (s1, RecordRelayed r) →
  Sealer.contains s id = false ∧
  (∀ id', lhm_get id' (dedup s1) = if decide (id' = id) then Some (Z.min d (Sealer.assignedDeadline s)) else lhm_get id' (dedup s)) ∧
  (window_ok s → window_ok s1).
Proof.
  unfold Sealer.onRecord. destruct (Sealer.contains s id) eqn:Ec; [done|].
  destruct (_ <? _)%Z; [done|]. destruct (_ && Sealer.recordLagHalted s); [done|].
  destruct (_ && Sealer.daLagHalted s); [done|]. destruct (Sealer.dedupFull s); [done|].
  intros Ho. assert (∃ s', same_window s s' ∧ same_window (Sealer.insertFresh s' id d) s1) as (s' & Hs' & Hs1).
  { destruct (negb _); [|injection Ho as <- _; by exists s]. destruct (lru_get _ _) as [nonces [e|]]; [destruct (negb _); [done|]|];
      injection Ho as <- _; eexists; (split; [|done]); done. }
  split; [done|]. split.
  - intros id'. destruct Hs1 as (-> & _). rewrite insertFresh_get. destruct Hs' as (-> & _ & Eb & Ec').
    unfold Sealer.assignedDeadline. by rewrite Eb, Ec'.
  - intros Hok. eapply window_ok_same; [exact Hs1|]. apply insertFresh_ok; [|by eapply window_ok_same].
    apply window_contains_false. destruct Hs' as (-> & _). by apply window_contains_false.
Qed.

(** ** The fields that a step leaves *)
Lemma step_conf s i : conf (step s i).1 = conf s.
Proof. destruct i; cbn [step]; sealer_op. Qed.

Lemma step_nonces s i : match i with IRecord _ _ _ _ _ | IVoid _ _ _ => False | _ => True end →
  expectedNonce (step s i).1 = expectedNonce s.
Proof. destruct i; cbn [step]; intros H; try done; sealer_op. Qed.
End facts.
