(* ===== verification/SealerSpec.v ===== *)
(** * Correctness of the canonical order

    Theorems about every run of the state machine over a log. *)
From S2P Require Import Prelude Bytes Java SealerVoid SealerVersions SealerWindows SealerState SealerFacts.

(** The numbers of an input are longs. *)
Definition typed (i : Input) : Prop :=
  match i with
  | IOrigin _ origin slotCount _ _ => is_long origin ∧ is_long slotCount
  | IRecorded _ through => is_long through
  | _ => True
  end.

(** A run over a log, as long as the counters stay in range. *)
Inductive run : SealerSt → list (Input * Output) → SealerSt → Prop :=
| run_nil s : in_range s → run s [] s
| run_step s i s' o tr s'' : in_range s → typed i → step s i = (s', o) → run s' tr s'' → run s ((i, o) :: tr) s''.

Lemma run_start s tr s' : run s tr s' → in_range s.
Proof. by destruct 1. Qed.

Lemma run_end s tr s' : run s tr s' → in_range s'.
Proof. induction 1; done. Qed.

(** An invariant of the steps is one of the runs. *)
Lemma run_invariant (P : SealerSt → Prop) s tr s' :
  (∀ s i o s1, (i, o) ∈ tr → in_range s → in_range s1 → typed i → step s i = (s1, o) → P s → P s1) →
  run s tr s' → P s → P s'.
Proof.
  intros Hstep Hr. induction Hr as [s|s i s1 o tr s' Hin Ht Hs Hr IH]; [done|]. intros HP.
  apply IH.
  - intros s2 i' o' s3 He. apply Hstep. by right.
  - eapply (Hstep s i o s1); [by left|done|by eapply run_start|done..].
Qed.

(** ** Running a log *)
Definition in_rangeb (s : SealerSt) : bool :=
  (0 <=? canonicalCount s)%Z && (canonicalCount s <=? long_max)%Z && (0 <=? blockNumber s)%Z && (blockNumber s <=? long_max)%Z &&
  (0 <=? lastL2Timestamp s)%Z && (lastL2Timestamp s <? long_max)%Z && (0 <=? l1Origin s)%Z && (l1Origin s <=? long_max)%Z &&
  (0 <? inclusionHorizonBlocks (conf s))%Z && (inclusionHorizonBlocks (conf s) <=? long_max)%Z.

Definition typedb (i : Input) : bool :=
  let longb z := (long_min <=? z)%Z && (z <=? long_max)%Z in
  match i with
  | IOrigin _ origin slotCount _ _ => longb origin && longb slotCount
  | IRecorded _ through => longb through
  | _ => true
  end.

Fixpoint outputs (s : SealerSt) (log : list Input) : list (Input * Output) :=
  match log with [] => [] | i :: log' => (i, (step s i).2) :: outputs (step s i).1 log' end.
Definition after (s : SealerSt) (log : list Input) : SealerSt := fold_left (λ s i, (step s i).1) log s.
Fixpoint stays (s : SealerSt) (log : list Input) : bool :=
  in_rangeb s && match log with [] => true | i :: log' => typedb i && stays (step s i).1 log' end.

Lemma in_rangeb_sound s : in_rangeb s = true → in_range s.
Proof. unfold in_rangeb. rewrite !andb_true_iff, ?Z.leb_le, ?Z.ltb_lt. intros H. split; lia. Qed.

Lemma typedb_sound i : typedb i = true → typed i.
Proof. destruct i; cbn; rewrite ?andb_true_iff, ?Z.leb_le; unfold is_long; try done. Qed.

Lemma run_log s log : stays s log = true → run s (outputs s log) (after s log).
Proof.
  revert s. induction log as [|i log IH]; intros s; cbn.
  - rewrite andb_true_r. intros H. constructor. by apply in_rangeb_sound.
  - rewrite !andb_true_iff. intros (Hr & Ht & Hs). econstructor; [by apply in_rangeb_sound|by apply typedb_sound|apply surjective_pairing|].
    by apply IH.
Qed.

Section once.
Implicit Types (s : SealerSt) (id : B256).

(** The id is held under its deadline, or the deadline is over. *)
Definition tracked id (deadline : Z) s : Prop :=
  window_ok s ∧ (lhm_get id (dedup s) = Some deadline ∨ (deadline < blockNumber s)%Z).

Lemma tracked_step id deadline s i :
  tracked id deadline s → in_range s → in_range (step s i).1 →
  (∀ voter index r, i = IVoid voter index id → (step s i).2 ≠ OVoid VoidLedger.DECIDED (Some r)) →
  tracked id deadline (step s i).1.
Proof.
  intros Ht Hr Hr' Hv. apply (step_window (tracked id deadline) (λ x, x ≠ id)); try done; try apply Hr; try apply Hr'.
  - intros s1 s2 Hs [Hok Hd]. split; [by eapply window_ok_same|]. destruct Hs as (-> & _ & -> & _). done.
  - intros s1 x d [Hok Hd] Hc _. split; [by apply insertFresh_ok|]. rewrite insertFresh_get.
    destruct Hd as [Hd|Hd]; [|by right]. left. rewrite decide_False; [done|]. intros ->.
    apply window_contains_false in Hc. congruence.
  - intros s1 x [Hok Hd] Hx. split; [by apply forget_ok|]. rewrite forget_get, decide_False by done.
    unfold Sealer.forget. by destruct (lhm_get x (dedup s1)).
  - intros s1 c [Hok Hd] Hb. split; [by apply onTick_ok|]. rewrite onTick_get, Hb by done.
    rewrite onTick_block in Hb. rewrite Hb. destruct Hd as [->|Hd]; [|right; lia].
    destruct (decide (deadline < blockNumber s1 + 1)%Z); [by right|by left].
  - intros voter index hash r -> Ho ->. by eapply Hv.
Qed.
End once.

(** A decided void of [id] in the trace. *)
Definition voided (id : B256) (tr : list (Input * Output)) : Prop :=
  ∃ voter index r, (IVoid voter index id, OVoid VoidLedger.DECIDED (Some r)) ∈ tr.

(** C13. Dedup is exact for a deadline within the horizon. Once a record is ordered
    under its deadline, every later offer of the same id with that deadline, after
    any log without a void of the id, is absorbed as a duplicate or refused past
    its deadline: it is never ordered again, whatever its sender and nonce. *)
Theorem record_ordered_once (s s1 s2 : SealerSt) (id : B256) (sender sender' : Address) (nonce nonce' deadline : Z)
    (payload payload' : list N) (r : Relayed) (tr : list (Input * Output)) :
  window_ok s → in_range s → (deadline ≤ blockNumber s + inclusionHorizonBlocks (conf s))%Z → (deadline ≤ long_max)%Z →
  Sealer.onRecord s id sender nonce deadline payload = (s1, RecordRelayed r) →
  run s1 tr s2 → ¬ voided id tr →
  (Sealer.onRecord s2 id sender' nonce' deadline payload').2 =
    if Sealer.contains s2 id then RecordDuplicate else PastDeadline deadline.
Proof.
  intros Hok Hr Hd Hm Ho Hrun Hv.
  assert (tracked id deadline s1) as Ht.
  { destruct (onRecord_relayed _ _ _ _ _ _ _ _ Ho) as (Hc & Hget & Hok1). split; [auto|]. left. rewrite Hget, decide_True by done.
    rewrite assignedDeadline_eq by done. f_equal. lia. }
  assert (tracked id deadline s2) as [_ Hd2].
  { eapply run_invariant; [|exact Hrun|exact Ht]. intros s3 i o s4 He Hr3 Hr4 _ Hs Ht3.
    replace s4 with (step s3 i).1 by by rewrite Hs. apply tracked_step; [done|done|by rewrite Hs|].
    intros voter index r' -> Ho'. apply Hv. exists voter, index, r'. rewrite Hs in Ho'. cbn in Ho'. by subst o. }
  unfold Sealer.onRecord. destruct (Sealer.contains s2 id) eqn:Ec; [done|]. apply window_contains_false in Ec.
  destruct Hd2 as [Hd2|Hd2]; [congruence|]. by rewrite (proj2 (Z.ltb_lt _ _) Hd2).
Qed.

(** ** The stream a consumer reads *)
Inductive Ev : Type :=
| EvRecord (index : Z)
| EvOrigin (index slots origin : Z)
| EvRemote (index slots chain anchor firstSeq lastSeq : Z)
| EvBoundary (b : Boundary).

(** What leaves the sealer for one entry of the log. *)
Definition events (e : Input * Output) : list Ev :=
  let lead forced := match forced with Some b => [EvBoundary b] | None => [] end in
  match e with
  | (_, ORecord (RecordRelayed r)) => [EvRecord (r_index r)]
  | (_, OVoid _ (Some r)) => [EvRecord (r_index r)]
  | (_, ORef (Sealer.RefOrdered index)) => [EvRecord index]
  | (_, OTick b) => [EvBoundary b]
  | (IOrigin _ origin slots _ _, OOrigin (OriginRelayed forced r)) => lead forced ++ [EvOrigin (r_index r) slots origin]
  | (IRemote _ chain anchor slots firstSeq lastSeq _ _, ORemote (RemoteRelayed forced r)) =>
    lead forced ++ [EvRemote (r_index r) slots chain anchor firstSeq lastSeq]
  | _ => []
  end.

(** A consumer with a dense cursor: the next index, the open block and its start,
    the last block time, the L1 origin, and the lane of each peer. *)
Record Cursor : Type := mkCursor {
  c_index : Z; c_block : Z; c_start : Z; c_time : Z; c_origin : Z; c_lanes : list (Z * RemotePeer);
}.

(** It refuses an index that is not the next one, a boundary that is not the next
    block, at this index, later than the one before and with the origin of the last
    epoch; an epoch that is not the next L1 block or does not lead a block; and a
    batch that does not lead a block, does not fill its slots, or does not continue
    the lane of its peer. *)
Definition accept (c : Cursor) (e : Ev) : option Cursor :=
  match e with
  | EvRecord index =>
    if (index =? c_index c)%Z then Some (mkCursor (index + 1) (c_block c) (c_start c) (c_time c) (c_origin c) (c_lanes c))
    else None
  | EvOrigin index slots origin =>
    if (index =? c_index c)%Z && (index =? c_start c)%Z && (0 <? slots)%Z && (c_origin c <? origin)%Z &&
       ((c_origin c =? 0)%Z || (origin =? c_origin c + 1)%Z)
    then Some (mkCursor (index + slots) (c_block c) (c_start c) (c_time c) origin (c_lanes c)) else None
  | EvRemote index slots chain anchor firstSeq lastSeq =>
    let continues := match lhm_get chain (c_lanes c) with
                     | Some p => (negb (nextSeqKnown p) || (firstSeq =? nextSeq p)%Z) && ult (anchorNumber p) anchor
                     | None => true end in
    if (index =? c_index c)%Z && (index =? c_start c)%Z && ule firstSeq lastSeq &&
       (slots =? unsigned lastSeq - unsigned firstSeq + 2)%Z && continues
    then Some (mkCursor (index + slots) (c_block c) (c_start c) (c_time c) (c_origin c)
                 (lhm_put chain (mkPeer anchor true (long_add lastSeq 1)) (c_lanes c))) else None
  | EvBoundary b =>
    if (b_blockNumber b =? c_block c)%Z && (endTxIdx b =? c_index c)%Z && (c_time c <? l2Timestamp b)%Z &&
       (b_l1Origin b =? c_origin c)%Z
    then Some (mkCursor (c_index c) (c_block c + 1) (c_index c) (l2Timestamp b) (c_origin c) (c_lanes c)) else None
  end.

Fixpoint replay (c : Cursor) (es : list Ev) : option Cursor :=
  match es with
  | [] => Some c
  | e :: es' => match accept c e with Some c' => replay c' es' | None => None end
  end.

Definition cursor_of (s : SealerSt) : Cursor :=
  mkCursor (canonicalCount s) (blockNumber s) (lastBoundaryCount s) (lastL2Timestamp s) (l1Origin s) (remoteOrigins s).

Lemma replay_app c es1 es2 : replay c (es1 ++ es2) = replay c es1 ≫= λ c', replay c' es2.
Proof. revert c. induction es1 as [|e es1 IH]; intros c; cbn; [done|]. destruct (accept c e); [apply IH|done]. Qed.

Section stream.
Implicit Types (s : SealerSt).

Definition counted s : Prop := (0 ≤ lastBoundaryCount s ≤ canonicalCount s)%Z.

Lemma accept_tick s c : in_range s → (0 ≤ blockNumber (Sealer.onTick s c).1)%Z →
  accept (cursor_of s) (EvBoundary (Sealer.onTick s c).2) = Some (cursor_of (Sealer.onTick s c).1).
Proof.
  intros Hr Hb. rewrite onTick_block in Hb. unfold Sealer.onTick, cursor_of, accept. cbn.
  rewrite !Z.eqb_refl. cbn [andb]. rewrite andb_true_r.
  assert (lastL2Timestamp s < Sealer.nextL2Timestamp s c)%Z as Ht.
  { unfold Sealer.nextL2Timestamp. destruct Hr as [_ _ Ht _ _]. rewrite long_add_small by lia. lia. }
  rewrite (proj2 (Z.ltb_lt _ _) Ht). rewrite long_add_nonneg; [done|apply Hr|unfold long_max; lia|done].
Qed.

(** A record that leads a block: the boundary it forces, and an empty open block. *)
Lemma replay_lead s id c s2 forced :
  Sealer.forceBoundary (Sealer.insertFresh s id (Sealer.assignedDeadline s)) c = (s2, forced) →
  in_range s → counted s → (0 ≤ blockNumber s2)%Z →
  replay (cursor_of s) (match forced with Some b => [EvBoundary b] | None => [] end) = Some (cursor_of s2) ∧
  canonicalCount s2 = canonicalCount s ∧ lastBoundaryCount s2 = canonicalCount s ∧ l1Origin s2 = l1Origin s ∧
  remoteOrigins s2 = remoteOrigins s.
Proof.
  unfold Sealer.forceBoundary. cbn [lastBoundaryCount canonicalCount Sealer.insertFresh with_dedup].
  intros Hf Hr Hc Hb. destruct (Z.ltb_spec (lastBoundaryCount s) (canonicalCount s)) as [Hlt|Hge].
  - set (s1 := Sealer.insertFresh s id (Sealer.assignedDeadline s)) in *.
    destruct (Sealer.onTick s1 c) as [s' b] eqn:Et. injection Hf as <- <-.
    assert (s' = (Sealer.onTick s1 c).1 ∧ b = (Sealer.onTick s1 c).2) as [-> ->] by by rewrite Et.
    split; [|done]. cbn [replay]. change (cursor_of s) with (cursor_of s1). rewrite accept_tick; [done| |done].
    destruct Hr. by split.
  - injection Hf as <- <-. split; [done|]. unfold counted in Hc. cbn. repeat split; lia.
Qed.

Lemma accept_next s s' : in_range s → in_range s' →
  canonicalCount s' = long_add (canonicalCount s) 1 → blockNumber s' = blockNumber s →
  lastBoundaryCount s' = lastBoundaryCount s → lastL2Timestamp s' = lastL2Timestamp s → l1Origin s' = l1Origin s →
  remoteOrigins s' = remoteOrigins s → counted s →
  replay (cursor_of s) [EvRecord (canonicalCount s)] = Some (cursor_of s') ∧ counted s'.
Proof.
  intros Hr Hr' Ec Eb El Et Eo Ep Hc.
  assert (canonicalCount s' = canonicalCount s + 1)%Z as Ec'.
  { rewrite Ec. apply long_add_nonneg; [apply Hr|unfold long_max; lia|]. rewrite <-Ec. apply Hr'. }
  unfold counted, cursor_of in *. cbn. rewrite Z.eqb_refl, Ec', Eb, El, Et, Eo, Ep. split; [done|lia].
Qed.

Lemma replay_record s id a n d p s' o : in_range s → in_range s' → counted s →
  Sealer.onRecord s id a n d p = (s', o) →
  replay (cursor_of s) (match o with RecordRelayed r => [EvRecord (r_index r)] | _ => [] end) = Some (cursor_of s') ∧ counted s'.
Proof.
  intros Hr Hr' Hc. unfold Sealer.onRecord. destruct (Sealer.contains s id); [by intros [= <- <-]|].
  destruct (_ <? _)%Z; [by intros [= <- <-]|]. destruct (_ && Sealer.recordLagHalted s); [by intros [= <- <-]|].
  destruct (_ && Sealer.daLagHalted s); [by intros [= <- <-]|]. destruct (Sealer.dedupFull s); [by intros [= <- <-]|].
  destruct (negb _); [|intros [= <- <-]; by apply accept_next].
  destruct (lru_get _ _) as [nonces [e|]]; [destruct (negb _)|]; intros [= <- <-]; [done|by apply accept_next..].
Qed.

Lemma replay_ref s lane session position s' o : in_range s → in_range s' → counted s →
  Sealer.onCarriedRef s lane session position = (s', o) →
  replay (cursor_of s) (match o with Sealer.RefOrdered i => [EvRecord i] | _ => [] end) = Some (cursor_of s') ∧ counted s'.
Proof.
  intros Hr Hr' Hc. unfold Sealer.onCarriedRef. destruct (SessionWindows.check _ _ _ _ _) as [w []]; [|by intros [= <- <-]..].
  destruct (Sealer.recordLagHalted _); [by intros [= <- <-]|]. destruct (Sealer.daLagHalted _); [by intros [= <- <-]|].
  intros [= <- <-]. by apply accept_next.
Qed.

Lemma replay_void s voter index hash s' o r : in_range s → in_range s' → counted s →
  Sealer.onVoidRequest s voter index hash = (s', (o, r)) →
  replay (cursor_of s) (match r with Some r => [EvRecord (r_index r)] | None => [] end) = Some (cursor_of s') ∧ counted s'.
Proof.
  intros Hr Hr' Hc. unfold Sealer.onVoidRequest. destruct (VoidLedger.onVote _ _ _ _ _) as [v tally].
  destruct (VoidLedger.entry tally) as [e|]; [|by intros [= <- <- <-]]. unfold Sealer.appendVoid, Sealer.forget. cbn [dedup with_voids].
  destruct (lhm_get _ _); intros [= <- <- <-]; by apply accept_next.
Qed.

Lemma replay_origin s id origin slots p c s' o : in_range s → in_range s' → counted s → is_long origin ∧ is_long slots →
  Sealer.onOriginRecord s id origin slots p c = Ok (s', o) →
  replay (cursor_of s) (events (IOrigin id origin slots p c, OOrigin o)) = Some (cursor_of s') ∧ counted s'.
Proof.
  intros Hr Hr' Hc [Hlo Hls]. unfold Sealer.onOriginRecord. destruct (Z.ltb_spec slots 1) as [|Hs1]; [done|].
  destruct (Sealer.contains s id) eqn:Ec; [by intros [= <- <-]|].
  destruct (Z.leb_spec origin (l1Origin s)) as [|Hgt]; [done|].
  destruct ((0 <? l1Origin s)%Z && _) eqn:Eg; [by intros [= <- <-]|].
  destruct (Sealer.forceBoundary _ _) as [s2 forced] eqn:Ef. intros [= Es <-].
  assert (blockNumber s' = blockNumber s2 ∧ canonicalCount s' = long_add (canonicalCount s2) slots) as [Eb Ect] by (subst s'; done).
  destruct (replay_lead s id c s2 forced Ef Hr Hc) as (Hrep & E1 & E2 & E3 & E4); [rewrite <-Eb; apply Hr'|].
  cbn [events]. rewrite replay_app, Hrep. cbn [mbind option_bind replay].
  assert (canonicalCount s' = canonicalCount s + slots)%Z as Ec'.
  { rewrite Ect, E1. apply long_add_nonneg; [apply Hr|unfold is_long, long_max in *; lia|]. rewrite <-E1, <-Ect. apply Hr'. }
  unfold accept. cbn [c_index c_start c_origin cursor_of r_index canonicalCount with_origin]. rewrite E1, E2, E3, !Z.eqb_refl.
  rewrite (proj2 (Z.ltb_lt 0 slots)) by lia. rewrite (proj2 (Z.ltb_lt _ _) Hgt). cbn [andb].
  replace (_ || _) with true.
  2: { symmetry. apply orb_true_iff. apply andb_false_iff in Eg as [Eg|Eg].
       - left. apply Z.ltb_ge in Eg. apply Z.eqb_eq. destruct Hr as [_ _ _ Ho _]. lia.
       - right. apply negb_false_iff, Z.eqb_eq in Eg. apply Z.eqb_eq. rewrite Eg. apply long_add_small; [apply Hr|lia|].
         unfold is_long in Hlo. lia. }
  unfold counted, cursor_of. rewrite Ec'. subst s'. cbn. rewrite E2, E4. unfold counted in Hc. split; [done|lia].
Qed.

Lemma replay_remote s id chain anchor slots firstSeq lastSeq p c s' o : in_range s → in_range s' → counted s →
  Sealer.onRemoteOriginRecord s id chain anchor slots firstSeq lastSeq p c = (s', o) →
  replay (cursor_of s) (events (IRemote id chain anchor slots firstSeq lastSeq p c, ORemote o)) = Some (cursor_of s') ∧ counted s'.
Proof.
  intros Hr Hr' Hc. unfold Sealer.onRemoteOriginRecord. destruct (Sealer.contains s id) eqn:Ec; [by intros [= <- <-]|].
  destruct (bool_decide _); [by intros [= <- <-]|]. destruct (ult lastSeq firstSeq) eqn:Eu; [by intros [= <- <-]|].
  destruct (ult (long_max - 2) _) eqn:Ew; [by intros [= <- <-]|].
  destruct (negb (slots =? _)%Z) eqn:Esl; [by intros [= <- <-]|].
  set (mis := match lhm_get chain _ with Some _ => _ | None => false end). destruct mis eqn:Emis; [by intros [= <- <-]|].
  set (reg := match lhm_get chain _ with Some _ => _ | None => false end). destruct reg eqn:Ereg; [by intros [= <- <-]|].
  destruct (Sealer.forceBoundary _ _) as [s2 forced] eqn:Ef. intros [= Es <-].
  assert (blockNumber s' = blockNumber s2 ∧ canonicalCount s' = long_add (canonicalCount s2) slots) as [Eb Ect] by (subst s'; done).
  destruct (replay_lead s id c s2 forced Ef Hr Hc) as (Hrep & E1 & E2 & E3 & E4); [rewrite <-Eb; apply Hr'|].
  unfold ult in Eu, Ew. apply Z.ltb_ge in Eu, Ew.
  assert (slots = unsigned lastSeq - unsigned firstSeq + 2 ∧ 0 < slots ≤ long_max)%Z as [Hsl Hpos].
  { apply negb_false_iff, Z.eqb_eq in Esl. rewrite unsigned_sub in Ew by done.
    replace (unsigned (long_max - 2)) with (long_max - 2)%Z in Ew by done.
    rewrite (unsigned_small (long_sub lastSeq firstSeq)) in Esl; [|apply to_long_is_long|rewrite unsigned_sub by done; lia].
    rewrite unsigned_sub in Esl by done. rewrite long_add_small in Esl by lia. lia. }
  assert (canonicalCount s' = canonicalCount s + slots)%Z as Ec'.
  { rewrite Ect, E1. apply long_add_nonneg; [apply Hr|lia|]. rewrite <-E1, <-Ect. apply Hr'. }
  cbn [events]. rewrite replay_app, Hrep. cbn [mbind option_bind replay].
  unfold accept. cbn [c_index c_start c_lanes cursor_of r_index canonicalCount with_remote]. rewrite E1, E2, E4, !Z.eqb_refl.
  unfold ule. rewrite (proj2 (Z.leb_le _ _) Eu), (proj2 (Z.eqb_eq _ _) Hsl). cbn [andb].
  replace (match lhm_get chain _ with Some _ => _ | None => true end) with true.
  2: { symmetry. unfold mis, reg in Emis, Ereg. destruct (lhm_get chain (remoteOrigins s)) as [pr|]; [|done].
       unfold ule, ult in *. apply Z.leb_gt in Ereg. rewrite (proj2 (Z.ltb_lt _ _) Ereg), andb_true_r.
       destruct (nextSeqKnown pr); [|done]. cbn in Emis |- *. apply negb_false_iff in Emis. by rewrite Z.eqb_sym. }
  unfold counted, cursor_of. rewrite Ec'. subst s'. cbn. rewrite E2, E4. unfold counted in Hc. split; [done|lia].
Qed.

Lemma replay_step s i s' o : in_range s → in_range s' → counted s → typed i → step s i = (s', o) →
  replay (cursor_of s) (events (i, o)) = Some (cursor_of s') ∧ counted s'.
Proof.
  intros Hr Hr' Hc Ht Hs. destruct i; cbn [step] in Hs.
  - destruct (Sealer.onRecord s _ _ _ _ _) as [s1 ro] eqn:E. injection Hs as <- <-.
    pose proof (replay_record _ _ _ _ _ _ _ _ Hr Hr' Hc E). by destruct ro.
  - destruct (Sealer.onVoidRequest s _ _ _) as [s1 [v r]] eqn:E. injection Hs as <- <-.
    pose proof (replay_void _ _ _ _ _ _ _ Hr Hr' Hc E). by destruct r.
  - unfold Sealer.onRef in Hs. destruct (Sealer.onCarriedRef s _ _ _) as [s1 ro] eqn:E.
    assert (in_range s1) as Hr1 by (destruct ro; injection Hs as <- <-; try done; by destruct Hr').
    pose proof (replay_ref _ _ _ _ _ _ Hr Hr1 Hc E) as Hrep. destruct ro; injection Hs as <- <-; exact Hrep.
  - destruct (Sealer.onCarriedRef s _ _ _) as [s1 ro] eqn:E. injection Hs as <- <-.
    pose proof (replay_ref _ _ _ _ _ _ Hr Hr' Hc E). by destruct ro.
  - destruct (Sealer.onTick s clock) as [s1 b] eqn:E. injection Hs as <- <-.
    pose proof (accept_tick s clock Hr) as Ha. rewrite E in Ha. cbn [fst snd] in Ha. cbn [events replay].
    rewrite Ha by apply Hr'. split; [done|]. unfold Sealer.onTick in E. injection E as <- _. unfold counted. cbn.
    destruct Hr. lia.
  - unfold caught in Hs. destruct (Sealer.onOriginRecord _ _ _ _ _ _) as [[s1 oo]|e] eqn:E; injection Hs as <- <-; [|done].
    by eapply replay_origin.
  - destruct (Sealer.onRemoteOriginRecord _ _ _ _ _ _ _ _ _) as [s1 oo] eqn:E. injection Hs as <- <-. by eapply replay_remote.
  - unfold caught, Sealer.onPostedCursor in Hs. destruct (_ <? _)%Z; [by injection Hs as <- <-|].
    destruct (_ <=? _)%Z; by injection Hs as <- <-.
  - unfold caught, Sealer.onRecordedCursor in Hs. destruct (negb _); [by injection Hs as <- <-|].
    destruct (ule _ _); [by injection Hs as <- <-|]. destruct (RecordedCursors.onCursor _ _ _). by injection Hs as <- <-.
  - unfold caught, Sealer.onSeedEpoch in Hs. destruct (seedStatus s); try (by injection Hs as <- <-);
      destruct (negb _); by injection Hs as <- <-.
  - unfold Sealer.onFeatureActivation in Hs. destruct (VersionSwitch.onActivation _ _ _ _). by injection Hs as <- <-.
Qed.
End stream.

(** C12. The canonical stream is dense. Over every log, what the sealer emits is what
    a consumer with a dense cursor accepts: every record, epoch and batch is at the
    next index and takes its slots, every boundary seals the next block at the
    current index with a later time and the current L1 origin, the epochs name
    consecutive L1 blocks, the batches of a peer continue its lane, and epochs and
    batches lead a block. The cursor ends where the state is. *)
Theorem stream_dense (s s' : SealerSt) (tr : list (Input * Output)) :
  counted s → run s tr s' → replay (cursor_of s) (tr ≫= events) = Some (cursor_of s').
Proof.
  intros Hc Hrun. induction Hrun as [s Hr|s i s1 o tr s' Hr Ht Hs Hrun IH]; [done|].
  destruct (replay_step s i s1 o Hr (run_start _ _ _ Hrun) Hc Ht Hs) as [Hrep Hc1].
  cbn [mbind list_bind]. rewrite replay_app, Hrep. by apply IH.
Qed.

(** ** A sample log *)
Definition sample_windows : SessionWindows.t :=
  SessionWindows.mk 2 64 (replicate 2 (-1)%Z) (replicate 2 0%Z) (replicate 2 0%Z) (replicate 2 []) (replicate 4 (-1)%Z) 0 0 0.

Definition sample_state : SealerSt :=
  mkSt (mkSealerConfig 8 4 0 {[ 77%Z ]} 0) [] ∅ [] [] (VoidLedger.new (VoidLedger.mkConfig 4 3)) (RecordedCursors.new 0) 0
    GENESIS 0 DecisionRules.start VersionSwitch.start sample_windows 0 1 0 0 0.

(** Two records, a repeated nonce, a boundary, an epoch, a batch, two references, a
    record that two votes then remove, and a boundary. *)
Definition sample_log : list Input :=
  [IRecord 11 5 0 3 [1%N]; IRecord 12 5 1 4 [2%N]; IRecord 13 5 1 4 [3%N]; ITick 1000; IOrigin 14 900 2 [] 1100;
   IRemote 15 77 40 4 8 10 [] 1200; ICarriedRef 1 9 0; ICarriedRef 1 9 32; IRecord 16 6 7 4 [];
   IVoid 0 10 16; IVoid 1 10 16; ITick 2000].

Lemma window_ok_empty s : dedup s = [] → byDeadline s = ∅ → window_ok s.
Proof.
  intros Ed Eb. split; rewrite ?Ed, ?Eb; [constructor|by intros ? ?|].
  intros id d. split; [done|]. by intros (g & ? & _).
Qed.

Lemma stream_dense_witness :
  (length (outputs sample_state sample_log ≫= events) = 11)%nat ∧
  replay (cursor_of sample_state) (outputs sample_state sample_log ≫= events) =
    Some (cursor_of (after sample_state sample_log)).
Proof.
  split; [by vm_compute|]. apply stream_dense; [by split|]. apply run_log. by vm_compute.
Defined.

Lemma record_ordered_once_witness :
  let s1 := (Sealer.onRecord sample_state 11 5 0 3 [1%N]).1 in
  let s2 := after s1 (tail sample_log) in
  (Sealer.onRecord s2 11 9 8 3 [1%N]).2 = PastDeadline 3.
Proof.
  cbv zeta.
  rewrite (record_ordered_once sample_state (Sealer.onRecord sample_state 11 5 0 3 [1%N]).1
    (after (Sealer.onRecord sample_state 11 5 0 3 [1%N]).1 (tail sample_log)) 11 5 9 0 8 3 [1%N] [1%N] (mkRelayed 0 [1%N])
    (outputs (Sealer.onRecord sample_state 11 5 0 3 [1%N]).1 (tail sample_log))).
  - by vm_compute.
  - by apply window_ok_empty.
  - by apply in_rangeb_sound.
  - done.
  - done.
  - by vm_compute.
  - apply run_log. by vm_compute.
  - intros (voter & index & r & Hin). vm_compute in Hin.
    repeat (apply elem_of_cons in Hin as [Hin|Hin]; [discriminate Hin|]). by apply elem_of_nil in Hin.
Defined.
