(* ===== verification/SealerRefs.v ===== *)
(** * References are ordered once

    The windows inside the state of the sealer: over a log whose images fit the
    slots, the reference of one message is ordered at most once. *)
From S2P Require Import Prelude Bytes Java SealerVoid SealerVersions SealerWindows SealerTable SealerBitmap SealerWindowsSpec SealerState SealerFacts SealerSpec.

(** ** The specification while the images fit *)
Section fits.
Context (K : gset Z).

Definition within (a : list Image) : Prop := ∀ im, im ∈ a → im_key im ∈ K.

Definition keeps (a a' : list Image) : Prop :=
  ∀ im, im ∈ a → ∃ im', im' ∈ a' ∧ im_key im' = im_key im ∧ im_seen im ⊆ im_seen im'.

Lemma keeps_insert a i im im' : a !! i = Some im → im_key im' = im_key im → im_seen im ⊆ im_seen im' → keeps a (<[i := im']> a).
Proof.
  intros Hi Hk Hs x (j & Hj)%list_elem_of_lookup. destruct (decide (i = j)) as [<-|Hne].
  - exists im'. assert (x = im) as -> by congruence. split; [|done]. apply list_elem_of_lookup. exists i.
    apply list_lookup_insert_eq. by eapply lookup_lt_Some.
  - exists x. split; [|done]. apply list_elem_of_lookup. exists j. by rewrite list_lookup_insert_ne.
Qed.

Lemma within_insert a i im : within a → im_key im ∈ K → within (<[i := im]> a).
Proof.
  intros Ha Him x (j & Hj)%list_elem_of_lookup. apply list_lookup_insert_Some in Hj as [(_ & -> & _)|(_ & Hj)]; [done|].
  apply Ha. apply list_elem_of_lookup. eauto.
Qed.

(** No image leaves. *)
Lemma place_keeps slots a key now : NoDup (im_key <$> a) → within a → key ∈ K → (Z.of_nat (size K) ≤ slots)%Z →
  within (place slots a key now).1 ∧ keeps a (place slots a key now).1.
Proof.
  intros Hnd Ha Hk Hs. unfold place. destruct (list_find _ a) as [[i im]|] eqn:Ef.
  - apply list_find_Some in Ef as (Hi & Hkey & _). split; [by apply within_insert|]. by eapply keeps_insert.
  - destruct (Z.ltb_spec (Z.of_nat (length a)) slots) as [Hlt|Hge]; cbn [fst].
    + split.
      * intros x [Hx|Hx%list_elem_of_singleton]%elem_of_app; [by apply Ha|by subst].
      * intros x Hx. exists x. split; [|done]. apply elem_of_app. by left.
    + exfalso. assert (key ∉ im_key <$> a) as Hout.
      { intros (im & -> & Him)%list_elem_of_fmap. apply list_find_None in Ef. rewrite Forall_forall in Ef. by eapply Ef. }
      assert (list_to_set (key :: (im_key <$> a)) ⊆ K) as Hsub.
      { intros x. rewrite elem_of_list_to_set. intros [->|(im & -> & Him)%list_elem_of_fmap]%elem_of_cons; [done|by apply Ha]. }
      apply subseteq_size in Hsub. rewrite size_list_to_set in Hsub by by constructor. cbn in Hsub. rewrite length_fmap in Hsub. lia.
Qed.

Lemma keeps_trans a b c : keeps a b → keeps b c → keeps a c.
Proof.
  intros Hab Hbc im Him. destruct (Hab im Him) as (im1 & H1 & H2 & H3). destruct (Hbc im1 H1) as (im2 & H4 & H5 & H6).
  exists im2. split; [done|]. split; [congruence|set_solver].
Qed.

Lemma spec_offer_keeps slots width a key unit now keep : NoDup (im_key <$> a) → within a → key ∈ K → (Z.of_nat (size K) ≤ slots)%Z →
  within (spec_offer slots width a key unit now keep).1 ∧ keeps a (spec_offer slots width a key unit now keep).1.
Proof.
  intros Hnd Ha Hk Hs. unfold spec_offer. destruct (place_keeps slots a key now Hnd Ha Hk Hs) as [Hw Hkp].
  destruct (place slots a key now) as [a1 i]. destruct (a1 !! i) as [im|] eqn:Ei; [|done]. cbn [fst] in *.
  assert (im_key im ∈ K) by (apply Hw, list_elem_of_lookup; eauto).
  destruct (decide_unit width im unit); [|done..]. destruct keep; [|done].
  assert (alter (take_unit unit) i a1 = <[i := take_unit unit im]> a1) as ->.
  { rewrite list_insert_alter. apply list_alter_ext; [|done]. congruence. }
  split; [by apply within_insert|]. eapply keeps_trans; [exact Hkp|]. eapply keeps_insert; [done|done|]. cbn. set_solver.
Qed.
End fits.

(** ** The references of the sealer *)
Definition halted (s : SealerSt) : bool := Sealer.recordLagHalted s || Sealer.daLagHalted s.

Lemma onCarriedRef_offer s lane session position :
  let '(w, seen) := windows_offer (windows s) lane session position (canonicalCount s) (negb (halted s)) in
  let '(s', o) := Sealer.onCarriedRef s lane session position in
  windows s' = w ∧
  match seen with
  | SessionWindows.DUPLICATE => o = Sealer.REF_DUPLICATE
  | SessionWindows.EXPIRED => o = Sealer.REF_EXPIRED
  | SessionWindows.FRESH => if halted s then o = Sealer.REF_RECORD_LAG ∨ o = Sealer.REF_DA_LAG else o = Sealer.RefOrdered (canonicalCount s)
  end.
Proof.
  unfold windows_offer, Sealer.onCarriedRef. destruct (SessionWindows.check _ _ _ _ _) as [w []]; [|done..].
  change (Sealer.recordLagHalted (with_windows s w)) with (Sealer.recordLagHalted s).
  change (Sealer.daLagHalted (with_windows s w)) with (Sealer.daLagHalted s). unfold halted.
  destruct (Sealer.recordLagHalted s), (Sealer.daLagHalted s); cbn; auto.
Qed.

(** The image that an entry of the log refers to. *)
Definition image_of (i : Input) : option Z :=
  match i with
  | IRef lane session _ _ | ICarriedRef lane session _ => Some (SessionWindows.keyOf lane session)
  | _ => None
  end.

Section once.
Context (K : gset Z) (key unit : Z).

(** The image has taken the unit. *)
Definition taken (s : SealerSt) : Prop :=
  (Z.of_nat (size K) ≤ SessionWindows.slots (windows s))%Z ∧
  ∃ a, rel (windows s) a ∧ within K a ∧ ∃ im, im ∈ a ∧ im_key im = key ∧ unit ∈ im_seen im.

Lemma rel_NoDup w a : rel w a → NoDup (im_key <$> a).
Proof.
  intros Hrel. apply NoDup_alt. intros i j x. rewrite !list_lookup_fmap. intros (im & Hi & ->)%fmap_Some (im' & Hj & Hk)%fmap_Some.
  rewrite <-(rel_key w a Hrel i im Hi), <-(rel_key w a Hrel j im' Hj) in Hk.
  apply (WindowTable.to_keys w _ (rl_table w a Hrel)) in Hk; [lia|by eapply rel_slot_lt..].
Qed.

Lemma taken_offer s s' lane session position now keep : taken s → SessionWindows.keyOf lane session ∈ K →
  windows s' = (windows_offer (windows s) lane session position now keep).1 → taken s'.
Proof.
  intros (Hsz & a & Hrel & Hw & im & Him & Hk & Hu) Hin Ew.
  pose proof (windows_offer_rel (windows s) a lane session position now keep Hrel) as Ho.
  destruct (spec_offer_keeps K (SessionWindows.slots (windows s)) (SessionWindows.width (windows s)) a (SessionWindows.keyOf lane session)
    (unit_of position) now keep (rel_NoDup _ _ Hrel) Hw Hin Hsz) as [Hw' Hkp].
  destruct (spec_offer _ _ _ _ _ _ _) as [a' seen]. destruct (windows_offer _ _ _ _ _ _) as [w' seen']. cbn [fst] in *.
  destruct Ho as (Hr' & _ & Es & _). rewrite <-Ew in *. destruct (Hkp im Him) as (im' & Him' & Hk' & Hsub).
  split; [by rewrite Es|]. exists a'. split; [done|]. split; [done|]. exists im'. split; [done|]. split; [congruence|set_solver].
Qed.

Lemma taken_same s s' : windows s' = windows s → taken s → taken s'.
Proof. unfold taken. by intros ->. Qed.

(** The other entries leave the windows. *)
Lemma step_windows s i : image_of i = None → windows (step s i).1 = windows s.
Proof. destruct i; cbn [step image_of]; try done; intros _; sealer_op. Qed.

Lemma taken_step s i : taken s → (∀ k, image_of i = Some k → k ∈ K) → taken (step s i).1.
Proof.
  intros Ht Hi. destruct (image_of i) as [k|] eqn:Ei; [|by eapply taken_same; [apply step_windows|]].
  specialize (Hi k eq_refl). destruct i; try done; injection Ei as <-; cbn [step].
  - pose proof (onCarriedRef_offer s lane session position) as Ho. unfold Sealer.onRef.
    destruct (windows_offer _ _ _ _ _ _) as [w seen] eqn:Ew. destruct (Sealer.onCarriedRef _ _ _ _) as [s1 o]. destruct Ho as [Hw _].
    assert (taken s1) as H1 by (eapply taken_offer; [exact Ht|exact Hi|by rewrite Ew]).
    by destruct o.
  - pose proof (onCarriedRef_offer s lane session position) as Ho.
    destruct (windows_offer _ _ _ _ _ _) as [w seen] eqn:Ew. destruct (Sealer.onCarriedRef _ _ _ _) as [s1 o]. destruct Ho as [Hw _].
    eapply taken_offer; [exact Ht|exact Hi|by rewrite Ew].
Qed.
End once.

(** A taken unit is not fresh. *)
Lemma taken_not_fresh K s lane session position keep : taken K (SessionWindows.keyOf lane session) (unit_of position) s →
  (windows_offer (windows s) lane session position (canonicalCount s) keep).2 ≠ SessionWindows.FRESH.
Proof.
  intros (_ & a & Hrel & _ & im & Him & Hk & Hu).
  pose proof (windows_offer_rel (windows s) a lane session position (canonicalCount s) keep Hrel) as Ho.
  unfold spec_offer, place in Ho. destruct (list_find _ a) as [[i im']|] eqn:Ef.
  - apply list_find_Some in Ef as (Hi & Hk' & _). rewrite list_lookup_insert_eq in Ho by (by eapply lookup_lt_Some).
    destruct (windows_offer _ _ _ _ _ _) as [w' seen']. destruct Ho as (_ & [= <-] & _). cbn.
    assert (im' = im) as ->.
    { apply list_elem_of_lookup in Him as [j Hj]. assert (i = j) as <-; [|congruence].
      apply (proj1 (NoDup_alt _) (rel_NoDup _ _ Hrel) i j (im_key im)); rewrite list_lookup_fmap; [by rewrite Hi; cbn; congruence|by rewrite Hj]. }
    unfold decide_unit. cbn. destruct (_ <=? _)%Z; [done|]. by rewrite decide_True.
  - apply list_find_None in Ef. rewrite Forall_forall in Ef. by destruct (Ef im Him).
Qed.

(** The image has its key. *)
Lemma place_key slots a key now im : (place slots a key now).1 !! (place slots a key now).2 = Some im → im_key im = key.
Proof.
  unfold place. destruct (list_find _ a) as [[j im']|] eqn:Ef; cbn [fst snd].
  - apply list_find_Some in Ef as (Hj%lookup_lt_Some & _). rewrite list_lookup_insert_eq by done. by intros [= <-].
  - destruct (_ <? _)%Z; cbn [fst snd]; [rewrite list_lookup_middle by done; by intros [= <-]|].
    by intros [(_ & <- & _)|(? & _)]%list_lookup_insert_Some.
Qed.

(** An ordered reference is taken. *)
Lemma taken_ordered K s s1 a lane session position index :
  rel (windows s) a → within K a → SessionWindows.keyOf lane session ∈ K →
  (Z.of_nat (size K) ≤ SessionWindows.slots (windows s))%Z →
  Sealer.onCarriedRef s lane session position = (s1, Sealer.RefOrdered index) →
  taken K (SessionWindows.keyOf lane session) (unit_of position) s1.
Proof.
  intros Hrel Hw Hk Hsz Ho. pose proof (onCarriedRef_offer s lane session position) as Hof. rewrite Ho in Hof.
  pose proof (windows_offer_rel (windows s) a lane session position (canonicalCount s) (negb (halted s)) Hrel) as Hr.
  pose proof (spec_offer_keeps K (SessionWindows.slots (windows s)) (SessionWindows.width (windows s)) a _ (unit_of position)
    (canonicalCount s) (negb (halted s)) (rel_NoDup _ _ Hrel) Hw Hk Hsz) as [Hw' _].
  destruct (windows_offer _ _ _ _ _ _) as [w' seen']. destruct Hof as [Ew Hs].
  assert (seen' = SessionWindows.FRESH ∧ halted s = false) as [-> Hh].
  { destruct seen'; [|done..]. destruct (halted s); [by destruct Hs|done]. }
  rewrite Hh in *. unfold spec_offer in *. destruct (place _ _ _ _) as [a1 i] eqn:Ep. destruct (a1 !! i) as [im|] eqn:Ei; [|by destruct Hr as (_ & ? & _)].
  destruct Hr as (Hr & [= Hd] & Es & _). rewrite Hd in *. cbn [negb fst] in *. rewrite <-Ew in Hr, Es. split; [by rewrite Es|].
  eexists. split; [exact Hr|]. split; [done|]. exists (take_unit (unit_of position) im). split; [|split; [|cbn; set_solver]].
  - apply list_elem_of_lookup. exists i. by rewrite list_lookup_alter_eq, Ei.
  - cbn. apply (place_key (SessionWindows.slots (windows s)) a _ (canonicalCount s)). by rewrite Ep.
Qed.

(** C14. A reference is ordered once. When the sealer orders the reference of a
    message, then over every later log whose images, with those of the windows, are
    not more than the slots, another reference of the same message is absorbed as a
    duplicate or as expired: the windows never forget it. *)
Theorem ref_ordered_once (s s1 s2 : SealerSt) (a : list Image) (K : gset Z) (lane session position position' index : Z)
    (tr : list (Input * Output)) :
  rel (windows s) a → within K a → SessionWindows.keyOf lane session ∈ K →
  (Z.of_nat (size K) ≤ SessionWindows.slots (windows s))%Z →
  Sealer.onCarriedRef s lane session position = (s1, Sealer.RefOrdered index) →
  run s1 tr s2 → (∀ i o k, (i, o) ∈ tr → image_of i = Some k → k ∈ K) → unit_of position' = unit_of position →
  (Sealer.onCarriedRef s2 lane session position').2 ∈ [Sealer.REF_DUPLICATE; Sealer.REF_EXPIRED].
Proof.
  intros Hrel Hw Hk Hsz Ho Hrun Htr Hu.
  pose proof (taken_ordered K s s1 a lane session position index Hrel Hw Hk Hsz Ho) as Ht1.
  assert (taken K (SessionWindows.keyOf lane session) (unit_of position') s2) as Ht2.
  { rewrite Hu. eapply run_invariant; [|exact Hrun|exact Ht1]. intros s3 i o s4 He _ _ _ Hs Ht. replace s4 with (step s3 i).1 by by rewrite Hs.
    apply taken_step; [done|]. intros k. by eapply Htr. }
  pose proof (taken_not_fresh K s2 lane session position' (negb (halted s2)) Ht2) as Hn.
  pose proof (onCarriedRef_offer s2 lane session position') as Hof. destruct (windows_offer _ _ _ _ _ _) as [w' seen'].
  destruct (Sealer.onCarriedRef s2 lane session position') as [s3 o]. destruct Hof as [_ Hs]. cbn [snd] in *. destruct seen'; [done|subst; set_solver..].
Qed.

Lemma sample_windows_rel : rel sample_windows [].
Proof. by apply (new_rel 2 64). Qed.

Lemma ref_ordered_once_witness :
  let s1 := (Sealer.onCarriedRef sample_state 1 9 32).1 in
  (Sealer.onCarriedRef (after s1 sample_log) 1 9 40).2 ∈ [Sealer.REF_DUPLICATE; Sealer.REF_EXPIRED].
Proof.
  cbv zeta. apply (ref_ordered_once sample_state (Sealer.onCarriedRef sample_state 1 9 32).1 _ [] {[ SessionWindows.keyOf 1 9 ]}
    1 9 32 40 0 (outputs (Sealer.onCarriedRef sample_state 1 9 32).1 sample_log)).
  - exact sample_windows_rel.
  - intros im Him. by apply elem_of_nil in Him.
  - by apply elem_of_singleton.
  - by vm_compute.
  - by vm_compute.
  - apply run_log. by vm_compute.
  - intros i o k Hin. vm_compute in Hin.
    repeat (apply elem_of_cons in Hin as [Hin|Hin]; [by injection Hin as -> ->; intros [= <-]; apply elem_of_singleton|]).
    by apply elem_of_nil in Hin.
  - done.
Defined.
