(* ===== verification/SealerOrder.v ===== *)
(** * Deadlines, nonces and voids over a log

    The dedup window empties as blocks pass, the nonces of a sender are ordered
    without a gap, and a record leaves the order only by the votes of all voters. *)
From S2P Require Import Prelude Bytes Java SealerVoid SealerVersions SealerWindows SealerBitmap SealerState SealerFacts SealerSpec.

(** ** The window over a log *)
Definition window_good (s : SealerSt) : Prop := window_ok s ∧ window_live s.

Lemma assigned_ge s : in_range s → (blockNumber s ≤ Sealer.assignedDeadline s)%Z.
Proof. intros Hr. rewrite assignedDeadline_eq by done. destruct Hr. lia. Qed.

(** The ids are held up to the horizon at most. *)
Definition within_horizon (h : Z) (s : SealerSt) : Prop := ∀ id d, lhm_get id (dedup s) = Some d → (d ≤ h)%Z.

Lemma onTick_live s c : window_ok s → window_live (Sealer.onTick s c).1.
Proof.
  intros Hok id d. rewrite onTick_get, onTick_block by done. destruct (lhm_get id (dedup s)); [|done]. case_decide; [done|].
  intros [= <-]. lia.
Qed.

Definition ticks (clocks : list Z) : list Input := ITick <$> clocks.

Lemma tick_step s c : (step s (ITick c)).1 = (Sealer.onTick s c).1.
Proof. cbn [step]. by destruct (Sealer.onTick s c). Qed.

(** After the ticks: the block has moved by their number, and the ids of earlier
    deadlines are gone. *)
Lemma ticks_run s clocks tr s' : run s tr s' → tr.*1 = ticks clocks → window_ok s → 
  window_ok s' ∧ blockNumber s' = (blockNumber s + Z.of_nat (length clocks))%Z ∧
  (∀ id, lhm_get id (dedup s') = match lhm_get id (dedup s) with
     | Some d => if decide (clocks ≠ [] ∧ (d < blockNumber s')%Z) then None else Some d | None => None end).
Proof.
  intros Hrun. revert clocks. induction Hrun as [s Hr|s i s1 o tr s' Hr Ht Hs Hrun IH]; intros clocks Htr Hok.
  - destruct clocks; [|done]. split; [done|]. cbn. split; [lia|]. intros id. destruct (lhm_get id (dedup s)); [|done].
    rewrite decide_False; [done|]. by intros [? _].
  - destruct clocks as [|c clocks]; [done|]. injection Htr as -> Htr.
    assert (s1 = (Sealer.onTick s c).1) as -> by (rewrite <-tick_step; by rewrite Hs).
    destruct (IH clocks Htr) as (Hok' & Hb & Hget); [by apply onTick_ok|].
    assert (blockNumber (Sealer.onTick s c).1 = blockNumber s + 1)%Z as Eb.
    { pose proof (run_start _ _ _ Hrun) as Hr1. rewrite onTick_block. apply long_add_nonneg; [apply Hr|done|].
      rewrite <-onTick_block with (c := c). apply Hr1. }
    split; [done|]. split; [cbn; lia|]. intros id. rewrite Hget, onTick_get, <-onTick_block with (c := c), Eb by done.
    destruct (lhm_get id (dedup s)) as [d|]; [|done]. destruct (decide (d < blockNumber s + 1)%Z).
    + rewrite decide_True; [done|]. split; [done|lia].
    + destruct (decide (clocks ≠ [] ∧ _)) as [[? ?]|Hn]; [by rewrite decide_True|]. rewrite decide_False; [done|].
      intros [_ Hd]. apply Hn. split; [|done]. intros ->. rewrite Eb in Hb. cbn in Hb. lia.
Qed.

(** A deadline past the horizon opens the window again. The window holds an id
    to the horizon and no further, so an id ordered under a later deadline is
    forgotten while that deadline still admits it, and the same offer reads as
    fresh. *)
Theorem far_deadline_reopens (s s1 s2 : SealerSt) (id : B256) (deadline : Z) (clocks : list Z) (tr : list (Input * Output)) :
  window_ok s → in_range s → (deadline ≤ long_max)%Z → Sealer.firstSeen s id deadline = (s1, ADM_FRESH) →
  run s1 tr s2 → tr.*1 = ticks clocks →
  (blockNumber s + inclusionHorizonBlocks (conf s) < blockNumber s2 ≤ deadline)%Z →
  (Sealer.firstSeen s2 id deadline).2 = if Sealer.dedupFull s2 then ADM_WINDOW_FULL else ADM_FRESH.
Proof.
  intros Hok Hr Hm Hf Hrun Htr Hd. unfold Sealer.firstSeen in Hf. destruct (Sealer.contains s id) eqn:Ec; [done|].
  destruct (_ <? _)%Z; [done|]. destruct (Sealer.dedupFull s); [done|]. injection Hf as <-.
  destruct (ticks_run _ clocks tr s2 Hrun Htr) as (_ & Hb & Hget); [by apply insertFresh_ok|].
  specialize (Hget id). rewrite insertFresh_get, decide_True, assignedDeadline_eq in Hget by done.
  change (blockNumber (Sealer.insertFresh s id deadline)) with (blockNumber s) in Hb. destruct Hr as [_ Hbn _ _ Hh].
  rewrite decide_True in Hget. 2: { split; [|lia]. intros ->. cbn in Hb. lia. }
  unfold Sealer.firstSeen. rewrite (proj2 (window_contains_false s2 id) Hget). rewrite (proj2 (Z.ltb_ge _ _)) by lia. by destruct (Sealer.dedupFull s2).
Qed.

(** ** The nonces of a sender *)
(** The nonces of [a] that the log orders. *)
Definition ordered (a : Address) (tr : list (Input * Output)) : list Z :=
  omap (λ e, match e with
             | (IRecord _ a' n _ _, ORecord (RecordRelayed _)) => if decide (a' = a) then Some n else None
             | _ => None
             end) tr.

Definition sender_of (i : Input) : option Address :=
  match i with IRecord _ a _ _ _ => if decide (a = 0%N) then None else Some a | _ => None end.

Lemma onRecord_nonces s id a n d p :
  let '(s', o) := Sealer.onRecord s id a n d p in
  expectedNonce s' = (if decide (a = 0%N) then expectedNonce s else
    match o with
    | RecordRelayed _ => lru_put (dedupCapacity (conf s)) a (long_add n 1) (lru_get a (expectedNonce s)).1
    | ContiguityReject _ => (lru_get a (expectedNonce s)).1
    | _ => expectedNonce s
    end) ∧
  (a ≠ 0%N → ∀ r e, o = RecordRelayed r → lhm_get a (expectedNonce s) = Some e → e = n).
Proof.
  unfold Sealer.onRecord. destruct (decide (a = 0%N)) as [->|Ha].
  - cbn [N.eqb negb andb]. by repeat case_match; simplify_eq.
  - rewrite (proj2 (N.eqb_neq a 0) Ha). cbn [negb andb]. pose proof (lru_get_value a (expectedNonce s)) as Hv.
    destruct (Sealer.contains s id); [done|]. destruct (_ <? _)%Z; [done|]. destruct (Sealer.recordLagHalted s); [done|].
    destruct (Sealer.daLagHalted s); [done|]. destruct (Sealer.dedupFull s); [done|].
    destruct (lru_get a (expectedNonce s)) as [m [e|]]; cbn in Hv.
    + destruct (Z.eqb_spec e n) as [->|Hne]; cbn [negb]; [|done]. split; [done|]. congruence.
    + split; [done|]. congruence.
Qed.

Section contiguous.
Context (S : gset Address).

(** A map of cursors of senders of [S], with room for all of them. *)
Record cursors_in (cap : Z) (m : list (Address * Z)) : Prop := {
  ci_ok : lru_ok cap m;
  ci_in : ∀ x, lhm_get x m ≠ None → x ∈ S;
  ci_room : (Z.of_nat (size S) ≤ cap)%Z;
}.

Lemma has_room cap m x : cursors_in cap m → x ∈ S → (Z.of_nat (length m) < cap)%Z ∨ is_Some (lhm_get x m).
Proof.
  intros [[Hnd _] Hin Hc] Hx. destruct (lhm_get x m) eqn:E; [by right|left]. apply lhm_get_None in E.
  assert (list_to_set (x :: m.*1) ⊆ S) as Hsub.
  { intros y. rewrite elem_of_list_to_set. intros [->|Hy]%elem_of_cons; [done|]. apply Hin. rewrite lhm_get_None. tauto. }
  apply subseteq_size in Hsub. rewrite size_list_to_set in Hsub by by constructor. cbn in Hsub. rewrite length_fmap in Hsub. lia.
Qed.

Lemma cursors_get cap m x : cursors_in cap m → cursors_in cap (lru_get x m).1.
Proof. intros [Hok Hin Hr]. split; [by apply lru_get_ok|intros y; rewrite lru_get_map; apply Hin|done]. Qed.

Lemma cursors_put cap m x v : cursors_in cap m → x ∈ S → cursors_in cap (lru_put cap x v m).
Proof.
  intros Hci Hx. pose proof (has_room cap m x Hci Hx) as Hroom. destruct Hci as [Hok Hin Hr]. split; [|intros y|done].
  - apply lru_put_ok; [|done]. assert (size S ≠ 0)%nat; [|lia]. intros Hz%size_empty_inv. set_solver.
  - rewrite lru_put_map by done. case_decide; [by subst|apply Hin].
Qed.

Lemma record_cursor s id a' n d p a e :
  cursors_in (dedupCapacity (conf s)) (expectedNonce s) → (a' ≠ 0%N → a' ∈ S) → lhm_get a (expectedNonce s) = Some e → a ≠ 0%N →
  let '(s', o) := Sealer.onRecord s id a' n d p in
  cursors_in (dedupCapacity (conf s')) (expectedNonce s') ∧
  lhm_get a (expectedNonce s') =
    Some (match o with RecordRelayed _ => if decide (a' = a) then long_add e 1 else e | _ => e end) ∧
  (∀ r, o = RecordRelayed r → a' = a → n = e).
Proof.
  intros Hci Ha' He Ha. pose proof (onRecord_nonces s id a' n d p) as Hn. pose proof (step_conf s (IRecord id a' n d p)) as Hc.
  cbn [step] in Hc. destruct (Sealer.onRecord s id a' n d p) as [s' o]. cbn [fst] in Hc. destruct Hn as [Hm Hrel]. rewrite Hc, Hm.
  destruct (decide (a' = 0%N)) as [->|H0].
  { rewrite decide_False by done. split; [done|]. split; [by destruct o|by intros r _ <-]. }
  specialize (Ha' H0). pose proof (cursors_get _ _ a' Hci) as Hci'.
  assert (∀ r, o = RecordRelayed r → a' = a → n = e) as Hne by (intros r Ho ->; symmetry; by apply (Hrel H0 r e)).
  destruct o; try (by split_and!); [|split_and!; [done|by rewrite lru_get_map|done]].
  split; [by apply cursors_put|]. split; [|done]. rewrite lru_put_map by by eapply has_room. rewrite lru_get_map.
  destruct (decide (a = a')) as [->|]; [|by rewrite decide_False]. rewrite decide_True by done. f_equal. f_equal. by eapply Hne.
Qed.
End contiguous.

(** The voids of the log. *)
Definition no_voids (tr : list (Input * Output)) : Prop := ∀ voter index hash r, (IVoid voter index hash, OVoid VoidLedger.DECIDED (Some r)) ∉ tr.

Lemma void_cursor s voter index hash : (∀ r, (step s (IVoid voter index hash)).2 ≠ OVoid VoidLedger.DECIDED (Some r)) →
  expectedNonce (step s (IVoid voter index hash)).1 = expectedNonce s.
Proof.
  cbn [step]. unfold Sealer.onVoidRequest. pose proof (VoidLedger.onVote_entry (voids s) voter index hash (canonicalCount s)) as He.
  destruct (VoidLedger.onVote _ _ _ _ _) as [v tally]. cbn [snd] in He. destruct (VoidLedger.entry tally) as [e|]; [|done].
  destruct He as [Hv _]. cbn. intros Hn. exfalso. eapply Hn. by rewrite Hv.
Qed.

(** C19. The nonces of a sender are ordered without a gap. While the sender has a
    cursor at [e], over every log without a decided void and whose senders fit the
    map of cursors, the nonces of its ordered records are [e], [e + 1], ... in this
    order. *)
Theorem sender_contiguous (S : gset Address) (a : Address) (s s' : SealerSt) (e : Z) (tr : list (Input * Output)) :
  a ≠ 0%N → is_long e → lhm_get a (expectedNonce s) = Some e → cursors_in S (dedupCapacity (conf s)) (expectedNonce s) →
  run s tr s' → (∀ i o x, (i, o) ∈ tr → sender_of i = Some x → x ∈ S) → no_voids tr →
  ordered a tr = (λ k, to_long (e + k)) <$> seqZ 0 (Z.of_nat (length (ordered a tr))) ∧
  lhm_get a (expectedNonce s') = Some (to_long (e + Z.of_nat (length (ordered a tr)))).
Proof.
  intros Ha. intros He Hg Hci Hrun. revert e He Hg Hci.
  induction Hrun as [s Hr|s i s1 o tr s' Hr Ht Hs Hrun IH]; intros e He Hg Hci Hsend Hv.
  { cbn. rewrite Z.add_0_r, to_long_small by done. done. }
  assert (∀ j o' x, (j, o') ∈ tr → sender_of j = Some x → x ∈ S) as Hsend' by (intros; eapply Hsend; [by right|done]).
  assert (no_voids tr) as Hv' by (intros ? ? ? ? Hin; eapply Hv; by right).
  assert (∀ m, expectedNonce s1 = expectedNonce s → ordered a ((i, o) :: tr) = ordered a tr → m = s1 →
    ordered a ((i, o) :: tr) = (λ k, to_long (e + k)) <$> seqZ 0 (Z.of_nat (length (ordered a ((i, o) :: tr)))) ∧
    lhm_get a (expectedNonce s') = Some (to_long (e + Z.of_nat (length (ordered a ((i, o) :: tr)))))) as Hskip.
  { intros m Em -> _. apply IH; try done; [congruence|]. pose proof (step_conf s i) as Hc. rewrite Hs in Hc. cbn in Hc. by rewrite Hc, Em. }
  destruct i; try (eapply Hskip; [|done|done]; match goal with H : step ?s ?i = _ |- _ => pose proof (step_nonces s i I) as Hn; by rewrite Hs in Hn end).
  2: { eapply (Hskip s1); [|done|done]. pose proof (void_cursor s voterId index hash) as Hn. rewrite Hs in Hn. apply Hn.
       intros r Hd. cbn in Hd. subst o. eapply Hv. by left. }
  cbn [step] in Hs. pose proof (record_cursor S s id sender nonce deadline payload a e Hci) as Hrc.
  destruct (Sealer.onRecord _ _ _ _ _ _) as [s2 ro]. injection Hs as -> <-.
  destruct Hrc as (Hci1 & Hg1 & Hn); [|done|done|].
  { intros H0. eapply Hsend; [by left|]. cbn. by rewrite decide_False. }
  assert (ordered a ((IRecord id sender nonce deadline payload, ORecord ro) :: tr) =
    match ro with RecordRelayed _ => if decide (sender = a) then e :: ordered a tr else ordered a tr | _ => ordered a tr end) as Eo.
  { unfold ordered. cbn [omap list_omap]. destruct ro; try done. destruct (decide (sender = a)) as [->|]; [|done]. f_equal. by eapply Hn. }
  rewrite Eo. destruct ro as [|r| | | | |]; try (by apply IH). destruct (decide (sender = a)) as [->|]; [|by apply IH].
  destruct (IH (long_add e 1)) as [H1 H2]; [apply to_long_is_long|done|done|done|done|].
  assert (∀ k, to_long (long_add e 1 + k) = to_long (e + (1 + k)))%Z as Ew.
  { intros k. unfold long_add. rewrite to_long_add_l. f_equal. lia. }
  cbn [length]. rewrite Nat2Z.inj_succ, <-Z.add_1_l. rewrite <-Ew, <-H2. split; [|done].
  rewrite seqZ_cons, fmap_cons, Z.add_0_r, to_long_small by (done || lia). f_equal. rewrite H1 at 1.
  replace (Z.pred (1 + Z.of_nat (length (ordered a tr)))) with (Z.of_nat (length (ordered a tr))) by lia.
  change (Z.succ 0) with 1%Z. rewrite <-(fmap_add_seqZ 1 0). rewrite <-list_fmap_compose. apply list_fmap_ext. intros _ k _. apply Ew.
Qed.

(** ** Witnesses *)
Lemma senders_checked (S : gset Address) (tr : list (Input * Output)) :
  forallb (λ e, match sender_of e.1 with Some x => bool_decide (x ∈ S) | None => true end) tr = true →
  ∀ i o x, (i, o) ∈ tr → sender_of i = Some x → x ∈ S.
Proof.
  intros Hl i o x Hin Hs. apply forallb_forall with (x := (i, o)) in Hl; [|by apply list_elem_of_In]. cbn in Hl. rewrite Hs in Hl.
  by apply bool_decide_eq_true in Hl.
Qed.

Lemma no_voids_checked (tr : list (Input * Output)) :
  forallb (λ e, match e.2 with OVoid VoidLedger.DECIDED (Some _) => false | _ => true end) tr = true → no_voids tr.
Proof.
  intros Hl voter index hash r Hin. by apply forallb_forall with (x := (IVoid voter index hash, OVoid VoidLedger.DECIDED (Some r))) in Hl;
    [|apply list_elem_of_In].
Qed.

Lemma far_deadline_reopens_witness :
  (Sealer.firstSeen (after (Sealer.firstSeen sample_state 11 9).1 (ticks [1000; 2000; 3000; 4000; 5000]%Z)) 11 9).2 = ADM_FRESH.
Proof.
  rewrite (far_deadline_reopens sample_state (Sealer.firstSeen sample_state 11 9).1 _ 11 9 [1000; 2000; 3000; 4000; 5000]%Z
    (outputs (Sealer.firstSeen sample_state 11 9).1 (ticks [1000; 2000; 3000; 4000; 5000]%Z))).
  - by vm_compute.
  - by apply window_ok_empty.
  - by apply in_rangeb_sound.
  - done.
  - by vm_compute.
  - apply run_log. by vm_compute.
  - by vm_compute.
  - by vm_compute.
Defined.

Definition nonce_log : list Input :=
  [IRecord 21 6 3 4 []; IRecord 22 5 1 4 []; IRecord 23 5 3 4 []; IRecord 24 5 2 4 []; ITick 1000; IRecord 25 5 3 4 []].

Lemma sender_contiguous_witness :
  let s := (step sample_state (IRecord 11 5 0 3 [])).1 in
  ordered 5 (outputs s nonce_log) = [1; 2; 3]%Z ∧
  ordered 5 (outputs s nonce_log) = (λ k, to_long (1 + k)) <$> seqZ 0 (Z.of_nat (length (ordered 5 (outputs s nonce_log)))).
Proof.
  cbv zeta. split; [by vm_compute|].
  apply (sender_contiguous {[5%N; 6%N]} 5 (step sample_state (IRecord 11 5 0 3 [])).1 (after (step sample_state (IRecord 11 5 0 3 [])).1 nonce_log)
    1 (outputs (step sample_state (IRecord 11 5 0 3 [])).1 nonce_log)).
  - done.
  - done.
  - by vm_compute.
  - split; [split; [|by vm_compute]|intros x|by vm_compute].
    + vm_compute. by apply NoDup_singleton.
    + change (expectedNonce _) with [(5%N, 1%Z)]. cbn. case_decide as Hx; [subst; set_solver|done].
  - apply run_log. by vm_compute.
  - apply senders_checked. by vm_compute.
  - apply no_voids_checked. by vm_compute.
Defined.
