(* ===== verification/SealerVotes.v ===== *)
(** * A void takes every voter

    Over a log, the open votes of the ledger are votes that the log holds, for the
    record that the ledger holds at their index. *)
From S2P Require Import Prelude Bytes Java SealerVoid SealerVersions SealerWindows SealerBitmap SealerState SealerFacts SealerSpec.

(** A property of the log so far and of the state. *)
Lemma run_history (P : list (Input * Output) → SealerSt → Prop) s tr s' :
  (∀ pre s i o s1, in_range s → in_range s1 → typed i → step s i = (s1, o) → P pre s → P (pre ++ [(i, o)]) s1) →
  run s tr s' → ∀ pre, P pre s → P (pre ++ tr) s'.
Proof.
  intros Hstep Hrun. induction Hrun as [s Hr|s i s1 o tr s' Hr Ht Hs Hrun IH]; intros pre HP; [by rewrite app_nil_r|].
  replace (pre ++ (i, o) :: tr) with ((pre ++ [(i, o)]) ++ tr) by by rewrite <-app_assoc.
  apply IH. eapply Hstep; [done|by eapply run_start|done|done|done].
Qed.

Lemma run_split s tr1 e tr2 s' : run s (tr1 ++ e :: tr2) s' → ∃ s1 s2, run s tr1 s1 ∧ step s1 e.1 = (s2, e.2) ∧ in_range s1 ∧ in_range s2.
Proof.
  revert s. induction tr1 as [|[i o] tr1 IH]; intros s Hr.
  - inversion Hr as [|? i s2 o ? ? Hin Ht Hs Hr2]; subst. exists s, s2. split_and!; [by constructor|done|done|by eapply run_start].
  - inversion Hr as [|? ? s3 ? ? ? Hin Ht Hs Hr2]; subst. destruct (IH _ Hr2) as (s1 & s2 & Hr1 & Hs1 & ? & ?).
    exists s1, s2. split_and!; [by econstructor|done..].
Qed.

Lemma lhm_get_filter_key {K V} `{EqDecision K} (P : K → Prop) `{!∀ x, Decision (P x), !∀ e : K * V, Decision (P e.1)} k (m : list (K * V)) :
  lhm_get k (filter (λ e, P e.1) m) = if decide (P k) then lhm_get k m else None.
Proof.
  induction m as [|[k1 v1] m IH]; [by case_decide|]. rewrite filter_cons. cbn [fst lhm_get].
  destruct (decide (P k1)), (decide (k1 = k)) as [->|]; cbn [lhm_get]; repeat case_decide; done.
Qed.

Section votes.
Import VoidLedger.

(** The held indices are of ordered records. *)
Definition held_below (l : VoidLedger.t) (count : Z) : Prop := ∀ s i, indexAt l !! s = Some i → (i < count)%Z.

(** A vote of the log for the record that the ledger holds at the index. *)
Definition vote_in (l : VoidLedger.t) (pre : list (Input * Output)) (j index : Z) : Prop :=
  ∃ h o, (IVoid j index h, o) ∈ pre ∧ (indexAt l !! slot l index = Some index → ids l !! slot l index = Some h).

Record votes_backed (l : VoidLedger.t) (pre : list (Input * Output)) (count : Z) : Prop := {
  vb_below : held_below l count;
  vb_votes : ∀ index mask, lhm_get index (votes l) = Some mask → (0 ≤ index < count)%Z ∧
    ∀ j, (0 ≤ j < 64)%Z → Z.testbit mask j = true → vote_in l pre j index;
}.

Lemma votes_backed_mono l pre pre' count count' : votes_backed l pre count → pre ⊆ pre' → (count ≤ count')%Z → votes_backed l pre' count'.
Proof.
  intros [Hb Hv] Hp Hc. split; [intros s i Hi; pose proof (Hb s i Hi); lia|]. intros index mask Hg.
  destruct (Hv index mask Hg) as [Hi Hj]. split; [lia|]. intros j Hj' Ht. destruct (Hj j Hj' Ht) as (h & o & Hin & Hid).
  exists h, o. split; [by apply Hp|done].
Qed.

Lemma onReference_backed l pre count id a n : votes_backed l pre count → votes_backed (onReference l count id a n) pre (count + 1).
Proof.
  intros Hbk. unfold onReference. destruct (_ =? 0)%Z eqn:Ec; [eapply votes_backed_mono; [done|done|lia]|]. destruct Hbk as [Hb Hv]. split.
  - intros s i. cbn. intros [(_ & <- & _)|(_ & Hi)]%list_lookup_insert_Some; [lia|]. pose proof (Hb s i Hi). lia.
  - cbn [votes]. intros index mask Hg. destruct (Hv index mask Hg) as [Hi Hj]. split; [lia|]. intros j Hj' Ht.
    destruct (Hj j Hj' Ht) as (h & o & Hin & Hid). exists h, o. split; [done|]. unfold slot. cbn [indexAt ids cfg].
    fold (slot l index) (slot l count). destruct (decide (slot l count = slot l index)) as [He|He].
    + rewrite He. intros [(_ & Hx & _)|(Hx & _)]%list_lookup_insert_Some; [lia|done].
    + by rewrite !list_lookup_insert_ne.
Qed.

Lemma dropVotes_backed l pre count oldest : votes_backed l pre count → votes_backed (dropVotesBelow l oldest) pre count.
Proof.
  intros [Hb Hv]. split; [done|]. intros index mask. unfold dropVotesBelow. cbn [votes with_votes].
  rewrite (lhm_get_filter_key (λ i, ¬ (i < oldest)%Z)). case_decide; [|done]. apply Hv.
Qed.

(** A vote that does not decide is recorded; one that decides needs all voters. *)
Lemma onVote_backed l pre j index h count o : votes_backed l pre count →
  let '(l', tally) := onVote l j index h count in
  votes_backed l' (pre ++ [(IVoid j index h, o)]) count ∧
  (vote tally = DECIDED → ∀ k, (0 ≤ k < 64)%Z → Z.testbit (voterMask (cfg l)) k = true →
     ∃ o', (IVoid k index h, o') ∈ pre ++ [(IVoid j index h, o)]).
Proof.
  intros Hbk%(dropVotes_backed l pre count (long_sub count (capacity (cfg l)))).
  unfold onVote. set (l1 := dropVotesBelow l _) in *. change (voterMask (cfg l)) with (voterMask (cfg l1)).
  assert (votes_backed l1 (pre ++ [(IVoid j index h, o)]) count) as Hbk1 by (eapply votes_backed_mono; [done|set_solver|lia]).
  destruct (isVoter l1 j) eqn:Ev; [|done]. cbn [negb orb]. destruct (holds l1 index h) eqn:Eh; [|done]. cbn [negb].
  destruct (bool_decide _ && _); [done|].
  assert (0 ≤ j < 64)%Z as Hj.
  { unfold isVoter, MAX_VOTERS in Ev. rewrite !andb_true_iff, Z.leb_le, Z.ltb_lt in Ev. lia. }
  assert ((0 ≤ index)%Z ∧ indexAt l1 !! slot l1 index = Some index ∧ ids l1 !! slot l1 index = Some h) as (Hi0 & Hi & Hid).
  { unfold holds in Eh. destruct (_ || _) eqn:E; [done|]. apply orb_false_iff in E as [_ E%Z.ltb_ge].
    by apply andb_true_iff in Eh as [?%bool_decide_eq_true ?%bool_decide_eq_true]. }
  set (mask := Z.lor _ _).
  assert (∀ k, (0 ≤ k < 64)%Z → Z.testbit mask k = true → vote_in l1 (pre ++ [(IVoid j index h, o)]) k index) as Hmask.
  { intros k Hk. unfold mask. rewrite Z.lor_spec, WindowBits.one_shl_bits, orb_true_iff, bool_decide_eq_true, (Z.mod_small j) by lia. intros [Hb|Hb].
    - destruct (lhm_get index (votes l1)) as [m|] eqn:Eg; [|by rewrite Z.bits_0 in Hb]. by apply (vb_votes _ _ _ Hbk1 index m Eg).
    - subst k. exists h, o. split; [set_solver|done]. }
  destruct (Z.eqb_spec (Z.land mask (voterMask (cfg l1))) (voterMask (cfg l1))) as [Hall|Hnot].
  - unfold take_. cbn beta iota. split.
    + destruct Hbk1 as [Hb Hv]. split; cbn [indexAt votes with_votes].
      * intros s i. cbn [indexAt]. intros [(_ & <- & _)|(_ & Hs)]%list_lookup_insert_Some; [pose proof (Hb _ _ Hi); lia|by eapply Hb].
      * intros index' m. rewrite lhm_get_remove. case_decide; [done|]. intros Hg. destruct (Hv index' m Hg) as [Hi' Hj']. split; [done|].
        intros k Hk Ht. destruct (Hj' k Hk Ht) as (h' & o' & Hin & Hid'). exists h', o'. split; [done|]. unfold slot. cbn [indexAt ids cfg with_votes].
        fold (slot l1 index) (slot l1 index'). intros [(_ & Hx & _)|(_ & Hx)]%list_lookup_insert_Some; [lia|by apply Hid'].
    + intros _ k Hk Ht. rewrite <-Hall, Z.land_spec in Ht. apply andb_true_iff in Ht as [Ht _].
      destruct (Hmask k Hk Ht) as (h' & o' & Hin & Hid'). exists o'. specialize (Hid' Hi). by assert (h' = h) as -> by congruence.
  - destruct (_ =? _)%Z; [done|]. split; [|done]. destruct Hbk1 as [Hb Hv]. split; [done|]. intros index' m. cbn [votes with_votes].
    rewrite lhm_get_put. destruct (decide (index' = index)) as [->|]; [|apply Hv]. intros [= <-]. split; [|done].
    split; [done|]. by eapply Hb.
Qed.
End votes.

(** The count and the block do not go down. *)
Lemma accept_index c e c' : accept c e = Some c' → (c_index c ≤ c_index c' ∧ c_block c ≤ c_block c')%Z.
Proof.
  destruct e; cbn [accept]; destruct (_ : bool) eqn:E in |- *; try done; intros [= <-]; cbn; rewrite ?andb_true_iff, ?Z.eqb_eq, ?Z.ltb_lt in E.
  - lia.
  - lia.
  - unfold ule in E. rewrite Z.leb_le in E. lia.
  - lia.
Qed.

Lemma replay_index c es c' : replay c es = Some c' → (c_index c ≤ c_index c' ∧ c_block c ≤ c_block c')%Z.
Proof.
  revert c. induction es as [|e es IH]; intros c; cbn; [by intros [= <-]|]. destruct (accept c e) as [c1|] eqn:Ea; [|done].
  intros Hr%IH. apply accept_index in Ea. lia.
Qed.

Lemma step_voids s i : match i with IRecord _ _ _ _ _ | IVoid _ _ _ | IRef _ _ _ _ => False | _ => True end →
  voids (step s i).1 = voids s.
Proof. destruct i; cbn [step]; intros H; try done; sealer_op. Qed.

Lemma record_voids s id a n d p : let s1 := (Sealer.onRecord s id a n d p).1 in
  voids s1 = voids s ∨
  voids s1 = VoidLedger.onReference (voids s) (canonicalCount s) id a n ∧ canonicalCount s1 = long_add (canonicalCount s) 1.
Proof. cbv zeta. unfold Sealer.onRecord. repeat (first [by left | by right | progress cbn [fst snd] | destruct_innermost]). Qed.

Lemma ref_voids s lane session position id : let s1 := (Sealer.onRef s lane session position id).1 in
  voids s1 = voids s ∨
  voids s1 = VoidLedger.onReference (voids s) (canonicalCount s) id 0 0 ∧ canonicalCount s1 = long_add (canonicalCount s) 1.
Proof.
  cbv zeta. unfold Sealer.onRef, Sealer.onCarriedRef.
  repeat (first [by left | by right | progress cbn [fst snd] | destruct_innermost]).
Qed.

Definition backed (pre : list (Input * Output)) (s : SealerSt) : Prop :=
  counted s ∧ votes_backed (voids s) pre (canonicalCount s).

Lemma backed_step pre s i o s1 : in_range s → in_range s1 → typed i → step s i = (s1, o) → backed pre s → backed (pre ++ [(i, o)]) s1.
Proof.
  intros Hr Hr1 Ht Hs [Hc Hb]. destruct (replay_step s i s1 o Hr Hr1 Hc Ht Hs) as [Hrep Hc1]. split; [done|].
  apply replay_index in Hrep as [Hrep _]. cbn in Hrep.
  assert (∀ id a n, voids s1 = VoidLedger.onReference (voids s) (canonicalCount s) id a n →
    canonicalCount s1 = long_add (canonicalCount s) 1 → votes_backed (voids s1) (pre ++ [(i, o)]) (canonicalCount s1)) as Href.
  { intros id a n -> Ec. rewrite Ec, long_add_nonneg; [|apply Hr|done|rewrite <-Ec; apply Hr1].
    eapply votes_backed_mono; [by apply onReference_backed|set_solver|lia]. }
  assert (voids s1 = voids s → votes_backed (voids s1) (pre ++ [(i, o)]) (canonicalCount s1)) as Hsame.
  { intros ->. eapply votes_backed_mono; [done|set_solver|lia]. }
  pose proof (step_voids s i) as Hsv. rewrite Hs in Hsv. cbn [fst] in Hsv. destruct i; try (by apply Hsame, Hsv); clear Hsv; cbn [step] in Hs.
  - pose proof (record_voids s id sender nonce deadline payload) as Hv. destruct (Sealer.onRecord _ _ _ _ _ _). injection Hs as -> _.
    destruct Hv as [Hv|[Hv Hn]]; [by apply Hsame|by eapply Href].
  - unfold Sealer.onVoidRequest in Hs. pose proof (onVote_backed (voids s) pre voterId index hash (canonicalCount s) o Hb) as Hv.
    destruct (VoidLedger.onVote _ _ _ _ _) as [v tally]. destruct Hv as [Hv _].
    assert (voids s1 = v) as -> by (destruct (VoidLedger.entry tally); unfold Sealer.appendVoid, Sealer.forget in Hs; cbn in Hs;
      [destruct (lhm_get _ _)|]; by injection Hs as <- _). eapply votes_backed_mono; [done|done|lia].
  - pose proof (ref_voids s lane session position id) as Hv. destruct (Sealer.onRef _ _ _ _ _). injection Hs as -> _.
    destruct Hv as [Hv|[Hv Hn]]; [by apply Hsame|by eapply Href].
Qed.

Lemma onVote_cfg l j index h count : VoidLedger.cfg (VoidLedger.onVote l j index h count).1 = VoidLedger.cfg l.
Proof. unfold VoidLedger.onVote. repeat (first [done | progress cbn [fst snd] | destruct_innermost]). Qed.

Lemma onReference_cfg l index id a n : VoidLedger.cfg (VoidLedger.onReference l index id a n) = VoidLedger.cfg l.
Proof. unfold VoidLedger.onReference. by destruct (_ =? _)%Z. Qed.

Lemma step_cfg s i : VoidLedger.cfg (voids (step s i).1) = VoidLedger.cfg (voids s).
Proof.
  destruct i; try (by rewrite step_voids); cbn [step].
  - pose proof (record_voids s id sender nonce deadline payload) as Hv. destruct (Sealer.onRecord _ _ _ _ _ _).
    destruct Hv as [Hv|[Hv _]]; cbn in *; rewrite Hv; [done|apply onReference_cfg].
  - unfold Sealer.onVoidRequest. pose proof (onVote_cfg (voids s) voterId index hash (canonicalCount s)) as Hv.
    destruct (VoidLedger.onVote _ _ _ _ _) as [v tally]. unfold Sealer.appendVoid, Sealer.forget.
    destruct (VoidLedger.entry tally); [|done]. cbn [dedup with_voids]. by destruct (lhm_get _ _).
  - pose proof (ref_voids s lane session position id) as Hv. destruct (Sealer.onRef _ _ _ _ _).
    destruct Hv as [Hv|[Hv _]]; cbn in *; rewrite Hv; [done|apply onReference_cfg].
Qed.

(** C20. A void takes every voter. Over every log that starts without open votes,
    when a vote decides the void of a record, every configured voter has voted in
    the log for the void of that record, by its index and its hash. *)
Theorem void_unanimous (s s' : SealerSt) (pre post : list (Input * Output)) (voter index : Z) (hash : B256) (r : Relayed) (j : Z) :
  counted s → VoidLedger.votes (voids s) = [] → held_below (voids s) (canonicalCount s) →
  run s (pre ++ (IVoid voter index hash, OVoid VoidLedger.DECIDED (Some r)) :: post) s' →
  (0 ≤ j < 64)%Z → Z.testbit (VoidLedger.voterMask (VoidLedger.cfg (voids s))) j = true →
  ∃ o, (IVoid j index hash, o) ∈ pre ++ [(IVoid voter index hash, OVoid VoidLedger.DECIDED (Some r))].
Proof.
  intros Hc Hv Hh Hrun Hj Hm. destruct (run_split _ _ _ _ _ Hrun) as (s1 & s2 & Hr1 & Hs & _ & _). cbn [fst snd step] in Hs.
  assert (backed pre s1) as [_ Hb].
  { apply (run_history backed s pre s1 backed_step Hr1 []). split; [done|]. split; [done|]. by rewrite Hv. }
  assert (VoidLedger.cfg (voids s1) = VoidLedger.cfg (voids s)) as Ecfg.
  { eapply (run_invariant (λ s1, VoidLedger.cfg (voids s1) = VoidLedger.cfg (voids s))); [|exact Hr1|done].
    intros s3 i o s4 _ _ _ _ Hs3 <-. replace s4 with (step s3 i).1 by by rewrite Hs3. apply step_cfg. }
  pose proof (onVote_backed (voids s1) pre voter index hash (canonicalCount s1) (OVoid VoidLedger.DECIDED (Some r)) Hb) as Hd.
  unfold Sealer.onVoidRequest in Hs. destruct (VoidLedger.onVote _ _ _ _ _) as [v tally]. destruct Hd as [_ Hd]. rewrite Ecfg in Hd.
  apply Hd; [|done|done]. destruct (VoidLedger.entry tally); cbn in Hs; by injection Hs.
Qed.

(** The entries of the sample log up to the decision. *)
Definition vote_log : list Input := take 11 sample_log.

Lemma void_unanimous_witness :
  ∃ pre r, outputs sample_state vote_log = pre ++ [(IVoid 1 10 16, OVoid VoidLedger.DECIDED (Some r))] ∧
  ∃ o, (IVoid 0 10 16, o) ∈ pre ++ [(IVoid 1 10 16, OVoid VoidLedger.DECIDED (Some r))].
Proof.
  assert (counted sample_state) as Hc by by split.
  assert (held_below (voids sample_state) (canonicalCount sample_state)) as Hh.
  { intros s i Hi. cbn in Hi. do 4 (destruct s; [by injection Hi as <-|]). done. }
  assert (run sample_state (outputs sample_state vote_log) (after sample_state vote_log)) as Hrun by (apply run_log; by vm_compute).
  assert (∃ r, outputs sample_state vote_log = outputs sample_state (take 10 sample_log) ++ [(IVoid 1 10 16, OVoid VoidLedger.DECIDED (Some r))])
    as [r Hr] by (eexists; by vm_compute).
  exists (outputs sample_state (take 10 sample_log)), r. split; [exact Hr|]. rewrite Hr in Hrun.
  exact (void_unanimous sample_state (after sample_state vote_log) _ [] 1 10 16 r 0 Hc eq_refl Hh Hrun (conj (Z.le_refl 0) eq_refl) eq_refl).
Defined.
