(* ===== verification/SealerInv.v ===== *)
(** * The invariant of the canonical state

    What holds in every state that a log reaches from a new sealer. *)
From S2P Require Import Prelude Bytes Java SealerVoid SealerVersions SealerWindows SealerTable SealerBitmap SealerWindowsSpec SealerState SealerFacts SealerSpec SealerRefs SealerOrder SealerVotes.

(** The best cursor is the greatest one, and names an ordered record. *)
Record cursors_ok (c : RecordedCursors.t) (count : Z) : Prop := {
  co_best : (RecordedCursors.NONE ≤ RecordedCursors.best c < Z.max 0 count)%Z;
  co_max : ∀ k v, RecordedCursors.recorded c !! k = Some v → (0 ≤ v ≤ RecordedCursors.best c)%Z;
  co_some : RecordedCursors.best c ≠ RecordedCursors.NONE → ∃ k, RecordedCursors.recorded c !! k = Some (RecordedCursors.best c);
}.

Record sealer_ok (s : SealerSt) : Prop := {
  so_window : window_ok s;
  so_live : window_live s;
  so_horizon : within_horizon (blockNumber s + inclusionHorizonBlocks (conf s)) s;
  so_counted : counted s;
  so_senders : lru_ok (dedupCapacity (conf s)) (expectedNonce s);
  so_posted : (0 ≤ postedHead s < blockNumber s)%Z;
  so_recorded : cursors_ok (recorded s) (canonicalCount s);
  so_votes : (Z.of_nat (length (VoidLedger.votes (voids s))) ≤ VoidLedger.MAX_OPEN_VOTES)%Z;
  so_windows : ∃ a, rel (windows s) a;
  so_capacity : (0 < dedupCapacity (conf s))%Z;
}.

(** ** The window *)
Definition window_within (s : SealerSt) : Prop :=
  window_ok s ∧ window_live s ∧ within_horizon (blockNumber s + inclusionHorizonBlocks (conf s)) s ∧
  (0 ≤ blockNumber s ≤ long_max)%Z ∧ (0 < inclusionHorizonBlocks (conf s) ≤ long_max)%Z.

Lemma window_within_step s i : window_within s → (0 ≤ blockNumber (step s i).1)%Z → window_within (step s i).1.
Proof.
  intros Hw Hb. apply (step_window window_within (λ _, True)); [| | | |done|apply Hw|done|done].
  - intros s1 s2 Hs (Hok & Hl & Hh & Hn). split; [by eapply window_ok_same|]. unfold window_live, within_horizon. destruct Hs as (-> & _ & -> & ->). done.
  - intros s1 id d (Hok & Hl & Hh & Hn & Hz) Hc Hd. pose proof (assignedDeadline_sum s1 Hn Hz) as Ea.
    split; [by apply insertFresh_ok|]. split; [|split; [|done]]; intros id' d'; rewrite insertFresh_get; case_decide;
      [intros [= <-]; cbn; lia|apply Hl|intros [= <-]; cbn; lia|apply Hh].
  - intros s1 id (Hok & Hl & Hh & Hn & Hz) _. pose proof (forget_get s1 id) as Hg. pose proof (forget_ok s1 id Hok) as Hok'.
    split; [done|]. assert (blockNumber (Sealer.forget s1 id) = blockNumber s1 ∧ conf (Sealer.forget s1 id) = conf s1) as [Eb Ec]
      by (unfold Sealer.forget; by destruct (lhm_get id (dedup s1))). unfold window_live, within_horizon. rewrite Eb, Ec.
    split; [|split; [|done]]; intros id' d'; rewrite Hg; case_decide; [done|apply Hl|done|apply Hh].
  - intros s1 c (Hok & Hl & Hh & Hn & Hz) Hb1. split; [by apply onTick_ok|]. split; [by apply onTick_live|].
    assert (blockNumber (Sealer.onTick s1 c).1 ≤ long_max)%Z by (rewrite onTick_block; apply to_long_is_long).
    change (conf (Sealer.onTick s1 c).1) with (conf s1). split; [|split; [lia|done]]. intros id d. rewrite onTick_get by done.
    destruct (lhm_get id (dedup s1)) as [d'|] eqn:E; [|done]. case_decide; [done|]. intros [= <-]. apply Hh in E. lia.
Qed.

(** ** The cursors *)
Lemma senders_step s i : (0 < dedupCapacity (conf s))%Z → lru_ok (dedupCapacity (conf s)) (expectedNonce s) →
  lru_ok (dedupCapacity (conf s)) (expectedNonce (step s i).1).
Proof.
  intros Hc Hok. destruct i; try (by rewrite step_nonces); cbn [step].
  - pose proof (onRecord_nonces s id sender nonce deadline payload) as Hn. destruct (Sealer.onRecord _ _ _ _ _ _) as [s' o].
    destruct Hn as [Hn _]. cbn [fst]. rewrite Hn. case_decide; [done|]. destruct o; try done; [apply lru_put_ok; [done|]|]; by apply lru_get_ok.
  - unfold Sealer.onVoidRequest. destruct (VoidLedger.onVote _ _ _ _ _) as [v tally]. destruct (VoidLedger.entry tally) as [e|]; [|done].
    unfold Sealer.appendVoid, Sealer.forget. cbn [dedup with_voids]. destruct (lhm_get _ _); by apply lru_compute_ok.
Qed.

Lemma step_posted s i : match i with IPosted _ => False | _ => True end → postedHead (step s i).1 = postedHead s.
Proof. destruct i; cbn [step]; intros H; try done; sealer_op. Qed.

Lemma step_recorded s i : match i with IRecorded _ _ => False | _ => True end → recorded (step s i).1 = recorded s.
Proof. destruct i; cbn [step]; intros H; try done; sealer_op. Qed.

Lemma posted_step s i : in_range s → (0 ≤ postedHead s < blockNumber s)%Z → (blockNumber s ≤ blockNumber (step s i).1)%Z →
  (0 ≤ postedHead (step s i).1 < blockNumber (step s i).1)%Z.
Proof.
  intros Hr Hp Hb. destruct i; try (rewrite step_posted; [lia|done]).
  cbn [step] in *. unfold caught, Sealer.onPostedCursor, Sealer.sealedHead in *.
  assert (long_sub (blockNumber s) 1 = blockNumber s - 1)%Z as E.
  { destruct Hr. apply to_long_small. unfold is_long, long_min, long_max in *. lia. }
  rewrite E in *. destruct (Z.ltb_spec (blockNumber s - 1) head); [done|]. destruct (Z.leb_spec head (postedHead s)); [done|]. cbn. lia.
Qed.

Lemma onCursor_ok c count k v : cursors_ok c count → (0 ≤ v < count)%Z → cursors_ok (RecordedCursors.onCursor c k v).1 count.
Proof.
  intros [Hb Hm Hs] Hv. unfold RecordedCursors.onCursor.
  set (x := match RecordedCursors.recorded c !! k with Some old => _ | None => _ end).
  assert (v ≤ x ∧ (x = v ∨ RecordedCursors.recorded c !! k = Some x ∧ v ≤ x))%Z as [Hx Hx'].
  { unfold x. destruct (RecordedCursors.recorded c !! k) as [old|]; [|lia]. destruct (Z.max_spec old v) as [[? ->]|[? ->]]; [lia|]. split; [lia|by right]. }
  assert (x ≤ Z.max v (RecordedCursors.best c))%Z as Hxb by (destruct Hx' as [->|[Hk _]]; [lia|apply Hm in Hk; lia]).
  destruct (Z.leb_spec v (RecordedCursors.best c)) as [Hle|Hgt]; cbn [fst].
  - split; cbn.
    + done.
    + intros k' v'. rewrite lookup_insert_Some. intros [[<- <-]|[_ Hk]]; [lia|by apply Hm in Hk].
    + intros Hn. destruct (Hs Hn) as [k0 Hk0]. destruct (decide (k = k0)) as [<-|Hne].
      * exists k. rewrite lookup_insert_eq. f_equal. assert (x = Z.max (RecordedCursors.best c) v) by (unfold x; by rewrite Hk0). lia.
      * exists k0. by rewrite lookup_insert_ne.
  - split; cbn.
    + unfold RecordedCursors.NONE. lia.
    + intros k' v'. rewrite lookup_insert_Some. intros [[<- <-]|[_ Hk]]; [lia|apply Hm in Hk; lia].
    + intros _. exists k. rewrite lookup_insert_eq. f_equal. lia.
Qed.

Lemma cursors_step s i : in_range s → typed i → cursors_ok (recorded s) (canonicalCount s) →
  (canonicalCount s ≤ canonicalCount (step s i).1)%Z → cursors_ok (recorded (step s i).1) (canonicalCount (step s i).1).
Proof.
  intros Hr Ht Hok Hc. assert (∀ c, cursors_ok c (canonicalCount s) → cursors_ok c (canonicalCount (step s i).1)) as Hmono.
  { intros c [? ? ?]. split; [lia|done..]. }
  destruct i; try (rewrite step_recorded; [by apply Hmono|done]). clear Hmono Hc.
  cbn [step typed] in *. unfold caught, Sealer.onRecordedCursor. destruct (negb _); [done|].
  destruct (ule (canonicalCount s) through) eqn:Eu; [done|].
  assert (0 ≤ through < canonicalCount s)%Z as Hv.
  { unfold ule in Eu. apply Z.leb_gt in Eu. destruct Hr. rewrite (unsigned_nonneg (canonicalCount s)) in Eu by done.
    pose proof (unsigned_bound through). pose proof (unsigned_small through Ht). lia. }
  pose proof (onCursor_ok (recorded s) (canonicalCount s) (Z.to_N executorId) through Hok Hv) as Ho.
  by destruct (RecordedCursors.onCursor _ _ _).
Qed.

(** ** The votes *)
Lemma lhm_put_length {K V} `{EqDecision K} k (v : V) (m : list (K * V)) : (length (lhm_put k v m) ≤ length m + 1)%nat.
Proof. induction m as [|[k1 v1] m IH]; cbn; [lia|]. case_decide; cbn; lia. Qed.

Lemma lhm_put_present {K V} `{EqDecision K} k (v : V) (m : list (K * V)) : lhm_get k m ≠ None → length (lhm_put k v m) = length m.
Proof. induction m as [|[k1 v1] m IH]; cbn; [done|]. case_decide; cbn; [done|]. intros Hp. by rewrite IH. Qed.

Lemma onVote_count l j index h count :
  (Z.of_nat (length (VoidLedger.votes l)) ≤ VoidLedger.MAX_OPEN_VOTES)%Z →
  (Z.of_nat (length (VoidLedger.votes (VoidLedger.onVote l j index h count).1)) ≤ VoidLedger.MAX_OPEN_VOTES)%Z.
Proof.
  intros Hl. unfold VoidLedger.onVote. set (l1 := VoidLedger.dropVotesBelow l _).
  assert (Z.of_nat (length (VoidLedger.votes l1)) ≤ VoidLedger.MAX_OPEN_VOTES)%Z as Hl1.
  { unfold l1, VoidLedger.dropVotesBelow. cbn [VoidLedger.votes VoidLedger.with_votes].
    pose proof (length_filter (λ e : Z * Z, ¬ (e.1 < long_sub count (VoidLedger.capacity (VoidLedger.cfg l)))%Z) (VoidLedger.votes l)). lia. }
  destruct (_ || _); [done|]. destruct (bool_decide (lhm_get index (VoidLedger.votes l1) = None) && _) eqn:Eo; [done|].
  destruct (_ =? _)%Z; [|destruct (_ =? _)%Z; [done|]]; cbn [fst snd VoidLedger.take_ VoidLedger.votes VoidLedger.with_votes].
  - unfold lhm_remove. pose proof (length_filter (λ e : Z * Z, e.1 ≠ index) (VoidLedger.votes l1)). lia.
  - apply andb_false_iff in Eo as [Eo%bool_decide_eq_false|Eo%Z.leb_gt]; [by rewrite lhm_put_present|].
    pose proof (lhm_put_length index (Z.lor (default 0%Z (lhm_get index (VoidLedger.votes l1))) (long_shl 1 j)) (VoidLedger.votes l1)). lia.
Qed.

Lemma onReference_votes l index id a n : VoidLedger.votes (VoidLedger.onReference l index id a n) = VoidLedger.votes l.
Proof. unfold VoidLedger.onReference. by destruct (_ =? _)%Z. Qed.

Lemma votes_step s i : (Z.of_nat (length (VoidLedger.votes (voids s))) ≤ VoidLedger.MAX_OPEN_VOTES)%Z →
  (Z.of_nat (length (VoidLedger.votes (voids (step s i).1))) ≤ VoidLedger.MAX_OPEN_VOTES)%Z.
Proof.
  intros Hl. destruct i; try (by rewrite step_voids); cbn [step].
  - pose proof (record_voids s id sender nonce deadline payload) as Hv. destruct (Sealer.onRecord _ _ _ _ _ _).
    destruct Hv as [Hv|[Hv _]]; cbn in *; rewrite Hv; [done|by rewrite onReference_votes].
  - unfold Sealer.onVoidRequest. pose proof (onVote_count (voids s) voterId index hash (canonicalCount s) Hl) as Hv.
    destruct (VoidLedger.onVote _ _ _ _ _) as [v tally]. unfold Sealer.appendVoid, Sealer.forget.
    destruct (VoidLedger.entry tally); [|done]. cbn [dedup with_voids]. by destruct (lhm_get _ _).
  - pose proof (ref_voids s lane session position id) as Hv. destruct (Sealer.onRef _ _ _ _ _).
    destruct Hv as [Hv|[Hv _]]; cbn in *; rewrite Hv; [done|by rewrite onReference_votes].
Qed.

(** ** The replay windows *)
Lemma carried_rel s a lane session position : rel (windows s) a → ∃ a', rel (windows (Sealer.onCarriedRef s lane session position).1) a'.
Proof.
  intros Hr. pose proof (onCarriedRef_offer s lane session position) as Ho.
  pose proof (windows_offer_rel (windows s) a lane session position (canonicalCount s) (negb (halted s)) Hr) as Hw.
  destruct (windows_offer _ _ _ _ _ _) as [w seen]. destruct (spec_offer _ _ _ _ _ _ _) as [a' seen'].
  destruct (Sealer.onCarriedRef _ _ _ _) as [s1 o]. destruct Ho as [<- _]. exists a'. apply Hw.
Qed.

Lemma windows_step s i : (∃ a, rel (windows s) a) → ∃ a, rel (windows (step s i).1) a.
Proof.
  intros [a Hr]. destruct (image_of i) as [k|] eqn:Ei; [|rewrite step_windows by done; eauto].
  destruct i; try done; cbn [step]; [|by destruct (carried_rel s a lane session position Hr) as [a' Ha'];
    destruct (Sealer.onCarriedRef _ _ _ _); exists a'].
  unfold Sealer.onRef. destruct (carried_rel s a lane session position Hr) as [a' Ha'].
  destruct (Sealer.onCarriedRef _ _ _ _) as [s1 []]; by exists a'.
Qed.

(** ** The claim *)
Lemma sealer_ok_step s i o s1 : in_range s → in_range s1 → typed i → step s i = (s1, o) → sealer_ok s → sealer_ok s1.
Proof.
  intros Hr Hr1 Ht Hs [H1 H2 H3 H4 H5 H6 H7 H8 H9 H10]. destruct (replay_step s i s1 o Hr Hr1 H4 Ht Hs) as [Hrep Hc1].
  apply replay_index in Hrep as [Hi Hb]. cbn in Hi, Hb. assert (s1 = (step s i).1) as -> by by rewrite Hs.
  destruct (window_within_step s i) as (W1 & W2 & W3 & _); [split_and!; try done; apply Hr|apply Hr1|].
  split; [done|done|done|done|..]; rewrite ?step_conf.
  - by apply senders_step.
  - by apply posted_step.
  - by apply cursors_step.
  - by apply votes_step.
  - by apply windows_step.
  - done.
Qed.

(** C16. The canonical state is well formed. In every state that a log reaches from
    a new sealer: the dedup window and its deadline groups hold the same ids, each
    once, none below the open block and none past the horizon; the open block starts
    at or below the count; the cursors of the senders are distinct and within their
    cap; the posted head is sealed; the best recorded cursor is the greatest one and
    names an ordered record; the open votes are within their cap; and the replay
    windows represent sets of units. *)
Theorem sealer_invariant (cap initial horizon window : Z) (origins : gset Z) (voidConfig : VoidLedger.Config) (budgets : LagBudgets)
    (s s' : SealerSt) (tr : list (Input * Output)) :
  (1 ≤ initial)%Z → Sealer.new cap initial origins voidConfig horizon window budgets = Ok s → run s tr s' → sealer_ok s'.
Proof.
  intros Hi Hn Hrun. eapply (run_invariant sealer_ok); [|exact Hrun|].
  { intros s1 i o s2 _. by apply sealer_ok_step. }
  unfold Sealer.new in Hn. destruct (Z.leb_spec cap 0); [done|]. destruct (_ <=? _)%Z; [done|]. destruct (_ <? _)%Z; [done|].
  destruct (SessionWindows.new _ _) as [w|] eqn:Ew; [|done]. apply new_rel in Ew as (Hw & _). injection Hn as <-.
  split; cbn; try done.
  - by apply window_ok_empty.
  - split; [constructor|cbn; lia].
  - lia.
  - by exists [].
Qed.

(** The pressure of a full window clears. Once more boundaries than the horizon
    has blocks have passed, the window is empty, so no record is refused because it
    is full. *)
Theorem window_pressure_clears (s s' : SealerSt) (clocks : list Z) (tr : list (Input * Output)) (id : B256) (sender : Address)
    (nonce deadline : Z) (payload : list N) :
  sealer_ok s → run s tr s' → tr.*1 = ticks clocks → (inclusionHorizonBlocks (conf s) < Z.of_nat (length clocks))%Z →
  dedup s' = [] ∧ (Sealer.onRecord s' id sender nonce deadline payload).2 ≠ WindowFull.
Proof.
  intros Hok Hrun Htr Hlen. destruct (ticks_run s clocks tr s' Hrun Htr (so_window s Hok)) as (Hok' & Hb & Hget).
  pose proof (run_start _ _ _ Hrun) as Hr. assert (clocks ≠ []) as Hne by (intros ->; destruct Hr; cbn in Hlen; lia).
  assert (sealer_ok s') as Hok1 by (eapply (run_invariant sealer_ok); [|exact Hrun|done]; intros s1 i o s2 _; by apply sealer_ok_step).
  assert (dedup s' = []) as Hnil.
  { destruct (dedup s') as [|[id' d] m] eqn:E; [done|]. specialize (Hget id'). cbn in Hget. rewrite decide_True in Hget by done.
    destruct (lhm_get id' (dedup s)) as [d'|] eqn:E'; [|done]. apply (so_horizon s Hok) in E'. rewrite decide_True in Hget; [done|]. split; [done|lia]. }
  split; [done|]. unfold Sealer.onRecord, Sealer.dedupFull. rewrite Hnil. cbn [length].
  rewrite (proj2 (Z.leb_gt _ _)) by apply (so_capacity s' Hok1). by repeat case_match.
Qed.

(** ** Witnesses *)
Lemma sealer_invariant_witness :
  ∃ s s', Sealer.new 8 1 {[ 77%Z ]} (VoidLedger.mkConfig 4 3) 4 0 (mkBudgets 0 0) = Ok s ∧
    run s (outputs s [IRecord 11 5 0 3 []; ITick 1000; IPosted 1]) s' ∧ sealer_ok s'.
Proof.
  eexists _, _. split; [reflexivity|].
  match goal with |- run ?s _ _ ∧ _ => assert (run s (outputs s [IRecord 11 5 0 3 []; ITick 1000; IPosted 1])
    (after s [IRecord 11 5 0 3 []; ITick 1000; IPosted 1])) as Hrun by (apply run_log; by vm_compute) end.
  split; [exact Hrun|]. eapply (sealer_invariant 8 1 4 0 {[ 77%Z ]} (VoidLedger.mkConfig 4 3) (mkBudgets 0 0)); [done|reflexivity|exact Hrun].
Defined.

Lemma sample_ok : sealer_ok sample_state.
Proof.
  split; cbn; try done.
  - by apply window_ok_empty.
  - split; [constructor|done].
  - exists []. exact sample_windows_rel.
Qed.

Lemma window_pressure_clears_witness :
  let s := after sample_state [IRecord 11 5 0 3 []] in
  let log := ticks [1; 2; 3; 4; 5]%Z in
  dedup s ≠ [] ∧ dedup (after s log) = [] ∧ (Sealer.onRecord (after s log) 12 6 0 9 []).2 ≠ WindowFull.
Proof.
  cbv zeta. split; [by vm_compute|].
  apply (window_pressure_clears (after sample_state [IRecord 11 5 0 3 []]) _ [1; 2; 3; 4; 5]%Z
    (outputs (after sample_state [IRecord 11 5 0 3 []]) (ticks [1; 2; 3; 4; 5]%Z))).
  - apply (sealer_ok_step sample_state (IRecord 11 5 0 3 []) (step sample_state (IRecord 11 5 0 3 [])).2);
      [by apply in_rangeb_sound| |done|apply surjective_pairing|exact sample_ok]. apply in_rangeb_sound. by vm_compute.
  - apply run_log. by vm_compute.
  - by vm_compute.
  - by vm_compute.
Defined.
