(* ===== verification/SealerPriority.v ===== *)
(** * The ordering window of the sealer

    Models [OrderingWindow.java]: the records of an open window leave it by the tip,
    highest first, with the records of one sender in their arrival order. The sort
    of [flush] is a stable sort by a comparator that no two entries tie under, so
    its result is the sorted permutation. A tip is the 128-bit number of its two
    halves; a sender is the number of its 20 bytes, and the all-zero sender is [0]. *)
From stdpp Require Import sorting.
From S2P Require Import Prelude Bytes Java.

Module OrderingWindow.
Definition DEFAULT_CAPACITY : Z := 20.
Definition HOLD_MS : Z := 5.

Record Entry (T : Type) : Type := mkEntry { tipHi : Z; tipLo : Z; headArrival : Z; arrival : Z; record : T }.
Arguments mkEntry {T}.
Arguments tipHi {T}.
Arguments tipLo {T}.
Arguments headArrival {T}.
Arguments arrival {T}.
Arguments record {T}.

Record t (T : Type) : Type := mk {
  capacity : Z;
  entries : list (Entry T);
  heads : gmap Address (Entry T);
  nextArrival : Z;
}.
Arguments mk {T}.
Arguments capacity {T}.
Arguments entries {T}.
Arguments heads {T}.
Arguments nextArrival {T}.

Section window.
Context {T : Type}.
Implicit Types (w : t T) (e : Entry T).

Definition new (capacity : Z) : result Exn (t T) :=
  if (capacity <? 0)%Z then Err IllegalArgument else Ok (mk capacity [] ∅ 0).

Definition isEmpty w : bool := bool_decide (length (entries w) = 0).

(** [Long.compare] and [Long.compareUnsigned]. *)
Definition FLUSH_ORDER e1 e2 : comparison :=
  match (headArrival e1 ?= headArrival e2)%Z with Eq => (arrival e1 ?= arrival e2)%Z | c => c end.

Definition byTipDescending e1 e2 : comparison :=
  match (unsigned (tipHi e2) ?= unsigned (tipHi e1))%Z with
  | Eq => match (unsigned (tipLo e2) ?= unsigned (tipLo e1))%Z with Eq => FLUSH_ORDER e1 e2 | c => c end
  | c => c
  end.

Definition before e1 e2 : Prop := byTipDescending e1 e2 ≠ Gt.
#[global] Instance before_dec e1 e2 : Decision (before e1 e2).
Proof. unfold before. apply _. Defined.

Definition add w (sender20 : Address) (hi lo : Z) (r : T) : t T * bool :=
  let a := nextArrival w in
  let head := if (sender20 =? 0)%N then None else heads w !! sender20 in
  let entry := match head with
               | None => mkEntry hi lo a a r
               | Some h => mkEntry (tipHi h) (tipLo h) (headArrival h) a r
               end in
  let heads' := match head with None => if (sender20 =? 0)%N then heads w else <[sender20 := entry]> (heads w) | Some _ => heads w end in
  let entries' := entries w ++ [entry] in
  (mk (capacity w) entries' heads' (long_add a 1), (capacity w <=? Z.of_nat (length entries'))%Z).

Definition flush w : t T * list T :=
  (mk (capacity w) [] ∅ (nextArrival w), record <$> merge_sort before (entries w)).

(** ** The order of the flush *)
(** The tip, as the number it is. *)
Definition tip e : Z := unsigned (tipHi e) * 2 ^ 64 + unsigned (tipLo e).

Definition key_le e1 e2 : Prop :=
  (tip e2 < tip e1 ∨ tip e1 = tip e2 ∧ (headArrival e1 < headArrival e2 ∨ headArrival e1 = headArrival e2 ∧ arrival e1 ≤ arrival e2))%Z.

Lemma before_key e1 e2 : before e1 e2 ↔ key_le e1 e2.
Proof.
  unfold before, byTipDescending, FLUSH_ORDER, key_le, tip. pose proof (unsigned_bound (tipLo e1)). pose proof (unsigned_bound (tipLo e2)).
  destruct (Z.compare_spec (unsigned (tipHi e2)) (unsigned (tipHi e1))); [|split; [lia|done]|split; [done|lia]].
  destruct (Z.compare_spec (unsigned (tipLo e2)) (unsigned (tipLo e1))); [|split; [lia|done]|split; [done|lia]].
  destruct (Z.compare_spec (headArrival e1) (headArrival e2)); [|split; [lia|done]|split; [done|lia]].
  destruct (Z.compare_spec (arrival e1) (arrival e2)); (split; [lia|done]) || (split; [done|lia]).
Qed.

#[global] Instance before_trans : Transitive before.
Proof. intros e1 e2 e3. rewrite !before_key. unfold key_le. lia. Qed.

#[global] Instance before_total : Total before.
Proof. intros e1 e2. rewrite !before_key. unfold key_le. lia. Qed.

Lemma flush_sorted w : StronglySorted before (merge_sort before (entries w)).
Proof. apply StronglySorted_merge_sort; apply _. Qed.
End window.
End OrderingWindow.

Import OrderingWindow.

(** ** A window of records with their senders *)
Section senders.
Context {U : Type}.

(** One offer: the sender, the tip and the rest of the record. *)
Record Offer : Type := mkOffer { of_sender : Address; of_hi : Z; of_lo : Z; of_rest : U }.

Definition add_offer (w : OrderingWindow.t Offer) (o : Offer) : OrderingWindow.t Offer := (add w (of_sender o) (of_hi o) (of_lo o) o).1.
Definition add_all (w : OrderingWindow.t Offer) (os : list Offer) : OrderingWindow.t Offer := fold_left add_offer os w.

(** The entries keep the offers in arrival order, and the entries of a sender share
    the key of its head. *)
Record window_of (w : OrderingWindow.t Offer) (os : list Offer) : Prop := {
  wf_records : record <$> entries w = os;
  wf_arrivals : StronglySorted (λ e1 e2, (arrival e1 < arrival e2)%Z) (entries w);
  wf_next : ∀ e, e ∈ entries w → (arrival e < nextArrival w)%Z;
  wf_heads : ∀ e, e ∈ entries w → of_sender (record e) ≠ 0%N → ∃ h, heads w !! of_sender (record e) = Some h ∧
    tipHi e = tipHi h ∧ tipLo e = tipLo h ∧ headArrival e = headArrival h;
}.

Lemma add_window w os o : window_of w os → (0 ≤ nextArrival w)%Z → (nextArrival w + 1 ≤ long_max)%Z →
  window_of (add_offer w o) (os ++ [o]) ∧ nextArrival (add_offer w o) = (nextArrival w + 1)%Z.
Proof.
  intros [Hr Ha Hn Hh] H0 Hmax. assert (long_add (nextArrival w) 1 = nextArrival w + 1)%Z as En.
  { apply to_long_small. unfold is_long, long_min, long_max in *. lia. }
  unfold add_offer, add. cbn [fst]. set (head := if (of_sender o =? 0)%N then None else heads w !! of_sender o).
  set (entry := match head with Some _ => _ | None => _ end).
  assert (arrival entry = nextArrival w ∧ record entry = o) as [Ea Er] by (unfold entry; by destruct head).
  split; [|exact En]. split; cbn [entries nextArrival heads].
  - by rewrite fmap_app, Hr; cbn; rewrite Er.
  - apply StronglySorted_app_2; [|done|repeat constructor]. intros e1 e2 H1 ->%list_elem_of_singleton. rewrite Ea. by apply Hn.
  - intros e [He|He%list_elem_of_singleton]%elem_of_app; rewrite En; [apply Hn in He; lia|subst e; lia].
  - intros e [He|He%list_elem_of_singleton]%elem_of_app Hs.
    + destruct (Hh e He Hs) as (h & Hl & Hk). destruct head as [h'|] eqn:Eh; [by exists h|]. unfold head in Eh.
      destruct (N.eqb_spec (of_sender o) 0) as [Hz|Hz]; [by exists h|]. exists h. split; [|done].
      rewrite lookup_insert_ne; [done|]. intros Hc. rewrite Hc in Eh. congruence.
    + subst e. rewrite Er in *. destruct head as [h'|] eqn:Eh; unfold head in Eh; destruct (N.eqb_spec (of_sender o) 0); try done.
      * exists h'. split; [done|]. by unfold entry.
      * exists entry. by rewrite lookup_insert_eq.
Qed.

Lemma add_all_window w os os' : window_of w os → (0 ≤ nextArrival w)%Z → (nextArrival w + Z.of_nat (length os') ≤ long_max)%Z →
  window_of (add_all w os') (os ++ os').
Proof.
  revert w os. induction os' as [|o os' IH]; intros w os Hw H0 Hm; cbn [add_all fold_left length] in *; [by rewrite app_nil_r|].
  destruct (add_window w os o Hw H0 ltac:(lia)) as [Hw1 En]. replace (os ++ o :: os') with ((os ++ [o]) ++ os') by by rewrite <-app_assoc.
  apply IH; [done|lia|lia].
Qed.

Lemma StronglySorted_filter_list {A} (R : relation A) (P : A → Prop) `{!∀ x, Decision (P x)} l : StronglySorted R l → StronglySorted R (filter P l).
Proof.
  induction 1 as [|x l Hl IH Hx]; [constructor|]. rewrite filter_cons. case_decide; [|done]. constructor; [done|].
  apply Forall_forall. intros y [_ Hy]%list_elem_of_filter. by eapply Forall_forall.
Qed.

Lemma StronglySorted_weaken {A} (R R' : relation A) l : (∀ x y, x ∈ l → y ∈ l → R x y → R' x y) → StronglySorted R l → StronglySorted R' l.
Proof.
  intros HR Hl. induction Hl as [|x l Hl IH Hx]; [constructor|]. constructor.
  - apply IH. intros y z Hy Hz. apply HR; by right.
  - apply Forall_forall. intros y Hy. rewrite Forall_forall in Hx. apply HR; [by left|by right|by apply Hx].
Qed.

Lemma arrival_inj (es : list (Entry Offer)) e1 e2 : StronglySorted (λ e1 e2, (arrival e1 < arrival e2)%Z) es →
  e1 ∈ es → e2 ∈ es → arrival e1 = arrival e2 → e1 = e2.
Proof.
  induction 1 as [|x l Hl IH Hx]; [by intros ?%elem_of_nil|]. rewrite Forall_forall in Hx.
  intros [->|H1]%elem_of_cons [->|H2]%elem_of_cons He; [done|apply Hx in H2; lia|apply Hx in H1; lia|by apply IH].
Qed.

Lemma filter_record a (es : list (Entry Offer)) :
  filter (λ o, of_sender o = a) (record <$> es) = record <$> filter (λ e, of_sender (record e) = a) es.
Proof.
  induction es as [|e es IH]; [done|]. cbn [fmap list_fmap]. rewrite !filter_cons. by case_decide; cbn; rewrite IH.
Qed.

(** C21. The ordering window keeps the records and the order of each sender. A window
    that opens empty and takes offers flushes them all, each once; the offers of one
    sender leave in the order they came, so a later nonce never passes an earlier
    one; and the window is empty after. *)
Theorem flush_keeps_senders (w : OrderingWindow.t Offer) (os : list Offer) :
  entries w = [] → (0 ≤ nextArrival w)%Z → (nextArrival w + Z.of_nat (length os) ≤ long_max)%Z →
  let '(w', out) := flush (add_all w os) in
  out ≡ₚ os ∧ entries w' = [] ∧ ∀ a, a ≠ 0%N → filter (λ o, of_sender o = a) out = filter (λ o, of_sender o = a) os.
Proof.
  intros He H0 Hm. assert (window_of w []) as Hw0.
  { split; rewrite He; [done|constructor|by intros e ?%elem_of_nil|by intros e ?%elem_of_nil]. }
  destruct (add_all_window w [] os Hw0 H0 Hm) as [Hr Ha _ Hh]. cbn [app] in *. set (w1 := add_all w os) in *. cbn [flush fst snd].
  pose proof (merge_sort_Permutation before (entries w1)) as Hp. split; [by rewrite Hp, Hr|]. split; [done|]. intros a Hz.
  rewrite <-Hr, !filter_record. f_equal.
  apply (StronglySorted_unique_strong (λ e1 e2, (arrival e1 ≤ arrival e2)%Z)).
  - intros e1 e2 [_ H1]%list_elem_of_filter [_ H2]%list_elem_of_filter Hl1 Hl2. rewrite Hp in H1.
    apply (arrival_inj _ _ _ Ha H1 H2). lia.
  - eapply StronglySorted_weaken; [|apply StronglySorted_filter_list, flush_sorted].
    intros e1 e2 [E1 H1]%list_elem_of_filter [E2 H2]%list_elem_of_filter. rewrite Hp in H1, H2. rewrite before_key.
    destruct (Hh e1 H1) as (h1 & Hl1 & K1 & K2 & K3); [congruence|]. destruct (Hh e2 H2) as (h2 & Hl2 & K4 & K5 & K6); [congruence|].
    assert (h1 = h2) as <- by congruence. unfold key_le, tip. rewrite K1, K2, K3, K4, K5, K6. lia.
  - eapply StronglySorted_weaken; [|by apply StronglySorted_filter_list]. cbn. lia.
  - by rewrite Hp.
Qed.
End senders.

(** ** A sample window *)
(** Sender 7 offers a low tip and then a high one; sender 8 is between. *)
Definition sample_offers : list (@Offer nat) :=
  [mkOffer 7 0 5 0; mkOffer 8 0 9 1; mkOffer 7 0 30 2; mkOffer 0 1 0 3; mkOffer 9 0 9 4].

Lemma flush_keeps_senders_witness :
  let '(w', out) := flush (add_all (mk 20 [] ∅ 40) sample_offers) in
  (of_rest <$> out) = [3; 1; 4; 0; 2]%nat ∧
  (out ≡ₚ sample_offers ∧ entries w' = [] ∧
   ∀ a, a ≠ 0%N → filter (λ o, of_sender o = a) out = filter (λ o, of_sender o = a) sample_offers).
Proof.
  pose proof (flush_keeps_senders (mk 20 [] ∅ 40) sample_offers eq_refl ltac:(done) ltac:(done)) as H.
  assert (of_rest <$> (flush (add_all (mk 20 [] ∅ 40) sample_offers)).2 = [3; 1; 4; 0; 2]%nat) as E by by vm_compute.
  destruct (flush _) as [w' out]. by split.
Defined.
