(* ===== verification/SealerSnapshot.v ===== *)
(** * The snapshot of the sealer

    Models [takeSnapshot] and [load] of [CanonicalSealerState.java], with the layouts
    of every version, and the snapshot and the restore of a member in
    [SealerClusteredService.java]. A size is an [int] of its own type, so the count
    of bytes that the writer allocates is not modelled. What [load] sets in a new
    state stands in the state that it returns; the version that it restored from is
    for the admin endpoint and is returned beside it. *)
From S2P Require Import Prelude Bytes Java SealerVoid SealerVersions SealerWindows SealerState.

Module SealerSnapshot.
Definition SNAPSHOT_MAGIC : Z := 0x4B534541.
Definition SNAPSHOT_READ_MIN_VERSION : Z := 1.
Definition SNAPSHOT_READ_VERSION : Z := 18.
Definition CURSORS_SNAPSHOT_VERSION : Z := 11.
Definition RETAINED_FILE_SNAPSHOT_VERSION : Z := 12.
Definition ONE_ACTIVATION_SNAPSHOT_VERSION : Z := 13.
Definition SNAPSHOT_WRITE_VERSION : Z := 14.
Definition SWITCH_SNAPSHOT_VERSION : Z := 15.
Definition CARRY_SNAPSHOT_VERSION : Z := 16.
Definition FILE_SNAPSHOT_VERSION : Z := 17.
Definition WINDOW_SNAPSHOT_VERSION : Z := 18.
Definition REMOTE_ENTRY_LEN_V4 : Z := 8 + 8.
Definition REMOTE_ENTRY_LEN_V5 : Z := 8 + 8 + 1 + 8.

Definition ordinal (st : SeedStatus) : Z := match st with GENESIS => 0 | PENDING => 1 | CONFIRMED => 2 end.

Definition seedStatusOf (code : Z) : Reader Exn SeedStatus :=
  if (code <? 0)%Z || (3 <=? code)%Z then fail IllegalArgument
  else mret (if (code =? 0)%Z then GENESIS else if (code =? 1)%Z then PENDING else CONFIRMED).

Definition holdsRetainedFile (version : Z) : bool :=
  (version =? RETAINED_FILE_SNAPSHOT_VERSION)%Z || (version =? FILE_SNAPSHOT_VERSION)%Z.

(** ** Writing *)

Definition snapshotVersion (s : SealerSt) : Z :=
  if VersionSwitch.holdsWindowActivation (versions s) then WINDOW_SNAPSHOT_VERSION
  else if VersionSwitch.holdsCarryActivation (versions s) then CARRY_SNAPSHOT_VERSION
  else if VersionSwitch.holdsActivation (versions s) then SWITCH_SNAPSHOT_VERSION else SNAPSHOT_WRITE_VERSION.

Definition writeId (e : B256 * Z) : list N := to_be_bytes 32 e.1 ++ put_long e.2.
Definition writeSender (e : Address * Z) : list N := to_be_bytes 20 e.1 ++ put_long e.2.
Definition writeRemote (e : Z * RemotePeer) : list N :=
  put_long e.1 ++ put_long (anchorNumber e.2) ++ put_byte (if nextSeqKnown e.2 then 1 else 0) ++ put_long (nextSeq e.2).

Definition takeSnapshot (s : SealerSt) (version : Z) : list N :=
  let withVoids := negb (version =? RETAINED_FILE_SNAPSHOT_VERSION)%Z in
  let withCursors := (version =? CURSORS_SNAPSHOT_VERSION)%Z in
  let withWindow := (version =? WINDOW_SNAPSHOT_VERSION)%Z in
  let withCarry := (version =? CARRY_SNAPSHOT_VERSION)%Z || (version =? FILE_SNAPSHOT_VERSION)%Z || withWindow in
  let withSwitch := (version =? SWITCH_SNAPSHOT_VERSION)%Z || withCarry in
  let withRules := (version =? SNAPSHOT_WRITE_VERSION)%Z || withSwitch in
  put_int SNAPSHOT_MAGIC ++ put_int version ++ put_long (canonicalCount s) ++ put_long (blockNumber s) ++
  put_int (Z.of_nat (length (dedup s))) ++ (dedup s ≫= writeId) ++
  put_int (Z.of_nat (length (expectedNonce s))) ++ (expectedNonce s ≫= writeSender) ++
  put_long (l1Origin s) ++ put_long (lastL2Timestamp s) ++ put_long (lastBoundaryCount s) ++
  put_int (Z.of_nat (length (remoteOrigins s))) ++ (remoteOrigins s ≫= writeRemote) ++
  (if withVoids then VoidLedger.writeTo (voids s) (canonicalCount s) else []) ++
  put_int (orderingWindow (conf s)) ++ put_long (postedHead s) ++
  put_byte (ordinal (seedStatus s)) ++ to_be_bytes 32 (seedDigest s) ++
  (if withCursors then RecordedCursors.writeTo (recorded s) else []) ++
  (if withRules then DecisionRules.writeTo (rules s) else []) ++
  (if withSwitch then VersionSwitch.writeTo (versions s) ++ SessionWindows.writeTo (windows s) else []) ++
  (if withCarry then VersionSwitch.writeCarryTo (versions s) else []) ++
  (if withWindow then VersionSwitch.writeWindowTo (versions s) else []).

(** ** Reading *)

(** The configuration of a member, which no snapshot holds. *)
Record Member : Type := mkMember {
  m_dedupCapacity : Z;
  m_remoteOrigins : gset Z;
  m_voidConfig : VoidLedger.Config;
  m_inclusionHorizonBlocks : Z;
  m_orderingWindow : Z;
  m_budgets : LagBudgets;
}.

Definition lift {A} (r : result Exn A) : Reader Exn A := λ buf, match r with Ok a => Ok (a, buf) | Err e => Err e end.

(** [if (version >= n) field = read], else the value of a new state. *)
Definition since {A} (c : bool) (r : Reader Exn A) (a : A) : Reader Exn A := if c then r else mret a.

(** [count < 0 || count > most || count * len > remaining]. *)
Definition checkCount (count most len : Z) : Reader Exn () :=
  if (count <? 0)%Z || (most <? count)%Z then fail IllegalArgument
  else left ← remaining; if (left <? count * len)%Z then fail IllegalArgument else mret ().

Definition readId (version assigned : Z) : Reader Exn (B256 * Z) :=
  id ← get_word 32; held ← since (7 <=? version)%Z get_long assigned; mret (id, held).

Definition readSender : Reader Exn (Address * Z) := a ← get_word 20; e ← get_long; mret (a, e).

Definition readRemote (version : Z) : Reader Exn (Z * RemotePeer) :=
  chain ← get_long;
  anchor ← get_long;
  cursor ← since (5 <=? version)%Z (k ← get_byte; n ← get_long; mret (negb (k =? 0)%Z, n)) (false, 0%Z);
  mret (chain, mkPeer anchor cursor.1 cursor.2).

Definition readSenders (m : Member) (version : Z) : Reader Exn (list (Address * Z)) :=
  since (2 <=? version)%Z (
    count ← get_int;
    _ ← checkCount count (m_dedupCapacity m) (20 + 8);
    senders ← read_many readSender (Z.to_nat count);
    mret (fold_left (λ l e, lru_put (m_dedupCapacity m) e.1 e.2 l) senders [])) [].

Definition readRemotes (version : Z) : Reader Exn (list (Z * RemotePeer)) :=
  since (4 <=? version)%Z (
    count ← get_int;
    _ ← VoidLedger.checkCount count (if (5 <=? version)%Z then REMOTE_ENTRY_LEN_V5 else REMOTE_ENTRY_LEN_V4);
    peers ← read_many (readRemote version) (Z.to_nat count);
    mret (fold_left (λ l e, lhm_put e.1 e.2 l) peers [])) [].

Definition checkWindow (m : Member) (version : Z) : Reader Exn () :=
  since (8 <=? version)%Z (
    w ← get_int;
    if negb (w =? m_orderingWindow m)%Z then fail IllegalArgument else mret ()) ().

Definition readRules (version : Z) (start : DecisionRules.t) : Reader Exn DecisionRules.t :=
  if (version =? ONE_ACTIVATION_SNAPSHOT_VERSION)%Z then DecisionRules.readVersionThirteen
  else since (SNAPSHOT_WRITE_VERSION <=? version)%Z DecisionRules.readFrom start.

(** The version switch comes in three sections, with the replay windows after the first. *)
Definition readSwitch (version : Z) (start : VersionSwitch.t) (fresh : SessionWindows.t) : Reader Exn (VersionSwitch.t * SessionWindows.t) :=
  r ← since (SWITCH_SNAPSHOT_VERSION <=? version)%Z (
    v ← VersionSwitch.readFrom;
    w ← SessionWindows.readFrom SessionWindows.DEFAULT_SLOTS SessionWindows.DEFAULT_WIDTH;
    mret (v, w)) (start, fresh);
  v ← since (CARRY_SNAPSHOT_VERSION <=? version)%Z (VersionSwitch.readCarryFrom r.1) r.1;
  v ← since (version =? WINDOW_SNAPSHOT_VERSION)%Z (VersionSwitch.readWindowFrom v) v;
  mret (v, r.2).

Definition load (m : Member) : Reader Exn (SealerSt * Z) :=
  magic ← get_int;
  if negb (magic =? SNAPSHOT_MAGIC)%Z then fail IllegalArgument
  else
    version ← get_int;
    if (version <? SNAPSHOT_READ_MIN_VERSION)%Z || (SNAPSHOT_READ_VERSION <? version)%Z then fail IllegalArgument
    else
      count ← get_long;
      block ← get_long;
      idCount ← get_int;
      _ ← checkCount idCount (m_dedupCapacity m + MARKER_SLACK) (if (7 <=? version)%Z then 32 + 8 else 32);
      state ← lift (Sealer.new (m_dedupCapacity m) block (m_remoteOrigins m) (m_voidConfig m)
                      (m_inclusionHorizonBlocks m) (m_orderingWindow m) (m_budgets m));
      ids ← read_many (readId version (Sealer.assignedDeadline state)) (Z.to_nat idCount);
      let state := fold_left (λ s e, Sealer.insertFresh s e.1 e.2) ids state in
      senders ← readSenders m version;
      trio ← since (3 <=? version)%Z (o ← get_long; ts ← get_long; b ← get_long; mret (o, ts, b)) (0, 0, 0)%Z;
      peers ← readRemotes version;
      ledger ← since ((6 <=? version)%Z && negb (version =? RETAINED_FILE_SNAPSHOT_VERSION)%Z)
                 (VoidLedger.readFrom (m_voidConfig m)) (voids state);
      _ ← checkWindow m version;
      posted ← since (9 <=? version)%Z get_long 0%Z;
      seed ← since (10 <=? version)%Z (b ← get_byte; st ← seedStatusOf b; d ← get_word 32; mret (st, d)) (GENESIS, 0%N);
      cursors ← since (version =? CURSORS_SNAPSHOT_VERSION)%Z
                  (RecordedCursors.readFrom (recordLagRecords (m_budgets m)) (VoidLedger.isVoter ledger)) (recorded state);
      rules' ← readRules version (rules state);
      switch ← readSwitch version (versions state) (windows state);
      mret (mkSt (conf state) (dedup state) (byDeadline state) senders peers ledger cursors posted seed.1 seed.2
              rules' switch.1 switch.2 count (blockNumber state) trio.1.1 trio.1.2 trio.2, version).

(** ** A member *)

(** [snapshot()] of the service, its state section: a member that keeps its retained
    frames in a file writes the layout for it. *)
Definition snapshot (s : SealerSt) : list N :=
  takeSnapshot s (if VersionSwitch.fileStore (versions s) then FILE_SNAPSHOT_VERSION else snapshotVersion s).

Definition keep_file (s : SealerSt) (file : bool) : SealerSt := with_versions s (VersionSwitch.set_fileStore (versions s) file).

(** [restore(snapshot)] of the service up to its egress: a snapshot with another
    retention layout than that of the member stops it. *)
Definition restore (m : Member) (file : bool) (snapshot : list N) : result Exn SealerSt :=
  '(s, version, _) ← load m snapshot;
  if negb (eqb (holdsRetainedFile version) file) then Err IllegalState else Ok (keep_file s file).

(** [seededFrom(seed)]: a member that peers may send to refuses a seed. *)
Definition seededFrom (m : Member) (seed : option Sealer.SealerSeed) : result Exn (option Sealer.SealerSeed) :=
  match seed with
  | Some _ => if bool_decide (m_remoteOrigins m = ∅) then Ok seed else Err IllegalArgument
  | None => Ok None
  end.

(** [start(cluster, snapshot)] up to its egress: from a snapshot, else from the seed,
    else at genesis. *)
Definition start (m : Member) (file : bool) (seed : option Sealer.SealerSeed) (snapshot : option (list N)) : result Exn SealerSt :=
  match snapshot, seed with
  | Some bytes, _ => restore m file bytes
  | None, Some sd =>
    s ← Sealer.seeded sd (m_dedupCapacity m) (m_voidConfig m) (m_inclusionHorizonBlocks m) (m_orderingWindow m) (m_budgets m);
    Ok (keep_file s file)
  | None, None =>
    s ← Sealer.new (m_dedupCapacity m) GENESIS_BLOCK_NUMBER (m_remoteOrigins m) (m_voidConfig m) (m_inclusionHorizonBlocks m)
          (m_orderingWindow m) (m_budgets m);
    Ok (keep_file s file)
  end.
End SealerSnapshot.
