(* ===== verification/SealerRestore.v ===== *)
(** * Reading a snapshot of the sealer back

    What [load] rebuilds from the snapshot of a state: the ids, senders, peers and
    settings as they are, the void ledger and the replay windows up to what no
    operation can tell apart. *)
From S2P Require Import Prelude Bytes Java SealerVoid SealerVersions SealerWindows SealerTable SealerBitmap SealerWindowsSpec.
From S2P Require Import SealerState SealerFacts SealerSpec SealerRefs SealerOrder SealerVotes SealerInv SealerSnapshot.
Import SealerSnapshot.

(** ** Reading back *)

Lemma reads_since {A} (c : bool) (r : Reader Exn A) bs a x : (if c then reads r bs x else bs = [] ∧ a = x) → reads (since c r a) bs x.
Proof. destruct c; [done|]. by intros [-> ->]. Qed.

(** A reader that takes nothing. *)
Lemma reads_skip {A B} (r : Reader Exn A) (f : A → Reader Exn B) cs a b : reads r [] a → reads (f a) cs b → reads (r ≫= f) cs b.
Proof. intros Hr Hf. by apply (reads_bind r f [] cs a b). Qed.

Lemma reads_checked {A} count most len bs (k : Reader Exn A) x : (0 ≤ count ≤ most)%Z → (count * len ≤ Z.of_nat (length bs))%Z →
  reads k bs x → reads (_ ← checkCount count most len; k) bs x.
Proof.
  intros Hc Hl Hk rest. unfold checkCount, mbind, reader_bind. rewrite (proj2 (Z.ltb_ge _ _)), (proj2 (Z.ltb_ge _ _)) by lia. cbn.
  rewrite length_app, (proj2 (Z.ltb_ge _ _)) by lia. apply Hk.
Qed.

Lemma reads_void_checked {A} count len bs (k : Reader Exn A) x : (0 ≤ count)%Z → (count * len ≤ Z.of_nat (length bs))%Z →
  reads k bs x → reads (_ ← VoidLedger.checkCount count len; k) bs x.
Proof.
  intros Hc Hl Hk rest. unfold VoidLedger.checkCount, mbind, reader_bind. cbn. rewrite length_app.
  rewrite (proj2 (Z.ltb_ge count 0)), (proj2 (Z.ltb_ge _ _)) by lia. apply Hk.
Qed.

Lemma length_bind {A} (f : A → list N) n l : (∀ x, length (f x) = n) → length (l ≫= f) = (length l * n)%nat.
Proof. intros Hf. induction l as [|x l IH]; cbn; [done|]. by rewrite length_app, Hf, IH. Qed.

Lemma length_put_long z : length (put_long z) = 8%nat.
Proof. apply length_to_be_bytes. Qed.

(** A put of a fresh key appends it. *)
Lemma fold_put {K V} `{EqDecision K} (m l : list (K * V)) : NoDup (m ++ l).*1 → fold_left (λ q e, lhm_put e.1 e.2 q) l m = m ++ l.
Proof.
  revert m. induction l as [|[k v] l IH]; intros m Hnd; cbn; [by rewrite app_nil_r|]. rewrite lhm_put_fresh.
  - rewrite IH; rewrite <-app_assoc; done.
  - apply lhm_get_None. rewrite fmap_app in Hnd. apply NoDup_app in Hnd as (_ & Hd & _). intros Hin. apply (Hd _ Hin). cbn. left.
Qed.

Lemma fold_lru_put {K V} `{EqDecision K} cap (m l : list (K * V)) : NoDup (m ++ l).*1 → (Z.of_nat (length (m ++ l)) ≤ cap)%Z →
  fold_left (λ q e, lru_put cap e.1 e.2 q) l m = m ++ l.
Proof.
  revert m. induction l as [|[k v] l IH]; intros m Hnd Hl; cbn; [by rewrite app_nil_r|].
  assert (lru_put cap k v m = m ++ [(k, v)]) as ->; [|by rewrite IH; rewrite <-app_assoc].
  unfold lru_put. assert (lhm_get k m = None) as ->.
  { apply lhm_get_None. rewrite fmap_app in Hnd. apply NoDup_app in Hnd as (_ & Hd & _). intros Hin. apply (Hd _ Hin). cbn. left. }
  rewrite length_app in *. cbn in *. by rewrite (proj2 (Z.ltb_ge _ _)) by lia.
Qed.

(** ** Ids, senders and peers *)

Section entries.
Context (m : Member) (version : Z) (Hv : (14 ≤ version ≤ 18)%Z).

Lemma reads_ids assigned l : Forall (λ e, (e.1 < 256 ^ 32)%N ∧ is_long e.2) l → reads (read_many (readId version assigned) (length l)) (l ≫= writeId) l.
Proof.
  intros Hl. apply reads_many. eapply Forall_impl; [exact Hl|]. intros [id d] [Hid Hd]. unfold readId, writeId. cbn [fst snd] in *.
  eapply reads_bind; [by apply reads_word|]. eapply reads_bind_ret; [|done]. apply reads_since. rewrite (proj2 (Z.leb_le _ _)) by lia. by apply reads_long.
Qed.

Lemma reads_senders l : Forall (λ e, (e.1 < 256 ^ 20)%N ∧ is_long e.2) l → is_int (Z.of_nat (length l)) → lru_ok (m_dedupCapacity m) l →
  reads (readSenders m version) (put_int (Z.of_nat (length l)) ++ (l ≫= writeSender)) l.
Proof.
  intros Hl Hi [Hnd Hcap]. apply reads_since. rewrite (proj2 (Z.leb_le _ _)) by lia. eapply reads_bind; [by apply reads_int|].
  apply reads_checked; [lia| |].
  - rewrite (length_bind _ 28); [lia|]. intros e. unfold writeSender. rewrite length_app, length_put_long, length_to_be_bytes. done.
  - rewrite Nat2Z.id. eapply reads_bind_ret.
    + apply reads_many. eapply Forall_impl; [exact Hl|]. intros [a e] [Ha He]. unfold readSender, writeSender. cbn [fst snd] in *.
      eapply reads_bind; [by apply reads_word|]. eapply reads_bind_ret; [by apply reads_long|done].
    + by rewrite fold_lru_put.
Qed.

Lemma reads_remotes l : Forall (λ e, is_long e.1 ∧ is_long (anchorNumber e.2) ∧ is_long (nextSeq e.2)) l → is_int (Z.of_nat (length l)) → NoDup l.*1 →
  reads (readRemotes version) (put_int (Z.of_nat (length l)) ++ (l ≫= writeRemote)) l.
Proof.
  intros Hl Hi Hnd. apply reads_since. rewrite (proj2 (Z.leb_le _ _)) by lia. eapply reads_bind; [by apply reads_int|].
  rewrite (proj2 (Z.leb_le 5 version)) by lia. apply reads_void_checked; [lia| |].
  - rewrite (length_bind _ 25); [unfold REMOTE_ENTRY_LEN_V5; lia|]. intros e. unfold writeRemote. rewrite !length_app, !length_put_long. done.
  - rewrite Nat2Z.id. eapply reads_bind_ret.
    + apply reads_many. eapply Forall_impl; [exact Hl|]. intros [c [a k n]] (Hc & Ha & Hn). unfold readRemote, writeRemote. cbn [fst snd anchorNumber nextSeq nextSeqKnown] in *.
      eapply reads_bind; [by apply reads_long|]. eapply reads_bind; [by apply reads_long|]. eapply reads_bind_ret.
      * apply reads_since. rewrite (proj2 (Z.leb_le _ _)) by lia. eapply reads_bind; [apply (reads_byte (if k then 1 else 0)%Z); by destruct k|].
        eapply reads_bind_ret; [by apply reads_long|done].
      * by destruct k.
    + by rewrite (fold_put []).
Qed.
End entries.

(** ** The void ledger *)

Import VoidLedger (slot, indexAt, ids, senders, nonces, votes, cfg, entryAt, onReference).

(** The references of the slots are ordered ones, each in its slot. *)
Record ledger_ok (l : VoidLedger.t) (count : Z) : Prop := {
  lo_capacity : (0 ≤ VoidLedger.capacity (cfg l) < 2 ^ 31)%Z;
  lo_lengths : length (indexAt l) = Z.to_nat (VoidLedger.capacity (cfg l)) ∧ length (ids l) = length (indexAt l) ∧
    length (senders l) = length (indexAt l) ∧ length (nonces l) = length (indexAt l);
  lo_slots : ∀ k i, indexAt l !! k = Some i → i ≠ (-1)%Z → (0 ≤ i < count)%Z ∧ slot l i = k;
  lo_votes : NoDup (votes l).*1;
  lo_masks : ∀ i m, (i, m) ∈ votes l → Z.land m (VoidLedger.voterMask (cfg l)) = m ∧ m ≠ 0%Z;
}.

(** The entries of a ledger are of their types. *)
Record ledger_typed (l : VoidLedger.t) : Prop := {
  lt_ids : Forall (λ x, (x < 256 ^ 32)%N) (ids l);
  lt_senders : Forall (λ x, (x < 256 ^ 20)%N) (senders l);
  lt_nonces : Forall is_long (nonces l);
  lt_votes : Forall (λ v, is_long v.1 ∧ is_long v.2) (votes l) ∧ is_int (Z.of_nat (length (votes l)));
}.

Definition slot_view (l : VoidLedger.t) (k : nat) : option Z * option B256 * option Address * option Z :=
  (indexAt l !! k, ids l !! k, senders l !! k, nonces l !! k).

Definition entry_view (e : VoidLedger.Entry) : option Z * option B256 * option Address * option Z :=
  (Some (VoidLedger.e_index e), Some (VoidLedger.e_id e), Some (VoidLedger.e_sender e), Some (VoidLedger.e_nonce e)).

Definition sized_ledger (l : VoidLedger.t) : Prop :=
  (0 < VoidLedger.capacity (cfg l))%Z ∧ length (indexAt l) = Z.to_nat (VoidLedger.capacity (cfg l)) ∧ length (ids l) = length (indexAt l) ∧
  length (senders l) = length (indexAt l) ∧ length (nonces l) = length (indexAt l).

Lemma slot_lt l i : sized_ledger l → (0 ≤ i)%Z → (slot l i < length (indexAt l))%nat.
Proof. intros (Hc & -> & _) Hi. unfold slot. pose proof (Z.rem_bound_pos i (VoidLedger.capacity (cfg l)) Hi Hc). lia. Qed.

Lemma reference_view l i id a n k : sized_ledger l → (0 ≤ i)%Z →
  slot_view (onReference l i id a n) k = if decide (k = slot l i) then (Some i, Some id, Some a, Some n) else slot_view l k.
Proof.
  intros Hs Hi. pose proof (slot_lt l i Hs Hi) as Hlt. destruct Hs as (Hc & Hl & H1 & H2 & H3).
  unfold onReference, slot_view. rewrite (proj2 (Z.eqb_neq _ _)) by lia. cbn. destruct (decide (k = slot l i)) as [->|Hne].
  - by rewrite !list_lookup_insert_eq by lia.
  - by rewrite !list_lookup_insert_ne by congruence.
Qed.

Lemma reference_sized l i id a n : sized_ledger l → sized_ledger (onReference l i id a n) ∧ cfg (onReference l i id a n) = cfg l ∧ votes (onReference l i id a n) = votes l.
Proof.
  intros (Hc & Hl & H1 & H2 & H3). unfold onReference. rewrite (proj2 (Z.eqb_neq _ _)) by lia. cbn. split; [|done].
  split; [done|]. cbn. by rewrite !length_insert.
Qed.

(** Entries of distinct slots, one after the other. *)
Lemma fold_references es l : sized_ledger l → Forall (λ e, (0 ≤ VoidLedger.e_index e)%Z) es → NoDup ((λ e, slot l (VoidLedger.e_index e)) <$> es) →
  let l' := fold_left (λ l e, onReference l (VoidLedger.e_index e) (VoidLedger.e_id e) (VoidLedger.e_sender e) (VoidLedger.e_nonce e)) es l in
  sized_ledger l' ∧ cfg l' = cfg l ∧ votes l' = votes l ∧
  (∀ e, e ∈ es → slot_view l' (slot l (VoidLedger.e_index e)) = entry_view e) ∧
  (∀ k, (∀ e, e ∈ es → slot l (VoidLedger.e_index e) ≠ k) → slot_view l' k = slot_view l k).
Proof.
  intros Hs. induction es as [|e es IH] using rev_ind; intros Hi Hnd; [cbn; set_solver|].
  apply Forall_app in Hi as [Hi He]. rewrite Forall_singleton in He. rewrite fmap_app in Hnd. apply NoDup_app in Hnd as (Hnd & Hd & _).
  destruct (IH Hi Hnd) as (Hs' & Hc & Hv & Hin & Hout). cbv zeta. rewrite fold_left_app. cbn [fold_left]. set (l1 := fold_left _ es l) in *.
  assert (∀ i, slot l1 i = slot l i) as Hslot by (intros i; unfold slot; by rewrite Hc).
  destruct (reference_sized l1 (VoidLedger.e_index e) (VoidLedger.e_id e) (VoidLedger.e_sender e) (VoidLedger.e_nonce e) Hs') as (H1 & H2 & H3).
  split; [done|]. split; [congruence|]. split; [congruence|]. split.
  - intros e' [Hin'|Heq%list_elem_of_singleton]%elem_of_app; rewrite (reference_view l1 _ _ _ _ _ Hs' He), Hslot; [|subst e'; by rewrite decide_True].
    rewrite decide_False; [auto|]. intros Heq. apply (Hd (slot l (VoidLedger.e_index e'))); [apply list_elem_of_fmap; by exists e'|]. rewrite Heq. cbn. left.
  - intros k Hk. rewrite (reference_view l1 _ _ _ _ _ Hs' He), Hslot. rewrite decide_False; [apply Hout; set_solver|]. intros ->. by apply (Hk e); [set_solver|].
Qed.

(** The indices that a snapshot holds have slots of their own. *)
Lemma held_spec l count i : i ∈ VoidLedger.heldIndices l count ↔
  (Z.max 0 (count - VoidLedger.capacity (cfg l)) ≤ i < count)%Z ∧ indexAt l !! slot l i = Some i.
Proof. unfold VoidLedger.heldIndices. rewrite list_elem_of_filter, elem_of_seqZ. split; intros [? ?]; (split; [|done || lia]); done || lia. Qed.

Lemma held_slots l count : (0 < VoidLedger.capacity (cfg l))%Z → NoDup (slot l <$> VoidLedger.heldIndices l count).
Proof.
  intros Hc. apply NoDup_fmap_2_strong; [|apply NoDup_filter, NoDup_seqZ].
  intros i j (_ & Hi)%held_spec (_ & Hj)%held_spec Heq. rewrite Heq in Hi. congruence.
Qed.

Lemma bind_entries {A B} (f : B → list N) (g : A → B) l : (l ≫= λ x, f (g x)) = (g <$> l) ≫= f.
Proof. induction l as [|x l IH]; cbn; [done|]. by rewrite IH. Qed.

Definition held (l : VoidLedger.t) (count : Z) : list VoidLedger.Entry :=
  (λ i, entryAt l (slot l i) i) <$> (if (VoidLedger.capacity (cfg l) =? 0)%Z then [] else VoidLedger.heldIndices l count).

Definition rebuilt (l : VoidLedger.t) (count : Z) : VoidLedger.t :=
  fold_left VoidLedger.restoreVote (votes l)
    (fold_left (λ l e, onReference l (VoidLedger.e_index e) (VoidLedger.e_id e) (VoidLedger.e_sender e) (VoidLedger.e_nonce e))
       (held l count) (VoidLedger.new (cfg l))).

Lemma reads_entry e : is_long (VoidLedger.e_index e) → (VoidLedger.e_id e < 256 ^ 32)%N → (VoidLedger.e_sender e < 256 ^ 20)%N → is_long (VoidLedger.e_nonce e) →
  reads VoidLedger.readEntry (VoidLedger.writeEntry e) e.
Proof.
  intros. destruct e as [i id a n]. unfold VoidLedger.readEntry, VoidLedger.writeEntry. cbn [VoidLedger.e_index VoidLedger.e_id VoidLedger.e_sender VoidLedger.e_nonce] in *.
  eapply reads_bind; [by apply reads_long|]. eapply reads_bind; [by apply reads_word|]. eapply reads_bind; [by apply reads_word|]. eapply reads_bind_ret; [by apply reads_long|done].
Qed.

Lemma total_typed {A} `{!Inhabited A} (P : A → Prop) (l : list A) k : P inhabitant → Forall P l → P (l !!! k).
Proof. intros Hi Hl. rewrite list_lookup_total_alt. destruct (l !! k) as [x|] eqn:E; [|done]. cbn. by eapply Forall_lookup_1. Qed.

Lemma held_length l count : (0 ≤ VoidLedger.capacity (cfg l))%Z → (Z.of_nat (length (held l count)) ≤ VoidLedger.capacity (cfg l))%Z.
Proof.
  intros Hc. unfold held. rewrite length_fmap. destruct (Z.eqb_spec (VoidLedger.capacity (cfg l)) 0) as [->|Hne]; [done|].
  unfold VoidLedger.heldIndices. etrans; [apply inj_le, length_filter|]. rewrite length_seqZ. lia.
Qed.

Lemma reads_ledger l count : ledger_ok l count → ledger_typed l → (0 ≤ count ≤ long_max)%Z →
  reads (VoidLedger.readFrom (cfg l)) (VoidLedger.writeTo l count) (rebuilt l count).
Proof.
  intros [Hc _ Hs _ _] [Hi Ha Hn [Hv Hvl]] Hcount. unfold VoidLedger.readFrom, VoidLedger.writeTo.
  rewrite bind_entries. fold (held l count). pose proof (held_length l count) as Hh.
  assert (Z.of_nat (length (if (VoidLedger.capacity (cfg l) =? 0)%Z then [] else VoidLedger.heldIndices l count)) = Z.of_nat (length (held l count))) as ->
    by (unfold held; by rewrite length_fmap).
  eapply reads_bind; [apply reads_int; unfold is_int; lia|]. apply reads_void_checked; [lia| |].
  { rewrite length_app, (length_bind _ 68); [unfold VoidLedger.ENTRY_LEN; lia|]. intros e. unfold VoidLedger.writeEntry. by rewrite !length_app, !length_put_long, !length_to_be_bytes. }
  rewrite Nat2Z.id. eapply reads_bind.
  { apply reads_many. unfold held. apply Forall_fmap, Forall_forall. intros i Hin. apply reads_entry; cbn.
    - destruct (_ =? _)%Z; [by apply elem_of_nil in Hin|]. apply held_spec in Hin as [Hin _]. unfold is_long, long_min, long_max in *. lia.
    - apply (total_typed (λ x, (x < 256 ^ 32)%N)); [done|done].
    - apply (total_typed (λ x, (x < 256 ^ 20)%N)); [done|done].
    - apply total_typed; [done|done]. }
  eapply reads_bind; [by apply reads_int|]. apply reads_void_checked; [lia| |].
  { rewrite (length_bind _ 16); [unfold VoidLedger.VOTE_LEN; lia|]. intros v. by rewrite length_app, !length_put_long. }
  rewrite Nat2Z.id. eapply reads_bind_ret; [|done]. apply (reads_many VoidLedger.readVote (λ v, put_long v.1 ++ put_long v.2)). eapply Forall_impl; [exact Hv|]. intros [i m] [? ?]. unfold VoidLedger.readVote.
  eapply reads_bind; [by apply reads_long|]. eapply reads_bind_ret; [by apply reads_long|done].
Qed.

Lemma restore_votes l vs : NoDup (votes l ++ vs).*1 → (∀ i m, (i, m) ∈ vs → Z.land m (VoidLedger.voterMask (cfg l)) = m ∧ m ≠ 0%Z) →
  fold_left VoidLedger.restoreVote vs l = VoidLedger.with_votes l (votes l ++ vs).
Proof.
  revert l. induction vs as [|[i m] vs IH]; intros l Hnd Hm; cbn [fold_left]; [rewrite app_nil_r; by destruct l|].
  destruct (Hm i m) as [Hland Hne]; [left|]. unfold VoidLedger.restoreVote at 2. cbn [fst snd]. rewrite Hland, (proj2 (Z.eqb_neq _ _) Hne).
  rewrite lhm_put_fresh.
  - rewrite IH; cbn; rewrite <-?app_assoc; [done|done|]. intros i' m' Hin. apply (Hm i' m'). by right.
  - apply lhm_get_None. rewrite fmap_app in Hnd. apply NoDup_app in Hnd as (_ & Hd & _). intros Hin. apply (Hd _ Hin). cbn. left.
Qed.

Lemma new_ledger_sized c : (0 < VoidLedger.capacity c)%Z → sized_ledger (VoidLedger.new c).
Proof. intros Hc. split; [done|]. cbn. by rewrite !length_replicate. Qed.

(** What two ledgers hold of the references in the window is the same. *)
Record agree_ledger (l l' : VoidLedger.t) (count : Z) : Prop := {
  al_cfg : cfg l' = cfg l;
  al_votes : votes l' = votes l;
  al_slots : ∀ k i, (0 ≤ i)%Z → (count - VoidLedger.capacity (cfg l) ≤ i)%Z → indexAt l !! k = Some i ∨ indexAt l' !! k = Some i →
    slot_view l' k = slot_view l k;
}.

Lemma rebuilt_agrees l count : ledger_ok l count → ledger_ok (rebuilt l count) count ∧ agree_ledger l (rebuilt l count) count ∧
  ∀ k i, indexAt (rebuilt l count) !! k = Some i → i ≠ (-1)%Z → (count - VoidLedger.capacity (cfg l) ≤ i)%Z.
Proof.
  intros [Hc (L1 & L2 & L3 & L4) Hs Hnd Hm]. unfold rebuilt, held. destruct (Z.eqb_spec (VoidLedger.capacity (cfg l)) 0) as [H0|Hne].
  { cbn [fmap list_fmap fold_left]. rewrite restore_votes by done. rewrite H0 in L1. cbn in L1. rewrite L1 in *. apply nil_length_inv in L1.
    split; [split; cbn; rewrite ?H0, ?L1; done|]. split; [split; cbn; rewrite ?H0, ?L1; try done; intros k i _ _; by rewrite lookup_nil; intros []|].
    intros k i [-> _]%lookup_replicate Hi. done. }
  assert (0 < VoidLedger.capacity (cfg l))%Z as Hpos by lia. set (es := (λ i, entryAt l (slot l i) i) <$> _).
  assert (∀ e, e ∈ es ↔ ∃ i, e = entryAt l (slot l i) i ∧ i ∈ VoidLedger.heldIndices l count) as Hes by (intros e; unfold es; rewrite list_elem_of_fmap; done).
  destruct (fold_references es (VoidLedger.new (cfg l))) as ((_ & S1 & S2 & S3 & S4) & Hcfg & Hv & Hin & Hout).
  { by apply new_ledger_sized. }
  { apply Forall_forall. intros e (i & -> & (Hi & _)%held_spec)%Hes. cbn. lia. }
  { unfold es. rewrite <-list_fmap_compose. apply (held_slots l count Hpos). }
  cbv zeta in *. set (l1 := fold_left _ es _) in *. assert (∀ i, slot (VoidLedger.new (cfg l)) i = slot l i) as Hslot by done.
  rewrite restore_votes by (rewrite ?Hv, ?Hcfg; done). rewrite Hv. cbn [app VoidLedger.votes VoidLedger.new]. rewrite Hcfg in S1. cbn in S1.
  assert (∀ k i, indexAt l1 !! k = Some i → i ≠ (-1)%Z → i ∈ VoidLedger.heldIndices l count ∧ slot l i = k) as Hback.
  { intros k i Hk Hi. destruct (decide (Exists (λ e, slot l (VoidLedger.e_index e) = k) es)) as [(e & He & <-)%Exists_exists|Hno].
    - pose proof (Hin e He) as Hsv. rewrite Hslot in Hsv. apply (f_equal (λ v, v.1.1.1)) in Hsv. cbn in Hsv. rewrite Hk in Hsv.
      apply Hes in He as (j & -> & Hj). cbn in *. by injection Hsv as ->.
    - exfalso. assert (slot_view l1 k = slot_view (VoidLedger.new (cfg l)) k) as Hsv by (apply Hout; intros e He; rewrite Hslot; intros Hk'; apply Hno, Exists_exists; eauto).
      apply (f_equal (λ v, v.1.1.1)) in Hsv. cbn in Hsv. rewrite Hk in Hsv. symmetry in Hsv. by apply lookup_replicate in Hsv as [-> _]. }
  split; [|split; [|intros k i Hk Hi; destruct (Hback k i Hk Hi) as [(Hr & _)%held_spec _]; cbn in *; lia]]; split; cbn; rewrite ?Hcfg; try done.
  - intros k i Hk Hi. destruct (Hback k i Hk Hi) as [(Hr & _)%held_spec Hk']. unfold slot in *. cbn. rewrite Hcfg. split; [cbn in *; lia|done].
  - intros k i Hi Hw Hor. assert (i ∈ VoidLedger.heldIndices l count ∧ slot l i = k) as [Hh <-].
    { destruct Hor as [Hk|Hk]; [|apply Hback; [done|lia]]. destruct (Hs k i Hk) as [Hb Hk']; [lia|]. split; [|done]. apply held_spec. subst k. split; [lia|done]. }
    trans (entry_view (entryAt l (slot l i) i)); [apply (Hin (entryAt l (slot l i) i)), Hes; by exists i|].
    apply held_spec in Hh as [_ Hh]. assert (slot l i < length (indexAt l)) as Hlt by by eapply lookup_lt_Some.
    unfold entry_view, slot_view. cbn. rewrite Hh. repeat f_equal; symmetry; apply list_lookup_lookup_total_lt; lia.
Qed.

(** ** The replay windows *)

Section replay_windows.
Import SessionWindows WindowTable WindowBits.

(** A slot that a snapshot holds comes back as its image. *)
Lemma load_rel w a key top last window seen : rel w a → (used w < slots w)%Z → (∀ im, im ∈ a → im_key im ≠ key) → shows w window top seen →
  let w' := loadSlot w (key, top, last, window) in rel w' (a ++ [mkImage key top seen last]) ∧ slots w' = slots w ∧ width w' = width w.
Proof.
  intros Hrel Hu Hfresh Hsh. destruct (rl_used w a Hrel) as [Hl _]. destruct (rl_arrays w a Hrel) as (L1 & L2 & L3 & L4).
  cbv zeta. unfold loadSlot. rewrite <-Hl, !aset_nat. set (w1 := mk _ _ _ _ _ _ _ _ _ _). split; [|done].
  assert (∀ s, (0 ≤ s < used w)%Z → key_of_slot w1 s = key_of_slot w s) as Hkeys.
  { intros s Hs. unfold key_of_slot, aget. cbn [keys w1]. apply list_lookup_total_insert_ne. lia. }
  assert (table_ok (SessionWindows.insert w1 key (Z.of_nat (length a))) (λ s, 0 ≤ s < used w1)%Z) as Ht.
  { assert (table_ok w1 (λ s, 0 ≤ s < used w)%Z) as Ht1 by (eapply table_ok_keys; [| | |apply (rl_table w a Hrel)]; done).
    eapply table_ok_ext; [|apply (insert_ok w1 _ Ht1 key (Z.of_nat (length a)))]; [intros s; cbn; lia|lia|cbn; lia| |].
    - apply aget_lookup. cbn [keys w1]. apply list_lookup_insert_eq. lia.
    - intros s Hs. rewrite Hkeys by done. destruct (rel_image w a Hrel s Hs) as (i & im & -> & Him). rewrite (rel_key w a Hrel i im Him).
      apply Hfresh. by eapply list_elem_of_lookup_2. }
  apply (rel_put w a Hrel _ _ (length a) (mkImage key top seen last) window); try done.
  - rewrite length_app. cbn. lia.
  - by rewrite list_lookup_middle.
  - intros j Hj. destruct (decide (j < length a)%nat); [by rewrite lookup_app_l|]. rewrite lookup_app_r, !lookup_ge_None_2 by (cbn; lia). done.
Qed.

(** What a snapshot holds of a slot. *)
Definition slot_entry (w : SessionWindows.t) (s : Z) : Z * Z * Z * list Z :=
  (aget (SessionWindows.keys w) s, aget (SessionWindows.highest w) s, aget (SessionWindows.lastSeen w) s, aget (SessionWindows.bits w) s).

Lemma slot_entry_rel w a i im : rel w a → a !! i = Some im →
  ∃ window, slot_entry w (Z.of_nat i) = (im_key im, im_top im, im_last im, window) ∧ shows w window (im_top im) (im_seen im).
Proof.
  intros Hrel Hi. destruct (rl_slot w a Hrel i im Hi) as (H1 & H2 & H3 & window & H4 & H5). exists window. split; [|done].
  unfold slot_entry. by rewrite (aget_lookup _ _ _ H1), (aget_lookup _ _ _ H2), (aget_lookup _ _ _ H3), (aget_lookup _ _ _ H4).
Qed.

Lemma load_slots w a w0 n : rel w a → rel w0 [] → slots w0 = slots w → width w0 = width w → n ≤ length a →
  let w' := fold_left loadSlot (slot_entry w <$> seqZ 0 (Z.of_nat n)) w0 in rel w' (take n a) ∧ slots w' = slots w ∧ width w' = width w.
Proof.
  intros Hrel Hrel0 Hs Hw. induction n as [|n IH]; intros Hn; [done|]. destruct IH as (Hr & Hs' & Hw'); [lia|].
  destruct (lookup_lt_is_Some_2 a n) as [im Him]; [lia|]. destruct (slot_entry_rel w a n im Hrel Him) as (window & He & Hsh).
  rewrite Nat2Z.inj_succ, <-Z.add_1_r, seqZ_app by lia. rewrite fmap_app, fold_left_app, Z.add_0_l. cbn [seqZ fmap list_fmap fold_left seq app].
  cbv zeta in *. set (w1 := fold_left _ _ w0) in *. change (seqZ (Z.of_nat n) 1) with [(0 + Z.of_nat n)%Z]. cbn [fmap list_fmap fold_left]. rewrite Z.add_0_l, He, (take_S_r _ _ im) by done.
  pose proof (rl_used w a Hrel) as [Hl Hle]. pose proof (rl_used _ _ Hr) as [Hl1 _]. rewrite length_take in Hl1.
  rewrite <-Hs', <-Hw'. destruct im as [key top seen last]. apply load_rel; [done|lia| |by eapply shows_width].
  intros im' Hin. pose proof (rel_NoDup w a Hrel) as Hnd. rewrite <-(take_drop_middle a n _ Him), fmap_app in Hnd. apply NoDup_app in Hnd as (_ & Hd & _).
  intros Hk. apply (Hd (im_key im')); [apply list_elem_of_fmap; by exists im'|]. rewrite Hk. cbn. left.
Qed.

(** The numbers of an image are longs. *)
Definition image_typed (im : Image) : Prop := is_long (im_key im) ∧ is_long (im_top im) ∧ is_long (im_last im).

(** A snapshot of the windows reads back as windows of the same images. *)
Lemma reads_windows w a w0 : rel w a → Forall image_typed a → is_int (slots w) → is_int (width w) → new (slots w) (width w) = Ok w0 →
  ∃ w', reads (readFrom (slots w) (width w)) (writeTo w) w' ∧ rel w' a ∧ slots w' = slots w ∧ width w' = width w.
Proof.
  intros Hrel Ha Hs Hw Hnew. destruct (new_rel _ _ _ Hnew) as (Hrel0 & Hs0 & Hw0). destruct (rl_used w a Hrel) as [Hl Hle].
  pose proof (load_slots w a w0 (length a) Hrel Hrel0 Hs0 Hw0 (le_n _)) as Hload. rewrite take_ge in Hload by done. rewrite Hl in Hload.
  eexists. split; [|exact Hload]. unfold readFrom, writeTo. eapply reads_bind; [by apply reads_int|]. eapply reads_bind; [by apply reads_int|].
  rewrite !Z.eqb_refl, Hnew. cbn [negb orb]. eapply reads_bind; [apply reads_int; unfold is_int in *; lia|].
  rewrite (proj2 (Z.ltb_ge _ _)), (proj2 (Z.ltb_ge _ _)) by lia. cbn [orb]. eapply reads_bind_ret; [|done].
  assert (Z.to_nat (used w) = length (slot_entry w <$> seqZ 0 (used w))) as -> by by rewrite length_fmap, length_seqZ.
  change (writeSlot w) with (λ s, (λ e : Z * Z * Z * list Z, put_long e.1.1.1 ++ put_long e.1.1.2 ++ put_long e.1.2 ++ (e.2 ≫= put_long)) (slot_entry w s)).
  rewrite bind_entries. apply (reads_many _ (λ e : Z * Z * Z * list Z, put_long e.1.1.1 ++ put_long e.1.1.2 ++ put_long e.1.2 ++ (e.2 ≫= put_long))).
  apply Forall_fmap, Forall_forall. intros s Hin%elem_of_seqZ.
  destruct (rel_image w a Hrel s) as (i & im & -> & Him); [lia|]. destruct (slot_entry_rel w a i im Hrel Him) as (window & He & [[Hwl Hlong] _ _ _]).
  unfold compose. rewrite He.
  rewrite Forall_lookup in Ha. destruct (Ha i im Him) as (H1 & H2 & H3). cbn [fst snd]. unfold readSlot.
  eapply reads_bind; [by apply reads_long|]. eapply reads_bind; [by apply reads_long|]. eapply reads_bind; [by apply reads_long|].
  eapply reads_bind_ret; [|done]. assert (wordsPerSlot w0 = wordsPerSlot w) as -> by (unfold wordsPerSlot; by rewrite Hw0).
  rewrite <-Hwl, Nat2Z.id. apply reads_many. eapply Forall_impl; [exact Hlong|]. intros z. apply reads_long.
Qed.
End replay_windows.

(** ** The settings *)

(** What a snapshot can hold of a schedule. *)
Definition schedule_typed (h : Schedule.t) : Prop := (length h ≤ 3)%nat ∧ Forall (λ a, is_long a.1 ∧ is_long a.2) h.

Lemma reads_pairs h : Forall (λ a, is_long a.1 ∧ is_long a.2) h → reads (read_many DecisionRules.readPair (length h)) (h ≫= DecisionRules.writePair) h.
Proof.
  intros Hh. apply reads_many. eapply Forall_impl; [exact Hh|]. intros [o ms] [Ho Hms]. unfold DecisionRules.readPair, DecisionRules.writePair. cbn [fst snd] in *.
  eapply reads_bind; [by apply reads_long|]. eapply reads_bind_ret; [by apply reads_long|done].
Qed.

Lemma reads_schedule h : schedule_typed h → reads Schedule.readFrom (Schedule.writeTo h) h.
Proof.
  intros [Hl Hh]. unfold Schedule.readFrom, Schedule.writeTo. eapply reads_bind; [apply reads_byte; unfold is_byte; lia|].
  rewrite (proj2 (Z.ltb_ge _ _)), (proj2 (Z.ltb_ge _ _)) by lia. cbn [orb]. rewrite Nat2Z.id. by apply reads_pairs.
Qed.

Lemma reads_rules r : schedule_typed (DecisionRules.activations r) → is_long (DecisionRules.sealedOrigin r) →
  reads DecisionRules.readFrom (DecisionRules.writeTo r) r.
Proof.
  intros [Hl Hh] Ho. destruct r as [h o]. cbn [DecisionRules.activations DecisionRules.sealedOrigin] in *. unfold DecisionRules.readFrom, DecisionRules.writeTo. eapply reads_bind; [by apply reads_byte|].
  eapply reads_skip; [done|]. eapply reads_bind; [by apply reads_long|]. eapply reads_bind; [apply reads_byte; unfold is_byte; cbn; lia|].
  unfold DecisionRules.MAX_HELD. cbn [DecisionRules.activations]. rewrite (proj2 (Z.ltb_ge _ _)), (proj2 (Z.ltb_ge _ _)) by lia. cbn [orb]. rewrite Nat2Z.id.
  eapply reads_bind_ret; [by apply reads_pairs|done].
Qed.

(** The numbers of the version switch. *)
Record switch_typed (v : VersionSwitch.t) : Prop := {
  st_version : (VersionSwitch.OFF_VERSION ≤ VersionSwitch.version v ≤ VersionSwitch.CARRY_VERSION)%Z;
  st_sealed : is_long (VersionSwitch.sealedOrigin v);
  st_schedules : ∀ w, schedule_typed (VersionSwitch.schedule v w);
}.

(** What the layouts without a section rely on. *)
Record switch_ok (v : VersionSwitch.t) : Prop := {
  sk_window : VersionSwitch.window v = [] → VersionSwitch.carryWindow v = false;
  sk_file : VersionSwitch.fileStore v = true → VersionSwitch.window v = [];
  sk_off : VersionSwitch.v4 v = [] → VersionSwitch.carry v = [] → VersionSwitch.window v = [] ∧ VersionSwitch.version v = VersionSwitch.OFF_VERSION;
}.

Lemma reads_switch v : switch_typed v → reads VersionSwitch.readFrom (VersionSwitch.writeTo v)
  (VersionSwitch.mk (VersionSwitch.v4 v) [] [] false false (VersionSwitch.sealedOrigin v) (VersionSwitch.version v)).
Proof.
  intros [Hv Ho Hs]. unfold VersionSwitch.readFrom, VersionSwitch.writeTo, VersionSwitch.OFF_VERSION, VersionSwitch.CARRY_VERSION in *.
  eapply reads_bind; [apply reads_byte; unfold is_byte; lia|]. eapply reads_skip.
  { unfold VersionSwitch.versionOf, VersionSwitch.OFF_VERSION, VersionSwitch.CARRY_VERSION. rewrite (proj2 (Z.ltb_ge _ _)), (proj2 (Z.ltb_ge _ _)) by lia. done. }
  eapply reads_bind; [by apply reads_long|]. eapply reads_bind_ret; [apply reads_schedule, (Hs VersionSwitch.V4)|done].
Qed.

Lemma reads_carry v u : switch_typed v → reads (VersionSwitch.readCarryFrom u) (VersionSwitch.writeCarryTo v)
  (VersionSwitch.set_schedule u VersionSwitch.CARRY (VersionSwitch.carry v)).
Proof. intros Hv. eapply reads_bind_ret; [apply reads_schedule, (st_schedules v Hv VersionSwitch.CARRY)|done]. Qed.

Lemma reads_window v u : switch_typed v → reads (VersionSwitch.readWindowFrom u) (VersionSwitch.writeWindowTo v)
  (VersionSwitch.mk (VersionSwitch.v4 u) (VersionSwitch.carry u) (VersionSwitch.window v) (VersionSwitch.carryWindow v) (VersionSwitch.fileStore u)
     (VersionSwitch.sealedOrigin u) (VersionSwitch.version u)).
Proof.
  intros Hv. unfold VersionSwitch.readWindowFrom, VersionSwitch.writeWindowTo.
  eapply reads_bind; [apply reads_byte; by destruct (VersionSwitch.carryWindow v)|]. apply (reads_skip _ _ _ (VersionSwitch.carryWindow v)); [by destruct (VersionSwitch.carryWindow v)|].
  eapply reads_bind_ret; [apply reads_schedule, (st_schedules v Hv VersionSwitch.WINDOW)|done].
Qed.

(** ** The state *)

(** The layout that a member writes. *)
Definition layout (s : SealerSt) : Z := if VersionSwitch.fileStore (versions s) then FILE_SNAPSHOT_VERSION else snapshotVersion s.

(** The sections of the version switch in a layout. *)
Definition switch_bytes (s : SealerSt) (version : Z) : list N :=
  let withWindow := (version =? WINDOW_SNAPSHOT_VERSION)%Z in
  let withCarry := (version =? CARRY_SNAPSHOT_VERSION)%Z || (version =? FILE_SNAPSHOT_VERSION)%Z || withWindow in
  let withSwitch := (version =? SWITCH_SNAPSHOT_VERSION)%Z || withCarry in
  (if withSwitch then VersionSwitch.writeTo (versions s) ++ SessionWindows.writeTo (windows s) else []) ++
  (if withCarry then VersionSwitch.writeCarryTo (versions s) else []) ++
  (if withWindow then VersionSwitch.writeWindowTo (versions s) else []).

(** A switch that no activation has reached. *)
Record idle (v : VersionSwitch.t) : Prop := {
  id_schedules : ∀ w, VersionSwitch.schedule v w = [];
  id_flags : VersionSwitch.carryWindow v = false ∧ VersionSwitch.fileStore v = false;
  id_version : VersionSwitch.version v = VersionSwitch.OFF_VERSION;
}.

(** What comes back of a version switch: all of it, or the start where it is idle. *)
Definition loaded (v u : VersionSwitch.t) : Prop :=
  VersionSwitch.set_fileStore u (VersionSwitch.fileStore v) = v ∨ idle v ∧ u = VersionSwitch.start.

(** The version of the layout decides which sections there are. *)
Ltac versions_decided := repeat match goal with
  | |- context [(?a =? ?b)%Z] => let r := eval vm_compute in (a =? b)%Z in match r with true => idtac | false => idtac end; change (a =? b)%Z with r
  | |- context [(?a <=? ?b)%Z] => let r := eval vm_compute in (a <=? b)%Z in match r with true => idtac | false => idtac end; change (a <=? b)%Z with r
  end; cbn [orb andb negb app since].

Lemma nil_test (h : Schedule.t) : negb (bool_decide (h = [])) = match h with [] => false | _ => true end.
Proof. by destruct h. Qed.

Section switch_sections.
Context (s : SealerSt) (a : list Image) (fresh : SessionWindows.t).
Context (Ht : switch_typed (versions s)) (Hok : switch_ok (versions s)) (Hrel : rel (windows s) a) (Ha : Forall image_typed a).
Context (Hs : SessionWindows.slots (windows s) = SessionWindows.DEFAULT_SLOTS) (Hw : SessionWindows.width (windows s) = SessionWindows.DEFAULT_WIDTH).
Context (Hfresh : SessionWindows.new SessionWindows.DEFAULT_SLOTS SessionWindows.DEFAULT_WIDTH = Ok fresh).
Context (Hidle : VersionSwitch.v4 (versions s) = [] → VersionSwitch.carry (versions s) = [] → a = []).

Lemma reads_switches : ∃ u w, reads (readSwitch (layout s) VersionSwitch.start fresh) (switch_bytes s (layout s)) (u, w) ∧
  loaded (versions s) u ∧ rel w a ∧ SessionWindows.slots w = SessionWindows.slots (windows s) ∧ SessionWindows.width w = SessionWindows.width (windows s).
Proof.
  destruct (reads_windows (windows s) a fresh Hrel Ha) as (w & Hr & Hrest); rewrite ?Hs, ?Hw in *; try done.
  assert (∀ A (k : _ → Reader Exn A) cs b, reads (k (VersionSwitch.mk (VersionSwitch.v4 (versions s)) [] [] false false
    (VersionSwitch.sealedOrigin (versions s)) (VersionSwitch.version (versions s)), w)) cs b →
    reads (r ← (v ← VersionSwitch.readFrom; w ← SessionWindows.readFrom SessionWindows.DEFAULT_SLOTS SessionWindows.DEFAULT_WIDTH; mret (v, w)); k r)
      ((VersionSwitch.writeTo (versions s) ++ SessionWindows.writeTo (windows s)) ++ cs) b) as Hfirst.
  { intros A k cs b Hk. eapply reads_bind; [|exact Hk]. eapply reads_bind; [by apply reads_switch|]. by eapply reads_bind_ret. }
  destruct Hok as [Hcw Hf Hoff]. destruct (versions s) as [h4 hc hw cw file o v] eqn:Ev. cbn [VersionSwitch.window VersionSwitch.carryWindow VersionSwitch.fileStore VersionSwitch.v4 VersionSwitch.carry VersionSwitch.version VersionSwitch.sealedOrigin] in *.
  unfold layout, switch_bytes, snapshotVersion, VersionSwitch.holdsWindowActivation, VersionSwitch.holdsCarryActivation, VersionSwitch.holdsActivation. rewrite Ev.
  cbn [VersionSwitch.window VersionSwitch.carryWindow VersionSwitch.fileStore VersionSwitch.v4 VersionSwitch.carry].
  rewrite !nil_test. destruct file; [rewrite (Hf eq_refl) in *|destruct hw as [|x hw]; [destruct hc as [|x hc]; [destruct h4 as [|x h4]|]|]]; cbn [orb].
  - eexists _, w. split; [|split; [left|exact Hrest]]; [unfold readSwitch; versions_decided; apply Hfirst; eapply reads_bind; [by apply reads_carry|]; done|].
    cbn. by rewrite Hcw.
  - exists VersionSwitch.start, fresh. split; [done|]. destruct (Hoff eq_refl eq_refl) as [_ ->]. rewrite (Hcw eq_refl), (Hidle eq_refl eq_refl). split.
    + right. split; [|done]. split; [by intros []|done..].
    + by destruct (new_rel _ _ _ Hfresh) as (? & -> & ->).
  - eexists _, w. split; [|split; [left|exact Hrest]]; [unfold readSwitch; versions_decided; apply Hfirst; done|]. cbn. by rewrite Hcw.
  - eexists _, w. split; [|split; [left|exact Hrest]]; [unfold readSwitch; versions_decided; apply Hfirst; eapply reads_bind; [by apply reads_carry|]; done|].
    cbn. by rewrite Hcw.
  - eexists _, w. split; [|split; [left|exact Hrest]]; [unfold readSwitch; versions_decided; apply Hfirst; eapply reads_bind; [by apply reads_carry|]; eapply reads_bind_ret; [by apply reads_window|done]|].
    done.
Qed.
End switch_sections.

(** The ids go back into an empty window. *)
Lemma refill l s : window_ok s → NoDup (dedup s ++ l).*1 → Forall (λ e, (e.2 ≤ Sealer.assignedDeadline s)%Z) l →
  let s' := fold_left (λ s e, Sealer.insertFresh s e.1 e.2) l s in s' = with_dedup s (dedup s ++ l) (byDeadline s') ∧ window_ok s'.
Proof.
  revert s. induction l as [|[id d] l IH]; intros s Hok Hnd Hl; cbv zeta; cbn [fold_left fst snd]; [rewrite app_nil_r; by destruct s|].
  apply Forall_cons in Hl as [Hd Hl]. cbn in Hd. assert (lhm_get id (dedup s) = None) as Hnew.
  { apply lhm_get_None. rewrite fmap_app in Hnd. apply NoDup_app in Hnd as (_ & Hn & _). intros Hin. apply (Hn _ Hin). cbn. left. }
  assert (dedup (Sealer.insertFresh s id d) = dedup s ++ [(id, d)]) as Edd by (cbn; by rewrite Z.min_l, lhm_put_fresh).
  destruct (IH (Sealer.insertFresh s id d)) as [E Hok'].
  - apply insertFresh_ok; [|done]. by apply window_contains_false.
  - by rewrite Edd, <-app_assoc.
  - done.
  - split; [|done]. cbv zeta in E. rewrite Edd, <-app_assoc in E. rewrite E at 1. by destruct s.
Qed.

(** A state whose fields are values of their types, with what [load] checks of them. *)
Record typed_state (s : SealerSt) : Prop := {
  ty_ids : Forall (λ e, (e.1 < 256 ^ 32)%N ∧ is_long e.2) (dedup s);
  ty_room : (Z.of_nat (length (dedup s)) ≤ dedupCapacity (conf s) + MARKER_SLACK)%Z ∧ is_int (dedupCapacity (conf s) + MARKER_SLACK);
  ty_senders : Forall (λ e, (e.1 < 256 ^ 20)%N ∧ is_long e.2) (expectedNonce s);
  ty_peers : Forall (λ e, is_long e.1 ∧ is_long (anchorNumber e.2) ∧ is_long (nextSeq e.2)) (remoteOrigins s) ∧
    NoDup (remoteOrigins s).*1 ∧ is_int (Z.of_nat (length (remoteOrigins s)));
  ty_voids : ledger_ok (voids s) (canonicalCount s) ∧ ledger_typed (voids s);
  ty_window : (0 ≤ orderingWindow (conf s))%Z ∧ is_int (orderingWindow (conf s));
  ty_digest : (seedDigest s < 256 ^ 32)%N;
  ty_rules : schedule_typed (DecisionRules.activations (rules s)) ∧ is_long (DecisionRules.sealedOrigin (rules s));
  ty_boundary : is_long (lastBoundaryCount s);
  ty_versions : switch_typed (versions s);
  ty_slots : SessionWindows.slots (windows s) = SessionWindows.DEFAULT_SLOTS ∧ SessionWindows.width (windows s) = SessionWindows.DEFAULT_WIDTH;
}.

(** The settings of a member whose state this is. *)
Definition member_of (s : SealerSt) : Member :=
  mkMember (dedupCapacity (conf s)) (remoteOriginAllowlist (conf s)) (cfg (voids s)) (inclusionHorizonBlocks (conf s)) (orderingWindow (conf s))
    (mkBudgets (daLagBudgetBlocks (conf s)) (RecordedCursors.budget (recorded s))).

(** The parts of a state that a snapshot does not hold as they are. *)
Definition alter (s : SealerSt) b l c v w : SealerSt :=
  mkSt (conf s) (dedup s) b (expectedNonce s) (remoteOrigins s) l c (postedHead s) (seedStatus s) (seedDigest s) (rules s) v w
    (canonicalCount s) (blockNumber s) (l1Origin s) (lastL2Timestamp s) (lastBoundaryCount s).

Section loads.
Context (s : SealerSt) (a : list Image) (Hok : sealer_ok s) (Hr : in_range s) (Ht : typed_state s).
Context (Hsw : switch_ok (versions s)) (Hrel : rel (windows s) a) (Ha : Forall image_typed a).
Context (Hidle : VersionSwitch.v4 (versions s) = [] → VersionSwitch.carry (versions s) = [] → a = []).

Lemma layout_range : (14 ≤ layout s ≤ 18)%Z.
Proof. unfold layout, snapshotVersion. repeat case_match; done. Qed.

(** The state that [load] starts from, and the state with the ids in it. *)
Record starts (fresh : SessionWindows.t) (s0 : SealerSt) : Prop := {
  ss_new : Sealer.new (m_dedupCapacity (member_of s)) (blockNumber s) (m_remoteOrigins (member_of s)) (m_voidConfig (member_of s))
    (m_inclusionHorizonBlocks (member_of s)) (m_orderingWindow (member_of s)) (m_budgets (member_of s)) = Ok s0;
  ss_conf : conf s0 = conf s ∧ blockNumber s0 = blockNumber s;
  ss_window : dedup s0 = [] ∧ byDeadline s0 = ∅;
  ss_rest : recorded s0 = RecordedCursors.new (RecordedCursors.budget (recorded s)) ∧ versions s0 = VersionSwitch.start ∧ windows s0 = fresh;
}.

Lemma member_starts : ∃ fresh s0, SessionWindows.new SessionWindows.DEFAULT_SLOTS SessionWindows.DEFAULT_WIDTH = Ok fresh ∧ starts fresh s0.
Proof.
  destruct (SessionWindows.new SessionWindows.DEFAULT_SLOTS SessionWindows.DEFAULT_WIDTH) as [fresh|] eqn:Hfresh; [|done].
  exists fresh. pose proof (so_capacity s Hok). pose proof (ir_horizon s Hr). destruct (ty_window s Ht) as [? _].
  eexists. split; [done|]. split.
  - unfold Sealer.new. cbn [member_of m_dedupCapacity m_inclusionHorizonBlocks m_orderingWindow m_remoteOrigins m_voidConfig m_budgets].
    rewrite (proj2 (Z.leb_gt _ _)), (proj2 (Z.leb_gt _ _)), (proj2 (Z.ltb_ge _ _)), Hfresh by lia. done.
  - cbn. by destruct (conf s).
  - done.
  - done.
Qed.

Lemma window_refilled fresh s0 : starts fresh s0 → let s' := fold_left (λ s e, Sealer.insertFresh s e.1 e.2) (dedup s) s0 in
  s' = with_dedup s0 (dedup s) (byDeadline s') ∧ window_ok s'.
Proof.
  intros [_ [Hc Hn] [Hd Hb] _]. replace (with_dedup s0 (dedup s)) with (with_dedup s0 (dedup s0 ++ dedup s)) by by rewrite Hd. apply refill.
  - by apply window_ok_empty.
  - rewrite Hd. apply (so_window s Hok).
  - apply Forall_forall. intros [id d] Hin. cbn [snd]. pose proof (so_horizon s Hok id d) as Hh. rewrite lhm_get_Some in Hh by apply (so_window s Hok). specialize (Hh Hin).
    pose proof (ty_ids s Ht) as Hl. rewrite Forall_forall in Hl. destruct (Hl _ Hin) as [_ Hl']. unfold is_long in Hl'. cbn in Hl'.
    rewrite assignedDeadline_sum by (rewrite ?Hn, ?Hc; apply Hr). rewrite Hn, Hc. lia.
Qed.

Lemma reads_trio v : (14 ≤ v)%Z → reads (since (3 <=? v)%Z (o ← get_long; ts ← get_long; b ← get_long; mret (o, ts, b)) (0, 0, 0)%Z)
  (put_long (l1Origin s) ++ put_long (lastL2Timestamp s) ++ put_long (lastBoundaryCount s)) (l1Origin s, lastL2Timestamp s, lastBoundaryCount s).
Proof.
  intros Hv. pose proof (ir_origin s Hr). pose proof (ir_time s Hr). pose proof (ty_boundary s Ht).
  apply reads_since. rewrite (proj2 (Z.leb_le _ _)) by lia. eapply reads_bind; [apply reads_long; unfold is_long, long_min; lia|].
  eapply reads_bind; [apply reads_long; unfold is_long, long_min; lia|]. eapply reads_bind_ret; [by apply reads_long|done].
Qed.

Lemma reads_seed v : (14 ≤ v)%Z → reads (since (10 <=? v)%Z (b ← get_byte; st ← seedStatusOf b; d ← get_word 32; mret (st, d)) (GENESIS, 0%N))
  (put_byte (ordinal (seedStatus s)) ++ to_be_bytes 32 (seedDigest s)) (seedStatus s, seedDigest s).
Proof.
  intros Hv. apply reads_since. rewrite (proj2 (Z.leb_le _ _)) by lia. eapply reads_bind; [apply reads_byte; by destruct (seedStatus s)|].
  apply (reads_skip _ _ _ (seedStatus s)); [by destruct (seedStatus s)|]. eapply reads_bind_ret; [apply reads_word, (ty_digest s Ht)|done].
Qed.

Lemma load_snapshot : ∃ b u w,
  let s' := alter s b (rebuilt (voids s) (canonicalCount s)) (RecordedCursors.new (RecordedCursors.budget (recorded s))) u w in
  reads (load (member_of s)) (takeSnapshot s (layout s)) (s', layout s) ∧ window_ok s' ∧ loaded (versions s) u ∧
  rel w a ∧ SessionWindows.slots w = SessionWindows.slots (windows s) ∧ SessionWindows.width w = SessionWindows.width (windows s).
Proof.
  destruct member_starts as (fresh & s0 & Hfresh & Hst). destruct (window_refilled fresh s0 Hst) as [Hfill Hwok].
  destruct Hst as [Hnew [Hc Hn] _ (Hcur & Hver & Hwin)].
  pose proof Ht as [T1 [T2 T2'] T3 (T4 & T4' & T4'') [T5 T5'] [T6 T6'] _ [T8 T8'] _ T10 [T11 T11']].
  destruct (reads_switches s a fresh T10 Hsw Hrel Ha T11 T11' Hfresh Hidle) as (u & w & Hread & Hload & Hrest).
  pose proof layout_range as Hv. set (v := layout s) in *. cbv zeta in *. set (sF := fold_left _ (dedup s) s0) in *.
  exists (byDeadline sF), u, w. split; [|split; [|done]]; [|eapply window_ok_ext; [| |exact Hwok]; [by rewrite Hfill|done]].
  unfold load, takeSnapshot. eapply reads_bind; [by apply reads_int|]. rewrite Z.eqb_refl. cbn [negb].
  eapply reads_bind; [apply reads_int; unfold is_int; lia|]. rewrite (proj2 (Z.ltb_ge _ _)), (proj2 (Z.ltb_ge _ _)) by (unfold SNAPSHOT_READ_VERSION, SNAPSHOT_READ_MIN_VERSION; lia). cbn [orb].
  pose proof (ir_count s Hr). pose proof (ir_block s Hr).
  eapply reads_bind; [apply reads_long; unfold is_long, long_min; lia|]. eapply reads_bind; [apply reads_long; unfold is_long, long_min; lia|].
  eapply reads_bind; [apply reads_int; unfold is_int in *; lia|]. rewrite (proj2 (Z.leb_le 7 v)) by lia.
  apply reads_checked; [cbn [member_of m_dedupCapacity]; lia| |].
  { rewrite length_app, (length_bind _ 40); [lia|]. intros e. unfold writeId. by rewrite length_app, length_put_long, length_to_be_bytes. }
  eapply reads_skip; [intros rest; unfold lift; rewrite Hnew; done|].
  rewrite Nat2Z.id. eapply reads_bind; [by apply (reads_ids v)|]. cbv zeta. fold sF. rewrite (app_assoc (put_int (Z.of_nat (length (expectedNonce s))))).
  eapply reads_bind; [apply (reads_senders (member_of s) v Hv _ T3); [|apply (so_senders s Hok)]; destruct (so_senders s Hok) as [_ Hlen]; unfold is_int, MARKER_SLACK in *; lia|].
  rewrite (app_assoc (put_long (lastL2Timestamp s))), (app_assoc (put_long (l1Origin s))).
  eapply reads_bind; [apply (reads_trio v); lia|].
  rewrite (app_assoc (put_int (Z.of_nat (length (remoteOrigins s))))). eapply reads_bind; [by apply (reads_remotes v Hv)|].
  rewrite (proj2 (Z.eqb_neq v RETAINED_FILE_SNAPSHOT_VERSION)) by (unfold RETAINED_FILE_SNAPSHOT_VERSION; lia). rewrite (proj2 (Z.leb_le 6 v)) by lia. cbn [negb andb since].
  eapply reads_bind; [apply reads_ledger; done || lia|]. eapply reads_bind.
  { apply reads_since. rewrite (proj2 (Z.leb_le _ _)) by lia. eapply reads_bind_ret; [by apply reads_int|]. cbn [member_of m_orderingWindow]. by rewrite Z.eqb_refl. }
  pose proof (so_posted s Hok). eapply reads_bind.
  { apply reads_since. rewrite (proj2 (Z.leb_le _ _)) by lia. apply reads_long. unfold is_long, long_min. lia. }
  rewrite (app_assoc (put_byte _)). eapply reads_bind; [apply (reads_seed v); lia|].
  rewrite (proj2 (Z.eqb_neq v CURSORS_SNAPSHOT_VERSION)) by (unfold CURSORS_SNAPSHOT_VERSION; lia). cbn [since].
  eapply reads_bind; [apply reads_ret|]. eapply reads_bind.
  { unfold readRules. rewrite (proj2 (Z.eqb_neq v ONE_ACTIVATION_SNAPSHOT_VERSION)) by (unfold ONE_ACTIVATION_SNAPSHOT_VERSION; lia). apply reads_since.
    rewrite (proj2 (Z.leb_le _ _)) by (unfold SNAPSHOT_WRITE_VERSION; lia). match goal with |- reads _ (if ?c then _ else _) _ => replace c with true end; [by apply reads_rules|].
    symmetry. rewrite !orb_true_iff, !Z.eqb_eq. unfold SNAPSHOT_WRITE_VERSION, SWITCH_SNAPSHOT_VERSION, CARRY_SNAPSHOT_VERSION, FILE_SNAPSHOT_VERSION, WINDOW_SNAPSHOT_VERSION. lia. }
  assert (versions sF = VersionSwitch.start ∧ windows sF = fresh) as [-> ->] by (split; rewrite Hfill; done).
  eapply reads_bind_ret; [exact Hread|]. cbn [fst snd]. unfold alter. f_equal. f_equal.
  assert (conf sF = conf s ∧ dedup sF = dedup s ∧ recorded sF = RecordedCursors.new (RecordedCursors.budget (recorded s)) ∧ blockNumber sF = blockNumber s) as (-> & -> & -> & ->)
    by (split_and!; rewrite Hfill; done). done.
Qed.
End loads.
