(* ===== verification/SealerAgree.v ===== *)
(** * A restored member of the sealer agrees with its peers

    A relation between the state of a member that kept running and that of one that
    restored a snapshot, which every entry of the log keeps, and in which both
    answer alike. *)
From S2P Require Import Prelude Bytes Java SealerVoid SealerVersions SealerWindows SealerTable SealerBitmap SealerWindowsSpec.
From S2P Require Import SealerState SealerFacts SealerSpec SealerRefs SealerOrder SealerVotes SealerInv SealerSnapshot SealerRestore.
Import SealerSnapshot.

(** ** The void ledger *)

Lemma lhm_put_elem {K V} `{EqDecision K} k (v : V) (m : list (K * V)) e : e ∈ lhm_put k v m → e = (k, v) ∨ e ∈ m.
Proof. induction m as [|[k1 v1] m IH]; cbn; [set_solver|]. case_decide; set_solver. Qed.

Lemma lhm_put_NoDup {K V} `{EqDecision K} k (v : V) (m : list (K * V)) : NoDup m.*1 → NoDup (lhm_put k v m).*1.
Proof.
  intros Hnd. induction m as [|[k1 v1] m IH]; cbn; [repeat constructor; set_solver|]. apply NoDup_cons in Hnd as [Hk Hnd].
  case_decide as Heq; cbn; apply NoDup_cons; [by subst k1|]. split; [|by apply IH].
  intros ([k2 v2] & Ek & [Hin|Hin]%lhm_put_elem)%list_elem_of_fmap; cbn in Ek; [congruence|]. apply Hk, list_elem_of_fmap. by exists (k2, v2).
Qed.

Lemma filter_keys_NoDup {K V} (P : K * V → Prop) `{!∀ e, Decision (P e)} (m : list (K * V)) : NoDup m.*1 → NoDup (filter P m).*1.
Proof.
  intros Hnd. induction m as [|e m IH]; [done|]. apply NoDup_cons in Hnd as [Hk Hnd]. rewrite filter_cons. case_decide; [|by apply IH].
  apply NoDup_cons. split; [|by apply IH]. intros (e' & E & [_ Hin]%list_elem_of_filter)%list_elem_of_fmap. apply Hk, list_elem_of_fmap. by exists e'.
Qed.

Section ledgers.
Import VoidLedger.
Implicit Types (l : VoidLedger.t) (count index : Z).

Lemma ledger_ok_mono l count count' : (count ≤ count')%Z → ledger_ok l count → ledger_ok l count'.
Proof. intros Hc [H1 H2 H3 H4 H5]. split; [done|done| |done|done]. intros k i Hk Hi. destruct (H3 k i Hk Hi). split; [lia|done]. Qed.

Lemma agree_ledger_mono l l' count count' : (count ≤ count')%Z → agree_ledger l l' count → agree_ledger l l' count'.
Proof. intros Hc [H1 H2 H3]. split; [done|done|]. intros k i Hi Hw. apply H3; [done|lia]. Qed.

Lemma ledger_sized l count : ledger_ok l count → capacity (cfg l) ≠ 0%Z → sized_ledger l.
Proof. intros Hok Hc. destruct (lo_capacity l count Hok). split; [lia|apply (lo_lengths l count Hok)]. Qed.

Lemma ledger_ok_reference l count id a n : (0 ≤ count)%Z → ledger_ok l count → ledger_ok (onReference l count id a n) (count + 1).
Proof.
  intros H0 Hok. unfold onReference. destruct (Z.eqb_spec (capacity (cfg l)) 0) as [Hz|Hz]; [eapply ledger_ok_mono; [|done]; lia|].
  destruct Hok as [H1 H2 H3 H4 H5]. split; cbn; rewrite ?length_insert; try done.
  intros k i [(<- & <- & _)|(_ & Hk)]%list_lookup_insert_Some Hi; [split; [lia|reflexivity]|]. destruct (H3 k i Hk Hi). split; [lia|done].
Qed.

Lemma agree_reference l l' count id a n : (0 ≤ count)%Z → ledger_ok l count → ledger_ok l' count → agree_ledger l l' count →
  agree_ledger (onReference l count id a n) (onReference l' count id a n) (count + 1).
Proof.
  intros H0 Hok Hok' Hag. destruct (decide (capacity (cfg l) = 0%Z)) as [Hz|Hz].
  { unfold onReference. rewrite (al_cfg _ _ _ Hag), Hz. cbn. eapply agree_ledger_mono; [|done]. lia. }
  pose proof (ledger_sized l count Hok Hz) as Hs. assert (sized_ledger l') as Hs' by (eapply ledger_sized; [done|by rewrite (al_cfg _ _ _ Hag)]).
  destruct (reference_sized l count id a n Hs) as (_ & E1 & E2), (reference_sized l' count id a n Hs') as (_ & E1' & E2').
  assert (slot l' count = slot l count) as Hslot by (unfold slot; by rewrite (al_cfg _ _ _ Hag)).
  split; [by rewrite E1, E1', (al_cfg _ _ _ Hag)|by rewrite E2, E2', (al_votes _ _ _ Hag)|].
  intros k i Hi Hw. rewrite E1 in Hw. change (indexAt (onReference ?l count id a n) !! k) with (slot_view (onReference l count id a n) k).1.1.1.
  rewrite (reference_view l), (reference_view l'), Hslot by done. destruct (decide (k = slot l count)); [done|].
  cbn. apply (al_slots _ _ _ Hag); [done|lia].
Qed.

(** The bit of a voter is in the mask. *)
Lemma voter_bit l j : is_long (voterMask (cfg l)) → isVoter l j = true → Z.land (long_shl 1 j) (voterMask (cfg l)) = long_shl 1 j ∧ long_shl 1 j ≠ 0%Z.
Proof.
  intros Hm. unfold isVoter, MAX_VOTERS. rewrite !andb_true_iff, Z.leb_le, Z.ltb_lt, (WindowBits.test_bit _ j Hm). intros [Hj Hb]. rewrite Z.mod_small in Hb by lia.
  assert (is_long (long_shl 1 j)) as Hl by apply to_long_is_long. split.
  - apply Z.bits_inj'. intros k Hk. rewrite Z.land_spec. destruct (decide (k < 64)%Z) as [Hlt|Hge].
    + rewrite WindowBits.one_shl_bits by lia. rewrite (Z.mod_small j) by lia. case_bool_decide; [by subst k|done].
    + pose proof (proj1 (WindowBits.is_long_bits _) Hl) as B1. pose proof (proj1 (WindowBits.is_long_bits _) Hm) as B2.
      rewrite (B1 k), (B2 k), <-(B1 63%Z), <-(B2 63%Z) by lia. rewrite WindowBits.one_shl_bits, (Z.mod_small j) by lia.
      destruct (decide (63%Z = j)) as [<-|Hne]; [by rewrite Hb|by rewrite bool_decide_eq_false_2].
  - intros E. pose proof (WindowBits.one_shl_bits j j) as Hbit. rewrite E, Z.bits_0, (Z.mod_small j), bool_decide_eq_true_2 in Hbit by lia. by specialize (Hbit Hj).
Qed.

Lemma ledger_ok_drop l count oldest : ledger_ok l count → ledger_ok (dropVotesBelow l oldest) count.
Proof.
  intros [H1 H2 H3 H4 H5]. split; [done|done|done| |].
  - by apply filter_keys_NoDup.
  - intros i m [_ Hin]%list_elem_of_filter. by apply (H5 i m).
Qed.

Lemma ledger_ok_take l count index : ledger_ok l count → ledger_ok (take_ (with_votes l (lhm_remove index (votes l))) index).1 count.
Proof.
  intros [H1 H2 H3 H4 H5]. split; cbn; rewrite ?length_insert; try done.
  - intros k i [(_ & <- & _)|(_ & Hk)]%list_lookup_insert_Some Hi; [done|by apply H3].
  - by apply lhm_remove_NoDup.
  - intros i m [_ Hin]%lhm_remove_elem. by apply (H5 i m).
Qed.

Lemma ledger_ok_vote l j index h count : is_long (voterMask (cfg l)) → ledger_ok l count → ledger_ok (onVote l j index h count).1 count.
Proof.
  intros Hm Hok. unfold onVote. set (l1 := dropVotesBelow l _). assert (ledger_ok l1 count) as Hok1 by by apply ledger_ok_drop.
  change (voterMask (cfg l)) with (voterMask (cfg l1)) in Hm. clearbody l1. clear l Hok.
  destruct (isVoter l1 j) eqn:Ev; [|done]. cbn [negb orb]. destruct (holds l1 index h); [|done]. cbn [negb]. destruct (bool_decide _ && _); [done|].
  destruct (voter_bit l1 j Hm Ev) as [Hbit Hne]. set (before := default 0%Z (lhm_get index (votes l1))).
  destruct (_ =? _)%Z; [by apply ledger_ok_take|]. destruct (_ =? _)%Z; [done|].
  destruct Hok1 as [H1 H2 H3 H4 H5]. split; try done; cbn [votes cfg with_votes fst]; [by apply lhm_put_NoDup|].
  intros i m [[= -> ->]|Hin]%lhm_put_elem; [|by apply (H5 i m)]. split.
  - rewrite Z.land_lor_distr_l, Hbit. f_equal. unfold before. destruct (lhm_get index (votes l1)) as [m|] eqn:Eg; [|done]. cbn. by apply (H5 index m), lhm_get_elem.
  - intros [_ E]%Z.lor_eq_0_iff. done.
Qed.

Section in_window.
Context l l' count index (Hag : agree_ledger l l' count) (Hi : (count - capacity (cfg l) ≤ index)%Z).

Lemma agree_slot i : slot l' i = slot l i.
Proof. unfold slot. by rewrite (al_cfg _ _ _ Hag). Qed.

Lemma agree_view : (0 ≤ index)%Z → indexAt l !! slot l index = Some index ∨ indexAt l' !! slot l index = Some index →
  slot_view l' (slot l index) = slot_view l (slot l index).
Proof. intros H0. by apply (al_slots _ _ _ Hag). Qed.

Lemma agree_holds h : holds l' index h = holds l index h.
Proof.
  unfold holds. rewrite (al_cfg _ _ _ Hag), agree_slot. destruct (_ || _) eqn:E; [done|]. apply orb_false_iff in E as [_ E%Z.ltb_ge].
  pose proof (agree_view E) as Hview. unfold slot_view in Hview. destruct (decide (indexAt l !! slot l index = Some index)) as [Ha|Ha].
  { specialize (Hview (or_introl Ha)). by injection Hview as -> -> _ _. }
  destruct (decide (indexAt l' !! slot l index = Some index)) as [Hb|Hb].
  { specialize (Hview (or_intror Hb)). by injection Hview as -> -> _ _. }
  by rewrite (bool_decide_eq_false_2 _ Ha), (bool_decide_eq_false_2 _ Hb).
Qed.

Lemma agree_take h v : holds l index h = true → let t' := take_ (with_votes l' v) index in let t := take_ (with_votes l v) index in
  t'.2 = t.2 ∧ agree_ledger t.1 t'.1 count.
Proof.
  intros Hh. unfold holds in Hh. destruct (_ || _) eqn:E; [done|]. apply orb_false_iff in E as [_ E%Z.ltb_ge].
  apply andb_true_iff in Hh as [Ha%bool_decide_eq_true _]. pose proof (agree_view E (or_introl Ha)) as Hview. unfold slot_view in Hview. injection Hview as V1 V2 V3 V4.
  unfold take_. assert (slot (with_votes l' v) index = slot l index) as -> by apply agree_slot. assert (slot (with_votes l v) index = slot l index) as -> by done. cbn. split.
  - unfold entryAt. cbn. by rewrite !list_lookup_total_alt, V2, V3, V4.
  - split; cbn; [apply (al_cfg _ _ _ Hag)|done|]. intros k i H0 Hw. unfold slot_view. cbn. destruct (decide (slot l index = k)) as [<-|Hne].
    + by rewrite !list_lookup_insert_Some; intros [[(_ & <- & _)|(? & _)]|[(_ & <- & _)|(? & _)]].
    + rewrite !list_lookup_insert_ne by done. by apply (al_slots _ _ _ Hag).
Qed.
End in_window.

(** Votes for a reference in the window count alike. *)
Lemma agree_vote l l' j index h count : agree_ledger l l' count → (count - capacity (cfg l) ≤ index)%Z →
  (onVote l' j index h count).2 = (onVote l j index h count).2 ∧ agree_ledger (onVote l j index h count).1 (onVote l' j index h count).1 count.
Proof.
  intros Hag Hi. unfold onVote. rewrite (al_cfg _ _ _ Hag). set (l1 := dropVotesBelow l _). set (l1' := dropVotesBelow l' _).
  change (cfg l) with (cfg l1) in Hi. assert (agree_ledger l1 l1' count) as Hag1 by (destruct Hag as [H1 H2 H3]; split; [done| |done]; cbn; by rewrite H2).
  clearbody l1 l1'. clear l l' Hag. rewrite (agree_holds l1 l1' count index Hag1 Hi). pose proof (agree_take l1 l1' count index Hag1 Hi h) as Ht.
  assert (isVoter l1' j = isVoter l1 j) as -> by (unfold isVoter; by rewrite (al_cfg _ _ _ Hag1)). rewrite (al_votes _ _ _ Hag1), (al_cfg _ _ _ Hag1).
  destruct (isVoter l1 j); [|done]. cbn [negb orb]. destruct (holds l1 index h) eqn:Eh; [|done]. cbn [negb]. destruct (bool_decide _ && _); [done|].
  destruct (_ =? _)%Z; [|destruct (_ =? _)%Z; [done|]; split; [done|]; destruct Hag1; by split].
  destruct (Ht (lhm_remove index (votes l1)) eq_refl) as [E1 E2]. cbn in E1, E2 |- *. by rewrite E1.
Qed.
End ledgers.

(** ** The version switch *)

(** A layout without the switch loses the origin of the last boundary. Until the next
    one, a late activation of time zero holds the time of the open block on a member
    that kept running, and zero on one that restored. *)
Definition same_held (sealed ts : Z) (x y : Z * Z) : Prop :=
  x.1 = y.1 ∧ ult 0 x.1 = true ∧ x.2 = if ule x.1 sealed && (y.2 =? 0)%Z then ts else y.2.

Record lagging (v u : VersionSwitch.t) (origin ts : Z) : Prop := {
  lg_running : v = VersionSwitch.mk (VersionSwitch.v4 v) [] [] false (VersionSwitch.fileStore v) (VersionSwitch.sealedOrigin v) VersionSwitch.OFF_VERSION;
  lg_restored : u = VersionSwitch.mk (VersionSwitch.v4 u) [] [] false (VersionSwitch.fileStore v) 0 VersionSwitch.OFF_VERSION;
  lg_sealed : ule (VersionSwitch.sealedOrigin v) origin = true;
  lg_held : Forall2 (same_held (VersionSwitch.sealedOrigin v) ts) (VersionSwitch.v4 v) (VersionSwitch.v4 u);
  lg_sorted : ∀ i j x y, i < j → VersionSwitch.v4 v !! i = Some x → VersionSwitch.v4 v !! j = Some y → ult x.1 y.1 = true;
}.

Lemma ult_lt a b : ult a b = true ↔ (unsigned a < unsigned b)%Z.
Proof. apply Z.ltb_lt. Qed.

Lemma ule_le a b : ule a b = true ↔ (unsigned a ≤ unsigned b)%Z.
Proof. apply Z.leb_le. Qed.

Lemma visible_same sealed ts h g o : Forall2 (same_held sealed ts) h g → Schedule.visibleAt g o = Schedule.visibleAt h o.
Proof. induction 1 as [|[x1 x2] [y1 y2] h g (E & _) _ IH]; [done|]. cbn in *. subst y1. by rewrite IH. Qed.

Lemma visible_next h o x : h !! Schedule.visibleAt h o = Some x → ule x.1 o = false.
Proof. induction h as [|[y1 y2] h IH]; [done|]. cbn. destruct (ule y1 o) eqn:E; [done|]. intros [= <-]. done. Qed.

Lemma ult_negb a b : ult a b = negb (ule b a).
Proof. apply Z.ltb_antisym. Qed.

(** An activation resolves alike on both. *)
Lemma resolved_same sealed ts x y : same_held sealed ts x y → Schedule.resolvedTime 0 y ts = Schedule.resolvedTime sealed x ts.
Proof.
  destruct x as [o t], y as [o' t']. intros (E1 & E2 & E3). cbn in *. subst o' t. unfold Schedule.resolvedTime. cbn. rewrite E2, (ult_negb sealed).
  by destruct (ule o sealed), (t' =? 0)%Z eqn:E; cbn; rewrite ?E.
Qed.

Section boundary.
Context (sealed ts o : Z) (h g : list (Z * Z)) (Hhg : Forall2 (same_held sealed ts) h g) (Hsealed : ule sealed o = true).
Context (Hsorted : ∀ i j x y, i < j → h !! i = Some x → h !! j = Some y → ult x.1 y.1 = true).

Lemma on_same l2 current : Schedule.onAt 0 g o ts l2 current = Schedule.onAt sealed h o ts l2 current.
Proof.
  unfold Schedule.onAt, Schedule.t. rewrite (visible_same sealed ts h g) by done. destruct (Schedule.visibleAt h o) as [|v]; [done|].
  destruct (h !! v) as [x|] eqn:Hx.
  - destruct (Forall2_lookup_l _ _ _ _ _ Hhg Hx) as (y & -> & Hxy). by rewrite (resolved_same sealed ts x y).
  - apply lookup_ge_None in Hx. by rewrite lookup_ge_None_2 by (rewrite <-(Forall2_length _ _ _ Hhg); lia).
Qed.

(** What is not visible yet has the same time on both. *)
Lemma later_same k x y : (Schedule.visibleAt h o ≤ k)%nat → h !! k = Some x → g !! k = Some y → x = y.
Proof.
  intros Hk Hx Hy. assert (ule x.1 o = false) as Hlate.
  { destruct (decide (k = Schedule.visibleAt h o)) as [->|Hne]; [by eapply visible_next|].
    destruct (lookup_lt_is_Some_2 h (Schedule.visibleAt h o)) as [z Hz]; [apply lookup_lt_Some in Hx; lia|].
    pose proof (visible_next h o z Hz) as Hv. pose proof (Hsorted (Schedule.visibleAt h o) k z x ltac:(lia) Hz Hx) as Hs%ult_lt.
    apply Z.leb_gt in Hv. apply Z.leb_gt. lia. }
  destruct (Forall2_lookup_lr _ h g k x y Hhg Hx Hy) as (E1 & _ & E3). destruct x as [o1 t1], y as [o2 t2]. cbn in *. subst o2. f_equal.
  replace (ule o1 sealed) with false in E3; [done|]. symmetry. apply Z.leb_gt. apply Z.leb_gt in Hlate. apply ule_le in Hsealed. lia.
Qed.

Lemma settle_same : Schedule.settle 0 g o ts = Schedule.settle sealed h o ts.
Proof.
  unfold Schedule.settle. rewrite (visible_same sealed ts h g) by done. pose proof (Forall2_length _ _ _ Hhg) as Hlen.
  destruct (Schedule.visibleAt h o) as [|v] eqn:Ev.
  - symmetry. apply list_eq_same_length with (n := length g); [done|congruence|]. intros k x y _ Hx Hy. eapply later_same; [rewrite Ev; lia|done..].
  - destruct (drop v h) as [|x hr] eqn:Eh, (drop v g) as [|y gr] eqn:Eg; apply (f_equal length) in Eh as Lh; apply (f_equal length) in Eg as Lg; rewrite length_drop in Lh, Lg; cbn in Lh, Lg; try lia; [done|].
    assert (h !! v = Some x ∧ g !! v = Some y) as [Hx Hy].
    { rewrite <-(Nat.add_0_r v), <-!lookup_drop, Eh, Eg. done. }
    pose proof (Forall2_lookup_lr _ h g v x y Hhg Hx Hy) as Hxy. rewrite (resolved_same sealed ts x y Hxy), (proj1 Hxy). f_equal.
    symmetry. apply list_eq_same_length with (n := length gr); [done|lia|]. intros k x' y' _ Hx' Hy'. apply (later_same (v + S k)); [lia| |].
    + by rewrite <-lookup_drop, Eh.
    + by rewrite <-lookup_drop, Eg.
Qed.
End boundary.

(** The next boundary makes up for the origin that the snapshot lost. *)
Lemma boundary_catches_up v u origin ts l2 : lagging v u origin ts → VersionSwitch.atBoundary u origin ts l2 = VersionSwitch.atBoundary v origin ts l2.
Proof.
  intros [Ev Eu Hs Hh Hsort]. rewrite Ev, Eu. unfold VersionSwitch.atBoundary, VersionSwitch.versionAtBoundary.
  cbn [VersionSwitch.v4 VersionSwitch.carry VersionSwitch.window VersionSwitch.carryWindow VersionSwitch.fileStore VersionSwitch.sealedOrigin VersionSwitch.version].
  by rewrite (on_same _ _ _ _ _ Hh), (settle_same _ _ _ _ _ Hh Hs Hsort).
Qed.

Lemma newest_same sealed ts (h g : list (Z * Z)) : Forall2 (same_held sealed ts) h g → Schedule.newest g = Schedule.newest h.
Proof.
  intros Hhg. unfold Schedule.newest, Schedule.t. rewrite !last_lookup, <-(Forall2_length _ _ _ Hhg). destruct (h !! pred (length h)) as [x|] eqn:Hx.
  - by destruct (Forall2_lookup_l _ _ _ _ _ Hhg Hx) as (y & -> & <- & _).
  - apply lookup_ge_None in Hx. by rewrite lookup_ge_None_2 by (rewrite <-(Forall2_length _ _ _ Hhg); lia).
Qed.

(** The newest origin is the greatest. *)
Lemma newest_max (h : list (Z * Z)) i x : (∀ i j x y, i < j → h !! i = Some x → h !! j = Some y → ult x.1 y.1 = true) → h !! i = Some x →
  ule x.1 (Schedule.newest h) = true.
Proof.
  intros Hs Hx. unfold Schedule.newest, Schedule.t. rewrite last_lookup. pose proof (lookup_lt_Some _ _ _ Hx) as Hi.
  destruct (lookup_lt_is_Some_2 h (pred (length h))) as [z Hz]; [lia|]. rewrite Hz. apply ule_le. destruct (decide (i = pred (length h))) as [->|Hne]; [by simplify_eq|].
  pose proof (Hs i (pred (length h)) x z ltac:(lia) Hx Hz) as Hlt%ult_lt. lia.
Qed.

Lemma lagging_snoc v u origin ts o t : lagging v u origin ts → ule o (Schedule.newest (VersionSwitch.v4 v)) = false →
  lagging (VersionSwitch.set_schedule v VersionSwitch.V4 (VersionSwitch.v4 v ++ [(o, if ule o (VersionSwitch.sealedOrigin v) && (t =? 0)%Z then ts else t)]))
    (VersionSwitch.set_schedule u VersionSwitch.V4 (VersionSwitch.v4 u ++ [(o, t)])) origin ts.
Proof.
  intros [Ev Eu Hs Hh Hsort] Hn. split; cbn [VersionSwitch.set_schedule VersionSwitch.v4 VersionSwitch.fileStore VersionSwitch.sealedOrigin VersionSwitch.carry VersionSwitch.window VersionSwitch.version VersionSwitch.carryWindow].
  - rewrite Ev at 1. rewrite Ev. done.
  - rewrite Eu. by rewrite Eu at 1.
  - done.
  - apply Forall2_app; [done|]. constructor; [|constructor]. split_and!; [done| |done]. apply ult_lt. apply Z.leb_gt in Hn. pose proof (unsigned_bound (Schedule.newest (VersionSwitch.v4 v))). cbn. 
    change (unsigned 0) with 0%Z. lia.
  - unfold Schedule.t in *. intros i j x y Hij Hx [Hy|[Hj Hy]]%lookup_app_Some; [rewrite lookup_app_l in Hx by (apply lookup_lt_Some in Hy; lia); eauto|].
    apply list_lookup_singleton_Some in Hy as [Hj0 <-]. rewrite lookup_app_l in Hx by lia. apply (newest_max _ _ _ Hsort), ule_le in Hx. apply ult_lt. apply Z.leb_gt in Hn. cbn. lia.
Qed.

Lemma activation_lags v u origin ts act : lagging v u origin ts →
  lagging (VersionSwitch.onActivation v act origin ts).1 (VersionSwitch.onActivation u act origin ts).1 origin ts ∧
  ((VersionSwitch.onActivation u act origin ts).2 = (VersionSwitch.onActivation v act origin ts).2 ∨
   (VersionSwitch.onActivation v act origin ts).2 = VersionSwitch.STORED_LATE ∧ (VersionSwitch.onActivation u act origin ts).2 = VersionSwitch.STORED).
Proof.
  intros Hlag. pose proof Hlag as [Ev Eu Hs Hh Hsort]. pose proof (lagging_snoc v u origin ts (VersionSwitch.fa_l1Origin act) (VersionSwitch.activationMs act) Hlag) as Hsnoc.
  assert (VersionSwitch.version v = VersionSwitch.OFF_VERSION ∧ VersionSwitch.version u = VersionSwitch.OFF_VERSION) as [Vv Vu] by by rewrite Ev, Eu.
  assert (VersionSwitch.fileStore u = VersionSwitch.fileStore v ∧ VersionSwitch.sealedOrigin u = 0%Z) as [Fu Su] by (rewrite Eu; by rewrite Ev).
  assert (∀ w, Schedule.newest (VersionSwitch.schedule u w) = Schedule.newest (VersionSwitch.schedule v w)) as Hn.
  { intros []; [by apply (newest_same _ _ _ _ Hh)|by rewrite Ev, Eu..]. }
  assert (∀ w, length (VersionSwitch.schedule u w) = length (VersionSwitch.schedule v w)) as Hl.
  { intros []; [symmetry; by apply (Forall2_length _ _ _ Hh)|by rewrite Ev, Eu..]. }
  unfold VersionSwitch.onActivation. destruct (VersionSwitch.scheduleOf _) as [w|]; [|by split; [|left]]. rewrite Hn, Hl, Vv, Vu, Fu, Su.
  destruct (ule _ (Schedule.newest (VersionSwitch.schedule v w))) eqn:En; [by split; [|left]|]. destruct (negb _ && _); [by split; [|left]|]. destruct (negb _ && _ && _); [by split; [|left]|].
  destruct w; [|split; [exact Hlag|by left]|by destruct (VersionSwitch.fileStore v); (split; [exact Hlag|left])].
  destruct (_ =? _)%nat; [by split; [|left]|]. specialize (Hsnoc En).
  assert (ule (VersionSwitch.fa_l1Origin act) 0 = false) as ->.
  { apply Z.leb_gt in En. apply Z.leb_gt. change (unsigned 0) with 0%Z. pose proof (unsigned_bound (Schedule.newest (VersionSwitch.schedule v VersionSwitch.V4))). lia. }
  cbn [andb fst snd]. split; [exact Hsnoc|]. destruct (ule _ (VersionSwitch.sealedOrigin v)); [by right|by left].
Qed.

(** ** The states *)

(** Two replay windows of the same images. *)
Definition same_windows (w w' : SessionWindows.t) : Prop :=
  ∃ a, rel w a ∧ rel w' a ∧ SessionWindows.slots w' = SessionWindows.slots w ∧ SessionWindows.width w' = SessionWindows.width w.

Definition agree_switch (v u : VersionSwitch.t) (origin ts : Z) : Prop := u = v ∨ lagging v u origin ts.

Record agree_parts (s : SealerSt) b l c u w : Prop := {
  ap_running : window_ok s ∧ ledger_ok (voids s) (canonicalCount s) ∧ is_long (VoidLedger.voterMask (VoidLedger.cfg (voids s)));
  ap_window : window_ok (alter s b l c u w);
  ap_voids : ledger_ok l (canonicalCount s) ∧ agree_ledger (voids s) l (canonicalCount s);
  ap_budget : RecordedCursors.budget (recorded s) = 0%Z ∧ RecordedCursors.budget c = 0%Z;
  ap_versions : agree_switch (versions s) u (l1Origin s) (lastL2Timestamp s);
  ap_windows : same_windows (windows s) w;
}.

(** A member that kept running, and one that restored. *)
Inductive agree (s : SealerSt) : SealerSt → Prop :=
| agree_intro b l c u w : agree_parts s b l c u w → agree s (alter s b l c u w).

(** A change of the parts that both have. *)
Ltac framed s1 := intros [b l c u w [(W1 & W2 & W3) W4 W5 W6 W7 W8]]; apply (agree_intro s1 b l c u w);
  split; [split; [eapply window_ok_ext; [| |exact W1]; done|done]|eapply window_ok_ext; [| |exact W4]; done|done..].

Section simulation.
Implicit Types (s : SealerSt) (id : B256).

Lemma agree_nonces s s' e : agree s s' → agree (with_nonces s e) (with_nonces s' e).
Proof. framed (with_nonces s e). Qed.

Lemma agree_remote s s' r : agree s s' → agree (with_remote s r) (with_remote s' r).
Proof. framed (with_remote s r). Qed.

Lemma agree_posted s s' p : agree s s' → agree (with_posted s p) (with_posted s' p).
Proof. framed (with_posted s p). Qed.

Lemma agree_seed s s' st d : agree s s' → agree (with_seed s st d) (with_seed s' st d).
Proof. framed (with_seed s st d). Qed.

Lemma agree_count s s' n : (canonicalCount s ≤ n)%Z → agree s s' → agree (with_count s n) (with_count s' n).
Proof.
  intros Hn [b l c u w [(W1 & W2 & W3) W4 [W5 W5'] W6 W7 W8]]. apply (agree_intro (with_count s n) b l c u w). split; try done.
  - split; [by eapply window_ok_ext; [| |exact W1]|]. split; [|done]. by eapply ledger_ok_mono.
  - by eapply window_ok_ext; [| |exact W4].
  - split; [by eapply ledger_ok_mono|by eapply agree_ledger_mono].
Qed.

Lemma agree_origin s s' o : (0 ≤ l1Origin s ≤ o)%Z → (o ≤ long_max)%Z → agree s s' → agree (with_origin s o) (with_origin s' o).
Proof.
  intros Ho Hm [b l c u w [(W1 & W2 & W3) W4 W5 W6 W7 W8]]. apply (agree_intro (with_origin s o) b l c u w). split; try done.
  - split; [by eapply window_ok_ext; [| |exact W1]|done].
  - by eapply window_ok_ext; [| |exact W4].
  - destruct W7 as [?|[V1 V2 V3 V4 V5]]; [by left|]. right. split; try done. cbn. apply ule_le. apply ule_le in V3. rewrite (unsigned_nonneg (l1Origin s)) in V3 by lia. rewrite (unsigned_nonneg o) by lia. lia.
Qed.

(** A record that takes the next index. *)
Lemma agree_ordered s s' id a n : (0 ≤ canonicalCount s)%Z → agree s s' →
  agree (with_count (with_voids s (VoidLedger.onReference (voids s) (canonicalCount s) id a n)) (canonicalCount s + 1))
    (with_count (with_voids s' (VoidLedger.onReference (voids s') (canonicalCount s') id a n)) (canonicalCount s' + 1)).
Proof.
  intros H0 [b l c u w [(W1 & W2 & W3) W4 [W5 W5'] W6 W7 W8]]. apply (agree_intro (with_count (with_voids s _) _) b (VoidLedger.onReference l (canonicalCount s) id a n) c u w). split; try done.
  - split; [by eapply window_ok_ext; [| |exact W1]|]. split; [by apply ledger_ok_reference|]. cbn. by rewrite onReference_cfg.
  - by eapply window_ok_ext; [| |exact W4].
  - split; [by apply ledger_ok_reference|by apply agree_reference].
Qed.

Lemma agree_insert s s' id d : Sealer.contains s id = false → agree s s' → agree (Sealer.insertFresh s id d) (Sealer.insertFresh s' id d).
Proof.
  intros Hc [b l c u w [(W1 & W2 & W3) W4 W5 W6 W7 W8]]. pose proof (insertFresh_ok s id d Hc W1) as Hok. pose proof (insertFresh_ok (alter s b l c u w) id d Hc W4) as Hok'.
  apply (agree_intro (Sealer.insertFresh s id d) (byDeadline (Sealer.insertFresh (alter s b l c u w) id d)) l c u w).
  split; [done|by eapply window_ok_ext; [| |exact Hok']|done..].
Qed.

Lemma agree_forget s s' id : agree s s' → agree (Sealer.forget s id) (Sealer.forget s' id).
Proof.
  intros Hag. pose proof Hag as [b l c u w [(W1 & W2 & W3) W4 W5 W6 W7 W8]]. pose proof (forget_ok s id W1) as Hok. pose proof (forget_ok (alter s b l c u w) id W4) as Hok'.
  unfold Sealer.forget in *. cbn [alter dedup] in *. destruct (lhm_get id (dedup s)) as [d|]; [|done].
  eapply (agree_intro (with_dedup s _ _) _ l c u w). split; [done|by eapply window_ok_ext; [| |exact Hok']|done..].
Qed.

(** *** Boundaries *)

Lemma fold_remove_filter ids (m : list (B256 * Z)) : fold_left (λ m x, lhm_remove x m) ids m = filter (λ e, e.1 ∉ ids) m.
Proof.
  revert m. induction ids as [|x ids IH]; intros m; cbn [fold_left].
  - symmetry. induction m as [|e m IH]; [done|]. rewrite filter_cons, decide_True by set_solver. by rewrite IH.
  - rewrite IH. unfold lhm_remove. rewrite list_filter_filter. apply list_filter_iff. intros e. set_solver.
Qed.

Lemma filter_in {A} (P Q : A → Prop) `{!∀ x, Decision (P x), !∀ x, Decision (Q x)} (m : list A) : (∀ x, x ∈ m → P x ↔ Q x) → filter P m = filter Q m.
Proof.
  intros Hpq. induction m as [|x m IH]; [done|]. rewrite !filter_cons, IH by set_solver.
  destruct (decide (P x)) as [Hp|Hp], (decide (Q x)) as [Hq|Hq]; try done; exfalso; apply (Hpq x) in Hp || apply (Hpq x) in Hq; [done|left|done|left].
Qed.

(** The window after a prune does not depend on the groups. *)
Lemma prune_filter s : window_ok s → dedup (Sealer.pruneExpired s) = filter (λ e, ¬ (e.2 < blockNumber s)%Z) (dedup s).
Proof.
  intros Hok. unfold Sealer.pruneExpired. cbn [dedup with_dedup]. rewrite fold_remove_filter. apply filter_in. intros [id d] Hin. cbn [fst snd].
  rewrite (expired_ids s id Hok). apply (lhm_get_Some id d) in Hin; [|apply Hok]. rewrite Hin. naive_solver.
Qed.

Lemma tick_dedup s clock : window_ok s → dedup (Sealer.onTick s clock).1 = filter (λ e, ¬ (e.2 < long_add (blockNumber s) 1)%Z) (dedup s).
Proof. intros Hok. unfold Sealer.onTick. cbn [fst dedup]. rewrite prune_filter; [done|]. by apply (window_ok_ext s). Qed.

Lemma tick_alter s b l c u w clock : window_ok s → window_ok (alter s b l c u w) → agree_switch (versions s) u (l1Origin s) (lastL2Timestamp s) →
  (Sealer.onTick (alter s b l c u w) clock).1 =
  alter (Sealer.onTick s clock).1 (byDeadline (Sealer.onTick (alter s b l c u w) clock).1) l c (versions (Sealer.onTick s clock).1) w.
Proof.
  intros Hok Hok' Hv. pose proof (tick_dedup s clock Hok) as Ed. pose proof (tick_dedup _ clock Hok') as Ed'.
  change (dedup (alter s b l c u w)) with (dedup s) in Ed'. change (blockNumber (alter s b l c u w)) with (blockNumber s) in Ed'. rewrite <-Ed in Ed'.
  assert (versions (Sealer.onTick (alter s b l c u w) clock).1 = versions (Sealer.onTick s clock).1) as Ev.
  { unfold Sealer.onTick. cbn. destruct Hv as [->|Hv]; [done|]. by rewrite (boundary_catches_up _ _ _ _ _ Hv). }
  unfold alter at 2. rewrite <-Ed', <-Ev. done.
Qed.

Lemma agree_tick s s' clock : agree s s' → agree (Sealer.onTick s clock).1 (Sealer.onTick s' clock).1 ∧ (Sealer.onTick s' clock).2 = (Sealer.onTick s clock).2.
Proof.
  intros [b l c u w [(W1 & W2 & W3) W4 W5 W6 W7 W8]]. split; [|done]. pose proof (onTick_ok _ clock W4) as Hok'. rewrite tick_alter in Hok' |- * by done.
  constructor. split; [split; [by apply onTick_ok|done]|done|done|done|by left|done].
Qed.

Lemma agree_force s s' clock : agree s s' → agree (Sealer.forceBoundary s clock).1 (Sealer.forceBoundary s' clock).1 ∧
  (Sealer.forceBoundary s' clock).2 = (Sealer.forceBoundary s clock).2.
Proof.
  intros Hag. destruct (agree_tick s s' clock Hag) as [H1 H2]. unfold Sealer.forceBoundary.
  assert (lastBoundaryCount s' = lastBoundaryCount s ∧ canonicalCount s' = canonicalCount s) as [-> ->] by by destruct Hag.
  destruct (_ <? _)%Z; [|done]. rewrite (surjective_pairing (Sealer.onTick s clock)), (surjective_pairing (Sealer.onTick s' clock)). by rewrite H2.
Qed.

(** *** References *)

Lemma same_offer w w' lane session position now keep : same_windows w w' →
  (windows_offer w' lane session position now keep).2 = (windows_offer w lane session position now keep).2 ∧
  same_windows (windows_offer w lane session position now keep).1 (windows_offer w' lane session position now keep).1.
Proof.
  intros (a & H1 & H2 & Es & Ew). pose proof (windows_offer_rel w a lane session position now keep H1) as O1.
  pose proof (windows_offer_rel w' a lane session position now keep H2) as O2. rewrite Es, Ew in O2.
  destruct (spec_offer _ _ _ _ _ _ _) as [a' seen]. destruct (windows_offer w _ _ _ _ _) as [w1 s1], (windows_offer w' _ _ _ _ _) as [w2 s2].
  destruct O1 as (R1 & E1 & Es1 & Ew1), O2 as (R2 & E2 & Es2 & Ew2). cbn. split; [congruence|]. exists a'. split_and!; [done|done|congruence|congruence].
Qed.

Lemma lag_off s : RecordedCursors.budget (recorded s) = 0%Z → Sealer.recordLagHalted s = false.
Proof. intros Hb. unfold Sealer.recordLagHalted, RecordedCursors.halted. rewrite Hb. cbn. apply andb_false_r. Qed.

(** [onCarriedRef] in terms of the replay windows, with the record-lag guard off. *)
Lemma carried_form s lane session position : RecordedCursors.budget (recorded s) = 0%Z →
  let '(w, seen) := windows_offer (windows s) lane session position (canonicalCount s) (negb (Sealer.daLagHalted s)) in
  Sealer.onCarriedRef s lane session position =
  match seen with
  | SessionWindows.DUPLICATE => (with_windows s w, Sealer.REF_DUPLICATE)
  | SessionWindows.EXPIRED => (with_windows s w, Sealer.REF_EXPIRED)
  | SessionWindows.FRESH =>
    if Sealer.daLagHalted s then (with_windows s w, Sealer.REF_DA_LAG)
    else (with_count (with_windows s w) (long_add (canonicalCount s) 1), Sealer.RefOrdered (canonicalCount s))
  end.
Proof.
  intros Hb. unfold windows_offer, Sealer.onCarriedRef. destruct (SessionWindows.check _ _ _ _ _) as [w []]; [|done..].
  rewrite (lag_off (with_windows s w)) by done. change (Sealer.daLagHalted (with_windows s w)) with (Sealer.daLagHalted s). by destruct (Sealer.daLagHalted s).
Qed.

Lemma agree_windows s b l c u w w1 w1' : agree_parts s b l c u w → same_windows w1 w1' → agree_parts (with_windows s w1) b l c u w1'.
Proof.
  intros [(W1 & W2 & W3) W4 W5 W6 W7 W8] Hw. split; [split; [by eapply window_ok_ext; [| |exact W1]|done]|by eapply window_ok_ext; [| |exact W4]|done..].
Qed.

Lemma carried_cases s s' lane session position : agree s s' → ∃ w1 w2 o, agree (with_windows s w1) (with_windows s' w2) ∧
  if (match o with Sealer.RefOrdered _ => true | _ => false end)
  then o = Sealer.RefOrdered (canonicalCount s) ∧
    Sealer.onCarriedRef s lane session position = (with_count (with_windows s w1) (long_add (canonicalCount s) 1), o) ∧
    Sealer.onCarriedRef s' lane session position = (with_count (with_windows s' w2) (long_add (canonicalCount s) 1), o)
  else Sealer.onCarriedRef s lane session position = (with_windows s w1, o) ∧ Sealer.onCarriedRef s' lane session position = (with_windows s' w2, o).
Proof.
  intros [b l c u w Hp]. destruct (ap_budget _ _ _ _ _ _ Hp) as [B1 B2]. pose proof (carried_form s lane session position B1) as F1.
  pose proof (carried_form (alter s b l c u w) lane session position B2) as F2. cbn [alter windows canonicalCount] in F2.
  change (Sealer.daLagHalted (alter s b l c u w)) with (Sealer.daLagHalted s) in F2.
  destruct (same_offer (windows s) w lane session position (canonicalCount s) (negb (Sealer.daLagHalted s)) (ap_windows _ _ _ _ _ _ Hp)) as [E Hw].
  destruct (windows_offer (windows s) _ _ _ _ _) as [w1 seen], (windows_offer w _ _ _ _ _) as [w2 seen2]. cbn in E, Hw. subst seen2.
  pose proof (agree_intro _ _ _ _ _ _ (agree_windows s b l c u w w1 w2 Hp Hw)) as Hag.
  exists w1, w2, (Sealer.onCarriedRef s lane session position).2. split; [exact Hag|]. rewrite F1, F2. by destruct seen; [destruct (Sealer.daLagHalted s)|..].
Qed.

Lemma agree_carried s s' lane session position : agree s s' → (0 ≤ canonicalCount s ≤ long_max)%Z → (0 ≤ canonicalCount (Sealer.onCarriedRef s lane session position).1)%Z →
  agree (Sealer.onCarriedRef s lane session position).1 (Sealer.onCarriedRef s' lane session position).1 ∧
  (Sealer.onCarriedRef s' lane session position).2 = (Sealer.onCarriedRef s lane session position).2.
Proof.
  intros Hag Hc. destruct (carried_cases s s' lane session position Hag) as (w1 & w2 & o & Hw & Hcase). destruct o; [|by destruct Hcase as [-> ->]..].
  destruct Hcase as (_ & -> & ->). intros H0. split; [|done]. apply agree_count; [|exact Hw]. cbn in *. rewrite long_add_nonneg in * by (unfold long_max in *; lia). lia.
Qed.

Lemma agree_ref s s' lane session position id : agree s s' → (0 ≤ canonicalCount s ≤ long_max)%Z → (0 ≤ canonicalCount (Sealer.onRef s lane session position id).1)%Z →
  agree (Sealer.onRef s lane session position id).1 (Sealer.onRef s' lane session position id).1 ∧ (Sealer.onRef s' lane session position id).2 = (Sealer.onRef s lane session position id).2.
Proof.
  intros Hag Hc. unfold Sealer.onRef. destruct (carried_cases s s' lane session position Hag) as (w1 & w2 & o & Hw & Hcase). destruct o; [|by destruct Hcase as [-> ->]..].
  destruct Hcase as ([= ->] & -> & ->). intros H0. split; [|done]. pose proof (agree_ordered _ _ id 0 0 (proj1 Hc : (0 ≤ canonicalCount (with_windows s w1))%Z) Hw) as Ho.
  cbn [fst] in *. rewrite long_add_nonneg in * by (cbn in H0; unfold long_max in *; lia).
  assert (canonicalCount (with_windows s' w2) = canonicalCount s) as E by by destruct Hag. rewrite E in Ho. exact Ho.
Qed.

(** *** Every entry of the log *)

Lemma agree_contains s s' id : agree s s' → Sealer.contains s' id = Sealer.contains s id.
Proof. by intros []. Qed.

(** The relay of a record, with or without a reference in the ledger. *)
Lemma agree_relay s s' id d : agree s s' → Sealer.contains s id = false → (0 ≤ canonicalCount s ≤ long_max)%Z → (0 ≤ long_add (canonicalCount s) 1)%Z →
  agree (with_count (Sealer.insertFresh s id d) (long_add (canonicalCount s) 1)) (with_count (Sealer.insertFresh s' id d) (long_add (canonicalCount s') 1)).
Proof.
  intros Hag Hc H0 H1. assert (canonicalCount s' = canonicalCount s) as -> by by destruct Hag. apply agree_count; [|by apply agree_insert].
  cbn. rewrite long_add_nonneg in * by (unfold long_max in *; lia). lia.
Qed.

Lemma agree_user s s' id d a n : agree s s' → Sealer.contains s id = false → (0 ≤ canonicalCount s ≤ long_max)%Z → (0 ≤ long_add (canonicalCount s) 1)%Z →
  agree (with_count (Sealer.insertFresh (with_voids s (VoidLedger.onReference (voids s) (canonicalCount s) id a n)) id d) (long_add (canonicalCount s) 1))
    (with_count (Sealer.insertFresh (with_voids s' (VoidLedger.onReference (voids s') (canonicalCount s') id a n)) id d) (long_add (canonicalCount s') 1)).
Proof.
  intros Hag Hc H0 H1. assert (canonicalCount s' = canonicalCount s) as -> by by destruct Hag. rewrite long_add_nonneg by (unfold long_max in *; lia).
  assert (canonicalCount (Sealer.insertFresh s' id d) = canonicalCount s) as E by by destruct Hag.
  pose proof (agree_ordered _ _ id a n (proj1 H0 : (0 ≤ canonicalCount (Sealer.insertFresh s id d))%Z) (agree_insert s s' id d Hc Hag)) as Ho.
  rewrite E in Ho. exact Ho.
Qed.

Lemma agree_record s s' id a n d p : agree s s' → (0 ≤ canonicalCount s ≤ long_max)%Z → (0 ≤ canonicalCount (Sealer.onRecord s id a n d p).1)%Z →
  agree (Sealer.onRecord s id a n d p).1 (Sealer.onRecord s' id a n d p).1 ∧ (Sealer.onRecord s' id a n d p).2 = (Sealer.onRecord s id a n d p).2.
Proof.
  intros [b l c u w Hp] Hc. pose proof (agree_intro s b l c u w Hp) as Hag. destruct (ap_budget _ _ _ _ _ _ Hp) as [B1 B2]. unfold Sealer.onRecord.
  rewrite (lag_off s B1), (lag_off (alter s b l c u w) B2), !andb_false_r. rewrite (agree_contains s _ id Hag).
  destruct (Sealer.contains s id) eqn:Ec; [done|]. cbn [alter blockNumber]. destruct (d <? blockNumber s)%Z; [done|].
  change (Sealer.daLagHalted (alter s b l c u w)) with (Sealer.daLagHalted s). destruct (_ && _); [done|].
  change (Sealer.dedupFull (alter s b l c u w)) with (Sealer.dedupFull s). destruct (Sealer.dedupFull s); [done|].
  destruct (negb _); [|intros H1; split; [|done]; exact (agree_relay s (alter s b l c u w) id d Hag Ec Hc H1)]. cbn [alter expectedNonce]. destruct (lru_get a (expectedNonce s)) as [nonces [e|]].
  - destruct (negb _); [intros _; split; [|done]; by apply (agree_nonces s (alter s b l c u w))|]. intros H1. split; [|done].
    exact (agree_user _ _ id d a n (agree_nonces _ _ _ (agree_nonces s _ nonces Hag)) Ec Hc H1).
  - intros H1. split; [|done]. exact (agree_user _ _ id d a n (agree_nonces _ _ _ (agree_nonces s _ nonces Hag)) Ec Hc H1).
Qed.

Lemma agree_append s s' e : agree s s' → (0 ≤ canonicalCount s ≤ long_max)%Z → (0 ≤ canonicalCount (Sealer.appendVoid s e).1)%Z →
  agree (Sealer.appendVoid s e).1 (Sealer.appendVoid s' e).1 ∧ (Sealer.appendVoid s' e).2 = (Sealer.appendVoid s e).2.
Proof.
  intros Hag Hc. assert (canonicalCount (Sealer.forget s (VoidLedger.e_id e)) = canonicalCount s) as Ec by (unfold Sealer.forget; by destruct (lhm_get _ _)).
  apply (agree_forget s s' (VoidLedger.e_id e)) in Hag. unfold Sealer.appendVoid. cbn. rewrite Ec.
  assert (canonicalCount (Sealer.forget s' (VoidLedger.e_id e)) = canonicalCount s ∧ expectedNonce (Sealer.forget s' (VoidLedger.e_id e)) = expectedNonce (Sealer.forget s (VoidLedger.e_id e))) as [-> ->]
    by (destruct Hag; split; [exact Ec|done]).
  intros H0. split; [|done]. apply agree_count; [|by apply agree_nonces]. cbn. rewrite Ec. rewrite long_add_nonneg in * by (unfold long_max in *; lia). lia.
Qed.

Lemma agree_void s s' j index h : agree s s' → (0 ≤ canonicalCount s ≤ long_max)%Z → (0 ≤ canonicalCount (Sealer.onVoidRequest s j index h).1)%Z →
  (canonicalCount s - VoidLedger.capacity (VoidLedger.cfg (voids s)) ≤ index)%Z →
  agree (Sealer.onVoidRequest s j index h).1 (Sealer.onVoidRequest s' j index h).1 ∧ (Sealer.onVoidRequest s' j index h).2 = (Sealer.onVoidRequest s j index h).2.
Proof.
  intros [b l c u w [(W1 & W2 & W3) W4 [W5 W5'] W6 W7 W8]] Hc H0 Hi. unfold Sealer.onVoidRequest in *. cbn [alter voids canonicalCount].
  destruct (agree_vote (voids s) l j index h (canonicalCount s) W5' Hi) as [E Hv]. pose proof (ledger_ok_vote (voids s) j index h (canonicalCount s) W3 W2) as L1.
  pose proof (ledger_ok_vote l j index h (canonicalCount s)) as L2. rewrite (al_cfg _ _ _ W5') in L2. specialize (L2 W3 W5). pose proof (onVote_cfg (voids s) j index h (canonicalCount s)) as Ecfg.
  destruct (VoidLedger.onVote (voids s) _ _ _ _) as [v tally], (VoidLedger.onVote l _ _ _ _) as [v' tally']. cbn [fst snd] in *. subst tally'.
  assert (agree (with_voids s v) (with_voids (alter s b l c u w) v')) as Hag.
  { apply (agree_intro (with_voids s v) b v' c u w). split; [|by eapply window_ok_ext; [| |exact W4]|done..]. split; [by eapply window_ok_ext; [| |exact W1]|]. cbn. by rewrite Ecfg. }
  destruct (VoidLedger.entry tally) as [e|]; [|done]. destruct (agree_append _ _ e Hag Hc H0) as [Ha Er].
  destruct (Sealer.appendVoid (with_voids s v) e) as [s2 r], (Sealer.appendVoid (with_voids (alter s b l c u w) v') e) as [s2' r']. cbn [fst snd] in *. by subst r'.
Qed.


(** The insertion and the boundary of a record that leads a block. *)
Lemma agree_lead s s' id clock : agree s s' → Sealer.contains s id = false →
  let r := Sealer.forceBoundary (Sealer.insertFresh s id (Sealer.assignedDeadline s)) clock in
  let r' := Sealer.forceBoundary (Sealer.insertFresh s' id (Sealer.assignedDeadline s')) clock in agree r.1 r'.1 ∧ r'.2 = r.2.
Proof.
  intros Hag Hc. assert (Sealer.assignedDeadline s' = Sealer.assignedDeadline s) as -> by by destruct Hag. by apply agree_force, agree_insert.
Qed.

Lemma force_fields s clock : let s1 := (Sealer.forceBoundary s clock).1 in canonicalCount s1 = canonicalCount s ∧ l1Origin s1 = l1Origin s ∧ remoteOrigins s1 = remoteOrigins s.
Proof. unfold Sealer.forceBoundary. by destruct (_ <? _)%Z. Qed.

Lemma agree_origin_record s s' id o slots p clock : agree s s' → in_range s → is_long o → is_long slots →
  match Sealer.onOriginRecord s id o slots p clock with
  | Err e => Sealer.onOriginRecord s' id o slots p clock = Err e
  | Ok (s1, out) => in_range s1 → ∃ s1', Sealer.onOriginRecord s' id o slots p clock = Ok (s1', out) ∧ agree s1 s1'
  end.
Proof.
  intros Hag Hr Ho Hsl. unfold Sealer.onOriginRecord. rewrite (agree_contains s s' id Hag). assert (l1Origin s' = l1Origin s) as -> by by destruct Hag.
  destruct (Z.ltb_spec slots 1); [done|]. destruct (Sealer.contains s id) eqn:Ec; [eauto|]. destruct (Z.leb_spec o (l1Origin s)); [done|].
  destruct (_ && _); [eauto|]. pose proof (agree_lead s s' id clock Hag Ec) as [Hl E].
  destruct (force_fields (Sealer.insertFresh s id (Sealer.assignedDeadline s)) clock) as (F1 & F2 & _).
  destruct (Sealer.forceBoundary (Sealer.insertFresh s id _) clock) as [s2 forced], (Sealer.forceBoundary (Sealer.insertFresh s' id _) clock) as [s2' forced']. cbn [fst snd] in *. subst forced'.
  intros Hr1. assert (canonicalCount s2' = canonicalCount s2) as E2 by by destruct Hl. eexists. split; [cbn; by rewrite E2|].
  pose proof (ir_origin s Hr). pose proof (ir_count s Hr). pose proof (ir_count _ Hr1) as Hc1. cbn in Hc1, F1, F2. unfold is_long in *.
  apply agree_count; [|apply agree_origin; [lia|lia|done]]. cbn. rewrite long_add_nonneg in * by lia. lia.
Qed.

Lemma agree_remote_record s s' id chain anchor slots firstSeq lastSeq p clock : agree s s' → in_range s →
  in_range (Sealer.onRemoteOriginRecord s id chain anchor slots firstSeq lastSeq p clock).1 →
  (canonicalCount s ≤ canonicalCount (Sealer.onRemoteOriginRecord s id chain anchor slots firstSeq lastSeq p clock).1)%Z →
  agree (Sealer.onRemoteOriginRecord s id chain anchor slots firstSeq lastSeq p clock).1 (Sealer.onRemoteOriginRecord s' id chain anchor slots firstSeq lastSeq p clock).1 ∧
  (Sealer.onRemoteOriginRecord s' id chain anchor slots firstSeq lastSeq p clock).2 = (Sealer.onRemoteOriginRecord s id chain anchor slots firstSeq lastSeq p clock).2.
Proof.
  intros Hag Hr. unfold Sealer.onRemoteOriginRecord. rewrite (agree_contains s s' id Hag).
  assert (conf s' = conf s ∧ remoteOrigins s' = remoteOrigins s) as [-> ->] by by destruct Hag.
  destruct (Sealer.contains s id) eqn:Ec; [done|]. destruct (bool_decide _); [done|]. destruct (ult lastSeq firstSeq); [done|]. destruct (ult _ _); [done|].
  destruct (negb (slots =? _)%Z); [done|]. destruct (match lhm_get chain (remoteOrigins s) with Some _ => _ | None => false end) eqn:E1; [done|].
  destruct (match lhm_get chain (remoteOrigins s) with Some _ => ule _ _ | None => false end) eqn:E2; [done|].
  pose proof (agree_lead s s' id clock Hag Ec) as [Hl E]. destruct (force_fields (Sealer.insertFresh s id (Sealer.assignedDeadline s)) clock) as (F1 & _ & F3).
  destruct (Sealer.forceBoundary (Sealer.insertFresh s id _) clock) as [s2 forced], (Sealer.forceBoundary (Sealer.insertFresh s' id _) clock) as [s2' forced']. cbn [fst snd] in *. subst forced'.
  intros Hr1 Hle. assert (canonicalCount s2' = canonicalCount s2 ∧ remoteOrigins s2' = remoteOrigins s2) as [C2 ->] by by destruct Hl. split; [|cbn; by rewrite C2].
  cbn in F1. cbn. rewrite C2. apply agree_count; [|by apply agree_remote]. cbn in *. lia.
Qed.

Lemma agree_feature s s' act : agree s s' → agree (Sealer.onFeatureActivation s act).1 (Sealer.onFeatureActivation s' act).1 ∧
  ((Sealer.onFeatureActivation s' act).2 = (Sealer.onFeatureActivation s act).2 ∨
   (Sealer.onFeatureActivation s act).2 = VersionSwitch.STORED_LATE ∧ (Sealer.onFeatureActivation s' act).2 = VersionSwitch.STORED).
Proof.
  intros [b l c u w [(W1 & W2 & W3) W4 W5 W6 W7 W8]]. unfold Sealer.onFeatureActivation. cbn [alter versions l1Origin lastL2Timestamp].
  assert (∀ v v', agree_switch v v' (l1Origin s) (lastL2Timestamp s) → agree (with_versions s v) (with_versions (alter s b l c u w) v')) as Hag.
  { intros v v' Hv. apply (agree_intro (with_versions s v) b l c v' w). split; [split; [by eapply window_ok_ext; [| |exact W1]|done]|by eapply window_ok_ext; [| |exact W4]|done..]. }
  destruct W7 as [->|Hlag].
  - destruct (VersionSwitch.onActivation _ _ _ _) as [v out]. split; [|by left]. apply Hag. by left.
  - destruct (activation_lags (versions s) u _ _ act Hlag) as [Hl' Ho]. destruct (VersionSwitch.onActivation (versions s) _ _ _) as [v out], (VersionSwitch.onActivation u _ _ _) as [v' out'].
    split; [|done]. apply Hag. by right.
Qed.

Lemma agree_recorded s s' j through : agree s s' →
  match Sealer.onRecordedCursor s j through with
  | Err e => Sealer.onRecordedCursor s' j through = Err e
  | Ok (s1, _) => ∃ s1', Sealer.onRecordedCursor s' j through = Ok (s1', (RecordedCursors.best (recorded s') <? through)%Z) ∧ agree s1 s1' ∧
      RecordedCursors.best (recorded s1') = Z.max (RecordedCursors.best (recorded s')) through
  end.
Proof.
  intros [b l c u w [(W1 & W2 & W3) W4 W5 [B1 B2] W7 W8]]. unfold Sealer.onRecordedCursor. cbn [alter voids canonicalCount recorded].
  assert (VoidLedger.isVoter l j = VoidLedger.isVoter (voids s) j) as -> by (unfold VoidLedger.isVoter; by rewrite (al_cfg _ _ _ (proj2 W5))).
  destruct (negb _); [done|]. destruct (ule _ _); [done|]. destruct (RecordedCursors.onCursor (recorded s) _ _) as [c1 m1] eqn:E1, (RecordedCursors.onCursor c _ _) as [c2 m2] eqn:E2.
  assert (RecordedCursors.budget c1 = 0%Z ∧ RecordedCursors.budget c2 = 0%Z) as Hb by (unfold RecordedCursors.onCursor in E1, E2; by repeat case_match; simplify_eq).
  assert (m2 = (RecordedCursors.best c <? through)%Z ∧ RecordedCursors.best c2 = Z.max (RecordedCursors.best c) through) as [-> Hbest].
  { unfold RecordedCursors.onCursor in E2. destruct (Z.leb_spec through (RecordedCursors.best c)), (Z.ltb_spec (RecordedCursors.best c) through); simplify_eq/=; split; lia || done. }
  eexists. split; [done|]. split; [|done]. apply (agree_intro (with_recorded s c1) b l c2 u w). split; [split; [by eapply window_ok_ext; [| |exact W1]|done]|by eapply window_ok_ext; [| |exact W4]|done..].
Qed.
End simulation.

(** *** Answers *)

(** What the restored member answers where the running one answers [o], when the best
    cursor that it has taken since its restart is [best]. A snapshot holds no recorded
    cursors, so whether a cursor moves the best one, and with it the status that goes to
    the sessions, is decided by the cursors since the restart. A snapshot without an
    activation holds no sealed origin, so an activation that comes late may be stored as
    one in time; both are in force from the next boundary on. *)
Definition alike (best : Z) (i : Input) (o o' : Output) : Prop :=
  match i, o with
  | IRecorded _ through, OMoved _ => o' = OMoved (best <? through)%Z
  | _, OFeature VersionSwitch.STORED_LATE => o' = OFeature VersionSwitch.STORED_LATE ∨ o' = OFeature VersionSwitch.STORED
  | _, _ => o' = o
  end.

(** The best cursor after an answer. *)
Definition best_after (best : Z) (i : Input) (o : Output) : Z :=
  match i, o with IRecorded _ through, OMoved _ => Z.max best through | _, _ => best end.

(** The answers of a restored member over the log of a running one. *)
Fixpoint answers_alike (best : Z) (tr tr' : list (Input * Output)) : Prop :=
  match tr, tr' with
  | [], [] => True
  | (i, o) :: tr, (i', o') :: tr' => i' = i ∧ alike best i o o' ∧ answers_alike (best_after best i o) tr tr'
  | _, _ => False
  end.

(** A vote for an index that the window of the ledger has not left. *)
Definition recent (s : SealerSt) (i : Input) : bool :=
  match i with IVoid _ index _ => (canonicalCount s - VoidLedger.capacity (VoidLedger.cfg (voids s)) <=? index)%Z | _ => true end.

Fixpoint recent_votes (s : SealerSt) (log : list Input) : bool :=
  match log with [] => true | i :: log' => recent s i && recent_votes (step s i).1 log' end.

Lemma agree_caught {A} s s' (r r' : result Exn (SealerSt * A)) (f : A → Output) (Q : SealerSt → Output → Output → Prop) : agree s s' → (∀ e, Q s' (OThrown e) (OThrown e)) →
  match r with Err e => r' = Err e | Ok (s1, a) => ∃ s1' a', r' = Ok (s1', a') ∧ agree s1 s1' ∧ Q s1' (f a) (f a') end →
  agree (caught s r f).1 (caught s' r' f).1 ∧ Q (caught s' r' f).1 (caught s r f).2 (caught s' r' f).2.
Proof. intros Hag He. destruct r as [[s1 a]|e]; [by intros (s1' & a' & -> & ? & ?)|intros ->; split; [done|apply He]]. Qed.

(** Both take an entry of the log alike. *)
Lemma agree_step s s' i : agree s s' → in_range s → in_range (step s i).1 → typed i → recent s i = true → (canonicalCount s ≤ canonicalCount (step s i).1)%Z →
  let best := RecordedCursors.best (recorded s') in
  agree (step s i).1 (step s' i).1 ∧ alike best i (step s i).2 (step s' i).2 ∧ RecordedCursors.best (recorded (step s' i).1) = best_after best i (step s i).2.
Proof.
  intros Hag Hr Hr1 Ht Hrec Hle best.
  destruct (match i with IRecorded _ _ => true | _ => false end) eqn:Ei.
  { destruct i; try done. cbn [step]. apply (agree_caught s s' _ _ OMoved (λ s1' o o', alike best _ o o' ∧ RecordedCursors.best (recorded s1') = best_after best _ o) Hag); [done|].
    pose proof (agree_recorded s s' executorId through Hag) as Hs. destruct (Sealer.onRecordedCursor s _ _) as [[s1 m]|]; [|done]. destruct Hs as (s1' & -> & ? & ?). by eexists _, _. }
  assert (RecordedCursors.best (recorded (step s' i).1) = best_after best i (step s i).2) as Hbest by (rewrite step_recorded by (by destruct i); by destruct i).
  rewrite Hbest. clear Hbest. enough (agree (step s i).1 (step s' i).1 ∧ alike best i (step s i).2 (step s' i).2) by tauto.
  pose proof (ir_count s Hr) as Hc. pose proof (ir_count _ Hr1) as [Hc1 _]. destruct i; cbn [step typed recent] in *; try done.
  - pose proof (agree_record s s' id sender nonce deadline payload Hag Hc) as Hs. destruct (Sealer.onRecord s _ _ _ _ _), (Sealer.onRecord s' _ _ _ _ _). cbn in *. by destruct (Hs Hc1) as [? ->].
  - apply Z.leb_le in Hrec. pose proof (agree_void s s' voterId index hash Hag Hc) as Hs. destruct (Sealer.onVoidRequest s _ _ _) as [s1 [v r]], (Sealer.onVoidRequest s' _ _ _) as [s1' [v' r']].
    cbn in *. by destruct (Hs Hc1 Hrec) as [? [= -> ->]].
  - pose proof (agree_ref s s' lane session position id Hag Hc) as Hs. destruct (Sealer.onRef s _ _ _ _), (Sealer.onRef s' _ _ _ _). cbn in *. by destruct (Hs Hc1) as [? ->].
  - pose proof (agree_carried s s' lane session position Hag Hc) as Hs. destruct (Sealer.onCarriedRef s _ _ _), (Sealer.onCarriedRef s' _ _ _). cbn in *. by destruct (Hs Hc1) as [? ->].
  - pose proof (agree_tick s s' clock Hag) as Hs. destruct (Sealer.onTick s _), (Sealer.onTick s' _). cbn in *. by destruct Hs as [? ->].
  - apply (agree_caught s s' _ _ OOrigin (λ _, alike best _) Hag); [done|]. pose proof (agree_origin_record s s' id origin slotCount payload clock Hag Hr (proj1 Ht) (proj2 Ht)) as Hs.
    destruct (Sealer.onOriginRecord s _ _ _ _ _) as [[s1 o]|]; [|done]. destruct (Hs Hr1) as (s1' & -> & ?). by exists s1', o.
  - pose proof (agree_remote_record s s' id chain anchor slotCount firstSeq lastSeq payload clock Hag Hr) as Hs.
    destruct (Sealer.onRemoteOriginRecord s _ _ _ _ _ _ _ _), (Sealer.onRemoteOriginRecord s' _ _ _ _ _ _ _ _). cbn in *. by destruct (Hs Hr1 Hle) as [? ->].
  - apply (agree_caught s s' _ _ OMoved (λ _, alike best _) Hag); [done|]. unfold Sealer.onPostedCursor. assert (Sealer.sealedHead s' = Sealer.sealedHead s ∧ postedHead s' = postedHead s) as [-> ->] by by destruct Hag.
    destruct (_ <? _)%Z; [done|]. destruct (_ <=? _)%Z; [by exists s', false|]. exists (with_posted s' head), true. split_and!; [done|by apply agree_posted|done].
  - apply (agree_caught s s' _ _ _ (λ _, alike best _) Hag); [done|]. unfold Sealer.onSeedEpoch. assert (seedStatus s' = seedStatus s ∧ seedDigest s' = seedDigest s) as [-> ->] by by destruct Hag.
    destruct (seedStatus s); [done|..]; (destruct (negb _); [done|]); eexists _, _; (split; [done|]); split; [by apply agree_seed|done|by apply agree_seed|done].
  - pose proof (agree_feature s s' a Hag) as Hs. destruct (Sealer.onFeatureActivation s _) as [s1 o], (Sealer.onFeatureActivation s' _) as [s1' o']. cbn [fst snd] in *. destruct Hs as [? [->|[-> ->]]]; [|by split; [|right]].
    split; [done|]. destruct o; cbn; auto.
Qed.

Lemma agree_run s s' tr s2 : run s tr s2 → counted s → agree s s' → recent_votes s tr.*1 = true →
  answers_alike (RecordedCursors.best (recorded s')) tr (outputs s' tr.*1) ∧ agree s2 (after s' tr.*1).
Proof.
  intros Hrun. revert s'. induction Hrun as [s Hr|s i s1 o tr s2 Hr Ht Hs Hrun IH]; intros s' Hc Hag Hrec; [done|].
  pose proof (run_start _ _ _ Hrun) as Hr1. destruct (replay_step s i s1 o Hr Hr1 Hc Ht Hs) as [Hrep Hc1]. apply replay_index in Hrep as [Hle _]. cbn in Hle.
  cbn [fmap list_fmap outputs recent_votes fst answers_alike] in *. apply andb_true_iff in Hrec as [Hrec Hrest]. rewrite Hs in Hrest. cbn in Hrest.
  pose proof (agree_step s s' i Hag Hr) as Hst. rewrite Hs in Hst. cbn [fst snd] in Hst. destruct (Hst Hr1 Ht Hrec Hle) as (Hag1 & Ho & Hb).
  destruct (IH (step s' i).1 Hc1 Hag1 Hrest) as [Hout Hend]. rewrite Hb in Hout. split; [|done]. by split_and!.
Qed.
