(* ===== verification/SealerRestart.v ===== *)
(** * A member of the sealer restarts from a snapshot

    The values that the fields of a state keep over the log that the service hands
    to it, which a snapshot relies on, and the theorems on a restart. *)
From S2P Require Import Prelude Bytes Java SealerVoid SealerVersions SealerWindows SealerTable SealerBitmap SealerWindowsSpec.
From S2P Require Import SealerState SealerFacts SealerSpec SealerRefs SealerOrder SealerVotes SealerInv SealerSnapshot SealerRestore SealerAgree.
Import SealerSnapshot.

(** ** The log of the service *)

Definition longb (z : Z) : bool := (long_min <=? z)%Z && (z <=? long_max)%Z.

(** The fields of a frame are of their widths. *)
Definition wire (i : Input) : bool :=
  match i with
  | IRecord id sender nonce deadline _ => (id <? 256 ^ 32)%N && (sender <? 256 ^ 20)%N && longb nonce && longb deadline
  | IRef _ _ _ id => (id <? 256 ^ 32)%N
  | IOrigin id origin slotCount _ _ => (id <? 256 ^ 32)%N && longb origin && longb slotCount
  | IRemote id chain anchor _ _ _ _ _ => (id <? 256 ^ 32)%N && longb chain && longb anchor
  | IRecorded _ through => longb through
  | IFeature a => longb (VersionSwitch.fa_l1Origin a) && longb (VersionSwitch.activationMs a)
  | _ => true
  end.

(** [isPositionedRef] and [isCarriedRef] of the service: a reference takes the path of
    decision version 4 or 5 only while the open block runs such a version. *)
Definition gated (s : SealerSt) (i : Input) : bool :=
  match i with
  | IRef _ _ _ _ => (VersionSwitch.ON_VERSION <=? VersionSwitch.version (versions s))%Z
  | ICarriedRef _ _ _ => (VersionSwitch.version (versions s) =? VersionSwitch.CARRY_VERSION)%Z
  | _ => true
  end.

Fixpoint served (s : SealerSt) (log : list Input) : bool :=
  match log with [] => true | i :: log' => wire i && gated s i && served (step s i).1 log' end.

Lemma longb_spec z : longb z = true ↔ is_long z.
Proof. unfold longb. by rewrite andb_true_iff, !Z.leb_le. Qed.

(** ** The ids, the senders and the peers *)

Definition id_typed (e : B256 * Z) : Prop := (e.1 < 256 ^ 32)%N ∧ is_long e.2.
Definition sender_typed (e : Address * Z) : Prop := (e.1 < 256 ^ 20)%N ∧ is_long e.2.
Definition peer_typed (e : Z * RemotePeer) : Prop := is_long e.1 ∧ is_long (anchorNumber e.2) ∧ is_long (nextSeq e.2).

Lemma assigned_long s : is_long (Sealer.assignedDeadline s).
Proof. unfold Sealer.assignedDeadline. destruct (_ <? _)%Z; [done|apply to_long_is_long]. Qed.

Lemma insert_typed s id d : (id < 256 ^ 32)%N → is_long d → Forall id_typed (dedup s) → Forall id_typed (dedup (Sealer.insertFresh s id d)).
Proof.
  intros Hid Hd Hs. apply Forall_forall. intros e [->|Hin]%lhm_put_elem; [|by rewrite Forall_forall in Hs; apply Hs].
  split; [done|]. pose proof (assigned_long s). unfold is_long in *. cbn. lia.
Qed.

Lemma forget_typed s id : Forall id_typed (dedup s) → Forall id_typed (dedup (Sealer.forget s id)).
Proof.
  intros Hs. unfold Sealer.forget. destruct (lhm_get id (dedup s)); [|done]. rewrite Forall_forall in *. intros e [_ He]%lhm_remove_elem. by apply Hs.
Qed.

Lemma tick_typed s clock : Forall id_typed (dedup s) → Forall id_typed (dedup (Sealer.onTick s clock).1).
Proof.
  intros Hs. unfold Sealer.onTick, Sealer.pruneExpired. cbn [fst dedup with_dedup]. rewrite fold_remove_filter. rewrite Forall_forall in *.
  intros e [_ He]%list_elem_of_filter. by apply Hs.
Qed.

Lemma force_typed s clock : Forall id_typed (dedup s) → Forall id_typed (dedup (Sealer.forceBoundary s clock).1).
Proof. intros Hs. unfold Sealer.forceBoundary. destruct (_ <? _)%Z; [|done]. pose proof (tick_typed s clock Hs). by destruct (Sealer.onTick s clock). Qed.

Lemma record_dedup s id a n d p : let s1 := (Sealer.onRecord s id a n d p).1 in dedup s1 = dedup s ∨ dedup s1 = dedup (Sealer.insertFresh s id d).
Proof. cbv zeta. unfold Sealer.onRecord. repeat (first [by left | by right | progress cbn [fst snd] | destruct_innermost]). Qed.

(** The window of a step that leads a block. *)
Lemma origin_dedup s id o n p c : let s1 := (step s (IOrigin id o n p c)).1 in
  dedup s1 = dedup s ∨ dedup s1 = dedup (Sealer.forceBoundary (Sealer.insertFresh s id (Sealer.assignedDeadline s)) c).1.
Proof. cbv zeta. cbn [step]. unfold caught, Sealer.onOriginRecord. repeat (first [by left | by right | progress cbn [fst snd] | destruct_innermost]). Qed.

Lemma remote_dedup s id ch an n f l p c : let s1 := (step s (IRemote id ch an n f l p c)).1 in
  dedup s1 = dedup s ∨ dedup s1 = dedup (Sealer.forceBoundary (Sealer.insertFresh s id (Sealer.assignedDeadline s)) c).1.
Proof. cbv zeta. cbn [step]. unfold Sealer.onRemoteOriginRecord. repeat (first [by left | by right | progress cbn [fst snd] | destruct_innermost]). Qed.

Lemma ids_step s i : wire i = true → Forall id_typed (dedup s) → Forall id_typed (dedup (step s i).1).
Proof.
  intros Hw Hs. assert (∀ id c, (id < 256 ^ 32)%N → Forall id_typed (dedup (Sealer.forceBoundary (Sealer.insertFresh s id (Sealer.assignedDeadline s)) c).1)) as Hlead.
  { intros id c Hid. apply force_typed, insert_typed; [done|apply assigned_long|done]. }
  destruct i; cbn [wire] in Hw; rewrite ?andb_true_iff, ?longb_spec, ?N.ltb_lt in Hw.
  - cbn [step]. pose proof (record_dedup s id sender nonce deadline payload) as Hd. destruct (Sealer.onRecord _ _ _ _ _ _). cbn [fst] in *. destruct Hd as [->| ->]; [done|]. apply insert_typed; tauto.
  - cbn [step]. unfold Sealer.onVoidRequest, Sealer.appendVoid. destruct (VoidLedger.onVote _ _ _ _ _) as [v tally]. destruct (VoidLedger.entry tally) as [e|]; [|done].
    by apply (forget_typed (with_voids s v)).
  - pose proof (onRef_same s lane session position id) as (Hd & _). cbn [step]. destruct (Sealer.onRef _ _ _ _ _). cbn [fst] in *. by rewrite Hd.
  - pose proof (onCarriedRef_same s lane session position) as (Hd & _). cbn [step]. destruct (Sealer.onCarriedRef _ _ _ _). cbn [fst] in *. by rewrite Hd.
  - rewrite tick_step. by apply tick_typed.
  - destruct (origin_dedup s id origin slotCount payload clock) as [->| ->]; [done|]. apply Hlead. tauto.
  - destruct (remote_dedup s id chain anchor slotCount firstSeq lastSeq payload clock) as [->| ->]; [done|]. apply Hlead. tauto.
  - cbn [step]. sealer_op.
  - cbn [step]. sealer_op.
  - cbn [step]. sealer_op.
  - cbn [step]. sealer_op.
Qed.

Lemma lru_get_elem {K V} `{EqDecision K} (k : K) (m : list (K * V)) e : e ∈ (lru_get k m).1 → e ∈ m.
Proof.
  unfold lru_get. destruct (lhm_get k m) as [v|] eqn:E; [|done]. cbn. intros [[_ ?]%lhm_remove_elem| ->%list_elem_of_singleton]%elem_of_app; [done|]. by apply lhm_get_elem.
Qed.

Lemma lru_put_elem {K V} `{EqDecision K} cap (k : K) (v : V) (m : list (K * V)) e : e ∈ lru_put cap k v m → e = (k, v) ∨ e ∈ m.
Proof.
  unfold lru_put. destruct (lhm_get k m) as [v'|].
  - intros [[_ ?]%lhm_remove_elem| ->%list_elem_of_singleton]%elem_of_app; auto.
  - intros Hin. assert (e ∈ m ++ [(k, v)]) as [?| ->%list_elem_of_singleton]%elem_of_app; auto. revert Hin. destruct (_ <? _)%Z; [|done].
    destruct (m ++ [(k, v)]); [done|]. by right.
Qed.

Lemma lru_compute_elem {K V} `{EqDecision K} (k : K) (f : V → V) (m : list (K * V)) e : e ∈ lru_compute k f m → e ∈ m ∨ ∃ v, (k, v) ∈ m ∧ e = (k, f v).
Proof.
  unfold lru_compute. destruct (lhm_get k m) as [v|] eqn:E; [|by left]. intros [[_ ?]%lhm_remove_elem| ->%list_elem_of_singleton]%elem_of_app; [by left|].
  right. exists v. split; [by apply lhm_get_elem|done].
Qed.

(** The nonce of a voided record is one of the ledger. *)
Lemma voided_nonce l j index h count e : Forall is_long (VoidLedger.nonces l) → VoidLedger.entry (VoidLedger.onVote l j index h count).2 = Some e → is_long (VoidLedger.e_nonce e).
Proof.
  intros Hn. unfold VoidLedger.onVote, VoidLedger.take_. repeat (first [done | progress cbn [fst snd VoidLedger.entry] | destruct_innermost]). intros [= <-]. cbn. by apply total_typed.
Qed.

Lemma senders_typed_step s i : wire i = true → Forall is_long (VoidLedger.nonces (voids s)) → Forall sender_typed (expectedNonce s) → Forall sender_typed (expectedNonce (step s i).1).
Proof.
  intros Hw Hn Hs. destruct i; try (by rewrite step_nonces); cbn [step wire] in *; rewrite ?andb_true_iff, ?longb_spec, ?N.ltb_lt in Hw; rewrite !Forall_forall in *.
  - pose proof (onRecord_nonces s id sender nonce deadline payload) as He. destruct (Sealer.onRecord _ _ _ _ _ _) as [s' o]. destruct He as [He _]. cbn [fst]. rewrite He.
    assert (∀ e, e ∈ (lru_get sender (expectedNonce s)).1 → sender_typed e) as Hg by (intros e ?%lru_get_elem; by apply Hs).
    intros e. case_decide; [apply Hs|]. destruct o; try apply Hs; try apply Hg. intros [->|Hin]%lru_put_elem; [|by apply Hg]. split; [tauto|apply to_long_is_long].
  - unfold Sealer.onVoidRequest. pose proof (voided_nonce (voids s) voterId index hash (canonicalCount s)) as He. destruct (VoidLedger.onVote _ _ _ _ _) as [v tally].
    destruct (VoidLedger.entry tally) as [e|] eqn:Ee; [|by cbn; apply Hs]. assert (is_long (VoidLedger.e_nonce e)) as Hl by (apply He; [by rewrite Forall_forall|done]).
    assert (expectedNonce (Sealer.forget (with_voids s v) (VoidLedger.e_id e)) = expectedNonce s) as Ef by (unfold Sealer.forget; by destruct (lhm_get _ _)).
    unfold Sealer.appendVoid. cbn [fst expectedNonce with_nonces with_count]. rewrite Ef. intros x [Hin|(y & Hin & ->)]%lru_compute_elem; [by apply Hs|].
    destruct (Hs _ Hin) as [H1 H2]. cbn [fst snd] in *. split; [done|]. cbn [snd]. unfold is_long in *. lia.
Qed.

Lemma step_peers s i : remoteOrigins (step s i).1 = remoteOrigins s ∨
  ∃ id ch an n f l p c, i = IRemote id ch an n f l p c ∧ ch ∈ remoteOriginAllowlist (conf s) ∧ remoteOrigins (step s i).1 = lhm_put ch (mkPeer an true (long_add l 1)) (remoteOrigins s).
Proof.
  destruct i; try (by left; cbn [step]; sealer_op). cbn [step]. unfold Sealer.onRemoteOriginRecord. destruct (Sealer.contains s id); [by left|]. destruct (decide (chain ∈ remoteOriginAllowlist (conf s))) as [Hin|Hin]; [rewrite bool_decide_eq_false_2 by tauto|left; by rewrite bool_decide_eq_true_2].
  destruct (ult _ _); [by left|]. destruct (ult _ _); [by left|]. destruct (negb _); [by left|]. set (m := match lhm_get chain _ with Some _ => _ | None => false end).
  destruct m; [by left|]. set (r := match lhm_get chain _ with Some _ => _ | None => false end). destruct r; [by left|].
  destruct (force_fields (Sealer.insertFresh s id (Sealer.assignedDeadline s)) clock) as (_ & _ & F3). destruct (Sealer.forceBoundary _ clock) as [s2 forced]. cbn in F3.
  right. eexists _, _, _, _, _, _, _, _. split; [done|]. split; [done|]. cbn. by rewrite F3.
Qed.

(** The peers of a state are of the list that it allows. *)
Record peers_ok (s : SealerSt) : Prop := {
  pk_typed : Forall peer_typed (remoteOrigins s);
  pk_nodup : NoDup (remoteOrigins s).*1;
  pk_allowed : ∀ ch, ch ∈ (remoteOrigins s).*1 → ch ∈ remoteOriginAllowlist (conf s);
}.

Lemma peers_step s i : wire i = true → peers_ok s → peers_ok (step s i).1.
Proof.
  intros Hw [H1 H2 H3]. destruct (step_peers s i) as [E|(id & ch & an & n & f & l & p & c & -> & Hin & E)]; [split; rewrite E, ?step_conf; done|].
  cbn [wire] in Hw. rewrite !andb_true_iff, !longb_spec in Hw. split; rewrite E, ?step_conf.
  - rewrite Forall_forall in *. intros e [->|He]%lhm_put_elem; [|by apply H1]. split_and!; [tauto|tauto|apply to_long_is_long].
  - by apply lhm_put_NoDup.
  - intros x (e & -> & [->|He]%lhm_put_elem)%list_elem_of_fmap; [done|]. apply H3, list_elem_of_fmap. by exists e.
Qed.

(** ** The ledger *)

Section ledger.
Import VoidLedger.

(** The entries and the votes are of their types. *)
Record cells_typed (l : VoidLedger.t) : Prop := {
  ct_ids : Forall (λ x, (x < 256 ^ 32)%N) (ids l);
  ct_senders : Forall (λ x, (x < 256 ^ 20)%N) (senders l);
  ct_nonces : Forall is_long (nonces l);
  ct_votes : Forall (λ v, is_long v.1 ∧ is_long v.2) (votes l);
}.

Lemma cells_reference l index id a n : (id < 256 ^ 32)%N → (a < 256 ^ 20)%N → is_long n → cells_typed l → cells_typed (onReference l index id a n).
Proof.
  intros Hid Ha Hn [H1 H2 H3 H4]. unfold onReference. destruct (_ =? _)%Z; [done|]. split; cbn; [by apply Forall_insert..|done].
Qed.

Lemma holds_index l index h : holds l index h = true → indexAt l !! slot l index = Some index ∧ index ≠ (-1)%Z.
Proof.
  unfold holds. destruct (_ || _) eqn:E; [done|]. apply orb_false_iff in E as [_ E%Z.ltb_ge]. intros [Ha%bool_decide_eq_true _]%andb_true_iff. split; [done|lia].
Qed.

Lemma cells_vote l j index h count : (0 ≤ count ≤ long_max)%Z → ledger_ok l count → cells_typed l → cells_typed (onVote l j index h count).1.
Proof.
  intros Hc Hok [H1 H2 H3 H4]. unfold onVote. set (l1 := dropVotesBelow l _). assert (cells_typed l1) as Ht.
  { split; try done. cbn. rewrite Forall_forall in *. intros v [_ Hv]%list_elem_of_filter. by apply H4. }
  assert (ledger_ok l1 count) as Hok1 by by apply ledger_ok_drop. clearbody l1. clear H1 H2 H3 H4. pose proof Ht as [H1 H2 H3 H4].
  destruct (negb _ || _) eqn:Eh; [done|]. destruct (_ && _); [done|]. rewrite Forall_forall in H4.
  destruct (_ =? _)%Z; [split; cbn; try done; apply Forall_forall; intros v [_ Hv]%lhm_remove_elem; by apply H4|].
  destruct (_ =? _)%Z; [done|]. split; cbn [fst ids senders nonces votes with_votes]; try done. apply Forall_forall. intros v [->|Hv]%lhm_put_elem; [|by apply H4].
  apply orb_false_iff in Eh as [_ [Hi Hne]%negb_false_iff%holds_index]. destruct (lo_slots _ _ Hok1 _ _ Hi Hne) as [Hb _]. cbn [fst snd].
  split; [unfold is_long, long_min, long_max in *; lia|]. apply WindowBits.is_long_lor; [|apply to_long_is_long].
  destruct (lhm_get index (votes l1)) as [m|] eqn:Eg; [|done]. cbn. by apply (H4 (index, m)), lhm_get_elem.
Qed.
End ledger.

Record voids_ok (s : SealerSt) : Prop := {
  vk_ledger : ledger_ok (voids s) (canonicalCount s);
  vk_cells : cells_typed (voids s);
  vk_mask : is_long (VoidLedger.voterMask (VoidLedger.cfg (voids s)));
}.

Lemma voids_step s i : in_range s → in_range (step s i).1 → (canonicalCount s ≤ canonicalCount (step s i).1)%Z → wire i = true → voids_ok s → voids_ok (step s i).1.
Proof.
  intros Hr Hr1 Hle Hw [H1 H2 H3]. assert (is_long (VoidLedger.voterMask (VoidLedger.cfg (voids (step s i).1)))) as Hm by by rewrite step_cfg.
  assert (voids (step s i).1 = voids s → voids_ok (step s i).1) as Hsame by (intros E; split; [rewrite E; by eapply ledger_ok_mono|by rewrite E|done]).
  assert (∀ id a n, (id < 256 ^ 32)%N → (a < 256 ^ 20)%N → is_long n → voids (step s i).1 = VoidLedger.onReference (voids s) (canonicalCount s) id a n →
    canonicalCount (step s i).1 = long_add (canonicalCount s) 1 → voids_ok (step s i).1) as Href.
  { intros id a n Hid Ha Hn E Ec. split; [|rewrite E; by apply cells_reference|done]. rewrite E, Ec, long_add_nonneg; [|apply Hr|done|rewrite <-Ec; apply Hr1].
    apply ledger_ok_reference; [apply Hr|done]. }
  destruct i; try (by apply Hsame, step_voids); cbn [wire] in Hw; rewrite ?andb_true_iff, ?longb_spec, ?N.ltb_lt in Hw.
  - pose proof (record_voids s id sender nonce deadline payload) as Hv. cbn [step] in *. destruct (Sealer.onRecord _ _ _ _ _ _). cbn [fst] in *.
    destruct Hv as [Hv|[Hv Hn]]; [by apply Hsame|]. eapply Href; [..|exact Hv|exact Hn]; tauto.
  - clear Hsame Href. cbn [step] in *. unfold Sealer.onVoidRequest in *. pose proof (ledger_ok_vote (voids s) voterId index hash (canonicalCount s) H3 H1) as L1.
    pose proof (cells_vote (voids s) voterId index hash (canonicalCount s) (ir_count s Hr) H1 H2) as L2. destruct (VoidLedger.onVote _ _ _ _ _) as [v tally]. cbn [fst] in L1, L2.
    assert (∀ s1, voids s1 = v → (canonicalCount s ≤ canonicalCount s1)%Z → is_long (VoidLedger.voterMask (VoidLedger.cfg (voids s1))) → voids_ok s1) as Hv
      by (intros s1 E Hc ?; split; [rewrite E; by eapply ledger_ok_mono|by rewrite E|done]).
    destruct (VoidLedger.entry tally); apply Hv; try done. unfold Sealer.appendVoid, Sealer.forget. cbn. by destruct (lhm_get _ _).
  - pose proof (ref_voids s lane session position id) as Hv. cbn [step] in *. destruct (Sealer.onRef _ _ _ _ _). cbn [fst] in *.
    destruct Hv as [Hv|[Hv Hn]]; [by apply Hsame|]. by eapply Href; [..|exact Hv|exact Hn].
Qed.

(** ** The settings *)

Lemma visible_le h o : (Schedule.visibleAt h o ≤ length h)%nat.
Proof. induction h as [|[a b] h IH]; cbn; [done|]. destruct (ule a o); lia. Qed.

Lemma settle_nil sealed h o ts : Schedule.settle sealed h o ts = [] ↔ h = [].
Proof.
  unfold Schedule.settle. pose proof (visible_le h o) as Hv. destruct (Schedule.visibleAt h o) as [|v]; [done|].
  destruct (drop v h) as [|a rest] eqn:E; [|split; [done|intros ->; by destruct v]]. apply (f_equal length) in E. rewrite length_drop in E. cbn in E. lia.
Qed.

Lemma settle_typed sealed h o ts : is_long ts → schedule_typed h → schedule_typed (Schedule.settle sealed h o ts).
Proof.
  intros Ht [Hl Hh]. unfold Schedule.settle. destruct (Schedule.visibleAt h o) as [|v]; [done|]. destruct (drop v h) as [|a rest] eqn:E; [by split; [cbn; lia|]|].
  assert (Forall (λ a, is_long a.1 ∧ is_long a.2) (a :: rest)) as Hd by (rewrite <-E; by apply Forall_drop). apply Forall_cons in Hd as [[H1 H2] Hd].
  apply (f_equal length) in E. rewrite length_drop in E. cbn in E. split; [cbn; lia|]. constructor; [|done]. cbn. split; [done|].
  unfold Schedule.resolvedTime. by destruct (_ && _).
Qed.

(** The switch is one that a snapshot can hold. *)
Record switch_kept (s : SealerSt) : Prop := {
  wk_typed : switch_typed (versions s);
  wk_ok : switch_ok (versions s);
  wk_sealed : ule (VersionSwitch.sealedOrigin (versions s)) (l1Origin s) = true;
}.

Lemma boundary_kept v o ts l2 : is_long o → is_long ts → switch_typed v → switch_ok v →
  switch_typed (VersionSwitch.atBoundary v o ts l2).1 ∧ switch_ok (VersionSwitch.atBoundary v o ts l2).1.
Proof.
  intros Ho Hts [T1 T2 T3] [O1 O2 O3]. unfold VersionSwitch.atBoundary. cbn [fst]. split; split; cbn [VersionSwitch.version VersionSwitch.sealedOrigin VersionSwitch.window VersionSwitch.carryWindow VersionSwitch.fileStore VersionSwitch.v4 VersionSwitch.carry].
  - unfold VersionSwitch.versionAtBoundary. repeat case_match; done.
  - done.
  - intros []; cbn; apply settle_typed; try done; [apply (T3 VersionSwitch.V4)|apply (T3 VersionSwitch.CARRY)|apply (T3 VersionSwitch.WINDOW)].
  - rewrite settle_nil. intros E. rewrite E. cbn. by apply O1.
  - rewrite settle_nil. done.
  - rewrite !settle_nil. intros E4 Ec. destruct (O3 E4 Ec) as [-> Ev]. split; [done|]. unfold VersionSwitch.versionAtBoundary. rewrite E4, Ev. done.
Qed.

Lemma activation_kept v a o ts : is_long (VersionSwitch.fa_l1Origin a) → is_long (VersionSwitch.activationMs a) → is_long ts → switch_typed v → switch_ok v →
  let v' := (VersionSwitch.onActivation v a o ts).1 in
  switch_typed v' ∧ switch_ok v' ∧ VersionSwitch.sealedOrigin v' = VersionSwitch.sealedOrigin v ∧ (VersionSwitch.v4 v' = [] → VersionSwitch.carry v' = [] → VersionSwitch.v4 v = [] ∧ VersionSwitch.carry v = []).
Proof.
  intros H1 H2 H3 Ht Hk. cbv zeta. unfold VersionSwitch.onActivation. cbv zeta. destruct (VersionSwitch.scheduleOf _) as [w|]; [|done].
  destruct (ule _ (Schedule.newest _)); [done|]. destruct (negb _ && _); [done|]. destruct (negb _ && _ && _); [done|].
  match goal with |- context [if ?b then (v, VersionSwitch.UNSUPPORTED) else _] => destruct b eqn:Ef; [done|] end.
  match goal with |- context [if ?b then (v, VersionSwitch.EARLY) else _] => destruct b eqn:Ee; [done|] end.
  destruct (_ =? _)%nat eqn:Hlen; [done|]. apply Nat.eqb_neq in Hlen. cbn [fst].
  set (x := (VersionSwitch.fa_l1Origin a, _)). assert (schedule_typed (VersionSwitch.schedule v w ++ [x])) as Hx.
  { destruct (st_schedules v Ht w) as [Hl Hh]. unfold VersionSwitch.MAX_HELD in Hlen. split; [rewrite length_app; cbn; lia|]. apply Forall_app. split; [done|]. constructor; [|done].
    split; [done|]. cbn. by destruct (_ && _). }
  destruct Ht as [T1 T2 T3], Hk as [O1 O2 O3]. split; [|split; [|split]].
  - split; [by destruct w|by destruct w|]. intros w'. pose proof (T3 w') as Hw'. destruct w, w'; cbn; try exact Hx; exact Hw'.
  - destruct w; split; cbn; try done.
    + intros Hnil. by apply app_eq_nil in Hnil as [_ ?].
    + intros _ Hnil. by apply app_eq_nil in Hnil as [_ ?].
    + intros Hnil. by apply app_eq_nil in Hnil as [_ ?].
    + intros E. congruence.
    + intros E4 Ec. destruct (O3 E4 Ec) as [_ Ev]. rewrite Ev in Ee. done.
  - by destruct w.
  - destruct w; cbn; [by intros [_ ?]%app_eq_nil|by intros _ [_ ?]%app_eq_nil|done].
Qed.

(** The settings after a step: as they were, or those of a boundary. *)
Definition settled (s s1 : SealerSt) : Prop :=
  versions s1 = versions s ∧ rules s1 = rules s ∧ lastBoundaryCount s1 = lastBoundaryCount s ∨
  ∃ l2, versions s1 = (VersionSwitch.atBoundary (versions s) (l1Origin s) (lastL2Timestamp s) l2).1 ∧
    rules s1 = DecisionRules.atBoundary (rules s) (l1Origin s) ∧ lastBoundaryCount s1 = canonicalCount s.

Lemma lead_settled s id d c : settled s (Sealer.forceBoundary (Sealer.insertFresh s id d) c).1.
Proof. unfold Sealer.forceBoundary. destruct (_ <? _)%Z; [right; by eexists|by left]. Qed.

Lemma step_settled s i : match i with IFeature _ => False | _ => True end → settled s (step s i).1 ∧ (l1Origin s ≤ l1Origin (step s i).1)%Z.
Proof.
  destruct i; intros Hi; try done; try (by split; [left|]; cbn [step]; sealer_op); cbn [step].
  - split; [right; by eexists|done].
  - unfold caught, Sealer.onOriginRecord. destruct (_ <? _)%Z; [by split; [left|]|]. destruct (Sealer.contains s id); [by split; [left|]|].
    destruct (Z.leb_spec origin (l1Origin s)); [by split; [left|]|]. destruct (_ && _); [by split; [left|]|].
    pose proof (lead_settled s id (Sealer.assignedDeadline s) clock) as Hs. destruct (Sealer.forceBoundary _ _) as [s2 forced]. split; [done|]. cbn. lia.
  - unfold Sealer.onRemoteOriginRecord. pose proof (lead_settled s id (Sealer.assignedDeadline s) clock) as Hs. destruct (force_fields (Sealer.insertFresh s id (Sealer.assignedDeadline s)) clock) as (_ & F2 & _).
    destruct (Sealer.forceBoundary _ _) as [s2 forced]. cbn in F2. repeat (first [by split; [left|] | progress cbn [fst snd] | destruct_innermost]); (split; [done|]); cbn; lia.
Qed.

Lemma switch_step s i : in_range s → in_range (step s i).1 → wire i = true → switch_kept s → switch_kept (step s i).1.
Proof.
  intros Hr Hr1 Hw [K1 K2 K3]. pose proof (ir_origin s Hr) as Ho. pose proof (ir_time s Hr) as Ht. pose proof (ir_origin _ Hr1) as Ho1.
  assert (is_long (l1Origin s) ∧ is_long (lastL2Timestamp s)) as [Lo Lt] by (unfold is_long, long_min in *; lia).
  destruct (match i with IFeature _ => true | _ => false end) eqn:Hf.
  - destruct i; try done. cbn [step wire] in *. rewrite !andb_true_iff, !longb_spec in Hw. unfold Sealer.onFeatureActivation in *.
    destruct (activation_kept (versions s) a (l1Origin s) (lastL2Timestamp s)) as (A1 & A2 & A3 & _); [tauto|tauto|done|done|done|].
    destruct (VersionSwitch.onActivation _ _ _ _) as [v out]. cbn in *. split; [done|done|]. cbn. by rewrite A3.
  - destruct (step_settled s i) as [Hs Hle]; [by destruct i|]. destruct Hs as [(E & _)|(l2 & E & _)].
    + split; rewrite E; try done. apply ule_le. apply ule_le in K3. rewrite (unsigned_nonneg (l1Origin s)) in K3 by lia. rewrite (unsigned_nonneg (l1Origin (step s i).1)) by lia. lia.
    + destruct (boundary_kept (versions s) (l1Origin s) (lastL2Timestamp s) l2 Lo Lt K1 K2) as [B1 B2]. split; rewrite E; try done.
      apply ule_le. change (unsigned (l1Origin s) ≤ unsigned (l1Origin (step s i).1))%Z. rewrite !unsigned_nonneg by lia. lia.
Qed.

(** An idle switch was idle before. *)
Lemma idle_before s i : in_range s → wire i = true → switch_kept s → VersionSwitch.v4 (versions (step s i).1) = [] → VersionSwitch.carry (versions (step s i).1) = [] →
  VersionSwitch.v4 (versions s) = [] ∧ VersionSwitch.carry (versions s) = [].
Proof.
  intros Hr Hw [K1 K2 K3]. destruct (match i with IFeature _ => true | _ => false end) eqn:Hf.
  - destruct i; try done. cbn [step wire] in *. rewrite !andb_true_iff, !longb_spec in Hw. unfold Sealer.onFeatureActivation.
    pose proof (ir_time s Hr) as Ht. destruct (activation_kept (versions s) a (l1Origin s) (lastL2Timestamp s)) as (_ & _ & _ & A4); [tauto|tauto|unfold is_long, long_min; lia|done|done|].
    by destruct (VersionSwitch.onActivation _ _ _ _).
  - destruct (step_settled s i) as [[(E & _)|(l2 & E & _)] _]; [by destruct i|..]; rewrite E; [done|]. unfold VersionSwitch.atBoundary. cbn. by rewrite !settle_nil.
Qed.

(** ** The replay windows *)

Lemma key_long lane session : is_long (SessionWindows.keyOf lane session).
Proof.
  unfold SessionWindows.keyOf. change 0xFF%Z with (Z.ones 8). change 0xFFFFFFFF%Z with (Z.ones 32). rewrite !Z.land_ones, Z.shiftl_mul_pow2 by done.
  pose proof (Z.mod_pos_bound lane (2 ^ 8) eq_refl). pose proof (Z.mod_pos_bound session (2 ^ 32) eq_refl). apply WindowBits.is_long_lor; unfold is_long, long_min, long_max; lia.
Qed.

Lemma offer_typed slots width a lane session position now keep : is_long now → Forall image_typed a →
  Forall image_typed (spec_offer slots width a (SessionWindows.keyOf lane session) (unit_of position) now keep).1.
Proof.
  intros Hn Ha. pose proof (key_long lane session) as Hk. set (key := SessionWindows.keyOf lane session) in *.
  assert (is_long (unit_of position)) as Hu.
  { unfold unit_of, SessionWindows.UNIT_SHIFT. pose proof (unsigned_bound position). rewrite Z.shiftr_div_pow2 by done. pose proof (Z.div_pos (unsigned position) (2 ^ 5)).
    pose proof (Z.div_lt_upper_bound (unsigned position) (2 ^ 5) (2 ^ 59)). unfold is_long, long_min, long_max. lia. }
  unfold spec_offer. assert (Forall image_typed (place slots a key now).1) as Hp.
  { unfold place. destruct (list_find _ a) as [[i im]|] eqn:E.
    - apply list_find_Some in E as (Hi & _ & _). apply Forall_insert; [done|]. rewrite Forall_lookup in Ha. destruct (Ha i im Hi) as (_ & ? & _). done.
    - destruct (_ <? _)%Z; cbn; [apply Forall_app; split; [done|]; by constructor|by apply Forall_insert]. }
  destruct (place slots a key now) as [a1 i]. cbn in Hp. destruct (a1 !! i) as [im|] eqn:Ei; [|done]. cbn. destruct (decide_unit _ _ _); [|done..]. destruct keep; [|done].
  apply Forall_lookup. intros j x Hj. rewrite Forall_lookup in Hp. destruct (decide (i = j)) as [<-|Hne].
  - rewrite list_lookup_alter_eq, Ei in Hj. injection Hj as <-. destruct (Hp i im Ei) as (H1 & H2 & H3). split_and!; cbn; [done| |done]. unfold is_long in *. lia.
  - rewrite list_lookup_alter_ne in Hj by done. by apply (Hp j).
Qed.

Record windows_ok (s : SealerSt) (a : list Image) : Prop := {
  no_rel : rel (windows s) a;
  no_typed : Forall image_typed a;
  no_sizes : SessionWindows.slots (windows s) = SessionWindows.DEFAULT_SLOTS ∧ SessionWindows.width (windows s) = SessionWindows.DEFAULT_WIDTH;
  no_idle : VersionSwitch.v4 (versions s) = [] → VersionSwitch.carry (versions s) = [] → a = [];
}.

Lemma carried_windows s a lane session position : in_range s → rel (windows s) a → Forall image_typed a → ∃ a', let w := windows (Sealer.onCarriedRef s lane session position).1 in
  rel w a' ∧ Forall image_typed a' ∧ SessionWindows.slots w = SessionWindows.slots (windows s) ∧ SessionWindows.width w = SessionWindows.width (windows s).
Proof.
  intros Hr Hrel Ha. pose proof (onCarriedRef_offer s lane session position) as Ho. pose proof (ir_count s Hr) as Hc.
  pose proof (windows_offer_rel (windows s) a lane session position (canonicalCount s) (negb (halted s)) Hrel) as Hw.
  pose proof (offer_typed (SessionWindows.slots (windows s)) (SessionWindows.width (windows s)) a lane session position (canonicalCount s) (negb (halted s))) as Ht.
  destruct (spec_offer _ _ _ _ _ _ _) as [a' seen']. destruct (windows_offer _ _ _ _ _ _) as [w seen]. destruct (Sealer.onCarriedRef _ _ _ _) as [s1 o]. destruct Ho as [<- _].
  exists a'. destruct Hw as (? & _ & ? & ?). split_and!; try done. apply Ht; [|done]. unfold is_long, long_min. lia.
Qed.

Lemma ref_windows s lane session position id : windows (Sealer.onRef s lane session position id).1 = windows (Sealer.onCarriedRef s lane session position).1.
Proof. unfold Sealer.onRef. by destruct (Sealer.onCarriedRef _ _ _ _) as [s1 []]. Qed.

Lemma windows_kept_step s i a : in_range s → wire i = true → gated s i = true → switch_kept s → windows_ok s a → ∃ a', windows_ok (step s i).1 a'.
Proof.
  intros Hr Hw Hg Hk [W1 W2 [W3 W3'] W4]. destruct (image_of i) as [k|] eqn:Ei.
  - assert (VersionSwitch.v4 (versions s) = [] → VersionSwitch.carry (versions s) = [] → False) as Hbusy.
    { intros E4 Ec. destruct (sk_off _ (wk_ok s Hk) E4 Ec) as [_ Ev]. destruct i; try done; cbn [gated] in Hg; by rewrite Ev in Hg. }
    assert (versions (step s i).1 = versions s) as Ev by (destruct i; try done; cbn [step]; sealer_op).
    assert (∃ lane session position, windows (step s i).1 = windows (Sealer.onCarriedRef s lane session position).1) as (lane & session & position & Ew).
    { destruct i; try done; cbn [step]; [|by exists lane, session, position; destruct (Sealer.onCarriedRef _ _ _ _)].
      exists lane, session, position. rewrite <-(ref_windows _ _ _ _ id). by destruct (Sealer.onRef _ _ _ _ _). }
    destruct (carried_windows s a lane session position Hr W1 W2) as (a' & A1 & A2 & A3 & A4). rewrite <-Ew in *. exists a'.
    split; [done|done|by rewrite A3, A4|]. rewrite Ev. intros E4 Ec. by destruct (Hbusy E4 Ec).
  - exists a. split; rewrite ?step_windows by done; try done. intros E4 Ec. destruct (idle_before s i Hr Hw Hk E4 Ec). by apply W4.
Qed.

(** ** The invariant *)

(** What the service keeps of a state, beside [sealer_ok]. *)
Record kept (s : SealerSt) : Prop := {
  kp_ids : Forall id_typed (dedup s);
  kp_senders : Forall sender_typed (expectedNonce s);
  kp_peers : peers_ok s;
  kp_voids : voids_ok s;
  kp_rules : schedule_typed (DecisionRules.activations (rules s)) ∧ is_long (DecisionRules.sealedOrigin (rules s)) ∧ is_long (lastBoundaryCount s);
  kp_switch : switch_kept s;
  kp_windows : ∃ a, windows_ok s a;
  kp_budget : RecordedCursors.budget (recorded s) = 0%Z;
  kp_digest : (seedDigest s < 256 ^ 32)%N;
}.

Lemma step_budget s i : RecordedCursors.budget (recorded (step s i).1) = RecordedCursors.budget (recorded s).
Proof.
  destruct i; try (by rewrite step_recorded); cbn [step]. unfold caught, Sealer.onRecordedCursor. destruct (negb _); [done|]. destruct (ule _ _); [done|].
  unfold RecordedCursors.onCursor. by destruct (_ <=? _)%Z.
Qed.

Lemma step_digest s i : seedDigest (step s i).1 = seedDigest s.
Proof. destruct i; cbn [step]; sealer_op. Qed.

Lemma rules_step s i : in_range s →
  schedule_typed (DecisionRules.activations (rules s)) ∧ is_long (DecisionRules.sealedOrigin (rules s)) ∧ is_long (lastBoundaryCount s) →
  schedule_typed (DecisionRules.activations (rules (step s i).1)) ∧ is_long (DecisionRules.sealedOrigin (rules (step s i).1)) ∧ is_long (lastBoundaryCount (step s i).1).
Proof.
  intros Hr (H1 & H2 & H3). destruct (match i with IFeature _ => true | _ => false end) eqn:Hf.
  { destruct i; try done. cbn [step]. unfold Sealer.onFeatureActivation. by destruct (VersionSwitch.onActivation _ _ _ _). }
  pose proof (ir_origin s Hr). pose proof (ir_count s Hr).
  destruct (step_settled s i) as [[(_ & -> & ->)|(l2 & _ & -> & ->)] _]; [by destruct i|done|]. cbn. split; [done|]. unfold is_long, long_min. lia.
Qed.

Lemma served_kept s i : in_range s → in_range (step s i).1 → (canonicalCount s ≤ canonicalCount (step s i).1)%Z → wire i = true → gated s i = true → kept s → kept (step s i).1.
Proof.
  intros Hr Hr1 Hle Hw Hg [K1 K2 K3 K4 K5 K6 [a K7] K8 K9]. split.
  - by apply ids_step.
  - apply senders_typed_step; [done|apply (ct_nonces _ (vk_cells _ K4))|done].
  - by apply peers_step.
  - by apply voids_step.
  - by apply rules_step.
  - by apply switch_step.
  - by eapply windows_kept_step.
  - by rewrite step_budget.
  - by rewrite step_digest.
Qed.

Lemma wire_typed i : wire i = true → typed i.
Proof. destruct i; cbn [wire typed]; rewrite ?andb_true_iff, ?longb_spec; tauto. Qed.

Lemma kept_run s tr s' : run s tr s' → served s tr.*1 = true → sealer_ok s → kept s → sealer_ok s' ∧ kept s'.
Proof.
  induction 1 as [s Hr|s i s1 o tr s2 Hr Ht Hs Hrun IH]; intros Hsv Hok Hk; [done|]. cbn [fmap list_fmap served fst] in Hsv. rewrite Hs in Hsv. rewrite !andb_true_iff in Hsv.
  destruct Hsv as [[Hw Hg] Hsv]. pose proof (run_start _ _ _ Hrun) as Hr1. pose proof (sealer_ok_step s i o s1 Hr Hr1 Ht Hs Hok) as Hok1.
  destruct (replay_step s i s1 o Hr Hr1 (so_counted s Hok) Ht Hs) as [Hrep _]. apply replay_index in Hrep as [Hle _]. cbn in Hle.
  apply IH; [done|done|]. assert (s1 = (step s i).1) as E by by rewrite Hs. rewrite E in *. by apply served_kept.
Qed.

(** ** The markers of a window *)

(** [X] has the ids of epochs and batches, which skip the cap. The others are within
    it; a deadline has at most two markers, and that of the open block one while the
    block holds a record, else none. *)
Record marked (s : SealerSt) (X : gset B256) : Prop := {
  mr_records : (Z.of_nat (length (filter (λ e, e.1 ∉ X) (dedup s))) ≤ dedupCapacity (conf s))%Z;
  mr_markers : ∀ d, (length (filter (λ e, e.1 ∈ X ∧ e.2 = d) (dedup s)) ≤ 2)%nat;
  mr_open : (length (filter (λ e, e.1 ∈ X ∧ e.2 = (blockNumber s + inclusionHorizonBlocks (conf s))%Z) (dedup s)) ≤
    if (lastBoundaryCount s <? canonicalCount s)%Z then 1 else 0)%nat;
}.

Lemma filter_filter_length {A} (P Q : A → Prop) `{!∀ x, Decision (P x), !∀ x, Decision (Q x)} (l : list A) : (length (filter P (filter Q l)) ≤ length (filter P l))%nat.
Proof.
  induction l as [|x l IH]; [done|]. rewrite (filter_cons Q), (filter_cons P). destruct (decide (Q x)); [rewrite filter_cons|]; destruct (decide (P x)); cbn; lia.
Qed.

(** The window shrinks, in the same block. *)
Lemma marked_shrink s s1 X (Q : B256 * Z → Prop) `{!∀ e, Decision (Q e)} : conf s1 = conf s → blockNumber s1 = blockNumber s → lastBoundaryCount s1 = lastBoundaryCount s →
  (canonicalCount s ≤ canonicalCount s1)%Z → dedup s1 = filter Q (dedup s) → marked s X → marked s1 X.
Proof.
  intros Ec Eb El Hc Ed [M1 M2 M3]. split; rewrite ?Ec, ?Eb, ?El, Ed.
  - pose proof (filter_filter_length (λ e, e.1 ∉ X) Q (dedup s)). lia.
  - intros d. pose proof (filter_filter_length (λ e, e.1 ∈ X ∧ e.2 = d) Q (dedup s)). pose proof (M2 d). lia.
  - pose proof (filter_filter_length (λ e, e.1 ∈ X ∧ e.2 = (blockNumber s + inclusionHorizonBlocks (conf s))%Z) Q (dedup s)).
    destruct (Z.ltb_spec (lastBoundaryCount s) (canonicalCount s)), (Z.ltb_spec (lastBoundaryCount s) (canonicalCount s1)); lia.
Qed.

Lemma filter_true {A} (l : list A) : filter (λ _, True) l = l.
Proof. induction l as [|x l IH]; [done|]. by rewrite filter_cons, IH. Qed.

Lemma marked_same s s1 X : conf s1 = conf s → blockNumber s1 = blockNumber s → lastBoundaryCount s1 = lastBoundaryCount s →
  (canonicalCount s ≤ canonicalCount s1)%Z → dedup s1 = dedup s → marked s X → marked s1 X.
Proof. intros Ec Eb El Hc Ed. apply (marked_shrink s s1 X (λ _, True)); [done..|by rewrite filter_true]. Qed.

Lemma filter_none {A} (P : A → Prop) `{!∀ x, Decision (P x)} (l : list A) : (∀ x, x ∈ l → ¬ P x) → filter P l = [].
Proof. intros Hn. induction l as [|x l IH]; [done|]. rewrite filter_cons, decide_False by (apply Hn; left). apply IH. intros y Hy. apply Hn. by right. Qed.

(** A boundary leaves no marker with the deadline of the new block. *)
Lemma marked_tick s s1 X clock : window_ok s → within_horizon (blockNumber s + inclusionHorizonBlocks (conf s)) s →
  conf s1 = conf s → (blockNumber s < blockNumber s1)%Z → dedup s1 = dedup (Sealer.onTick s clock).1 →
  (Z.of_nat (length (filter (λ e, e.1 ∉ X) (dedup s))) ≤ dedupCapacity (conf s))%Z → (∀ d, (length (filter (λ e, e.1 ∈ X ∧ e.2 = d) (dedup s)) ≤ 2)%nat) → marked s1 X.
Proof.
  intros Hok Hh Ec Eb Ed M1 M2. rewrite (tick_dedup s clock Hok) in Ed. set (Q := λ e : B256 * Z, ¬ (e.2 < long_add (blockNumber s) 1)%Z) in Ed.
  split; rewrite ?Ec, Ed.
  - pose proof (filter_filter_length (λ e, e.1 ∉ X) Q (dedup s)). lia.
  - intros d. pose proof (filter_filter_length (λ e, e.1 ∈ X ∧ e.2 = d) Q (dedup s)). pose proof (M2 d). lia.
  - rewrite filter_none; [cbn; lia|]. intros [id d] [_ Hin]%list_elem_of_filter [_ E]. cbn in E. apply (lhm_get_Some id d) in Hin; [|apply Hok]. apply Hh in Hin. lia.
Qed.

(** A record that the window has room for. *)
Lemma marked_record s s1 X id d : Sealer.contains s id = false → Sealer.dedupFull s = false → conf s1 = conf s → blockNumber s1 = blockNumber s → lastBoundaryCount s1 = lastBoundaryCount s →
  (canonicalCount s ≤ canonicalCount s1)%Z → dedup s1 = dedup (Sealer.insertFresh s id d) → marked s X → marked s1 (X ∖ {[id]}).
Proof.
  intros Hnew Hfull Ec Eb El Hc Ed [M1 M2 M3]. apply window_contains_false in Hnew. unfold Sealer.dedupFull in Hfull. apply Z.leb_gt in Hfull.
  assert (dedup s1 = dedup s ++ [(id, Z.min d (Sealer.assignedDeadline s))]) as Ed' by (rewrite Ed; cbn; by rewrite lhm_put_fresh).
  assert (∀ x, filter (λ e, e.1 ∈ X ∖ {[id]} ∧ e.2 = x) (dedup s1) = filter (λ e, e.1 ∈ X ∧ e.2 = x) (dedup s)) as Hf.
  { intros x. rewrite Ed', filter_app, filter_cons, decide_False by (cbn; set_solver). rewrite filter_nil, app_nil_r. apply filter_in. intros [id' d'] Hin. cbn.
    apply lhm_get_None in Hnew. assert (id' ≠ id) by (intros ->; apply Hnew, list_elem_of_fmap; by exists (id, d')). set_solver. }
  split; rewrite ?Ec, ?Eb, ?El.
  - pose proof (length_filter (λ e, e.1 ∉ X ∖ {[id]}) (dedup s1)) as Hl. rewrite Ed', length_app in Hl. rewrite Ed'. cbn in Hl. lia.
  - intros x. rewrite Hf. apply M2.
  - rewrite Hf. destruct (Z.ltb_spec (lastBoundaryCount s) (canonicalCount s)), (Z.ltb_spec (lastBoundaryCount s) (canonicalCount s1)); lia.
Qed.

(** An epoch or a batch at the head of a block. *)
Lemma marked_lead s X id clock s1 : in_range s → (blockNumber s + inclusionHorizonBlocks (conf s) ≤ long_max)%Z → sealer_ok s → Sealer.contains s id = false →
  let f := (Sealer.forceBoundary (Sealer.insertFresh s id (Sealer.assignedDeadline s)) clock).1 in
  (0 ≤ blockNumber f)%Z → conf s1 = conf s → blockNumber s1 = blockNumber f → lastBoundaryCount s1 = lastBoundaryCount f → (canonicalCount f < canonicalCount s1)%Z → dedup s1 = dedup f →
  marked s X → marked s1 ({[id]} ∪ X).
Proof.
  intros Hr Hno Hok Hnew f Hb0 Ec Eb El Hc Ed [M1 M2 M3]. pose proof (assignedDeadline_eq s Hr) as Ea. rewrite Z.min_r in Ea by lia.
  pose proof (insertFresh_ok s id (Sealer.assignedDeadline s) Hnew (so_window s Hok)) as Hok'. apply window_contains_false in Hnew. set (s' := Sealer.insertFresh s id _) in *.
  assert (dedup s' = dedup s ++ [(id, Sealer.assignedDeadline s)]) as Ed' by (cbn; by rewrite Z.min_id, lhm_put_fresh).
  assert (id ∉ (dedup s).*1) as Hout by by apply lhm_get_None.
  assert (∀ x, length (filter (λ e, e.1 ∈ {[id]} ∪ X ∧ e.2 = x) (dedup s')) = length (filter (λ e, e.1 ∈ X ∧ e.2 = x) (dedup s)) + (if decide (x = Sealer.assignedDeadline s) then 1 else 0))%nat as Hf.
  { intros x. rewrite Ed', filter_app, length_app. f_equal.
    - f_equal. apply filter_in. intros [id' d'] Hin. cbn. assert (id' ≠ id) by (intros ->; apply Hout, list_elem_of_fmap; by exists (id, d')). set_solver.
    - rewrite filter_cons. cbn. destruct (decide (x = Sealer.assignedDeadline s)) as [->|Hx]; [by rewrite decide_True by set_solver|]. rewrite decide_False; [done|]. intros [_ ?]. by subst x. }
  assert (Z.of_nat (length (filter (λ e, e.1 ∉ {[id]} ∪ X) (dedup s'))) ≤ dedupCapacity (conf s))%Z as Hrec.
  { rewrite Ed', filter_app, (filter_cons _ (id, _)), decide_False, filter_nil, app_nil_r by (cbn; set_solver).
    erewrite (filter_in _ (λ e, e.1 ∉ X)); [exact M1|]. intros [id' d'] Hin. cbn. assert (id' ≠ id) by (intros ->; apply Hout, list_elem_of_fmap; by exists (id, d')). set_solver. }
  assert (∀ x, length (filter (λ e, e.1 ∈ {[id]} ∪ X ∧ e.2 = x) (dedup s')) ≤ 2)%nat as Htwo.
  { intros x. rewrite Hf. pose proof (M2 x). destruct (decide (x = Sealer.assignedDeadline s)) as [->|Hx]; [|lia]. rewrite Ea in *. destruct (_ <? _)%Z in M3; lia. }
  unfold f, Sealer.forceBoundary in *. change (lastBoundaryCount s') with (lastBoundaryCount s) in *. change (canonicalCount s') with (canonicalCount s) in *.
  pose proof (so_counted s Hok) as Hcnt. unfold counted in Hcnt. destruct (Z.ltb_spec (lastBoundaryCount s) (canonicalCount s)) as [Hlt|Hge].
  - apply (marked_tick s' s1 _ clock); try done.
    + intros id' d'. unfold s'. rewrite insertFresh_get. case_decide; [intros [= <-]; change (conf (Sealer.insertFresh s id _)) with (conf s); cbn; lia|apply (so_horizon s Hok)].
    + rewrite Eb. change (0 ≤ long_add (blockNumber s) 1)%Z in Hb0. change (blockNumber s < long_add (blockNumber s) 1)%Z. pose proof (ir_block s Hr).
      rewrite long_add_nonneg by (done || (unfold long_max; lia)). lia.
  - cbn [fst] in *. split; rewrite ?Ec, ?Ed; [done|done|]. rewrite Eb, El. change (blockNumber s') with (blockNumber s). rewrite Hf. rewrite decide_True by done.
    change (lastBoundaryCount s') with (lastBoundaryCount s). rewrite (proj2 (Z.ltb_lt _ _)) by (cbn in Hc; lia). lia.
Qed.

Lemma record_marked s X id a n d p : (canonicalCount s ≤ canonicalCount (Sealer.onRecord s id a n d p).1)%Z → marked s X → ∃ X', marked (Sealer.onRecord s id a n d p).1 X'.
Proof.
  intros Hc Hm. unfold Sealer.onRecord in *. destruct (Sealer.contains s id) eqn:Ec; [eauto|]. destruct (_ <? _)%Z; [eauto|]. destruct (_ && Sealer.recordLagHalted s); [eauto|].
  destruct (_ && Sealer.daLagHalted s); [eauto|]. destruct (Sealer.dedupFull s) eqn:Ef; [eauto|].
  destruct (negb _); [destruct (lru_get _ _) as [nonces [e|]]; [destruct (negb _)|]|]; [by exists X; eapply marked_same; [..|exact Hm]| | |];
    exists (X ∖ {[id]}); eapply (marked_record s _ X id d Ec Ef); done.
Qed.

Lemma remote_slots firstSeq lastSeq : ult (long_max - 2) (long_sub lastSeq firstSeq) = false → (0 < long_add (long_sub lastSeq firstSeq) 2 ≤ long_max)%Z.
Proof.
  intros Hu. unfold ult in Hu. apply Z.ltb_ge in Hu. rewrite (unsigned_nonneg (long_max - 2)) in Hu by (unfold long_max; lia). set (span := long_sub lastSeq firstSeq) in *.
  pose proof (unsigned_bound span). rewrite (unsigned_small span); [|apply to_long_is_long|lia]. rewrite long_add_small; unfold long_max in *; lia.
Qed.

Lemma force_conf s c : conf (Sealer.forceBoundary s c).1 = conf s.
Proof. unfold Sealer.forceBoundary. by destruct (_ <? _)%Z. Qed.

Lemma origin_marked s X id o n p c : in_range s → in_range (step s (IOrigin id o n p c)).1 → is_long n → (blockNumber s + inclusionHorizonBlocks (conf s) ≤ long_max)%Z → sealer_ok s →
  marked s X → ∃ X', marked (step s (IOrigin id o n p c)).1 X'.
Proof.
  cbn [step]. unfold caught, Sealer.onOriginRecord. intros Hr Hr1 Hn Hno Hok Hm. destruct (Z.ltb_spec n 1); [eauto|]. destruct (Sealer.contains s id) eqn:Ec; [eauto|].
  destruct (_ <=? _)%Z; [eauto|]. destruct (_ && _); [eauto|]. exists ({[id]} ∪ X). pose proof (marked_lead s X id c) as Hl.
  destruct (force_fields (Sealer.insertFresh s id (Sealer.assignedDeadline s)) c) as (F1 & _ & _).
  pose proof (force_conf (Sealer.insertFresh s id (Sealer.assignedDeadline s)) c) as Ecf. destruct (Sealer.forceBoundary _ _) as [f forced]. cbn [fst] in *.
  apply Hl; try done; [apply Hr1|]. pose proof (ir_count _ Hr1) as [Hc1 _]. pose proof (ir_count s Hr). cbn in *. unfold is_long in Hn. rewrite F1 in *.
  rewrite long_add_nonneg in * by (unfold long_max in *; lia). lia.
Qed.

Lemma remote_marked s X id ch an n f l p c : in_range s → in_range (step s (IRemote id ch an n f l p c)).1 → (blockNumber s + inclusionHorizonBlocks (conf s) ≤ long_max)%Z → sealer_ok s →
  marked s X → ∃ X', marked (step s (IRemote id ch an n f l p c)).1 X'.
Proof.
  cbn [step]. unfold Sealer.onRemoteOriginRecord. intros Hr Hr1 Hno Hok Hm. destruct (Sealer.contains s id) eqn:Ec; [eauto|]. destruct (bool_decide _); [eauto|]. destruct (ult l f); [eauto|].
  destruct (ult (long_max - 2) _) eqn:Eu; [eauto|]. apply remote_slots in Eu. destruct (Z.eqb_spec n (long_add (long_sub l f) 2)) as [->|]; [|eauto]. cbn [negb] in *.
  set (m := match lhm_get ch _ with Some _ => _ | None => false end) in *. destruct m; [eauto|]. set (r := match lhm_get ch _ with Some _ => _ | None => false end) in *. destruct r; [eauto|].
  exists ({[id]} ∪ X). pose proof (marked_lead s X id c) as Hl. destruct (force_fields (Sealer.insertFresh s id (Sealer.assignedDeadline s)) c) as (F1 & _ & _).
  pose proof (force_conf (Sealer.insertFresh s id (Sealer.assignedDeadline s)) c) as Ecf. destruct (Sealer.forceBoundary _ _) as [f' forced]. cbn [fst] in *.
  apply Hl; try done; [apply Hr1|]. pose proof (ir_count _ Hr1) as [Hc1 _]. pose proof (ir_count s Hr). cbn in *. rewrite F1 in *.
  rewrite long_add_nonneg in * by (unfold long_max in *; lia). lia.
Qed.

Lemma marked_step s i X : in_range s → in_range (step s i).1 → typed i → (blockNumber s + inclusionHorizonBlocks (conf s) ≤ long_max)%Z → sealer_ok s →
  (canonicalCount s ≤ canonicalCount (step s i).1)%Z → marked s X → ∃ X', marked (step s i).1 X'.
Proof.
  intros Hr Hr1 Ht Hno Hok Hc Hm. destruct i.
  - cbn [step] in *. pose proof (record_marked s X id sender nonce deadline payload) as Hs. destruct (Sealer.onRecord _ _ _ _ _ _). by apply Hs.
  - exists X. cbn [step] in *. unfold Sealer.onVoidRequest, Sealer.appendVoid, Sealer.forget in *. destruct (VoidLedger.onVote _ _ _ _ _) as [v tally].
    destruct (VoidLedger.entry tally) as [e|]; [|by eapply marked_same; [..|exact Hm]]. cbn [dedup with_voids] in *.
    destruct (lhm_get _ _); [by eapply (marked_shrink s _ X (λ x, x.1 ≠ VoidLedger.e_id e)); [..|exact Hm]|by eapply marked_same; [..|exact Hm]].
  - exists X. eapply marked_same; [apply step_conf| | |done| |exact Hm]; cbn [step]; sealer_op.
  - exists X. eapply marked_same; [apply step_conf| | |done| |exact Hm]; cbn [step]; sealer_op.
  - exists X. destruct Hm as [M1 M2 M3]. apply (marked_tick s _ X clock); [apply (so_window s Hok)|apply (so_horizon s Hok)|apply step_conf| |done|done|done].
    pose proof (ir_block _ Hr1) as [Hb _]. rewrite tick_step, onTick_block in *. rewrite long_add_nonneg; [lia|apply Hr|done|done].
  - by eapply origin_marked; [..|exact Hm]; try apply Ht.
  - by eapply remote_marked.
  - exists X. eapply marked_same; [apply step_conf| | |done| |exact Hm]; cbn [step]; sealer_op.
  - exists X. eapply marked_same; [apply step_conf| | |done| |exact Hm]; cbn [step]; sealer_op.
  - exists X. eapply marked_same; [apply step_conf| | |done| |exact Hm]; cbn [step]; sealer_op.
  - exists X. eapply marked_same; [apply step_conf| | |done| |exact Hm]; cbn [step]; sealer_op.
Qed.

Lemma filter_split {A} (P Q : A → Prop) `{!∀ x, Decision (P x), !∀ x, Decision (Q x)} (l : list A) : (∀ x, Q x ↔ ¬ P x) → length l = (length (filter P l) + length (filter Q l))%nat.
Proof.
  intros Hq. induction l as [|x l IH]; [done|]. rewrite !filter_cons. destruct (decide (P x)) as [Hp|Hp], (decide (Q x)) as [Hx|Hx]; cbn; rewrite ?IH; try lia.
  - by apply Hq in Hx.
  - by destruct Hx; apply Hq.
Qed.

(** At most two for each of [n] values. *)
Lemma two_each (l : list (B256 * Z)) lo n : (∀ d, (length (filter (λ e, e.2 = d) l) ≤ 2)%nat) → (∀ e, e ∈ l → (lo ≤ e.2 < lo + Z.of_nat n)%Z) → (length l ≤ 2 * n)%nat.
Proof.
  revert l. induction n as [|n IH]; intros l H2 Hl; [destruct l as [|e l]; [done|]; pose proof (Hl e ltac:(left)); lia|].
  rewrite (filter_split (λ e, e.2 = lo + Z.of_nat n)%Z (λ e, e.2 ≠ lo + Z.of_nat n)%Z) by done. pose proof (H2 (lo + Z.of_nat n)%Z).
  assert (length (filter (λ e, e.2 ≠ lo + Z.of_nat n)%Z l) ≤ 2 * n)%nat; [|lia]. apply IH.
  - intros d. etrans; [apply filter_filter_length|apply H2].
  - intros e [Hne He]%list_elem_of_filter. pose proof (Hl e He). lia.
Qed.

Lemma marked_size s X : in_range s → sealer_ok s → marked s X →
  (Z.of_nat (length (dedup s)) ≤ dedupCapacity (conf s) + 2 * (inclusionHorizonBlocks (conf s) + 1))%Z.
Proof.
  intros Hr Hok [M1 M2 _]. rewrite (filter_split (λ e, e.1 ∈ X) (λ e, e.1 ∉ X)) by done. pose proof (ir_horizon s Hr).
  assert (length (filter (λ e, e.1 ∈ X) (dedup s)) ≤ 2 * Z.to_nat (inclusionHorizonBlocks (conf s) + 1))%nat; [|lia]. apply (two_each _ (blockNumber s)).
  - intros d. rewrite list_filter_filter. rewrite (filter_in _ (λ e, e.1 ∈ X ∧ e.2 = d)); [apply M2|]. intros e _. tauto.
  - intros [id d] [_ Hin]%list_elem_of_filter. apply (lhm_get_Some id d) in Hin; [|apply (so_window s Hok)]. cbn. pose proof (so_live s Hok id d Hin). pose proof (so_horizon s Hok id d Hin). lia.
Qed.

Lemma run_blocks s tr s' : run s tr s' → counted s → (blockNumber s ≤ blockNumber s')%Z ∧ conf s' = conf s.
Proof.
  induction 1 as [s Hr|s i s1 o tr s2 Hr Ht Hs Hrun IH]; intros Hc; [done|]. pose proof (run_start _ _ _ Hrun) as Hr1.
  destruct (replay_step s i s1 o Hr Hr1 Hc Ht Hs) as [Hrep Hc1]. apply replay_index in Hrep as [_ Hb]. cbn in Hb. destruct (IH Hc1) as [H1 ->].
  split; [lia|]. replace s1 with (step s i).1 by by rewrite Hs. apply step_conf.
Qed.

Lemma run_marked s tr s' X : run s tr s' → sealer_ok s → (blockNumber s' + inclusionHorizonBlocks (conf s') ≤ long_max)%Z → marked s X → ∃ X', marked s' X'.
Proof.
  intros Hrun. revert X. induction Hrun as [s Hr|s i s1 o tr s2 Hr Ht Hs Hrun IH]; intros X Hok Hno Hm; [eauto|]. pose proof (run_start _ _ _ Hrun) as Hr1.
  pose proof (sealer_ok_step s i o s1 Hr Hr1 Ht Hs Hok) as Hok1. destruct (replay_step s i s1 o Hr Hr1 (so_counted s Hok) Ht Hs) as [Hrep _]. apply replay_index in Hrep as [Hle Hb]. cbn in Hle, Hb.
  destruct (run_blocks s1 tr s2 Hrun (so_counted s1 Hok1)) as [Hb2 Ec]. assert (s1 = (step s i).1) as E by by rewrite Hs.
  destruct (marked_step s i X) as [X' Hm1]; rewrite <-?E; try done; [|apply (IH X' Hok1 Hno); by rewrite E].
  rewrite Ec, E, step_conf in Hno. lia.
Qed.

(** ** A start *)

(** Settings that the types and the configuration of a member allow. *)
Record member_ok (m : Member) : Prop := {
  mk_room : is_int (m_dedupCapacity m + MARKER_SLACK);
  mk_window : is_int (m_orderingWindow m);
  mk_origins : is_int (Z.of_nat (size (m_remoteOrigins m)));
  mk_voids : (0 ≤ VoidLedger.capacity (m_voidConfig m) < 2 ^ 31)%Z ∧ is_long (VoidLedger.voterMask (m_voidConfig m));
  mk_budget : recordLagRecords (m_budgets m) = 0%Z;
}.

(** The values that [parse_seed] lets through. *)
Record seed_typed (sd : Sealer.SealerSeed) : Prop := {
  sd_block : (0 < Sealer.h_block (Sealer.head sd) < long_max)%Z;
  sd_end : (0 ≤ Sealer.h_endTxIdx (Sealer.head sd) ≤ long_max)%Z;
  sd_senders : Forall sender_typed (Sealer.seed_senders sd);
  sd_digest : (Sealer.digest sd < 256 ^ 32)%N;
}.

(** The state is one of the member. *)
Record of_member (m : Member) (file : bool) (s : SealerSt) : Prop := {
  om_member : member_of s = m;
  om_file : VersionSwitch.fileStore (versions s) = file;
  om_window : (0 ≤ orderingWindow (conf s))%Z;
}.

Lemma step_file s i : VersionSwitch.fileStore (versions (step s i).1) = VersionSwitch.fileStore (versions s).
Proof.
  destruct (match i with IFeature _ => true | _ => false end) eqn:Hf.
  - destruct i; try done. cbn [step]. unfold Sealer.onFeatureActivation, VersionSwitch.onActivation. by repeat case_match; simplify_eq.
  - destruct (step_settled s i) as [[(-> & _)|(l2 & -> & _)] _]; [by destruct i|done..].
Qed.

Lemma of_member_step m file s i : of_member m file s → of_member m file (step s i).1.
Proof. intros [H1 H2 H3]. split; [|by rewrite step_file|by rewrite step_conf]. rewrite <-H1. unfold member_of. by rewrite step_conf, step_cfg, step_budget. Qed.

Lemma of_member_run m file s tr s' : run s tr s' → of_member m file s → of_member m file s'.
Proof. intros Hrun. apply (run_invariant (of_member m file) s tr s'); [|done]. intros s1 i o s2 _ _ _ _ Hs Hm. replace s2 with (step s1 i).1 by by rewrite Hs. by apply of_member_step. Qed.

(** A state that has taken no entry yet. *)
Definition first_state (m : Member) (file : bool) (w : SessionWindows.t) nonces posted st dg count block origin ts : SealerSt :=
  mkSt (mkSealerConfig (m_dedupCapacity m) (m_inclusionHorizonBlocks m) (m_orderingWindow m) (m_remoteOrigins m) (daLagBlocks (m_budgets m))) [] ∅ nonces []
    (VoidLedger.new (m_voidConfig m)) (RecordedCursors.new (recordLagRecords (m_budgets m))) posted st dg DecisionRules.start
    (VersionSwitch.set_fileStore VersionSwitch.start file) w count block origin ts count.

Lemma new_ledger_ok c count : (0 ≤ VoidLedger.capacity c < 2 ^ 31)%Z → ledger_ok (VoidLedger.new c) count ∧ cells_typed (VoidLedger.new c).
Proof.
  intros Hc. split.
  - split; cbn; rewrite ?length_replicate; try done; [|apply NoDup_nil_2|by intros i k ?%elem_of_nil]. intros k i [-> _]%lookup_replicate Hi. done.
  - split; cbn; [by apply Forall_replicate..|done].
Qed.

Lemma first_ok m file w nonces posted st dg count block origin ts :
  let s := first_state m file w nonces posted st dg count block origin ts in
  member_ok m → SessionWindows.new SessionWindows.DEFAULT_SLOTS SessionWindows.DEFAULT_WIDTH = Ok w → (0 < m_dedupCapacity m)%Z → (0 ≤ m_orderingWindow m)%Z →
  lru_ok (m_dedupCapacity m) nonces → Forall sender_typed nonces → (0 ≤ posted < block)%Z → (dg < 256 ^ 32)%N → (0 ≤ count ≤ long_max)%Z →
  sealer_ok s ∧ kept s ∧ of_member m file s.
Proof.
  intros s [M1 M2 M3 [M4 M4'] M5] Hw Hcap Hwin Hlru Hty Hpost Hdg Hcount. destruct (new_rel _ _ _ Hw) as (Hrel & Hsl & Hwd).
  destruct (new_ledger_ok (m_voidConfig m) count M4) as [L1 L2]. split; [|split].
  - split; try done.
    + by apply window_ok_empty.
    + unfold counted. cbn. lia.
    + cbn. rewrite M5. split; cbn; [unfold RecordedCursors.NONE; lia|done|done].
    + by exists [].
  - split; try done.
    + split; [constructor|apply NoDup_nil_2|]. by intros ch ?%elem_of_nil.
    + split_and!; [split; [cbn; lia|constructor]|done|]. cbn. unfold is_long, long_min. lia.
    + split; [split; try done; intros []; (split; [cbn; lia|constructor])|split; try done|]. cbn. apply ule_le. change (unsigned 0) with 0%Z. apply unsigned_bound.
    + exists []. by split.
  - split; try done. unfold member_of, s, first_state. cbn. destruct m as [? ? ? ? ? []]. cbn in *. done.
Qed.

Lemma seed_nonces cap (l : list (Address * Z)) : (0 < cap)%Z → Forall sender_typed l →
  let m := fold_left (λ m e, lru_put cap e.1 e.2 m) l [] in lru_ok cap m ∧ Forall sender_typed m.
Proof.
  intros Hc. induction l as [|[a n] l IH] using rev_ind; intros Hl; cbv zeta; [split; [split; [apply NoDup_nil_2|cbn; lia]|constructor]|].
  apply Forall_app in Hl as [Hl Hx]. destruct (IH Hl) as [H1 H2]. rewrite fold_left_app. cbn [fold_left fst snd]. split; [by apply lru_put_ok|].
  rewrite Forall_singleton in Hx. rewrite Forall_forall in *. intros e [->|He]%lru_put_elem; [done|by apply H2].
Qed.

Lemma start_ok m file seed s : member_ok m → (∀ sd, seed = Some sd → seed_typed sd) → seededFrom m seed = Ok seed → start m file seed None = Ok s →
  sealer_ok s ∧ kept s ∧ of_member m file s.
Proof.
  intros Hm Hsd Hs Hst. cbn [start] in Hst. unfold Sealer.seeded, Sealer.new in Hst.
  destruct seed as [sd|]; (destruct (Z.leb_spec (m_dedupCapacity m) 0); [done|]); (destruct (_ <=? _)%Z; [done|]); (destruct (Z.ltb_spec (m_orderingWindow m) 0); [done|]);
    (destruct (SessionWindows.new _ _) as [w|] eqn:Ew; [|done]); injection Hst as <-.
  - unfold seededFrom in Hs. destruct (bool_decide _) eqn:E; [|done]. apply bool_decide_eq_true in E. destruct (Hsd sd eq_refl) as [S1 S2 S3 S4].
    destruct (seed_nonces (m_dedupCapacity m) (Sealer.seed_senders sd)) as [N1 N2]; [lia|done|].
    pose proof (first_ok m file w _ (Sealer.h_block (Sealer.head sd)) PENDING (Sealer.digest sd) (Sealer.h_endTxIdx (Sealer.head sd)) (long_add (Sealer.h_block (Sealer.head sd)) 1)
      (Sealer.h_l1Origin (Sealer.head sd)) (Sealer.h_l2Timestamp (Sealer.head sd)) Hm Ew ltac:(done) ltac:(done) N1 N2) as Hf.
    unfold first_state in Hf. rewrite E in Hf. apply Hf; [rewrite long_add_small; lia|done|done].
  - apply (first_ok m file w [] 0 GENESIS 0 0 GENESIS_BLOCK_NUMBER 0 0); try done. split; [apply NoDup_nil_2|cbn; lia].
Qed.

(** The markers beside the records of a full window have their slack. *)
Definition fits (s : SealerSt) : Prop := (Z.of_nat (length (dedup s)) ≤ dedupCapacity (conf s) + MARKER_SLACK)%Z.

Lemma kept_typed m file s : member_ok m → of_member m file s → sealer_ok s → kept s → fits s → typed_state s.
Proof.
  intros [M1 M2 M3 [M4 M4'] M5] [<- <- Hwin] Hok [K1 K2 [P1 P2 P3] [V1 V2 V3] (R1 & R2 & R3) [W1 W2 W3] [a [A1 A2 A3 A4]] K8 K9] Hfits. cbn in *.
  split; try done.
  - split_and!; try done. assert (length (remoteOrigins s) ≤ size (remoteOriginAllowlist (conf s)))%nat; [|unfold is_int in *; lia].
    rewrite <-(length_fmap fst), <-(size_list_to_set (C := gset Z)) by done. apply subseteq_size. intros ch Hch%elem_of_list_to_set. by apply P3.
  - split; [done|]. destruct V2. split; try done. split; [done|]. pose proof (so_votes s Hok) as Hv. unfold VoidLedger.MAX_OPEN_VOTES in Hv. unfold is_int. lia.
Qed.

(** A snapshot of a state, taken over by a member of the same settings. *)
Lemma restart_agrees m file s retention : member_ok m → of_member m file s → in_range s → sealer_ok s → kept s → fits s →
  ∃ s', restore m file (snapshot s ++ retention) = Ok s' ∧ agree s s' ∧ RecordedCursors.best (recorded s') = RecordedCursors.NONE ∧ voids s' = rebuilt (voids s) (canonicalCount s).
Proof.
  intros Hm Hof Hr Hok Hk Hfits. pose proof (kept_typed m file s Hm Hof Hok Hk Hfits) as Ht. destruct (kp_windows s Hk) as [a [A1 A2 A3 A4]]. destruct (kp_switch s Hk) as [W1 W2 W3].
  destruct (load_snapshot s a Hok Hr Ht W2 A1 A2 A4) as (b & u & w & Hread & Hwin & Hload & Hrel & Hsl & Hwd). destruct (kp_voids s Hk) as [V1 V2 V3].
  destruct (rebuilt_agrees (voids s) (canonicalCount s) V1) as (V4 & V5 & _). pose proof (kp_budget s Hk) as Hb. destruct Hof as [Em Ef _]. rewrite Em in Hread. specialize (Hread retention).
  assert (holdsRetainedFile (layout s) = file) as Hl.
  { rewrite <-Ef. unfold layout, snapshotVersion. destruct (VersionSwitch.fileStore (versions s)); [done|]. repeat case_match; done. }
  eexists. split; [unfold restore; change (snapshot s) with (takeSnapshot s (layout s)); rewrite Hread; cbn; rewrite Hl, eqb_reflx; done|]. split; [|done].
  apply (agree_intro s b (rebuilt (voids s) (canonicalCount s)) (RecordedCursors.new (RecordedCursors.budget (recorded s))) (VersionSwitch.set_fileStore u file) w). split.
  - split; [apply (so_window s Hok)|done].
  - by eapply window_ok_ext; [| |exact Hwin].
  - done.
  - done.
  - destruct Hload as [Hv|[[I1 [I2 I3] I4] ->]]; [left; by rewrite <-Ef|]. right. pose proof (I1 VersionSwitch.V4) as E1. pose proof (I1 VersionSwitch.CARRY) as E2. pose proof (I1 VersionSwitch.WINDOW) as E3. cbn in E1, E2, E3.
    rewrite <-Ef. split; cbn; try done; rewrite ?E1; try done. destruct (versions s). cbn in *. by subst.
  - exists a. by split_and!.
Qed.

Lemma start_marked m file seed s : start m file seed None = Ok s → sealer_ok s → marked s ∅.
Proof.
  intros Hst Hok. assert (dedup s = []) as Hd.
  { cbn [start] in Hst. unfold Sealer.seeded, Sealer.new in Hst. destruct seed; (destruct (_ <=? _)%Z; [done|]); (destruct (_ <=? _)%Z; [done|]); (destruct (_ <? _)%Z; [done|]);
      (destruct (SessionWindows.new _ _); [|done]); by injection Hst as <-. }
  pose proof (so_capacity s Hok). split; rewrite Hd; cbn; [lia|lia|]. destruct (_ <? _)%Z; lia.
Qed.

(** ** A vote for a reference that the window has left behind *)

(** A member that restored does not hold the reference. *)
Lemma restored_refuses s s' voterId index hash : ledger_ok (voids s) (canonicalCount s) → voids s' = rebuilt (voids s) (canonicalCount s) →
  (0 ≤ index < canonicalCount s - VoidLedger.capacity (VoidLedger.cfg (voids s)))%Z → (step s' (IVoid voterId index hash)).2 = OVoid VoidLedger.REFUSED None.
Proof.
  intros Hl Ev Hi. destruct (rebuilt_agrees _ _ Hl) as (_ & _ & Hold). cbn [step]. unfold Sealer.onVoidRequest, VoidLedger.onVote. rewrite Ev.
  set (l := VoidLedger.dropVotesBelow _ _). assert (VoidLedger.holds l index hash = false) as ->; [|by rewrite orb_true_r].
  unfold VoidLedger.holds. destruct (_ || _); [done|]. apply andb_false_iff. left. apply bool_decide_eq_false. intros Hk.
  pose proof (Hold _ index Hk). lia.
Qed.

(** A member that kept running does. *)
Lemma stale_taken s voterId index hash : in_range s → (0 ≤ VoidLedger.capacity (VoidLedger.cfg (voids s)))%Z →
  (0 ≤ index < canonicalCount s - VoidLedger.capacity (VoidLedger.cfg (voids s)))%Z →
  VoidLedger.isVoter (voids s) voterId = true → VoidLedger.holds (voids s) index hash = true →
  (Z.of_nat (length (VoidLedger.votes (voids s))) < VoidLedger.MAX_OPEN_VOTES)%Z →
  let mask := VoidLedger.voterMask (VoidLedger.cfg (voids s)) in
  if (Z.land (long_shl 1 voterId) mask =? mask)%Z then ∃ r, (step s (IVoid voterId index hash)).2 = OVoid VoidLedger.DECIDED (Some r)
  else (step s (IVoid voterId index hash)).2 = OVoid VoidLedger.COUNTED None.
Proof.
  intros Hr Hc Hi Hv Hh Hroom mask. pose proof (ir_count s Hr) as Hcount. cbn [step]. unfold Sealer.onVoidRequest, VoidLedger.onVote.
  unfold long_sub. rewrite to_long_small by (unfold is_long, long_min, long_max in *; lia). set (l := VoidLedger.dropVotesBelow _ _).
  assert (VoidLedger.isVoter l voterId = true) as -> by done. assert (VoidLedger.holds l index hash = true) as -> by done. cbn [negb orb].
  assert (lhm_get index (VoidLedger.votes l) = None) as ->.
  { apply lhm_get_None. intros ([i b] & -> & [Hge _]%list_elem_of_filter)%list_elem_of_fmap. cbn in *. lia. }
  assert (length (VoidLedger.votes l) ≤ length (VoidLedger.votes (voids s)))%nat as Hlen by apply length_filter.
  destruct (Z.leb_spec VoidLedger.MAX_OPEN_VOTES (Z.of_nat (length (VoidLedger.votes l)))) as [|_]; [lia|]. rewrite andb_false_r. cbn [default]. rewrite Z.lor_0_l.
  change (VoidLedger.voterMask (VoidLedger.cfg l)) with mask. destruct (_ =? _)%Z; [by eexists|]. destruct (Z.eqb_spec (long_shl 1 voterId) 0) as [E|]; [|done].
  unfold VoidLedger.isVoter in Hv. rewrite E, Z.land_0_r, andb_false_r in Hv. done.
Qed.

(** ** A member that has run a log from its start, and one that takes its snapshot over *)

Section member.
Context (m : Member) (file : bool) (seed : option Sealer.SealerSeed) (s0 s : SealerSt) (tr : list (Input * Output)).
Context (Hm : member_ok m) (Hsd : ∀ sd, seed = Some sd → seed_typed sd) (Hs : seededFrom m seed = Ok seed) (Hst : start m file seed None = Ok s0) (Hrun : run s0 tr s)
  (Hno : (blockNumber s + m_inclusionHorizonBlocks m ≤ long_max)%Z).

Lemma member_size : (Z.of_nat (length (dedup s)) ≤ m_dedupCapacity m + 2 * (m_inclusionHorizonBlocks m + 1))%Z.
Proof.
  destruct (start_ok m file seed s0 Hm Hsd Hs Hst) as (Hok0 & Hk0 & Hof0). pose proof (of_member_run m file s0 tr s Hrun Hof0) as [E _ _].
  destruct (run_marked s0 tr s ∅ Hrun Hok0 ltac:(by rewrite <-E in Hno) (start_marked m file seed s0 Hst Hok0)) as [X HX].
  assert (sealer_ok s) as Hok by (eapply (run_invariant sealer_ok); [|exact Hrun|done]; intros s1 i o s2 _; by apply sealer_ok_step).
  rewrite <-E. exact (marked_size s X (run_end _ _ _ Hrun) Hok HX).
Qed.

(** C17. The slack for markers is enough. Epochs and remote batches skip the cap of the
    dedup window, but each of them opens a block after the first, so in every state that
    a log reaches the window is over its cap by at most two ids for each block of the
    horizon. With a horizon of at most 2047 blocks (the default is 64) that is within
    [MARKER_SLACK], so the bound that [load] puts on the number of entries never refuses
    a snapshot. *)
Theorem marker_slack_enough :
  (Z.of_nat (length (dedup s)) ≤ m_dedupCapacity m + 2 * (m_inclusionHorizonBlocks m + 1))%Z ∧
  (m_inclusionHorizonBlocks m ≤ 2047 → Z.of_nat (length (dedup s)) ≤ m_dedupCapacity m + MARKER_SLACK)%Z.
Proof. pose proof member_size as Hsize. split; [done|]. unfold MARKER_SLACK. lia. Qed.

Context (Hh : (m_inclusionHorizonBlocks m ≤ 2047)%Z) (Hsv : served s0 tr.*1 = true).

Lemma restarted retention : ∃ s', start m file seed (Some (snapshot s ++ retention)) = Ok s' ∧ agree s s' ∧
  RecordedCursors.best (recorded s') = RecordedCursors.NONE ∧ voids s' = rebuilt (voids s) (canonicalCount s) ∧ sealer_ok s ∧ kept s.
Proof.
  destruct (start_ok m file seed s0 Hm Hsd Hs Hst) as (Hok0 & Hk0 & Hof0). destruct (kept_run s0 tr s Hrun Hsv Hok0 Hk0) as [Hok Hk].
  pose proof (of_member_run m file s0 tr s Hrun Hof0) as Hof. pose proof member_size as Hsize.
  destruct (restart_agrees m file s retention Hm Hof (run_end _ _ _ Hrun) Hok Hk) as (s' & Hres & ? & ? & ?).
  { unfold fits. destruct Hof as [E _ _]. rewrite <-E in *. cbn in *. unfold MARKER_SLACK. lia. }
  by exists s'.
Qed.

(** C3. A restored member agrees with its peers. A member that starts at genesis or from a
    seed, with an inclusion horizon of at most 2047 blocks and the record-lag guard off,
    takes a log and a snapshot of its state. Any member of the same settings starts from
    that snapshot, whatever follows it in the buffer, and over every later log it answers
    each entry as the first one does, as long as no vote is for a reference that has left
    the window of the void ledger. The answers differ in two ways only: whether a recorded
    cursor moved is told from the cursors since the restart, as a snapshot holds none, and
    an activation that the first one stored late may just be stored. *)
Theorem restored_member_agrees (s2 : SealerSt) (tr2 : list (Input * Output)) (retention : list N) :
  run s tr2 s2 → recent_votes s tr2.*1 = true →
  ∃ s', start m file seed (Some (snapshot s ++ retention)) = Ok s' ∧ answers_alike RecordedCursors.NONE tr2 (outputs s' tr2.*1).
Proof.
  intros Hrun2 Hrec. destruct (restarted retention) as (s' & Hs' & Hag & <- & _ & Hok & _).
  exists s'. split; [done|]. by apply (agree_run s s' tr2 s2 Hrun2 (so_counted s Hok) Hag).
Qed.

(** C18. A vote for a reference that has left the window splits the members. The slot of
    an index is not cleared when the window leaves it behind, and a vote does not test the
    window, so a member that kept running takes the vote: it orders the void at once when
    the voter is the only one, and counts the vote otherwise. The snapshot holds the window
    only, so a member that restored from it refuses the same vote. *)
Theorem stale_vote_diverges (retention : list N) (voterId index : Z) (hash : B256) :
  (0 ≤ index < canonicalCount s - VoidLedger.capacity (VoidLedger.cfg (voids s)))%Z →
  VoidLedger.isVoter (voids s) voterId = true → VoidLedger.holds (voids s) index hash = true →
  (Z.of_nat (length (VoidLedger.votes (voids s))) < VoidLedger.MAX_OPEN_VOTES)%Z →
  ∃ s', start m file seed (Some (snapshot s ++ retention)) = Ok s' ∧ (step s' (IVoid voterId index hash)).2 = OVoid VoidLedger.REFUSED None ∧
    let mask := VoidLedger.voterMask (VoidLedger.cfg (voids s)) in
    if (Z.land (long_shl 1 voterId) mask =? mask)%Z then ∃ r, (step s (IVoid voterId index hash)).2 = OVoid VoidLedger.DECIDED (Some r)
    else (step s (IVoid voterId index hash)).2 = OVoid VoidLedger.COUNTED None.
Proof.
  intros Hi Hv Hh' Hroom. destruct (restarted retention) as (s' & Hs' & Hag & _ & Ev & Hok & Hk). exists s'. split; [done|].
  pose proof (run_end _ _ _ Hrun) as Hr. split; [by apply (restored_refuses s); [apply (kp_voids s Hk)|..]|apply stale_taken; try done; apply (kp_voids s Hk)].
Qed.
End member.

(** ** Witnesses *)

Definition sample_member : Member := mkMember 8 {[ 77%Z ]} (VoidLedger.mkConfig 4 1) 4 0 (mkBudgets 0 0).

Definition sample_start : SealerSt := match start sample_member false None None with Ok s => s | Err _ => sample_state end.

Lemma sample_member_ok : member_ok sample_member.
Proof. by repeat split. Qed.

Lemma sample_restarted : start sample_member false None None = Ok sample_start.
Proof. by vm_compute. Qed.

Lemma outputs_inputs s log : (outputs s log).*1 = log.
Proof. revert s. induction log as [|i log IH]; intros s; [done|]. cbn. by rewrite IH. Qed.

(** A record, an epoch, the activation of decision version 4 and a reference. *)
Definition sample_log : list Input :=
  [IRecord 11 5 0 3 []; IOrigin 21 1 1 [] 1000; IFeature (VersionSwitch.mkActivation 1 VersionSwitch.FEATURE_SEALER_V4 1); ITick 2000; ITick 3000; IRef 0 7 64 31;
   IRemote 41 77 9 3 5 6 [] 4000].

Definition sample_later : list Input := [IRef 0 7 64 31; IVoid 0 2 31; IRecord 12 5 1 9 []; ITick 5000; IRef 0 7 96 32; IRecorded 0 1].

Lemma marker_slack_enough_witness : (Z.of_nat (length (dedup (after sample_start sample_log))) ≤ 8 + MARKER_SLACK)%Z.
Proof.
  apply (marker_slack_enough sample_member false None sample_start _ (outputs sample_start sample_log) sample_member_ok); [done|done|exact sample_restarted|apply run_log; by vm_compute|by vm_compute|done].
Defined.

Lemma restored_member_agrees_witness :
  let s := after sample_start sample_log in VersionSwitch.version (versions s) = VersionSwitch.ON_VERSION ∧
  ∃ s', start sample_member false None (Some (snapshot s)) = Ok s' ∧ answers_alike RecordedCursors.NONE (outputs s sample_later) (outputs s' sample_later).
Proof.
  cbv zeta. split; [by vm_compute|].
  destruct (restored_member_agrees sample_member false None sample_start (after sample_start sample_log) (outputs sample_start sample_log) sample_member_ok) with
    (s2 := after (after sample_start sample_log) sample_later) (tr2 := outputs (after sample_start sample_log) sample_later) (retention := @nil N) as (s' & Hs' & Ho);
    [done|done|exact sample_restarted|apply run_log; by vm_compute|by vm_compute|done|rewrite outputs_inputs; by vm_compute|apply run_log; by vm_compute|rewrite outputs_inputs; by vm_compute|].
  rewrite app_nil_r in Hs'. rewrite outputs_inputs in Ho. exists s'. split; [exact Hs'|exact Ho].
Defined.

(** A record, and an epoch of five slots that moves it out of the window. *)
Definition stale_log : list Input := [IRecord 11 5 0 3 []; IOrigin 21 1 5 [] 1000].

Lemma stale_vote_diverges_witness :
  let s := after sample_start stale_log in
  ∃ s', start sample_member false None (Some (snapshot s)) = Ok s' ∧ (step s' (IVoid 0 0 11)).2 = OVoid VoidLedger.REFUSED None ∧
    ∃ r, (step s (IVoid 0 0 11)).2 = OVoid VoidLedger.DECIDED (Some r).
Proof.
  cbv zeta. destruct (stale_vote_diverges sample_member false None sample_start (after sample_start stale_log) (outputs sample_start stale_log) sample_member_ok) with
    (retention := @nil N) (voterId := 0%Z) (index := 0%Z) (hash := 11%N) as (s' & Hs' & Href & Hdec);
    [done|done|exact sample_restarted|apply run_log; by vm_compute|by vm_compute|done|rewrite outputs_inputs; by vm_compute|by vm_compute|by vm_compute|by vm_compute|by vm_compute|].
  rewrite app_nil_r in Hs'. exists s'. split; [exact Hs'|]. split; [exact Href|exact Hdec].
Defined.
