(* ===== verification/WriteSet.v ===== *)
(** * Write sets and block deltas (exec-core/src/delta.rs, code_hash.rs,
    executor/write_set.rs)

    What a transaction writes, as sorted vectors; its consensus encoding and its
    hash; the accumulator of a block; and the extraction of a write set from the
    state that revm answers. A 256-bit word is an [N]. [keccak256] is a parameter,
    from bytes to the number its digest spells. The state of revm is a map in the
    order of its iteration; of an account the fields that this code reads are kept.
    A Rust panic is [None]. *)
From S2P Require Import Prelude Bytes.

(** The hash of no bytes. *)
Definition KECCAK_EMPTY : B256 :=
  0xc5d2460186f7233c927e7db2dcc703c0e500b653ca82273b7bfad8045d85a470%N.

Definition to_revm_code_hash (h : B256) : B256 := if (h =? 0)%N then KECCAK_EMPTY else h.
Definition to_wire_code_hash (h : B256) : B256 := if (h =? KECCAK_EMPTY)%N then 0%N else h.

Record AccountFields : Type := mkFields { af_nonce : N; af_balance : N; af_code_hash : B256 }.

#[export] Instance AccountFields_eq_dec : EqDecision AccountFields.
Proof. solve_decision. Defined.

Abbreviation AccountEntry := (Address * AccountFields)%type.
Abbreviation StorageEntry := ((Address * B256) * N)%type.
Abbreviation CodeEntry := (B256 * list N)%type.

(** ** The state of revm *)

Record AccountInfo : Type := mkInfo {
  info_balance : N;
  info_nonce : N;
  info_code_hash : B256;
  info_code : option (list N);
}.

(** [AccountInfo::default]. *)
Definition default_info : AccountInfo := mkInfo 0 0 KECCAK_EMPTY None.

Record EvmStorageSlot : Type := mkSlot { original_value : N; present_value : N }.

Record Account : Type := mkAccount {
  acc_info : AccountInfo;
  acc_storage : list (N * EvmStorageSlot);
  touched : bool;
  created : bool;
  selfdestructed : bool;
}.

Abbreviation EvmState := (list (Address * Account)) (only parsing).

(** [Iterator::find] by the key of an entry. *)
Fixpoint find_entry {K V} `{EqDecision K} (k : K) (l : list (K * V)) : option V :=
  match l with
  | [] => None
  | (k', v) :: l' => if decide (k' = k) then Some v else find_entry k l'
  end.

(** ** Sinks of the encoding

    The stack buffer, which panics past its length, and the hash sponge. *)
Inductive WsSink : Type := BufSink (n : nat) | Sponge.

Definition put (k : WsSink) (s bytes : list N) : option (list N) :=
  match k with
  | BufSink n => if decide (length s + length bytes ≤ n) then Some (s ++ bytes) else None
  | Sponge => Some (s ++ bytes)
  end.

(** The loop of the varint; ten bytes hold any [u64]. *)
Fixpoint varint_loop (fuel : nat) (v : N) : list N :=
  match fuel with
  | O => []
  | S fuel' =>
    if (128 <=? v)%N then N.lor (N.land v 127) 128 :: varint_loop fuel' (N.shiftr v 7)
    else [N.land v 127]
  end.

Definition put_varint (k : WsSink) (s : list N) (v : N) : option (list N) := put k s (varint_loop 10 v).

(** The leading zero bytes. *)
Fixpoint drop_zeros (bs : list N) : list N :=
  match bs with
  | [] => []
  | b :: bs' => if (b =? 0)%N then drop_zeros bs' else bs
  end.

Definition minimal_be (v : N) : list N := drop_zeros (to_be_bytes 32 v).

Definition WS_ENCODING_V2 : N := 2.

Module WriteSet.
Record t : Type := mk {
  accounts : list AccountEntry;
  storage : list StorageEntry;
  code : list CodeEntry;
}.

#[export] Instance eq_dec : EqDecision t.
Proof. solve_decision. Defined.

Definition default : t := mk [] [] [].

Definition finish (ws : t) : t :=
  mk (merge_sort entry_le (accounts ws)) (merge_sort entry_le (storage ws)) (merge_sort entry_le (code ws)).

Definition account (ws : t) (addr : Address) : option AccountFields :=
  find_entry addr (accounts ws).

(** *** The encoding *)

Definition code_tag (h : B256) : N := if (h =? KECCAK_EMPTY)%N then 0 else if (h =? 0)%N then 1 else 2.

Definition put_account_entry (k : WsSink) (s : list N) (e : AccountEntry) : option (list N) :=
  let '(addr, f) := e in
  let bal := minimal_be (af_balance f) in
  let tag := code_tag (af_code_hash f) in
  s ← put k s (to_be_bytes 20 addr);
  s ← put k s [N.lor (N.of_nat (length bal)) (N.shiftl tag 6)];
  s ← put_varint k s (af_nonce f);
  s ← put k s bal;
  if (tag =? 2)%N then put k s (to_be_bytes 32 (af_code_hash f)) else Some s.

Definition put_storage_entry (k : WsSink) (s : list N) (prev : option Address) (e : StorageEntry) : option (list N) :=
  let '((addr, key), value) := e in
  let val := minimal_be value in
  let same := bool_decide (prev = Some addr) in
  s ← put k s [N.lor (N.of_nat (length val)) (N.shiftl (if same then 1 else 0) 6)];
  s ← (if same then Some s else put k s (to_be_bytes 20 addr));
  s ← put k s (to_be_bytes 32 key);
  put k s val.

Fixpoint put_accounts (k : WsSink) (s : list N) (l : list AccountEntry) : option (list N) :=
  match l with
  | [] => Some s
  | e :: l' => s ← put_account_entry k s e; put_accounts k s l'
  end.

Fixpoint put_storages (k : WsSink) (s : list N) (prev : option Address) (l : list StorageEntry) : option (list N) :=
  match l with
  | [] => Some s
  | e :: l' => s ← put_storage_entry k s prev e; put_storages k s (Some e.1.1) l'
  end.

Fixpoint put_codes (k : WsSink) (s : list N) (l : list CodeEntry) : option (list N) :=
  match l with
  | [] => Some s
  | (h, bytes) :: l' =>
    s ← put k s (to_be_bytes 32 h);
    s ← put_varint k s (N.of_nat (length bytes));
    s ← put k s bytes;
    put_codes k s l'
  end.

Definition encode (k : WsSink) (s : list N) (ws : t) : option (list N) :=
  s ← put k s [WS_ENCODING_V2];
  s ← put_varint k s (N.of_nat (length (accounts ws)));
  s ← put_accounts k s (accounts ws);
  s ← put_varint k s (N.of_nat (length (storage ws)));
  s ← put_storages k s None (storage ws);
  s ← put_varint k s (N.of_nat (length (code ws)));
  put_codes k s (code ws).

Definition INLINE : nat := 1024.

(** The worst case of the encoding, every field at full width. *)
Definition need (ws : t) : nat :=
  1 + 10 + length (accounts ws) * (20 + 1 + 10 + 32 + 32) + 10 + length (storage ws) * (1 + 20 + 32 + 32) + 10.

(** The bytes that reach the sponge. *)
Definition hashed (ws : t) : option (list N) :=
  if bool_decide (code ws = []) && (need ws <=? INLINE)%nat then encode (BufSink INLINE) [] ws
  else encode Sponge [] ws.

Definition hash (keccak256 : list N → B256) (ws : t) : option B256 := keccak256 <$> hashed ws.

(** *** Extraction *)

Definition push_evm_state_storage (addr : Address) (l : list (N * EvmStorageSlot)) : list StorageEntry :=
  omap (λ '(key, s), if (original_value s =? present_value s)%N then None else Some ((addr, key), present_value s)) l.

Definition push_evm_state_account (ws : t) (addr : Address) (a : Account) : t :=
  if negb (touched a) then ws
  else
    let i := acc_info a in
    mk (accounts ws ++ [(addr, mkFields (info_nonce i) (info_balance i) (info_code_hash i))])
       (storage ws ++ push_evm_state_storage addr (acc_storage a))
       (code ws ++ match info_code i with
        | Some b => if created a && negb (info_code_hash i =? KECCAK_EMPTY)%N && negb (bool_decide (b = []))
                    then [(info_code_hash i, b)] else []
        | None => []
        end).

Definition from_evm_state (state : EvmState) : t :=
  finish (fold_left (λ ws '(addr, a), push_evm_state_account ws addr a) state default).
End WriteSet.

(** ** The accumulator of a block *)
Module PendingDelta.
Record t : Type := mk {
  accounts : gmap Address AccountFields;
  storage : gmap (Address * B256) N;
  code : gmap B256 (list N);
}.

Definition new : t := mk ∅ ∅ ∅.

(** [extend]: a later entry of a key wins. *)
Definition extend {K V} `{Countable K} (m : gmap K V) (l : list (K * V)) : gmap K V :=
  fold_left (λ m '(k, v), <[k := v]> m) l m.

Definition apply (d : t) (ws : WriteSet.t) : t :=
  mk (extend (accounts d) (WriteSet.accounts ws)) (extend (storage d) (WriteSet.storage ws))
     (extend (code d) (WriteSet.code ws)).

Definition merge_from (d other : t) : t :=
  mk (accounts other ∪ accounts d) (storage other ∪ storage d) (code other ∪ code d).
End PendingDelta.

#[global] Arguments WriteSet.account : simpl never.
#[global] Arguments WriteSet.from_evm_state : simpl never.
