(* ===== verification/WriteSetSpec.v ===== *)
(** * The encoding and the extraction of write sets

    The encoding through either sink is one byte string ([bytes]), the stack buffer
    never overflows, the byte string determines the write set, and the extraction
    does not depend on the order in which revm lists its maps. *)
From S2P Require Import Prelude Bytes WriteSet.

(** ** The byte string *)

Definition account_bytes (e : AccountEntry) : list N :=
  let '(addr, f) := e in
  let tag := WriteSet.code_tag (af_code_hash f) in
  to_be_bytes 20 addr ++ [N.lor (N.of_nat (length (minimal_be (af_balance f)))) (N.shiftl tag 6)] ++
  varint_loop 10 (af_nonce f) ++ minimal_be (af_balance f) ++
  (if (tag =? 2)%N then to_be_bytes 32 (af_code_hash f) else []).

Definition storage_bytes (prev : option Address) (e : StorageEntry) : list N :=
  let '((addr, key), value) := e in
  let same := bool_decide (prev = Some addr) in
  [N.lor (N.of_nat (length (minimal_be value))) (N.shiftl (if same then 1 else 0) 6)] ++
  (if same then [] else to_be_bytes 20 addr) ++ to_be_bytes 32 key ++ minimal_be value.

Fixpoint storages_bytes (prev : option Address) (l : list StorageEntry) : list N :=
  match l with [] => [] | e :: l' => storage_bytes prev e ++ storages_bytes (Some e.1.1) l' end.

Definition code_bytes (e : CodeEntry) : list N :=
  to_be_bytes 32 e.1 ++ varint_loop 10 (N.of_nat (length e.2)) ++ e.2.

Definition bytes (ws : WriteSet.t) : list N :=
  [WS_ENCODING_V2] ++ varint_loop 10 (N.of_nat (length (WriteSet.accounts ws))) ++ (WriteSet.accounts ws ≫= account_bytes) ++
  varint_loop 10 (N.of_nat (length (WriteSet.storage ws))) ++ storages_bytes None (WriteSet.storage ws) ++
  varint_loop 10 (N.of_nat (length (WriteSet.code ws))) ++ (WriteSet.code ws ≫= code_bytes).

(** ** Sinks *)

(** Whether a sink holds a string. *)
Definition sink_holds (k : WsSink) (s : list N) : Prop := match k with BufSink n => length s ≤ n | Sponge => True end.

Lemma put_app k s a b : (s' ← put k s a; put k s' b) = put k s (a ++ b).
Proof.
  destruct k as [n|]; cbn; rewrite ?app_assoc; [|done]. rewrite length_app.
  destruct (decide (length s + length a ≤ n)); cbn; rewrite ?length_app; repeat case_decide; auto with lia; lia.
Qed.

Lemma put_nil k s : sink_holds k s → put k s [] = Some s.
Proof. destruct k; cbn; rewrite app_nil_r; [|done]. intros. case_decide; [done|lia]. Qed.

Lemma put_holds k s a s' : put k s a = Some s' → sink_holds k s' ∧ s' = s ++ a.
Proof. destruct k; cbn; [case_decide; [|done]|]; intros [= <-]; rewrite ?length_app; auto. Qed.

Lemma put_sponge s a : put Sponge s a = Some (s ++ a).
Proof. done. Qed.

(** A writer that puts the string [a] whatever the sink holds. *)
Definition writes (f : WsSink → list N → option (list N)) (a : list N) : Prop :=
  ∀ k s, sink_holds k s → f k s = put k s a.

Lemma writes_put a : writes (λ k s, put k s a) a.
Proof. done. Qed.

Lemma writes_skip : writes (λ _ s, Some s) [].
Proof. intros k s Hs. by rewrite put_nil. Qed.

Lemma writes_bind f g a b : writes f a → writes g b → writes (λ k s, s' ← f k s; g k s') (a ++ b).
Proof.
  intros Hf Hg k s Hs. rewrite <-put_app, Hf by done. destruct (put k s a) as [s'|] eqn:Ep; cbn; [|done].
  apply put_holds in Ep as [Hh _]. by apply Hg.
Qed.

Create HintDb sinks.
#[export] Hint Resolve writes_put writes_skip : sinks.

Lemma put_account_entry_writes e : writes (λ k s, WriteSet.put_account_entry k s e) (account_bytes e).
Proof.
  destruct e as [addr f]. unfold WriteSet.put_account_entry, account_bytes, put_varint.
  do 4 (apply writes_bind; [apply writes_put|]). destruct (_ =? _)%N; auto with sinks.
Qed.

Lemma put_accounts_writes l : writes (λ k s, WriteSet.put_accounts k s l) (l ≫= account_bytes).
Proof. induction l as [|e l IH]; cbn; [apply writes_skip|]. by apply writes_bind; [apply put_account_entry_writes|]. Qed.

Lemma put_storage_entry_writes prev e : writes (λ k s, WriteSet.put_storage_entry k s prev e) (storage_bytes prev e).
Proof.
  destruct e as [[addr key] value]. unfold WriteSet.put_storage_entry, storage_bytes.
  apply writes_bind; [apply writes_put|]. apply writes_bind; [destruct (bool_decide _); auto with sinks|].
  apply writes_bind; auto with sinks.
Qed.

Lemma put_storages_writes prev l : writes (λ k s, WriteSet.put_storages k s prev l) (storages_bytes prev l).
Proof.
  revert prev. induction l as [|e l IH]; intros prev; cbn; [apply writes_skip|].
  apply writes_bind; [apply put_storage_entry_writes|apply IH].
Qed.

Lemma put_codes_writes l : writes (λ k s, WriteSet.put_codes k s l) (l ≫= code_bytes).
Proof.
  induction l as [|[h b] l IH]; [apply writes_skip|]. rewrite bind_cons. unfold code_bytes at 1. rewrite <-!app_assoc.
  cbn [WriteSet.put_codes fst snd]. unfold put_varint. do 3 (apply writes_bind; [apply writes_put|]). exact IH.
Qed.

Lemma encode_writes ws : writes (λ k s, WriteSet.encode k s ws) (bytes ws).
Proof.
  unfold WriteSet.encode, bytes, put_varint. do 2 (apply writes_bind; [apply writes_put|]).
  apply writes_bind; [apply put_accounts_writes|]. apply writes_bind; [apply writes_put|].
  apply writes_bind; [apply put_storages_writes|]. apply writes_bind; [apply writes_put|]. apply put_codes_writes.
Qed.

(** ** Lengths *)

Lemma varint_length fuel v : length (varint_loop fuel v) ≤ fuel.
Proof. revert v. induction fuel as [|fuel IH]; intros v; cbn; [done|]. destruct (_ <=? _)%N; cbn; [specialize (IH (N.shiftr v 7))|]; lia. Qed.

Lemma drop_zeros_length bs : length (drop_zeros bs) ≤ length bs.
Proof. induction bs as [|b bs IH]; cbn; [done|]. destruct (_ =? _)%N; cbn; lia. Qed.

Lemma minimal_be_length v : length (minimal_be v) ≤ 32.
Proof. unfold minimal_be. etrans; [apply drop_zeros_length|]. by rewrite length_to_be_bytes. Qed.

Lemma account_bytes_length e : length (account_bytes e) ≤ 20 + 1 + 10 + 32 + 32.
Proof.
  destruct e as [addr f]. unfold account_bytes. rewrite !length_app, length_to_be_bytes.
  pose proof (varint_length 10 (af_nonce f)). pose proof (minimal_be_length (af_balance f)).
  destruct (_ =? _)%N; rewrite ?length_to_be_bytes; cbn [length]; lia.
Qed.

Lemma storage_bytes_length prev e : length (storage_bytes prev e) ≤ 1 + 20 + 32 + 32.
Proof.
  destruct e as [[addr key] value]. unfold storage_bytes. rewrite !length_app, length_to_be_bytes.
  pose proof (minimal_be_length value). destruct (bool_decide _); rewrite ?length_to_be_bytes; cbn [length]; lia.
Qed.

Lemma bytes_length ws : WriteSet.code ws = [] → length (bytes ws) ≤ WriteSet.need ws.
Proof.
  intros Hc. unfold bytes, WriteSet.need. rewrite Hc, !length_app. cbn [length mbind list_bind].
  assert (length (WriteSet.accounts ws ≫= account_bytes) ≤ length (WriteSet.accounts ws) * (20 + 1 + 10 + 32 + 32)).
  { induction (WriteSet.accounts ws) as [|e l IH]; cbn [mbind list_bind length]; [done|]. rewrite length_app.
    pose proof (account_bytes_length e). lia. }
  assert (∀ prev, length (storages_bytes prev (WriteSet.storage ws)) ≤ length (WriteSet.storage ws) * (1 + 20 + 32 + 32)) as Hs.
  { induction (WriteSet.storage ws) as [|e l IH]; intros prev; cbn [storages_bytes length]; [done|]. rewrite length_app.
    pose proof (storage_bytes_length prev e). specialize (IH (Some e.1.1)). lia. }
  specialize (Hs None). pose proof (varint_length 10 (N.of_nat (length (WriteSet.accounts ws)))).
  pose proof (varint_length 10 (N.of_nat (length (WriteSet.storage ws)))). pose proof (varint_length 10 (N.of_nat 0)).
  lia.
Qed.

Lemma hash_bytes ws : WriteSet.hashed ws = Some (bytes ws).
Proof.
  unfold WriteSet.hashed. destruct (bool_decide _ && _) eqn:E.
  - apply andb_true_iff in E as [Hc%bool_decide_eq_true Hn%Nat.leb_le].
    rewrite (encode_writes ws (BufSink _) []) by (cbn; lia). pose proof (bytes_length ws Hc).
    unfold put. rewrite decide_True by (cbn [length]; lia). done.
  - by rewrite (encode_writes ws Sponge []).
Qed.

(** The hash of a write set always answers, and both paths hash one byte string:
    a write set that takes the path of the 1024 byte stack buffer encodes into it
    without overflow, and the buffer then holds what the sponge would have taken. *)
Theorem hash_fits (keccak256 : list N → B256) (ws : WriteSet.t) : WriteSet.hash keccak256 ws = Some (keccak256 (bytes ws)).
Proof. unfold WriteSet.hash. by rewrite hash_bytes. Qed.

(** ** A reader of the encoding *)

Abbreviation Rd := (Reader ()).

Definition rd_bytes (n : nat) : Rd (list N) := λ buf,
  if decide (n ≤ length buf) then Ok (take n buf, drop n buf) else Err ().

Definition rd_byte : Rd N := λ buf, match buf with [] => Err () | b :: rest => Ok (b, rest) end.

Fixpoint rd_varint (fuel : nat) : Rd N :=
  match fuel with
  | O => fail ()
  | S fuel' => b ← rd_byte; if (128 <=? b)%N then v ← rd_varint fuel'; mret (b - 128 + 128 * v)%N else mret b
  end.

Definition rd_account : Rd AccountEntry :=
  addr ← rd_bytes 20; flags ← rd_byte; n ← rd_varint 10;
  bal ← rd_bytes (N.to_nat (N.land flags 63));
  h ← (match N.shiftr flags 6 with 0%N => mret KECCAK_EMPTY | 1%N => mret 0%N | _ => b ← rd_bytes 32; mret (from_be_bytes b) end : Rd N);
  mret (from_be_bytes addr, mkFields n (from_be_bytes bal) h).

Definition rd_storage (prev : option Address) : Rd StorageEntry :=
  flags ← rd_byte;
  addr ← (match N.shiftr flags 6, prev with 1%N, Some a => mret a | _, _ => b ← rd_bytes 20; mret (from_be_bytes b) end : Rd N);
  key ← rd_bytes 32; val ← rd_bytes (N.to_nat (N.land flags 63));
  mret ((addr, from_be_bytes key), from_be_bytes val).

Fixpoint rd_storages (n : nat) (prev : option Address) : Rd (list StorageEntry) :=
  match n with
  | O => mret []
  | S n' => e ← rd_storage prev; l ← rd_storages n' (Some e.1.1); mret (e :: l)
  end.

Definition rd_code : Rd CodeEntry :=
  h ← rd_bytes 32; n ← rd_varint 10; b ← rd_bytes (N.to_nat n); mret (from_be_bytes h, b).

Definition rd_write_set : Rd WriteSet.t :=
  _ ← rd_byte;
  n ← rd_varint 10; accounts ← read_many rd_account (N.to_nat n);
  n ← rd_varint 10; storage ← rd_storages (N.to_nat n) None;
  n ← rd_varint 10; code ← read_many rd_code (N.to_nat n);
  mret (WriteSet.mk accounts storage code).

(** The fields are in the ranges of their types. *)
Definition is_u256 (v : N) : Prop := (v < 256 ^ 32)%N.
Definition account_ok (e : AccountEntry) : Prop :=
  (e.1 < 256 ^ 20)%N ∧ (af_nonce e.2 ≤ u64_max)%N ∧ is_u256 (af_balance e.2) ∧ is_u256 (af_code_hash e.2).
Definition storage_ok (e : StorageEntry) : Prop := (e.1.1 < 256 ^ 20)%N ∧ is_u256 e.1.2 ∧ is_u256 e.2.
Definition code_ok (e : CodeEntry) : Prop := is_u256 e.1 ∧ (N.of_nat (length e.2) ≤ u64_max)%N.

Record ws_ok (ws : WriteSet.t) : Prop := {
  ws_ok_accounts : Forall account_ok (WriteSet.accounts ws);
  ws_ok_storage : Forall storage_ok (WriteSet.storage ws);
  ws_ok_code : Forall code_ok (WriteSet.code ws);
  ws_ok_lengths : (N.of_nat (length (WriteSet.accounts ws)) ≤ u64_max)%N ∧ (N.of_nat (length (WriteSet.storage ws)) ≤ u64_max)%N ∧
    (N.of_nat (length (WriteSet.code ws)) ≤ u64_max)%N;
}.

Lemma rd_bytes_reads bs : reads (rd_bytes (length bs)) bs bs.
Proof. intros rest. unfold rd_bytes. rewrite length_app, decide_True by lia. by rewrite take_app_length, drop_app_length. Qed.

Lemma rd_bytes_reads_n n bs : length bs = n → reads (rd_bytes n) bs bs.
Proof. intros <-. apply rd_bytes_reads. Qed.

Lemma rd_byte_reads b : reads rd_byte [b] b.
Proof. done. Qed.

Lemma low_bits v : N.land v 127 = (v mod 128)%N.
Proof. exact (N.land_ones v 7). Qed.

(** A continuation byte, and a flag byte, split into their parts. *)
Lemma high_bit v : N.lor (N.land v 127) 128 = (v mod 128 + 128)%N.
Proof.
  rewrite low_bits. pose proof (N.mod_lt v 128 ltac:(done)) as Hm. revert Hm. generalize (v mod 128)%N. intros m Hm.
  assert (forallb (λ n, N.lor (N.of_nat n) 128 =? N.of_nat n + 128)%N (seq 0 128) = true) as Hall by by vm_compute.
  rewrite forallb_forall in Hall. specialize (Hall (N.to_nat m)). rewrite in_seq, N2Nat.id, N.eqb_eq in Hall. apply Hall. lia.
Qed.

Lemma flag_parts len tag : len ≤ 32 → (tag ≤ 2)%N →
  N.to_nat (N.land (N.lor (N.of_nat len) (N.shiftl tag 6)) 63) = len ∧ N.shiftr (N.lor (N.of_nat len) (N.shiftl tag 6)) 6 = tag.
Proof.
  intros Hl Ht.
  assert (forallb (λ n, forallb (λ t, (N.to_nat (N.land (N.lor (N.of_nat n) (N.shiftl t 6)) 63) =? n)%nat &&
    (N.shiftr (N.lor (N.of_nat n) (N.shiftl t 6)) 6 =? t)%N) [0; 1; 2]%N) (seq 0 33) = true) as Hall by by vm_compute.
  rewrite forallb_forall in Hall. specialize (Hall len). rewrite in_seq, forallb_forall in Hall. specialize (Hall ltac:(lia) tag).
  rewrite andb_true_iff, Nat.eqb_eq, N.eqb_eq in Hall. apply Hall. cbn. lia.
Qed.

Lemma rd_varint_reads fuel v : (v < 128 ^ N.of_nat (S fuel))%N → reads (rd_varint (S fuel)) (varint_loop (S fuel) v) v.
Proof.
  revert v. induction fuel as [|fuel IH]; intros v Hv; rewrite Nat2N.inj_succ, N.pow_succ_r' in Hv;
    remember (rd_varint _) as r eqn:Er; cbn [varint_loop]; subst r; (destruct (N.leb_spec 128 v) as [Hge|Hlt]; [|
      eapply reads_bind_ret; [apply rd_byte_reads|]; rewrite low_bits, N.mod_small by done; by rewrite (proj2 (N.leb_gt _ _))]).
  - cbn in Hv. lia.
  - change (?b :: ?l) with ([b] ++ l). eapply reads_bind; [apply rd_byte_reads|]. rewrite high_bit.
    rewrite (proj2 (N.leb_le 128 (v mod 128 + 128))) by apply N.le_add_l. eapply reads_bind_ret; [apply IH|].
    + rewrite N.shiftr_div_pow2. apply N.Div0.div_lt_upper_bound. change (2 ^ 7)%N with 128%N. lia.
    + f_equal. rewrite N.shiftr_div_pow2, N.add_sub. pose proof (N.div_mod v 128 ltac:(done)). change (2 ^ 7)%N with 128%N. lia.
Qed.

Lemma rd_u64_reads v : (v ≤ u64_max)%N → reads (rd_varint 10) (varint_loop 10 v) v.
Proof. intros Hv. apply rd_varint_reads. unfold u64_max in Hv. change (128 ^ N.of_nat 10)%N with 1180591620717411303424%N. lia. Qed.

Lemma from_be_cons_zero bs : from_be_bytes (0%N :: bs) = from_be_bytes bs.
Proof.
  unfold from_be_bytes. cbn [rev]. induction (rev bs) as [|b l IH]; cbn [app from_le_bytes]; [done|]. by rewrite IH.
Qed.

Lemma minimal_be_value v : is_u256 v → from_be_bytes (minimal_be v) = v.
Proof.
  intros Hv. rewrite <-(from_to_be 32 v Hv) at 2. unfold minimal_be. induction (to_be_bytes 32 v) as [|b bs IH]; cbn [drop_zeros]; [done|].
  destruct (N.eqb_spec b 0) as [->|]; [|done]. by rewrite from_be_cons_zero.
Qed.

Lemma code_tag_bound h : (WriteSet.code_tag h ≤ 2)%N.
Proof. unfold WriteSet.code_tag. repeat destruct (_ =? _)%N; lia. Qed.

Lemma rd_account_reads e : account_ok e → reads rd_account (account_bytes e) e.
Proof.
  destruct e as [addr [n b h]]. intros (Ha & Hn & Hb & Hh). cbn [fst snd af_nonce af_balance af_code_hash] in *. unfold rd_account, account_bytes. cbn [af_nonce af_balance af_code_hash].
  destruct (flag_parts (length (minimal_be b)) (WriteSet.code_tag h) (minimal_be_length b) (code_tag_bound h)) as [Hlen Htag].
  eapply reads_bind; [apply rd_bytes_reads_n, length_to_be_bytes|]. eapply reads_bind; [apply rd_byte_reads|].
  eapply reads_bind; [by apply rd_u64_reads|]. rewrite Hlen, Htag. eapply reads_bind; [apply rd_bytes_reads|].
  eapply reads_bind_ret with (a := h).
  - unfold WriteSet.code_tag. destruct (N.eqb_spec h KECCAK_EMPTY) as [->|]; [apply reads_ret|].
    destruct (N.eqb_spec h 0) as [->|]; [apply reads_ret|]. cbn [N.eqb Pos.eqb].
    eapply reads_bind_ret; [apply rd_bytes_reads_n, length_to_be_bytes|]. by rewrite from_to_be.
  - by rewrite from_to_be, minimal_be_value.
Qed.

Lemma rd_storage_reads prev e : storage_ok e → reads (rd_storage prev) (storage_bytes prev e) e.
Proof.
  destruct e as [[addr key] v]. intros (Ha & Hk & Hv). cbn [fst snd] in *. unfold rd_storage, storage_bytes.
  set (tag := if bool_decide _ then 1%N else 0%N).
  destruct (flag_parts (length (minimal_be v)) tag (minimal_be_length v)) as [Hlen Htag]; [by unfold tag; destruct (bool_decide _)|].
  eapply reads_bind; [apply rd_byte_reads|]. rewrite Hlen, Htag. eapply reads_bind with (a := addr).
  - unfold tag. case_bool_decide as Hp; [rewrite Hp; apply reads_ret|].
    assert (reads (b ← rd_bytes 20; mret (from_be_bytes b) : Rd N) (to_be_bytes 20 addr) addr) as Hr.
    { eapply reads_bind_ret; [apply rd_bytes_reads_n, length_to_be_bytes|]. by rewrite from_to_be. }
    destruct prev; exact Hr.
  - eapply reads_bind; [apply rd_bytes_reads_n, length_to_be_bytes|].
    eapply reads_bind_ret; [apply rd_bytes_reads|]. by rewrite from_to_be, minimal_be_value.
Qed.

Lemma rd_storages_reads prev l : Forall storage_ok l → reads (rd_storages (length l) prev) (storages_bytes prev l) l.
Proof.
  intros Hl. revert prev. induction Hl as [|e l He _ IH]; intros prev; cbn [length rd_storages storages_bytes]; [apply reads_ret|].
  eapply reads_bind; [by apply rd_storage_reads|]. by eapply reads_bind_ret; [apply IH|].
Qed.

Lemma rd_code_reads e : code_ok e → reads rd_code (code_bytes e) e.
Proof.
  destruct e as [h b]. intros [Hh Hb]. cbn [fst snd] in *. unfold rd_code, code_bytes. cbn [fst snd].
  eapply reads_bind; [apply rd_bytes_reads_n, length_to_be_bytes|]. eapply reads_bind; [by apply rd_u64_reads|].
  rewrite Nat2N.id. eapply reads_bind_ret; [apply rd_bytes_reads|]. by rewrite from_to_be.
Qed.

Lemma rd_write_set_reads ws : ws_ok ws → reads rd_write_set (bytes ws) ws.
Proof.
  intros [Ha Hs Hc (Hla & Hls & Hlc)]. unfold rd_write_set, bytes. eapply reads_bind; [apply rd_byte_reads|].
  eapply reads_bind; [by apply rd_u64_reads|]. rewrite Nat2N.id.
  eapply reads_bind; [apply reads_many; eapply Forall_impl; [exact Ha|apply rd_account_reads]|].
  eapply reads_bind; [by apply rd_u64_reads|]. rewrite Nat2N.id. eapply reads_bind; [by apply rd_storages_reads|].
  eapply reads_bind; [by apply rd_u64_reads|]. rewrite Nat2N.id.
  eapply reads_bind_ret; [apply reads_many; eapply Forall_impl; [exact Hc|apply rd_code_reads]|]. by destruct ws.
Qed.

(** C28. One encoding describes one write set: two write sets whose fields are in the
    ranges of their types and whose hashed bytes agree are equal, so two replicas
    with the same witness made the same writes unless Keccak collides. *)
Theorem encoding_injective (a b : WriteSet.t) : ws_ok a → ws_ok b → WriteSet.hashed a = WriteSet.hashed b → a = b.
Proof.
  intros Ha Hb Heq. rewrite !hash_bytes in Heq. apply (inj Some) in Heq as Hbytes.
  pose proof (rd_write_set_reads a Ha []) as Ra. pose proof (rd_write_set_reads b Hb []) as Rb.
  rewrite Hbytes, Rb in Ra. by injection Ra as <-.
Qed.

Lemma encoding_injective_witness :
  let ws := WriteSet.mk [(5, mkFields 300 1000 KECCAK_EMPTY); (6, mkFields 0 0 7)]%N [((5, 1), 0); ((5, 2), 9)]%N [(7, [96; 0])]%N in
  ws_ok ws ∧ ∀ b, ws_ok b → WriteSet.hashed ws = WriteSet.hashed b → ws = b.
Proof.
  intros ws. assert (ws_ok ws) as Hok by (split; repeat constructor; by vm_compute).
  split; [done|]. intros b Hb. by apply (encoding_injective ws b).
Defined.

(** ** Extraction *)

(** What one account of the state contributes. *)
Definition account_part (e : Address * Account) : list AccountEntry :=
  if touched e.2 then let i := acc_info e.2 in [(e.1, mkFields (info_nonce i) (info_balance i) (info_code_hash i))] else [].
Definition storage_part (e : Address * Account) : list StorageEntry :=
  if touched e.2 then WriteSet.push_evm_state_storage e.1 (acc_storage e.2) else [].
Definition code_part (e : Address * Account) : list CodeEntry :=
  match touched e.2, info_code (acc_info e.2) with
  | true, Some b => let h := info_code_hash (acc_info e.2) in
    if created e.2 && negb (h =? KECCAK_EMPTY)%N && negb (bool_decide (b = [])) then [(h, b)] else []
  | _, _ => []
  end.

Lemma from_evm_state_parts st : WriteSet.from_evm_state st =
  WriteSet.finish (WriteSet.mk (st ≫= account_part) (st ≫= storage_part) (st ≫= code_part)).
Proof.
  unfold WriteSet.from_evm_state. f_equal.
  assert (∀ ws, fold_left (λ ws '(addr, a), WriteSet.push_evm_state_account ws addr a) st ws =
    WriteSet.mk (WriteSet.accounts ws ++ (st ≫= account_part)) (WriteSet.storage ws ++ (st ≫= storage_part))
      (WriteSet.code ws ++ (st ≫= code_part))) as H; [|exact (H _)].
  induction st as [|[addr a] st IH]; intros ws; cbn [fold_left mbind list_bind]; [by destruct ws; rewrite !app_nil_r|].
  rewrite IH. unfold WriteSet.push_evm_state_account, account_part at 2, storage_part at 2, code_part at 2. cbn [fst snd].
  destruct (touched a); cbn; [|done]. by rewrite <-!app_assoc; destruct (info_code _).
Qed.

(** Sorting by key forgets the order of entries whose keys determine them. *)
Lemma merge_sort_entries_perm {K V} `{KeyOrder K} (l l' : list (K * V)) :
  (∀ k v v', (k, v) ∈ l → (k, v') ∈ l → v = v') → l ≡ₚ l' → merge_sort entry_le l = merge_sort entry_le l'.
Proof.
  intros Hu Hp. apply (StronglySorted_unique_strong entry_le); [|by apply (StronglySorted_merge_sort entry_le)..|by rewrite !(merge_sort_Permutation entry_le)].
  intros [k v] [k' v']. rewrite !(merge_sort_Permutation entry_le). intros Hin Hin' Hle Hle'. rewrite <-Hp in Hin'.
  unfold entry_le in *. cbn in *. assert (k = k') as -> by (by apply key_le_eq). f_equal. by eapply Hu.
Qed.

(** Two listings of one state: the accounts, and the slots of each, in any order. *)
Definition same_account (x y : Address * Account) : Prop :=
  x.1 = y.1 ∧ acc_info x.2 = acc_info y.2 ∧ touched x.2 = touched y.2 ∧ created x.2 = created y.2 ∧
  acc_storage x.2 ≡ₚ acc_storage y.2.
Definition same_state (s1 s2 : EvmState) : Prop := ∃ s, s ≡ₚ s2 ∧ Forall2 same_account s1 s.

(** A state is a map of maps, and a hash has one code behind it. *)
Record state_ok (st : EvmState) : Prop := {
  state_ok_keys : NoDup st.*1;
  state_ok_slots : Forall (λ e, NoDup (acc_storage e.2).*1) st;
  state_ok_codes : ∀ h b b', (h, b) ∈ st ≫= code_part → (h, b') ∈ st ≫= code_part → b = b';
}.

Lemma account_part_unique st a f f' : NoDup st.*1 → (a, f) ∈ st ≫= account_part → (a, f') ∈ st ≫= account_part → f = f'.
Proof.
  intros Hnd (x & Hx & Hin)%list_elem_of_bind (y & Hy & Hin')%list_elem_of_bind. destruct x as [a1 x], y as [a2 y].
  unfold account_part in Hx, Hy. cbn in *. destruct (touched x), (touched y); try by apply elem_of_nil in Hx || apply elem_of_nil in Hy.
  apply list_elem_of_singleton in Hx as [= -> ->]. apply list_elem_of_singleton in Hy as [= -> ->].
  by rewrite (NoDup_fmap_fst_eq _ _ _ _ Hnd Hin Hin').
Qed.

Lemma storage_part_elem e a k v : ((a, k), v) ∈ storage_part e →
  touched e.2 = true ∧ a = e.1 ∧ ∃ s, (k, s) ∈ acc_storage e.2 ∧ v = present_value s ∧ original_value s ≠ present_value s.
Proof.
  unfold storage_part, WriteSet.push_evm_state_storage. destruct (touched e.2); [|by intros ?%elem_of_nil].
  intros ([k' s] & Hin & Hs)%list_elem_of_omap. destruct (N.eqb_spec (original_value s) (present_value s)); [done|].
  injection Hs as <- <- <-. split; [done|]. split; [done|]. by exists s.
Qed.

Lemma storage_part_unique st key v v' : state_ok st → (key, v) ∈ st ≫= storage_part → (key, v') ∈ st ≫= storage_part → v = v'.
Proof.
  intros [Hnd Hs _] ([a1 x] & Hx & Hin)%list_elem_of_bind ([a2 y] & Hy & Hin')%list_elem_of_bind. destruct key as [a k].
  apply storage_part_elem in Hx as (_ & -> & s & Hsx & -> & _). apply storage_part_elem in Hy as (_ & He & s' & Hsy & -> & _).
  cbn in *. subst a2. rewrite <-(NoDup_fmap_fst_eq _ _ _ _ Hnd Hin Hin') in Hsy. rewrite Forall_forall in Hs.
  by rewrite (NoDup_fmap_fst_eq _ _ _ _ (Hs _ Hin) Hsx Hsy).
Qed.

Lemma same_parts s1 s2 : same_state s1 s2 → (s1 ≫= account_part) ≡ₚ (s2 ≫= account_part) ∧
  (s1 ≫= storage_part) ≡ₚ (s2 ≫= storage_part) ∧ (s1 ≫= code_part) ≡ₚ (s2 ≫= code_part).
Proof.
  intros (s & Hp & Hf). rewrite <-Hp. clear Hp s2. induction Hf as [|x y l l' (E1 & Ei & Et & Ec & Hs) _ (IHa & IHs & IHc)]; [done|].
  rewrite !bind_cons, IHa, IHs, IHc. repeat split; apply Permutation_app_tail.
  - unfold account_part. by rewrite E1, Ei, Et.
  - unfold storage_part, WriteSet.push_evm_state_storage. rewrite E1, Et. destruct (touched y.2); [|done]. by rewrite Hs.
  - unfold code_part. by rewrite Et, Ei, Ec.
Qed.

(** *** Lookups in an extracted write set *)

Lemma find_entry_elem {K V} `{EqDecision K} (l : list (K * V)) k v : find_entry k l = Some v → (k, v) ∈ l.
Proof.
  induction l as [|[k' v'] l IH]; cbn; [done|]. case_decide; [intros [= ->]; subst; left|intros Hf; right; by apply IH].
Qed.

Lemma find_entry_iff {K V} `{EqDecision K} (l : list (K * V)) k v :
  (∀ v v', (k, v) ∈ l → (k, v') ∈ l → v = v') → find_entry k l = Some v ↔ (k, v) ∈ l.
Proof.
  intros Hu. split; [apply find_entry_elem|]. intros Hin. destruct (find_entry k l) as [w|] eqn:E.
  - f_equal. by apply Hu; [apply find_entry_elem|].
  - exfalso. revert Hin E. clear Hu. induction l as [|[k' v'] l IH]; cbn; [by intros ?%elem_of_nil|].
    rewrite elem_of_cons. case_decide; [done|]. intros [[= -> ->]|?]; [done|by apply IH].
Qed.

(** Keys determine entries. *)
Definition keyed {K V} (l : list (K * V)) : Prop := ∀ k v v', (k, v) ∈ l → (k, v') ∈ l → v = v'.

Lemma keyed_perm {K V} (l l' : list (K * V)) : l ≡ₚ l' → keyed l → keyed l'.
Proof. intros Hp Hl k v v'. rewrite <-Hp. apply Hl. Qed.

Lemma extend_lookup {K V} `{Countable K} (m : gmap K V) l k : keyed l →
  PendingDelta.extend m l !! k = match find_entry k l with Some v => Some v | None => m !! k end.
Proof.
  unfold PendingDelta.extend. revert m. induction l as [|[k' v] l IH]; intros m Hl; cbn; [done|].
  rewrite IH by (intros ??? Hv Hv'; eapply Hl; by right). destruct (find_entry k l) as [w|] eqn:E; case_decide as Hk; subst.
  - f_equal. eapply Hl; [right; by apply find_entry_elem|left].
  - done.
  - by rewrite lookup_insert_eq.
  - by rewrite lookup_insert_ne.
Qed.

Lemma find_entry_nodup {K V} `{EqDecision K} (l : list (K * V)) k v : NoDup l.*1 → find_entry k l = Some v ↔ (k, v) ∈ l.
Proof. intros Hnd. apply find_entry_iff. intros ??. by apply NoDup_fmap_fst_eq. Qed.

Definition fields_of (acc : Account) : AccountFields :=
  let i := acc_info acc in mkFields (info_nonce i) (info_balance i) (info_code_hash i).

Lemma account_part_elem st a f : (a, f) ∈ st ≫= account_part ↔ ∃ acc, (a, acc) ∈ st ∧ touched acc = true ∧ f = fields_of acc.
Proof.
  rewrite list_elem_of_bind. split.
  - intros ([a' acc] & Hf & Hin). unfold account_part in Hf. cbn in Hf. destruct (touched acc) eqn:Et; [|by apply elem_of_nil in Hf].
    apply list_elem_of_singleton in Hf as [= -> ->]. by exists acc.
  - intros (acc & Hin & Et & ->). exists (a, acc). split; [|done]. unfold account_part. cbn. rewrite Et. by apply list_elem_of_singleton.
Qed.

Lemma account_from_state st a : NoDup st.*1 → WriteSet.account (WriteSet.from_evm_state st) a =
  (acc ← find_entry a st; if touched acc then Some (fields_of acc) else None).
Proof.
  intros Hnd. rewrite from_evm_state_parts. unfold WriteSet.account, WriteSet.finish. cbn. apply option_eq. intros f.
  rewrite find_entry_iff; [rewrite (merge_sort_Permutation entry_le)|intros ??; rewrite !(merge_sort_Permutation entry_le); by apply account_part_unique].
  rewrite account_part_elem, bind_Some. split.
  - intros (acc & Hin & Et & ->). exists acc. rewrite Et. split; [by apply find_entry_nodup|done].
  - intros (acc & Hf & He). destruct (touched acc) eqn:Et; [|done]. injection He as <-. exists acc. by rewrite find_entry_nodup in Hf.
Qed.

Lemma slot_from_state st a k : state_ok st → find_entry (a, k) (WriteSet.storage (WriteSet.from_evm_state st)) =
  (acc ← find_entry a st; s ← (if touched acc then find_entry k (acc_storage acc) else None);
   if (original_value s =? present_value s)%N then None else Some (present_value s)).
Proof.
  intros Hok. pose proof Hok as [Hnd Hs _]. rewrite from_evm_state_parts. unfold WriteSet.finish. cbn. apply option_eq. intros v.
  rewrite find_entry_iff; [rewrite (merge_sort_Permutation entry_le)|intros ??; rewrite !(merge_sort_Permutation entry_le); by apply storage_part_unique].
  rewrite list_elem_of_bind, bind_Some. rewrite Forall_forall in Hs. split.
  - intros ([a' acc] & Hp & Hin). apply storage_part_elem in Hp as (Et & -> & s & Hk & -> & Hne). exists acc. cbn in *.
    split; [by apply find_entry_nodup|]. rewrite Et, bind_Some. exists s. split; [apply find_entry_nodup; [by apply (Hs _ Hin)|done]|].
    by rewrite (proj2 (N.eqb_neq _ _) Hne).
  - intros (acc & Hf & He). apply find_entry_nodup in Hf; [|done]. destruct (touched acc) eqn:Et; [|done].
    apply bind_Some in He as (s & Hk & Hv). destruct (N.eqb_spec (original_value s) (present_value s)); [done|]. injection Hv as <-.
    exists (a, acc). split; [|done]. unfold storage_part. cbn. rewrite Et. apply list_elem_of_omap. exists (k, s).
    split; [by apply find_entry_elem|]. by rewrite (proj2 (N.eqb_neq _ _) n).
Qed.

(** C29. The write set of a transaction, and so its hash, does not depend on the order
    in which revm lists the accounts and slots that it touched. *)
Theorem extraction_canonical (s1 s2 : EvmState) : state_ok s1 → same_state s1 s2 →
  WriteSet.from_evm_state s1 = WriteSet.from_evm_state s2.
Proof.
  intros Hok (Ha & Hs & Hc)%same_parts. rewrite !from_evm_state_parts. unfold WriteSet.finish. cbn.
  f_equal; apply merge_sort_entries_perm; try done.
  - intros ???. apply account_part_unique, Hok.
  - intros ???. by apply storage_part_unique.
  - apply Hok.
Qed.

Lemma extraction_canonical_witness :
  let x := (5%N, mkAccount (mkInfo 7 1 KECCAK_EMPTY None) [(1, mkSlot 0 4); (2, mkSlot 9 9)]%N true false false) in
  let x' := (5%N, mkAccount (mkInfo 7 1 KECCAK_EMPTY None) [(2, mkSlot 9 9); (1, mkSlot 0 4)]%N true false false) in
  let y := (3%N, mkAccount (mkInfo 0 1 9 (Some [96%N])) [] true true false) in
  WriteSet.from_evm_state [x; y] = WriteSet.from_evm_state [y; x'].
Proof.
  intros x x' y. apply (extraction_canonical [x; y] [y; x']).
  - split; [by repeat constructor; set_solver|by repeat constructor; set_solver|]. intros h b b' Hb Hb'. cbn in Hb, Hb'. set_solver.
  - exists [x'; y]. split; [constructor|]. repeat constructor.
Defined.

