(* ===== verification/Effects.v ===== *)
(** * Effect trees

    A computation that asks its environment: a finite tree of questions. A node
    asks an event and goes on with the answer. A tree runs against a handler that
    answers every question at once, or one question at a time, interleaved with
    other trees over a shared memory. *)
From S2P Require Import Prelude.

Inductive Tree (E : Type → Type) (R : Type) : Type :=
| Ret (r : R)
| Vis (X : Type) (e : E X) (k : X → Tree E R).
Arguments Ret {E R} _.
Arguments Vis {E R} {X} _ _.

Fixpoint tbind {E A B} (t : Tree E A) (f : A → Tree E B) : Tree E B :=
  match t with
  | Ret a => f a
  | Vis e k => Vis e (λ x, tbind (k x) f)
  end.

#[export] Instance tree_ret E : MRet (Tree E) := λ A a, Ret a.
#[export] Instance tree_bind E : MBind (Tree E) := λ A B f t, tbind t f.

(** One question. *)
Definition ask {E X} (e : E X) : Tree E X := Vis e Ret.

(** Go on with the value of a fallible step, or stop with its error. *)
Definition tbind_ok {E Er A B} (t : Tree E (result Er A)) (f : A → Tree E (result Er B)) : Tree E (result Er B) :=
  tbind t (λ r, match r with Ok a => f a | Err e => Ret (Err e) end).

(** Run against a handler. *)
Fixpoint run {E R} (h : ∀ X, E X → X) (t : Tree E R) : R :=
  match t with
  | Ret r => r
  | Vis e k => run h (k (h _ e))
  end.

(** The events of one tree as events of another. *)
Fixpoint translate {E F R} (f : ∀ X, E X → F X) (t : Tree E R) : Tree F R :=
  match t with
  | Ret r => Ret r
  | Vis e k => Vis (f _ e) (λ x, translate f (k x))
  end.

(** [can A t r]: the tree can end in [r] on answers that [A] allows. *)
Fixpoint can {E R} (A : ∀ X, E X → X → Prop) (t : Tree E R) (r : R) : Prop :=
  match t with
  | Ret r' => r' = r
  | Vis e k => ∃ x, A _ e x ∧ can A (k x) r
  end.

Section trees.
Context {E : Type → Type}.

Lemma run_bind {A B} h (t : Tree E A) (f : A → Tree E B) : run h (tbind t f) = run h (f (run h t)).
Proof. induction t as [|X e k IH]; cbn; [done|apply IH]. Qed.

Lemma run_bind_ok {Er A B} h (t : Tree E (result Er A)) (f : A → Tree E (result Er B)) :
  run h (tbind_ok t f) = match run h t with Ok a => run h (f a) | Err e => Err e end.
Proof. unfold tbind_ok. rewrite run_bind. by destruct (run h t). Qed.

Lemma can_mono {R} (A B : ∀ X, E X → X → Prop) (t : Tree E R) r :
  (∀ X e x, A X e x → B X e x) → can A t r → can B t r.
Proof. intros HAB. induction t as [|X e k IH]; cbn; [done|]. intros (x & ? & ?). eauto. Qed.

Lemma can_bind {R S} (A : ∀ X, E X → X → Prop) (t : Tree E R) (f : R → Tree E S) r s :
  can A t r → can A (f r) s → can A (tbind t f) s.
Proof.
  induction t as [r'|X e k IH]; cbn; [by intros ->|]. intros (x & ? & ?) ?. exists x. split; [done|]. by eapply IH.
Qed.

Lemma can_run {R} h (t : Tree E R) : can (λ X e x, x = h X e) t (run h t).
Proof. induction t as [|X e k IH]; cbn; [done|]. eexists. split; [done|apply IH]. Qed.
End trees.
