(* ===== verification/ExecScope.v ===== *)
(** * The execution scope of a block

    Models [crates/exec-core]: the settlement of fees ([settle.rs]), the skip of
    an invalid record ([executor/skip.rs]) and its nonce burn
    ([executor/burn.rs]), the snapshot adapter and the view of a layer
    ([executor/db.rs]), the derivation of a transaction environment
    ([executor/tx_env.rs]), the scope that runs a block in sequence
    ([executor/scope.rs]), and the sequential engine of [crates/stm]
    ([execute/sequential.rs]).

    The EVM (revm) is a parameter: a transaction is a tree of the questions that
    it puts to its database, and ends in an outcome. An account is answered
    without its code, and the code is asked by its hash. The block cache of revm
    ([CacheDB]) is a parameter too: its operations are here, its laws are with
    the theorems. The capture of access lists and touched cells, the log lines
    and the counters are left out. *)
From S2P Require Import Prelude Bytes Types Fees WriteSet Effects.

(** ** The database of the EVM *)

(** A failed read; the text of the error is left out. *)
Inductive StateErr : Type := StateRefError.

Inductive DbE : Type → Type :=
| BasicE (address : Address) : DbE (result StateErr (option AccountFields))
| StorageE (address : Address) (index : N) : DbE (result StateErr N)
| CodeByHashE (code_hash : B256) : DbE (result StateErr (list N))
| BlockHashE (number : N) : DbE (result StateErr B256).

(** The reads of [kardamom_types::StateDatabase] that execution uses. *)
Record StateDatabase : Type := mkStateDb {
  sdb_basic : Address → result StateErr (option AccountFields);
  sdb_storage : Address → B256 → result StateErr N;
  sdb_code_by_hash : B256 → result StateErr (list N);
}.

(** [account_info]: the answer for an account, with one spelling of no code. *)
Definition account_info (f : AccountFields) : AccountFields :=
  mkFields (af_nonce f) (af_balance f) (to_revm_code_hash (af_code_hash f)).

(** The adapter of a snapshot. *)
Module SnapshotRef.
Definition basic_ref (s : StateDatabase) (address : Address) : result StateErr (option AccountFields) :=
  match sdb_basic s address with Ok a => Ok (account_info <$> a) | Err e => Err e end.

Definition code_by_hash_ref (s : StateDatabase) (code_hash : B256) : result StateErr (list N) :=
  if (code_hash =? KECCAK_EMPTY)%N then Ok []
  else raw ← sdb_code_by_hash s code_hash; if bool_decide (raw = []) then Ok [] else Ok raw.

Definition storage_ref (s : StateDatabase) (address : Address) (index : N) : result StateErr N :=
  sdb_storage s address index.

Definition block_hash_ref (s : StateDatabase) (number : N) : result StateErr B256 := Ok 0%N.
End SnapshotRef.

(** ** Transactions *)

Inductive TxKind : Type := TxCall (to : Address) | TxCreate.

(** What the accessors of the decoded envelope of alloy answer. *)
Record AlloyEnvelope (Authorization : Type) : Type := mkAlloy {
  al_ty : N;
  al_chain_id : option N;
  al_nonce : N;
  al_gas_limit : N;
  al_value : N;
  al_input : list N;
  al_to : option Address;
  al_gas_price : option N;
  al_max_fee_per_gas : N;
  al_max_priority_fee_per_gas : option N;
  al_priority_fee_or_price : N;
  al_is_dynamic_fee : bool;
  al_access_list : option (list (Address * list B256));
  al_blob_versioned_hashes : option (list B256);
  al_max_fee_per_blob_gas : option N;
  al_authorization_list : option (list Authorization);
}.
Arguments mkAlloy {_} _ _ _ _ _ _ _ _ _ _ _ _ _ _ _ _.
Arguments al_ty {_} _.
Arguments al_chain_id {_} _.
Arguments al_nonce {_} _.
Arguments al_gas_limit {_} _.
Arguments al_value {_} _.
Arguments al_input {_} _.
Arguments al_to {_} _.
Arguments al_gas_price {_} _.
Arguments al_max_fee_per_gas {_} _.
Arguments al_max_priority_fee_per_gas {_} _.
Arguments al_priority_fee_or_price {_} _.
Arguments al_is_dynamic_fee {_} _.
Arguments al_access_list {_} _.
Arguments al_blob_versioned_hashes {_} _.
Arguments al_max_fee_per_blob_gas {_} _.
Arguments al_authorization_list {_} _.

Record TxEnv (Authorization : Type) : Type := mkTxEnv {
  txe_tx_type : N;
  txe_caller : Address;
  txe_chain_id : option N;
  txe_nonce : N;
  txe_gas_limit : N;
  txe_value : N;
  txe_data : list N;
  txe_kind : TxKind;
  txe_gas_price : N;
  txe_gas_priority_fee : option N;
  txe_access_list : list (Address * list B256);
  txe_blob_hashes : list B256;
  txe_max_fee_per_blob_gas : N;
  txe_authorization_list : list Authorization;
}.
Arguments mkTxEnv {_} _ _ _ _ _ _ _ _ _ _ _ _ _ _.
Arguments txe_caller {_} _.
Arguments txe_nonce {_} _.
Arguments txe_gas_limit {_} _.
Arguments txe_value {_} _.
Arguments txe_kind {_} _.
Arguments txe_gas_price {_} _.
Arguments txe_authorization_list {_} _.

Module DecodedTx.
Section decoded.
Context {Authorization : Type}.

Definition fees (d : AlloyEnvelope Authorization) : TxFees :=
  mkTxFees (al_gas_limit d) (al_max_fee_per_gas d) (al_priority_fee_or_price d) (negb (al_is_dynamic_fee d)).

Definition tx_env (d : AlloyEnvelope Authorization) (signer : Address) : TxEnv Authorization :=
  mkTxEnv (al_ty d) signer (al_chain_id d) (al_nonce d) (al_gas_limit d) (al_value d) (al_input d)
    (match al_to d with Some addr => TxCall addr | None => TxCreate end)
    (match al_gas_price d with Some p => p | None => al_max_fee_per_gas d end)
    (al_max_priority_fee_per_gas d)
    (default [] (al_access_list d))
    (default [] (al_blob_versioned_hashes d))
    (default 0%N (al_max_fee_per_blob_gas d))
    (default [] (al_authorization_list d)).
End decoded.
End DecodedTx.

(** ** The environment of a block *)

Record BlockFeatures : Type := mkFeatures { health_check : bool; sealer_v3 : bool }.

Record ExecEnv : Type := mkExecEnv {
  ee_chain_id : N;
  ee_block_number : N;
  ee_l2_timestamp : N;
  ee_fees : BlockFees;
  ee_features : BlockFeatures;
}.

(** ** Outcomes of the EVM *)

Inductive ExecutionResult : Type :=
| ESuccess (gas : N) (logs : list WireLog)
| ERevert (gas : N)
| EHalt (reason gas : N).

Definition tx_gas_used (r : ExecutionResult) : N :=
  match r with ESuccess gas _ => gas | ERevert gas => gas | EHalt _ gas => gas end.

Record ResultAndState : Type := mkOutcome { oc_result : ExecutionResult; oc_state : EvmState }.

(** The validation errors that the classification names, and the others. *)
Inductive InvalidTransaction : Type :=
| ItNonceTooLow | ItNonceTooHigh | ItLackOfFundForMaxFee | ItOverflowPaymentInTransaction
| ItCallerGasLimitMoreThanBlock | ItCallGasCostMoreThanGasLimit | ItGasFloorMoreThanGasLimit | ItTxGasLimitGreaterThanCap
| ItPriorityFeeGreaterThanMaxFee | ItGasPriceLessThanBasefee | ItBlobGasPriceGreaterThanMax
| ItCreateInitCodeSizeLimit | ItRejectCallerWithCode | ItInvalidChainId | ItMissingChainId
| ItOther (code : N).

Inductive EVMError : Type :=
| EvmTransaction (e : InvalidTransaction)
| EvmHeader
| EvmDatabase
| EvmCustom.

(** The failures that halt execution. *)
Inductive ExecutorError : Type :=
| ExecState
| ExecExecution (idx : N).

Record TxSlot : Type := mkTxSlot {
  sl_tx_idx : N;
  sl_tx_position : BPosition;
  sl_tx_index_in_block : N;
  sl_cumulative_gas_used_before : N;
}.

(** What execution takes from libraries: the EVM, the consensus decoder, the
    address of a created contract, the hash and the 256-bit integers. *)
Class Evm := {
  Authorization : Type;
  transact : ExecEnv → TxEnv Authorization → Tree DbE (result EVMError ResultAndState);
  decode_2718 : list N → option (AlloyEnvelope Authorization);
  create_address : Address → N → Address;
  keccak256 : list N → B256;
  evm_u256 :: U256;
}.

Definition u256_checked_sub (a b : N) : option N := if (b <=? a)%N then Some (a - b)%N else None.
Definition u256_checked_add (a b : N) : option N := if (a + b <=? u256_max)%N then Some (a + b)%N else None.

(** ** Settlement *)

Record ReceiptPrice : Type := mkPrice { rp_effective_gas_price : N; rp_priority_fee_per_gas : N; rp_priority_fee_paid : N }.

Definition flat (effective_gas_price : N) : ReceiptPrice := mkPrice effective_gas_price 0 0.

(** [get_mut] and a write: the first entry of a key. *)
Fixpoint update_entry {V} (k : Address) (f : V → V) (l : list (Address * V)) : list (Address * V) :=
  match l with
  | [] => []
  | (k', v) :: l' => if decide (k' = k) then (k', f v) :: l' else (k', v) :: update_entry k f l'
  end.

Definition with_balance (b : N) (a : Account) : Account :=
  let i := acc_info a in
  mkAccount (mkInfo b (info_nonce i) (info_code_hash i) (info_code i)) (acc_storage a) (touched a) (created a) (selfdestructed a).

Module TipSettlement.
Record t : Type := mk { rate : N; base_fee : N; extra : N; paid : N }.

Section tip.
Context `{U256}.

Definition settlement_of (fees : TxFees) (block : BlockFees) (gas_used : N) : option t :=
  if negb (scheduled block) then None
  else
    rate ← effective_tip_rate fees (Fees.base_fee block);
    paid ← tip_amount fees (Fees.base_fee block);
    Some (mk rate (Fees.base_fee block) (u256_mul rate (gas_limit fees - gas_used)) paid).

Definition account (state : EvmState) (address : Address) : result ExecutorError Account :=
  ok_or (find_entry address state) ExecState.

Definition apply (self : t) (state : EvmState) (caller beneficiary : Address) : result ExecutorError EvmState :=
  if (extra self =? 0)%N then Ok state
  else
    debit ← account state caller;
    b ← ok_or (u256_checked_sub (info_balance (acc_info debit)) (extra self)) ExecState;
    let state := update_entry caller (with_balance b) state in
    credit ← account state beneficiary;
    b ← ok_or (u256_checked_add (info_balance (acc_info credit)) (extra self)) ExecState;
    Ok (update_entry beneficiary (with_balance b) state).

Definition receipt_price (self : t) : ReceiptPrice :=
  mkPrice (base_fee self) (rate self) (saturating_to_u128 (paid self)).
End tip.
End TipSettlement.

Definition settle `{U256} (fees : TxFees) (block : BlockFees) (gas_used : N) (state : EvmState) (caller : Address)
  : result ExecutorError (EvmState * ReceiptPrice) :=
  match TipSettlement.settlement_of fees block gas_used with
  | None => Ok (state, flat (max_fee_per_gas fees))
  | Some tip =>
    state ← TipSettlement.apply tip state caller (beneficiary block);
    Ok (state, TipSettlement.receipt_price tip)
  end.

(** ** Skips *)

Definition skip_reason_of_tx (err : InvalidTransaction) : SkipReason :=
  match err with
  | ItNonceTooLow => NonceTooLow
  | ItNonceTooHigh => NonceTooHigh
  | ItLackOfFundForMaxFee | ItOverflowPaymentInTransaction => InsufficientFundsSkip
  | ItCallerGasLimitMoreThanBlock | ItCallGasCostMoreThanGasLimit
  | ItGasFloorMoreThanGasLimit | ItTxGasLimitGreaterThanCap => GasLimit
  | ItPriorityFeeGreaterThanMaxFee | ItGasPriceLessThanBasefee | ItBlobGasPriceGreaterThanMax => Fee
  | ItCreateInitCodeSizeLimit => InitCodeSize
  | ItRejectCallerWithCode => SenderHasCode
  | _ => OtherTransaction
  end.

Record SkippedRecord : Type := mkSkipped { sr_slot : TxSlot; sr_envelope : TxEnvelope; sr_block_number : N }.

Record Skip : Type := mkSkip {
  sk_reason : SkipReason;
  sk_burnable : bool;
  sk_record : SkippedRecord;
  sk_nonce : N;
  sk_to : option Address;
}.

Definition undecodable (r : SkippedRecord) : Skip := mkSkip Undecodable false r 0 None.

Definition other_chain (e : InvalidTransaction) : bool :=
  match e with ItInvalidChainId | ItMissingChainId => true | _ => false end.

Definition rejected (r : SkippedRecord) (e : EVMError) (nonce : N) (to : option Address) : result ExecutorError Skip :=
  match e with
  | EvmTransaction e =>
    let reason := skip_reason_of_tx e in
    Ok (mkSkip reason (can_use_nonce reason && negb (other_chain e)) r nonce to)
  | EvmHeader => Ok (mkSkip Header (can_use_nonce Header) r nonce to)
  | EvmDatabase | EvmCustom => Err (ExecExecution (sl_tx_idx (sr_slot r)))
  end.

(** *** The nonce burn *)

Record NonceBurn : Type := mkBurn { nb_sender : Address; nb_nonce : N }.

(** [Account::from] an account that was read, touched, at the next nonce. *)
Definition burnt_account (f : AccountFields) (next : N) : Account :=
  mkAccount (mkInfo (af_balance f) next (af_code_hash f) None) [] true false false.

(** [AccountInfo::default], as an answer. *)
Definition default_fields : AccountFields := mkFields 0 0 KECCAK_EMPTY.

Definition burn_account_state (b : NonceBurn) (features : BlockFeatures)
  : Tree DbE (result ExecutorError (option EvmState)) :=
  if negb (sealer_v3 features) then Ret (Ok None)
  else
    Vis (BasicE (nb_sender b)) (λ r,
      Ret match r with
      | Err _ => Err ExecState
      | Ok a =>
        let info := default default_fields a in
        match u64_checked_add (nb_nonce b) 1 with
        | Some next =>
          if (af_nonce info =? nb_nonce b)%N then Ok (Some [(nb_sender b, burnt_account info next)]) else Ok None
        | None => Ok None
        end
      end).

Definition burn_state (s : Skip) (features : BlockFeatures) : Tree DbE (result ExecutorError (option EvmState)) :=
  if negb (sk_burnable s) then Ret (Ok None)
  else burn_account_state (mkBurn (te_sender (sr_envelope (sk_record s))) (sk_nonce s)) features.

(** *** The receipt of a skip *)

Section receipts.
Context `{Evm}.

(** The hash of a write set never panics ([WriteSetSpec.hash_fits]). *)
Definition ws_hash (ws : WriteSet.t) : B256 := default 0%N (WriteSet.hash keccak256 ws).

(** [failed_derived_receipt] and [skip_receipt]. *)
Definition skip_receipt (s : Skip) (ws : WriteSet.t) : Receipt * WriteSet.t :=
  let '(mkSkipped slot envelope block_number) := sk_record s in
  ({| tx_idx := sl_tx_position slot; tx_type := tx_type_of (raw_tx envelope); rc_tx_hash := te_tx_hash envelope;
      status := false; gas_used := 0; logs := []; write_set_hash := ws_hash ws; rc_nonce := sk_nonce s;
      from := te_sender envelope; to := sk_to s; contract_address := None; effective_gas_price := 0;
      priority_fee_per_gas := 0; priority_fee_paid := 0; block_number := block_number;
      transaction_index := sl_tx_index_in_block slot;
      cumulative_gas_used := sl_cumulative_gas_used_before slot; skip_reason := Some (sk_reason s) |}, ws).

Inductive ReceiptStatus : Type := RsSuccess | RsRevert | RsHalt (reason : N).

Definition is_success (s : ReceiptStatus) : bool := match s with RsSuccess => true | _ => false end.

(** [status_and_wire_logs]. *)
Definition status_and_wire_logs (r : ExecutionResult) : ReceiptStatus * list WireLog :=
  match r with
  | ESuccess _ logs => (RsSuccess, logs)
  | ERevert _ => (RsRevert, [])
  | EHalt reason _ => (RsHalt reason, [])
  end.

(** [build_tx_receipt] of the scope, which adds up the gas. *)
Definition build_tx_receipt (env : ExecEnv) (outcome : ExecutionResult) (slot : TxSlot) (envelope : TxEnvelope) (nonce : N)
    (to : option Address) (signer : Address) (price : ReceiptPrice) (hash : B256) : result ExecutorError Receipt :=
  let gas := tx_gas_used outcome in
  let '(status, logs) := status_and_wire_logs outcome in
  cumulative ← ok_or (u64_checked_add (sl_cumulative_gas_used_before slot) gas) (ExecExecution (sl_tx_idx slot));
  Ok {| tx_idx := sl_tx_position slot; tx_type := tx_type_of (raw_tx envelope); rc_tx_hash := te_tx_hash envelope;
        status := is_success status; gas_used := gas; logs := logs; write_set_hash := hash; rc_nonce := nonce;
        from := signer; to := to;
        contract_address := if bool_decide (to = None) && is_success status then Some (create_address signer nonce) else None;
        effective_gas_price := rp_effective_gas_price price; priority_fee_per_gas := rp_priority_fee_per_gas price;
        priority_fee_paid := rp_priority_fee_paid price; block_number := ee_block_number env;
        transaction_index := sl_tx_index_in_block slot; cumulative_gas_used := cumulative; skip_reason := None |}.
End receipts.

(** ** The scope of a block *)

(** The block cache of revm over a snapshot. *)
Class CacheDB := {
  cdb : Type;
  cdb_new : StateDatabase → cdb;
  cdb_insert_account_info : cdb → Address → AccountInfo → cdb;
  cdb_insert_account_storage : cdb → Address → N → N → result StateErr cdb;
  cdb_commit : cdb → EvmState → cdb;
  cdb_answer : cdb → ∀ X, DbE X → X;
}.

Section scope.
Context `{Evm} `{CacheDB}.

Abbreviation DecodedTx := (AlloyEnvelope Authorization).

(** [seed_cache_layer]: the accounts, each with its code when the layer has it,
    then the storage. The entries have distinct keys, so the order in which the
    maps are walked is not seen. *)
Definition seed_account (layer : PendingDelta.t) (c : cdb) (e : Address * AccountFields) : cdb :=
  let '(addr, f) := e in
  cdb_insert_account_info c addr
    (mkInfo (af_balance f) (af_nonce f) (af_code_hash f)
       (code ← PendingDelta.code layer !! af_code_hash f; if bool_decide (code = []) then None else Some code)).

Definition seed_storage (c : cdb) (e : (Address * B256) * N) : result StateErr cdb :=
  let '((addr, key), value) := e in cdb_insert_account_storage c addr key value.

Definition seed_cache_layer (c : cdb) (layer : PendingDelta.t) : result StateErr cdb :=
  let c := fold_left (seed_account layer) (map_to_list (PendingDelta.accounts layer)) c in
  try_fold seed_storage c (map_to_list (PendingDelta.storage layer)).

Record Executor : Type := mkExecutor { ex_cache : cdb; ex_env : ExecEnv }.

Definition seed_layer (sc : Executor) (layer : PendingDelta.t) : result ExecutorError Executor :=
  match seed_cache_layer (ex_cache sc) layer with
  | Ok c => Ok (mkExecutor c (ex_env sc))
  | Err _ => Err ExecState
  end.

Definition executor_new (snapshot : StateDatabase) (parent : option PendingDelta.t) (env : ExecEnv)
  : result ExecutorError Executor :=
  let sc := mkExecutor (cdb_new snapshot) env in
  match parent with Some layer => seed_layer sc layer | None => Ok sc end.

(** The receipt of a skipped record, and its nonce burn when it makes one. *)
Definition scope_skip (sc : Executor) (s : Skip) : result ExecutorError (Executor * (Receipt * WriteSet.t)) :=
  match run (cdb_answer (ex_cache sc)) (burn_state s (ee_features (ex_env sc))) with
  | Err e => Err e
  | Ok None => Ok (sc, skip_receipt s WriteSet.default)
  | Ok (Some state) =>
    Ok (mkExecutor (cdb_commit (ex_cache sc) state) (ex_env sc), skip_receipt s (WriteSet.from_evm_state state))
  end.

Definition execute_tx_decoded (sc : Executor) (slot : TxSlot) (envelope : TxEnvelope) (d : DecodedTx)
  : result ExecutorError (Executor * (Receipt * WriteSet.t)) :=
  let env := ex_env sc in
  let signer := te_sender envelope in
  match run (cdb_answer (ex_cache sc)) (transact env (DecodedTx.tx_env d signer)) with
  | Err e =>
    match rejected (mkSkipped slot envelope (ee_block_number env)) e (al_nonce d) (al_to d) with
    | Ok s => scope_skip sc s
    | Err e => Err e
    end
  | Ok outcome =>
    let gas := tx_gas_used (oc_result outcome) in
    match settle (DecodedTx.fees d) (ee_fees env) gas (oc_state outcome) signer with
    | Err e => Err e
    | Ok (state, price) =>
      let ws := WriteSet.from_evm_state state in
      let sc := mkExecutor (cdb_commit (ex_cache sc) state) env in
      match build_tx_receipt env (oc_result outcome) slot envelope (al_nonce d) (al_to d) signer price (ws_hash ws) with
      | Ok receipt => Ok (sc, (receipt, ws))
      | Err e => Err e
      end
    end
  end.

Definition execute_tx (sc : Executor) (slot : TxSlot) (envelope : TxEnvelope)
  : result ExecutorError (Executor * (Receipt * WriteSet.t)) :=
  match decode_2718 (raw_tx envelope) with
  | Some d => execute_tx_decoded sc slot envelope d
  | None => scope_skip sc (undecodable (mkSkipped slot envelope (ee_block_number (ex_env sc))))
  end.

(** ** The sequential engine *)

Record SeqTx : Type := mkSeqTx { st_tx_idx : N; st_position : BPosition; st_envelope : TxEnvelope; st_decoded : option DecodedTx }.

Record SeqAcc : Type := mkAcc { sa_receipts : list Receipt; sa_delta : PendingDelta.t; sa_cumulative : N }.

Definition apply_one (acc : SeqAcc) (sc : Executor) (i : N) (record : SeqTx) : result ExecutorError (SeqAcc * Executor) :=
  let slot := mkTxSlot (st_tx_idx record) (st_position record) i (sa_cumulative acc) in
  match match st_decoded record with
        | Some d => execute_tx_decoded sc slot (st_envelope record) d
        | None => execute_tx sc slot (st_envelope record)
        end with
  | Err e => Err e
  | Ok (sc, (receipt, ws)) =>
    Ok (mkAcc (sa_receipts acc ++ [receipt]) (PendingDelta.apply (sa_delta acc) ws) (cumulative_gas_used receipt), sc)
  end.

Fixpoint apply_all (acc : SeqAcc) (sc : Executor) (i : N) (records : list SeqTx) : result ExecutorError SeqAcc :=
  match records with
  | [] => Ok acc
  | record :: records' =>
    match apply_one acc sc i record with
    | Err e => Err e
    | Ok (acc, sc) => apply_all acc sc (i + 1) records'
    end
  end.

Definition sequential_inner (snapshot : StateDatabase) (base : option PendingDelta.t) (env : ExecEnv) (txs : list SeqTx)
  : result ExecutorError (list Receipt * PendingDelta.t) :=
  match executor_new snapshot base env with
  | Err e => Err e
  | Ok sc =>
    match apply_all (mkAcc [] PendingDelta.new 0) sc 0 txs with
    | Ok acc => Ok (sa_receipts acc, sa_delta acc)
    | Err e => Err e
    end
  end.

Definition execute_block_sequential (snapshot : StateDatabase) (base : option PendingDelta.t) (env : ExecEnv)
    (txs : list (N * BPosition * TxEnvelope)) : result ExecutorError (list Receipt * PendingDelta.t) :=
  sequential_inner snapshot base env ((λ '(idx, pos, e), mkSeqTx idx pos e None) <$> txs).
End scope.
