(* ===== verification/ExecScopeSpec.v ===== *)
(** * The scope of a block against its write sets

    What the sequential engine computes, stated over views: a view answers every
    account and every slot, and a write set overlays it. The laws of the block
    cache are the documented behaviour of revm's [CacheDB]: it serves what was
    seeded and committed, over the snapshot. The laws of the EVM ([EvmLaws]) are
    what revm documents of a transaction without EIP-7702 authorizations. The
    lemmas show that the write set of a record is the whole of its state change
    when it destroys no account. *)
From S2P Require Import Prelude Bytes Types Fees WriteSet WriteSetSpec Effects ExecScope.

(** ** Views *)

Record View : Type := mkView { v_basic : Address → option AccountFields; v_storage : Address → N → N }.

#[export] Instance view_equiv : Equiv View := λ V W,
  (∀ a, v_basic V a = v_basic W a) ∧ (∀ a k, v_storage V a k = v_storage W a k).

#[export] Instance view_equivalence : Equivalence (≡@{View}).
Proof.
  split.
  - by intros V.
  - intros V W [H1 H2]. by split; intros; rewrite ?H1, ?H2.
  - intros U V W [H1 H2] [H3 H4]. by split; intros; rewrite ?H1, ?H2, ?H3, ?H4.
Qed.

#[export] Instance v_basic_proper : Proper ((≡) ==> (=) ==> (=)) v_basic.
Proof. by intros V W [H _] ? a ->. Qed.
#[export] Instance v_storage_proper : Proper ((≡) ==> (=) ==> (=) ==> (=)) v_storage.
Proof. by intros V W [_ H] ? a -> ? k ->. Qed.

(** The code behind a hash: hashes are taken not to collide. *)
Class Content := {
  code_of : B256 → list N;
  code_of_empty : code_of KECCAK_EMPTY = [];
  code_of_zero : code_of 0%N = [];
}.

Definition view_answer `{Content} (V : View) (X : Type) (e : DbE X) : X :=
  match e with
  | BasicE a => Ok (v_basic V a)
  | StorageE a k => Ok (v_storage V a k)
  | CodeByHashE h => Ok (code_of h)
  | BlockHashE _ => Ok 0%N
  end.

#[export] Instance view_answer_proper `{Content} X : Proper ((≡) ==> (=) ==> (=)) (λ V, view_answer V X).
Proof. intros V W HVW e ? <-. destruct e; cbn; by rewrite ?HVW. Qed.

#[export] Instance run_view_proper `{Content} {R} : Proper ((≡) ==> (=) ==> (=)) (λ V, run (R := R) (view_answer V)).
Proof.
  intros V W HVW t ? <-. induction t as [|X e k IH]; cbn; [done|].
  by rewrite (view_answer_proper X V W HVW e e eq_refl).
Qed.

(** What a write set and a delta make of a view. *)
Definition overlay (V : View) (ws : WriteSet.t) : View :=
  mkView
    (λ a, match WriteSet.account ws a with Some f => Some (account_info f) | None => v_basic V a end)
    (λ a k, default (v_storage V a k) (find_entry (a, k) (WriteSet.storage ws))).

Definition overlay_delta (V : View) (d : PendingDelta.t) : View :=
  mkView
    (λ a, match PendingDelta.accounts d !! a with Some f => Some (account_info f) | None => v_basic V a end)
    (λ a k, default (v_storage V a k) (PendingDelta.storage d !! (a, k))).

#[export] Instance overlay_proper : Proper ((≡) ==> (=) ==> (≡)) overlay.
Proof. intros V W [H1 H2] ws ? <-. split; intros; cbn; by rewrite ?H1, ?H2. Qed.
#[export] Instance overlay_delta_proper : Proper ((≡) ==> (=) ==> (≡)) overlay_delta.
Proof. intros V W [H1 H2] d ? <-. split; intros; cbn; by rewrite ?H1, ?H2. Qed.

(** ** The laws of the block cache *)

Definition info_fields (i : AccountInfo) : AccountFields :=
  account_info (mkFields (info_nonce i) (info_balance i) (info_code_hash i)).

(** The code that an account carries is the code of its hash. *)
Definition code_sound `{Content} (i : AccountInfo) : Prop :=
  ∀ b, info_code i = Some b → b ≠ [] → b = code_of (info_code_hash i).

Definition set_account (V : View) (addr : Address) (f : AccountFields) : View :=
  mkView (λ a, if decide (a = addr) then Some f else v_basic V a) (v_storage V).

Definition set_slot (V : View) (addr : Address) (key v : N) : View :=
  mkView (v_basic V) (λ a k, if decide ((a, k) = (addr, key)) then v else v_storage V a k).

(** A committed account: its fields, and a slot of it; an account that destroyed
    itself is gone, and a created one starts with no storage. *)
Definition commit_account (acc : Account) : option AccountFields :=
  if selfdestructed acc then None else Some (info_fields (acc_info acc)).

Definition commit_slot (acc : Account) (k old : N) : N :=
  if selfdestructed acc then 0%N
  else match find_entry k (acc_storage acc) with
       | Some s => present_value s
       | None => if created acc then 0%N else old
       end.

(** A committed state: the touched accounts. *)
Definition commit_view (V : View) (st : EvmState) : View :=
  mkView
    (λ a, match find_entry a st with
          | Some acc => if touched acc then commit_account acc else v_basic V a
          | None => v_basic V a
          end)
    (λ a k, match find_entry a st with
            | Some acc => if touched acc then commit_slot acc k (v_storage V a k) else v_storage V a k
            | None => v_storage V a k
            end).

(** A snapshot that never fails and keeps no storage of an absent account. *)
Definition snapshot_is (s : StateDatabase) (V : View) : Prop :=
  (∀ a, SnapshotRef.basic_ref s a = Ok (v_basic V a)) ∧
  (∀ a k, SnapshotRef.storage_ref s a k = Ok (v_storage V a k)) ∧
  (∀ a k, v_basic V a = None → v_storage V a k = 0%N).

Class CacheLaws `{Content} (C : CacheDB) := {
  serves : cdb → View → Prop;
  serves_basic : ∀ c V a, serves c V → cdb_answer c _ (BasicE a) = Ok (v_basic V a);
  serves_storage : ∀ c V a k, serves c V → cdb_answer c _ (StorageE a k) = Ok (v_storage V a k);
  serves_block_hash : ∀ c V n, serves c V → cdb_answer c _ (BlockHashE n) = Ok 0%N;
  serves_proper : ∀ c V W, V ≡ W → serves c V → serves c W;
  serves_new : ∀ s V, snapshot_is s V → serves (cdb_new s) V;
  serves_insert_info : ∀ c V a i, serves c V → code_sound i →
    serves (cdb_insert_account_info c a i) (set_account V a (info_fields i));
  serves_insert_storage : ∀ c V a k v, serves c V → ∃ c', cdb_insert_account_storage c a k v = Ok c' ∧
    serves c' (set_slot V a k v) ∧
    ∀ h, cdb_answer c _ (CodeByHashE h) = Ok (code_of h) → cdb_answer c' _ (CodeByHashE h) = Ok (code_of h);
  serves_commit : ∀ c V st, serves c V → NoDup st.*1 → Forall (λ e, touched e.2 = true → code_sound (acc_info e.2)) st →
    serves (cdb_commit c st) (commit_view V st);
  knows_empty : ∀ c V, serves c V → cdb_answer c _ (CodeByHashE KECCAK_EMPTY) = Ok [];
  knows_new : ∀ s h, SnapshotRef.code_by_hash_ref s h = Ok (code_of h) →
    cdb_answer (cdb_new s) _ (CodeByHashE h) = Ok (code_of h);
  knows_insert_info : ∀ c a i h, code_sound i →
    (cdb_answer c _ (CodeByHashE h) = Ok (code_of h) ∨ h = info_code_hash i ∧ ∃ b, info_code i = Some b ∧ b ≠ []) →
    cdb_answer (cdb_insert_account_info c a i) _ (CodeByHashE h) = Ok (code_of h);
  knows_commit : ∀ c st h, Forall (λ e, touched e.2 = true → code_sound (acc_info e.2)) st →
    (cdb_answer c _ (CodeByHashE h) = Ok (code_of h) ∨
     ∃ a acc b, (a, acc) ∈ st ∧ touched acc = true ∧ selfdestructed acc = false ∧ h = info_code_hash (acc_info acc) ∧
       info_code (acc_info acc) = Some b ∧ b ≠ []) →
    cdb_answer (cdb_commit c st) _ (CodeByHashE h) = Ok (code_of h);
}.

(** ** Transactions over a view *)

(** How a record ends: skipped, with the state of its burn if it makes one, or run
    and settled. *)
Inductive Ending : Type :=
| EndSkip (s : Skip) (state : option EvmState)
| EndRan (result : ExecutionResult) (state : EvmState) (price : ReceiptPrice).

Definition ending_state (e : Ending) : EvmState :=
  match e with EndSkip _ st => default [] st | EndRan _ st _ => st end.

Definition ending_ws (e : Ending) : WriteSet.t := WriteSet.from_evm_state (ending_state e).

(** The skip of a record at another running gas. *)
Definition with_cumulative (cumulative : N) (s : Skip) : Skip :=
  let '(mkSkipped slot envelope block_number) := sk_record s in
  mkSkip (sk_reason s) (sk_burnable s)
    (mkSkipped (mkTxSlot (sl_tx_idx slot) (sl_tx_position slot) (sl_tx_index_in_block slot) cumulative) envelope block_number)
    (sk_nonce s) (sk_to s).

(** An account hash that a tree has seen. *)
Definition learn (K : gset B256) {X} (e : DbE X) : X → gset B256 :=
  match e with
  | BasicE _ => λ r, match r with Ok (Some f) => {[ af_code_hash f ]} ∪ K | _ => K end
  | _ => λ _, K
  end.

Definition asks (K : gset B256) {X} (e : DbE X) : Prop :=
  match e with CodeByHashE h => h = KECCAK_EMPTY ∨ h ∈ K | _ => True end.

(** A hash is answered with its code. *)
Definition honest `{Content} {X} (e : DbE X) : X → Prop :=
  match e with CodeByHashE h => λ x, x = Ok (code_of h) | _ => λ _, True end.

(** A tree asks only for the code of accounts that it has read, and [P] holds of
    its end and of the hashes that it has seen. *)
Fixpoint tame `{Content} {R} (P : gset B256 → R → Prop) (K : gset B256) (t : Tree DbE R) : Prop :=
  match t with
  | Ret r => P K r
  | Vis e k => asks K e ∧ ∀ x, honest e x → tame P (learn K e x) (k x)
  end.

Section endings.
Context `{Evm} `{Content}.

(** The code of a touched account was read, or is new with the account. *)
Definition account_sound (K : gset B256) (acc : Account) : Prop :=
  touched acc = true →
  code_sound (acc_info acc) ∧
  (to_revm_code_hash (info_code_hash (acc_info acc)) = KECCAK_EMPTY ∨ info_code_hash (acc_info acc) ∈ K ∨
   created acc = true ∧ ∃ b, info_code (acc_info acc) = Some b ∧ b ≠ []).

Definition state_sound (K : gset B256) (st : EvmState) : Prop := Forall (λ e, account_sound K e.2) st.

(** A state is a map of maps. *)
Definition state_keys (st : EvmState) : Prop := NoDup st.*1 ∧ Forall (λ e, NoDup (acc_storage e.2).*1) st.

Definition outcome_sound (K : gset B256) (r : result EVMError ResultAndState) : Prop :=
  match r with Ok o => state_keys (oc_state o) ∧ state_sound K (oc_state o) | Err _ => True end.

(** A burn writes one account with a nonce, and no storage. *)
Definition burn_shape (st : option EvmState) : Prop := ∀ s, st = Some s → ∃ a f n, s = [(a, burnt_account f n)] ∧ n ≠ 0%N.

Definition ending_sound (K : gset B256) (r : result ExecutorError Ending) : Prop :=
  match r with
  | Ok e =>
    state_keys (ending_state e) ∧ state_sound K (ending_state e) ∧
    match e with EndSkip _ st => burn_shape st | EndRan _ _ _ => True end
  | Err _ => True
  end.

(** The execution of a record as one tree: the transaction and its settlement,
    or its rejection and its burn. *)
Definition after_transact (env : ExecEnv) (slot : TxSlot) (envelope : TxEnvelope) (d : AlloyEnvelope Authorization)
    (r : result EVMError ResultAndState) : Tree DbE (result ExecutorError Ending) :=
  match r with
  | Ok o =>
    Ret match settle (DecodedTx.fees d) (ee_fees env) (tx_gas_used (oc_result o)) (oc_state o) (te_sender envelope) with
        | Ok (state, price) => Ok (EndRan (oc_result o) state price)
        | Err e => Err e
        end
  | Err e =>
    match rejected (mkSkipped slot envelope (ee_block_number env)) e (al_nonce d) (al_to d) with
    | Err e => Ret (Err e)
    | Ok s => tbind_ok (burn_state s (ee_features env)) (λ st, Ret (Ok (EndSkip s st)))
    end
  end.

Definition tx_tree (env : ExecEnv) (slot : TxSlot) (envelope : TxEnvelope) (d : option (AlloyEnvelope Authorization))
  : Tree DbE (result ExecutorError Ending) :=
  match d with
  | None => Ret (Ok (EndSkip (undecodable (mkSkipped slot envelope (ee_block_number env))) None))
  | Some d => tbind (transact env (DecodedTx.tx_env d (te_sender envelope))) (after_transact env slot envelope d)
  end.

(** The receipt of an end at the running gas [cumulative]. *)
Definition ending_receipt (env : ExecEnv) (slot : TxSlot) (envelope : TxEnvelope) (d : option (AlloyEnvelope Authorization))
    (e : Ending) : result ExecutorError Receipt :=
  match e, d with
  | EndRan result _ price, Some d =>
    build_tx_receipt env result slot envelope (al_nonce d) (al_to d) (te_sender envelope) price (ws_hash (ending_ws e))
  | EndSkip s _, _ => Ok (skip_receipt s (ending_ws e)).1
  | _, None => Err ExecState
  end.

(** One record over a view. *)
Definition tx_spec (env : ExecEnv) (V : View) (slot : TxSlot) (envelope : TxEnvelope) (d : option (AlloyEnvelope Authorization))
  : result ExecutorError (Receipt * WriteSet.t) :=
  match run (view_answer V) (tx_tree env slot envelope d) with
  | Err e => Err e
  | Ok e =>
    match ending_receipt env slot envelope d e with
    | Ok receipt => Ok (receipt, ending_ws e)
    | Err e => Err e
    end
  end.
End endings.

(** ** Trees *)

Section trees.
Context `{Content}.

Lemma tame_bind {R S} (P : gset B256 → R → Prop) (Q : gset B256 → S → Prop) K (t : Tree DbE R) (f : R → Tree DbE S) :
  tame P K t → (∀ K' r, P K' r → tame Q K' (f r)) → tame Q K (tbind t f).
Proof. intros Ht Hf. revert K Ht. induction t as [r|X e k IH]; intros K; cbn; [apply Hf|]. intros [Ha Hk]. split; [done|]. eauto. Qed.

Lemma tame_mono {R} (P Q : gset B256 → R → Prop) K (t : Tree DbE R) :
  (∀ K r, P K r → Q K r) → tame P K t → tame Q K t.
Proof. intros HPQ. revert K. induction t as [r|X e k IH]; intros K; cbn; [apply HPQ|]. intros [Ha Hk]. split; [done|]. eauto. Qed.

End trees.

Lemma learn_mono K {X} (e : DbE X) x : K ⊆ learn K e x.
Proof. destruct e; cbn; [|done..]. destruct x as [[f|]|]; set_solver. Qed.

Lemma update_entry_fst {V} k (f : V → V) l : (update_entry k f l).*1 = l.*1.
Proof. induction l as [|[k' v] l IH]; cbn; [done|]. case_decide; cbn; by rewrite ?IH. Qed.

Lemma Forall_update_entry {V} (P : Address * V → Prop) k f l :
  (∀ k v, P (k, v) → P (k, f v)) → Forall P l → Forall P (update_entry k f l).
Proof.
  intros Hf. induction 1 as [|[k' v] l Hv Hl IH]; cbn; [constructor|]. case_decide; constructor; auto.
Qed.

Section sound.
Context `{Evm} `{Content}.

Lemma settle_cases f b g st c st' price : settle f b g st c = Ok (st', price) →
  st' = st ∨ ∃ b1 b2, st' = update_entry (beneficiary b) (with_balance b2) (update_entry c (with_balance b1) st).
Proof.
  unfold settle. destruct (TipSettlement.settlement_of f b g) as [tip|]; [|intros [= <- _]; by left].
  destruct (TipSettlement.apply tip st c (beneficiary b)) as [s|] eqn:E; cbn; [|done]. intros [= -> _]. revert E.
  unfold TipSettlement.apply. case_match; [intros [= ->]; by left|]. cbn.
  destruct (TipSettlement.account st c); cbn; [|done]. destruct (ok_or (u256_checked_sub _ _) _); cbn; [|done].
  destruct (TipSettlement.account _ (beneficiary b)); cbn; [|done]. destruct (ok_or (u256_checked_add _ _) _); cbn; [|done].
  intros [= <-]. right. eauto.
Qed.

Lemma settle_Forall (P : Address * Account → Prop) f b g st c st' price :
  (∀ a bal acc, P (a, acc) → P (a, with_balance bal acc)) → settle f b g st c = Ok (st', price) → Forall P st → Forall P st'.
Proof.
  intros HP [->|(b1 & b2 & ->)]%settle_cases Hst; [done|]. apply Forall_update_entry; [auto|]. apply Forall_update_entry; [auto|done].
Qed.

Lemma settle_fst f b g st c st' price : settle f b g st c = Ok (st', price) → st'.*1 = st.*1.
Proof. intros [->|(b1 & b2 & ->)]%settle_cases; [done|]. by rewrite !update_entry_fst. Qed.

Lemma burnt_sound K f n : af_code_hash f = KECCAK_EMPTY ∨ af_code_hash f ∈ K → account_sound K (burnt_account f n).
Proof. intros Hf _. split; [done|]. cbn. destruct Hf as [->|]; auto. Qed.

Lemma burn_tame s features K :
  tame (λ K r, match r with Ok st => state_keys (default [] st) ∧ state_sound K (default [] st) ∧ burn_shape st | Err _ => True end)
    K (burn_state s features).
Proof.
  assert (∀ K, state_keys (default [] None) ∧ state_sound K (default [] None) ∧ burn_shape None) as Hnone.
  { intros K'. split; [split; constructor|]. split; [constructor|done]. }
  unfold burn_state. destruct (sk_burnable s); cbn; [|done]. unfold burn_account_state. destruct (sealer_v3 features); cbn; [|done].
  split; [done|]. intros [a|] _; [|done]. destruct (u64_checked_add _ 1) as [n|] eqn:En; [|by destruct a; apply Hnone].
  destruct (_ =? _)%N; [|by destruct a; apply Hnone].
  split; [split; [apply NoDup_singleton|apply Forall_singleton; constructor]|].
  split; [|intros ? [= <-]; eexists _, _, _; split; [done|]; unfold u64_checked_add in En; destruct (_ <=? _)%N; simplify_eq; lia].
  constructor; [|constructor]. apply burnt_sound. destruct a as [f|]; cbn; [right; set_solver|by left].
Qed.

Lemma after_transact_tame env slot envelope d K r :
  outcome_sound K r → tame ending_sound K (after_transact env slot envelope d r).
Proof.
  intros Hr. destruct r as [o|e]; cbn.
  - destruct (settle _ _ _ _ _) as [[st price]|] eqn:E; [|done]. destruct Hr as [[Hk Hsl] Hr]. split; [split|split; [|done]].
    + cbn [ending_state]. by rewrite (settle_fst _ _ _ _ _ _ _ E).
    + by eapply settle_Forall; [|exact E|exact Hsl].
    + by eapply settle_Forall; [|exact E|exact Hr].
  - destruct (rejected _ _ _ _) as [s|]; [|done]. unfold tbind_ok. eapply tame_bind; [apply burn_tame|]. intros K' [st|]; [|done]. by cbn.
Qed.

(** A transaction whose tree is tame, once decoded. *)
Definition tx_tame (env : ExecEnv) (envelope : TxEnvelope) (d : option (AlloyEnvelope Authorization)) : Prop :=
  match d with Some d => tame outcome_sound ∅ (transact env (DecodedTx.tx_env d (te_sender envelope))) | None => True end.

Lemma tx_tree_tame env slot envelope d : tx_tame env envelope d → tame ending_sound ∅ (tx_tree env slot envelope d).
Proof.
  destruct d as [d|]; cbn; [|intros _; split; [split; constructor|split; [constructor|done]]]. intros Ht. eapply tame_bind; [apply Ht|]. intros K r. apply after_transact_tame.
Qed.
End sound.

(** ** The cache over a view *)

(** What a commit makes of the view is what the write set makes of it: no account
    destroyed itself, a slot that did not change holds the value of the view, and a
    created account had no storage. *)
Definition fits (V : View) (st : EvmState) : Prop :=
  Forall (λ '(a, acc), touched acc = true → selfdestructed acc = false ∧
    (∀ k s, (k, s) ∈ acc_storage acc → original_value s = present_value s → v_storage V a k = present_value s) ∧
    (created acc = true → ∀ k, v_storage V a k = 0%N)) st.

Lemma commit_overlay V st : state_ok st → fits V st → commit_view V st ≡ overlay V (WriteSet.from_evm_state st).
Proof.
  intros Hok Hfit. unfold fits in Hfit. rewrite Forall_forall in Hfit. split.
  - intros a. cbn. rewrite account_from_state by apply Hok. destruct (find_entry a st) as [acc|] eqn:E; cbn; [|done].
    destruct (touched acc) eqn:Et; [|done]. apply find_entry_elem in E. destruct (Hfit _ E Et) as [Hd _]. unfold commit_account. by rewrite Hd.
  - intros a k. cbn. rewrite slot_from_state by done. destruct (find_entry a st) as [acc|] eqn:E; cbn; [|done].
    destruct (touched acc) eqn:Et; cbn; [|done]. apply find_entry_elem in E. destruct (Hfit _ E Et) as (Hd & Hsame & Hnew). unfold commit_slot. rewrite Hd.
    destruct (find_entry k (acc_storage acc)) as [sl|] eqn:Ek; cbn.
    + destruct (N.eqb_spec (original_value sl) (present_value sl)); cbn; [|done]. symmetry. eapply Hsame; [by apply find_entry_elem|done].
    + destruct (created acc); [|done]. by rewrite Hnew.
Qed.

(** *** The laws of the EVM *)

Lemma to_revm_idem h : to_revm_code_hash (to_revm_code_hash h) = to_revm_code_hash h.
Proof. unfold to_revm_code_hash. destruct (N.eqb_spec h 0) as [|Hne]; [done|]. by rewrite (proj2 (N.eqb_neq h 0) Hne). Qed.

(** An account without nonce and code. *)
Definition blank (o : option AccountFields) : Prop :=
  match o with Some f => af_nonce f = 0%N ∧ to_revm_code_hash (af_code_hash f) = KECCAK_EMPTY | None => True end.

(** Only accounts with a nonce or a code have storage. *)
Definition view_ok (V : View) : Prop := ∀ a k, blank (v_basic V a) → v_storage V a k = 0%N.

(** What a touched account tells of the view before its transaction: a slot was
    loaded with the value of the view; an account is created where there is none;
    and a transaction takes neither nonce nor code away, and writes no storage of
    an account that has neither. *)
Record account_fits (V : View) (a : Address) (acc : Account) : Prop := {
  fits_slots : ∀ k s, (k, s) ∈ acc_storage acc → original_value s = if created acc then 0%N else v_storage V a k;
  fits_created : created acc = true → blank (v_basic V a);
  fits_blank : selfdestructed acc = false → blank (Some (info_fields (acc_info acc))) →
    blank (v_basic V a) ∧ ∀ k s, (k, s) ∈ acc_storage acc → present_value s = original_value s;
}.

Definition outcome_fits (V : View) (st : EvmState) : Prop := Forall (λ '(a, acc), touched acc = true → account_fits V a acc) st.

(** The documented behaviour of revm on a transaction that delegates no account
    (EIP-7702): it loads the code of accounts that it has loaded, it changes code by
    creating accounts only, and its state fits the view that it ran over. *)
Class EvmLaws `{Evm} `{Content} := {
  transact_tame : ∀ env tx, txe_authorization_list tx = [] → tame outcome_sound ∅ (transact env tx);
  transact_fits : ∀ env tx V o, txe_authorization_list tx = [] → view_ok V →
    run (view_answer V) (transact env tx) = Ok o → outcome_fits V (oc_state o);
}.

(** No account destroyed itself. *)
Definition survives (st : EvmState) : Prop := Forall (λ e, touched e.2 = true → selfdestructed e.2 = false) st.

Lemma view_ok_proper V W : V ≡ W → view_ok V → view_ok W.
Proof. intros [Hb Hs] HV a k. rewrite <-Hb, <-Hs. apply HV. Qed.

Lemma outcome_fits_fits V st : view_ok V → outcome_fits V st → survives st → fits V st.
Proof.
  intros HV Hst Hd. unfold outcome_fits, survives, fits in *. rewrite Forall_forall in *. intros [a acc] Hin Et.
  destruct (Hst _ Hin Et) as [Hs Hc _]. split; [by apply (Hd _ Hin)|].
  assert (created acc = true → ∀ k, v_storage V a k = 0%N) as Hnew by (intros Ec k; by apply HV, Hc).
  split; [|done]. intros k s Hk <-. rewrite (Hs k s Hk). destruct (created acc); [by apply Hnew|done].
Qed.

Lemma overlay_view_ok V st : state_ok st → view_ok V → outcome_fits V st → survives st → view_ok (overlay V (WriteSet.from_evm_state st)).
Proof.
  intros Hok HV Hst Hd a k. unfold outcome_fits, survives in *. rewrite Forall_forall in *. cbn. rewrite account_from_state by apply Hok. rewrite slot_from_state by done.
  destruct (find_entry a st) as [acc|] eqn:E; cbn; [|apply HV]. destruct (touched acc) eqn:Et; cbn; [|apply HV]. apply find_entry_elem in E.
  intros Hb. destruct (fits_blank _ _ _ (Hst _ E Et) (Hd _ E Et) Hb) as [Hb0 Hs]. destruct (find_entry k (acc_storage acc)) as [s|] eqn:Ek; cbn; [|by apply HV].
  apply find_entry_elem in Ek. rewrite (Hs _ _ Ek), N.eqb_refl. cbn. by apply HV.
Qed.

(** *** Known code *)

(** Every account of the view has a code that [kn] knows. *)
Definition closed (kn : B256 → Prop) (V : View) : Prop :=
  ∀ a f, v_basic V a = Some f → af_code_hash f = KECCAK_EMPTY ∨ kn (af_code_hash f).

Lemma closed_proper kn V W : V ≡ W → closed kn V → closed kn W.
Proof. intros HVW Hc a f Ha. apply (Hc a). by rewrite HVW. Qed.

Lemma closed_mono (kn kn' : B256 → Prop) V : (∀ h, kn h → kn' h) → closed kn V → closed kn' V.
Proof. intros Hkn Hc a f Ha. destruct (Hc a f Ha); auto. Qed.

Lemma closed_learn `{Content} kn V K {X} (e : DbE X) h : closed kn V → (∀ h, h ∈ K → h = KECCAK_EMPTY ∨ kn h) →
  h ∈ learn K e (view_answer V X e) → h = KECCAK_EMPTY ∨ kn h.
Proof.
  intros Hcl HK. destruct e; cbn; auto. destruct (v_basic V address) as [f|] eqn:Ef; [|apply HK].
  intros [->%elem_of_singleton|]%elem_of_union; [by eapply Hcl|by apply HK].
Qed.

Lemma run_closed `{Content} {R} (P : gset B256 → R → Prop) kn V K (t : Tree DbE R) :
  closed kn V → tame P K t → (∀ h, h ∈ K → h = KECCAK_EMPTY ∨ kn h) →
  ∃ K', P K' (run (view_answer V) t) ∧ ∀ h, h ∈ K' → h = KECCAK_EMPTY ∨ kn h.
Proof.
  intros Hcl. revert K. induction t as [r|X e k IH]; intros K Ht HK; cbn in *; [by eauto|].
  apply (IH _ (learn K e (view_answer V X e))); [apply Ht; by destruct e|]. intros h. by apply closed_learn.
Qed.

Section cache.
Context `{Evm} `{Content} {C : CacheDB} `{!CacheLaws C}.

Definition knows (c : cdb) (h : B256) : Prop := cdb_answer c _ (CodeByHashE h) = Ok (code_of h).

(** The cache serves the view, and knows the code of every account of it. *)
Definition scope_at (c : cdb) (V : View) : Prop := serves c V ∧ closed (knows c) V.

Lemma scope_at_proper c V W : V ≡ W → scope_at c V → scope_at c W.
Proof. intros HVW [Hs Hk]. split; [by eapply serves_proper|by eapply closed_proper]. Qed.

Lemma run_serves {R} (P : gset B256 → R → Prop) c V K (t : Tree DbE R) :
  scope_at c V → tame P K t → (∀ h, h ∈ K → h = KECCAK_EMPTY ∨ knows c h) →
  run (cdb_answer c) t = run (view_answer V) t.
Proof.
  intros [Hs Hcl]. revert K. induction t as [r|X e k IH]; intros K Ht HK; cbn in *; [done|]. destruct Ht as [Ha Hk].
  assert (cdb_answer c X e = view_answer V X e) as ->.
  { destruct e; cbn; [by apply serves_basic|by apply serves_storage| |by eapply serves_block_hash].
    assert (code_hash = KECCAK_EMPTY ∨ knows c code_hash) as [->|] by (destruct Ha; auto); [|done].
    rewrite code_of_empty. by eapply knows_empty. }
  apply (IH _ (learn K e (view_answer V X e))); [apply Hk; by destruct e|]. intros h. by apply closed_learn.
Qed.

Lemma state_sound_codes K st : state_sound K st → Forall (λ e, touched e.2 = true → code_sound (acc_info e.2)) st.
Proof. intros Hst. eapply Forall_impl; [exact Hst|]. intros e He Ht. by destruct (He Ht). Qed.

Lemma commit_scope c V K st : scope_at c V → state_sound K st → (∀ h, h ∈ K → h = KECCAK_EMPTY ∨ knows c h) →
  state_ok st → fits V st →
  scope_at (cdb_commit c st) (overlay V (WriteSet.from_evm_state st)).
Proof.
  intros [Hs Hcl] Hst HK Hok Hfit. pose proof (state_sound_codes _ _ Hst) as Hcodes. unfold state_sound in Hst. rewrite Forall_forall in Hst.
  assert (serves (cdb_commit c st) (overlay V (WriteSet.from_evm_state st))) as Hs'.
  { eapply serves_proper; [by apply commit_overlay|]. apply serves_commit; [done|apply Hok|done]. }
  split; [done|]. intros a f. cbn. rewrite account_from_state by apply Hok. unfold knows.
  assert (v_basic V a = Some f → af_code_hash f = KECCAK_EMPTY ∨ knows (cdb_commit c st) (af_code_hash f)) as Hold.
  { intros Hf. destruct (Hcl a f Hf); [by left|right]. apply knows_commit; auto. }
  destruct (find_entry a st) as [acc|] eqn:E; cbn; [|done]. destruct (touched acc) eqn:Et; [|done].
  intros [= <-]. cbn. apply find_entry_elem in E. destruct (Hst _ E Et) as [_ Hh]. cbn in Hh.
  unfold to_revm_code_hash in *. destruct (N.eqb_spec (info_code_hash (acc_info acc)) 0) as [|]; [by left|].
  destruct Hh as [->|[Hin|(_ & b & Hb & Hne)]]; [by left| |].
  - destruct (HK _ Hin); [by left|right]. apply knows_commit; auto.
  - right. apply knows_commit; [done|]. right. exists a, acc, b. split_and!; try done. unfold fits in Hfit. rewrite Forall_forall in Hfit. by destruct (Hfit _ E Et).
Qed.

(** *** One record *)

Definition ending_ok (V : View) (e : Ending) : Prop :=
  match e with
  | EndRan _ st _ => fits V st
  | EndSkip _ _ => True
  end.

Lemma code_part_sound K st h b : state_sound K st → (h, b) ∈ st ≫= code_part → b = code_of h.
Proof.
  unfold state_sound. rewrite Forall_forall. intros Hst ([a acc] & Hp & Hin)%list_elem_of_bind. unfold code_part in Hp. cbn in Hp.
  destruct (touched acc) eqn:Et; [|by apply elem_of_nil in Hp]. destruct (Hst _ Hin Et) as [Hc _].
  destruct (info_code _) as [b'|] eqn:Eb; [|by apply elem_of_nil in Hp].
  destruct (bool_decide_reflect (b' = [])) as [->|Hne]; [by rewrite andb_false_r in Hp; apply elem_of_nil in Hp|].
  case_match; [|by apply elem_of_nil in Hp]. apply list_elem_of_singleton in Hp as [= -> ->]. by apply Hc.
Qed.

Lemma ending_state_ok V K e : ending_sound K (Ok e) → ending_ok V e → state_ok (ending_state e) ∧ fits V (ending_state e).
Proof.
  intros ([Hk Hsl] & Hst & Hsh) Hok. split.
  - split; [done|done|]. intros h b b' Hb Hb'. by rewrite (code_part_sound _ _ _ _ Hst Hb), (code_part_sound _ _ _ _ Hst Hb').
  - destruct e as [s [st|]|r st price]; [|constructor|done]. destruct (Hsh _ eq_refl) as (a & f & n & -> & _).
    constructor; [|constructor]. cbn. intros _. split; [done|]. split; [by intros ?? ?%elem_of_nil|done].
Qed.

Definition scope_exec (sc : Executor) (slot : TxSlot) (envelope : TxEnvelope) (d : option (AlloyEnvelope Authorization)) :=
  match d with
  | Some d => execute_tx_decoded sc slot envelope d
  | None => scope_skip sc (undecodable (mkSkipped slot envelope (ee_block_number (ex_env sc))))
  end.

Definition ending_cache (c : cdb) (e : Ending) : cdb :=
  match e with EndSkip _ None => c | _ => cdb_commit c (ending_state e) end.

Lemma skip_receipt_eta s ws : skip_receipt s ws = ((skip_receipt s ws).1, ws).
Proof. unfold skip_receipt. by destruct (sk_record s). Qed.

Lemma scope_exec_tree sc slot envelope d : scope_exec sc slot envelope d =
  match run (cdb_answer (ex_cache sc)) (tx_tree (ex_env sc) slot envelope d) with
  | Err e => Err e
  | Ok e =>
    match ending_receipt (ex_env sc) slot envelope d e with
    | Ok r => Ok (mkExecutor (ending_cache (ex_cache sc) e) (ex_env sc), (r, ending_ws e))
    | Err e => Err e
    end
  end.
Proof.
  destruct d as [d|]; cbn [scope_exec tx_tree]; [|by destruct sc].
  unfold execute_tx_decoded. rewrite run_bind. destruct (run _ (transact _ _)) as [o|e]; cbn [after_transact run].
  - destruct (settle _ _ _ _ _) as [[st price]|]; [|done]. cbn. by destruct (build_tx_receipt _ _ _ _ _ _ _ _ _).
  - destruct (rejected _ _ _ _) as [s|]; [|done]. unfold scope_skip. rewrite run_bind_ok.
    destruct (run _ (burn_state _ _)) as [[st|]|]; [| |done]; cbn; rewrite skip_receipt_eta; [done|by destruct sc].
Qed.

Lemma scope_exec_spec sc V slot envelope d :
  scope_at (ex_cache sc) V → tx_tame (ex_env sc) envelope d →
  (∀ e, run (view_answer V) (tx_tree (ex_env sc) slot envelope d) = Ok e → ending_ok V e) →
  match scope_exec sc slot envelope d with
  | Ok (sc', (r, ws)) =>
    tx_spec (ex_env sc) V slot envelope d = Ok (r, ws) ∧ ex_env sc' = ex_env sc ∧ scope_at (ex_cache sc') (overlay V ws)
  | Err e => tx_spec (ex_env sc) V slot envelope d = Err e
  end.
Proof.
  intros Hsc Ht Hok. rewrite scope_exec_tree. unfold tx_spec.
  pose proof (tx_tree_tame _ slot _ _ Ht) as Htree. rewrite (run_serves _ _ _ _ _ Hsc Htree) by (by intros ??%elem_of_empty).
  destruct (run_closed _ _ _ _ _ (proj2 Hsc) Htree) as (K & Hsnd & HK); [by intros ??%elem_of_empty|].
  destruct (run (view_answer V) _) as [e|]; [|done]. specialize (Hok _ eq_refl). destruct (ending_receipt _ _ _ _ _); [|done].
  split; [done|]. split; [done|]. cbn. destruct (ending_state_ok _ _ _ Hsnd Hok) as [Hsok Hfit]. destruct Hsnd as (_ & Hst & _).
  unfold ending_ws. destruct e as [s [st|]|r st price]; [by eapply commit_scope| |by eapply commit_scope].
  by apply (scope_at_proper _ V).
Qed.
End cache.

(** *** Records over the EVM *)

Section evm.
Context `{EvmLaws}.

(** A record without delegations. *)
Definition undelegated (d : option (AlloyEnvelope Authorization)) : Prop :=
  match d with Some d => default [] (al_authorization_list d) = [] | None => True end.

Lemma undelegated_tame env envelope d : undelegated d → tx_tame env envelope d.
Proof. destruct d as [d|]; [|done]. intros Hd. by apply transact_tame. Qed.

Lemma settle_fits V f b g st c st' price : settle f b g st c = Ok (st', price) → outcome_fits V st → outcome_fits V st'.
Proof. apply settle_Forall. intros a bal acc Hacc Et. by destruct (Hacc Et) as [? ? ?]; split. Qed.

Lemma ending_outcome env slot envelope d V K e : undelegated d → view_ok V → run (view_answer V) (tx_tree env slot envelope d) = Ok e →
  ending_sound K (Ok e) → outcome_fits V (ending_state e).
Proof.
  intros Hd HV He (_ & _ & Hsh). destruct e as [s [st|]|r st price]; [| |clear Hsh].
  - destruct (Hsh _ eq_refl) as (a & f & n & -> & Hn). constructor; [|constructor]. intros _. split; [cbn; by intros ?? ?%elem_of_nil|done|]. by intros _ [? _].
  - constructor.
  - destruct d as [d|]; [|done]. cbn [tx_tree ending_state] in *. rewrite run_bind in He. destruct (run _ (transact _ _)) as [o|x] eqn:Eo; cbn [after_transact run] in He.
    + destruct (settle _ _ _ _ _) as [[st' p]|] eqn:Es; [|done]. injection He as _ -> _. eapply settle_fits; [exact Es|]. by apply (transact_fits env (DecodedTx.tx_env d (te_sender envelope)) V).
    + destruct (rejected _ _ _ _); [|done]. rewrite run_bind_ok in He. by destruct (run _ (burn_state _ _)).
Qed.

(** What a record leaves fits the view, and keeps storage to the accounts that may
    have it. *)
Lemma ending_behaves env slot envelope d V e : undelegated d → view_ok V → run (view_answer V) (tx_tree env slot envelope d) = Ok e →
  survives (ending_state e) → ending_ok V e ∧ view_ok (overlay V (ending_ws e)).
Proof.
  intros Hd HV He Hsv.
  destruct (run_closed _ (λ _, True) V ∅ _ (λ _ _ _, or_intror I) (tx_tree_tame env slot envelope d (undelegated_tame _ _ _ Hd))) as (K & Hsnd & _); [by right|].
  rewrite He in Hsnd. pose proof (ending_outcome _ _ _ _ _ _ _ Hd HV He Hsnd) as Hof.
  assert (ending_ok V e) as Hok by (destruct e; [done|by apply outcome_fits_fits]). split; [done|].
  apply overlay_view_ok; [|done..]. by eapply ending_state_ok.
Qed.
End evm.
