(* ===== verification/ExecSample.v ===== *)
(** * A sample of the libraries of execution

    A block cache over views that has the laws of [ExecScopeSpec], and an EVM whose
    transactions move value, pay the fee and count in slot 0 of a called contract.
    The witnesses of the theorems on execution use them. *)
From S2P Require Import Prelude Bytes Types Fees WriteSet WriteSetSpec Effects ExecScope ExecScopeSpec.

(** ** A block cache *)

Record ViewCache : Type := mkViewCache { vc_view : View; vc_code : gmap B256 (list N); vc_snapshot : StateDatabase }.

Definition or_default {A} (d : A) (r : result StateErr A) : A := match r with Ok a => a | Err _ => d end.

Definition vc_insert_code (m : gmap B256 (list N)) (i : AccountInfo) : gmap B256 (list N) :=
  match info_code i with
  | Some b => if bool_decide (b = []) then m else <[info_code_hash i := b]> m
  | None => m
  end.

Definition vc_commit_code (m : gmap B256 (list N)) (e : Address * Account) : gmap B256 (list N) :=
  if touched e.2 && negb (selfdestructed e.2) then vc_insert_code m (acc_info e.2) else m.

Definition vc_answer (c : ViewCache) (X : Type) (e : DbE X) : X :=
  match e with
  | BasicE a => Ok (v_basic (vc_view c) a)
  | StorageE a k => Ok (v_storage (vc_view c) a k)
  | CodeByHashE h =>
    if (h =? KECCAK_EMPTY)%N then Ok []
    else match vc_code c !! h with Some b => Ok b | None => SnapshotRef.code_by_hash_ref (vc_snapshot c) h end
  | BlockHashE _ => Ok 0%N
  end.

#[export] Instance view_cache : CacheDB := {|
  cdb := ViewCache;
  cdb_new s := mkViewCache
    (mkView (λ a, or_default None (SnapshotRef.basic_ref s a)) (λ a k, or_default 0%N (SnapshotRef.storage_ref s a k))) ∅ s;
  cdb_insert_account_info c a i :=
    mkViewCache (set_account (vc_view c) a (info_fields i)) (vc_insert_code (vc_code c) i) (vc_snapshot c);
  cdb_insert_account_storage c a k v := Ok (mkViewCache (set_slot (vc_view c) a k v) (vc_code c) (vc_snapshot c));
  cdb_commit c st := mkViewCache (commit_view (vc_view c) st)
    (fold_left vc_commit_code st (vc_code c)) (vc_snapshot c);
  cdb_answer := vc_answer;
|}.

Section laws.
Context `{Content}.

Definition vc_knows (c : ViewCache) (h : B256) : Prop := vc_answer c _ (CodeByHashE h) = Ok (code_of h).

Lemma vc_insert_knows c (i : AccountInfo) h V : code_sound i →
  (vc_knows c h ∨ h = info_code_hash i ∧ ∃ b, info_code i = Some b ∧ b ≠ []) →
  vc_knows (mkViewCache V (vc_insert_code (vc_code c) i) (vc_snapshot c)) h.
Proof.
  intros Hi Hh. unfold vc_knows, vc_insert_code in *. cbn in *. destruct (N.eqb_spec h KECCAK_EMPTY) as [->|Hne]; [by rewrite code_of_empty|].
  destruct (info_code i) as [b|] eqn:Eb; [|by destruct Hh as [|(_ & ? & ? & _)]].
  case_bool_decide; [destruct Hh as [|(_ & ? & [= <-] & ?)]; done|].
  destruct (decide (info_code_hash i = h)) as [<-|]; [rewrite lookup_insert_eq; f_equal; by apply Hi|].
  rewrite lookup_insert_ne by done. destruct Hh as [|[-> _]]; done.
Qed.

Lemma vc_commit_knows st c h V : Forall (λ e : Address * Account, touched e.2 = true → code_sound (acc_info e.2)) st →
  (vc_knows c h ∨ ∃ a acc b, (a, acc) ∈ st ∧ touched acc = true ∧ selfdestructed acc = false ∧ h = info_code_hash (acc_info acc) ∧ info_code (acc_info acc) = Some b ∧ b ≠ []) →
  vc_knows (mkViewCache V (fold_left vc_commit_code st (vc_code c)) (vc_snapshot c)) h.
Proof.
  intros Hst. revert c. induction Hst as [|[a acc] st Hacc Hst IH]; intros c Hh; cbn [fold_left].
  { destruct Hh as [Hk|(? & ? & ? & ?%elem_of_nil & _)]; done. }
  set (c' := mkViewCache V (vc_commit_code (vc_code c) (a, acc)) (vc_snapshot c)).
  apply (IH c'). subst c'. unfold vc_commit_code. cbn [snd]. destruct (touched acc && negb (selfdestructed acc)) eqn:Et.
  - apply andb_true_iff in Et as [Et _]. destruct Hh as [Hk|(a' & acc' & b & [[= -> ->]|Hin]%elem_of_cons & Et' & Ed & -> & Eb & Hne)].
    + left. apply vc_insert_knows; [by apply Hacc|by left].
    + left. apply vc_insert_knows; [by apply Hacc|]. right. by eauto.
    + right. by exists a', acc', b.
  - destruct Hh as [Hk|(a' & acc' & b & [[= -> ->]|Hin]%elem_of_cons & Et' & Ed & Hrest)]; [by left|by rewrite Et', Ed in Et|right; by exists a', acc', b].
Qed.

#[export] Instance view_cache_laws : CacheLaws view_cache.
Proof.
  refine {| serves := λ c V, vc_view c ≡ V |}; cbn.
  - by intros c V a [-> _].
  - by intros c V a k [_ ->].
  - done.
  - intros c V W HVW Hc. by rewrite Hc.
  - intros s V (Hb & Hs & _). split; intros; cbn; [by rewrite Hb|by rewrite Hs].
  - intros c V a i [H1 H2] _. split; intros; cbn; [case_decide|]; auto.
  - intros c V a k v [H1 H2]. eexists. split; [done|]. split; [|done]. split; intros; cbn; [auto|]. case_decide; auto.
  - intros c V st [H1 H2] _ _. split; intros; cbn; destruct (find_entry _ _) as [acc|]; auto; destruct (touched acc); auto.
    unfold commit_slot. repeat case_match; auto.
  - done.
  - intros s h Hh. destruct (N.eqb_spec h KECCAK_EMPTY) as [->|]; [by rewrite code_of_empty|done].
  - intros c a i h Hi Hh. exact (vc_insert_knows c i h (set_account (vc_view c) a (info_fields i)) Hi Hh).
  - intros c st h Hst Hh. exact (vc_commit_knows st c h (commit_view (vc_view c) st) Hst Hh).
Qed.
End laws.

(** ** An EVM *)

Definition TOY_GAS : N := 21000.

Definition toy_account (f : AccountFields) (balance nonce : N) (slots : list (N * EvmStorageSlot)) : Account :=
  mkAccount (mkInfo balance nonce (af_code_hash f) None) slots true false false.

(** Pay the value and the gas, count the call of a contract, tip the beneficiary. *)
Definition toy_finish (env : ExecEnv) (tx : TxEnv ()) (to : Address) (i b s : AccountFields) (slots : list (N * EvmStorageSlot))
  : ResultAndState :=
  let price := txe_gas_price tx in
  mkOutcome (ESuccess TOY_GAS [])
    [(txe_caller tx, toy_account i (af_balance i - txe_value tx - TOY_GAS * price) (af_nonce i + 1) []);
     (to, toy_account b (af_balance b + txe_value tx) (af_nonce b) slots);
     (beneficiary (ee_fees env), toy_account s (af_balance s + TOY_GAS * (price - base_fee (ee_fees env))) (af_nonce s) [])].

Definition toy_read {X} (e : DbE (result StateErr X)) (k : X → Tree DbE (result EVMError ResultAndState))
  : Tree DbE (result EVMError ResultAndState) :=
  Vis e (λ r, match r with Ok x => k x | Err _ => Ret (Err EvmDatabase) end).

Definition toy_transact (env : ExecEnv) (tx : TxEnv ()) : Tree DbE (result EVMError ResultAndState) :=
  toy_read (BasicE (txe_caller tx)) (λ a,
    let i := default default_fields a in
    if negb (af_nonce i =? txe_nonce tx)%N then Ret (Err (EvmTransaction ItNonceTooLow))
    else if (af_balance i <? txe_value tx + txe_gas_limit tx * txe_gas_price tx)%N
    then Ret (Err (EvmTransaction ItLackOfFundForMaxFee))
    else
      match txe_kind tx with
      | TxCreate => Ret (Err (EvmTransaction (ItOther 1)))
      | TxCall to =>
        if negb (bool_decide (NoDup [txe_caller tx; to; beneficiary (ee_fees env)])) then Ret (Err (EvmTransaction (ItOther 2)))
        else toy_read (BasicE to) (λ b,
          let b := default default_fields b in
          toy_read (CodeByHashE (af_code_hash b)) (λ code,
            if bool_decide (code = []) then
              toy_read (BasicE (beneficiary (ee_fees env))) (λ s, Ret (Ok (toy_finish env tx to i b (default default_fields s) [])))
            else
              toy_read (StorageE to 0) (λ v,
                toy_read (BasicE (beneficiary (ee_fees env))) (λ s,
                  Ret (Ok (toy_finish env tx to i b (default default_fields s) [(0%N, mkSlot v (v + 1))]))))))
      end).

(** An envelope is its caller's nonce, its recipient and its value. *)
Definition toy_decode (raw : list N) : option (AlloyEnvelope ()) :=
  match raw with
  | [nonce; to; value] =>
    Some (mkAlloy 0 (Some 1%N) nonce 25000 value [] (Some to) (Some 10%N) 10 None 10 false None None None None)
  | _ => None
  end.

#[export] Instance toy_evm : Evm := {|
  Authorization := ();
  transact := toy_transact;
  decode_2718 := toy_decode;
  create_address a n := (a + n)%N;
  keccak256 bs := foldr (λ b h, (b + 257 * h) mod 2 ^ 256)%N 1%N bs;
  evm_u256 := wrapping_u256;
|}.

#[export] Instance toy_content : Content.
Proof. refine {| code_of h := if (h =? 77)%N then [96%N] else [] |}; by vm_compute. Defined.

Lemma toy_read_tame {X} K (e : DbE (result StateErr X)) k :
  asks K e → (∀ x, honest e (Ok x) → tame outcome_sound (learn K e (Ok x)) (k x)) → tame outcome_sound K (toy_read e k).
Proof. intros He Hk. split; [done|]. intros [x|] Hx; [by apply Hk|done]. Qed.

Lemma toy_account_sound (K : gset B256) f b n l : af_code_hash f = KECCAK_EMPTY ∨ af_code_hash f ∈ K → account_sound K (toy_account f b n l).
Proof. intros Hf _. split; [done|]. cbn. destruct Hf as [->|]; auto. Qed.

Lemma default_known (K : gset B256) a : (∀ f, a = Some f → af_code_hash f ∈ K) →
  af_code_hash (default default_fields a) = KECCAK_EMPTY ∨ af_code_hash (default default_fields a) ∈ K.
Proof. destruct a; cbn; [right; auto|by left]. Qed.

Lemma toy_finish_sound (K : gset B256) env tx to i b s slots :
  NoDup [txe_caller tx; to; beneficiary (ee_fees env)] → NoDup slots.*1 →
  af_code_hash i = KECCAK_EMPTY ∨ af_code_hash i ∈ K → af_code_hash b = KECCAK_EMPTY ∨ af_code_hash b ∈ K →
  af_code_hash s = KECCAK_EMPTY ∨ af_code_hash s ∈ K →
  outcome_sound K (Ok (toy_finish env tx to i b s slots)).
Proof.
  intros Hnd Hsl Hi Hb Hs. split; [split; [done|by repeat constructor]|]. repeat (apply Forall_cons_2; [by apply toy_account_sound|]). apply Forall_nil_2.
Qed.

Lemma toy_tame env tx : tame outcome_sound ∅ (toy_transact env tx).
Proof.
  apply toy_read_tame; [done|]. intros a _. cbv zeta. destruct (negb _); [done|]. destruct (_ <? _)%N; [done|]. destruct (txe_kind tx); [|done].
  case_bool_decide as Hnd; [cbn [negb]|done].
  apply toy_read_tame; [done|]. intros b _. cbv zeta. apply toy_read_tame; [apply default_known; intros f ->; cbn; set_solver|]. intros code _.
  case_bool_decide; [|apply toy_read_tame; [done|]; intros v _]; (apply toy_read_tame; [done|]; intros sk _);
    destruct a, b, sk; (apply toy_finish_sound; [done|by repeat constructor; set_solver|..]); cbn; first [by left|right; set_solver].
Qed.

(** The accounts that it touches are in the view, and only a contract has its slot
    written. *)
Lemma toy_account_fits V a balance nonce slots : let f := default default_fields (v_basic V a) in
  (nonce = 0%N → af_nonce f = 0%N) →
  (∀ k s, (k, s) ∈ slots → original_value s = v_storage V a k ∧ to_revm_code_hash (af_code_hash f) ≠ KECCAK_EMPTY) →
  account_fits V a (toy_account f balance nonce slots).
Proof.
  intros f Hn Hs. split; cbn; [intros k s Hk; by apply (Hs k s)|done|]. intros _ [Hn0 Hh]. cbn in Hn0, Hh. rewrite to_revm_idem in Hh. split.
  - subst f. destruct (v_basic V a) as [f'|]; [|done]. split; [by apply Hn|done].
  - intros k s Hk. by destruct (Hs k s Hk).
Qed.

Lemma toy_finish_fits V env tx to slots : let at_ a := default default_fields (v_basic V a) in
  (∀ k s, (k, s) ∈ slots → original_value s = v_storage V to k ∧ to_revm_code_hash (af_code_hash (at_ to)) ≠ KECCAK_EMPTY) →
  outcome_fits V (oc_state (toy_finish env tx to (at_ (txe_caller tx)) (at_ to) (at_ (beneficiary (ee_fees env))) slots)).
Proof.
  intros at_ Hs. subst at_. cbn beta in *. apply Forall_cons_2; [|apply Forall_cons_2; [|apply Forall_cons_2; [|apply Forall_nil_2]]]; intros _; (apply toy_account_fits; [lia|]);
    [by intros ?? ?%elem_of_nil|exact Hs|by intros ?? ?%elem_of_nil].
Qed.

Lemma toy_fits_view env tx V o : run (view_answer V) (toy_transact env tx) = Ok o → outcome_fits V (oc_state o).
Proof.
  unfold toy_transact, toy_read. cbn [run view_answer]. cbv zeta. destruct (negb _); [done|]. destruct (_ <? _)%N; [done|]. destruct (txe_kind tx) as [to|]; [|done].
  destruct (negb _); [done|]. cbn [run view_answer]. case_bool_decide as Hc; cbn [run view_answer]; intros [= <-]; apply toy_finish_fits.
  - by intros ?? ?%elem_of_nil.
  - intros k s [= -> ->]%list_elem_of_singleton. cbn. split; [done|]. unfold to_revm_code_hash. intros Hh. apply Hc.
    destruct (N.eqb_spec (af_code_hash (default default_fields (v_basic V to))) 0) as [->|]; [apply code_of_zero|]. rewrite Hh. apply code_of_empty.
Qed.

#[export] Instance toy_laws : EvmLaws.
Proof. split; [intros env tx _; apply toy_tame|]. intros env tx V o _ _. apply toy_fits_view. Qed.

(** ** A block *)

Definition toy_fields (a : Address) : option AccountFields :=
  if (a =? 1)%N then Some (mkFields 0 1000000 0)
  else if (a =? 3)%N then Some (mkFields 1 0 77)
  else None.

(** Account 1 has no code, account 3 is a contract. *)
Definition toy_snapshot : StateDatabase :=
  mkStateDb (λ a, Ok (toy_fields a)) (λ a k, Ok (if (a =? 3)%N && (k =? 0)%N then 41 else 0)%N) (λ h, Ok (code_of h)).

Definition toy_view : View :=
  mkView (λ a, account_info <$> toy_fields a) (λ a k, if (a =? 3)%N && (k =? 0)%N then 41 else 0)%N.

(** Account 2 is in the unsettled predecessor. *)
Definition toy_base : PendingDelta.t := PendingDelta.mk {[ 2%N := mkFields 0 800000 KECCAK_EMPTY ]} ∅ ∅.

Definition toy_env : ExecEnv := mkExecEnv 1 10 100 (mkBlockFees 2 9) (mkFeatures false true).

Definition toy_record (idx sender nonce to value : N) : SeqTx :=
  mkSeqTx idx (BPosition.from_index idx) (mkTxEnvelope 0 [nonce; to; value] sender (100 + idx) 0) None.

(** A transfer, a call, and a transfer that the sender cannot pay. *)
Definition toy_records : list SeqTx := [toy_record 0 1 0 2 5; toy_record 1 2 0 3 7; toy_record 2 1 1 2 1000000]%N.

Lemma toy_snapshot_is : snapshot_is toy_snapshot toy_view.
Proof.
  split; [done|]. split; [done|]. intros a k. cbn. unfold toy_fields. destruct (a =? 1)%N eqn:E; [done|]. by destruct (a =? 3)%N.
Qed.
