(* ===== verification/ExecBlockSpec.v ===== *)
(** * A block against its delta

    The sequential engine computes, record by record, what a record computes over
    the view of the state before it, and the delta that it returns is the whole of
    the state change: a scope that is built anew over the snapshot and the delta
    goes on exactly as the scope that ran the block. *)
From S2P Require Import Prelude Bytes Types Fees WriteSet WriteSetSpec Effects ExecScope ExecScopeSpec ExecSample.

(** ** Deltas and views *)

Record ws_keyed (ws : WriteSet.t) : Prop := {
  keyed_accounts : keyed (WriteSet.accounts ws);
  keyed_storage : keyed (WriteSet.storage ws);
  keyed_code : keyed (WriteSet.code ws);
}.

Lemma from_state_keyed st : state_ok st → ws_keyed (WriteSet.from_evm_state st).
Proof.
  intros Hok. rewrite from_evm_state_parts. unfold WriteSet.finish.
  split; cbn; eapply keyed_perm; try (symmetry; apply (merge_sort_Permutation entry_le)).
  - intros ???. apply account_part_unique, Hok.
  - intros ???. by apply storage_part_unique.
  - intros ???. apply Hok.
Qed.

Lemma overlay_apply V d ws : ws_keyed ws → overlay_delta V (PendingDelta.apply d ws) ≡ overlay (overlay_delta V d) ws.
Proof.
  intros [Ha Hs _]. split; intros; cbn; rewrite extend_lookup by done; [unfold WriteSet.account|]; by destruct (find_entry _ _).
Qed.

Lemma overlay_merge V d d' : overlay_delta V (PendingDelta.merge_from d d') ≡ overlay_delta (overlay_delta V d) d'.
Proof.
  split; intros; cbn; rewrite lookup_union.
  - by destruct (PendingDelta.accounts d' !! a), (PendingDelta.accounts d !! a).
  - by destruct (PendingDelta.storage d' !! (a, k)), (PendingDelta.storage d !! (a, k)).
Qed.

(** ** The code of a delta *)

(** What the snapshot or the delta knows. *)
Definition delta_knows (kn : B256 → Prop) (d : PendingDelta.t) (h : B256) : Prop :=
  kn h ∨ ∃ b, PendingDelta.code d !! h = Some b ∧ b ≠ [].

Record delta_sound `{Content} (kn : B256 → Prop) (V : View) (d : PendingDelta.t) : Prop := {
  delta_codes : ∀ h b, PendingDelta.code d !! h = Some b → b = code_of h;
  delta_closed : closed (delta_knows kn d) (overlay_delta V d);
}.

Lemma code_of_created `{Content} K st a acc b : state_sound K st → (a, acc) ∈ st → touched acc = true → created acc = true →
  info_code (acc_info acc) = Some b → b ≠ [] → (info_code_hash (acc_info acc), b) ∈ WriteSet.code (WriteSet.from_evm_state st).
Proof.
  unfold state_sound. rewrite Forall_forall. intros Hst Hin Et Ec Eb Hne. rewrite from_evm_state_parts. unfold WriteSet.finish. cbn.
  rewrite (merge_sort_Permutation entry_le), list_elem_of_bind. exists (a, acc). split; [|done]. unfold code_part. cbn. rewrite Et, Eb, Ec.
  destruct (Hst _ Hin Et) as [Hc _]. specialize (Hc _ Eb Hne). cbn in Hc.
  destruct (N.eqb_spec (info_code_hash (acc_info acc)) KECCAK_EMPTY) as [E|]; [by rewrite E, code_of_empty in Hc|].
  rewrite bool_decide_eq_false_2 by done. cbn. apply list_elem_of_singleton. done.
Qed.

Lemma code_from_state `{Content} K st h b : state_sound K st → (h, b) ∈ WriteSet.code (WriteSet.from_evm_state st) → b = code_of h.
Proof.
  rewrite from_evm_state_parts. unfold WriteSet.finish. cbn. rewrite (merge_sort_Permutation entry_le). apply code_part_sound.
Qed.

Lemma code_from_state_nonempty st h b : (h, b) ∈ WriteSet.code (WriteSet.from_evm_state st) → b ≠ [].
Proof.
  rewrite from_evm_state_parts. unfold WriteSet.finish. cbn. rewrite (merge_sort_Permutation entry_le).
  intros ([a acc] & Hp & _)%list_elem_of_bind. unfold code_part in Hp. cbn in Hp.
  destruct (touched acc), (info_code (acc_info acc)) as [b'|]; try by apply elem_of_nil in Hp.
  destruct (bool_decide_reflect (b' = [])); [by rewrite andb_false_r in Hp; apply elem_of_nil in Hp|].
  case_match; [|by apply elem_of_nil in Hp]. by apply list_elem_of_singleton in Hp as [= -> ->].
Qed.

(** The accounts after a record are known with the code that it adds. *)
Lemma overlay_closed `{Content} kn V K st : closed kn V → state_sound K st → (∀ h, h ∈ K → h = KECCAK_EMPTY ∨ kn h) →
  state_ok st → closed (λ h, kn h ∨ ∃ b, (h, b) ∈ WriteSet.code (WriteSet.from_evm_state st)) (overlay V (WriteSet.from_evm_state st)).
Proof.
  intros Hcl Hst HK Hok a f. cbn. rewrite account_from_state by apply Hok.
  assert (v_basic V a = Some f → af_code_hash f = KECCAK_EMPTY ∨ kn (af_code_hash f) ∨
    ∃ b, (af_code_hash f, b) ∈ WriteSet.code (WriteSet.from_evm_state st)) as Hold by (intros Hf; destruct (Hcl a f Hf); auto).
  destruct (find_entry a st) as [acc|] eqn:E; cbn; [|done]. destruct (touched acc) eqn:Et; [|done]. intros [= <-]. cbn.
  apply find_entry_elem in E. pose proof Hst as Hst'. unfold state_sound in Hst'. rewrite Forall_forall in Hst'.
  destruct (Hst' _ E Et) as [_ Hh]. cbn in Hh.
  unfold to_revm_code_hash in *. destruct (N.eqb_spec (info_code_hash (acc_info acc)) 0) as [|]; [by left|].
  destruct Hh as [->|[Hin|(Ec & b & Hb & Hne)]]; [by left| |]; [destruct (HK _ Hin); auto|].
  right. right. exists b. by eapply code_of_created.
Qed.

(** ** Seeding a layer *)

Section block.
Context `{EvmLaws} {C : CacheDB} `{!CacheLaws C}.

Lemma knows_seed layer c e h : (∀ h b, PendingDelta.code layer !! h = Some b → b = code_of h) → knows c h → knows (seed_account layer c e) h.
Proof.
  intros Hc Hk. destruct e as [a f]. cbn. apply knows_insert_info; [|by left]. intros b. cbn.
  destruct (PendingDelta.code layer !! _) as [b'|] eqn:E; cbn; [|done]. case_bool_decide; [done|]. intros [= <-] _. by apply Hc.
Qed.

Lemma seed_accounts layer c V l : serves c V → NoDup l.*1 → (∀ h b, PendingDelta.code layer !! h = Some b → b = code_of h) →
  let c' := fold_left (seed_account layer) l c in
  serves c' (mkView (λ a, match find_entry a l with Some f => Some (account_info f) | None => v_basic V a end) (v_storage V)) ∧
  (∀ h, knows c h → knows c' h) ∧
  (∀ a f b, (a, f) ∈ l → PendingDelta.code layer !! af_code_hash f = Some b → b ≠ [] → knows c' (af_code_hash f)).
Proof.
  intros Hs Hnd Hc. revert c V Hs Hnd. induction l as [|[a f] l IH]; intros c V Hs Hnd; cbn [fold_left].
  { split; [|split]; [|done|by intros ??? ?%elem_of_nil]. by eapply serves_proper; [|exact Hs]. }
  apply NoDup_cons in Hnd as [Hni Hnd]. cbn in Hni.
  assert (code_sound (mkInfo (af_balance f) (af_nonce f) (af_code_hash f)
    (code ← PendingDelta.code layer !! af_code_hash f; if bool_decide (code = []) then None else Some code))) as Hsound.
  { intros b. cbn. destruct (PendingDelta.code layer !! _) as [b'|] eqn:E; cbn; [|done]. case_bool_decide; [done|]. intros [= <-] _. by apply Hc. }
  destruct (IH (seed_account layer c (a, f)) _ (serves_insert_info _ _ a _ Hs Hsound) Hnd) as (Hs' & Hk' & Hn').
  split; [|split].
  - eapply serves_proper; [|exact Hs']. split; [|done]. intros a'. cbn. destruct (find_entry a' l) as [f'|] eqn:E.
    + apply find_entry_elem in E. case_decide as Ha; [|done]. subst a'. destruct Hni. apply list_elem_of_fmap. by exists (a, f').
    + by repeat case_decide.
  - intros h Hk. apply Hk'. by apply knows_seed.
  - intros a' f' b [[= -> ->]|Hin]%elem_of_cons Hb Hne; [|by eapply Hn'].
    apply Hk'. apply knows_insert_info; [done|]. right. cbn. split; [done|]. rewrite Hb. cbn. rewrite bool_decide_eq_false_2 by done. by eauto.
Qed.

Lemma seed_storages c V l : serves c V → NoDup l.*1 → ∃ c', try_fold seed_storage c l = Ok c' ∧
  serves c' (mkView (v_basic V) (λ a k, default (v_storage V a k) (find_entry (a, k) l))) ∧ (∀ h, knows c h → knows c' h).
Proof.
  revert c V. induction l as [|[[a k] v] l IH]; intros c V Hs Hnd; cbn [try_fold].
  { exists c. split; [done|]. split; [|done]. by eapply serves_proper; [|exact Hs]. }
  apply NoDup_cons in Hnd as [Hni Hnd]. cbn in Hni. destruct (serves_insert_storage c V a k v Hs) as (c1 & E1 & Hs1 & Hk1).
  cbn. rewrite E1. destruct (IH c1 _ Hs1 Hnd) as (c' & E' & Hs' & Hk'). exists c'. split; [done|]. split; [|intros h Hh; by apply Hk', Hk1].
  eapply serves_proper; [|exact Hs']. split; [done|]. intros a' k'. cbn. destruct (find_entry (a', k') l) as [w|] eqn:E; cbn.
  - apply find_entry_elem in E. case_decide as Ha; [|done]. injection Ha as -> ->. destruct Hni. apply list_elem_of_fmap. by exists ((a', k'), w).
  - repeat case_decide; simplify_eq; done.
Qed.

Lemma find_entry_map_to_list {K V} `{Countable K} (m : gmap K V) k : find_entry k (map_to_list m) = m !! k.
Proof.
  apply option_eq. intros v. rewrite find_entry_nodup by apply NoDup_fst_map_to_list. by rewrite elem_of_map_to_list.
Qed.

(** A snapshot, and a delta over it. *)
Definition snapshot_knows (s : StateDatabase) (h : B256) : Prop := SnapshotRef.code_by_hash_ref s h = Ok (code_of h).

Lemma seed_scope s V d : snapshot_is s V → closed (snapshot_knows s) V → delta_sound (snapshot_knows s) V d →
  ∃ c, seed_cache_layer (cdb_new s) d = Ok c ∧ scope_at c (overlay_delta V d).
Proof.
  intros Hs Hcl0 [Hcodes Hcl]. unfold seed_cache_layer.
  destruct (seed_accounts d _ _ (map_to_list (PendingDelta.accounts d)) (serves_new _ _ Hs)) as (Hs1 & Hk1 & Hn1);
    [apply NoDup_fst_map_to_list|done|].
  destruct (seed_storages _ _ (map_to_list (PendingDelta.storage d)) Hs1) as (c & -> & Hs2 & Hk2); [apply NoDup_fst_map_to_list|].
  exists c. split; [done|]. split.
  - eapply serves_proper; [|exact Hs2]. split; intros; cbn; by rewrite find_entry_map_to_list.
  - intros a f Ha. destruct (Hcl a f Ha) as [|[Hkn|(b & Hb & Hne)]]; [by left|right; by apply Hk2, Hk1, knows_new|].
    revert Ha. cbn. destruct (PendingDelta.accounts d !! a) as [f'|] eqn:Ea.
    + intros [= <-]. cbn in *. unfold to_revm_code_hash in *. destruct (af_code_hash f' =? 0)%N; [by left|]. right.
      apply Hk2. by eapply Hn1; [apply elem_of_map_to_list| |].
    + intros Hf. destruct (Hcl0 a f Hf); [by left|right; by apply Hk2, Hk1, knows_new].
Qed.

Lemma executor_new_scope s V d env : snapshot_is s V → closed (snapshot_knows s) V → delta_sound (snapshot_knows s) V d →
  ∃ sc, executor_new s (Some d) env = Ok sc ∧ ex_env sc = env ∧ scope_at (ex_cache sc) (overlay_delta V d).
Proof.
  intros Hs Hcl Hd. unfold executor_new, seed_layer. destruct (seed_scope s V d Hs Hcl Hd) as (c & Hc & Hsc). cbn. rewrite Hc. by eauto.
Qed.

(** ** A block *)

(** What a record decodes to. *)
Definition seq_decoded (r : SeqTx) : option (AlloyEnvelope Authorization) :=
  match st_decoded r with Some d => Some d | None => decode_2718 (raw_tx (st_envelope r)) end.

Definition seq_slot (r : SeqTx) (i cumulative : N) : TxSlot := mkTxSlot (st_tx_idx r) (st_position r) i cumulative.

(** The records of a block over views. *)
Fixpoint block_spec (env : ExecEnv) (V : View) (cumulative i : N) (records : list SeqTx)
  : result ExecutorError (list (Receipt * WriteSet.t)) :=
  match records with
  | [] => Ok []
  | r :: records' =>
    match tx_spec env V (seq_slot r i cumulative) (st_envelope r) (seq_decoded r) with
    | Err e => Err e
    | Ok (receipt, ws) =>
      match block_spec env (overlay V ws) (cumulative_gas_used receipt) (i + 1) records' with
      | Ok out => Ok ((receipt, ws) :: out)
      | Err e => Err e
      end
    end
  end.

(** No record of the block delegates an account, and along the block no account
    destroys itself. *)
Fixpoint block_ok (env : ExecEnv) (V : View) (i : N) (records : list SeqTx) : Prop :=
  match records with
  | [] => True
  | r :: records' =>
    undelegated (seq_decoded r) ∧
    ∀ cumulative e, run (view_answer V) (tx_tree env (seq_slot r i cumulative) (st_envelope r) (seq_decoded r)) = Ok e →
      survives (ending_state e) ∧ block_ok env (overlay V (ending_ws e)) (i + 1) records'
  end.

(** The transactions are tame, and every outcome fits its view. *)
Fixpoint block_fits (env : ExecEnv) (V : View) (i : N) (records : list SeqTx) : Prop :=
  match records with
  | [] => True
  | r :: records' =>
    tx_tame env (st_envelope r) (seq_decoded r) ∧
    ∀ cumulative e, run (view_answer V) (tx_tree env (seq_slot r i cumulative) (st_envelope r) (seq_decoded r)) = Ok e →
      ending_ok V e ∧ block_fits env (overlay V (ending_ws e)) (i + 1) records'
  end.

Lemma block_ok_fits env V i records : view_ok V → block_ok env V i records → block_fits env V i records.
Proof.
  revert V i. induction records as [|r records IH]; intros V i HV; cbn; [done|]. intros [Hd Hr]. split; [by apply undelegated_tame|].
  intros cum e He. destruct (Hr cum e He) as [Hsv Hrest]. destruct (ending_behaves _ _ _ _ _ _ Hd HV He Hsv). split; [done|]. by apply IH.
Qed.

Lemma block_fits_proper env V W i records : V ≡ W → block_fits env V i records → block_fits env W i records.
Proof.
  revert V W i. induction records as [|r records IH]; intros V W i HVW; cbn; [done|]. intros [Ht Hr]. split; [done|]. intros cum e.
  rewrite <-(run_view_proper V W HVW _ _ eq_refl). intros He. destruct (Hr _ _ He) as [Hok Hrest]. split.
  - destruct e as [|? st]; [done|]. eapply Forall_impl; [exact Hok|].
    intros [a acc] Hf Et. destruct (Hf Et) as (Hd & Hsame & Hnew). destruct HVW as [_ HS]. split; [done|]. split; intros; rewrite <-HS; auto.
  - eapply IH; [|exact Hrest]. by rewrite HVW.
Qed.

Lemma block_fits_app env V i r1 r2 : block_fits env V i (r1 ++ r2) → block_fits env V i r1.
Proof. revert V i. induction r1 as [|r r1 IH]; intros V i; cbn; [done|]. intros [Ht Hr]. split; [done|]. intros cum e He. destruct (Hr _ _ He). eauto. Qed.

Lemma apply_one_scope acc sc i r : apply_one acc sc i r =
  match scope_exec sc (seq_slot r i (sa_cumulative acc)) (st_envelope r) (seq_decoded r) with
  | Err e => Err e
  | Ok (sc, (receipt, ws)) =>
    Ok (mkAcc (sa_receipts acc ++ [receipt]) (PendingDelta.apply (sa_delta acc) ws) (cumulative_gas_used receipt), sc)
  end.
Proof. unfold apply_one, seq_decoded, execute_tx, scope_exec. destruct (st_decoded r); [done|]. by destruct (decode_2718 _). Qed.

(** The engine from any scope. *)
Lemma apply_all_spec env acc sc V i records : ex_env sc = env → scope_at (ex_cache sc) V → block_fits env V i records →
  apply_all acc sc i records =
  match block_spec env V (sa_cumulative acc) i records with
  | Err e => Err e
  | Ok out => Ok (mkAcc (sa_receipts acc ++ out.*1) (fold_left PendingDelta.apply out.*2 (sa_delta acc))
                  (default (sa_cumulative acc) (cumulative_gas_used <$> last out.*1)))
  end.
Proof.
  revert acc sc V i. induction records as [|r records IH]; intros acc sc V i Henv Hsc Hok; cbn [apply_all block_spec].
  { cbn. rewrite app_nil_r. by destruct acc. }
  destruct Hok as [Ht Hr]. rewrite apply_one_scope. subst env.
  pose proof (scope_exec_spec sc V (seq_slot r i (sa_cumulative acc)) (st_envelope r) (seq_decoded r) Hsc Ht (λ e He, proj1 (Hr _ e He))) as Hx.
  destruct (scope_exec _ _ _ _) as [[sc' [receipt ws]]|]; [|by rewrite Hx]. destruct Hx as (Hspec & Henv' & Hsc'). rewrite Hspec.
  assert (block_fits (ex_env sc) (overlay V ws) (i + 1) records) as Hok'.
  { unfold tx_spec in Hspec. destruct (run _ _) as [e|] eqn:He; [|done]. destruct (ending_receipt _ _ _ _ _); [|done].
    injection Hspec as _ <-. by apply (Hr _ e He). }
  rewrite (IH _ _ _ _ Henv' Hsc' Hok'). cbn [sa_cumulative sa_receipts sa_delta].
  destruct (block_spec _ _ _ _ records) as [out|]; [|done]. f_equal. cbn [fmap list_fmap fold_left]. rewrite <-app_assoc. f_equal.
  change ((λ '(x, _), x) <$> out) with (out.*1). rewrite last_cons. by destruct (last out.*1).
Qed.

(** ** The delta carries the state *)

Lemma merge_apply base d ws : PendingDelta.merge_from base (PendingDelta.apply d ws) = PendingDelta.apply (PendingDelta.merge_from base d) ws.
Proof.
  assert (∀ {K V} `{Countable K} (m m' : gmap K V) l, PendingDelta.extend m l ∪ m' = PendingDelta.extend (m ∪ m') l) as Hx.
  { intros K V ?? m m' l. unfold PendingDelta.extend. revert m. induction l as [|[k v] l IH]; intros m; cbn; [done|].
    rewrite IH. by rewrite insert_union_l. }
  unfold PendingDelta.merge_from, PendingDelta.apply. cbn. by rewrite !Hx.
Qed.

Lemma merge_applies base wss d :
  PendingDelta.merge_from base (fold_left PendingDelta.apply wss d) = fold_left PendingDelta.apply wss (PendingDelta.merge_from base d).
Proof. revert d. induction wss as [|ws wss IH]; intros d; cbn; [done|]. by rewrite IH, merge_apply. Qed.

Lemma merge_new base : PendingDelta.merge_from base PendingDelta.new = base.
Proof. destruct base. unfold PendingDelta.merge_from. cbn. by rewrite !(left_id_L ∅ (∪)). Qed.

Lemma delta_knows_apply kn d st h : state_ok st → delta_knows kn d h ∨ (∃ b, (h, b) ∈ WriteSet.code (WriteSet.from_evm_state st)) →
  delta_knows kn (PendingDelta.apply d (WriteSet.from_evm_state st)) h.
Proof.
  intros Hok Hh. pose proof (keyed_code _ (from_state_keyed _ Hok)) as Hkc. unfold delta_knows. cbn. rewrite extend_lookup by done.
  destruct (find_entry h (WriteSet.code (WriteSet.from_evm_state st))) as [b'|] eqn:E.
  - right. exists b'. split; [done|]. by eapply code_from_state_nonempty, find_entry_elem.
  - destruct Hh as [[Hkn|Hb]|(b & Hb)]; [by left|by right|]. by rewrite (proj2 (find_entry_iff _ _ _ (Hkc h)) Hb) in E.
Qed.

(** One record leaves a sound delta that carries the next view. *)
Lemma delta_step kn env slot envelope d0 V d e : delta_sound kn V d → tx_tame env envelope d0 →
  run (view_answer (overlay_delta V d)) (tx_tree env slot envelope d0) = Ok e → ending_ok (overlay_delta V d) e →
  delta_sound kn V (PendingDelta.apply d (ending_ws e)) ∧ ws_keyed (ending_ws e).
Proof.
  intros [Hcodes Hcl] Ht He Hok.
  destruct (run_closed _ _ _ _ _ Hcl (tx_tree_tame _ slot _ _ Ht)) as (K & Hsnd & HK); [by intros ??%elem_of_empty|].
  rewrite He in Hsnd. destruct (ending_state_ok _ _ _ Hsnd Hok) as [Hsok _]. destruct Hsnd as (_ & Hst & _).
  pose proof (from_state_keyed _ Hsok) as Hkey. split; [|done]. split.
  - intros h b. cbn. rewrite extend_lookup by apply Hkey. destruct (find_entry h _) as [b'|] eqn:E; [|apply Hcodes].
    intros [= <-]. by eapply code_from_state, find_entry_elem.
  - eapply closed_proper; [symmetry; by apply overlay_apply|]. eapply closed_mono; [|by eapply overlay_closed].
    intros h. by apply delta_knows_apply.
Qed.

#[export] Instance tx_spec_proper env : Proper ((≡) ==> (=) ==> (=) ==> (=) ==> (=)) (tx_spec env).
Proof. intros V W HVW ? slot -> ? envelope -> ? d ->. unfold tx_spec. by rewrite (run_view_proper V W HVW _ _ eq_refl). Qed.

#[export] Instance block_spec_proper env : Proper ((≡) ==> (=) ==> (=) ==> (=) ==> (=)) (block_spec env).
Proof.
  intros V W HVW ? cum -> ? i -> ? records ->. revert V W HVW cum i. induction records as [|r records IH]; intros V W HVW cum i; cbn; [done|].
  rewrite (tx_spec_proper env V W HVW _ _ eq_refl _ _ eq_refl _ _ eq_refl). destruct (tx_spec _ W _ _ _) as [[receipt ws]|]; [|done].
  by rewrite (IH (overlay V ws) (overlay W ws)) by (by rewrite HVW).
Qed.

Lemma tx_spec_ending env V slot envelope d receipt ws : tx_spec env V slot envelope d = Ok (receipt, ws) →
  ∃ e, run (view_answer V) (tx_tree env slot envelope d) = Ok e ∧ ending_receipt env slot envelope d e = Ok receipt ∧ ws = ending_ws e.
Proof.
  unfold tx_spec. destruct (run _ _) as [e|]; [|done]. destruct (ending_receipt _ _ _ _ e) eqn:E; [|done]. intros [= <- <-]. by eauto.
Qed.

(** The delta of a block is sound, and the rest of the block follows from it. *)
Lemma block_delta kn env V d cumulative i r1 r2 out : delta_sound kn V d → block_fits env (overlay_delta V d) i (r1 ++ r2) →
  block_spec env (overlay_delta V d) cumulative i r1 = Ok out →
  let d' := fold_left PendingDelta.apply out.*2 d in
  let i' := (i + N.of_nat (length r1))%N in
  delta_sound kn V d' ∧ block_fits env (overlay_delta V d') i' r2 ∧
  block_spec env (overlay_delta V d) cumulative i (r1 ++ r2) =
    match block_spec env (overlay_delta V d') (default cumulative (cumulative_gas_used <$> last out.*1)) i' r2 with
    | Ok out2 => Ok (out ++ out2)
    | Err e => Err e
    end.
Proof.
  revert d cumulative i out. induction r1 as [|r r1 IH]; intros d cumulative i out Hd Hok Hspec.
  { injection Hspec as <-. cbn in *. rewrite N.add_0_r. split; [done|]. split; [done|]. by destruct (block_spec _ _ _ _ _). }
  cbn [block_spec app] in *. destruct (tx_spec _ _ _ _ _) as [[receipt ws]|] eqn:Etx; [|done].
  destruct (tx_spec_ending _ _ _ _ _ _ _ Etx) as (e & He & _ & ->). destruct Hok as [Ht Hr]. destruct (Hr _ e He) as [Hoke Hok].
  destruct (delta_step _ _ _ _ _ _ _ _ Hd Ht He Hoke) as [Hd1 Hkey]. pose proof (overlay_apply V d _ Hkey) as Hov.
  rewrite <-Hov in *. destruct (block_spec _ _ _ _ r1) as [out1|] eqn:E1; [|done]. injection Hspec as <-.
  eapply block_fits_proper in Hok; [|symmetry; exact Hov]. destruct (IH _ _ _ _ Hd1 Hok E1) as (Hd' & Hok' & Hs').
  rewrite Hs'. cbn [fmap list_fmap fold_left length]. change ((λ '(x, _), x) <$> out1) with (out1.*1). rewrite last_cons.
  replace (i + N.of_nat (S (length r1)))%N with (i + 1 + N.of_nat (length r1))%N by lia.
  split; [done|]. split; [done|]. destruct (last out1.*1); cbn; by destruct (block_spec _ _ _ _ r2).
Qed.

Definition acc_start : SeqAcc := mkAcc [] PendingDelta.new 0.

(** C11. The delta that a block returns is the whole of its state change: after any
    prefix of a block, a scope built anew over the snapshot and the delta so far
    runs the rest of the block to the same receipts and the same delta. The block
    has no EIP-7702 delegation and no self-destructed account, which a delta does
    not carry; the snapshot answers, and it and the base delta hold the code of
    every account; only accounts with a nonce or a code have storage. *)
Theorem scope_restart s V base env r1 r2 sc acc :
  snapshot_is s V → closed (snapshot_knows s) V → delta_sound (snapshot_knows s) V base →
  view_ok (overlay_delta V base) → block_ok env (overlay_delta V base) 0 (r1 ++ r2) →
  executor_new s (Some base) env = Ok sc → apply_all acc_start sc 0 r1 = Ok acc →
  ∃ sc', executor_new s (Some (PendingDelta.merge_from base (sa_delta acc))) env = Ok sc' ∧
    apply_all acc_start sc 0 (r1 ++ r2) = apply_all acc sc' (N.of_nat (length r1)) r2.
Proof.
  intros Hs Hcl Hb HV Hok Hnew Hacc. apply block_ok_fits in Hok; [|done]. destruct (executor_new_scope s V base env Hs Hcl Hb) as (sc0 & E0 & Henv & Hsc).
  rewrite Hnew in E0. injection E0 as <-.
  assert (block_fits env (overlay_delta V base) 0 r1) as Hok1 by (by eapply block_fits_app).
  rewrite (apply_all_spec env _ _ _ _ _ Henv Hsc Hok1) in Hacc. destruct (block_spec _ _ _ _ r1) as [out|] eqn:E1; [|done].
  injection Hacc as <-. cbn [sa_delta sa_cumulative sa_receipts acc_start] in *.
  destruct (block_delta _ _ _ _ _ _ _ _ _ Hb Hok E1) as (Hd & Hok2 & Hs2). rewrite N.add_0_l in *.
  rewrite merge_applies, merge_new. destruct (executor_new_scope s V _ env Hs Hcl Hd) as (sc' & E' & Henv' & Hsc').
  exists sc'. split; [done|]. rewrite (apply_all_spec env _ _ _ _ _ Henv Hsc Hok), (apply_all_spec env _ _ _ _ _ Henv' Hsc' Hok2).
  cbn [sa_delta sa_cumulative sa_receipts acc_start]. rewrite Hs2. destruct (block_spec _ _ _ _ r2) as [out2|]; [|done].
  rewrite !fmap_app, fold_left_app, last_app. f_equal. f_equal. by destruct (last out2.*1).
Qed.
End block.

(** ** Witness *)

Lemma toy_closed : closed (snapshot_knows toy_snapshot) toy_view.
Proof.
  intros a f. cbn. unfold toy_fields. destruct (a =? 1)%N; [intros [= <-]; by left|]. destruct (a =? 3)%N; [|done].
  intros [= <-]. by right.
Qed.

Lemma toy_base_sound : delta_sound (snapshot_knows toy_snapshot) toy_view toy_base.
Proof.
  split; [done|]. intros a f. unfold overlay_delta. cbn [v_basic].
  destruct (PendingDelta.accounts toy_base !! a) as [f'|] eqn:E.
  - cbn [PendingDelta.accounts toy_base] in E. apply lookup_singleton_Some in E as [<- <-]. intros [= <-]. by left.
  - intros Hf. destruct (toy_closed a f Hf); [by left|right; by left].
Qed.

Lemma survives_check st : forallb (λ x, negb (selfdestructed x.2)) st = true → survives st.
Proof.
  rewrite forallb_forall. intros Hst. apply Forall_forall. intros x Hin%list_elem_of_In _. by apply negb_true_iff, Hst.
Qed.

Lemma toy_view_ok : view_ok (overlay_delta toy_view toy_base).
Proof.
  intros a k. cbn. rewrite lookup_empty. cbn. destruct (N.eqb_spec a 3) as [->|]; [|done]. by intros [? _].
Qed.

Lemma toy_block_ok : block_ok toy_env (overlay_delta toy_view toy_base) 0 toy_records.
Proof.
  split; [done|]. intros cum e He. vm_compute in He. injection He as <-. split; [by apply survives_check; vm_compute|].
  split; [done|]. clear cum. intros cum e He. vm_compute in He. injection He as <-. split; [by apply survives_check; vm_compute|].
  split; [done|]. clear cum. intros cum e He. vm_compute in He. injection He as <-. split; [by apply survives_check; vm_compute|done].
Qed.

Lemma scope_restart_witness : ∃ sc acc sc', executor_new toy_snapshot (Some toy_base) toy_env = Ok sc ∧
  executor_new toy_snapshot (Some (PendingDelta.merge_from toy_base (sa_delta acc))) toy_env = Ok sc' ∧
  apply_all acc_start sc 0 toy_records = apply_all acc sc' 2 (drop 2 toy_records).
Proof.
  destruct (executor_new_scope _ _ _ toy_env toy_snapshot_is toy_closed toy_base_sound) as (sc & Hsc & Henv & Hat).
  destruct (apply_all acc_start sc 0 (take 2 toy_records)) as [acc|] eqn:Hacc.
  - destruct (scope_restart toy_snapshot toy_view toy_base toy_env (take 2 toy_records) (drop 2 toy_records) sc acc
      toy_snapshot_is toy_closed toy_base_sound toy_view_ok toy_block_ok Hsc Hacc) as (sc' & Hsc' & Heq). by exists sc, acc, sc'.
  - exfalso. injection Hsc as <-. vm_compute in Hacc. discriminate Hacc.
Defined.
