(* ===== verification/StmMv.v ===== *)
(** * The multi-version cache of Block-STM

    Models [crates/stm/src/mv.rs]: for each account and each slot a list of
    versions, sorted by the index of the transaction that published it, in sharded
    tables. A shard is a map behind a lock; an operation here is one critical
    section. A poisoned lock is a panic of another worker and is left out. *)
From S2P Require Import Prelude Bytes WriteSet.

(** An [AccountVersion] has the three fields of an account. *)
Abbreviation AccountVersion := AccountFields (only parsing).

(** The index of the transaction that a read observed, or the block input. *)
Abbreviation SeenVersion := (option N) (only parsing).

Inductive ReadRecord : Type :=
| RAccount (addr : Address) (seen : SeenVersion)
| RSlot (addr : Address) (key : B256) (seen : SeenVersion)
| RCode (hash : B256) (hit : bool).

Definition SHARDS : nat := 64.

(** The last eight bytes, folded. *)
Definition shard_of (bytes : list N) : nat :=
  let h := fold_left (λ h b, ((N.lxor h b) * 0x100000001b3) mod 2 ^ 64)%N (take 8 (rev bytes)) 0xcbf29ce484222325%N in
  N.to_nat (h mod N.of_nat SHARDS).

Definition account_shard (addr : Address) : nat := shard_of (to_be_bytes 20 addr).

Abbreviation Versions V := (list (N * V)).

(** [binary_search_by_key] on the sorted list, and the write at the position that
    it answers: over an equal index, or at the place of a new one. *)
Fixpoint version_publish {V} (idx : N) (v : V) (l : Versions V) : Versions V :=
  match l with
  | [] => [(idx, v)]
  | (i, w) :: l' =>
    if (i =? idx)%N then (idx, v) :: l'
    else if (idx <? i)%N then (idx, v) :: l
    else (i, w) :: version_publish idx v l'
  end.

(** [partition_point] of the versions below an index. *)
Fixpoint partition_point {V} (idx : N) (l : Versions V) : nat :=
  match l with
  | [] => 0
  | (i, _) :: l' => if (i <? idx)%N then S (partition_point idx l') else 0
  end.

Definition version_read {V} (idx : N) (l : Versions V) : option (N * V) :=
  match partition_point idx l with
  | O => None
  | S p => l !! p
  end.

(** One map of cells per shard. *)
Abbreviation ShardTable K V := (list (gmap K (Versions V))).

Module Shards.
Section shards.
Context {K V : Type} `{Countable K}.
Abbreviation t := (ShardTable K V).

Definition new (n : nat) : t := replicate n ∅.

Definition publish (s : t) (shard : nat) (key : K) (idx : N) (v : V) : t :=
  alter (λ g, <[key := version_publish idx v (default [] (g !! key))]> g) shard s.

Definition read (s : t) (shard : nat) (key : K) (idx : N) : option (N * V) :=
  g ← s !! shard; l ← g !! key; version_read idx l.

(** Every cell's latest version, in the order of the tables. *)
Definition last_versions (s : t) : list (K * V) :=
  g ← s; omap (λ '(k, l), v ← last l; Some (k, v.2)) (map_to_list g).

Definition scrub_shard (keep_keys_cap : nat) (g : gmap K (Versions V)) : gmap K (Versions V) :=
  if (keep_keys_cap <? size g)%nat then ∅ else (λ _, []) <$> g.

Definition scrub (s : t) (keep_keys_cap : nat) : t := scrub_shard keep_keys_cap <$> s.
End shards.
End Shards.

Module MvCache.
Record t : Type := mk {
  accounts : ShardTable Address AccountVersion;
  storage : ShardTable (Address * B256) N;
  code : gmap B256 (list N);
}.

Definition new : t := mk (Shards.new SHARDS) (Shards.new SHARDS) ∅.

Definition publish_account (mv : t) (idx : N) (addr : Address) (v : AccountVersion) : t :=
  mk (Shards.publish (accounts mv) (account_shard addr) addr idx v) (storage mv) (code mv).

Definition publish_slot (mv : t) (idx : N) (addr : Address) (key : B256) (value : N) : t :=
  mk (accounts mv) (Shards.publish (storage mv) (account_shard addr) (addr, key) idx value) (code mv).

(** The first write of a hash wins. *)
Definition publish_code (mv : t) (hash : B256) (bytes : list N) : t :=
  mk (accounts mv) (storage mv) (match code mv !! hash with Some _ => code mv | None => <[hash := bytes]> (code mv) end).

Definition read_account (mv : t) (idx : N) (addr : Address) : option (N * AccountVersion) :=
  Shards.read (accounts mv) (account_shard addr) addr idx.

Definition read_slot (mv : t) (idx : N) (addr : Address) (key : B256) : option (N * N) :=
  Shards.read (storage mv) (account_shard addr) (addr, key) idx.

Definition read_code (mv : t) (hash : B256) : option (list N) := code mv !! hash.

Definition has_code (mv : t) (hash : B256) : bool := bool_decide (is_Some (code mv !! hash)).

Definition KEEP_KEYS_CAP : nat := 1024.

Definition scrub (mv : t) : t :=
  mk (Shards.scrub (accounts mv) KEEP_KEYS_CAP) (Shards.scrub (storage mv) KEEP_KEYS_CAP) ∅.

(** The highest version of every cell, and all created code. *)
Definition final_delta (mv : t) : PendingDelta.t :=
  PendingDelta.mk (PendingDelta.extend ∅ (Shards.last_versions (accounts mv)))
    (PendingDelta.extend ∅ (Shards.last_versions (storage mv)))
    (PendingDelta.extend ∅ (map_to_list (code mv))).

Definition validate (mv : t) (idx : N) (r : ReadRecord) : bool :=
  match r with
  | RAccount addr seen => bool_decide (fst <$> read_account mv idx addr = seen)
  | RSlot addr key seen => bool_decide (fst <$> read_slot mv idx addr key = seen)
  | RCode hash hit => hit || negb (has_code mv hash)
  end.
End MvCache.
