(* ===== verification/StmMvSpec.v ===== *)
(** * The multi-version cache against its cells

    The shards are transparent: the cache is one list of versions per cell, sorted
    by index. A read answers the highest version below its index, whatever the
    order in which the versions were published; a scrubbed cache reads as a new
    one; and the final delta is the top version of every cell. *)
From S2P Require Import Prelude Bytes WriteSet WriteSetSpec StmMv.

(** ** Version lists *)
Section versions.
Context {V : Type}.
Implicit Types l : Versions V.

Definition below (a b : N * V) : Prop := (a.1 < b.1)%N.
Definition sorted (l : Versions V) : Prop := StronglySorted below l.

Lemma sorted_unique l j v w : sorted l → (j, v) ∈ l → (j, w) ∈ l → v = w.
Proof.
  induction 1 as [|[i x] l Hl IH Hall]; [by intros ?%elem_of_nil|]. rewrite Forall_forall in Hall.
  rewrite !elem_of_cons. intros [[= -> ->]|Hv] [[= ->]|Hw]; auto; [apply Hall in Hw|subst; apply Hall in Hv]; unfold below in *; cbn in *; lia.
Qed.

Lemma elem_of_publish idx v l j w : sorted l → (j, w) ∈ version_publish idx v l ↔ (j = idx ∧ w = v) ∨ (j ≠ idx ∧ (j, w) ∈ l).
Proof.
  induction 1 as [|[i x] l Hl IH Hall]; cbn.
  { rewrite list_elem_of_singleton, elem_of_nil. naive_solver. }
  rewrite Forall_forall in Hall.
  assert (∀ w, (i, w) ∈ l → False) as Hi by (intros w' Hw; apply Hall in Hw; unfold below in Hw; cbn in Hw; lia).
  destruct (N.eqb_spec i idx) as [->|Hne]; [|destruct (N.ltb_spec idx i)]; rewrite !elem_of_cons, ?IH.
  - split; [intros [[= -> ->]|Hin]; [by left|right; split; [intros ->; by eapply Hi|by right]]|].
    intros [[-> ->]|(Hj & [[= -> ->]|?])]; [by left|done|by right].
  - split; [|naive_solver]. intros [[= -> ->]|[[= -> ->]|Hin]]; [by left|right; split; [lia|by left]|right; split; [|by right]].
    apply Hall in Hin. unfold below in Hin. cbn in Hin. lia.
  - naive_solver.
Qed.

Lemma publish_sorted idx v l : sorted l → sorted (version_publish idx v l).
Proof.
  induction 1 as [|[i x] l Hl IH Hall]; cbn; [by repeat constructor|].
  destruct (N.eqb_spec i idx) as [->|Hne]; [by constructor|]. destruct (N.ltb_spec idx i).
  - constructor; [by constructor|]. constructor; [done|]. eapply Forall_impl; [exact Hall|]. intros [j w]. unfold below. cbn. lia.
  - constructor; [done|]. apply Forall_forall. intros [j w] Hin. apply elem_of_publish in Hin as [[-> ->]|[_ Hin]]; [unfold below; cbn; lia| |done].
    rewrite Forall_forall in Hall. by apply Hall.
Qed.

Lemma partition_point_le idx l : (partition_point idx l ≤ length l)%nat.
Proof. induction l as [|[i x] l IH]; cbn; [done|]. case_match; cbn; lia. Qed.

Lemma version_read_cons idx i x l : version_read idx ((i, x) :: l) =
  if (i <? idx)%N then Some (default (i, x) (version_read idx l)) else None.
Proof.
  unfold version_read. cbn. destruct (i <? idx)%N; [|done]. pose proof (partition_point_le idx l) as Hle.
  destruct (partition_point idx l) as [|p]; [done|].
  destruct (lookup_lt_is_Some_2 l p) as [y Hy]; [lia|]. change (l !! p = Some (default (i, x) (l !! p))). by rewrite Hy.
Qed.

(** The highest version below an index. *)
Definition latest (idx : N) (l : Versions V) (j : N) (v : V) : Prop :=
  (j, v) ∈ l ∧ (j < idx)%N ∧ ∀ j' v', (j', v') ∈ l → (j' < idx)%N → (j' ≤ j)%N.

Lemma version_read_None idx l : sorted l → version_read idx l = None ↔ ∀ j v, (j, v) ∈ l → (idx ≤ j)%N.
Proof.
  destruct 1 as [|[i x] l Hl Hall]; [split; [by intros _ ?? ?%elem_of_nil|done]|]. rewrite version_read_cons, Forall_forall in *.
  destruct (N.ltb_spec i idx).
  - split; [done|]. intros Hx. specialize (Hx i x (list_elem_of_here _ _)). lia.
  - split; [|done]. intros _ j v [[= -> ->]|Hin]%elem_of_cons; [done|]. apply Hall in Hin. unfold below in Hin. cbn in Hin. lia.
Qed.

Lemma version_read_latest idx l j v : sorted l → version_read idx l = Some (j, v) → latest idx l j v.
Proof.
  intros Hs. revert j v. induction Hs as [|[i x] l Hl IH Hall]; intros j v; [done|]. rewrite version_read_cons, Forall_forall in *.
  destruct (N.ltb_spec i idx); [|done]. destruct (version_read idx l) as [[j' v']|] eqn:E; cbn; intros [= -> ->].
  - destruct (IH _ _ eq_refl) as (Hin & Hlt & Hmax). split; [by right|]. split; [done|].
    intros j'' v'' [[= -> ->]|Hin'']%elem_of_cons ?; [|by eapply Hmax]. apply Hall in Hin. unfold below in Hin. cbn in Hin. lia.
  - split; [by left|]. split; [done|]. intros j'' v'' [[= -> ->]|Hin'']%elem_of_cons ?; [done|].
    rewrite version_read_None in E by done. apply E in Hin''. lia.
Qed.

Lemma latest_unique idx l j v j' v' : sorted l → latest idx l j v → latest idx l j' v' → j = j' ∧ v = v'.
Proof.
  intros Hs (Hin & Hlt & Hmax) (Hin' & Hlt' & Hmax'). assert (j = j') as ->.
  { apply (N.le_antisymm j j'); [by eapply Hmax'|by eapply Hmax]. }
  split; [done|]. by eapply sorted_unique.
Qed.

Lemma version_read_Some idx l j v : sorted l → version_read idx l = Some (j, v) ↔ latest idx l j v.
Proof.
  intros Hs. split; [by apply version_read_latest|]. intros Hl. destruct (version_read idx l) as [[j' v']|] eqn:E.
  - apply version_read_latest in E; [|done]. by destruct (latest_unique _ _ _ _ _ _ Hs Hl E) as [-> ->].
  - rewrite version_read_None in E by done. destruct Hl as (Hin & Hlt & _). apply E in Hin. lia.
Qed.

Lemma sorted_last l j v : sorted l → last l = Some (j, v) → ∀ idx, (∀ j v, (j, v) ∈ l → (j < idx)%N) → version_read idx l = Some (j, v).
Proof.
  intros Hs Hlast idx Hidx. apply version_read_Some; [done|]. apply last_Some in Hlast as (l' & ->).
  split; [set_solver|]. split; [apply (Hidx j v); set_solver|]. intros j' v' [Hin|[= -> ->]%list_elem_of_singleton]%elem_of_app _; [|done].
  apply StronglySorted_app in Hs as (Hs & _ & _). specialize (Hs _ _ Hin (list_elem_of_here _ _)). unfold below in Hs. cbn in Hs. lia.
Qed.
End versions.

(** ** Shards *)
Section shards.
Context {K V : Type} `{Countable K} (sh : K → nat).
Implicit Types s : ShardTable K V.

(** The versions of a cell. *)
Definition cell (s : ShardTable K V) (k : K) : Versions V := default [] (g ← s !! sh k; g !! k).

(** Every shard is there, a key is in its own shard, and versions are sorted. *)
Record shards_ok (s : ShardTable K V) : Prop := {
  shards_there : ∀ k, (sh k < length s)%nat;
  shards_placed : ∀ i g k, s !! i = Some g → is_Some (g !! k) → i = sh k;
  shards_sorted : ∀ k, sorted (cell s k);
}.

Lemma read_cell s k idx : Shards.read s (sh k) k idx = version_read idx (cell s k).
Proof. unfold Shards.read, cell. destruct (s !! sh k) as [g|]; cbn; [|done]. by destruct (g !! k). Qed.

Lemma cell_publish s k idx v k' : shards_ok s →
  cell (Shards.publish s (sh k) k idx v) k' = if decide (k' = k) then version_publish idx v (cell s k) else cell s k'.
Proof.
  intros [Hlen _ _]. unfold cell, Shards.publish. case_decide as Hk.
  - subst. destruct (lookup_lt_is_Some_2 s (sh k) (Hlen k)) as [g Hg]. rewrite list_lookup_alter_eq, Hg. cbn. by rewrite lookup_insert_eq.
  - destruct (decide (sh k = sh k')) as [->|Hne]; [|by rewrite list_lookup_alter_ne].
    rewrite list_lookup_alter_eq. destruct (s !! sh k') as [g|]; cbn; [|done]. by rewrite lookup_insert_ne.
Qed.

Lemma publish_ok s k idx v : shards_ok s → shards_ok (Shards.publish s (sh k) k idx v).
Proof.
  intros Hs. pose proof Hs as [Hlen Hpl Hso]. split.
  - intros k'. unfold Shards.publish. rewrite length_alter. apply Hlen.
  - intros i g k'. unfold Shards.publish. destruct (decide (i = sh k)) as [->|Hne]; [|rewrite list_lookup_alter_ne by done; apply Hpl].
    rewrite list_lookup_alter_eq. destruct (s !! sh k) as [g'|] eqn:E; cbn; [|done]. intros [= <-].
    destruct (decide (k' = k)) as [->|]; [done|]. rewrite lookup_insert_ne by done. by eapply Hpl.
  - intros k'. rewrite cell_publish by done. case_decide; [by apply publish_sorted|done].
Qed.

Lemma cell_new n k : cell (Shards.new n) k = [].
Proof. unfold cell, Shards.new. destruct (replicate n ∅ !! sh k) as [g|] eqn:E; cbn; [|done]. by apply lookup_replicate in E as [-> _]. Qed.

Lemma new_ok n : (∀ k, (sh k < n)%nat) → shards_ok (Shards.new n).
Proof.
  intros Hn. split.
  - intros k. unfold Shards.new. rewrite length_replicate. apply Hn.
  - intros i g k Hi. apply lookup_replicate in Hi as [-> _]. rewrite lookup_empty. by intros [??].
  - intros k. rewrite cell_new. constructor.
Qed.

Lemma cell_scrub s cap k : cell (Shards.scrub s cap) k = [].
Proof.
  unfold cell, Shards.scrub. rewrite list_lookup_fmap. destruct (s !! sh k) as [g|]; cbn; [|done]. unfold Shards.scrub_shard.
  case_match; [done|]. rewrite lookup_fmap. by destruct (g !! k).
Qed.

Lemma scrub_ok s cap : shards_ok s → shards_ok (Shards.scrub s cap).
Proof.
  intros [Hlen Hpl _]. split.
  - intros k. unfold Shards.scrub. rewrite length_fmap. apply Hlen.
  - intros i g k. unfold Shards.scrub. rewrite list_lookup_fmap. destruct (s !! i) as [g'|] eqn:E; cbn; [|done]. intros [= <-].
    unfold Shards.scrub_shard. case_match; [by intros [??]|]. rewrite lookup_fmap. intros Hk. eapply Hpl; [done|]. by apply fmap_is_Some in Hk.
  - intros k. rewrite cell_scrub. constructor.
Qed.

(** The top versions. *)
Lemma elem_of_last_versions s k v : shards_ok s → (k, v) ∈ Shards.last_versions s ↔ snd <$> last (cell s k) = Some v.
Proof.
  intros [Hlen Hpl _]. unfold Shards.last_versions. rewrite list_elem_of_bind. unfold cell. split.
  - intros (g & Hv & (i & Hg)%list_elem_of_lookup). apply list_elem_of_omap in Hv as ([k' l] & Hin & Hv).
    apply elem_of_map_to_list in Hin. apply bind_Some in Hv as ([j w] & Hl & [= -> ->]).
    rewrite (Hpl i g k Hg (mk_is_Some _ _ Hin)) in Hg. rewrite Hg. cbn. rewrite Hin. cbn. by rewrite Hl.
  - destruct (lookup_lt_is_Some_2 s (sh k) (Hlen k)) as [g Hg]. rewrite Hg. cbn. destruct (g !! k) as [l|] eqn:E; cbn; [|done].
    destruct (last l) as [[j w]|] eqn:El; cbn; [|done]. intros [= ->]. exists g. split; [|by eapply list_elem_of_lookup_2].
    apply list_elem_of_omap. exists (k, l). rewrite elem_of_map_to_list, El. done.
Qed.
End shards.

(** ** The cache *)

Lemma shard_of_lt bytes : (shard_of bytes < SHARDS)%nat.
Proof.
  unfold shard_of. set (h := fold_left _ _ _). clearbody h. pose proof (N.mod_upper_bound h (N.of_nat SHARDS)) as Hlt.
  unfold SHARDS in *. lia.
Qed.

Lemma account_shard_lt a : (account_shard a < SHARDS)%nat.
Proof. apply shard_of_lt. Qed.

#[global] Opaque account_shard.

Definition acc_versions (mv : MvCache.t) (a : Address) : Versions AccountFields := cell account_shard (MvCache.accounts mv) a.
Definition slot_shard (k : Address * B256) : nat := account_shard k.1.
Definition slot_versions (mv : MvCache.t) (k : Address * B256) : Versions N := cell slot_shard (MvCache.storage mv) k.

Record mv_ok (mv : MvCache.t) : Prop := {
  mv_ok_accounts : shards_ok account_shard (MvCache.accounts mv);
  mv_ok_storage : shards_ok slot_shard (MvCache.storage mv);
}.

Lemma new_mv_ok : mv_ok MvCache.new.
Proof. split; apply new_ok; intros; apply account_shard_lt. Qed.

Lemma scrub_mv_ok mv : mv_ok mv → mv_ok (MvCache.scrub mv).
Proof. intros [Ha Hs]. split; by apply scrub_ok. Qed.

Lemma new_acc_versions a : acc_versions MvCache.new a = [].
Proof. apply (cell_new account_shard). Qed.

Lemma new_slot_versions k : slot_versions MvCache.new k = [].
Proof. apply (cell_new slot_shard). Qed.

Lemma publish_account_ok mv idx a v : mv_ok mv → mv_ok (MvCache.publish_account mv idx a v).
Proof. intros [Ha Hs]. split; [by apply (publish_ok account_shard)|done]. Qed.

Lemma publish_slot_ok mv idx a k v : mv_ok mv → mv_ok (MvCache.publish_slot mv idx a k v).
Proof. intros [Ha Hs]. split; [done|by apply (publish_ok slot_shard _ (a, k))]. Qed.

Lemma acc_publish mv idx a v a' : mv_ok mv →
  acc_versions (MvCache.publish_account mv idx a v) a' = if decide (a' = a) then version_publish idx v (acc_versions mv a) else acc_versions mv a'.
Proof. intros [Ha _]. by apply (cell_publish account_shard). Qed.

Lemma slot_publish mv idx a k v key : mv_ok mv →
  slot_versions (MvCache.publish_slot mv idx a k v) key =
  if decide (key = (a, k)) then version_publish idx v (slot_versions mv (a, k)) else slot_versions mv key.
Proof. intros [_ Hs]. by apply (cell_publish slot_shard _ (a, k)). Qed.

Lemma read_account_versions mv idx a : MvCache.read_account mv idx a = version_read idx (acc_versions mv a).
Proof. apply (read_cell account_shard). Qed.

Lemma read_slot_versions mv idx a k : MvCache.read_slot mv idx a k = version_read idx (slot_versions mv (a, k)).
Proof. apply (read_cell slot_shard _ (a, k)). Qed.

Lemma acc_sorted mv a : mv_ok mv → sorted (acc_versions mv a).
Proof. intros [Ha _]. apply Ha. Qed.

Lemma slot_sorted mv k : mv_ok mv → sorted (slot_versions mv k).
Proof. intros [_ Hs]. apply Hs. Qed.

Lemma last_versions_keyed {K V} `{Countable K} (sh : K → nat) (s : ShardTable K V) : shards_ok sh s → keyed (Shards.last_versions s).
Proof. intros Hs k v v'. rewrite !elem_of_last_versions by done. congruence. Qed.

Lemma last_versions_lookup {K V} `{Countable K} (sh : K → nat) (s : ShardTable K V) k : shards_ok sh s →
  PendingDelta.extend ∅ (Shards.last_versions s) !! k = snd <$> last (cell sh s k).
Proof.
  intros Hs. rewrite extend_lookup by (by eapply last_versions_keyed). apply option_eq. intros v.
  rewrite <-(elem_of_last_versions sh) by done. rewrite <-(find_entry_iff _ k v (last_versions_keyed sh s Hs k)). rewrite lookup_empty.
  by destruct (find_entry k (Shards.last_versions s)).
Qed.

(** The final delta has the top version of every cell. *)
Lemma final_delta_account mv a : mv_ok mv → PendingDelta.accounts (MvCache.final_delta mv) !! a = snd <$> last (acc_versions mv a).
Proof. intros [Ha _]. by apply last_versions_lookup. Qed.

Lemma final_delta_slot mv k : mv_ok mv → PendingDelta.storage (MvCache.final_delta mv) !! k = snd <$> last (slot_versions mv k).
Proof. intros [_ Hs]. by apply last_versions_lookup. Qed.

(** C30. A read at an index answers the publication with the highest index below it,
    in whatever order the transactions published their versions of the account. *)
Theorem mv_read_latest (ps : list (N * Address * AccountFields)) (idx : N) (a : Address) (j : N) (v : AccountFields) :
  NoDup ps.*1 →
  MvCache.read_account (fold_left (λ mv '(i, a, v), MvCache.publish_account mv i a v) ps MvCache.new) idx a = Some (j, v) ↔
  (j, a, v) ∈ ps ∧ (j < idx)%N ∧ ∀ j' v', (j', a, v') ∈ ps → (j' < idx)%N → (j' ≤ j)%N.
Proof.
  intros Hnd. set (mv := fold_left _ _ _).
  assert (mv_ok mv ∧ ∀ a j v, (j, v) ∈ acc_versions mv a ↔ (j, a, v) ∈ ps) as [Hok Hmv].
  { clear a j v. subst mv. induction ps as [|[[i a] w] ps IH] using rev_ind.
    { split; [apply new_mv_ok|]. intros a j v. cbn [fold_left]. by rewrite new_acc_versions, !elem_of_nil. }
    rewrite fmap_app in Hnd. apply NoDup_app in Hnd as (Hnd & Hni & _). destruct (IH Hnd) as [Hok Hmv]. rewrite fold_left_app. cbn.
    split; [by apply publish_account_ok|]. intros a' j v. rewrite acc_publish by done. rewrite elem_of_app, list_elem_of_singleton. case_decide as Ha.
    - subst a'. rewrite elem_of_publish by (by apply acc_sorted). rewrite Hmv. split.
      + intros [[-> ->]|[? ?]]; [by right|by left].
      + intros [Hin|[= -> ->]]; [|by left]. right. split; [|done]. intros ->. apply (Hni (i, a)); [apply list_elem_of_fmap; by exists (i, a, v)|by left].
    - rewrite Hmv. split; [by left|]. intros [?|[= ]]; [done|congruence]. }
  rewrite read_account_versions, version_read_Some by (by apply acc_sorted). unfold latest. rewrite Hmv.
  split; intros (Hin & Hlt & Hmax); (split; [done|split; [done|]]); intros j' v' Hin'; apply (Hmax j' v'); by apply Hmv.
Qed.

Lemma mv_read_latest_witness :
  let v b := mkFields 0 b 0 in
  MvCache.read_account (fold_left (λ mv '(i, a, v), MvCache.publish_account mv i a v)
    [(5, 7, v 50); (2, 7, v 20); (3, 8, v 1)]%N MvCache.new) 5 7 = Some (2%N, v 20%N).
Proof.
  intros v. apply (mv_read_latest [(5, 7, v 50); (2, 7, v 20); (3, 8, v 1)]%N 5 7 2 (v 20%N)).
  - by apply (bool_decide_unpack _).
  - split; [set_solver|]. split; [done|]. intros j' v' Hin Hlt. set_solver by lia.
Defined.

(** A scrubbed cache is a new cache: whatever it held, every read misses, every
    record validates as against a new cache, and its final delta is empty. *)
Theorem scrub_fresh (mv : MvCache.t) : mv_ok mv →
  (∀ idx r, MvCache.validate (MvCache.scrub mv) idx r = MvCache.validate MvCache.new idx r) ∧
  (∀ idx a, MvCache.read_account (MvCache.scrub mv) idx a = None) ∧
  (∀ idx a k, MvCache.read_slot (MvCache.scrub mv) idx a k = None) ∧
  MvCache.final_delta (MvCache.scrub mv) = PendingDelta.new.
Proof.
  intros Hok. pose proof (scrub_mv_ok mv Hok) as Hok'.
  assert (∀ a, acc_versions (MvCache.scrub mv) a = []) as Ha by (intros; apply (cell_scrub account_shard)).
  assert (∀ k, slot_versions (MvCache.scrub mv) k = []) as Hs by (intros; apply (cell_scrub slot_shard)).
  split; [|split; [|split]].
  - intros idx [a seen|a k seen|h hit]; cbn [MvCache.validate].
    + by rewrite !read_account_versions, Ha, new_acc_versions.
    + by rewrite !read_slot_versions, Hs, new_slot_versions.
    + done.
  - intros. by rewrite read_account_versions, Ha.
  - intros. by rewrite read_slot_versions, Hs.
  - unfold PendingDelta.new. destruct (MvCache.final_delta (MvCache.scrub mv)) as [fa fs fc] eqn:E. f_equal.
    + apply map_eq. intros a. pose proof (final_delta_account _ a Hok') as Hf. rewrite E, Ha in Hf. by rewrite lookup_empty.
    + apply map_eq. intros k. pose proof (final_delta_slot _ k Hok') as Hf. rewrite E, Hs in Hf. by rewrite lookup_empty.
    + injection E as _ _ <-. done.
Qed.

Lemma scrub_fresh_witness :
  MvCache.final_delta (MvCache.scrub (MvCache.publish_account MvCache.new 5 7 (mkFields 0 50 0))) = PendingDelta.new.
Proof. apply (scrub_fresh (MvCache.publish_account MvCache.new 5 7 (mkFields 0 50 0))). apply publish_account_ok, new_mv_ok. Defined.
