(* ===== verification/StmView.v ===== *)
(** * The database views of Block-STM

    Models [crates/stm/src/execute/view.rs]: the layered input of a block
    ([BlockInput]), the shared read-through cache over the backend ([BaseCache],
    with [advance_base] of [acquire.rs]), and the view of a transaction
    ([MvView]), which records what it read. The binding of a block to its read
    base ([LayerBinder::bind]) is of [session.rs].

    The workers share the multi-version cache and the base cache. Each access to
    either, under its lock, is one event; a read of the view is the tree of its
    accesses, so workers interleave between any two of them. Counters and timings
    are left out. *)
From S2P Require Import Prelude Bytes Types Fees WriteSet Effects ExecScope StmMv.

(** ** The input of a block *)

Module BlockInput.
Record t : Type := mk {
  snapshot : StateDatabase;
  base : option PendingDelta.t;
  layers : list PendingDelta.t;
  mv_layers : list MvCache.t;
}.

Definition u32_MAX : N := 4294967295.

(** [find_map]. *)
Fixpoint find_map {A B} (f : A → option B) (l : list A) : option B :=
  match l with
  | [] => None
  | x :: l' => match f x with Some y => Some y | None => find_map f l' end
  end.

(** The delta layers, newest first, and the base below them. *)
Definition deltas (b : t) : list PendingDelta.t :=
  layers b ++ match base b with Some d => [d] | None => [] end.

Definition layered_account (b : t) (address : Address) : option AccountFields :=
  match find_map (λ mv, MvCache.read_account mv u32_MAX address) (mv_layers b) with
  | Some (_, a) => Some (account_info a)
  | None =>
    match find_map (λ layer, PendingDelta.accounts layer !! address) (deltas b) with
    | Some fields => Some (account_info fields)
    | None => None
    end
  end.

Definition layered_slot (b : t) (address : Address) (key : B256) : option N :=
  match find_map (λ mv, MvCache.read_slot mv u32_MAX address key) (mv_layers b) with
  | Some (_, v) => Some v
  | None => find_map (λ layer, PendingDelta.storage layer !! (address, key)) (deltas b)
  end.

Definition basic_ref (b : t) (address : Address) : result StateErr (option AccountFields) :=
  match layered_account b address with
  | Some a => Ok (Some a)
  | None => SnapshotRef.basic_ref (snapshot b) address
  end.

Definition code_by_hash_ref (b : t) (code_hash : B256) : result StateErr (list N) :=
  match find_map (λ mv, MvCache.read_code mv code_hash) (mv_layers b) with
  | Some code => Ok code
  | None =>
    match find_map (λ layer, c ← PendingDelta.code layer !! code_hash; if bool_decide (c = []) then None else Some c) (deltas b) with
    | Some code => Ok code
    | None => SnapshotRef.code_by_hash_ref (snapshot b) code_hash
    end
  end.

Definition storage_ref (b : t) (address : Address) (index : N) : result StateErr N :=
  match layered_slot b address index with
  | Some v => Ok v
  | None => SnapshotRef.storage_ref (snapshot b) address index
  end.

Definition block_hash_ref (b : t) (number : N) : result StateErr B256 := SnapshotRef.block_hash_ref (snapshot b) number.
End BlockInput.

(** ** The read-through cache of the backend *)

Module BaseCache.
Record t : Type := mk {
  accounts : list (gmap Address (option AccountFields));
  storage : list (gmap (Address * B256) N);
  code : gmap B256 (list N);
}.

Definition BASE_SHARDS : nat := 64.

Definition new : t := mk (replicate BASE_SHARDS ∅) (replicate BASE_SHARDS ∅) ∅.

(** The last byte of the address. *)
Definition shard (addr : Address) : nat := N.to_nat ((addr mod 256) mod N.of_nat BASE_SHARDS).

Definition get_account (c : t) (a : Address) : option (option AccountFields) := g ← accounts c !! shard a; g !! a.
Definition put_account (c : t) (a : Address) (v : option AccountFields) : t :=
  mk (alter (λ g, <[a := v]> g) (shard a) (accounts c)) (storage c) (code c).

Definition get_slot (c : t) (a : Address) (k : B256) : option N := g ← storage c !! shard a; g !! (a, k).
Definition put_slot (c : t) (a : Address) (k : B256) (v : N) : t :=
  mk (accounts c) (alter (λ g, <[(a, k) := v]> g) (shard a) (storage c)) (code c).

Definition put_code (c : t) (h : B256) (b : list N) : t := mk (accounts c) (storage c) (<[h := b]> (code c)).

(** [insert_by_shard]: group the items, then extend every touched shard once. *)
Definition insert_by_shard {K V} `{Countable K} (table : list (gmap K V)) (items : list (K * V)) (shard_of : K → nat)
  : list (gmap K V) :=
  imap (λ sh g, PendingDelta.extend g (filter (λ e, shard_of e.1 = sh) items)) table.

(** [PoolHandle::advance_base]. *)
Definition advance_base (c : t) (delta : PendingDelta.t) : t :=
  mk (insert_by_shard (accounts c) ((λ '(a, f), (a, Some (account_info f))) <$> map_to_list (PendingDelta.accounts delta)) shard)
     (insert_by_shard (storage c) (map_to_list (PendingDelta.storage delta)) (λ k, shard k.1))
     (PendingDelta.extend (code c) (map_to_list (PendingDelta.code delta))).
End BaseCache.

(** ** Shared memory *)

Record Mem : Type := mkMem { mem_mv : MvCache.t; mem_base : BaseCache.t }.

Inductive MemE : Type → Type :=
| MvReadAccount (idx : N) (a : Address) : MemE (option (N * AccountFields))
| MvReadSlot (idx : N) (a : Address) (k : B256) : MemE (option (N * N))
| MvReadCode (h : B256) : MemE (option (list N))
| MvPublishAccount (idx : N) (a : Address) (f : AccountFields) : MemE ()
| MvPublishSlot (idx : N) (a : Address) (k : B256) (v : N) : MemE ()
| MvPublishCode (h : B256) (b : list N) : MemE ()
| BaseGetAccount (a : Address) : MemE (option (option AccountFields))
| BasePutAccount (a : Address) (v : option AccountFields) : MemE ()
| BaseGetSlot (a : Address) (k : B256) : MemE (option N)
| BasePutSlot (a : Address) (k : B256) (v : N) : MemE ()
| BaseGetCode (h : B256) : MemE (option (list N))
| BasePutCode (h : B256) (b : list N) : MemE ().

Definition with_mv (m : Mem) (mv : MvCache.t) : Mem := mkMem mv (mem_base m).
Definition with_base (m : Mem) (c : BaseCache.t) : Mem := mkMem (mem_mv m) c.

Definition access (m : Mem) {X} (e : MemE X) : X * Mem :=
  match e with
  | MvReadAccount idx a => (MvCache.read_account (mem_mv m) idx a, m)
  | MvReadSlot idx a k => (MvCache.read_slot (mem_mv m) idx a k, m)
  | MvReadCode h => (MvCache.read_code (mem_mv m) h, m)
  | MvPublishAccount idx a f => ((), with_mv m (MvCache.publish_account (mem_mv m) idx a f))
  | MvPublishSlot idx a k v => ((), with_mv m (MvCache.publish_slot (mem_mv m) idx a k v))
  | MvPublishCode h b => ((), with_mv m (MvCache.publish_code (mem_mv m) h b))
  | BaseGetAccount a => (BaseCache.get_account (mem_base m) a, m)
  | BasePutAccount a v => ((), with_base m (BaseCache.put_account (mem_base m) a v))
  | BaseGetSlot a k => (BaseCache.get_slot (mem_base m) a k, m)
  | BasePutSlot a k v => ((), with_base m (BaseCache.put_slot (mem_base m) a k v))
  | BaseGetCode h => (BaseCache.code (mem_base m) !! h, m)
  | BasePutCode h b => ((), with_base m (BaseCache.put_code (mem_base m) h b))
  end.

(** ** The view of a transaction *)

Module MvView.
Record t : Type := mk {
  base : BlockInput.t;
  idx : N;
  sink : Address;
  sink_start : option AccountFields;
}.

Abbreviation Reads := (list ReadRecord).

Definition basic_inner (v : t) (reads : Reads) (address : Address)
  : Tree MemE (result StateErr (option AccountFields) * Reads) :=
  if (address =? sink v)%N then Ret (Ok (sink_start v), reads)
  else
    Vis (MvReadAccount (idx v) address) (λ r,
      match r with
      | Some (ver, a) => Ret (Ok (Some (account_info a)), reads ++ [RAccount address (Some ver)])
      | None =>
        let reads := reads ++ [RAccount address None] in
        match BlockInput.layered_account (base v) address with
        | Some a => Ret (Ok (Some a), reads)
        | None =>
          Vis (BaseGetAccount address) (λ r,
            match r with
            | Some a => Ret (Ok a, reads)
            | None =>
              match SnapshotRef.basic_ref (BlockInput.snapshot (base v)) address with
              | Err e => Ret (Err e, reads)
              | Ok a => Vis (BasePutAccount address a) (λ _, Ret (Ok a, reads))
              end
            end)
        end
      end).

Definition code_by_hash_inner (v : t) (reads : Reads) (code_hash : B256) : Tree MemE (result StateErr (list N) * Reads) :=
  Vis (BaseGetCode code_hash) (λ r,
    match r with
    | Some c => Ret (Ok c, reads)
    | None =>
      Vis (MvReadCode code_hash) (λ r,
        match r with
        | Some code =>
          Vis (BasePutCode code_hash code) (λ _, Ret (Ok code, reads ++ [RCode code_hash true]))
        | None =>
          let reads := reads ++ [RCode code_hash false] in
          match BlockInput.code_by_hash_ref (base v) code_hash with
          | Err e => Ret (Err e, reads)
          | Ok c => Vis (BasePutCode code_hash c) (λ _, Ret (Ok c, reads))
          end
        end)
    end).

Definition storage_inner (v : t) (reads : Reads) (address : Address) (index : N) : Tree MemE (result StateErr N * Reads) :=
  Vis (MvReadSlot (idx v) address index) (λ r,
    match r with
    | Some (ver, x) => Ret (Ok x, reads ++ [RSlot address index (Some ver)])
    | None =>
      let reads := reads ++ [RSlot address index None] in
      match BlockInput.layered_slot (base v) address index with
      | Some x => Ret (Ok x, reads)
      | None =>
        Vis (BaseGetSlot address index) (λ r,
          match r with
          | Some x => Ret (Ok x, reads)
          | None =>
            match SnapshotRef.storage_ref (BlockInput.snapshot (base v)) address index with
            | Err e => Ret (Err e, reads)
            | Ok x => Vis (BasePutSlot address index x) (λ _, Ret (Ok x, reads))
            end
          end)
      end
    end).

(** [revm::Database] for the view. *)
Definition answer (v : t) (reads : Reads) {X} (e : DbE X) : Tree MemE (X * Reads) :=
  match e with
  | BasicE a => basic_inner v reads a
  | StorageE a k => storage_inner v reads a k
  | CodeByHashE h => code_by_hash_inner v reads h
  | BlockHashE n => Ret (BlockInput.block_hash_ref (base v) n, reads)
  end.

(** A tree of database questions over the view, with its read log. *)
Fixpoint over {R} (v : t) (reads : Reads) (t : Tree DbE R) : Tree MemE (R * Reads) :=
  match t with
  | Ret r => Ret (r, reads)
  | Vis e k => tbind (answer v reads e) (λ '(x, reads), over v reads (k x))
  end.
End MvView.

(** ** Binding *)

(** The read base of a deferred session; the fee sink rides along with
    multi-version layers, which never hold it. *)
Inductive ReadBase : Type :=
| Deltas (layers : list PendingDelta.t)
| Mv (layers : list MvCache.t) (sink_final : option AccountFields) (deltas : list PendingDelta.t).

Record BoundLayers : Type := mkBound {
  bl_mv_layers : list MvCache.t;
  bl_layers : list PendingDelta.t;
  bl_sink_start : option AccountFields;
  bl_sink_start_balance : N;
}.

(** The read of the sink and the layers of [bind]; the session is bound once. *)
Definition bind (primary : StateDatabase) (base : PendingDelta.t) (sink : Address) (b : ReadBase)
  : result ExecutorError BoundLayers :=
  let bound mv_layers layers sink_start := mkBound mv_layers layers sink_start (match sink_start with Some a => af_balance a | None => 0%N end) in
  match b with
  | Deltas layers =>
    match BlockInput.basic_ref (BlockInput.mk primary (Some base) layers []) sink with
    | Ok sink_start => Ok (bound [] layers sink_start)
    | Err _ => Err ExecState
    end
  | Mv mv_layers sink_final deltas => Ok (bound mv_layers deltas sink_final)
  end.
