(* ===== verification/StmWorker.v ===== *)
(** * The workers of Block-STM

    Models [crates/stm/src/execute/worker_execute.rs]: the execution of one
    transaction over its view, and the publication of its writes
    ([MvCache::publish_write_set] of [mv.rs]). The pool of workers is a machine:
    each transaction of the block runs once, and a schedule picks which
    transaction takes its next access to the shared memory. The scheduler of the
    engine ([graph.rs]) chooses among these schedules. The capture of access
    lists, the recycling of buffers and the timings are left out. *)
From S2P Require Import Prelude Bytes Types Fees WriteSet Effects ExecScope StmMv StmView.

Section worker.
Context `{Evm}.

Record TxJob : Type := mkJob {
  local_idx : N;
  jb_tx_idx : N;
  jb_position : BPosition;
  jb_envelope : TxEnvelope;
  jb_decoded : option (AlloyEnvelope Authorization);
}.

Record ExecCtx : Type := mkCtx { cx_env : ExecEnv; cx_sink_start_balance : N }.

Record TxResult : Type := mkResult {
  tr_receipt : Receipt;
  tr_ws : WriteSet.t;
  tr_reads : list ReadRecord;
  tr_sink_fee_delta : option N;
}.

(** This transaction as a skip; its slot has no cumulative gas. *)
Definition skipped (job : TxJob) (block_number : N) : SkippedRecord :=
  mkSkipped (mkTxSlot (jb_tx_idx job) (jb_position job) (local_idx job) 0) (jb_envelope job) block_number.

(** [fee_delta_from_sink]: an observed balance below the start is a hard error. *)
Definition fee_delta_from_sink (observed sink_start_balance : N) : result ExecutorError N :=
  ok_or (u256_checked_sub observed sink_start_balance) ExecState.

Definition sink_fee_delta (ws : WriteSet.t) (sink : Address) (sink_start_balance : N) : result ExecutorError (option N) :=
  match find_entry sink (WriteSet.accounts ws) with
  | None => Ok None
  | Some fields =>
    match fee_delta_from_sink (af_balance fields) sink_start_balance with
    | Ok d => Ok (Some d)
    | Err e => Err e
    end
  end.

(** [publish_write_set]: code and storage first, accounts last, without the sink. *)
Fixpoint publish_codes (l : list CodeEntry) (k : Tree MemE (result ExecutorError TxResult)) : Tree MemE (result ExecutorError TxResult) :=
  match l with
  | [] => k
  | (hash, code) :: l' => Vis (MvPublishCode hash code) (λ _, publish_codes l' k)
  end.

Fixpoint publish_slots (idx : N) (l : list StorageEntry) (k : Tree MemE (result ExecutorError TxResult))
  : Tree MemE (result ExecutorError TxResult) :=
  match l with
  | [] => k
  | ((addr, key), value) :: l' => Vis (MvPublishSlot idx addr key value) (λ _, publish_slots idx l' k)
  end.

Fixpoint publish_accounts (idx : N) (skip_account : Address) (l : list AccountEntry) (k : Tree MemE (result ExecutorError TxResult))
  : Tree MemE (result ExecutorError TxResult) :=
  match l with
  | [] => k
  | (addr, fields) :: l' =>
    if (addr =? skip_account)%N then publish_accounts idx skip_account l' k
    else Vis (MvPublishAccount idx addr fields) (λ _, publish_accounts idx skip_account l' k)
  end.

Definition publish_write_set (idx : N) (ws : WriteSet.t) (skip_account : Address) (k : Tree MemE (result ExecutorError TxResult))
  : Tree MemE (result ExecutorError TxResult) :=
  publish_codes (WriteSet.code ws) (publish_slots idx (WriteSet.storage ws) (publish_accounts idx skip_account (WriteSet.accounts ws) k)).

(** [Published::of_state], and what is built from it. *)
Definition of_state (job : TxJob) (ctx : ExecCtx) (state : EvmState) (reads : list ReadRecord)
    (build : WriteSet.t → option N → Receipt) : Tree MemE (result ExecutorError TxResult) :=
  let sink := beneficiary (ee_fees (cx_env ctx)) in
  let ws := WriteSet.from_evm_state state in
  publish_write_set (local_idx job) ws sink
    (Ret match sink_fee_delta ws sink (cx_sink_start_balance ctx) with
         | Ok delta => Ok (mkResult (build ws delta) ws reads delta)
         | Err e => Err e
         end).

(** [TxJob::skip]. *)
Definition job_skip (v : MvView.t) (job : TxJob) (ctx : ExecCtx) (s : Skip) (reads : list ReadRecord)
  : Tree MemE (result ExecutorError TxResult) :=
  tbind (MvView.over v reads (burn_state s (ee_features (cx_env ctx)))) (λ '(r, reads),
    match r with
    | Err e => Ret (Err e)
    | Ok None => Ret (Ok (mkResult (skip_receipt s WriteSet.default).1 WriteSet.default reads None))
    | Ok (Some state) => of_state job ctx state reads (λ ws _, (skip_receipt s ws).1)
    end).

Definition build_receipt (job : TxJob) (env : ExecEnv) (outcome : ExecutionResult) (hash : B256) (nonce : N)
    (signer : Address) (to : option Address) (price : ReceiptPrice) : Receipt :=
  let '(status, logs) := status_and_wire_logs outcome in
  {| tx_idx := jb_position job; tx_type := tx_type_of (raw_tx (jb_envelope job)); rc_tx_hash := te_tx_hash (jb_envelope job);
     status := is_success status; gas_used := tx_gas_used outcome; logs := logs; write_set_hash := hash; rc_nonce := nonce;
     from := signer; to := to;
     contract_address := if bool_decide (to = None) && is_success status then Some (create_address signer nonce) else None;
     effective_gas_price := rp_effective_gas_price price; priority_fee_per_gas := rp_priority_fee_per_gas price;
     priority_fee_paid := rp_priority_fee_paid price; block_number := ee_block_number env;
     transaction_index := local_idx job; cumulative_gas_used := 0; skip_reason := None |}.

(** The write set is hashed here only when the commit pass will not patch it. *)
Definition build_tx_result (job : TxJob) (ctx : ExecCtx) (d : AlloyEnvelope Authorization) (outcome : ResultAndState)
    (reads : list ReadRecord) : Tree MemE (result ExecutorError TxResult) :=
  let env := cx_env ctx in
  let signer := te_sender (jb_envelope job) in
  match settle (DecodedTx.fees d) (ee_fees env) (tx_gas_used (oc_result outcome)) (oc_state outcome) signer with
  | Err e => Ret (Err e)
  | Ok (state, price) =>
    of_state job ctx state reads (λ ws delta,
      build_receipt job env (oc_result outcome) (match delta with Some _ => 0%N | None => ws_hash ws end)
        (al_nonce d) signer (al_to d) price)
  end.

Definition execute_one (v : MvView.t) (job : TxJob) (ctx : ExecCtx) : Tree MemE (result ExecutorError TxResult) :=
  let env := cx_env ctx in
  match jb_decoded job with
  | None => job_skip v job ctx (undecodable (skipped job (ee_block_number env))) []
  | Some d =>
    tbind (MvView.over v [] (transact env (DecodedTx.tx_env d (te_sender (jb_envelope job))))) (λ '(r, reads),
      match r with
      | Ok outcome => build_tx_result job ctx d outcome reads
      | Err e =>
        match rejected (skipped job (ee_block_number env)) e (al_nonce d) (al_to d) with
        | Ok s => job_skip v job ctx s reads
        | Err e => Ret (Err e)
        end
      end)
  end.

(** ** The machine *)

Inductive Status : Type :=
| Waiting
| Running (t : Tree MemE (result ExecutorError TxResult))
| Finished (r : result ExecutorError TxResult).

Record Machine : Type := mkMachine { mc_mem : Mem; mc_txs : list Status }.

(** What the block fixes for every transaction. *)
Record Block : Type := mkBlock {
  bk_env : ExecEnv;
  bk_snapshot : StateDatabase;
  bk_base : PendingDelta.t;
  bk_bound : BoundLayers;
  bk_jobs : list TxJob;
}.

Definition bk_sink (b : Block) : Address := beneficiary (ee_fees (bk_env b)).

Definition block_input (b : Block) : BlockInput.t :=
  BlockInput.mk (bk_snapshot b) (Some (bk_base b)) (bl_layers (bk_bound b)) (bl_mv_layers (bk_bound b)).

(** The view of a worker, re-aimed at a transaction. *)
Definition worker_view (b : Block) (job : TxJob) : MvView.t :=
  MvView.mk (block_input b) (local_idx job) (bk_sink b) (bl_sink_start (bk_bound b)).

Definition run_job (b : Block) (job : TxJob) : Tree MemE (result ExecutorError TxResult) :=
  execute_one (worker_view b job) job (mkCtx (bk_env b) (bl_sink_start_balance (bk_bound b))).

(** Transaction [i] takes its next step. *)
Definition step (b : Block) (i : nat) (m : Machine) : Machine :=
  match mc_txs m !! i, bk_jobs b !! i with
  | Some Waiting, Some job => mkMachine (mc_mem m) (<[i := Running (run_job b job)]> (mc_txs m))
  | Some (Running (Ret r)), Some _ => mkMachine (mc_mem m) (<[i := Finished r]> (mc_txs m))
  | Some (Running (Vis e k)), Some _ =>
    let '(x, mem) := access (mc_mem m) e in mkMachine mem (<[i := Running (k x)]> (mc_txs m))
  | _, _ => m
  end.

Definition start (b : Block) (mem : Mem) : Machine := mkMachine mem (replicate (length (bk_jobs b)) Waiting).

Definition run_schedule (b : Block) (mem : Mem) (schedule : list nat) : Machine :=
  fold_left (λ m i, step b i m) schedule (start b mem).

(** The result cells of a drained block. *)
Definition results (m : Machine) : list (option (result ExecutorError TxResult)) :=
  (λ s, match s with Finished r => Some r | _ => None end) <$> mc_txs m.
End worker.
