(* ===== verification/StmTail.v ===== *)
(** * The commit tail of Block-STM

    Models [crates/stm/src/execute/tail.rs] and [hash_validate.rs]: the presence
    pass over the result cells, the serial prefix pass (cumulative gas and the fee
    sink), the fold of the write sets, the hash and validation lanes, the clean
    commit, and the repair of a wounded block. The access list fragments, the
    releases of a streaming consumer and the metrics are left out. *)
From S2P Require Import Prelude Bytes Types Fees WriteSet Effects ExecScope StmMv StmView StmWorker.

Section tail.
Context `{Evm} `{CacheDB}.

(** ** The presence pass *)

Definition verify_cell (cell : option (result ExecutorError TxResult)) : result ExecutorError TxResult :=
  match cell with
  | Some (Ok r) => Ok r
  | Some (Err e) => Err e
  | None => Err ExecState
  end.

Fixpoint verify (cells : list (option (result ExecutorError TxResult))) : result ExecutorError (list TxResult) :=
  match cells with
  | [] => Ok []
  | cell :: cells' =>
    match verify_cell cell with
    | Err e => Err e
    | Ok r => match verify cells' with Ok rs => Ok (r :: rs) | Err e => Err e end
    end
  end.

(** ** The serial prefix *)

Record Prefix : Type := mkPrefix { px_cumulative : N; px_sink_running : N; px_sink : Address }.

(** [find] the entry of the sink and write its balance. *)
Definition patch_sink (sink : Address) (balance : N) (ws : WriteSet.t) : WriteSet.t :=
  WriteSet.mk (update_entry sink (λ f, mkFields (af_nonce f) balance (af_code_hash f)) (WriteSet.accounts ws))
    (WriteSet.storage ws) (WriteSet.code ws).

Definition with_cumulative_gas (c : N) (r : Receipt) : Receipt :=
  {| tx_idx := tx_idx r; tx_type := tx_type r; rc_tx_hash := rc_tx_hash r; status := status r; gas_used := gas_used r;
     logs := logs r; write_set_hash := write_set_hash r; rc_nonce := rc_nonce r; from := from r; to := to r;
     contract_address := contract_address r; effective_gas_price := effective_gas_price r;
     priority_fee_per_gas := priority_fee_per_gas r; priority_fee_paid := priority_fee_paid r;
     block_number := block_number r; transaction_index := transaction_index r; cumulative_gas_used := c;
     skip_reason := skip_reason r |}.

Definition with_hash (h : B256) (r : Receipt) : Receipt :=
  {| tx_idx := tx_idx r; tx_type := tx_type r; rc_tx_hash := rc_tx_hash r; status := status r; gas_used := gas_used r;
     logs := logs r; write_set_hash := h; rc_nonce := rc_nonce r; from := from r; to := to r;
     contract_address := contract_address r; effective_gas_price := effective_gas_price r;
     priority_fee_per_gas := priority_fee_per_gas r; priority_fee_paid := priority_fee_paid r;
     block_number := block_number r; transaction_index := transaction_index r; cumulative_gas_used := cumulative_gas_used r;
     skip_reason := skip_reason r |}.

Definition prefix_apply (p : Prefix) (r : TxResult) : result ExecutorError (Prefix * TxResult) :=
  let cumulative := u64_saturating_add (px_cumulative p) (gas_used (tr_receipt r)) in
  let receipt := with_cumulative_gas cumulative (tr_receipt r) in
  match u256_checked_add (px_sink_running p) (default 0%N (tr_sink_fee_delta r)) with
  | None => Err ExecState
  | Some running =>
    let ws := match tr_sink_fee_delta r with Some _ => patch_sink (px_sink p) running (tr_ws r) | None => tr_ws r end in
    Ok (mkPrefix cumulative running (px_sink p), mkResult receipt ws (tr_reads r) (tr_sink_fee_delta r))
  end.

Fixpoint serial_prefix (p : Prefix) (rs : list TxResult) : result ExecutorError (list TxResult) :=
  match rs with
  | [] => Ok []
  | r :: rs' =>
    match prefix_apply p r with
    | Err e => Err e
    | Ok (p, r) => match serial_prefix p rs' with Ok rs => Ok (r :: rs) | Err e => Err e end
    end
  end.

(** ** The fold *)

Record Fold : Type := mkFold { fd_delta : PendingDelta.t; fd_sink_final : option AccountFields; fd_sink : Address }.

Definition absorb_account (f : Fold) (e : AccountEntry) : Fold :=
  let '(a, v) := e in
  if (a =? fd_sink f)%N then mkFold (fd_delta f) (Some v) (fd_sink f)
  else
    let d := fd_delta f in
    mkFold (PendingDelta.mk (<[a := v]> (PendingDelta.accounts d)) (PendingDelta.storage d) (PendingDelta.code d)) (fd_sink_final f) (fd_sink f).

Definition absorb (f : Fold) (ws : WriteSet.t) : Fold :=
  let f := fold_left absorb_account (WriteSet.accounts ws) f in
  let d := fd_delta f in
  mkFold (PendingDelta.mk (PendingDelta.accounts d) (PendingDelta.extend (PendingDelta.storage d) (WriteSet.storage ws))
    (PendingDelta.extend (PendingDelta.code d) (WriteSet.code ws))) (fd_sink_final f) (fd_sink f).

Definition finish_fold (f : Fold) : PendingDelta.t :=
  match fd_sink_final f with
  | Some v =>
    let d := fd_delta f in PendingDelta.mk (<[fd_sink f := v]> (PendingDelta.accounts d)) (PendingDelta.storage d) (PendingDelta.code d)
  | None => fd_delta f
  end.

Definition fold_inline (rs : list TxResult) (sink : Address) : PendingDelta.t :=
  finish_fold (fold_left (λ f r, absorb f (tr_ws r)) rs (mkFold PendingDelta.new None sink)).

(** ** The early release *)

(** The sum of the credits of the results that are there. *)
Fixpoint fee_sum (acc : N) (cells : list (option (result ExecutorError TxResult))) : result ExecutorError N :=
  match cells with
  | [] => Ok acc
  | Some (Ok r) :: cells' =>
    match u256_checked_add acc (default 0%N (tr_sink_fee_delta r)) with
    | Some acc => fee_sum acc cells'
    | None => Err ExecState
    end
  | _ :: cells' => fee_sum acc cells'
  end.

(** [sink_credited]. *)
Definition sink_credited (sink_start : AccountFields) (start fee_sum : N) : result ExecutorError AccountFields :=
  match u256_checked_add start fee_sum with
  | Some balance => Ok (mkFields (af_nonce sink_start) balance (af_code_hash sink_start))
  | None => Err ExecState
  end.

(** [send_early_mv]: the multi-version cache is shipped with the sink's final
    account, before the verdict. *)
Definition send_early_mv (b : Block) (mv : MvCache.t) (cells : list (option (result ExecutorError TxResult)))
  : result ExecutorError (MvCache.t * option AccountFields) :=
  match fee_sum 0 cells with
  | Err e => Err e
  | Ok fees =>
    match bl_sink_start (bk_bound b) with
    | Some a =>
      match sink_credited a (bl_sink_start_balance (bk_bound b)) fees with
      | Ok a => Ok (mv, Some a)
      | Err e => Err e
      end
    | None => Ok (mv, if (0 <? fees)%N then Some (mkFields 0 fees KECCAK_EMPTY) else None)
    end
  end.

(** ** Hash and validation *)

(** A result with a read that the final lists no longer support. *)
Definition stale (mv : MvCache.t) (i : nat) (r : TxResult) : bool :=
  existsb (λ rec, negb (MvCache.validate mv (N.of_nat i) rec)) (tr_reads r).

(** The serial tail: every index on one thread. *)
Definition serial_wounded (mv : MvCache.t) (rs : list TxResult) : list nat :=
  filter (λ i, match rs !! i with Some r => stale mv i r | None => false end = true) (seq 0 (length rs)).

Definition hash_one (hashes : list B256) (rs : list TxResult) (i : nat) : list B256 :=
  match rs !! i with
  | Some r => match tr_sink_fee_delta r with Some _ => <[i := ws_hash (tr_ws r)]> hashes | None => hashes end
  | None => hashes
  end.

Definition serial_hashes (rs : list TxResult) : list B256 :=
  fold_left (λ h i, hash_one h rs i) (seq 0 (length rs)) (replicate (length rs) 0%N).

(** The lanes: [n_ch] chunks of equal length, the last ones short or empty. *)
Definition n_chunks (workers n : nat) : nat := Nat.min workers n.
Definition chunk_len (workers n : nat) : nat := let k := n_chunks workers n in if decide (k = 0) then 0 else (n + k - 1) / k.
Definition chunk_bounds (workers n ci : nat) : nat * nat :=
  let base := ci * chunk_len workers n in (base, Nat.min (base + chunk_len workers n) n).

(** The range [base..end]. *)
Definition range (b : nat * nat) : list nat := seq b.1 (b.2 - b.1).

Definition chunk_validate (mv : MvCache.t) (rs : list TxResult) (b : nat * nat) : list nat :=
  filter (λ i, match rs !! i with Some r => stale mv i r | None => false end = true) (range b).

Definition chunk_hash (rs : list TxResult) (hashes : list B256) (b : nat * nat) : list B256 :=
  fold_left (λ h i, hash_one h rs i) (range b) hashes.

Definition lanes_wounded (workers : nat) (mv : MvCache.t) (rs : list TxResult) : list nat :=
  ci ← seq 0 (n_chunks workers (length rs)); chunk_validate mv rs (chunk_bounds workers (length rs) ci).

(** The chunks may hash in any order. *)
Definition lanes_hashes (workers : nat) (order : list nat) (rs : list TxResult) : list B256 :=
  fold_left (λ h ci, chunk_hash rs h (chunk_bounds workers (length rs) ci)) order (replicate (length rs) 0%N).

(** ** The clean commit *)

Definition commit_one (hash : B256) (r : TxResult) : Receipt :=
  match tr_sink_fee_delta r with Some _ => with_hash hash (tr_receipt r) | None => tr_receipt r end.

Definition commit_clean (hashes : list B256) (rs : list TxResult) : list Receipt := zip_with commit_one hashes rs.

(** ** Repair *)

(** The full view before the block: base, then the layers from the oldest, then
    the multi-version layers from the oldest. *)
Definition repair_base (b : Block) : PendingDelta.t :=
  let layered := fold_left PendingDelta.merge_from (rev (bl_layers (bk_bound b))) (bk_base b) in
  fold_left (λ d mv, PendingDelta.merge_from d (MvCache.final_delta mv)) (rev (bl_mv_layers (bk_bound b))) layered.

Record Repair : Type := mkRepair {
  rp_prefix : Prefix;
  rp_layered : PendingDelta.t;
  rp_receipts : list Receipt;
  rp_delta : PendingDelta.t;
}.

Definition repair_one (b : Block) (job : TxJob) (i : N) (wounded : bool) (r : TxResult) (s : Repair) : result ExecutorError Repair :=
  if negb wounded then
    match prefix_apply (rp_prefix s) r with
    | Err e => Err e
    | Ok (p, r) =>
      let receipt := match tr_sink_fee_delta r with Some _ => with_hash (ws_hash (tr_ws r)) (tr_receipt r) | None => tr_receipt r end in
      Ok (mkRepair p (PendingDelta.apply (rp_layered s) (tr_ws r)) (rp_receipts s ++ [receipt]) (PendingDelta.apply (rp_delta s) (tr_ws r)))
    end
  else
    match executor_new (bk_snapshot b) (Some (rp_layered s)) (bk_env b) with
    | Err e => Err e
    | Ok scope =>
      let p := rp_prefix s in
      match execute_tx scope (mkTxSlot (jb_tx_idx job) (jb_position job) i (px_cumulative p)) (jb_envelope job) with
      | Err e => Err e
      | Ok (_, (receipt, ws)) =>
        Ok (mkRepair (mkPrefix (cumulative_gas_used receipt) (px_sink_running p) (px_sink p))
              (PendingDelta.apply (rp_layered s) ws) (rp_receipts s ++ [receipt]) (PendingDelta.apply (rp_delta s) ws))
      end
    end.

Fixpoint repair_all (b : Block) (wounded : nat → bool) (i : nat) (todo : list (TxJob * TxResult)) (s : Repair) : result ExecutorError Repair :=
  match todo with
  | [] => Ok s
  | (job, r) :: todo' =>
    match repair_one b job (N.of_nat i) (wounded i) r s with
    | Err e => Err e
    | Ok s => repair_all b wounded (S i) todo' s
    end
  end.

Definition prefix_start (b : Block) : Prefix := mkPrefix 0 (bl_sink_start_balance (bk_bound b)) (bk_sink b).

Definition repair_wounded (b : Block) (wounded : nat → bool) (rs : list TxResult) : result ExecutorError (list Receipt * PendingDelta.t) :=
  match repair_all b wounded 0 (zip (bk_jobs b) rs) (mkRepair (prefix_start b) (repair_base b) [] PendingDelta.new) with
  | Ok s => Ok (rp_receipts s, rp_delta s)
  | Err e => Err e
  end.

(** ** The tail *)

(** From the first wound on, every transaction runs again. *)
Definition wounded_set (wounded : list nat) (i : nat) : bool :=
  match wounded with
  | [] => false
  | w :: ws => (foldr Nat.min w ws <=? i)%nat
  end.

(** The receipts, the delta and the number of wounds. *)
Definition block_tail (workers : nat) (order : list nat) (b : Block) (mv : MvCache.t) (cells : list (option (result ExecutorError TxResult)))
  : result ExecutorError (list Receipt * PendingDelta.t * nat) :=
  match verify cells with
  | Err e => Err e
  | Ok rs =>
    match serial_prefix (prefix_start b) rs with
    | Err e => Err e
    | Ok rs =>
      let wounded := lanes_wounded workers mv rs in
      match wounded with
      | [] => Ok (commit_clean (lanes_hashes workers order rs) rs, fold_inline rs (bk_sink b), 0)
      | _ =>
        match repair_wounded b (wounded_set wounded) rs with
        | Ok (receipts, delta) => Ok (receipts, delta, length wounded)
        | Err e => Err e
        end
      end
    end
  end.
End tail.
