(* ===== verification/StmInv.v ===== *)
(** * Rely and guarantee of the workers

    What a transaction may assume of the others while it runs, and what it does to
    the shared memory: versions are only added, each at the index of its
    publisher; a code is in the cache before an account that carries it; and the
    base cache holds what the backend answers. Under these, whatever the
    interleaving, a transaction that ends has been answered, for each of its
    questions, by a version that is still there or by the block input, and has
    recorded which. *)
From S2P Require Import Prelude Bytes Types Fees WriteSet WriteSetSpec Effects ExecScope ExecScopeSpec ExecBlockSpec.
From S2P Require Import StmMv StmMvSpec StmView StmWorker.

(** ** A logic for interleaved trees

    [wp R G t Q] at a memory: the tree ends in [Q] when the environment moves the
    memory by [R] before each of its accesses, and its own accesses move it by [G]. *)
Section wp.
Context (R G : Mem → Mem → Prop).

Fixpoint wp {A} (m : Mem) (t : Tree MemE A) (Q : Mem → A → Prop) : Prop :=
  match t with
  | Ret a => Q m a
  | Vis e k => ∀ m', R m m' → let '(x, m'') := access m' e in G m' m'' ∧ wp m'' (k x) Q
  end.

Lemma wp_bind {A B} m (t : Tree MemE A) (f : A → Tree MemE B) Q Q' :
  wp m t Q → (∀ m' a, Q m' a → wp m' (f a) Q') → wp m (tbind t f) Q'.
Proof.
  intros Ht Hf. revert m Ht. induction t as [a|X e k IH]; intros m; cbn; [apply Hf|]. intros Ht m' Hm'. specialize (Ht m' Hm').
  destruct (access m' e) as [x m'']. destruct Ht as [HG Ht]. split; [done|]. by apply IH.
Qed.

Lemma wp_mono {A} m (t : Tree MemE A) Q Q' : (∀ m' a, Q m' a → Q' m' a) → wp m t Q → wp m t Q'.
Proof.
  intros HQ. revert m. induction t as [a|X e k IH]; intros m; cbn; [apply HQ|]. intros Ht m' Hm'. specialize (Ht m' Hm').
  destruct (access m' e) as [x m'']. destruct Ht as [HG Ht]. split; [done|]. by apply IH.
Qed.

(** The environment moves on. *)
Lemma wp_rely {A} `{!Transitive R} m m' (t : Tree MemE A) Q : (∀ m m' a, R m m' → Q m a → Q m' a) → R m m' → wp m t Q → wp m' t Q.
Proof.
  intros HQ HR. destruct t as [a|X e k]; cbn; [by apply HQ|]. intros Ht m'' HR'. apply Ht. by etrans.
Qed.
End wp.

(** ** Memory *)

Section memory.
Context `{Evm} `{Content} (b : Block).

Definition base_knows (h : B256) : Prop := BlockInput.code_by_hash_ref (block_input b) h = Ok (code_of h).

Definition avail (m : Mem) (h : B256) : Prop := is_Some (MvCache.code (mem_mv m) !! h) ∨ base_knows h.

Record mem_ok (m : Mem) : Prop := {
  mem_mv_ok : mv_ok (mem_mv m);
  mem_codes : ∀ h c, MvCache.code (mem_mv m) !! h = Some c → c = code_of h;
  mem_closed : ∀ a j f, (j, f) ∈ acc_versions (mem_mv m) a →
    to_revm_code_hash (af_code_hash f) = KECCAK_EMPTY ∨ avail m (af_code_hash f);
  mem_base_account : ∀ a x, BaseCache.get_account (mem_base m) a = Some x → SnapshotRef.basic_ref (bk_snapshot b) a = Ok x;
  mem_base_slot : ∀ a k x, BaseCache.get_slot (mem_base m) a k = Some x → SnapshotRef.storage_ref (bk_snapshot b) a k = Ok x;
  mem_base_code : ∀ h c, BaseCache.code (mem_base m) !! h = Some c → c = code_of h;
}.

(** Versions and codes are only added. *)
Record grows (m m' : Mem) : Prop := {
  grows_accounts : ∀ a j f, (j, f) ∈ acc_versions (mem_mv m) a → (j, f) ∈ acc_versions (mem_mv m') a;
  grows_slots : ∀ k j v, (j, v) ∈ slot_versions (mem_mv m) k → (j, v) ∈ slot_versions (mem_mv m') k;
  grows_codes : ∀ h, is_Some (MvCache.code (mem_mv m) !! h) → is_Some (MvCache.code (mem_mv m') !! h);
}.

(** The versions of one transaction are the same. *)
Definition same_at (i : N) (m m' : Mem) : Prop :=
  (∀ a f, (i, f) ∈ acc_versions (mem_mv m) a ↔ (i, f) ∈ acc_versions (mem_mv m') a) ∧
  (∀ k v, (i, v) ∈ slot_versions (mem_mv m) k ↔ (i, v) ∈ slot_versions (mem_mv m') k).

Definition rely (i : N) (m m' : Mem) : Prop := grows m m' ∧ same_at i m m' ∧ mem_ok m'.
Definition guar (i : N) (m m' : Mem) : Prop := grows m m' ∧ (∀ j, j ≠ i → same_at j m m') ∧ mem_ok m'.

#[export] Instance grows_preorder : PreOrder grows.
Proof. split; [by split|]. intros m1 m2 m3 [] []. split; eauto. Qed.

#[export] Instance same_at_equivalence i : Equivalence (same_at i).
Proof.
  split.
  - done.
  - intros m m' [Ha Hs]. split; intros; [by rewrite Ha|by rewrite Hs].
  - intros m1 m2 m3 [Ha Hs] [Ha' Hs']. split; intros; [by rewrite Ha, Ha'|by rewrite Hs, Hs'].
Qed.

#[export] Instance rely_trans i : Transitive (rely i).
Proof. intros m1 m2 m3 (? & ? & _) (? & ? & ?). split; [by etrans|]. split; [by etrans|done]. Qed.

Lemma guar_rely i j m m' : i ≠ j → guar i m m' → rely j m m'.
Proof. intros Hne (Hg & Hs & Hok). split; [done|]. split; [by apply Hs|done]. Qed.

Lemma avail_grows m m' h : grows m m' → avail m h → avail m' h.
Proof. intros Hg [Hc|Hb]; [left; by eapply grows_codes|by right]. Qed.

(** An access that leaves the multi-version cache alone. *)
Lemma guar_base i m c : mem_ok m → mem_ok (with_base m c) → guar i m (with_base m c).
Proof. intros _ Hok. split; [by split|]. by split. Qed.

Lemma guar_refl i m : mem_ok m → guar i m m.
Proof. intros Hok. split; [done|]. by split. Qed.

(** *** The base cache *)

Lemma get_put_account c a v a' x : BaseCache.get_account (BaseCache.put_account c a v) a' = Some x →
  a' = a ∧ x = v ∨ BaseCache.get_account c a' = Some x.
Proof.
  unfold BaseCache.get_account, BaseCache.put_account. cbn. rewrite list_lookup_alter. case_decide as Hsh; [rewrite <-Hsh|by right].
  destruct (BaseCache.accounts c !! _) as [g|]; cbn; [|done]. rewrite lookup_insert. case_decide; [|by right]. intros [= <-]. by left.
Qed.

Lemma get_put_slot c a k v a' k' x : BaseCache.get_slot (BaseCache.put_slot c a k v) a' k' = Some x →
  (a', k') = (a, k) ∧ x = v ∨ BaseCache.get_slot c a' k' = Some x.
Proof.
  unfold BaseCache.get_slot, BaseCache.put_slot. cbn. rewrite list_lookup_alter. case_decide as Hsh; [rewrite <-Hsh|by right].
  destruct (BaseCache.storage c !! _) as [g|]; cbn; [|done]. rewrite lookup_insert. case_decide; [|by right]. intros [= <-]. by left.
Qed.

Lemma mem_put_account m a v : mem_ok m → SnapshotRef.basic_ref (bk_snapshot b) a = Ok v →
  mem_ok (with_base m (BaseCache.put_account (mem_base m) a v)).
Proof. intros [? ? ? Ha ? ?] Hv. split; try done. intros a' x [[-> ->]|Hx]%get_put_account; [done|by apply Ha]. Qed.

Lemma mem_put_slot m a k v : mem_ok m → SnapshotRef.storage_ref (bk_snapshot b) a k = Ok v →
  mem_ok (with_base m (BaseCache.put_slot (mem_base m) a k v)).
Proof. intros [? ? ? ? Hs ?] Hv. split; try done. intros a' k' x [[[= -> ->] ->]|Hx]%get_put_slot; [done|by apply Hs]. Qed.

Lemma mem_put_code m h : mem_ok m → mem_ok (with_base m (BaseCache.put_code (mem_base m) h (code_of h))).
Proof.
  intros [? ? ? ? ? Hc]. split; try done. intros h' c. cbn. rewrite lookup_insert. case_decide; [by intros [= <-]; subst|apply Hc].
Qed.
End memory.

(** ** Answers *)

Section answers.
Context `{Evm} `{Content} (b : Block) (V0 : View).

(** What the block is bound to: a view, whose sink is the sink of the session. *)
Record input_is : Prop := {
  input_account : ∀ a, a ≠ bk_sink b → BlockInput.basic_ref (block_input b) a = Ok (v_basic V0 a);
  input_sink : bl_sink_start (bk_bound b) = v_basic V0 (bk_sink b);
  input_slot : ∀ a k, BlockInput.storage_ref (block_input b) a k = Ok (v_storage V0 a k);
  input_closed : closed (base_knows b) V0;
  input_empty : base_knows b KECCAK_EMPTY;
}.

(** An answer that the log of reads accounts for: a version that is there, under
    the index that was recorded, or the block input. *)
Definition just (i : N) (m : Mem) (reads : list ReadRecord) (X : Type) (e : DbE X) : X → Prop :=
  match e with
  | BasicE a => λ x,
    if decide (a = bk_sink b) then x = Ok (v_basic V0 a)
    else (∃ j f, RAccount a (Some j) ∈ reads ∧ (j, f) ∈ acc_versions (mem_mv m) a ∧ (j < i)%N ∧ x = Ok (Some (account_info f))) ∨
         (RAccount a None ∈ reads ∧ x = Ok (v_basic V0 a))
  | StorageE a k => λ x,
    (∃ j v, RSlot a k (Some j) ∈ reads ∧ (j, v) ∈ slot_versions (mem_mv m) (a, k) ∧ (j < i)%N ∧ x = Ok v) ∨
    (RSlot a k None ∈ reads ∧ x = Ok (v_storage V0 a k))
  | CodeByHashE h => λ x, x = Ok (code_of h)
  | BlockHashE _ => λ x, x = Ok 0%N
  end.

Lemma just_mono i m m' reads reads' X e x : grows m m' → reads ⊆ reads' → just i m reads X e x → just i m' reads' X e x.
Proof.
  intros [Ha Hs _] Hr. destruct e as [a|a k| |]; cbn; [|..|done|done].
  - case_decide; [done|]. intros [(j & f & ? & ? & ? & ?)|[? ?]]; [left; exists j, f|right]; auto.
  - intros [(j & f & ? & ? & ? & ?)|[? ?]]; [left; exists j, f|right]; auto.
Qed.

Definition knows_all (m : Mem) (K : gset B256) : Prop := ∀ h, h ∈ K → h = KECCAK_EMPTY ∨ avail b m h.

Lemma knows_all_grows m m' K : grows m m' → knows_all m K → knows_all m' K.
Proof. intros Hg HK h Hh. destruct (HK h Hh); [by left|right; by eapply avail_grows]. Qed.

(** What an answer leaves. *)
Definition answered (i : N) (m : Mem) (reads : list ReadRecord) (K : gset B256) {X} (e : DbE X) (m' : Mem) (out : X * list ReadRecord) : Prop :=
  rely b i m m' ∧ reads ⊆ out.2 ∧ knows_all m' (learn K e out.1) ∧ just i m' out.2 X e out.1.

Abbreviation view i := (MvView.mk (block_input b) i (bk_sink b) (bl_sink_start (bk_bound b))).
Abbreviation wpi i := (wp (rely b i) (guar b i)).

(** A tree that changes nothing but the base cache. *)
Lemma wp_read {X A} i m (e : MemE X) (k : X → Tree MemE A) Q : (∀ m, (access m e).2 = m) →
  (∀ m', rely b i m m' → wpi i m' (k (access m' e).1) Q) → wpi i m (Vis e k) Q.
Proof.
  intros He Hk m' Hm'. specialize (Hk m' Hm'). specialize (He m'). destruct (access m' e) as [x m'']. cbn in *. subst m''.
  split; [|done]. by apply guar_refl; destruct Hm' as (_ & _ & ?).
Qed.

Lemma wp_put {A} i m (e : MemE ()) (k : () → Tree MemE A) Q :
  (∀ m, mem_ok b m → ∃ c, access m e = ((), with_base m c) ∧ mem_ok b (with_base m c)) →
  (∀ m', rely b i m m' → wpi i m' (k ()) Q) → wpi i m (Vis e k) Q.
Proof.
  intros He Hk m' Hm'. destruct (He m') as (c & -> & Hc); [apply Hm'|]. split; [by apply guar_base; [apply Hm'|]|].
  apply Hk. etrans; [exact Hm'|]. by split; [|split].
Qed.

Context (Hin : input_is).

Lemma snapshot_account a : BlockInput.layered_account (block_input b) a = None → a ≠ bk_sink b →
  SnapshotRef.basic_ref (bk_snapshot b) a = Ok (v_basic V0 a).
Proof. intros Hl Ha. rewrite <-(input_account Hin a Ha). unfold BlockInput.basic_ref. by rewrite Hl. Qed.

Lemma snapshot_slot a k : BlockInput.layered_slot (block_input b) a k = None →
  SnapshotRef.storage_ref (bk_snapshot b) a k = Ok (v_storage V0 a k).
Proof. intros Hl. rewrite <-(input_slot Hin a k). unfold BlockInput.storage_ref. by rewrite Hl. Qed.

Lemma knows_input m K a : knows_all m K → knows_all m (learn K (BasicE a) (Ok (v_basic V0 a))).
Proof.
  intros HK. cbn. destruct (v_basic V0 a) as [f|] eqn:E; [|done]. intros h [->%elem_of_singleton|]%elem_of_union; [|by apply HK].
  destruct (input_closed Hin a f E); [by left|right; by right].
Qed.

Lemma answered_input i m reads K m' a : rely b i m m' → knows_all m K → a ≠ bk_sink b →
  answered i m reads K (BasicE a) m' (Ok (v_basic V0 a), reads ++ [RAccount a None]).
Proof.
  intros Hm HK Ha. split; [done|]. split; [set_solver|]. split; [apply knows_input; eapply knows_all_grows; [apply Hm|done]|].
  cbn. rewrite decide_False by done. right. split; [set_solver|done].
Qed.

Lemma basic_wp i m reads K a : mem_ok b m → knows_all m K →
  wpi i m (MvView.basic_inner (view i) reads a) (answered i m reads K (BasicE a)).
Proof.
  intros Hok HK. unfold MvView.basic_inner. cbn [MvView.sink MvView.idx MvView.base MvView.sink_start].
  destruct (N.eqb_spec a (bk_sink b)) as [->|Ha].
  { rewrite (input_sink Hin). split; [by split|]. split; [done|]. split; [by apply knows_input|]. cbn. by rewrite decide_True. }
  apply wp_read; [done|]. intros m1 H1. cbn [access fst]. rewrite read_account_versions.
  destruct (version_read i _) as [[j f]|] eqn:E.
  { apply version_read_latest in E as (Hj & Hlt & _); [|apply acc_sorted, mem_mv_ok with (b := b); apply H1].
    split; [done|]. split; [set_solver|]. split; [|cbn; rewrite decide_False by done; left; exists j, f; repeat split; try done; set_solver].
    cbn [fst learn]. intros h [->%elem_of_singleton|Hh]%elem_of_union; [|by eapply knows_all_grows; [apply H1| |]].
    destruct (mem_closed _ _ (proj2 (proj2 H1)) _ _ _ Hj) as [Hh|Hh]; [by left|]. cbn. unfold to_revm_code_hash. case_match; auto. }
  destruct (BlockInput.layered_account _ a) as [f|] eqn:El.
  { assert (Ok (Some f) = Ok (v_basic V0 a)) as ->; [|by apply answered_input].
    rewrite <-(input_account Hin a Ha). unfold BlockInput.basic_ref. by rewrite El. }
  pose proof (snapshot_account a El Ha) as Hs. apply wp_read; [done|]. intros m2 H2. cbn [access fst].
  destruct (BaseCache.get_account _ a) as [x|] eqn:Eg.
  { apply (mem_base_account _ _ (proj2 (proj2 H2))) in Eg. rewrite Hs in Eg. injection Eg as <-. apply answered_input; [by etrans|done..]. }
  cbn [BlockInput.snapshot block_input]. rewrite Hs. apply wp_put.
  { intros m' Hm'. eexists. split; [done|]. by apply mem_put_account. }
  intros m3 H3. apply answered_input; [|done..]. etrans; [exact H1|]. by etrans.
Qed.

Lemma answered_slot i m reads K m' a k : rely b i m m' → knows_all m K →
  answered i m reads K (StorageE a k) m' (Ok (v_storage V0 a k), reads ++ [RSlot a k None]).
Proof.
  intros Hm HK. split; [done|]. split; [set_solver|]. split; [eapply knows_all_grows; [apply Hm|done]|]. right. split; [set_solver|done].
Qed.

Lemma storage_wp i m reads K a k : mem_ok b m → knows_all m K →
  wpi i m (MvView.storage_inner (view i) reads a k) (answered i m reads K (StorageE a k)).
Proof.
  intros Hok HK. unfold MvView.storage_inner. cbn [MvView.sink MvView.idx MvView.base MvView.sink_start].
  apply wp_read; [done|]. intros m1 H1. cbn [access fst]. rewrite read_slot_versions. destruct (version_read i _) as [[j f]|] eqn:E.
  { apply version_read_latest in E as (Hj & Hlt & _); [|apply slot_sorted, mem_mv_ok with (b := b); apply H1].
    split; [done|]. split; [set_solver|]. split; [by eapply knows_all_grows; [apply H1|]|].
    left. exists j, f. repeat split; try done. set_solver. }
  destruct (BlockInput.layered_slot _ a k) as [f|] eqn:El.
  { assert (Ok f = Ok (v_storage V0 a k)) as ->; [|by apply answered_slot].
    rewrite <-(input_slot Hin a k). unfold BlockInput.storage_ref. by rewrite El. }
  pose proof (snapshot_slot a k El) as Hs. apply wp_read; [done|]. intros m2 H2. cbn [access fst].
  destruct (BaseCache.get_slot _ a k) as [x|] eqn:Eg.
  { apply (mem_base_slot _ _ (proj2 (proj2 H2))) in Eg. rewrite Hs in Eg. injection Eg as <-. apply answered_slot; [by etrans|done..]. }
  cbn [BlockInput.snapshot block_input]. rewrite Hs. apply wp_put.
  { intros m' Hm'. eexists. split; [done|]. by apply mem_put_slot. }
  intros m3 H3. apply answered_slot; [|done..]. etrans; [exact H1|]. by etrans.
Qed.

Lemma code_wp i m reads K h : mem_ok b m → knows_all m K → asks K (CodeByHashE h) →
  wpi i m (MvView.code_by_hash_inner (view i) reads h) (answered i m reads K (CodeByHashE h)).
Proof.
  intros Hok HK Ha. assert (avail b m h) as Hav by (destruct Ha as [->|Ha]; [right; apply Hin|destruct (HK h Ha) as [->|]; [right; apply Hin|done]]).
  assert (∀ m' l, rely b i m m' → reads ⊆ l → answered i m reads K (CodeByHashE h) m' (Ok (code_of h), l)) as Hans.
  { intros m' l Hm' Hl. split; [done|]. split; [done|]. split; [by eapply knows_all_grows; [apply Hm'|]|done]. }
  assert (∀ m', mem_ok b m' → ∃ c, access m' (BasePutCode h (code_of h)) = ((), with_base m' c) ∧ mem_ok b (with_base m' c)) as Hput.
  { intros m' Hm'. eexists. split; [done|]. by apply mem_put_code. }
  unfold MvView.code_by_hash_inner. apply wp_read; [done|]. intros m1 H1. cbn [access fst].
  destruct (BaseCache.code _ !! h) as [c|] eqn:Eb.
  { apply (mem_base_code _ _ (proj2 (proj2 H1))) in Eb as ->. by apply Hans. }
  apply wp_read; [done|]. intros m2 H2. cbn [access fst]. unfold MvCache.read_code.
  destruct (MvCache.code _ !! h) as [c|] eqn:Em.
  - apply (mem_codes _ _ (proj2 (proj2 H2))) in Em as ->. apply wp_put; [apply Hput|]. intros m3 H3. apply Hans; [|set_solver].
    etrans; [exact H1|]. by etrans.
  - destruct (avail_grows b m m2 h) as [Hc|Hb]; [etrans; [apply H1|apply H2]|done|by rewrite Em in Hc; destruct Hc|].
    cbn [MvView.base]. unfold base_knows in Hb. rewrite Hb. apply wp_put; [apply Hput|]. intros m3 H3. apply Hans; [|set_solver].
    etrans; [exact H1|]. by etrans.
Qed.

Lemma answer_wp i m reads K {X} (e : DbE X) : mem_ok b m → knows_all m K → asks K e →
  wpi i m (MvView.answer (view i) reads e) (answered i m reads K e).
Proof.
  intros Hok HK Ha. destruct e; [by apply basic_wp|by apply storage_wp|by apply code_wp|]. by split; [split|].
Qed.

(** *** A tree over the view *)

Definition covered {A} (P : gset B256 → A → Prop) (i : N) (m : Mem) (reads : list ReadRecord) (t : Tree DbE A) (m' : Mem) (out : A * list ReadRecord) : Prop :=
  rely b i m m' ∧ reads ⊆ out.2 ∧ (∃ K, P K out.1 ∧ knows_all m' K) ∧ can (just i m' out.2) t out.1.

Lemma over_wp {A} (P : gset B256 → A → Prop) i m reads K (t : Tree DbE A) : mem_ok b m → knows_all m K → tame P K t →
  wpi i m (MvView.over (view i) reads t) (covered P i m reads t).
Proof.
  revert m reads K. induction t as [r|X e k IH]; intros m reads K Hok HK; cbn [tame MvView.over].
  { intros HP. split; [by split|]. split; [done|]. split; [by exists K|done]. }
  intros [Ha Ht]. eapply wp_bind; [by apply (answer_wp i m reads K e)|]. intros m1 [x reads1] (H1 & Hr1 & HK1 & Hj1). cbn in *.
  eapply wp_mono; [|apply (IH x m1 reads1 (learn K e x)); [apply H1|done|apply Ht; by destruct e]].
  intros m2 [r reads2] (H2 & Hr2 & HP & Hc). cbn in *. split; [by etrans|]. split; [by etrans|]. split; [done|]. exists x.
  split; [|done]. eapply just_mono; [apply H2|exact Hr2|exact Hj1].
Qed.
End answers.

(** ** Publication *)

Section publication.
Context `{Evm} `{Content} (b : Block).
Abbreviation wpi i := (wp (rely b i) (guar b i)).

(** The versions of transaction [i] are these. *)
Definition owned (i : N) (m : Mem) (accounts : list AccountEntry) (slots : list StorageEntry) : Prop :=
  (∀ a f, (i, f) ∈ acc_versions (mem_mv m) a ↔ (a, f) ∈ accounts) ∧
  (∀ k v, (i, v) ∈ slot_versions (mem_mv m) k ↔ (k, v) ∈ slots).

Lemma owned_same i m m' accounts slots : same_at i m m' → owned i m accounts slots → owned i m' accounts slots.
Proof. intros [Ha Hs] [Oa Os]. split; intros; [by rewrite <-Ha|by rewrite <-Hs]. Qed.

Lemma publish_code_step i m h : mem_ok b m → let m' := with_mv m (MvCache.publish_code (mem_mv m) h (code_of h)) in
  guar b i m m' ∧ rely b i m m' ∧ is_Some (MvCache.code (mem_mv m') !! h).
Proof.
  intros Hok m'.
  assert (∀ h' c, MvCache.code (mem_mv m') !! h' = Some c ↔ MvCache.code (mem_mv m) !! h' = Some c ∨ h' = h ∧ c = code_of h ∧ MvCache.code (mem_mv m) !! h = None) as Hc.
  { intros h' c. cbn. destruct (MvCache.code (mem_mv m) !! h) eqn:E; [naive_solver|]. rewrite lookup_insert_Some. naive_solver. }
  assert (grows m m') as Hg. { split; [done..|]. intros h' [c Hh']. exists c. apply Hc. by left. }
  assert (mem_ok b m') as Hok'.
  { destruct Hok as [[Hma Hms] Hcs Hcl Hba Hbs Hbc]. split; [by split| | |done..].
    - intros h' c [Hh|(-> & -> & _)]%Hc; [by apply Hcs|done].
    - intros a j f Hf. destruct (Hcl a j f Hf); [by left|right; by eapply avail_grows]. }
  split; [by split|]. split; [by split; [|split]|].
  destruct (MvCache.code (mem_mv m) !! h) as [c|] eqn:E; [exists c; apply Hc; by left|exists (code_of h); apply Hc; by right].
Qed.

Lemma publish_slot_step i m a k v accounts slots : mem_ok b m → owned i m accounts slots → (a, k) ∉ slots.*1 →
  let m' := with_mv m (MvCache.publish_slot (mem_mv m) i a k v) in
  guar b i m m' ∧ owned i m' accounts (slots ++ [((a, k), v)]).
Proof.
  intros Hok [Oa Os] Hni m'. pose proof (mem_mv_ok _ _ Hok) as Hmv.
  assert (∀ w, (i, w) ∈ slot_versions (mem_mv m) (a, k) → False) as Hnew.
  { intros w Hw%Os. apply Hni. apply list_elem_of_fmap. by exists ((a, k), w). }
  assert (∀ k' j w, (j, w) ∈ slot_versions (mem_mv m') k' ↔ (k' = (a, k) ∧ j = i ∧ w = v) ∨ (j, w) ∈ slot_versions (mem_mv m) k') as Hs.
  { intros k' j w. cbn [m' with_mv mem_mv]. rewrite slot_publish by done. case_decide as Hk; [subst k'|naive_solver].
    rewrite elem_of_publish by (by apply slot_sorted). split; [naive_solver|]. intros [(_ & ? & ?)|Hin]; [by left|right]. split; [|done].
    intros ->. by eapply Hnew. }
  split; [split; [|split]|].
  - split; [done| |done]. intros k' j w Hin. apply Hs. by right.
  - intros j Hj. split; [done|]. intros k' w. rewrite Hs. naive_solver.
  - destruct Hok as [_ Hcs Hcl Hba Hbs Hbc]. split; [by apply publish_slot_ok|done..].
  - split; [done|]. intros k' w. rewrite Hs, elem_of_app, list_elem_of_singleton, Os. naive_solver.
Qed.

Lemma publish_account_step i m a f accounts slots : mem_ok b m → owned i m accounts slots → a ∉ accounts.*1 →
  to_revm_code_hash (af_code_hash f) = KECCAK_EMPTY ∨ avail b m (af_code_hash f) →
  let m' := with_mv m (MvCache.publish_account (mem_mv m) i a f) in
  guar b i m m' ∧ owned i m' (accounts ++ [(a, f)]) slots.
Proof.
  intros Hok [Oa Os] Hni Hav m'. pose proof (mem_mv_ok _ _ Hok) as Hmv.
  assert (∀ w, (i, w) ∈ acc_versions (mem_mv m) a → False) as Hnew.
  { intros w Hw%Oa. apply Hni. apply list_elem_of_fmap. by exists (a, w). }
  assert (∀ a' j w, (j, w) ∈ acc_versions (mem_mv m') a' ↔ (a' = a ∧ j = i ∧ w = f) ∨ (j, w) ∈ acc_versions (mem_mv m) a') as Hs.
  { intros k' j w. cbn [m' with_mv mem_mv]. rewrite acc_publish by done. case_decide as Hk; [subst k'|naive_solver].
    rewrite elem_of_publish by (by apply acc_sorted). split; [naive_solver|]. intros [(_ & ? & ?)|Hin]; [by left|right]. split; [|done].
    intros ->. by eapply Hnew. }
  assert (grows m m') as Hg. { split; [|done..]. intros k' j w Hin. apply Hs. by right. }
  split; [split; [done|split]|].
  - intros j Hj. split; [|done]. intros a' w. rewrite Hs. naive_solver.
  - destruct Hok as [_ Hcs Hcl Hba Hbs Hbc]. split; [by apply publish_account_ok|done| |done..].
    intros a' j w [(-> & -> & ->)|Hin]%Hs; [destruct Hav|destruct (Hcl _ _ _ Hin)]; try (by left); right; by eapply avail_grows.
  - split; [|done]. intros a' w. rewrite Hs, elem_of_app, list_elem_of_singleton, Oa. naive_solver.
Qed.

Lemma publish_codes_wp i m l k Q : mem_ok b m → (∀ h c, (h, c) ∈ l → c = code_of h) →
  (∀ m', rely b i m m' → (∀ h c, (h, c) ∈ l → avail b m' h) → wpi i m' k Q) → wpi i m (publish_codes l k) Q.
Proof.
  revert m. induction l as [|[h c] l IH]; intros m Hok Hl Hk; cbn [publish_codes].
  { apply Hk; [by split|by intros ?? ?%elem_of_nil]. }
  intros m1 H1. cbn [access]. rewrite (Hl h c) by set_solver. destruct (publish_code_step i m1 h (proj2 (proj2 H1))) as (HG & HR & Hin).
  split; [done|]. apply IH; [apply HR|intros h' c' ?; apply Hl; set_solver|]. intros m2 H2 Hav. apply Hk.
  - etrans; [exact H1|]. by etrans.
  - intros h' c' [[= -> ->]|Hh']%elem_of_cons; [|by eapply Hav]. eapply avail_grows; [apply H2|by left].
Qed.

Lemma publish_slots_wp i m l k Q accounts slots : mem_ok b m → owned i m accounts slots → NoDup (slots ++ l).*1 →
  (∀ m', grows m m' → mem_ok b m' → owned i m' accounts (slots ++ l) → wpi i m' k Q) → wpi i m (publish_slots i l k) Q.
Proof.
  revert m slots. induction l as [|[[a ky] v] l IH]; intros m slots Hok Ho Hnd Hk; cbn [publish_slots].
  { apply Hk; [done..|]. by rewrite app_nil_r. }
  intros m1 (Hg1 & Hs1 & Hok1). cbn [access]. rewrite fmap_app in Hnd. cbn in Hnd. apply NoDup_app in Hnd as (? & Hd & ?).
  destruct (publish_slot_step i m1 a ky v accounts slots) as [HG Ho']; [done|by eapply owned_same|intros Hin; apply (Hd _ Hin); set_solver|].
  split; [done|]. apply (IH _ (slots ++ [((a, ky), v)])); [apply HG|done| |].
  - rewrite <-app_assoc, fmap_app. cbn. by apply NoDup_app.
  - intros m2 Hg2 Hok2 Ho2. apply Hk; [|done|by rewrite <-app_assoc in Ho2]. etrans; [exact Hg1|]. etrans; [apply HG|done].
Qed.

(** The entries that are published. *)
Definition published (skip_account : Address) (l : list AccountEntry) : list AccountEntry := filter (λ e, e.1 ≠ skip_account) l.

Lemma publish_accounts_wp i m skip l k Q accounts slots : mem_ok b m → owned i m accounts slots → NoDup (accounts ++ l).*1 →
  (∀ a f, (a, f) ∈ l → to_revm_code_hash (af_code_hash f) = KECCAK_EMPTY ∨ avail b m (af_code_hash f)) →
  (∀ m', grows m m' → mem_ok b m' → owned i m' (accounts ++ published skip l) slots → wpi i m' k Q) →
  wpi i m (publish_accounts i skip l k) Q.
Proof.
  revert m accounts. induction l as [|[a f] l IH]; intros m accounts Hok Ho Hnd Hav Hk; cbn [publish_accounts].
  { apply Hk; [done..|]. by rewrite app_nil_r. }
  rewrite fmap_app in Hnd. cbn in Hnd. apply NoDup_app in Hnd as (? & Hd & [Hni ?]%NoDup_cons).
  unfold published in Hk. rewrite filter_cons in Hk. destruct (N.eqb_spec a skip) as [Ha|Ha].
  { rewrite decide_False in Hk by naive_solver. apply (IH m accounts); [done..| |intros a' f' ?; apply (Hav a'); set_solver|done].
    rewrite fmap_app. apply NoDup_app. split; [done|]. split; [|done]. intros x Hx Hx'. apply (Hd x Hx). set_solver. }
  rewrite decide_True in Hk by done. intros m1 (Hg1 & Hs1 & Hok1). cbn [access].
  destruct (publish_account_step i m1 a f accounts slots) as [HG Ho']; [done|by eapply owned_same|intros Hin; apply (Hd _ Hin); set_solver| |].
  { destruct (Hav a f); [set_solver|by left|right; by eapply avail_grows]. }
  assert (grows m (with_mv m1 (MvCache.publish_account (mem_mv m1) i a f))) as Hg by (etrans; [exact Hg1|apply HG]).
  split; [done|]. apply (IH _ (accounts ++ [(a, f)])); [apply HG|done| | |].
  - rewrite <-app_assoc, fmap_app. cbn. apply NoDup_app. by split; [|split; [|apply NoDup_cons]].
  - intros a' f' Hin. destruct (Hav a' f'); [set_solver|by left|right; by eapply avail_grows].
  - intros m2 Hg2 Hok2 Ho2. apply Hk; [by etrans|done|by rewrite <-app_assoc in Ho2].
Qed.

(** The codes are there before the accounts that carry them. *)
Lemma publish_write_set_wp i m ws skip k Q : mem_ok b m → owned i m [] [] →
  NoDup (WriteSet.accounts ws).*1 → NoDup (WriteSet.storage ws).*1 → (∀ h c, (h, c) ∈ WriteSet.code ws → c = code_of h) →
  (∀ a f, (a, f) ∈ WriteSet.accounts ws → to_revm_code_hash (af_code_hash f) = KECCAK_EMPTY ∨ avail b m (af_code_hash f) ∨
     ∃ c, (af_code_hash f, c) ∈ WriteSet.code ws) →
  (∀ m', grows m m' → mem_ok b m' → owned i m' (published skip (WriteSet.accounts ws)) (WriteSet.storage ws) →
     (∀ h c, (h, c) ∈ WriteSet.code ws → avail b m' h) → wpi i m' k Q) →
  wpi i m (publish_write_set i ws skip k) Q.
Proof.
  intros Hok Ho Hna Hns Hc Hav Hk. apply publish_codes_wp; [done..|]. intros m1 (Hg1 & Hs1 & Hok1) Hc1.
  eapply publish_slots_wp; [done|by eapply owned_same|done|]. intros m2 Hg2 Hok2 Ho2.
  eapply publish_accounts_wp; [done..| |].
  - intros a f Hin. destruct (Hav a f Hin) as [|[Hm|(c & Hh)]]; [by left|right..].
    + eapply avail_grows; [|exact Hm]. by etrans.
    + eapply avail_grows; [exact Hg2|by eapply Hc1].
  - intros m3 Hg3 Hok3 Ho3. apply Hk; [etrans; [exact Hg1|by etrans]|done..|]. intros h c Hh. eapply avail_grows; [|by eapply Hc1]. by etrans.
Qed.
End publication.

(** ** A transaction *)

Lemma NoDup_bind_fst {A B K V} (f : A * B → list (K * V)) (own : K → A) (l : list (A * B)) :
  NoDup l.*1 → Forall (λ e, NoDup (f e).*1) l → (∀ e k v, (k, v) ∈ f e → own k = e.1) → NoDup (l ≫= f).*1.
Proof.
  intros Hnd Hf Hown. induction l as [|e l IH]; [constructor|]. rewrite bind_cons, fmap_app. apply NoDup_cons in Hnd as [Hni Hnd].
  apply Forall_cons in Hf as [He Hf]. apply NoDup_app. split; [done|]. split; [|by apply IH].
  intros k ([? v] & -> & Hk)%list_elem_of_fmap ([? w] & Heq & Hk')%list_elem_of_fmap. cbn in Heq. subst.
  apply list_elem_of_bind in Hk' as (e' & Hw & Hin). apply Hown in Hk, Hw. apply Hni. rewrite <-Hk, Hw. by apply list_elem_of_fmap_2.
Qed.

Lemma from_state_nodup st : state_keys st →
  NoDup (WriteSet.accounts (WriteSet.from_evm_state st)).*1 ∧ NoDup (WriteSet.storage (WriteSet.from_evm_state st)).*1.
Proof.
  intros [Hk Hs]. rewrite from_evm_state_parts. unfold WriteSet.finish. cbn. rewrite !(merge_sort_Permutation entry_le). split.
  - apply (NoDup_bind_fst account_part id); [done| |].
    + apply Forall_forall. intros e _. unfold account_part. destruct (touched e.2); [apply NoDup_singleton|constructor].
    + intros e k v. unfold account_part. destruct (touched e.2); [|by intros ?%elem_of_nil]. by intros [= -> _]%list_elem_of_singleton.
  - apply (NoDup_bind_fst storage_part fst); [done| |].
    + eapply Forall_impl; [exact Hs|]. intros [a acc] Hnd. unfold storage_part. cbn in *. destruct (touched acc); [|constructor].
      unfold WriteSet.push_evm_state_storage. induction (acc_storage acc) as [|[k s] l IH]; cbn; [constructor|].
      apply NoDup_cons in Hnd as [Hni Hnd]. specialize (IH Hnd). destruct (original_value s =? present_value s)%N; cbn; [done|].
      apply NoDup_cons. split; [|done]. intros ([[a' k'] v] & Heq & Hin)%list_elem_of_fmap. cbn in Heq. injection Heq as <- <-.
      apply list_elem_of_omap in Hin as ([k' s'] & Hin & Hs'). destruct (_ =? _)%N; [done|]. injection Hs' as <- _.
      apply Hni. by apply (list_elem_of_fmap_2 fst _ (k', s')).
    + intros e [a k] v Hin. by apply storage_part_elem in Hin as (_ & -> & _).
Qed.

Section transaction.
Context `{Evm} `{Content} (b : Block) (V0 : View) (Hin : input_is b V0).
Abbreviation wpi i := (wp (rely b i) (guar b i)).

Definition job_slot (job : TxJob) (cumulative : N) : TxSlot := mkTxSlot (jb_tx_idx job) (jb_position job) (local_idx job) cumulative.

(** The tree of a job, over the scope of the sequential engine. *)
Definition job_tree (job : TxJob) : Tree DbE (result ExecutorError Ending) :=
  tx_tree (bk_env b) (job_slot job 0) (jb_envelope job) (jb_decoded job).

(** The receipt that a worker leaves: the hash is left to the tail when the sink
    was credited, and the cumulative gas always is. *)
Definition worker_receipt (job : TxJob) (e : Ending) (delta : option N) : Receipt :=
  match e with
  | EndSkip s _ => (skip_receipt s (ending_ws e)).1
  | EndRan result _ price =>
    build_receipt job (bk_env b) result (match delta with Some _ => 0%N | None => ws_hash (ending_ws e) end)
      (match jb_decoded job with Some d => al_nonce d | None => 0%N end) (te_sender (jb_envelope job))
      (d ← jb_decoded job; al_to d) price
  end.

(** A result that the memory bears out. *)
Record good (job : TxJob) (m : Mem) (r : TxResult) (e : Ending) : Prop := {
  good_tree : can (just b V0 (local_idx job) m (tr_reads r)) (job_tree job) (Ok e);
  good_ws : tr_ws r = ending_ws e;
  good_delta : sink_fee_delta (ending_ws e) (bk_sink b) (bl_sink_start_balance (bk_bound b)) = Ok (tr_sink_fee_delta r);
  good_receipt : tr_receipt r = worker_receipt job e (tr_sink_fee_delta r);
  good_owned : owned (local_idx job) m (published (bk_sink b) (WriteSet.accounts (ending_ws e))) (WriteSet.storage (ending_ws e));
  good_sound : ∃ K, ending_sound K (Ok e);
}.

Definition good_cell (job : TxJob) (m : Mem) (r : result ExecutorError TxResult) : Prop :=
  match r with Ok r => ∃ e, good job m r e | Err _ => True end.

Lemma good_cell_rely job m m' r : rely b (local_idx job) m m' → good_cell job m r → good_cell job m' r.
Proof.
  intros (Hg & Hs & _). destruct r as [r|]; [|done]. intros [e [Ht ? ? ? Ho ?]]. exists e. split; try done.
  - eapply can_mono; [|exact Ht]. intros X q x. by apply just_mono.
  - by eapply owned_same.
Qed.

Abbreviation ctx := (mkCtx (bk_env b) (bl_sink_start_balance (bk_bound b))).

Lemma of_state_wp job m reads build e : mem_ok b m → owned (local_idx job) m [] [] →
  can (just b V0 (local_idx job) m reads) (job_tree job) (Ok e) →
  (∃ K, ending_sound K (Ok e) ∧ knows_all b m K) →
  (∀ delta, build (ending_ws e) delta = worker_receipt job e delta) →
  wpi (local_idx job) m (of_state job ctx (ending_state e) reads build) (good_cell job).
Proof.
  intros Hok Ho Ht (K & Hsnd & HK) Hb. pose proof Hsnd as (Hkeys & Hst & _). destruct (from_state_nodup _ Hkeys) as [Hna Hns].
  unfold of_state. cbn [cx_env cx_sink_start_balance]. apply publish_write_set_wp; [done..| | |].
  - intros h c. by apply (code_from_state K).
  - intros a f Ha. rewrite from_evm_state_parts in Ha. unfold WriteSet.finish in Ha. cbn in Ha.
    rewrite (merge_sort_Permutation entry_le), account_part_elem in Ha. destruct Ha as (acc & Ha & Et & ->). cbn.
    pose proof Hst as Hst'. unfold state_sound in Hst'. rewrite Forall_forall in Hst'.
    destruct (Hst' _ Ha Et) as [_ [|[Hk|(Ec & c & Hc & Hne)]]]; [by left| |right; right; exists c; by eapply code_of_created].
    destruct (HK _ Hk) as [Hh|]; [left; cbn in Hh; by rewrite Hh|right; by left].
  - intros m' Hg Hok' Ho' _. cbn [wp]. change (WriteSet.from_evm_state (ending_state e)) with (ending_ws e). unfold good_cell.
    change (beneficiary (ee_fees (bk_env b))) with (bk_sink b).
    destruct (sink_fee_delta _ _ _) as [delta|] eqn:Ed; [|done]. exists e. split; try done.
    + eapply can_mono; [|exact Ht]. intros X q x. by apply just_mono.
    + by cbn; rewrite Hb.
    + by exists K.
Qed.

Lemma job_skip_wp job m reads s : mem_ok b m → owned (local_idx job) m [] [] →
  (∀ m' reads' st, grows m m' → reads ⊆ reads' →
    can (just b V0 (local_idx job) m' reads') (burn_state s (ee_features (bk_env b))) (Ok st) →
    can (just b V0 (local_idx job) m' reads') (job_tree job) (Ok (EndSkip s st))) →
  (∃ K, knows_all b m K) →
  wpi (local_idx job) m (job_skip (worker_view b job) job ctx s reads) (good_cell job).
Proof.
  intros Hok Ho Ht [K HK]. unfold job_skip. eapply wp_bind; [by apply (over_wp b V0 Hin _ _ _ _ _ _ Hok HK (burn_tame s _ K))|].
  intros m1 [r reads1] (H1 & Hr1 & (K1 & HP1 & HK1) & Hc1). cbn [fst snd cx_env] in *.
  assert (owned (local_idx job) m1 [] []) as Ho1 by (eapply owned_same; [apply H1|done]).
  destruct r as [st|]; [|done]. specialize (Ht m1 reads1 st (proj1 H1) Hr1 Hc1). destruct st as [st|].
  - apply (of_state_wp job m1 reads1 _ (EndSkip s (Some st))); [apply H1|done..|by exists K1|done].
  - exists (EndSkip s None). cbn. split; try done. by exists K1.
Qed.

Lemma run_job_wp job m : mem_ok b m → owned (local_idx job) m [] [] → tx_tame (bk_env b) (jb_envelope job) (jb_decoded job) →
  wpi (local_idx job) m (run_job b job) (good_cell job).
Proof.
  intros Hok Ho Ht. unfold run_job, execute_one. destruct (jb_decoded job) as [d|] eqn:Ed.
  - eapply wp_bind.
    { eapply (over_wp b V0 Hin _ (local_idx job) m [] ∅); [done|by intros ??%elem_of_empty|apply Ht]. }
    intros m1 [r reads1] (H1 & _ & (K1 & HP1 & HK1) & Hc1). cbn [fst snd cx_env] in *.
    assert (owned (local_idx job) m1 [] []) as Ho1 by (eapply owned_same; [apply H1|done]).
    assert (∀ m' reads' e, grows m1 m' → reads1 ⊆ reads' →
      can (just b V0 (local_idx job) m' reads') (after_transact (bk_env b) (job_slot job 0) (jb_envelope job) d r) (Ok e) →
      can (just b V0 (local_idx job) m' reads') (job_tree job) (Ok e)) as Htree.
    { intros m' reads' e Hg Hr He. unfold job_tree, tx_tree. rewrite Ed. eapply can_bind; [|exact He].
      eapply can_mono; [|exact Hc1]. intros X q x. by apply just_mono. }
    destruct r as [o|err].
    + unfold build_tx_result. cbn [cx_env]. pose proof (after_transact_tame (bk_env b) (job_slot job 0) (jb_envelope job) d K1 (Ok o) HP1) as Hsnd.
      cbn in Htree, Hsnd. destruct (settle _ _ _ _ _) as [[state price]|]; [|done].
      apply (of_state_wp job m1 reads1 _ (EndRan (oc_result o) state price)); [apply H1|done| |by exists K1|].
      * by apply Htree.
      * intros delta. unfold worker_receipt. by rewrite Ed.
    + unfold skipped. destruct (rejected _ _ _ _) as [s|] eqn:Es; [|done].
      apply (job_skip_wp job m1 reads1 s); [apply H1|done..| |by exists K1]. intros m' reads' st Hg Hr Hc. apply Htree; [done..|]. cbn.
      unfold job_slot. rewrite Es. unfold tbind_ok. by eapply can_bind.
  - unfold job_skip. cbn. exists (EndSkip (undecodable (skipped job (ee_block_number (bk_env b)))) None). split; try done.
    + unfold job_tree. by rewrite Ed.
    + exists ∅. split; [split; constructor|split; [constructor|done]].
Qed.
End transaction.

(** ** The machine *)

Section machine.
Context `{Evm} `{Content} (b : Block) (V0 : View) (Hin : input_is b V0).

(** The jobs are numbered by their place, and their transactions are tame. *)
Definition jobs_ok : Prop :=
  ∀ i job, bk_jobs b !! i = Some job →
    local_idx job = N.of_nat i ∧ tx_tame (bk_env b) (jb_envelope job) (jb_decoded job).

Definition status_ok (job : TxJob) (m : Mem) (s : Status) : Prop :=
  match s with
  | Waiting => owned (local_idx job) m [] []
  | Running t => wp (rely b (local_idx job)) (guar b (local_idx job)) m t (good_cell b V0 job)
  | Finished r => good_cell b V0 job m r
  end.

Record machine_ok (m : Machine) : Prop := {
  machine_mem : mem_ok b (mc_mem m);
  machine_txs : Forall2 (λ job s, status_ok job (mc_mem m) s) (bk_jobs b) (mc_txs m);
  machine_others : ∀ j, (N.of_nat (length (bk_jobs b)) ≤ j)%N → owned j (mc_mem m) [] [];
}.

Lemma status_rely job m m' s : rely b (local_idx job) m m' → status_ok job m s → status_ok job m' s.
Proof.
  intros Hr. destruct s as [|t|r]; cbn.
  - apply owned_same, Hr.
  - apply wp_rely; [apply _|intros ???; apply good_cell_rely|done].
  - by apply good_cell_rely.
Qed.

Lemma rely_refl i m : mem_ok b m → rely b i m m.
Proof. by split; [|split]. Qed.

(** A move of one transaction. *)
Lemma machine_move m i job s mem : jobs_ok → machine_ok m → bk_jobs b !! i = Some job →
  guar b (local_idx job) (mc_mem m) mem → status_ok job mem s → machine_ok (mkMachine mem (<[i := s]> (mc_txs m))).
Proof.
  intros Hjobs [Hmem Htxs Hot] Hi HG Hs. split; [apply HG| |]; cycle 1.
  { intros j Hj. eapply owned_same; [|by apply Hot]. apply HG. rewrite (proj1 (Hjobs _ _ Hi)). apply lookup_lt_Some in Hi. lia. }
  cbn. apply Forall2_same_length_lookup. split.
  { rewrite length_insert. by eapply Forall2_length. }
  intros j job' s' Hj Hs'. destruct (decide (i = j)) as [<-|Hne].
  - rewrite list_lookup_insert_eq in Hs' by (rewrite <-(Forall2_length _ _ _ Htxs); by eapply lookup_lt_Some).
    rewrite Hi in Hj. by simplify_eq.
  - rewrite list_lookup_insert_ne in Hs' by done. eapply status_rely.
    + apply (guar_rely b (local_idx job)); [|exact HG]. rewrite (proj1 (Hjobs _ _ Hi)), (proj1 (Hjobs _ _ Hj)). lia.
    + by eapply (Forall2_lookup_lr _ _ _ _ _ _ Htxs).
Qed.

Lemma step_ok m i : jobs_ok → machine_ok m → machine_ok (step b i m).
Proof.
  intros Hjobs Hm. pose proof Hm as [Hmem Htxs _]. unfold step. destruct (mc_txs m !! i) as [s|] eqn:Es; [|done].
  destruct (bk_jobs b !! i) as [job|] eqn:Ej; [|by destruct s as [|[]|]]. pose proof (Forall2_lookup_lr _ _ _ _ _ _ Htxs Ej Es) as Hs.
  destruct (Hjobs _ _ Ej) as [_ Ht]. destruct s as [|[r|X e k]|r]; [| | |done].
  - eapply machine_move; [done..|by apply guar_refl|]. by apply run_job_wp.
  - by eapply machine_move; [done..|apply guar_refl|].
  - cbn in Hs. specialize (Hs _ (rely_refl _ _ Hmem)). destruct (access (mc_mem m) e) as [x mem]. destruct Hs as [HG Hw].
    by eapply machine_move.
Qed.

(** A fresh memory: no versions, no codes, and a base cache of the backend. *)
Record fresh (m : Mem) : Prop := {
  fresh_ok : mem_ok b m;
  fresh_accounts : ∀ a, acc_versions (mem_mv m) a = [];
  fresh_slots : ∀ k, slot_versions (mem_mv m) k = [];
}.

Lemma run_schedule_ok mem schedule : jobs_ok → fresh mem → machine_ok (run_schedule b mem schedule).
Proof.
  intros Hjobs [Hok Ha Hs]. unfold run_schedule.
  assert (machine_ok (start b mem)) as Hstart.
  { assert (∀ j, owned j mem [] []) as Hnone by (intros j; split; intros; [rewrite Ha|rewrite Hs]; by rewrite !elem_of_nil).
    split; [done| |by intros j _]. apply Forall2_same_length_lookup. cbn. split; [by rewrite length_replicate|].
    intros i job s _ [-> _]%lookup_replicate. apply Hnone. }
  revert Hstart. generalize (start b mem). induction schedule as [|i schedule IH]; intros m Hm; cbn; [done|].
  by apply IH, step_ok.
Qed.

(** What the result cells of a drained block hold. *)
Lemma results_good mem schedule rs : jobs_ok → fresh mem → let m := run_schedule b mem schedule in
  results m = (Some ∘ Ok) <$> rs → mem_ok b (mc_mem m) ∧
  (∀ j, (N.of_nat (length (bk_jobs b)) ≤ j)%N → owned j (mc_mem m) [] []) ∧ Forall2 (λ job r, ∃ e, good b V0 job (mc_mem m) r e) (bk_jobs b) rs.
Proof.
  intros Hjobs Hfresh m Hres. destruct (run_schedule_ok mem schedule Hjobs Hfresh) as [Hmem Htxs Hot]. split; [done|]. split; [done|]. fold m in Htxs.
  assert (length (mc_txs m) = length rs) as Hlen by (apply (f_equal length) in Hres; unfold results in Hres; by rewrite !length_fmap in Hres).
  apply Forall2_same_length_lookup. split; [rewrite <-Hlen; by eapply Forall2_length|]. intros i job r Hj Hr.
  apply (f_equal (.!! i)) in Hres. unfold results in Hres. rewrite !list_lookup_fmap, Hr in Hres. cbn in Hres.
  destruct (mc_txs m !! i) as [s|] eqn:Es; [|done]. cbn in Hres. pose proof (Forall2_lookup_lr _ _ _ _ _ _ Htxs Hj Es) as Hs.
  destruct s as [| |c]; [done..|]. by injection Hres as ->.
Qed.
End machine.
