(* ===== verification/StmCredit.v ===== *)
(** * The fee sink of Block-STM

    A transaction runs over the sink as it was at the start of the block, and the
    serial prefix moves the sink's entry to the running balance. For a transaction
    that neither reads nor spends the sink's balance the moved write set is the one
    of the sequential run, tip settlement included. *)
From S2P Require Import Prelude Bytes Types Fees WriteSet WriteSetSpec Effects ExecScope ExecScopeSpec ExecSample ExecBlockSpec StmMv StmMvSpec StmView StmWorker.
From S2P Require Import StmTail StmInv.

(** ** Entries *)

Section entries.
Context {V : Type}.
Implicit Types l : list (Address * V).

Lemma find_entry_update k k' f l : find_entry k (update_entry k' f l) = if decide (k = k') then f <$> find_entry k l else find_entry k l.
Proof.
  induction l as [|[x v] l IH]; cbn; [by case_decide|]. destruct (decide (x = k')) as [->|Hx]; cbn; rewrite ?IH; repeat case_decide; simplify_eq; done.
Qed.

Lemma update_entry_absent k f l : find_entry k l = None → update_entry k f l = l.
Proof. induction l as [|[x v] l IH]; cbn; [done|]. case_decide; [done|]. intros Hn. by rewrite IH. Qed.

Lemma update_entry_ext k f g l v : find_entry k l = Some v → f v = g v → update_entry k f l = update_entry k g l.
Proof.
  intros Hv Hfg. induction l as [|[x w] l IH]; cbn in *; [done|]. case_decide; [|by rewrite IH]. injection Hv as ->. by rewrite Hfg.
Qed.

Lemma update_entry_twice k f g l : update_entry k f (update_entry k g l) = update_entry k (f ∘ g) l.
Proof. induction l as [|[x v] l IH]; cbn; [done|]. case_decide; cbn; [rewrite decide_True by done|rewrite decide_False, IH by done]; done. Qed.

Lemma update_entry_comm k k' f g l : k ≠ k' → update_entry k f (update_entry k' g l) = update_entry k' g (update_entry k f l).
Proof. intros Hne. induction l as [|[x v] l IH]; cbn; [done|]. repeat (case_decide; cbn); simplify_eq; try done. by rewrite IH. Qed.

(** On distinct keys an update is a map that keeps them. *)
Definition at_key (k : Address) (f : V → V) (e : Address * V) : Address * V := if decide (e.1 = k) then (e.1, f e.2) else e.

Lemma at_key_fst k f l : (at_key k f <$> l).*1 = l.*1.
Proof. induction l as [|[x v] l IH]; [done|]. rewrite !fmap_cons, IH. unfold at_key. by case_decide. Qed.

Lemma update_entry_map k f l : NoDup l.*1 → update_entry k f l = at_key k f <$> l.
Proof.
  induction l as [|[x v] l IH]; cbn; [done|]. intros [Hni Hnd]%NoDup_cons. unfold at_key at 1. cbn. case_decide as Hx; [|by rewrite IH].
  f_equal. rewrite <-IH by done. symmetry. apply update_entry_absent. destruct (find_entry k l) as [w|] eqn:E; [|done].
  apply find_entry_elem in E. subst k. destruct Hni. by apply (list_elem_of_fmap_2 fst _ (x, w)).
Qed.

Lemma merge_sort_at_key k f l : NoDup l.*1 → merge_sort entry_le (at_key k f <$> l) = at_key k f <$> merge_sort entry_le l.
Proof.
  intros Hnd. apply (StronglySorted_unique_strong entry_le).
  - intros [x v] [y w]. rewrite !(merge_sort_Permutation entry_le). intros Hx Hy Hle Hle'.
    unfold entry_le in *. cbn in *. assert (x = y) as -> by (by apply key_le_eq). f_equal.
    eapply (NoDup_fmap_fst_eq (at_key k f <$> l)); [by rewrite at_key_fst|exact Hx|exact Hy].
  - apply (StronglySorted_merge_sort entry_le).
  - assert (∀ l, StronglySorted entry_le l → StronglySorted entry_le (at_key k f <$> l)) as Hmap.
    { clear. induction 1 as [|x l Hl IH Hall]; [constructor|]. rewrite fmap_cons. constructor; [done|]. apply Forall_fmap.
      eapply Forall_impl; [exact Hall|]. intros y. unfold entry_le, compose, at_key. by repeat case_decide. }
    apply Hmap, (StronglySorted_merge_sort entry_le).
  - by rewrite !(merge_sort_Permutation entry_le).
Qed.
End entries.

(** ** Credits *)

(** The balance that was [B] is [B']. *)
Definition credit (B B' : N) (acc : Account) : Account := with_balance (B' + (info_balance (acc_info acc) - B)) acc.

(** The write set of a credited state is the patched write set. *)
Lemma credit_ws sink B B' st : state_keys st →
  WriteSet.from_evm_state (update_entry sink (credit B B') st) =
  match WriteSet.account (WriteSet.from_evm_state st) sink with
  | Some f => patch_sink sink (B' + (af_balance f - B)) (WriteSet.from_evm_state st)
  | None => WriteSet.from_evm_state st
  end.
Proof.
  intros Hk. pose proof Hk as [Hnd _]. destruct (from_state_nodup st Hk) as [Hna _]. revert Hna.
  rewrite update_entry_map by done. rewrite !from_evm_state_parts. unfold WriteSet.finish, WriteSet.account. cbn [WriteSet.accounts WriteSet.storage WriteSet.code].
  set (g f := mkFields (af_nonce f) (B' + (af_balance f - B)) (af_code_hash f)).
  assert ((at_key sink (credit B B') <$> st) ≫= storage_part = st ≫= storage_part) as ->.
  { clear. induction st as [|[a acc] st IH]; [done|]. rewrite fmap_cons, !bind_cons, IH. f_equal. unfold at_key. by case_decide. }
  assert ((at_key sink (credit B B') <$> st) ≫= code_part = st ≫= code_part) as ->.
  { clear. induction st as [|[a acc] st IH]; [done|]. rewrite fmap_cons, !bind_cons, IH. f_equal. unfold at_key. by case_decide. }
  assert ((at_key sink (credit B B') <$> st) ≫= account_part = at_key sink g <$> (st ≫= account_part)) as ->.
  { clear. induction st as [|[a acc] st IH]; [done|]. rewrite fmap_cons, !bind_cons, fmap_app, IH. f_equal.
    unfold account_part, at_key. cbn. case_decide as Ha; cbn; (destruct (touched acc); cbn; [|done]); [by rewrite decide_True|by rewrite decide_False]. }
  intros Hna. assert (NoDup (st ≫= account_part).*1) as Hna' by (by rewrite (merge_sort_Permutation entry_le) in Hna).
  rewrite merge_sort_at_key, <-update_entry_map by done. destruct (find_entry sink _) as [f|] eqn:E.
  - unfold patch_sink. cbn. f_equal. by eapply update_entry_ext.
  - by rewrite update_entry_absent.
Qed.

(** Settlement moves with the sink. *)
Lemma settle_credit `{Evm} fees block gas caller B B' st st1 price1 st2 price2 : caller ≠ beneficiary block →
  (∀ acc, find_entry (beneficiary block) st = Some acc → (B ≤ info_balance (acc_info acc))%N) →
  settle fees block gas st caller = Ok (st1, price1) →
  settle fees block gas (update_entry (beneficiary block) (credit B B') st) caller = Ok (st2, price2) →
  price1 = price2 ∧ st2 = update_entry (beneficiary block) (credit B B') st1 ∧
  ∀ acc, find_entry (beneficiary block) st1 = Some acc → (B ≤ info_balance (acc_info acc))%N.
Proof.
  intros Hne HB. unfold settle. set (sink := beneficiary block) in *. destruct (TipSettlement.settlement_of _ _ _) as [tip|]; [|intros [= <- <-] [= <- <-]; by auto].
  unfold TipSettlement.apply. destruct (TipSettlement.extra tip =? 0)%N; [cbn; intros [= <- <-] [= <- <-]; by auto|].
  unfold TipSettlement.account. rewrite find_entry_update, decide_False by done. destruct (find_entry caller st) as [debit|] eqn:Ed; cbn; [|done].
  destruct (u256_checked_sub _ _) as [b1|]; cbn; [|done]. assert (sink ≠ caller) as Hne' by done.
  rewrite !find_entry_update, !(decide_False _ _ Hne'), (decide_True (P := sink = sink)) by done.
  destruct (find_entry sink st) as [c|] eqn:Es; cbn; [|done]. specialize (HB c eq_refl). unfold u256_checked_add.
  destruct (N.leb_spec (info_balance (acc_info c) + TipSettlement.extra tip) u256_max); cbn; [|done].
  destruct (N.leb_spec (B' + (info_balance (acc_info c) - B) + TipSettlement.extra tip) u256_max); cbn; [|done].
  intros [= <- <-] [= <- <-]. split; [done|]. split.
  - rewrite (update_entry_comm caller sink) by done. rewrite !update_entry_twice.
    eapply update_entry_ext; [rewrite find_entry_update, decide_False by done; exact Es|]. unfold credit, compose. destruct c as [[] ? ? ?]. cbn in *.
    unfold with_balance. cbn. do 2 f_equal. lia.
  - intros acc. rewrite find_entry_update, decide_True, find_entry_update, decide_False, Es by done. cbn. intros [= <-]. cbn. lia.
Qed.

(** ** Transactions that leave the sink alone *)

Definition balance_of (s : option AccountFields) : N := match s with Some a => af_balance a | None => 0%N end.

(** The view with the sink of the start of the block. *)
Definition reset_sink (sink : Address) (s : option AccountFields) (V : View) : View :=
  mkView (λ a, if decide (a = sink) then s else v_basic V a) (v_storage V).

Lemma reset_sink_proper sink s V W : V ≡ W → reset_sink sink s V ≡ reset_sink sink s W.
Proof. intros [H1 H2]. split; intros; cbn; [case_decide|]; auto. Qed.

Section blind.
Context `{Evm} `{Content}.

(** Over the sink of the start and over the sink of the view, the EVM answers the
    same, but for what it added to the sink's balance. *)
Definition blind (sink : Address) (s : option AccountFields) (V : View) (t : Tree DbE (result EVMError ResultAndState)) : Prop :=
  match run (view_answer (reset_sink sink s V)) t, run (view_answer V) t with
  | Ok o, Ok o' =>
    oc_result o' = oc_result o ∧ oc_state o' = update_entry sink (credit (balance_of s) (balance_of (v_basic V sink))) (oc_state o) ∧
    ∀ acc, find_entry sink (oc_state o) = Some acc → (balance_of s ≤ info_balance (acc_info acc))%N
  | Err e, Err e' => e' = e
  | _, _ => False
  end.

(** The sink sends nothing, and no transaction looks at it. *)
Definition tx_blind (env : ExecEnv) (s : option AccountFields) (V : View) (envelope : TxEnvelope) (d : option (AlloyEnvelope Authorization)) : Prop :=
  let sink := beneficiary (ee_fees env) in
  te_sender envelope ≠ sink ∧
  match d with Some d => blind sink s V (transact env (DecodedTx.tx_env d (te_sender envelope))) | None => True end.

(** Two ends of one record that differ by the sink's balance. *)
Definition shifted (sink : Address) (B B' : N) (e0 e : Ending) : Prop :=
  match e0, e with
  | EndSkip s st, EndSkip s' st' => s' = s ∧ st' = st ∧ find_entry sink (default [] st) = None
  | EndRan r st price, EndRan r' st' price' =>
    r' = r ∧ price' = price ∧ st' = update_entry sink (credit B B') st ∧
    ∀ acc, find_entry sink st = Some acc → (B ≤ info_balance (acc_info acc))%N
  | _, _ => False
  end.

Lemma burn_reset sink s V sk features : te_sender (sr_envelope (sk_record sk)) ≠ sink →
  run (view_answer (reset_sink sink s V)) (burn_state sk features) = run (view_answer V) (burn_state sk features) ∧
  ∀ st, run (view_answer V) (burn_state sk features) = Ok st → find_entry sink (default [] st) = None.
Proof.
  intros Hne. unfold burn_state. destruct (sk_burnable sk); cbn; [|split; [done|by intros st [= <-]]]. unfold burn_account_state.
  destruct (sealer_v3 features); cbn; [|split; [done|by intros st [= <-]]]. rewrite decide_False by done. split; [done|]. intros st.
  destruct (u64_checked_add _ 1); [|by intros [= <-]]. destruct (_ =? _)%N; [|by intros [= <-]]. intros [= <-]. cbn. by rewrite decide_False.
Qed.

Lemma tx_tree_shifted env slot envelope d s V e0 e : let sink := beneficiary (ee_fees env) in tx_blind env s V envelope d →
  run (view_answer (reset_sink sink s V)) (tx_tree env slot envelope d) = Ok e0 →
  run (view_answer V) (tx_tree env slot envelope d) = Ok e → shifted sink (balance_of s) (balance_of (v_basic V sink)) e0 e.
Proof.
  intros sink [Hne Hb]. destruct d as [d|]; cbn [tx_tree]; [|by intros [= <-] [= <-]]. rewrite !run_bind. unfold blind in Hb. fold sink in Hb.
  destruct (run _ (transact _ _)) as [o|err], (run (view_answer V) (transact _ _)) as [o'|err']; try done; cbn [after_transact].
  - destruct Hb as (Hr & Hst & HB). rewrite Hr, Hst. cbn [run].
    destruct (settle _ _ _ (oc_state o) _) as [[st1 p1]|] eqn:E1; [|done].
    destruct (settle _ _ _ (update_entry _ _ _) _) as [[st2 p2]|] eqn:E2; [|done]. intros [= <-] [= <-].
    destruct (settle_credit _ _ _ _ _ _ _ _ _ _ _ Hne HB E1 E2) as (<- & -> & HB'). done.
  - subst err'. destruct (rejected _ err _ _) as [sk|] eqn:Er; [|done].
    assert (te_sender (sr_envelope (sk_record sk)) ≠ sink) as Hsk.
    { destruct err as [it| | |]; cbn in Er; try done; by injection Er as <-. }
    destruct (burn_reset sink s V sk (ee_features env) Hsk) as [Heq Hnone]. rewrite !run_bind_ok, Heq.
    destruct (run (view_answer V) _) as [st|]; [|done]. intros [= <-] [= <-]. by split; [|split; [|apply Hnone]].
Qed.

(** ** The running gas *)

Definition at_cumulative (c : N) (e : Ending) : Ending :=
  match e with EndSkip s st => EndSkip (with_cumulative c s) st | EndRan _ _ _ => e end.

Lemma tx_tree_cumulative h env idx pos i c envelope d :
  run h (tx_tree env (mkTxSlot idx pos i c) envelope d) =
  match run h (tx_tree env (mkTxSlot idx pos i 0) envelope d) with Ok e => Ok (at_cumulative c e) | Err e => Err e end.
Proof.
  destruct d as [d|]; cbn [tx_tree]; [|done]. rewrite !run_bind. destruct (run h (transact _ _)) as [o|err]; cbn [after_transact].
  - cbn [run]. by destruct (settle _ _ _ _ _) as [[st p]|].
  - destruct err as [it| | |]; cbn [rejected run]; try done; rewrite !run_bind_ok; unfold burn_state; cbn [sk_burnable sk_record sr_envelope sk_nonce];
      by destruct (run h _) as [st|].
Qed.

Lemma at_cumulative_state c e : ending_state (at_cumulative c e) = ending_state e.
Proof. by destruct e. Qed.

(** ** The patched result *)

Lemma shifted_ws sink B B' e0 e : shifted sink B B' e0 e → (∃ K, ending_sound K (Ok e0)) →
  ending_ws e = match WriteSet.account (ending_ws e0) sink with
                | Some f => patch_sink sink (B' + (af_balance f - B)) (ending_ws e0)
                | None => ending_ws e0
                end ∧
  ∀ f, WriteSet.account (ending_ws e0) sink = Some f → (B ≤ af_balance f)%N.
Proof.
  intros Hsh (K & Hk & _). unfold ending_ws. pose proof (account_from_state (ending_state e0) sink (proj1 Hk)) as Ha.
  destruct e0 as [s st|r st p], e as [s' st'|r' st' p']; cbn in Hsh; try done.
  - destruct Hsh as (_ & -> & Hn). cbn [ending_state] in *. by rewrite Ha, Hn.
  - destruct Hsh as (_ & _ & -> & HB). cbn [ending_state] in *. rewrite <-credit_ws by done. split; [done|]. intros f. rewrite Ha.
    destruct (find_entry sink st) as [acc|]; cbn; [|done]. destruct (touched acc); [|done]. intros [= <-]. by apply HB.
Qed.

Lemma account_patch sink x ws a : WriteSet.account (patch_sink sink x ws) a =
  if decide (a = sink) then (λ f, mkFields (af_nonce f) x (af_code_hash f)) <$> WriteSet.account ws a else WriteSet.account ws a.
Proof. apply find_entry_update. Qed.
End blind.

(** ** The input of a block

    A worker searches the layers one by one, newest first; the repair merges them
    into one delta. Both are one view of the state before the block. *)

(** ** Searching and merging *)

Lemma find_map_app {A B} (f : A → option B) l l' :
  BlockInput.find_map f (l ++ l') = match BlockInput.find_map f l with Some y => Some y | None => BlockInput.find_map f l' end.
Proof. induction l as [|x l IH]; cbn; [done|]. rewrite IH. by destruct (f x). Qed.

Lemma find_map_ext {A B} (f g : A → option B) l : (∀ x, x ∈ l → f x = g x) → BlockInput.find_map f l = BlockInput.find_map g l.
Proof. induction l as [|x l IH]; intros Hfg; cbn; [done|]. rewrite Hfg by set_solver. destruct (g x); [done|]. apply IH. set_solver. Qed.

Lemma find_map_Some {A B} (f : A → option B) l y : BlockInput.find_map f l = Some y → ∃ x, x ∈ l ∧ f x = Some y.
Proof. induction l as [|x l IH]; cbn; [done|]. destruct (f x) eqn:E; [intros [= ->]; exists x; set_solver|]. intros (x' & ? & ?)%IH. exists x'. set_solver. Qed.

(** A map of the deltas that a merge overlays. *)
Definition overlays {K V} `{Countable K} (get : PendingDelta.t → gmap K V) : Prop :=
  ∀ d d', get (PendingDelta.merge_from d d') = get d' ∪ get d.

Lemma merge_lookup {K V A} `{Countable K} (get : PendingDelta.t → gmap K V) (f : A → PendingDelta.t) l base k : overlays get →
  get (fold_left (λ d x, PendingDelta.merge_from d (f x)) (rev l) base) !! k =
  match BlockInput.find_map (λ x, get (f x) !! k) l with Some v => Some v | None => get base !! k end.
Proof.
  intros Hget. induction l as [|x l IH]; [done|]. cbn [rev]. rewrite fold_left_app. cbn. rewrite Hget, lookup_union, IH.
  destruct (get (f x) !! k); by destruct (BlockInput.find_map _ _), (get base !! k).
Qed.

Section input.
Context `{Evm} `{Content} (b : Block).
Abbreviation mvs := (bl_mv_layers (bk_bound b)).

Lemma repair_base_lookup {K V} `{Countable K} (get : PendingDelta.t → gmap K V) k : overlays get →
  get (repair_base b) !! k =
  match BlockInput.find_map (λ mv, get (MvCache.final_delta mv) !! k) mvs with
  | Some v => Some v
  | None => BlockInput.find_map (λ d, get d !! k) (BlockInput.deltas (block_input b))
  end.
Proof.
  intros Hget. unfold repair_base. rewrite (merge_lookup get MvCache.final_delta) by done.
  destruct (BlockInput.find_map _ mvs); [done|]. change PendingDelta.merge_from with (λ d x, PendingDelta.merge_from d (id x)).
  rewrite (merge_lookup get id) by done. unfold BlockInput.deltas. cbn. rewrite find_map_app. cbn.
  destruct (BlockInput.find_map _ _); [done|]. by destruct (get (bk_base b) !! k).
Qed.

(** The layers of a session: the codes are the codes of their hashes, and the
    versions of a predecessor's cache are below the index that reads it all. *)
Record layers_ok : Prop := {
  layers_codes : ∀ d h c, d ∈ BlockInput.deltas (block_input b) → PendingDelta.code d !! h = Some c → c = code_of h;
  layers_mv : ∀ mv, mv ∈ mvs → mv_ok mv;
  layers_mv_codes : ∀ mv h c, mv ∈ mvs → MvCache.code mv !! h = Some c → c = code_of h;
  layers_mv_accounts : ∀ mv a j f, mv ∈ mvs → (j, f) ∈ acc_versions mv a → (j < BlockInput.u32_MAX)%N;
  layers_mv_slots : ∀ mv k j v, mv ∈ mvs → (j, v) ∈ slot_versions mv k → (j < BlockInput.u32_MAX)%N;
}.

(** A read above every version is the last one. *)
Lemma read_all {V} (l : Versions V) idx : sorted l → (∀ j v, (j, v) ∈ l → (j < idx)%N) → snd <$> version_read idx l = snd <$> last l.
Proof.
  intros Hs Hidx. destruct (last l) as [[j v]|] eqn:E; [by rewrite (sorted_last l j v Hs E)|]. by apply last_None in E as ->.
Qed.

Lemma layered_account_merged a : layers_ok →
  BlockInput.layered_account (block_input b) a = account_info <$> PendingDelta.accounts (repair_base b) !! a.
Proof.
  intros Hl. rewrite (repair_base_lookup PendingDelta.accounts) by done. unfold BlockInput.layered_account. cbn [BlockInput.mv_layers block_input].
  rewrite (find_map_ext (λ mv, PendingDelta.accounts (MvCache.final_delta mv) !! a) (λ mv, snd <$> MvCache.read_account mv BlockInput.u32_MAX a)).
  - induction mvs as [|mv l IH]; cbn; [by destruct (BlockInput.find_map _ _)|]. by destruct (MvCache.read_account _ _ _) as [[j f]|].
  - intros mv Hmv. pose proof (layers_mv Hl mv Hmv) as Hok. rewrite final_delta_account, read_account_versions by done. symmetry.
    apply read_all; [by apply acc_sorted|]. intros j f. by apply (layers_mv_accounts Hl).
Qed.

Lemma layered_slot_merged a k : layers_ok →
  BlockInput.layered_slot (block_input b) a k = PendingDelta.storage (repair_base b) !! (a, k).
Proof.
  intros Hl. rewrite (repair_base_lookup PendingDelta.storage) by done. unfold BlockInput.layered_slot. cbn [BlockInput.mv_layers block_input].
  rewrite (find_map_ext (λ mv, PendingDelta.storage (MvCache.final_delta mv) !! (a, k)) (λ mv, snd <$> MvCache.read_slot mv BlockInput.u32_MAX a k)).
  - induction mvs as [|mv l IH]; cbn; [done|]. by destruct (MvCache.read_slot _ _ _ _) as [[j f]|].
  - intros mv Hmv. pose proof (layers_mv Hl mv Hmv) as Hok. rewrite final_delta_slot, read_slot_versions by done. symmetry.
    apply read_all; [by apply slot_sorted|]. intros j v. by apply (layers_mv_slots Hl).
Qed.

Lemma final_delta_code mv h : PendingDelta.code (MvCache.final_delta mv) !! h = MvCache.code mv !! h.
Proof.
  cbn. rewrite extend_lookup by (intros ???; rewrite !elem_of_map_to_list; congruence). rewrite find_entry_map_to_list, lookup_empty.
  by destruct (MvCache.code mv !! h).
Qed.

(** What the merged delta knows, the search finds. *)
Lemma knows_merged h : layers_ok → delta_knows (snapshot_knows (bk_snapshot b)) (repair_base b) h → base_knows b h.
Proof.
  intros Hl Hk. unfold base_knows, BlockInput.code_by_hash_ref. cbn [BlockInput.mv_layers BlockInput.snapshot block_input]. unfold MvCache.read_code.
  destruct (BlockInput.find_map _ mvs) as [c|] eqn:Em.
  { apply find_map_Some in Em as (mv & Hmv & Hc). f_equal. by eapply (layers_mv_codes Hl). }
  match goal with |- context [BlockInput.find_map ?f ?l] => destruct (BlockInput.find_map f l) as [c|] eqn:Ed end.
  { apply find_map_Some in Ed as (d & Hd & Hc). apply bind_Some in Hc as (c' & Hc & Hne). case_bool_decide; [done|]. injection Hne as <-.
    f_equal. by eapply (layers_codes Hl). }
  destruct Hk as [|(c & Hc & Hne)]; [done|]. rewrite (repair_base_lookup PendingDelta.code) in Hc by done.
  rewrite (find_map_ext _ (λ mv, MvCache.code mv !! h)), Em in Hc by (intros; apply final_delta_code).
  apply not_eq_None_Some in Ed; [done|]. clear -Hc Hne. change (BlockInput.deltas _) with (BlockInput.deltas (block_input b)).
  induction (BlockInput.deltas (block_input b)) as [|d l IH]; cbn in *; [done|].
  destruct (PendingDelta.code d !! h) as [c'|]; cbn; [|by apply IH]. injection Hc as ->. by rewrite bool_decide_eq_false_2.
Qed.

(** The workers of a block see the merged delta over the snapshot. *)
Lemma merged_input Vs : let V0 := overlay_delta Vs (repair_base b) in
  snapshot_is (bk_snapshot b) Vs → delta_sound (snapshot_knows (bk_snapshot b)) Vs (repair_base b) → layers_ok →
  bl_sink_start (bk_bound b) = v_basic V0 (bk_sink b) → input_is b V0.
Proof.
  intros V0 (Hb & Hst & _) Hd Hl Hsink. split.
  - intros a _. unfold BlockInput.basic_ref. rewrite layered_account_merged by done. cbn [V0 overlay_delta v_basic].
    destruct (PendingDelta.accounts _ !! a); cbn; [done|apply Hb].
  - done.
  - intros a k. unfold BlockInput.storage_ref. rewrite layered_slot_merged by done. cbn [V0 overlay_delta v_storage].
    destruct (PendingDelta.storage _ !! (a, k)); cbn; [done|apply Hst].
  - eapply closed_mono; [|apply Hd]. intros h. by apply knows_merged.
  - apply knows_merged; [done|]. left. unfold snapshot_knows. by rewrite code_of_empty.
Qed.

(** A session over delta layers reads the sink it starts from. *)
Lemma bind_sink Vs layers : let V0 := overlay_delta Vs (repair_base b) in
  snapshot_is (bk_snapshot b) Vs → layers_ok → bind (bk_snapshot b) (bk_base b) (bk_sink b) (Deltas layers) = Ok (bk_bound b) →
  bl_sink_start (bk_bound b) = v_basic V0 (bk_sink b) ∧ bl_sink_start_balance (bk_bound b) = balance_of (bl_sink_start (bk_bound b)).
Proof.
  intros V0 (Hb & _ & _) Hl. unfold bind. destruct (BlockInput.basic_ref _ _) as [s|] eqn:E; [|done]. intros [= Hbd].
  assert (block_input b = BlockInput.mk (bk_snapshot b) (Some (bk_base b)) layers []) as Hin by (unfold block_input; by rewrite <-Hbd).
  rewrite <-Hin in E. rewrite <-Hbd. cbn. split; [|by destruct s]. revert E. unfold BlockInput.basic_ref. rewrite layered_account_merged by done.
  destruct (PendingDelta.accounts _ !! _); cbn; [by intros [= <-]|]. rewrite Hb. by intros [= <-].
Qed.
End input.
