(* ===== verification/StmLanes.v ===== *)
(** * The lanes of the commit tail

    The hash and validation lanes split a block in chunks and work in any order.
    They find the wounds and the hashes of the serial pass; and the fold of the
    write sets, which holds the fee sink back, is the fold of the sequential
    engine. *)
From S2P Require Import Prelude Bytes Types Fees WriteSet WriteSetSpec Effects ExecScope ExecSample.
From S2P Require Import StmMv StmView StmWorker StmTail.

(** ** Chunks *)

Lemma seq_bind_ranges c n j : seq 0 j ≫= (λ ci, range (ci * c, Nat.min (ci * c + c) n)) = seq 0 (Nat.min (j * c) n).
Proof.
  induction j as [|j IH]; [done|]. rewrite seq_S, bind_app, IH, bind_cons. cbn [mbind list_bind]. rewrite app_nil_r. unfold range. cbn [fst snd].
  destruct (decide (j * c ≤ n)%nat) as [Hle|Hgt].
  - rewrite (Nat.min_l (j * c) n) by lia. rewrite <-seq_app. f_equal. lia.
  - replace (Nat.min _ n - j * c)%nat with 0%nat by lia. cbn. rewrite app_nil_r. f_equal. lia.
Qed.

(** The chunks are the block. *)
Lemma chunks_cover workers n : (1 ≤ workers)%nat →
  seq 0 (n_chunks workers n) ≫= (λ ci, range (chunk_bounds workers n ci)) = seq 0 n.
Proof.
  intros Hw. unfold chunk_bounds. rewrite seq_bind_ranges. f_equal. unfold chunk_len. set (k := n_chunks workers n).
  case_decide as Hk; [unfold k, n_chunks in *; lia|]. apply Nat.min_r.
  pose proof (Nat.div_mod (n + k - 1) k Hk). pose proof (Nat.mod_upper_bound (n + k - 1) k Hk). nia.
Qed.

Lemma filter_bind {A B} (P : B → Prop) `{∀ x, Decision (P x)} (f : A → list B) l : filter P (l ≫= f) = l ≫= (λ x, filter P (f x)).
Proof. induction l as [|x l IH]; [done|]. by rewrite !bind_cons, filter_app, IH. Qed.

Lemma fold_left_bind {A B C} (f : A → list B) (g : C → B → C) l acc :
  fold_left g (l ≫= f) acc = fold_left (λ acc x, fold_left g (f x) acc) l acc.
Proof. revert acc. induction l as [|x l IH]; intros acc; [done|]. by rewrite bind_cons, fold_left_app, IH. Qed.

Section lanes.
Context `{Evm}.

(** The hash that the tail gives a result. *)
Definition tail_hash (r : TxResult) : B256 := match tr_sink_fee_delta r with Some _ => ws_hash (tr_ws r) | None => 0%N end.

Lemma hashes_lookup rs L h j : fold_left (λ h i, hash_one h rs i) L h !! j =
  match rs !! j with
  | Some r => if decide (j ∈ L) then match tr_sink_fee_delta r with Some _ => (λ _, ws_hash (tr_ws r)) <$> h !! j | None => h !! j end else h !! j
  | None => h !! j
  end.
Proof.
  revert h. induction L as [|i L IH]; intros h; cbn [fold_left].
  { destruct (rs !! j); [|done]. by rewrite decide_False by apply not_elem_of_nil. }
  rewrite IH. unfold hash_one. destruct (decide (i = j)) as [->|Hne].
  - destruct (rs !! j) as [r|]; [|done]. rewrite (decide_True (P := j ∈ j :: L)) by set_solver.
    destruct (tr_sink_fee_delta r); [|by case_decide]. rewrite list_lookup_insert.
    destruct (h !! j) as [x|] eqn:E; cbn.
    + apply lookup_lt_Some in E. by case_decide; case_decide; try lia.
    + apply lookup_ge_None in E. case_decide; case_decide; try lia; done.
  - assert (∀ x, <[i := x]> h !! j = h !! j) as Hj by (intros; by rewrite list_lookup_insert_ne).
    assert (match rs !! i with Some r => match tr_sink_fee_delta r with Some _ => <[i := ws_hash (tr_ws r)]> h | None => h end | None => h end !! j = h !! j) as ->.
    { destruct (rs !! i) as [r|]; [|done]. by destruct (tr_sink_fee_delta r). }
    destruct (rs !! j); [|done]. by destruct (decide (j ∈ L)), (decide (j ∈ i :: L)); set_solver.
Qed.

Lemma hashes_all rs L : (∀ j, (j < length rs)%nat → j ∈ L) →
  fold_left (λ h i, hash_one h rs i) L (replicate (length rs) 0%N) = tail_hash <$> rs.
Proof.
  intros HL. apply list_eq. intros j. rewrite hashes_lookup, list_lookup_fmap. destruct (rs !! j) as [r|] eqn:E; cbn.
  - apply lookup_lt_Some in E. rewrite decide_True by (by apply HL). rewrite lookup_replicate_2 by done. unfold tail_hash. by destruct (tr_sink_fee_delta r).
  - apply lookup_ge_None in E. apply lookup_replicate_None. lia.
Qed.

Lemma lanes_hashes_all workers order rs : (1 ≤ workers)%nat → order ≡ₚ seq 0 (n_chunks workers (length rs)) →
  lanes_hashes workers order rs = tail_hash <$> rs.
Proof.
  intros Hw Ho. unfold lanes_hashes, chunk_hash.
  rewrite <-(fold_left_bind (λ ci, range (chunk_bounds workers (length rs) ci)) (λ h i, hash_one h rs i)).
  apply hashes_all. intros j Hj. rewrite Ho, chunks_cover by done. apply elem_of_seq. lia.
Qed.

Lemma lanes_wounded_serial workers mv rs : (1 ≤ workers)%nat → lanes_wounded workers mv rs = serial_wounded mv rs.
Proof.
  intros Hw. unfold lanes_wounded, serial_wounded, chunk_validate. rewrite <-(chunks_cover workers (length rs) Hw), filter_bind. done.
Qed.

(** The receipts that the lanes commit. *)
Lemma lanes_commit workers order rs : (1 ≤ workers)%nat → order ≡ₚ seq 0 (n_chunks workers (length rs)) →
  commit_clean (lanes_hashes workers order rs) rs =
    (λ r, match tr_sink_fee_delta r with Some _ => with_hash (ws_hash (tr_ws r)) (tr_receipt r) | None => tr_receipt r end) <$> rs.
Proof.
  intros Hw Ho. rewrite (lanes_hashes_all workers order rs Hw Ho). clear. unfold commit_clean.
  induction rs as [|r rs IH]; cbn; [done|]. f_equal; [|exact IH]. unfold commit_one, tail_hash. by destruct (tr_sink_fee_delta r).
Qed.

(** C31. However many workers share the hash and validation lanes, and in whatever
    order their chunks finish, they find the wounds and the hashes of the serial
    pass: every index is visited, none twice, and none past the end. *)
Theorem lanes_equal_serial workers order mv rs : (1 ≤ workers)%nat → order ≡ₚ seq 0 (n_chunks workers (length rs)) →
  lanes_wounded workers mv rs = serial_wounded mv rs ∧ lanes_hashes workers order rs = serial_hashes rs ∧
  commit_clean (lanes_hashes workers order rs) rs =
    (λ r, match tr_sink_fee_delta r with Some _ => with_hash (ws_hash (tr_ws r)) (tr_receipt r) | None => tr_receipt r end) <$> rs.
Proof.
  intros Hw Ho. split; [by apply lanes_wounded_serial|]. split; [|by apply lanes_commit].
  rewrite (lanes_hashes_all workers order rs Hw Ho). symmetry. apply hashes_all. intros j Hj. apply elem_of_seq. lia.
Qed.

(** ** The fold *)

Lemma finish_absorb_account f a v : finish_fold (absorb_account f (a, v)) =
  let d := finish_fold f in PendingDelta.mk (<[a := v]> (PendingDelta.accounts d)) (PendingDelta.storage d) (PendingDelta.code d).
Proof.
  unfold finish_fold, absorb_account. destruct f as [d [w|] sink]; cbn; destruct (N.eqb_spec a sink) as [->|Hne]; cbn; try done.
  - by rewrite insert_insert_eq.
  - by rewrite insert_insert_ne.
Qed.

Lemma finish_absorb f ws : finish_fold (absorb f ws) = PendingDelta.apply (finish_fold f) ws.
Proof.
  unfold absorb, PendingDelta.apply.
  assert (∀ l f, finish_fold (fold_left absorb_account l f) =
    PendingDelta.mk (PendingDelta.extend (PendingDelta.accounts (finish_fold f)) l) (PendingDelta.storage (finish_fold f)) (PendingDelta.code (finish_fold f))) as Hl.
  { clear. induction l as [|[a v] l IH]; intros f; cbn [fold_left]; [by destruct (finish_fold f)|]. rewrite IH, finish_absorb_account. done. }
  specialize (Hl (WriteSet.accounts ws) f). revert Hl. generalize (fold_left absorb_account (WriteSet.accounts ws) f). intros f' Hl.
  unfold finish_fold in *. destruct f' as [[da ds dc] [w|] sink]; cbn in *; injection Hl as H1 H2 H3; by rewrite H1, H2, H3.
Qed.

Lemma fold_inline_apply rs sink : fold_inline rs sink = fold_left PendingDelta.apply (tr_ws <$> rs) PendingDelta.new.
Proof.
  unfold fold_inline. change PendingDelta.new with (finish_fold (mkFold PendingDelta.new None sink)) at 2. generalize (mkFold PendingDelta.new None sink).
  induction rs as [|r rs IH]; intros f; cbn; [done|]. by rewrite IH, finish_absorb.
Qed.
End lanes.

Lemma lanes_equal_serial_witness :
  let r d ws := mkResult (skip_receipt (undecodable (mkSkipped (mkTxSlot 0 (BPosition.from_index 0) 0 0) (mkTxEnvelope 0 [] 0 0 0) 0)) WriteSet.default).1 ws [RAccount 7 d] d in
  let rs := [r (Some 1); r None; r (Some 2)]%N in
  let rs := (λ f, f WriteSet.default) <$> rs in
  lanes_wounded 2 MvCache.new rs = [0; 2]%nat ∧ lanes_hashes 2 [1; 0] rs = serial_hashes rs.
Proof.
  intros r rs0 rs. destruct (lanes_equal_serial 2 [1; 0] MvCache.new rs) as (Hw & Hh & _); [lia|by apply Permutation_swap|].
  split; [rewrite Hw; by vm_compute|exact Hh].
Defined.
