(* ===== verification/StmSpec.v ===== *)
(** * Block-STM against the sequential engine

    Whatever the interleaving of the workers, the commit tail returns the receipts
    and the delta of the sequential engine: a result whose reads are still the
    latest is the result over the view of its predecessors, and from the first
    result that is not, the tail runs the block again. A fair schedule fills every
    result cell. *)
From S2P Require Import Prelude Bytes Types Fees WriteSet WriteSetSpec Effects ExecScope ExecScopeSpec ExecSample ExecBlockSpec StmMv StmMvSpec StmView StmWorker.
From S2P Require Import StmTail StmInv StmCredit StmLanes.

(** ** Versions *)

Lemma version_read_succ {V} i (l : Versions V) : sorted l →
  (∀ v, (i, v) ∈ l → version_read (i + 1) l = Some (i, v)) ∧
  ((∀ v, (i, v) ∉ l) → version_read (i + 1) l = version_read i l).
Proof.
  intros Hs. split.
  - intros v Hv. apply version_read_Some; [done|]. split; [done|]. split; [lia|]. intros; lia.
  - intros Hn. assert (∀ j v, (j, v) ∈ l → (j < i + 1)%N ↔ (j < i)%N) as Hlt.
    { intros j v Hj. assert (j ≠ i) by (intros ->; by eapply Hn). lia. }
    destruct (version_read i l) as [[j v]|] eqn:E.
    + apply version_read_Some in E as (Hj & Hji & Hmax); [|done]. apply version_read_Some; [done|]. split; [done|]. split; [lia|].
      intros j' v' Hj' Hlt'. apply (Hmax _ v'); [done|]. by apply (Hlt _ v').
    + rewrite version_read_None in E by done. apply version_read_None; [done|]. intros j v Hj. pose proof (E j v Hj). pose proof (Hlt j v Hj). lia.
Qed.

Lemma can_fun {E R} (A : ∀ X, E X → X → Prop) h (t : Tree E R) r :
  (∀ X e x, A X e x → x = h X e) → can A t r → run h t = r.
Proof. intros HA. induction t as [r'|X e k IH]; cbn; [done|]. intros (x & Hx & Hc). apply HA in Hx as ->. by apply IH. Qed.

Section views.
Context `{Evm} `{Content} (b : Block) (V0 : View) (F : Mem) (Hok : mem_ok b F).
Abbreviation sink := (bk_sink b).
Abbreviation s0 := (v_basic V0 sink).

(** What the final memory shows transaction [i]. *)
Definition stm_view (i : N) : View :=
  mkView
    (λ a, if decide (a = sink) then s0
          else match version_read i (acc_versions (mem_mv F) a) with Some (_, f) => Some (account_info f) | None => v_basic V0 a end)
    (λ a k, match version_read i (slot_versions (mem_mv F) (a, k)) with Some (_, v) => v | None => v_storage V0 a k end).

Lemma just_view i reads X e x : (∀ r, r ∈ reads → MvCache.validate (mem_mv F) i r = true) →
  just b V0 i F reads X e x → x = view_answer (stm_view i) X e.
Proof.
  intros Hv. pose proof (mem_mv_ok _ _ Hok) as Hmv. destruct e as [a|a k| |]; cbn; [|..|done|done].
  - case_decide; [by intros ->; subst|]. intros [(j & f & Hr & Hf & _ & ->)|[Hr ->]]; specialize (Hv _ Hr);
      apply bool_decide_eq_true in Hv; rewrite read_account_versions in Hv.
    + destruct (version_read i _) as [[j' f']|] eqn:E; [|done]. injection Hv as ->. apply version_read_latest in E as [Hf' _]; [|by apply acc_sorted].
      by rewrite (sorted_unique _ _ _ _ (acc_sorted _ a Hmv) Hf Hf').
    + by destruct (version_read i _).
  - intros [(j & f & Hr & Hf & _ & ->)|[Hr ->]]; specialize (Hv _ Hr); apply bool_decide_eq_true in Hv; rewrite read_slot_versions in Hv.
    + destruct (version_read i _) as [[j' f']|] eqn:E; [|done]. injection Hv as ->. apply version_read_latest in E as [Hf' _]; [|by apply slot_sorted].
      by rewrite (sorted_unique _ _ _ _ (slot_sorted _ (a, k) Hmv) Hf Hf').
    + by destruct (version_read i _).
Qed.

(** A result with valid reads is the result over that view. *)
Lemma good_run job r e i : good b V0 job F r e → local_idx job = N.of_nat i → stale (mem_mv F) i r = false →
  run (view_answer (stm_view (N.of_nat i))) (job_tree b job) = Ok e.
Proof.
  intros Hg Hi Hst. eapply can_fun; [|apply (good_tree _ _ _ _ _ _ Hg)]. intros X q x. rewrite Hi. apply just_view. intros rec Hrec.
  unfold stale in Hst. destruct (MvCache.validate _ _ rec) eqn:E; [done|]. apply not_true_iff_false in Hst. destruct Hst.
  apply existsb_exists. exists rec. rewrite E. split; [by apply list_elem_of_In|done].
Qed.

Lemma stm_view_0 : stm_view 0 ≡ reset_sink sink s0 V0.
Proof.
  assert (∀ {V} (l : Versions V), sorted l → version_read 0 l = None) as Hnone by (intros V l Hl; apply version_read_None; [done|lia]).
  pose proof (mem_mv_ok _ _ Hok) as Hmv. split; intros; cbn; [case_decide; [done|]|]; by rewrite Hnone by (by apply acc_sorted || apply slot_sorted).
Qed.

(** The next transaction sees what this one published. *)
Lemma stm_view_step i ws : owned i F (published sink (WriteSet.accounts ws)) (WriteSet.storage ws) →
  NoDup (WriteSet.accounts ws).*1 → NoDup (WriteSet.storage ws).*1 →
  stm_view (i + 1) ≡ reset_sink sink s0 (overlay (stm_view i) ws).
Proof.
  intros [Oa Os] Hna Hns. pose proof (mem_mv_ok _ _ Hok) as Hmv. split.
  - intros a. cbn. case_decide as Ha; [done|]. destruct (version_read_succ i _ (acc_sorted _ a Hmv)) as [Hin Hni].
    unfold WriteSet.account. destruct (find_entry a _) as [f|] eqn:E.
    + apply find_entry_elem in E. rewrite (Hin f); [done|]. apply Oa. unfold published. by apply list_elem_of_filter.
    + rewrite Hni; [done|]. intros f Hf%Oa. unfold published in Hf. apply list_elem_of_filter in Hf as [_ Hf].
      apply find_entry_nodup in Hf; [|done]. congruence.
  - intros a k. cbn. destruct (version_read_succ i _ (slot_sorted _ (a, k) Hmv)) as [Hin Hni].
    destruct (find_entry (a, k) _) as [v|] eqn:E; cbn.
    + apply find_entry_elem in E. by rewrite (Hin v) by (by apply Os).
    + rewrite Hni; [done|]. intros v Hv%Os. apply find_entry_nodup in Hv; [|done]. congruence.
Qed.
End views.

(** ** One kept result *)

Section kept.
Context `{Evm} `{Content} (b : Block) (V0 : View) (F : Mem) (Hok : mem_ok b F).
Abbreviation sink := (bk_sink b).
Abbreviation s0 := (v_basic V0 sink).
Context (HB : bl_sink_start_balance (bk_bound b) = balance_of s0).

(** The receipt that the tail commits. *)
Definition final_receipt (r : TxResult) : Receipt :=
  match tr_sink_fee_delta r with Some _ => with_hash (ws_hash (tr_ws r)) (tr_receipt r) | None => tr_receipt r end.

(** The receipt of the worker is the sequential one but for its hash, once the gas
    is added up. *)
Lemma worker_receipt_gas job c e0 e B B' delta receipt : (c ≤ u64_max)%N → shifted sink B B' e0 e →
  ending_receipt (bk_env b) (job_slot job c) (jb_envelope job) (jb_decoded job) (at_cumulative c e) = Ok receipt →
  let r := worker_receipt b job e0 delta in
  u64_checked_add c (gas_used r) = Some (cumulative_gas_used receipt) ∧
  ∀ h, with_hash h (with_cumulative_gas (cumulative_gas_used receipt) r) = with_hash h receipt.
Proof.
  intros Hc Hsh Hrec. unfold worker_receipt. destruct e0 as [s st|res st price], e as [s' st'|res' st' price']; cbn in Hsh; try done.
  - destruct Hsh as (-> & -> & _). cbn in Hrec. unfold skip_receipt, with_cumulative in *. destruct s as [? ? [[] ? ?] ? ?]. cbn in *.
    injection Hrec as <-. cbn. split; [|done]. unfold u64_checked_add. rewrite N.add_0_r. by rewrite (proj2 (N.leb_le _ _) Hc).
  - destruct Hsh as (-> & -> & _). cbn in Hrec. destruct (jb_decoded job) as [d|]; [|done]. unfold build_tx_receipt in Hrec.
    unfold build_receipt. destruct (status_and_wire_logs res) as [st1 lg1]. cbn in Hrec |- *.
    destruct (u64_checked_add c _) as [cum|] eqn:Eadd; [|done]. cbn in Hrec. by injection Hrec as <-.
Qed.

Lemma ending_receipt_hash env slot envelope d e receipt :
  ending_receipt env slot envelope d e = Ok receipt → write_set_hash receipt = ws_hash (ending_ws e).
Proof.
  destruct e as [s' st'|res' st' price']; cbn.
  - intros [= <-]. unfold skip_receipt. by destruct s' as [? ? [[] ? ?] ? ?].
  - destruct d as [d|]; [|done]. unfold build_tx_receipt. destruct (status_and_wire_logs _).
    destruct (u64_checked_add _ _); [|done]. cbn. by intros [= <-].
Qed.

Lemma worker_receipt_hash job e : write_set_hash (worker_receipt b job e None) = ws_hash (ending_ws e).
Proof.
  destruct e as [[? ? [[] ? ?] ? ?] st|res st price]; [done|]. unfold worker_receipt, build_receipt. by destruct (status_and_wire_logs res).
Qed.

(** The ends of the worker and of the sequential engine, and what the prefix makes
    of the result. *)
Lemma prefix_receipt job c e0 e W r p r' receipt : (c ≤ u64_max)%N →
  shifted sink (balance_of s0) (balance_of (v_basic W sink)) e0 e → good b V0 job F r e0 →
  ending_receipt (bk_env b) (job_slot job c) (jb_envelope job) (jb_decoded job) (at_cumulative c e) = Ok receipt →
  prefix_apply (mkPrefix c (balance_of (v_basic W sink)) sink) r = Ok (p, r') →
  let ws := ending_ws (at_cumulative c e) in
  p = mkPrefix (cumulative_gas_used receipt) (balance_of (v_basic (overlay W ws) sink)) sink ∧
  tr_ws r' = ws ∧ final_receipt r' = receipt ∧ (cumulative_gas_used receipt ≤ u64_max)%N.
Proof.
  intros Hc Hsh [_ Hws Hd Hr _ Hsnd] Hrec. destruct (shifted_ws _ _ _ _ _ Hsh Hsnd) as [Hwse Hle].
  pose proof (ending_receipt_hash _ _ _ _ _ _ Hrec) as Hhash.
  assert (ending_ws (at_cumulative c e) = ending_ws e) as Hcum by (unfold ending_ws; by rewrite at_cumulative_state). rewrite Hcum in *.
  destruct (worker_receipt_gas job c e0 e _ _ (tr_sink_fee_delta r) receipt Hc Hsh Hrec) as [Hadd Hwith]. rewrite <-Hr in Hadd, Hwith.
  unfold sink_fee_delta in Hd. change (find_entry sink (WriteSet.accounts (ending_ws e0))) with (WriteSet.account (ending_ws e0) sink) in Hd.
  unfold prefix_apply. cbn [px_cumulative px_sink_running px_sink]. rewrite Hws. unfold fee_delta_from_sink, u256_checked_sub in Hd. rewrite HB in Hd.
  assert (u64_saturating_add c (gas_used (tr_receipt r)) = cumulative_gas_used receipt ∧ (cumulative_gas_used receipt ≤ u64_max)%N) as [-> Hcu].
  { unfold u64_checked_add, u64_saturating_add in *. destruct (N.leb_spec (c + gas_used (tr_receipt r)) u64_max); [|done]. injection Hadd as <-. lia. }
  unfold u256_checked_add. destruct (WriteSet.account (ending_ws e0) sink) as [f|] eqn:Ef.
  - specialize (Hle f eq_refl). rewrite (proj2 (N.leb_le _ _) Hle) in Hd. cbn in Hd. injection Hd as Hd. rewrite <-Hd. cbn [default].
    destruct (_ <=? _)%N; [|done]. intros [= <- <-]. cbn [tr_ws tr_receipt tr_sink_fee_delta]. rewrite Hwse. split; [|split; [done|split; [|done]]].
    + f_equal. cbn. rewrite account_patch, decide_True, Ef by done. done.
    + unfold final_receipt. cbn. rewrite Hwith, <-Hwse, <-Hhash. by destruct receipt.
  - injection Hd as Hd. rewrite <-Hd in *. cbn [default]. destruct (_ <=? _)%N; [|done]. intros [= <- <-].
    cbn [tr_ws tr_receipt tr_sink_fee_delta]. rewrite Hwse in *. split; [|split; [done|split; [|done]]].
    + f_equal. cbn. rewrite Ef. lia.
    + unfold final_receipt. cbn. specialize (Hwith (write_set_hash receipt)).
      assert (write_set_hash (tr_receipt r) = write_set_hash receipt) as Hh by (by rewrite Hr, worker_receipt_hash).
      destruct (tr_receipt r), receipt. cbn in *. unfold with_hash, with_cumulative_gas in *. cbn in *. by simplify_eq.
Qed.

(** A kept result is the sequential one, and the next transaction sees it. *)
Lemma kept_step i job c W r e0 p r' receipt ws : local_idx job = N.of_nat i → (c ≤ u64_max)%N →
  stm_view b V0 F (N.of_nat i) ≡ reset_sink sink s0 W → good b V0 job F r e0 → stale (mem_mv F) i r = false →
  tx_blind (bk_env b) s0 W (jb_envelope job) (jb_decoded job) →
  tx_spec (bk_env b) W (job_slot job c) (jb_envelope job) (jb_decoded job) = Ok (receipt, ws) →
  prefix_apply (mkPrefix c (balance_of (v_basic W sink)) sink) r = Ok (p, r') →
  p = mkPrefix (cumulative_gas_used receipt) (balance_of (v_basic (overlay W ws) sink)) sink ∧
  tr_ws r' = ws ∧ final_receipt r' = receipt ∧ (cumulative_gas_used receipt ≤ u64_max)%N ∧
  stm_view b V0 F (N.of_nat (S i)) ≡ reset_sink sink s0 (overlay W ws).
Proof.
  intros Hi Hc HV Hg Hst Hb Hspec Hp. destruct (tx_spec_ending _ _ _ _ _ _ _ Hspec) as (e & He & Hrec & ->).
  unfold job_slot in He. rewrite tx_tree_cumulative in He. destruct (run (view_answer W) _) as [e1|] eqn:He1; [|done]. injection He as <-.
  pose proof (good_run b V0 F Hok job r e0 i Hg Hi Hst) as He0. rewrite (run_view_proper _ _ HV _ _ eq_refl) in He0.
  pose proof (tx_tree_shifted _ _ _ _ _ _ _ _ Hb He0 He1) as Hsh. change (beneficiary (ee_fees (bk_env b))) with sink in Hsh.
  destruct (prefix_receipt job c e0 e1 W r p r' receipt Hc Hsh Hg Hrec Hp) as (-> & Hws & Hfin & Hcu). do 4 (split; [done|]).
  destruct (good_sound _ _ _ _ _ _ Hg) as (K & Hkeys & Hrest). destruct (from_state_nodup _ Hkeys) as [Hna Hns].
  destruct (shifted_ws _ _ _ _ _ Hsh (ex_intro _ K (conj Hkeys Hrest))) as [Hwse _].
  pose proof (good_owned _ _ _ _ _ _ Hg) as Ho. rewrite Hi in Ho.
  replace (N.of_nat (S i)) with (N.of_nat i + 1)%N by lia. rewrite (stm_view_step b V0 F Hok _ _ Ho Hna Hns).
  unfold ending_ws at 2. rewrite at_cumulative_state. change (WriteSet.from_evm_state (ending_state e1)) with (ending_ws e1). rewrite Hwse.
  destruct HV as [HVb HVs]. split.
  - intros a. cbn. case_decide as Ha; [done|]. specialize (HVb a). cbn in HVb. rewrite !(decide_False _ _ Ha) in HVb. rewrite HVb.
    destruct (WriteSet.account (ending_ws e0) sink); [|done]. by rewrite account_patch, decide_False.
  - intros a k. specialize (HVs a k). cbn in *. rewrite HVs. by destruct (WriteSet.account (ending_ws e0) sink).
Qed.
End kept.

(** ** A block *)

Section block.
Context `{Evm} `{Content} {C : CacheDB} `{!CacheLaws C}.

(** Along the block, no transaction looks at the sink. *)
Fixpoint block_blind (env : ExecEnv) (s : option AccountFields) (V : View) (i : N) (records : list SeqTx) : Prop :=
  match records with
  | [] => True
  | r :: records' =>
    tx_blind env s V (st_envelope r) (seq_decoded r) ∧
    ∀ cumulative e, run (view_answer V) (tx_tree env (seq_slot r i cumulative) (st_envelope r) (seq_decoded r)) = Ok e →
      block_blind env s (overlay V (ending_ws e)) (i + 1) records'
  end.

Lemma tx_blind_proper env s V W envelope d : V ≡ W → tx_blind env s V envelope d → tx_blind env s W envelope d.
Proof.
  intros HVW [Hne Hb]. split; [done|]. destruct d as [d|]; [|done]. unfold blind in *.
  rewrite <-(run_view_proper V W HVW _ _ eq_refl), <-(run_view_proper _ _ (reset_sink_proper _ s V W HVW) _ _ eq_refl).
  by rewrite <-(proj1 HVW).
Qed.

Lemma block_blind_proper env s V W i records : V ≡ W → block_blind env s V i records → block_blind env s W i records.
Proof.
  revert V W i. induction records as [|r records IH]; intros V W i HVW; cbn; [done|]. intros [Hb Hr]. split; [by eapply tx_blind_proper|].
  intros cum e. rewrite <-(run_view_proper V W HVW _ _ eq_refl). intros He. eapply IH; [|by apply (Hr cum)]. by rewrite HVW.
Qed.

(** The record of a job, decoded by the engine. *)
Definition record_of (job : TxJob) : SeqTx := mkSeqTx (jb_tx_idx job) (jb_position job) (jb_envelope job) None.

Definition numbered (i : nat) (jobs : list TxJob) : Prop :=
  ∀ k job, jobs !! k = Some job → local_idx job = N.of_nat (i + k) ∧ jb_decoded job = decode_2718 (raw_tx (jb_envelope job)).

Lemma numbered_cons i job jobs : numbered i (job :: jobs) →
  (local_idx job = N.of_nat i ∧ jb_decoded job = decode_2718 (raw_tx (jb_envelope job))) ∧ numbered (S i) jobs.
Proof.
  intros Hn. split; [rewrite <-(Nat.add_0_r i); by apply (Hn 0)|]. intros k job' Hk. destruct (Hn (S k) job' Hk) as [-> ->]. split; [lia|done].
Qed.

Lemma record_slot i job c : local_idx job = i → seq_slot (record_of job) i c = job_slot job c.
Proof. by intros <-. Qed.

Lemma record_decoded job : jb_decoded job = decode_2718 (raw_tx (jb_envelope job)) → seq_decoded (record_of job) = jb_decoded job.
Proof. by intros ->. Qed.

Context (b : Block) (V0 : View) (F : Mem) (Hok : mem_ok b F).
Abbreviation sink := (bk_sink b).
Abbreviation s0 := (v_basic V0 sink).
Context (HB : bl_sink_start_balance (bk_bound b) = balance_of s0).

(** *** The clean commit *)

Lemma clean_all i jobs rs rs' c W out : numbered i jobs → (c ≤ u64_max)%N →
  stm_view b V0 F (N.of_nat i) ≡ reset_sink sink s0 W → Forall2 (λ job r, ∃ e, good b V0 job F r e) jobs rs →
  (∀ k r, rs !! k = Some r → stale (mem_mv F) (i + k) r = false) →
  block_blind (bk_env b) s0 W (N.of_nat i) (record_of <$> jobs) →
  block_spec (bk_env b) W c (N.of_nat i) (record_of <$> jobs) = Ok out →
  serial_prefix (mkPrefix c (balance_of (v_basic W sink)) sink) rs = Ok rs' →
  final_receipt <$> rs' = out.*1 ∧ tr_ws <$> rs' = out.*2.
Proof.
  intros Hn Hc HV Hg. revert i c W rs' out Hn Hc HV. induction Hg as [|job r jobs rs [e0 Hg] _ IH]; intros i c W rs' out Hn Hc HV Hst Hb.
  { by intros [= <-] [= <-]. }
  rewrite fmap_cons in *. cbn [block_spec block_blind serial_prefix] in *.
  apply numbered_cons in Hn as [[Hi Hd] Hn]. destruct Hb as [Hb Hrest]. rewrite (record_slot (N.of_nat i)), record_decoded in * by done.
  destruct (tx_spec _ _ _ _ _) as [[receipt ws]|] eqn:Etx; [|done]. destruct (block_spec _ (overlay W ws) _ _ _) as [out'|] eqn:Eout; [|done].
  intros [= <-]. destruct (prefix_apply _ r) as [[p r']|] eqn:Ep; [|done]. destruct (serial_prefix p rs) as [rs1|] eqn:Ers; [|done]. intros [= <-].
  assert (stale (mem_mv F) i r = false) as Hst0 by (rewrite <-(Nat.add_0_r i); by apply (Hst 0)).
  destruct (kept_step b V0 F Hok HB i job c W r e0 p r' receipt ws Hi Hc HV Hg Hst0 Hb Etx Ep) as (-> & Hws & Hfin & Hcu & HV').
  destruct (tx_spec_ending _ _ _ _ _ _ _ Etx) as (e & He & _ & ->).
  destruct (IH (S i) (cumulative_gas_used receipt) (overlay W (ending_ws e)) rs1 out') as [IH1 IH2]; [done..| | | |done|].
  - intros k r1 Hr1. rewrite Nat.add_succ_comm. by apply (Hst (S k)).
  - replace (N.of_nat (S i)) with (N.of_nat i + 1)%N by lia. apply (Hrest c). rewrite (record_slot (N.of_nat i)) by done. exact He.
  - by replace (N.of_nat (S i)) with (N.of_nat i + 1)%N by lia.
  - cbn. by rewrite Hws, Hfin, IH1, IH2.
Qed.

(** *** The repair *)

Context (Vs : View) (Hs : snapshot_is (bk_snapshot b) Vs) (Hcl : closed (snapshot_knows (bk_snapshot b)) Vs).
Abbreviation sound := (delta_sound (snapshot_knows (bk_snapshot b)) Vs).

(** What repairing a suffix of the block adds. *)
Definition repaired (s : Repair) (out : list (Receipt * WriteSet.t)) (res : result ExecutorError Repair) : Prop :=
  ∃ s', res = Ok s' ∧ rp_receipts s' = rp_receipts s ++ out.*1 ∧ rp_delta s' = fold_left PendingDelta.apply out.*2 (rp_delta s).

Lemma repaired_cons s s1 receipt ws out res : rp_receipts s1 = rp_receipts s ++ [receipt] → rp_delta s1 = PendingDelta.apply (rp_delta s) ws →
  repaired s1 out res → repaired s ((receipt, ws) :: out) res.
Proof. intros Hr Hd (s' & -> & Hr' & Hd'). exists s'. split; [done|]. rewrite Hr', Hd', Hr, Hd, <-app_assoc. done. Qed.

(** The next delta after one record. *)
Lemma layered_step i job jobs c d receipt ws : sound d → local_idx job = i → jb_decoded job = decode_2718 (raw_tx (jb_envelope job)) →
  block_fits (bk_env b) (overlay_delta Vs d) i (record_of <$> job :: jobs) →
  tx_spec (bk_env b) (overlay_delta Vs d) (job_slot job c) (jb_envelope job) (jb_decoded job) = Ok (receipt, ws) →
  sound (PendingDelta.apply d ws) ∧ overlay_delta Vs (PendingDelta.apply d ws) ≡ overlay (overlay_delta Vs d) ws ∧
  block_fits (bk_env b) (overlay_delta Vs (PendingDelta.apply d ws)) (i + 1) (record_of <$> jobs).
Proof.
  intros Hd Hi Hdec Hbok Htx. rewrite fmap_cons in Hbok. destruct Hbok as [Ht Hr]. rewrite record_decoded in Ht, Hr by done.
  destruct (tx_spec_ending _ _ _ _ _ _ _ Htx) as (e & He & _ & ->). specialize (Hr c e). rewrite (record_slot i) in Hr by done.
  destruct (Hr He) as [Hoke Hbok]. destruct (delta_step _ _ _ _ _ _ _ _ Hd Ht He Hoke) as [Hd' Hkey]. pose proof (overlay_apply Vs d _ Hkey) as Hov.
  split; [done|]. split; [done|]. eapply block_fits_proper; [symmetry; exact Hov|done].
Qed.

(** A wounded result runs again, over a scope of its own. *)
Lemma rerun i job jobs c d receipt ws : sound d → local_idx job = i → jb_decoded job = decode_2718 (raw_tx (jb_envelope job)) →
  block_fits (bk_env b) (overlay_delta Vs d) i (record_of <$> job :: jobs) →
  tx_spec (bk_env b) (overlay_delta Vs d) (job_slot job c) (jb_envelope job) (jb_decoded job) = Ok (receipt, ws) →
  ∃ sc sc', executor_new (bk_snapshot b) (Some d) (bk_env b) = Ok sc ∧
    execute_tx sc (job_slot job c) (jb_envelope job) = Ok (sc', (receipt, ws)).
Proof.
  intros Hd Hi Hdec [Ht Hr] Htx. rewrite record_decoded in Ht, Hr by done.
  destruct (executor_new_scope (bk_snapshot b) Vs d (bk_env b) Hs Hcl Hd) as (sc & Esc & Henv & Hsc).
  pose proof (scope_exec_spec sc _ (job_slot job c) (jb_envelope job) (jb_decoded job) Hsc) as Hx. rewrite Henv in Hx.
  specialize (Hx Ht). specialize (Hr c). rewrite (record_slot i) in Hr by done. specialize (Hx (λ e He, proj1 (Hr e He))).
  assert (execute_tx sc (job_slot job c) (jb_envelope job) = scope_exec sc (job_slot job c) (jb_envelope job) (jb_decoded job)) as Heq.
  { rewrite Hdec. unfold execute_tx, scope_exec. by destruct (decode_2718 _). }
  destruct (scope_exec _ _ _ _) as [[sc' [r1 ws1]]|]; [|congruence]. destruct Hx as [Hx _]. rewrite Htx in Hx. injection Hx as <- <-. by exists sc, sc'.
Qed.

Lemma redo_all wounded i jobs rs s out : numbered i jobs → length jobs = length rs → (∀ k, wounded (i + k) = true) →
  sound (rp_layered s) → block_fits (bk_env b) (overlay_delta Vs (rp_layered s)) (N.of_nat i) (record_of <$> jobs) →
  block_spec (bk_env b) (overlay_delta Vs (rp_layered s)) (px_cumulative (rp_prefix s)) (N.of_nat i) (record_of <$> jobs) = Ok out →
  repaired s out (repair_all b wounded i (zip jobs rs) s).
Proof.
  revert i rs s out. induction jobs as [|job jobs IH]; intros i rs s out Hn Hlen Hw Hd Hbok.
  { intros [= <-]. exists s. cbn. by rewrite app_nil_r. }
  destruct rs as [|r rs]; [done|]. apply numbered_cons in Hn as [[Hi Hdec] Hn]. injection Hlen as Hlen.
  rewrite fmap_cons at 1. cbn [block_spec]. rewrite (record_slot (N.of_nat i)), record_decoded by done.
  destruct (tx_spec _ _ _ _ _) as [[receipt ws]|] eqn:Etx; [|done]. destruct (block_spec _ _ _ _ _) as [out'|] eqn:Eout; [|done]. intros [= <-].
  destruct (layered_step _ _ _ _ _ _ _ Hd Hi Hdec Hbok Etx) as (Hd' & Hov & Hbok').
  destruct (rerun _ _ _ _ _ _ _ Hd Hi Hdec Hbok Etx) as (sc & sc' & Esc & Ex).
  pose proof (Hw 0) as Hw0. rewrite Nat.add_0_r in Hw0. cbn [zip zip_with repair_all]. unfold repair_one at 1. rewrite Hw0. cbn [negb]. rewrite Esc.
  unfold job_slot in Ex. rewrite Hi in Ex. rewrite Ex.
  match goal with |- repaired _ _ (repair_all _ _ _ _ ?s1) => apply (repaired_cons s s1) end; [done..|]. apply IH; [done|done| |done|by replace (N.of_nat (S i)) with (N.of_nat i + 1)%N by lia|].
  - intros k. rewrite Nat.add_succ_comm. apply Hw.
  - cbn [rp_layered rp_prefix px_cumulative]. replace (N.of_nat (S i)) with (N.of_nat i + 1)%N by lia.
    by rewrite (block_spec_proper _ _ _ Hov _ _ eq_refl _ _ eq_refl _ _ eq_refl).
Qed.

Lemma prefix_apply_again p r p' r' : prefix_apply p r = Ok (p', r') → prefix_apply p r' = Ok (p', r').
Proof.
  unfold prefix_apply. destruct (u256_checked_add _ _) as [run|] eqn:E; [|done]. intros [= <- <-]. cbn. rewrite E. do 3 f_equal.
  destruct (tr_sink_fee_delta r); [|done]. unfold patch_sink. cbn. f_equal. rewrite update_entry_twice. done.
Qed.

Lemma serial_prefix_length p rs rs' : serial_prefix p rs = Ok rs' → length rs' = length rs.
Proof.
  revert p rs'. induction rs as [|r rs IH]; intros p rs'; cbn; [by intros [= <-]|]. destruct (prefix_apply p r) as [[p1 r1]|]; [|done].
  destruct (serial_prefix p1 rs) as [rs1|] eqn:E; [|done]. intros [= <-]. cbn. by rewrite (IH p1).
Qed.

(** Up to the first wound the results are kept. *)
Lemma keep_all wounded i jobs rs rs' s out : numbered i jobs → (px_cumulative (rp_prefix s) ≤ u64_max)%N →
  let W := overlay_delta Vs (rp_layered s) in
  rp_prefix s = mkPrefix (px_cumulative (rp_prefix s)) (balance_of (v_basic W sink)) sink →
  stm_view b V0 F (N.of_nat i) ≡ reset_sink sink s0 W → Forall2 (λ job r, ∃ e, good b V0 job F r e) jobs rs →
  (∀ k r, rs !! k = Some r → wounded (i + k) = false → stale (mem_mv F) (i + k) r = false) →
  (∀ k k', wounded k = true → (k ≤ k')%nat → wounded k' = true) →
  sound (rp_layered s) → block_fits (bk_env b) W (N.of_nat i) (record_of <$> jobs) →
  block_blind (bk_env b) s0 W (N.of_nat i) (record_of <$> jobs) →
  block_spec (bk_env b) W (px_cumulative (rp_prefix s)) (N.of_nat i) (record_of <$> jobs) = Ok out →
  serial_prefix (rp_prefix s) rs = Ok rs' → repaired s out (repair_all b wounded i (zip jobs rs') s).
Proof.
  intros Hn Hc W Hp HV Hg. revert i s rs' out W Hn Hc Hp HV.
  induction Hg as [|job r jobs rs [e0 Hg] Hgs IH]; intros i s rs' out W Hn Hc Hp HV Hst Hmono Hd Hbok Hb Hspec Hpre.
  { injection Hspec as <-. injection Hpre as <-. exists s. cbn. by rewrite app_nil_r. }
  destruct (wounded i) eqn:Ew.
  { apply redo_all; [done| |intros k; apply (Hmono i); [done|lia]|done..]. apply Forall2_length in Hgs. apply serial_prefix_length in Hpre.
    rewrite Hpre. cbn. by rewrite Hgs. }
  pose proof Hbok as Hbok0. rewrite fmap_cons in Hbok, Hb, Hspec. cbn [block_spec serial_prefix] in Hspec, Hpre. destruct Hb as [Hb Hrest].
  apply numbered_cons in Hn as [[Hi Hdec] Hn]. rewrite (record_slot (N.of_nat i)), record_decoded in * by done.
  destruct (tx_spec _ _ _ _ _) as [[receipt ws]|] eqn:Etx; [|done]. destruct (block_spec _ (overlay _ ws) _ _ _) as [out'|] eqn:Eout; [|done].
  injection Hspec as <-. destruct (prefix_apply _ r) as [[p r']|] eqn:Ep; [|done]. destruct (serial_prefix p rs) as [rs1|] eqn:Ers; [|done]. injection Hpre as <-.
  assert (stale (mem_mv F) i r = false) as Hst0 by (rewrite <-(Nat.add_0_r i); apply (Hst 0); [done|by rewrite Nat.add_0_r]).
  destruct (layered_step _ _ _ _ _ _ _ Hd Hi Hdec Hbok0 Etx) as (Hd' & Hov & Hbok').
  pose proof Ep as Ep'. rewrite Hp in Ep'.
  destruct (kept_step b V0 F Hok HB i job _ W r e0 p r' receipt ws Hi Hc HV Hg Hst0 Hb Etx Ep') as (-> & Hws & Hfin & Hcu & HV').
  destruct (tx_spec_ending _ _ _ _ _ _ _ Etx) as (e & He & _ & ->).
  cbn [zip zip_with repair_all]. unfold repair_one at 1. rewrite Ew. cbn [negb]. rewrite (prefix_apply_again _ _ _ _ Ep).
  change (match tr_sink_fee_delta r' with Some _ => _ | None => _ end) with (final_receipt r'). rewrite Hfin, Hws.
  replace (N.of_nat (S i)) with (N.of_nat i + 1)%N in HV' by lia.
  match goal with |- repaired _ _ (repair_all _ _ _ _ ?s1) => apply (repaired_cons s s1) end; [done..|]. apply (IH (S i)); cbn [rp_prefix rp_layered px_cumulative]; replace (N.of_nat (S i)) with (N.of_nat i + 1)%N by lia.
  - done.
  - done.
  - by rewrite (proj1 Hov).
  - rewrite HV'. by apply reset_sink_proper.
  - intros k r1 Hr1. rewrite Nat.add_succ_comm. by apply (Hst (S k)).
  - done.
  - done.
  - done.
  - eapply block_blind_proper; [symmetry; exact Hov|]. apply (Hrest (px_cumulative (rp_prefix s))). rewrite (record_slot (N.of_nat i)) by done. exact He.
  - by rewrite (block_spec_proper _ _ _ Hov _ _ eq_refl _ _ eq_refl _ _ eq_refl).
  - done.
Qed.
End block.

(** ** Serializability *)

Lemma stale_reads mv i r r' : tr_reads r = tr_reads r' → stale mv i r = stale mv i r'.
Proof. unfold stale. by intros ->. Qed.

Lemma serial_prefix_reads p rs rs' : serial_prefix p rs = Ok rs' → tr_reads <$> rs' = tr_reads <$> rs.
Proof.
  revert p rs'. induction rs as [|r rs IH]; intros p rs'; cbn; [by intros [= <-]|]. destruct (prefix_apply p r) as [[p1 r1]|] eqn:Ep; [|done].
  destruct (serial_prefix p1 rs) as [rs1|] eqn:E; [|done]. intros [= <-]. cbn. rewrite (IH p1) by done. f_equal. unfold prefix_apply in Ep.
  destruct (u256_checked_add _ _); [|done]. by injection Ep as _ <-.
Qed.

Lemma verify_all rs : verify ((Some ∘ Ok) <$> rs) = Ok rs.
Proof. induction rs as [|r rs IH]; [done|]. cbn in *. by rewrite IH. Qed.

(** Below the first wound nothing is stale. *)
Lemma wounded_set_stale mv rs i r : rs !! i = Some r → wounded_set (serial_wounded mv rs) i = false → stale mv i r = false.
Proof.
  intros Hr. destruct (stale mv i r) eqn:E; [|done].
  assert (i ∈ serial_wounded mv rs) as Hin.
  { apply list_elem_of_filter. rewrite Hr. split; [done|]. apply elem_of_seq. apply lookup_lt_Some in Hr. lia. }
  destruct (serial_wounded mv rs) as [|w ws]; [by apply elem_of_nil in Hin|]. cbn. intros Hlt%Nat.leb_gt.
  assert (foldr Nat.min w ws ≤ i)%nat; [|lia]. clear -Hin. apply elem_of_cons in Hin. induction ws as [|x ws IH]; cbn.
  - destruct Hin as [->|?%elem_of_nil]; [done|done].
  - rewrite elem_of_cons in Hin. destruct Hin as [->|[->|Hin]]; [|lia|]; (etrans; [apply Nat.le_min_r|]); auto.
Qed.

Lemma wounded_set_mono l k k' : wounded_set l k = true → (k ≤ k')%nat → wounded_set l k' = true.
Proof. destruct l; cbn; [done|]. rewrite !Nat.leb_le. lia. Qed.

Section serializable.
Context `{EvmLaws} {C : CacheDB} `{!CacheLaws C}.

(** A session: the snapshot answers, the layers hold the codes that their accounts
    carry, only accounts with a nonce or a code have storage, the sink that the
    session is bound to is the sink of the view, the jobs are numbered and decoded,
    no job delegates an account (EIP-7702), and along the sequential run no account
    destroys itself and no transaction reads the fee sink or is sent by it. *)
Record session_ok (b : Block) (Vs : View) : Prop := {
  session_snapshot : snapshot_is (bk_snapshot b) Vs;
  session_closed : closed (snapshot_knows (bk_snapshot b)) Vs;
  session_base : delta_sound (snapshot_knows (bk_snapshot b)) Vs (repair_base b);
  session_layers : layers_ok b;
  session_sink : bl_sink_start (bk_bound b) = v_basic (overlay_delta Vs (repair_base b)) (bk_sink b);
  session_sink_balance : bl_sink_start_balance (bk_bound b) = balance_of (bl_sink_start (bk_bound b));
  session_jobs : numbered 0 (bk_jobs b);
  session_view : view_ok (overlay_delta Vs (repair_base b));
  session_undelegated : Forall (λ job, undelegated (jb_decoded job)) (bk_jobs b);
  session_block : block_ok (bk_env b) (overlay_delta Vs (repair_base b)) 0 (record_of <$> bk_jobs b);
  session_blind : block_blind (bk_env b) (bl_sink_start (bk_bound b)) (overlay_delta Vs (repair_base b)) 0 (record_of <$> bk_jobs b);
}.

Lemma session_jobs_ok b Vs : session_ok b Vs → jobs_ok b.
Proof.
  intros Hs i job Hi. destruct (session_jobs _ _ Hs i job Hi) as [Hl _]. split; [done|].
  pose proof (session_undelegated _ _ Hs) as Ht. rewrite Forall_lookup in Ht. by eapply undelegated_tame, Ht.
Qed.

Lemma session_fits b Vs : session_ok b Vs → block_fits (bk_env b) (overlay_delta Vs (repair_base b)) 0 (record_of <$> bk_jobs b).
Proof. intros Hs. apply block_ok_fits; apply Hs. Qed.

Lemma sequential_spec b Vs receipts delta : session_ok b Vs →
  sequential_inner (bk_snapshot b) (Some (repair_base b)) (bk_env b) (record_of <$> bk_jobs b) = Ok (receipts, delta) →
  ∃ out, block_spec (bk_env b) (overlay_delta Vs (repair_base b)) 0 0 (record_of <$> bk_jobs b) = Ok out ∧
    receipts = out.*1 ∧ delta = fold_left PendingDelta.apply out.*2 PendingDelta.new.
Proof.
  intros Hs. unfold sequential_inner.
  destruct (executor_new_scope _ _ _ (bk_env b) (session_snapshot _ _ Hs) (session_closed _ _ Hs) (session_base _ _ Hs)) as (sc & -> & Henv & Hsc).
  rewrite (apply_all_spec (bk_env b) _ _ _ _ _ Henv Hsc (session_fits _ _ Hs)). cbn [sa_cumulative sa_receipts sa_delta].
  destruct (block_spec _ _ _ _ _) as [out|]; [|done]. cbn. intros [= <- <-]. by exists out.
Qed.

(** The commit tail on the results of any schedule. *)
Lemma tail_serial b Vs mem schedule workers order rs rs' receipts delta :
  session_ok b Vs → fresh b mem →
  let m := run_schedule b mem schedule in
  results m = (Some ∘ Ok) <$> rs → serial_prefix (prefix_start b) rs = Ok rs' →
  (1 ≤ workers)%nat → order ≡ₚ seq 0 (n_chunks workers (length rs)) →
  sequential_inner (bk_snapshot b) (Some (repair_base b)) (bk_env b) (record_of <$> bk_jobs b) = Ok (receipts, delta) →
  block_tail workers order b (mem_mv (mc_mem m)) (results m) =
    Ok (receipts, delta, length (serial_wounded (mem_mv (mc_mem m)) rs)).
Proof.
  intros Hs Hfresh m Hres Hpre Hw Hord Hseq. destruct (sequential_spec _ _ _ _ Hs Hseq) as (out & Hout & -> & ->).
  set (V0 := overlay_delta Vs (repair_base b)) in *.
  assert (input_is b V0) as Hin by (apply merged_input; apply Hs).
  destruct (results_good b V0 Hin mem schedule rs (session_jobs_ok _ _ Hs) Hfresh Hres) as (HF & _ & Hgood). fold m in HF, Hgood.
  assert (bl_sink_start_balance (bk_bound b) = balance_of (v_basic V0 (bk_sink b))) as HB by (rewrite (session_sink_balance _ _ Hs); f_equal; apply Hs).
  assert (stm_view b V0 (mc_mem m) (N.of_nat 0) ≡ reset_sink (bk_sink b) (v_basic V0 (bk_sink b)) V0) as HV by (by apply stm_view_0).
  pose proof (session_blind _ _ Hs) as Hblind. rewrite (session_sink _ _ Hs) in Hblind. fold V0 in Hblind.
  assert (serial_wounded (mem_mv (mc_mem m)) rs' = serial_wounded (mem_mv (mc_mem m)) rs) as Hwd.
  { unfold serial_wounded. rewrite (serial_prefix_length _ _ _ Hpre). apply list_filter_iff. intros i.
    pose proof (f_equal (.!! i) (serial_prefix_reads _ _ _ Hpre)) as Hri. rewrite !list_lookup_fmap in Hri.
    destruct (rs' !! i), (rs !! i); try done. injection Hri as Hri. by rewrite (stale_reads _ _ _ _ Hri). }
  unfold block_tail. rewrite Hres, verify_all, Hpre. rewrite lanes_wounded_serial by done. rewrite Hwd.
  assert (serial_prefix (mkPrefix 0 (balance_of (v_basic V0 (bk_sink b))) (bk_sink b)) rs = Ok rs') as Hpre' by (unfold prefix_start in Hpre; by rewrite HB in Hpre).
  destruct (serial_wounded (mem_mv (mc_mem m)) rs) as [|w ws] eqn:Ew.
  - destruct (clean_all b V0 (mc_mem m) HF HB 0 (bk_jobs b) rs rs' 0 V0 out) as [Hr Hd]; [apply Hs|done|done|done| |done|done|done|].
    + intros k r Hr. apply (wounded_set_stale _ rs); [done|]. by rewrite Ew.
    + rewrite fold_inline_apply, Hd. do 3 f_equal. rewrite lanes_commit, <-Hr; [done|done|]. by rewrite (serial_prefix_length _ _ _ Hpre).
  - unfold repair_wounded.
    destruct (keep_all b V0 (mc_mem m) HF HB Vs (session_snapshot _ _ Hs) (session_closed _ _ Hs) (wounded_set (w :: ws)) 0 (bk_jobs b) rs rs'
      (mkRepair (prefix_start b) (repair_base b) [] PendingDelta.new) out) as (s' & -> & Hr & Hd); try done.
    + apply Hs.
    + cbn. unfold prefix_start. by rewrite HB.
    + intros k r Hk Hwk. apply (wounded_set_stale _ rs); [done|]. by rewrite Ew.
    + intros k k'. apply wounded_set_mono.
    + apply Hs.
    + by apply session_fits.
    + by rewrite Hr, Hd.
Qed.

(** C7. Block-STM is serializable: whatever the schedule of the workers, once every
    transaction has ended without error and the prefix sums do not overflow, the commit
    tail returns the receipts and the delta that the sequential engine returns for the
    same block, and reports as wounds the results whose reads are no longer the latest.
    The session is one of [session_ok] (no EIP-7702 delegation, no self-destruct, no
    transaction that reads the fee sink or is sent by it, and a bound sink that is the
    one of the view), and the memory is [fresh]: no versions, and a base cache that
    holds what the snapshot answers. *)
Theorem stm_serializable b Vs mem schedule workers order rs rs' receipts delta :
  session_ok b Vs → fresh b mem →
  let m := run_schedule b mem schedule in
  results m = (Some ∘ Ok) <$> rs → serial_prefix (prefix_start b) rs = Ok rs' →
  (1 ≤ workers)%nat → order ≡ₚ seq 0 (n_chunks workers (length rs)) →
  sequential_inner (bk_snapshot b) (Some (repair_base b)) (bk_env b) (record_of <$> bk_jobs b) = Ok (receipts, delta) →
  block_tail workers order b (mem_mv (mc_mem m)) (results m) =
    Ok (receipts, delta, length (serial_wounded (mem_mv (mc_mem m)) rs)).
Proof. apply tail_serial. Qed.
End serializable.

(** ** Witness *)

(** The sample block, with the decoded transactions as its jobs. *)
Definition toy_job (r : SeqTx) : TxJob :=
  mkJob (st_tx_idx r) (st_tx_idx r) (st_position r) (st_envelope r) (decode_2718 (raw_tx (st_envelope r))).

Definition toy_bound : BoundLayers := mkBound [] [] None 0.

Definition toy_block : Block := mkBlock toy_env toy_snapshot toy_base toy_bound (toy_job <$> toy_records).

Definition toy_mem : Mem := mkMem MvCache.new BaseCache.new.

(** The last transactions run before the first, on which they depend. *)
Definition toy_schedule : list nat := replicate 40 1%nat ++ replicate 40 2%nat ++ replicate 40 0%nat.

Definition toy_results : list TxResult :=
  match verify (results (run_schedule toy_block toy_mem toy_schedule)) with Ok rs => rs | Err _ => [] end.

Lemma toy_repair_base : repair_base toy_block = toy_base.
Proof. done. Qed.

Ltac toy_blind := vm_compute; split; [done|]; split; [done|]; intros ? [= <-]; by vm_compute.

Lemma toy_block_blind : block_blind toy_env None (overlay_delta toy_view toy_base) 0 toy_records.
Proof.
  split; [split; [done|toy_blind]|]. intros cum e He. vm_compute in He. injection He as <-.
  split; [split; [done|toy_blind]|]. clear cum. intros cum e He. vm_compute in He. injection He as <-.
  split; [split; [done|by vm_compute]|]. done.
Qed.

Lemma toy_layers : layers_ok toy_block.
Proof.
  split; [by intros d h c [->|?%elem_of_nil]%elem_of_cons|..].
  - by intros mv ?%elem_of_nil.
  - by intros mv h c ?%elem_of_nil.
  - by intros mv a j f ?%elem_of_nil.
  - by intros mv k j v ?%elem_of_nil.
Qed.

Lemma toy_session : session_ok toy_block toy_view.
Proof.
  assert (record_of <$> bk_jobs toy_block = toy_records) as Hrec by done.
  split; rewrite ?Hrec, ?toy_repair_base.
  - apply toy_snapshot_is.
  - apply toy_closed.
  - apply toy_base_sound.
  - apply toy_layers.
  - by vm_compute.
  - done.
  - intros [|[|[|k]]] job; cbn; by intros [= <-].
  - apply toy_view_ok.
  - by repeat constructor.
  - apply toy_block_ok.
  - apply toy_block_blind.
Qed.

Lemma toy_fresh : fresh toy_block toy_mem.
Proof.
  assert (∀ (a : Address), BaseCache.get_account BaseCache.new a = None) as Ha.
  { intros a. unfold BaseCache.get_account, BaseCache.new. cbn [BaseCache.accounts]. destruct (replicate _ _ !! _) eqn:E; [|done].
    by apply lookup_replicate in E as [-> _]. }
  assert (∀ (a : Address) k, BaseCache.get_slot BaseCache.new a k = None) as Hs.
  { intros a k. unfold BaseCache.get_slot, BaseCache.new. cbn [BaseCache.storage]. destruct (replicate _ _ !! _) eqn:E; [|done].
    by apply lookup_replicate in E as [-> _]. }
  split; [|apply new_acc_versions|apply new_slot_versions]. split; [apply new_mv_ok|done| | | |done]; cbn [mem_mv mem_base toy_mem].
  - intros a j f. rewrite new_acc_versions. by intros ?%elem_of_nil.
  - intros a x. by rewrite Ha.
  - intros a k x. by rewrite Hs.
Qed.

(** The facts of the sample run. *)
Definition is_ok {E A} (r : result E A) : bool := match r with Ok _ => true | Err _ => false end.

Lemma toy_sequential : is_ok (sequential_inner toy_snapshot (Some toy_base) toy_env toy_records) = true.
Proof. by vm_compute. Qed.

Lemma toy_results_all : results (run_schedule toy_block toy_mem toy_schedule) = (Some ∘ Ok) <$> toy_results.
Proof. by vm_compute. Qed.

Lemma toy_prefix : is_ok (serial_prefix (prefix_start toy_block) toy_results) = true.
Proof. by vm_compute. Qed.

Lemma toy_chunks : n_chunks 2 (length toy_results) = 2%nat.
Proof. by vm_compute. Qed.

Lemma toy_wounds : length (serial_wounded (mem_mv (mc_mem (run_schedule toy_block toy_mem toy_schedule))) toy_results) = 2%nat.
Proof. by vm_compute. Qed.

Lemma stm_serializable_witness : let m := run_schedule toy_block toy_mem toy_schedule in
  ∃ receipts delta, sequential_inner toy_snapshot (Some toy_base) toy_env toy_records = Ok (receipts, delta) ∧
    block_tail 2 [1; 0]%nat toy_block (mem_mv (mc_mem m)) (results m) = Ok (receipts, delta, 2%nat).
Proof.
  intros m. pose proof toy_sequential as Hs. pose proof toy_prefix as Hp.
  destruct (sequential_inner toy_snapshot (Some toy_base) toy_env toy_records) as [[receipts delta]|] eqn:Hseq; [|discriminate Hs].
  destruct (serial_prefix (prefix_start toy_block) toy_results) as [rs'|] eqn:Hpre; [|discriminate Hp].
  exists receipts, delta. split; [reflexivity|]. rewrite <-toy_wounds.
  refine (stm_serializable toy_block toy_view toy_mem toy_schedule 2 [1; 0]%nat toy_results rs' receipts delta toy_session toy_fresh toy_results_all Hpre _ _ _).
  - lia.
  - rewrite toy_chunks. apply Permutation_swap.
  - exact Hseq.
Defined.

(** ** The workers drain a block

    A transaction never waits for another inside its execution: its tree ends on
    whatever answers it gets. So a schedule that gives every transaction a turn
    again and again fills every result cell. *)

Section live.
Context `{Evm} (b : Block).

(** One turn of one transaction. *)
Definition smaller (s' s : Status) : Prop :=
  match s with
  | Waiting => ∃ t, s' = Running t
  | Running (Vis e k) => ∃ x, s' = Running (k x)
  | Running (Ret r) => s' = Finished r
  | Finished _ => False
  end.

Lemma smaller_wf s : Acc smaller s.
Proof.
  assert (∀ r, Acc smaller (Finished r)) as Hf by (intros r; by constructor).
  assert (∀ t, Acc smaller (Running t)) as Hr.
  { induction t as [r|X e k IH]; constructor; intros s'; cbn; [by intros ->|]. intros [x ->]. apply IH. }
  destruct s; [|done|done]. constructor. by intros s' [t ->].
Qed.

Inductive moves : list Status → list Status → Prop :=
| moves_at i s s' l : l !! i = Some s → smaller s' s → moves (<[i := s']> l) l.

Lemma moves_cons s l : Acc smaller s → Acc moves l → Acc moves (s :: l).
Proof.
  intros Hs. revert l. induction Hs as [s _ IHs]. intros l Hl. induction Hl as [l Hl IHl]. constructor. intros l' Hl'.
  inversion Hl' as [i s1 s2 l1 Hi Hsm]; subst. destruct i as [|i]; cbn in *.
  - injection Hi as ->. apply IHs; [done|]. by constructor.
  - apply IHl. by econstructor.
Qed.

Lemma moves_wf l : Acc moves l.
Proof. induction l as [|s l IH]; [constructor; intros l' Hl'; inversion Hl'; done|]. apply moves_cons; [apply smaller_wf|done]. Qed.

Definition unfinished (m : Machine) (i : nat) : Prop :=
  match mc_txs m !! i with Some (Finished _) | None => False | _ => True end.

#[export] Instance unfinished_dec m i : Decision (unfinished m i).
Proof. unfold unfinished. destruct (mc_txs m !! i) as [[]|]; apply _. Defined.

Lemma step_length i m : length (mc_txs (step b i m)) = length (mc_txs m).
Proof.
  unfold step. destruct (mc_txs m !! i) as [[|[r|X e k]|r]|], (bk_jobs b !! i); cbn; try done; [by rewrite length_insert..|].
  destruct (access _ _). cbn. by rewrite length_insert.
Qed.

Lemma step_moves i m : length (mc_txs m) = length (bk_jobs b) → unfinished m i → moves (mc_txs (step b i m)) (mc_txs m).
Proof.
  intros Hlen. unfold unfinished, step. destruct (mc_txs m !! i) as [s|] eqn:Es; [|done]. pose proof (lookup_lt_Some _ _ _ Es) as Hlt. rewrite Hlen in Hlt.
  apply lookup_lt_is_Some in Hlt as [job ->]. destruct s as [|[r|X e k]|r]; intros Hu; [eapply moves_at; [exact Es|cbn; by eauto]|by eapply moves_at| |done].
  destruct (access _ _) as [x mem] eqn:Ea. eapply moves_at; [exact Es|cbn; by eauto].
Qed.

Lemma step_idle i m : ¬ unfinished m i → step b i m = m.
Proof. unfold unfinished, step. destruct (mc_txs m !! i) as [[]|]; [tauto|tauto|done|done]. Qed.

(** The cells of a machine are filled. *)
Definition drained (m : Machine) : Prop := Forall is_Some (results m).

Lemma drained_iff m : drained m ↔ ∀ i, ¬ unfinished m i.
Proof.
  unfold drained, results. rewrite Forall_fmap, Forall_lookup. unfold unfinished. split.
  - intros Hd i. specialize (Hd i). destruct (mc_txs m !! i) as [s|]; [|tauto]. specialize (Hd s eq_refl). destruct s; cbn in Hd; [by destruct Hd..|tauto].
  - intros Hn i s Hs. specialize (Hn i). rewrite Hs in Hn. destruct s; cbn; [tauto|tauto|by eexists].
Qed.

#[export] Instance drained_dec m : Decision (drained m).
Proof. unfold drained. apply _. Defined.

(** Turns [n], [n + 1], ... of an endless schedule. *)
Definition turns (f : nat → nat) (n k : nat) (m : Machine) : Machine := fold_left (λ m i, step b i m) (f <$> seq n k) m.

Lemma turns_S f n k m : turns f n (S k) m = turns f (S n) k (step b (f n) m).
Proof. done. Qed.

(** Every transaction has a turn after any time. *)
Definition fair (f : nat → nat) : Prop := ∀ i n, (i < length (bk_jobs b))%nat → ∃ k, (n ≤ k)%nat ∧ f k = i.

(** Before an unfinished transaction has its turn, something moves. *)
Lemma turns_move f n k m i : length (mc_txs m) = length (bk_jobs b) → unfinished m i → f (n + k) = i →
  ∃ j, (j ≤ k)%nat ∧ turns f n j m = m ∧ unfinished m (f (n + j)).
Proof.
  intros Hlen Hi. revert n. induction k as [|k IH]; intros n Hk; [exists 0%nat; split; [lia|]; split; [done|by rewrite Hk]|].
  destruct (decide (unfinished m (f n))) as [Hu|Hu]; [exists 0%nat; split; [lia|]; split; [done|by rewrite Nat.add_0_r]|].
  destruct (IH (S n)) as (j & Hj & Ht & Hun); [by rewrite Nat.add_succ_comm|]. exists (S j). split; [lia|].
  rewrite turns_S, step_idle by done. split; [done|]. by rewrite <-Nat.add_succ_comm.
Qed.

Lemma turns_add f n j k m : turns f n (j + k) m = turns f (n + j) k (turns f n j m).
Proof. unfold turns. by rewrite seq_app, fmap_app, fold_left_app. Qed.

Lemma turns_drain f n m : fair f → length (mc_txs m) = length (bk_jobs b) → ∃ k, drained (turns f n k m).
Proof.
  intros Hf. remember (mc_txs m) as l eqn:El. pose proof (moves_wf l) as Hacc. revert n m El. induction Hacc as [l _ IH]. intros n m -> Hlen.
  destruct (decide (drained m)) as [Hd|Hd]; [by exists 0%nat|].
  assert (∃ i, unfinished m i) as [i Hi].
  { destruct (decide (Exists (λ i, unfinished m i) (seq 0 (length (mc_txs m))))) as [(i & _ & Hi)%Exists_exists|Hn]; [by exists i|].
    destruct Hd. apply drained_iff. intros i Hi. apply Hn, Exists_exists. exists i. split; [|done]. apply elem_of_seq.
    unfold unfinished in Hi. destruct (mc_txs m !! i) eqn:E; [|done]. apply lookup_lt_Some in E. lia. }
  destruct (Hf i n) as (k & Hnk & Hk).
  { unfold unfinished in Hi. destruct (mc_txs m !! i) eqn:E; [|done]. apply lookup_lt_Some in E. lia. }
  destruct (turns_move f n (k - n) m i Hlen Hi) as (j & _ & Hj & Hu); [by replace (n + (k - n))%nat with k by lia|].
  destruct (IH (mc_txs (step b (f (n + j)) m)) (step_moves _ _ Hlen Hu) (S (n + j)) _ eq_refl) as (k' & Hk'); [by rewrite step_length|].
  exists (j + S k')%nat. by rewrite turns_add, Hj, turns_S.
Qed.

(** The workers drain every block: under any schedule that is fair to the
    transactions, whatever it is and whatever the memory they start from, a time
    comes at which every result cell is filled. *)
Theorem fair_schedule_drains mem f : fair f → ∃ n, drained (run_schedule b mem (f <$> seq 0 n)).
Proof. intros Hf. apply (turns_drain f 0 (start b mem) Hf). cbn. by rewrite length_replicate. Qed.
End live.

(** Round robin. *)
Lemma fair_schedule_drains_witness : ∃ n, drained (run_schedule toy_block toy_mem ((λ k, k mod 3)%nat <$> seq 0 n)).
Proof.
  apply fair_schedule_drains. intros i n Hi. exists (3 * n + i)%nat. split; [lia|]. change (length (bk_jobs toy_block)) with 3%nat in Hi.
  rewrite Nat.add_comm, Nat.mul_comm, Nat.Div0.mod_add. apply Nat.mod_small. lia.
Defined.
