(* ===== verification/StmRelease.v ===== *)
(** * The early release of a block

    A block ships its multi-version cache to its successor before its verdict,
    with the fee sink's final account beside it. When no result is wounded, what
    the successor reads through them is the state after the block. A pool that is
    scrubbed and advanced by the committed delta is fresh for the next block. *)
From S2P Require Import Prelude Bytes Types Fees WriteSet WriteSetSpec Effects ExecScope ExecScopeSpec ExecSample ExecBlockSpec StmMv StmMvSpec StmView StmWorker.
From S2P Require Import StmTail StmInv StmCredit StmLanes StmSpec.

(** A read above every version of the block. *)
Lemma read_above {V} (l : Versions V) n idx : sorted l → (∀ j v, (j, v) ∈ l → (j < n)%N) → (n ≤ idx)%N → version_read idx l = version_read n l.
Proof.
  intros Hl Hlt Hle. destruct (version_read n l) as [[j v]|] eqn:E.
  - apply version_read_Some in E as (Hj & Hjn & Hmax); [|done]. apply version_read_Some; [done|]. split; [done|]. split; [lia|].
    intros j' v' Hj' _. apply (Hmax j' v' Hj'). by eapply Hlt.
  - rewrite version_read_None in E by done. apply version_read_None; [done|]. intros j v Hj. pose proof (E j v Hj). pose proof (Hlt j v Hj). lia.
Qed.

Section release.
Context `{Evm} `{Content} {C : CacheDB} `{!CacheLaws C}.

(** The credits of the results. *)
Definition fees (rs : list TxResult) : N := foldr (λ r acc, default 0%N (tr_sink_fee_delta r) + acc)%N 0%N rs.

Lemma fee_sum_fees p rs rs' acc : serial_prefix p rs = Ok rs' → (acc ≤ px_sink_running p)%N → (px_sink_running p ≤ u256_max)%N →
  fee_sum acc ((Some ∘ Ok) <$> rs) = Ok (acc + fees rs)%N ∧ (px_sink_running p + fees rs ≤ u256_max)%N.
Proof.
  revert p rs' acc. induction rs as [|r rs IH]; intros p rs' acc; cbn [serial_prefix fmap list_fmap fee_sum fees foldr]; [intros _; rewrite !N.add_0_r; done|].
  unfold prefix_apply, u256_checked_add. set (d := default 0%N (tr_sink_fee_delta r)).
  destruct (N.leb_spec (px_sink_running p + d) u256_max) as [Hle|]; [|done].
  destruct (serial_prefix _ rs) as [rs1|] eqn:E; [|done]. intros _ Hacc Hmax.
  destruct (IH _ rs1 (acc + d)%N E) as [Hf Hs]; cbn [px_sink_running] in *; [lia|lia|]. fold (fees rs).
  cbn. fold d. rewrite (proj2 (N.leb_le (acc + d) u256_max)) by lia. rewrite N.add_assoc, N.add_assoc. by split.
Qed.

Context (b : Block) (V0 : View) (F : Mem) (Hok : mem_ok b F).
Abbreviation sink := (bk_sink b).
Abbreviation s0 := (v_basic V0 sink).
Context (HB : bl_sink_start_balance (bk_bound b) = balance_of s0).
Context (Vs : View) (Hs : snapshot_is (bk_snapshot b) Vs) (Hcl : closed (snapshot_knows (bk_snapshot b)) Vs).

(** The final memory is the state after the block, but for the sink, whose
    balance is the sum of the credits. *)
Lemma clean_view i jobs rs rs' c d out : let W := overlay_delta Vs d in numbered i jobs → (c ≤ u64_max)%N →
  stm_view b V0 F (N.of_nat i) ≡ reset_sink sink s0 W → Forall2 (λ job r, ∃ e, good b V0 job F r e) jobs rs →
  (∀ k r, rs !! k = Some r → stale (mem_mv F) (i + k) r = false) →
  delta_sound (snapshot_knows (bk_snapshot b)) Vs d → block_fits (bk_env b) W (N.of_nat i) (record_of <$> jobs) →
  block_blind (bk_env b) s0 W (N.of_nat i) (record_of <$> jobs) →
  block_spec (bk_env b) W c (N.of_nat i) (record_of <$> jobs) = Ok out →
  serial_prefix (mkPrefix c (balance_of (v_basic W sink)) sink) rs = Ok rs' →
  let W' := overlay_delta Vs (fold_left PendingDelta.apply out.*2 d) in
  stm_view b V0 F (N.of_nat (i + length jobs)) ≡ reset_sink sink s0 W' ∧
  balance_of (v_basic W' sink) = (balance_of (v_basic W sink) + fees rs)%N.
Proof.
  intros W Hn Hc HV Hg. subst W. revert i c d rs' out Hn Hc HV.
  induction Hg as [|job r jobs rs [e0 Hg] _ IH]; intros i c d rs' out Hn Hc HV Hst Hd Hbok Hb.
  { intros [= <-] _. cbn. rewrite Nat.add_0_r, N.add_0_r. done. }
  pose proof Hbok as Hbok0. rewrite fmap_cons in *. cbn [block_spec block_blind serial_prefix] in *.
  apply numbered_cons in Hn as [[Hi Hdec] Hn]. destruct Hb as [Hb Hrest]. rewrite (record_slot (N.of_nat i)), record_decoded in * by done.
  destruct (tx_spec _ _ _ _ _) as [[receipt ws]|] eqn:Etx; [|done]. destruct (block_spec _ (overlay _ ws) _ _ _) as [out'|] eqn:Eout; [|done].
  intros [= <-]. destruct (prefix_apply _ r) as [[p r']|] eqn:Ep; [|done]. destruct (serial_prefix p rs) as [rs1|] eqn:Ers; [|done]. intros _.
  assert (stale (mem_mv F) i r = false) as Hst0 by (rewrite <-(Nat.add_0_r i); by apply (Hst 0)).
  destruct (layered_step b Vs _ _ jobs _ _ _ _ Hd Hi Hdec Hbok0 Etx) as (Hd' & Hov & Hbok').
  destruct (kept_step b V0 F Hok HB i job c _ r e0 p r' receipt ws Hi Hc HV Hg Hst0 Hb Etx Ep) as (Hp & Hws & Hfin & Hcu & HV').
  destruct (tx_spec_ending _ _ _ _ _ _ _ Etx) as (e & He & _ & ->).
  assert (px_sink_running p = balance_of (v_basic (overlay_delta Vs d) sink) + default 0%N (tr_sink_fee_delta r))%N as Hrun.
  { unfold prefix_apply, u256_checked_add in Ep. cbn [px_sink_running] in Ep. destruct (_ <=? _)%N; [|done]. by injection Ep as <- _. }
  rewrite Hp in Ers, Hrun. cbn [px_sink_running] in Hrun. rewrite <-(proj1 Hov sink) in Ers, Hrun.
  destruct (IH (S i) (cumulative_gas_used receipt) (PendingDelta.apply d (ending_ws e)) rs1 out') as [IH1 IH2]; [done..| | | | | | |done|].
  - rewrite HV'. by apply reset_sink_proper.
  - intros k r1 Hr1. rewrite Nat.add_succ_comm. by apply (Hst (S k)).
  - done.
  - by replace (N.of_nat (S i)) with (N.of_nat i + 1)%N by lia.
  - eapply block_blind_proper; [symmetry; exact Hov|]. replace (N.of_nat (S i)) with (N.of_nat i + 1)%N by lia. apply (Hrest c).
    rewrite (record_slot (N.of_nat i)) by done. exact He.
  - replace (N.of_nat (S i)) with (N.of_nat i + 1)%N by lia.
    by rewrite (block_spec_proper _ _ _ Hov _ _ eq_refl _ _ eq_refl _ _ eq_refl).
  - cbn [fmap list_fmap fold_left length]. rewrite <-Nat.add_succ_comm. split; [exact IH1|]. cbn [snd]. rewrite IH2, Hrun. cbn [fees foldr]. fold (fees rs). lia.
Qed.

End release.

Section faithful.
Context `{EvmLaws} {C : CacheDB} `{!CacheLaws C}.

(** The input of a successor that is bound to the release. *)
Definition next_input (b : Block) (mv : MvCache.t) : BlockInput.t :=
  BlockInput.mk (bk_snapshot b) (Some (bk_base b)) (bl_layers (bk_bound b)) (mv :: bl_mv_layers (bk_bound b)).

Lemma next_account b mv a : BlockInput.basic_ref (next_input b mv) a =
  match MvCache.read_account mv BlockInput.u32_MAX a with
  | Some (_, f) => Ok (Some (account_info f))
  | None => BlockInput.basic_ref (block_input b) a
  end.
Proof. unfold BlockInput.basic_ref, BlockInput.layered_account, next_input. cbn. by destruct (MvCache.read_account _ _ _) as [[j f]|]. Qed.

Lemma next_slot b mv a k : BlockInput.storage_ref (next_input b mv) a k =
  match MvCache.read_slot mv BlockInput.u32_MAX a k with
  | Some (_, v) => Ok v
  | None => BlockInput.storage_ref (block_input b) a k
  end.
Proof. unfold BlockInput.storage_ref, BlockInput.layered_slot, next_input. cbn. by destruct (MvCache.read_slot _ _ _ _) as [[j f]|]. Qed.

(** C10. The early release of a block is its state: when no result of a block is
    wounded, a successor that probes the released cache over the block's own layers
    reads every slot, and every account but the fee sink, as the sequential run of
    the block leaves them, and the sink that rides along has the balance that the
    sequential run leaves it. The session is one of [session_ok], and the memory is
    [fresh]. *)
Theorem early_release_faithful b Vs mem schedule rs rs' receipts delta :
  session_ok b Vs → fresh b mem →
  let m := run_schedule b mem schedule in
  results m = (Some ∘ Ok) <$> rs → serial_prefix (prefix_start b) rs = Ok rs' → serial_wounded (mem_mv (mc_mem m)) rs = [] →
  (N.of_nat (length (bk_jobs b)) ≤ BlockInput.u32_MAX)%N → (bl_sink_start_balance (bk_bound b) ≤ u256_max)%N →
  sequential_inner (bk_snapshot b) (Some (repair_base b)) (bk_env b) (record_of <$> bk_jobs b) = Ok (receipts, delta) →
  let V1 := overlay_delta Vs (PendingDelta.merge_from (repair_base b) delta) in
  ∃ mv sink_final, send_early_mv b (mem_mv (mc_mem m)) (results m) = Ok (mv, sink_final) ∧
    (∀ a, a ≠ bk_sink b → BlockInput.basic_ref (next_input b mv) a = Ok (v_basic V1 a)) ∧
    (∀ a k, BlockInput.storage_ref (next_input b mv) a k = Ok (v_storage V1 a k)) ∧
    balance_of sink_final = balance_of (v_basic V1 (bk_sink b)).
Proof.
  intros Hs Hfresh m Hres Hpre Hwd Hn Hmax Hseq V1. destruct (sequential_spec _ _ _ _ Hs Hseq) as (out & Hout & _ & ->).
  set (V0 := overlay_delta Vs (repair_base b)) in *.
  assert (input_is b V0) as Hin by (apply merged_input; apply Hs).
  destruct (results_good b V0 Hin mem schedule rs (session_jobs_ok _ _ Hs) Hfresh Hres) as (HF & Hot & Hgood). fold m in HF, Hot, Hgood.
  assert (bl_sink_start_balance (bk_bound b) = balance_of (v_basic V0 (bk_sink b))) as HB by (rewrite (session_sink_balance _ _ Hs); f_equal; apply Hs).
  pose proof (session_blind _ _ Hs) as Hblind. rewrite (session_sink _ _ Hs) in Hblind. fold V0 in Hblind.
  unfold prefix_start in Hpre. destruct (fee_sum_fees _ _ _ 0 Hpre) as [Hfee Hle]; cbn [px_sink_running] in *; [lia|done|].
  rewrite HB in Hpre.
  destruct (clean_view b V0 (mc_mem m) HF HB Vs 0 (bk_jobs b) rs rs' 0 (repair_base b) out) as [HV Hbal]; try done; [apply Hs|by apply stm_view_0| |apply Hs|by apply session_fits|].
  { intros k r Hr. apply (wounded_set_stale _ rs); [done|]. by rewrite Hwd. }
  rewrite <-(merge_new (repair_base b)), <-merge_applies in HV, Hbal. fold V1 in HV, Hbal. rewrite merge_new in Hbal. fold V0 in Hbal. cbn [Nat.add] in HV.
  exists (mem_mv (mc_mem m)), (match bl_sink_start (bk_bound b) with
    | Some a => Some (mkFields (af_nonce a) (bl_sink_start_balance (bk_bound b) + fees rs) (af_code_hash a))
    | None => if (0 <? fees rs)%N then Some (mkFields 0 (fees rs) KECCAK_EMPTY) else None end).
  pose proof (mem_mv_ok _ _ HF) as Hmv. split; [|split; [|split]].
  - unfold send_early_mv. rewrite Hres, Hfee, N.add_0_l. destruct (bl_sink_start _) as [a|]; [|done]. unfold sink_credited, u256_checked_add.
    by rewrite (proj2 (N.leb_le _ _) Hle).
  - intros a Ha. rewrite next_account, read_account_versions. rewrite (read_above _ (N.of_nat (length (bk_jobs b)))); [|by apply acc_sorted| |done].
    + pose proof (proj1 HV a) as Hva. cbn [stm_view reset_sink v_basic] in Hva. rewrite !(decide_False _ _ Ha) in Hva. rewrite <-Hva.
      destruct (version_read _ _) as [[j f]|]; [done|]. by rewrite (input_account _ _ Hin a Ha).
    + intros j f Hj. destruct (N.ltb_spec j (N.of_nat (length (bk_jobs b)))) as [|Hge]; [done|]. apply (Hot j Hge) in Hj. by apply elem_of_nil in Hj.
  - intros a k. rewrite next_slot, read_slot_versions. rewrite (read_above _ (N.of_nat (length (bk_jobs b)))); [|by apply slot_sorted| |done].
    + pose proof (proj2 HV a k) as Hva. cbn [stm_view reset_sink v_storage] in Hva. rewrite <-Hva.
      destruct (version_read _ _) as [[j f]|]; [done|]. by rewrite (input_slot _ _ Hin a k).
    + intros j f Hj. destruct (N.ltb_spec j (N.of_nat (length (bk_jobs b)))) as [|Hge]; [done|]. apply (Hot j Hge) in Hj. by apply elem_of_nil in Hj.
  - rewrite Hbal, <-HB. pose proof (session_sink_balance _ _ Hs) as Hb. destruct (bl_sink_start _) as [a|]; [done|]. cbn in Hb. rewrite Hb.
    destruct (N.ltb_spec 0 (fees rs)); cbn; lia.
Qed.
End faithful.

(** ** Witness *)

Definition toy_in_order : list nat := replicate 40 0%nat ++ replicate 40 1%nat ++ replicate 40 2%nat.

Definition toy_clean : list TxResult :=
  match verify (results (run_schedule toy_block toy_mem toy_in_order)) with Ok rs => rs | Err _ => [] end.

Lemma toy_clean_all : results (run_schedule toy_block toy_mem toy_in_order) = (Some ∘ Ok) <$> toy_clean.
Proof. by vm_compute. Qed.

Lemma toy_clean_prefix : is_ok (serial_prefix (prefix_start toy_block) toy_clean) = true.
Proof. by vm_compute. Qed.

Lemma toy_clean_wounds : serial_wounded (mem_mv (mc_mem (run_schedule toy_block toy_mem toy_in_order))) toy_clean = [].
Proof. by vm_compute. Qed.

Lemma early_release_faithful_witness : let m := run_schedule toy_block toy_mem toy_in_order in
  ∃ delta mv sink_final, send_early_mv toy_block (mem_mv (mc_mem m)) (results m) = Ok (mv, sink_final) ∧
    balance_of sink_final = balance_of (v_basic (overlay_delta toy_view (PendingDelta.merge_from toy_base delta)) 9%N).
Proof.
  intros m. pose proof toy_sequential as Hs. pose proof toy_clean_prefix as Hp.
  destruct (sequential_inner toy_snapshot (Some toy_base) toy_env toy_records) as [[receipts delta]|] eqn:Hseq; [|discriminate Hs].
  destruct (serial_prefix (prefix_start toy_block) toy_clean) as [rs'|] eqn:Hpre; [|discriminate Hp].
  destruct (early_release_faithful toy_block toy_view toy_mem toy_in_order toy_clean rs' receipts delta toy_session toy_fresh toy_clean_all Hpre toy_clean_wounds)
    as (mv & sink_final & Hsend & _ & _ & Hbal); [discriminate|discriminate|exact Hseq|]. exists delta, mv, sink_final. split; [exact Hsend|exact Hbal].
Defined.

(** ** What the hypotheses of serializability exclude

    The base cache of the pool has to follow the snapshot, and the repair has to
    start from the sink that the session was bound to. The first is what
    [advance_base] is for; without it, and for a session over a predecessor's
    multi-version cache, the engine leaves the sequential one. *)

(** ** The base cache follows the snapshot *)










(** ** A sample of two blocks *)

(** The snapshot once a block is committed. *)
Definition committed (s : StateDatabase) (d : PendingDelta.t) : StateDatabase :=
  mkStateDb (λ a, match PendingDelta.accounts d !! a with Some f => Ok (Some f) | None => sdb_basic s a end)
    (λ a k, match PendingDelta.storage d !! (a, k) with Some v => Ok v | None => sdb_storage s a k end)
    (sdb_code_by_hash s).



(** The pool after the sample block, run in order. *)
Definition toy_after : Machine := run_schedule toy_block toy_mem toy_in_order.

Definition toy_delta : PendingDelta.t := fold_inline (match serial_prefix (prefix_start toy_block) toy_clean with Ok rs => rs | Err _ => [] end) 9.

(** A transfer from account 1 in the next block, over the committed snapshot. *)
Definition toy_next : Block :=
  mkBlock toy_env (committed toy_snapshot (PendingDelta.merge_from toy_base toy_delta)) PendingDelta.new
    (mkBound [] [] (Some (mkFields 0 400000 KECCAK_EMPTY)) 400000) [toy_job (toy_record 0 1 2 2 5)].

(** The next block on a pool whose base cache is [c]. *)
Definition toy_run_next (c : BaseCache.t) : result ExecutorError (list Receipt * PendingDelta.t * nat) :=
  let m := run_schedule toy_next (mkMem (MvCache.scrub (mem_mv (mc_mem toy_after))) c) (replicate 40 0%nat) in
  block_tail 1 [0%nat] toy_next (mem_mv (mc_mem m)) (results m).

Definition statuses {A} (r : result ExecutorError (list Receipt * A)) : option (list bool) :=
  match r with Ok (receipts, _) => Some (status <$> receipts) | Err _ => None end.

Definition outcome (r : result ExecutorError (list Receipt * PendingDelta.t * nat)) : option (list bool * nat) :=
  match r with Ok (receipts, _, wounds) => Some (status <$> receipts, wounds) | Err _ => None end.


(** The base cache that a block leaves is stale for the next: a pool that is not
    advanced skips a transaction that the sequential engine runs, and finds no
    wound; advanced by the delta of the block, it runs it. *)
Example pool_cache_goes_stale :
  statuses (sequential_inner (bk_snapshot toy_next) (Some (repair_base toy_next)) toy_env (record_of <$> bk_jobs toy_next)) = Some [true] ∧
  outcome (toy_run_next (mem_base (mc_mem toy_after))) = Some ([false], 0%nat) ∧
  outcome (toy_run_next (BaseCache.advance_base (mem_base (mc_mem toy_after)) toy_delta)) = Some ([true], 0%nat).
Proof. by vm_compute. Qed.

(** ** Repair over a released cache *)

(** The next block over the release of the sample block: a burn, then a transfer of
    the same sender that runs first. *)
Definition toy_over_release : result ExecutorError Block :=
  match send_early_mv toy_block (mem_mv (mc_mem toy_after)) (results toy_after) with
  | Err e => Err e
  | Ok (mv, sink_final) =>
    match bind toy_snapshot toy_base 9 (Mv [mv] sink_final []) with
    | Err e => Err e
    | Ok bound => Ok (mkBlock toy_env toy_snapshot toy_base bound (toy_job <$> [toy_record 0 1 2 2 1000000; toy_record 1 1 3 2 5]))
    end
  end.

Definition sink_of (d : PendingDelta.t) : option N := af_balance <$> PendingDelta.accounts d !! 9%N.

(** The repair of a session over a predecessor's multi-version cache starts from
    the sink that the snapshot has, not from the one the session was bound to: when
    no kept transaction credits the sink, the block's delta loses the fees of the
    predecessor. *)
Example mv_repair_loses_sink :
  match toy_over_release with
  | Ok b =>
    let m := run_schedule b toy_mem (replicate 40 1%nat ++ replicate 40 0%nat) in
    bl_sink_start_balance (bk_bound b) = 400000%N ∧
    match block_tail 1 [0%nat] b (mem_mv (mc_mem m)) (results m) with
    | Ok (_, delta, wounds) => wounds = 1%nat ∧ sink_of delta = Some 200000%N
    | Err _ => False
    end ∧
    match sequential_inner toy_snapshot (Some (PendingDelta.merge_from toy_base toy_delta)) toy_env (record_of <$> bk_jobs b) with
    | Ok (_, delta) => sink_of delta = Some 600000%N
    | Err _ => False
    end
  | Err _ => False
  end.
Proof. by vm_compute. Qed.
