(* ===== verification/StmTouch.v ===== *)
(** * The last-toucher index of Block-STM

    Models [crates/stm/src/execute/touch.rs]: a flat table from the hash of a cell
    to the last transaction of the block that touched it, with linear probing and a
    stamp that empties it in one step. The loop of [upsert] has no bound in the
    source; here it runs on fuel, and a full turn around the table is enough fuel
    to know whether it ends. The per-shard tables are not modelled. *)
From S2P Require Import Prelude.

Record TouchSlot : Type := mkTouch { ts_hash : N; ts_idx : nat; ts_stamp : N }.

#[export] Instance touch_slot_inhabited : Inhabited TouchSlot := populate (mkTouch 0 0 0).

(** [usize::next_power_of_two], of which zero is one. *)
Definition next_power_of_two (n : nat) : nat := 2 ^ Nat.log2_up n.

(** [Pow2::new]: rounded up at construction. *)
Definition Pow2_new (n : nat) : nat := next_power_of_two n.

Inductive Probe : Type :=
| Done (prev : option nat)
| Continue.

Module TouchTable.
Record t : Type := mk { slots : list TouchSlot; mask : N; stamp : N }.

Definition new (capacity_pow2 : nat) : t := mk (replicate capacity_pow2 (mkTouch 0 0 0)) (N.of_nat capacity_pow2 - 1) 0.

Definition hard_clear (tb : t) : t :=
  mk ((λ s, mkTouch (ts_hash s) (ts_idx s) 0) <$> slots tb) (mask tb) 1.

Definition clear (tb : t) : t :=
  let tb := mk (slots tb) (mask tb) ((stamp tb + 1) mod 2 ^ 32) in
  if (stamp tb =? 0)%N then hard_clear tb else tb.

Definition probe_slot (tb : t) (hash : N) (idx i : nat) : t * nat * Probe :=
  let slot := slots tb !!! i in
  if negb (ts_stamp slot =? stamp tb)%N then
    (mk (<[i := mkTouch hash idx (stamp tb)]> (slots tb)) (mask tb) (stamp tb), i, Done None)
  else if (ts_hash slot =? hash)%N then
    (mk (<[i := mkTouch (ts_hash slot) idx (ts_stamp slot)]> (slots tb)) (mask tb) (stamp tb), i, Done (Some (ts_idx slot)))
  else (tb, N.to_nat (N.land (N.of_nat (i + 1)) (mask tb)), Continue).

Fixpoint upsert_loop (fuel : nat) (tb : t) (hash : N) (idx i : nat) : option (option nat * t) :=
  match fuel with
  | O => None
  | S fuel =>
    match probe_slot tb hash idx i with
    | (tb, _, Done r) => Some (r, tb)
    | (tb, i, Continue) => upsert_loop fuel tb hash idx i
    end
  end.

Definition home (tb : t) (hash : N) : nat := N.to_nat (N.land hash (mask tb)).

(** [None] when the loop never ends. *)
Definition upsert (tb : t) (hash : N) (idx : nat) : option (option nat * t) :=
  upsert_loop (length (slots tb)) tb hash idx (home tb hash).

(** ** Probing *)

Record wf (tb : t) : Prop := {
  wf_capacity : ∃ k, length (slots tb) = 2 ^ k ∧ mask tb = (2 ^ N.of_nat k - 1)%N;
  wf_stamps : ∀ i s, slots tb !! i = Some s → (ts_stamp s ≤ stamp tb)%N;
  wf_stamp : (stamp tb < 2 ^ 32)%N;
}.

(** The [d]-th slot that a probe for [hash] visits. *)
Definition pos (tb : t) (hash : N) (d : nat) : nat := (home tb hash + d) mod length (slots tb).

Definition at_ (tb : t) (hash : N) (d : nat) : TouchSlot := slots tb !!! pos tb hash d.

Definition live (tb : t) (s : TouchSlot) : Prop := ts_stamp s = stamp tb.

#[export] Instance live_dec tb s : Decision (live tb s).
Proof. unfold live. apply _. Defined.

(** The probe goes past a live slot of another cell. *)
Definition passed (tb : t) (hash : N) (s : TouchSlot) : Prop := live tb s ∧ ts_hash s ≠ hash.

#[export] Instance passed_dec tb hash s : Decision (passed tb hash s).
Proof. unfold passed. apply _. Defined.

Section probing.
Context (tb : t) (Hwf : wf tb).

Lemma capacity_pos : 0 < length (slots tb).
Proof. destruct (wf_capacity _ Hwf) as (k & -> & _). apply Nat.neq_0_lt_0, Nat.pow_nonzero. lia. Qed.

Lemma land_mask x : N.to_nat (N.land x (mask tb)) = (N.to_nat x mod length (slots tb)).
Proof.
  destruct (wf_capacity _ Hwf) as (k & -> & ->). rewrite <-N.pred_sub, <-N.ones_equiv, N.land_ones, N2Nat.inj_mod, N2Nat.inj_pow.
  by rewrite Nat2N.id.
Qed.

Lemma pos_lt hash d : pos tb hash d < length (slots tb).
Proof. pose proof capacity_pos. apply Nat.mod_upper_bound. lia. Qed.

Lemma pos_0 hash : pos tb hash 0 = home tb hash.
Proof. pose proof capacity_pos. unfold pos, home. rewrite Nat.add_0_r, land_mask, Nat.Div0.mod_mod. done. Qed.

Lemma pos_S hash d : N.to_nat (N.land (N.of_nat (pos tb hash d + 1)) (mask tb)) = pos tb hash (S d).
Proof.
  rewrite land_mask, Nat2N.id. unfold pos. rewrite Nat.Div0.add_mod_idemp_l. f_equal. lia.
Qed.

(** A full turn visits every slot once. *)
Lemma pos_inj hash d d' : d < length (slots tb) → d' < length (slots tb) → pos tb hash d = pos tb hash d' → d = d'.
Proof.
  intros Hd Hd' Heq. unfold pos in Heq. pose proof capacity_pos as Hc. set (c := length (slots tb)) in *. set (a := home tb hash) in *.
  pose proof (Nat.div_mod_eq (a + d) c). pose proof (Nat.div_mod_eq (a + d') c). rewrite Heq in *.
  assert ((a + d) / c = (a + d') / c); [|lia]. nia.
Qed.

Lemma pos_surj hash i : i < length (slots tb) → ∃ d, d < length (slots tb) ∧ pos tb hash d = i.
Proof.
  intros Hi. pose proof capacity_pos as Hc. pose proof (pos_lt hash 0) as Hh. rewrite pos_0 in Hh.
  unfold pos. set (c := length (slots tb)) in *. set (a := home tb hash) in *.
  destruct (decide (a ≤ i)).
  - exists (i - a). split; [lia|]. rewrite Nat.mod_small; lia.
  - exists (c + i - a). split; [lia|]. replace (a + (c + i - a)) with (i + 1 * c) by lia. rewrite Nat.Div0.mod_add. by apply Nat.mod_small.
Qed.

Lemma probe_passed hash idx d : passed tb hash (at_ tb hash d) → probe_slot tb hash idx (pos tb hash d) = (tb, pos tb hash (S d), Continue).
Proof.
  intros [Hl Hh]. unfold probe_slot. fold (at_ tb hash d). apply N.eqb_eq in Hl as ->. apply N.eqb_neq in Hh as ->. cbn. by rewrite pos_S.
Qed.

(** The loop ends at the first slot that the probe does not go past. *)
Lemma upsert_loop_stop hash idx d k fuel : (∀ j, j < k → passed tb hash (at_ tb hash (d + j))) → k < fuel → ¬ passed tb hash (at_ tb hash (d + k)) →
  upsert_loop fuel tb hash idx (pos tb hash d) =
    Some (let '(tb', _, p) := probe_slot tb hash idx (pos tb hash (d + k)) in (match p with Done r => r | Continue => None end, tb')).
Proof.
  revert d fuel. induction k as [|k IH]; intros d [|fuel] Hp Hk Hstop; try lia; cbn [upsert_loop].
  - rewrite Nat.add_0_r in *. unfold probe_slot. fold (at_ tb hash d). destruct (N.eqb_spec (ts_stamp (at_ tb hash d)) (stamp tb)) as [Hl|Hl]; [|done].
    cbn. destruct (N.eqb_spec (ts_hash (at_ tb hash d)) hash) as [Hh|Hh]; [done|]. by destruct Hstop.
  - rewrite probe_passed. 2: { specialize (Hp 0 ltac:(lia)). by rewrite Nat.add_0_r in Hp. }
    rewrite (IH (S d) fuel); [by rewrite Nat.add_succ_comm| |lia|by rewrite Nat.add_succ_comm].
    intros j Hj. rewrite Nat.add_succ_comm. apply Hp. lia.
Qed.

Lemma upsert_loop_spin hash idx fuel d : (∀ i s, slots tb !! i = Some s → passed tb hash s) → upsert_loop fuel tb hash idx (pos tb hash d) = None.
Proof.
  intros Hall. revert d. induction fuel as [|fuel IH]; intros d; [done|]. cbn [upsert_loop]. rewrite probe_passed; [apply IH|].
  destruct (lookup_lt_is_Some_2 (slots tb) _ (pos_lt hash d)) as [s Hs]. unfold at_. rewrite (list_lookup_total_correct _ _ _ Hs). eauto.
Qed.
End probing.

(** ** The table as a map *)

Record rep (tb : t) (m : gmap N nat) : Prop := {
  rep_wf : wf tb;
  rep_sound : ∀ i s, slots tb !! i = Some s → live tb s → m !! ts_hash s = Some (ts_idx s);
  rep_found : ∀ h, is_Some (m !! h) → ∃ d, d < length (slots tb) ∧ live tb (at_ tb h d) ∧ ts_hash (at_ tb h d) = h ∧
    ∀ j, j < d → passed tb h (at_ tb h j);
  rep_once : ∀ i j s s', slots tb !! i = Some s → slots tb !! j = Some s' → live tb s → live tb s' → ts_hash s = ts_hash s' → i = j;
}.

Lemma at_lookup tb h d : wf tb → slots tb !! pos tb h d = Some (at_ tb h d).
Proof.
  intros Hwf. destruct (lookup_lt_is_Some_2 _ _ (pos_lt tb Hwf h d)) as [s Hs]. unfold at_. by rewrite (list_lookup_total_correct _ _ _ Hs).
Qed.

(** While a cell is missing from a table that is not full, some slot is stale. *)
Lemma rep_stale tb m : rep tb m → size m < length (slots tb) → ∃ i s, slots tb !! i = Some s ∧ ¬ live tb s.
Proof.
  intros Hr Hsz. destruct (decide (Forall (live tb) (slots tb))) as [Hall|Hn].
  - exfalso. rewrite Forall_lookup in Hall. assert (NoDup (ts_hash <$> slots tb)) as Hnd.
    { apply NoDup_alt. intros i j h. rewrite !list_lookup_fmap, !fmap_Some. intros (s & Hs & ->) (s' & Hs' & Heq). eapply (rep_once _ _ Hr); eauto. }
    assert (list_to_set (ts_hash <$> slots tb) ⊆ dom m) as Hsub.
    { intros h. rewrite elem_of_list_to_set, list_elem_of_fmap. intros (s & -> & [i Hs]%list_elem_of_lookup). apply elem_of_dom.
      rewrite (rep_sound _ _ Hr i s) by eauto. by eexists. }
    apply subseteq_size in Hsub. rewrite size_list_to_set, length_fmap, size_dom in Hsub by done. lia.
  - apply not_Forall_Exists, Exists_exists in Hn as (s & [i Hs]%list_elem_of_lookup & Hl); [|apply _]. eauto.
Qed.

Lemma size_list_to_set_le (l : list N) : size (list_to_set l : gset N) ≤ length l.
Proof.
  induction l as [|x l IH]; cbn; [done|]. rewrite size_union_alt, size_singleton.
  assert (size ((list_to_set l : gset N) ∖ {[x]}) ≤ size (list_to_set l : gset N)) by (apply subseteq_size; set_solver). lia.
Qed.

(** A table with as many cells as slots has only live slots. *)
Lemma full_passed tb m h : rep tb m → size m = length (slots tb) → m !! h = None → ∀ i s, slots tb !! i = Some s → passed tb h s.
Proof.
  intros Hr Hsz Hh i s Hs. pose proof (rep_wf _ _ Hr) as Hwf. assert (dom m ⊆ list_to_set (ts_hash <$> filter (live tb) (slots tb))) as Hsub.
  { intros k Hk%elem_of_dom. destruct (rep_found _ _ Hr k Hk) as (d & _ & Hl & Hkd & _). rewrite elem_of_list_to_set, list_elem_of_fmap.
    exists (at_ tb k d). split; [done|]. apply list_elem_of_filter. split; [done|]. eapply list_elem_of_lookup_2. by apply at_lookup. }
  apply subseteq_size in Hsub. rewrite size_dom in Hsub. pose proof (size_list_to_set_le (ts_hash <$> filter (live tb) (slots tb))) as Hle.
  rewrite length_fmap in Hle. destruct (decide (live tb s)) as [Hl|Hl].
  - split; [done|]. intros <-. by rewrite (rep_sound _ _ Hr i s Hs Hl) in Hh.
  - pose proof (length_filter_lt (live tb) (slots tb) s) as Hlt. apply list_elem_of_lookup_2 in Hs. specialize (Hlt Hs Hl). lia.
Qed.

(** The first slot at which a probe stops. *)
Lemma first_stop tb h d : ¬ passed tb h (at_ tb h d) → ∃ k, k ≤ d ∧ ¬ passed tb h (at_ tb h k) ∧ ∀ j, j < k → passed tb h (at_ tb h j).
Proof.
  induction (lt_wf d) as [d _ IH]. intros Hd. destruct (decide (Exists (λ j, ¬ passed tb h (at_ tb h j)) (seq 0 d))) as [(j & Hj%elem_of_seq & Hp)%Exists_exists|Hn].
  - destruct (IH j ltac:(lia) Hp) as (k & ? & ? & ?). exists k. split; [lia|done].
  - exists d. split; [done|]. split; [done|]. intros j Hj. destruct (decide (passed tb h (at_ tb h j))); [done|]. destruct Hn. apply Exists_exists.
    exists j. split; [apply elem_of_seq; lia|done].
Qed.

Lemma upsert_stop tb m h idx : rep tb m → size m < length (slots tb) ∨ is_Some (m !! h) →
  ∃ k, k < length (slots tb) ∧ ¬ passed tb h (at_ tb h k) ∧ (∀ j, j < k → passed tb h (at_ tb h j)) ∧
    upsert tb h idx = Some (let '(tb', _, p) := probe_slot tb h idx (pos tb h k) in (match p with Done r => r | Continue => None end, tb')).
Proof.
  intros Hr Hm. pose proof (rep_wf _ _ Hr) as Hwf. assert (∃ d, d < length (slots tb) ∧ ¬ passed tb h (at_ tb h d)) as (d & Hd & Hp).
  { destruct Hm as [Hsz|Hin].
    - destruct (rep_stale _ _ Hr Hsz) as (i & s & Hs & Hl). destruct (pos_surj tb Hwf h i (lookup_lt_Some _ _ _ Hs)) as (d & Hd & <-).
      exists d. split; [done|]. rewrite (at_lookup _ _ _ Hwf) in Hs. injection Hs as ->. by intros [].
    - destruct (rep_found _ _ Hr h Hin) as (d & Hd & _ & Hh & _). exists d. split; [done|]. by intros []. }
  destruct (first_stop _ _ _ Hp) as (k & Hk & Hstop & Hbefore). exists k. split; [lia|]. split; [done|]. split; [done|].
  unfold upsert. rewrite <-(pos_0 _ Hwf). rewrite (upsert_loop_stop tb Hwf h idx 0 k); [done|exact Hbefore|lia|exact Hstop].
Qed.

(** Writing one live slot of the cell [h]. *)
Lemma rep_write tb m h idx k : rep tb m → k < length (slots tb) → (∀ j, j < k → passed tb h (at_ tb h j)) → ¬ passed tb h (at_ tb h k) →
  rep (mk (<[pos tb h k := mkTouch h idx (stamp tb)]> (slots tb)) (mask tb) (stamp tb)) (<[h := idx]> m).
Proof.
  intros Hr Hk Hbefore Hstop. pose proof (rep_wf _ _ Hr) as Hwf. set (tb' := mk _ _ _).
  assert (∀ i s, slots tb' !! i = Some s → (i = pos tb h k ∧ s = mkTouch h idx (stamp tb)) ∨ (i ≠ pos tb h k ∧ slots tb !! i = Some s)) as Hget.
  { intros i s. cbn. intros [(<- & <- & _)|[? ?]]%list_lookup_insert_Some; auto. }
  assert (∀ i s, slots tb !! i = Some s → live tb s → ts_hash s = h → i = pos tb h k) as Huniq.
  { intros i s Hs Hl Hh. destruct (rep_found _ _ Hr h) as (d & Hd & Hld & Hhd & _); [rewrite <-Hh, (rep_sound _ _ Hr i s) by done; by eexists|].
    assert (i = pos tb h d) as -> by (eapply (rep_once _ _ Hr); [done|by apply at_lookup|done|done|by rewrite Hhd]).
    destruct (lt_eq_lt_dec d k) as [[Hlt| ->]|Hgt]; [by destruct (Hbefore d Hlt)|done|].
    destruct (rep_found _ _ Hr h) as (d2 & Hd2 & Hl2 & Hh2 & Hb2); [rewrite <-Hh, (rep_sound _ _ Hr _ _ Hs Hl); by eexists|].
    assert (d2 = d) as ->; [|by destruct Hstop; apply Hb2].
    apply (pos_inj tb Hwf h); [done|done|]. eapply (rep_once _ _ Hr); try (by apply at_lookup); [done..|by rewrite Hhd]. }
  assert (∀ h' d, d < length (slots tb) → pos tb h' d ≠ pos tb h k → at_ tb' h' d = at_ tb h' d) as Hat.
  { intros h' d Hd Hne. unfold at_, pos, home, tb'. cbn. rewrite length_insert. apply list_lookup_total_insert_ne. unfold pos, home in Hne. done. }
  assert (at_ tb' h k = mkTouch h idx (stamp tb)) as Hatk.
  { unfold at_, pos, home, tb'. cbn. rewrite length_insert. apply list_lookup_total_insert_eq. by apply pos_lt. }
  split.
  - destruct Hwf as [Hc Hst Hs]. split; cbn; [by rewrite length_insert| |done]. intros i s [[_ ->]|[_ Hi]]%Hget; [cbn; lia|eauto].
  - intros i s [[_ ->]|[Hne Hi]]%Hget Hl; [cbn; by rewrite lookup_insert_eq|]. rewrite lookup_insert_ne by (intros Heq; apply Hne; by eapply Huniq). by eapply (rep_sound _ _ Hr).
  - intros h' Hin. cbn. rewrite length_insert. destruct (decide (h' = h)) as [->|Hne].
    + exists k. rewrite Hatk. split; [done|]. split; [done|]. split; [done|]. intros j Hj. rewrite Hat; [by apply Hbefore|lia|].
      intros Heq%(pos_inj tb Hwf); lia.
    + rewrite lookup_insert_ne in Hin by done. destruct (rep_found _ _ Hr h' Hin) as (d & Hd & Hl & Hh & Hb).
      exists d. rewrite Hat; [|done|]. 2: { intros Heq. destruct Hstop. unfold at_. rewrite <-Heq. split; [done|]. unfold at_ in Hh. congruence. }
      split; [done|]. split; [done|]. split; [done|]. intros j Hj. destruct (decide (pos tb h' j = pos tb h k)) as [Heq|Hne']; [|rewrite Hat by (lia || done); by apply Hb].
      assert (at_ tb' h' j = mkTouch h idx (stamp tb)) as ->; [|by split].
      rewrite <-Hatk. unfold at_, pos, home, tb'. cbn. rewrite length_insert. unfold pos, home in Heq. by rewrite Heq.
  - intros i j s s' [[-> ->]|[Hi Hs]]%Hget [[-> ->]|[Hj Hs']]%Hget Hl Hl' Heq; [done| | |by eapply (rep_once _ _ Hr)].
    + symmetry. by eapply Huniq.
    + by eapply Huniq.
Qed.

Lemma upsert_rep tb m h idx : rep tb m → size m < length (slots tb) ∨ is_Some (m !! h) →
  ∃ tb', upsert tb h idx = Some (m !! h, tb') ∧ rep tb' (<[h := idx]> m) ∧ length (slots tb') = length (slots tb).
Proof.
  intros Hr Hm. pose proof (rep_wf _ _ Hr) as Hwf. destruct (upsert_stop tb m h idx Hr Hm) as (k & Hk & Hstop & Hbefore & ->).
  pose proof (rep_write tb m h idx k Hr Hk Hbefore Hstop) as Hw. unfold probe_slot. fold (at_ tb h k).
  destruct (N.eqb_spec (ts_stamp (at_ tb h k)) (stamp tb)) as [Hl|Hl]; cbn.
  - destruct (N.eqb_spec (ts_hash (at_ tb h k)) h) as [Hh|Hh]; [|by destruct Hstop]. rewrite Hh, Hl. eexists. split; [|split; [exact Hw|cbn; by rewrite length_insert]].
    do 2 f_equal. symmetry. rewrite <-Hh at 1. eapply (rep_sound _ _ Hr); [by apply at_lookup|done].
  - eexists. split; [|split; [exact Hw|cbn; by rewrite length_insert]]. do 2 f_equal. symmetry. apply eq_None_not_Some. intros Hin.
    destruct (rep_found _ _ Hr h Hin) as (d & Hd & Hld & Hhd & Hb). destruct (lt_eq_lt_dec d k) as [[Hlt| ->]|Hgt]; [by destruct (Hbefore d Hlt)|done|].
    by destruct (Hb k Hgt).
Qed.

(** A probe that ends is the one of the map. *)
Lemma upsert_rep_inv tb m h idx r tb' : rep tb m → upsert tb h idx = Some (r, tb') → r = m !! h ∧ rep tb' (<[h := idx]> m).
Proof.
  intros Hr Hu. destruct (decide (size m < length (slots tb) ∨ is_Some (m !! h))) as [Hm|Hm].
  - destruct (upsert_rep tb m h idx Hr Hm) as (tb2 & Hu' & ? & _). rewrite Hu in Hu'. by simplify_eq.
  - exfalso. assert (¬ size m < length (slots tb) ∧ m !! h = None) as [Hsz Hh] by (rewrite eq_None_not_Some; tauto). pose proof (rep_wf _ _ Hr) as Hwf.
    assert (size m ≤ length (slots tb)) as Hle.
    { assert (dom m ⊆ list_to_set (ts_hash <$> slots tb)) as Hsub%subseteq_size.
      - intros k Hk%elem_of_dom. destruct (rep_found _ _ Hr k Hk) as (d & _ & _ & Hkd & _). rewrite elem_of_list_to_set, list_elem_of_fmap.
        exists (at_ tb k d). split; [done|]. eapply list_elem_of_lookup_2. by apply at_lookup.
      - rewrite size_dom in Hsub. pose proof (size_list_to_set_le (ts_hash <$> slots tb)) as Hl. rewrite length_fmap in Hl. lia. }
    unfold upsert in Hu. rewrite <-(pos_0 _ Hwf), upsert_loop_spin in Hu; [done|done|]. apply (full_passed tb m); [done|lia|done].
Qed.

(** A new stamp empties the table, also when the stamp wraps around. *)
Lemma clear_rep tb : wf tb → rep (clear tb) ∅.
Proof.
  intros [(k & Hlen & Hmask) Hst Hlt]. unfold clear. cbn [stamp slots mask].
  assert (∀ i s, slots (clear tb) !! i = Some s → ¬ live (clear tb) s) as Hdead.
  { intros i s. unfold clear, live. cbn [stamp]. destruct (N.eqb_spec ((stamp tb + 1) mod 2 ^ 32) 0) as [E|E]; cbn.
    - rewrite list_lookup_fmap, fmap_Some. intros (s' & _ & ->). cbn. lia.
    - intros Hs. specialize (Hst i s Hs). assert (stamp tb + 1 < 2 ^ 32)%N; [|rewrite N.mod_small; lia].
      destruct (decide (stamp tb + 1 = 2 ^ 32)%N) as [Heq|]; [by rewrite Heq in E|lia]. }
  split.
  - unfold clear. cbn [stamp]. destruct (N.eqb_spec ((stamp tb + 1) mod 2 ^ 32) 0) as [E|E]; split; cbn.
    + exists k. by rewrite length_fmap.
    + intros i s. rewrite list_lookup_fmap, fmap_Some. intros (s' & _ & ->). cbn. lia.
    + lia.
    + by exists k.
    + intros i s Hs. specialize (Hst i s Hs). assert (stamp tb + 1 < 2 ^ 32)%N; [|rewrite N.mod_small; lia].
      destruct (decide (stamp tb + 1 = 2 ^ 32)%N) as [Heq|]; [by rewrite Heq in E|lia].
    + apply N.mod_lt. lia.
  - intros i s Hs Hl. by destruct (Hdead i s Hs).
  - intros h [x Hx]. done.
  - intros i j s s' Hs _ Hl. by destruct (Hdead i s Hs).
Qed.

Lemma clear_length tb : length (slots (clear tb)) = length (slots tb).
Proof. unfold clear. cbn [stamp]. destruct (_ =? 0)%N; cbn; by rewrite ?length_fmap. Qed.

Lemma new_wf n : wf (new (Pow2_new n)).
Proof.
  split; cbn.
  - exists (Nat.log2_up n). rewrite length_replicate. split; [done|]. unfold Pow2_new, next_power_of_two. by rewrite Nat2N.inj_pow.
  - intros i s [-> _]%lookup_replicate. done.
  - lia.
Qed.

(** ** Sequences of operations *)

Inductive Op : Type :=
| Clear
| Touch (hash : N) (idx : nat).

(** The last toucher of each cell since the last clear. *)
Definition touched_one (m : gmap N nat) (o : Op) : gmap N nat :=
  match o with Clear => ∅ | Touch h i => <[h := i]> m end.
Definition touched (ops : list Op) : gmap N nat := fold_left touched_one ops ∅.

Definition run_one (o : option t) (op : Op) : option t :=
  tb ← o; match op with Clear => Some (clear tb) | Touch h i => snd <$> upsert tb h i end.

(** A block begins with a clear of the table of its pool. *)
Definition run_ops (capacity : nat) (ops : list Op) : option t := fold_left run_one ops (Some (clear (new (Pow2_new capacity)))).

(** No clear of the sequence finds more cells than the table has slots. *)
Definition fits (capacity : nat) (ops : list Op) : Prop := ∀ pre, pre `prefix_of` ops → size (touched pre) ≤ Pow2_new capacity.

Lemma run_ops_rep capacity ops : fits capacity ops → ∃ tb, run_ops capacity ops = Some tb ∧ rep tb (touched ops) ∧ length (slots tb) = Pow2_new capacity.
Proof.
  induction ops as [|op ops IH] using rev_ind; intros Hf.
  - eexists. split; [done|]. split; [apply clear_rep, new_wf|]. rewrite clear_length. apply length_replicate.
  - destruct IH as (tb & Hrun & Hrep & Hlen); [intros pre Hpre; apply Hf; by apply prefix_app_r|].
    unfold run_ops, touched. rewrite !fold_left_app. fold (run_ops capacity ops). fold (touched ops). rewrite Hrun. cbn. destruct op as [|h i]; cbn.
    + eexists. split; [done|]. split; [apply clear_rep, Hrep|by rewrite clear_length].
    + destruct (upsert_rep tb (touched ops) h i Hrep) as (tb' & -> & Hrep' & Hlen').
      { specialize (Hf (ops ++ [Touch h i]) ltac:(done)). unfold touched in Hf at 1. rewrite fold_left_app in Hf. fold (touched ops) in Hf. cbn in Hf.
        destruct (touched ops !! h) eqn:E; [by right|left]. rewrite map_size_insert_None in Hf by done. lia. }
      exists tb'. split; [done|]. split; [done|]. by rewrite Hlen'.
Qed.

(** C8. The last-toucher table is a map from cells to their last touchers: over any
    sequence of touches and clears, through any number of stamp wraps, in which the
    cells fit the slots, a touch returns the transaction that touched the cell last
    since the last clear, and none when there is none. *)
Theorem touch_table_refines capacity ops h idx : fits capacity (ops ++ [Touch h idx]) →
  ∃ tb tb', run_ops capacity ops = Some tb ∧ upsert tb h idx = Some (touched ops !! h, tb').
Proof.
  intros Hf. destruct (run_ops_rep capacity ops) as (tb & Hrun & Hrep & Hlen); [intros pre Hpre; apply Hf; by apply prefix_app_r|].
  destruct (upsert_rep tb (touched ops) h idx Hrep) as (tb' & Hu & _); [|by exists tb, tb'].
  specialize (Hf _ ltac:(done)). unfold touched in Hf. rewrite fold_left_app in Hf. fold (touched ops) in Hf. cbn in Hf.
  destruct (touched ops !! h) eqn:E; [by right|left]. rewrite map_size_insert_None in Hf by done. lia.
Qed.

(** C9. Nothing bounds the cells that a block touches by the slots of the table: when
    every slot is taken, the touch of one more cell probes for ever, and with it the
    thread that feeds the block. *)
Theorem full_table_spins capacity ops h idx : fits capacity ops → size (touched ops) = Pow2_new capacity → touched ops !! h = None →
  ∃ tb, run_ops capacity ops = Some tb ∧ ∀ fuel, upsert_loop fuel tb h idx (home tb h) = None.
Proof.
  intros Hf Hfull Hh. destruct (run_ops_rep capacity ops Hf) as (tb & Hrun & Hrep & Hlen). exists tb. split; [done|]. intros fuel.
  pose proof (rep_wf _ _ Hrep) as Hwf. rewrite <-(pos_0 tb Hwf). apply upsert_loop_spin; [done|]. apply full_passed with (touched ops); [done|congruence|done].
Qed.
End TouchTable.

(** Two slots: a wrapped stamp, then a cell touched twice. *)
Lemma touch_table_refines_witness : ∃ tb tb',
  TouchTable.run_ops 2 [TouchTable.Touch 5 0; TouchTable.Clear; TouchTable.Touch 5 1; TouchTable.Touch 7 2] = Some tb ∧
  TouchTable.upsert tb 5 3 = Some (Some 1, tb').
Proof.
  apply (TouchTable.touch_table_refines 2 [TouchTable.Touch 5 0; TouchTable.Clear; TouchTable.Touch 5 1; TouchTable.Touch 7 2] 5 3).
  intros pre Hpre. destruct pre as [|? [|? [|? [|? [|? [|? pre]]]]]]; destruct Hpre as [k Hk]; simplify_eq/=; apply (bool_decide_eq_true_1 (_ ≤ _)); reflexivity.
Defined.

Lemma full_table_spins_witness : ∃ tb, TouchTable.run_ops 2 [TouchTable.Touch 5 0; TouchTable.Touch 7 1] = Some tb ∧
  ∀ fuel, TouchTable.upsert_loop fuel tb 9 2 (TouchTable.home tb 9) = None.
Proof.
  apply (TouchTable.full_table_spins 2 [TouchTable.Touch 5 0; TouchTable.Touch 7 1] 9 2); [|done|done].
  intros pre Hpre. destruct pre as [|? [|? [|? pre]]]; destruct Hpre as [k Hk]; simplify_eq/=; apply (bool_decide_eq_true_1 (_ ≤ _)); reflexivity.
Defined.
