(* ===== verification/StmPredict.v ===== *)
(** * The prediction of footprints

    Models [crates/footprint/src/classifier.rs] (the statistics of a selector and
    the domains that they predict), the scheduling view of a transaction
    ([footprint/src/lib.rs], [stm/src/schedule.rs]), the hasher of the engine
    ([stm/src/lib.rs]) and the preparation of a transaction
    ([stm/src/execute/prepare.rs]). A selector is a list of four bytes; a counter
    is an [N]. *)
From S2P Require Import Prelude Bytes Types ExecScope.

(** ** Cells and observations *)

Inductive Cell : Type :=
| CAccount (a : Address)
| CSlot (a : Address) (k : B256).

Inductive DomainKey : Type :=
| DAccount (a : Address)
| DFixed (a : Address) (k : B256).

#[export] Instance domain_key_eq_dec : EqDecision DomainKey.
Proof. solve_decision. Defined.

#[export] Instance domain_key_countable : Countable DomainKey.
Proof.
  apply (inj_countable' (λ d, match d with DAccount a => inl a | DFixed a k => inr (a, k) end)
    (λ s, match s with inl a => DAccount a | inr (a, k) => DFixed a k end)). by intros [].
Defined.

(** The derived order: accounts before slots, then by the fields. *)
Definition domain_le (x y : DomainKey) : Prop :=
  match x, y with
  | DAccount a, DAccount b => (a ≤ b)%N
  | DAccount _, DFixed _ _ => True
  | DFixed _ _, DAccount _ => False
  | DFixed a k, DFixed b l => (a < b)%N ∨ (a = b ∧ (k ≤ l)%N)
  end.

#[export] Instance domain_le_dec : RelDecision domain_le.
Proof. intros [] []; cbn; apply _. Defined.

Record TxObs : Type := mkObs {
  ob_sender : Address;
  ob_to : option Address;
  ob_selector : option (list N);
  ob_has_value : bool;
  ob_reads : list Cell;
  ob_writes : list Cell;
}.

(** ** Learning *)

Record SelectorStats : Type := mkStats {
  observations : N;
  slot_seen : gmap (Address * B256) N;
  slot_obs : N;
  account_seen : gmap Address N;
}.

Definition bump {K} `{Countable K} (k : K) (m : gmap K N) : gmap K N := <[k := (default 0 (m !! k) + 1)%N]> m.

Definition record_cell (e : SelectorStats) (c : Cell) : SelectorStats :=
  match c with
  | CSlot addr slot => mkStats (observations e) (bump (addr, slot) (slot_seen e)) (slot_obs e + 1) (account_seen e)
  | CAccount a => mkStats (observations e) (slot_seen e) (slot_obs e) (bump a (account_seen e))
  end.

Definition MAX_SELECTORS : nat := N.to_nat 16384.

Definition Stats : Type := gmap (Address * list N) SelectorStats.

Definition learn_obs (s : Stats) (o : TxObs) : Stats :=
  match ob_to o, ob_selector o with
  | Some to, Some sel =>
    if (MAX_SELECTORS <=? size s) && negb (bool_decide (is_Some (s !! (to, sel)))) then s
    else
      let e := default (mkStats 0 ∅ 0 ∅) (s !! (to, sel)) in
      let e := mkStats (observations e + 1) (slot_seen e) (slot_obs e) (account_seen e) in
      <[(to, sel) := fold_left record_cell (ob_reads o ++ ob_writes o) e]> s
  | _, _ => s
  end.

Definition learn (obs : list TxObs) : Stats := fold_left learn_obs obs ∅.

(** ** Prediction *)

Definition u64_saturating_mul (a b : N) : N := N.min (a * b) u64_max.

Definition is_frequent (n observations : N) : bool := (u64_saturating_mul observations 6 <=? u64_saturating_mul n 10)%N.

(** [None] when the selector was never trained. *)
Definition predicted_keys {K} (s : Stats) (o : TxObs) (account : Address → K) (fixed : Address → B256 → K) : option (list K) :=
  match ob_to o, ob_selector o with
  | Some to, Some sel =>
    e ← s !! (to, sel);
    Some (((λ p, fixed p.1.1 p.1.2) <$> filter (λ p, is_frequent p.2 (observations e)) (btree_list (slot_seen e))) ++
          ((λ p, account p.1) <$> filter (λ p, is_frequent p.2 (observations e)) (btree_list (account_seen e))))
  | _, _ => Some []
  end.

(** [Vec::dedup]: of a run of equal elements, one. *)
Fixpoint dedup {A} `{EqDecision A} (l : list A) : list A :=
  match l with
  | x :: ((y :: _) as l') => if decide (x = y) then dedup l' else x :: dedup l'
  | _ => l
  end.

Definition predict_domains (s : Stats) (o : TxObs) : option (list DomainKey) :=
  let keys := DAccount (ob_sender o) :: match ob_to o with Some to => if ob_has_value o then [DAccount to] else [] | None => [] end in
  more ← predicted_keys s o DAccount DFixed;
  Some (dedup (merge_sort domain_le (keys ++ more))).

(** ** Views *)

Record EnvelopeView : Type := mkView' { ev_to : option Address; ev_selector : option (list N); ev_has_value : bool }.

(** The argument words of the call are not read by the prediction and left out. *)
Definition decoded_view {A} (d : AlloyEnvelope A) : EnvelopeView :=
  mkView' (al_to d) (if 4 <=? length (al_input d) then Some (take 4 (al_input d)) else None) (0 <? al_value d)%N.

Definition view_from_parts (envelope : TxEnvelope) (view : EnvelopeView) : TxObs :=
  mkObs (te_sender envelope) (ev_to view) (ev_selector view) (ev_has_value view) [] [].

Definition scheduling_view_decoded {A} (envelope : TxEnvelope) (decoded : option (AlloyEnvelope A)) : TxObs :=
  view_from_parts envelope match decoded with Some d => decoded_view d | None => mkView' None None false end.

(** ** Hashing *)

Definition u64_mul (a b : N) : N := (a * b) mod 2 ^ 64.

(** [domain_hash]: FNV-1a over bytes, modulo the workers. *)
Definition domain_hash (bytes : list N) (workers : nat) : nat :=
  let h := fold_left (λ h b, u64_mul (N.lxor h b) 0x100000001b3) bytes 0xcbf29ce484222325%N in
  N.to_nat (h mod N.of_nat workers).

Definition rotate_left (x k : N) : N := N.lor (N.shiftl x k mod 2 ^ 64) (N.shiftr x (64 - k)).

Module Fnv.
Definition K : N := 0x9E3779B97F4A7C15.

Definition build_hasher : N := 0xcbf29ce484222325.

Definition mix (h w : N) : N := rotate_left (u64_mul (N.lxor h w) K) 23.

(** [write]: eight bytes at a time, then the rest with its length. *)
Fixpoint write_chunks (n : nat) (h : N) (bytes : list N) : N :=
  match n with
  | O => match bytes with
         | [] => h
         | _ => mix h (N.lxor (from_le_bytes bytes) (N.shiftl (N.of_nat (length bytes)) 56))
         end
  | S n => write_chunks n (mix h (from_le_bytes (take 8 bytes))) (drop 8 bytes)
  end.
Definition write (h : N) (bytes : list N) : N := write_chunks (length bytes / 8) h bytes.

Definition finish (h : N) : N :=
  let h := N.lxor h (N.shiftr h 32) in
  let h := u64_mul h K in
  N.lxor h (N.shiftr h 29).
End Fnv.

Definition domain_hash64 (d : DomainKey) : N :=
  Fnv.finish match d with
  | DAccount a => Fnv.write (Fnv.write Fnv.build_hasher [1%N]) (to_be_bytes 20 a)
  | DFixed a k => Fnv.write (Fnv.write (Fnv.write Fnv.build_hasher [2%N]) (to_be_bytes 20 a)) (to_be_bytes 32 k)
  end.

(** ** Preparation *)

Record Prepared : Type := mkPrepared {
  domains : list DomainKey;
  domain_hashes : list N;
  primary : option DomainKey;
  cold : bool;
}.

Definition fold_domain (envelope : TxEnvelope) (acc : list DomainKey * list N * option DomainKey) (c : DomainKey)
  : list DomainKey * list N * option DomainKey :=
  let '(domains, domain_hashes, primary) := acc in
  let is_sender := bool_decide (c = DAccount (te_sender envelope)) in
  let primary_is_sender := bool_decide (primary = Some (DAccount (te_sender envelope))) in
  let primary := if bool_decide (primary = None) || (negb is_sender && primary_is_sender) then Some c else primary in
  (domains ++ [c], domain_hashes ++ [domain_hash64 c], primary).

Definition predict {A} (envelope : TxEnvelope) (decoded : option (AlloyEnvelope A)) (stats : Stats) (sink : Address) : Prepared :=
  match predict_domains stats (scheduling_view_decoded envelope decoded) with
  | None => mkPrepared [] [] None true
  | Some predicted =>
    let '(domains, domain_hashes, primary) :=
      fold_left (fold_domain envelope) (filter (λ c, c ≠ DAccount sink) predicted) ([], [], None) in
    mkPrepared domains domain_hashes primary false
  end.
