(* ===== verification/StmGraph.v ===== *)
(** * The scheduler of Block-STM

    Models [crates/stm/src/execute/graph.rs] (the live dependency graph, the queues
    and the bag), [predecessor.rs] and [session.rs] (the serial admission of a
    block), [worker.rs] (the job loop of a worker) and [drain_block] of
    [handle.rs].

    The feed, the workers and the tail thread share the context of the block. Each
    critical section and each atomic operation is one event, so the threads
    interleave between any two of them; a function of the source is the tree of
    its events. Several accesses are one event where the locks or the monotony of
    the data make them one: the opening of a node, before which nothing names it;
    the linking of an edge under the child list of the predecessor; the reads of
    the results, which are only ever set. Closing a node empties its child list at
    once, which the source does at the end of the same critical section.

    The length hints are the lengths themselves, since both change under one lock.
    A parked worker polls again after a bounded wait, so the wakes are left out, as
    are the counters of the metrics and the sharded admission, which is off by
    default. *)
From S2P Require Import Prelude Bytes Types Fees WriteSet Effects ExecScope StmMv StmView StmWorker StmTouch StmPredict.

Definition MAX_BLOCK_TXS : nat := N.to_nat 4096.
Definition STICKY_CAP : nat := N.to_nat 65536.

(** What [PoolConfig] and the learned average fix for a block. *)
Record PoolConfig : Type := mkConfig {
  pc_workers : nat;
  prune_batch : N;
  bag_mode : bool;
  dispatch_by_sender : bool;
  eager_chain : bool;
  sticky_assign : bool;
  steal_enabled : bool;
}.

(** ** The shared context *)

Record Node : Type := mkNode {
  nd_open : bool;
  nd_children : list nat;
  nd_indegree : N;
  nd_worker : nat;
  nd_queued : bool;
  nd_fifo_preds : list nat;
}.

Definition Node_default : Node := mkNode false [] 0 0 false [].

(** Atomic counters wrap. *)
Definition u32_fetch_add (x n : N) : N := (x + n) mod 2 ^ 32.
Definition u32_fetch_sub (x n : N) : N := (x + (2 ^ 32 - n)) mod 2 ^ 32.
Definition u64_fetch_add (x n : N) : N := (x + n) mod 2 ^ 64.
Definition u64_fetch_sub (x n : N) : N := (x + (2 ^ 64 - n)) mod 2 ^ 64.

Module BlockCtx.
Record t : Type := mk {
  slots : gset nat;
  results : gmap nat (result ExecutorError TxResult);
  queues : list (list nat);
  bag : list nat;
  nodes : gmap nat Node;
  admitted : N;
  finished : N;
  sealed : bool;
  completed : list (list nat);
  pending : N;
  aborted : bool;
  double_exit : N;
  panicked : bool;
}.

Definition new (workers : nat) : t :=
  mk ∅ ∅ (replicate workers []) [] ∅ 0 0 false (replicate workers []) 0 false 0 false.

Definition node (c : t) (i : nat) : Node := default Node_default (nodes c !! i).

Definition with_slots (x : gset nat) (c : t) : t :=
  mk x (results c) (queues c) (bag c) (nodes c) (admitted c) (finished c) (sealed c) (completed c) (pending c) (aborted c) (double_exit c) (panicked c).
Definition with_results (x : gmap nat (result ExecutorError TxResult)) (c : t) : t :=
  mk (slots c) x (queues c) (bag c) (nodes c) (admitted c) (finished c) (sealed c) (completed c) (pending c) (aborted c) (double_exit c) (panicked c).
Definition with_queues (x : list (list nat)) (c : t) : t :=
  mk (slots c) (results c) x (bag c) (nodes c) (admitted c) (finished c) (sealed c) (completed c) (pending c) (aborted c) (double_exit c) (panicked c).
Definition with_bag (x : list nat) (c : t) : t :=
  mk (slots c) (results c) (queues c) x (nodes c) (admitted c) (finished c) (sealed c) (completed c) (pending c) (aborted c) (double_exit c) (panicked c).
Definition with_nodes (x : gmap nat Node) (c : t) : t :=
  mk (slots c) (results c) (queues c) (bag c) x (admitted c) (finished c) (sealed c) (completed c) (pending c) (aborted c) (double_exit c) (panicked c).
Definition with_admitted (x : N) (c : t) : t :=
  mk (slots c) (results c) (queues c) (bag c) (nodes c) x (finished c) (sealed c) (completed c) (pending c) (aborted c) (double_exit c) (panicked c).
Definition with_finished (x : N) (c : t) : t :=
  mk (slots c) (results c) (queues c) (bag c) (nodes c) (admitted c) x (sealed c) (completed c) (pending c) (aborted c) (double_exit c) (panicked c).
Definition with_sealed (x : bool) (c : t) : t :=
  mk (slots c) (results c) (queues c) (bag c) (nodes c) (admitted c) (finished c) x (completed c) (pending c) (aborted c) (double_exit c) (panicked c).
Definition with_completed (x : list (list nat)) (c : t) : t :=
  mk (slots c) (results c) (queues c) (bag c) (nodes c) (admitted c) (finished c) (sealed c) x (pending c) (aborted c) (double_exit c) (panicked c).
Definition with_pending (x : N) (c : t) : t :=
  mk (slots c) (results c) (queues c) (bag c) (nodes c) (admitted c) (finished c) (sealed c) (completed c) x (aborted c) (double_exit c) (panicked c).
Definition with_aborted (x : bool) (c : t) : t :=
  mk (slots c) (results c) (queues c) (bag c) (nodes c) (admitted c) (finished c) (sealed c) (completed c) (pending c) x (double_exit c) (panicked c).
Definition with_double_exit (x : N) (c : t) : t :=
  mk (slots c) (results c) (queues c) (bag c) (nodes c) (admitted c) (finished c) (sealed c) (completed c) (pending c) (aborted c) x (panicked c).
Definition with_panicked (x : bool) (c : t) : t :=
  mk (slots c) (results c) (queues c) (bag c) (nodes c) (admitted c) (finished c) (sealed c) (completed c) (pending c) (aborted c) (double_exit c) x.

Definition set_node (i : nat) (nd : Node) (c : t) : t := with_nodes (<[i := nd]> (nodes c)) c.
End BlockCtx.
Import BlockCtx (node, set_node).

(** ** Events *)

Inductive Link : Type := LEdge | LCovered | LNone.

Inductive SchedE : Type → Type :=
| StoreSlot (i : nat) : SchedE unit
| OpenNode (i worker : nat) : SchedE bool
| AddAdmitted : SchedE unit
| LinkPred (p idx worker : nat) : SchedE Link
| SubIndegree (i : nat) : SchedE N
| LoadWorker (i : nat) : SchedE nat
| PushBack (w i : nat) : SchedE unit
| PopFront (w : nat) : SchedE (option nat)
| PushFront (w i : nat) : SchedE unit
| QueueLen (w : nat) : SchedE nat
| StealBack (victim : nat) : SchedE (option nat)
| FifoReady (i : nat) : SchedE bool
| BagPush (i : nat) : SchedE unit
| BagPop : SchedE (option nat)
| BagIsEmpty : SchedE bool
| SetResult (i : nat) (r : result ExecutorError TxResult) : SchedE unit
| SetAborted : SchedE unit
| LoadAborted : SchedE bool
| AddPending : SchedE N
| SubPending (n : nat) : SchedE unit
| LoadPending : SchedE N
| CompletedPush (w i : nat) : SchedE unit
| CompletedLen (w : nat) : SchedE nat
| TakeDrained (w : nat) : SchedE (option (list nat))
| CloseNode (i : nat) : SchedE (list nat)
| AddFinished (n : nat) : SchedE unit
| LoadFinished : SchedE N
| LoadAdmitted : SchedE N
| StoreSealed : SchedE unit
| LoadSealed : SchedE bool
| SpinBudget : SchedE nat
| Panic : SchedE unit.

Section sched.
Context (cfg : PoolConfig).

(** [fifo_ready]: every covered predecessor has a result. *)
Definition fifo_ready_now (c : BlockCtx.t) (i : nat) : bool :=
  forallb (λ p, bool_decide (is_Some (BlockCtx.results c !! p))) (nd_fifo_preds (node c i)).

Definition open_node (c : BlockCtx.t) (i worker : nat) : bool * BlockCtx.t :=
  let nd := node c i in
  if nd_open nd then (true, set_node i (mkNode true (nd_children nd) 1 worker (nd_queued nd) (nd_fifo_preds nd)) c)
  else (false, set_node i (mkNode true [] 1 worker (if bag_mode cfg then nd_queued nd else false) (if bag_mode cfg then nd_fifo_preds nd else [])) c).

(** The critical section of [link_predecessor]. *)
Definition link_pred (c : BlockCtx.t) (p idx worker : nat) : Link * BlockCtx.t :=
  let pn := node c p in
  if negb (nd_open pn) then (LNone, c)
  else
    let nd := node c idx in
    if eager_chain cfg && negb (bag_mode cfg) && (nd_worker pn =? worker) && nd_queued pn then
      (LCovered, set_node idx (mkNode (nd_open nd) (nd_children nd) (nd_indegree nd) (nd_worker nd) (nd_queued nd) (nd_fifo_preds nd ++ [p])) c)
    else
      let c := set_node idx (mkNode (nd_open nd) (nd_children nd) (u32_fetch_add (nd_indegree nd) 1) (nd_worker nd) (nd_queued nd) (nd_fifo_preds nd)) c in
      let pn := node c p in
      (LEdge, set_node p (mkNode (nd_open pn) (nd_children pn ++ [idx]) (nd_indegree pn) (nd_worker pn) (nd_queued pn) (nd_fifo_preds pn)) c).

Definition steal_back (c : BlockCtx.t) (victim : nat) : option nat * BlockCtx.t :=
  let q := BlockCtx.queues c !!! victim in
  match last q with
  | None => (None, c)
  | Some cand =>
    if fifo_ready_now c cand then (Some cand, BlockCtx.with_queues (<[victim := take (length q - 1) q]> (BlockCtx.queues c)) c)
    else (None, c)
  end.

Definition take_drained (c : BlockCtx.t) (w : nat) : option (list nat) * BlockCtx.t :=
  let b := BlockCtx.completed c !!! w in
  match b with
  | [] => (None, c)
  | _ =>
    let c := if MAX_BLOCK_TXS <? length b then BlockCtx.with_panicked true c else c in
    (Some b, BlockCtx.with_completed (<[w := []]> (BlockCtx.completed c)) c)
  end.

(** [close_node], and the drain of the child list. *)
Definition close_node (c : BlockCtx.t) (i : nat) : list nat * BlockCtx.t :=
  let nd := node c i in
  let c := if nd_open nd then c else BlockCtx.with_double_exit (u32_fetch_add (BlockCtx.double_exit c) 1) c in
  (nd_children nd, set_node i (mkNode false [] (nd_indegree nd) (nd_worker nd) (nd_queued nd) (nd_fifo_preds nd)) c).

(** The effect of an event; the schedule gives the budget of a spin. *)
Definition exec (budget : nat) {X} (e : SchedE X) (c : BlockCtx.t) : X * BlockCtx.t :=
  match e in SchedE X return X * BlockCtx.t with
  | StoreSlot i =>
    ((), if bool_decide (i ∈ BlockCtx.slots c) then BlockCtx.with_panicked true c else BlockCtx.with_slots ({[i]} ∪ BlockCtx.slots c) c)
  | OpenNode i worker => open_node c i worker
  | AddAdmitted => ((), BlockCtx.with_admitted (u32_fetch_add (BlockCtx.admitted c) 1) c)
  | LinkPred p idx worker => link_pred c p idx worker
  | SubIndegree i =>
    let nd := node c i in
    (nd_indegree nd, set_node i (mkNode (nd_open nd) (nd_children nd) (u32_fetch_sub (nd_indegree nd) 1) (nd_worker nd) (nd_queued nd) (nd_fifo_preds nd)) c)
  | LoadWorker i => (nd_worker (node c i), c)
  | PushBack w i =>
    let nd := node c i in
    let c := set_node i (mkNode (nd_open nd) (nd_children nd) (nd_indegree nd) (nd_worker nd) true (nd_fifo_preds nd)) c in
    ((), BlockCtx.with_queues (<[w := (BlockCtx.queues c !!! w) ++ [i]]> (BlockCtx.queues c)) c)
  | PopFront w =>
    match BlockCtx.queues c !!! w with
    | [] => (None, c)
    | i :: q => (Some i, BlockCtx.with_queues (<[w := q]> (BlockCtx.queues c)) c)
    end
  | PushFront w i => ((), BlockCtx.with_queues (<[w := i :: (BlockCtx.queues c !!! w)]> (BlockCtx.queues c)) c)
  | QueueLen w => (length (BlockCtx.queues c !!! w), c)
  | StealBack victim => steal_back c victim
  | FifoReady i => (fifo_ready_now c i, c)
  | BagPush i =>
    ((), if length (BlockCtx.bag c) <? MAX_BLOCK_TXS then BlockCtx.with_bag (BlockCtx.bag c ++ [i]) c else BlockCtx.with_panicked true c)
  | BagPop =>
    match BlockCtx.bag c with
    | [] => (None, c)
    | i :: l => (Some i, BlockCtx.with_bag l c)
    end
  | BagIsEmpty => (match BlockCtx.bag c with [] => true | _ => false end, c)
  | SetResult i r => ((), match BlockCtx.results c !! i with Some _ => c | None => BlockCtx.with_results (<[i := r]> (BlockCtx.results c)) c end)
  | SetAborted => ((), BlockCtx.with_aborted true c)
  | LoadAborted => (BlockCtx.aborted c, c)
  | AddPending => (BlockCtx.pending c, BlockCtx.with_pending (u64_fetch_add (BlockCtx.pending c) 1) c)
  | SubPending n => ((), BlockCtx.with_pending (u64_fetch_sub (BlockCtx.pending c) (N.of_nat n)) c)
  | LoadPending => (BlockCtx.pending c, c)
  | CompletedPush w i => ((), BlockCtx.with_completed (<[w := (BlockCtx.completed c !!! w) ++ [i]]> (BlockCtx.completed c)) c)
  | CompletedLen w => (length (BlockCtx.completed c !!! w), c)
  | TakeDrained w => take_drained c w
  | CloseNode i => close_node c i
  | AddFinished n => ((), BlockCtx.with_finished (u32_fetch_add (BlockCtx.finished c) (N.of_nat n)) c)
  | LoadFinished => (BlockCtx.finished c, c)
  | LoadAdmitted => (BlockCtx.admitted c, c)
  | StoreSealed => ((), BlockCtx.with_sealed true c)
  | LoadSealed => (BlockCtx.sealed c, c)
  | SpinBudget => (budget, c)
  | Panic => ((), BlockCtx.with_panicked true c)
  end.

(** ** The graph *)

Definition push_ready (worker idx : nat) : Tree SchedE unit :=
  if bag_mode cfg then ask (BagPush idx) else ask (PushBack worker idx).

Definition drained : Tree SchedE bool :=
  s ← ask LoadSealed;
  if s : bool then f ← ask LoadFinished; a ← ask LoadAdmitted; Ret (f =? a)%N else Ret false.

(** [ReadyBuf]: eight entries in place, the rest in a vector. *)
Record ReadyBuf : Type := mkReady { rb_buf : list nat; rb_spill : list nat }.
Definition ready_push (b : ReadyBuf) (c : nat) : ReadyBuf :=
  if length (rb_buf b) <? 8 then mkReady (rb_buf b ++ [c]) (rb_spill b) else mkReady (rb_buf b) (rb_spill b ++ [c]).
Definition ready_drain (b : ReadyBuf) : list nat := rb_buf b ++ rb_spill b.

Definition collect_if_ready (c : nat) : Tree SchedE (option nat) :=
  prev ← ask (SubIndegree c); Ret (if (prev =? 1)%N then Some c else None).

Fixpoint collect_all (l : list nat) (ready : ReadyBuf) : Tree SchedE ReadyBuf :=
  match l with
  | [] => Ret ready
  | c :: l => r ← collect_if_ready c; collect_all l (match r with Some c => ready_push ready c | None => ready end)
  end.

Fixpoint push_all (l : list (nat * nat)) : Tree SchedE unit :=
  match l with
  | [] => Ret ()
  | (w, c) :: l => _ ← push_ready w c; push_all l
  end.

Definition complete_inline (job : nat) : Tree SchedE (option nat) :=
  list ← ask (CloseNode job);
  ready ← collect_all list (mkReady [] []);
  _ ← ask (AddFinished 1);
  match ready_drain ready with
  | [] => _ ← drained; Ret None
  | keep :: rest => _ ← push_all ((λ c, (0, c)) <$> rest); _ ← drained; Ret (Some keep)
  end.

Definition queue_ready_child (c : nat) (ready : list (nat * nat)) : Tree SchedE (list (nat * nat)) :=
  prev ← ask (SubIndegree c);
  if negb (prev =? 1)%N then Ret ready else w ← ask (LoadWorker c); Ret (ready ++ [(w, c)]).

Fixpoint queue_ready_children (l : list nat) (ready : list (nat * nat)) : Tree SchedE (list (nat * nat)) :=
  match l with
  | [] => Ret ready
  | c :: l => ready ← queue_ready_child c ready; queue_ready_children l ready
  end.

Definition close_and_collect (job : nat) (ready : list (nat * nat)) : Tree SchedE (list (nat * nat)) :=
  list ← ask (CloseNode job); queue_ready_children list ready.

Fixpoint close_jobs (jobs : list nat) (ready : list (nat * nat)) : Tree SchedE (list (nat * nat)) :=
  match jobs with
  | [] => Ret ready
  | job :: jobs => ready ← close_and_collect job ready; close_jobs jobs ready
  end.

Definition drain_worker (w : nat) (ready : list (nat * nat)) : Tree SchedE (nat * list (nat * nat)) :=
  len ← ask (CompletedLen w);
  if len =? 0 then Ret (0, ready)
  else
    d ← ask (TakeDrained w);
    match d with
    | None => Ret (0, ready)
    | Some jobs => ready ← close_jobs jobs ready; Ret (length jobs, ready)
    end.

Fixpoint drain_workers (ws : list nat) (applied : nat) (ready : list (nat * nat)) : Tree SchedE (nat * list (nat * nat)) :=
  match ws with
  | [] => Ret (applied, ready)
  | w :: ws => r ← drain_worker w ready; drain_workers ws (applied + r.1) r.2
  end.

Definition prune : Tree SchedE nat :=
  r ← drain_workers (seq 0 (pc_workers cfg)) 0 [];
  let '(applied, ready) := r in
  _ ← (if 0 <? applied then
         _ ← ask (SubPending applied);
         _ ← (if MAX_BLOCK_TXS <? applied then ask Panic else Ret ());
         ask (AddFinished applied)
       else Ret ());
  _ ← push_all ready;
  _ ← drained;
  Ret applied.

(** ** Workers *)

(** [max_by_key] over the lengths: the longest queue, the first of equals. *)
Fixpoint best_victim (l : list (nat * nat)) (best : option (nat * nat)) : option (nat * nat) :=
  match l with
  | [] => best
  | (w, len) :: l =>
    best_victim l
      (if len <? 1 then best
       else match best with
            | None => Some (w, len)
            | Some (_, len') => if len' <? len then Some (w, len) else best
            end)
  end.

Fixpoint load_lens (thief : nat) (ws : list nat) : Tree SchedE (list (nat * nat)) :=
  match ws with
  | [] => Ret []
  | w :: ws =>
    if w =? thief then load_lens thief ws
    else len ← ask (QueueLen w); l ← load_lens thief ws; Ret ((w, len) :: l)
  end.

Definition steal (thief : nat) : Tree SchedE (option nat) :=
  lens ← load_lens thief (seq 0 (pc_workers cfg));
  match best_victim lens None with
  | None => Ret None
  | Some (victim, _) => ask (StealBack victim)
  end.

Inductive JobPoll : Type := PollReady (i : nat) | PollDone | PollRetry.
Inductive Pop : Type := PopReady (i : nat) | PopStalled | PopDry.

(** The second component is [local_next] afterwards. *)
Definition initial_poll (w : nat) (local_next : option nat) : Tree SchedE (Pop * option nat) :=
  if bag_mode cfg then
    match local_next with
    | Some i => Ret (PopReady i, None)
    | None => r ← ask BagPop; Ret (match r with Some i => PopReady i | None => PopDry end, None)
    end
  else
    r ← ask (PopFront w);
    match r with
    | None => Ret (PopDry, local_next)
    | Some i =>
      ready ← ask (FifoReady i);
      if ready : bool then Ret (PopReady i, local_next)
      else _ ← ask (PushFront w i); Ret (PopStalled, local_next)
    end.

Definition apply_pending : Tree SchedE bool :=
  p ← ask LoadPending; if (0 <? p)%N then _ ← prune; Ret true else Ret false.

Definition try_steal (w : nat) : Tree SchedE (option nat) := if steal_enabled cfg then steal w else Ret None.

Definition queue_has_work (w : nat) : Tree SchedE bool :=
  len ← ask (QueueLen w);
  if 0 <? len then Ret true
  else if bag_mode cfg then e ← ask BagIsEmpty; Ret (negb e) else Ret false.

(** One poll of a spin: [Some found] ends it. *)
Definition spin_poll (w : nat) : Tree SchedE (option bool) :=
  work ← queue_has_work w;
  if work : bool then Ret (Some true)
  else
    applied ← apply_pending;
    if applied : bool then Ret None
    else
      d ← drained;
      if d : bool then Ret (Some false)
      else a ← ask LoadAborted; Ret (if a : bool then Some false else None).

Fixpoint spin (polls w : nat) : Tree SchedE bool :=
  match polls with
  | O => Ret false
  | S polls => r ← spin_poll w; match r with Some found => Ret found | None => spin polls w end
  end.

(** The wait of a parked worker is bounded; what it finds is polled again. *)
Definition park (w : nat) : Tree SchedE unit := _ ← queue_has_work w; Ret ().

Definition spin_or_park (w : nat) : Tree SchedE unit :=
  polls ← ask SpinBudget;
  found ← spin polls w;
  if found : bool then Ret () else park w.

Definition poll_once (w : nat) (local_next : option nat) : Tree SchedE (JobPoll * option nat) :=
  a ← ask LoadAborted;
  if a : bool then Ret (PollDone, local_next)
  else
    r ← initial_poll w local_next;
    let '(pop, local_next) := r in
    match pop with
    | PopReady i => Ret (PollReady i, local_next)
    | PopStalled => Ret (PollRetry, local_next)
    | PopDry =>
      applied ← apply_pending;
      if applied : bool then Ret (PollRetry, local_next)
      else
        d ← drained;
        if d : bool then Ret (PollDone, local_next)
        else
          stolen ← try_steal w;
          match stolen with
          | Some i => Ret (PollReady i, local_next)
          | None =>
            work ← queue_has_work w;
            if work : bool then Ret (PollRetry, local_next)
            else _ ← spin_or_park w; Ret (PollRetry, local_next)
          end
    end.

Definition complete_job (w job : nat) (local_next : option nat) : Tree SchedE (option nat) :=
  if bag_mode cfg then complete_inline job
  else
    owed ← ask AddPending;
    _ ← ask (CompletedPush w job);
    _ ← (if (prune_batch cfg <=? owed + 1)%N then _ ← prune; Ret () else Ret ());
    Ret local_next.

(** [true] when the worker goes on. *)
Definition record_result (job : nat) (r : result ExecutorError TxResult) : Tree SchedE bool :=
  _ ← ask (SetResult job r);
  match r with
  | Err _ => _ ← ask SetAborted; Ret false
  | Ok _ => Ret true
  end.

(** [JobArgs::run] after the execution: [None] when the worker leaves the block. *)
Definition finish_job (w job : nat) (r : result ExecutorError TxResult) (local_next : option nat) : Tree SchedE (option (option nat)) :=
  go ← record_result job r;
  if go : bool then ln ← complete_job w job local_next; Ret (Some ln) else Ret None.

(** [drain_block], one turn: [true] when the block is out. *)
Definition drain_step : Tree SchedE bool :=
  a ← ask LoadAborted;
  if a : bool then Ret true
  else
    d ← drained;
    if d : bool then Ret true
    else _ ← apply_pending; Ret false.

(** ** Admission *)

(** What the feed owns: the session, and of the pool the toucher index and the
    sticky assignment. *)
Record Session : Type := mkSession {
  ss_n_txs : nat;
  ss_cold : nat;
  ss_edges : nat;
  ss_last_barrier : option nat;
  ss_dispatch : list N;
  ss_touch : TouchTable.t;
  ss_assign : gmap DomainKey nat;
  ss_assign_load : list N;
}.

Inductive FeedEnd : Type :=
| Fed (s : Session)
| FeedError (e : ExecutorError)
| FeedHung.

(** [min_by_key]: the first of the least loaded. *)
Fixpoint least_from (i : nat) (l : list N) (best : option (nat * N)) : option (nat * N) :=
  match l with
  | [] => best
  | x :: l => least_from (S i) l (match best with Some (_, y) => if (x <? y)%N then Some (i, x) else best | None => Some (i, x) end)
  end.
Definition least_loaded (load : list N) : nat := match least_from 0 load None with Some (w, _) => w | None => 0 end.

Definition sticky_worker (s : Session) (key : DomainKey) (hashed : nat) : nat * gmap DomainKey nat :=
  match ss_assign s !! key with
  | Some w => (w, ss_assign s)
  | None =>
    if STICKY_CAP <=? size (ss_assign s) then (hashed, ss_assign s)
    else let w := least_loaded (ss_assign_load s) in (w, <[key := w]> (ss_assign s))
  end.

Definition hashed_worker (domain : option DomainKey) (i : nat) : nat :=
  match domain with
  | Some (DAccount a) => domain_hash (to_be_bytes 20 a) (pc_workers cfg)
  | Some (DFixed a k) => domain_hash (drop 16 (to_be_bytes 20 a) ++ drop 28 (to_be_bytes 32 k)) (pc_workers cfg)
  | None => i mod pc_workers cfg
  end.

Definition assign_worker (s : Session) (domain : option DomainKey) (i : nat) : nat * gmap DomainKey nat * list N :=
  if bag_mode cfg then (0, ss_assign s, ss_assign_load s)
  else
    let hashed := hashed_worker domain i in
    let '(worker, assign) :=
      match domain with
      | Some key => if sticky_assign cfg then sticky_worker s key hashed else (hashed, ss_assign s)
      | None => (hashed, ss_assign s)
      end in
    (worker, assign, if sticky_assign cfg then alter N.succ worker (ss_assign_load s) else ss_assign_load s).

(** [collect_hash_preds]: [None] when the toucher index spins. *)
Fixpoint touch_all (touch : TouchTable.t) (hashes : list N) (idx : nat) (preds : list nat) : option (list nat * TouchTable.t) :=
  match hashes with
  | [] => Some (preds, touch)
  | h :: hashes =>
    r ← TouchTable.upsert touch h idx;
    touch_all r.2 hashes idx (match r.1 with Some p => preds ++ [p] | None => preds end)
  end.

Definition collect_hash_preds (touch : TouchTable.t) (hashes : list N) (idx : nat) (preds : list nat) : option (list nat * TouchTable.t) :=
  r ← touch_all touch hashes idx preds; Some (dedup (merge_sort Nat.le r.1), r.2).

(** The candidate predecessors of a transaction, and the barrier and the index after it. *)
Definition candidates (s : Session) (idx : nat) (is_cold : bool) (hashes : list N) : option (list nat * option nat * TouchTable.t) :=
  if is_cold then Some (seq 0 idx, Some idx, TouchTable.clear (ss_touch s))
  else r ← collect_hash_preds (ss_touch s) hashes idx (option_list (ss_last_barrier s)); Some (r.1, ss_last_barrier s, r.2).

Definition link_predecessor (p idx worker : nat) : Tree SchedE Link :=
  if p =? idx then Ret LNone else ask (LinkPred p idx worker).

Fixpoint link_all (preds : list nat) (idx worker deg : nat) : Tree SchedE nat :=
  match preds with
  | [] => Ret deg
  | p :: preds => l ← link_predecessor p idx worker; link_all preds idx worker (match l with LEdge => deg + 1 | _ => deg end)
  end.

Definition admit_serial (s : Session) (idx worker : nat) (is_cold : bool) (hashes : list N) : Tree SchedE FeedEnd :=
  match candidates s idx is_cold hashes with
  | None => Ret FeedHung
  | Some (preds, barrier, touch) =>
    was_open ← ask (OpenNode idx worker);
    if was_open : bool then Ret (FeedError ExecState)
    else
      _ ← ask AddAdmitted;
      deg ← link_all preds idx worker 0;
      prev ← ask (SubIndegree idx);
      _ ← (if (prev =? 1)%N then push_ready worker idx else Ret ());
      Ret (Fed (mkSession (ss_n_txs s) (ss_cold s) (ss_edges s + deg) barrier (ss_dispatch s) touch (ss_assign s) (ss_assign_load s)))
  end.

(** The domain that decides the worker. *)
Definition dispatch_domain (sender : Address) (prep : Prepared) : option DomainKey :=
  if dispatch_by_sender cfg && bool_decide (DAccount sender ∈ domains prep) then Some (DAccount sender) else primary prep.

Definition push_prepared (s : Session) (sender : Address) (prep : Prepared) : Tree SchedE FeedEnd :=
  let i := ss_n_txs s in
  if MAX_BLOCK_TXS <=? i then Ret (FeedError ExecState)
  else
    let '(worker, assign, load) := assign_worker s (dispatch_domain sender prep) i in
    _ ← ask (StoreSlot i);
    admit_serial
      (mkSession (i + 1) (if cold prep then ss_cold s + 1 else ss_cold s) (ss_edges s) (ss_last_barrier s)
        (alter N.succ worker (ss_dispatch s)) (ss_touch s) assign load)
      i worker (cold prep) (domain_hashes prep).

Fixpoint push_records (s : Session) (l : list (Address * Prepared)) : Tree SchedE FeedEnd :=
  match l with
  | [] => Ret (Fed s)
  | (sender, prep) :: l =>
    r ← push_prepared s sender prep;
    match r with
    | Fed s => push_records s l
    | _ => Ret r
    end
  end.

(** [run_block_prepared] up to the hand-over to the tail thread. *)
Definition feed_block (s : Session) (l : list (Address * Prepared)) : Tree SchedE FeedEnd :=
  r ← push_records s l;
  match r with
  | Fed s => _ ← ask StoreSealed; Ret (Fed s)
  | _ => Ret r
  end.

(** [begin_block]: a session over the pool. *)
Definition begin_block (touch : TouchTable.t) (assign : gmap DomainKey nat) (load : list N) : Session :=
  mkSession 0 0 0 None (replicate (pc_workers cfg) 0%N) (TouchTable.clear touch) assign load.
End sched.
