(* ===== verification/StmPool.v ===== *)
(** * The pool of Block-STM

    The threads of a block: the feed that admits its records and seals it
    ([run_block_prepared]), the workers ([run_worker_block] of [worker.rs]) and the
    tail thread that waits for the block to drain ([drain_block] of [handle.rs]).
    A turn gives one thread one event of the scheduler, or a worker one access of
    the transaction that it executes; the machine of [StmWorker] holds the
    transactions. Interleavings are sequentially consistent. The wait of a worker
    for the layers of its block, the watchdog of the tail thread and the pipelining
    of blocks are left out. *)
From S2P Require Import Prelude Bytes Types Fees WriteSet Effects ExecScope StmMv StmView StmWorker StmTouch StmPredict StmGraph.

Section pool.
Context `{Evm} (cfg : PoolConfig) (b : Block).

Inductive Worker : Type :=
| Polling (t : Tree SchedE (JobPoll * option nat))
| Executing (local_next : option nat) (i : nat)
| Finishing (t : Tree SchedE (option (option nat)))
| Left.

Inductive Tail : Type :=
| TailIdle
| Draining (t : Tree SchedE bool)
| TailOut.

Record Pool : Type := mkPool {
  pl_ctx : BlockCtx.t;
  pl_machine : Machine;
  pl_feed : Tree SchedE FeedEnd;
  pl_workers : list Worker;
  pl_tail : Tail;
}.

Inductive Turn : Type :=
| TFeed
| TTail
| TWorker (w budget : nat).

(** One event of a tree. *)
Definition tick {A} (budget : nat) (c : BlockCtx.t) (t : Tree SchedE A) : BlockCtx.t * Tree SchedE A :=
  match t with
  | Ret a => (c, Ret a)
  | Vis e k => let '(x, c') := exec cfg budget e c in (c', k x)
  end.

(** [JobArgs::run] reads the slot of its job first. *)
Definition begin_job (c : BlockCtx.t) (local_next : option nat) (i : nat) : BlockCtx.t * Worker :=
  if bool_decide (i ∈ BlockCtx.slots c) then (c, Executing local_next i) else (BlockCtx.with_panicked true c, Left).

Definition worker_turn (w budget : nat) (c : BlockCtx.t) (m : Machine) (s : Worker) : BlockCtx.t * Machine * Worker :=
  match s with
  | Polling (Ret (PollReady i, ln)) => let '(c', s') := begin_job c ln i in (c', m, s')
  | Polling (Ret (PollRetry, ln)) => (c, m, Polling (poll_once cfg w ln))
  | Polling (Ret (PollDone, _)) => (c, m, Left)
  | Polling t => let '(c', t') := tick budget c t in (c', m, Polling t')
  | Executing ln i =>
    match mc_txs m !! i with
    | Some (Finished r) => (c, m, Finishing (finish_job cfg w i r ln))
    | _ => (c, step b i m, s)
    end
  | Finishing (Ret (Some ln)) => (c, m, Polling (poll_once cfg w ln))
  | Finishing (Ret None) => (c, m, Left)
  | Finishing t => let '(c', t') := tick budget c t in (c', m, Finishing t')
  | Left => (c, m, Left)
  end.

Definition tail_turn (c : BlockCtx.t) (feed : Tree SchedE FeedEnd) (t : Tail) : BlockCtx.t * Tail :=
  match t with
  | TailIdle => (c, match feed with Ret (Fed _) => Draining (drain_step cfg) | _ => TailIdle end)
  | Draining (Ret true) => (c, TailOut)
  | Draining (Ret false) => (c, Draining (drain_step cfg))
  | Draining t => let '(c', t') := tick 0 c t in (c', Draining t')
  | TailOut => (c, TailOut)
  end.

Definition pool_step (p : Pool) (tn : Turn) : Pool :=
  match tn with
  | TFeed =>
    let '(c, t) := tick 0 (pl_ctx p) (pl_feed p) in mkPool c (pl_machine p) t (pl_workers p) (pl_tail p)
  | TTail =>
    let '(c, t) := tail_turn (pl_ctx p) (pl_feed p) (pl_tail p) in mkPool c (pl_machine p) (pl_feed p) (pl_workers p) t
  | TWorker w budget =>
    match pl_workers p !! w with
    | None => p
    | Some s =>
      let '(c, m, s') := worker_turn w budget (pl_ctx p) (pl_machine p) s in
      mkPool c m (pl_feed p) (<[w := s']> (pl_workers p)) (pl_tail p)
    end
  end.

(** A block with its preparations, over the toucher index and the assignments that
    the pool keeps. *)
Definition pool_start (mem : Mem) (touch : TouchTable.t) (assign : gmap DomainKey nat) (load : list N) (preps : list Prepared) : Pool :=
  mkPool (BlockCtx.new (pc_workers cfg)) (start b mem)
    (feed_block cfg (begin_block cfg touch assign load) (zip ((te_sender ∘ jb_envelope) <$> bk_jobs b) preps))
    ((λ w, Polling (poll_once cfg w None)) <$> seq 0 (pc_workers cfg)) TailIdle.

Definition run_pool (p : Pool) (turns : list Turn) : Pool := fold_left pool_step turns p.
End pool.
