(* ===== verification/StmGraphInv.v ===== *)
(** * The invariant of the scheduler

    Every transaction of a block is in one phase: not admitted, being linked,
    waiting for its predecessors, ready, in a queue or the bag, taken by a worker,
    executed, completed, out of the graph. A phase is either a place of the shared
    context or the hand of one thread, which then holds a token for it. The
    invariant ties the context to the phases and the tokens, and a logic over the
    trees of the threads ([wp]) moves the tokens: a thread keeps what it holds
    while the others take their turns. *)
From S2P Require Import Prelude Bytes Types Fees WriteSet Effects ExecScope StmMv StmView StmWorker StmTouch StmPredict StmGraph.
Import BlockCtx (node, set_node).

(** ** Counting *)
Section occ.
Context {A : Type} `{!EqDecision A}.
Implicit Types l : list A.

Definition ind (P : Prop) `{Decision P} : nat := if decide P then 1 else 0.

(** What leaves a count, and what arrives. *)
Lemma balance (J P Q R S : Prop) `{!Decision J, !Decision P, !Decision Q, !Decision R, !Decision S} a :
  a + ind (J ∧ P) = ind Q + ind (J ∧ R) → (J → (P ↔ Q) ∧ (R ↔ S)) → (¬ J → (Q ↔ S)) → a = ind S.
Proof. unfold ind. intros Ha H1 H2. repeat case_decide; lia || (exfalso; tauto). Qed.

Fixpoint occ (x : A) (l : list A) : nat :=
  match l with
  | [] => 0
  | y :: l => ind (x = y) + occ x l
  end.

Lemma occ_app x l l' : occ x (l ++ l') = occ x l + occ x l'.
Proof. induction l as [|y l IH]; cbn; [done|]. rewrite IH. lia. Qed.

Lemma occ_pos x l : 0 < occ x l ↔ x ∈ l.
Proof.
  induction l as [|y l IH]; cbn; [split; [lia|set_solver]|]. rewrite elem_of_cons, <-IH. unfold ind. case_decide; [split; [auto|lia]|].
  split; [intros ?; right; lia|intros [?|?]; [done|lia]].
Qed.

Lemma occ_zero x l : occ x l = 0 ↔ x ∉ l.
Proof. rewrite <-occ_pos. lia. Qed.

Lemma occ_NoDup l : (∀ x, occ x l ≤ 1) → NoDup l.
Proof.
  induction l as [|y l IH]; intros Hl; constructor.
  - intros Hy%occ_pos. specialize (Hl y). cbn in Hl. unfold ind in Hl. rewrite decide_True in Hl by done. lia.
  - apply IH. intros x. specialize (Hl x). cbn in Hl. lia.
Qed.

#[export] Instance occ_Permutation x : Proper ((≡ₚ) ==> (=)) (occ x).
Proof. induction 1; cbn; lia. Qed.

Lemma occ_length (l1 l2 : list A) : (∀ x, occ x l1 ≤ occ x l2) → length l1 ≤ length l2.
Proof.
  revert l2. induction l1 as [|y l1 IH]; intros l2 Hle; cbn; [lia|].
  assert (y ∈ l2) as (l & l' & ->)%list_elem_of_split.
  { apply occ_pos. specialize (Hle y). cbn in Hle. unfold ind in Hle. rewrite decide_True in Hle by done. lia. }
  rewrite length_app. cbn. assert (length l1 ≤ length (l ++ l')) as H'; [|rewrite length_app in H'; lia].
  apply IH. intros x. specialize (Hle x). rewrite !occ_app in *. cbn in Hle. lia.
Qed.
End occ.

Lemma occ_seq x s n : occ x (seq s n) = ind (s ≤ x < s + n).
Proof.
  revert s. induction n as [|n IH]; intros s; cbn; [unfold ind; by rewrite decide_False by lia|]. rewrite IH. unfold ind.
  repeat case_decide; lia.
Qed.

(** Indices below [n] that occur once are at most [n]. *)
Lemma occ_bound (l : list nat) n : (∀ i, occ i l ≤ ind (i < n)) → length l ≤ n.
Proof.
  intros Hl. rewrite <-(length_seq n 0). apply occ_length. intros x. rewrite occ_seq, Hl. unfold ind. repeat case_decide; lia.
Qed.

(** Sums over the indices of a block. *)
Fixpoint total (n : nat) (f : nat → nat) : nat :=
  match n with
  | O => 0
  | S n => total n f + f n
  end.

Lemma total_S n f : total (S n) f = total n f + f n.
Proof. done. Qed.

Lemma total_ext n f f' : (∀ i, i < n → f i = f' i) → total n f = total n f'.
Proof.
  induction n as [|n IH]; intros Hf; [done|]. rewrite !total_S, Hf by lia. f_equal. apply IH. intros i Hi. apply Hf. lia.
Qed.

Lemma total_le n f f' : (∀ i, i < n → f i ≤ f' i) → total n f ≤ total n f'.
Proof.
  induction n as [|n IH]; intros Hf; [done|]. rewrite !total_S. pose proof (Hf n ltac:(lia)). assert (total n f ≤ total n f'); [|lia].
  apply IH. intros i Hi. apply Hf. lia.
Qed.

(** One index changes its share. *)
Lemma total_move n f f' i : i < n → (∀ j, j ≠ i → f' j = f j) → total n f' + f i = total n f + f' i.
Proof.
  intros Hi Hf. induction n as [|n IH]; [lia|]. rewrite !total_S. destruct (decide (i = n)) as [->|].
  - rewrite (total_ext n f' f); [lia|]. intros j Hj. apply Hf. lia.
  - rewrite (Hf n) by lia. specialize (IH ltac:(lia)). lia.
Qed.

Lemma total_zero n f : total n f = 0 ↔ ∀ i, i < n → f i = 0.
Proof.
  induction n as [|n IH]; [split; [lia|done]|]. rewrite total_S, Nat.eq_add_0, IH. split.
  - intros [H1 H2] i Hi. destruct (decide (i = n)) as [->|]; [done|]. apply H1. lia.
  - intros H'. split; [intros i Hi; apply H'; lia|apply H'; lia].
Qed.

Lemma total_bound n f : (∀ i, i < n → f i ≤ 1) → total n f ≤ n.
Proof.
  induction n as [|n IH]; intros Hf; [done|]. rewrite total_S. pose proof (Hf n ltac:(lia)). assert (total n f ≤ n); [|lia]. apply IH. intros i Hi. apply Hf. lia.
Qed.

(** ** Phases and tokens *)

Inductive Phase : Type :=
| PNew | PLink | PWait | PReady | PQueue (w : nat) | PBag | PPop | PRun | PRan | PErr | POwed | PComp (w : nat) | PDrained | PShut | PFin | POut.

#[export] Instance phase_eq_dec : EqDecision Phase.
Proof. solve_decision. Defined.

(** In the hand of a thread. *)
Definition in_hand (p : Phase) : bool :=
  match p with PReady | PPop | PRun | PRan | PErr | POwed | PDrained | PShut | PFin => true | _ => false end.
(** With a result. *)
Definition ran (p : Phase) : bool :=
  match p with PRan | PErr | POwed | PComp _ | PDrained | PShut | PFin | POut => true | _ => false end.
(** Handed out to a queue or the bag, or further. *)
Definition handed (p : Phase) : bool :=
  match p with PQueue _ | PBag | PPop | PRun => true | _ => ran p end.
(** Off its queue. *)
Definition taken (p : Phase) : bool :=
  match p with PPop | PRun => true | _ => ran p end.
(** Without predecessors. *)
Definition released (p : Phase) : bool := match p with PReady => true | _ => handed p end.
Definition closed (p : Phase) : bool := match p with PShut | PFin | POut => true | _ => false end.
Definition is_open (p : Phase) : bool := match p with PNew => false | _ => negb (closed p) end.
(** With a completion that is still owed to the graph. *)
Definition owed (p : Phase) : bool := match p with POwed | PComp _ | PDrained | PShut => true | _ => false end.
(** Counted as finished. *)
Definition out (p : Phase) : bool := match p with POut => true | _ => false end.
(** Possible under a scheduler. *)
Definition allowed (bag : bool) (p : Phase) : bool :=
  match p with
  | PQueue _ | PPop | POwed | PComp _ | PDrained | PShut => negb bag
  | PBag => bag
  | _ => true
  end.

(** Where the feed is: how many slots it stored, nodes it opened and counted, and
    the transaction that it links with the predecessors still to link. *)
Record FeedAt : Type := mkFeedAt {
  fa_slots : nat;
  fa_opened : nat;
  fa_admitted : nat;
  fa_link : option (nat * list nat);
  fa_sealed : bool;
}.

#[export] Instance feed_at_eq_dec : EqDecision FeedAt.
Proof. solve_decision. Defined.

Inductive Tok : Type :=
| KAt (p : Phase) (i : nat)
| KDec (i : nat)
| KFeed (g : FeedAt)
| KOwner (w : nat)
| KWork (i w : nat)
| KSealed
| KSawFin (x : N)
| KExit.

#[export] Instance tok_eq_dec : EqDecision Tok.
Proof. solve_decision. Defined.

(** The direct predecessors of each transaction of a block: earlier ones, or itself. *)
Class Deps (dp : nat → list nat) : Prop := {
  dep_le i p : p ∈ dp i → p ≤ i;
  dep_len i : length (dp i) ≤ S i;
}.

Section inv.
Context (cfg : PoolConfig) (dp : nat → list nat).

Definition rem (g : FeedAt) (i : nat) : list nat :=
  match fa_link g with Some (j, l) => if decide (j = i) then l else [] | None => [] end.

(** The predecessors that a transaction waits for: the edges to it, and the closed
    ones whose decrement is under way. *)
Definition degree (n : nat) (c : BlockCtx.t) (H : list Tok) (i : nat) : nat :=
  occ (KDec i) H + total n (λ p, occ i (nd_children (node c p))).

Definition drained_now (c : BlockCtx.t) : Prop := BlockCtx.sealed c = true ∧ BlockCtx.finished c = BlockCtx.admitted c.

(** Each transaction is where its phase says, once. *)
Record places (ph : nat → Phase) (c : BlockCtx.t) (H : list Tok) : Prop := {
  at_hand : ∀ p i, in_hand p = true → occ (KAt p i) H = ind (ph i = p);
  at_queue : ∀ w i, occ i (BlockCtx.queues c !!! w) = ind (ph i = PQueue w);
  at_bag : ∀ i, occ i (BlockCtx.bag c) = ind (ph i = PBag);
  at_completed : ∀ w i, occ i (BlockCtx.completed c !!! w) = ind (ph i = PComp w);
  at_results : ∀ i, is_Some (BlockCtx.results c !! i) ↔ ran (ph i) = true;
  at_failed : ∀ i e, BlockCtx.results c !! i = Some (Err e) → ph i = PErr;
  at_mode : ∀ i, allowed (bag_mode cfg) (ph i) = true;
  at_lens : length (BlockCtx.queues c) = pc_workers cfg ∧ length (BlockCtx.completed c) = pc_workers cfg;
}.

(** The feed and the counters. *)
Record counted (g : FeedAt) (ph : nat → Phase) (c : BlockCtx.t) (H : list Tok) : Prop := {
  ct_feed : ∀ g', occ (KFeed g') H = ind (g' = g);
  ct_slots : ∀ i, i ∈ BlockCtx.slots c ↔ i < fa_slots g;
  ct_bounds : fa_admitted g ≤ fa_opened g ∧ fa_opened g ≤ fa_slots g ∧ fa_slots g ≤ MAX_BLOCK_TXS;
  ct_admitted : BlockCtx.admitted c = N.of_nat (fa_admitted g);
  ct_sealed : BlockCtx.sealed c = fa_sealed g;
  ct_sealed_all : fa_sealed g = true → fa_admitted g = fa_opened g ∧ fa_link g = None;
  ct_new : ∀ i, ph i = PNew ↔ fa_opened g ≤ i;
  ct_link : ∀ i, ph i = PLink ↔ ∃ l, fa_link g = Some (i, l);
  ct_pending : BlockCtx.pending c = N.of_nat (total (fa_opened g) (λ i, ind (owed (ph i) = true)));
  ct_finished : BlockCtx.finished c = N.of_nat (total (fa_opened g) (λ i, ind (out (ph i) = true)));
  ct_saw_sealed : 0 < occ KSealed H → BlockCtx.sealed c = true;
  ct_saw_fin : ∀ x, 0 < occ (KSawFin x) H → (x ≤ BlockCtx.finished c)%N;
  ct_exit : 0 < occ KExit H → BlockCtx.aborted c = true ∨ drained_now c;
  ct_sane : BlockCtx.double_exit c = 0%N ∧ BlockCtx.panicked c = false;
}.

(** The dependency graph. *)
Record graphed (g : FeedAt) (ph : nat → Phase) (c : BlockCtx.t) (H : list Tok) : Prop := {
  gr_open : ∀ i, nd_open (node c i) = is_open (ph i);
  gr_children : ∀ p i, i ∈ nd_children (node c p) → p < i ∧ is_open (ph p) = true ∧ ph i ≠ PNew;
  gr_indegree : ∀ i, ph i ≠ PNew → nd_indegree (node c i) = N.of_nat (ind (ph i = PLink) + degree (fa_opened g) c H i);
  gr_degree : ∀ i, degree (fa_opened g) c H i + length (rem g i) ≤ length (dp i);
  gr_released : ∀ i, released (ph i) = true ∨ ph i = PNew → degree (fa_opened g) c H i = 0;
  gr_wait : ∀ i, ph i = PWait → 0 < degree (fa_opened g) c H i;
  gr_dag : ∀ i p, ph i ≠ PNew → p ∈ dp i → p ≠ i → p ∉ rem g i →
    closed (ph p) = true ∨ i ∈ nd_children (node c p) ∨ p ∈ nd_fifo_preds (node c i);
  gr_ran : ∀ i p, ph i = PRun ∨ ran (ph i) = true → p ∈ dp i → p ≠ i → ran (ph p) = true;
}.

(** The queues, and the predecessors that are covered by them. *)
Record queued (ph : nat → Phase) (c : BlockCtx.t) (H : list Tok) : Prop := {
  qu_worker : ∀ i, bag_mode cfg = false → ph i ≠ PNew → nd_worker (node c i) < pc_workers cfg;
  qu_at : ∀ i w, ph i = PQueue w → nd_worker (node c i) = w;
  qu_flag : ∀ i, bag_mode cfg = false → ph i ≠ PNew → nd_queued (node c i) = true → handed (ph i) = true;
  qu_bag : ∀ i, bag_mode cfg = true → nd_fifo_preds (node c i) = [];
  qu_preds : ∀ i p, ph i ≠ PNew → p ∈ nd_fifo_preds (node c i) →
    p ∈ dp i ∧ p ≠ i ∧ nd_worker (node c p) = nd_worker (node c i) ∧ handed (ph p) = true;
  qu_order : ∀ w l1 i l2 p, BlockCtx.queues c !!! w = l1 ++ i :: l2 → p ∈ nd_fifo_preds (node c i) → taken (ph p) = true ∨ p ∈ l1;
  qu_pop : ∀ i p, ph i = PPop → p ∈ nd_fifo_preds (node c i) → ph p = PRun ∨ ran (ph p) = true;
  qu_owner : ∀ w, occ (KOwner w) H ≤ 1;
  qu_pop_owner : ∀ i, ph i = PPop → occ (KOwner (nd_worker (node c i))) H = 0;
  qu_pop_one : ∀ i j, ph i = PPop → ph j = PPop → nd_worker (node c i) = nd_worker (node c j) → i = j;
  qu_work : ∀ i w, 0 < occ (KWork i w) H → ph i ≠ PNew ∧ nd_worker (node c i) = w;
}.

Record inv (g : FeedAt) (ph : nat → Phase) (c : BlockCtx.t) (H : list Tok) : Prop := {
  iv_places : places ph c H;
  iv_counted : counted g ph c H;
  iv_graphed : graphed g ph c H;
  iv_queued : queued ph c H;
}.

Definition Inv (c : BlockCtx.t) (H : list Tok) : Prop := ∃ g ph, inv g ph c H.

(** ** The logic *)

(** What a thread may do to its tokens without an event. *)
Definition shift (h h' : list Tok) : Prop := ∀ c F, Inv c (h ++ F) → Inv c (h' ++ F).

(** An event of a thread with the tokens [h], whatever the others hold. *)
Definition event {X} (h : list Tok) (e : SchedE X) (Q : X → list Tok → Prop) : Prop :=
  ∀ budget c F, Inv c (h ++ F) → ∃ h', Inv (exec cfg budget e c).2 (h' ++ F) ∧ Q (exec cfg budget e c).1 h'.

Fixpoint wp {A} (h : list Tok) (t : Tree SchedE A) (Q : A → list Tok → Prop) : Prop :=
  match t with
  | Ret a => ∃ h', shift h h' ∧ Q a h'
  | Vis e k => event h e (λ x h', wp h' (k x) Q)
  end.

Lemma shift_refl h : shift h h.
Proof. by intros c F. Qed.
Lemma shift_trans h1 h2 h3 : shift h1 h2 → shift h2 h3 → shift h1 h3.
Proof. intros H1 H2 c F HI. by apply H2, H1. Qed.
Lemma shift_frame h h' R : shift h h' → shift (h ++ R) (h' ++ R).
Proof. intros Hs c F. rewrite <-!app_assoc. apply Hs. Qed.

Lemma gwp_shift {A} h h' (t : Tree SchedE A) Q : shift h h' → wp h' t Q → wp h t Q.
Proof.
  intros Hs. destruct t as [a|X e k]; cbn; [intros (h'' & ? & ?); eauto using shift_trans|]. intros Ht budget c F HI. by apply Ht, Hs.
Qed.

Lemma gwp_ret {A} h (a : A) (Q : A → list Tok → Prop) : Q a h → wp h (Ret a) Q.
Proof. exists h. auto using shift_refl. Qed.

Lemma gwp_bind {A B} h (t : Tree SchedE A) (f : A → Tree SchedE B) Q Q' :
  wp h t Q → (∀ a h', Q a h' → wp h' (f a) Q') → wp h (t ≫= f) Q'.
Proof.
  intros Ht Hf. revert h Ht. induction t as [a|X e k IH]; intros h; cbn; [intros (h' & Hs & HQ); by eapply gwp_shift, Hf|].
  intros Ht budget c F HI. destruct (Ht budget c F HI) as (h' & HI' & Hk). exists h'. split; [done|]. by apply IH.
Qed.

Lemma gwp_mono {A} h (t : Tree SchedE A) (Q Q' : A → list Tok → Prop) : (∀ a h', Q a h' → Q' a h') → wp h t Q → wp h t Q'.
Proof.
  intros HQ. revert h. induction t as [a|X e k IH]; intros h; cbn; [intros (h' & Hs & ?); eauto|]. intros Ht budget c F HI.
  destruct (Ht budget c F HI) as (h' & HI' & Hk). exists h'. split; [done|]. by apply IH.
Qed.

(** What else a thread holds stays in its hand. *)
Lemma gwp_frame {A} h R (t : Tree SchedE A) Q : wp h t Q → wp (h ++ R) t (λ a h', ∃ h0, h' = h0 ++ R ∧ Q a h0).
Proof.
  revert h. induction t as [a|X e k IH]; intros h; cbn; [intros (h' & Hs & ?); eauto 6 using shift_frame|]. intros Ht budget c F HI. rewrite <-app_assoc in HI.
  destruct (Ht budget c (R ++ F) HI) as (h' & HI' & Hk). exists (h' ++ R). rewrite <-app_assoc. split; [done|]. by apply IH.
Qed.

(** One event, and what it does to the tokens. *)
Lemma gwp_ask {X} (e : SchedE X) h Q : event h e Q → wp h (ask e) Q.
Proof. intros He budget c F HI. destruct (He budget c F HI) as (h' & HI' & HQ). exists h'. split; [done|]. by apply gwp_ret. Qed.

(** ** Moving transactions *)

(** The transactions [l], which are in phase [q], go on to phase [p]. *)
Definition upd (ph : nat → Phase) (l : list nat) (p : Phase) : nat → Phase := λ j, if decide (j ∈ l) then p else ph j.

Lemma upd_in ph l p j : j ∈ l → upd ph l p j = p.
Proof. intros. unfold upd. by rewrite decide_True. Qed.
Lemma upd_out ph l p j : j ∉ l → upd ph l p j = ph j.
Proof. intros. unfold upd. by rewrite decide_False. Qed.

Lemma upd_one ph i p j : upd ph [i] p j = if decide (j = i) then p else ph j.
Proof.
  destruct (decide (j = i)) as [->|Hj]; [apply upd_in|apply upd_out]; by rewrite list_elem_of_singleton.
Qed.

(** The parts of the nodes that the graph reads are the same. *)
Record same_graph (c c' : BlockCtx.t) : Prop := {
  sg_open : ∀ j, nd_open (node c' j) = nd_open (node c j);
  sg_children : ∀ j, nd_children (node c' j) = nd_children (node c j);
  sg_indegree : ∀ j, nd_indegree (node c' j) = nd_indegree (node c j);
  sg_preds : ∀ j, nd_fifo_preds (node c' j) = nd_fifo_preds (node c j);
}.

Lemma same_graph_nodes c c' : BlockCtx.nodes c' = BlockCtx.nodes c → same_graph c c'.
Proof. intros Hn. split; intros j; unfold node; by rewrite Hn. Qed.

Lemma degree_same n c c' H H' i : (∀ j, nd_children (node c' j) = nd_children (node c j)) → occ (KDec i) H' = occ (KDec i) H →
  degree n c' H' i = degree n c H i.
Proof. intros Hc HH. unfold degree. rewrite HH. f_equal. apply total_ext. intros j _. by rewrite Hc. Qed.

(** The move goes on. *)
Definition keeps (q p : Phase) : Prop :=
  released q = true ∧ released p = true ∧ (closed q = true → closed p = true) ∧ (ran q = true → ran p = true) ∧ (handed q = true → handed p = true) ∧
  (q = PRun → p = PRun ∨ ran p = true) ∧ (out q = true → out p = true).

Lemma released_open p : released p = true → is_open p = negb (closed p).
Proof. by destruct p. Qed.

Section move.
Context (g : FeedAt) (ph : nat → Phase) (c c' : BlockCtx.t) (H H' : list Tok) (l : list nat) (q p : Phase).
Context (Hq : ∀ i, i ∈ l → ph i = q) (Hkeeps : keeps q p).

Lemma upd_new j : upd ph l p j = PNew ↔ ph j = PNew.
Proof.
  destruct Hkeeps as (Hr & Hr' & _). unfold upd. case_decide as Hj; [|done]. rewrite (Hq j Hj). split; intros ->; done.
Qed.

Lemma upd_link j : upd ph l p j = PLink ↔ ph j = PLink.
Proof.
  destruct Hkeeps as (Hr & Hr' & _). unfold upd. case_decide as Hj; [|done]. rewrite (Hq j Hj). split; intros ->; done.
Qed.

Lemma upd_ran j : ran (ph j) = true → ran (upd ph l p j) = true.
Proof. destruct Hkeeps as (_ & _ & _ & Hran & _). unfold upd. case_decide as Hj; [|done]. rewrite (Hq j Hj). done. Qed.

Lemma upd_handed j : handed (ph j) = true → handed (upd ph l p j) = true.
Proof. destruct Hkeeps as (_ & _ & _ & _ & Hh & _). unfold upd. case_decide as Hj; [|done]. rewrite (Hq j Hj). done. Qed.

Lemma graphed_move : graphed g ph c H →
  (∀ j, nd_open (node c' j) = is_open (upd ph l p j)) → (∀ j, nd_indegree (node c' j) = nd_indegree (node c j)) →
  (∀ j, nd_fifo_preds (node c' j) = nd_fifo_preds (node c j)) →
  (∀ j, degree (fa_opened g) c' H' j = degree (fa_opened g) c H j) →
  (∀ x j, j ∈ nd_children (node c' x) → j ∈ nd_children (node c x) ∧ is_open (upd ph l p x) = true) →
  (∀ x j, j ∈ nd_children (node c x) → j ∈ nd_children (node c' x) ∨ closed (upd ph l p x) = true) →
  (p = PRun ∨ ran p = true → ∀ i x, i ∈ l → x ∈ dp i → x ≠ i → ran (ph x) = true) → graphed g (upd ph l p) c' H'.
Proof.
  intros [G1 G2 G3 G4 G5 G6 G7 G8] S1 S3 S4 Hdeg Hch Hch' Hcl. pose proof Hkeeps as (Hr & Hr' & Hc & Hran & _ & _). split.
  - done.
  - intros x j [Hj Ho]%Hch. rewrite upd_new. destruct (G2 x j Hj) as (? & _ & ?). done.
  - intros j. rewrite upd_new, S3, Hdeg. intros Hj. rewrite G3 by done. do 2 f_equal. unfold ind. pose proof (upd_link j). repeat case_decide; tauto.
  - intros j. rewrite Hdeg. apply G4.
  - intros j. rewrite Hdeg, upd_new. unfold upd. case_decide as Hj; [|apply G5]. intros _. apply G5. rewrite (Hq j Hj). by left.
  - intros j. rewrite Hdeg. unfold upd. case_decide; [by intros ->|apply G6].
  - intros j x. rewrite upd_new, S4. intros Hj Hx Hne Hrem. destruct (G7 j x Hj Hx Hne Hrem) as [Hcx|[Hjx|?]]; [left| |by auto].
    + unfold upd. case_decide as Hin; [|done]. apply Hc. by rewrite <-(Hq x Hin).
    + destruct (Hch' x j Hjx); auto.
  - intros j x Hj Hx Hne. apply upd_ran. unfold upd in Hj. case_decide; [by apply (Hcl Hj j)|by apply (G8 j)].
Qed.

(** The nodes stay as they are. *)
Lemma graphed_still : graphed g ph c H → same_graph c c' → (∀ j, occ (KDec j) H' = occ (KDec j) H) → closed p = closed q →
  (p = PRun ∨ ran p = true → ∀ i x, i ∈ l → x ∈ dp i → x ≠ i → ran (ph x) = true) → graphed g (upd ph l p) c' H'.
Proof.
  intros HG [S1 S2 S3 S4] HD Hc Hcl. pose proof Hkeeps as (Hr & Hr' & _).
  assert (∀ j, is_open (upd ph l p j) = is_open (ph j)) as Hop.
  { intros j. unfold upd. case_decide as Hj; [|done]. rewrite (Hq j Hj). by rewrite !released_open, Hc. }
  apply graphed_move; try done.
  - intros j. rewrite S1, Hop. apply HG.
  - intros j. by apply degree_same.
  - intros x j. rewrite S2, Hop. intros Hj. split; [done|]. by apply (gr_children _ _ _ _ HG x j).
  - intros x j. rewrite S2. by left.
Qed.

Lemma queued_move : queued ph c H → (∀ j, nd_fifo_preds (node c' j) = nd_fifo_preds (node c j)) →
  (∀ j, nd_worker (node c' j) = nd_worker (node c j)) →
  (∀ j, nd_queued (node c' j) = true → nd_queued (node c j) = true ∨ (j ∈ l ∧ handed p = true)) →
  (∀ j w, occ (KWork j w) H' = occ (KWork j w) H) →
  (∀ i w, i ∈ l → p = PQueue w → nd_worker (node c i) = w) →
  (∀ w l1 j l2 x, BlockCtx.queues c' !!! w = l1 ++ j :: l2 → x ∈ nd_fifo_preds (node c j) → taken (upd ph l p x) = true ∨ x ∈ l1) →
  (∀ i x, p = PPop → i ∈ l → x ∈ nd_fifo_preds (node c i) → ph x = PRun ∨ ran (ph x) = true) →
  (∀ w, occ (KOwner w) H' ≤ 1) →
  (∀ j, upd ph l p j = PPop → occ (KOwner (nd_worker (node c j))) H' = 0 ∧
     ∀ k, upd ph l p k = PPop → nd_worker (node c k) = nd_worker (node c j) → k = j) →
  queued (upd ph l p) c' H'.
Proof.
  intros [Q1 Q2 Q3 Q4 Q5 Q6 Q7 Q8 Q9 Q10 Q11] S4 HW Hfl HK Hat Hord Hpop Hown Hpops.
  pose proof Hkeeps as (Hr & Hr' & Hc & Hran & Hh & Hrun & _). split.
  - intros j. rewrite upd_new, HW. apply Q1.
  - intros j w. rewrite HW. unfold upd. case_decide as Hj; [by apply Hat|apply Q2].
  - intros j Hb. rewrite upd_new. intros Hj [Hf|[Hin Hf]]%Hfl; [by apply upd_handed, Q3|by rewrite upd_in].
  - intros j. rewrite S4. apply Q4.
  - intros j x. rewrite upd_new, S4, !HW. intros Hj Hx. destruct (Q5 j x Hj Hx) as (? & ? & ? & ?). auto using upd_handed.
  - intros w l1 j l2 x Hw. rewrite S4. by eapply Hord.
  - intros j x. rewrite S4. intros Hj Hx. assert (ph x = PRun ∨ ran (ph x) = true) as Hx'.
    { unfold upd in Hj. case_decide as Hin; [by apply (Hpop j)|by eapply Q7]. }
    unfold upd. case_decide as Hin; [|done]. rewrite (Hq x Hin) in Hx'. destruct Hx'; auto.
  - done.
  - intros j Hj. rewrite HW. by destruct (Hpops j Hj).
  - intros j k Hj Hk. rewrite !HW. intros Hjk. destruct (Hpops k Hk) as [_ Hone]. by apply Hone.
  - intros j w. rewrite HK, upd_new, HW. apply Q11.
Qed.

(** Moves that do not begin or end a verification of a queue's front. *)
Lemma pops_other : queued ph c H → (∀ w, occ (KOwner w) H' = occ (KOwner w) H) → p ≠ PPop →
  (∀ w, occ (KOwner w) H' ≤ 1) ∧
  (∀ j, upd ph l p j = PPop → occ (KOwner (nd_worker (node c j))) H' = 0 ∧
     ∀ k, upd ph l p k = PPop → nd_worker (node c k) = nd_worker (node c j) → k = j).
Proof.
  intros HQ HO Hp. split; [intros w; rewrite HO; apply HQ|]. intros j. unfold upd. case_decide; [done|]. intros Hj. rewrite HO. split; [by apply (qu_pop_owner _ _ _ HQ)|].
  intros k. case_decide; [done|]. intros Hk Hw. by apply (qu_pop_one _ _ _ HQ).
Qed.

Lemma counted_move : counted g ph c H →
  BlockCtx.slots c' = BlockCtx.slots c → BlockCtx.admitted c' = BlockCtx.admitted c → BlockCtx.sealed c' = BlockCtx.sealed c →
  (BlockCtx.aborted c = true → BlockCtx.aborted c' = true) → BlockCtx.double_exit c' = BlockCtx.double_exit c → BlockCtx.panicked c' = BlockCtx.panicked c →
  (∀ t, (match t with KFeed _ | KSealed | KSawFin _ | KExit => true | _ => false end) = true → occ t H' = occ t H) →
  BlockCtx.pending c' = N.of_nat (total (fa_opened g) (λ j, ind (owed (upd ph l p j) = true))) →
  BlockCtx.finished c' = N.of_nat (total (fa_opened g) (λ j, ind (out (upd ph l p j) = true))) →
  counted g (upd ph l p) c' H'.
Proof.
  intros [C1 C2 C3 C4 C5 C6 C7 C8 C9 C10 C11 C12 C13 C14] E1 E2 E3 E4 E5 E6 HT Hpe Hfi. pose proof Hkeeps as (Hr & Hr' & _ & _ & _ & _ & Hout).
  assert (total (fa_opened g) (λ j, ind (out (ph j) = true)) ≤ total (fa_opened g) (λ j, ind (out (upd ph l p j) = true))) as Hle.
  { apply total_le. intros j _. unfold ind, upd. destruct (decide (j ∈ l)) as [Hj|]; [rewrite (Hq j Hj)|]; repeat case_decide; try lia; tauto. }
  split.
  - intros g'. by rewrite HT.
  - by rewrite E1.
  - done.
  - by rewrite E2.
  - by rewrite E3.
  - done.
  - intros j. by rewrite upd_new.
  - intros j. by rewrite upd_link.
  - done.
  - done.
  - rewrite HT, E3 by done. done.
  - intros x. rewrite HT by done. intros Hx%C12. rewrite Hfi. rewrite C10 in Hx. lia.
  - rewrite HT by done. intros [?|[Hs Hd]]%C13; [left; auto|right]. split; [by rewrite E3|]. rewrite E2, <-Hd, Hfi, C10. rewrite C10, C4 in Hd.
    destruct C6 as [Ha _]; [congruence|]. f_equal.
    assert (total (fa_opened g) (λ j, ind (out (upd ph l p j) = true)) ≤ fa_opened g); [|lia].
    apply total_bound. intros j _. unfold ind. case_decide; lia.
  - by rewrite E5, E6.
Qed.

(** What leaves one place arrives at the other. *)
Lemma places_move : places ph c H → allowed (bag_mode cfg) p = true →
  (∀ r j, in_hand r = true → occ (KAt r j) H' + ind (j ∈ l ∧ r = q) = occ (KAt r j) H + ind (j ∈ l ∧ r = p)) →
  (∀ w j, occ j (BlockCtx.queues c' !!! w) + ind (j ∈ l ∧ q = PQueue w) = occ j (BlockCtx.queues c !!! w) + ind (j ∈ l ∧ p = PQueue w)) →
  (∀ j, occ j (BlockCtx.bag c') + ind (j ∈ l ∧ q = PBag) = occ j (BlockCtx.bag c) + ind (j ∈ l ∧ p = PBag)) →
  (∀ w j, occ j (BlockCtx.completed c' !!! w) + ind (j ∈ l ∧ q = PComp w) = occ j (BlockCtx.completed c !!! w) + ind (j ∈ l ∧ p = PComp w)) →
  (∀ j, is_Some (BlockCtx.results c' !! j) ↔ is_Some (BlockCtx.results c !! j) ∨ (j ∈ l ∧ ran p = true)) →
  q ≠ PErr → (∀ j e, BlockCtx.results c' !! j = Some (Err e) → BlockCtx.results c !! j = Some (Err e) ∨ (j ∈ l ∧ p = PErr)) →
  length (BlockCtx.queues c') = length (BlockCtx.queues c) → length (BlockCtx.completed c') = length (BlockCtx.completed c) →
  places (upd ph l p) c' H'.
Proof.
  intros [P1 P2 P3 P4 P5 P5' P6 P7] Hal B1 B2 B3 B4 B5 Hqe B5' L1 L2. pose proof Hkeeps as (_ & _ & _ & Hran & _). split.
  - intros r j Hr. specialize (B1 r j Hr). rewrite P1 in B1 by done. apply (balance (j ∈ l) _ _ _ _ _ B1); intros Hj; [rewrite (Hq j Hj), (upd_in _ _ _ _ Hj); split; split; congruence|by rewrite upd_out].
  - intros w j. specialize (B2 w j). rewrite P2 in B2. apply (balance (j ∈ l) _ _ _ _ _ B2); intros Hj; [rewrite (Hq j Hj), (upd_in _ _ _ _ Hj); split; split; congruence|by rewrite upd_out].
  - intros j. specialize (B3 j). rewrite P3 in B3. apply (balance (j ∈ l) _ _ _ _ _ B3); intros Hj; [rewrite (Hq j Hj), (upd_in _ _ _ _ Hj); split; split; congruence|by rewrite upd_out].
  - intros w j. specialize (B4 w j). rewrite P4 in B4. apply (balance (j ∈ l) _ _ _ _ _ B4); intros Hj; [rewrite (Hq j Hj), (upd_in _ _ _ _ Hj); split; split; congruence|by rewrite upd_out].
  - intros j. rewrite B5, P5. destruct (decide (j ∈ l)) as [Hj|Hj]; [rewrite (Hq j Hj), (upd_in _ _ _ _ Hj)|rewrite upd_out by done]; tauto.
  - intros j e [He|[Hj ->]]%B5'; [|by apply upd_in]. apply P5' in He. rewrite upd_out; [done|]. intros Hj%Hq. congruence.
  - intros j. destruct (decide (j ∈ l)); [by rewrite upd_in|rewrite upd_out by done; apply P6].
  - by rewrite L1, L2.
Qed.
End move.

Lemma ind_false (P : Prop) `{Decision P} : ¬ P → ind P = 0.
Proof. intros. unfold ind. by rewrite decide_False. Qed.
Lemma ind_true (P : Prop) `{Decision P} : P → ind P = 1.
Proof. intros. unfold ind. by rewrite decide_True. Qed.
Lemma ind_iff (P Q : Prop) `{Decision P, Decision Q} : (P ↔ Q) → ind P = ind Q.
Proof. intros. unfold ind. repeat case_decide; tauto. Qed.

(** A phase that is neither a queue nor the verification of a queue's front. *)
Definition off_queue (p : Phase) : bool := match p with PQueue _ | PPop => false | _ => true end.

(** The tokens that are not phases. *)
Definition is_at (t : Tok) : bool := match t with KAt _ _ => true | _ => false end.

(** Moves that leave the nodes and the queues. *)
Lemma inv_move g ph c c' H H' l q p : inv g ph c H → (∀ i, i ∈ l → ph i = q) → keeps q p → closed p = closed q → off_queue q = true → off_queue p = true →
  (taken q = true → taken p = true) → allowed (bag_mode cfg) p = true →
  (∀ t, is_at t = false → occ t H' = occ t H) →
  (∀ r j, in_hand r = true → occ (KAt r j) H' + ind (j ∈ l ∧ r = q) = occ (KAt r j) H + ind (j ∈ l ∧ r = p)) →
  BlockCtx.nodes c' = BlockCtx.nodes c → BlockCtx.queues c' = BlockCtx.queues c →
  BlockCtx.slots c' = BlockCtx.slots c → BlockCtx.admitted c' = BlockCtx.admitted c → BlockCtx.sealed c' = BlockCtx.sealed c →
  BlockCtx.aborted c' = BlockCtx.aborted c → BlockCtx.double_exit c' = BlockCtx.double_exit c → BlockCtx.panicked c' = BlockCtx.panicked c →
  (∀ j, occ j (BlockCtx.bag c') + ind (j ∈ l ∧ q = PBag) = occ j (BlockCtx.bag c) + ind (j ∈ l ∧ p = PBag)) →
  (∀ w j, occ j (BlockCtx.completed c' !!! w) + ind (j ∈ l ∧ q = PComp w) = occ j (BlockCtx.completed c !!! w) + ind (j ∈ l ∧ p = PComp w)) →
  length (BlockCtx.completed c') = length (BlockCtx.completed c) →
  (∀ j, is_Some (BlockCtx.results c' !! j) ↔ is_Some (BlockCtx.results c !! j) ∨ (j ∈ l ∧ ran p = true)) →
  q ≠ PErr → (∀ j e, BlockCtx.results c' !! j = Some (Err e) → BlockCtx.results c !! j = Some (Err e) ∨ (j ∈ l ∧ p = PErr)) →
  BlockCtx.pending c' = N.of_nat (total (fa_opened g) (λ j, ind (owed (upd ph l p j) = true))) →
  BlockCtx.finished c' = N.of_nat (total (fa_opened g) (λ j, ind (out (upd ph l p j) = true))) →
  (p = PRun ∨ ran p = true → ∀ i x, i ∈ l → x ∈ dp i → x ≠ i → ran (ph x) = true) →
  inv g (upd ph l p) c' H'.
Proof.
  intros [HP HC HG HQ] Hq Hk Hcq Hoq Hop Htk Hal HT HH En Eq Es Ead Ese Eab Ede Epa Hbag Hcomp Hlen Hres Hqe Hfail Hpend Hfin Hcl.
  assert (∀ j, node c' j = node c j) as Hnode by (intros j; unfold node; by rewrite En).
  assert (p ≠ PPop) as Hpp by (intros ->; done). split.
  - apply (places_move ph c c' H H' l q p); try done; [|by rewrite Eq]. intros w j. rewrite Eq, !ind_false; [done|..]; intros [_ ->]; done.
  - apply (counted_move g ph c c' H H' l q p); try done; [by rewrite Eab|]. intros t Ht. apply HT. by destruct t.
  - apply (graphed_still g ph c c' H H' l q p); try done; [by apply same_graph_nodes|]. intros j. by apply HT.
  - destruct (pops_other ph c H H' l p HQ (λ w, HT (KOwner w) eq_refl) Hpp) as [Ho Hps].
    apply (queued_move ph c c' H H' l q p); try done.
    + intros j. by rewrite Hnode.
    + intros j. by rewrite Hnode.
    + intros j. rewrite Hnode. by left.
    + intros j w. by apply HT.
    + intros i w _ ->. done.
    + intros w l1 j l2 x. rewrite Eq. intros Hw Hx. destruct (qu_order _ _ _ HQ _ _ _ _ _ Hw Hx) as [Ht|?]; [left|by right].
      destruct (decide (x ∈ l)) as [Hin|Hin]; [|by rewrite upd_out]. rewrite upd_in by done. rewrite (Hq x Hin) in Ht. auto.
Qed.

(** ** Permutations and tokens of no account *)

Lemma degree_occ n c H H' i : occ (KDec i) H' = occ (KDec i) H → degree n c H' i = degree n c H i.
Proof. intros HH. unfold degree. by rewrite HH. Qed.

(** Only the counts of the tokens matter. *)
Lemma inv_occ g ph c H H' : (∀ t, occ t H' = occ t H) → inv g ph c H → inv g ph c H'.
Proof.
  intros HT [[] [] [] []]. split; split; intros; rewrite ?HT in *; eauto.
  all: rewrite ?(degree_occ _ c H H') in * by done; eauto.
Qed.

#[export] Instance Inv_Permutation c : Proper ((≡ₚ) ==> iff) (Inv c).
Proof.
  intros H H' HH. split; intros (g & ph & Hi); exists g, ph; (eapply inv_occ; [|exact Hi]); intros t; by rewrite HH.
Qed.

Lemma shift_perm h h' : h ≡ₚ h' → shift h h'.
Proof. intros Hp c F. by rewrite Hp. Qed.
End inv.
