(* ===== verification/StmGraphStep.v ===== *)
(** * The events of the scheduler and its invariant

    What each event does to the phases and the tokens. *)
From S2P Require Import Prelude Bytes Types Fees WriteSet Effects ExecScope StmMv StmView StmWorker StmTouch StmPredict StmGraph StmGraphInv.
Import BlockCtx (node, set_node).

Section events.
Context (cfg : PoolConfig) (dp : nat → list nat) `{!Deps dp}.

Abbreviation Inv := (Inv cfg dp).
Abbreviation inv := (inv cfg dp).

(** ** Tokens *)

Lemma occ_ats q l r j : NoDup l → occ (KAt r j) (KAt q <$> l) = ind (j ∈ l ∧ r = q).
Proof.
  induction 1 as [|x l Hx _ IH]; cbn; [by rewrite ind_false by set_solver|]. rewrite IH. clear IH. unfold ind.
  repeat case_decide; simplify_eq; try lia; exfalso; set_solver.
Qed.

Lemma occ_ats_other q l t : is_at t = false → occ t (KAt q <$> l) = 0.
Proof. intros Ht. apply occ_zero. intros (i & -> & _)%list_elem_of_fmap. done. Qed.

Lemma inv_hand g ph c q l F : inv g ph c ((KAt q <$> l) ++ F) → in_hand q = true → NoDup l ∧ ∀ i, i ∈ l → ph i = q.
Proof.
  intros Hi Hq. pose proof (at_hand _ _ _ _ (iv_places _ _ _ _ _ _ Hi) q) as Hh. split.
  - apply occ_NoDup. intros i. specialize (Hh i Hq). rewrite occ_app in Hh.
    assert (occ (KAt q i) (KAt q <$> l) = occ i l) as Heq.
    { clear. induction l as [|x l IH]; cbn; [done|]. rewrite IH. f_equal. apply ind_iff. split; [by intros [=]|by intros ->]. }
    rewrite Heq in Hh. unfold ind in Hh. case_decide; lia.
  - intros i Hin. specialize (Hh i Hq). destruct (decide (ph i = q)); [done|]. rewrite ind_false in Hh by done. apply occ_zero in Hh. set_solver.
Qed.

(** A move from hand to hand. *)
Lemma hand_swap q p l F : NoDup l → ∀ r j, in_hand r = true →
  occ (KAt r j) ((KAt p <$> l) ++ F) + ind (j ∈ l ∧ r = q) = occ (KAt r j) ((KAt q <$> l) ++ F) + ind (j ∈ l ∧ r = p).
Proof. intros Hl r j _. rewrite !occ_app, !occ_ats by done. lia. Qed.

Lemma hand_drop q p l F : NoDup l → in_hand p = false → ∀ r j, in_hand r = true →
  occ (KAt r j) F + ind (j ∈ l ∧ r = q) = occ (KAt r j) ((KAt q <$> l) ++ F) + ind (j ∈ l ∧ r = p).
Proof. intros Hl Hp r j Hr. rewrite !occ_app, !occ_ats by done. rewrite (ind_false (j ∈ l ∧ r = p)); [lia|]. intros [_ ->]. congruence. Qed.

Lemma hand_add q p l F : NoDup l → in_hand q = false → ∀ r j, in_hand r = true →
  occ (KAt r j) ((KAt p <$> l) ++ F) + ind (j ∈ l ∧ r = q) = occ (KAt r j) F + ind (j ∈ l ∧ r = p).
Proof. intros Hl Hp r j Hr. rewrite !occ_app, !occ_ats by done. rewrite (ind_false (j ∈ l ∧ r = q)); [lia|]. intros [_ ->]. congruence. Qed.

Lemma others_swap q p l l' F t : is_at t = false → occ t ((KAt p <$> l') ++ F) = occ t ((KAt q <$> l) ++ F).
Proof. intros Ht. by rewrite !occ_app, !occ_ats_other. Qed.

Lemma others_drop q l F t : is_at t = false → occ t F = occ t ((KAt q <$> l) ++ F).
Proof. intros Ht. by rewrite !occ_app, !occ_ats_other. Qed.

(** ** Counters *)

Lemma total_upd n ph l p (f : Phase → bool) : NoDup l → (∀ i, i ∈ l → i < n) → (∀ i, i ∈ l → f (ph i) = false) → f p = true →
  total n (λ j, ind (f (upd ph l p j) = true)) = total n (λ j, ind (f (ph j) = true)) + length l.
Proof.
  intros Hl. revert n ph. induction Hl as [|x l Hx Hl IH]; intros n ph Hn Hf Hp; cbn; [rewrite Nat.add_0_r; by apply total_ext|].
  specialize (IH n (upd ph [x] p)). pose proof (total_move n (λ j, ind (f (ph j) = true)) (λ j, ind (f (upd ph [x] p j) = true)) x) as Hmv.
  specialize (Hmv ltac:(apply Hn; set_solver)). cbn in Hmv. rewrite (upd_in _ [x] _ x) in Hmv by set_solver.
  rewrite (ind_true (f p = true)) in Hmv by done. rewrite (ind_false (f (ph x) = true)) in Hmv by (rewrite Hf by set_solver; done).
  rewrite (total_ext n _ (λ j, ind (f (upd (upd ph [x] p) l p j) = true))).
  - rewrite IH; [|set_solver| |done].
    + rewrite <-Nat.add_succ_comm. f_equal. specialize (Hmv ltac:(intros j Hj; by rewrite upd_out by set_solver)). lia.
    + intros i Hi. rewrite upd_out by set_solver. apply Hf. set_solver.
  - intros j _. do 2 f_equal. unfold upd. repeat case_decide; set_solver.
Qed.

Lemma total_upd_out n ph l p (f : Phase → bool) : NoDup l → (∀ i, i ∈ l → i < n) → (∀ i, i ∈ l → f (ph i) = true) → f p = false →
  total n (λ j, ind (f (upd ph l p j) = true)) + length l = total n (λ j, ind (f (ph j) = true)).
Proof.
  intros Hl. revert n ph. induction Hl as [|x l Hx Hl IH]; intros n ph Hn Hf Hp; cbn; [rewrite Nat.add_0_r; by apply total_ext|].
  specialize (IH n (upd ph [x] p)). pose proof (total_move n (λ j, ind (f (ph j) = true)) (λ j, ind (f (upd ph [x] p j) = true)) x) as Hmv.
  specialize (Hmv ltac:(apply Hn; set_solver)). cbn in Hmv. rewrite (upd_in _ [x] _ x) in Hmv by set_solver.
  rewrite (ind_false (f p = true)) in Hmv by (rewrite Hp; done). rewrite (ind_true (f (ph x) = true)) in Hmv by (apply Hf; set_solver).
  rewrite (total_ext n _ (λ j, ind (f (upd (upd ph [x] p) l p j) = true))).
  - specialize (Hmv ltac:(intros j Hj; by rewrite upd_out by set_solver)). rewrite Nat.add_succ_r, IH; [lia|set_solver| |done].
    intros i Hi. rewrite upd_out by set_solver. apply Hf. set_solver.
  - intros j _. do 2 f_equal. unfold upd. repeat case_decide; set_solver.
Qed.

Lemma total_upd_same n ph l p (f : Phase → bool) : (∀ i, i ∈ l → f (ph i) = f p) →
  total n (λ j, ind (f (upd ph l p j) = true)) = total n (λ j, ind (f (ph j) = true)).
Proof. intros Hl. apply total_ext. intros j _. do 2 f_equal. unfold upd. case_decide as Hj; [by rewrite Hl|done]. Qed.

Lemma opened_max g ph c H : inv g ph c H → fa_opened g ≤ MAX_BLOCK_TXS.
Proof. intros Hi. destruct (ct_bounds _ _ _ _ (iv_counted _ _ _ _ _ _ Hi)). lia. Qed.

Lemma below_opened g ph c H i : inv g ph c H → ph i ≠ PNew → i < fa_opened g.
Proof.
  intros Hi Hn. pose proof (ct_new _ _ _ _ (iv_counted _ _ _ _ _ _ Hi) i). destruct (decide (fa_opened g ≤ i)); [tauto|lia].
Qed.

(** ** Moves of completions *)

(** The closure of the direct predecessors, from a transaction that has it. *)
Lemma closure_of g ph c H i : inv g ph c H → ph i = PRun ∨ ran (ph i) = true → ∀ x, x ∈ dp i → x ≠ i → ran (ph x) = true.
Proof. intros Hi Hr x. by apply (gr_ran _ _ _ _ _ (iv_graphed _ _ _ _ _ _ Hi)). Qed.

Ltac easy_move :=
  try done;
  try (unfold keeps; cbn; intuition congruence);
  try (let j := fresh in intros j; rewrite !ind_false by (by intros [_ ?]); done);
  try (let w := fresh in let j := fresh in intros w j; rewrite !ind_false by (by intros [_ ?]); done).

(** A result ends the execution; a failed transaction goes no further. *)
Definition result_phase (r : result ExecutorError TxResult) : Phase := match r with Ok _ => PRan | Err _ => PErr end.

Lemma ev_set_result i r : event cfg dp [KAt PRun i] (SetResult i r) (λ _ h, h = [KAt (result_phase r) i]).
Proof.
  intros budget c F (g & ph & Hi). eexists. split; [|done]. set (p := result_phase r). destruct (inv_hand _ _ _ PRun [i] _ Hi eq_refl) as [Hnd Hin].
  pose proof (iv_places _ _ _ _ _ _ Hi) as HP. pose proof (iv_counted _ _ _ _ _ _ Hi) as HC.
  assert (BlockCtx.results c !! i = None) as Hnone.
  { apply eq_None_not_Some. rewrite (at_results _ _ _ _ HP), Hin by set_solver. done. }
  assert (ran p = true ∧ closed p = false ∧ off_queue p = true ∧ taken p = true ∧ owed p = false ∧ out p = false ∧ p ≠ PBag ∧ keeps PRun p ∧
    (∀ w, p ≠ PComp w) ∧ allowed (bag_mode cfg) p = true) as (P1 & P2 & P3 & P4 & P5 & P6 & P7 & P8 & P9 & P10) by (unfold p; destruct r; unfold keeps; cbn; intuition congruence).
  exists g, (upd ph [i] p). cbn. rewrite Hnone. apply (inv_move _ _ g ph c _ (KAt PRun i :: F) _ [i] PRun p); easy_move.
  - intros t. by apply (others_swap PRun p [i] [i]).
  - by apply (hand_swap PRun p [i]).
  - intros w j. rewrite !ind_false; [done|intros [_ ?]; by eapply P9|by intros [_ ?]].
  - intros j. cbn. rewrite lookup_insert_is_Some. split; [intros [->|[_ ?]]; [right; set_solver|by left]|].
    intros [?|[Hj _]]; [destruct (decide (i = j)); auto|]. left. set_solver.
  - intros j e. cbn. intros [[<- ->]|[_ ?]]%lookup_insert_Some; [right; set_solver|by left].
  - cbn. rewrite (ct_pending _ _ _ _ HC). f_equal. symmetry. apply total_upd_same. intros j Hj. rewrite Hin by done. by rewrite P5.
  - cbn. rewrite (ct_finished _ _ _ _ HC). f_equal. symmetry. apply total_upd_same. intros j Hj. rewrite Hin by done. by rewrite P6.
  - intros _ j x ->%list_elem_of_singleton. apply (closure_of _ _ _ _ _ Hi). left. apply Hin. set_solver.
Qed.

(** Moves of transactions that have run. *)
Lemma inv_ran_move g ph c c' H H' l q p : inv g ph c H → (∀ i, i ∈ l → ph i = q) →
  ran q = true → ran p = true → q ≠ PErr → closed p = closed q → (out q = true → out p = true) → allowed (bag_mode cfg) p = true →
  (∀ t, is_at t = false → occ t H' = occ t H) →
  (∀ r j, in_hand r = true → occ (KAt r j) H' + ind (j ∈ l ∧ r = q) = occ (KAt r j) H + ind (j ∈ l ∧ r = p)) →
  BlockCtx.nodes c' = BlockCtx.nodes c → BlockCtx.queues c' = BlockCtx.queues c → BlockCtx.bag c' = BlockCtx.bag c →
  BlockCtx.slots c' = BlockCtx.slots c → BlockCtx.admitted c' = BlockCtx.admitted c → BlockCtx.sealed c' = BlockCtx.sealed c →
  BlockCtx.aborted c' = BlockCtx.aborted c → BlockCtx.double_exit c' = BlockCtx.double_exit c → BlockCtx.panicked c' = BlockCtx.panicked c →
  BlockCtx.results c' = BlockCtx.results c →
  (∀ w j, occ j (BlockCtx.completed c' !!! w) + ind (j ∈ l ∧ q = PComp w) = occ j (BlockCtx.completed c !!! w) + ind (j ∈ l ∧ p = PComp w)) →
  length (BlockCtx.completed c') = length (BlockCtx.completed c) →
  BlockCtx.pending c' = N.of_nat (total (fa_opened g) (λ j, ind (owed (upd ph l p j) = true))) →
  BlockCtx.finished c' = N.of_nat (total (fa_opened g) (λ j, ind (out (upd ph l p j) = true))) →
  inv g (upd ph l p) c' H'.
Proof.
  intros Hi Hq Hr Hr' Hqe Hc Ho Hal HT HH En Eq Eb Es Ead Ese Eab Ede Epa Ere Hcomp Hlen Hpend Hfin.
  assert (off_queue q = true ∧ released q = true ∧ handed q = true ∧ taken q = true ∧ q ≠ PRun ∧ q ≠ PBag) as (O1 & O2 & O3 & O4 & O5 & O6) by (by destruct q).
  assert (off_queue p = true ∧ released p = true ∧ handed p = true ∧ taken p = true ∧ p ≠ PBag) as (O1' & O2' & O3' & O4' & O6') by (by destruct p).
  apply (inv_move _ _ g ph c _ H _ l q p); try done.
  - unfold keeps. rewrite Hc. tauto.
  - intros j. rewrite Eb, !ind_false by tauto. done.
  - intros j. rewrite Ere. split; [by left|]. intros [?|[Hj _]]; [done|]. apply (at_results _ _ _ _ (iv_places _ _ _ _ _ _ Hi)). by rewrite (Hq j Hj).
  - intros j e. rewrite Ere. by left.
  - intros _ i x Hin. apply (closure_of _ _ _ _ _ Hi). right. by rewrite (Hq i Hin).
Qed.

Lemma owed_bound g ph c H : inv g ph c H → total (fa_opened g) (λ j, ind (owed (ph j) = true)) ≤ MAX_BLOCK_TXS.
Proof.
  intros Hi. etrans; [|exact (opened_max _ _ _ _ Hi)]. apply total_bound. intros j _. unfold ind. case_decide; lia.
Qed.

Lemma finished_bound g ph : total (fa_opened g) (λ j, ind (out (ph j) = true)) ≤ fa_opened g.
Proof. apply total_bound. intros j _. unfold ind. case_decide; lia. Qed.

Lemma hand_opened g ph c q l F i : inv g ph c ((KAt q <$> l) ++ F) → in_hand q = true → i ∈ l → i < fa_opened g.
Proof.
  intros Hi Hq Hin. destruct (inv_hand _ _ _ _ _ _ Hi Hq) as [_ Hph]. eapply below_opened; [exact Hi|]. rewrite (Hph i Hin). by intros ->.
Qed.

Lemma ev_add_pending i : bag_mode cfg = false → event cfg dp [KAt PRan i] AddPending (λ _ h, h = [KAt POwed i]).
Proof.
  intros Hb budget c F (g & ph & Hi). exists [KAt POwed i]. split; [|done]. destruct (inv_hand _ _ _ PRan [i] _ Hi eq_refl) as [Hnd Hin].
  pose proof (iv_counted _ _ _ _ _ _ Hi) as HC.
  assert (total (fa_opened g) (λ j, ind (owed (upd ph [i] POwed j) = true)) = total (fa_opened g) (λ j, ind (owed (ph j) = true)) + 1) as Ht.
  { apply (total_upd _ _ [i]); [done|intros j; by apply (hand_opened _ _ _ PRan [i] _ _ Hi)|intros j Hj; by rewrite Hin|done]. }
  pose proof (owed_bound _ _ _ _ Hi) as Hmax. unfold MAX_BLOCK_TXS in Hmax.
  exists g, (upd ph [i] POwed). apply (inv_ran_move g ph c _ (KAt PRan i :: F) _ [i] PRan POwed); easy_move.
  - by rewrite Hb.
  - intros t. by apply (others_swap PRan POwed [i] [i]).
  - by apply (hand_swap PRan POwed [i]).
  - cbn. rewrite (ct_pending _ _ _ _ HC), Ht. unfold u64_fetch_add. rewrite N.mod_small by lia. lia.
  - cbn. rewrite (ct_finished _ _ _ _ HC). f_equal. symmetry. apply total_upd_same. intros j Hj. by rewrite Hin.
Qed.

Lemma lookup_total_insert_occ (ls : list (list nat)) w l w' j : w < length ls →
  occ j (<[w := l]> ls !!! w') = if decide (w' = w) then occ j l else occ j (ls !!! w').
Proof.
  intros Hw. case_decide as He; [subst; by rewrite list_lookup_total_insert_eq|]. by rewrite list_lookup_total_insert_ne by done.
Qed.

Lemma ev_completed_push w i : bag_mode cfg = false → w < pc_workers cfg → event cfg dp [KAt POwed i] (CompletedPush w i) (λ _ h, h = []).
Proof.
  intros Hb Hw budget c F (g & ph & Hi). exists []. split; [|done]. destruct (inv_hand _ _ _ POwed [i] _ Hi eq_refl) as [Hnd Hin].
  pose proof (iv_counted _ _ _ _ _ _ Hi) as HC. destruct (at_lens _ _ _ _ (iv_places _ _ _ _ _ _ Hi)) as [_ Hl].
  exists g, (upd ph [i] (PComp w)). apply (inv_ran_move g ph c _ (KAt POwed i :: F) _ [i] POwed (PComp w)); easy_move.
  - by rewrite Hb.
  - intros t. by apply (others_drop POwed [i]).
  - by apply (hand_drop POwed (PComp w) [i]).
  - intros w' j. cbn. rewrite lookup_total_insert_occ by lia. rewrite (ind_false (_ ∧ POwed = _)) by (by intros [_ ?]). case_decide; [subst|].
    + rewrite occ_app. cbn. rewrite (ind_iff (j ∈ [i] ∧ PComp w = PComp w) (j = i)) by set_solver. lia.
    + rewrite ind_false; [lia|]. intros [_ [=]]. congruence.
  - cbn. by rewrite length_insert.
  - cbn. rewrite (ct_pending _ _ _ _ HC). f_equal. symmetry. apply total_upd_same. intros j Hj. by rewrite Hin.
  - cbn. rewrite (ct_finished _ _ _ _ HC). f_equal. symmetry. apply total_upd_same. intros j Hj. by rewrite Hin.
Qed.

(** The jobs that a buffer of completions holds. *)
Lemma completed_jobs g ph c H w : inv g ph c H → let l := BlockCtx.completed c !!! w in NoDup l ∧ (∀ i, i ∈ l ↔ ph i = PComp w) ∧ length l ≤ MAX_BLOCK_TXS.
Proof.
  intros Hi l. pose proof (at_completed _ _ _ _ (iv_places _ _ _ _ _ _ Hi) w) as Hc. fold l in Hc. split; [|split].
  - apply occ_NoDup. intros i. rewrite Hc. unfold ind. case_decide; lia.
  - intros i. rewrite <-occ_pos, Hc. unfold ind. case_decide; split; intros; done || lia.
  - etrans; [|exact (opened_max _ _ _ _ Hi)]. apply occ_bound. intros i. rewrite Hc. unfold ind. repeat case_decide; try lia.
    destruct (decide (i < fa_opened g)) as [|Hn]; [done|]. destruct Hn. eapply below_opened; [done|]. congruence.
Qed.

Lemma ev_take_drained w : w < pc_workers cfg →
  event cfg dp [] (TakeDrained w) (λ r h, match r with None => h = [] | Some jobs => h = KAt PDrained <$> jobs end).
Proof.
  intros Hw budget c F (g & ph & Hi). cbn. unfold take_drained. destruct (completed_jobs _ _ _ _ w Hi) as (Hnd & Hin & Hmax).
  pose proof (iv_counted _ _ _ _ _ _ Hi) as HC. destruct (at_lens _ _ _ _ (iv_places _ _ _ _ _ _ Hi)) as [_ Hl].
  destruct (BlockCtx.completed c !!! w) as [|x jobs] eqn:Ejobs; [exists []; split; [by exists g, ph|done]|]. set (l := x :: jobs) in *.
  destruct (Nat.ltb_spec MAX_BLOCK_TXS (length l)) as [Hgt|_]; [lia|]. exists (KAt PDrained <$> l). split; [|done].
  assert (bag_mode cfg = false) as Hb.
  { pose proof (at_mode _ _ _ _ (iv_places _ _ _ _ _ _ Hi) x) as Hm. assert (ph x = PComp w) as Hx by (apply Hin; set_solver). rewrite Hx in Hm. by destruct (bag_mode cfg). }
  exists g, (upd ph l PDrained). apply (inv_ran_move g ph c _ F _ l (PComp w) PDrained); easy_move.
  - intros i. apply Hin.
  - by rewrite Hb.
  - intros t Ht. by rewrite occ_app, occ_ats_other.
  - by apply (hand_add (PComp w) PDrained l).
  - intros w' j. cbn. rewrite lookup_total_insert_occ by lia. rewrite (ind_false (_ ∧ PDrained = _)) by (by intros [_ ?]).
    rewrite (at_completed _ _ _ _ (iv_places _ _ _ _ _ _ Hi)). case_decide; [subst|].
    + cbn. rewrite Nat.add_0_r. apply ind_iff. rewrite Hin. tauto.
    + rewrite (ind_false (_ ∧ _)); [lia|]. intros [_ [=]]. congruence.
  - cbn. by rewrite length_insert.
  - cbn. rewrite (ct_pending _ _ _ _ HC). f_equal. symmetry. apply total_upd_same. intros j Hj%Hin. by rewrite Hj.
  - cbn. rewrite (ct_finished _ _ _ _ HC). f_equal. symmetry. apply total_upd_same. intros j Hj%Hin. by rewrite Hj.
Qed.

Lemma ev_sub_pending jobs : bag_mode cfg = false →
  event cfg dp (KAt PShut <$> jobs) (SubPending (length jobs)) (λ _ h, h = KAt PFin <$> jobs ∧ length jobs ≤ MAX_BLOCK_TXS).
Proof.
  intros Hb budget c F (g & ph & Hi). exists (KAt PFin <$> jobs). destruct (inv_hand _ _ _ PShut jobs _ Hi eq_refl) as [Hnd Hin].
  pose proof (iv_counted _ _ _ _ _ _ Hi) as HC. pose proof (owed_bound _ _ _ _ Hi) as Hmax.
  assert (total (fa_opened g) (λ j, ind (owed (upd ph jobs PFin j) = true)) + length jobs = total (fa_opened g) (λ j, ind (owed (ph j) = true))) as Ht.
  { apply total_upd_out; [done|intros j; by apply (hand_opened _ _ _ _ _ _ _ Hi)|intros j Hj; by rewrite Hin|done]. }
  split; [|split; [done|lia]]. unfold MAX_BLOCK_TXS in Hmax.
  exists g, (upd ph jobs PFin). apply (inv_ran_move g ph c _ ((KAt PShut <$> jobs) ++ F) _ jobs PShut PFin); easy_move.
  - intros t. by apply (others_swap PShut PFin jobs jobs).
  - by apply (hand_swap PShut PFin jobs).
  - cbn. rewrite (ct_pending _ _ _ _ HC), <-Ht. unfold u64_fetch_sub.
    replace (N.of_nat (total (fa_opened g) (λ j, ind (owed (upd ph jobs PFin j) = true)) + length jobs) + (2 ^ 64 - N.of_nat (length jobs)))%N
      with (N.of_nat (total (fa_opened g) (λ j, ind (owed (upd ph jobs PFin j) = true))) + 1 * 2 ^ 64)%N by lia.
    rewrite N.Div0.mod_add, N.mod_small by lia. done.
  - cbn. rewrite (ct_finished _ _ _ _ HC). f_equal. symmetry. apply total_upd_same. intros j Hj. by rewrite Hin.
Qed.

Lemma ev_add_finished jobs : event cfg dp (KAt PFin <$> jobs) (AddFinished (length jobs)) (λ _ h, h = []).
Proof.
  intros budget c F (g & ph & Hi). exists []. split; [|done]. destruct (inv_hand _ _ _ PFin jobs _ Hi eq_refl) as [Hnd Hin].
  pose proof (iv_counted _ _ _ _ _ _ Hi) as HC. pose proof (opened_max _ _ _ _ Hi) as Hmax.
  assert (total (fa_opened g) (λ j, ind (out (upd ph jobs POut j) = true)) = total (fa_opened g) (λ j, ind (out (ph j) = true)) + length jobs) as Ht.
  { apply total_upd; [done|intros j; by apply (hand_opened _ _ _ _ _ _ _ Hi)|intros j Hj; by rewrite Hin|done]. }
  pose proof (finished_bound g (upd ph jobs POut)) as Hbd. unfold MAX_BLOCK_TXS in Hmax.
  exists g, (upd ph jobs POut). apply (inv_ran_move g ph c _ ((KAt PFin <$> jobs) ++ F) _ jobs PFin POut); easy_move.
  - intros t. by apply (others_drop PFin jobs).
  - by apply (hand_drop PFin POut jobs).
  - cbn. rewrite (ct_pending _ _ _ _ HC). f_equal. symmetry. apply total_upd_same. intros j Hj. by rewrite Hin.
  - cbn. rewrite (ct_finished _ _ _ _ HC), Ht. unfold u32_fetch_add. rewrite N.mod_small by lia. lia.
Qed.

(** ** Closing a node *)

Lemma node_set c i nd j : node (set_node i nd c) j = if decide (j = i) then nd else node c j.
Proof. unfold node, set_node. cbn. case_decide; [subst; by rewrite lookup_insert_eq|by rewrite lookup_insert_ne]. Qed.

Lemma occ_decs l j : occ (KDec j) (KDec <$> l) = occ j l.
Proof. induction l as [|x l IH]; cbn; [done|]. rewrite IH. f_equal. apply ind_iff. split; [by intros [=]|by intros ->]. Qed.

Lemma occ_decs_other l t : (match t with KDec _ => false | _ => true end) = true → occ t (KDec <$> l) = 0.
Proof. intros Ht. apply occ_zero. intros (i & -> & _)%list_elem_of_fmap. done. Qed.

(** The children of a closed node become decrements under way. *)
Lemma degree_close n c H F i nd j : i < n → nd_children nd = [] → occ (KDec j) F = occ (KDec j) H →
  degree n (set_node i nd c) ((KDec <$> nd_children (node c i)) ++ F) j = degree n c H j.
Proof.
  intros Hi Hnd HF. unfold degree. rewrite occ_app, occ_decs, HF.
  pose proof (total_move n (λ x, occ j (nd_children (node c x))) (λ x, occ j (nd_children (node (set_node i nd c) x))) i Hi) as Hmv. cbn in Hmv.
  rewrite node_set, decide_True, Hnd in Hmv by done. cbn in Hmv.
  specialize (Hmv ltac:(intros x Hx; by rewrite node_set, decide_False)). lia.
Qed.

Lemma inv_close g ph c i q p F : inv g ph c (KAt q i :: F) → in_hand q = true → in_hand p = true →
  ran q = true → q ≠ PErr → closed q = false → closed p = true → owed p = owed q → out p = false → allowed (bag_mode cfg) p = true →
  inv g (upd ph [i] p) (close_node c i).2 (KAt p i :: (KDec <$> (close_node c i).1) ++ F) ∧ (close_node c i).1 = nd_children (node c i).
Proof.
  intros Hi Hhq Hhp Hrq Hqe Hcq Hcp Hop Hout Hal. split; [|done]. destruct (inv_hand _ _ _ q [i] _ Hi Hhq) as [Hnd Hin].
  assert (ran p = true ∧ released p = true ∧ handed p = true ∧ off_queue p = true ∧ taken p = true ∧ is_open p = false ∧ p ≠ PBag) as (O1 & O2 & O3 & O4 & O5 & O6 & O7) by (by destruct p).
  assert (released q = true ∧ q ≠ PRun ∧ out q = false ∧ off_queue q = true ∧ is_open q = true ∧ q ≠ PBag) as (O8 & O9 & O10 & O11 & O12 & O13) by (by destruct q).
  assert (ph i = q) as Hphi by (apply Hin; set_solver). destruct Hi as [HP HC HG HQ].
  assert (i < fa_opened g) as Hlt by (apply (hand_opened g ph c q [i] F); [by split|done|set_solver]).
  assert (keeps q p) as Hk by (unfold keeps; rewrite O1, O2, O3, Hcp; intuition congruence).
  unfold close_node. rewrite (gr_open _ _ _ _ _ HG i), Hphi, O12. cbn.
  assert (∀ t, (match t with KAt _ _ | KDec _ => false | _ => true end) = true →
    occ t (KAt p i :: (KDec <$> nd_children (node c i)) ++ F) = occ t (KAt q i :: F)) as HT.
  { intros t Ht. cbn. rewrite occ_app, occ_decs_other by (by destruct t). f_equal. rewrite !ind_false; [done|by intros ->..]. }
  assert (p ≠ PPop) as Hpp by (intros ->; done).
  split.
  - apply (places_move _ dp ph c _ (KAt q i :: F) _ [i] q p); try done.
    + intros r j Hr. change (KAt p i :: (KDec <$> nd_children (node c i)) ++ F) with ((KAt p <$> [i]) ++ ((KDec <$> nd_children (node c i)) ++ F)).
      rewrite occ_app, occ_app, occ_decs_other by done. rewrite occ_ats by done. change (KAt q i :: F) with ((KAt q <$> [i]) ++ F).
      rewrite occ_app, occ_ats by done. lia.
    + intros w j. cbn. rewrite !ind_false; [done|intros [_ ->]; done..].
    + intros j. cbn. rewrite !ind_false; [done|tauto..].
    + intros w j. cbn. rewrite !ind_false; [done|intros [_ ->]; done..].
    + intros j. split; [by left|]. intros [?|[Hj _]]; [done|]. apply (at_results _ _ _ _ HP). by rewrite Hin.
    + intros j e. by left.
  - apply (counted_move dp g ph c _ (KAt q i :: F) _ [i] q p); try done.
    + intros t Ht. apply HT. by destruct t.
    + cbn. rewrite (ct_pending _ _ _ _ HC). f_equal. symmetry. apply total_upd_same. intros j Hj. by rewrite Hin.
    + cbn. rewrite (ct_finished _ _ _ _ HC). f_equal. symmetry. apply total_upd_same. intros j Hj. rewrite Hin by done. congruence.
  - apply (graphed_move _ g ph c _ (KAt q i :: F) _ [i] q p); try done.
    + intros j. rewrite node_set. case_decide; [subst; by rewrite upd_in by set_solver|]. rewrite upd_out by set_solver. apply HG.
    + intros j. rewrite node_set. by case_decide; subst.
    + intros j. rewrite node_set. by case_decide; subst.
    + intros j. change (KAt p i :: (KDec <$> nd_children (node c i)) ++ F) with ([KAt p i] ++ (KDec <$> nd_children (node c i)) ++ F).
      rewrite (degree_occ _ _ ((KDec <$> nd_children (node c i)) ++ F)) by done. by apply degree_close.
    + intros x j. rewrite node_set. case_decide; [subst; by intros ?%elem_of_nil|]. intros Hj. rewrite upd_out by set_solver. split; [done|].
      by apply (gr_children _ _ _ _ _ HG x j).
    + intros x j Hj. rewrite node_set. case_decide; [subst; right; by rewrite upd_in by set_solver|by left].
    + intros _ j x ->%list_elem_of_singleton. apply (gr_ran _ _ _ _ _ HG). right. by rewrite Hphi.
  - destruct (pops_other cfg dp ph c (KAt q i :: F) (KAt p i :: (KDec <$> nd_children (node c i)) ++ F) [i] p HQ) as [Ho Hps]; [intros w; by apply HT|done|].
    apply (queued_move _ _ ph c _ (KAt q i :: F) _ [i] q p); try done.
    + intros j. rewrite node_set. by case_decide; subst.
    + intros j. rewrite node_set. by case_decide; subst.
    + intros j. rewrite node_set. case_decide; subst; by left.
    + intros j w. by apply HT.
    + intros j w _ ->. done.
    + intros w l1 j l2 x Hw Hx. destruct (qu_order _ _ _ _ _ HQ _ _ _ _ _ Hw Hx) as [Ht|?]; [left|by right].
      destruct (decide (x ∈ [i])); [by rewrite upd_in|by rewrite upd_out].
Qed.

Lemma ev_close i : event cfg dp [KAt PDrained i] (CloseNode i) (λ l h, h = KAt PShut i :: (KDec <$> l)).
Proof.
  intros budget c F (g & ph & Hi). destruct (inv_hand _ _ _ PDrained [i] _ Hi eq_refl) as [_ Hin].
  assert (allowed (bag_mode cfg) PShut = true) as Hal.
  { pose proof (at_mode _ _ _ _ (iv_places _ _ _ _ _ _ Hi) i) as Hm. by rewrite Hin in Hm by set_solver. }
  destruct (inv_close g ph c i PDrained PShut F) as [Hi' Hl]; try done. eexists. split; [|done]. exists g, (upd ph [i] PShut). exact Hi'.
Qed.

Lemma ev_close_inline i : event cfg dp [KAt PRan i] (CloseNode i) (λ l h, h = KAt PFin i :: (KDec <$> l)).
Proof.
  intros budget c F (g & ph & Hi). destruct (inv_close g ph c i PRan PFin F) as [Hi' Hl]; try done.
  eexists. split; [|done]. exists g, (upd ph [i] PFin). exact Hi'.
Qed.

(** ** Edges that retire *)

(** A transaction before its release loses a predecessor or its admission guard. *)
Lemma graph_release g g' ph c H H' j p nd : inv g ph c H → ph j = PWait ∨ ph j = PLink → p = PWait ∨ p = PLink ∨ p = PReady →
  fa_slots g' = fa_slots g → fa_opened g' = fa_opened g → fa_admitted g' = fa_admitted g → fa_sealed g' = fa_sealed g →
  (fa_link g' = None ∨ fa_link g' = fa_link g) → (∀ i, (∃ l, fa_link g' = Some (i, l)) ↔ if decide (i = j) then p = PLink else ph i = PLink) →
  (∀ i, i ≠ j → rem g' i = rem g i) → (∀ x, x ∉ rem g j ↔ x ∉ rem g' j) → length (rem g' j) ≤ length (rem g j) →
  nd = mkNode (nd_open (node c j)) (nd_children (node c j)) (N.of_nat (ind (p = PLink) + degree (fa_opened g) c H' j)) (nd_worker (node c j))
    (nd_queued (node c j)) (nd_fifo_preds (node c j)) →
  (p = PReady → degree (fa_opened g) c H' j = 0) → (p = PWait → 0 < degree (fa_opened g) c H' j) →
  (∀ g'', occ (KFeed g'') H' = ind (g'' = g')) → occ (KAt PReady j) H' = ind (p = PReady) → occ (KDec j) H' ≤ occ (KDec j) H →
  (∀ t, t ≠ KAt PReady j → t ≠ KDec j → (∀ g'', t ≠ KFeed g'') → occ t H' = occ t H) →
  inv g' (upd ph [j] p) (set_node j nd c) H'.
Proof.
  intros [HP HC HG HQ] Hj Hp E1 E2 E3 E4 Elk Hlk Hrem Hremj Hlen Hnd Hd0 Hdw HF Hrd Hdec HT.
  assert (∀ i, nd_children (node (set_node j nd c) i) = nd_children (node c i)) as Hch by (intros i; rewrite node_set; destruct (decide (i = j)) as [Hij|Hij]; [by rewrite Hij, Hnd|done]).
  assert (∀ i, nd_open (node (set_node j nd c) i) = nd_open (node c i)) as Hop by (intros i; rewrite node_set; destruct (decide (i = j)) as [Hij|Hij]; [by rewrite Hij, Hnd|done]).
  assert (∀ i, nd_fifo_preds (node (set_node j nd c) i) = nd_fifo_preds (node c i)) as Hpr by (intros i; rewrite node_set; destruct (decide (i = j)) as [Hij|Hij]; [by rewrite Hij, Hnd|done]).
  assert (∀ i, nd_worker (node (set_node j nd c) i) = nd_worker (node c i)) as Hwk by (intros i; rewrite node_set; destruct (decide (i = j)) as [Hij|Hij]; [by rewrite Hij, Hnd|done]).
  assert (∀ i, nd_queued (node (set_node j nd c) i) = nd_queued (node c i)) as Hqu by (intros i; rewrite node_set; destruct (decide (i = j)) as [Hij|Hij]; [by rewrite Hij, Hnd|done]).
  assert (∀ i, degree (fa_opened g) (set_node j nd c) H' i = degree (fa_opened g) c H' i) as Hdeg by (intros i; by apply degree_same).
  assert (∀ i, i ≠ j → degree (fa_opened g) c H' i = degree (fa_opened g) c H i) as Hdne.
  { intros i Hi. apply degree_occ. apply HT; congruence. }
  assert (degree (fa_opened g) c H' j ≤ degree (fa_opened g) c H j) as Hdle by (unfold degree; lia).
  assert (∀ i, upd ph [j] p i = if decide (i = j) then p else ph i) as Hu by (intros i; apply upd_one).
  assert (∀ f : Phase → bool, f p = false → f PWait = false → f PLink = false → ∀ i, f (upd ph [j] p i) = f (ph i)) as Hf.
  { intros f H1 H2 H3 i. rewrite Hu. destruct (decide (i = j)); [subst i|done]. destruct Hj as [->| ->]; congruence. }
  assert (ran p = false ∧ closed p = false ∧ handed p = false ∧ taken p = false ∧ owed p = false ∧ out p = false ∧ is_open p = true ∧ p ≠ PNew ∧ p ≠ PRun ∧ p ≠ PPop ∧ p ≠ PBag) as
    (P1 & P2 & P3 & P4 & P5 & P6 & P7 & P8 & P9 & P10 & P11) by (destruct Hp as [->|[->| ->]]; done).
  assert (in_hand (ph j) = false ∧ ph j ≠ PBag ∧ (∀ w, ph j ≠ PQueue w) ∧ (∀ w, ph j ≠ PComp w)) as (J1 & J2 & J3 & J4) by (destruct Hj as [->| ->]; done).
  assert ((in_hand p = true → p = PReady) ∧ (∀ w, p ≠ PQueue w) ∧ (∀ w, p ≠ PComp w)) as (J5 & J6 & J7) by (destruct Hp as [->|[->| ->]]; done).
  assert (∀ i, upd ph [j] p i = PNew ↔ ph i = PNew) as HN by (intros i; rewrite Hu; destruct (decide (i = j)); [subst i; destruct Hj as [->| ->]; done|done]).
  split.
  - destruct HP as [A1 A2 A3 A4 A5 A5' A6 A7]. split; try done.
    + intros r i Hr. rewrite Hu. destruct (decide (i = j)) as [->|Hne].
      * destruct (decide (r = PReady)) as [->|Hne]; [done|]. rewrite HT by congruence. rewrite A1 by done.
        rewrite !ind_false; [done|intros <-; tauto|intros <-; congruence].
      * rewrite HT by congruence. by apply A1.
    + intros w i. rewrite Hu. cbn. rewrite A2. destruct (decide (i = j)); [subst i|done]. by rewrite !ind_false.
    + intros i. rewrite Hu. cbn. rewrite A3. destruct (decide (i = j)); [subst i|done]. by rewrite !ind_false.
    + intros w i. rewrite Hu. cbn. rewrite A4. destruct (decide (i = j)); [subst i|done]. by rewrite !ind_false.
    + intros i. cbn. rewrite A5, (Hf ran); done.
    + intros i e He%A5'. rewrite upd_out; [done|]. intros ->%list_elem_of_singleton. destruct Hj; congruence.
    + intros i. rewrite Hu. destruct (decide (i = j)); [destruct Hp as [->|[->| ->]]; done|apply A6].
  - destruct HC as [C1 C2 C3 C4 C5 C6 C7 C8 C9 C10 C11 C12 C13 C14]. split; cbn; rewrite ?E1, ?E2, ?E3, ?E4; try done.
    + intros Hs. destruct (C6 Hs) as [? Hl]. split; [done|]. destruct Elk as [->| ->]; done.
    + intros i. rewrite HN. apply C7.
    + intros i. rewrite Hu, Hlk. by destruct (decide (i = j)).
    + rewrite C9. f_equal. apply total_ext. intros i _. by rewrite (Hf owed).
    + rewrite C10. f_equal. apply total_ext. intros i _. by rewrite (Hf out).
    + rewrite HT by done. done.
    + intros x. rewrite HT by done. apply C12.
    + rewrite HT by done. done.
  - destruct HG as [G1 G2 G3 G4 G5 G6 G7 G8]. split; rewrite ?E2.
    + intros i. rewrite Hop, G1, Hu. destruct (decide (i = j)); [subst i|done]. destruct Hj as [->| ->]; done.
    + intros x i. rewrite Hch, HN. intros Hi. destruct (G2 x i Hi) as (? & Hox & ?). split; [done|]. split; [|done]. rewrite Hu. by destruct (decide (x = j)).
    + intros i. rewrite HN, Hdeg, node_set, Hu. intros Hi. destruct (decide (i = j)) as [Hij|Hij]; [by rewrite Hij, Hnd|]. rewrite G3 by done. by rewrite Hdne.
    + intros i. rewrite Hdeg. destruct (decide (i = j)) as [->|Hne]; [specialize (G4 j); lia|]. rewrite Hdne, Hrem by done. apply G4.
    + intros i. rewrite Hdeg, HN, Hu. destruct (decide (i = j)); [subst i|rewrite Hdne by done; apply G5].
      intros [Hr|Hn]; [apply Hd0; destruct Hp as [->|[->| ->]]; done|destruct Hj as [Hj|Hj]; congruence].
    + intros i. rewrite Hdeg, Hu. destruct (decide (i = j)); [subst i; done|rewrite Hdne by done; apply G6].
    + intros i x. rewrite HN, Hch, Hpr, (Hf closed) by done. intros Hi Hx Hne Hr. apply G7; [done..|]. destruct (decide (i = j)) as [->|Hne']; [by apply Hremj|]. by rewrite <-Hrem.
    + intros i x. rewrite !(Hf ran) by done. rewrite Hu. destruct (decide (i = j)); [subst i|by apply G8]. intros [?|Hr]; [done|]. destruct Hj as [Hj|Hj]; by rewrite Hj in Hr.
  - destruct HQ as [Q1 Q2 Q3 Q4 Q5 Q6 Q7 Q8 Q9 Q10 Q11]. split.
    + intros i. rewrite HN, Hwk. apply Q1.
    + intros i w. rewrite Hu, Hwk. destruct (decide (i = j)); [subst i; intros ->; destruct Hp as [?|[?|?]]; done|apply Q2].
    + intros i. rewrite HN, Hqu, (Hf handed) by done. apply Q3.
    + intros i. rewrite Hpr. apply Q4.
    + intros i x. rewrite HN, Hpr, !Hwk, (Hf handed) by done. apply Q5.
    + intros w l1 i l2 x. rewrite Hpr, (Hf taken) by done. apply Q6.
    + intros i x. rewrite Hpr, (Hf ran) by done. rewrite !Hu. destruct (decide (i = j)); [done|]. intros Hi Hx. destruct (Q7 i x Hi Hx) as [Hx'|]; [|by right].
      left. destruct (decide (x = j)); [subst; destruct Hj; congruence|done].
    + intros w. by rewrite HT.
    + intros i. rewrite Hu, Hwk. destruct (decide (i = j)); [done|]. intros Hi. rewrite HT by done. by apply Q9.
    + intros i k. rewrite !Hu, !Hwk. destruct (decide (i = j)), (decide (k = j)); done || apply Q10.
    + intros i w. rewrite HN, Hwk, HT by done. apply Q11.
Qed.

Lemma degree_small g ph c H i : inv g ph c H → degree (fa_opened g) c H i ≤ S i.
Proof. intros Hi. pose proof (gr_degree _ _ _ _ _ (iv_graphed _ _ _ _ _ _ Hi) i). pose proof (dep_len i). lia. Qed.

Lemma u32_sub_1 x : (1 ≤ x < 2 ^ 32)%N → u32_fetch_sub x 1 = (x - 1)%N.
Proof.
  intros Hx. unfold u32_fetch_sub. replace (x + (2 ^ 32 - 1))%N with (x - 1 + 1 * 2 ^ 32)%N by lia. rewrite N.Div0.mod_add. apply N.mod_small. lia.
Qed.

Lemma node_small g ph c H i : inv g ph c H → ph i ≠ PNew → (nd_indegree (node c i) < 2 ^ 32)%N.
Proof.
  intros Hi Hn. rewrite (gr_indegree _ _ _ _ _ (iv_graphed _ _ _ _ _ _ Hi)) by done. pose proof (degree_small _ _ _ _ i Hi).
  pose proof (below_opened _ _ _ _ i Hi Hn). pose proof (opened_max _ _ _ _ Hi) as Hm. unfold MAX_BLOCK_TXS in Hm. unfold ind. case_decide; lia.
Qed.

(** A decrement under way names a transaction that is not released. *)
Lemma dec_phase g ph c H j : inv g ph c H → 0 < occ (KDec j) H → ph j = PWait ∨ ph j = PLink.
Proof.
  intros Hi Hd. pose proof (gr_released _ _ _ _ _ (iv_graphed _ _ _ _ _ _ Hi) j) as Hr. assert (degree (fa_opened g) c H j ≠ 0) as Hne by (unfold degree; lia).
  destruct (ph j); auto; destruct Hne; apply Hr; auto.
Qed.

(** One edge to [j] retires. *)
Lemma ev_dec j : event cfg dp [KDec j] (SubIndegree j) (λ prev h, h = if (prev =? 1)%N then [KAt PReady j] else []).
Proof.
  intros budget c F (g & ph & Hi). cbn. eexists. split; [|done]. change ([KDec j] ++ F) with (KDec j :: F) in Hi. set (H := KDec j :: F) in *.
  assert (0 < occ (KDec j) H) as Hd by (cbn; rewrite ind_true by done; lia). pose proof (dec_phase _ _ _ _ _ Hi Hd) as Hj.
  assert (ph j ≠ PNew) as Hnew by (destruct Hj as [->| ->]; done). pose proof (node_small _ _ _ _ _ Hi Hnew) as Hsm.
  pose proof (gr_indegree _ _ _ _ _ (iv_graphed _ _ _ _ _ _ Hi) j Hnew) as Hind.
  assert (degree (fa_opened g) c H j = S (degree (fa_opened g) c F j)) as Hdeg by (unfold degree; cbn; rewrite ind_true by done; lia).
  set (p := if (nd_indegree (node c j) =? 1)%N then PReady else ph j).
  assert (nd_indegree (node c j) = 1%N ↔ ph j = PWait ∧ degree (fa_opened g) c F j = 0) as Hone.
  { rewrite Hind, Hdeg. destruct Hj as [Hj|Hj]; [rewrite ind_false by (by rewrite Hj)|rewrite ind_true by done].
    - split; [intros ?; split; [done|lia]|intros [_ ?]; lia].
    - split; [lia|intros [? _]; congruence]. }
  set (H' := _ ++ F). assert (degree (fa_opened g) c H' j = degree (fa_opened g) c F j) as Hd'.
  { apply degree_occ. unfold H'. by destruct (_ =? _)%N. }
  exists g, (upd ph [j] p). apply (graph_release g g ph c H H' j p); try done.
  - unfold p. destruct (N.eqb_spec (nd_indegree (node c j)) 1); tauto.
  - by right.
  - intros i. rewrite <-(ct_link _ _ _ _ (iv_counted _ _ _ _ _ _ Hi)). destruct (decide (i = j)) as [->|]; [|done]. unfold p.
    destruct (N.eqb_spec (nd_indegree (node c j)) 1) as [He|]; [|done]. apply Hone in He as [-> _]. done.
  - f_equal. rewrite u32_sub_1, Hd' by lia. unfold p. destruct (N.eqb_spec (nd_indegree (node c j)) 1) as [He|He]; [|lia].
    rewrite ind_false by done. pose proof He as He'. apply Hone in He as [_ He]. lia.
  - unfold p. rewrite Hd'. destruct (N.eqb_spec (nd_indegree (node c j)) 1) as [He|He]; [intros _; by apply Hone in He as [_ ->]|]. intros Hr. rewrite Hr in Hj. by destruct Hj.
  - unfold p. rewrite Hd'. destruct (N.eqb_spec (nd_indegree (node c j)) 1) as [He|He]; [done|]. intros Hw. destruct (degree (fa_opened g) c F j); [tauto|lia].
  - intros g''. pose proof (ct_feed _ _ _ _ (iv_counted _ _ _ _ _ _ Hi) g'') as Hf. unfold H'. by destruct (_ =? _)%N.
  - assert (occ (KAt PReady j) F = 0) as HF0.
    { pose proof (at_hand _ _ _ _ (iv_places _ _ _ _ _ _ Hi) PReady j eq_refl) as Ha. cbn in Ha. rewrite (ind_false (ph j = _)) in Ha by (destruct Hj as [->| ->]; done). lia. }
    unfold p, H'. destruct (N.eqb_spec (nd_indegree (node c j)) 1) as [He|He]; cbn; rewrite HF0; [by rewrite !(ind_true (_ = _))|].
    rewrite ind_false; [done|]. destruct Hj as [->| ->]; done.
  - unfold H', H. destruct (_ =? _)%N; cbn [occ app]; rewrite ?(ind_false (KDec j = KAt _ _)) by done; lia.
  - intros t H1 H2 _. unfold H', H. cbn. rewrite (ind_false (t = KDec j)) by done. destruct (_ =? _)%N; cbn; [rewrite (ind_false (t = KAt PReady j)) by done|]; done.
Qed.

(** The feed drops the guard of the transaction that it linked. *)
Definition unlink (g : FeedAt) : FeedAt := mkFeedAt (fa_slots g) (fa_opened g) (fa_admitted g) None (fa_sealed g).

Lemma ev_guard g0 j : fa_link g0 = Some (j, []) →
  event cfg dp [KFeed g0] (SubIndegree j) (λ prev h, h = if (prev =? 1)%N then [KFeed (unlink g0); KAt PReady j] else [KFeed (unlink g0)]).
Proof.
  intros Hl0 budget c F (g & ph & Hi). cbn. eexists. split; [|done]. change ([KFeed g0] ++ F) with (KFeed g0 :: F) in Hi. set (H := KFeed g0 :: F) in *.
  assert (g = g0) as ->.
  { pose proof (ct_feed _ _ _ _ (iv_counted _ _ _ _ _ _ Hi) g0) as Hf. cbn in Hf. rewrite (ind_true (KFeed g0 = KFeed g0)) in Hf by done.
    destruct (decide (g0 = g)); [done|]. rewrite ind_false in Hf by done. lia. }
  assert (ph j = PLink) as Hj by (apply (ct_link _ _ _ _ (iv_counted _ _ _ _ _ _ Hi)); eauto).
  assert (ph j ≠ PNew) as Hnew by (by rewrite Hj). pose proof (node_small _ _ _ _ _ Hi Hnew) as Hsm.
  pose proof (gr_indegree _ _ _ _ _ (iv_graphed _ _ _ _ _ _ Hi) j Hnew) as Hind. rewrite ind_true in Hind by done.
  set (d := degree (fa_opened g0) c H j) in *. set (p := if (nd_indegree (node c j) =? 1)%N then PReady else PWait).
  set (H' := _ ++ F). assert (∀ t, t ≠ KAt PReady j → (∀ g'', t ≠ KFeed g'') → occ t H' = occ t H) as HT.
  { intros t H1 H2. unfold H', H. destruct (_ =? _)%N; cbn; rewrite ?(ind_false (t = KFeed _)), ?(ind_false (t = KAt PReady j)) by done; done. }
  assert (degree (fa_opened g0) c H' j = d) as Hd' by (apply degree_occ, HT; done).
  assert (rem g0 j = []) as Hrem by (unfold rem; rewrite Hl0; by rewrite decide_True).
  assert (∀ i, rem (unlink g0) i = []) as Hrem' by done.
  exists (unlink g0), (upd ph [j] p). apply (graph_release g0 (unlink g0) ph c H H' j p); try done.
  - by right.
  - unfold p. destruct (_ =? _)%N; auto.
  - by left.
  - intros i. split; [by intros [l ?]|]. destruct (decide (i = j)) as [->|Hij].
    + unfold p. by destruct (_ =? _)%N.
    + intros [l Hl]%(ct_link _ _ _ _ (iv_counted _ _ _ _ _ _ Hi)). congruence.
  - intros i Hij. rewrite Hrem'. unfold rem. rewrite Hl0. by rewrite decide_False.
  - intros x. by rewrite Hrem, Hrem'.
  - rewrite Hrem'. cbn. lia.
  - f_equal. rewrite u32_sub_1, Hind, Hd' by lia. unfold p. destruct (_ =? _)%N; rewrite ind_false by done; lia.
  - unfold p. rewrite Hd'. destruct (N.eqb_spec (nd_indegree (node c j)) 1) as [He|He]; [lia|done].
  - unfold p. rewrite Hd'. destruct (N.eqb_spec (nd_indegree (node c j)) 1) as [He|He]; [done|lia].
  - intros g''. pose proof (ct_feed _ _ _ _ (iv_counted _ _ _ _ _ _ Hi) g'') as Hf. cbn in Hf.
    assert (occ (KFeed g'') H' = ind (KFeed g'' = KFeed (unlink g0)) + occ (KFeed g'') F) as -> by (unfold H'; by destruct (_ =? _)%N).
    rewrite (ind_iff (KFeed g'' = KFeed g0) (g'' = g0)) in Hf by (split; [by intros [=]|by intros ->]).
    rewrite (ind_iff (KFeed g'' = KFeed (unlink g0)) (g'' = unlink g0)) by (split; [by intros [=]|by intros ->]). lia.
  - assert (occ (KAt PReady j) F = 0) as HF0.
    { pose proof (at_hand _ _ _ _ (iv_places _ _ _ _ _ _ Hi) PReady j eq_refl) as Ha. cbn in Ha. rewrite (ind_false (ph j = _)) in Ha by (by rewrite Hj). lia. }
    unfold p, H'. destruct (_ =? _)%N; cbn [occ app]; rewrite HF0, (ind_false (_ = KFeed _)) by done; [by rewrite !ind_true by done|by rewrite ind_false by done].
  - rewrite HT by done. done.
  - intros t ? ? ?. by apply HT.
Qed.
End events.
