(* ===== verification/StmGraphQueue.v ===== *)
(** * The queues and the feed of the scheduler

    The events that hand a transaction out and take it, with the order of the
    queues, and the events of the feed. *)
From S2P Require Import Prelude Bytes Types Fees WriteSet Effects ExecScope StmMv StmView StmWorker StmTouch StmPredict StmGraph StmGraphInv StmGraphStep.
Import BlockCtx (node, set_node).

Section queue_events.
Context (cfg : PoolConfig) (dp : nat → list nat) `{!Deps dp}.

Abbreviation Inv := (Inv cfg dp).
Abbreviation inv := (inv cfg dp).
Abbreviation wp := (wp cfg dp).
Abbreviation event := (event cfg dp).

(** ** Released transactions *)

Lemma released_rem g ph c H i : inv g ph c H → ph i ≠ PLink → rem g i = [].
Proof.
  intros Hi Hn. unfold rem. destruct (fa_link g) as [[j l]|] eqn:El; [|done]. case_decide; [subst|done].
  destruct Hn. apply (ct_link _ _ _ _ (iv_counted _ _ _ _ _ _ Hi)). eauto.
Qed.

(** A released transaction whose covered predecessors have run has every direct
    predecessor run. *)
Lemma released_closure g ph c H i : inv g ph c H → released (ph i) = true → (∀ x, x ∈ nd_fifo_preds (node c i) → ran (ph x) = true) →
  ∀ x, x ∈ dp i → x ≠ i → ran (ph x) = true.
Proof.
  intros Hi Hr Hf x Hx Hne. pose proof (iv_graphed _ _ _ _ _ _ Hi) as HG.
  assert (ph i ≠ PNew ∧ ph i ≠ PLink) as [Hn Hl] by (split; intros Heq; by rewrite Heq in Hr).
  destruct (gr_dag _ _ _ _ _ HG i x Hn Hx Hne) as [Hc|[Hch|Hp]].
  - rewrite (released_rem _ _ _ _ _ Hi Hl). set_solver.
  - by destruct (ph x).
  - exfalso. pose proof (gr_released _ _ _ _ _ HG i (or_introl Hr)) as Hd. unfold degree in Hd.
    assert (total (fa_opened g) (λ p, occ i (nd_children (node c p))) = 0) as Ht by lia. rewrite total_zero in Ht.
    pose proof (below_opened _ _ _ _ _ _ i Hi Hn). pose proof (dep_le i x Hx). specialize (Ht x ltac:(lia)). apply occ_zero in Ht. done.
  - by apply Hf.
Qed.

(** ** Soft tokens: knowledge that may be dropped *)

Definition soft (t : Tok) : bool := match t with KWork _ _ | KSealed | KSawFin _ | KExit => true | _ => false end.

(** What the soft tokens of a thread say of the context. *)
Definition sound (ph : nat → Phase) (c : BlockCtx.t) (t : Tok) : Prop :=
  match t with
  | KWork i w => ph i ≠ PNew ∧ nd_worker (node c i) = w
  | KSealed => BlockCtx.sealed c = true
  | KSawFin x => (x ≤ BlockCtx.finished c)%N
  | KExit => BlockCtx.aborted c = true ∨ drained_now c
  | _ => True
  end.

Lemma inv_sound g ph c H t : inv g ph c H → t ∈ H → sound ph c t.
Proof.
  intros [_ HC _ HQ] Ht%occ_pos. destruct t; cbn; try done.
  - by apply (qu_work _ _ _ _ _ HQ).
  - by apply (ct_saw_sealed _ _ _ _ HC).
  - by apply (ct_saw_fin _ _ _ _ HC).
  - by apply (ct_exit _ _ _ _ HC).
Qed.

(** A thread learns and forgets freely. *)
Lemma inv_soft g ph c H H' : inv g ph c H → (∀ t, soft t = false → occ t H' = occ t H) → (∀ t, t ∈ H' → soft t = true → sound ph c t) → inv g ph c H'.
Proof.
  intros [[] [] [] []] HT HS.
  assert (∀ i, degree (fa_opened g) c H' i = degree (fa_opened g) c H i) as HD by (intros i; by apply degree_occ, HT).
  split; split; try done.
  - intros p i Hp. rewrite HT by done. auto.
  - intros g'. rewrite HT by done. auto.
  - intros Ht%occ_pos. by apply (HS KSealed).
  - intros x Ht%occ_pos. by apply (HS (KSawFin x)).
  - intros Ht%occ_pos. by apply (HS KExit).
  - intros i. rewrite HD. auto.
  - intros i. rewrite HD. auto.
  - intros i. rewrite HD. auto.
  - intros i. rewrite HD. auto.
  - intros w. rewrite HT by done. auto.
  - intros i Hi. rewrite HT by done. auto.
  - intros i w Ht%occ_pos. by apply (HS (KWork i w)).
Qed.

Lemma inv_drop g ph c t F : soft t = true → inv g ph c (t :: F) → inv g ph c F.
Proof.
  intros Ht Hi. eapply inv_soft; [exact Hi|..].
  - intros u Hu. cbn. rewrite ind_false; [done|]. intros ->. congruence.
  - intros u Hu _. eapply inv_sound; [exact Hi|set_solver].
Qed.

Lemma inv_learn g ph c t F : soft t = true → sound ph c t → inv g ph c F → inv g ph c (t :: F).
Proof.
  intros Ht Hs Hi. eapply inv_soft; [exact Hi|..].
  - intros u Hu. cbn. rewrite ind_false; [done|]. intros ->. congruence.
  - intros u [->|Hu]%elem_of_cons _; [done|]. by eapply inv_sound.
Qed.

(** ** Moves of the queues *)

(** Only the queues and the flags of the nodes differ. *)
Record same_rest (c c' : BlockCtx.t) : Prop := {
  sr_graph : same_graph c c';
  sr_worker : ∀ j, nd_worker (node c' j) = nd_worker (node c j);
  sr_slots : BlockCtx.slots c' = BlockCtx.slots c;
  sr_results : BlockCtx.results c' = BlockCtx.results c;
  sr_bag : BlockCtx.bag c' = BlockCtx.bag c;
  sr_completed : BlockCtx.completed c' = BlockCtx.completed c;
  sr_counts : BlockCtx.admitted c' = BlockCtx.admitted c ∧ BlockCtx.finished c' = BlockCtx.finished c ∧ BlockCtx.pending c' = BlockCtx.pending c;
  sr_flags : BlockCtx.sealed c' = BlockCtx.sealed c ∧ BlockCtx.aborted c' = BlockCtx.aborted c;
  sr_sane : BlockCtx.double_exit c' = BlockCtx.double_exit c ∧ BlockCtx.panicked c' = BlockCtx.panicked c;
  sr_lens : length (BlockCtx.queues c') = length (BlockCtx.queues c);
}.

(** The phases of a queue's traffic. *)
Definition waiting (p : Phase) : bool := match p with PReady | PQueue _ | PPop => true | _ => false end.

(** One transaction on its way through a queue. *)
Lemma inv_queue_move g ph c c' H H' i q p : inv g ph c H → ph i = q → waiting q = true → waiting p = true ∨ p = PRun → (handed q = true → handed p = true) →
  bag_mode cfg = false → same_rest c c' →
  (∀ j, nd_queued (node c' j) = true → nd_queued (node c j) = true ∨ (j = i ∧ handed p = true)) →
  (∀ t, is_at t = false → (∀ w, t ≠ KOwner w) → occ t H' = occ t H) →
  (∀ r j, in_hand r = true → occ (KAt r j) H' + ind (j ∈ [i] ∧ r = q) = occ (KAt r j) H + ind (j ∈ [i] ∧ r = p)) →
  (∀ w j, occ j (BlockCtx.queues c' !!! w) + ind (j ∈ [i] ∧ q = PQueue w) = occ j (BlockCtx.queues c !!! w) + ind (j ∈ [i] ∧ p = PQueue w)) →
  (∀ w, p = PQueue w → nd_worker (node c i) = w) →
  (∀ w l1 j l2 x, BlockCtx.queues c' !!! w = l1 ++ j :: l2 → x ∈ nd_fifo_preds (node c j) → taken (upd ph [i] p x) = true ∨ x ∈ l1) →
  (p = PPop → ∀ x, x ∈ nd_fifo_preds (node c i) → ph x = PRun ∨ ran (ph x) = true) →
  (∀ w, occ (KOwner w) H' ≤ 1) →
  (∀ j, upd ph [i] p j = PPop → occ (KOwner (nd_worker (node c j))) H' = 0 ∧
     ∀ k, upd ph [i] p k = PPop → nd_worker (node c k) = nd_worker (node c j) → k = j) →
  (p = PRun → ∀ x, x ∈ dp i → x ≠ i → ran (ph x) = true) → inv g (upd ph [i] p) c' H'.
Proof.
  intros [HP HC HG HQ] Hphi Hq Hp Hh Hb [S1 S2 S3 S4 S5 S6 (S7 & S8 & S9) [S10 S11] [S12 S13] S14] Hfl HT HH HO Hat Hord Hpop Hown Hpops Hcl.
  assert (released q = true ∧ closed q = false ∧ ran q = false ∧ owed q = false ∧ out q = false ∧ q ≠ PBag ∧ q ≠ PRun ∧ ∀ w, q ≠ PComp w) as (A1 & A2 & A3 & A4 & A5 & A6 & A6' & A7) by (by destruct q).
  assert (released p = true ∧ closed p = false ∧ ran p = false ∧ owed p = false ∧ out p = false ∧ p ≠ PBag ∧ ∀ w, p ≠ PComp w) as (B1 & B2 & B3 & B4 & B5 & B6 & B7) by (destruct Hp as [Hp| ->]; [by destruct p|done]).
  assert (∀ j, j ∈ [i] → ph j = q) as Hin by (intros j ->%list_elem_of_singleton; done).
  assert (keeps q p) as Hk by (unfold keeps; rewrite A1, A2, A3, A5; intuition congruence).
  assert (∀ f : Phase → bool, f q = f p → total (fa_opened g) (λ j, ind (f (ph j) = true)) = total (fa_opened g) (λ j, ind (f (upd ph [i] p j) = true))) as Htot.
  { intros f Hf. symmetry. apply total_upd_same. intros j Hj. by rewrite Hin. }
  split.
  - apply (places_move cfg dp ph c c' H H' [i] q p); try done.
    + destruct Hp as [Hp| ->]; [|done]. destruct p; by rewrite ?Hb.
    + intros j. rewrite S5, !ind_false by tauto. done.
    + intros w j. rewrite S6, !ind_false; [done|intros [_ ?]; by eapply B7|intros [_ ?]; by eapply A7].
    + intros j. rewrite S4, B3. intuition congruence.
    + intros ->. done.
    + intros j e. rewrite S4. by left.
    + by rewrite S6.
  - apply (counted_move dp g ph c c' H H' [i] q p); try done.
    + by rewrite S11.
    + intros t Ht. apply HT; [by destruct t|by intros w ->].
    + rewrite S9, <-Htot by congruence. apply HC.
    + rewrite S8, <-Htot by congruence. apply HC.
  - apply (graphed_still dp g ph c c' H H' [i] q p); try done.
    + intros j. by apply HT.
    + by rewrite B2.
    + rewrite B3. intros [->|?]; [|done]. intros j x ->%list_elem_of_singleton. auto.
  - apply (queued_move cfg dp ph c c' H H' [i] q p); try done.
    + intros j. apply S1.
    + intros j Hj. rewrite list_elem_of_singleton. auto.
    + intros j w. by apply HT.
    + intros j w ->%list_elem_of_singleton. auto.
    + intros j x Hp' ->%list_elem_of_singleton. auto.
Qed.

(** The transactions of a queue. *)
Lemma queue_phase g ph c H w i : inv g ph c H → i ∈ BlockCtx.queues c !!! w ↔ ph i = PQueue w.
Proof.
  intros Hi. rewrite <-occ_pos, (at_queue _ _ _ _ (iv_places _ _ _ _ _ _ Hi)). unfold ind. case_decide; split; intros; done || lia.
Qed.

Lemma queue_mode g ph c H w i : inv g ph c H → ph i = PQueue w → bag_mode cfg = false ∧ nd_worker (node c i) = w ∧ w < pc_workers cfg.
Proof.
  intros Hi Hw. pose proof (at_mode _ _ _ _ (iv_places _ _ _ _ _ _ Hi) i) as Hm. rewrite Hw in Hm. cbn in Hm. apply negb_true_iff in Hm.
  pose proof (qu_at _ _ _ _ _ (iv_queued _ _ _ _ _ _ Hi) i w Hw) as Hat. split_and!; [done..|]. rewrite <-Hat.
  apply (qu_worker _ _ _ _ _ (iv_queued _ _ _ _ _ _ Hi)); [done|]. by rewrite Hw.
Qed.

(** A covered predecessor is off the queue of its successor, or on it. *)
Lemma covered_phase g ph c H i x : inv g ph c H → ph i ≠ PNew → x ∈ nd_fifo_preds (node c i) →
  taken (ph x) = true ∨ x ∈ BlockCtx.queues c !!! nd_worker (node c i).
Proof.
  intros Hi Hn Hx. destruct (qu_preds _ _ _ _ _ (iv_queued _ _ _ _ _ _ Hi) i x Hn Hx) as (_ & _ & Hw & Hh).
  destruct (ph x) eqn:Ex; try done; try (by left).
  - right. destruct (queue_mode _ _ _ _ _ _ Hi Ex) as (_ & Hw' & _). rewrite <-Hw, Hw'. by rewrite (queue_phase _ _ _ _ _ _ Hi).
  - exfalso. pose proof (at_mode _ _ _ _ (iv_places _ _ _ _ _ _ Hi) x) as Hm. rewrite Ex in Hm. cbn in Hm.
    rewrite (qu_bag _ _ _ _ _ (iv_queued _ _ _ _ _ _ Hi) _ Hm) in Hx. set_solver.
Qed.

Lemma same_rest_queues c qs : length qs = length (BlockCtx.queues c) → same_rest c (BlockCtx.with_queues qs c).
Proof. by split. Qed.

Lemma taken_upd ph i p x : taken (ph i) = false ∨ taken p = true → taken (ph x) = true → taken (upd ph [i] p x) = true.
Proof. rewrite upd_one. case_decide; [subst; intuition congruence|done]. Qed.

Lemma ev_push_back w i : bag_mode cfg = false → event [KAt PReady i; KWork i w] (PushBack w i) (λ _ h, h = []).
Proof.
  intros Hb budget c F (g & ph & Hi). exists []. split; [|done].
  destruct (inv_sound _ _ _ _ (KWork i w) Hi) as [Hn Hw]; [set_solver|].
  assert (inv g ph c (KAt PReady i :: F)) as Hi' by (eapply (inv_drop _ _ _ (KWork i w)); [done|]; eapply inv_occ; [|exact Hi]; intros t; cbn; lia).
  clear Hi. rename Hi' into Hi. destruct (inv_hand cfg dp _ _ _ PReady [i] _ Hi eq_refl) as [Hnd Hin].
  assert (ph i = PReady) as Hphi by (apply Hin; set_solver).
  pose proof (qu_worker _ _ _ _ _ (iv_queued _ _ _ _ _ _ Hi) i Hb Hn) as Hlt. rewrite Hw in Hlt. destruct (at_lens _ _ _ _ (iv_places _ _ _ _ _ _ Hi)) as [Hlen _].
  exists g, (upd ph [i] (PQueue w)). cbn. set (nd := mkNode _ _ _ _ _ _). set (c' := BlockCtx.with_queues _ _).
  assert (∀ j, ∃ b, node c' j = mkNode (nd_open (node c j)) (nd_children (node c j)) (nd_indegree (node c j)) (nd_worker (node c j)) b (nd_fifo_preds (node c j))
    ∧ (b = true → nd_queued (node c j) = true ∨ j = i)) as Hnode.
  { intros j. change (node c' j) with (node (set_node i nd c) j). rewrite node_set. destruct (decide (j = i)) as [->|]; [by exists true; auto|]. exists (nd_queued (node c j)). split; [by destruct (node c j)|auto]. }
  destruct (pops_other cfg dp ph c (KAt PReady i :: F) F [i] (PQueue w)) as [Ho Hps]; [apply Hi|intros w'; cbn; by rewrite ind_false|done|].
  apply (inv_queue_move g ph c _ (KAt PReady i :: F) F i PReady (PQueue w)); try done; auto.
  - split; try done; [|intros j; by destruct (Hnode j) as (b & -> & _)|by cbn; rewrite length_insert].
    split; intros j; by destruct (Hnode j) as (b & -> & _).
  - intros j. destruct (Hnode j) as (b & Hj & Hbb). rewrite Hj. intros [?| ->]%Hbb; auto.
  - intros t Ht _. cbn. rewrite ind_false; [done|]. by intros ->.
  - by apply (hand_drop dp PReady (PQueue w) [i]).
  - intros w' j. cbn. rewrite lookup_total_insert_occ by lia. rewrite (ind_false (_ ∧ PReady = _)) by (by intros [_ ?]).
    destruct (decide (w' = w)) as [->|Hne]; [|rewrite ind_false by (intros [_ [=]]; congruence); lia].
    rewrite occ_app. cbn. rewrite (ind_iff (j ∈ [i] ∧ PQueue w = PQueue w) (j = i)) by set_solver. lia.
  - by intros w' [= <-].
  - intros w' l1 j l2 x. cbn. intros Hq Hx. destruct (decide (w' = w)) as [->|Hne].
    + rewrite list_lookup_total_insert_eq in Hq by lia. destruct l2 as [|y l2 _] using rev_ind.
      * apply app_inj_tail in Hq as [<- <-]. destruct (covered_phase _ _ _ _ i x Hi Hn Hx) as [Ht|Ht]; [left|right; by rewrite Hw in Ht].
        apply taken_upd; [left; by rewrite Hphi|done].
      * rewrite app_comm_cons, app_assoc in Hq. apply app_inj_tail in Hq as [Hq <-]. 
        destruct (qu_order _ _ _ _ _ (iv_queued _ _ _ _ _ _ Hi) _ _ _ _ _ Hq Hx) as [Ht|?]; [left|by right].
        apply taken_upd; [left; by rewrite Hphi|done].
    + rewrite list_lookup_total_insert_ne in Hq by done. destruct (qu_order _ _ _ _ _ (iv_queued _ _ _ _ _ _ Hi) _ _ _ _ _ Hq Hx) as [Ht|?]; [left|by right].
      apply taken_upd; [left; by rewrite Hphi|done].
Qed.

Lemma ind_hand r j q i : ind (j ∈ [i] ∧ r = q) = ind (KAt r j = KAt q i).
Proof. apply ind_iff. rewrite list_elem_of_singleton. split; [by intros [-> ->]|by intros [=]]. Qed.

(** A queue without its front, and without its back. *)
Lemma queue_balance (qs : list (list nat)) w l l' i (q p : Phase) : w < length qs → qs !!! w = l → (∀ j, occ j l' + ind (j = i ∧ q = PQueue w) = occ j l + ind (j = i ∧ p = PQueue w)) →
  (∀ w', w' ≠ w → q ≠ PQueue w' ∧ p ≠ PQueue w') →
  ∀ w' j, occ j (<[w := l']> qs !!! w') + ind (j ∈ [i] ∧ q = PQueue w') = occ j (qs !!! w') + ind (j ∈ [i] ∧ p = PQueue w').
Proof.
  intros Hw Hl Hb Ho w' j. rewrite lookup_total_insert_occ by done. destruct (decide (w' = w)) as [->|Hne].
  - rewrite Hl, (ind_iff (j ∈ [i] ∧ q = _) (j = i ∧ q = PQueue w)), (ind_iff (j ∈ [i] ∧ p = _) (j = i ∧ p = PQueue w)) by set_solver. apply Hb.
  - destruct (Ho w' Hne). by rewrite !ind_false by tauto.
Qed.

Lemma ev_pop_front w : event [KOwner w] (PopFront w) (λ r h, h = match r with None => [KOwner w] | Some i => [KWork i w; KAt PPop i] end).
Proof.
  intros budget c F (g & ph & Hi). cbn. destruct (BlockCtx.queues c !!! w) as [|i q] eqn:Eq; [eexists; split; [by exists g, ph|done]|].
  assert (ph i = PQueue w) as Hphi by (rewrite <-(queue_phase _ _ _ _ _ _ Hi), Eq; set_solver).
  destruct (queue_mode _ _ _ _ _ _ Hi Hphi) as (Hb & Hw & Hlt). destruct (at_lens _ _ _ _ (iv_places _ _ _ _ _ _ Hi)) as [Hlen _].
  eexists. split; [|done]. exists g, (upd ph [i] PPop). change ([KOwner w] ++ F) with (KOwner w :: F) in Hi.
  apply inv_learn; [done| |].
  { cbn. rewrite upd_in by set_solver. done. }
  assert (occ (KOwner w) F = 0) as Hown.
  { pose proof (qu_owner _ _ _ _ _ (iv_queued _ _ _ _ _ _ Hi) w) as Hle. cbn in Hle. rewrite ind_true in Hle by done. lia. }
  assert (∀ j, ph j = PPop → nd_worker (node c j) ≠ w) as Hnp.
  { intros j Hj Hjw. pose proof (qu_pop_owner _ _ _ _ _ (iv_queued _ _ _ _ _ _ Hi) j Hj) as Hz. rewrite Hjw in Hz. cbn in Hz. rewrite ind_true in Hz by done. lia. }
  apply (inv_queue_move g ph c _ (KOwner w :: F) (KAt PPop i :: F) i (PQueue w) PPop); try done; auto.
  - apply same_rest_queues. by rewrite length_insert.
  - intros t Ht Hne. cbn. rewrite !ind_false; [done|by apply Hne|]. by intros ->.
  - intros r j Hr. cbn. rewrite (ind_false (KAt r j = KOwner w)), (ind_false (_ ∧ r = PQueue w)) by (try intros [_ ->]; done).
    rewrite ind_hand. lia.
  - apply (queue_balance _ w (i :: q)); [lia|done| |by intros w' ?; split; congruence].
    intros j. cbn. rewrite (ind_iff (j = i ∧ PQueue w = PQueue w) (j = i)), (ind_false (_ ∧ PPop = _)) by naive_solver. lia.
  - intros w' l1 j l2 x. cbn. intros Hq Hx. destruct (decide (w' = w)) as [->|Hne].
    + rewrite list_lookup_total_insert_eq in Hq by lia. assert (BlockCtx.queues c !!! w = (i :: l1) ++ j :: l2) as Hq' by (rewrite Eq, Hq; done).
      destruct (qu_order _ _ _ _ _ (iv_queued _ _ _ _ _ _ Hi) _ _ _ _ _ Hq' Hx) as [Ht|[->|?]%elem_of_cons]; [left; apply taken_upd; auto|left; by rewrite upd_in by set_solver|by right].
    + rewrite list_lookup_total_insert_ne in Hq by done. destruct (qu_order _ _ _ _ _ (iv_queued _ _ _ _ _ _ Hi) _ _ _ _ _ Hq Hx) as [Ht|?]; [left; apply taken_upd; auto|by right].
  - intros _ x Hx. destruct (qu_order _ _ _ _ _ (iv_queued _ _ _ _ _ _ Hi) w [] i q x Eq Hx) as [Ht|?]; [|set_solver].
    assert (nd_worker (node c x) = w) as Hxw.
    { destruct (qu_preds _ _ _ _ _ (iv_queued _ _ _ _ _ _ Hi) i x) as (_ & _ & ? & _); [by rewrite Hphi|done|congruence]. }
    specialize (Hnp x). destruct (ph x) eqn:Ex; try done; auto. by destruct Hnp.
  - intros w'. pose proof (qu_owner _ _ _ _ _ (iv_queued _ _ _ _ _ _ Hi) w') as Hle. cbn in Hle |- *. rewrite (ind_false (_ = KAt _ _)) by done. lia.
  - intros j Hj. split.
    + rewrite upd_one in Hj. destruct (decide (j = i)) as [->|Hne]; [rewrite Hw; cbn; by rewrite ind_false, Hown by done|].
      pose proof (qu_pop_owner _ _ _ _ _ (iv_queued _ _ _ _ _ _ Hi) j Hj) as Hz. cbn in Hz |- *. rewrite (ind_false (_ = KAt _ _)) by done. lia.
    + intros k Hk Hkw. rewrite upd_one in Hj, Hk. destruct (decide (j = i)) as [->|Hne], (decide (k = i)) as [->|Hne']; try done.
      * rewrite Hw in Hkw. by destruct (Hnp k).
      * rewrite Hw in Hkw. by destruct (Hnp j).
      * by apply (qu_pop_one _ _ _ _ _ (iv_queued _ _ _ _ _ _ Hi)).
Qed.

Lemma hand_phase g ph c q i F : inv g ph c (KAt q i :: F) → in_hand q = true → ph i = q.
Proof. intros Hi Hq. destruct (inv_hand cfg dp _ _ _ q [i] _ Hi Hq) as [_ Hin]. apply Hin. set_solver. Qed.

Lemma pop_mode g ph c H i : inv g ph c H → ph i = PPop → bag_mode cfg = false ∧ nd_worker (node c i) < pc_workers cfg.
Proof.
  intros Hi Hp. pose proof (at_mode _ _ _ _ (iv_places _ _ _ _ _ _ Hi) i) as Hm. rewrite Hp in Hm. cbn in Hm. apply negb_true_iff in Hm.
  split; [done|]. apply (qu_worker _ _ _ _ _ (iv_queued _ _ _ _ _ _ Hi)); [done|]. by rewrite Hp.
Qed.

(** The end of the verification of a queue's front gives the queue back to its worker. *)
Lemma pops_end g ph c i w p F : inv g ph c (KAt PPop i :: F) → nd_worker (node c i) = w → p ≠ PPop → ∀ t, is_at t = true →
  (∀ w', occ (KOwner w') (t :: KOwner w :: F) ≤ 1) ∧
  (∀ j, upd ph [i] p j = PPop → occ (KOwner (nd_worker (node c j))) (t :: KOwner w :: F) = 0 ∧
     ∀ k, upd ph [i] p k = PPop → nd_worker (node c k) = nd_worker (node c j) → k = j).
Proof.
  intros Hi Hw Hp t Ht. pose proof (hand_phase _ _ _ _ _ _ Hi eq_refl) as Hphi. pose proof (iv_queued _ _ _ _ _ _ Hi) as HQ.
  assert (∀ w', occ (KOwner w') (t :: KOwner w :: F) = ind (w' = w) + occ (KOwner w') (KAt PPop i :: F)) as Hocc.
  { intros w'. cbn. rewrite (ind_false (KOwner w' = t)), (ind_false (_ = KAt _ _)) by (done || by intros <-). rewrite (ind_iff (KOwner w' = KOwner w) (w' = w)); [lia|]. split; [by intros [=]|by intros ->]. }
  split.
  - intros w'. rewrite Hocc. unfold ind. case_decide as He; [subst w'|apply HQ]. rewrite <-Hw, (qu_pop_owner _ _ _ _ _ HQ i Hphi). lia.
  - intros j. rewrite upd_one. destruct (decide (j = i)) as [->|Hne]; [done|]. intros Hj. split.
    + rewrite Hocc, (qu_pop_owner _ _ _ _ _ HQ j Hj), ind_false; [done|]. intros Hjw. apply Hne. apply (qu_pop_one _ _ _ _ _ HQ); [done..|congruence].
    + intros k. rewrite upd_one. destruct (decide (k = i)) as [->|]; [done|]. intros Hk. by apply (qu_pop_one _ _ _ _ _ HQ).
Qed.

Lemma fifo_ready_ran g ph c H i : inv g ph c H → fifo_ready_now c i = true → ∀ x, x ∈ nd_fifo_preds (node c i) → ran (ph x) = true.
Proof.
  intros Hi Hf x Hx. apply (at_results _ _ _ _ (iv_places _ _ _ _ _ _ Hi)). unfold fifo_ready_now in Hf. rewrite forallb_forall in Hf.
  apply list_elem_of_In, Hf, bool_decide_eq_true in Hx. done.
Qed.

Lemma ev_fifo_ready w i :
  event [KWork i w; KAt PPop i] (FifoReady i) (λ r h, h = if r then [KAt PRun i; KOwner w] else [KWork i w; KAt PPop i]).
Proof.
  intros budget c F (g & ph & Hi). cbn. destruct (fifo_ready_now c i) eqn:Ef; [|eexists; split; [by exists g, ph|done]].
  eexists. split; [|done]. destruct (inv_sound _ _ _ _ (KWork i w) Hi) as [_ Hw]; [set_solver|]. apply inv_drop in Hi; [|done]. change ([KAt PPop i] ++ F) with (KAt PPop i :: F) in Hi.
  pose proof (hand_phase _ _ _ _ _ _ Hi eq_refl) as Hphi. destruct (pop_mode _ _ _ _ _ Hi Hphi) as [Hb _].
  destruct (pops_end g ph c i w PRun F Hi Hw ltac:(done) (KAt PRun i) eq_refl) as [Ho Hps].
  exists g, (upd ph [i] PRun). apply (inv_queue_move g ph c _ (KAt PPop i :: F) (KAt PRun i :: KOwner w :: F) i PPop PRun); try done; auto.
  - intros t Ht Hne. cbn. rewrite !ind_false; try done; by intros ->.
  - intros r j Hr. cbn. rewrite (ind_false (_ = KOwner w)), !ind_hand by done. lia.
  - intros w' j. by rewrite !ind_false by (by intros [_ ?]).
  - intros w' l1 j l2 x Hq Hx. destruct (qu_order _ _ _ _ _ (iv_queued _ _ _ _ _ _ Hi) _ _ _ _ _ Hq Hx) as [Ht|?]; [left; apply taken_upd; auto|by right].
  - intros _. apply (released_closure g ph c (KAt PPop i :: F)); [done|by rewrite Hphi|]. by eapply fifo_ready_ran.
Qed.

Lemma ev_push_front w i : event [KWork i w; KAt PPop i] (PushFront w i) (λ _ h, h = [KOwner w]).
Proof.
  intros budget c F (g & ph & Hi). eexists. split; [|done]. destruct (inv_sound _ _ _ _ (KWork i w) Hi) as [_ Hw]; [set_solver|]. apply inv_drop in Hi; [|done]. change ([KAt PPop i] ++ F) with (KAt PPop i :: F) in Hi.
  pose proof (hand_phase _ _ _ _ _ _ Hi eq_refl) as Hphi. destruct (pop_mode _ _ _ _ _ Hi Hphi) as [Hb Hlt]. rewrite Hw in Hlt.
  destruct (pops_end g ph c i w (PQueue w) F Hi Hw ltac:(done) (KAt PRun i) eq_refl) as [Ho Hps]. destruct (at_lens _ _ _ _ (iv_places _ _ _ _ _ _ Hi)) as [Hlen _].
  exists g, (upd ph [i] (PQueue w)). apply (inv_queue_move g ph c _ (KAt PPop i :: F) (KOwner w :: F) i PPop (PQueue w)); try done; auto.
  - apply same_rest_queues. by rewrite length_insert.
  - intros t Ht Hne. cbn. rewrite !ind_false; try done; by intros ->.
  - intros r j Hr. cbn. rewrite (ind_false (_ = KOwner w)), (ind_false (_ ∧ r = PQueue w)), ind_hand by (try intros [_ ->]; done). lia.
  - apply (queue_balance _ w (BlockCtx.queues c !!! w)); [lia|done| |by intros w' ?; split; congruence].
    intros j. cbn. rewrite (ind_iff (j = i ∧ PQueue w = PQueue w) (j = i)), (ind_false (_ ∧ PPop = _)) by naive_solver. lia.
  - by intros w' [= <-].
  - intros w' l1 j l2 x. cbn. intros Hq Hx. destruct (decide (w' = w)) as [->|Hne].
    + rewrite list_lookup_total_insert_eq in Hq by lia. destruct l1 as [|y l1]; cbn in Hq; injection Hq as <- Hq.
      * left. pose proof (qu_pop _ _ _ _ _ (iv_queued _ _ _ _ _ _ Hi) i x Hphi Hx) as Hr. rewrite upd_one. destruct (decide (x = i)) as [->|]; [rewrite Hphi in Hr; by destruct Hr|].
        destruct Hr as [->|Hr]; [done|by destruct (ph x)].
      * destruct (qu_order _ _ _ _ _ (iv_queued _ _ _ _ _ _ Hi) _ _ _ _ _ Hq Hx) as [Ht|?]; [|right; set_solver].
        rewrite upd_one. destruct (decide (x = i)) as [->|]; [right; set_solver|by left].
    + rewrite list_lookup_total_insert_ne in Hq by done. assert (ph j = PQueue w') as Hj by (rewrite <-(queue_phase _ _ _ _ _ _ Hi), Hq; set_solver).
      destruct (qu_order _ _ _ _ _ (iv_queued _ _ _ _ _ _ Hi) _ _ _ _ _ Hq Hx) as [Ht|?]; [left|by right]. rewrite upd_out; [done|].
      intros ->%list_elem_of_singleton. destruct (qu_preds _ _ _ _ _ (iv_queued _ _ _ _ _ _ Hi) j i) as (_ & _ & Hjw & _); [by rewrite Hj|done|].
      destruct (queue_mode _ _ _ _ _ _ Hi Hj) as (_ & Hjw' & _). congruence.
Qed.

Lemma ev_steal_back v : event [] (StealBack v) (λ r h, h = match r with None => [] | Some i => [KAt PRun i] end).
Proof.
  intros budget c F (g & ph & Hi). cbn. unfold steal_back. destruct (last (BlockCtx.queues c !!! v)) as [i|] eqn:El; [|eexists; split; [by exists g, ph|done]].
  destruct (fifo_ready_now c i) eqn:Ef; [|eexists; split; [by exists g, ph|done]]. eexists. split; [|done]. apply last_Some in El as [q Eq].
  assert (ph i = PQueue v) as Hphi by (rewrite <-(queue_phase _ _ _ _ _ _ Hi), Eq; set_solver).
  destruct (queue_mode _ _ _ _ _ _ Hi Hphi) as (Hb & Hw & Hlt). destruct (at_lens _ _ _ _ (iv_places _ _ _ _ _ _ Hi)) as [Hlen _].
  assert (take (length (BlockCtx.queues c !!! v) - 1) (BlockCtx.queues c !!! v) = q) as Etake.
  { rewrite Eq, length_app. cbn. by rewrite Nat.add_sub, take_app_length. }
  destruct (pops_other cfg dp ph c F (KAt PRun i :: F) [i] PRun) as [Ho Hps]; [apply Hi|intros w'; cbn; by rewrite ind_false|done|].
  exists g, (upd ph [i] PRun). cbn. rewrite Etake. apply (inv_queue_move g ph c _ F (KAt PRun i :: F) i (PQueue v) PRun); try done; auto.
  - apply same_rest_queues. by rewrite length_insert.
  - intros t Ht Hne. cbn. rewrite ind_false; [done|by intros ->].
  - intros r j Hr. cbn. rewrite (ind_false (_ ∧ r = PQueue v)), ind_hand by (by intros [_ ->]). lia.
  - apply (queue_balance _ v (q ++ [i])); [lia|done| |by intros w' ?; split; congruence].
    intros j. rewrite occ_app. cbn. rewrite (ind_iff (j = i ∧ PQueue v = PQueue v) (j = i)), (ind_false (_ ∧ PRun = _)) by naive_solver. lia.
  - intros w' l1 j l2 x. cbn. intros Hq Hx. destruct (decide (w' = v)) as [->|Hne].
    + rewrite list_lookup_total_insert_eq in Hq by lia. assert (BlockCtx.queues c !!! v = l1 ++ j :: (l2 ++ [i])) as Hq' by (rewrite Eq, Hq, <-app_assoc; done).
      destruct (qu_order _ _ _ _ _ (iv_queued _ _ _ _ _ _ Hi) _ _ _ _ _ Hq' Hx) as [Ht|?]; [left; apply taken_upd; auto|by right].
    + rewrite list_lookup_total_insert_ne in Hq by done. destruct (qu_order _ _ _ _ _ (iv_queued _ _ _ _ _ _ Hi) _ _ _ _ _ Hq Hx) as [Ht|?]; [left; apply taken_upd; auto|by right].
  - intros _. apply (released_closure g ph c F); [done|by rewrite Hphi|]. by eapply fifo_ready_ran.
Qed.

(** ** The bag *)

Lemma bag_phase g ph c H i : inv g ph c H → i ∈ BlockCtx.bag c ↔ ph i = PBag.
Proof.
  intros Hi. rewrite <-occ_pos, (at_bag _ _ _ _ (iv_places _ _ _ _ _ _ Hi)). unfold ind. case_decide; split; intros; done || lia.
Qed.

(** In bag mode, a released transaction can run. *)
Lemma bag_closure g ph c H i : inv g ph c H → bag_mode cfg = true → released (ph i) = true → ∀ x, x ∈ dp i → x ≠ i → ran (ph x) = true.
Proof.
  intros Hi Hb Hr. apply (released_closure g ph c H); [done..|]. intros x. rewrite (qu_bag _ _ _ _ _ (iv_queued _ _ _ _ _ _ Hi)) by done. set_solver.
Qed.

(** A move in bag mode, of a transaction that has not run. *)
Lemma inv_bag_move g ph c bag H H' i q p : inv g ph c H → ph i = q → bag_mode cfg = true →
  q = PReady ∧ p = PBag ∨ q = PBag ∧ p = PRun ∨ q = PReady ∧ p = PRun →
  (∀ t, is_at t = false → occ t H' = occ t H) →
  (∀ r j, in_hand r = true → occ (KAt r j) H' + ind (j ∈ [i] ∧ r = q) = occ (KAt r j) H + ind (j ∈ [i] ∧ r = p)) →
  (∀ j, occ j bag + ind (j ∈ [i] ∧ q = PBag) = occ j (BlockCtx.bag c) + ind (j ∈ [i] ∧ p = PBag)) →
  inv g (upd ph [i] p) (BlockCtx.with_bag bag c) H'.
Proof.
  intros Hi Hphi Hb Hqp HT HH Hbag. pose proof (iv_counted _ _ _ _ _ _ Hi) as HC.
  assert (∀ j, j ∈ [i] → ph j = q) as Hin by (intros j ->%list_elem_of_singleton; done).
  apply (inv_move cfg dp g ph c _ H H' [i] q p); try done; cbn.
  all: try (destruct Hqp as [[-> ->]|[[-> ->]|[-> ->]]]; try done; rewrite ?Hb; done).
  - intros w j. rewrite !ind_false; [done|..]; destruct Hqp as [[-> ->]|[[-> ->]|[-> ->]]]; by intros [_ ?].
  - intros j. split; [by left|]. intros [?|[_ Hr]]; [done|]. destruct Hqp as [[-> ->]|[[-> ->]|[-> ->]]]; done.
  - intros j e. by left.
  - rewrite (ct_pending _ _ _ _ HC). f_equal. symmetry. apply total_upd_same. intros j Hj. rewrite Hin by done. destruct Hqp as [[-> ->]|[[-> ->]|[-> ->]]]; done.
  - rewrite (ct_finished _ _ _ _ HC). f_equal. symmetry. apply total_upd_same. intros j Hj. rewrite Hin by done. destruct Hqp as [[-> ->]|[[-> ->]|[-> ->]]]; done.
  - intros Hp j x ->%list_elem_of_singleton. apply (bag_closure g ph c H); [done..|]. rewrite Hphi. destruct Hqp as [[-> _]|[[-> _]|[-> _]]]; done.
Qed.

Lemma ev_bag_push i : bag_mode cfg = true → event [KAt PReady i] (BagPush i) (λ _ h, h = []).
Proof.
  intros Hb budget c F (g & ph & Hi). exists []. split; [|done]. change ([KAt PReady i] ++ F) with (KAt PReady i :: F) in Hi.
  pose proof (hand_phase _ _ _ _ _ _ Hi eq_refl) as Hphi. pose proof (opened_max _ _ _ _ _ _ Hi) as Hmax.
  assert (length (BlockCtx.bag c ++ [i]) ≤ fa_opened g) as Hlen.
  { apply occ_bound. intros j. rewrite occ_app, (at_bag _ _ _ _ (iv_places _ _ _ _ _ _ Hi)). cbn.
    destruct (decide (ph j = PNew)) as [Hn|Hn]; [rewrite (ind_false (ph j = _)), (ind_false (j = i)) by congruence; lia|].
    rewrite (ind_true (j < _)) by (by eapply below_opened). unfold ind. destruct (decide (j = i)) as [->|]; repeat case_decide; lia || congruence. }
  rewrite length_app in Hlen. cbn in Hlen. unfold exec, snd. destruct (Nat.ltb_spec (length (BlockCtx.bag c)) MAX_BLOCK_TXS) as [_|Hge]; [|lia].
  exists g, (upd ph [i] PBag). apply (inv_bag_move g ph c _ (KAt PReady i :: F) F i PReady PBag); auto.
  - intros t Ht. cbn. rewrite ind_false; [done|by intros ->].
  - intros r j Hr. cbn. rewrite (ind_false (_ ∧ r = PBag)), ind_hand by (by intros [_ ->]). lia.
  - intros j. rewrite occ_app. cbn. rewrite (ind_false (_ ∧ PReady = _)), (ind_iff (j ∈ [i] ∧ PBag = PBag) (j = i)) by set_solver. lia.
Qed.

Lemma ev_bag_pop : event [] BagPop (λ r h, h = match r with None => [] | Some i => [KAt PRun i] end).
Proof.
  intros budget c F (g & ph & Hi). cbn. destruct (BlockCtx.bag c) as [|i l] eqn:Eb; [eexists; split; [by exists g, ph|done]|].
  eexists. split; [|done]. assert (ph i = PBag) as Hphi by (rewrite <-(bag_phase _ _ _ _ _ Hi), Eb; set_solver).
  assert (bag_mode cfg = true) as Hb by (pose proof (at_mode _ _ _ _ (iv_places _ _ _ _ _ _ Hi) i) as Hm; by rewrite Hphi in Hm).
  exists g, (upd ph [i] PRun). apply (inv_bag_move g ph c _ F (KAt PRun i :: F) i PBag PRun); auto.
  - intros t Ht. cbn. rewrite ind_false; [done|by intros ->].
  - intros r j Hr. cbn. rewrite (ind_false (_ ∧ r = PBag)), ind_hand by (by intros [_ ->]). lia.
  - intros j. rewrite Eb. cbn. rewrite (ind_false (_ ∧ PRun = _)), (ind_iff (j ∈ [i] ∧ PBag = PBag) (j = i)) by set_solver. lia.
Qed.

(** A worker keeps a transaction that it released, and runs it next. *)
Lemma shift_keep i : bag_mode cfg = true → shift cfg dp [KAt PReady i] [KAt PRun i].
Proof.
  intros Hb c F (g & ph & Hi). change ([KAt PReady i] ++ F) with (KAt PReady i :: F) in Hi. pose proof (hand_phase _ _ _ _ _ _ Hi eq_refl) as Hphi.
  exists g, (upd ph [i] PRun). replace c with (BlockCtx.with_bag (BlockCtx.bag c) c) by (by destruct c).
  apply (inv_bag_move g ph c _ (KAt PReady i :: F) _ i PReady PRun); auto.
  - intros t Ht. cbn. rewrite !ind_false; [done|by intros ->..].
  - intros r j Hr. cbn. rewrite !ind_hand. lia.
  - intros j. by rewrite !ind_false by (by intros [_ ?]).
Qed.

(** ** Readers *)

Lemma Inv_drop c t F : soft t = true → Inv c (t :: F) → Inv c F.
Proof. intros Ht (g & ph & Hi). exists g, ph. by eapply inv_drop. Qed.

Lemma shift_drop t h : soft t = true → shift cfg dp (t :: h) h.
Proof. intros Ht c F. by apply Inv_drop. Qed.

(** An event that leaves the context. *)
Lemma ev_read {X} (e : SchedE X) h : (∀ budget c, (exec cfg budget e c).2 = c) → event h e (λ _ h', h' = h).
Proof. intros He budget c F HI. exists h. by rewrite He. Qed.

(** What a read tells. *)
Lemma ev_learn {X} (e : SchedE X) h (k : X → list Tok) : (∀ budget c, (exec cfg budget e c).2 = c) →
  (∀ budget g ph c F, inv g ph c (h ++ F) → ∀ t, t ∈ k (exec cfg budget e c).1 → soft t = true ∧ sound ph c t) →
  event h e (λ x h', h' = k x ++ h).
Proof.
  intros He Hk budget c F (g & ph & Hi). exists (k (exec cfg budget e c).1 ++ h). split; [|done]. rewrite He. exists g, ph.
  specialize (Hk budget g ph c F Hi). rewrite <-app_assoc. induction (k (exec cfg budget e c).1) as [|t l IH]; cbn; [done|].
  destruct (Hk t) as [? ?]; [set_solver|]. apply inv_learn; [done..|]. apply IH. set_solver.
Qed.

Lemma ev_load_worker i : event [KAt PReady i] (LoadWorker i) (λ w h, h = [KWork i w; KAt PReady i]).
Proof.
  apply (ev_learn (LoadWorker i) [KAt PReady i] (λ w, [KWork i w])); [done|]. intros budget g ph c F Hi t ->%list_elem_of_singleton. split; [done|].
  cbn. change ([KAt PReady i] ++ F) with (KAt PReady i :: F) in Hi. by rewrite (hand_phase _ _ _ _ _ _ Hi eq_refl).
Qed.

Lemma event_mono {X} (e : SchedE X) h (Q Q' : X → list Tok → Prop) : event h e Q → (∀ x h', Q x h' → Q' x h') → event h e Q'.
Proof. intros He HQ budget c F HI. destruct (He budget c F HI) as (h' & ? & ?). eauto. Qed.

Lemma gwp_event {X A} (e : SchedE X) (k : X → Tree SchedE A) h Q Q' : event h e Q → (∀ x h', Q x h' → wp h' (k x) Q') → wp h (x ← ask e; k x) Q'.
Proof. intros He Hk. eapply gwp_bind; [by apply gwp_ask|]. done. Qed.

Lemma ev_load_sealed : event [] LoadSealed (λ s h, h = if s then [KSealed] else []).
Proof.
  eapply event_mono; [apply (ev_learn LoadSealed [] (λ s, if s : bool then [KSealed] else [])); [done|]|intros s h ->; by rewrite app_nil_r].
  intros budget g ph c F Hi t. cbn. destruct (BlockCtx.sealed c) eqn:Es; [|set_solver]. by intros ->%list_elem_of_singleton.
Qed.

Lemma ev_load_finished : event [KSealed] LoadFinished (λ x h, h = [KSawFin x; KSealed]).
Proof.
  apply (ev_learn LoadFinished [KSealed] (λ x, [KSawFin x])); [done|]. intros budget g ph c F Hi t ->%list_elem_of_singleton. by cbn.
Qed.

(** A sealed block whose finished transactions reach the admitted ones is out. *)
Lemma ev_load_admitted x : event [KSawFin x; KSealed] LoadAdmitted (λ a h, h = (if (x =? a)%N then [KExit] else []) ++ [KSawFin x; KSealed]).
Proof.
  apply (ev_learn LoadAdmitted [KSawFin x; KSealed] (λ a, if (x =? a)%N then [KExit] else [])); [done|]. intros budget g ph c F Hi t. cbn.
  destruct (N.eqb_spec x (BlockCtx.admitted c)) as [Hx|]; [|set_solver]. intros ->%list_elem_of_singleton. split; [done|]. right.
  pose proof (inv_sound _ _ _ _ KSealed Hi ltac:(set_solver)) as Hs. pose proof (inv_sound _ _ _ _ (KSawFin x) Hi ltac:(set_solver)) as Hf. cbn in Hs, Hf.
  split; [done|]. pose proof (iv_counted _ _ _ _ _ _ Hi) as HC. rewrite (ct_sealed _ _ _ _ HC) in Hs. destruct (ct_sealed_all _ _ _ _ HC Hs) as [Ha _].
  rewrite (ct_finished _ _ _ _ HC) in *. rewrite (ct_admitted _ _ _ _ HC) in *. pose proof (finished_bound g ph). lia.
Qed.

Lemma gwp_drained : wp [] drained (λ d h, h = if d then [KExit] else []).
Proof.
  unfold drained. eapply gwp_event; [apply ev_load_sealed|]. intros s h ->. destruct s; [|by apply gwp_ret].
  eapply gwp_event; [apply ev_load_finished|]. intros x h ->. eapply gwp_event; [apply ev_load_admitted|]. intros a h ->. cbn.
  exists (if (x =? a)%N then [KExit] else []). split; [|done]. intros c F HI. rewrite <-app_assoc in HI. cbn in HI.
  rewrite (Permutation_app_comm _ (KSawFin x :: KSealed :: F)) in HI. cbn in HI. apply Inv_drop, Inv_drop in HI; [|done..].
  by rewrite (Permutation_app_comm F) in HI.
Qed.
End queue_events.
