(* ===== verification/StmGraphTree.v ===== *)
(** * The threads of the scheduler and its invariant

    The events by which the feed admits a transaction (it stores the slot, opens the
    node, links the predecessors and seals the block), and what each tree of
    [StmGraph] does with the tokens of its thread. *)
From S2P Require Import Prelude Bytes Types Fees WriteSet Effects ExecScope StmMv StmView StmWorker StmTouch StmPredict StmGraph StmGraphInv StmGraphStep.
From S2P Require Import StmGraphQueue.
Import BlockCtx (node, set_node).

Section feed_events.
Context (cfg : PoolConfig) (dp : nat → list nat) `{!Deps dp}.

Abbreviation Inv := (Inv cfg dp).
Abbreviation inv := (inv cfg dp).
Abbreviation wp := (wp cfg dp).
Abbreviation event := (event cfg dp).

(** The token of the feed is its place. *)
Lemma feed_token g g0 ph c F : inv g ph c (KFeed g0 :: F) → g = g0 ∧ ∀ g', occ (KFeed g') F = 0.
Proof.
  intros Hi. pose proof (ct_feed _ _ _ _ (iv_counted _ _ _ _ _ _ Hi)) as Hf. cbn in Hf.
  assert (g = g0) as ->.
  { specialize (Hf g0). rewrite (ind_true (KFeed g0 = KFeed g0)) in Hf by done. destruct (decide (g0 = g)); [done|]. rewrite (ind_false (g0 = g)) in Hf by done. lia. }
  split; [done|]. intros g'. specialize (Hf g'). rewrite (ind_iff (KFeed g' = KFeed g0) (g' = g0)) in Hf by (split; [by intros [=]|by intros ->]). lia.
Qed.

Lemma feed_swap g g' F t : (∀ x, t ≠ KFeed x) → occ t (KFeed g' :: F) = occ t (KFeed g :: F).
Proof. intros Ht. cbn. by rewrite !ind_false. Qed.

Lemma feed_count g F : (∀ g', occ (KFeed g') F = 0) → ∀ g', occ (KFeed g') (KFeed g :: F) = ind (g' = g).
Proof. intros HF g'. cbn. rewrite HF, Nat.add_0_r. apply ind_iff. split; [by intros [=]|by intros ->]. Qed.

(** The counters move, and nothing else. *)
Lemma inv_count g g' ph c c' H H' : inv g ph c H → fa_opened g' = fa_opened g → fa_link g' = fa_link g → counted g' ph c' H' →
  BlockCtx.nodes c' = BlockCtx.nodes c → BlockCtx.queues c' = BlockCtx.queues c → BlockCtx.bag c' = BlockCtx.bag c →
  BlockCtx.completed c' = BlockCtx.completed c → BlockCtx.results c' = BlockCtx.results c →
  (∀ t, (∀ x, t ≠ KFeed x) → occ t H' = occ t H) → inv g' ph c' H'.
Proof.
  intros [HP HC HG HQ] Eo El HC' En Eq Eb Ec Er HT.
  assert (∀ j, node c' j = node c j) as Hnode by (intros j; unfold node; by rewrite En).
  assert (∀ j, degree (fa_opened g') c' H' j = degree (fa_opened g) c H j) as Hdeg.
  { intros j. rewrite Eo. apply degree_same; [intros k; by rewrite Hnode|by apply HT]. }
  assert (∀ j, rem g' j = rem g j) as Hrem by (intros j; unfold rem; by rewrite El).
  split; [|done|..].
  - destruct HP. split; rewrite ?Eq, ?Eb, ?Ec, ?Er; try done. intros p i Hp. rewrite HT by done. auto.
  - destruct HG as [G1 G2 G3 G4 G5 G6 G7 G8]. split; intros *; rewrite ?Hnode, ?Hdeg, ?Hrem; [apply G1|apply G2|apply G3|apply G4|apply G5|apply G6|apply G7|apply G8].
  - destruct HQ as [Q1 Q2 Q3 Q4 Q5 Q6 Q7 Q8 Q9 Q10 Q11]. split; intros *; rewrite ?Hnode, ?Eq, ?HT by done;
      [apply Q1|apply Q2|apply Q3|apply Q4|apply Q5|apply Q6|apply Q7|apply Q8|apply Q9|apply Q10|apply Q11].
Qed.

Lemma ev_store_slot g0 : fa_slots g0 < MAX_BLOCK_TXS →
  event [KFeed g0] (StoreSlot (fa_slots g0)) (λ _ h, h = [KFeed (mkFeedAt (S (fa_slots g0)) (fa_opened g0) (fa_admitted g0) (fa_link g0) (fa_sealed g0))]).
Proof.
  intros Hmax budget c F (g & ph & Hi). eexists. split; [|done]. change ([KFeed g0] ++ F) with (KFeed g0 :: F) in Hi.
  destruct (feed_token _ _ _ _ _ Hi) as [-> HF]. pose proof (iv_counted _ _ _ _ _ _ Hi) as HC. unfold exec, snd.
  rewrite bool_decide_eq_false_2 by (rewrite (ct_slots _ _ _ _ HC); lia). set (g' := mkFeedAt _ _ _ _ _).
  exists g', ph. apply (inv_count g0 g' ph c _ (KFeed g0 :: F) (KFeed g' :: F)); try done; [|intros t Ht; by apply feed_swap].
  destruct HC. split; cbn [BlockCtx.slots BlockCtx.with_slots BlockCtx.admitted BlockCtx.sealed BlockCtx.finished BlockCtx.pending fa_slots fa_opened fa_admitted fa_link fa_sealed g']; try done.
  - by apply feed_count.
  - intros i. rewrite elem_of_union, elem_of_singleton, ct_slots. lia.
  - lia.
Qed.

Lemma ev_add_admitted g0 : fa_admitted g0 < fa_opened g0 → fa_sealed g0 = false →
  event [KFeed g0] AddAdmitted (λ _ h, h = [KFeed (mkFeedAt (fa_slots g0) (fa_opened g0) (S (fa_admitted g0)) (fa_link g0) (fa_sealed g0))]).
Proof.
  intros Hlt Hs budget c F (g & ph & Hi). eexists. split; [|done]. change ([KFeed g0] ++ F) with (KFeed g0 :: F) in Hi.
  destruct (feed_token _ _ _ _ _ Hi) as [-> HF]. pose proof (iv_counted _ _ _ _ _ _ Hi) as HC. unfold exec, snd. set (g' := mkFeedAt _ _ _ _ _).
  exists g', ph. apply (inv_count g0 g' ph c _ (KFeed g0 :: F) (KFeed g' :: F)); try done; [|intros t Ht; by apply feed_swap].
  pose proof (opened_max _ _ _ _ _ _ Hi) as Hmax. unfold MAX_BLOCK_TXS in Hmax.
  destruct HC. split; cbn [BlockCtx.slots BlockCtx.with_admitted BlockCtx.admitted BlockCtx.sealed BlockCtx.finished BlockCtx.pending fa_slots fa_opened fa_admitted fa_link fa_sealed g']; try done.
  - by apply feed_count.
  - lia.
  - unfold u32_fetch_add. rewrite ct_admitted, N.mod_small by lia. lia.
  - congruence.
  - intros [?|[Hd _]]%ct_exit; [by left|]. congruence.
Qed.

Lemma ev_store_sealed g0 : fa_admitted g0 = fa_opened g0 → fa_link g0 = None →
  event [KFeed g0] StoreSealed (λ _ h, h = [KFeed (mkFeedAt (fa_slots g0) (fa_opened g0) (fa_admitted g0) (fa_link g0) true)]).
Proof.
  intros Ha Hl budget c F (g & ph & Hi). eexists. split; [|done]. change ([KFeed g0] ++ F) with (KFeed g0 :: F) in Hi.
  destruct (feed_token _ _ _ _ _ Hi) as [-> HF]. pose proof (iv_counted _ _ _ _ _ _ Hi) as HC. unfold exec, snd. set (g' := mkFeedAt _ _ _ _ _).
  exists g', ph. apply (inv_count g0 g' ph c _ (KFeed g0 :: F) (KFeed g' :: F)); try done; [|intros t Ht; by apply feed_swap].
  destruct HC. split; cbn [BlockCtx.slots BlockCtx.with_sealed BlockCtx.admitted BlockCtx.sealed BlockCtx.finished BlockCtx.pending fa_slots fa_opened fa_admitted fa_link fa_sealed g']; try done.
  - by apply feed_count.
  - intros [?|[_ Hd]]%ct_exit; [by left|]. by right.
Qed.

Lemma ev_set_aborted h : event h SetAborted (λ _ h', h' = KExit :: h).
Proof.
  intros budget c F (g & ph & Hi). eexists. split; [|done]. exists g, ph. unfold exec, snd.
  apply inv_learn; [done|by left|]. apply (inv_count g g ph c _ (h ++ F) (h ++ F)); try done. destruct (iv_counted _ _ _ _ _ _ Hi). split; try done. by left.
Qed.

(** ** Opening a node *)

(** Nothing names a transaction before its admission. *)
Lemma new_node g ph c H i : inv g ph c H → ph i = PNew →
  nd_open (node c i) = false ∧ nd_children (node c i) = [] ∧ (∀ j, ph j ≠ PNew → i ∉ nd_fifo_preds (node c j)) ∧
  (bag_mode cfg = true → nd_fifo_preds (node c i) = []).
Proof.
  intros Hi Hn. pose proof (iv_graphed _ _ _ _ _ _ Hi) as HG. split_and!.
  - by rewrite (gr_open _ _ _ _ _ HG), Hn.
  - destruct (nd_children (node c i)) as [|j l] eqn:El; [done|]. destruct (gr_children _ _ _ _ _ HG i j) as (_ & Ho & _); [rewrite El; set_solver|]. by rewrite Hn in Ho.
  - intros j Hj Hin. destruct (qu_preds _ _ _ _ _ (iv_queued _ _ _ _ _ _ Hi) j i Hj Hin) as (_ & _ & _ & Hh). by rewrite Hn in Hh.
  - apply (qu_bag _ _ _ _ _ (iv_queued _ _ _ _ _ _ Hi)).
Qed.

Definition opens (g : FeedAt) : FeedAt :=
  mkFeedAt (fa_slots g) (S (fa_opened g)) (fa_admitted g) (Some (fa_opened g, dp (fa_opened g))) (fa_sealed g).

(** A node of no edges opens for the next transaction. *)
Lemma inv_open g ph c w nd F : inv g ph c (KFeed g :: F) → (∀ g', occ (KFeed g') F = 0) → fa_opened g < fa_slots g → fa_link g = None → fa_sealed g = false →
  (bag_mode cfg = false → w < pc_workers cfg) → nd_open nd = true → nd_children nd = [] → nd_indegree nd = 1%N → nd_worker nd = w →
  (bag_mode cfg = false → nd_queued nd = false) → nd_fifo_preds nd = [] →
  inv (opens g) (upd ph [fa_opened g] PLink) (set_node (fa_opened g) nd c) (KFeed (opens g) :: F).
Proof.
  intros Hi HF Hlt Hl Hs Hw N1 N2 N3 N4 N5 N6. set (i := fa_opened g) in *.
  assert (ph i = PNew) as Hn by (apply (ct_new _ _ _ _ (iv_counted _ _ _ _ _ _ Hi)); done).
  destruct (new_node _ _ _ _ _ Hi Hn) as (Ho & Hc & Hp & Hb). pose proof Hi as [HP HC HG HQ].
  assert (∀ j, upd ph [i] PLink j = if decide (j = i) then PLink else ph j) as Hu by (intros j; apply upd_one).
  assert (∀ f : Phase → bool, f PNew = f PLink → ∀ j, f (upd ph [i] PLink j) = f (ph j)) as Hf.
  { intros f H1 j. rewrite Hu. destruct (decide (j = i)); [subst; congruence|done]. }
  assert (∀ j, upd ph [i] PLink j ≠ PNew ↔ j = i ∨ ph j ≠ PNew) as Hnew.
  { intros j. rewrite Hu. destruct (decide (j = i)); [subst; naive_solver|tauto]. }
  assert (∀ p, p ≠ PNew → p ≠ PLink → ∀ j, upd ph [i] PLink j = p ↔ ph j = p) as Hsame.
  { intros p H1 H2 j. rewrite Hu. destruct (decide (j = i)); [subst; intuition congruence|done]. }
  assert (∀ j, node (set_node i nd c) j = if decide (j = i) then nd else node c j) as Hnode by (intros j; apply node_set).
  assert (∀ j, nd_children (node (set_node i nd c) j) = nd_children (node c j)) as Hch by (intros j; rewrite Hnode; destruct (decide (j = i)); [subst; congruence|done]).
  assert (∀ t, (∀ x, t ≠ KFeed x) → occ t (KFeed (opens g) :: F) = occ t (KFeed g :: F)) as HT by (intros t Ht; by apply feed_swap).
  assert (∀ j, degree (S i) (set_node i nd c) (KFeed (opens g) :: F) j = degree i c (KFeed g :: F) j) as Hdeg.
  { intros j. unfold degree. rewrite HT by done. f_equal. rewrite total_S, Hch, Hc. cbn. rewrite Nat.add_0_r. apply total_ext. intros k _. by rewrite Hch. }
  split.
  - destruct HP as [A1 A2 A3 A4 A5 A5' A6 A7]. split; try done.
    + intros p j Hp'. rewrite HT by done. rewrite A1 by done. apply ind_iff. symmetry. apply Hsame; by intros ->.
    + intros w' j. cbn. rewrite A2. apply ind_iff. symmetry. by apply Hsame.
    + intros j. cbn. rewrite A3. apply ind_iff. symmetry. by apply Hsame.
    + intros w' j. cbn. rewrite A4. apply ind_iff. symmetry. by apply Hsame.
    + intros j. cbn. by rewrite (Hf ran).
    + intros j e He%A5'. by apply Hsame.
    + intros j. by rewrite (Hf (allowed (bag_mode cfg))).
  - destruct HC as [C1 C2 C3 C4 C5 C6 C7 C8 C9 C10 C11 C12 C13 C14]. split; cbn [opens fa_slots fa_opened fa_admitted fa_link fa_sealed]; try done.
    + by apply feed_count.
    + lia.
    + congruence.
    + intros j. rewrite Hu. fold i. destruct (decide (j = i)) as [->|Hne]; [split; [done|lia]|]. rewrite C7. fold i. lia.
    + intros j. rewrite Hu. fold i. destruct (decide (j = i)) as [->|Hne]; [naive_solver|]. rewrite C8, Hl. split; [naive_solver|]. intros [l [= ? _]]. congruence.
    + fold i. cbn. rewrite C9. fold i. f_equal. rewrite (Hf owed), Hn by done. cbn. rewrite Nat.add_0_r. apply total_ext. intros j _. by rewrite (Hf owed).
    + fold i. cbn. rewrite C10. fold i. f_equal. rewrite (Hf out), Hn by done. cbn. rewrite Nat.add_0_r. apply total_ext. intros j _. by rewrite (Hf out).
  - destruct HG as [G1 G2 G3 G4 G5 G6 G7 G8]. fold i in G3, G4, G5, G6. split; cbn [opens fa_opened]; fold i.
    + intros j. rewrite Hnode, Hu. destruct (decide (j = i)); [by rewrite N1|apply G1].
    + intros x j. rewrite Hch, Hnew. intros Hj. destruct (G2 x j Hj) as (? & Hox & ?). split_and!; [done| |by right]. rewrite Hu. by destruct (decide (x = i)).
    + intros j. rewrite Hnew, Hdeg, Hnode, Hu. destruct (decide (j = i)) as [->|Hne].
      * intros _. rewrite N3, ind_true by done. rewrite (G5 i (or_intror Hn)). done.
      * intros [?|Hj]; [done|]. by apply G3.
    + intros j. rewrite Hdeg. unfold rem. cbn [opens fa_link]. fold i. destruct (decide (i = j)) as [<-|Hne]; [rewrite (G5 i (or_intror Hn)); lia|]. specialize (G4 j). cbn [length]. lia.
    + intros j. rewrite Hdeg, Hu. destruct (decide (j = i)); [intros [?|?]; done|apply G5].
    + intros j. rewrite Hdeg, Hsame by done. apply G6.
    + intros j x. rewrite Hnew, Hch, Hnode, (Hf closed) by done. unfold rem. cbn [opens fa_link]. fold i. destruct (decide (j = i)) as [->|Hne].
      * intros _ Hx _. rewrite decide_True by done. tauto.
      * rewrite decide_False by done. intros [?|Hj] Hx Hne' _; [done|]. apply G7; [done..|]. unfold rem. rewrite Hl. set_solver.
    + intros j x. rewrite !(Hf ran), Hsame by done. apply G8.
  - destruct HQ as [Q1 Q2 Q3 Q4 Q5 Q6 Q7 Q8 Q9 Q10 Q11].
    assert (∀ j w', upd ph [i] PLink j = PQueue w' → j ≠ i) as Hqi by (intros j w'; rewrite Hu; by destruct (decide (j = i))).
    assert (∀ j, upd ph [i] PLink j = PPop → j ≠ i) as Hpi by (intros j; rewrite Hu; by destruct (decide (j = i))).
    split.
    + intros j Hbg. rewrite Hnew, Hnode. destruct (decide (j = i)); [intros _; rewrite N4; auto|]. intros [?|?]; [done|by apply Q1].
    + intros j w' Hj. rewrite Hnode, decide_False by eauto. apply Q2. by rewrite <-(Hsame (PQueue w')).
    + intros j Hbg. rewrite Hnew, Hnode, (Hf handed) by done. destruct (decide (j = i)); [rewrite N5 by done; done|]. intros [?|?]; [done|by apply Q3].
    + intros j Hbg. rewrite Hnode. destruct (decide (j = i)); [done|by apply Q4].
    + intros j x. rewrite Hnew, (Hf handed), !Hnode by done. destruct (decide (j = i)); [rewrite N6; set_solver|]. intros [?|Hj] Hx; [done|].
      rewrite decide_False; [by apply Q5|]. intros ->. by eapply Hp.
    + intros w' l1 j l2 x Hq. cbn in Hq. rewrite Hnode, (Hf taken) by done. destruct (decide (j = i)); [rewrite N6; set_solver|by eapply Q6].
    + intros j x Hj. rewrite Hnode, decide_False by auto. rewrite (Hf ran), Hsame by done. rewrite Hsame in Hj by done. by apply Q7.
    + intros w'. by rewrite HT.
    + intros j Hj. rewrite Hnode, decide_False, HT by auto. rewrite Hsame in Hj by done. by apply Q9.
    + intros j k Hj Hk. rewrite !Hnode, !decide_False by auto. rewrite Hsame in Hj, Hk by done. by apply Q10.
    + intros j w'. rewrite HT by done. intros Hk%Q11. rewrite Hnew, Hnode, decide_False; [tauto|]. intros ->. tauto.
Qed.

Lemma ev_open_node g0 w : fa_opened g0 < fa_slots g0 → fa_link g0 = None → fa_sealed g0 = false → (bag_mode cfg = false → w < pc_workers cfg) →
  event [KFeed g0] (OpenNode (fa_opened g0) w) (λ was_open h, was_open = false ∧ h = [KWork (fa_opened g0) w; KFeed (opens g0)]).
Proof.
  intros Hlt Hl Hs Hw budget c F (g & ph & Hi). change ([KFeed g0] ++ F) with (KFeed g0 :: F) in Hi. destruct (feed_token _ _ _ _ _ Hi) as [-> HF].
  assert (ph (fa_opened g0) = PNew) as Hn by (apply (ct_new _ _ _ _ (iv_counted _ _ _ _ _ _ Hi)); done).
  destruct (new_node _ _ _ _ _ Hi Hn) as (Ho & Hc & Hp & Hb). cbn. unfold open_node. rewrite Ho. cbn. eexists. split; [|done].
  exists (opens g0), (upd ph [fa_opened g0] PLink). cbn. apply inv_learn; [done| |].
  - cbn. rewrite node_set, decide_True, upd_in by set_solver. done.
  - apply (inv_open g0 ph c w); cbn; try done; [by intros ->|]. destruct (bag_mode cfg) eqn:Hm; auto.
Qed.

(** ** Linking a predecessor *)

Definition links (g : FeedAt) (i : nat) (l : list nat) : FeedAt := mkFeedAt (fa_slots g) (fa_opened g) (fa_admitted g) (Some (i, l)) (fa_sealed g).

#[local] Instance link_eq_dec : EqDecision Link.
Proof. solve_decision. Defined.

Definition when (b : bool) {A} (x : A) : list A := if b then [x] else [].

(** The predecessor [p] of [i] is closed, covered by the queue or an edge. *)
Lemma inv_link g ph c c' ns i p l k F : inv g ph c (KFeed g :: F) → (∀ g', occ (KFeed g') F = 0) → fa_link g = Some (i, p :: l) →
  let g' := links g i l in c' = BlockCtx.with_nodes ns c →
  (∀ j, nd_open (node c' j) = nd_open (node c j) ∧ nd_worker (node c' j) = nd_worker (node c j) ∧ nd_queued (node c' j) = nd_queued (node c j)) →
  (∀ j, nd_children (node c' j) = nd_children (node c j) ++ when (bool_decide (k = LEdge ∧ j = p)) i) →
  (∀ j, nd_fifo_preds (node c' j) = nd_fifo_preds (node c j) ++ when (bool_decide (k = LCovered ∧ j = i)) p) →
  nd_indegree (node c' i) = (nd_indegree (node c i) + (if decide (k = LEdge) then 1 else 0))%N → (∀ j, j ≠ i → nd_indegree (node c' j) = nd_indegree (node c j)) →
  match k with
  | LEdge => p < i ∧ is_open (ph p) = true
  | LCovered => bag_mode cfg = false ∧ p ≠ i ∧ p ∈ dp i ∧ nd_worker (node c p) = nd_worker (node c i) ∧ handed (ph p) = true
  | LNone => closed (ph p) = true ∨ p = i
  end → inv g' ph c' (KFeed g' :: F).
Proof.
  intros Hi HF Hl g' Ec' N1 N2 N3 N4 N5 Hk. rewrite Ec' in *. clear c' Ec'. set (c' := BlockCtx.with_nodes ns c) in *. pose proof Hi as [HP HC HG HQ].
  assert (ph i = PLink) as Hphi by (apply (ct_link _ _ _ _ HC); eauto).
  assert (∀ t, (∀ x, t ≠ KFeed x) → occ t (KFeed g' :: F) = occ t (KFeed g :: F)) as HT by (intros t Ht; by apply feed_swap).
  assert (∀ j, degree (fa_opened g) c' (KFeed g' :: F) j = degree (fa_opened g) c (KFeed g :: F) j + ind (k = LEdge ∧ j = i)) as Hdeg.
  { intros j. unfold degree. rewrite HT by done. rewrite <-Nat.add_assoc. f_equal. destruct (decide (k = LEdge)) as [->|Hne].
    - pose proof (total_move (fa_opened g) (λ x, occ j (nd_children (node c x))) (λ x, occ j (nd_children (node c' x))) p) as Hmv. cbn beta in Hmv.
      rewrite (N2 p), bool_decide_eq_true_2, occ_app in Hmv by done. destruct Hk as [Hp _]. pose proof (below_opened _ _ _ _ _ _ i Hi ltac:(by rewrite Hphi)).
      specialize (Hmv ltac:(lia)). specialize (Hmv ltac:(intros x Hx; rewrite (N2 x), bool_decide_eq_false_2, app_nil_r by tauto; done)).
      cbn in Hmv. rewrite (ind_iff (LEdge = LEdge ∧ j = i) (j = i)) by tauto. lia.
    - rewrite ind_false, Nat.add_0_r by tauto. apply total_ext. intros x _. by rewrite (N2 x), bool_decide_eq_false_2, app_nil_r by tauto. }
  assert (rem g i = p :: l) as Hrem by (unfold rem; rewrite Hl; by rewrite decide_True).
  assert (rem g' i = l) as Hrem' by (unfold rem; cbn; by rewrite decide_True).
  assert (∀ j, j ≠ i → rem g' j = [] ∧ rem g j = []) as Hrne by (intros j Hj; unfold rem; cbn; rewrite Hl, !decide_False by done; done).
  split.
  - destruct HP as [A1 A2 A3 A4 A5 A5' A6 A7]. by split.
  - destruct HC as [C1 C2 C3 C4 C5 C6 C7 C8 C9 C10 C11 C12 C13 C14]. split; try done.
    + by apply feed_count.
    + intros Hs%C6. destruct Hs; congruence.
    + intros j. rewrite C8, Hl. cbn. naive_solver.
  - destruct HG as [G1 G2 G3 G4 G5 G6 G7 G8]. split; try done; cbn [links g' fa_opened]; fold g'.
    + intros j. destruct (N1 j) as (-> & _). apply G1.
    + intros x j. rewrite N2, elem_of_app. intros [Hj|Hj]; [by apply G2|]. unfold when in Hj. case_bool_decide as Hkx; [|set_solver].
      apply list_elem_of_singleton in Hj. destruct Hkx as [-> ->]. subst j. rewrite Hphi. by destruct Hk.
    + intros j Hj. rewrite Hdeg. destruct (decide (j = i)) as [->|Hne].
      * rewrite N4, (G3 i Hj). destruct (decide (k = LEdge)); [rewrite (ind_true (_ ∧ _)) by done|rewrite (ind_false (_ ∧ _)) by tauto]; lia.
      * rewrite N5, (G3 j Hj), (ind_false (_ ∧ _)) by tauto. f_equal. lia.
    + intros j. rewrite Hdeg. specialize (G4 j). destruct (decide (j = i)) as [->|Hne]; [rewrite Hrem'; rewrite Hrem in G4; cbn [length] in G4; unfold ind; destruct (decide (k = LEdge ∧ i = i)); lia|].
      destruct (Hrne j Hne) as [-> Hr]. rewrite Hr in G4. rewrite ind_false by tauto. lia.
    + intros j Hj. rewrite Hdeg, ind_false, Nat.add_0_r; [by apply G5|]. intros [_ ->]. rewrite Hphi in Hj. by destruct Hj.
    + intros j Hj. rewrite Hdeg. specialize (G6 j Hj). lia.
    + intros j x Hj Hx Hne. rewrite N2, N3, !elem_of_app. destruct (decide (j = i)) as [->|Hne'].
      * rewrite Hrem'. intros Hxl. destruct (decide (x = p)) as [->|Hxp]; [|destruct (G7 i x Hj Hx Hne) as [?|[?|?]]; [rewrite Hrem; set_solver|auto..]].
        destruct k; unfold when; [rewrite bool_decide_eq_true_2 by done; right; left; right; set_solver|rewrite (bool_decide_eq_true_2 (LCovered = LCovered ∧ _)) by done; right; right; right; set_solver|].
        destruct Hk; [by left|done].
      * destruct (Hrne j Hne') as [-> Hr]. intros _. destruct (G7 j x Hj Hx Hne) as [?|[?|?]]; [rewrite Hr; set_solver|auto..].
  - destruct HQ as [Q1 Q2 Q3 Q4 Q5 Q6 Q7 Q8 Q9 Q10 Q11].
    assert (∀ j, ph j ≠ PLink → nd_fifo_preds (node c' j) = nd_fifo_preds (node c j)) as Hpr.
    { intros j Hj. rewrite N3, bool_decide_eq_false_2, app_nil_r; [done|]. intros [_ ->]. done. }
    assert (∀ j, nd_worker (node c' j) = nd_worker (node c j)) as Hw by (intros j; apply N1). split.
    + intros j. rewrite Hw. apply Q1.
    + intros j w. rewrite Hw. apply Q2.
    + intros j. destruct (N1 j) as (_ & _ & ->). apply Q3.
    + intros j Hb. rewrite N3, Q4, bool_decide_eq_false_2 by (done || (intros [-> _]; destruct Hk; congruence)). done.
    + intros j x Hj. rewrite N3, !Hw, elem_of_app. intros [Hx|Hx]; [by apply Q5|]. unfold when in Hx. case_bool_decide as Hkx; [|set_solver].
      destruct Hkx as [-> ->]. apply list_elem_of_singleton in Hx. subst x. destruct Hk as (_ & ? & ? & ? & ?). done.
    + intros w l1 j l2 x Hq. rewrite Hpr; [by eapply Q6|]. rewrite (proj1 (queue_phase _ _ _ _ _ _ w j Hi)); [done|]. cbn in Hq. rewrite Hq. set_solver.
    + intros j x Hj. rewrite Hpr by (by rewrite Hj). by apply Q7.
    + intros w. rewrite HT by done. apply Q8.
    + intros j. rewrite Hw, HT by done. apply Q9.
    + intros j j'. rewrite !Hw. apply Q10.
    + intros j w. rewrite Hw, HT by done. apply Q11.
Qed.

Lemma ev_link_pred g0 i p l w : fa_link g0 = Some (i, p :: l) → p ∈ dp i → p ≠ i →
  event [KWork i w; KFeed g0] (LinkPred p i w) (λ _ h, h = [KWork i w; KFeed (links g0 i l)]).
Proof.
  intros Hl Hp Hne budget c F (g & ph & Hi). eexists. split; [|done]. destruct (inv_sound _ _ _ _ _ _ (KWork i w) Hi) as [Hn Hw]; [set_solver|].
  apply (inv_drop cfg dp) in Hi; [|done]. change ([KFeed g0] ++ F) with (KFeed g0 :: F) in Hi. destruct (feed_token _ _ _ _ _ Hi) as [-> HF].
  assert (ph i = PLink) as Hphi by (apply (ct_link _ _ _ _ (iv_counted _ _ _ _ _ _ Hi)); eauto).
  pose proof (dep_le i p Hp) as Hle. pose proof (below_opened _ _ _ _ _ _ i Hi Hn) as Hlt.
  assert (ph p ≠ PNew) as Hpn by (rewrite (ct_new _ _ _ _ (iv_counted _ _ _ _ _ _ Hi)); lia).
  cut (inv (links g0 i l) ph (link_pred cfg c p i w).2 (KFeed (links g0 i l) :: F) ∧ nd_worker (node (link_pred cfg c p i w).2 i) = w).
  { intros [Hi' Hw']. exists (links g0 i l), ph. apply inv_learn; [done|by split|done]. }
  unfold link_pred. rewrite (gr_open _ _ _ _ _ (iv_graphed _ _ _ _ _ _ Hi)). destruct (is_open (ph p)) eqn:Eo; cbn [negb].
  - destruct (_ && _) eqn:Ecov; cbn [snd].
    + rewrite !andb_true_iff, negb_true_iff, Nat.eqb_eq in Ecov. destruct Ecov as [[[_ Hb] Hpw] Hq].
      split; [|by rewrite node_set, decide_True]. eapply (inv_link g0 ph c _ _ i p l LCovered F Hi HF Hl); [reflexivity|..].
      * intros j. rewrite node_set. by destruct (decide (j = i)) as [->|].
      * intros j. rewrite node_set, bool_decide_eq_false_2, app_nil_r by (by intros [? _]). by destruct (decide (j = i)) as [->|].
      * intros j. rewrite node_set. destruct (decide (j = i)) as [->|]; [by rewrite bool_decide_eq_true_2|by rewrite bool_decide_eq_false_2, app_nil_r by tauto].
      * rewrite node_set, decide_True, (decide_False (P := LCovered = LEdge)) by done. cbn. lia.
      * intros j Hj. by rewrite node_set, decide_False.
      * split_and!; try done; [congruence|]. by apply (qu_flag _ _ _ _ _ (iv_queued _ _ _ _ _ _ Hi)).
    + set (c1 := set_node i _ c). assert (node c1 p = node c p) as Hnp by (unfold c1; by rewrite node_set, decide_False). rewrite Hnp. set (pn := mkNode _ (_ ++ [i]) _ _ _ _).
      split; [|rewrite node_set, decide_False by done; unfold c1; by rewrite node_set, decide_True].
      pose proof (node_small cfg dp _ _ _ _ i Hi Hn) as Hsm. pose proof (degree_small cfg dp _ _ _ _ i Hi) as Hds. pose proof (opened_max _ _ _ _ _ _ Hi) as Hmax.
      eapply (inv_link g0 ph c (set_node p pn c1) _ i p l LEdge F Hi HF Hl); [reflexivity|..].
      * intros j. rewrite node_set. destruct (decide (j = p)) as [->|]; [done|]. unfold c1. rewrite node_set. by destruct (decide (j = i)) as [->|].
      * intros j. rewrite node_set. destruct (decide (j = p)) as [->|]; [by rewrite bool_decide_eq_true_2|]. unfold c1. rewrite bool_decide_eq_false_2, app_nil_r, node_set by tauto. by destruct (decide (j = i)) as [->|].
      * intros j. rewrite bool_decide_eq_false_2, app_nil_r by (by intros [? _]). rewrite node_set. destruct (decide (j = p)) as [->|]; [done|]. unfold c1. rewrite node_set. by destruct (decide (j = i)) as [->|].
      * rewrite node_set, decide_False by done. unfold c1. rewrite node_set, decide_True by done. cbn. unfold u32_fetch_add. rewrite N.mod_small; [done|].
        rewrite (gr_indegree _ _ _ _ _ (iv_graphed _ _ _ _ _ _ Hi) i Hn). unfold MAX_BLOCK_TXS in Hmax. unfold ind. case_decide; lia.
      * intros j Hj. rewrite node_set. destruct (decide (j = p)) as [->|]; [done|]. unfold c1. by rewrite node_set, decide_False.
      * split; [lia|done].
  - split; [|done]. apply (inv_link g0 ph c c (BlockCtx.nodes c) i p l LNone F Hi HF Hl); [by destruct c|..].
    all: try (intros j; rewrite ?bool_decide_eq_false_2, ?app_nil_r by (by intros [? _])); try done.
    + rewrite decide_False by done. lia.
    + left. destruct (ph p); done.
Qed.

(** The walk passes the transaction itself. *)
Lemma shift_link_self g0 i l w : fa_link g0 = Some (i, i :: l) → shift cfg dp [KWork i w; KFeed g0] [KWork i w; KFeed (links g0 i l)].
Proof.
  intros Hl c F (g & ph & Hi). destruct (inv_sound _ _ _ _ _ _ (KWork i w) Hi) as [Hn Hw]; [set_solver|].
  apply (inv_drop cfg dp) in Hi; [|done]. change ([KFeed g0] ++ F) with (KFeed g0 :: F) in Hi. destruct (feed_token _ _ _ _ _ Hi) as [-> HF].
  exists (links g0 i l), ph. apply inv_learn; [done|by split|]. apply (inv_link g0 ph c c (BlockCtx.nodes c) i i l LNone F Hi HF Hl); [by destruct c|..].
  all: try (intros j; rewrite ?bool_decide_eq_false_2, ?app_nil_r by (by intros [? _])); try done.
  - rewrite decide_False by done. lia.
  - by right.
Qed.
End feed_events.

(** ** The trees of the threads

    What each tree of [StmGraph] does with the tokens of its thread: completion and
    prune, the poll and the completion of a worker, and the drain of the tail
    thread. *)

Section trees.
Context (cfg : PoolConfig) (dp : nat → list nat) `{!Deps dp}.

Abbreviation wp := (wp cfg dp).
Abbreviation event := (event cfg dp).
Abbreviation shift := (shift cfg dp).

(** ** Calls *)

(** A call takes what it needs of the hand. *)
Lemma gwp_call {A B} (t : Tree SchedE A) (f : A → Tree SchedE B) h h0 R Q Q' :
  wp h0 t Q → h ≡ₚ h0 ++ R → (∀ a h', Q a h' → wp (h' ++ R) (f a) Q') → wp h (t ≫= f) Q'.
Proof.
  intros Ht Hp Hf. eapply gwp_shift; [by apply shift_perm|]. eapply gwp_bind; [by apply gwp_frame|]. intros a h' (h'' & -> & HQ). auto.
Qed.

Lemma gwp_step {X B} (e : SchedE X) (f : X → Tree SchedE B) h h0 R Q Q' :
  event h0 e Q → h ≡ₚ h0 ++ R → (∀ x h', Q x h' → wp (h' ++ R) (f x) Q') → wp h (ask e ≫= f) Q'.
Proof. intros He. apply gwp_call. by apply gwp_ask. Qed.

Lemma gwp_out {A} (a : A) h h' (Q : A → list Tok → Prop) : h ≡ₚ h' → Q a h' → wp h (Ret a) Q.
Proof. intros Hp HQ. exists h'. split; [by apply shift_perm|done]. Qed.

Lemma gwp_perm {A} (t : Tree SchedE A) h h' Q : h ≡ₚ h' → wp h' t Q → wp h t Q.
Proof. intros Hp. apply gwp_shift. by apply shift_perm. Qed.

(** The last call of a tree. *)
Lemma gwp_tail {A} (t : Tree SchedE A) h h0 R (Q Q' : A → list Tok → Prop) :
  wp h0 t Q → h ≡ₚ h0 ++ R → (∀ a h', Q a h' → Q' a (h' ++ R)) → wp h t Q'.
Proof.
  intros Ht Hp HQ. eapply gwp_perm; [exact Hp|]. eapply gwp_mono; [|by apply gwp_frame]. intros a h' (h'' & -> & ?). auto.
Qed.

(** A read that tells nothing. *)
Lemma gwp_look {X B} (e : SchedE X) (f : X → Tree SchedE B) h Q : (∀ budget c, (exec cfg budget e c).2 = c) → (∀ x, wp h (f x) Q) → wp h (ask e ≫= f) Q.
Proof. intros He Hf. eapply gwp_event; [by apply ev_read|]. intros x h' ->. apply Hf. Qed.

(** ** Ready transactions *)

(** The hand of a transaction that is to be pushed to the queue of [w]. *)
Definition ready_hand (r : nat * nat) : list Tok := if bag_mode cfg then [KAt PReady r.2] else [KAt PReady r.2; KWork r.2 r.1].
Definition hands (l : list (nat * nat)) : list Tok := l ≫= ready_hand.

Lemma gwp_push_ready w i : wp (ready_hand (w, i)) (push_ready cfg w i) (λ _ h, h = []).
Proof. unfold ready_hand, push_ready. destruct (bag_mode cfg) eqn:Hb; apply gwp_ask; [by apply ev_bag_push|by apply ev_push_back]. Qed.

Lemma gwp_push_all l : wp (hands l) (push_all cfg l) (λ _ h, h = []).
Proof.
  induction l as [|[w i] l IH]; [by apply gwp_ret|]. cbn [push_all]. eapply (gwp_call _ _ _ (ready_hand (w, i)) (hands l)); [apply gwp_push_ready|done|].
  intros _ h ->. apply IH.
Qed.

(** The outcome of [drained] is of no account to its caller. *)
Lemma gwp_checked {B} (t : Tree SchedE B) h Q : wp h t Q → wp h (_ ← drained; t) Q.
Proof.
  intros Ht. eapply (gwp_call _ _ _ [] h); [by apply gwp_drained|done|]. intros d h' ->. destruct d; [|done].
  eapply gwp_shift; [by apply (shift_drop cfg dp KExit)|done].
Qed.

(** ** Prune *)

Section fifo.
Context (Hb : bag_mode cfg = false).

Lemma hands_snoc l w i : hands (l ++ [(w, i)]) ≡ₚ [KAt PReady i; KWork i w] ++ hands l.
Proof. unfold hands. rewrite bind_app. cbn. unfold ready_hand at 2. rewrite Hb. cbn. by rewrite (Permutation_app_comm _ [_; _]). Qed.

Lemma gwp_queue_ready_child i ready : wp (KDec i :: hands ready) (queue_ready_child i ready) (λ r h, h ≡ₚ hands r).
Proof.
  unfold queue_ready_child. eapply (gwp_step _ _ _ [KDec i] (hands ready)); [by apply ev_dec|done|]. intros prev h ->.
  destruct (prev =? 1)%N; cbn [negb]; [|by apply gwp_ret].
  eapply (gwp_step _ _ _ [KAt PReady i] (hands ready)); [by apply ev_load_worker|done|]. intros w h ->.
  apply gwp_ret. rewrite hands_snoc. solve_Permutation.
Qed.

Lemma gwp_queue_ready_children l ready : wp ((KDec <$> l) ++ hands ready) (queue_ready_children l ready) (λ r h, h ≡ₚ hands r).
Proof.
  revert ready. induction l as [|i l IH]; intros ready; [by apply gwp_ret|]. cbn [queue_ready_children].
  eapply (gwp_call _ _ _ (KDec i :: hands ready) (KDec <$> l)); [apply gwp_queue_ready_child|cbn; solve_Permutation|]. intros r h Hh.
  eapply gwp_perm; [|apply IH]. rewrite Hh. solve_Permutation.
Qed.

Lemma gwp_close_jobs jobs ready : wp ((KAt PDrained <$> jobs) ++ hands ready) (close_jobs jobs ready) (λ r h, h ≡ₚ (KAt PShut <$> jobs) ++ hands r).
Proof.
  revert ready. induction jobs as [|j jobs IH]; intros ready; [by apply gwp_ret|]. cbn [close_jobs].
  eapply (gwp_call _ _ _ (KAt PDrained j :: hands ready) (KAt PDrained <$> jobs)) with (Q := λ r h, h ≡ₚ KAt PShut j :: hands r).
  - unfold close_and_collect. eapply (gwp_step _ _ _ [KAt PDrained j] (hands ready)); [by apply ev_close|done|]. intros l h ->.
    eapply (gwp_tail _ _ _ [KAt PShut j]); [apply gwp_queue_ready_children|solve_Permutation|]. intros r h ->. solve_Permutation.
  - cbn. solve_Permutation.
  - intros r h Hh. eapply (gwp_tail _ _ _ [KAt PShut j]); [apply (IH r)|rewrite Hh; solve_Permutation|]. intros r' h' ->. cbn. solve_Permutation.
Qed.

(** The jobs that a drain closed, with the transactions that they released. *)
Lemma gwp_drain_worker w ready : w < pc_workers cfg →
  wp (hands ready) (drain_worker w ready) (λ r h, ∃ jobs, r.1 = length jobs ∧ h ≡ₚ (KAt PShut <$> jobs) ++ hands r.2).
Proof.
  intros Hw. unfold drain_worker. apply gwp_look; [done|]. intros len. destruct (len =? 0); [apply gwp_ret; by exists []|].
  eapply (gwp_step _ _ _ [] (hands ready)); [by apply ev_take_drained|done|]. intros [jobs|] h ->; [|apply gwp_ret; by exists []].
  eapply gwp_bind; [apply gwp_close_jobs|]. intros r h Hh. apply gwp_ret. by exists jobs.
Qed.

Lemma gwp_drain_workers ws jobs ready : (∀ w, w ∈ ws → w < pc_workers cfg) →
  wp ((KAt PShut <$> jobs) ++ hands ready) (drain_workers ws (length jobs) ready) (λ r h, ∃ jobs, r.1 = length jobs ∧ h ≡ₚ (KAt PShut <$> jobs) ++ hands r.2).
Proof.
  revert jobs ready. induction ws as [|w ws IH]; intros jobs ready Hws; [apply gwp_ret; by exists jobs|]. cbn [drain_workers].
  eapply (gwp_call _ _ _ (hands ready) (KAt PShut <$> jobs)); [apply gwp_drain_worker; set_solver|solve_Permutation|]. intros r h (jobs' & Hr & Hh).
  rewrite Hr, <-length_app. eapply gwp_perm; [|apply IH; set_solver]. rewrite Hh, fmap_app. solve_Permutation.
Qed.

Lemma gwp_prune : wp [] (prune cfg) (λ _ h, h = []).
Proof.
  unfold prune. eapply gwp_bind; [apply (gwp_drain_workers _ [] []); intros w ?%elem_of_seq; lia|]. intros [applied ready] h (jobs & Hr & Hh). cbn in Hr, Hh. subst applied.
  eapply (gwp_call _ _ _ (KAt PShut <$> jobs) (hands ready)) with (Q := λ _ h, h = []).
  - destruct jobs as [|j jobs]; [by apply gwp_ret|]. set (l := j :: jobs). change (0 <? length l) with true. cbn [andb].
    eapply gwp_event; [by apply (ev_sub_pending cfg dp l)|]. intros _ h' [-> Hl]. destruct (Nat.ltb_spec MAX_BLOCK_TXS (length l)) as [|_]; [lia|].
    apply gwp_ask. apply ev_add_finished, _.
  - done.
  - intros _ h' ->. eapply gwp_bind; [apply gwp_push_all|]. intros _ h' ->. by apply gwp_checked, gwp_ret.
Qed.
End fifo.

(** In bag mode nothing is owed. *)
Lemma ev_load_pending : event [] LoadPending (λ p h, h = [] ∧ (bag_mode cfg = true → p = 0%N)).
Proof.
  intros budget c F (g & ph & Hi). exists []. split; [by exists g, ph|]. split; [done|]. intros Hb. cbn. rewrite (ct_pending _ _ _ _ (iv_counted _ _ _ _ _ _ Hi)).
  replace (total _ _) with 0; [done|]. symmetry. apply total_zero. intros i _. apply ind_false. pose proof (at_mode _ _ _ _ (iv_places _ _ _ _ _ _ Hi) i) as Hm.
  rewrite Hb in Hm. by destruct (ph i).
Qed.

Lemma gwp_apply_pending : wp [] (apply_pending cfg) (λ _ h, h = []).
Proof.
  unfold apply_pending. eapply gwp_event; [apply ev_load_pending|]. intros p h [-> Hp]. destruct (N.ltb_spec 0 p) as [Hlt|]; [|by apply gwp_ret].
  destruct (bag_mode cfg) eqn:Hb; [rewrite Hp in Hlt by done; lia|]. eapply gwp_bind; [by apply gwp_prune|]. intros _ h ->. by apply gwp_ret.
Qed.

(** ** Completion in place *)

Lemma ready_push_perm b i : ready_drain (ready_push b i) ≡ₚ i :: ready_drain b.
Proof. unfold ready_drain, ready_push. destruct (_ <? _); cbn [rb_buf rb_spill]; solve_Permutation. Qed.

Lemma gwp_collect_all l b : wp ((KDec <$> l) ++ (KAt PReady <$> ready_drain b)) (collect_all l b) (λ r h, h ≡ₚ KAt PReady <$> ready_drain r).
Proof.
  revert b. induction l as [|i l IH]; intros b; [by apply gwp_ret|]. cbn [collect_all].
  eapply (gwp_call _ _ _ [KDec i] ((KDec <$> l) ++ (KAt PReady <$> ready_drain b))) with (Q := λ r h, h = KAt PReady <$> option_list r); [|done|].
  - unfold collect_if_ready. eapply gwp_event; [by apply ev_dec|]. intros prev h ->. apply gwp_ret. by destruct (prev =? 1)%N.
  - intros r h ->. eapply gwp_perm; [|apply IH]. destruct r; [rewrite ready_push_perm|]; cbn; solve_Permutation.
Qed.

Definition next_hand (ln : option nat) : list Tok := KAt PRun <$> option_list ln.

Lemma gwp_complete_inline i : bag_mode cfg = true → wp [KAt PRan i] (complete_inline cfg i) (λ r h, h = next_hand r).
Proof.
  intros Hb. unfold complete_inline. eapply gwp_event; [by apply ev_close_inline|]. intros l h ->.
  eapply (gwp_call _ _ _ ((KDec <$> l) ++ (KAt PReady <$> ready_drain (mkReady [] []))) [KAt PFin i]); [apply gwp_collect_all|cbn; solve_Permutation|]. intros b h1 Hh.
  eapply (gwp_step _ _ _ (KAt PFin <$> [i]) (KAt PReady <$> ready_drain b)); [apply (ev_add_finished cfg dp [i])|rewrite Hh; cbn; solve_Permutation|]. intros _ h2 ->.
  destruct (ready_drain b) as [|keep rest]; [by apply gwp_checked, gwp_ret|]. cbn [app fmap list_fmap].
  eapply (gwp_call _ _ _ (hands ((λ c, (0, c)) <$> rest)) [KAt PReady keep]); [apply gwp_push_all| |].
  - rewrite Permutation_app_comm. cbn. f_equiv. unfold hands. clear -Hb. induction rest as [|i rest IH]; cbn; [done|]. unfold ready_hand at 1. by rewrite Hb, IH.
  - intros _ h3 ->. cbn [app]. apply gwp_checked. exists [KAt PRun keep]. split; [by apply shift_keep|done].
Qed.

(** ** Workers *)

Lemma gwp_load_lens thief ws : wp [] (load_lens thief ws) (λ _ h, h = []).
Proof.
  induction ws as [|w ws IH]; [by apply gwp_ret|]. cbn [load_lens]. destruct (w =? thief); [done|]. apply gwp_look; [done|]. intros len.
  eapply gwp_bind; [exact IH|]. intros l h ->. by apply gwp_ret.
Qed.

Lemma gwp_try_steal w : wp [] (try_steal cfg w) (λ r h, h = next_hand r).
Proof.
  unfold try_steal. destruct (steal_enabled cfg); [|by apply gwp_ret]. unfold steal. eapply gwp_bind; [apply gwp_load_lens|]. intros lens h ->.
  destruct (best_victim lens None) as [[v len]|]; [|by apply gwp_ret]. apply gwp_ask. eapply event_mono; [apply ev_steal_back, _|]. by intros [i|] h ->.
Qed.

Lemma gwp_queue_has_work w h : wp h (queue_has_work cfg w) (λ _ h', h' = h).
Proof.
  unfold queue_has_work. apply gwp_look; [done|]. intros len. destruct (0 <? len); [by apply gwp_ret|]. destruct (bag_mode cfg); [|by apply gwp_ret].
  apply gwp_look; [done|]. intros e. by apply gwp_ret.
Qed.

Lemma ev_load_aborted : event [] LoadAborted (λ a h, h = if a then [KExit] else []).
Proof.
  eapply event_mono; [apply (ev_learn cfg dp LoadAborted [] (λ a, if a : bool then [KExit] else [])); [done|]|intros a h ->; by rewrite app_nil_r].
  intros budget g ph c F Hi t. cbn. destruct (BlockCtx.aborted c) eqn:Ea; [|set_solver]. intros ->%list_elem_of_singleton. split; [done|]. by left.
Qed.

Lemma gwp_spin polls w : wp [] (spin cfg polls w) (λ _ h, h = []).
Proof.
  induction polls as [|polls IH]; [by apply gwp_ret|]. cbn [spin]. eapply gwp_bind with (Q := λ _ h, h = []); [|intros [found|] h ->; [by apply gwp_ret|done]].
  unfold spin_poll. eapply gwp_bind; [apply gwp_queue_has_work|]. intros work h ->. destruct work; [by apply gwp_ret|].
  eapply gwp_bind; [apply gwp_apply_pending|]. intros applied h ->. destruct applied; [by apply gwp_ret|].
  eapply gwp_bind; [by apply gwp_drained|]. intros d h ->. destruct d; [exists []; split; [by apply shift_drop|done]|].
  eapply gwp_event; [apply ev_load_aborted|]. intros a h ->. exists []. split; [|done]. destruct a; [by apply shift_drop|apply shift_refl].
Qed.

Lemma gwp_spin_or_park w : wp [] (spin_or_park cfg w) (λ _ h, h = []).
Proof.
  unfold spin_or_park, park. apply gwp_look; [done|]. intros polls. eapply gwp_bind; [apply gwp_spin|]. intros found h ->.
  destruct found; [by apply gwp_ret|]. eapply gwp_bind; [apply gwp_queue_has_work|]. intros work h ->. by apply gwp_ret.
Qed.

Definition pop_hand (p : Pop) : list Tok := match p with PopReady i => [KAt PRun i] | _ => [] end.

(** A worker keeps a transaction for itself in bag mode only. *)
Definition own (ln : option nat) : Prop := bag_mode cfg = false → ln = None.

Lemma gwp_initial_poll w ln : own ln → wp (KOwner w :: next_hand ln) (initial_poll cfg w ln)
  (λ r h, h ≡ₚ pop_hand r.1 ++ KOwner w :: next_hand r.2 ∧ r.2 = None).
Proof.
  intros Hown. unfold initial_poll. destruct (bag_mode cfg) eqn:Hb.
  - destruct ln as [i|]; [by apply gwp_ret; split; [cbn; solve_Permutation|]|].
    eapply (gwp_step _ _ _ [] [KOwner w]); [by apply ev_bag_pop|done|]. intros r h ->. apply gwp_ret. by destruct r.
  - rewrite (Hown Hb). eapply (gwp_step _ _ _ [KOwner w] []); [by apply ev_pop_front|done|]. intros [i|] h ->; [|by apply gwp_ret].
    eapply (gwp_step _ _ _ [KWork i w; KAt PPop i] []); [by apply ev_fifo_ready|done|]. intros ready h ->.
    destruct ready; [by apply gwp_ret|]. eapply (gwp_step _ _ _ [KWork i w; KAt PPop i] []); [by apply ev_push_front|done|].
    intros _ h ->. by apply gwp_ret.
Qed.

(** What a worker holds after a poll. *)
Definition poll_hand (w : nat) (r : JobPoll * option nat) : list Tok :=
  match r.1 with PollReady i => [KAt PRun i] | PollDone => [KExit] | PollRetry => [] end ++ KOwner w :: next_hand r.2.

Lemma gwp_poll_once w ln : own ln → wp (KOwner w :: next_hand ln) (poll_once cfg w ln)
  (λ r h, h ≡ₚ poll_hand w r ∧ own r.2 ∧ ∀ i, r.1 = PollReady i → r.2 = None).
Proof.
  intros Hown. unfold poll_once. eapply (gwp_step _ _ _ [] (KOwner w :: next_hand ln)); [apply ev_load_aborted|done|]. intros a h ->.
  destruct a; [by apply gwp_ret|]. eapply gwp_bind; [by apply gwp_initial_poll|]. intros [pop ln'] h [Hh Hln]. cbn in Hh, Hln. subst ln'.
  destruct pop as [i| |]; [by apply gwp_ret|by apply gwp_ret|]. eapply gwp_perm; [exact Hh|]. cbn [pop_hand app]. set (R := KOwner w :: next_hand None).
  eapply (gwp_call _ _ _ [] R); [apply gwp_apply_pending|done|]. intros applied h' ->. destruct applied; [by apply gwp_ret|].
  eapply (gwp_call _ _ _ [] R); [by apply gwp_drained|done|]. intros d h' ->. destruct d; [by apply gwp_ret|].
  eapply (gwp_call _ _ _ [] R); [apply gwp_try_steal|done|]. intros stolen h' ->. destruct stolen as [i|]; [by apply gwp_ret|].
  eapply gwp_bind; [apply gwp_queue_has_work|]. intros work h' ->. destruct work; [by apply gwp_ret|].
  eapply (gwp_call _ _ _ [] R); [apply gwp_spin_or_park|done|]. intros _ h' ->. by apply gwp_ret.
Qed.

Lemma gwp_complete_job w i : w < pc_workers cfg →
  wp [KAt PRan i; KOwner w] (complete_job cfg w i None) (λ r h, h ≡ₚ KOwner w :: next_hand r ∧ own r).
Proof.
  intros Hw. unfold complete_job, own. destruct (bag_mode cfg) eqn:Hb.
  - eapply (gwp_tail _ _ _ [KOwner w]); [by apply gwp_complete_inline|done|]. intros r h ->. split; [solve_Permutation|done].
  - eapply (gwp_step _ _ _ [KAt PRan i] [KOwner w]); [by apply ev_add_pending|done|]. intros owed h ->.
    eapply (gwp_step _ _ _ [KAt POwed i] [KOwner w]); [by apply ev_completed_push|done|]. intros _ h ->.
    eapply (gwp_call _ _ _ [] [KOwner w]) with (Q := λ _ h, h = []); [|done|intros _ h ->; by apply gwp_ret].
    destruct (_ <=? _)%N; [|by apply gwp_ret]. eapply gwp_bind; [by apply gwp_prune|]. intros _ h ->. by apply gwp_ret.
Qed.

(** A worker that leaves a block that failed keeps what it held. *)
Lemma gwp_finish_job w i r : w < pc_workers cfg → wp [KAt PRun i; KOwner w] (finish_job cfg w i r None)
  (λ x h, match x with Some ln => h ≡ₚ KOwner w :: next_hand ln ∧ own ln | None => KExit ∈ h end).
Proof.
  intros Hw. unfold finish_job. eapply gwp_bind with (Q := λ go h, if go : bool then h = [KAt PRan i; KOwner w] else KExit ∈ h).
  - unfold record_result. eapply (gwp_step _ _ _ [KAt PRun i] [KOwner w]); [by apply ev_set_result|done|]. intros _ h ->.
    destruct r; [by apply gwp_ret|]. eapply gwp_event; [by apply ev_set_aborted|]. intros _ h ->. apply gwp_ret. set_solver.
  - intros go h. destruct go; [intros ->|intros Hx; by apply gwp_ret]. eapply gwp_bind; [by apply gwp_complete_job|]. intros ln' h Hh. by apply gwp_ret.
Qed.

(** ** The tail thread *)

Lemma gwp_drain_step : wp [] (drain_step cfg) (λ out h, h = if out then [KExit] else []).
Proof.
  unfold drain_step. eapply gwp_event; [apply ev_load_aborted|]. intros a h ->. destruct a; [by apply gwp_ret|].
  eapply gwp_bind; [by apply gwp_drained|]. intros d h ->. destruct d; [by apply gwp_ret|]. eapply gwp_bind; [apply gwp_apply_pending|]. intros _ h ->. by apply gwp_ret.
Qed.
End trees.
