(* ===== verification/StmPlan.v ===== *)
(** * The plan of a block

    The candidates that the feed links for each transaction ([session.rs],
    [predecessor.rs]) depend on the preparations alone: the plan lists them before
    the block runs. Transactions that share a cell, and those on the two sides of a
    barrier, are ordered by the edges of the plan. The admission of a whole block
    links each transaction to its candidates and keeps the invariant. *)
From S2P Require Import Prelude Bytes Types Fees WriteSet Effects ExecScope StmMv StmView StmWorker StmTouch StmPredict StmGraph StmGraphInv StmGraphStep.
From S2P Require Import StmGraphQueue StmGraphTree.

(** ** Sorted candidates *)

Lemma dedup_cons {A} `{EqDecision A} (x y : A) l : dedup (x :: y :: l) = if decide (x = y) then dedup (y :: l) else x :: dedup (y :: l).
Proof. done. Qed.

Lemma elem_of_dedup {A} `{EqDecision A} (x : A) l : x ∈ dedup l ↔ x ∈ l.
Proof.
  induction l as [|y l IH]; [done|]. destruct l as [|z l]; [done|]. rewrite dedup_cons. destruct (decide (y = z)) as [->|]; [|by rewrite !(elem_of_cons _ x y), IH].
  rewrite IH. rewrite !elem_of_cons. tauto.
Qed.

Lemma dedup_NoDup (l : list nat) : StronglySorted le l → NoDup (dedup l).
Proof.
  induction 1 as [|x l Hs IH Hx]; [constructor|]. destruct l as [|y l]; [apply NoDup_singleton|]. rewrite dedup_cons. destruct (decide (x = y)) as [->|Hne]; [done|].
  constructor; [|done]. rewrite elem_of_dedup. intros Hin. rewrite Forall_forall in Hx. pose proof (Hx y ltac:(set_solver)).
  apply elem_of_cons in Hin as [?|Hin]; [done|]. apply StronglySorted_inv in Hs as [_ Hs]. rewrite Forall_forall in Hs. specialize (Hs x Hin). lia.
Qed.

Lemma elem_of_sorted (x : nat) l : x ∈ dedup (merge_sort le l) ↔ x ∈ l.
Proof. by rewrite elem_of_dedup, merge_sort_Permutation. Qed.

(** Different numbers up to [n] are at most [n + 1]. *)
Lemma NoDup_bound (l : list nat) n : NoDup l → (∀ x, x ∈ l → x ≤ n) → length l ≤ S n.
Proof.
  intros Hl Hn. rewrite <-(length_seq (S n) 0). apply submseteq_length, NoDup_submseteq; [done|]. intros x Hx%Hn. apply elem_of_seq. lia.
Qed.

(** ** The plan *)

(** What [candidates] reads of a session. *)
Definition at_feed (barrier : option nat) (touch : TouchTable.t) : Session := mkSession 0 0 0 barrier [] touch ∅ [].

Fixpoint plan (barrier : option nat) (touch : TouchTable.t) (idx : nat) (l : list Prepared) : list (list nat) :=
  match l with
  | [] => []
  | p :: l =>
    match candidates (at_feed barrier touch) idx (cold p) (domain_hashes p) with
    | None => []
    | Some (preds, barrier, touch) => preds :: plan barrier touch (S idx) l
    end
  end.

Definition block_plan (touch : TouchTable.t) (l : list Prepared) : list (list nat) := plan None (TouchTable.clear touch) 0 l.

Definition deps_of (p : list (list nat)) (i : nat) : list nat := default [] (p !! i).

Lemma candidates_at s idx is_cold hashes : candidates s idx is_cold hashes = candidates (at_feed (ss_last_barrier s) (ss_touch s)) idx is_cold hashes.
Proof. done. Qed.

Lemma touch_all_spec touch m hashes idx preds preds' touch' : TouchTable.rep touch m → touch_all touch hashes idx preds = Some (preds', touch') →
  ∃ m', TouchTable.rep touch' m' ∧ (∀ h, m' !! h = if decide (h ∈ hashes) then Some idx else m !! h) ∧
    (∀ p, p ∈ preds → p ∈ preds') ∧ (∀ h p, h ∈ hashes → m !! h = Some p → p ∈ preds') ∧
    (∀ p, p ∈ preds' → p ∈ preds ∨ p = idx ∨ ∃ h, m !! h = Some p).
Proof.
  revert touch m preds. induction hashes as [|h hashes IH]; intros touch m preds Hr Ht.
  - simplify_eq/=. exists m. split_and!; [done|done|done|set_solver|auto].
  - cbn in Ht. apply bind_Some in Ht as ([r tb] & Hu & Ht). cbn in Ht. destruct (TouchTable.upsert_rep_inv _ _ _ _ _ _ Hr Hu) as [-> Hr'].
    destruct (IH _ _ _ Hr' Ht) as (m' & Hm & Hget & H1 & H2 & H3). exists m'. split_and!; [done|..].
    + intros h'. rewrite Hget. destruct (decide (h' = h)) as [->|Hne]; [rewrite lookup_insert_eq, (decide_True (P := h ∈ h :: hashes)) by set_solver; by destruct (decide _)|].
      rewrite lookup_insert_ne by done. destruct (decide (h' ∈ hashes)); [by rewrite decide_True by set_solver|by rewrite decide_False by set_solver].
    + intros p Hp. apply H1. destruct (m !! h); set_solver.
    + intros h' p Hh' Hp. destruct (decide (h' = h)) as [->|Hne]; [apply H1; rewrite Hp; set_solver|]. apply (H2 h'); [set_solver|by rewrite lookup_insert_ne].
    + intros p [Hp|[->|[h' Hp]]]%H3; [|by auto|].
      * destruct (m !! h) as [q|] eqn:Eq; [|by auto]. apply elem_of_app in Hp as [?| ->%list_elem_of_singleton]; [by auto|]. eauto.
      * destruct (decide (h' = h)) as [->|Hne]; [rewrite lookup_insert_eq in Hp; simplify_eq; auto|]. rewrite lookup_insert_ne in Hp by done. eauto.
Qed.

(** The candidates of one transaction. *)
Lemma candidates_spec barrier touch m idx p preds barrier' touch' : TouchTable.rep touch m →
  candidates (at_feed barrier touch) idx (cold p) (domain_hashes p) = Some (preds, barrier', touch') →
  if cold p then preds = seq 0 idx ∧ barrier' = Some idx ∧ TouchTable.rep touch' ∅
  else barrier' = barrier ∧ NoDup preds ∧ ∃ m', TouchTable.rep touch' m' ∧ (∀ h, m' !! h = if decide (h ∈ domain_hashes p) then Some idx else m !! h) ∧
    (∀ b, barrier = Some b → b ∈ preds) ∧ (∀ h q, h ∈ domain_hashes p → m !! h = Some q → q ∈ preds) ∧
    (∀ q, q ∈ preds → barrier = Some q ∨ q = idx ∨ ∃ h, m !! h = Some q).
Proof.
  intros Hr Hc. unfold candidates, collect_hash_preds in Hc. destruct (cold p).
  - simplify_eq/=. split_and!; [done..|]. apply TouchTable.clear_rep, Hr.
  - cbn in Hc. apply bind_Some in Hc as ([l tb] & Ht & [= <- <- <-]). apply bind_Some in Ht as ([l' tb'] & Ht & [= <- <-]). cbn in *.
    destruct (touch_all_spec _ _ _ _ _ _ _ Hr Ht) as (m' & Hm & Hget & H1 & H2 & H3). split; [done|]. split; [apply dedup_NoDup, (StronglySorted_merge_sort le)|].
    exists m'. split_and!; [done|done|..].
    + intros b ->. apply elem_of_sorted, H1. set_solver.
    + intros h q Hh Hq. apply elem_of_sorted. eauto.
    + intros q [Hq|?]%elem_of_sorted%H3; [|by auto]. destruct barrier; cbn in Hq; [apply list_elem_of_singleton in Hq as ->; by left|set_solver].
Qed.

(** ** The candidates come first *)

Lemma plan_bounds barrier touch m idx l : TouchTable.rep touch m → (∀ h p, m !! h = Some p → p < idx) → (∀ b, barrier = Some b → b < idx) →
  ∀ k preds, plan barrier touch idx l !! k = Some preds → (∀ p, p ∈ preds → p ≤ idx + k) ∧ length preds ≤ S (idx + k).
Proof.
  revert barrier touch m idx. induction l as [|p l IH]; intros barrier touch m idx Hr Hm Hb k preds Hk; [done|]. cbn [plan] in Hk.
  destruct (candidates _ _ _ _) as [[[preds0 barrier'] touch']|] eqn:Ec; [|done]. pose proof (candidates_spec _ _ _ _ _ _ _ _ Hr Ec) as Hs. destruct (cold p).
  - destruct Hs as (-> & -> & Hr'). destruct k as [|k]; cbn in Hk.
    + simplify_eq. rewrite length_seq. split; [intros q ?%elem_of_seq; lia|lia].
    + rewrite <-Nat.add_succ_comm. eapply (IH _ _ _ (S idx) Hr'); [done| |done]. intros b [= <-]. lia.
  - destruct Hs as (-> & Hnd & m' & Hr' & Hget & _ & _ & H3). assert (∀ q, q ∈ preds0 → q ≤ idx) as Hle.
    { intros q [Hq|[->|[h Hq]]]%H3; [|lia|]; [apply Hb in Hq; lia|apply Hm in Hq; lia]. }
    destruct k as [|k]; cbn in Hk.
    + simplify_eq. rewrite Nat.add_0_r. split; [done|]. by apply NoDup_bound.
    + rewrite <-Nat.add_succ_comm. eapply (IH _ _ _ (S idx) Hr'); [| |done].
      * intros h q. rewrite Hget. case_decide; [intros [= <-]; lia|intros ?%Hm; lia].
      * intros b ?%Hb. lia.
Qed.

Lemma plan_deps touch l : TouchTable.wf touch → Deps (deps_of (block_plan touch l)).
Proof.
  intros Hwf. pose proof (plan_bounds None (TouchTable.clear touch) ∅ 0 l (TouchTable.clear_rep _ Hwf) ltac:(done) ltac:(done)) as Hp.
  split; intros i; unfold deps_of, block_plan; destruct (plan _ _ _ _ !! i) as [preds|] eqn:Ei; cbn; try lia; try set_solver; destruct (Hp i preds Ei); auto.
Qed.

(** ** Cells that fit *)

(** The cells that a block predicts. *)
Definition block_cells (l : list Prepared) : gset N := list_to_set (l ≫= domain_hashes).

Lemma touch_all_fits (X : gset N) touch m hashes idx preds : TouchTable.rep touch m → dom m ⊆ X → list_to_set hashes ⊆ X →
  size X ≤ length (TouchTable.slots touch) →
  ∃ preds' touch' m', touch_all touch hashes idx preds = Some (preds', touch') ∧ TouchTable.rep touch' m' ∧ dom m' ⊆ X ∧
    length (TouchTable.slots touch') = length (TouchTable.slots touch).
Proof.
  revert touch m preds. induction hashes as [|h hashes IH]; intros touch m preds Hr Hm Hh Hs; [by exists preds, touch, m|].
  cbn [list_to_set foldr] in Hh. destruct (TouchTable.upsert_rep touch m h idx Hr) as (tb & Hu & Hr' & Hl).
  { destruct (m !! h) eqn:E; [by right; eauto|left]. apply not_elem_of_dom in E.
    assert (size ({[ h ]} ∪ dom m : gset N) ≤ size X) as Hle by (apply subseteq_size; set_solver).
    rewrite size_union, size_singleton, size_dom in Hle by set_solver. lia. }
  destruct (IH tb (<[h := idx]> m) (match m !! h with Some p => preds ++ [p] | None => preds end) Hr') as (preds' & touch' & m' & Ht & H1 & H2 & H3);
    [rewrite dom_insert_L; set_solver|set_solver|by rewrite Hl|].
  exists preds', touch', m'. split; [|split_and!; [done|done|congruence]]. cbn. by rewrite Hu.
Qed.

Lemma plan_fits (X : gset N) barrier touch m idx l : TouchTable.rep touch m → dom m ⊆ X → block_cells l ⊆ X →
  size X ≤ length (TouchTable.slots touch) → length (plan barrier touch idx l) = length l.
Proof.
  revert barrier touch m idx. induction l as [|p l IH]; intros barrier touch m idx Hr Hm Hc Hs; [done|]. cbn [plan].
  unfold block_cells in Hc. cbn [mbind list_bind] in Hc. rewrite list_to_set_app_L in Hc. unfold candidates, collect_hash_preds. destruct (cold p).
  - cbn [length]. f_equal. eapply (IH _ _ ∅); [apply TouchTable.clear_rep, Hr|set_solver|unfold block_cells; set_solver|by rewrite TouchTable.clear_length].
  - cbn [ss_touch ss_last_barrier at_feed]. destruct (touch_all_fits X touch m (domain_hashes p) idx (option_list barrier) Hr Hm) as (preds & touch' & m' & -> & H1 & H2 & H3); [set_solver|done|].
    cbn. f_equal. eapply (IH _ _ m'); [done|done|unfold block_cells; set_solver|by rewrite H3].
Qed.

(** When the predicted cells fit the toucher index, the feed takes the whole block. *)
Lemma block_plan_fits touch l : TouchTable.wf touch → size (block_cells l) ≤ length (TouchTable.slots touch) → length (block_plan touch l) = length l.
Proof.
  intros Hwf Hs. eapply (plan_fits (block_cells l) None _ ∅); [by apply TouchTable.clear_rep|set_solver|done|by rewrite TouchTable.clear_length].
Qed.

(** ** Conflicts are ordered *)

Definition edge (dp : nat → list nat) (j i : nat) : Prop := j ∈ dp i ∧ j ≠ i.

(** Two transactions of the block with a common cell, or one of them cold. *)
Definition conflict (preps : list Prepared) (j i : nat) : Prop :=
  ∃ pj pi, preps !! j = Some pj ∧ preps !! i = Some pi ∧ (cold pj = true ∨ cold pi = true ∨ ∃ h, h ∈ domain_hashes pj ∧ h ∈ domain_hashes pi).

Section order.
Context (preps : list Prepared) (dp : nat → list nat).

(** What the barrier and the toucher index remember of the transactions before [idx]. *)
Record history (idx : nat) (barrier : option nat) (m : gmap N nat) : Prop := {
  hi_below : ∀ h p, m !! h = Some p → p < idx;
  hi_barrier : ∀ b, barrier = Some b → b < idx ∧ ∀ j, j < b → edge dp j b;
  hi_cold : ∀ j p, j < idx → preps !! j = Some p → cold p = true → ∃ b, barrier = Some b ∧ j ≤ b;
  hi_touched : ∀ j p h, j < idx → preps !! j = Some p → h ∈ domain_hashes p → (∀ b, barrier = Some b → b < j) → ∃ q, m !! h = Some q ∧ rtc (edge dp) j q;
}.

(** A transaction that the history reaches waits for what it conflicts with. *)
Lemma history_order idx barrier m p j : history idx barrier m → preps !! idx = Some p → j < idx → conflict preps j idx →
  (if cold p then dp idx = seq 0 idx else (∀ b, barrier = Some b → b ∈ dp idx) ∧ ∀ h q, h ∈ domain_hashes p → m !! h = Some q → q ∈ dp idx) → tc (edge dp) j idx.
Proof.
  intros [Hbe Hba Hco Hto] Hp Hj (pj & pi & Hpj & Hpi & Hc) Hdp. simplify_eq. destruct (cold p) eqn:Ecold.
  - apply tc_once. split; [rewrite Hdp; apply elem_of_seq; lia|lia].
  - destruct Hdp as [Hb Hh]. assert (∀ b, barrier = Some b → j ≤ b → tc (edge dp) j idx) as Hbar.
    { intros b Eb Hle. destruct (Hba b Eb) as [Hlt Hedges]. assert (edge dp b idx) as He by (split; [auto|lia]).
      destruct (decide (j = b)) as [->|]; [by apply tc_once|]. eapply tc_l; [apply Hedges; lia|by apply tc_once]. }
    destruct Hc as [Hc|[?|(h & Hhj & Hhi)]]; [|done|].
    + destruct (Hco j pj Hj Hpj Hc) as (b & Eb & Hle). eauto.
    + assert ((∃ b, barrier = Some b ∧ j ≤ b) ∨ ∀ b, barrier = Some b → b < j) as [(b & Eb & Hle)|Hn]; [|by eauto|].
      { destruct barrier as [b|]; [|by right]. destruct (decide (j ≤ b)); [left; eauto|right; intros ? [= <-]; lia]. }
      destruct (Hto j pj h Hj Hpj Hhj Hn) as (q & Hq & Hr).
      eapply tc_rtc_l; [exact Hr|]. apply tc_once. split; [eauto|]. apply Hbe in Hq. lia.
Qed.

(** The history goes on with the next transaction. *)
Lemma history_cold idx barrier m p : history idx barrier m → preps !! idx = Some p → dp idx = seq 0 idx → history (S idx) (Some idx) ∅.
Proof.
  intros [Hbe Hba Hco Hto] Hp Hdp. split; [done|..].
  - intros b [= <-]. split; [lia|]. intros j Hj. split; [rewrite Hdp; apply elem_of_seq; lia|lia].
  - intros j q Hj _ _. exists idx. split; [done|lia].
  - intros j q h Hj _ _ Hlt. specialize (Hlt idx eq_refl). lia.
Qed.

Lemma history_warm idx barrier m m' p : history idx barrier m → preps !! idx = Some p → cold p = false →
  (∀ h q, h ∈ domain_hashes p → m !! h = Some q → q ∈ dp idx) → (∀ h, m' !! h = if decide (h ∈ domain_hashes p) then Some idx else m !! h) → history (S idx) barrier m'.
Proof.
  intros [Hbe Hba Hco Hto] Hp Hc Hdp Hget. split.
  - intros h q. rewrite Hget. case_decide; [intros [= <-]; lia|intros ?%Hbe; lia].
  - intros b Hb. destruct (Hba b Hb). split; [lia|done].
  - intros j q Hj Hq Hcq. destruct (decide (j = idx)) as [->|]; [congruence|]. apply (Hco j q); [lia|done..].
  - intros j q h Hj Hq Hh Hb. rewrite Hget. destruct (decide (j = idx)) as [->|Hne].
    + simplify_eq. rewrite decide_True by done. eauto using rtc_refl.
    + destruct (Hto j q h) as (x & Hx & Hr); [lia|done..|]. case_decide as Hin; [|by eauto]. exists idx. split; [done|].
      eapply rtc_r; [exact Hr|]. split; [by eapply Hdp|]. apply Hbe in Hx. lia.
Qed.

Lemma plan_order idx barrier touch m l : TouchTable.rep touch m → history idx barrier m → drop idx preps = l →
  (∀ k preds, plan barrier touch idx l !! k = Some preds → dp (idx + k) = preds) →
  ∀ k j, k < length (plan barrier touch idx l) → j < idx + k → conflict preps j (idx + k) → tc (edge dp) j (idx + k).
Proof.
  revert idx barrier touch m. induction l as [|p l IH]; intros idx barrier touch m Hr Hhi Hl Hdp k j Hk Hj Hc; [cbn in Hk; lia|].
  assert (preps !! idx = Some p ∧ drop (S idx) preps = l) as [Hp Hl'].
  { split; [by rewrite <-(Nat.add_0_r idx), <-lookup_drop, Hl|]. rewrite <-Nat.add_1_r, <-drop_drop, Hl. done. }
  cbn [plan] in Hdp, Hk. destruct (candidates _ _ _ _) as [[[preds0 barrier'] touch']|] eqn:Ec; [|cbn in Hk; lia].
  pose proof (candidates_spec _ _ _ _ _ _ _ _ Hr Ec) as Hs. pose proof (Hdp 0 preds0 eq_refl) as Hd0. rewrite Nat.add_0_r in Hd0.
  assert (∃ m', TouchTable.rep touch' m' ∧ history (S idx) barrier' m') as (m' & Hr' & Hhi').
  { destruct (cold p) eqn:Ep.
    - destruct Hs as (-> & -> & Hr'). exists ∅. split; [done|]. by eapply history_cold.
    - destruct Hs as (-> & _ & m' & Hr' & Hget & _ & H2 & _). exists m'. split; [done|]. eapply history_warm; [done..|by rewrite Hd0|done]. }
  destruct k as [|k].
  - rewrite Nat.add_0_r in *. eapply history_order; [done..|]. destruct (cold p); [by destruct Hs as (-> & _)|]. destruct Hs as (-> & _ & m2 & _ & _ & H1 & H2 & _). by rewrite Hd0.
  - cbn in Hk. rewrite <-Nat.add_succ_comm in *. apply (IH (S idx) barrier' touch' m'); try done; [|lia]. intros k' preds Hk'. rewrite Nat.add_succ_comm. by apply Hdp.
Qed.
End order.

(** Conflicting transactions are ordered by the edges of the plan. *)
Lemma block_plan_order touch preps j i : TouchTable.wf touch → i < length (block_plan touch preps) → j < i → conflict preps j i →
  tc (edge (deps_of (block_plan touch preps))) j i.
Proof.
  intros Hwf Hi Hj Hc. apply (plan_order preps (deps_of (block_plan touch preps)) 0 None (TouchTable.clear touch) ∅ preps (TouchTable.clear_rep _ Hwf)); try done.
  - split; try done; intros; lia.
  - intros k preds Hk. unfold deps_of, block_plan. cbn. by rewrite Hk.
Qed.

(** ** The feed of a block

    The admission of a whole block against the invariant of the scheduler: each
    transaction is linked to the candidates of the plan, and goes to a worker of the
    pool. *)

Section feed.
Context (cfg : PoolConfig) (Hworkers : 0 < pc_workers cfg).

(** ** Workers *)

(** The assignments name workers of the pool. *)
Record assigned (s : Session) : Prop := {
  as_assign : ∀ k w, ss_assign s !! k = Some w → w < pc_workers cfg;
  as_load : length (ss_assign_load s) = pc_workers cfg;
}.

Lemma least_from_lt i l best : (∀ w x, best = Some (w, x) → w < i + length l) →
  ∀ w x, least_from i l best = Some (w, x) → w < i + length l.
Proof.
  revert i best. induction l as [|y l IH]; intros i best Hb w x Hw; cbn in *; [by eapply Hb|]. rewrite <-Nat.add_succ_comm. eapply IH; [|exact Hw].
  intros w' x'. rewrite Nat.add_succ_comm. destruct best as [[w0 y0]|]; [destruct (_ <? _)%N|]; intros [= <- <-]; try lia. by eapply Hb.
Qed.

Lemma least_loaded_lt l : 0 < length l → least_loaded l < length l.
Proof. intros Hl. unfold least_loaded. destruct (least_from 0 l None) as [[w x]|] eqn:E; [|done]. by apply (least_from_lt 0 l None) in E. Qed.

Lemma hashed_worker_lt domain i : hashed_worker cfg domain i < pc_workers cfg.
Proof.
  unfold hashed_worker, domain_hash. destruct domain as [[a|a k]|]; [..|apply Nat.mod_upper_bound; lia].
  all: match goal with |- N.to_nat (?x mod _) < _ => pose proof (N.mod_lt x (N.of_nat (pc_workers cfg)) ltac:(lia)); lia end.
Qed.

Lemma assign_worker_ok s domain i : assigned s →
  let '(w, assign, load) := assign_worker cfg s domain i in
  (bag_mode cfg = false → w < pc_workers cfg) ∧ (∀ k w, assign !! k = Some w → w < pc_workers cfg) ∧ length load = pc_workers cfg.
Proof.
  intros [Ha Hl]. unfold assign_worker. destruct (bag_mode cfg); [done|]. pose proof (hashed_worker_lt domain i) as Hh.
  assert (∀ key, let '(w, assign) := sticky_worker s key (hashed_worker cfg domain i) in w < pc_workers cfg ∧ ∀ k w, assign !! k = Some w → w < pc_workers cfg) as Hst.
  { intros key. unfold sticky_worker. destruct (ss_assign s !! key) as [w|] eqn:E; [eauto|]. destruct (_ <=? _); [done|].
    pose proof (least_loaded_lt (ss_assign_load s) ltac:(lia)) as Hw. rewrite Hl in Hw. split; [done|]. intros k w [[_ <-]|[_ ?]]%lookup_insert_Some; eauto. }
  assert (∀ w, length (if sticky_assign cfg then alter N.succ w (ss_assign_load s) else ss_assign_load s) = pc_workers cfg) as Hlen.
  { intros w. destruct (sticky_assign cfg); [by rewrite length_alter|done]. }
  destruct domain as [key|]; [|split_and!; auto]. destruct (sticky_assign cfg) eqn:Es; [|split_and!; auto].
  specialize (Hst key). destruct (sticky_worker s key _) as [w assign]. destruct Hst. split_and!; [done..|]. apply (Hlen w).
Qed.

(** ** Admission *)

Context (dp : nat → list nat) `{!Deps dp}.

Abbreviation wp := (wp cfg dp).

Lemma gwp_link_all preds i w g deg : (∀ p, p ∈ preds → p ∈ dp i) →
  wp [KWork i w; KFeed (links g i preds)] (link_all preds i w deg) (λ _ h, h = [KWork i w; KFeed (links g i [])]).
Proof.
  revert deg. induction preds as [|p preds IH]; intros deg Hp; [by apply gwp_ret|]. cbn [link_all].
  eapply gwp_bind with (Q := λ _ h, h = [KWork i w; KFeed (links g i preds)]); [|intros l h ->; apply IH; set_solver].
  unfold link_predecessor. destruct (Nat.eqb_spec p i) as [->|Hne].
  - eexists. split; [|done]. by apply (shift_link_self cfg dp (links g i (i :: preds))).
  - apply gwp_ask. apply (ev_link_pred cfg dp (links g i (p :: preds))); [done|set_solver|done].
Qed.

(** The feed between two records. *)
Definition fed (n : nat) : FeedAt := mkFeedAt n n n None false.

Lemma gwp_admit_serial s n w is_cold hashes : (bag_mode cfg = false → w < pc_workers cfg) →
  (∀ preds b t, candidates s n is_cold hashes = Some (preds, b, t) → dp n = preds) →
  wp [KFeed (mkFeedAt (S n) n n None false)] (admit_serial cfg s n w is_cold hashes)
    (λ r h, match candidates s n is_cold hashes with
            | None => r = FeedHung
            | Some (_, barrier, touch) => h = [KFeed (fed (S n))] ∧ ∃ e, r = Fed (mkSession (ss_n_txs s) (ss_cold s) e barrier (ss_dispatch s) touch (ss_assign s) (ss_assign_load s))
            end).
Proof.
  intros Hw Hdp. unfold admit_serial. destruct (candidates s n is_cold hashes) as [[[preds barrier] touch]|]; [|by apply gwp_ret].
  specialize (Hdp _ _ _ eq_refl). set (g0 := mkFeedAt (S n) n n None false).
  eapply gwp_event; [apply (ev_open_node cfg dp g0 w); cbn; auto|]. intros was_open h [-> ->]. unfold opens. cbn.
  eapply (gwp_step _ _ _ _ _ [KFeed _] [KWork n w]); [apply (ev_add_admitted cfg dp (mkFeedAt (S n) (S n) n (Some (n, dp n)) false)); cbn; [lia|done]|solve_Permutation|]. cbn. intros _ h ->.
  eapply gwp_bind.
  { eapply gwp_perm; [|apply (gwp_link_all preds n w (fed (S n)) 0)]; [unfold links; cbn; rewrite Hdp; solve_Permutation|by rewrite Hdp]. }
  intros deg h ->. eapply (gwp_step _ _ _ _ _ [KFeed _] [KWork n w]); [by apply (ev_guard cfg dp (links (fed (S n)) n []) n)|solve_Permutation|]. unfold unlink. cbn. fold (fed (S n)). intros prev h ->.
  eapply gwp_bind with (Q := λ _ h, h ≡ₚ [KFeed (fed (S n))]); [|intros _ h Hh; eapply gwp_out; [exact Hh|]; eauto].
  destruct (prev =? 1)%N; cbn [app].
  - destruct (bag_mode cfg) eqn:Hb.
    + eapply gwp_shift; [apply (shift_trans _ _ _ [KWork n w; KFeed (fed (S n)); KAt PReady n]); [apply shift_perm; solve_Permutation|by apply shift_drop]|].
      eapply (gwp_tail _ _ _ _ (ready_hand cfg (w, n)) [KFeed (fed (S n))]); [by apply gwp_push_ready|unfold ready_hand; rewrite Hb; cbn; solve_Permutation|by intros _ h ->].
    + eapply (gwp_tail _ _ _ _ (ready_hand cfg (w, n)) [KFeed (fed (S n))]); [by apply gwp_push_ready|unfold ready_hand; rewrite Hb; cbn; solve_Permutation|by intros _ h ->].
  - exists [KFeed (fed (S n))]. split; [|done]. eapply shift_trans; [by apply shift_perm, Permutation_swap|]. by apply shift_drop.
Qed.

(** The plan of the records that follow. *)
Definition planned (s : Session) (l : list (Address * Prepared)) : list (list nat) := plan (ss_last_barrier s) (ss_touch s) (ss_n_txs s) l.*2.

(** A block that is too long, or that fills the toucher index. *)
Definition overlong (s : Session) (l : list (Address * Prepared)) : Prop :=
  length (planned s l) < length l ∨ MAX_BLOCK_TXS < ss_n_txs s + length l.

Lemma gwp_push_prepared s sender prep : let n := ss_n_txs s in assigned s →
  (∀ preds b t, candidates (at_feed (ss_last_barrier s) (ss_touch s)) n (cold prep) (domain_hashes prep) = Some (preds, b, t) → dp n = preds) →
  wp [KFeed (fed n)] (push_prepared cfg s sender prep)
    (λ r h, if MAX_BLOCK_TXS <=? n then ∃ e, r = FeedError e
            else match candidates (at_feed (ss_last_barrier s) (ss_touch s)) n (cold prep) (domain_hashes prep) with
                 | None => r = FeedHung
                 | Some (_, b, t) => h = [KFeed (fed (S n))] ∧ ∃ s', r = Fed s' ∧ assigned s' ∧ ss_n_txs s' = S n ∧ ss_last_barrier s' = b ∧ ss_touch s' = t
                 end).
Proof.
  intros n Has Hdp. unfold push_prepared. fold n. destruct (Nat.leb_spec MAX_BLOCK_TXS n) as [|Hlt]; [apply gwp_ret; eauto|].
  pose proof (assign_worker_ok s (dispatch_domain cfg sender prep) n Has) as Hw. destruct (assign_worker cfg s _ n) as [[w assign] load]. destruct Hw as (Hw & Ha & Hl).
  eapply gwp_event; [by apply (ev_store_slot cfg dp (fed n))|]. cbn. intros _ h ->. set (s1 := mkSession _ _ _ _ _ _ _ _).
  eapply gwp_mono; [|by apply (gwp_admit_serial s1)]. cbn beta. intros r h. change (candidates s1 n (cold prep) (domain_hashes prep)) with
    (candidates (at_feed (ss_last_barrier s) (ss_touch s)) n (cold prep) (domain_hashes prep)).
  destruct (candidates _ _ _ _) as [[[preds b] t]|]; [|done]. intros [-> [e ->]]. split; [done|]. eexists. split; [done|]. cbn. split_and!; [by split|lia|done..].
Qed.

Lemma gwp_push_records s l : assigned s → ss_n_txs s ≤ MAX_BLOCK_TXS → (∀ k preds, planned s l !! k = Some preds → dp (ss_n_txs s + k) = preds) →
  wp [KFeed (fed (ss_n_txs s))] (push_records cfg s l)
    (λ r h, match r with Fed _ => h = [KFeed (fed (ss_n_txs s + length l))] ∧ ¬ overlong s l | _ => overlong s l end).
Proof.
  revert s. induction l as [|[sender prep] l IH]; intros s Has Hmax Hdp.
  { apply gwp_ret. rewrite Nat.add_0_r. split; [done|]. intros [Hp|Hp]; cbn in Hp; lia. }
  cbn [push_records]. assert (planned s ((sender, prep) :: l) = match candidates (at_feed (ss_last_barrier s) (ss_touch s)) (ss_n_txs s) (cold prep) (domain_hashes prep) with
    | None => [] | Some (preds, b, t) => preds :: plan b t (S (ss_n_txs s)) l.*2 end) as Hplan by done.
  eapply gwp_bind; [apply gwp_push_prepared; [done|]|].
  { intros preds b t Ec. specialize (Hdp 0 preds). rewrite Nat.add_0_r in Hdp. apply Hdp. by rewrite Hplan, Ec. }
  cbn beta. intros r h Hr. unfold overlong. rewrite Hplan. destruct (Nat.leb_spec MAX_BLOCK_TXS (ss_n_txs s)) as [Hge|Hlt].
  { destruct Hr as [e ->]. apply gwp_ret. right. cbn. lia. }
  destruct (candidates _ _ _ _) as [[[preds b] t]|]; [|subst r; apply gwp_ret; left; cbn; lia].
  destruct Hr as [-> (s' & -> & Has' & Hn & Hb & Ht)]. rewrite <-Hn.
  assert (planned s' l = plan b t (S (ss_n_txs s)) l.*2) as Hpl by (unfold planned; by rewrite Hb, Ht, Hn).
  eapply gwp_mono; [|apply IH; [done|lia|]].
  - cbn beta. unfold overlong. rewrite Hpl. cbn [length]. rewrite Hn, !Nat.add_succ_r, Nat.add_succ_l. intros [s2|e|] h; [intros [-> Ho]; split; [done|]; intros [?|?]; apply Ho; [left|right]; lia|..].
    + intros [?|?]; [left|right]; lia.
    + intros [?|?]; [left|right]; lia.
  - intros k preds' Hk. rewrite Hn, Nat.add_succ_comm. apply Hdp. rewrite Hplan. cbn. by rewrite <-Hpl.
Qed.

(** The feed admits the whole block and seals it, or the block is too long for it. *)
Lemma gwp_feed_block s l : assigned s → ss_n_txs s = 0 → (∀ k preds, planned s l !! k = Some preds → dp k = preds) →
  wp [KFeed (fed 0)] (feed_block cfg s l)
    (λ r h, match r with Fed _ => h = [KFeed (mkFeedAt (length l) (length l) (length l) None true)] ∧ ¬ overlong s l | _ => overlong s l end).
Proof.
  intros Has Hn Hdp. unfold feed_block. eapply gwp_bind; [rewrite <-Hn; apply gwp_push_records; [done|lia|by rewrite Hn]|]. cbn beta. rewrite Hn. cbn.
  intros [s'|e|] h; [|intros Ho; by apply gwp_ret..]. intros [-> Ho]. eapply gwp_event; [by apply ev_store_sealed|]. intros _ h ->. apply gwp_ret. done.
Qed.
End feed.
