(* ===== verification/StmPoolInv.v ===== *)
(** * The invariant of the pool

    The threads of a block hold the tokens of the scheduler between them, each the
    hand that its tree needs, and the result cells are those of the machine. Every
    turn keeps it so. *)
From S2P Require Import Prelude Bytes Types Fees WriteSet Effects ExecScope StmMv StmView StmWorker StmTouch StmPredict StmGraph StmPool StmGraphInv StmGraphStep StmGraphQueue StmGraphTree StmPlan.

(** ** The events of a tree *)

Fixpoint uses (P : ∀ X, SchedE X → Prop) {A} (t : Tree SchedE A) : Prop :=
  match t with
  | Ret _ => True
  | Vis e k => P _ e ∧ ∀ x, uses P (k x)
  end.

Lemma uses_bind P {A B} (t : Tree SchedE A) (f : A → Tree SchedE B) : uses P t → (∀ a, uses P (f a)) → uses P (t ≫= f).
Proof. induction t as [a|X e k IH]; cbn; [auto|]. intros [He Hk] Hf. split; [done|]. intros x. by apply IH. Qed.

Lemma uses_mono P P' {A} (t : Tree SchedE A) : (∀ X (e : SchedE X), P X e → P' X e) → uses P t → uses P' t.
Proof. intros HP. induction t as [a|X e k IH]; cbn; [done|]. intros [He Hk]. auto. Qed.

(** Only the end of a job sets a result. *)
Definition no_result X (e : SchedE X) : Prop := match e with SetResult _ _ => False | _ => True end.
Definition result_of (m : Machine) X (e : SchedE X) : Prop := match e with SetResult i r => mc_txs m !! i = Some (Finished r) | _ => True end.

(** Only the feed opens nodes. *)
Definition plain X (e : SchedE X) : Prop := match e with SetResult _ _ | OpenNode _ _ => False | _ => True end.

Lemma plain_no_result X (e : SchedE X) : plain X e → no_result X e.
Proof. by destruct e. Qed.

Lemma uses_ask (P : ∀ X, SchedE X → Prop) X (e : SchedE X) : (∀ X (e : SchedE X), plain X e → P X e) → plain X e → uses P (ask e).
Proof. intros HP He. split; [auto|done]. Qed.

Create HintDb uses.

Ltac uses_tac :=
  repeat (cbn beta iota; lazymatch goal with
  | |- uses _ (_ ≫= _) => apply uses_bind; [|intros ?]
  | |- uses _ (Ret _) => exact I
  | |- uses _ (ask _) => apply uses_ask; [assumption|exact I]
  | |- uses _ (if ?b then _ else _) => destruct b
  | |- uses _ (match ?x with _ => _ end) => destruct x
  | |- _ => solve [eauto with uses]
  end).

Section events.
Context (cfg : PoolConfig) (P : ∀ X, SchedE X → Prop) (HP : ∀ X (e : SchedE X), plain X e → P X e).


Lemma uses_drained : uses P drained.
Proof. unfold drained. uses_tac. Qed.
Lemma uses_push_ready w i : uses P (push_ready cfg w i).
Proof. unfold push_ready. uses_tac. Qed.
#[local] Hint Resolve uses_drained uses_push_ready : uses.
Lemma uses_push_all l : uses P (push_all cfg l).
Proof. induction l as [|[w i] l IH]; cbn [push_all]; uses_tac. Qed.
Lemma uses_collect_all l b : uses P (collect_all l b).
Proof. revert b. induction l as [|i l IH]; intros b; cbn [collect_all]; unfold collect_if_ready; uses_tac. Qed.
#[local] Hint Resolve uses_push_all uses_collect_all : uses.
Lemma uses_complete_inline i : uses P (complete_inline cfg i).
Proof. unfold complete_inline. uses_tac. Qed.
Lemma uses_queue_ready_children l r : uses P (queue_ready_children l r).
Proof. revert r. induction l as [|i l IH]; intros r; cbn [queue_ready_children]; unfold queue_ready_child; uses_tac. Qed.
#[local] Hint Resolve uses_complete_inline uses_queue_ready_children : uses.
Lemma uses_close_jobs l r : uses P (close_jobs l r).
Proof. revert r. induction l as [|i l IH]; intros r; cbn [close_jobs]; unfold close_and_collect; uses_tac. Qed.
#[local] Hint Resolve uses_close_jobs : uses.
Lemma uses_drain_workers ws n r : uses P (drain_workers ws n r).
Proof. revert n r. induction ws as [|w ws IH]; intros n r; cbn [drain_workers]; unfold drain_worker; uses_tac. Qed.
#[local] Hint Resolve uses_drain_workers : uses.
Lemma uses_prune : uses P (prune cfg).
Proof. unfold prune. uses_tac. Qed.
Lemma uses_load_lens t ws : uses P (load_lens t ws).
Proof. induction ws as [|w ws IH]; cbn [load_lens]; uses_tac. Qed.
Lemma uses_queue_has_work w : uses P (queue_has_work cfg w).
Proof. unfold queue_has_work. uses_tac. Qed.
#[local] Hint Resolve uses_prune uses_load_lens uses_queue_has_work : uses.
Lemma uses_apply_pending : uses P (apply_pending cfg).
Proof. unfold apply_pending. uses_tac. Qed.
#[local] Hint Resolve uses_apply_pending : uses.
Lemma uses_spin n w : uses P (spin cfg n w).
Proof. induction n as [|n IH]; cbn [spin]; unfold spin_poll; uses_tac. Qed.
Lemma uses_initial_poll w ln : uses P (initial_poll cfg w ln).
Proof. unfold initial_poll. uses_tac. Qed.
#[local] Hint Resolve uses_spin uses_initial_poll : uses.
Lemma uses_poll_once w ln : uses P (poll_once cfg w ln).
Proof. unfold poll_once, try_steal, steal, spin_or_park, park. uses_tac. Qed.
Lemma uses_drain_step : uses P (drain_step cfg).
Proof. unfold drain_step. uses_tac. Qed.
Lemma uses_link_all preds i w d : uses P (link_all preds i w d).
Proof. revert d. induction preds as [|p preds IH]; intros d; cbn [link_all]; unfold link_predecessor; uses_tac. Qed.
#[local] Hint Resolve uses_link_all : uses.
(** The feed also opens nodes. *)
Context (HO : ∀ i w, P _ (OpenNode i w)).
Lemma uses_push_prepared s sender prep : uses P (push_prepared cfg s sender prep).
Proof. unfold push_prepared, admit_serial. uses_tac. split; [apply HO|done]. Qed.
#[local] Hint Resolve uses_push_prepared : uses.
Lemma uses_push_records s l : uses P (push_records cfg s l).
Proof. revert s. induction l as [|[sender prep] l IH]; intros s; cbn [push_records]; uses_tac. Qed.
#[local] Hint Resolve uses_push_records : uses.
Lemma uses_feed_block s l : uses P (feed_block cfg s l).
Proof. unfold feed_block. uses_tac. Qed.

End events.

Section results.
Context (cfg : PoolConfig).

Lemma no_result_of m X (e : SchedE X) : no_result X e → result_of m X e.
Proof. by destruct e. Qed.

Lemma uses_finish_job m w i r ln : mc_txs m !! i = Some (Finished r) → uses (result_of m) (finish_job cfg w i r ln).
Proof.
  intros Hm. unfold finish_job, record_result. apply uses_bind.
  - split; [done|]. intros []. destruct r; [done|]. split; [done|]. by intros [].
  - intros go. assert (∀ X (e : SchedE X), plain X e → result_of m X e) as HP by (intros X e He; by apply no_result_of, plain_no_result).
    pose proof (uses_prune cfg _ HP). pose proof (uses_complete_inline cfg _ HP i). unfold complete_job. uses_tac.
Qed.

(** The cells after an event. *)
Lemma exec_results budget X (e : SchedE X) c i r : BlockCtx.results (exec cfg budget e c).2 !! i = Some r →
  BlockCtx.results c !! i = Some r ∨ match e with SetResult j r' => j = i ∧ r' = r | _ => False end.
Proof.
  destruct e; cbn; unfold open_node, link_pred, steal_back, take_drained, close_node; repeat case_match; simplify_eq/=; auto.
  intros [[-> ->]|[_ ?]]%lookup_insert_Some; auto.
Qed.
End results.

(** ** Hands of threads *)

Lemma concat_insert {A} (H : list (list A)) k h : H !! k = Some h → ∃ R, concat H ≡ₚ h ++ R ∧ ∀ h', concat (<[k := h']> H) ≡ₚ h' ++ R.
Proof.
  revert k. induction H as [|h0 H IH]; intros k Hk; [done|]. destruct k as [|k]; cbn in *.
  - simplify_eq. exists (concat H). done.
  - destruct (IH k Hk) as (R & HR & HR'). exists (h0 ++ R). split; [rewrite HR; solve_Permutation|]. intros h'. rewrite HR'. solve_Permutation.
Qed.

Section pool_inv.
Context `{Evm} (cfg : PoolConfig) (b : Block) (mem : Mem) (dp : nat → list nat) `{!Deps dp}.
Context (feed_end : FeedEnd → list Tok → Prop).

Abbreviation Inv := (Inv cfg dp).
Abbreviation wp := (wp cfg dp).

Definition polled (w : nat) (r : JobPoll * option nat) (h : list Tok) : Prop :=
  h ≡ₚ poll_hand w r ∧ own cfg r.2 ∧ ∀ i, r.1 = PollReady i → r.2 = None.
Definition completed (w : nat) (r : option (option nat)) (h : list Tok) : Prop :=
  match r with Some ln => h ≡ₚ KOwner w :: next_hand ln ∧ own cfg ln | None => KExit ∈ h end.
Definition checked (out : bool) (h : list Tok) : Prop := h = if out then [KExit] else [].

Definition worker_ok (m : Machine) (w : nat) (s : Worker) (h : list Tok) : Prop :=
  match s with
  | Polling t => wp h t (polled w) ∧ uses no_result t
  | Executing ln i => h ≡ₚ [KAt PRun i; KOwner w] ∧ ln = None
  | Finishing t => wp h t (completed w) ∧ uses (result_of m) t
  | Left => KExit ∈ h
  end.

Definition tail_ok (t : Tail) (h : list Tok) : Prop :=
  match t with
  | TailIdle => h = []
  | Draining t => wp h t checked ∧ uses no_result t
  | TailOut => h = [KExit]
  end.

Record pool_inv (p : Pool) (hands : list (list Tok)) : Prop := {
  pi_inv : Inv (pl_ctx p) (concat hands);
  pi_feed : ∃ h, hands !! 0 = Some h ∧ wp h (pl_feed p) feed_end ∧ uses no_result (pl_feed p);
  pi_tail : ∃ h, hands !! 1 = Some h ∧ tail_ok (pl_tail p) h;
  pi_fed : pl_tail p ≠ TailIdle → ∃ s, pl_feed p = Ret (Fed s);
  pi_workers : ∀ w s, pl_workers p !! w = Some s → w < pc_workers cfg ∧ ∃ h, hands !! S (S w) = Some h ∧ worker_ok (pl_machine p) w s h;
  pi_machine : ∃ schedule, pl_machine p = run_schedule b mem schedule;
  pi_results : ∀ i r, BlockCtx.results (pl_ctx p) !! i = Some r → mc_txs (pl_machine p) !! i = Some (Finished r);
  pi_threads : length (pl_workers p) = pc_workers cfg ∧ length hands = S (S (pc_workers cfg));
}.

(** Only thread [k] touched its hand. *)
Definition only (k : nat) (hands hands' : list (list Tok)) : Prop := ∀ j, j ≠ k → hands' !! j = hands !! j.

Lemma only_insert k h hands : only k hands (<[k := h]> hands).
Proof. intros j Hj. by rewrite list_lookup_insert_ne. Qed.

(** A thread spends its hand. *)
Lemma hands_shift c hands k h h' : Inv c (concat hands) → hands !! k = Some h → shift cfg dp h h' → Inv c (concat (<[k := h']> hands)).
Proof. intros HI Hk Hs. destruct (concat_insert hands k h Hk) as (R & HR & HR'). rewrite HR'. apply Hs. by rewrite <-HR. Qed.

Lemma hands_tick {A} budget c hands k h (t : Tree SchedE A) Q : Inv c (concat hands) → hands !! k = Some h → wp h t Q →
  ∃ h', Inv (tick cfg budget c t).1 (concat (<[k := h']> hands)) ∧ wp h' (tick cfg budget c t).2 Q.
Proof.
  intros HI Hk Ht. destruct t as [a|X e f]; cbn.
  - exists h. split; [by rewrite list_insert_id|done].
  - destruct (concat_insert hands k h Hk) as (R & HR & HR'). rewrite HR in HI. destruct (Ht budget c R HI) as (h' & HI' & Hk').
    exists h'. destruct (exec cfg budget e c) as [x c']. split; [by rewrite HR'|done].
Qed.

Lemma tick_uses {A} P budget c (t : Tree SchedE A) : uses P t → uses P (tick cfg budget c t).2.
Proof. destruct t as [a|X e f]; cbn; [done|]. intros [_ Hk]. destruct (exec cfg budget e c). apply Hk. Qed.

Lemma tick_results {A} m budget c (t : Tree SchedE A) : uses (result_of m) t → (∀ i r, BlockCtx.results c !! i = Some r → mc_txs m !! i = Some (Finished r)) →
  ∀ i r, BlockCtx.results (tick cfg budget c t).1 !! i = Some r → mc_txs m !! i = Some (Finished r).
Proof.
  destruct t as [a|X e f]; cbn; [done|]. intros [He _] Hc i r. pose proof (exec_results cfg budget X e c i r) as Hx. destruct (exec cfg budget e c) as [x c'].
  intros [?|Hr]%Hx; [by apply Hc|]. destruct e; try done. by destruct Hr as [<- <-].
Qed.

(** A finished transaction stays finished. *)
Lemma step_finished i m j r : mc_txs m !! j = Some (Finished r) → mc_txs (step b i m) !! j = Some (Finished r).
Proof.
  intros Hj. unfold step. destruct (mc_txs m !! i) as [[|[r'|X e k]|r']|] eqn:Ei; try done; destruct (bk_jobs b !! i); try done.
  - cbn. rewrite list_lookup_insert_ne; [done|]. intros ->. congruence.
  - cbn. rewrite list_lookup_insert_ne; [done|]. intros ->. congruence.
  - destruct (access (mc_mem m) e). cbn. rewrite list_lookup_insert_ne; [done|]. intros ->. congruence.
Qed.

Lemma worker_ok_step i m w s h : worker_ok m w s h → worker_ok (step b i m) w s h.
Proof.
  destruct s; cbn; try done. intros [? Hu]. split; [done|]. eapply uses_mono; [|exact Hu]. intros X e. destruct e; cbn; try done. apply step_finished.
Qed.

(** ** Turns *)

(** A transaction in hand has its slot. *)
Lemma held_slot c F q i : Inv c F → in_hand q = true → KAt q i ∈ F → i ∈ BlockCtx.slots c.
Proof.
  intros (g & ph & Hi) Hq Hin. apply occ_pos in Hin. rewrite (at_hand _ _ _ _ (iv_places _ _ _ _ _ _ Hi)) in Hin by done.
  assert (ph i = q) as Hph by (unfold ind in Hin; case_decide; [done|lia]). pose proof (below_opened _ _ _ _ _ _ i Hi ltac:(intros Hn; by rewrite <-Hph, Hn in Hq)) as Hlt.
  apply (ct_slots _ _ _ _ (iv_counted _ _ _ _ _ _ Hi)). destruct (ct_bounds _ _ _ _ (iv_counted _ _ _ _ _ _ Hi)). lia.
Qed.

(** What a turn of one thread has to give. *)
Lemma pool_inv_feed p hands c t h h' : pool_inv p hands → hands !! 0 = Some h → Inv c (concat (<[0 := h']> hands)) → wp h' t feed_end → uses no_result t → (pl_tail p ≠ TailIdle → ∃ s, t = Ret (Fed s)) →
  (∀ i r, BlockCtx.results c !! i = Some r → mc_txs (pl_machine p) !! i = Some (Finished r)) →
  pool_inv (mkPool c (pl_machine p) t (pl_workers p) (pl_tail p)) (<[0 := h']> hands).
Proof.
  intros [P1 P2 P3 _ P4 P5 P6 P7] Hh HI Ht Hu Hf Hr. split; cbn [pl_ctx pl_machine pl_feed pl_workers pl_tail]; rewrite ?length_insert; try done.
  - exists h'. split; [|done]. apply list_lookup_insert_eq. by eapply lookup_lt_Some.
  - destruct P3 as (h1 & Hh1 & ?). exists h1. by rewrite list_lookup_insert_ne.
  - intros w s Hs. destruct (P4 w s Hs) as (? & h1 & Hh1 & ?). split; [done|]. exists h1. by rewrite list_lookup_insert_ne.
Qed.

Lemma pool_inv_tail p hands c t h h' : pool_inv p hands → hands !! 1 = Some h → Inv c (concat (<[1 := h']> hands)) → tail_ok t h' → (t ≠ TailIdle → ∃ s, pl_feed p = Ret (Fed s)) →
  (∀ i r, BlockCtx.results c !! i = Some r → mc_txs (pl_machine p) !! i = Some (Finished r)) →
  pool_inv (mkPool c (pl_machine p) (pl_feed p) (pl_workers p) t) (<[1 := h']> hands).
Proof.
  intros [P1 P2 P3 _ P4 P5 P6 P7] Hh HI Ht Hf Hr. split; cbn [pl_ctx pl_machine pl_feed pl_workers pl_tail]; rewrite ?length_insert; try done.
  - destruct P2 as (h1 & Hh1 & ?). exists h1. by rewrite list_lookup_insert_ne.
  - exists h'. split; [|done]. apply list_lookup_insert_eq. by eapply lookup_lt_Some.
  - intros w s Hs. destruct (P4 w s Hs) as (? & h1 & Hh1 & ?). split; [done|]. exists h1. by rewrite list_lookup_insert_ne.
Qed.

Lemma pool_inv_worker p hands c w s s' h h' : pool_inv p hands → pl_workers p !! w = Some s → hands !! S (S w) = Some h →
  Inv c (concat (<[S (S w) := h']> hands)) → worker_ok (pl_machine p) w s' h' →
  (∀ i r, BlockCtx.results c !! i = Some r → mc_txs (pl_machine p) !! i = Some (Finished r)) →
  pool_inv (mkPool c (pl_machine p) (pl_feed p) (<[w := s']> (pl_workers p)) (pl_tail p)) (<[S (S w) := h']> hands).
Proof.
  intros [P1 P2 P3 Pf P4 P5 P6 P7] Hs Hh HI Ht Hr. split; cbn [pl_ctx pl_machine pl_feed pl_workers pl_tail]; rewrite ?length_insert; try done.
  - destruct P2 as (h1 & Hh1 & ?). exists h1. by rewrite list_lookup_insert_ne.
  - destruct P3 as (h1 & Hh1 & ?). exists h1. by rewrite list_lookup_insert_ne.
  - intros w' s1. destruct (decide (w' = w)) as [->|Hne].
    + rewrite list_lookup_insert_eq by (by eapply lookup_lt_Some). intros [= <-]. split; [by destruct (P4 w s Hs)|]. exists h'. split; [|done].
      apply list_lookup_insert_eq. by eapply lookup_lt_Some.
    + rewrite list_lookup_insert_ne by done. intros Hs1. destruct (P4 w' s1 Hs1) as (? & h1 & Hh1 & ?). split; [done|]. exists h1. rewrite list_lookup_insert_ne by congruence. done.
Qed.

Lemma feed_turn_inv p hands : pool_inv p hands → ∃ hands', pool_inv (pool_step cfg b p TFeed) hands' ∧ only 0 hands hands'.
Proof.
  intros Hp. pose proof Hp as [P1 (h & Hh & Ht & Hu) _ Pf _ _ P6 _]. destruct (hands_tick 0 _ _ _ _ _ _ P1 Hh Ht) as (h' & HI & Ht'). cbn.
  pose proof (tick_uses no_result 0 (pl_ctx p) _ Hu) as Hu'. pose proof (tick_results (pl_machine p) 0 (pl_ctx p) (pl_feed p)) as Hr.
  specialize (Hr ltac:(eapply uses_mono; [apply no_result_of|done]) P6). assert (pl_tail p ≠ TailIdle → ∃ s, (tick cfg 0 (pl_ctx p) (pl_feed p)).2 = Ret (Fed s)) as Hf by (intros [s ->]%Pf; by exists s).
  destruct (tick cfg 0 (pl_ctx p) (pl_feed p)) as [c t]. exists (<[0 := h']> hands). split; [by eapply pool_inv_feed|apply only_insert].
Qed.

Lemma tail_turn_inv p hands : pool_inv p hands → ∃ hands', pool_inv (pool_step cfg b p TTail) hands' ∧ only 1 hands hands'.
Proof.
  intros Hp. pose proof Hp as [P1 _ (h & Hh & Ht) Pf _ _ P6 _]. cbn. destruct (pl_tail p) as [|t|] eqn:Et; cbn in Ht |- *.
  - subst h. exists (<[1 := []]> hands). split; [|apply only_insert]. eapply pool_inv_tail; [done..| | | |done].
    + by rewrite list_insert_id.
    + destruct (pl_feed p) as [[s|e|]|]; try done. split; [by apply gwp_drain_step|apply uses_drain_step, plain_no_result].
    + destruct (pl_feed p) as [[s|e|]|]; try done. by exists s.
  - destruct Ht as [Ht Hu]. destruct t as [out|X e k].
    + destruct Ht as (h' & Hs & ->). pose proof (hands_shift _ _ _ _ _ P1 Hh Hs) as HI. destruct out.
      * eexists. split; [eapply pool_inv_tail; [done..|exact HI|done|by intros _; apply Pf|done]|apply only_insert].
      * eexists. split; [|apply only_insert]. eapply pool_inv_tail; [done..|exact HI| |by intros _; apply Pf|done]. split; [by apply gwp_drain_step|apply uses_drain_step, plain_no_result].
    + destruct (hands_tick 0 _ _ _ _ _ _ P1 Hh Ht) as (h' & HI & Ht'). pose proof (tick_uses no_result 0 (pl_ctx p) _ Hu) as Hu'.
      pose proof (tick_results (pl_machine p) 0 (pl_ctx p) (Vis e k)) as Hr. specialize (Hr ltac:(eapply uses_mono; [apply no_result_of|done]) P6).
      cbn in HI, Ht', Hu', Hr |- *. destruct (exec cfg 0 e (pl_ctx p)) as [x c]. cbn in *. exists (<[1 := h']> hands). split; [|apply only_insert]. eapply pool_inv_tail; [done..|by intros _; apply Pf|done].
  - subst h. exists (<[1 := [KExit]]> hands). split; [|apply only_insert]. eapply pool_inv_tail; [done..| |done|by intros _; apply Pf|done]. by rewrite list_insert_id.
Qed.

(** One event of a worker. *)
Lemma worker_tick {A} (wrap : Tree SchedE A → Worker) Q P p hands w s h t budget : pool_inv p hands → pl_workers p !! w = Some s → hands !! S (S w) = Some h →
  (∀ t' h', wp h' t' Q → uses P t' → worker_ok (pl_machine p) w (wrap t') h') → (∀ X (e : SchedE X), P X e → result_of (pl_machine p) X e) →
  wp h t Q → uses P t →
  ∃ hands', pool_inv (let '(c, t') := tick cfg budget (pl_ctx p) t in mkPool c (pl_machine p) (pl_feed p) (<[w := wrap t']> (pl_workers p)) (pl_tail p)) hands' ∧
    only (S (S w)) hands hands'.
Proof.
  intros Hp Hs Hh Hwrap HP Ht Hu. pose proof Hp as [P1 _ _ _ _ _ P6 _]. destruct (hands_tick budget _ _ _ _ _ _ P1 Hh Ht) as (h' & HI & Ht').
  pose proof (tick_uses P budget (pl_ctx p) _ Hu) as Hu'. pose proof (tick_results (pl_machine p) budget (pl_ctx p) t) as Hr.
  specialize (Hr ltac:(eapply uses_mono; [exact HP|done]) P6). destruct (tick cfg budget (pl_ctx p) t) as [c t']. cbn in *.
  exists (<[S (S w) := h']> hands). split; [eapply pool_inv_worker; eauto|apply only_insert].
Qed.

Lemma begin_poll m w ln h : h ≡ₚ KOwner w :: next_hand ln → own cfg ln → worker_ok m w (Polling (poll_once cfg w ln)) h.
Proof. intros Hh Hown. split; [eapply gwp_perm; [exact Hh|by apply gwp_poll_once]|apply uses_poll_once, plain_no_result]. Qed.

Lemma worker_turn_inv p hands w budget : pool_inv p hands → ∃ hands', pool_inv (pool_step cfg b p (TWorker w budget)) hands' ∧ only (S (S w)) hands hands'.
Proof.
  intros Hp. cbn. destruct (pl_workers p !! w) as [s|] eqn:Es; [|by exists hands].
  pose proof Hp as [P1 _ _ _ P4 _ P6 _]. destruct (P4 w s Es) as (Hw & h & Hh & Hok).
  assert (∀ s' h', worker_ok (pl_machine p) w s' h' → shift cfg dp h h' →
    ∃ hands', pool_inv (mkPool (pl_ctx p) (pl_machine p) (pl_feed p) (<[w := s']> (pl_workers p)) (pl_tail p)) hands' ∧ only (S (S w)) hands hands') as Hquiet.
  { intros s' h' Hs' Hsh. exists (<[S (S w) := h']> hands). split; [|apply only_insert]. eapply pool_inv_worker; [done..| |done|done]. by eapply hands_shift. }
  destruct s as [t|ln i|t|]; cbn in Hok.
  - destruct Hok as [Ht Hu]. destruct t as [[[i| |] ln]|X e k].
    + destruct Ht as (h' & Hsh & Hpo & _ & Hln). pose proof (hands_shift _ _ _ _ _ P1 Hh Hsh) as HI. cbn [worker_turn]. unfold begin_job. cbn in Hln. rewrite (Hln i eq_refl) in *.
      rewrite bool_decide_eq_true_2; [by apply (Hquiet _ h')|]. eapply (held_slot _ _ PRun); [exact HI|done|].
      destruct (concat_insert hands _ _ Hh) as (R & _ & ->). rewrite Hpo. cbn. set_solver.
    + destruct Ht as (h' & Hsh & Hpo & _). apply (Hquiet _ h'); [|done]. cbn. rewrite Hpo. cbn. set_solver.
    + destruct Ht as (h' & Hsh & Hpo & Hown & _). apply (Hquiet _ h'); [|done]. by apply begin_poll.
    + pose proof (worker_tick Polling (polled w) no_result p hands w _ h (Vis e k) budget Hp Es Hh) as Htk. cbn in Htk |- *.
      destruct (exec cfg budget e (pl_ctx p)) as [x c]. apply Htk; [done| |done|done]. intros Y e'. apply no_result_of.
  - destruct Hok as [Hpo ->]. cbn [worker_turn].
    destruct (mc_txs (pl_machine p) !! i) as [[| |r]|] eqn:Ei.
    3: { apply (Hquiet _ h); [|apply shift_refl]. split; [eapply gwp_perm; [exact Hpo|by apply gwp_finish_job]|by apply uses_finish_job]. }
    all: exists hands; split; [|done]; rewrite list_insert_id by done; destruct Hp as [_ P2 P3 Pf _ [sched Hm] _ P7]; split; cbn; try done;
      [intros w' s' Hs'; destruct (P4 w' s' Hs') as (? & h1 & Hh1 & ?); split; [done|]; exists h1; split; [done|by apply worker_ok_step]
      |exists (sched ++ [i]); unfold run_schedule; rewrite fold_left_app; cbn; by rewrite Hm|intros j r Hj; by apply step_finished, P6].
  - destruct Hok as [Ht Hu]. destruct t as [[ln|]|X e k].
    + destruct Ht as (h' & Hsh & Hpo & Hown). apply (Hquiet _ h'); [|done]. by apply begin_poll.
    + destruct Ht as (h' & Hsh & Hpo). by apply (Hquiet _ h').
    + pose proof (worker_tick Finishing (completed w) (result_of (pl_machine p)) p hands w _ h (Vis e k) budget Hp Es Hh) as Htk. cbn in Htk |- *.
      destruct (exec cfg budget e (pl_ctx p)) as [x c]. by apply Htk.
  - apply (Hquiet _ h); [done|apply shift_refl].
Qed.

(** The thread of a turn. *)
Definition thread (tn : Turn) : nat := match tn with TFeed => 0 | TTail => 1 | TWorker w _ => S (S w) end.

Lemma pool_step_inv p tn hands : pool_inv p hands → ∃ hands', pool_inv (pool_step cfg b p tn) hands' ∧ only (thread tn) hands hands'.
Proof. destruct tn; [apply feed_turn_inv|apply tail_turn_inv|apply worker_turn_inv]. Qed.

Lemma run_pool_inv p turns hands : pool_inv p hands → ∃ hands', pool_inv (run_pool cfg b p turns) hands'.
Proof.
  revert p hands. induction turns as [|tn turns IH]; intros p hands Hp; [by exists hands|]. destruct (pool_step_inv p tn hands Hp) as (hands1 & Hp1 & _). by eapply IH.
Qed.
End pool_inv.
