(* ===== verification/StmPoolSpec.v ===== *)
(** * What the pool of Block-STM promises

    Whatever the turns of the feed, the workers and the tail thread: a transaction
    runs on one worker, once, and after every earlier transaction that it conflicts
    with, the earlier ones of its sender among them; nothing panics; and when the tail thread leaves a block that did not fail,
    every result is there and the commit is the one of the sequential engine. *)
From S2P Require Import Prelude Bytes Types Fees WriteSet WriteSetSpec Effects ExecScope ExecScopeSpec ExecSample ExecBlockSpec StmMv StmMvSpec StmView StmWorker.
From S2P Require Import StmTail StmInv StmCredit StmLanes StmSpec StmTouch StmPredict StmGraph StmPool StmGraphInv StmGraphStep StmGraphQueue StmGraphTree.
From S2P Require Import StmGraphTree StmPlan StmPoolInv.
Import BlockCtx (node).

(** What a pool keeps between blocks, and the preparations of the block. *)
Record pool_ready `{Evm} (cfg : PoolConfig) (b : Block) (touch : TouchTable.t) (assign : gmap DomainKey nat) (load : list N) (preps : list Prepared) : Prop := {
  pr_workers : 0 < pc_workers cfg;
  pr_touch : TouchTable.wf touch;
  pr_assign : ∀ k w, assign !! k = Some w → w < pc_workers cfg;
  pr_load : length load = pc_workers cfg;
  pr_preps : length preps = length (bk_jobs b);
}.

Section start.
Context `{Evm} (cfg : PoolConfig) (b : Block) (mem : Mem) (touch : TouchTable.t) (assign : gmap DomainKey nat) (load : list N) (preps : list Prepared).
Context (Hready : pool_ready cfg b touch assign load preps).

Definition dp : nat → list nat := deps_of (block_plan touch preps).

#[local] Instance dp_deps : Deps dp.
Proof. apply plan_deps, Hready. Qed.

Definition records : list (Address * Prepared) := zip ((te_sender ∘ jb_envelope) <$> bk_jobs b) preps.

Lemma records_length : length records = length (bk_jobs b).
Proof. unfold records. rewrite length_zip, length_fmap, (pr_preps _ _ _ _ _ _ Hready). lia. Qed.

Lemma records_preps : records.*2 = preps.
Proof. unfold records. rewrite snd_zip; [done|]. rewrite length_fmap, (pr_preps _ _ _ _ _ _ Hready). lia. Qed.

(** A block that the feed cannot take: more transactions than slots, or more cells
    than the toucher index. *)
Definition too_long : Prop := length (block_plan touch preps) < length (bk_jobs b) ∨ MAX_BLOCK_TXS < length (bk_jobs b).

Definition feed_end (r : FeedEnd) (h : list Tok) : Prop :=
  match r with Fed _ => h = [KFeed (mkFeedAt (length (bk_jobs b)) (length (bk_jobs b)) (length (bk_jobs b)) None true)] ∧ ¬ too_long | _ => too_long end.

Definition hands_start : list (list Tok) := [KFeed (fed 0)] :: [] :: ((λ w, [KOwner w]) <$> seq 0 (pc_workers cfg)).

Lemma owners_occ t ws : (∀ w, t ≠ KOwner w) → occ t (concat ((λ w, [KOwner w]) <$> ws)) = 0.
Proof. intros Ht. induction ws as [|w ws IH]; cbn; [done|]. by rewrite IH, ind_false. Qed.

Lemma owners_once w n s : occ (KOwner w) (concat ((λ w, [KOwner w]) <$> seq s n)) ≤ 1.
Proof.
  assert (occ (KOwner w) (concat ((λ w, [KOwner w]) <$> seq s n)) = occ w (seq s n)) as ->; [|rewrite occ_seq; unfold ind; case_decide; lia].
  revert s. induction n as [|n IH]; intros s; cbn; [done|]. rewrite <-IH. f_equal. apply ind_iff. split; [by intros [=]|by intros ->].
Qed.

Lemma start_inv : Inv cfg dp (BlockCtx.new (pc_workers cfg)) (concat hands_start).
Proof.
  assert (∀ t, (∀ w, t ≠ KOwner w) → t ≠ KFeed (fed 0) → occ t (concat hands_start) = 0) as Hocc.
  { intros t H1 H2. cbn. by rewrite ind_false, owners_occ. }
  assert (∀ i, node (BlockCtx.new (pc_workers cfg)) i = Node_default) as Hnode by done.
  assert (∀ i n, degree n (BlockCtx.new (pc_workers cfg)) (concat hands_start) i = 0) as Hdeg.
  { intros i n. unfold degree. rewrite Hocc by done. apply total_zero. intros j _. by rewrite Hnode. }
  exists (fed 0), (λ _, PNew). split; split; try done.
  - intros p i Hp. rewrite Hocc, ind_false by (done || by intros <-). done.
  - intros w i. rewrite ind_false by done. cbn. destruct (decide (w < pc_workers cfg)); [by rewrite lookup_total_replicate_2|].
    rewrite list_lookup_total_alt, lookup_ge_None_2 by (rewrite length_replicate; lia). done.
  - intros w i. rewrite ind_false by done. cbn. destruct (decide (w < pc_workers cfg)); [by rewrite lookup_total_replicate_2|].
    rewrite list_lookup_total_alt, lookup_ge_None_2 by (rewrite length_replicate; lia). done.
  - intros i. split; [by intros [? ?]|done].
  - cbn. by rewrite !length_replicate.
  - intros g'. cbn. rewrite owners_occ by done. rewrite Nat.add_0_r. apply ind_iff. split; [by intros [=]|by intros ->].
  - intros i. cbn. set_solver by lia.
  - cbn. lia.
  - intros i. cbn. split; [lia|done].
  - intros i. cbn. naive_solver.
  - rewrite Hocc by done. lia.
  - intros x. rewrite Hocc by done. lia.
  - rewrite Hocc by done. lia.
  - intros p i. rewrite Hnode. set_solver.
  - intros i. rewrite Hdeg. cbn. lia.
  - intros i p [?|?]; done.
  - intros w l1 i l2 p Hq. exfalso. assert (i ∈ BlockCtx.queues (BlockCtx.new (pc_workers cfg)) !!! w) as Hin by (rewrite Hq; set_solver). cbn in Hin.
    destruct (decide (w < pc_workers cfg)); [rewrite lookup_total_replicate_2 in Hin by done; set_solver|].
    rewrite list_lookup_total_alt, lookup_ge_None_2 in Hin by (rewrite length_replicate; lia). set_solver.
  - intros w. cbn. rewrite ind_false by done. apply owners_once.
  - intros i w. rewrite Hocc by done. lia.
Qed.

Lemma start_pool_inv : pool_inv cfg b mem dp feed_end (pool_start cfg b mem touch assign load preps) hands_start.
Proof.
  split; try done.
  - apply start_inv.
  - eexists. split; [done|]. split; [|by apply uses_feed_block; [apply plain_no_result|]]. set (s := begin_block cfg touch assign load).
    eapply gwp_mono; [|apply (gwp_feed_block cfg (pr_workers _ _ _ _ _ _ Hready) dp s); [by split; apply Hready|done|]]; fold records.
    + unfold overlong, planned. rewrite records_preps, records_length. cbn. by intros [].
    + intros k preds. unfold planned. rewrite records_preps. cbn. intros Hk. unfold dp, deps_of, block_plan. by rewrite Hk.
  - exists []. done.
  - intros w s. unfold pool_start. cbn [pl_workers pl_machine]. rewrite list_lookup_fmap, fmap_Some. intros (w' & [-> Hw]%lookup_seq & ->). split; [lia|]. exists [KOwner w].
    change (hands_start !! S (S w)) with (((λ w, [KOwner w]) <$> seq 0 (pc_workers cfg)) !! w). rewrite list_lookup_fmap, lookup_seq_lt by lia. split; [done|]. by apply begin_poll; [apply _|..].
  - by exists [].
  - unfold pool_start, hands_start. cbn. by rewrite !length_fmap, length_seq.
Qed.

Definition ran_pool (turns : list Turn) : Pool := run_pool cfg b (pool_start cfg b mem touch assign load preps) turns.

Lemma ran_pool_inv turns : ∃ hands, pool_inv cfg b mem dp feed_end (ran_pool turns) hands.
Proof. eapply run_pool_inv, start_pool_inv. apply _. Qed.

(** The transaction of a worker is in its hand. *)
Lemma executing_held p hands w ln i : pool_inv cfg b mem dp feed_end p hands → pl_workers p !! w = Some (Executing ln i) →
  ∃ h, hands !! S (S w) = Some h ∧ KAt PRun i ∈ h.
Proof.
  intros Hp Hw. destruct (pi_workers _ _ _ _ _ _ _ Hp w _ Hw) as (_ & h & Hh & Hpo & _). exists h. split; [done|]. rewrite Hpo. set_solver.
Qed.

Lemma held_phase p hands g ph k h q i : inv cfg dp g ph (pl_ctx p) (concat hands) → hands !! k = Some h → KAt q i ∈ h → in_hand q = true → ph i = q.
Proof.
  intros Hi Hk Hin Hq. pose proof (at_hand _ _ _ _ (iv_places _ _ _ _ _ _ Hi) q i Hq) as Ho.
  assert (0 < occ (KAt q i) (concat hands)) as Hpos.
  { apply occ_pos. destruct (concat_insert hands k h Hk) as (R & -> & _). set_solver. }
  rewrite Ho in Hpos. unfold ind in Hpos. case_decide; [done|lia].
Qed.

(** Two hands do not share a token of a phase. *)
Lemma held_once c hands k k' h h' q i : Inv cfg dp c (concat hands) → in_hand q = true → hands !! k = Some h → hands !! k' = Some h' → KAt q i ∈ h → KAt q i ∈ h' → k = k'.
Proof.
  intros (g & ph & Hi) Hq Hk Hk' Hin Hin'. destruct (decide (k = k')) as [|Hne]; [done|]. exfalso.
  pose proof (at_hand _ _ _ _ (iv_places _ _ _ _ _ _ Hi) q i Hq) as Ho. destruct (concat_insert hands k h Hk) as (R & HR & HR'). rewrite HR, occ_app in Ho.
  assert (KAt q i ∈ R) as HinR.
  { specialize (HR' []). cbn in HR'. rewrite <-HR'. destruct (concat_insert (<[k := []]> hands) k' h') as (R2 & -> & _); [by rewrite list_lookup_insert_ne|set_solver]. }
  apply occ_pos in Hin, HinR. unfold ind in Ho. case_decide; lia.
Qed.

(** What has run, or runs, has its predecessors behind it. *)
Lemma ran_before g ph c F j i : inv cfg dp g ph c F → tc (edge dp) j i → ph i = PRun ∨ ran (ph i) = true → ran (ph j) = true.
Proof.
  intros Hi. pose proof (gr_ran _ _ _ _ _ (iv_graphed _ _ _ _ _ _ Hi)) as Hr. induction 1 as [j i [Hj Hne]|j k i [Hj Hne] _ IH]; intros Hx; [by eapply Hr|].
  eapply Hr; [right; by apply IH|done..].
Qed.

(** A drained block has run every transaction. *)
Lemma drained_out g ph c F i : inv cfg dp g ph c F → drained_now c → i < fa_opened g → ph i = POut.
Proof.
  intros Hi [Hs Hf] Hlt. pose proof (iv_counted _ _ _ _ _ _ Hi) as HC. rewrite (ct_sealed _ _ _ _ HC) in Hs. destruct (ct_sealed_all _ _ _ _ HC Hs) as [Ha _].
  rewrite (ct_finished _ _ _ _ HC), (ct_admitted _ _ _ _ HC), Ha in Hf. apply Nat2N.inj in Hf.
  assert (∀ n, total n (λ j, ind (out (ph j) = true)) = n → ∀ j, j < n → out (ph j) = true) as Hall.
  { intros n. induction n as [|n IH]; intros Ht j Hj; [lia|]. rewrite total_S in Ht.
    assert (total n (λ j, ind (out (ph j) = true)) ≤ n) as Hle by (apply total_bound; intros k _; unfold ind; destruct (decide _); lia).
    unfold ind in Ht at 2. case_decide as Hn; [|lia]. destruct (decide (j = n)) as [->|]; [done|]. apply IH; lia. }
  specialize (Hall _ Hf i Hlt). by destruct (ph i).
Qed.

Lemma step_txs_length i m : length (mc_txs (step b i m)) = length (mc_txs m).
Proof.
  unfold step. destruct (mc_txs m !! i) as [[|[r|X e k]|r]|]; try done; destruct (bk_jobs b !! i); try done; cbn; rewrite ?length_insert; try done.
  destruct (access (mc_mem m) e). cbn. by rewrite length_insert.
Qed.

Lemma run_schedule_length schedule : length (mc_txs (run_schedule b mem schedule)) = length (bk_jobs b).
Proof.
  unfold run_schedule. assert (∀ m, length (mc_txs (fold_left (λ m i, step b i m) schedule m)) = length (mc_txs m)) as ->; [|apply length_replicate].
  induction schedule as [|i schedule IH]; intros m; cbn; [done|]. by rewrite IH, step_txs_length.
Qed.

(** The result cells, as the tail thread reads them. *)
Definition cells (c : BlockCtx.t) : list (option (result ExecutorError TxResult)) := (λ i, BlockCtx.results c !! i) <$> seq 0 (length (bk_jobs b)).

(** When the tail thread leaves a block that did not fail, every result is there and
    is the one of the machine. *)
Lemma tail_out_cells turns i : let p := ran_pool turns in pl_tail p = TailOut → BlockCtx.aborted (pl_ctx p) = false → i < length (bk_jobs b) →
  ∃ r, BlockCtx.results (pl_ctx p) !! i = Some (Ok r) ∧ mc_txs (pl_machine p) !! i = Some (Finished (Ok r)).
Proof.
  intros p Ht Ha Hlt. destruct (ran_pool_inv turns) as (hands & Hp). fold p in Hp. destruct Hp as [HI (hf & Hhf & Hwp & _) (ht & Hht & Hok) Hfed _ _ Hres _].
  rewrite Ht in Hok. cbn in Hok. subst ht. destruct Hfed as [s Hs]; [by rewrite Ht|]. rewrite Hs in Hwp. destruct Hwp as (h' & Hsh & -> & _).
  pose proof (hands_shift cfg dp _ _ _ _ _ HI Hhf Hsh) as HI'. destruct (concat_insert hands 0 hf Hhf) as (R & _ & HR).
  rewrite HR in HI'. destruct HI' as (g & ph & Hi). destruct (feed_token cfg dp _ _ _ _ _ Hi) as [Hg _].
  assert (KExit ∈ R) as Hex.
  { change R with ([] ++ R). rewrite <-HR. destruct (concat_insert (<[0 := []]> hands) 1 [KExit]) as (R2 & -> & _); [by rewrite list_lookup_insert_ne|set_solver]. }
  destruct (inv_sound cfg dp _ _ _ _ KExit Hi) as [Hab|Hd]; [set_solver|congruence|].
  assert (ph i = POut) as Hout by (eapply drained_out; [exact Hi|done|by rewrite Hg]).
  assert (is_Some (BlockCtx.results (pl_ctx p) !! i)) as [[r|e] Hr] by (apply (at_results _ _ _ _ (iv_places _ _ _ _ _ _ Hi)); by rewrite Hout); [eauto|].
  apply (at_failed _ _ _ _ (iv_places _ _ _ _ _ _ Hi)) in Hr. congruence.
Qed.

Lemma tail_out_results turns : let p := ran_pool turns in pl_tail p = TailOut → BlockCtx.aborted (pl_ctx p) = false →
  ∃ rs, results (pl_machine p) = (Some ∘ Ok) <$> rs ∧ cells (pl_ctx p) = results (pl_machine p).
Proof.
  intros p Ht Ha. pose proof (λ i, tail_out_cells turns i Ht Ha) as Hall. cbn zeta in Hall. fold p in Hall.
  assert (length (mc_txs (pl_machine p)) = length (bk_jobs b)) as Hlen.
  { destruct (ran_pool_inv turns) as (hands & [_ _ _ _ _ [sched Hm] _ _]). unfold p. rewrite Hm. apply run_schedule_length. }
  assert (∀ i, results (pl_machine p) !! i = if decide (i < length (bk_jobs b)) then Some (BlockCtx.results (pl_ctx p) !! i) else None) as Hget.
  { intros i. unfold results. rewrite list_lookup_fmap. case_decide as Hi; [destruct (Hall i Hi) as (r & -> & ->); done|]. by rewrite lookup_ge_None_2 by lia. }
  exists (omap (λ i, match BlockCtx.results (pl_ctx p) !! i with Some (Ok r) => Some r | _ => None end) (seq 0 (length (bk_jobs b)))). split.
  - assert (∀ l : list nat, (∀ i, i ∈ l → i < length (bk_jobs b)) → (λ i, BlockCtx.results (pl_ctx p) !! i) <$> l =
      (Some ∘ Ok) <$> omap (λ i, match BlockCtx.results (pl_ctx p) !! i with Some (Ok r) => Some r | _ => None end) l) as Hl.
    { induction l as [|i l IH]; intros Hl; [done|]. cbn. destruct (Hall i) as (r & -> & _); [apply Hl; set_solver|]. cbn. f_equal. apply IH. set_solver. }
    rewrite <-Hl by (intros i ?%elem_of_seq; lia). apply list_eq. intros i. rewrite Hget, list_lookup_fmap. case_decide; [by rewrite lookup_seq_lt by lia|by rewrite lookup_seq_ge by lia].
  - apply list_eq. intros i. rewrite Hget. unfold cells. rewrite list_lookup_fmap. case_decide; [by rewrite lookup_seq_lt by lia|by rewrite lookup_seq_ge by lia].
Qed.

(** ** Properties *)

(** C1. The pool is serializable: whatever the turns of the feed, of the workers and
    of the tail thread, when the tail thread leaves a block that did not abort, the
    commit of the result cells gives the receipts and the delta of the sequential
    engine, provided the prefix sums do not overflow. The session is one of
    [session_ok] (no EIP-7702 delegation, no self-destruct, no transaction that reads
    the fee sink or is sent by it, and a bound sink that is the one of the view), and
    the memory is [fresh]: no versions, and a base cache that holds what the snapshot
    answers. *)
Theorem pool_serializable `{Content} `{!EvmLaws} {C : CacheDB} `{!CacheLaws C} Vs turns workers order receipts delta :
  session_ok b Vs → fresh b mem → let p := ran_pool turns in
  pl_tail p = TailOut → BlockCtx.aborted (pl_ctx p) = false →
  (∀ rs, results (pl_machine p) = (Some ∘ Ok) <$> rs → is_ok (serial_prefix (prefix_start b) rs) = true) →
  1 ≤ workers → order ≡ₚ seq 0 (n_chunks workers (length (bk_jobs b))) →
  sequential_inner (bk_snapshot b) (Some (repair_base b)) (bk_env b) (record_of <$> bk_jobs b) = Ok (receipts, delta) →
  ∃ wounds, block_tail workers order b (mem_mv (mc_mem (pl_machine p))) (cells (pl_ctx p)) = Ok (receipts, delta, wounds).
Proof.
  intros Hs Hf p Ht Ha Hpre Hw Hord Hseq. destruct (tail_out_results turns Ht Ha) as (rs & Hres & Hcells). fold p in Hres, Hcells.
  destruct (ran_pool_inv turns) as (hands & [_ _ _ _ _ [sched Hm] _ _]). fold p in Hm. specialize (Hpre rs Hres).
  destruct (serial_prefix (prefix_start b) rs) as [rs'|] eqn:Epre; [|done].
  assert (length rs = length (bk_jobs b)) as Hlen.
  { pose proof (run_schedule_length sched) as Hl. rewrite <-Hm in Hl. apply (f_equal length) in Hres. unfold results in Hres. rewrite !length_fmap in Hres. congruence. }
  rewrite Hcells. rewrite Hm in *. eexists. eapply tail_serial; [done..|by rewrite Hlen|done].
Qed.

Lemma conflict_done turns w ln i j : let p := ran_pool turns in ¬ too_long →
  pl_workers p !! w = Some (Executing ln i) → j < i → conflict preps j i → is_Some (BlockCtx.results (pl_ctx p) !! j).
Proof.
  intros p Hlong Hw Hj Hc. destruct (ran_pool_inv turns) as (hands & Hp). fold p in Hp. destruct (executing_held _ _ _ _ _ Hp Hw) as (h & Hh & Hin).
  destruct (pi_inv _ _ _ _ _ _ _ Hp) as (g & ph & Hi). apply (at_results _ _ _ _ (iv_places _ _ _ _ _ _ Hi)). eapply ran_before; [exact Hi| |left; by eapply held_phase].
  apply block_plan_order; [apply Hready| |done|done]. destruct Hc as (pj & pi & _ & Hpi%lookup_lt_Some & _). rewrite (pr_preps _ _ _ _ _ _ Hready) in Hpi. unfold too_long in Hlong. lia.
Qed.

(** C4. Transactions that conflict run in order: when a worker executes a
    transaction, every earlier transaction with which it shares a predicted cell, and
    every earlier one when either of the two is cold, has its result. *)
Theorem conflicts_ordered turns w ln i j : let p := ran_pool turns in ¬ too_long →
  pl_workers p !! w = Some (Executing ln i) → j < i → conflict preps j i → is_Some (BlockCtx.results (pl_ctx p) !! j).
Proof. apply conflict_done. Qed.

(** C5. A transaction runs on one worker and once: while a worker executes it, it has
    no result, no other worker executes it, and no queue and no bag holds it; and
    nothing ever leaves the graph twice or panics. *)
Theorem runs_once turns : let p := ran_pool turns in
  BlockCtx.double_exit (pl_ctx p) = 0%N ∧ BlockCtx.panicked (pl_ctx p) = false ∧
  ∀ w ln i, pl_workers p !! w = Some (Executing ln i) →
    BlockCtx.results (pl_ctx p) !! i = None ∧ (i ∉ BlockCtx.bag (pl_ctx p)) ∧ (∀ v, i ∉ (BlockCtx.queues (pl_ctx p) !!! v)) ∧
    ∀ w' ln', pl_workers p !! w' = Some (Executing ln' i) → w' = w.
Proof.
  intros p. destruct (ran_pool_inv turns) as (hands & Hp). fold p in Hp. destruct (pi_inv _ _ _ _ _ _ _ Hp) as (g & ph & Hi).
  destruct (ct_sane _ _ _ _ (iv_counted _ _ _ _ _ _ Hi)) as [Hd Hpa]. split; [done|]. split; [done|]. intros w ln i Hw.
  destruct (executing_held _ _ _ _ _ Hp Hw) as (h & Hh & Hin). assert (ph i = PRun) as Hph by (by eapply held_phase). split_and!.
  - apply eq_None_not_Some. rewrite (at_results _ _ _ _ (iv_places _ _ _ _ _ _ Hi)), Hph. done.
  - rewrite (bag_phase _ _ _ _ _ _ _ Hi), Hph. done.
  - intros v. rewrite (queue_phase _ _ _ _ _ _ _ _ Hi), Hph. done.
  - intros w' ln' Hw'. destruct (executing_held _ _ _ _ _ Hp Hw') as (h' & Hh' & Hin').
    assert (S (S w') = S (S w)) as [=]; [|done]. by eapply (held_once _ hands _ _ _ _ PRun i (pi_inv _ _ _ _ _ _ _ Hp)).
Qed.
End start.

(** ** Witnesses *)

(** The sample block, prepared without statistics, on a pool of two workers. *)
Definition toy_preps : list Prepared := (λ j, predict (jb_envelope j) (jb_decoded j) ∅ (bk_sink toy_block)) <$> bk_jobs toy_block.
Definition toy_cfg : PoolConfig := mkConfig 2 1 false false true true true.
Definition toy_touch : TouchTable.t := TouchTable.new (Pow2_new 16).
Definition toy_turns (feed rounds : nat) : list Turn := replicate feed TFeed ++ concat (replicate rounds [TWorker 0 0; TWorker 1 0; TTail]).
Abbreviation toy_pool rounds := (ran_pool toy_cfg toy_block toy_mem toy_touch ∅ [0; 0]%N toy_preps (toy_turns 30 rounds)).

Lemma toy_ready : pool_ready toy_cfg toy_block toy_touch ∅ [0; 0]%N toy_preps.
Proof. split; [cbn; lia|apply TouchTable.new_wf|done|done|done]. Qed.

Lemma toy_fits : ¬ too_long toy_block toy_touch toy_preps.
Proof. intros [Hl|Hl]; [vm_compute in Hl; lia|]. change (length (bk_jobs toy_block)) with 3 in Hl. unfold MAX_BLOCK_TXS in Hl. lia. Qed.

Lemma toy_pool_out : pl_tail (toy_pool 100) = TailOut ∧ BlockCtx.aborted (pl_ctx (toy_pool 100)) = false.
Proof. vm_compute. done. Qed.

Lemma toy_pool_prefix rs : results (pl_machine (toy_pool 100)) = (Some ∘ Ok) <$> rs → is_ok (serial_prefix (prefix_start toy_block) rs) = true.
Proof.
  intros Hrs. assert (verify (results (pl_machine (toy_pool 100))) = Ok rs) as Hv by (rewrite Hrs; apply verify_all). vm_compute in Hv. injection Hv as <-. by vm_compute.
Qed.

Lemma pool_serializable_witness : ∃ receipts delta wounds, sequential_inner toy_snapshot (Some toy_base) toy_env toy_records = Ok (receipts, delta) ∧
  block_tail 2 [1; 0] toy_block (mem_mv (mc_mem (pl_machine (toy_pool 100)))) (cells toy_block (pl_ctx (toy_pool 100))) = Ok (receipts, delta, wounds).
Proof.
  pose proof toy_sequential as Hs. destruct (sequential_inner toy_snapshot (Some toy_base) toy_env toy_records) as [[receipts delta]|] eqn:Hseq; [|discriminate Hs].
  destruct toy_pool_out as [Hout Hab].
  destruct (pool_serializable toy_cfg toy_block toy_mem toy_touch ∅ [0; 0]%N toy_preps toy_ready toy_view (toy_turns 30 100) 2 [1; 0] receipts delta
    toy_session toy_fresh Hout Hab toy_pool_prefix) as [wounds Hw].
  - lia.
  - apply Permutation_swap.
  - exact Hseq.
  - exists receipts, delta, wounds. split; [reflexivity|exact Hw].
Defined.

Lemma toy_pool_executing : pl_workers (toy_pool 40) !! 1 = Some (Executing None 1).
Proof. by vm_compute. Qed.

Lemma toy_conflict : conflict toy_preps 0 1.
Proof. eexists _, _. split; [by vm_compute|]. split; [by vm_compute|]. right. right. exists 5899397440074378331%N. split; apply list_elem_of_In; vm_compute; auto. Qed.

Lemma conflicts_ordered_witness : is_Some (BlockCtx.results (pl_ctx (toy_pool 40)) !! 0).
Proof.
  apply (conflicts_ordered toy_cfg toy_block toy_mem toy_touch ∅ [0; 0]%N toy_preps toy_ready (toy_turns 30 40) 1 None 1 0 toy_fits toy_pool_executing);
    [lia|exact toy_conflict].
Defined.

Lemma runs_once_witness : BlockCtx.results (pl_ctx (toy_pool 40)) !! 1 = None.
Proof.
  destruct (runs_once toy_cfg toy_block toy_mem toy_touch ∅ [0; 0]%N toy_preps toy_ready (toy_turns 30 40)) as (_ & _ & Hone).
  apply (Hone 1 None 1 toy_pool_executing).
Defined.

(** ** Sender chains of Block-STM

    What the prediction of a footprint guarantees whatever was learned: a transaction
    that is not cold carries the cell of its sender, unless the sender is the fee sink,
    so the transactions of one sender run in the order of the block. *)

Lemma fold_domain_spec envelope l acc : let r := fold_left (fold_domain envelope) l acc in
  r.1.1 = acc.1.1 ++ l ∧ r.1.2 = acc.1.2 ++ (domain_hash64 <$> l).
Proof.
  revert acc. induction l as [|c l IH]; intros acc; cbn; [by rewrite !app_nil_r|]. destruct (IH (fold_domain envelope acc c)) as [-> ->].
  destruct acc as [[ds hs] pr]. cbn. by rewrite <-!app_assoc.
Qed.

(** A prediction is cold, or holds the hash of each of its domains and of no others. *)
Lemma predict_hashes {A} envelope (decoded : option (AlloyEnvelope A)) stats sink : let p := predict envelope decoded stats sink in
  domain_hashes p = domain_hash64 <$> domains p ∧
  (cold p = false → ∃ l, predict_domains stats (scheduling_view_decoded envelope decoded) = Some l ∧ domains p = filter (λ c, c ≠ DAccount sink) l).
Proof.
  unfold predict. destruct (predict_domains _ _) as [l|]; [|done].
  destruct (fold_domain_spec envelope (filter (λ c, c ≠ DAccount sink) l) ([], [], None)) as [H1 H2].
  destruct (fold_left _ _ _) as [[ds hs] pr]. cbn in *. subst. split; [done|]. intros _. by exists l.
Qed.

(** The cell of the sender is predicted in any case. *)
Lemma predict_sender {A} envelope (decoded : option (AlloyEnvelope A)) stats sink : let p := predict envelope decoded stats sink in
  cold p = false → te_sender envelope ≠ sink → DAccount (te_sender envelope) ∈ domains p.
Proof.
  intros p Hc Hs. destruct (predict_hashes envelope decoded stats sink) as [_ Hd]. destruct (Hd Hc) as (l & Hl & Hdom). fold p in Hdom. rewrite Hdom.
  apply list_elem_of_filter. split; [by intros [=]|]. unfold predict_domains in Hl. apply bind_Some in Hl as (more & _ & Hl%(inj Some)).
  rewrite <-Hl, elem_of_dedup, merge_sort_Permutation. left.
Qed.

Section chain.
Context `{Evm} (cfg : PoolConfig) (b : Block) (mem : Mem) (touch : TouchTable.t) (assign : gmap DomainKey nat) (load : list N) (preps : list Prepared).
Context (Hready : pool_ready cfg b touch assign load preps).

(** Each transaction is prepared with the statistics at hand. *)
Definition prepared (stats : nat → Stats) : Prop :=
  ∀ k j, bk_jobs b !! k = Some j → preps !! k = Some (predict (jb_envelope j) (jb_decoded j) (stats k) (bk_sink b)).

Lemma sender_conflict stats j i x y : prepared stats → bk_jobs b !! j = Some x → bk_jobs b !! i = Some y →
  te_sender (jb_envelope x) = te_sender (jb_envelope y) → te_sender (jb_envelope x) ≠ bk_sink b → conflict preps j i.
Proof.
  intros Hp Hx Hy Heq Hs. eexists _, _. split; [by apply Hp|]. split; [by apply Hp|].
  destruct (cold (predict (jb_envelope x) (jb_decoded x) (stats j) (bk_sink b))) eqn:Ex; [by left|].
  destruct (cold (predict (jb_envelope y) (jb_decoded y) (stats i) (bk_sink b))) eqn:Ey; [by right; left|]. right. right.
  exists (domain_hash64 (DAccount (te_sender (jb_envelope x)))).
  rewrite (proj1 (predict_hashes (jb_envelope x) _ _ _)), (proj1 (predict_hashes (jb_envelope y) _ _ _)).
  split; apply list_elem_of_fmap_2; [by apply predict_sender|]. rewrite Heq in Hs |- *. by apply predict_sender.
Qed.

(** C6. The transactions of a sender run in the order of the block, whatever the
    statistics have learned and whatever the threads do: when a worker executes one of
    them, every earlier one has its result. Only the fee sink, whose cell is taken out
    of the predictions, is not chained. *)
Theorem sender_chain stats turns w ln i j x y : let p := ran_pool cfg b mem touch assign load preps turns in
  ¬ too_long b touch preps → prepared stats → bk_jobs b !! j = Some x → bk_jobs b !! i = Some y → j < i →
  te_sender (jb_envelope x) = te_sender (jb_envelope y) → te_sender (jb_envelope x) ≠ bk_sink b →
  pl_workers p !! w = Some (Executing ln i) → is_Some (BlockCtx.results (pl_ctx p) !! j).
Proof. intros p Hlong Hp Hx Hy Hlt Heq Hs Hw. by eapply conflict_done, sender_conflict. Qed.
End chain.

Lemma toy_prepared : prepared toy_block toy_preps (λ _, ∅).
Proof. intros k j Hk. unfold toy_preps. rewrite list_lookup_fmap, Hk. done. Qed.

Lemma toy_chain_executing : pl_workers (toy_pool 75) !! 0 = Some (Executing None 2).
Proof. by vm_compute. Qed.

(** The first and the last transaction of the sample block have one sender. *)
Lemma sender_chain_witness : is_Some (BlockCtx.results (pl_ctx (toy_pool 75)) !! 0).
Proof.
  eapply (sender_chain toy_cfg toy_block toy_mem toy_touch ∅ [0; 0]%N toy_preps toy_ready (λ _, ∅) (toy_turns 30 75) 0 None 2 0 _ _ toy_fits toy_prepared).
  - reflexivity.
  - reflexivity.
  - lia.
  - reflexivity.
  - vm_compute. discriminate.
  - exact toy_chain_executing.
Defined.
