(* ===== verification/StmPoolLive.v ===== *)
(** * The pool of Block-STM does not wedge

    From every state that the turns of the threads can reach, further turns bring the
    tail thread out of the block. A thread that runs alone comes to rest; when all
    rest and the block is not out, some worker has work: a transaction that it kept,
    the front of its queue or the bag, or completions to prune. *)
From S2P Require Import Prelude Bytes Types Fees WriteSet WriteSetSpec Effects ExecScope ExecScopeSpec ExecSample ExecBlockSpec.
From S2P Require Import StmMv StmMvSpec StmView StmWorker StmTail StmInv StmCredit StmLanes StmSpec.
From S2P Require Import StmTouch StmPredict StmGraph StmPool StmGraphInv StmGraphStep StmGraphQueue StmGraphTree StmPlan StmPoolInv StmPoolSpec.
Import BlockCtx (node, set_node).

(** ** A thread alone *)

Section alone.
Context `{Evm} (cfg : PoolConfig) (b : Block).

Fixpoint run_tree {A} (c : BlockCtx.t) (t : Tree SchedE A) : A * BlockCtx.t :=
  match t with
  | Ret a => (a, c)
  | Vis e k => run_tree (exec cfg 0 e c).2 (k (exec cfg 0 e c).1)
  end.

Lemma run_tree_bind {A B} c (t : Tree SchedE A) (f : A → Tree SchedE B) : run_tree c (t ≫= f) = run_tree (run_tree c t).2 (f (run_tree c t).1).
Proof. revert c. induction t as [a|X e k IH]; intros c; cbn; [done|]. apply IH. Qed.

Lemma run_pool_app p l l' : run_pool cfg b p (l ++ l') = run_pool cfg b (run_pool cfg b p l) l'.
Proof. apply fold_left_app. Qed.

Definition with_worker (w : nat) (c : BlockCtx.t) (m : Machine) (s : Worker) (p : Pool) : Pool := mkPool c m (pl_feed p) (<[w := s]> (pl_workers p)) (pl_tail p).

Lemma with_worker_get w c m s p s0 : pl_workers p !! w = Some s0 → pl_workers (with_worker w c m s p) !! w = Some s.
Proof. intros Hs. cbn. apply list_lookup_insert_eq. by eapply lookup_lt_Some. Qed.

Lemma with_worker_twice w c m s c' m' s' p : with_worker w c' m' s' (with_worker w c m s p) = with_worker w c' m' s' p.
Proof. unfold with_worker. cbn. by rewrite list_insert_insert_eq. Qed.

Lemma with_worker_same w s p : pl_workers p !! w = Some s → with_worker w (pl_ctx p) (pl_machine p) s p = p.
Proof. intros Hs. unfold with_worker. rewrite list_insert_id by done. by destruct p. Qed.

Lemma turn_worker p w s : pl_workers p !! w = Some s →
  pool_step cfg b p (TWorker w 0) = let '(c, m, s') := worker_turn cfg b w 0 (pl_ctx p) (pl_machine p) s in with_worker w c m s' p.
Proof. intros Hs. cbn. by rewrite Hs. Qed.

Lemma alone_polling p w t : pl_workers p !! w = Some (Polling t) →
  ∃ k, run_pool cfg b p (replicate k (TWorker w 0)) = with_worker w (run_tree (pl_ctx p) t).2 (pl_machine p) (Polling (Ret (run_tree (pl_ctx p) t).1)) p.
Proof.
  revert p. induction t as [a|X e k IH]; intros p Hs; [exists 0; cbn; by rewrite with_worker_same|].
  pose proof (turn_worker p w _ Hs) as Hturn. cbn in Hturn. destruct (exec cfg 0 e (pl_ctx p)) as [x c] eqn:Ee.
  destruct (IH x (with_worker w c (pl_machine p) (Polling (k x)) p)) as (n & Hn); [by eapply with_worker_get|].
  exists (S n). cbn [replicate run_pool fold_left]. fold (run_pool cfg b (pool_step cfg b p (TWorker w 0)) (replicate n (TWorker w 0))).
  rewrite (turn_worker p w _ Hs). cbn [worker_turn tick]. rewrite Ee. rewrite Hn, with_worker_twice. cbn. by rewrite Ee.
Qed.

Lemma alone_finishing p w t : pl_workers p !! w = Some (Finishing t) →
  ∃ k, run_pool cfg b p (replicate k (TWorker w 0)) = with_worker w (run_tree (pl_ctx p) t).2 (pl_machine p) (Finishing (Ret (run_tree (pl_ctx p) t).1)) p.
Proof.
  revert p. induction t as [a|X e k IH]; intros p Hs; [exists 0; cbn; by rewrite with_worker_same|].
  destruct (exec cfg 0 e (pl_ctx p)) as [x c] eqn:Ee.
  destruct (IH x (with_worker w c (pl_machine p) (Finishing (k x)) p)) as (n & Hn); [by eapply with_worker_get|].
  exists (S n). cbn [replicate run_pool fold_left]. fold (run_pool cfg b (pool_step cfg b p (TWorker w 0)) (replicate n (TWorker w 0))).
  rewrite (turn_worker p w _ Hs). cbn [worker_turn tick]. rewrite Ee. rewrite Hn, with_worker_twice. cbn. by rewrite Ee.
Qed.

(** A transaction of the block that runs alone ends. *)
Lemma alone_executing p w ln i : pl_workers p !! w = Some (Executing ln i) → i < length (bk_jobs b) → length (mc_txs (pl_machine p)) = length (bk_jobs b) →
  ∃ k m r, run_pool cfg b p (replicate k (TWorker w 0)) = with_worker w (pl_ctx p) m (Executing ln i) p ∧ mc_txs m !! i = Some (Finished r).
Proof.
  intros Hs Hi Hlen. destruct (lookup_lt_is_Some_2 (bk_jobs b) i Hi) as [job Hjob].
  assert (∀ p, pl_workers p !! w = Some (Executing ln i) → (∀ r, mc_txs (pl_machine p) !! i ≠ Some (Finished r)) →
    pool_step cfg b p (TWorker w 0) = with_worker w (pl_ctx p) (step b i (pl_machine p)) (Executing ln i) p) as Hstep.
  { intros q Hq Hn. rewrite (turn_worker q w _ Hq). cbn. destruct (mc_txs (pl_machine q) !! i) as [[| |r]|]; try done. by destruct (Hn r). }
  assert (∀ t p, pl_workers p !! w = Some (Executing ln i) → mc_txs (pl_machine p) !! i = Some (Running t) →
    ∃ k m r, run_pool cfg b p (replicate k (TWorker w 0)) = with_worker w (pl_ctx p) m (Executing ln i) p ∧ mc_txs m !! i = Some (Finished r)) as Hrun.
  { induction t as [r|X e k IH]; intros q Hq Hr.
    - exists 1, (step b i (pl_machine q)), r. cbn [replicate run_pool fold_left]. rewrite Hstep by (done || (intros r'; congruence)). split; [done|].
      unfold step. rewrite Hr, Hjob. cbn. apply list_lookup_insert_eq. by eapply lookup_lt_Some.
    - destruct (access (mc_mem (pl_machine q)) e) as [x mem'] eqn:Ea. set (q' := pool_step cfg b q (TWorker w 0)).
      assert (q' = with_worker w (pl_ctx q) (step b i (pl_machine q)) (Executing ln i) q) as Hq' by (apply Hstep; [done|intros r'; congruence]).
      destruct (IH x q') as (n & m & r & Hn & Hm); [rewrite Hq'; by eapply with_worker_get| |].
      + rewrite Hq'. cbn. unfold step. rewrite Hr, Hjob, Ea. cbn. apply list_lookup_insert_eq. by eapply lookup_lt_Some.
      + exists (S n), m, r. split; [|done]. cbn [replicate run_pool fold_left]. fold q'. fold (run_pool cfg b q' (replicate n (TWorker w 0))).
        rewrite Hn, Hq'. cbn [pl_ctx with_worker]. by rewrite with_worker_twice. }
  destruct (lookup_lt_is_Some_2 (mc_txs (pl_machine p)) i ltac:(lia)) as [[|t|r] Hst].
  - set (p' := pool_step cfg b p (TWorker w 0)).
    assert (p' = with_worker w (pl_ctx p) (step b i (pl_machine p)) (Executing ln i) p) as Hp' by (apply Hstep; [done|intros r'; congruence]).
    destruct (Hrun (run_job b job) p') as (n & m & r & Hn & Hm); [rewrite Hp'; by eapply with_worker_get| |].
    + rewrite Hp'. cbn. unfold step. rewrite Hst, Hjob. cbn. apply list_lookup_insert_eq. by eapply lookup_lt_Some.
    + exists (S n), m, r. split; [|done]. cbn [replicate run_pool fold_left]. fold p'. fold (run_pool cfg b p' (replicate n (TWorker w 0))).
      rewrite Hn, Hp'. cbn [pl_ctx with_worker]. by rewrite with_worker_twice.
  - by apply (Hrun t).
  - exists 0, (pl_machine p), r. cbn. by rewrite with_worker_same.
Qed.
End alone.

(** ** What only grows *)

(** Results stay, and a closed node stays closed. *)
Record later (c c' : BlockCtx.t) : Prop := {
  la_results : ∀ i r, BlockCtx.results c !! i = Some r → BlockCtx.results c' !! i = Some r;
  la_open : ∀ i, nd_open (node c' i) = true → nd_open (node c i) = true;
}.

#[export] Instance later_preorder : PreOrder later.
Proof. split; [by split|]. intros c1 c2 c3 [R1 O1] [R2 O2]. split; auto. Qed.

Definition no_open X (e : SchedE X) : Prop := match e with OpenNode _ _ => False | _ => True end.

Section later.
Context (cfg : PoolConfig).

Lemma later_nodes c c' : BlockCtx.results c' = BlockCtx.results c → BlockCtx.nodes c' = BlockCtx.nodes c → later c c'.
Proof. intros Hr Hn. split; [by rewrite Hr|]. unfold node. by rewrite Hn. Qed.

Lemma later_set_node c i nd : (nd_open nd = true → nd_open (node c i) = true) → later c (set_node i nd c).
Proof. intros Hnd. split; [done|]. intros j. rewrite node_set. destruct (decide (j = i)) as [->|]; done. Qed.

Lemma exec_later budget X (e : SchedE X) c : no_open X e → later c (exec cfg budget e c).2.
Proof.
  destruct e; cbn; intros He; try (by apply later_nodes); try done.
  - case_match; by apply later_nodes.
  - unfold link_pred. repeat case_match; cbn; try done; [by apply later_set_node|]. etrans; by apply later_set_node.
  - by apply later_set_node.
  - etrans; [by apply (later_set_node _ i (mkNode (nd_open (node c i)) (nd_children (node c i)) (nd_indegree (node c i)) (nd_worker (node c i)) true (nd_fifo_preds (node c i))))|by apply later_nodes].
  - case_match; by apply later_nodes.
  - unfold steal_back. repeat case_match; by apply later_nodes.
  - case_match; by apply later_nodes.
  - case_match; by apply later_nodes.
  - destruct (BlockCtx.results c !! i) eqn:Ei; [done|]. split; [|done]. intros j r' Hj. cbn. rewrite lookup_insert_ne; [done|]. intros ->. congruence.
  - unfold take_drained. repeat case_match; by apply later_nodes.
  - unfold close_node. case_match; cbn; [by apply later_set_node|]. split; [done|]. intros j. cbn.
    change (node (set_node i ?nd (BlockCtx.with_double_exit ?x c)) j) with (node (set_node i nd c) j). rewrite node_set. by destruct (decide (j = i)).
Qed.

Lemma run_tree_later {A} c (t : Tree SchedE A) : uses no_open t → later c (run_tree cfg c t).2.
Proof. revert c. induction t as [a|X e k IH]; intros c; cbn; [done|]. intros [He Hk]. etrans; [by apply exec_later|]. by apply IH. Qed.

Lemma plain_no_open X (e : SchedE X) : plain X e → no_open X e.
Proof. by destruct e. Qed.

Lemma later_finish_job w i r ln c : BlockCtx.results c !! i = None →
  later c (run_tree cfg c (finish_job cfg w i r ln)).2 ∧ is_Some (BlockCtx.results (run_tree cfg c (finish_job cfg w i r ln)).2 !! i).
Proof.
  intros Hi. assert (uses no_open (finish_job cfg w i r ln)) as Hu.
  { pose proof (uses_prune cfg _ plain_no_open). pose proof (uses_complete_inline cfg _ plain_no_open i). pose proof plain_no_open. unfold finish_job, record_result, complete_job. uses_tac. by split. }
  split; [by apply run_tree_later|]. cbn in Hu |- *. rewrite Hi. destruct Hu as [_ Hu]. specialize (Hu tt).
  eexists. apply (run_tree_later _ _ Hu). cbn. apply lookup_insert_eq.
Qed.
End later.

(** ** The work that is left *)

Definition work (n : nat) (c : BlockCtx.t) : nat := total n (λ i, ind (BlockCtx.results c !! i = None)) + total n (λ i, ind (nd_open (node c i) = true)).

Lemma work_later n c c' : later c c' → work n c' ≤ work n c.
Proof.
  intros [Hr Ho]. unfold work. apply Nat.add_le_mono; apply total_le; intros i _; unfold ind.
  - destruct (BlockCtx.results c !! i) as [r|] eqn:Ei; [rewrite (Hr i r Ei)|]; repeat case_decide; done || lia.
  - specialize (Ho i). repeat case_decide; tauto || lia.
Qed.

Lemma total_lt n f f' i : i < n → (∀ j, j < n → f j ≤ f' j) → f i < f' i → total n f < total n f'.
Proof.
  intros Hi Hf Hlt. induction n as [|n IH]; [lia|]. rewrite !total_S. destruct (decide (i = n)) as [->|].
  - assert (total n f ≤ total n f') by (apply total_le; intros j Hj; apply Hf; lia). lia.
  - pose proof (Hf n ltac:(lia)). specialize (IH ltac:(lia) ltac:(intros j Hj; apply Hf; lia)). lia.
Qed.

Lemma work_result n c c' i : later c c' → i < n → BlockCtx.results c !! i = None → is_Some (BlockCtx.results c' !! i) → work n c' < work n c.
Proof.
  intros Hl Hi Hn [r Hr]. pose proof Hl as [HR HO]. unfold work. apply Nat.add_lt_le_mono.
  - apply (total_lt _ _ _ i Hi); [|rewrite Hr, Hn, ind_false, ind_true by done; lia]. intros j _. unfold ind.
    destruct (BlockCtx.results c !! j) as [r'|] eqn:Ej; [rewrite (HR j r' Ej)|]; repeat case_decide; done || lia.
  - apply total_le. intros j _. specialize (HO j). unfold ind. repeat case_decide; tauto || lia.
Qed.

Lemma work_closed n c c' i : later c c' → i < n → nd_open (node c i) = true → nd_open (node c' i) = false → work n c' < work n c.
Proof.
  intros Hl Hi Ho Hc. pose proof Hl as [HR HO]. unfold work. apply Nat.add_le_lt_mono.
  - apply total_le. intros j _. unfold ind. destruct (BlockCtx.results c !! j) as [r'|] eqn:Ej; [rewrite (HR j r' Ej)|]; repeat case_decide; done || lia.
  - apply (total_lt _ _ _ i Hi); [|rewrite Ho, Hc, ind_false, ind_true by done; lia]. intros j _. specialize (HO j). unfold ind. repeat case_decide; tauto || lia.
Qed.

(** ** Rest *)

Section rest.
Context `{Evm} (cfg : PoolConfig) (b : Block) (mem : Mem) (touch : TouchTable.t) (assign : gmap DomainKey nat) (load : list N) (preps : list Prepared).
Context (Hready : pool_ready cfg b touch assign load preps).

Abbreviation n_txs := (length (bk_jobs b)).
Abbreviation dp := (dp touch preps).
Abbreviation Pinv := (pool_inv cfg b mem dp (feed_end b touch preps)).
Abbreviation run := (run_pool cfg b).

#[local] Instance live_deps : Deps dp.
Proof. apply plan_deps, Hready. Qed.

(** The token of a feed that sealed the block. *)
Definition fed_all : FeedAt := mkFeedAt n_txs n_txs n_txs None true.

(** A worker between two jobs, or out of the block. *)
Definition resting (p : Pool) (hands : list (list Tok)) (w : nat) : Prop :=
  ∃ h, hands !! S (S w) = Some h ∧
    ((∃ ln, pl_workers p !! w = Some (Polling (poll_once cfg w ln)) ∧ h ≡ₚ KOwner w :: next_hand ln ∧ own cfg ln) ∨ (pl_workers p !! w = Some Left ∧ KExit ∈ h)).

Lemma run_only p hands turns k : Pinv p hands → Forall (λ tn, thread tn = k) turns → ∃ hands', Pinv (run p turns) hands' ∧ only k hands hands'.
Proof.
  intros Hp Ht. revert p hands Hp. induction Ht as [|tn turns Htn Ht IH]; intros p hands Hp; [by exists hands|].
  destruct (pool_step_inv cfg b mem dp _ p tn hands Hp) as (h1 & Hp1 & Ho1). destruct (IH _ _ Hp1) as (h2 & Hp2 & Ho2).
  exists h2. split; [done|]. intros j Hj. rewrite Ho2, Ho1 by congruence. done.
Qed.

Lemma turns_of w k : Forall (λ tn, thread tn = S (S w)) (replicate k (TWorker w 0)).
Proof. apply Forall_replicate. done. Qed.

(** The turns of a thread leave the others. *)
Lemma step_others p tn : (thread tn ≠ 0 → pl_feed (pool_step cfg b p tn) = pl_feed p) ∧ (thread tn ≠ 1 → pl_tail (pool_step cfg b p tn) = pl_tail p) ∧
  (∀ w, thread tn ≠ S (S w) → pl_workers (pool_step cfg b p tn) !! w = pl_workers p !! w) ∧ length (pl_workers (pool_step cfg b p tn)) = length (pl_workers p).
Proof.
  destruct tn as [| |w budget]; cbn.
  - destruct (tick cfg 0 (pl_ctx p) (pl_feed p)). split_and!; done.
  - destruct (tail_turn cfg (pl_ctx p) (pl_feed p) (pl_tail p)). split_and!; done.
  - destruct (pl_workers p !! w) as [s|] eqn:Es; [|done]. destruct (worker_turn cfg b w budget (pl_ctx p) (pl_machine p) s) as [[c m] s']. cbn. rewrite length_insert.
    split_and!; try done. intros v Hv. apply list_lookup_insert_ne. congruence.
Qed.

Lemma run_others p turns k : Forall (λ tn, thread tn = k) turns → (k ≠ 0 → pl_feed (run p turns) = pl_feed p) ∧ (k ≠ 1 → pl_tail (run p turns) = pl_tail p) ∧
  (∀ w, k ≠ S (S w) → pl_workers (run p turns) !! w = pl_workers p !! w) ∧ length (pl_workers (run p turns)) = length (pl_workers p).
Proof.
  intros Ht. revert p. induction Ht as [|tn turns Htn Ht IH]; intros p; [done|]. destruct (IH (pool_step cfg b p tn)) as (F & T & W & L).
  destruct (step_others p tn) as (F' & T' & W' & L'). rewrite Htn in F', T', W'.
  change (run p (tn :: turns)) with (run (pool_step cfg b p tn) turns). rewrite L, L'. split_and!; [| |intros w Hw; by rewrite W, W'|done]; intros Hk; by rewrite ?F, ?F', ?T, ?T'.
Qed.

Lemma machine_length p hands : Pinv p hands → length (mc_txs (pl_machine p)) = n_txs.
Proof. intros Hp. destruct (pi_machine _ _ _ _ _ _ _ Hp) as [sched ->]. apply run_schedule_length. Qed.

(** A transaction that is open is one of the block, once the feed is done. *)
Lemma opened_job p hands g ph i : inv cfg dp g ph (pl_ctx p) (concat hands) → hands !! 0 = Some [KFeed fed_all] → ph i ≠ PNew → i < n_txs.
Proof.
  intros Hi Hf Hn. pose proof (below_opened _ _ _ _ _ _ i Hi Hn) as Hlt. destruct (concat_insert hands 0 _ Hf) as (R & HR & _).
  assert (inv cfg dp g ph (pl_ctx p) (KFeed fed_all :: R)) as Hi' by (eapply inv_occ; [|exact Hi]; intros t; by rewrite HR).
  destruct (feed_token _ _ _ _ _ _ _ Hi') as [-> _]. done.
Qed.

(** The last turn before a rest. *)
Lemma rest_turn p hands w s : Pinv p hands → pl_workers p !! w = Some s →
  match s with Polling (Ret (PollRetry, _)) | Polling (Ret (PollDone, _)) | Finishing (Ret _) => True | _ => False end →
  ∃ hands', Pinv (run p [TWorker w 0]) hands' ∧ only (S (S w)) hands hands' ∧ resting (run p [TWorker w 0]) hands' w ∧ pl_ctx (run p [TWorker w 0]) = pl_ctx p.
Proof.
  intros Hp Hs Hrest. pose proof Hp as [P1 _ _ _ P4 _ P6 _]. destruct (P4 w s Hs) as (Hw & h & Hh & Hok). cbn [run_pool fold_left]. rewrite (turn_worker _ _ _ _ _ Hs).
  assert (∀ s' h', worker_ok cfg dp (pl_machine p) w s' h' → shift cfg dp h h' →
    ((∃ ln, s' = Polling (poll_once cfg w ln) ∧ h' ≡ₚ KOwner w :: next_hand ln ∧ own cfg ln) ∨ (s' = Left ∧ KExit ∈ h')) →
    ∃ hands', Pinv (with_worker w (pl_ctx p) (pl_machine p) s' p) hands' ∧ only (S (S w)) hands hands' ∧
      resting (with_worker w (pl_ctx p) (pl_machine p) s' p) hands' w ∧ pl_ctx (with_worker w (pl_ctx p) (pl_machine p) s' p) = pl_ctx p) as Hgo.
  { intros s' h' Hs' Hsh Hr. exists (<[S (S w) := h']> hands). split_and!; [|apply only_insert| |done].
    - eapply pool_inv_worker; [done..| |done|done]. by eapply hands_shift.
    - exists h'. split; [apply list_lookup_insert_eq; by eapply lookup_lt_Some|]. rewrite (with_worker_get w _ _ _ _ _ Hs). destruct Hr as [(ln & -> & ? & ?)|[-> ?]]; [left; by exists ln|by right]. }
  destruct s as [t|ln i|t|]; try done; cbn in Hok.
  - destruct t as [[[i| |] ln]|X e k]; try done; destruct Hok as [(h' & Hsh & Hpo & Hown & _) _]; apply (Hgo _ h'); try done.
    + cbn. rewrite Hpo. cbn. set_solver.
    + right. split; [done|]. rewrite Hpo. cbn. set_solver.
    + by apply begin_poll; [apply _|..].
    + left. by exists ln.
  - destruct t as [[ln|]|X e k]; try done; destruct Hok as [(h' & Hsh & Hpo) _]; apply (Hgo _ h'); try done.
    + destruct Hpo. by apply begin_poll; [apply _|..].
    + destruct Hpo. left. by exists ln.
    + by right.
Qed.

(** ** Coming to rest *)

(** The turns of worker [w] bring it to rest, in a context with [R]. *)
Definition settles (w : nat) (p : Pool) (hands : list (list Tok)) (R : BlockCtx.t → Prop) : Prop :=
  ∃ turns hands', Forall (λ tn, thread tn = S (S w)) turns ∧ Pinv (run p turns) hands' ∧ only (S (S w)) hands hands' ∧ resting (run p turns) hands' w ∧ R (pl_ctx (run p turns)).

Lemma settles_run w p hands turns R : Pinv p hands → Forall (λ tn, thread tn = S (S w)) turns →
  (∀ hands1, Pinv (run p turns) hands1 → only (S (S w)) hands hands1 → settles w (run p turns) hands1 R) → settles w p hands R.
Proof.
  intros Hp Ht Hs. destruct (run_only p hands turns _ Hp Ht) as (h1 & Hp1 & Ho1). destruct (Hs h1 Hp1 Ho1) as (turns2 & h2 & Ht2 & Hp2 & Ho2 & Hr & HR).
  exists (turns ++ turns2), h2. rewrite run_pool_app. split_and!; [by apply Forall_app|done| |done|done]. intros j Hj. by rewrite Ho2, Ho1.
Qed.

Lemma settles_turn w p hands s (R : BlockCtx.t → Prop) : Pinv p hands → pl_workers p !! w = Some s →
  match s with Polling (Ret (PollRetry, _)) | Polling (Ret (PollDone, _)) | Finishing (Ret _) => True | _ => False end → R (pl_ctx p) → settles w p hands R.
Proof.
  intros Hp Hs Hm HR. destruct (rest_turn p hands w s Hp Hs Hm) as (h' & Hp' & Ho & Hrest & Hc). exists [TWorker w 0], h'. split_and!; try done; [apply (turns_of w 1)|by rewrite Hc].
Qed.

Lemma settle_finishing w p hands t (R : BlockCtx.t → Prop) : Pinv p hands → pl_workers p !! w = Some (Finishing t) → R (run_tree cfg (pl_ctx p) t).2 → settles w p hands R.
Proof.
  intros Hp Hs HR. destruct (alone_finishing cfg b p w t Hs) as (k & Hk). eapply (settles_run _ _ _ (replicate k (TWorker w 0)) R Hp (turns_of w k)).
  rewrite Hk. intros h1 Hp1 _. eapply settles_turn; [done|by eapply with_worker_get|done|done].
Qed.

Lemma settle_executing w p hands ln i : Pinv p hands → hands !! 0 = Some [KFeed fed_all] → pl_workers p !! w = Some (Executing ln i) →
  BlockCtx.results (pl_ctx p) !! i = None ∧ i < n_txs ∧ settles w p hands (λ c', later (pl_ctx p) c' ∧ is_Some (BlockCtx.results c' !! i)).
Proof.
  intros Hp Hf Hs. destruct (executing_held cfg b mem touch assign load preps Hready p hands w ln i Hp Hs) as (h & Hh & Hin). destruct (pi_inv _ _ _ _ _ _ _ Hp) as (g & ph & Hi).
  assert (ph i = PRun) as Hph by (eapply held_phase; [exact Hready|exact Hi|exact Hh|done|done]).
  assert (BlockCtx.results (pl_ctx p) !! i = None) as Hnone by (apply eq_None_not_Some; rewrite (at_results _ _ _ _ (iv_places _ _ _ _ _ _ Hi)), Hph; done).
  assert (i < n_txs) as Hlt by (eapply opened_job; [exact Hi|done|by rewrite Hph]). split; [done|]. split; [done|].
  destruct (alone_executing cfg b p w ln i Hs Hlt (machine_length _ _ Hp)) as (k & m & r & Hk & Hm).
  eapply (settles_run _ _ _ (replicate k (TWorker w 0)) _ Hp (turns_of w k)). rewrite Hk. set (p1 := with_worker w (pl_ctx p) m (Executing ln i) p). intros h1 Hp1 _.
  assert (pl_workers p1 !! w = Some (Executing ln i)) as Hs1 by (by eapply with_worker_get).
  eapply (settles_run _ _ _ [TWorker w 0] _ Hp1 (turns_of w 1)). cbn [run_pool fold_left]. rewrite (turn_worker _ _ _ _ _ Hs1). cbn [worker_turn]. change (pl_machine p1) with m. rewrite Hm.
  intros h2 Hp2 _. eapply (settle_finishing w _ _ (finish_job cfg w i r ln)); [done|by eapply with_worker_get|]. by apply later_finish_job.
Qed.

(** A worker that polls comes to rest, with a result more when it found a job. *)
Lemma settle_polling w p hands t : Pinv p hands → hands !! 0 = Some [KFeed fed_all] → pl_workers p !! w = Some (Polling t) →
  let '((poll, ln), c) := run_tree cfg (pl_ctx p) t in
  match poll with
  | PollReady i => BlockCtx.results c !! i = None ∧ i < n_txs ∧ settles w p hands (λ c', later c c' ∧ is_Some (BlockCtx.results c' !! i))
  | _ => settles w p hands (λ c', c' = c)
  end.
Proof.
  intros Hp Hf Hs. destruct (alone_polling cfg b p w t Hs) as (k & Hk). destruct (run_tree cfg (pl_ctx p) t) as [[poll ln] c] eqn:Et. cbn in Hk.
  destruct (run_only p hands _ _ Hp (turns_of w k)) as (h1 & Hp1 & Ho1). rewrite Hk in Hp1.
  assert (∀ R, (∀ hands1, Pinv (run p (replicate k (TWorker w 0))) hands1 → only (S (S w)) hands hands1 → settles w (run p (replicate k (TWorker w 0))) hands1 R) → settles w p hands R) as Hrun
    by (intros R; apply (settles_run w p hands (replicate k (TWorker w 0)) R Hp (turns_of w k))). rewrite Hk in Hrun.
  set (p1 := with_worker w c (pl_machine p) (Polling (Ret (poll, ln))) p) in *. assert (pl_workers p1 !! w = Some (Polling (Ret (poll, ln)))) as Hs1 by (by eapply with_worker_get).
  destruct poll as [i| |]; [|apply Hrun; intros h2 Hp2 _; by eapply settles_turn..].
  destruct (run_only p1 h1 [TWorker w 0] _ Hp1 (turns_of w 1)) as (h2 & Hp2 & Ho2).
  pose proof Hp1 as [P1 _ _ _ P4 _ _ _]. destruct (P4 w _ Hs1) as (_ & h & Hh & [(h' & Hsh & Hpo & _) _]).
  assert (i ∈ BlockCtx.slots c) as Hslot.
  { eapply (held_slot _ _ _ (concat (<[S (S w) := h']> h1)) PRun); [by eapply (hands_shift cfg dp c)|done|]. destruct (concat_insert h1 _ _ Hh) as (R & _ & ->). rewrite Hpo. cbn. set_solver. }
  assert (run p1 [TWorker w 0] = with_worker w c (pl_machine p) (Executing ln i) p1) as Hexec.
  { cbn [run_pool fold_left]. rewrite (turn_worker _ _ _ _ _ Hs1). cbn [worker_turn]. unfold begin_job. change (pl_ctx p1) with c. by rewrite bool_decide_eq_true_2. }
  rewrite Hexec in Hp2. destruct (settle_executing w _ h2 ln i Hp2) as (Hnone & Hlt & _); [by rewrite Ho2, Ho1|by eapply with_worker_get|]. split; [done|]. split; [done|].
  apply Hrun. intros h3 Hp3 Ho3. apply (settles_run w p1 h3 [TWorker w 0] _ Hp3 (turns_of w 1)). rewrite Hexec. intros h4 Hp4 Ho4.
  apply (settle_executing w _ h4 ln i Hp4); [by rewrite Ho4, Ho3|by eapply with_worker_get].
Qed.
End rest.

(** ** Pruning alone *)

Section prune.
Context (cfg : PoolConfig).

Lemma uses_plain_later {A} c (t : Tree SchedE A) : uses no_open t → ∀ i, nd_open (node c i) = false → nd_open (node (run_tree cfg c t).2 i) = false.
Proof. intros Hu i Hc. destruct (nd_open (node (run_tree cfg c t).2 i)) eqn:E; [|done]. apply (run_tree_later cfg c t Hu) in E. congruence. Qed.

Lemma closes_jobs jobs ready c i : i ∈ jobs → nd_open (node (run_tree cfg c (close_jobs jobs ready)).2 i) = false.
Proof.
  revert ready c. induction jobs as [|j jobs IH]; intros ready c Hin; [set_solver|]. cbn [close_jobs]. rewrite run_tree_bind. apply elem_of_cons in Hin as [->|Hin]; [|by apply IH].
  apply uses_plain_later; [apply uses_close_jobs, plain_no_open|]. unfold close_and_collect. rewrite run_tree_bind. apply uses_plain_later; [apply uses_queue_ready_children, plain_no_open|].
  cbn. unfold close_node. case_match; cbn; [by rewrite node_set, decide_True|].
  change (node (set_node j ?nd (BlockCtx.with_double_exit ?x c)) j) with (node (set_node j nd c) j). by rewrite node_set, decide_True.
Qed.

Lemma drain_worker_jobs c v ready jobs : BlockCtx.completed c !!! v = jobs → jobs ≠ [] →
  ∃ c' x, run_tree cfg c (drain_worker v ready) = (x, (run_tree cfg c' (close_jobs jobs ready)).2).
Proof.
  intros Hj Hne. assert (∃ c', exec cfg 0 (TakeDrained v) c = (Some jobs, c')) as [c' Htd].
  { unfold exec, take_drained. rewrite Hj. destruct jobs; [done|]. by eexists. }
  assert (run_tree cfg c (ask (TakeDrained v)) = (Some jobs, c')) as Htd' by (unfold ask; cbn [run_tree]; by rewrite Htd).
  assert (run_tree cfg c (ask (CompletedLen v)) = (length jobs, c)) as Hlen by (by rewrite <-Hj).
  exists c'. unfold drain_worker. rewrite run_tree_bind, Hlen. cbn [fst snd].
  destruct (Nat.eqb_spec (length jobs) 0) as [Hl|_]; [by apply nil_length_inv in Hl|]. rewrite run_tree_bind, Htd'. cbn [fst snd]. rewrite run_tree_bind. by eexists.
Qed.

(** The first buffer with completions is drained. *)
Lemma closes_first l1 v l2 applied ready c i : (∀ w, w ∈ l1 → BlockCtx.completed c !!! w = []) → i ∈ (BlockCtx.completed c !!! v) →
  nd_open (node (run_tree cfg c (drain_workers (l1 ++ v :: l2) applied ready)).2 i) = false.
Proof.
  revert applied ready. induction l1 as [|w l1 IH]; intros applied ready Hl Hin; cbn [app drain_workers]; rewrite run_tree_bind.
  - apply uses_plain_later; [apply uses_drain_workers, plain_no_open|]. destruct (drain_worker_jobs c v ready (BlockCtx.completed c !!! v) eq_refl) as (c' & x & ->).
    + intros Hnil. rewrite Hnil in Hin. set_solver.
    + by apply closes_jobs.
  - assert (run_tree cfg c (drain_worker w ready) = ((0, ready), c)) as ->; [|apply IH; [set_solver|done]].
    unfold drain_worker. rewrite run_tree_bind. cbn [run_tree ask exec fst snd]. by rewrite Hl by set_solver.
Qed.

(** The first of some numbers. *)
Lemma first_of (P : nat → Prop) `{∀ w, Decision (P w)} v n : v < n → P v → ∃ u l, seq 0 n = seq 0 u ++ u :: l ∧ P u ∧ ∀ w, w < u → ¬ P w.
Proof.
  intros Hv HP. assert (∃ u, u ≤ v ∧ P u ∧ ∀ w, w < u → ¬ P w) as (u & Hu & HPu & Hfirst).
  { clear Hv. induction (lt_wf v) as [v _ IH]. destruct (decide (Exists P (seq 0 v))) as [(w & Hw%elem_of_seq & HPw)%Exists_exists|Hn].
    - destruct (IH w ltac:(lia) HPw) as (u & ? & ? & ?). exists u. split; [lia|done].
    - exists v. split; [done|]. split; [done|]. intros w Hw HPw. apply Hn, Exists_exists. exists w. split; [apply elem_of_seq; lia|done]. }
  exists u, (seq (S u) (n - S u)). split; [|done]. change (u :: seq (S u) (n - S u)) with (seq (0 + u) (S (n - S u))). rewrite <-seq_app. f_equal. lia.
Qed.

Lemma prune_closes c v : v < pc_workers cfg → BlockCtx.completed c !!! v ≠ [] →
  ∃ u i, u < pc_workers cfg ∧ i ∈ (BlockCtx.completed c !!! u) ∧ nd_open (node (run_tree cfg c (prune cfg)).2 i) = false.
Proof.
  intros Hv Hne. destruct (first_of (λ w, BlockCtx.completed c !!! w ≠ []) v (pc_workers cfg) Hv Hne) as (u & l & Hseq & Hu & Hfirst).
  assert (u < pc_workers cfg) as Hlt by (assert (u ∈ seq 0 (pc_workers cfg)) as ?%elem_of_seq by (rewrite Hseq; set_solver); lia).
  destruct (BlockCtx.completed c !!! u) as [|i jobs] eqn:Eu; [done|]. exists u, i. rewrite Eu. split; [done|]. split; [set_solver|].
  unfold prune. rewrite run_tree_bind. apply uses_plain_later.
  - pose proof plain_no_open as HP. pose proof (uses_push_all cfg _ HP). pose proof (uses_drained _ HP). uses_tac.
  - rewrite Hseq. apply closes_first; [|rewrite Eu; set_solver]. intros w Hw%elem_of_seq. apply dec_stable, Hfirst. lia.
Qed.
End prune.

(** ** All at rest *)

Section quiet.
Context `{Evm} (cfg : PoolConfig) (b : Block) (mem : Mem) (touch : TouchTable.t) (assign : gmap DomainKey nat) (load : list N) (preps : list Prepared).
Context (Hready : pool_ready cfg b touch assign load preps).

Abbreviation n_txs := (length (bk_jobs b)).
Abbreviation dp := (dp touch preps).
Abbreviation Pinv := (pool_inv cfg b mem dp (feed_end b touch preps)).
Abbreviation run := (run_pool cfg b).

#[local] Instance quiet_deps : Deps dp.
Proof. apply plan_deps, Hready. Qed.

Record quiet (p : Pool) (hands : list (list Tok)) : Prop := {
  qt_inv : Pinv p hands;
  qt_feed : hands !! 0 = Some [KFeed (fed_all b)];
  qt_fed : ∃ s, pl_feed p = Ret (Fed s);
  qt_tail : (pl_tail p = Draining (drain_step cfg) ∧ hands !! 1 = Some []) ∨ pl_tail p = TailOut;
  qt_workers : ∀ w, w < pc_workers cfg → resting cfg p hands w;
}.

Section undrained.
Context (p : Pool) (hands : list (list Tok)) (Hq : quiet p hands) (Htail : pl_tail p ≠ TailOut).
Context (Hab : BlockCtx.aborted (pl_ctx p) = false) (Hdr : ¬ drained_now (pl_ctx p)).
Context (g : FeedAt) (ph : nat → Phase) (Hi : inv cfg dp g ph (pl_ctx p) (concat hands)).

(** No worker left. *)
Lemma quiet_worker w : w < pc_workers cfg → ∃ ln h, pl_workers p !! w = Some (Polling (poll_once cfg w ln)) ∧ hands !! S (S w) = Some h ∧ h ≡ₚ KOwner w :: next_hand ln ∧ own cfg ln.
Proof.
  intros Hw. destruct (qt_workers _ _ Hq w Hw) as (h & Hh & [(ln & Hs & Hpo & Hown)|[_ Hex]]); [by exists ln, h|]. exfalso.
  destruct (inv_sound cfg dp _ _ _ _ KExit Hi) as [?|?]; [|congruence|done]. destruct (concat_insert hands _ _ Hh) as (R & -> & _). set_solver.
Qed.

(** What the threads hold. *)
Lemma quiet_token t : t ∈ concat hands → t = KFeed (fed_all b) ∨ (∃ w, t = KOwner w) ∨
  ∃ w i, t = KAt PRun i ∧ w < pc_workers cfg ∧ pl_workers p !! w = Some (Polling (poll_once cfg w (Some i))) ∧ bag_mode cfg = true.
Proof.
  rewrite list_elem_of_In, in_concat. intros (h & Hh%list_elem_of_In & Ht%list_elem_of_In). apply list_elem_of_lookup in Hh as [k Hk].
  destruct k as [|[|w]].
  - rewrite (qt_feed _ _ Hq) in Hk. injection Hk as <-. apply list_elem_of_singleton in Ht. by left.
  - destruct (qt_tail _ _ Hq) as [[_ H1]|?]; [|done]. rewrite H1 in Hk. injection Hk as <-. set_solver.
  - assert (w < pc_workers cfg) as Hw by (pose proof (lookup_lt_Some _ _ _ Hk); destruct (pi_threads _ _ _ _ _ _ _ (qt_inv _ _ Hq)); lia).
    destruct (quiet_worker w Hw) as (ln & h' & Hs & Hh' & Hpo & Hown). rewrite Hh' in Hk. injection Hk as <-. rewrite Hpo in Ht. apply elem_of_cons in Ht as [->|Ht]; [right; left; by exists w|].
    unfold own in Hown. destruct ln as [i|]; [|by apply elem_of_nil in Ht]. apply list_elem_of_singleton in Ht as ->. right. right. exists w, i. split_and!; try done. destruct (bag_mode cfg); [done|]. by specialize (Hown eq_refl).
Qed.

Lemma quiet_feed : g = fed_all b.
Proof.
  destruct (concat_insert hands 0 _ (qt_feed _ _ Hq)) as (R & HR & _).
  assert (inv cfg dp g ph (pl_ctx p) (KFeed (fed_all b) :: R)) as Hi' by (eapply inv_occ; [|exact Hi]; intros t; by rewrite HR). by destruct (feed_token _ _ _ _ _ _ _ Hi').
Qed.

(** Only a transaction that a worker kept is in hand. *)
Lemma quiet_hand i : in_hand (ph i) = true →
  ∃ w, w < pc_workers cfg ∧ pl_workers p !! w = Some (Polling (poll_once cfg w (Some i))) ∧ bag_mode cfg = true.
Proof.
  intros Hh. assert (KAt (ph i) i ∈ concat hands) as Hin.
  { apply occ_pos. rewrite (at_hand _ _ _ _ (iv_places _ _ _ _ _ _ Hi)) by done. rewrite ind_true by done. lia. }
  destruct (quiet_token _ Hin) as [?|[[? ?]|(w & j & [= Hp ->] & ? & ? & ?)]]; [done|done|]. by exists w.
Qed.

(** While no worker kept one, the first transaction that is not out waits in a queue,
    the bag or a buffer of completions. *)
Lemma quiet_place : (∀ i, in_hand (ph i) = false) → ∃ i, i < n_txs ∧ (ph i = PBag ∨ (∃ w, ph i = PQueue w) ∨ ∃ w, ph i = PComp w).
Proof.
  intros Hno. pose proof (iv_counted _ _ _ _ _ _ Hi) as HC. assert (∃ v, v < n_txs ∧ ph v ≠ POut) as (v & Hv & Hnv).
  { destruct (decide (Exists (λ v, ph v ≠ POut) (seq 0 n_txs))) as [(v & Hv%elem_of_seq & ?)%Exists_exists|Hn]; [exists v; split; [lia|done]|]. exfalso. apply Hdr. split.
    - rewrite (ct_sealed _ _ _ _ HC), quiet_feed. done.
    - rewrite (ct_finished _ _ _ _ HC), (ct_admitted _ _ _ _ HC), quiet_feed. cbn. f_equal.
      rewrite (total_ext _ _ (λ _, 1)); [clear; generalize n_txs; induction n; cbn; lia|]. intros i Hlt. apply ind_true.
      assert (ph i = POut) as ->; [|done]. apply dec_stable. intros Hne. apply Hn, Exists_exists. exists i. split; [apply elem_of_seq; lia|done]. }
  destruct (first_of (λ v, ph v ≠ POut) v n_txs Hv Hnv) as (i & l & Hseq & Hni & Hfirst).
  assert (i < n_txs) as Hlt by (assert (i ∈ seq 0 n_txs) as ?%elem_of_seq by (rewrite Hseq; set_solver); lia). exists i. split; [done|].
  specialize (Hno i). destruct (ph i) eqn:Ei; try done; eauto.
  - apply (ct_new _ _ _ _ HC) in Ei. rewrite quiet_feed in Ei. cbn in Ei. lia.
  - apply (ct_link _ _ _ _ HC) in Ei as [l' Hl']. by rewrite quiet_feed in Hl'.
  - exfalso. pose proof (gr_wait _ _ _ _ _ (iv_graphed _ _ _ _ _ _ Hi) i Ei) as Hd. unfold degree in Hd.
    assert (occ (KDec i) (concat hands) = 0) as Hz by (apply occ_zero; intros [?|[[? ?]|(? & ? & ? & _)]]%quiet_token; done).
    assert (total (fa_opened g) (λ p0, occ i (nd_children (node (pl_ctx p) p0))) ≠ 0) as Ht by lia. apply Ht, total_zero. intros x _. apply occ_zero. intros Hx.
    destruct (gr_children _ _ _ _ _ (iv_graphed _ _ _ _ _ _ Hi) x i Hx) as (Hxi & Ho & _). specialize (Hfirst x Hxi). apply dec_stable in Hfirst. by rewrite Hfirst in Ho.
Qed.

(** A poll alone, when the worker finds a job and when it finds completions. *)
Lemma poll_ready c w ln i ln' c' : BlockCtx.aborted c = false → run_tree cfg c (initial_poll cfg w ln) = ((PopReady i, ln'), c') →
  run_tree cfg c (poll_once cfg w ln) = ((PollReady i, ln'), c').
Proof. intros Ha Hp. unfold poll_once. rewrite run_tree_bind. cbn [run_tree ask exec fst snd]. rewrite Ha, run_tree_bind, Hp. done. Qed.

Lemma poll_prune c w ln ln' c' : BlockCtx.aborted c = false → run_tree cfg c (initial_poll cfg w ln) = ((PopDry, ln'), c') → (0 < BlockCtx.pending c')%N →
  run_tree cfg c (poll_once cfg w ln) = ((PollRetry, ln'), (run_tree cfg c' (prune cfg)).2).
Proof.
  intros Ha Hp Hpend. unfold poll_once. rewrite run_tree_bind. cbn [run_tree ask exec fst snd]. rewrite Ha, run_tree_bind, Hp. cbn [fst snd]. rewrite run_tree_bind.
  assert (run_tree cfg c' (apply_pending cfg) = (true, (run_tree cfg c' (prune cfg)).2)) as ->; [|done]. unfold apply_pending. rewrite run_tree_bind. cbn [run_tree ask exec fst snd].
  apply N.ltb_lt in Hpend. rewrite Hpend, run_tree_bind. done.
Qed.

(** A worker that finds a job does work. *)
Lemma find_job w ln i ln' c' : pl_workers p !! w = Some (Polling (poll_once cfg w ln)) → run_tree cfg (pl_ctx p) (initial_poll cfg w ln) = ((PopReady i, ln'), c') →
  BlockCtx.results c' = BlockCtx.results (pl_ctx p) → BlockCtx.nodes c' = BlockCtx.nodes (pl_ctx p) →
  settles cfg b mem touch preps w p hands (λ c, work n_txs c < work n_txs (pl_ctx p)).
Proof.
  intros Hs Hpoll Hr Hn. pose proof (settle_polling cfg b mem touch assign load preps Hready w p hands _ (qt_inv _ _ Hq) (qt_feed _ _ Hq) Hs) as Hset.
  rewrite (poll_ready _ _ _ _ _ _ Hab Hpoll) in Hset. destruct Hset as (Hnone & Hlt & turns & h' & Ht & Hp & Ho & Hrest & Hl & Hsome).
  exists turns, h'. split_and!; try done. apply (work_result _ _ _ i); [|done|by rewrite <-Hr|done]. etrans; [by apply later_nodes|exact Hl].
Qed.

Lemma some_work : ∃ w, w < pc_workers cfg ∧ settles cfg b mem touch preps w p hands (λ c, work n_txs c < work n_txs (pl_ctx p)).
Proof.
  pose proof (pr_workers _ _ _ _ _ _ Hready) as HW. pose proof (iv_places _ _ _ _ _ _ Hi) as HP.
  destruct (decide (Exists (λ i, in_hand (ph i) = true) (seq 0 n_txs))) as [(i & _ & Hh)%Exists_exists|Hn].
  { destruct (quiet_hand i Hh) as (w & Hw & Hs & Hb). exists w. split; [done|]. eapply (find_job w (Some i) i None (pl_ctx p)); [done| |done|done]. unfold initial_poll. by rewrite Hb. }
  assert (∀ i, in_hand (ph i) = false) as Hno.
  { intros i. destruct (in_hand (ph i)) eqn:Eh; [|done]. exfalso. apply Hn, Exists_exists. exists i. split; [|done]. apply elem_of_seq. split; [lia|].
    eapply opened_job; [exact Hi|by apply Hq|]. intros Hnew. by rewrite Hnew in Eh. }
  assert (∀ w, w < pc_workers cfg → pl_workers p !! w = Some (Polling (poll_once cfg w None))) as Hpoll.
  { intros w Hw. destruct (quiet_worker w Hw) as ([i|] & h & Hs & Hh & Hpo & _); [|done]. exfalso. specialize (Hno i).
    assert (ph i = PRun) as E; [|by rewrite E in Hno]. eapply held_phase; [exact Hready|exact Hi|exact Hh|rewrite Hpo; cbn; set_solver|done]. }
  destruct (quiet_place Hno) as (i & Hlt & Hplace).
  destruct (decide (Exists (λ v, (BlockCtx.queues (pl_ctx p) !!! v) ≠ []) (seq 0 (pc_workers cfg)))) as [(v & Hv%elem_of_seq & Hqv)%Exists_exists|Hempty].
  { exists v. split; [lia|]. destruct (BlockCtx.queues (pl_ctx p) !!! v) as [|j q] eqn:Ev; [done|].
    assert (ph j = PQueue v) as Hj by (rewrite <-(queue_phase _ _ _ _ _ _ v j Hi), Ev; set_solver). destruct (queue_mode _ _ _ _ _ _ _ _ Hi Hj) as (Hb & _).
    assert (fifo_ready_now (pl_ctx p) j = true) as Hready'.
    { unfold fifo_ready_now. apply forallb_forall. intros x Hx%list_elem_of_In. apply bool_decide_eq_true_2, (at_results _ _ _ _ HP).
      destruct (qu_order _ _ _ _ _ (iv_queued _ _ _ _ _ _ Hi) v [] j q x Ev Hx) as [Ht|?]; [|set_solver]. specialize (Hno x). by destruct (ph x). }
    apply (find_job v None j None (BlockCtx.with_queues (<[v := q]> (BlockCtx.queues (pl_ctx p))) (pl_ctx p))); [apply Hpoll; lia| |done|done]. unfold initial_poll. rewrite Hb, run_tree_bind. cbn [run_tree ask exec fst snd]. rewrite Ev. cbn [fst snd].
    rewrite run_tree_bind. cbn [run_tree ask exec fst snd]. change (fifo_ready_now (BlockCtx.with_queues _ _) j) with (fifo_ready_now (pl_ctx p) j). rewrite Hready'. done. }
  assert (∀ v, v < pc_workers cfg → BlockCtx.queues (pl_ctx p) !!! v = []) as Hnil.
  { intros v Hv. apply dec_stable. intros Hne. apply Hempty, Exists_exists. exists v. split; [apply elem_of_seq; lia|done]. }
  exists 0. split; [done|]. specialize (Hpoll 0 HW). destruct Hplace as [Hbag|[[v Hqv]|[v Hcv]]].
  - assert (bag_mode cfg = true) as Hb by (pose proof (at_mode _ _ _ _ HP i) as Hm; by rewrite Hbag in Hm).
    destruct (BlockCtx.bag (pl_ctx p)) as [|j l] eqn:Eb; [rewrite <-(bag_phase _ _ _ _ _ _ i Hi), Eb in Hbag; set_solver|].
    apply (find_job 0 None j None (BlockCtx.with_bag l (pl_ctx p))); [done| |done|done]. unfold initial_poll. rewrite Hb, run_tree_bind. cbn [run_tree ask exec fst snd]. rewrite Eb. done.
  - destruct (queue_mode _ _ _ _ _ _ _ _ Hi Hqv) as (_ & _ & Hv). rewrite <-(queue_phase _ _ _ _ _ _ v i Hi), Hnil in Hqv by done. set_solver.
  - pose proof (at_mode _ _ _ _ HP i) as Hm. rewrite Hcv in Hm. cbn in Hm. apply negb_true_iff in Hm. destruct (completed_jobs _ _ _ _ _ _ v Hi) as (_ & Hin & _).
    assert (v < pc_workers cfg) as Hv.
    { destruct (decide (v < pc_workers cfg)); [done|]. assert (i ∈ (BlockCtx.completed (pl_ctx p) !!! v)) as Hx by (by apply Hin).
      rewrite list_lookup_total_alt, lookup_ge_None_2 in Hx by (destruct (at_lens _ _ _ _ HP); lia). set_solver. }
    destruct (prune_closes cfg (pl_ctx p) v Hv) as (u & j & Hu & Hj & Hclosed); [intros He; rewrite <-Hin, He in Hcv; set_solver|].
    assert (ph j = PComp u) as Hpj by (destruct (completed_jobs _ _ _ _ _ _ u Hi) as (_ & Hin' & _); by apply Hin').
    pose proof (settle_polling cfg b mem touch assign load preps Hready 0 p hands _ (qt_inv _ _ Hq) (qt_feed _ _ Hq) Hpoll) as Hset.
    rewrite (poll_prune (pl_ctx p) 0 None None (pl_ctx p) Hab) in Hset.
    + destruct Hset as (turns & h' & Ht & Hp & Ho & Hrest & Hc). exists turns, h'. split_and!; try done. rewrite Hc. apply (work_closed _ _ _ j); [| | |done].
      * apply run_tree_later, uses_prune, plain_no_open.
      * eapply opened_job; [exact Hi|by apply Hq|by rewrite Hpj].
      * by rewrite (gr_open _ _ _ _ _ (iv_graphed _ _ _ _ _ _ Hi)), Hpj.
    + unfold initial_poll. rewrite Hm, run_tree_bind. cbn [run_tree ask exec fst snd]. rewrite Hnil by done. done.
    + rewrite (ct_pending _ _ _ _ (iv_counted _ _ _ _ _ _ Hi)), quiet_feed. cbn. assert (total n_txs (λ i, ind (owed (ph i) = true)) ≠ 0) as Ht; [|lia]. intros Hz.
      rewrite total_zero in Hz. specialize (Hz i Hlt). rewrite Hcv in Hz. done.
Qed.
End undrained.

(** ** Draining *)

(** The other workers stay at rest. *)
Lemma resting_others p hands turns hands' w w' : Forall (λ tn, thread tn = S (S w)) turns → only (S (S w)) hands hands' → w' ≠ w → resting cfg p hands w' → resting cfg (run p turns) hands' w'.
Proof.
  intros Ht Ho Hne (h & Hh & Hr). destruct (run_others cfg b p turns _ Ht) as (_ & _ & HW & _). exists h. rewrite Ho by congruence. split; [done|]. rewrite HW by congruence. done.
Qed.

Lemma quiet_settles p hands w R : quiet p hands → settles cfg b mem touch preps w p hands R → ∃ turns hands', quiet (run p turns) hands' ∧ R (pl_ctx (run p turns)).
Proof.
  intros Hq (turns & h' & Ht & Hp & Ho & Hrest & HR). exists turns, h'. split; [|done]. destruct (run_others cfg b p turns _ Ht) as (F & T & _ & _). split; try done.
  - rewrite Ho by done. apply (qt_feed _ _ Hq).
  - rewrite F by done. apply (qt_fed _ _ Hq).
  - rewrite T, Ho by done. apply (qt_tail _ _ Hq).
  - intros w' Hw'. destruct (decide (w' = w)) as [->|Hne]; [done|]. eapply resting_others; [done..|by apply (qt_workers _ _ Hq)].
Qed.

Definition with_tail (c : BlockCtx.t) (t : Tail) (p : Pool) : Pool := mkPool c (pl_machine p) (pl_feed p) (pl_workers p) t.

Lemma alone_draining p t : pl_tail p = Draining t →
  ∃ k, run p (replicate k TTail) = with_tail (run_tree cfg (pl_ctx p) t).2 (Draining (Ret (run_tree cfg (pl_ctx p) t).1)) p.
Proof.
  revert p. induction t as [a|X e k IH]; intros p Ht; [exists 0; unfold with_tail; cbn; rewrite <-Ht; by destruct p|].
  destruct (IH (exec cfg 0 e (pl_ctx p)).1 (with_tail (exec cfg 0 e (pl_ctx p)).2 (Draining (k (exec cfg 0 e (pl_ctx p)).1)) p) eq_refl) as (n & Hn).
  exists (S n). cbn [replicate]. change (run p (TTail :: replicate n TTail)) with (run (pool_step cfg b p TTail) (replicate n TTail)).
  assert (pool_step cfg b p TTail = with_tail (exec cfg 0 e (pl_ctx p)).2 (Draining (k (exec cfg 0 e (pl_ctx p)).1)) p) as ->; [|exact Hn].
  cbn. rewrite Ht. cbn. by destruct (exec cfg 0 e (pl_ctx p)).
Qed.

Lemma tail_leaves p : pl_tail p = Draining (drain_step cfg) → BlockCtx.aborted (pl_ctx p) = true ∨ drained_now (pl_ctx p) → ∃ turns, pl_tail (run p turns) = TailOut.
Proof.
  intros Ht Hout. assert ((run_tree cfg (pl_ctx p) (drain_step cfg)).1 = true) as Hrun.
  { unfold drain_step. rewrite run_tree_bind. cbn [run_tree ask exec fst snd]. destruct (BlockCtx.aborted (pl_ctx p)); [done|]. destruct Hout as [?|[Hs Hf]]; [done|].
    rewrite run_tree_bind. assert (run_tree cfg (pl_ctx p) drained = (true, pl_ctx p)) as ->; [|done].
    unfold drained. rewrite run_tree_bind. cbn [run_tree ask exec fst snd]. rewrite Hs. cbn. by rewrite Hf, N.eqb_refl. }
  destruct (alone_draining p _ Ht) as (k & Hk). exists (replicate k TTail ++ [TTail]). rewrite run_pool_app, Hk, Hrun. done.
Qed.

Lemma quiet_drains p hands : quiet p hands → ∃ turns, pl_tail (run p turns) = TailOut.
Proof.
  remember (work n_txs (pl_ctx p)) as k eqn:Ek. revert p hands Ek. induction (lt_wf k) as [k _ IH]. intros p hands -> Hq.
  destruct (qt_tail _ _ Hq) as [[Ht _]|Ht]; [|by exists []].
  destruct (BlockCtx.aborted (pl_ctx p)) eqn:Hab; [apply tail_leaves; auto|].
  destruct (decide (BlockCtx.sealed (pl_ctx p) = true ∧ BlockCtx.finished (pl_ctx p) = BlockCtx.admitted (pl_ctx p))) as [Hd|Hd]; [apply tail_leaves; auto|].
  destruct (pi_inv _ _ _ _ _ _ _ (qt_inv _ _ Hq)) as (g & ph & Hi). destruct (some_work p hands Hq) with (g := g) (ph := ph) as (w & Hw & Hs); [by rewrite Ht|done|done|done|].
  destruct (quiet_settles _ _ _ _ Hq Hs) as (turns & h' & Hq' & Hlt). destruct (IH _ Hlt _ _ eq_refl Hq') as (turns2 & Hout). exists (turns ++ turns2). by rewrite run_pool_app.
Qed.

(** ** Every state comes to rest *)

Lemma alone_feed p : ∃ k c r, run p (replicate k TFeed) = mkPool c (pl_machine p) (Ret r) (pl_workers p) (pl_tail p).
Proof.
  remember (pl_feed p) as t eqn:Et. revert p Et. induction t as [r|X e k IH]; intros p Et; [exists 0, (pl_ctx p), r; cbn; rewrite Et; by destruct p|].
  destruct (IH (exec cfg 0 e (pl_ctx p)).1 (mkPool (exec cfg 0 e (pl_ctx p)).2 (pl_machine p) (k (exec cfg 0 e (pl_ctx p)).1) (pl_workers p) (pl_tail p)) eq_refl) as (n & c & r & Hn).
  exists (S n), c, r. cbn [replicate]. change (run p (TFeed :: replicate n TFeed)) with (run (pool_step cfg b p TFeed) (replicate n TFeed)).
  assert (pool_step cfg b p TFeed = mkPool (exec cfg 0 e (pl_ctx p)).2 (pl_machine p) (k (exec cfg 0 e (pl_ctx p)).1) (pl_workers p) (pl_tail p)) as ->; [|exact Hn].
  cbn. rewrite <-Et. cbn. by destruct (exec cfg 0 e (pl_ctx p)).
Qed.

(** The feed runs to its end. *)
Lemma feed_rests p hands : ¬ too_long b touch preps → Pinv p hands →
  ∃ turns hands', Pinv (run p turns) hands' ∧ hands' !! 0 = Some [KFeed (fed_all b)] ∧ ∃ s, pl_feed (run p turns) = Ret (Fed s).
Proof.
  intros Hlong Hp. destruct (alone_feed p) as (k & c & r & Hk). exists (replicate k TFeed). destruct (run_only cfg b mem touch assign load preps Hready p hands (replicate k TFeed) 0 Hp) as (h1 & Hp1 & _); [by apply Forall_replicate|].
  rewrite Hk in Hp1 |- *. pose proof Hp1 as [P1 (h & Hh & (h' & Hs & Hend) & Hu) _ Pf _ _ Pr _]. cbn in P1, Hu, Pf, Pr.
  destruct r as [s| |]; cbn in Hend; [|done..]. destruct Hend as [-> _].
  exists (<[0 := [KFeed (fed_all b)]]> h1). split_and!; [|apply list_lookup_insert_eq; by eapply lookup_lt_Some|by exists s].
  eapply (pool_inv_feed _ _ _ _ _ _ _ c (Ret (Fed s)) _ _ Hp1 Hh); [by eapply hands_shift| |done|intros _; by exists s|exact Pr].
  exists [KFeed (fed_all b)]. split; [by intros R|done].
Qed.

Lemma drain_ok : tail_ok cfg dp (Draining (drain_step cfg)) [].
Proof. split; [apply (gwp_drain_step cfg dp)|apply uses_drain_step, plain_no_result]. Qed.

(** So does the tail, to the start of its next look at the counters or out of the block. *)
Lemma tail_rests p hands : Pinv p hands → (∃ s, pl_feed p = Ret (Fed s)) →
  ∃ turns hands', Pinv (run p turns) hands' ∧ only 1 hands hands' ∧ pl_feed (run p turns) = pl_feed p ∧
    ((pl_tail (run p turns) = Draining (drain_step cfg) ∧ hands' !! 1 = Some []) ∨ pl_tail (run p turns) = TailOut).
Proof.
  intros Hp (s & Hs). destruct (pl_tail p) as [|t|] eqn:Et; [| |exists [], hands; split_and!; [done|done|done|by right]].
  - destruct (pool_step_inv cfg b mem dp _ p TTail hands Hp) as (h1 & Hp1 & Ho). pose proof Hp as [P1 _ (h & Hh & Ht) _ _ _ Pr _]. rewrite Et in Ht. cbn in Ht. subst h.
    exists [TTail], (<[1 := []]> hands). cbn [run_pool fold_left pool_step]. rewrite Et, Hs. cbn [tail_turn]. split_and!; [|apply only_insert|done|left; split; [done|apply list_lookup_insert_eq; by eapply lookup_lt_Some]].
    rewrite <-Hs. eapply pool_inv_tail; [done..|by rewrite list_insert_id| |by intros _; exists s|done]. apply drain_ok.
  - destruct (alone_draining p t Et) as (k & Hk). destruct (run_only cfg b mem touch assign load preps Hready p hands (replicate k TTail) 1 Hp) as (h1 & Hp1 & Ho1); [by apply Forall_replicate|].
    exists (replicate k TTail ++ [TTail]). rewrite run_pool_app. rewrite Hk in Hp1 |- *. destruct (run_tree cfg (pl_ctx p) t) as [out c].
    pose proof Hp1 as [P1 _ (h & Hh & (h' & Hsh & Hout) & _) Pf _ _ Pr _]. cbn [fst snd with_tail pl_tail pl_feed pl_ctx pl_machine] in *.
    pose proof (hands_shift _ _ _ _ _ _ _ P1 Hh Hsh) as HI. exists (<[1 := h']> h1). cbn [run_pool fold_left pool_step with_tail pl_tail tail_turn]. unfold checked in Hout.
    split_and!; [| |by destruct out|destruct out; [by right|left; split; [done|by subst h'; apply list_lookup_insert_eq; eapply lookup_lt_Some]]].
    + destruct out; (eapply (pool_inv_tail _ _ _ _ _ _ _ _ _ _ _ Hp1 Hh HI); [|by intros _; exists s|done]); [done|]. subst h'. apply drain_ok.
    + intros j Hj. rewrite list_lookup_insert_ne by done. by apply Ho1.
Qed.

(** And each worker. *)
Lemma worker_settles p hands w : Pinv p hands → hands !! 0 = Some [KFeed (fed_all b)] → w < pc_workers cfg → settles cfg b mem touch preps w p hands (λ _, True).
Proof.
  intros Hp Hf Hw. destruct (lookup_lt_is_Some_2 (pl_workers p) w) as [s Hs]; [by rewrite (proj1 (pi_threads _ _ _ _ _ _ _ Hp))|].
  assert (∀ R, settles cfg b mem touch preps w p hands R → settles cfg b mem touch preps w p hands (λ _, True)) as Hweak by (intros R (turns & h' & ? & ? & ? & ? & _); by exists turns, h').
  destruct s as [t|ln i|t|].
  - pose proof (settle_polling cfg b mem touch assign load preps Hready w p hands t Hp Hf Hs) as Hset. destruct (run_tree cfg (pl_ctx p) t) as [[[i| |] ln] c]; [destruct Hset as (_ & _ & Hset)|..]; by eapply Hweak.
  - destruct (settle_executing cfg b mem touch assign load preps Hready w p hands ln i Hp Hf Hs) as (_ & _ & Hset). by eapply Hweak.
  - eapply settle_finishing; done.
  - exists [], hands. split_and!; try done. destruct (pi_workers _ _ _ _ _ _ _ Hp w _ Hs) as (_ & h & Hh & Hok). exists h. split; [done|]. by right.
Qed.

Lemma workers_rest p hands k : Pinv p hands → hands !! 0 = Some [KFeed (fed_all b)] → k ≤ pc_workers cfg →
  ∃ turns hands', Pinv (run p turns) hands' ∧ hands' !! 0 = hands !! 0 ∧ hands' !! 1 = hands !! 1 ∧
    pl_feed (run p turns) = pl_feed p ∧ pl_tail (run p turns) = pl_tail p ∧ ∀ w, w < k → resting cfg (run p turns) hands' w.
Proof.
  intros Hp Hf Hk. induction k as [|k IH]; [exists [], hands; split_and!; try done; lia|].
  destruct IH as (turns & h1 & Hp1 & H0 & H1 & F & T & HR); [lia|]. destruct (worker_settles _ h1 k Hp1) as (turns2 & h2 & Ht2 & Hp2 & Ho & Hrest & _); [by rewrite H0|lia|].
  exists (turns ++ turns2), h2. rewrite run_pool_app. destruct (run_others cfg b (run p turns) turns2 _ Ht2) as (F2 & T2 & _ & _). split_and!; [done|by rewrite Ho|by rewrite Ho|by rewrite F2|by rewrite T2|].
  intros w Hw. destruct (decide (w = k)) as [->|Hne]; [done|]. eapply resting_others; [done..|]. apply HR. lia.
Qed.

Lemma pool_drains p hands : ¬ too_long b touch preps → Pinv p hands → ∃ turns, pl_tail (run p turns) = TailOut.
Proof.
  intros Hlong Hp. destruct (feed_rests p hands Hlong Hp) as (t1 & h1 & Hp1 & Hf1 & Hs1). destruct (tail_rests _ _ Hp1 Hs1) as (t2 & h2 & Hp2 & Ho2 & F2 & Ht2).
  destruct (workers_rest _ _ (pc_workers cfg) Hp2) as (t3 & h3 & Hp3 & H0 & H1 & F3 & T3 & HR); [by rewrite Ho2|done|].
  destruct (quiet_drains (run (run (run p t1) t2) t3) h3) as (t4 & Hout).
  - split; [done|by rewrite H0, Ho2|by rewrite F3, F2|by rewrite T3, H1|done].
  - exists (t1 ++ t2 ++ t3 ++ t4). by rewrite !run_pool_app.
Qed.

(** C2. The scheduler never wedges. Take a block of at most [MAX_BLOCK_TXS] transactions
    whose predicted cells, counted once each, are no more than the slots of the toucher
    index. Whatever turns the feed, the workers and the tail have taken so far, in
    whatever order, there are further turns after which the tail leaves the block. No
    interleaving loses a transaction: one that waits on a parent, in the bag, in a queue
    or in a buffer of completions can always be brought to its result and out of the
    block, and the counters of the block then agree. *)
Theorem pool_never_wedges turns : length (bk_jobs b) ≤ MAX_BLOCK_TXS → size (block_cells preps) ≤ length (TouchTable.slots touch) →
  ∃ more, pl_tail (ran_pool cfg b mem touch assign load preps (turns ++ more)) = TailOut.
Proof.
  intros Hn Hcells. assert (¬ too_long b touch preps) as Hlong.
  { unfold too_long. rewrite block_plan_fits by (done || apply Hready). rewrite (pr_preps _ _ _ _ _ _ Hready). lia. }
  destruct (ran_pool_inv cfg b mem touch assign load preps Hready turns) as (hands & Hp). destruct (pool_drains _ _ Hlong Hp) as (more & Hout).
  exists more. unfold ran_pool. by rewrite run_pool_app.
Qed.
End quiet.

(** A block whose second transaction executes still drains. *)
Lemma pool_never_wedges_witness : ∃ more, pl_tail (ran_pool toy_cfg toy_block toy_mem toy_touch ∅ [0; 0]%N toy_preps (toy_turns 30 40 ++ more)) = TailOut.
Proof.
  apply (pool_never_wedges toy_cfg toy_block toy_mem toy_touch ∅ [0; 0]%N toy_preps toy_ready (toy_turns 30 40)).
  - apply (bool_decide_eq_true_1 (_ ≤ _)). by vm_compute.
  - apply (bool_decide_eq_true_1 (_ ≤ _)). by vm_compute.
Defined.
